(* ===== verification/_CoqProject ===== *)
-Q . S2P
Prelude.v
MagicDiv.v
Regs.v
ISel.v
ConstDiv.v
Switch.v
Smt.v
SmtEquiv.v
SmtSem.v
SatBlast.v
SatBlastSound.v
SatProv.v
Frame.v
FrameSlots.v
FrameExec.v
Dwarf.v
DwarfCheck.v
Unwind.v
CompactUnwind.v
MachFunc.v
Relax.v
RelaxSound.v
RelaxExec.v
Liveness.v
LiveSets.v
LiveFlow.v
LiveBuild.v
LinearScan.v
LinearScanSound.v
Reserve.v
FixedRegs.v
AllocExec.v
ParCopy.v
LogicalImm.v
DomTree.v
DomRpo.v
DomSound.v
DomEuler.v
DomFrontier.v
Loops.v
LoopsSound.v
LoopNest.v
Phis.v
PhisSound.v
PhisEdges.v
PhisExec.v
Spill.v
SpillSound.v
SpillExec.v
PhisAlloc.v
