(* ===== verification/Prelude.v ===== *)
(** * A verification of the AArch64 path of Trust Codegen

    Trust Codegen ([crates/]) compiles trust-ir to machine code and checks its
    own steps.  This library models the parts of it whose correctness is an
    argument about values rather than about plumbing, in the order in which a
    function passes through them, and proves that each does what the next relies
    on.  Every definition is a translation of the source named in the header of its
    file, keeps the names of the source, and computes: the examples evaluate it.

    ** The program and the files

    Lowering ([trust-cg-lower], [trust-cg-ir]).
    - [MagicDiv]: [magic_udiv.rs].  The 256-bit accumulator ([Module U256]), the
      searches for multipliers and the band predicates ([Module Magic]).
    - [Regs]: [aarch64_regs.rs], [regs.rs].  Registers, classes, views, overlap.
    - [ISel]: [isel.rs].  Types, operands, instructions and the state of the
      instruction selector with its error monad, value maps and constant
      materialization; the meaning of the straight-line AArch64 instructions and
      the program logic [wp] for selector computations.
    - [ConstDiv]: the division and remainder by a constant of [isel.rs].
    - [Switch]: [switch.rs] and the [select_switch] family of [isel.rs], with a
      machine that runs the emitted blocks.

    - [ParCopy]: the sequencing of simultaneous copies, of block arguments in
      [adapter.rs] and of phis in [phi_elim.rs].
    - [LogicalImm]: bitmask immediates, across [isel.rs], the encoder ([encode.rs]),
      the disassembler ([trust-cg-lift]) and the interpreter of the tests.

    Analyses ([trust-cg-opt]).
    - [DomTree]: [dom.rs].  [DomRpo] proves the depth-first search, [DomSound] the
      iteration over immediate dominators, [DomEuler] the stamps of the Euler tour,
      [DomFrontier] the frontiers.
    - [Loops]: [loops.rs].  [LoopsSound] proves the loop bodies, [LoopNest] the nest.

    Verification ([trust-cg-verify]).
    - [Smt]: [smt.rs].  Expressions, the interpreter [try_eval], the compiled
      evaluators [CExpr] and [FlatProg].  [SmtEquiv] relates the evaluators,
      [SmtSem] the interpreter and SMT-LIB.
    - [SatBlast]: [sat_blast.rs].  The bit-blaster and its provenance check.
      [SatBlastSound] proves the miter faithful, [SatProv] the check.

    Register allocation ([trust-cg-regalloc]).
    - [Liveness]: [liveness.rs].  Live ranges, intervals, bitsets; [LiveSets]
      proves the bitsets to be sets.
    - [LiveFlow]: [machine_types.rs] and the dataflow of [compute_live_intervals];
      [LiveBuild]: the construction of intervals from it.
    - [LinearScan]: [linear_scan.rs] with the register aliases of [greedy.rs] and
      [x86_adapter.rs].  [LinearScanSound] proves it.
    - [Reserve]: the reservations and copy hints of [lib.rs].  [FixedRegs] states how
      lowered code protects the values in fixed registers and proves what the
      reservations contain.
    - [AllocExec]: the composition of the above in the linear-scan arm of [lib.rs],
      and a semantics of code over virtual and over allocated registers, which share
      the register file with the fixed registers of the code.
    - [Phis]: [phi_elim.rs].  [PhisSound] proves edge splitting and phi removal,
      [PhisEdges] which copies every edge gets, [PhisExec] that execution is kept.
    - [Spill]: [spill.rs], [spill_slot_reuse.rs] and the spill phases of [lib.rs].
      [SpillSound] proves what code they produce and which registers share a slot,
      [SpillExec] that execution is kept.
    - [PhisAlloc]: all of these phases composed, from phis to spilled code.

    Code generation ([trust-cg-codegen]).
    - [MachFunc]: the machine functions of [trust-cg-ir] and the totality check of
      [pipeline.rs] that guards every arena access.
    - [Frame]: [frame.rs].  Callee-saved scan, stack slots, frame layout, prologue,
      epilogue, compact unwind encoding.  [FrameSlots] proves the slot placement,
      [FrameExec] executes the sequences, [CompactUnwind] interprets the encoding.
    - [Dwarf]: [dwarf_cfi.rs] and [dwarf_cfi_decode_check.rs].  [DwarfCheck] proves
      emitter and checker against each other, [Unwind] the emitted call frame
      program against the prologue of [Frame].
    - [Relax]: [relax.rs].  [RelaxSound] proves the loop and the ranges,
      [RelaxExec] that relaxation preserves execution.

    [Prelude] holds the machine-width integers ([wrap], [swrap], [uword], [sword]),
    their lemmas and the hint databases.

    ** What the theorems show

    - Arithmetic: the bands accept exactly the multipliers whose sequence divides
      every dividend, the searches find one, and the emitted code computes quotient
      and remainder for every accepted type, divisor and value.
    - Dispatch: the code of a switch reaches the block of the source case for every
      selector value, and the structural gates accept exactly the switches that the
      theorem on them names (a repeated case passes the gate of the jump table).
    - Copies: the scheduled copies have the effect of the simultaneous assignment.
    - Logical immediates: instruction selection, encoder, disassembler and
      interpreter agree on which constants are encodable and on what they mean.
    - Dominators and loops: on validated functions dominance, immediate dominators
      and frontiers (but at the entry) are those of the graph; loops are recorded
      for exactly the back edges with exact bodies; without unreachable blocks the
      loops form a tree that the recorded parents, depths and innermost loops
      describe.
    - Evaluators: accepted compilations return the result of the interpreter (for
      array indices that are bitvectors by shape); within the widths it carries the
      interpreter is type-sound and computes the SMT-LIB operations, beyond them it
      does not.
    - Bit-blasting: a miter is unsatisfiable exactly when both sides agree on all
      inputs; provenance accepts only complete gate encodings, up to the sign of the
      difference literals; every failure is a declared error.
    - Frames: slots of fixed size lie inside the frame without overlap; epilogue after prologue
      restores what the convention preserves; the DWARF program and the compact
      encoding recover the caller at every instruction they cover.
    - Sections: serialized call frame information passes the decode check, and the
      bytes determine the section; relocations point at their fields.
    - Relaxation: it terminates, leaves every branch but [Bcc] within the field the
      encoder has for it and preserves the runs of the code over any machine.
    - Validation: an accepted function has all its ids in range and its recorded
      edges are those of its instructions.
    - Live sets and intervals: the bitsets are sets, intervals and their queries are
      exact.
    - Register allocation: the dataflow converges before its limit to liveness
      along paths; intervals cover what is live, so interference shows as overlap;
      linear scan always returns and separates what overlaps; composed, allocated
      code and code over virtual registers simulate each other, fixed registers
      included, on functions whose values in allocatable fixed registers are
      protected (call arguments from setup to call, incoming arguments in the entry
      block, registers mentioned where or after what is defined outlives them) and
      machines that touch only the listed fixed registers.
    - Phis: lowering them to copies succeeds, leaves no phi and preserves execution,
      in both directions.
    - Spilling: registers that share a slot are never live together, and spilled
      code runs like the allocated code, if a register number has one class.
    - Composed: phi elimination, linear scan and the spill phases succeed, and runs of
      the function with phis are runs of the final code and conversely.

    Where a theorem needs a hypothesis that the code does not establish, a lemma
    named as witness satisfies it on a concrete input, and where the code departs
    from its documentation an example or a theorem exhibits the input.

    ** Conventions and bounds

    A w-bit integer is a [Z] with its wrap-around written out; [usize] positions of
    vectors are [nat].  Operations that panic in a checked build and wrap in a
    release build follow the release build, unless the file says otherwise.  Errors
    are values of the source's error types without their texts.  Loops that the
    source bounds keep the bound of the source; for the others the recursion is
    structural, or the fuel is an expression of the input that a theorem proves
    sufficient: [w + 8] for the multiplier searches, the number of cases for the
    search tree, ten bytes for LEB128, the number of ranges for merging scans.
    The liveness iteration keeps its limit of [2 N + 10] passes for [N] blocks, and
    the theorem shows that it is not reached.  The searches over a graph have the
    number of its blocks or edges as fuel, and the dominator iteration two passes
    more than the number of blocks.  Floating-point nodes of the
    evaluator, the machines that execute relaxed and allocated code, and the spill
    weights of intervals are parameters.

    ** Not modelled

    The instruction encoders but the one of logical immediates and the displacement
    fields of branches (bit patterns without
    a specification to meet), object file writers, the x86-64, RISC-V and WebAssembly back ends, the rewriting optimization
    passes, coalescing before register
    allocation, the greedy and solver-based allocators, live range splitting,
    rematerialization and the repairs after allocation, the JIT and the services
    around it, importers, the rustc back end, the proof obligations themselves and
    the drivers of external solvers.  Most of these depend on I/O, on host floating
    point, on solvers or on the definition of trust-ir, which is not in this
    repository; the remaining ones need a semantics of several hundred opcodes. *)

From Stdlib Require Export ZArith Lia Bool.
From stdpp Require Export base list list_numbers gmap strings sorting.

(** ** Machine words

    A [w]-bit unsigned word is a [Z] in [[0, 2^w)]; a [w]-bit signed word is a
    [Z] in [[-2^(w-1), 2^(w-1))].  [wrap] is Rust's [as uN], [swrap] is
    [as iN]. *)

Declare Scope mw_scope.
Delimit Scope mw_scope with mw.
Local Open Scope Z_scope.

Definition wrap (w x : Z) : Z := x mod 2 ^ w.
Definition swrap (w x : Z) : Z := (x + 2 ^ (w - 1)) mod 2 ^ w - 2 ^ (w - 1).

Notation "x 'as_u' w" := (wrap w x) (at level 25, no associativity) : mw_scope.
Notation "x 'as_i' w" := (swrap w x) (at level 25, no associativity) : mw_scope.

Definition uword (w x : Z) : Prop := 0 <= x < 2 ^ w.
Definition sword (w x : Z) : Prop := - 2 ^ (w - 1) <= x < 2 ^ (w - 1).

Lemma pow2_pos (n : Z) : 0 <= n -> 0 < 2 ^ n.
Proof. intros; apply Z.pow_pos_nonneg; lia. Qed.

Lemma pow2_split (a b : Z) : 0 <= a -> 0 <= b -> 2 ^ (a + b) = 2 ^ a * 2 ^ b.
Proof. intros; apply Z.pow_add_r; lia. Qed.

Lemma pow2_half (w : Z) : 1 <= w -> 2 ^ w = 2 * 2 ^ (w - 1).
Proof. intros; rewrite <- Z.pow_succ_r by lia; f_equal; lia. Qed.

Lemma pow2_le (a b : Z) : 0 <= a <= b -> 2 ^ a <= 2 ^ b.
Proof. intros; apply Z.pow_le_mono_r; lia. Qed.

Lemma pow2_lt (a b : Z) : 0 <= a < b -> 2 ^ a < 2 ^ b.
Proof. intros; apply Z.pow_lt_mono_r; lia. Qed.

Lemma wrap_range (w x : Z) : 0 <= w -> uword w (wrap w x).
Proof. intros; apply Z.mod_pos_bound, pow2_pos; lia. Qed.

Lemma wrap_small (w x : Z) : uword w x -> wrap w x = x.
Proof. intros; apply Z.mod_small; assumption. Qed.

Lemma swrap_range (w x : Z) : 1 <= w -> sword w (swrap w x).
Proof.
  intros; unfold sword, swrap.
  pose proof (Z.mod_pos_bound (x + 2 ^ (w - 1)) (2 ^ w) ltac:(apply pow2_pos; lia)).
  pose proof (pow2_half w); lia.
Qed.

Lemma swrap_small (w x : Z) : 1 <= w -> sword w x -> swrap w x = x.
Proof.
  unfold sword, swrap; intros Hw Hx.
  rewrite Z.mod_small; pose proof (pow2_half w); lia.
Qed.

Lemma wrap_swrap (w x : Z) : 1 <= w -> wrap w (swrap w x) = wrap w x.
Proof.
  intros; unfold wrap, swrap.
  rewrite Zminus_mod_idemp_l; f_equal; lia.
Qed.

Lemma swrap_wrap (w x : Z) : 1 <= w -> swrap w (wrap w x) = swrap w x.
Proof. intros; unfold wrap, swrap; now rewrite Zplus_mod_idemp_l. Qed.

Lemma wrap_add_l (w x y : Z) : wrap w (wrap w x + y) = wrap w (x + y).
Proof. apply Zplus_mod_idemp_l. Qed.

Lemma wrap_add_r (w x y : Z) : wrap w (x + wrap w y) = wrap w (x + y).
Proof. apply Zplus_mod_idemp_r. Qed.

Lemma wrap_eqmod (w x y k : Z) : x = y + k * 2 ^ w -> wrap w x = wrap w y.
Proof. intros ->; apply Z_mod_plus_full. Qed.

Lemma wrap_wrap (w x : Z) : 0 <= w -> wrap w (wrap w x) = wrap w x.
Proof. intros. apply wrap_small, wrap_range. lia. Qed.

Lemma sword_mono (w w' x : Z) : 0 < w <= w' -> sword w x -> sword w' x.
Proof. unfold sword. intros Hw Hx. pose proof (pow2_le (w - 1) (w' - 1) ltac:(lia)). lia. Qed.

Lemma wrap_sub_l (w x y : Z) : wrap w (wrap w x - y) = wrap w (x - y).
Proof. apply Zminus_mod_idemp_l. Qed.

Lemma wrap_sub_r (w x y : Z) : wrap w (x - wrap w y) = wrap w (x - y).
Proof. apply Zminus_mod_idemp_r. Qed.

Lemma wrap_mul_l (w x y : Z) : wrap w (wrap w x * y) = wrap w (x * y).
Proof. apply Zmult_mod_idemp_l. Qed.

Lemma wrap_mul_r (w x y : Z) : wrap w (x * wrap w y) = wrap w (x * y).
Proof. apply Zmult_mod_idemp_r. Qed.

Lemma wrap_wrap_le (w w' x : Z) : 0 <= w <= w' -> wrap w (wrap w' x) = wrap w x.
Proof.
  intros Hw. unfold wrap. apply Z.mod_mod_divide.
  exists (2 ^ (w' - w)). rewrite <- pow2_split by lia. f_equal. lia.
Qed.

(** A word determines its signed reading: two integers with the same low [w]
    bits, one of them in signed range, agree after [swrap]. *)
Lemma swrap_eqmod (w x y k : Z) : x = y + k * 2 ^ w -> swrap w x = swrap w y.
Proof.
  intros ->; unfold swrap; f_equal.
  replace (y + k * 2 ^ w + 2 ^ (w - 1)) with (y + 2 ^ (w - 1) + k * 2 ^ w) by lia.
  apply Z_mod_plus_full.
Qed.

(** ** Congruence modulo the word size

    Two integers with the same low [w] bits.  The ring operations respect it, so
    that inner reductions can be dropped by rewriting. *)

Definition eqmw (w x y : Z) : Prop := wrap w x = wrap w y.

#[export] Instance eqmw_equiv (w : Z) : Equivalence (eqmw w).
Proof. split; unfold eqmw; repeat intro; congruence. Qed.

#[export] Instance eqmw_add (w : Z) : Proper (eqmw w ==> eqmw w ==> eqmw w) Z.add.
Proof.
  intros x x' Hx y y' Hy. unfold eqmw in *.
  rewrite <- (wrap_add_l w x), <- (wrap_add_l w x'), Hx.
  by rewrite <- (wrap_add_r w _ y), <- (wrap_add_r w _ y'), Hy.
Qed.

#[export] Instance eqmw_mul (w : Z) : Proper (eqmw w ==> eqmw w ==> eqmw w) Z.mul.
Proof.
  intros x x' Hx y y' Hy. unfold eqmw, wrap in *.
  by rewrite (Zmult_mod x), (Zmult_mod x'), Hx, Hy.
Qed.

#[export] Instance eqmw_sub (w : Z) : Proper (eqmw w ==> eqmw w ==> eqmw w) Z.sub.
Proof.
  intros x x' Hx y y' Hy. replace (x - y) with (x + -1 * y) by lia.
  replace (x' - y') with (x' + -1 * y') by lia. by rewrite Hx, Hy.
Qed.

#[export] Instance eqmw_opp (w : Z) : Proper (eqmw w ==> eqmw w) Z.opp.
Proof.
  intros x x' Hx. replace (- x) with (0 - x) by lia. replace (- x') with (0 - x') by lia.
  by rewrite Hx.
Qed.

Lemma eqmw_wrap (w x : Z) : eqmw w (wrap w x) x.
Proof. unfold eqmw, wrap. apply Zmod_mod. Qed.

(** Decide an equality of words by dropping inner reductions. *)
Ltac drop_wraps :=
  lazymatch goal with |- wrap ?w ?a = wrap ?w ?b => change (eqmw w a b) end;
  repeat rewrite Z.shiftl_mul_pow2 by lia; repeat rewrite eqmw_wrap;
  unfold eqmw; f_equal; try ring.


(** The quotient of a division is pinned down by its bounds. *)
Lemma div_eq_between (a b q : Z) : 0 < b -> b * q <= a < b * (q + 1) -> a / b = q.
Proof. intros Hb H; symmetry; apply Z.div_unique with (r := a - b * q); lia. Qed.

(** Sign extension written with masks, as the source does on [i128]. *)
Definition sext_low (w x : Z) : Z :=
  let low := Z.land x (Z.shiftl 1 w - 1) in
  if Z.land (Z.shiftr low (w - 1)) 1 =? 1 then low - Z.shiftl 1 w else low.

Lemma land_pow2_mask (w x : Z) : 0 <= w -> Z.land x (Z.shiftl 1 w - 1) = x mod 2 ^ w.
Proof.
  intros. rewrite Z.shiftl_1_l.
  replace (2 ^ w - 1) with (Z.ones w) by (rewrite Z.ones_equiv; lia).
  apply Z.land_ones; lia.
Qed.

Lemma land_1_mod (x : Z) : Z.land x 1 = x mod 2.
Proof. apply (Z.land_ones x 1); lia. Qed.

Lemma sext_low_swrap (w x : Z) : 1 <= w -> sext_low w x = swrap w x.
Proof.
  intros Hw. unfold sext_low. rewrite land_pow2_mask, Z.shiftl_1_l by lia.
  rewrite Z.shiftr_div_pow2, land_1_mod by lia.
  rewrite <- (swrap_wrap w x) by lia. unfold wrap.
  pose proof (Z.mod_pos_bound x (2 ^ w) ltac:(apply pow2_pos; lia)) as H.
  set (l := x mod 2 ^ w) in *. pose proof (pow2_half w Hw) as Eh.
  pose proof (pow2_pos (w - 1) ltac:(lia)).
  destruct (Z_lt_le_dec l (2 ^ (w - 1))).
  - rewrite (Z.div_small l) by lia. simpl. rewrite swrap_small; unfold sword; lia.
  - rewrite (div_eq_between l (2 ^ (w - 1)) 1) by lia. simpl.
    symmetry. rewrite (swrap_eqmod w l (l - 2 ^ w) 1) by lia.
    apply swrap_small; unfold sword; lia.
Qed.

Create HintDb mw.
#[export] Hint Resolve pow2_pos wrap_range swrap_range : mw.
Create Rewrite HintDb mw_rw.
#[export] Hint Rewrite wrap_add_l wrap_add_r : mw_rw.

(** ** Bits of machine words *)

Lemma testbit_high (w v i : Z) : uword w v -> 0 <= w <= i -> Z.testbit v i = false.
Proof.
  intros [H1 H2] Hi. destruct (Z.eq_dec v 0) as [->|]; [apply Z.bits_0|].
  apply Z.bits_above_log2; [done|]. apply Z.log2_lt_pow2; [lia|].
  pose proof (pow2_le w i ltac:(lia)). lia.
Qed.

Lemma uword_of_bits (w x : Z) :
  0 <= w -> (forall i, w <= i -> Z.testbit x i = false) -> uword w x.
Proof.
  intros Hw H. assert (E : x = x mod 2 ^ w).
  { apply Z.bits_inj'. intros i Hi. destruct (Z_lt_le_dec i w).
    - by rewrite Z.mod_pow2_bits_low.
    - rewrite Z.mod_pow2_bits_high by lia. by apply H. }
  rewrite E. apply Z.mod_pos_bound, pow2_pos, Hw.
Qed.

Lemma uword_land (w a b : Z) : 0 <= w -> uword w a -> uword w (Z.land a b).
Proof.
  intros Hw Ha. apply uword_of_bits; [done|]. intros i Hi.
  by rewrite Z.land_spec, (testbit_high w a) by (auto; lia).
Qed.

Lemma uword_lor (w a b : Z) : 0 <= w -> uword w a -> uword w b -> uword w (Z.lor a b).
Proof.
  intros Hw Ha Hb. apply uword_of_bits; [done|]. intros i Hi.
  by rewrite Z.lor_spec, (testbit_high w a), (testbit_high w b) by (auto; lia).
Qed.

Lemma uword_lxor (w a b : Z) : 0 <= w -> uword w a -> uword w b -> uword w (Z.lxor a b).
Proof.
  intros Hw Ha Hb. apply uword_of_bits; [done|]. intros i Hi.
  by rewrite Z.lxor_spec, (testbit_high w a), (testbit_high w b) by (auto; lia).
Qed.

(** Fields that do not overlap. *)
Lemma lor_disjoint (a b k : Z) : 0 <= k -> uword k b -> Z.lor (a * 2 ^ k) b = a * 2 ^ k + b.
Proof.
  intros Hk Hb. assert (E : Z.land (a * 2 ^ k) b = 0).
  { apply Z.bits_inj'. intros i Hi. rewrite Z.land_spec, Z.bits_0. destruct (Z_lt_le_dec i k).
    - by rewrite Z.mul_pow2_bits_low.
    - rewrite (testbit_high k b) by (auto; lia). apply andb_false_r. }
  rewrite <- Z.lxor_lor by done. symmetry. by apply Z.add_nocarry_lxor.
Qed.

Lemma uword_shr (w a k : Z) : 0 <= k -> uword w a -> uword w (Z.shiftr a k).
Proof.
  intros Hk [H1 H2]. rewrite Z.shiftr_div_pow2 by done. pose proof (pow2_pos k Hk). split.
  - by apply Z.div_pos.
  - apply Z.div_lt_upper_bound; nia.
Qed.

(** ** Stores *)

(** The values [vals] written to [ds], from left to right. *)
Definition assign {A V} `{EqDecision A} (m : A -> V) (ds : list A) (vals : list V) : A -> V :=
  fold_left (fun m (e : A * V) => fun x => if decide (x = e.1) then e.2 else m x) (zip ds vals) m.

Lemma assign_out {A V} `{EqDecision A} (m : A -> V) (ds : list A) (vals : list V) (x : A) :
  x ∉ ds -> assign m ds vals x = m x.
Proof.
  unfold assign. revert m vals; induction ds as [|d ds IH]; intros m [|v vals] Hx; cbn; try done.
  apply not_elem_of_cons in Hx as [Hne Hx]. rewrite IH by done. cbn. by rewrite decide_False.
Qed.

Lemma assign_in {A V} `{EqDecision A} (m : A -> V) (ds : list A) (vals : list V) (x : A) :
  x ∈ ds -> length vals = length ds -> exists j v, ds !! j = Some x /\ vals !! j = Some v /\ assign m ds vals x = v.
Proof.
  unfold assign. revert m vals; induction ds as [|d ds IH]; intros m [|v vals] Hx Hl; try done.
  { by apply elem_of_nil in Hx. } cbn in *.
  destruct (decide (x ∈ ds)) as [Hin|Hn].
  - destruct (IH (fun y => if decide (y = d) then v else m y) vals Hin ltac:(lia)) as (j & u & Hj & Hu & E).
    exists (S j), u. done.
  - apply elem_of_cons in Hx as [->|]; [|done]. exists 0%nat, v. split; [done|]. split; [done|].
    pose proof (assign_out (fun y => if decide (y = d) then v else m y) ds vals d Hn) as E. unfold assign in E.
    cbn in E. rewrite E. by rewrite decide_True.
Qed.

Lemma assign_nodup {A V} `{EqDecision A} (m : A -> V) (ds : list A) (vals : list V) (j : nat) (x : A) (v : V) :
  NoDup ds -> length vals = length ds -> ds !! j = Some x -> vals !! j = Some v -> assign m ds vals x = v.
Proof.
  intros Hnd Hl Hx Hv. destruct (assign_in m ds vals x) as (k & u & Hk & Hu & ->); [by eapply list_elem_of_lookup_2|done|].
  assert (k = j) as -> by by eapply NoDup_lookup. congruence.
Qed.
