(* ===== verification/MagicDiv.v ===== *)
(** * Magic-number division ([crates/trust-cg-lower/src/magic_udiv.rs])

    The 256-bit bignum [U256], the multiplier search [magicu] / [magics_bits]
    and the band predicates [band_holds] / [smagic_band_holds] that decide
    whether an unsigned or signed division by a constant may be replaced by a
    multiply and shifts.  The source cites the Granlund-Montgomery theorem for
    the step from the band to the quotient; here that theorem is proved. *)

From S2P Require Import Prelude.
Local Open Scope Z_scope.

(** ** The 256-bit accumulator *)
Module U256.

(** Four little-endian 64-bit limbs. *)
Record U256 := mkU256 { limbs : list Z }.

Definition ZERO : U256 := mkU256 [0; 0; 0; 0].

Definition from_u128 (v : Z) : U256 :=
  mkU256 [wrap 64 v; wrap 64 (Z.shiftr v 64); 0; 0].

Definition from_u64 (v : Z) : U256 := mkU256 [v; 0; 0; 0].

(** [1 << shift]; the source asserts [shift < 256]. *)
Definition one_shl (shift : Z) : U256 :=
  let limb := Z.to_nat (shift / 64) in
  let bit := shift mod 64 in
  mkU256 (<[limb := Z.shiftl 1 bit]> [0; 0; 0; 0]).

(** The carry chain of [wrapping_add], one limb per iteration. *)
Fixpoint add_limbs (xs ys : list Z) (carry : Z) : list Z :=
  match xs, ys with
  | x :: xs', y :: ys' =>
      let sum := x + y + carry in
      wrap 64 sum :: add_limbs xs' ys' (Z.shiftr sum 64)
  | _, _ => []
  end.

Definition wrapping_add (a b : U256) : U256 :=
  mkU256 (add_limbs (limbs a) (limbs b) 0).

(** One iteration [j] of the inner loop of [wrapping_mul] for row [i]. *)
Definition mul_step (a : Z) (b : list Z) (i : nat) (st : list Z * Z) (j : nat)
    : list Z * Z :=
  let '(out, carry) := st in
  let idx := (i + j)%nat in
  let cur := out !!! idx in
  let prod := a * (b !!! j) in
  let sum := cur + Z.land prod 0xFFFFFFFFFFFFFFFF
                 + Z.land carry 0xFFFFFFFFFFFFFFFF in
  (<[idx := wrap 64 sum]> out,
   Z.shiftr prod 64 + Z.shiftr carry 64 + Z.shiftr sum 64).

(** Row [i] of the schoolbook product: skipped when the limb is zero. *)
Definition mul_row (a b : list Z) (out : list Z) (i : nat) : list Z :=
  if a !!! i =? 0 then out
  else (foldl (mul_step (a !!! i) b i) (out, 0) (seq 0 (4 - i))).1.

Definition wrapping_mul (a b : U256) : U256 :=
  mkU256 (foldl (mul_row (limbs a) (limbs b)) [0; 0; 0; 0] (seq 0 4)).

(** [Ord::cmp]: compare from the most significant limb down. *)
Fixpoint cmp_down (xs ys : list Z) (n : nat) : comparison :=
  match n with
  | O => Eq
  | S i => match (xs !!! i) ?= (ys !!! i) with
           | Eq => cmp_down xs ys i
           | non_eq => non_eq
           end
  end.

Definition cmp (a b : U256) : comparison := cmp_down (limbs a) (limbs b) 4.

Definition ltb (a b : U256) : bool :=
  match cmp a b with Lt => true | _ => false end.
Definition leb (a b : U256) : bool :=
  match cmp a b with Gt => false | _ => true end.

(** *** The integer a bignum stands for *)

Fixpoint limbs_val (xs : list Z) : Z :=
  match xs with
  | [] => 0
  | x :: xs' => x + 2 ^ 64 * limbs_val xs'
  end.

Definition val (a : U256) : Z := limbs_val (limbs a).

Definition wf (a : U256) : Prop :=
  length (limbs a) = 4%nat /\ Forall (uword 64) (limbs a).

Lemma limbs_val_bound (xs : list Z) :
  Forall (uword 64) xs -> 0 <= limbs_val xs < 2 ^ (64 * Z.of_nat (length xs)).
Proof.
  unfold uword; induction 1 as [|x xs Hx _ IH]; simpl; [lia|].
  replace (64 * Z.of_nat (S (length xs))) with (64 + 64 * Z.of_nat (length xs)) by lia.
  rewrite pow2_split by lia. nia.
Qed.

Lemma val_bound (a : U256) : wf a -> 0 <= val a < 2 ^ 256.
Proof.
  intros [Hl Hf]. pose proof (limbs_val_bound _ Hf) as H.
  rewrite Hl in H. exact H.
Qed.

Lemma land_mask64 (x : Z) : Z.land x 0xFFFFFFFFFFFFFFFF = x mod 2 ^ 64.
Proof. apply (Z.land_ones x 64); lia. Qed.

Lemma limbs_val_insert (xs : list Z) (i : nat) (v : Z) :
  (i < length xs)%nat ->
  limbs_val (<[i := v]> xs) = limbs_val xs + (v - xs !!! i) * 2 ^ (64 * Z.of_nat i).
Proof.
  revert i; induction xs as [|x xs IH]; intros [|i] Hi; simpl in *; try lia.
  rewrite IH by lia.
  replace (64 * Z.of_nat (S i)) with (64 + 64 * Z.of_nat i) by lia.
  rewrite pow2_split by lia. simpl. nia.
Qed.

Lemma wf_lookup (xs : list Z) (i : nat) :
  Forall (uword 64) xs -> uword 64 (xs !!! i).
Proof.
  intros H. destruct (decide (i < length xs)%nat).
  - apply (Forall_lookup_total_1 _ _ _ H); lia.
  - rewrite list_lookup_total_alt, lookup_ge_None_2 by lia. unfold uword; simpl; lia.
Qed.

(** *** Addition *)

Lemma add_limbs_spec (xs ys : list Z) (carry : Z) :
  length xs = length ys -> Forall (uword 64) xs -> Forall (uword 64) ys ->
  0 <= carry <= 1 ->
  let zs := add_limbs xs ys carry in
  length zs = length xs /\ Forall (uword 64) zs /\
  limbs_val zs = (limbs_val xs + limbs_val ys + carry)
                   mod 2 ^ (64 * Z.of_nat (length xs)).
Proof.
  unfold uword; intros Hlen Hx; revert ys carry Hlen.
  induction Hx as [|x xs Hx Hxs IH]; intros [|y ys] carry Hlen Hy Hc; simplify_eq/=.
  { split_and!; [done|constructor|]. now rewrite Z.mod_1_r. }
  inversion Hy as [|? ? Hy1 Hy2]; subst.
  rewrite Z.shiftr_div_pow2 by lia.
  assert (Hdm := Z.div_mod (x + y + carry) (2 ^ 64) ltac:(lia)).
  assert (Hmb := Z.mod_pos_bound (x + y + carry) (2 ^ 64) ltac:(lia)).
  assert (Hcc : 0 <= (x + y + carry) / 2 ^ 64 <= 1).
  { split; [apply Z.div_pos; lia|].
    apply Z.lt_succ_r, Z.div_lt_upper_bound; lia. }
  destruct (IH ys _ Hlen Hy2 Hcc) as (Hl & Hf & Hv).
  split_and!; [lia|constructor; [exact Hmb|exact Hf]|].
  rewrite Hv. unfold wrap.
  replace (64 * Z.of_nat (S (length xs))) with (64 + 64 * Z.of_nat (length xs)) by lia.
  rewrite pow2_split by lia.
  rewrite (Z.rem_mul_r _ (2 ^ 64)) by (try apply Z.pow_pos_nonneg; lia).
  set (P := 2 ^ (64 * Z.of_nat (length xs))).
  replace (x + 2 ^ 64 * limbs_val xs + (y + 2 ^ 64 * limbs_val ys) + carry)
    with (x + y + carry + (limbs_val xs + limbs_val ys) * 2 ^ 64) by lia.
  rewrite Z_mod_plus_full, Z_div_plus_full by lia.
  f_equal. f_equal. f_equal. lia.
Qed.

Lemma wrapping_add_wf (a b : U256) : wf a -> wf b -> wf (wrapping_add a b).
Proof.
  intros [La Fa] [Lb Fb].
  destruct (add_limbs_spec (limbs a) (limbs b) 0) as (H1 & H2 & _); try lia; auto.
  split; simpl; [lia|auto].
Qed.

Lemma wrapping_add_val (a b : U256) :
  wf a -> wf b -> val (wrapping_add a b) = (val a + val b) mod 2 ^ 256.
Proof.
  intros [La Fa] [Lb Fb].
  destruct (add_limbs_spec (limbs a) (limbs b) 0) as (_ & _ & H3); try lia; auto.
  unfold val; simpl. rewrite H3, La. f_equal. lia.
Qed.

(** *** Multiplication *)

Lemma limbs_val_app (xs ys : list Z) :
  limbs_val (xs ++ ys) = limbs_val xs + 2 ^ (64 * Z.of_nat (length xs)) * limbs_val ys.
Proof.
  induction xs as [|x xs IH]; simpl; [lia|].
  replace (64 * Z.of_nat (S (length xs))) with (64 + 64 * Z.of_nat (length xs)) by lia.
  rewrite pow2_split by lia. rewrite IH. nia.
Qed.

(** One inner iteration conserves [out + carry * 2^(64*idx)] up to the partial
    product, and keeps the [u128] carry below [2^65]: nothing overflows. *)
Lemma mul_step_spec (a : Z) (b : list Z) (i j : nat) (out : list Z) (carry : Z) :
  uword 64 a -> Forall (uword 64) b -> Forall (uword 64) out ->
  (i + j < length out)%nat -> 0 <= carry < 2 ^ 65 ->
  let '(out', carry') := mul_step a b i (out, carry) j in
  length out' = length out /\ Forall (uword 64) out' /\ 0 <= carry' < 2 ^ 65 /\
  limbs_val out' + carry' * 2 ^ (64 * Z.of_nat (i + j + 1)) =
  limbs_val out + (a * (b !!! j) + carry) * 2 ^ (64 * Z.of_nat (i + j)).
Proof.
  intros Ha Hb Ho Hij Hc.
  pose proof (wf_lookup b j Hb) as Hbj. pose proof (wf_lookup out (i + j) Ho) as Hoij.
  unfold mul_step. rewrite !land_mask64, !Z.shiftr_div_pow2 by lia.
  set (prod := a * (b !!! j)). set (cur := out !!! (i + j)%nat) in *.
  set (sum := cur + prod mod 2 ^ 64 + carry mod 2 ^ 64).
  unfold uword in Ha, Hbj, Hoij.
  assert (Hp : 0 <= prod < (2 ^ 64 - 1) * 2 ^ 64) by (subst prod; nia).
  pose proof (Z.div_mod prod (2 ^ 64) ltac:(lia)).
  pose proof (Z.div_mod carry (2 ^ 64) ltac:(lia)).
  pose proof (Z.div_mod sum (2 ^ 64) ltac:(lia)).
  pose proof (Z.mod_pos_bound prod (2 ^ 64) ltac:(lia)).
  pose proof (Z.mod_pos_bound carry (2 ^ 64) ltac:(lia)).
  pose proof (Z.mod_pos_bound sum (2 ^ 64) ltac:(lia)) as Hsm.
  split_and!.
  - apply length_insert.
  - apply Forall_insert; [done|exact Hsm].
  - lia.
  - lia.
  - rewrite limbs_val_insert by lia. fold cur. unfold wrap.
    replace (64 * Z.of_nat (i + j + 1)) with (64 * Z.of_nat (i + j) + 64) by lia.
    rewrite pow2_split by lia.
    set (P := 2 ^ (64 * Z.of_nat (i + j))). nia.
Qed.

Lemma mul_loop_spec (a : Z) (b : list Z) (i n j0 : nat) (out : list Z) (carry : Z) :
  uword 64 a -> Forall (uword 64) b -> Forall (uword 64) out ->
  (i + j0 + n <= length out)%nat -> (j0 + n <= length b)%nat ->
  0 <= carry < 2 ^ 65 ->
  let '(out', carry') := foldl (mul_step a b i) (out, carry) (seq j0 n) in
  length out' = length out /\ Forall (uword 64) out' /\
  limbs_val out' + carry' * 2 ^ (64 * Z.of_nat (i + j0 + n)) =
  limbs_val out + (a * limbs_val (take n (drop j0 b)) + carry)
                    * 2 ^ (64 * Z.of_nat (i + j0)).
Proof.
  intros Ha Hb; revert j0 out carry.
  induction n as [|n IH]; intros j0 out carry Ho Hl Hlb Hc; cbn [seq foldl].
  { split_and!; [done|done|]. rewrite Nat.add_0_r. simpl. lia. }
  pose proof (mul_step_spec a b i j0 out carry Ha Hb Ho ltac:(lia) Hc) as Hs.
  destruct (mul_step a b i (out, carry) j0) as [out1 carry1].
  destruct Hs as (Hl1 & Hf1 & Hc1 & Hv1).
  specialize (IH (S j0) out1 carry1 Hf1 ltac:(lia) ltac:(lia) Hc1).
  destruct (foldl _ (out1, carry1) (seq (S j0) n)) as [out' carry'].
  destruct IH as (Hl2 & Hf2 & Hv2).
  split_and!; [lia|done|].
  replace (i + j0 + S n)%nat with (i + S j0 + n)%nat by lia.
  rewrite Hv2.
  assert (Hd : drop j0 b = (b !!! j0) :: drop (S j0) b).
  { apply drop_S. apply list_lookup_lookup_total_lt; lia. }
  rewrite Hd. simpl.
  replace (i + S j0)%nat with (i + j0 + 1)%nat by lia.
  revert Hv1. replace (64 * Z.of_nat (i + j0 + 1)) with (64 * Z.of_nat (i + j0) + 64) by lia.
  rewrite pow2_split by lia.
  set (P := 2 ^ (64 * Z.of_nat (i + j0))). nia.
Qed.

Lemma mul_row_spec (a b out : list Z) (i : nat) :
  length b = 4%nat -> length out = 4%nat -> (i < 4)%nat ->
  Forall (uword 64) a -> Forall (uword 64) b -> Forall (uword 64) out ->
  length (mul_row a b out i) = 4%nat /\ Forall (uword 64) (mul_row a b out i) /\
  exists k, limbs_val (mul_row a b out i) =
            limbs_val out + (a !!! i) * 2 ^ (64 * Z.of_nat i) * limbs_val b + k * 2 ^ 256.
Proof.
  intros Lb Lo Hi Fa Fb Fo. unfold mul_row.
  destruct (Z.eqb_spec (a !!! i) 0) as [E|E].
  { split_and!; [done|done|]. exists 0. rewrite E. lia. }
  pose proof (mul_loop_spec (a !!! i) b i (4 - i) 0 out 0 (wf_lookup _ _ Fa) Fb Fo
                ltac:(lia) ltac:(lia) ltac:(lia)) as H.
  destruct (foldl _ _ _) as [out' carry']. destruct H as (Hl & Hf & Hv).
  simpl. split_and!; [lia|done|].
  rewrite drop_0 in Hv.
  pose proof (limbs_val_app (take (4 - i) b) (drop (4 - i) b)) as Happ.
  rewrite take_drop, length_take in Happ.
  replace ((4 - i) `min` length b)%nat with (4 - i)%nat in Happ by lia.
  exists (- carry' - (a !!! i) * limbs_val (drop (4 - i) b)).
  replace (64 * Z.of_nat (i + 0 + (4 - i))) with 256 in Hv by lia.
  replace (i + 0)%nat with i in Hv by lia.
  assert (E256 : 2 ^ 256 = 2 ^ (64 * Z.of_nat i) * 2 ^ (64 * Z.of_nat (4 - i))).
  { rewrite <- pow2_split by lia. f_equal. lia. }
  rewrite Happ. rewrite E256 in *.
  set (P := 2 ^ (64 * Z.of_nat i)) in *. set (Q := 2 ^ (64 * Z.of_nat (4 - i))) in *.
  nia.
Qed.

Lemma wrapping_mul_spec (a b : U256) :
  wf a -> wf b ->
  wf (wrapping_mul a b) /\ val (wrapping_mul a b) = (val a * val b) mod 2 ^ 256.
Proof.
  intros [La Fa] [Lb Fb]. unfold wrapping_mul. simpl foldl.
  assert (F0 : Forall (uword 64) [0; 0; 0; 0])
    by (repeat constructor; unfold uword; lia).
  destruct (mul_row_spec (limbs a) (limbs b) [0; 0; 0; 0] 0)
    as (L0' & F0' & k0 & V0); auto; try lia.
  destruct (mul_row_spec (limbs a) (limbs b) (mul_row (limbs a) (limbs b) [0; 0; 0; 0] 0) 1)
    as (L1 & F1 & k1 & V1); auto; try lia.
  set (o1 := mul_row (limbs a) (limbs b) (mul_row _ _ _ _) 1) in *.
  destruct (mul_row_spec (limbs a) (limbs b) o1 2) as (L2 & F2 & k2 & V2); auto; try lia.
  set (o2 := mul_row (limbs a) (limbs b) o1 2) in *.
  destruct (mul_row_spec (limbs a) (limbs b) o2 3) as (L3 & F3 & k3 & V3); auto; try lia.
  set (o3 := mul_row (limbs a) (limbs b) o2 3) in *.
  assert (W : wf (mkU256 o3)) by (split; auto).
  split; [exact W|].
  pose proof (val_bound _ W) as B. unfold val in *. simpl limbs in *.
  rewrite <- (Z.mod_small _ _ B).
  assert (E : limbs_val (limbs a) =
    limbs a !!! 0%nat + limbs a !!! 1%nat * 2 ^ 64 + limbs a !!! 2%nat * 2 ^ 128
      + limbs a !!! 3%nat * 2 ^ 192).
  { clear -La. destruct (limbs a) as [|x [|y [|z [|t [|]]]]]; simplify_eq/=. lia. }
  replace (limbs_val o3) with
    (limbs_val (limbs a) * limbs_val (limbs b) + (k0 + k1 + k2 + k3) * 2 ^ 256)
    by (rewrite V3, V2, V1, V0, E; change (limbs_val [0; 0; 0; 0]) with 0;
        change (64 * Z.of_nat 0) with 0; change (64 * Z.of_nat 1) with 64;
        change (64 * Z.of_nat 2) with 128; change (64 * Z.of_nat 3) with 192; ring).
  apply Z_mod_plus_full.
Qed.

(** *** Comparison and constructors *)

Lemma cmp_down_spec (xs ys : list Z) (n : nat) :
  (n <= length xs)%nat -> (n <= length ys)%nat ->
  Forall (uword 64) xs -> Forall (uword 64) ys ->
  cmp_down xs ys n = (limbs_val (take n xs) ?= limbs_val (take n ys)).
Proof.
  intros Hx Hy Fx Fy; induction n as [|n IH]; [done|]. cbn [cmp_down].
  rewrite (take_S_r xs n (xs !!! n)) by (apply list_lookup_lookup_total_lt; lia).
  rewrite (take_S_r ys n (ys !!! n)) by (apply list_lookup_lookup_total_lt; lia).
  rewrite !limbs_val_app, !length_take. simpl.
  rewrite !Nat.min_l by lia. rewrite IH by lia.
  pose proof (limbs_val_bound (take n xs) (Forall_take _ n _ Fx)) as Bx.
  pose proof (limbs_val_bound (take n ys) (Forall_take _ n _ Fy)) as By.
  rewrite length_take, Nat.min_l in Bx, By by lia.
  set (P := 2 ^ (64 * Z.of_nat n)) in *.
  destruct (Z.compare_spec (xs !!! n) (ys !!! n)) as [E|E|E];
    [rewrite E; destruct (Z.compare_spec (limbs_val (take n xs)) (limbs_val (take n ys)))| |];
    symmetry; rewrite ?Z.compare_eq_iff, ?Z.compare_lt_iff, ?Z.compare_gt_iff; nia.
Qed.

Lemma cmp_val (a b : U256) : wf a -> wf b -> cmp a b = (val a ?= val b).
Proof.
  intros [La Fa] [Lb Fb]. unfold cmp. rewrite cmp_down_spec by (auto; lia).
  now rewrite !take_ge by lia.
Qed.

Lemma ltb_val (a b : U256) : wf a -> wf b -> ltb a b = (val a <? val b).
Proof. intros; unfold ltb, Z.ltb. now rewrite cmp_val. Qed.

Lemma leb_val (a b : U256) : wf a -> wf b -> leb a b = (val a <=? val b).
Proof. intros; unfold leb, Z.leb. now rewrite cmp_val. Qed.

Lemma from_u64_spec (v : Z) : uword 64 v -> wf (from_u64 v) /\ val (from_u64 v) = v.
Proof.
  intros; unfold from_u64, val, wf; simpl; split_and!; [done| |lia].
  repeat constructor; unfold uword in *; lia.
Qed.

Lemma from_u128_spec (v : Z) : uword 128 v -> wf (from_u128 v) /\ val (from_u128 v) = v.
Proof.
  unfold uword; intros; unfold from_u128, val, wf, wrap, uword; simpl.
  rewrite Z.shiftr_div_pow2 by lia.
  pose proof (Z.div_mod v (2 ^ 64) ltac:(lia)).
  pose proof (Z.mod_pos_bound v (2 ^ 64) ltac:(lia)).
  assert (0 <= v / 2 ^ 64 < 2 ^ 64) by lia.
  rewrite (Z.mod_small (v / 2 ^ 64)) by lia.
  split_and!; [done|repeat constructor; lia|lia].
Qed.

(** The source's assertion [shift < 256] is the hypothesis here; every call
    below meets it. *)
Lemma one_shl_spec (shift : Z) :
  0 <= shift < 256 -> wf (one_shl shift) /\ val (one_shl shift) = 2 ^ shift.
Proof.
  intros Hs. unfold one_shl, val, wf.
  pose proof (Z.mod_pos_bound shift 64 ltac:(lia)).
  assert (Hd : 0 <= shift / 64 < 4) by (split; [apply Z.div_pos|apply Z.div_lt_upper_bound]; lia).
  rewrite Z.shiftl_1_l.
  assert (Hp : uword 64 (2 ^ (shift mod 64))).
  { split; [apply Z.pow_nonneg; lia|apply pow2_lt; lia]. }
  cbn [limbs]. split; [split; [by rewrite length_insert|]|].
  - apply Forall_insert; [repeat constructor; unfold uword; lia|exact Hp].
  - rewrite limbs_val_insert by (simpl; lia).
    assert (Hz : [0; 0; 0; 0] !!! Z.to_nat (shift / 64) = 0).
    { destruct (Z.to_nat (shift / 64)) as [|[|[|[|]]]] eqn:E; [done..|lia]. }
    rewrite Hz, Z2Nat.id by lia. simpl limbs_val.
    pose proof (Z.div_mod shift 64 ltac:(lia)).
    rewrite Z.sub_0_r, <- pow2_split by lia. rewrite Z.add_0_l. f_equal. lia.
Qed.

End U256.

(** ** Multiplier search and band predicates *)
Module Magic.
Import U256.

Record MagicU := mkMagicU { magic : Z; shift : Z; add : bool }.

Inductive MagicWidth := W32 | W64.

Definition bits (width : MagicWidth) : Z :=
  match width with W32 => 32 | W64 => 64 end.

(** The search loop of [magicu].  [Some (p, q2)] is the [break]; [None] is the
    early [return None] of the safety bound (and lack of fuel, which
    [magicu_loop_exits] excludes). *)
Fixpoint magicu_loop (fuel : nat) (w d nc p q1 r1 q2 r2 : Z) : option (Z * Z) :=
  match fuel with
  | O => None
  | S fuel' =>
      let p := p + 1 in
      let '(q1, r1) := if nc - r1 <=? r1 then (2 * q1 + 1, 2 * r1 - nc)
                       else (2 * q1, 2 * r1) in
      let '(q2, r2) := if d - r2 <=? r2 + 1 then (2 * q2 + 1, 2 * r2 + 1 - d)
                       else (2 * q2, 2 * r2 + 1) in
      let delta := d - 1 - r2 in
      if negb ((q1 <? delta) || ((q1 =? delta) && (r1 =? 0))) then Some (p, q2)
      else if 2 * w + 4 <? p then None
      else magicu_loop fuel' w d nc p q1 r1 q2 r2
  end.

(** The largest [x <= 2^w - 1] with [x = -1 (mod d)]. *)
Definition nc_of (w d : Z) : Z :=
  let ones := Z.shiftl 1 w - 1 in ones - (ones - d + 1) mod d.

Definition magicu (d : Z) (width : MagicWidth) : option MagicU :=
  let w := bits width in
  if d <=? 1 then None
  else if (w <? 64) && (Z.shiftl 1 w <=? d) then None
  else
    let two_w := Z.shiftl 1 w in
    let ones := two_w - 1 in
    let nc := ones - (ones - d + 1) mod d in
    let p := w - 1 in
    let two_p0 := Z.shiftl 1 (w - 1) in
    let q1 := two_p0 / nc in
    let r1 := two_p0 - q1 * nc in
    let q2 := (two_p0 - 1) / d in
    let r2 := (two_p0 - 1) - q2 * d in
    '(p, q2) ← magicu_loop (Z.to_nat (w + 8)) w d nc p q1 r1 q2 r2;
    let magic_full := q2 + 1 in
    let shift := p - w in
    let add := two_w <=? magic_full in
    let magic := wrap 64 (Z.land magic_full ones) in
    Some (mkMagicU magic shift add).

Definition band_holds (d : Z) (m : MagicU) (width : MagicWidth) : bool :=
  let w := bits width in
  if 64 <=? shift m then false
  else
    let w_plus_s := w + shift m in
    if 128 <=? w_plus_s then false
    else
      let mult := if add m then wrapping_add (from_u64 (magic m)) (one_shl w)
                  else from_u64 (magic m) in
      let prod := wrapping_mul mult (from_u64 d) in
      let lo := one_shl w_plus_s in
      if ltb prod lo then false
      else
        let ones := Z.shiftl 1 w - 1 in
        let nc := from_u64 (wrap 64 (ones - (ones - d + 1) mod d)) in
        ltb (wrapping_mul prod nc) (wrapping_add (wrapping_mul lo nc) lo).

(** The source's own model of the emitted sequence, [MULHI] then shifts. *)
Definition mulhi (w a b : Z) : Z := wrap w (Z.shiftr (a * b) w).

Definition eval_magic (x : Z) (m : MagicU) (width : MagicWidth) : Z :=
  let w := bits width in
  let x := wrap w x in
  let q := mulhi w x (wrap w (magic m)) in
  if add m then
    let t := wrap w (q + Z.shiftr (wrap w (x - q)) 1) in
    Z.shiftr t (shift m - 1)
  else Z.shiftr q (shift m).

Definition mult_of (w : Z) (m : MagicU) : Z :=
  if add m then magic m + 2 ^ w else magic m.

(** *** The Granlund-Montgomery theorem *)

Section Reciprocal.
(** [mult] rounds [P / d] up with error [e]: [mult * d = P + e]. *)
Context (d mult P e : Z).
Hypothesis Hd : 0 < d.
Hypothesis HP : 0 < P.
Hypothesis He : 0 <= e.
Hypothesis Hm : mult * d = P + e.

Lemma reciprocal_exact_iff (x : Z) :
  0 <= x -> x * mult / P = x / d <-> (x mod d) * P + x * e < d * P.
Proof.
  intros Hx.
  pose proof (Z.div_mod x d ltac:(lia)) as Edm.
  pose proof (Z.mod_pos_bound x d Hd).
  set (q := x / d) in *. set (r := x mod d) in *.
  assert (Ex : x * mult * d = (d * q + r) * P + x * e) by (rewrite <- Edm; nia).
  split; intros H'.
  - pose proof (Z.div_mod (x * mult) P ltac:(lia)) as E2.
    pose proof (Z.mod_pos_bound (x * mult) P HP). rewrite H' in E2. nia.
  - apply div_eq_between; [lia|]. nia.
Qed.

(** Over [[0, top]] the worst dividend is [nc], the largest one congruent to
    [-1] modulo [d]: the sequence is exact everywhere iff it is at [nc]. *)
Lemma worst_case_iff (top nc : Z) :
  nc mod d = d - 1 -> 0 <= nc <= top -> top - d < nc -> d <= top + 1 ->
  (forall x, 0 <= x <= top -> (x mod d) * P + x * e < d * P) <-> nc * e < P.
Proof.
  intros Hnc Hle Hgt Hdt. split.
  - intros H. specialize (H nc Hle). rewrite Hnc in H. nia.
  - intros H x Hx.
    pose proof (Z.mod_pos_bound x d Hd).
    pose proof (Z.div_mod x d ltac:(lia)) as Ex.
    pose proof (Z.div_mod nc d ltac:(lia)) as En. rewrite Hnc in En.
    assert (Hncd : d - 1 <= nc).
    { pose proof (Z.div_pos nc d ltac:(lia) Hd). nia. }
    destruct (Z_le_gt_dec x nc) as [Hxn|Hxn].
    { assert (x * e <= nc * e) by (apply Z.mul_le_mono_nonneg_r; lia). nia. }
    (* beyond [nc] the residues restart at 0, so [x = nc + 1 + x mod d] *)
    assert (Hq : x / d = nc / d + 1).
    { apply Z.le_antisymm; [apply Z.lt_succ_r|apply Z.le_succ_l];
        apply (Z.mul_lt_mono_pos_l d); lia. }
    assert (Exn : x = nc + 1 + x mod d) by nia.
    assert (Hr : x mod d <= d - 2) by nia.
    assert ((1 + x mod d) * e <= nc * e) by (apply Z.mul_le_mono_nonneg_r; lia).
    rewrite Exn at 2. nia.
Qed.
End Reciprocal.

Lemma nc_of_eq (w d : Z) : 0 <= w -> 0 < d -> nc_of w d = d * (2 ^ w / d) - 1.
Proof.
  intros Hw Hd. unfold nc_of. rewrite Z.shiftl_1_l.
  replace (2 ^ w - 1 - d + 1) with (2 ^ w + -1 * d) by lia.
  rewrite Z_mod_plus_full. pose proof (Z.div_mod (2 ^ w) d ltac:(lia)). lia.
Qed.

Lemma nc_of_props (w d : Z) :
  0 <= w -> 0 < d < 2 ^ w ->
  nc_of w d mod d = d - 1 /\ d - 1 <= nc_of w d <= 2 ^ w - 1 /\ 2 ^ w - d <= nc_of w d.
Proof.
  intros Hw Hd. rewrite nc_of_eq by lia.
  pose proof (Z.div_mod (2 ^ w) d ltac:(lia)).
  pose proof (Z.mod_pos_bound (2 ^ w) d ltac:(lia)).
  assert (1 <= 2 ^ w / d) by (apply Z.div_le_lower_bound; lia).
  split_and!; try nia.
  replace (d * (2 ^ w / d) - 1) with (d - 1 + (2 ^ w / d - 1) * d) by lia.
  rewrite Z_mod_plus_full. apply Z.mod_small. lia.
Qed.

Lemma bits_range (width : MagicWidth) : 32 <= bits width <= 64.
Proof. destruct width; simpl; lia. Qed.

Lemma band_mult_spec (m : MagicU) (width : MagicWidth) :
  uword (bits width) (magic m) ->
  let mult := if add m then wrapping_add (from_u64 (magic m)) (one_shl (bits width))
              else from_u64 (magic m) in
  wf mult /\ val mult = mult_of (bits width) m /\ 0 <= mult_of (bits width) m < 2 ^ 65.
Proof.
  intros Hm. pose proof (bits_range width).
  assert (Hle : 2 ^ bits width <= 2 ^ 64) by (apply pow2_le; lia).
  unfold uword in Hm.
  destruct (from_u64_spec (magic m)) as [W1 V1]; [unfold uword; lia|].
  destruct (one_shl_spec (bits width)) as [W2 V2]; [lia|].
  unfold mult_of. destruct (add m); [|split_and!; auto; lia].
  split_and!; [by apply wrapping_add_wf| |lia|lia].
  rewrite wrapping_add_val, V1, V2 by auto. apply Z.mod_small. lia.
Qed.

(** The 256-bit evaluation decides the exact inequalities: nothing wraps. *)
Lemma band_holds_iff (d : Z) (m : MagicU) (width : MagicWidth) :
  let w := bits width in
  1 < d < 2 ^ w -> uword w (magic m) -> 0 <= shift m ->
  band_holds d m width = true <->
  shift m < 64 /\ 2 ^ (w + shift m) <= mult_of w m * d /\
  (mult_of w m * d - 2 ^ (w + shift m)) * nc_of w d < 2 ^ (w + shift m).
Proof.
  intros w Hd Hmg Hs. unfold band_holds. fold w.
  pose proof (bits_range width) as Hw. fold w in Hw.
  destruct (Z.leb_spec 64 (shift m)); [split; [done|lia]|].
  destruct (Z.leb_spec 128 (w + shift m)); [lia|].
  destruct (band_mult_spec m width Hmg) as (Wm & Vm & Bm). fold w in Wm, Vm, Bm.
  set (mult := if add m then _ else _) in *.
  assert (H64 : 2 ^ w <= 2 ^ 64) by (apply pow2_le; lia).
  assert (Hlo : 0 < 2 ^ (w + shift m) < 2 ^ 128) by (split; [apply pow2_pos|apply pow2_lt]; lia).
  destruct (from_u64_spec d) as [Wd Vd]; [unfold uword; lia|].
  destruct (one_shl_spec (w + shift m)) as [Wlo Vlo]; [lia|].
  destruct (wrapping_mul_spec mult (from_u64 d) Wm Wd) as [Wp Vp].
  assert (Bp : 0 <= mult_of w m * d < 2 ^ 129).
  { split; [nia|]. change (2 ^ 129) with (2 ^ 65 * 2 ^ 64).
    apply Z.mul_lt_mono_nonneg; lia. }
  rewrite Vm, Vd, Z.mod_small in Vp by lia.
  destruct (nc_of_props w d ltac:(lia) ltac:(lia)) as (_ & Hn1 & Hn2).
  change (Z.shiftl 1 w - 1 - (Z.shiftl 1 w - 1 - d + 1) mod d) with (nc_of w d).
  rewrite (wrap_small 64) by (unfold uword; lia).
  destruct (from_u64_spec (nc_of w d)) as [Wn Vn]; [unfold uword; lia|].
  destruct (wrapping_mul_spec _ _ Wp Wn) as [Wpn Vpn].
  destruct (wrapping_mul_spec _ _ Wlo Wn) as [Wln Vln].
  assert (Bpn : 0 <= mult_of w m * d * nc_of w d < 2 ^ 129 * 2 ^ 64)
    by (split; [nia|apply Z.mul_lt_mono_nonneg; lia]).
  assert (Bln : 0 <= 2 ^ (w + shift m) * nc_of w d < 2 ^ 128 * 2 ^ 64)
    by (split; [nia|apply Z.mul_lt_mono_nonneg; lia]).
  rewrite Vp, Vn, Z.mod_small in Vpn by lia.
  rewrite Vlo, Vn, Z.mod_small in Vln by lia.
  rewrite !ltb_val by auto using wrapping_add_wf.
  rewrite wrapping_add_val, Vpn, Vln, Vp, Vlo by auto.
  rewrite (Z.mod_small (_ + _)) by lia.
  destruct (Z.ltb_spec (mult_of w m * d) (2 ^ (w + shift m))); [split; [done|lia]|].
  rewrite Z.ltb_lt. nia.
Qed.

(** The add-back sequence is a plain multiply-high by the [w+1]-bit multiplier. *)
Lemma eval_magic_eq (x : Z) (m : MagicU) (width : MagicWidth) :
  let w := bits width in
  uword w x -> uword w (magic m) -> 0 <= shift m -> (add m = true -> 1 <= shift m) ->
  eval_magic x m width = x * mult_of w m / 2 ^ (w + shift m).
Proof.
  intros w Hx Hmg Hs Ha. pose proof (bits_range width) as Hw. fold w in Hw.
  unfold eval_magic, mulhi, mult_of. fold w. cbv zeta.
  rewrite (wrap_small w x), (wrap_small w (magic m)) by auto.
  unfold uword in Hx, Hmg. assert (Hp : 0 < 2 ^ w) by auto with mw zarith.
  rewrite (Z.shiftr_div_pow2 (x * magic m)) by lia. set (t := x * magic m / 2 ^ w).
  pose proof (Z.div_mod (x * magic m) (2 ^ w) ltac:(lia)) as E.
  pose proof (Z.mod_pos_bound (x * magic m) (2 ^ w) ltac:(lia)). fold t in E.
  assert (Ht : 0 <= t <= x)
    by (split; [apply Z.div_pos|apply Z.div_le_upper_bound]; nia).
  rewrite (wrap_small w t) by (unfold uword; lia).
  destruct (add m).
  - specialize (Ha eq_refl). rewrite !Z.shiftr_div_pow2 by lia.
    rewrite (wrap_small w (x - t)) by (unfold uword; lia).
    change (2 ^ 1) with 2.
    pose proof (Z.div_mod (x - t) 2 ltac:(lia)).
    pose proof (Z.mod_pos_bound (x - t) 2 ltac:(lia)).
    rewrite wrap_small by (unfold uword; lia).
    replace (t + (x - t) / 2) with ((x + t) / 2) by (apply div_eq_between; lia).
    rewrite Z.div_div by (try apply pow2_pos; lia).
    replace (2 * 2 ^ (shift m - 1)) with (2 ^ shift m) by (apply pow2_half; lia).
    rewrite pow2_split, <- Z.div_div by (try apply Z.pow_nonzero; try apply pow2_pos; lia).
    f_equal. rewrite Z.mul_add_distr_l, Z_div_plus_full by lia. subst t. lia.
  - rewrite Z.shiftr_div_pow2, pow2_split by lia. subst t.
    apply Z.div_div; [lia|apply pow2_pos; lia].
Qed.

(** The worst-case test of the band decides exactness at every dividend. *)
Lemma band_worst_case (d : Z) (m : MagicU) (width : MagicWidth)
    (e := mult_of (bits width) m * d - 2 ^ (bits width + shift m)) :
  1 < d < 2 ^ bits width -> uword (bits width) (magic m) -> 0 <= shift m ->
  (add m = true -> 1 <= shift m) -> 0 <= e ->
  e * nc_of (bits width) d < 2 ^ (bits width + shift m) <->
  forall x, uword (bits width) x -> eval_magic x m width = x / d.
Proof.
  intros Hd Hm Hs Ha He. pose proof (bits_range width) as Hw. subst e.
  set (w := bits width) in *. set (P := 2 ^ (w + shift m)) in *. set (mu := mult_of w m) in *.
  assert (HP : 0 < P) by (apply pow2_pos; lia).
  destruct (nc_of_props w d ltac:(lia) ltac:(lia)) as (Hn0 & Hn1 & Hn2).
  assert (Heval : forall x, uword w x -> eval_magic x m width = x * mu / P)
    by (intros; apply eval_magic_eq; auto).
  transitivity (forall x, 0 <= x <= 2 ^ w - 1 ->
                  (x mod d) * P + x * (mu * d - P) < d * P).
  { symmetry. rewrite (Z.mul_comm _ (nc_of w d)). apply (worst_case_iff d mu); lia. }
  split; intros H x Hx.
  - rewrite Heval by auto. apply (reciprocal_exact_iff d mu P (mu * d - P)); try lia.
    + apply Hx.
    + apply H. unfold uword in Hx; lia.
  - apply (reciprocal_exact_iff d mu P (mu * d - P)); try lia.
    rewrite <- Heval; [apply H|]; unfold uword; lia.
Qed.

Lemma band_holds_sound (d x : Z) (m : MagicU) (width : MagicWidth) :
  1 < d < 2 ^ bits width -> uword (bits width) (magic m) -> 0 <= shift m ->
  (add m = true -> 1 <= shift m) -> band_holds d m width = true ->
  uword (bits width) x -> eval_magic x m width = x / d.
Proof.
  intros Hd Hm Hs Ha Hb. apply band_holds_iff in Hb as (_ & H2 & H3); auto.
  revert x. apply band_worst_case; auto. lia.
Qed.

(** C14: The band predicate is exact.  For a width-[w] divisor [1 < d < 2^w] and
    any candidate magic in range whose sequence is defined, [band_holds] accepts
    iff its shift fits and the multiply-high / shift sequence returns [x / d]
    for every [w]-bit [x].  This is the division theorem the source cites. *)
Theorem band_holds_exact (d : Z) (m : MagicU) (width : MagicWidth)
    (Hd : 1 < d < 2 ^ bits width) (Hm : uword (bits width) (magic m))
    (Hs : 0 <= shift m) (Ha : add m = true -> 1 <= shift m) :
  band_holds d m width = true <->
  shift m < 64 /\ forall x, uword (bits width) x -> eval_magic x m width = x / d.
Proof.
  split.
  { intros Hb. split; [now apply band_holds_iff in Hb|].
    intros x. now apply band_holds_sound. }
  intros (H1 & H2). apply band_holds_iff; auto. split; [done|].
  pose proof (bits_range width) as Hw. set (w := bits width) in *.
  set (P := 2 ^ (w + shift m)). set (mu := mult_of w m).
  assert (HP : 0 < P) by (apply pow2_pos; lia).
  assert (Hlow : P <= mu * d).
  { (* otherwise [x = d] already divides to 0 *)
    destruct (Z_lt_le_dec (mu * d) P) as [Hlt|]; [|done]. exfalso.
    assert (Hdw : uword w d) by (unfold uword; lia).
    assert (Hmu : 0 <= mu)
      by (subst mu; unfold mult_of, uword in *; pose proof (pow2_pos w); destruct (add m); lia).
    specialize (H2 d Hdw). rewrite eval_magic_eq, Z.div_same in H2 by (auto; lia).
    fold w mu P in H2. rewrite Z.div_small in H2 by nia. lia. }
  split; [done|]. apply band_worst_case; auto. fold w P mu. lia.
Qed.

Lemma band_holds_exact_witness :
  band_holds 7 (mkMagicU 0x24924925 3 true) W32 = true /\
  (forall x, uword 32 x -> eval_magic x (mkMagicU 0x24924925 3 true) W32 = x / 7).
Proof.
  assert (H : band_holds 7 (mkMagicU 0x24924925 3 true) W32 = true) by (vm_compute; reflexivity).
  split; [exact H|].
  refine (proj2 (proj1 (band_holds_exact 7 (mkMagicU 0x24924925 3 true) W32 _ _ _ _) H));
    unfold uword; simpl; lia.
Defined.

(** *** The search always succeeds *)

(** Doubling step shared by the two remainder recurrences: [q, r] divide [n],
    and the branch computes the quotient and remainder of [2 n + b]. *)
Lemma double_step (n q r c b : Z) :
  0 < c -> 0 <= b <= 1 -> n = q * c + r -> 0 <= r < c ->
  let '(q', r') := if c - r <=? r + b then (2 * q + 1, 2 * r + b - c)
                   else (2 * q, 2 * r + b) in
  2 * n + b = q' * c + r' /\ 0 <= r' < c.
Proof. intros ? ? -> ?. destruct (Z.leb_spec (c - r) (r + b)); lia. Qed.

(** The loop exit test is the upper band inequality. *)
Lemma exit_test_iff (P nc q r delta : Z) :
  0 < nc -> P = q * nc + r -> 0 <= r < nc ->
  negb ((q <? delta) || ((q =? delta) && (r =? 0))) = true <-> nc * delta < P.
Proof.
  intros Hn -> Hr. rewrite negb_true_iff, orb_false_iff, andb_false_iff.
  rewrite Z.ltb_ge, !Z.eqb_neq. split.
  - intros [H1 [H2|H2]]; nia.
  - intros H. assert (delta <= q) by nia. split; [done|].
    destruct (Z.eq_dec q delta); [right|left]; nia.
Qed.

Lemma magicu_loop_exits (fuel : nat) (w d nc p q1 r1 q2 r2 : Z) :
  1 <= w -> 1 < d -> 0 < nc -> nc * (d - 1) < 2 ^ (2 * w) -> w - 1 <= p < 2 * w ->
  2 * w - p <= Z.of_nat fuel ->
  2 ^ p = q1 * nc + r1 -> 0 <= r1 < nc ->
  2 ^ p - 1 = q2 * d + r2 -> 0 <= r2 < d ->
  (p = w - 1 \/ 2 ^ p <= nc * (d - 1)) ->
  exists p' q2' r2', magicu_loop fuel w d nc p q1 r1 q2 r2 = Some (p', q2') /\
    w <= p' <= 2 * w /\ 2 ^ p' - 1 = q2' * d + r2' /\ 0 <= r2' < d /\
    nc * (d - 1 - r2') < 2 ^ p' /\ (p' = w \/ 2 ^ (p' - 1) <= nc * (d - 1)).
Proof.
  intros Hw Hd Hnc Hmax. revert p q1 r1 q2 r2.
  induction fuel as [|fuel IH]; intros p q1 r1 q2 r2 Hp Hf H1 Hr1 H2 Hr2 Hprev; [lia|].
  cbn [magicu_loop].
  assert (E2 : 2 ^ (p + 1) = 2 * 2 ^ p) by (rewrite Z.add_1_r, Z.pow_succ_r; lia).
  pose proof (double_step _ q1 r1 nc 0 Hnc ltac:(lia) H1 Hr1) as D1.
  rewrite !Z.add_0_r in D1.
  pose proof (double_step _ q2 r2 d 1 ltac:(lia) ltac:(lia) H2 Hr2) as D2.
  destruct (if nc - r1 <=? r1 then _ else _) as [q1' r1'].
  destruct (if d - r2 <=? r2 + 1 then _ else _) as [q2' r2'].
  destruct D1 as [D1 Hr1'], D2 as [D2 Hr2'].
  rewrite <- E2 in D1.
  pose proof (exit_test_iff _ nc q1' r1' (d - 1 - r2') Hnc D1 Hr1') as Hex.
  destruct (negb _) eqn:Eb.
  - exists (p + 1), q2', r2'. replace (p + 1 - 1) with p by lia.
    split_and!; try lia; done.
  - assert (Hge : 2 ^ (p + 1) <= nc * (d - 1 - r2')).
    { destruct (Z_lt_le_dec (nc * (d - 1 - r2')) (2 ^ (p + 1))) as [Hlt|]; [|done].
      apply Hex in Hlt. congruence. }
    assert (Hpn : p + 1 < 2 * w).
    { destruct (Z_lt_le_dec (p + 1) (2 * w)) as [|Hc]; [done|].
      assert (2 ^ (2 * w) <= 2 ^ (p + 1)) by (apply pow2_le; lia). nia. }
    destruct (Z.ltb_spec (2 * w + 4) (p + 1)); [lia|].
    apply IH; try lia; right; nia.
Qed.

(** [magicu] never gives up on a width-[w] divisor [1 < d < 2^w]. *)
Lemma magicu_finds (d : Z) (width : MagicWidth) (Hd : 1 < d < 2 ^ bits width) :
  exists m, magicu d width = Some m /\ uword (bits width) (magic m) /\
    0 <= shift m <= bits width /\ (add m = true -> 1 <= shift m) /\
    (shift m < 64 -> band_holds d m width = true).
Proof.
  pose proof (bits_range width) as Hw. unfold magicu. cbv zeta.
  set (w := bits width) in *.
  destruct (Z.leb_spec d 1); [lia|]. rewrite !Z.shiftl_1_l.
  destruct (Z.leb_spec (2 ^ w) d); [lia|]. rewrite andb_false_r.
  assert (Enc : 2 ^ w - 1 - (2 ^ w - 1 - d + 1) mod d = nc_of w d)
    by (unfold nc_of; now rewrite Z.shiftl_1_l).
  rewrite Enc. destruct (nc_of_props w d ltac:(lia) ltac:(lia)) as (_ & Hn1 & Hn2).
  pose proof (pow2_half w ltac:(lia)) as Ehalf.
  assert (H2w : 2 ^ (2 * w) = 2 ^ w * 2 ^ w) by (rewrite <- pow2_split by lia; f_equal; lia).
  destruct (magicu_loop_exits (Z.to_nat (w + 8)) w d (nc_of w d) (w - 1)
     (2 ^ (w - 1) / nc_of w d) (2 ^ (w - 1) - 2 ^ (w - 1) / nc_of w d * nc_of w d)
     ((2 ^ (w - 1) - 1) / d) (2 ^ (w - 1) - 1 - (2 ^ (w - 1) - 1) / d * d))
    as (p & q2 & r2 & -> & Hp & Hq2 & Hr2 & Hex & Hmin); try lia; try nia.
  { pose proof (Z.div_mod (2 ^ (w - 1)) (nc_of w d) ltac:(lia)).
    pose proof (Z.mod_pos_bound (2 ^ (w - 1)) (nc_of w d) ltac:(lia)). lia. }
  { pose proof (Z.div_mod (2 ^ (w - 1) - 1) d ltac:(lia)).
    pose proof (Z.mod_pos_bound (2 ^ (w - 1) - 1) d ltac:(lia)). lia. }
  cbn [mbind option_bind]. eexists; split; [reflexivity|]. cbn [magic shift add].
  (* the multiplier rounds [2^p / d] up and has at most [w + 1] bits *)
  assert (Efull : (q2 + 1) * d = 2 ^ p + (d - 1 - r2)) by lia.
  assert (Hq : 0 <= q2).
  { assert (1 <= 2 ^ p) by (pose proof (pow2_pos p); lia). nia. }
  assert (Hfull : q2 + 1 < 2 * 2 ^ w /\ (p = w -> q2 + 1 < 2 ^ w)).
  { destruct Hmin as [->|Hmin].
    - assert (q2 + 1 < 2 ^ w); [|lia].
      assert (4 <= 2 ^ w) by (change 4 with (2 ^ 2); apply pow2_le; lia). nia.
    - assert (E2p : 2 ^ p = 2 * 2 ^ (p - 1)) by (apply pow2_half; lia).
      split; [nia|]. intros ->. assert (4 <= 2 ^ w) by (change 4 with (2 ^ 2); apply pow2_le; lia).
      nia. }
  assert (H64 : 2 ^ w <= 2 ^ 64) by (apply pow2_le; lia).
  assert (Emag : wrap 64 (Z.land (q2 + 1) (2 ^ w - 1)) = (q2 + 1) mod 2 ^ w).
  { replace (2 ^ w - 1) with (Z.ones w) by (rewrite Z.ones_equiv; lia).
    rewrite Z.land_ones by lia. apply wrap_small. unfold uword.
    pose proof (Z.mod_pos_bound (q2 + 1) (2 ^ w) ltac:(lia)). lia. }
  rewrite Emag.
  assert (Emult : (if 2 ^ w <=? q2 + 1 then (q2 + 1) mod 2 ^ w + 2 ^ w else (q2 + 1) mod 2 ^ w)
                  = q2 + 1).
  { destruct (Z.leb_spec (2 ^ w) (q2 + 1)); [|apply Z.mod_small; lia].
    rewrite <- (Z_mod_plus_full _ (-1)), Z.mod_small by lia. lia. }
  split_and!; try lia.
  - apply wrap_range. lia.
  - intros Hs. apply band_holds_iff; cbn [magic shift add];
      [exact Hd|apply wrap_range; subst w; lia|lia|].
    unfold mult_of; cbn [magic shift add]. fold w. rewrite Emult.
    replace (w + (p - w)) with p by lia. split_and!; lia.
Qed.

(** C15: The unsigned search is total, and its result is correct when its shift is below
    64: for every divisor
    [1 < d < 2^w], [magicu] returns a magic [m] whose shift is at most [w], the
    band predicate accepts it iff its shift is below 64, and then the emitted
    sequence computes [x / d] for every [w]-bit [x].  The shift 64 does occur at 64
    bits, and is declined ([magicu_shift_w]). *)
Theorem magicu_correct (d : Z) (width : MagicWidth) (Hd : 1 < d < 2 ^ bits width) :
  exists m, magicu d width = Some m /\ 0 <= shift m <= bits width /\
    (band_holds d m width = true <-> shift m < 64) /\
    (shift m < 64 -> forall x, uword (bits width) x -> eval_magic x m width = x / d).
Proof.
  destruct (magicu_finds d width Hd) as (m & E & Hm & Hs & Ha & Hb).
  exists m. split_and!; auto; try lia.
  - split; [|auto]. intros H. apply band_holds_iff in H; auto; lia.
  - intros H x. apply band_holds_sound; auto; lia.
Qed.

Lemma magicu_correct_witness :
  exists m, magicu 10 W64 = Some m /\ shift m = 3 /\
    forall x, uword 64 x -> eval_magic x m W64 = x / 10.
Proof.
  destruct (magicu_correct 10 W64 ltac:(simpl; lia)) as (m & E & _ & _ & H).
  exists m. assert (Hs : shift m = 3) by (vm_compute in E; injection E as <-; reflexivity).
  split; [exact E|]. split; [exact Hs|]. apply H. lia.
Defined.

(** The largest even divisor needs the shift [w]: the shift of a valid divisor
    is not always below [w], contrary to the comment in [band_holds], and at 64
    bits the predicate rejects (the hardware divide is kept). *)
Example magicu_shift_w :
  (shift <$> magicu (2 ^ 32 - 2) W32) = Some 32 /\
  ((fun m => (shift m, band_holds (2 ^ 64 - 2) m W64)) <$> magicu (2 ^ 64 - 2) W64)
  = Some (64, false).
Proof. split; vm_compute; reflexivity. Qed.

(** *** Signed division *)

Record MagicS := mkMagicS { smagic : Z; sshift : Z }.

(** The signed search loop; same conventions as [magicu_loop]. *)
Fixpoint magics_loop (fuel : nat) (w ad anc p q1 r1 q2 r2 : Z) : option (Z * Z) :=
  match fuel with
  | O => None
  | S fuel' =>
      let p := p + 1 in
      let q1 := 2 * q1 in
      let r1 := 2 * r1 in
      let '(q1, r1) := if anc <=? r1 then (q1 + 1, r1 - anc) else (q1, r1) in
      let q2 := 2 * q2 in
      let r2 := 2 * r2 in
      let '(q2, r2) := if ad <=? r2 then (q2 + 1, r2 - ad) else (q2, r2) in
      let delta := ad - r2 in
      if negb ((q1 <? delta) || ((q1 =? delta) && (r1 =? 0))) then Some (p, q2)
      else if 2 * w + 4 <? p then None
      else magics_loop fuel' w ad anc p q1 r1 q2 r2
  end.

Definition magics_bits (d w : Z) : option (Z * Z) :=
  if negb ((2 <=? w) && (w <=? 64)) then None
  else
    let smin := - Z.shiftl 1 (w - 1) in
    let smax := Z.shiftl 1 (w - 1) - 1 in
    if (d <? smin) || (smax <? d) || (d =? 0) || (d =? 1) || (d =? -1) then None
    else
      let ad := Z.abs d in
      if Z.land ad (ad - 1) =? 0 then None
      else
        let two_wm1 := Z.shiftl 1 (w - 1) in
        let t := two_wm1 + (if d <? 0 then 1 else 0) in
        let anc := t - 1 - t mod ad in
        let q1 := two_wm1 / anc in
        let r1 := two_wm1 - q1 * anc in
        let q2 := two_wm1 / ad in
        let r2 := two_wm1 - q2 * ad in
        '(p, q2) ← magics_loop (Z.to_nat (w + 8)) w ad anc (w - 1) q1 r1 q2 r2;
        let m := q2 + 1 in
        let m := if d <? 0 then - m else m in
        Some (sext_low w m, p - w).

Definition magics (d : Z) (width : MagicWidth) : option MagicS :=
  '(m, s) ← magics_bits d (bits width);
  Some (mkMagicS (swrap 64 m) s).

Definition smagic_band_holds (d : Z) (m : MagicS) (width : MagicWidth) : bool :=
  let w := bits width in
  if (d =? 0) || (d =? 1) || (d =? -1) then false
  else
    let mm := smagic m in
    let s := sshift m in
    if (w <=? s) || (256 <=? w + s + 1) then false
    else
      let ad := Z.abs d in
      let am_abs := Z.abs mm in
      let two_w := Z.shiftl 1 w in
      if Z.land ad (ad - 1) =? 0 then false
      else
        let same_sign := eqb (0 <? d) (0 <? mm) in
        let a_m := if same_sign then am_abs else two_w - am_abs in
        let prod := wrapping_mul (from_u128 a_m) (from_u128 ad) in
        let lo := one_shl (w + s) in
        let t := Z.shiftl 1 (w - 1) + (if d <? 0 then 1 else 0) in
        let anc := t - 1 - t mod ad in
        let anc256 := from_u128 anc in
        leb lo prod &&
        ltb (wrapping_mul prod anc256) (wrapping_add (wrapping_mul lo anc256) lo).

(** The source's model of the emitted signed sequence. *)
Definition eval_smagic (x d m s w : Z) : Z :=
  let prod := x * m in
  let q := Z.shiftr prod w in
  let q := if (0 <? d) && (m <? 0) then q + x else q in
  let q := if (d <? 0) && (0 <? m) then q - x else q in
  let q := Z.shiftr q s in
  let q_signed := sext_low w q in
  let signbit := if q_signed <? 0 then 1 else 0 in
  sext_low w (q_signed + signbit).

(** The worst-case dividend and the effective multiplier of the source. *)
Definition anc_of (w d : Z) : Z :=
  let t := 2 ^ (w - 1) + (if d <? 0 then 1 else 0) in t - 1 - t mod Z.abs d.

Definition amult_of (w d m : Z) : Z :=
  if eqb (0 <? d) (0 <? m) then Z.abs m else 2 ^ w - Z.abs m.

Lemma anc_of_props (w d : Z) (top := 2 ^ (w - 1) + (if d <? 0 then 1 else 0) - 1) :
  1 <= w -> sword w d -> d <> 0 ->
  anc_of w d mod Z.abs d = Z.abs d - 1 /\ Z.abs d - 1 <= anc_of w d <= top /\
  top - Z.abs d < anc_of w d.
Proof.
  unfold sword, anc_of; intros Hw Hd H0. subst top.
  set (t := 2 ^ (w - 1) + _). set (ad := Z.abs d).
  assert (Hat : 0 < ad <= t) by (subst ad t; destruct (Z.ltb_spec d 0); lia).
  pose proof (Z.div_mod t ad ltac:(lia)) as E.
  pose proof (Z.mod_pos_bound t ad ltac:(lia)).
  assert (1 <= t / ad) by (apply Z.div_le_lower_bound; lia).
  split_and!; try nia.
  replace (t - 1 - t mod ad) with (ad - 1 + (t / ad - 1) * ad) by lia.
  rewrite Z_mod_plus_full. apply Z.mod_small. lia.
Qed.

Lemma pow2_factor (k : nat) (a b : Z) :
  0 < a -> 0 <= b -> b * a = 2 ^ Z.of_nat k -> exists j, 0 <= j /\ a = 2 ^ j.
Proof.
  revert a b; induction k as [|k IH]; intros a b Ha Hb E.
  { exists 0. simpl in E |- *. destruct (Z.mul_eq_1 b a E); subst; lia. }
  rewrite Nat2Z.inj_succ, Z.pow_succ_r in E by lia.
  destruct (Zeven_odd_dec a) as [Ev|Od].
  - apply Zeven_ex in Ev as [a' ->].
    destruct (IH a' b ltac:(lia) Hb ltac:(nia)) as (j & Hj & ->).
    exists (j + 1). rewrite Z.add_1_r, Z.pow_succ_r; lia.
  - destruct (Zeven_odd_dec b) as [Evb|Odb].
    + apply Zeven_ex in Evb as [b' ->]. apply (IH a b'); nia.
    + exfalso. pose proof (Zodd_mult_Zodd _ _ Odb Od) as Ho.
      apply Zodd_ex in Ho as [c Hc]. lia.
Qed.

(** [ad & (ad - 1) != 0] rules out an exact power-of-two product. *)
Lemma not_pow2_exact (ad mu k : Z) :
  0 < ad -> 0 <= k -> 0 <= mu -> Z.land ad (ad - 1) <> 0 -> mu * ad <> 2 ^ k.
Proof.
  intros Ha Hk Hmu Hl E. apply Hl. rewrite <- (Z2Nat.id k Hk) in E.
  destruct (pow2_factor _ ad mu Ha Hmu E) as (j & Hj & ->).
  rewrite <- (Z.shiftl_1_l j) at 2. rewrite land_pow2_mask by lia. apply Z.mod_same.
  pose proof (pow2_pos j). lia.
Qed.

Lemma smagic_band_holds_iff (d : Z) (m : MagicS) (width : MagicWidth) :
  let w := bits width in
  sword w d -> sword w (smagic m) -> 0 <= sshift m ->
  let P := 2 ^ (w + sshift m) in
  let mu := amult_of w d (smagic m) in
  smagic_band_holds d m width = true <->
  1 < Z.abs d /\ Z.land (Z.abs d) (Z.abs d - 1) <> 0 /\ sshift m < w /\
  P <= mu * Z.abs d /\ (mu * Z.abs d - P) * anc_of w d < P.
Proof.
  intros w Hd Hmg Hs P mu. unfold smagic_band_holds. fold w.
  pose proof (bits_range width) as Hw. fold w in Hw.
  destruct (Z.eqb_spec d 0); [split; [done|lia]|].
  destruct (Z.eqb_spec d 1); [split; [done|lia]|].
  destruct (Z.eqb_spec d (-1)); [split; [done|lia]|]. cbn [orb].
  destruct (Z.leb_spec w (sshift m)); [split; [done|lia]|]. cbn [orb].
  destruct (Z.leb_spec 256 (w + sshift m + 1)); [lia|].
  destruct (Z.eqb_spec (Z.land (Z.abs d) (Z.abs d - 1)) 0); [split; [done|tauto]|].
  rewrite !Z.shiftl_1_l. fold (amult_of w d (smagic m)) (anc_of w d). fold mu.
  destruct (anc_of_props w d ltac:(lia) Hd ltac:(lia)) as (_ & Hn1 & _).
  pose proof (pow2_half w ltac:(lia)) as Eh.
  assert (H64 : 2 ^ w <= 2 ^ 64) by (apply pow2_le; lia).
  unfold sword in Hd, Hmg.
  assert (Bmu : 0 <= mu <= 2 ^ 64) by (subst mu; unfold amult_of; destruct (eqb _ _); lia).
  assert (Bad : 0 <= Z.abs d <= 2 ^ 63) by lia.
  assert (Ban : 0 <= anc_of w d <= 2 ^ 63) by (destruct (d <? 0); lia).
  assert (HP : 0 < P < 2 ^ 128) by (split; [apply pow2_pos|apply pow2_lt]; lia).
  assert (Bp : 0 <= mu * Z.abs d <= 2 ^ 64 * 2 ^ 63)
    by (split; [nia|apply Z.mul_le_mono_nonneg; lia]).
  destruct (from_u128_spec mu) as [Wm Vm]; [unfold uword; lia|].
  destruct (from_u128_spec (Z.abs d)) as [Wd Vd]; [unfold uword; lia|].
  destruct (from_u128_spec (anc_of w d)) as [Wn Vn]; [unfold uword; lia|].
  destruct (one_shl_spec (w + sshift m)) as [Wlo Vlo]; [lia|]. fold P in Vlo.
  destruct (wrapping_mul_spec _ _ Wm Wd) as [Wp Vp].
  rewrite Vm, Vd, Z.mod_small in Vp by lia.
  destruct (wrapping_mul_spec _ _ Wp Wn) as [Wpn Vpn].
  destruct (wrapping_mul_spec _ _ Wlo Wn) as [Wln Vln].
  assert (Bpn : 0 <= mu * Z.abs d * anc_of w d <= 2 ^ 64 * 2 ^ 63 * 2 ^ 63)
    by (split; [nia|apply Z.mul_le_mono_nonneg; lia]).
  assert (Bln : 0 <= P * anc_of w d <= 2 ^ 128 * 2 ^ 63)
    by (split; [nia|apply Z.mul_le_mono_nonneg; lia]).
  rewrite Vp, Vn, Z.mod_small in Vpn by lia.
  rewrite Vlo, Vn, Z.mod_small in Vln by lia.
  rewrite leb_val, ltb_val by auto using wrapping_add_wf.
  rewrite wrapping_add_val, Vpn, Vln, Vp, Vlo by auto.
  rewrite (Z.mod_small (_ + _)) by lia.
  rewrite andb_true_iff, Z.leb_le, Z.ltb_lt. nia.
Qed.

Section SignedBand.
(** A positive-magnitude multiplier [mu] for [|d|] at width [w], shift [s]. *)
Context (w d s mu : Z).
Abbreviation ad := (Z.abs d).
Abbreviation N := (2 ^ (w - 1)).
Abbreviation P := (2 ^ (w + s)).
Hypothesis Hw : 2 <= w.
Hypothesis Hs : 0 <= s.
Hypothesis Hd : sword w d.
Hypothesis Had : 1 < ad.
Hypothesis Hmu : 0 <= mu <= 2 ^ w.
Hypothesis Hlo : P < mu * ad.
Hypothesis Hhi : (mu * ad - P) * anc_of w d < P.

Lemma signed_consts : 2 ^ w = 2 * N /\ 2 <= N /\ P = N * (2 * 2 ^ s) /\ 1 <= 2 ^ s.
Proof.
  pose proof (pow2_half w ltac:(lia)) as E.
  assert (2 <= N) by (change 2 with (2 ^ 1) at 1; apply pow2_le; lia).
  pose proof (pow2_pos s Hs).
  split_and!; try lia. rewrite pow2_split by lia. rewrite E. ring.
Qed.

(** The multiplier is a [w]-bit number: the full [2^w] would break the band. *)
Lemma signed_mult_lt : mu < 2 ^ w.
Proof.
  destruct signed_consts as (E1 & E2 & E3 & E4).
  destruct (anc_of_props w d ltac:(lia) Hd ltac:(lia)) as (_ & Hn1 & _).
  destruct (Z.eq_dec mu (2 ^ w)) as [->|]; [|lia]. exfalso.
  assert (EP : P = 2 ^ w * 2 ^ s) by (apply pow2_split; lia).
  rewrite EP in Hlo, Hhi.
  assert (Hads : 2 ^ s < ad) by (apply (Z.mul_lt_mono_pos_l (2 ^ w)); lia).
  assert (2 ^ w * 1 <= 2 ^ w * (ad - 2 ^ s)) by (apply Z.mul_le_mono_nonneg_l; lia).
  assert (2 ^ s <= anc_of w d) by lia.
  assert (2 ^ w * 2 ^ s <= (2 ^ w * (ad - 2 ^ s)) * anc_of w d)
    by (apply Z.mul_le_mono_nonneg; lia).
  replace (2 ^ w * (ad - 2 ^ s)) with (2 ^ w * ad - 2 ^ w * 2 ^ s) in * by ring.
  lia.
Qed.

(** The one dividend beyond the table: [-2^(w-1)] by a positive divisor of
    [2^(w-1) + 1]. *)
Lemma signed_min_tight :
  0 < d -> N mod ad = ad - 1 -> (mu * ad - P) * N <= P.
Proof.
  intros Hpos Hmod. destruct signed_consts as (E1 & E2 & E3 & E4).
  pose proof signed_mult_lt as Hlt.
  set (e := mu * ad - P) in *. set (S := 2 * 2 ^ s) in *.
  enough (e <= S).
  { rewrite E3, (Z.mul_comm e). apply Z.mul_le_mono_nonneg_l; lia. }
  destruct (Z_le_gt_dec e S) as [|Hgt]; [done|]. exfalso.
  assert (Eanc : anc_of w d = N - ad).
  { unfold anc_of. destruct (Z.ltb_spec d 0); [lia|]. rewrite Z.add_0_r. lia. }
  pose proof (Z.div_mod N ad ltac:(lia)) as Ed. rewrite Hmod in Ed.
  set (c := N / ad + 1) in *.
  assert (Ec : ad * c = N + 1) by (subst c; lia).
  assert (HadN : ad < N) by (unfold sword in Hd; lia).
  assert (Hc3 : 3 <= c).
  { assert (Hc2 : 2 <= c).
    { destruct (Z_le_gt_dec c 1); [|lia].
      assert (ad * c <= ad * 1) by (apply Z.mul_le_mono_nonneg_l; lia). lia. }
    destruct (Z.eq_dec c 2) as [E|]; [|lia]. exfalso. rewrite E in Ec.
    destruct (Z.eq_dec w 2) as [E'|]; [rewrite E' in Ec; simpl in Ec; lia|].
    pose proof (pow2_half (w - 1)). lia. }
  assert (Hes : e - S = ad * (mu - S * c)).
  { replace (ad * (mu - S * c)) with (mu * ad - S * (ad * c)) by ring.
    rewrite Ec. subst e. rewrite E3. ring. }
  assert (Hk : 0 < mu - S * c) by (apply (Z.mul_pos_cancel_l ad); lia).
  assert (HSad : S + ad <= e).
  { assert (ad * 1 <= ad * (mu - S * c)) by (apply Z.mul_le_mono_nonneg_l; lia). lia. }
  assert (Hads : 2 ^ s < ad).
  { destruct (Z_lt_le_dec (2 ^ s) ad) as [|Hle]; [done|].
    assert (mu * ad <= 2 ^ w * 2 ^ s) by (apply Z.mul_le_mono_nonneg; lia).
    rewrite E1 in *. subst e. lia. }
  rewrite Eanc in Hhi.
  assert ((S + ad) * (N - ad) <= e * (N - ad)) by (apply Z.mul_le_mono_nonneg_r; lia).
  assert (Hneg : ad * (S + ad - N) > 0) by lia.
  assert (0 < S + ad - N) by (apply (Z.mul_pos_cancel_l ad); lia).
  assert (3 * ad <= ad * c) by (rewrite (Z.mul_comm 3); apply Z.mul_le_mono_nonneg_l; lia).
  lia.
Qed.

(** Every signed dividend magnitude satisfies the exactness inequality,
    strictly where the quotient is non-negative. *)
Lemma signed_slack (x : Z) :
  sword w x ->
  let n := Z.abs x in
  (n mod ad) * P + n * (mu * ad - P) <= ad * P /\
  (0 <= x * d -> (n mod ad) * P + n * (mu * ad - P) < ad * P).
Proof.
  intros Hx n. destruct signed_consts as (E1 & E2 & E3 & E4).
  destruct (anc_of_props w d ltac:(lia) Hd ltac:(lia)) as (Hn0 & Hn1 & Hn2).
  pose proof (worst_case_iff ad mu P (mu * ad - P) ltac:(lia) ltac:(lia) ltac:(lia)
                ltac:(lia)) as Hwc.
  set (top := N + (if d <? 0 then 1 else 0) - 1) in *.
  assert (Hin : forall y, 0 <= y <= top -> (y mod ad) * P + y * (mu * ad - P) < ad * P).
  { apply (Hwc top (anc_of w d)); subst top; unfold sword in Hd;
      destruct (Z.ltb_spec d 0); lia. }
  unfold sword in Hx.
  destruct (Z_le_gt_dec n top) as [Hle|Hgt].
  { specialize (Hin n ltac:(lia)). lia. }
  assert (Hbad : 0 < d /\ x = - N /\ n = N).
  { subst top n. destruct (Z.ltb_spec d 0); lia. }
  destruct Hbad as (Hpos & -> & En). split;
    [|intros ?; exfalso; assert (0 < N * d) by (apply Z.mul_pos_pos; lia); lia].
  rewrite En. pose proof (Z.mod_pos_bound N ad ltac:(lia)).
  destruct (Z.eq_dec (N mod ad) (ad - 1)) as [Em|Em].
  - rewrite Em. pose proof (signed_min_tight Hpos Em). lia.
  - assert (Eanc : anc_of w d = N - 1 - N mod ad).
    { unfold anc_of. destruct (Z.ltb_spec d 0); [lia|]. now rewrite Z.add_0_r. }
    apply Z.lt_le_incl. apply (Hwc N (anc_of w d)); unfold sword in *; lia.
Qed.
End SignedBand.

(** The sign-corrected high product is the high product with the effective
    signed multiplier, and fits in the word. *)
Definition smul_corrected (x d m w : Z) : Z :=
  let q := Z.shiftr (x * m) w in
  let q := if (0 <? d) && (m <? 0) then q + x else q in
  if (d <? 0) && (0 <? m) then q - x else q.

Lemma smul_corrected_eq (x d m w : Z) :
  1 <= w -> d <> 0 -> amult_of w d m < 2 ^ w -> sword w m ->
  smul_corrected x d m w = x * (Z.sgn d * amult_of w d m) / 2 ^ w.
Proof.
  unfold smul_corrected, amult_of, sword; intros Hw Hd Hlt Hm.
  pose proof (pow2_half w Hw) as Eh. pose proof (pow2_pos (w - 1) ltac:(lia)).
  assert (Hadd : forall k, (x * m + k * x * 2 ^ w) / 2 ^ w = Z.shiftr (x * m) w + k * x).
  { intros k. rewrite Z.shiftr_div_pow2 by lia. rewrite Z_div_plus_full by lia. lia. }
  destruct (Z.ltb_spec 0 d), (Z.ltb_spec d 0), (Z.ltb_spec m 0), (Z.ltb_spec 0 m);
    cbn [eqb andb] in *; try lia;
    first [ rewrite (Z.sgn_pos d) by lia | rewrite (Z.sgn_neg d) by lia ].
  - rewrite Z.abs_neq, Z.mul_1_l by lia.
    replace (x * (2 ^ w - - m)) with (x * m + 1 * x * 2 ^ w) by ring. rewrite Hadd. lia.
  - rewrite Z.abs_eq, Z.mul_1_l, Z.shiftr_div_pow2 by lia. done.
  - rewrite Z.abs_neq by lia. rewrite Z.shiftr_div_pow2 by lia. do 2 f_equal. lia.
  - rewrite Z.abs_eq by lia.
    replace (x * (-1 * (2 ^ w - m))) with (x * m + -1 * x * 2 ^ w) by ring. rewrite Hadd. lia.
  - replace m with 0 by lia. change (-1 * Z.abs 0) with 0.
    rewrite Z.mul_0_r, Z.shiftr_0_l, Z.div_0_l; lia.
Qed.

Lemma smul_corrected_range (x d mu w : Z) :
  1 <= w -> sword w x -> 0 <= mu < 2 ^ w -> sword w (x * (Z.sgn d * mu) / 2 ^ w).
Proof.
  unfold sword; intros Hw Hx Hmu. pose proof (pow2_pos w ltac:(lia)).
  set (A := Z.sgn d * mu).
  assert (HA : Z.abs A < 2 ^ w)
    by (subst A; rewrite Z.abs_mul; pose proof (Z.abs_nonneg (Z.sgn d));
        assert (Z.abs (Z.sgn d) <= 1) by (destruct d; simpl; lia); nia).
  assert (HxA : Z.abs (x * A) < 2 ^ (w - 1) * 2 ^ w).
  { rewrite Z.abs_mul.
    assert (Z.abs x * Z.abs A <= 2 ^ (w - 1) * Z.abs A)
      by (apply Z.mul_le_mono_nonneg_r; lia).
    assert (2 ^ (w - 1) * Z.abs A < 2 ^ (w - 1) * 2 ^ w)
      by (apply Z.mul_lt_mono_pos_l; lia). lia. }
  split; [apply Z.div_le_lower_bound|apply Z.div_lt_upper_bound]; lia.
Qed.

Lemma sgn_cases (x d : Z) :
  d <> 0 ->
  (0 <= x * d /\ x * Z.sgn d = Z.abs x /\ Z.sgn x * Z.sgn d * Z.abs x = Z.abs x) \/
  (x * d < 0 /\ 0 < Z.abs x /\ x * Z.sgn d = - Z.abs x /\ Z.sgn x * Z.sgn d = -1).
Proof. destruct d as [|p|p], x as [|q|q]; simpl; lia. Qed.

(** Rounding the floor of a negative product up by the sign bit truncates. *)
Lemma signed_quotient (w d s mu x : Z) (y := x * (Z.sgn d * mu) / 2 ^ (w + s)) :
  2 <= w -> 0 <= s -> sword w d -> 1 < Z.abs d -> 0 <= mu <= 2 ^ w ->
  2 ^ (w + s) < mu * Z.abs d ->
  (mu * Z.abs d - 2 ^ (w + s)) * anc_of w d < 2 ^ (w + s) -> sword w x ->
  y + (if y <? 0 then 1 else 0) = Z.quot x d.
Proof.
  intros Hw Hs Hd Had Hmu Hlo Hhi Hx.
  destruct (signed_slack w d s mu Hw Hs Hd Had Hmu Hlo Hhi x Hx) as [Hle Hlt].
  set (P := 2 ^ (w + s)) in *. assert (HP : 0 < P) by (apply pow2_pos; lia).
  set (e := mu * Z.abs d - P) in *. set (n := Z.abs x) in *. set (ad := Z.abs d) in *.
  rewrite Z.quot_div by lia. fold n ad.
  pose proof (Z.div_mod n ad ltac:(lia)) as En.
  pose proof (Z.mod_pos_bound n ad ltac:(lia)).
  set (q := n / ad) in *. set (r := n mod ad) in *.
  assert (Enm : n * mu * ad = (ad * q + r) * P + n * e) by (rewrite <- En; subst e; ring).
  assert (Hq0 : 0 <= q) by (apply Z.div_pos; lia).
  destruct (sgn_cases x d ltac:(lia)) as [(Hpos & Hsg & Hss)|(Hneg & Hn & Hsg & Hss)];
    fold n in Hsg, Hss.
  - (* same signs: the product is non-negative *)
    assert (Ey : y = q).
    { subst y. rewrite Z.mul_assoc, Hsg.
      apply (reciprocal_exact_iff ad mu P e); try lia; subst n r; lia. }
    rewrite Ey. destruct (Z.ltb_spec q 0); [lia|].
    destruct (Z.eq_dec n 0) as [En0|En0]; [subst q; rewrite En0, Z.div_0_l; lia|].
    assert (Hone : Z.sgn x * Z.sgn d = 1) by (apply (Z.mul_reg_r _ _ n); lia).
    rewrite Hone. lia.
  - (* opposite signs: [y = - (q + 1)] *)
    fold n in Hn. assert (Hne : 0 < n * e) by (apply Z.mul_pos_pos; lia).
    assert (Ey : y = - (q + 1)).
    { subst y. rewrite Z.mul_assoc, Hsg. apply div_eq_between; [done|].
      assert (q * P * ad < n * mu * ad).
      { rewrite Enm. assert (0 <= r * P) by (apply Z.mul_nonneg_nonneg; lia). lia. }
      assert (n * mu * ad <= (q + 1) * P * ad) by (rewrite Enm; lia).
      assert (q * P < n * mu) by (apply (Z.mul_lt_mono_pos_r ad); lia).
      assert (n * mu <= (q + 1) * P) by (apply (Z.mul_le_mono_pos_r _ _ ad); lia).
      lia. }
    rewrite Ey, Hss. destruct (Z.ltb_spec (- (q + 1)) 0); lia.
Qed.

(** The intermediate values of the signed sequence at an accepted magic: the
    corrected high product fits [w] bits, and rounding its shift toward zero
    gives the truncating quotient. *)
Lemma smagic_band_steps (d x : Z) (m : MagicS) (width : MagicWidth)
    (c := smul_corrected x d (smagic m) (bits width)) (y := Z.shiftr c (sshift m)) :
  sword (bits width) d -> sword (bits width) (smagic m) -> 0 <= sshift m ->
  smagic_band_holds d m width = true -> sword (bits width) x ->
  sshift m < bits width /\ sword (bits width) c /\ sword (bits width) y /\
  y + (if y <? 0 then 1 else 0) = Z.quot x d.
Proof.
  intros Hd Hm Hs Hb Hx.
  apply smagic_band_holds_iff in Hb as (Had & Hnp & Hsw & Hlo & Hhi); auto.
  pose proof (bits_range width). set (w := bits width) in *.
  set (mu := amult_of w d (smagic m)) in *.
  pose proof (pow2_half w ltac:(lia)) as Eh.
  assert (Hmu : 0 <= mu <= 2 ^ w)
    by (unfold sword in Hm; subst mu; unfold amult_of; destruct (eqb _ _); lia).
  assert (Hlo' : 2 ^ (w + sshift m) < mu * Z.abs d).
  { pose proof (not_pow2_exact (Z.abs d) mu (w + sshift m)). lia. }
  assert (Hlt : mu < 2 ^ w) by (apply (signed_mult_lt w d (sshift m)); auto; lia).
  assert (Ec : c = x * (Z.sgn d * mu) / 2 ^ w) by (apply smul_corrected_eq; auto; lia).
  assert (Hc : sword w c) by (rewrite Ec; apply smul_corrected_range; auto; lia).
  split_and!; [lia|done| |].
  - subst y. rewrite Z.shiftr_div_pow2 by lia. unfold sword in *.
    pose proof (pow2_pos (sshift m) Hs).
    split; [apply Z.div_le_lower_bound|apply Z.div_lt_upper_bound]; nia.
  - subst y. rewrite Ec, Z.shiftr_div_pow2, Z.div_div, <- pow2_split
      by (try apply pow2_pos; lia).
    apply signed_quotient; auto; lia.
Qed.

(** The signed band predicate is sound at every signed [w]-bit dividend,
    [-2^(w-1)] included. *)
Lemma smagic_band_sound (d x : Z) (m : MagicS) (width : MagicWidth) :
  sword (bits width) d -> sword (bits width) (smagic m) -> 0 <= sshift m ->
  smagic_band_holds d m width = true -> sword (bits width) x ->
  eval_smagic x d (smagic m) (sshift m) (bits width) = Z.quot x d.
Proof.
  intros Hd Hm Hs Hb Hx. pose proof (bits_range width).
  destruct (smagic_band_steps d x m width Hd Hm Hs Hb Hx) as (_ & _ & Hy & Hq).
  unfold eval_smagic. fold (smul_corrected x d (smagic m) (bits width)). cbv zeta.
  rewrite !sext_low_swrap, (swrap_small _ (Z.shiftr _ _)), Hq by (auto; lia).
  rewrite <- Hq. apply swrap_small; [lia|].
  unfold sword in *. destruct (Z.ltb_spec (Z.shiftr (smul_corrected x d (smagic m) (bits width)) (sshift m)) 0); lia.
Qed.

Lemma magics_loop_exits (fuel : nat) (w ad anc p q1 r1 q2 r2 : Z) :
  2 <= w -> 1 < ad -> 0 < anc -> anc * ad < 2 ^ (2 * w - 2) -> w - 1 <= p < 2 * w - 2 ->
  2 * w - 2 - p <= Z.of_nat fuel -> (forall k q, 0 <= k -> 0 <= q -> q * ad <> 2 ^ k) ->
  2 ^ p = q1 * anc + r1 -> 0 <= r1 < anc ->
  2 ^ p = q2 * ad + r2 -> 0 <= r2 < ad -> 0 <= q2 ->
  (p = w - 1 \/ 2 ^ p <= anc * (ad - 1)) ->
  exists p' q2' r2', magics_loop fuel w ad anc p q1 r1 q2 r2 = Some (p', q2') /\
    w <= p' <= 2 * w - 2 /\ 2 ^ p' = q2' * ad + r2' /\ 0 < r2' < ad /\ 0 <= q2' /\
    anc * (ad - r2') < 2 ^ p' /\ (p' = w \/ 2 ^ (p' - 1) <= anc * (ad - 1)).
Proof.
  intros Hw Hd Hnc Hmax. revert p q1 r1 q2 r2.
  induction fuel as [|fuel IH];
    intros p q1 r1 q2 r2 Hp Hf Hnp H1 Hr1 H2 Hr2 Hq2 Hprev; [lia|].
  cbn [magics_loop].
  assert (E2 : 2 ^ (p + 1) = 2 * 2 ^ p) by (rewrite Z.add_1_r, Z.pow_succ_r; lia).
  set (c1 := if anc <=? 2 * r1 then _ else _). set (c2 := if ad <=? 2 * r2 then _ else _).
  assert (D1 : 2 ^ (p + 1) = c1.1 * anc + c1.2 /\ 0 <= c1.2 < anc)
    by (subst c1; destruct (Z.leb_spec anc (2 * r1)); simpl; lia).
  assert (D2 : 2 ^ (p + 1) = c2.1 * ad + c2.2 /\ 0 <= c2.2 < ad /\ 0 <= c2.1)
    by (subst c2; destruct (Z.leb_spec ad (2 * r2)); simpl; lia).
  destruct c1 as [q1' r1'], c2 as [q2' r2']. simpl in D1, D2.
  destruct D1 as [D1 Hr1'], D2 as (D2 & Hr2' & Hq2').
  assert (Hr2p : r2' <> 0).
  { intros ->. apply (Hnp (p + 1) q2'); lia. }
  pose proof (exit_test_iff _ anc q1' r1' (ad - r2') Hnc D1 Hr1') as Hex.
  destruct (negb _) eqn:Eb.
  - exists (p + 1), q2', r2'. replace (p + 1 - 1) with p by lia.
    split_and!; try lia; done.
  - assert (Hge : 2 ^ (p + 1) <= anc * (ad - r2')).
    { destruct (Z_lt_le_dec (anc * (ad - r2')) (2 ^ (p + 1))) as [Hlt|]; [|done].
      apply Hex in Hlt. congruence. }
    assert (anc * (ad - r2') <= anc * (ad - 1)) by (apply Z.mul_le_mono_nonneg_l; lia).
    assert (Hpn : p + 1 < 2 * w - 2).
    { destruct (Z_lt_le_dec (p + 1) (2 * w - 2)) as [|Hc]; [done|].
      assert (2 ^ (2 * w - 2) <= 2 ^ (p + 1)) by (apply pow2_le; lia). lia. }
    destruct (Z.ltb_spec (2 * w + 4) (p + 1)); [lia|].
    apply IH; auto; lia.
Qed.

(** The multiplier the search stops at fits [w] bits, by minimality of [p]. *)
Lemma magics_mult_lt (w ad anc p q2 r2 : Z) :
  2 <= w -> 1 < ad < 2 ^ (w - 1) -> 0 <= anc <= 2 ^ (w - 1) -> w <= p ->
  2 ^ p = q2 * ad + r2 -> 0 < r2 < ad -> 0 <= q2 ->
  (p = w \/ 2 ^ (p - 1) <= anc * (ad - 1)) -> 0 < q2 + 1 < 2 ^ w.
Proof.
  intros Hw Had Hanc Hp Hq2 Hr2 Hq0 Hmin. split; [lia|].
  pose proof (pow2_half w ltac:(lia)) as Eh.
  assert (H2p : 2 ^ p <= 2 ^ w * (ad - 1)).
  { destruct Hmin as [->|Hmin].
    - assert (2 ^ w * 1 <= 2 ^ w * (ad - 1)) by (apply Z.mul_le_mono_nonneg_l; lia). lia.
    - rewrite (pow2_half p) by lia.
      assert (anc * (ad - 1) <= 2 ^ (w - 1) * (ad - 1))
        by (apply Z.mul_le_mono_nonneg_r; lia). lia. }
  apply (Z.mul_lt_mono_pos_r ad); lia.
Qed.

(** The reduced magic has the searched multiplier as its effective magnitude. *)
Lemma amult_of_reduced (w d a : Z) :
  2 <= w -> d <> 0 -> 0 < a < 2 ^ w ->
  amult_of w d (swrap w (if d <? 0 then - a else a)) = a.
Proof.
  intros Hw Hd Ha. pose proof (pow2_half w ltac:(lia)) as Eh. unfold amult_of.
  destruct (Z.ltb_spec d 0).
  - destruct (Z_le_gt_dec a (2 ^ (w - 1))).
    + rewrite swrap_small by (unfold sword; lia).
      destruct (Z.ltb_spec 0 d), (Z.ltb_spec 0 (- a)); cbn [eqb]; lia.
    + rewrite (swrap_eqmod w (- a) (2 ^ w - a) (-1)) by lia.
      rewrite swrap_small by (unfold sword; lia).
      destruct (Z.ltb_spec 0 d), (Z.ltb_spec 0 (2 ^ w - a)); cbn [eqb]; lia.
  - destruct (Z_lt_le_dec a (2 ^ (w - 1))).
    + rewrite swrap_small by (unfold sword; lia).
      destruct (Z.ltb_spec 0 d), (Z.ltb_spec 0 a); cbn [eqb]; lia.
    + rewrite (swrap_eqmod w a (a - 2 ^ w) 1) by lia.
      rewrite swrap_small by (unfold sword; lia).
      destruct (Z.ltb_spec 0 d), (Z.ltb_spec 0 (a - 2 ^ w)); cbn [eqb]; lia.
Qed.

(** The signed search never gives up. *)
Lemma magics_finds (d : Z) (width : MagicWidth)
    (Hd : sword (bits width) d) (Hnp : Z.land (Z.abs d) (Z.abs d - 1) <> 0) :
  exists m, magics d width = Some m /\ sword (bits width) (smagic m) /\
    0 <= sshift m <= bits width - 2 /\ smagic_band_holds d m width = true.
Proof.
  assert (Hd3 : 1 < Z.abs d).
  { destruct (Z_le_gt_dec (Z.abs d) 1); [|lia]. exfalso. apply Hnp.
    assert (Z.abs d = 0 \/ Z.abs d = 1) as [-> | ->] by lia; reflexivity. }
  pose proof (bits_range width) as Hw. unfold magics, magics_bits.
  set (w := bits width) in *. unfold sword in Hd.
  pose proof (pow2_half w ltac:(lia)) as Eh. rewrite !Z.shiftl_1_l.
  destruct (Z.leb_spec 2 w), (Z.leb_spec w 64); try lia. cbn [andb negb].
  destruct (Z.ltb_spec d (- 2 ^ (w - 1))), (Z.ltb_spec (2 ^ (w - 1) - 1) d),
    (Z.eqb_spec d 0), (Z.eqb_spec d 1), (Z.eqb_spec d (-1)); try lia. cbn [orb].
  destruct (Z.eqb_spec (Z.land (Z.abs d) (Z.abs d - 1)) 0); [done|].
  fold (anc_of w d). set (ad := Z.abs d) in *.
  destruct (anc_of_props w d ltac:(lia) Hd ltac:(lia)) as (_ & Hn1 & _). fold ad in Hn1.
  assert (Hnp' : forall k q, 0 <= k -> 0 <= q -> q * ad <> 2 ^ k)
    by (intros; apply not_pow2_exact; auto; lia).
  assert (HadN : ad < 2 ^ (w - 1)) by (pose proof (Hnp' (w - 1) 1); lia).
  assert (HancN : anc_of w d <= 2 ^ (w - 1)) by (destruct (d <? 0); lia).
  assert (Emax : 2 ^ (2 * w - 2) = 2 ^ (w - 1) * 2 ^ (w - 1))
    by (rewrite <- pow2_split by lia; f_equal; lia).
  pose proof (Z.div_mod (2 ^ (w - 1)) (anc_of w d) ltac:(lia)).
  pose proof (Z.mod_pos_bound (2 ^ (w - 1)) (anc_of w d) ltac:(lia)).
  pose proof (Z.div_mod (2 ^ (w - 1)) ad ltac:(lia)).
  pose proof (Z.mod_pos_bound (2 ^ (w - 1)) ad ltac:(lia)).
  destruct (magics_loop_exits (Z.to_nat (w + 8)) w ad (anc_of w d) (w - 1)
     (2 ^ (w - 1) / anc_of w d) (2 ^ (w - 1) - 2 ^ (w - 1) / anc_of w d * anc_of w d)
     (2 ^ (w - 1) / ad) (2 ^ (w - 1) - 2 ^ (w - 1) / ad * ad))
    as (p & q2 & r2 & -> & Hp & Hq2 & Hr2 & Hq0 & Hex & Hmin); try lia; auto.
  { rewrite Emax.
    assert (anc_of w d * ad <= 2 ^ (w - 1) * ad) by (apply Z.mul_le_mono_nonneg_r; lia).
    assert (2 ^ (w - 1) * ad < 2 ^ (w - 1) * 2 ^ (w - 1)) by (apply Z.mul_lt_mono_pos_l; lia).
    lia. }
  cbn [mbind option_bind]. eexists; split; [reflexivity|]. cbn [smagic sshift].
  assert (Hfull : 0 < q2 + 1 < 2 ^ w)
    by (apply (magics_mult_lt w ad (anc_of w d) p q2 r2); auto; lia).
  assert (H64 : 2 ^ (w - 1) <= 2 ^ (64 - 1)) by (apply pow2_le; lia).
  rewrite sext_low_swrap by lia.
  set (M := swrap w _). assert (HM : sword w M) by (apply swrap_range; lia).
  rewrite (swrap_small 64) by (unfold sword in *; lia).
  split_and!; [done|lia|lia|].
  apply smagic_band_holds_iff; cbn [smagic sshift]; fold w; auto; [lia|].
  fold ad. subst M. rewrite amult_of_reduced by lia.
  replace (w + (p - w)) with p by lia.
  split_and!; try lia; auto.
Qed.

(** C16: The signed search is total and its result correct: for every [w]-bit
    divisor other than 0, 1, -1 and the powers of two (which take the shift
    path), [magics] returns a magic that the signed band predicate accepts, with
    a shift of at most [w - 2], and the multiply-high sequence with its sign
    corrections computes the truncating quotient of every signed dividend,
    [-2^(w-1)] included. *)
Theorem magics_correct (d : Z) (width : MagicWidth)
    (Hd : sword (bits width) d) (Hnp : Z.land (Z.abs d) (Z.abs d - 1) <> 0) :
  exists m, magics d width = Some m /\ 0 <= sshift m <= bits width - 2 /\
    smagic_band_holds d m width = true /\
    forall x, sword (bits width) x ->
      eval_smagic x d (smagic m) (sshift m) (bits width) = Z.quot x d.
Proof.
  destruct (magics_finds d width Hd Hnp) as (m & E & Hm & Hs & Hb).
  exists m. split_and!; auto; try lia.
  intros x Hx. apply (smagic_band_sound d x m width); auto; lia.
Qed.

Lemma magics_correct_witness :
  exists m, magics (-7) W32 = Some m /\
    eval_smagic (- 2 ^ 31) (-7) (smagic m) (sshift m) 32 = Z.quot (- 2 ^ 31) (-7).
Proof.
  destruct (magics_correct (-7) W32) as (m & E & _ & _ & H).
  { unfold sword; simpl; lia. }
  { vm_compute; discriminate. }
  exists m. split; [exact E|]. apply (H (- 2 ^ 31)). unfold sword; simpl; lia.
Defined.

End Magic.
