(* ===== verification/Regs.v ===== *)
(** * Registers ([crates/trust-cg-ir/src/aarch64_regs.rs], [regs.rs])

    Register classes, physical and virtual registers, the encoding ranges of the
    AArch64 register file, the aliasing conversions between views of one register
    and the overlap test the register allocator relies on. *)

From S2P Require Import Prelude.
Local Open Scope Z_scope.

Inductive RegClass :=
  | Gpr64 | Gpr32 | Fpr128 | Fpr64 | Fpr32 | Fpr16 | Fpr8 | System.

#[export] Instance RegClass_eq_dec : EqDecision RegClass.
Proof. solve_decision. Defined.

#[export] Instance RegClass_countable : Countable RegClass.
Proof.
  refine (inj_countable'
    (fun c => match c with
              | Gpr64 => 0 | Gpr32 => 1 | Fpr128 => 2 | Fpr64 => 3
              | Fpr32 => 4 | Fpr16 => 5 | Fpr8 => 6 | System => 7 end)%N
    (fun n => match n with
              | 0 => Gpr64 | 1 => Gpr32 | 2 => Fpr128 | 3 => Fpr64
              | 4 => Fpr32 | 5 => Fpr16 | 6 => Fpr8 | _ => System end)%N _).
  by intros [].
Defined.

Definition size_bits (c : RegClass) : Z :=
  match c with
  | Gpr64 => 64 | Gpr32 => 32 | Fpr128 => 128 | Fpr64 => 64
  | Fpr32 => 32 | Fpr16 => 16 | Fpr8 => 8 | System => 32
  end.

Definition size_bytes (c : RegClass) : Z := size_bits c / 8.

(** A physical register is its 16-bit encoding. *)
Record PReg := mkPReg { encoding : Z }.

#[export] Instance PReg_eq_dec : EqDecision PReg.
Proof. solve_decision. Defined.

#[export] Instance PReg_countable : Countable PReg.
Proof. refine (inj_countable' encoding mkPReg _). by intros []. Defined.

Record VReg := mkVReg { id : Z; class : RegClass }.

#[export] Instance VReg_eq_dec : EqDecision VReg.
Proof. solve_decision. Defined.

#[export] Instance VReg_countable : Countable VReg.
Proof.
  refine (inj_countable' (fun v => (id v, class v)) (fun p => mkVReg p.1 p.2) _).
  by intros [].
Defined.

Definition SP : PReg := mkPReg 31.
Abbreviation WSP := (mkPReg 63) (only parsing).
Abbreviation XZR := (mkPReg 160) (only parsing).
Abbreviation WZR := (mkPReg 161) (only parsing).

(** Inclusive range patterns [lo..=hi]. *)
Definition within (lo hi e : Z) : bool := (lo <=? e) && (e <=? hi).

Definition preg_class (reg : PReg) : RegClass :=
  let e := encoding reg in
  if within 0 31 e then Gpr64
  else if within 32 63 e then Gpr32
  else if within 64 95 e then Fpr128
  else if within 96 127 e then Fpr64
  else if within 128 159 e then Fpr32
  else if e =? 160 then Gpr64
  else if e =? 161 then Gpr32
  else if within 162 164 e then System
  else if within 165 196 e then Fpr16
  else if within 197 228 e then Fpr8
  else System.

Definition hw_encoding (reg : PReg) : Z :=
  let e := encoding reg in
  if within 0 31 e then e
  else if within 32 63 e then e - 32
  else if within 64 95 e then e - 64
  else if within 96 127 e then e - 96
  else if within 128 159 e then e - 128
  else if e =? 160 then 31
  else if e =? 161 then 31
  else if within 162 164 e then 0
  else if within 165 196 e then e - 165
  else if within 197 228 e then e - 197
  else 0.

Definition is_callee_saved (reg : PReg) : bool :=
  let e := encoding reg in
  within 19 28 e || within 51 60 e || within 72 79 e || within 104 111 e ||
  within 136 143 e.

Definition is_caller_saved (reg : PReg) : bool :=
  let e := encoding reg in
  within 0 7 e || within 9 15 e || within 32 39 e || within 41 47 e ||
  within 64 71 e || within 80 95 e || within 96 103 e || within 112 127 e ||
  within 128 135 e || within 144 159 e.

Definition gpr64_to_gpr32 (reg : PReg) : option PReg :=
  let e := encoding reg in
  if within 0 30 e then Some (mkPReg (e + 32))
  else if e =? 31 then Some WSP
  else if e =? 160 then Some WZR
  else None.

Definition gpr32_to_gpr64 (reg : PReg) : option PReg :=
  let e := encoding reg in
  if within 32 62 e then Some (mkPReg (e - 32))
  else if e =? 63 then Some SP
  else if e =? 161 then Some XZR
  else None.

Definition fpr128_to_fpr64 (reg : PReg) : option PReg :=
  let e := encoding reg in if within 64 95 e then Some (mkPReg (e + 32)) else None.

Definition fpr128_to_fpr32 (reg : PReg) : option PReg :=
  let e := encoding reg in if within 64 95 e then Some (mkPReg (e + 64)) else None.

Definition fpr128_to_fpr16 (reg : PReg) : option PReg :=
  let e := encoding reg in if within 64 95 e then Some (mkPReg (e + 101)) else None.

Definition fpr128_to_fpr8 (reg : PReg) : option PReg :=
  let e := encoding reg in if within 64 95 e then Some (mkPReg (e + 133)) else None.

Definition fpr64_to_fpr128 (reg : PReg) : option PReg :=
  let e := encoding reg in if within 96 127 e then Some (mkPReg (e - 32)) else None.

Definition fpr32_to_fpr128 (reg : PReg) : option PReg :=
  let e := encoding reg in if within 128 159 e then Some (mkPReg (e - 64)) else None.

Definition reg_number (reg : PReg) : option Z :=
  let e := encoding reg in
  if within 0 30 e then Some e
  else if e =? 31 then Some 31
  else if within 32 62 e then Some (e - 32)
  else if e =? 63 then Some 31
  else if within 64 95 e then Some (e - 64)
  else if within 96 127 e then Some (e - 96)
  else if within 128 159 e then Some (e - 128)
  else if e =? 160 then Some 31
  else if e =? 161 then Some 31
  else if within 165 196 e then Some (e - 165)
  else if within 197 228 e then Some (e - 197)
  else None.

Definition reg_root (reg : PReg) : option (Z * Z) :=
  let e := encoding reg in
  if within 0 31 e then Some (e, 0)
  else if within 32 63 e then Some (e - 32, 0)
  else if within 64 95 e then Some (e - 64, 1)
  else if within 96 127 e then Some (e - 96, 1)
  else if within 128 159 e then Some (e - 128, 1)
  else if e =? 160 then Some (31, 0)
  else if e =? 161 then Some (31, 0)
  else if within 165 196 e then Some (e - 165, 1)
  else if within 197 228 e then Some (e - 197, 1)
  else None.

Definition regs_overlap (a b : PReg) : bool :=
  if decide (a = b) then true
  else match reg_root a, reg_root b with
       | Some (num_a, group_a), Some (num_b, group_b) =>
           (num_a =? num_b) && (group_a =? group_b)
       | _, _ => false
       end.

(** ** Overlap is an equivalence on registers *)

(** Case analysis on every range test of a goal. *)
Ltac case_ranges :=
  unfold within in *;
  repeat match goal with
  | |- context [?a <=? ?b] => destruct (Z.leb_spec a b); cbn [andb orb] in *
  | H : context [?a <=? ?b] |- _ => destruct (Z.leb_spec a b); cbn [andb orb] in *
  | |- context [?a =? ?b] => destruct (Z.eqb_spec a b); cbn [andb orb] in *
  | H : context [?a =? ?b] |- _ => destruct (Z.eqb_spec a b); cbn [andb orb] in *
  end.

Lemma regs_overlap_iff (a b : PReg) :
  regs_overlap a b = true <->
  a = b \/ exists r, reg_root a = Some r /\ reg_root b = Some r.
Proof.
  unfold regs_overlap. destruct (decide (a = b)) as [->|Hne]; [naive_solver|].
  destruct (reg_root a) as [[na ga]|], (reg_root b) as [[nb gb]|]; try naive_solver.
  rewrite andb_true_iff, !Z.eqb_eq. naive_solver.
Qed.

Lemma regs_overlap_refl (a : PReg) : regs_overlap a a = true.
Proof. apply regs_overlap_iff; auto. Qed.

Lemma regs_overlap_sym (a b : PReg) : regs_overlap a b = regs_overlap b a.
Proof. apply eq_true_iff_eq. rewrite !regs_overlap_iff. naive_solver. Qed.

Lemma regs_overlap_trans (a b c : PReg) :
  regs_overlap a b = true -> regs_overlap b c = true -> regs_overlap a c = true.
Proof. rewrite !regs_overlap_iff. naive_solver congruence. Qed.

(** The width conversions, as one list for the theorem below. *)
Definition narrowing_views : list (PReg -> option PReg) :=
  [gpr64_to_gpr32; fpr128_to_fpr64; fpr128_to_fpr32; fpr128_to_fpr16; fpr128_to_fpr8].

Definition all_encodings : list Z := seqZ 0 229.

Definition view_ok (f : PReg -> option PReg) (e : Z) : bool :=
  match f (mkPReg e) with
  | Some s => regs_overlap (mkPReg e) s && (hw_encoding s =? hw_encoding (mkPReg e)) &&
              (size_bits (preg_class s) <? size_bits (preg_class (mkPReg e)))
  | None => true
  end.

Lemma views_ok : forallb (fun f => forallb (view_ok f) all_encodings) narrowing_views = true.
Proof. vm_compute. reflexivity. Qed.

Lemma narrowing_domain (f : PReg -> option PReg) (a s : PReg) :
  f ∈ narrowing_views -> f a = Some s -> encoding a ∈ all_encodings.
Proof.
  intros Hf Hs. apply elem_of_seqZ. unfold narrowing_views in Hf.
  set_unfold in Hf. destruct a as [e]. cbn [encoding].
  destruct Hf as [->|[->|[->|[->|[->|[]]]]]];
    unfold gpr64_to_gpr32, fpr128_to_fpr64, fpr128_to_fpr32, fpr128_to_fpr16,
      fpr128_to_fpr8 in Hs; cbn [encoding] in Hs;
    case_ranges; try discriminate; lia.
Qed.

(** The overlap test is an equivalence relation on registers, and every
    narrower view of a register that the conversion functions produce overlaps
    it, has the same 5-bit hardware encoding, and is strictly narrower. *)
Theorem register_views_overlap :
  (forall a b c, regs_overlap a a = true /\ regs_overlap a b = regs_overlap b a /\
     (regs_overlap a b = true -> regs_overlap b c = true -> regs_overlap a c = true)) /\
  (forall f a s, f ∈ narrowing_views -> f a = Some s ->
     regs_overlap a s = true /\ hw_encoding s = hw_encoding a /\
     size_bits (preg_class s) < size_bits (preg_class a)).
Proof.
  split.
  - intros a b c. split_and!; [apply regs_overlap_refl|apply regs_overlap_sym|].
    apply regs_overlap_trans.
  - intros f a s Hf Hs. pose proof (narrowing_domain f a s Hf Hs) as Hd.
    pose proof views_ok as Hok. rewrite forallb_forall in Hok.
    specialize (Hok f ltac:(by apply list_elem_of_In)). rewrite forallb_forall in Hok.
    specialize (Hok _ ltac:(by apply list_elem_of_In)). unfold view_ok in Hok.
    destruct a as [e]. cbn [encoding] in Hok. rewrite Hs in Hok.
    rewrite !andb_true_iff, Z.eqb_eq, Z.ltb_lt in Hok. naive_solver.
Qed.
