(* ===== verification/ISel.v ===== *)
(** * Instruction selection core ([crates/trust-cg-lower/src/isel.rs])

    The data the AArch64 instruction selector works on (LIR types, ISel operands,
    instructions, blocks and functions), the selector state with its result monad,
    value definition and use, and constant materialization.  The second half gives
    the AArch64 meaning of the straight-line instructions the modelled lowerings
    emit, and the program logic [wp] that relates what a selector computation
    emits to what the emitted code computes. *)

From S2P Require Import Prelude Regs.
Local Open Scope Z_scope.

(** ** LIR types *)

Inductive EnumTagWidth := TagU8 | TagU16 | TagU32 | TagU64.

Inductive Ty :=
  | I8 | I16 | I32 | I64 | I128 | F16 | F32 | F64 | B1 | V128 | V64
  | Struct (fields : list Ty)
  | Array (elem : Ty) (count : Z)
  | Enum (tag_width : EnumTagWidth) (variants : list (list Ty)).

Definition reg_class_for_type (ty : Ty) : RegClass :=
  match ty with
  | B1 => Gpr64
  | I8 | I16 | I32 => Gpr32
  | I64 | I128 => Gpr64
  | F16 => Fpr16
  | F32 => Fpr32
  | F64 => Fpr64
  | V128 => Fpr128
  | V64 => Fpr64
  | Struct _ | Array _ _ | Enum _ _ => Gpr64
  end.

Definition is_32bit (ty : Ty) : bool :=
  match ty with B1 | I8 | I16 | I32 | F32 => true | _ => false end.

(** ** ISel instructions, blocks and functions *)

(** [Value] and [Block] are the source's 32-bit newtypes. *)
Abbreviation Value := Z (only parsing).
Abbreviation Block := Z (only parsing).

Inductive AArch64CC := EQ | NE | HS | LO | MI | PL | VS | VC | HI | LS | GE | LT | GT | LE.

(** The opcodes the modelled lowerings emit. *)
Inductive AArch64Opcode :=
  | Movz | Movn | Movk | MovR | AddRR | SubRR | SubRI | MulRR | Msub
  | AddRRShift | SubRRShift | LsrRI | AsrRI | Umull | Smull | Umulh | Smulh
  | Sxtw | Uxtw | Sxtb | Sxth | Uxtb | Uxth | UDiv | SDiv
  | CmpRI | CmpRR | BCond | Bra | Adr | LdrswRO | Br.

(** The 64-bit float immediate is kept as its bit pattern. *)
Inductive ISelOperand :=
  | VRegOp (v : VReg)
  | PRegOp (p : PReg)
  | Imm (i : Z)
  | FImm (bits : Z)
  | BlockOp (b : Block)
  | CondCode (cc : AArch64CC)
  | Symbol (name : string)
  | StackSlot (n : Z)
  | JumpTable (min_val : Z) (targets : list Block)
  | JumpTableIndex (n : Z)
  | IncomingArg (off : Z).

Record ISelInst := mkInst { opcode : AArch64Opcode; operands : list ISelOperand }.

(** The sidecar vectors of a block (source locations, proofs, provenance) carry
    no machine meaning and are left out. *)
Record ISelBlock := mkBlock { insts : list ISelInst; successors : list Block }.

Definition empty_block : ISelBlock := mkBlock [] [].

Record ISelJumpTable := mkJumpTable { jt_min_val : Z; jt_targets : list Block }.

Record ISelFunction := mkFunc {
  blocks : gmap Z ISelBlock;
  block_order : list Block;
  next_vreg : Z;
  jump_tables : list ISelJumpTable;
}.

(** [self.blocks.entry(block).or_default()]. *)
Definition block_entry (f : ISelFunction) (b : Block) : ISelBlock :=
  default empty_block (blocks f !! b).

Definition set_block (f : ISelFunction) (b : Block) (blk : ISelBlock) : ISelFunction :=
  mkFunc (<[b := blk]> (blocks f)) (block_order f) (next_vreg f) (jump_tables f).

Definition push_inst (f : ISelFunction) (b : Block) (i : ISelInst) : ISelFunction :=
  let blk := block_entry f b in
  set_block f b (mkBlock (insts blk ++ [i]) (successors blk)).

Definition ensure_block (f : ISelFunction) (b : Block) : ISelFunction :=
  match blocks f !! b with
  | Some _ => f
  | None => mkFunc (<[b := empty_block]> (blocks f)) (block_order f ++ [b])
                   (next_vreg f) (jump_tables f)
  end.

Definition add_jump_table (f : ISelFunction) (min_val : Z) (targets : list Block)
    : Z * ISelFunction :=
  (wrap 32 (Z.of_nat (length (jump_tables f))),
   mkFunc (blocks f) (block_order f) (next_vreg f)
          (jump_tables f ++ [mkJumpTable min_val targets])).

(** Allocation of a virtual register id, a [u32] counter. *)
Definition func_new_vreg (f : ISelFunction) (c : RegClass) : VReg * ISelFunction :=
  (mkVReg (next_vreg f) c,
   mkFunc (blocks f) (block_order f) (wrap 32 (next_vreg f + 1)) (jump_tables f)).

(** ** The selector state and its monad *)

Inductive ISelError :=
  | UndefinedValue (v : Value)
  | InsufficientArgs (expected actual : Z)
  | MissingResult
  | BlockIdInSyntheticRange (block : Z)
  | SwitchNormalizationMismatch (strategy : string).

(** [Panic] is an out-of-bounds index or a failed assertion of the source. *)
Inductive Result (A : Type) := Ok (a : A) | Err (e : ISelError) | Panic.
Arguments Ok {A} a.
Arguments Err {A} e.
Arguments Panic {A}.

Record InstructionSelector := mkSel {
  func : ISelFunction;
  value_map : gmap Z ISelOperand;
  value_types : gmap Z Ty;
  i128_high_map : gmap Z VReg;
  next_block_id : Z;
  iconst_origins : gmap Z (Ty * Z);
  current_block : option Block;
}.

Definition with_func (s : InstructionSelector) (f : ISelFunction) : InstructionSelector :=
  mkSel f (value_map s) (value_types s) (i128_high_map s) (next_block_id s)
        (iconst_origins s) (current_block s).

Definition Sel (A : Type) : Type := InstructionSelector -> Result A * InstructionSelector.

#[export] Instance Sel_ret : MRet Sel := fun A a s => (Ok a, s).
#[export] Instance Sel_bind : MBind Sel := fun A B k m s =>
  match m s with
  | (Ok a, s') => k a s'
  | (Err e, s') => (Err e, s')
  | (Panic, s') => (Panic, s')
  end.

Definition throw {A} (e : ISelError) : Sel A := fun s => (Err e, s).
Definition panic {A} : Sel A := fun s => (Panic, s).
Definition gets {A} (f : InstructionSelector -> A) : Sel A := fun s => (Ok (f s), s).

(** Vector indexing [v[i]], which panics out of bounds. *)
Definition index {A} (l : list A) (i : nat) : Sel A :=
  match l !! i with Some a => mret a | None => panic end.

(** The operands of an LIR instruction. *)
Record Instruction := mkInstruction { args : list Value; results : list Value }.

Definition require_args (inst : Instruction) (n : nat) : Sel unit :=
  if (length (args inst) <? n)%nat
  then throw (InsufficientArgs (Z.of_nat n) (Z.of_nat (length (args inst)))) else mret tt.

Definition require_result (inst : Instruction) : Sel unit :=
  match results inst with [] => throw MissingResult | _ => mret tt end.

(** ** Emission and value maps *)

Definition emit (block : Block) (i : ISelInst) : Sel unit :=
  fun s => (Ok tt, with_func s (push_inst (func s) block i)).

Definition new_vreg (c : RegClass) : Sel VReg :=
  fun s => let '(v, f) := func_new_vreg (func s) c in (Ok v, with_func s f).

Definition define_value (val : Value) (op : ISelOperand) (ty : Ty) : Sel unit :=
  fun s => (Ok tt, mkSel (func s) (<[val := op]> (value_map s)) (<[val := ty]> (value_types s))
                         (i128_high_map s) (next_block_id s) (iconst_origins s)
                         (current_block s)).

Definition set_i128_high (val : Value) (hi : VReg) : Sel unit :=
  fun s => (Ok tt, mkSel (func s) (value_map s) (value_types s)
                         (<[val := hi]> (i128_high_map s)) (next_block_id s)
                         (iconst_origins s) (current_block s)).

Definition define_i128_value (val : Value) (lo hi : VReg) : Sel unit :=
  _ ← define_value val (VRegOp lo) I128;
  set_i128_high val hi.

Definition value_type (s : InstructionSelector) (val : Value) : Ty :=
  default I64 (value_types s !! val).

(** ** Constants *)

(** Bits [16 idx .. 16 idx + 15] of [imm as u64]. *)
Definition chunk16 (imm : Z) (idx : Z) : Z :=
  Z.land (Z.shiftr (wrap 64 imm) (idx * 16)) 0xFFFF.

Definition move_wide_chunks (imm chunk_count : Z) : list Z :=
  map (fun idx => if idx <? chunk_count then chunk16 imm idx else 0) [0; 1; 2; 3].

(** The loop over chunks [1 .. chunk_count - 1] that repairs every halfword
    different from the seed's. *)
Definition emit_movk (block : Block) (dst : VReg) (c shift : Z) : Sel unit :=
  emit block (mkInst Movk [VRegOp dst; Imm c; Imm shift]).

Fixpoint emit_movks (block : Block) (dst : VReg) (skip : Z) (idx : Z) (chunks : list Z)
    : Sel unit :=
  match chunks with
  | [] => mret tt
  | c :: rest =>
      _ ← (if c =? skip then mret tt else emit_movk block dst c (idx * 16));
      emit_movks block dst skip (idx + 1) rest
  end.

Definition emit_preferred_movn (block : Block) (dst : VReg) (imm chunk_count : Z) : Sel bool :=
  let chunks := move_wide_chunks imm chunk_count in
  let high := drop 1 (take (Z.to_nat chunk_count) chunks) in
  let movz_count := 1 + Z.of_nat (length (filter (fun c => c <> 0) high)) in
  let movn_count := 1 + Z.of_nat (length (filter (fun c => c <> 0xFFFF) high)) in
  let c0 := default 0 (chunks !! 0%nat) in
  if (movz_count <? movn_count) || ((movn_count =? movz_count) && negb (c0 =? 0xFFFF))
  then mret false
  else
    _ ← emit block (mkInst Movn [VRegOp dst; Imm (wrap 16 (Z.lnot c0))]);
    _ ← emit_movks block dst 0xFFFF 1 high;
    mret true.

Definition emit_iconst_materialization (block : Block) (dst : VReg) (ty : Ty) (imm : Z)
    : Sel unit :=
  if (0 <=? imm) && (imm <=? 0xFFFF) then
    emit block (mkInst Movz [VRegOp dst; Imm imm])
  else if (-0x10000 <=? imm) && (imm <? 0) then
    let encoded := Z.land (wrap 64 (Z.lnot imm)) 0xFFFF in
    emit block (mkInst Movn [VRegOp dst; Imm encoded])
  else
    let chunks := if is_32bit ty then 2 else 4 in
    done ← emit_preferred_movn block dst imm chunks;
    if (done : bool) then mret tt
    else
      let low16 := Z.land (wrap 64 imm) 0xFFFF in
      _ ← emit block (mkInst Movz [VRegOp dst; Imm low16]);
      emit_movks block dst 0 1 (map (chunk16 imm) (seqZ 1 (chunks - 1))).

Definition emit_movz_movk_sequence (block : Block) (dst : VReg) (val : Z) : Sel unit :=
  _ ← emit block (mkInst Movz [VRegOp dst; Imm (Z.land val 0xFFFF)]);
  emit_movks block dst 0 1 (map (chunk16 val) (seqZ 1 3)).

Definition rematerialize_iconst (val : Value) (ty : Ty) (imm : Z) (block : Block)
    : Sel ISelOperand :=
  match ty with
  | I128 =>
      dst_lo ← new_vreg Gpr64;
      dst_hi ← new_vreg Gpr64;
      let lo_val := wrap 64 imm in
      let hi_val := if imm <? 0 then 2 ^ 64 - 1 else 0 in
      _ ← emit_movz_movk_sequence block dst_lo lo_val;
      _ ← emit_movz_movk_sequence block dst_hi hi_val;
      _ ← define_i128_value val dst_lo dst_hi;
      mret (VRegOp dst_lo)
  | _ =>
      dst ← new_vreg (reg_class_for_type ty);
      _ ← emit_iconst_materialization block dst ty imm;
      _ ← define_value val (VRegOp dst) ty;
      mret (VRegOp dst)
  end.

Definition use_value (val : Value) : Sel ISelOperand :=
  vm ← gets value_map;
  match (vm : gmap Z ISelOperand) !! val with
  | Some operand => mret operand
  | None =>
      origins ← gets iconst_origins;
      match (origins : gmap Z (Ty * Z)) !! val with
      | Some (ty, imm) =>
          cur ← gets current_block;
          match cur with
          | Some block => rematerialize_iconst val ty imm block
          | None => throw (UndefinedValue val)
          end
      | None => throw (UndefinedValue val)
      end
  end.

(** ** Meaning of straight-line AArch64 code

    A register file gives every virtual register a 64-bit content.  A [W] read
    takes the low 32 bits and a [W] write clears the upper half; the width of an
    instruction is that of its destination's class (the [sf] bit the encoder
    derives from operand 0). *)

Definition regs : Type := Z -> Z.

Definition upd (rf : regs) (r v : Z) : regs := fun i => if i =? r then v else rf i.

Lemma upd_eq (rf : regs) (r v : Z) : upd rf r v r = v.
Proof. unfold upd. by rewrite Z.eqb_refl. Qed.

Lemma upd_ne (rf : regs) (r v i : Z) : i <> r -> upd rf r v i = rf i.
Proof. intros H. unfold upd. by destruct (Z.eqb_spec i r). Qed.

Definition rd (w : Z) (rf : regs) (op : ISelOperand) : option Z :=
  match op with
  | VRegOp v => Some (wrap w (rf (id v)))
  | PRegOp p => if decide (p = XZR \/ p = WZR) then Some 0 else None
  | _ => None
  end.

Definition class_width (c : RegClass) : option Z :=
  match c with Gpr32 => Some 32 | Gpr64 => Some 64 | _ => None end.

(** Result of a data-processing instruction of width [w] on its source operands;
    [old] is the previous content of the destination. *)
Definition alu (w : Z) (opc : AArch64Opcode) (rf : regs) (old : Z) (srcs : list ISelOperand)
    : option Z :=
  match opc, srcs with
  | Movz, [Imm i] => if (0 <=? i) && (i <=? 0xFFFF) then Some i else None
  | Movn, [Imm i] => if (0 <=? i) && (i <=? 0xFFFF) then Some (wrap w (Z.lnot i)) else None
  | Movk, [Imm c; Imm s] =>
      if (0 <=? c) && (c <=? 0xFFFF) && (0 <=? s) && (s <? w) && (s mod 16 =? 0)
      then Some (wrap w (Z.lor (Z.land old (Z.lnot (Z.shiftl 0xFFFF s))) (Z.shiftl c s)))
      else None
  | MovR, [a] => rd w rf a
  | AddRR, [a; b] => x ← rd w rf a; y ← rd w rf b; Some (wrap w (x + y))
  | SubRR, [a; b] => x ← rd w rf a; y ← rd w rf b; Some (wrap w (x - y))
  | SubRI, [a; Imm i] =>
      if (0 <=? i) && (i <=? 0xFFF) then x ← rd w rf a; Some (wrap w (x - i)) else None
  | MulRR, [a; b] => x ← rd w rf a; y ← rd w rf b; Some (wrap w (x * y))
  | Msub, [n; m; a] =>
      x ← rd w rf n; y ← rd w rf m; z ← rd w rf a; Some (wrap w (z - x * y))
  | AddRRShift, [a; b; Imm k] =>
      if (1 <=? k) && (k <? w)
      then x ← rd w rf a; y ← rd w rf b; Some (wrap w (x + Z.shiftl y k)) else None
  | SubRRShift, [a; b; Imm k] =>
      if (1 <=? k) && (k <? w)
      then x ← rd w rf a; y ← rd w rf b; Some (wrap w (x - Z.shiftl y k)) else None
  | LsrRI, [a; Imm k] =>
      if (0 <=? k) && (k <? w) then x ← rd w rf a; Some (Z.shiftr x k) else None
  | AsrRI, [a; Imm k] =>
      if (0 <=? k) && (k <? w)
      then x ← rd w rf a; Some (wrap w (Z.shiftr (swrap w x) k)) else None
  | Umull, [a; b] => if w =? 64 then x ← rd 32 rf a; y ← rd 32 rf b; Some (x * y) else None
  | Smull, [a; b] =>
      if w =? 64 then x ← rd 32 rf a; y ← rd 32 rf b; Some (wrap 64 (swrap 32 x * swrap 32 y))
      else None
  | Umulh, [a; b] =>
      if w =? 64 then x ← rd 64 rf a; y ← rd 64 rf b; Some (Z.shiftr (x * y) 64) else None
  | Smulh, [a; b] =>
      if w =? 64
      then x ← rd 64 rf a; y ← rd 64 rf b; Some (wrap 64 (Z.shiftr (swrap 64 x * swrap 64 y) 64))
      else None
  | Sxtw, [a] => if w =? 64 then x ← rd 32 rf a; Some (wrap 64 (swrap 32 x)) else None
  | Uxtw, [a] => if w =? 64 then rd 32 rf a else None
  | Sxtb, [a] => x ← rd 8 rf a; Some (wrap w (swrap 8 x))
  | Sxth, [a] => x ← rd 16 rf a; Some (wrap w (swrap 16 x))
  | Uxtb, [a] => rd 8 rf a
  | Uxth, [a] => rd 16 rf a
  | UDiv, [a; b] => x ← rd w rf a; y ← rd w rf b; Some (if y =? 0 then 0 else x / y)
  | SDiv, [a; b] =>
      x ← rd w rf a; y ← rd w rf b;
      Some (if y =? 0 then 0 else wrap w (Z.quot (swrap w x) (swrap w y)))
  | _, _ => None
  end.

Definition exec_inst (i : ISelInst) (rf : regs) : option regs :=
  match operands i with
  | VRegOp d :: srcs =>
      w ← class_width (class d);
      v ← alu w (opcode i) rf (rf (id d)) srcs;
      Some (upd rf (id d) v)
  | _ => None
  end.

Fixpoint exec (code : list ISelInst) (rf : regs) : option regs :=
  match code with
  | [] => Some rf
  | i :: rest => rf' ← exec_inst i rf; exec rest rf'
  end.

Lemma exec_app (c1 c2 : list ISelInst) (rf : regs) :
  exec (c1 ++ c2) rf = (rf' ← exec c1 rf; exec c2 rf').
Proof.
  revert rf. induction c1 as [|i c1 IH]; intros rf; [done|]. cbn.
  destruct (exec_inst i rf); cbn; auto.
Qed.

(** ** Emit-then-run logic

    [wp blk m s rf Q]: run from [s], the computation [m] succeeds, it only
    appends to block [blk], and executing what it appended on the register file
    [rf] succeeds and ends, with [m]'s result and final state, in [Q]. *)

Definition code (s : InstructionSelector) (b : Block) : list ISelInst :=
  insts (block_entry (func s) b).

Definition wp {A} (blk : Block) (m : Sel A) (s : InstructionSelector) (rf : regs)
    (Q : A -> InstructionSelector -> regs -> Prop) : Prop :=
  exists a s' new rf',
    m s = (Ok a, s') /\ code s' blk = code s blk ++ new /\
    (forall b, b <> blk -> blocks (func s') !! b = blocks (func s) !! b) /\
    exec new rf = Some rf' /\ Q a s' rf'.

(** [s'] has allocated up to [n] and differs from [s] in code only. *)
Definition frame (s s' : InstructionSelector) (n : Z) : Prop :=
  exists f, s' = with_func s f /\ next_vreg f = n /\
    block_order f = block_order (func s) /\ jump_tables f = jump_tables (func s).

Abbreviation nextv s := (next_vreg (func s)).

Lemma frame_next (s s' : InstructionSelector) (n : Z) : frame s s' n -> nextv s' = n.
Proof. by intros (f & -> & <- & _). Qed.

Lemma frame_trans (s s' s'' : InstructionSelector) (n m : Z) :
  frame s s' n -> frame s' s'' m -> frame s s'' m.
Proof.
  intros (f & -> & _ & E1 & E2) (g & -> & <- & E3 & E4). exists g. cbn in *.
  split_and!; congruence || done.
Qed.

Lemma frame_fields (s s' : InstructionSelector) (n : Z) :
  frame s s' n ->
  value_map s' = value_map s /\ value_types s' = value_types s /\
  iconst_origins s' = iconst_origins s /\ current_block s' = current_block s /\
  next_block_id s' = next_block_id s.
Proof. by intros (f & -> & _). Qed.

Section Rules.
Context (blk : Block).

Lemma wp_ret {A} (a : A) s rf Q : Q a s rf -> wp blk (mret a) s rf Q.
Proof. intros H. exists a, s, [], rf. by rewrite app_nil_r. Qed.

Lemma wp_bind {A B} (m : Sel A) (k : A -> Sel B) s rf Q :
  wp blk m s rf (fun a s' rf' => wp blk (k a) s' rf' Q) -> wp blk (m ≫= k) s rf Q.
Proof.
  intros (a & s1 & c1 & rf1 & E1 & H1 & F1 & X1 & b & s2 & c2 & rf2 & E2 & H2 & F2 & X2 & HQ).
  exists b, s2, (c1 ++ c2), rf2.
  unfold mbind, Sel_bind. rewrite E1. split_and!; auto.
  - by rewrite H2, H1, app_assoc.
  - intros b' Hb. by rewrite F2, F1.
  - by rewrite exec_app, X1.
Qed.

Lemma wp_mono {A} (m : Sel A) s rf (Q Q' : A -> InstructionSelector -> regs -> Prop) :
  wp blk m s rf Q -> (forall a s' rf', Q a s' rf' -> Q' a s' rf') -> wp blk m s rf Q'.
Proof. intros (a & s1 & c & rf1 & H & H1 & H2 & H3 & HQ) HQQ. exists a, s1, c, rf1. auto 6. Qed.

Lemma wp_gets {A} (f : InstructionSelector -> A) s rf Q :
  Q (f s) s rf -> wp blk (gets f) s rf Q.
Proof. intros H. exists (f s), s, [], rf. by rewrite app_nil_r. Qed.

Lemma code_push s i : code (with_func s (push_inst (func s) blk i)) blk = code s blk ++ [i].
Proof.
  unfold code, block_entry at 1. cbn. by rewrite lookup_insert_eq.
Qed.

Lemma wp_emit i s rf rf' Q :
  exec_inst i rf = Some rf' ->
  (forall s', frame s s' (nextv s) -> Q tt s' rf') -> wp blk (emit blk i) s rf Q.
Proof.
  intros Hx HQ. eexists tt, _, [i], rf'. split; [reflexivity|]. split; [apply code_push|].
  split; [|split].
  - intros b Hb. cbn. by rewrite lookup_insert_ne.
  - cbn. by rewrite Hx.
  - apply HQ. eexists. split; [reflexivity|]. done.
Qed.

Lemma wp_new_vreg c s rf Q :
  0 <= nextv s < 2 ^ 32 - 1 ->
  (forall s', frame s s' (nextv s + 1) -> Q (mkVReg (nextv s) c) s' rf) ->
  wp blk (new_vreg c) s rf Q.
Proof.
  intros Hn HQ. eexists _, _, [], rf. split; [reflexivity|]. split_and!; auto.
  - unfold code, block_entry. cbn. by rewrite app_nil_r.
  - apply HQ. eexists. split; [reflexivity|]. cbn. split_and!; auto.
    apply wrap_small. unfold uword. lia.
Qed.

(** A fresh destination written by one data-processing instruction. *)
Lemma wp_fresh opc c w srcs v s rf Q :
  0 <= nextv s < 2 ^ 32 - 1 -> class_width c = Some w ->
  alu w opc rf (rf (nextv s)) srcs = Some v ->
  (forall s' rf', frame s s' (nextv s + 1) -> rf' (nextv s) = v ->
     (forall i, i <> nextv s -> rf' i = rf i) -> Q (mkVReg (nextv s) c) s' rf') ->
  wp blk (dst ← new_vreg c; _ ← emit blk (mkInst opc (VRegOp dst :: srcs)); mret dst) s rf Q.
Proof.
  intros Hn Hc Hv HQ. apply wp_bind, wp_new_vreg; [done|]. intros s1 F1.
  apply wp_bind. eapply wp_emit.
  { unfold exec_inst. cbn [operands opcode id class]. rewrite Hc. cbn. rewrite Hv. reflexivity. }
  intros s2 F2. apply wp_ret. rewrite (frame_next _ _ _ F1) in F2.
  apply HQ; [by eapply frame_trans| |].
  - unfold upd. by rewrite Z.eqb_refl.
  - intros i Hi. unfold upd. by destruct (Z.eqb_spec i (nextv s)).
Qed.

End Rules.

(** ** Constant materialization is exact *)

(** The content after seeding with halfword [skip] everywhere and repairing the
    halfwords below [idx]. *)
Definition repaired (w imm skip idx v : Z) : Prop :=
  uword w v /\
  forall i, 0 <= i < w ->
    Z.testbit v i = if i <? 16 * idx then Z.testbit imm i else Z.testbit skip (i mod 16).

Lemma uword_bits_eq (w a b : Z) :
  0 <= w -> uword w a -> uword w b ->
  (forall i, 0 <= i < w -> Z.testbit a i = Z.testbit b i) -> a = b.
Proof.
  intros Hw Ha Hb H. apply Z.bits_inj'. intros i Hi.
  destruct (Z_lt_le_dec i w); [apply H; lia|].
  rewrite !(testbit_high w) by (auto; lia). done.
Qed.

Lemma wrap_testbit (w x i : Z) : 0 <= i < w -> Z.testbit (wrap w x) i = Z.testbit x i.
Proof. intros. unfold wrap. apply Z.mod_pow2_bits_low. lia. Qed.

Lemma testbit_ones16 (j : Z) : 0 <= j -> Z.testbit 0xFFFF j = (j <? 16).
Proof.
  intros Hj. change 0xFFFF with (Z.ones 16).
  destruct (Z.ltb_spec j 16); [apply Z.ones_spec_low|apply Z.ones_spec_high]; lia.
Qed.

Lemma land_ffff (x : Z) : Z.land x 0xFFFF = wrap 16 x.
Proof. change 0xFFFF with (Z.ones 16). by rewrite Z.land_ones. Qed.

Lemma chunk16_range (imm idx : Z) : 0 <= chunk16 imm idx <= 0xFFFF.
Proof.
  unfold chunk16. rewrite land_ffff. pose proof (wrap_range 16 (Z.shiftr (wrap 64 imm) (idx * 16))).
  unfold uword in *. lia.
Qed.

Lemma chunk16_testbit (imm idx j : Z) :
  0 <= idx <= 3 -> 0 <= j < 16 -> Z.testbit (chunk16 imm idx) j = Z.testbit imm (16 * idx + j).
Proof.
  intros Hi Hj. unfold chunk16. rewrite land_ffff, wrap_testbit, Z.shiftr_spec by lia.
  rewrite wrap_testbit by lia. f_equal. lia.
Qed.

Lemma movk_bits (w old c s i : Z) :
  0 <= s -> 0 <= i < w -> 0 <= c <= 0xFFFF ->
  Z.testbit (wrap w (Z.lor (Z.land old (Z.lnot (Z.shiftl 0xFFFF s))) (Z.shiftl c s))) i =
  if (s <=? i) && (i <? s + 16) then Z.testbit c (i - s) else Z.testbit old i.
Proof.
  intros Hs Hi Hc. rewrite wrap_testbit, Z.lor_spec, Z.land_spec, Z.lnot_spec by lia.
  rewrite !Z.shiftl_spec by lia.
  assert (Hcw : uword 16 c) by (unfold uword; lia).
  destruct (Z.leb_spec s i); cbn [andb].
  - rewrite testbit_ones16 by lia. destruct (Z.ltb_spec i (s + 16)), (Z.ltb_spec (i - s) 16); try lia.
    + by rewrite andb_false_r.
    + rewrite (testbit_high 16 c) by (auto; lia). by rewrite andb_true_r, orb_false_r.
  - rewrite !(Z.testbit_neg_r _ (i - s)) by lia. by rewrite andb_true_r, orb_false_r.
Qed.

Lemma repaired_step (w imm skip idx v c : Z) :
  repaired w imm skip idx v -> w = 32 \/ w = 64 -> 1 <= idx -> 16 * idx < w ->
  0 <= c <= 0xFFFF -> (forall j, 0 <= j < 16 -> Z.testbit c j = Z.testbit imm (16 * idx + j)) ->
  repaired w imm skip (idx + 1)
    (wrap w (Z.lor (Z.land v (Z.lnot (Z.shiftl 0xFFFF (idx * 16)))) (Z.shiftl c (idx * 16)))) /\
  (c = skip -> repaired w imm skip (idx + 1) v).
Proof.
  intros [Hv Hbits] Hw Hidx Hlt Hc Hcb. split; [split; [apply wrap_range; lia|]|intros ->; split; [done|]];
    intros i Hi.
  - rewrite movk_bits by lia.
    destruct (Z.leb_spec (idx * 16) i), (Z.ltb_spec i (idx * 16 + 16)),
      (Z.ltb_spec i (16 * (idx + 1))); cbn [andb]; try lia.
    + rewrite Hcb by lia. f_equal. lia.
    + rewrite Hbits by done. destruct (Z.ltb_spec i (16 * idx)); [lia|done].
    + rewrite Hbits by done. destruct (Z.ltb_spec i (16 * idx)); [done|lia].
  - rewrite Hbits by done.
    destruct (Z.ltb_spec i (16 * idx)), (Z.ltb_spec i (16 * (idx + 1))); try lia; try done.
    replace (i mod 16) with (i - 16 * idx) by (apply (Z.mod_unique_pos _ _ idx); lia).
    rewrite Hcb by lia. f_equal. lia.
Qed.

Section Materialize.
Context (blk : Block) (dst : VReg) (w : Z) (Hdst : class_width (class dst) = Some w).

Lemma class_width_cases (c : RegClass) (w' : Z) : class_width c = Some w' -> w' = 32 \/ w' = 64.
Proof. destruct c; cbn; intros [= <-]; auto. Qed.

Lemma wp_emit_dst opc srcs v s rf Q :
  alu w opc rf (rf (id dst)) srcs = Some v ->
  (forall s' rf', frame s s' (nextv s) -> rf' (id dst) = v ->
     (forall i, i <> id dst -> rf' i = rf i) -> Q tt s' rf') ->
  wp blk (emit blk (mkInst opc (VRegOp dst :: srcs))) s rf Q.
Proof.
  intros Hv HQ. eapply wp_emit.
  { unfold exec_inst. cbn [operands opcode]. rewrite Hdst. cbn. rewrite Hv. reflexivity. }
  intros s' F. apply HQ; [done| |].
  - unfold upd. by rewrite Z.eqb_refl.
  - intros i Hi. unfold upd. by destruct (Z.eqb_spec i (id dst)).
Qed.

Lemma frame_refl s : frame s s (nextv s).
Proof. exists (func s). split_and!; try done. by destruct s. Qed.

Lemma wp_movks imm skip (n : nat) idx s rf Q :
  1 <= idx -> idx + Z.of_nat n <= w / 16 -> repaired w imm skip idx (rf (id dst)) ->
  (forall s' rf', frame s s' (nextv s) ->
     repaired w imm skip (idx + Z.of_nat n) (rf' (id dst)) ->
     (forall i, i <> id dst -> rf' i = rf i) -> Q tt s' rf') ->
  wp blk (emit_movks blk dst skip idx (map (chunk16 imm) (seqZ idx (Z.of_nat n)))) s rf Q.
Proof.
  pose proof (class_width_cases _ _ Hdst) as Hw.
  assert (Hw16 : w / 16 = 2 /\ w = 32 \/ w / 16 = 4 /\ w = 64) by (destruct Hw as [-> | ->]; auto).
  revert idx s rf. induction n as [|n IH]; intros idx s rf Hidx Hn Hr HQ.
  { apply wp_ret. apply HQ; [apply frame_refl| |done].
    by replace (idx + Z.of_nat 0) with idx by lia. }
  rewrite seqZ_cons by lia. replace (Z.succ idx) with (idx + 1) by lia.
  replace (Z.pred (Z.of_nat (S n))) with (Z.of_nat n) by lia. cbn [map emit_movks].
  pose proof (chunk16_range imm idx) as Hcr.
  destruct (repaired_step w imm skip idx (rf (id dst)) (chunk16 imm idx)) as [R1 R2];
    try done; try lia.
  { intros j Hj. apply chunk16_testbit; lia. }
  apply wp_bind. destruct (Z.eqb_spec (chunk16 imm idx) skip) as [E|E].
  - apply wp_ret, IH; [lia..|by apply R2|]. intros s' rf' F Hr' Ho. apply HQ; auto.
    by replace (idx + Z.of_nat (S n)) with (idx + 1 + Z.of_nat n) by lia.
  - eapply wp_emit_dst.
    { cbn [alu]. destruct (Z.leb_spec 0 (chunk16 imm idx)), (Z.leb_spec (chunk16 imm idx) 0xFFFF),
        (Z.leb_spec 0 (idx * 16)), (Z.ltb_spec (idx * 16) w),
        (Z.eqb_spec ((idx * 16) mod 16) 0); try lia; [reflexivity|].
      exfalso. rewrite Z.mod_mul in *; lia. }
    intros s1 rf1 F1 V1 O1. apply IH; [lia..|by rewrite V1|].
    intros s' rf' F Hr' Ho. rewrite (frame_next _ _ _ F1) in F. apply HQ.
    + by eapply frame_trans.
    + by replace (idx + Z.of_nat (S n)) with (idx + 1 + Z.of_nat n) by lia.
    + intros i Hi. by rewrite Ho, O1.
Qed.

Lemma repaired_all imm skip v : repaired w imm skip (w / 16) v -> v = wrap w imm.
Proof.
  pose proof (class_width_cases _ _ Hdst) as Hw. intros [Hv Hb].
  apply (uword_bits_eq w); [lia|done|apply wrap_range; lia|].
  intros i Hi. rewrite Hb, wrap_testbit by lia.
  assert (w / 16 = 2 /\ w = 32 \/ w / 16 = 4 /\ w = 64) by (destruct Hw as [-> | ->]; auto).
  destruct (Z.ltb_spec i (16 * (w / 16))); [done|lia].
Qed.

Lemma repaired_seed imm skip v :
  uword w v -> (forall i, 0 <= i < w -> Z.testbit v i =
    if i <? 16 then Z.testbit imm i else Z.testbit skip (i mod 16)) ->
  repaired w imm skip 1 v.
Proof. intros Hv Hb. split; auto. Qed.

Lemma movz_seed imm :
  repaired w imm 0 1 (Z.land (wrap 64 imm) 0xFFFF).
Proof.
  pose proof (class_width_cases _ _ Hdst) as Hw. rewrite land_ffff. apply repaired_seed.
  - pose proof (wrap_range 16 (wrap 64 imm) ltac:(lia)) as H. unfold uword in *.
    pose proof (pow2_le 16 w ltac:(lia)). lia.
  - intros i Hi. rewrite Z.bits_0. destruct (Z.ltb_spec i 16).
    + by rewrite !wrap_testbit by lia.
    + apply (testbit_high 16); [apply wrap_range|]; lia.
Qed.

Lemma movn_seed imm :
  repaired w imm 0xFFFF 1 (wrap w (Z.lnot (wrap 16 (Z.lnot (chunk16 imm 0))))).
Proof.
  pose proof (class_width_cases _ _ Hdst) as Hw. apply repaired_seed.
  - apply wrap_range. lia.
  - intros i Hi. rewrite wrap_testbit, Z.lnot_spec by lia. destruct (Z.ltb_spec i 16).
    + rewrite wrap_testbit, Z.lnot_spec, negb_involutive, chunk16_testbit by lia. done.
    + rewrite (testbit_high 16) by (try (apply wrap_range); lia).
      rewrite testbit_ones16 by (apply Z.mod_pos_bound; lia).
      pose proof (Z.mod_pos_bound i 16). by destruct (Z.ltb_spec (i mod 16) 16); [|lia].
Qed.

Lemma high_chunks imm n :
  n = 2 \/ n = 4 ->
  drop 1 (take (Z.to_nat n) (move_wide_chunks imm n)) = map (chunk16 imm) (seqZ 1 (n - 1)).
Proof. intros [-> | ->]; reflexivity. Qed.

Lemma wp_repair imm skip n s rf Q :
  n = w / 16 -> repaired w imm skip 1 (rf (id dst)) ->
  (forall s' rf', frame s s' (nextv s) -> rf' (id dst) = wrap w imm ->
     (forall i, i <> id dst -> rf' i = rf i) -> Q tt s' rf') ->
  wp blk (emit_movks blk dst skip 1 (map (chunk16 imm) (seqZ 1 (n - 1)))) s rf Q.
Proof.
  pose proof (class_width_cases _ _ Hdst) as Hw. intros Hn Hr HQ.
  assert (w / 16 = 2 \/ w / 16 = 4) by (destruct Hw as [-> | ->]; auto).
  replace (n - 1) with (Z.of_nat (Z.to_nat (n - 1))) by lia.
  apply (wp_movks imm); [lia|lia|done|]. intros s' rf' F Hr' O. apply HQ; auto.
  apply (repaired_all imm skip). by replace (w / 16) with (1 + Z.of_nat (Z.to_nat (n - 1))) by lia.
Qed.

Lemma wp_movz_chain imm s rf Q :
  (forall s' rf', frame s s' (nextv s) -> rf' (id dst) = wrap w imm ->
     (forall i, i <> id dst -> rf' i = rf i) -> Q tt s' rf') ->
  wp blk (_ ← emit blk (mkInst Movz [VRegOp dst; Imm (Z.land (wrap 64 imm) 0xFFFF)]);
          emit_movks blk dst 0 1 (map (chunk16 imm) (seqZ 1 (w / 16 - 1)))) s rf Q.
Proof.
  intros HQ. apply wp_bind. eapply wp_emit_dst; [cbn [alu]|].
  { pose proof (wrap_range 16 (wrap 64 imm)). unfold uword in *. rewrite land_ffff.
    destruct (Z.leb_spec 0 (wrap 16 (wrap 64 imm))), (Z.leb_spec (wrap 16 (wrap 64 imm)) 0xFFFF);
      try lia; reflexivity. }
  intros s1 rf1 F1 V1 O1. apply (wp_repair imm 0); [done| |].
  { rewrite V1, <- land_ffff. apply movz_seed. }
  intros s2 rf2 F2 V2 O2. rewrite (frame_next _ _ _ F1) in F2.
  apply HQ; [by eapply frame_trans|done|]. intros i Hi. by rewrite O2, O1.
Qed.

(** The branch of [emit_iconst_materialization] for wide immediates. *)
Lemma wp_iconst_wide imm n s rf Q :
  n = w / 16 ->
  (forall s' rf', frame s s' (nextv s) -> rf' (id dst) = wrap w imm ->
     (forall i, i <> id dst -> rf' i = rf i) -> Q tt s' rf') ->
  wp blk (done ← emit_preferred_movn blk dst imm n;
          if (done : bool) then mret tt
          else _ ← emit blk (mkInst Movz [VRegOp dst; Imm (Z.land (wrap 64 imm) 0xFFFF)]);
               emit_movks blk dst 0 1 (map (chunk16 imm) (seqZ 1 (n - 1)))) s rf Q.
Proof.
  pose proof (class_width_cases _ _ Hdst) as Hw. intros Hn HQ.
  assert (Hn24 : n = 2 \/ n = 4) by (subst n; destruct Hw as [-> | ->]; auto).
  apply wp_bind. unfold emit_preferred_movn. cbv zeta. rewrite high_chunks by done.
  assert (E0 : default 0 (move_wide_chunks imm n !! 0%nat) = chunk16 imm 0)
    by (destruct Hn24 as [-> | ->]; reflexivity).
  rewrite E0. destruct (_ || _).
  - apply wp_ret. rewrite Hn. by apply wp_movz_chain.
  - apply wp_bind. eapply wp_emit_dst; [cbn [alu]|].
    { pose proof (wrap_range 16 (Z.lnot (chunk16 imm 0))). unfold uword in *.
      destruct (Z.leb_spec 0 (wrap 16 (Z.lnot (chunk16 imm 0)))),
        (Z.leb_spec (wrap 16 (Z.lnot (chunk16 imm 0))) 0xFFFF); try lia; reflexivity. }
    intros s1 rf1 F1 V1 O1. apply wp_bind, (wp_repair imm 0xFFFF); [done| |].
    { rewrite V1. apply movn_seed. }
    intros s2 rf2 F2 V2 O2. rewrite (frame_next _ _ _ F1) in F2. apply wp_ret, wp_ret.
    apply HQ; [by eapply frame_trans|done|]. intros i Hi. by rewrite O2, O1.
Qed.

Lemma wp_iconst ty imm s rf Q :
  is_32bit ty = (w =? 32) -> sword 64 imm ->
  (forall s' rf', frame s s' (nextv s) -> rf' (id dst) = wrap w imm ->
     (forall i, i <> id dst -> rf' i = rf i) -> Q tt s' rf') ->
  wp blk (emit_iconst_materialization blk dst ty imm) s rf Q.
Proof.
  pose proof (class_width_cases _ _ Hdst) as Hw. intros Hty Himm HQ.
  assert (H16 : 2 ^ 16 <= 2 ^ w) by (apply pow2_le; lia).
  unfold emit_iconst_materialization.
  destruct ((0 <=? imm) && (imm <=? 0xFFFF)) eqn:E1.
  { eapply wp_emit_dst; [cbn [alu]; rewrite E1; reflexivity|].
    intros s' rf' F V O. apply HQ; auto. rewrite V, wrap_small; unfold uword; lia. }
  destruct ((-0x10000 <=? imm) && (imm <? 0)) eqn:E2.
  { assert (El : Z.land (wrap 64 (Z.lnot imm)) 0xFFFF = Z.lnot imm).
    { rewrite land_ffff. unfold Z.lnot.
      rewrite (wrap_small 64), wrap_small; unfold uword, sword in *; lia. }
    rewrite El. eapply wp_emit_dst; [cbn [alu]|].
    { destruct ((0 <=? Z.lnot imm) && (Z.lnot imm <=? 0xFFFF)) eqn:E3; [reflexivity|].
      exfalso. unfold Z.lnot, Z.pred in E3. lia. }
    intros s' rf' F V O. apply HQ; auto. by rewrite V, Z.lnot_involutive. }
  apply wp_iconst_wide; [|done]. rewrite Hty. destruct Hw as [-> | ->]; reflexivity.
Qed.

End Materialize.
