(* ===== verification/ConstDiv.v ===== *)
(** * Division and remainder by a constant
      ([crates/trust-cg-lower/src/isel.rs], [try_select_const_div_rem])

    The strength reduction of integer division and remainder by a compile-time
    constant: shift sequences for powers of two, the widening-multiply and
    high-multiply sequences built from the magics of [MagicDiv], the remainder
    tail, and the hardware-divide fallback of [select_remainder]. *)

From S2P Require Import Prelude MagicDiv Regs ISel.
Import Magic.
Local Open Scope Z_scope.

(** ** Bit counting from the Rust standard library *)

Fixpoint count_ones (p : positive) : Z :=
  match p with
  | xH => 1
  | xO p' => count_ones p'
  | xI p' => 1 + count_ones p'
  end.

Definition is_power_of_two (x : Z) : bool :=
  match x with Zpos p => count_ones p =? 1 | _ => false end.

Fixpoint ctz (p : positive) : Z :=
  match p with xO p' => 1 + ctz p' | _ => 0 end.

(** [u64::trailing_zeros]. *)
Definition trailing_zeros (x : Z) : Z :=
  match x with Zpos p => ctz p | _ => 64 end.

(** ** Emission helpers *)

Definition magic_mat (block : Block) (ty : Ty) (imm : Z) : Sel VReg :=
  dst ← new_vreg (reg_class_for_type ty);
  _ ← emit_iconst_materialization block dst ty imm;
  mret dst.

Definition magic_rr (block : Block) (opc : AArch64Opcode) (c : RegClass)
    (a b : ISelOperand) : Sel VReg :=
  dst ← new_vreg c;
  _ ← emit block (mkInst opc [VRegOp dst; a; b]);
  mret dst.

Definition magic_rr64 (block : Block) (opc : AArch64Opcode) (a b : ISelOperand) : Sel VReg :=
  magic_rr block opc Gpr64 a b.

Definition magic_shift_imm (block : Block) (opc : AArch64Opcode) (c : RegClass)
    (src : ISelOperand) (amt : Z) : Sel VReg :=
  dst ← new_vreg c;
  _ ← emit block (mkInst opc [VRegOp dst; src; Imm amt]);
  mret dst.

(** A one-source move or extension into a fresh register. *)
Definition emit_unary (block : Block) (opc : AArch64Opcode) (c : RegClass)
    (src : ISelOperand) : Sel VReg :=
  dst ← new_vreg c;
  _ ← emit block (mkInst opc [VRegOp dst; src]);
  mret dst.

(** The closure [narrow]: bring a 64-bit temporary down to the operation width. *)
Definition narrow (is_32 : bool) (block : Block) (src : VReg) : Sel VReg :=
  if is_32 && negb (bool_decide (class src = Gpr32))
  then emit_unary block MovR Gpr32 (VRegOp src)
  else mret src.

(** ** Quotient sequences *)

Definition pow2_quotient (block : Block) (is_signed is_32 : bool) (x : ISelOperand)
    (k divisor_s : Z) : Sel VReg :=
  let opw := if is_32 then Gpr32 else Gpr64 in
  let wbits := if is_32 then 32 else 64 in
  if negb is_signed then magic_shift_imm block LsrRI opw x k
  else
    t1 ← magic_shift_imm block AsrRI opw x (k - 1);
    t2 ← magic_shift_imm block LsrRI opw (VRegOp t1) (wbits - k);
    sum ← magic_rr block AddRR opw x (VRegOp t2);
    q ← magic_shift_imm block AsrRI opw (VRegOp sum) k;
    if divisor_s <? 0 then magic_rr block SubRR opw (PRegOp XZR) (VRegOp q)
    else mret q.

(** The add-back tail [t = mh + ((x - mh) >> 1); q = t >> (s - 1)]. *)
Definition add_back (block : Block) (c : RegClass) (x : ISelOperand) (mh : VReg) (shift : Z)
    : Sel VReg :=
  sub ← magic_rr block SubRR c x (VRegOp mh);
  sub1 ← magic_shift_imm block LsrRI c (VRegOp sub) 1;
  t ← magic_rr block AddRR c (VRegOp mh) (VRegOp sub1);
  if shift =? 1 then mret t
  else magic_shift_imm block LsrRI c (VRegOp t) (shift - 1).

(** 32-bit unsigned, UMULL form. *)
Definition umull_w32_quotient (block : Block) (x : ISelOperand) (m : MagicU) : Sel VReg :=
  mm ← magic_mat block I32 (swrap 32 (wrap 32 (magic m)));
  xp ← magic_rr64 block Umull x (VRegOp mm);
  if negb (add m) then
    q64 ← magic_shift_imm block LsrRI Gpr64 (VRegOp xp) (32 + shift m);
    narrow true block q64
  else
    mh64 ← magic_shift_imm block LsrRI Gpr64 (VRegOp xp) 32;
    mh ← narrow true block mh64;
    add_back block Gpr32 x mh (shift m).

(** The sign correction, decided at compile time. *)
Definition sign_correct (block : Block) (c : RegClass) (smulhi : VReg) (x : ISelOperand)
    (divisor_s m : Z) : Sel VReg :=
  if (0 <? divisor_s) && (m <? 0) then magic_rr block AddRR c (VRegOp smulhi) x
  else if (divisor_s <? 0) && (0 <? m) then magic_rr block SubRR c (VRegOp smulhi) x
  else mret smulhi.

(** 32-bit signed, SMULL form. *)
Definition smull_w32_quotient (block : Block) (x : ISelOperand) (divisor_s : Z) (m : MagicS)
    : Sel VReg :=
  mm ← magic_mat block I32 (swrap 32 (smagic m));
  xp ← magic_rr64 block Smull x (VRegOp mm);
  mh ← magic_shift_imm block LsrRI Gpr64 (VRegOp xp) 32;
  corrected ← sign_correct block Gpr32 mh x divisor_s (smagic m);
  shifted ← (if sshift m =? 0 then mret corrected
             else magic_shift_imm block AsrRI Gpr32 (VRegOp corrected) (sshift m));
  sb ← magic_shift_imm block LsrRI Gpr32 (VRegOp shifted) 31;
  magic_rr block AddRR Gpr32 (VRegOp shifted) (VRegOp sb).

(** Unsigned, 64-bit arithmetic (both widths). *)
Definition umagic_quotient64 (block : Block) (is_32 : bool) (x x64 : ISelOperand) (m : MagicU)
    : Sel VReg :=
  mm ← magic_mat block I64 (swrap 64 (magic m));
  if is_32 then
    xp ← magic_rr64 block MulRR x64 (VRegOp mm);
    if negb (add m) then magic_shift_imm block LsrRI Gpr64 (VRegOp xp) (32 + shift m)
    else
      mh64 ← magic_shift_imm block LsrRI Gpr64 (VRegOp xp) 32;
      mh ← narrow true block mh64;
      add_back block Gpr32 x mh (shift m)
  else
    mh ← magic_rr64 block Umulh x64 (VRegOp mm);
    if negb (add m) then
      if shift m =? 0 then mret mh
      else magic_shift_imm block LsrRI Gpr64 (VRegOp mh) (shift m)
    else add_back block Gpr64 x64 mh (shift m).

(** Signed, 64-bit arithmetic (both widths). *)
Definition smagic_quotient64 (block : Block) (is_32 : bool) (x64 : ISelOperand)
    (divisor_s : Z) (m : MagicS) : Sel VReg :=
  mm ← magic_mat block I64 (smagic m);
  smulhi ← (if is_32 then
              xp ← magic_rr64 block MulRR x64 (VRegOp mm);
              magic_shift_imm block AsrRI Gpr64 (VRegOp xp) 32
            else magic_rr64 block Smulh x64 (VRegOp mm));
  corrected ← sign_correct block Gpr64 smulhi x64 divisor_s (smagic m);
  shifted ← (if sshift m =? 0 then mret corrected
             else magic_shift_imm block AsrRI Gpr64 (VRegOp corrected) (sshift m));
  if is_32 then
    qw ← narrow true block shifted;
    sb ← magic_shift_imm block LsrRI Gpr32 (VRegOp qw) 31;
    magic_rr block AddRR Gpr32 (VRegOp qw) (VRegOp sb)
  else
    sb ← magic_shift_imm block LsrRI Gpr64 (VRegOp shifted) 63;
    magic_rr64 block AddRR (VRegOp shifted) (VRegOp sb).

Section Select.
(** The cached value of the environment switch [TCG_NO_SMULL_DIV]. *)
Context (smull_div_disabled : bool).

(** Classification of [|c|] as [2^k - 1] ([true]) or [2^k + 1] ([false]). *)
Definition mersenne_form (a width_bits : Z) : option (Z * bool) :=
  let in_range k := (1 <=? k) && (k <? width_bits) in
  if smull_div_disabled || (a <? 3) then None
  else if negb (a =? 2 ^ 64 - 1) && is_power_of_two (a + 1) then
    let k := trailing_zeros (a + 1) in
    if in_range k then Some (k, true) else None
  else if is_power_of_two (a - 1) then
    let k := trailing_zeros (a - 1) in
    if in_range k then Some (k, false) else None
  else None.

(** A shifted-register operation into a fresh register. *)
Definition emit_rr_shift (block : Block) (opc : AArch64Opcode) (dst : VReg)
    (a b : ISelOperand) (k : Z) : Sel unit :=
  emit block (mkInst opc [VRegOp dst; a; b; Imm k]).

(** [x - q * c] for [|c| = 2^k - 1] or [2^k + 1]. *)
Definition mersenne_remainder (block : Block) (opw : RegClass) (neg : bool) (x : ISelOperand)
    (quotient_w : VReg) (k : Z) (is_minus : bool) : Sel VReg :=
  dst ← new_vreg opw;
  if is_minus then
    t ← new_vreg opw;
    _ ← emit_rr_shift block SubRRShift t (VRegOp quotient_w) (VRegOp quotient_w) k;
    _ ← emit block (mkInst (if neg then SubRR else AddRR) [VRegOp dst; x; VRegOp t]);
    mret dst
  else
    u ← new_vreg opw;
    _ ← emit block (mkInst (if neg then AddRR else SubRR) [VRegOp u; x; VRegOp quotient_w]);
    _ ← emit_rr_shift block (if neg then AddRRShift else SubRRShift) dst
          (VRegOp u) (VRegOp quotient_w) k;
    mret dst.

Definition finish_const_div_rem (block : Block) (is_rem is_signed is_32 : bool) (ty : Ty)
    (result_val : Value) (x : ISelOperand) (quotient_w : VReg) (divisor_s divisor_u : Z)
    : Sel bool :=
  if negb is_rem then
    _ ← define_value result_val (VRegOp quotient_w) ty;
    mret true
  else
    let opw := reg_class_for_type ty in
    let width_bits := if is_32 then 32 else 64 in
    let s_at_width := if is_32 then swrap 32 divisor_s else divisor_s in
    let a := if is_signed then Z.abs s_at_width
             else if is_32 then Z.land divisor_u 0xffffffff else divisor_u in
    let neg := is_signed && (s_at_width <? 0) in
    match mersenne_form a width_bits with
    | Some (k, is_minus) =>
        dst ← mersenne_remainder block opw neg x quotient_w k is_minus;
        _ ← define_value result_val (VRegOp dst) ty;
        mret true
    | None =>
        let cimm := if is_32 then (if is_signed then swrap 32 divisor_s else wrap 32 divisor_u)
                    else divisor_s in
        c ← magic_mat block ty cimm;
        dst ← new_vreg (reg_class_for_type ty);
        _ ← emit block (mkInst Msub [VRegOp dst; VRegOp quotient_w; VRegOp c; x]);
        _ ← define_value result_val (VRegOp dst) ty;
        mret true
    end.

(** The guards shared by the two unsigned magic paths. *)
Definition usable_magicu (divisor_u : Z) (width : MagicWidth) : option MagicU :=
  match magicu divisor_u width with
  | None => None
  | Some m => if negb (band_holds divisor_u m width) then None
              else if add m && (shift m =? 0) then None
              else Some m
  end.

Definition usable_magics (divisor_s : Z) (width : MagicWidth) : option MagicS :=
  match magics divisor_s width with
  | None => None
  | Some m => if negb (smagic_band_holds divisor_s m width) then None else Some m
  end.

(** The body of [try_select_const_div_rem] once the divisor is known. *)
Definition select_const_div_rem (block : Block) (is_signed is_rem : bool) (ty : Ty)
    (width : MagicWidth) (x : ISelOperand) (result_val : Value) (divisor_s divisor_u : Z)
    : Sel bool :=
  let is_32 := match width with W32 => true | W64 => false end in
  let finish q :=
    finish_const_div_rem block is_rem is_signed is_32 ty result_val x q divisor_s divisor_u in
  let abs_d := if is_signed then Z.abs divisor_s else divisor_u in
  if is_power_of_two abs_d then
    q ← pow2_quotient block is_signed is_32 x (trailing_zeros abs_d) divisor_s;
    finish q
  else if is_32 && negb smull_div_disabled then
    if negb is_signed then
      match usable_magicu divisor_u width with
      | None => mret false
      | Some m => q32 ← umull_w32_quotient block x m; finish q32
      end
    else
      match usable_magics divisor_s width with
      | None => mret false
      | Some m => res ← smull_w32_quotient block x divisor_s m; finish res
      end
  else
    x64 ← (if is_32 then
             d ← emit_unary block (if is_signed then Sxtw else Uxtw) Gpr64 x;
             mret (VRegOp d)
           else mret x);
    if negb is_signed then
      match usable_magicu divisor_u width with
      | None => mret false
      | Some m =>
          quotient64 ← umagic_quotient64 block is_32 x x64 m;
          quotient_w ← narrow is_32 block quotient64;
          finish quotient_w
      end
    else
      match usable_magics divisor_s width with
      | None => mret false
      | Some m =>
          quotient64 ← smagic_quotient64 block is_32 x64 divisor_s m;
          quotient_w ← narrow is_32 block quotient64;
          finish quotient_w
      end.

Definition try_select_const_div_rem (inst : Instruction) (block : Block)
    (is_signed is_rem : bool) (ty : Ty) : Sel bool :=
  match (match ty with I32 => Some W32 | I64 => Some W64 | _ => None end) with
  | None => mret false
  | Some width =>
      let is_32 := match width with W32 => true | W64 => false end in
      rhs_val ← index (args inst) 1;
      origins ← gets iconst_origins;
      match (origins : gmap Z (Ty * Z)) !! rhs_val with
      | None => mret false
      | Some (_, imm) =>
          let divisor_u := if is_32 then wrap 32 imm else wrap 64 imm in
          let divisor_s := if is_32 then swrap 32 imm else imm in
          if (if is_signed then (divisor_s =? 0) || (divisor_s =? 1) || (divisor_s =? -1)
              else divisor_u <=? 1)
          then mret false
          else
            x_val ← index (args inst) 0;
            x ← use_value x_val;
            result_val ← index (results inst) 0;
            select_const_div_rem block is_signed is_rem ty width x result_val
              divisor_s divisor_u
      end
  end.

(** Extend an [I8]/[I16] operand to the 32-bit operation width. *)
Definition extend_narrow_for_width_op (val : Value) (ty : Ty) (signed : bool) (block : Block)
    : Sel ISelOperand :=
  src ← use_value val;
  let ext opc := dst ← emit_unary block opc Gpr32 src; mret (VRegOp dst) in
  match ty, signed with
  | I8, true => ext Sxtb
  | I16, true => ext Sxth
  | I8, false => ext Uxtb
  | I16, false => ext Uxth
  | _, _ => mret src
  end.

Definition select_remainder (signed : bool) (inst : Instruction) (block : Block) : Sel unit :=
  _ ← require_args inst 2;
  _ ← require_result inst;
  lhs_val ← index (args inst) 0;
  rhs_val ← index (args inst) 1;
  result_val ← index (results inst) 0;
  ty ← gets (fun s => value_type s lhs_val);
  let c := reg_class_for_type ty in
  done ← try_select_const_div_rem inst block signed true ty;
  if (done : bool) then mret tt
  else
    '(lhs, rhs) ← (match ty with
                   | I8 | I16 =>
                       l ← extend_narrow_for_width_op lhs_val ty signed block;
                       r ← extend_narrow_for_width_op rhs_val ty signed block;
                       mret (l, r)
                   | _ => l ← use_value lhs_val; r ← use_value rhs_val; mret (l, r)
                   end);
    tmp ← new_vreg c;
    _ ← emit block (mkInst (if signed then SDiv else UDiv) [VRegOp tmp; lhs; rhs]);
    dst ← new_vreg c;
    _ ← emit block (mkInst Msub [VRegOp dst; VRegOp tmp; rhs; lhs]);
    define_value result_val (VRegOp dst) ty.

End Select.

(** ** Bit counting facts *)

Lemma count_ones_pos (p : positive) : 1 <= count_ones p.
Proof. induction p; cbn; lia. Qed.

Lemma count_ones_pow2 (p : positive) : count_ones p = 1 -> Zpos p = 2 ^ ctz p.
Proof.
  induction p as [p IH|p IH|]; cbn [count_ones ctz]; intros H; [|specialize (IH H)|done].
  - pose proof (count_ones_pos p). lia.
  - assert (0 <= ctz p) by (clear; induction p; cbn; lia).
    rewrite Pos2Z.inj_xO, IH, Z.pow_add_r by lia. lia.
Qed.

Lemma power_of_two_spec (x : Z) :
  is_power_of_two x = true -> x = 2 ^ trailing_zeros x /\ 0 <= trailing_zeros x.
Proof.
  destruct x as [|p|p]; cbn; try done. intros H%Z.eqb_eq.
  split; [by apply count_ones_pow2|]. clear; induction p; cbn; lia.
Qed.

Lemma ctz_pow2 (k : nat) : exists p, 2 ^ Z.of_nat k = Zpos p /\ count_ones p = 1.
Proof.
  induction k as [|k (p & E & H)]; [by exists xH|].
  exists (xO p). split; [|done].
  rewrite Nat2Z.inj_succ, Z.pow_succ_r, E by lia. lia.
Qed.

Lemma not_power_of_two_land (x : Z) :
  0 < x -> is_power_of_two x = false -> Z.land x (x - 1) <> 0.
Proof.
  intros Hx Hnp H0. set (k := Z.log2 x).
  assert (Hk : 0 <= k) by apply Z.log2_nonneg.
  pose proof (Z.log2_spec x Hx) as [Hlo Hhi]. fold k in Hlo, Hhi.
  assert (Hne : x <> 2 ^ k).
  { intros E. destruct (ctz_pow2 (Z.to_nat k)) as (p & Ep & Hp).
    rewrite Z2Nat.id, <- E in Ep by lia. rewrite Ep in Hnp. cbn in Hnp. lia. }
  assert (Hb : Z.testbit (Z.land x (x - 1)) k = true).
  { rewrite Z.land_spec. subst k. rewrite Z.bit_log2 by lia.
    replace (Z.log2 x) with (Z.log2 (x - 1)); [by rewrite Z.bit_log2 by lia|].
    apply Z.log2_unique; lia. }
  rewrite H0, Z.bits_0 in Hb. discriminate.
Qed.

(** ** Symbolic execution of the quotient sequences *)

(** Read back through the frame facts of the steps executed so far. *)
Ltac frames :=
  repeat match goal with
  | H : frame _ ?s' ?n |- context [next_vreg (func ?s')] => rewrite (frame_next _ _ _ H)
  | H : frame _ ?s' ?n, H2 : context [next_vreg (func ?s')] |- _ =>
      lazymatch type of H2 with
      | frame _ s' _ => fail
      | _ => rewrite (frame_next _ _ _ H) in H2
      end
  end.

Ltac reads :=
  frames;
  repeat match goal with
  | H : ?rf ?r = _ |- context [?rf ?r] => rewrite H
  | H : wrap ?w (?rf ?r) = _ |- context [wrap ?w (?rf ?r)] => rewrite H
  | H : forall i, i <> _ -> ?rf i = _ |- context [?rf ?r] => rewrite (H r) by lia
  | H : forall i, i < _ -> ?rf i = _ |- context [?rf ?r] => rewrite (H r) by lia
  end.

Ltac guards :=
  repeat match goal with
  | |- context [if ?b then _ else None] =>
      let E := fresh in
      assert (E : b = true) by lia; rewrite E; clear E
  end.

(** One fresh-destination instruction. *)
Ltac fresh_step :=
  unfold magic_rr64, magic_rr, magic_shift_imm, emit_unary;
  eapply wp_fresh; [frames; lia|first [eassumption|reflexivity]|
    cbn [alu rd id]; guards; cbn [mbind option_bind]; reads; reflexivity|].

(** A bound instruction, and the last one of a sequence. *)
Ltac istep := apply wp_bind; fresh_step; intros ? ? ? ? ?.
Ltac ilast := fresh_step; intros ? ? ? ? ?.

(** The computation left [v] in the low [w] bits of register [q], allocated at
    most [k] registers, and kept every register allocated before. *)
Definition yields (s : InstructionSelector) (rf : regs) (k w v : Z)
    (q : VReg) (s' : InstructionSelector) (rf' : regs) : Prop :=
  exists n, frame s s' n /\ nextv s <= n <= nextv s + k /\ id q < n /\
    wrap w (rf' (id q)) = v /\ forall i, i < nextv s -> rf' i = rf i.

Ltac close_frame :=
  repeat first [eassumption | apply frame_refl | eapply frame_trans; [eassumption|]].

(** Leave the value equation of a [yields] goal. *)
Ltac yield :=
  eexists; split; [close_frame|]; cbn [id class]; frames;
  split; [lia|]; split; [lia|]; split; [reads|intros; reads; done].

Lemma yields_trans s s1 rf rf1 n a b k w v q s' rf' :
  frame s s1 n -> nextv s <= n <= nextv s + a -> (forall i, i < nextv s -> rf1 i = rf i) ->
  a + k <= b -> yields s1 rf1 k w v q s' rf' -> yields s rf b w v q s' rf'.
Proof.
  intros F N O Hab (n' & F' & N' & I' & V' & O'). rewrite (frame_next _ _ _ F) in *.
  exists n'. split_and!; auto; try lia; [by eapply frame_trans|].
  intros i Hi. rewrite O', O by lia. done.
Qed.

(** *** Word arithmetic of the sequences *)

Lemma wrap_shiftr (w x k : Z) :
  0 <= w -> 0 <= k -> wrap w (Z.shiftr (wrap w x) k) = Z.shiftr (wrap w x) k.
Proof. intros. apply wrap_small, uword_shr; [lia|]. apply wrap_range. lia. Qed.

Lemma swrap_i64 (w x : Z) : 0 < w <= 64 -> sword 64 (swrap w x).
Proof. intros. apply (sword_mono w); [done|]. apply swrap_range. lia. Qed.

Lemma umul_range (w x y : Z) : uword w x -> uword w y -> uword (2 * w) (x * y).
Proof.
  unfold uword. intros [] []. assert (0 <= w \/ w < 0) as [|] by lia.
  - replace (2 * w) with (w + w) by lia. rewrite pow2_split by lia. nia.
  - rewrite (Z.pow_neg_r 2 w) in * by lia. lia.
Qed.

Lemma umulhi_range (w x y : Z) :
  0 <= w -> uword w x -> uword w y -> uword w (Z.shiftr (x * y) w).
Proof.
  unfold uword. intros Hw Hx Hy. rewrite Z.shiftr_div_pow2 by lia.
  pose proof (pow2_pos w Hw). split; [apply Z.div_pos; nia|apply Z.div_lt_upper_bound; nia].
Qed.

Lemma eval_magic_mulhi (x : Z) (m : MagicU) (width : MagicWidth) (w := bits width)
    (q := Z.shiftr (x * magic m) w) :
  uword w x -> uword w (magic m) ->
  eval_magic x m width =
  if add m then Z.shiftr (wrap w (q + Z.shiftr (wrap w (x - q)) 1)) (shift m - 1)
  else Z.shiftr q (shift m).
Proof.
  intros Hx Hm. pose proof (bits_range width) as Hw. unfold eval_magic, mulhi. cbv zeta.
  rewrite (wrap_small _ x), (wrap_small _ (magic m)) by (auto; lia).
  by rewrite (wrap_small _ (Z.shiftr (x * magic m) (bits width)))
    by (apply umulhi_range; auto; lia).
Qed.

(** Close by the specification of the tail, prepending the steps since [s0]. *)
Ltac side := first [reflexivity | lia | done | (apply swrap_i64; lia)].
Ltac yields_with L := eapply wp_mono; [eapply L; cbn [id class]; frames; side|].
Ltac tail_yields k L :=
  yields_with L;
  let q := fresh "q" in let s' := fresh "s" in let rf' := fresh "rf" in let Y := fresh "Y" in
  intros q s' rf' Y;
  lazymatch goal with
  | |- yields ?s0 ?rf0 ?b _ _ _ _ _ => eapply (yields_trans s0 _ rf0 _ _ k b) in Y
  end;
  [revert Y|close_frame|frames; lia|intros; reads; done|lia].

(** *** The shared pieces *)

Lemma wp_narrow blk (is_32 : bool) src w v s rf :
  0 <= nextv s < 2 ^ 32 - 1 -> w = (if is_32 then 32 else 64) -> id src < nextv s ->
  wrap w (rf (id src)) = v -> wp blk (narrow is_32 blk src) s rf (yields s rf 1 w v).
Proof.
  intros Hn -> Hid Hv. unfold narrow. destruct (is_32 && _) eqn:E.
  - destruct is_32; [|discriminate]. ilast. yield.
    rewrite <- Hv. apply wrap_wrap. lia.
  - apply wp_ret. yield. done.
Qed.

Lemma wp_magic_mat blk ty w imm s rf :
  0 <= nextv s < 2 ^ 32 - 1 -> class_width (reg_class_for_type ty) = Some w ->
  is_32bit ty = (w =? 32) -> sword 64 imm ->
  wp blk (magic_mat blk ty imm) s rf (yields s rf 1 w (wrap w imm)).
Proof.
  intros Hn Hc Hty Himm. pose proof (class_width_cases _ _ Hc) as Hw.
  unfold magic_mat. apply wp_bind, wp_new_vreg; [done|].
  intros s1 F1. apply wp_bind. eapply wp_iconst; [eassumption|done|done|].
  intros s2 rf2 F2 V2 O2. apply wp_ret. cbn [id] in *. yield. apply wrap_wrap. lia.
Qed.

Lemma wp_add_back blk s rf vx c w mh sh Mh :
  0 <= nextv s /\ nextv s + 5 < 2 ^ 32 -> id vx < nextv s ->
  class_width c = Some w -> id mh < nextv s -> wrap w (rf (id mh)) = Mh -> 1 <= sh <= w ->
  wp blk (add_back blk c (VRegOp vx) mh sh) s rf
    (yields s rf 4 w
       (Z.shiftr (wrap w (Mh + Z.shiftr (wrap w (wrap w (rf (id vx)) - Mh)) 1)) (sh - 1))).
Proof.
  intros Hn Hvx Hc Hmh HMh Hsh. pose proof (class_width_cases _ _ Hc) as Hw. unfold add_back.
  istep. istep. istep. destruct (Z.eqb_spec sh 1) as [->|].
  - apply wp_ret. yield. by rewrite !wrap_wrap, wrap_shiftr, Z.shiftr_0_r by lia.
  - ilast. yield. by rewrite !wrap_wrap, !wrap_shiftr by lia.
Qed.

(** *** Unsigned quotients *)

Section Unsigned.
Context (blk : Block) (s : InstructionSelector) (rf : regs) (vx : VReg) (m : MagicU).
Context (Hroom : 0 <= nextv s /\ nextv s + 16 < 2 ^ 32) (Hvx : id vx < nextv s).
Context (Hs : 0 <= shift m) (Ha : add m = true -> 1 <= shift m).

Lemma wp_umull_w32 :
  uword 32 (magic m) -> shift m <= 32 -> (add m = false -> shift m < 32) ->
  wp blk (umull_w32_quotient blk (VRegOp vx) m) s rf
    (yields s rf 10 32 (eval_magic (wrap 32 (rf (id vx))) m W32)).
Proof.
  intros Hm Hs32 Hna. unfold umull_w32_quotient.
  assert (Hx : uword 32 (wrap 32 (rf (id vx)))) by (apply wrap_range; lia).
  rewrite eval_magic_mulhi by done. cbn [bits].
  pose proof (umul_range _ _ _ Hx Hm) as Hp. change (2 * 32) with 64 in Hp.
  pose proof (umulhi_range 32 _ _ ltac:(lia) Hx Hm) as Hh.
  apply wp_bind. yields_with (wp_magic_mat blk I32 32).
  intros mm s1 rf1 (n1 & F1 & N1 & I1 & V1 & O1).
  rewrite wrap_swrap, wrap_wrap, (wrap_small 32 (magic m)) in V1 by (auto; lia).
  istep. destruct (add m) eqn:Ea; cbn [negb].
  - specialize (Ha eq_refl). istep. apply wp_bind. yields_with (wp_narrow blk true).
    intros mh s2 rf2 (n2 & F2 & N2 & I2 & V2 & O2).
    tail_yields 6 wp_add_back. reads.
    by rewrite (wrap_small 64), (wrap_small 32 (Z.shiftr _ 32)) by done.
  - specialize (Hna eq_refl). istep. tail_yields 9 (wp_narrow blk true). reads.
    rewrite (wrap_small 64), <- Z.shiftr_shiftr, wrap_small; auto.
    by apply uword_shr.
Qed.

(** The 64-bit sequence; at 32 bits [x64] holds the zero-extended dividend. *)
Lemma wp_umagic64 (width : MagicWidth) (v64 : VReg)
    (is_32 := match width with W32 => true | W64 => false end) (w := bits width) :
  uword w (magic m) -> shift m <= w -> (add m = false -> shift m < w) -> id v64 < nextv s ->
  wrap 64 (rf (id v64)) = wrap w (rf (id vx)) ->
  wp blk (umagic_quotient64 blk is_32 (VRegOp vx) (VRegOp v64) m) s rf
    (yields s rf 10 w (eval_magic (wrap w (rf (id vx))) m width)).
Proof.
  intros Hm Hsw Hna Hv64 Hx64. unfold umagic_quotient64.
  pose proof (bits_range width) as Hbw. fold w in Hbw.
  assert (Hx : uword w (wrap w (rf (id vx)))) by (apply wrap_range; lia).
  rewrite eval_magic_mulhi by done. fold w.
  pose proof (umulhi_range w _ _ ltac:(lia) Hx Hm) as Hh.
  assert (Hm64 : uword 64 (magic m))
    by (unfold uword in *; pose proof (pow2_le w 64 ltac:(lia)); lia).
  apply wp_bind. yields_with (wp_magic_mat blk I64 64).
  intros mm s1 rf1 (n1 & F1 & N1 & I1 & V1 & O1).
  rewrite wrap_swrap, (wrap_small 64 (magic m)) in V1 by (auto; lia).
  destruct width; cbn [bits] in *; subst is_32 w.
  - pose proof (umul_range _ _ _ Hx Hm) as Hp. change (2 * 32) with 64 in Hp.
    istep. destruct (add m) eqn:Ea; cbn [negb].
    + specialize (Ha eq_refl). istep. apply wp_bind. yields_with (wp_narrow blk true).
      intros mh s2 rf2 (n2 & F2 & N2 & I2 & V2 & O2).
      tail_yields 6 wp_add_back. reads.
      by rewrite (wrap_wrap 64), (wrap_small 64), (wrap_small 32 (Z.shiftr _ 32)) by (auto; lia).
    + specialize (Hna eq_refl). ilast. yield.
      rewrite (wrap_wrap 64), (wrap_small 64), <- Z.shiftr_shiftr by (auto; lia).
      by apply wrap_small, uword_shr.
  - istep. destruct (add m) eqn:Ea; cbn [negb].
    + specialize (Ha eq_refl). tail_yields 6 wp_add_back. reads.
      by rewrite (wrap_small 64 (Z.shiftr _ 64)) by done.
    + specialize (Hna eq_refl). destruct (Z.eqb_spec (shift m) 0) as [E|E].
      * apply wp_ret. yield. rewrite Z.shiftr_0_r. by apply wrap_small.
      * ilast. yield. rewrite (wrap_small 64 (Z.shiftr _ 64)) by done.
        by apply wrap_small, uword_shr.
Qed.

End Unsigned.

(** *** Signed quotients *)

Lemma swrap_of_wrap (w x : Z) : 1 <= w -> sword w x -> swrap w (wrap w x) = x.
Proof. intros. rewrite swrap_wrap by lia. by apply swrap_small. Qed.

(** The sign bit of a [w]-bit word. *)
Lemma sign_bit (w y : Z) :
  1 <= w -> sword w y -> Z.shiftr (wrap w y) (w - 1) = if y <? 0 then 1 else 0.
Proof.
  intros Hw Hy. pose proof (pow2_half w Hw). pose proof (pow2_pos (w - 1) ltac:(lia)).
  unfold sword in Hy. rewrite Z.shiftr_div_pow2 by lia. destruct (Z.ltb_spec y 0).
  - rewrite (wrap_eqmod w y (y + 2 ^ w) (-1)), wrap_small by (unfold uword; lia).
    apply div_eq_between; lia.
  - rewrite wrap_small by (unfold uword; lia). apply Z.div_small. lia.
Qed.

Lemma round_toward_zero (w y : Z) :
  1 <= w -> sword w y ->
  wrap w (wrap w y + wrap w (Z.shiftr (wrap w y) (w - 1))) =
  wrap w (y + if y <? 0 then 1 else 0).
Proof. intros. by rewrite sign_bit, wrap_add_r, wrap_add_l by done. Qed.

(** The high half of a product computed from its low [2w] bits. *)
Lemma high_half (p : Z) : wrap 32 (Z.shiftr (wrap 64 p) 32) = wrap 32 (Z.shiftr p 32).
Proof.
  unfold wrap. rewrite !Z.shiftr_div_pow2 by lia.
  replace (2 ^ 64) with (2 ^ 32 * 2 ^ 32) by reflexivity.
  rewrite Z.rem_mul_r by lia. rewrite (Z.mul_comm (2 ^ 32) (_ mod _)).
  rewrite Z_div_plus_full, Z.div_small by (try apply Z.mod_pos_bound; lia).
  by rewrite Z.add_0_l, Z.mod_mod by lia.
Qed.

Lemma smul_range (w x y : Z) : 1 <= w -> sword w x -> sword w y -> sword (2 * w) (x * y).
Proof.
  unfold sword. intros Hw Hx Hy.
  assert (E : 2 ^ (2 * w - 1) = 2 * (2 ^ (w - 1) * 2 ^ (w - 1)))
    by (rewrite <- pow2_split, <- Z.pow_succ_r by lia; f_equal; lia).
  assert (Z.abs (x * y) <= 2 ^ (w - 1) * 2 ^ (w - 1))
    by (rewrite Z.abs_mul; apply Z.mul_le_mono_nonneg; lia).
  pose proof (pow2_pos (w - 1) ltac:(lia)). lia.
Qed.

Lemma wp_sign_correct blk s rf vx cls w mh d M wm x :
  0 <= nextv s < 2 ^ 32 - 1 -> class_width cls = Some w -> id vx < nextv s -> id mh < nextv s ->
  wrap w (rf (id mh)) = wrap w (Z.shiftr (x * M) wm) -> wrap w (rf (id vx)) = wrap w x ->
  wp blk (sign_correct blk cls mh (VRegOp vx) d M) s rf
    (yields s rf 1 w (wrap w (smul_corrected x d M wm))).
Proof.
  intros Hn Hc Hvx Hmh EH Ex. pose proof (class_width_cases _ _ Hc).
  unfold sign_correct, smul_corrected. cbv zeta.
  destruct ((0 <? d) && (M <? 0)) eqn:E1, ((d <? 0) && (0 <? M)) eqn:E2; [lia|..].
  - ilast. yield. by rewrite wrap_wrap, wrap_add_l, wrap_add_r by lia.
  - ilast. yield. by rewrite wrap_wrap, wrap_sub_l, wrap_sub_r by lia.
  - apply wp_ret. yield. done.
Qed.

Lemma wp_asr blk s rf cls w v c k :
  0 <= nextv s < 2 ^ 32 - 1 -> class_width cls = Some w -> id v < nextv s -> 0 <= k < w ->
  wrap w (rf (id v)) = wrap w c -> sword w c ->
  wp blk (if k =? 0 then mret v else magic_shift_imm blk AsrRI cls (VRegOp v) k) s rf
    (yields s rf 1 w (wrap w (Z.shiftr c k))).
Proof.
  intros Hn Hc Hv Hk Ev Hsc. pose proof (class_width_cases _ _ Hc).
  destruct (Z.eqb_spec k 0) as [->|].
  - apply wp_ret. yield. by rewrite Z.shiftr_0_r.
  - ilast. yield. by rewrite wrap_wrap, swrap_of_wrap by (auto; lia).
Qed.

Lemma wp_round blk s rf cls w v y :
  0 <= nextv s /\ nextv s + 3 < 2 ^ 32 -> class_width cls = Some w -> id v < nextv s ->
  wrap w (rf (id v)) = wrap w y -> sword w y ->
  wp blk (sb ← magic_shift_imm blk LsrRI cls (VRegOp v) (w - 1);
          magic_rr blk AddRR cls (VRegOp v) (VRegOp sb)) s rf
    (yields s rf 2 w (wrap w (y + if y <? 0 then 1 else 0))).
Proof.
  intros Hn Hc Hv Ev Hy. pose proof (class_width_cases _ _ Hc).
  istep. ilast. yield. rewrite wrap_wrap by lia. apply round_toward_zero; [lia|done].
Qed.

Section Signed.
Context (blk : Block) (s : InstructionSelector) (rf : regs) (vx : VReg).
Context (Hroom : 0 <= nextv s /\ nextv s + 16 < 2 ^ 32) (Hvx : id vx < nextv s).
Context (d : Z) (m : MagicS) (Hs : 0 <= sshift m).

Lemma wp_smull_w32 (x := swrap 32 (rf (id vx))) :
  sword 32 d -> sword 32 (smagic m) -> smagic_band_holds d m W32 = true ->
  wp blk (smull_w32_quotient blk (VRegOp vx) d m) s rf
    (yields s rf 10 32 (wrap 32 (Z.quot x d))).
Proof.
  intros Hd Hm Hb. assert (Hx : sword 32 x) by (apply swrap_range; lia).
  assert (Ex : wrap 32 (rf (id vx)) = wrap 32 x) by (subst x; by rewrite wrap_swrap by lia).
  destruct (smagic_band_steps d x m W32 Hd Hm Hs Hb Hx) as (Hsw & Hc & Hy & Hq).
  cbn [bits] in *. rewrite <- Hq. unfold smull_w32_quotient.
  set (y := Z.shiftr (smul_corrected x d (smagic m) 32) (sshift m)) in *.
  apply wp_bind. yields_with (wp_magic_mat blk I32 32).
  intros mm s1 rf1 (n1 & F1 & N1 & I1 & V1 & O1).
  rewrite (swrap_small 32 (smagic m)) in V1 by (auto; lia).
  istep. istep. apply wp_bind. eapply wp_mono.
  { apply (wp_sign_correct _ _ _ _ _ 32 _ _ _ 32 x); cbn [id]; frames; try lia; [done| |by reads].
    reads. rewrite !swrap_of_wrap, wrap_wrap, high_half by (auto; lia). done. }
  intros cr s2 rf2 (n2 & F2 & N2 & I2 & V2 & O2). apply wp_bind.
  yields_with (wp_asr blk s2 rf2 Gpr32 32 cr (smul_corrected x d (smagic m) 32)).
  intros sh s3 rf3 (n3 & F3 & N3 & I3 & V3 & O3).
  tail_yields 8 (wp_round blk s3 rf3 Gpr32 32 sh y). done.
Qed.

Lemma wp_smagic64 (width : MagicWidth) (v64 : VReg)
    (is_32 := match width with W32 => true | W64 => false end) (w := bits width)
    (x := swrap w (rf (id vx))) :
  sword w d -> sword w (smagic m) -> smagic_band_holds d m width = true ->
  id v64 < nextv s -> wrap 64 (rf (id v64)) = wrap 64 x ->
  wp blk (smagic_quotient64 blk is_32 (VRegOp v64) d m) s rf
    (yields s rf 10 w (wrap w (Z.quot x d))).
Proof.
  intros Hd Hm Hb Hv64 Ex. pose proof (bits_range width) as Hbw. fold w in Hbw.
  assert (Hx : sword w x) by (apply swrap_range; lia).
  destruct (smagic_band_steps d x m width Hd Hm Hs Hb Hx) as (Hsw & Hc & Hy & Hq).
  fold w in Hsw, Hc, Hy. rewrite <- Hq. clear Hq. unfold smagic_quotient64.
  set (y := Z.shiftr (smul_corrected x d (smagic m) (bits width)) (sshift m)) in *.
  assert (Hmm : sword 64 (smagic m)) by (apply (sword_mono w); [lia|done]).
  apply wp_bind. yields_with (wp_magic_mat blk I64 64).
  intros mm s1 rf1 (n1 & F1 & N1 & I1 & V1 & O1).
  (* the signed high half *)
  apply wp_bind. eapply (wp_mono _ _ _ _ (yields s1 rf1 2 64 (wrap 64 (Z.shiftr (x * smagic m) w)))).
  { pose proof (smul_range w x (smagic m) ltac:(lia) Hx Hm) as Hp.
    subst is_32. destruct width; cbn [bits] in *.
    - istep. ilast. yield.
      rewrite wrap_mul_l, wrap_mul_r, !wrap_wrap, swrap_of_wrap by (auto; lia). done.
    - ilast. yield. rewrite !swrap_of_wrap, wrap_wrap by (auto; lia). done. }
  intros hi s2 rf2 (n2 & F2 & N2 & I2 & V2 & O2). apply wp_bind. eapply wp_mono.
  { apply (wp_sign_correct _ _ _ _ _ 64 _ _ _ w x); cbn [id]; frames; try lia; [done|by reads]. }
  intros cr s3 rf3 (n3 & F3 & N3 & I3 & V3 & O3). apply wp_bind.
  assert (Hc64 : sword 64 (smul_corrected x d (smagic m) w)) by (apply (sword_mono w); [lia|done]).
  yields_with (wp_asr blk s3 rf3 Gpr64 64 cr (smul_corrected x d (smagic m) w)).
  intros sh s4 rf4 (n4 & F4 & N4 & I4 & V4 & O4). subst is_32. destruct width; cbn [bits] in *.
  - apply wp_bind. yields_with (wp_narrow blk true).
    intros qw s5 rf5 (n5 & F5 & N5 & I5 & V5 & O5).
    assert (V5' : wrap 32 (rf5 (id qw)) = wrap 32 y).
    { rewrite V5, <- (wrap_wrap_le 32 64), V4, wrap_wrap_le by lia. done. }
    tail_yields 8 (wp_round blk s5 rf5 Gpr32 32 qw y). done.
  - tail_yields 8 (wp_round blk s4 rf4 Gpr64 64 sh y). done.
Qed.

End Signed.

(** *** Powers of two *)

(** The bias [2^k - 1] of a negative dividend. *)
Lemma pow2_bias (w k x : Z) :
  1 <= k < w -> sword w x ->
  Z.shiftr (wrap w (Z.shiftr x (k - 1))) (w - k) = if x <? 0 then 2 ^ k - 1 else 0.
Proof.
  intros Hk Hx. unfold sword in Hx. rewrite !Z.shiftr_div_pow2 by lia.
  pose proof (pow2_pos (k - 1) ltac:(lia)). pose proof (pow2_pos (w - k) ltac:(lia)).
  assert (E1 : 2 ^ (w - 1) = 2 ^ (k - 1) * 2 ^ (w - k)) by (rewrite <- pow2_split by lia; f_equal; lia).
  assert (E2 : 2 ^ w = 2 ^ k * 2 ^ (w - k)) by (rewrite <- pow2_split by lia; f_equal; lia).
  pose proof (pow2_half w ltac:(lia)) as Eh.
  assert (Hn : - 2 ^ (w - k) <= x / 2 ^ (k - 1) < 2 ^ (w - k))
    by (split; [apply Z.div_le_lower_bound|apply Z.div_lt_upper_bound]; lia).
  destruct (Z.ltb_spec x 0).
  - assert (x / 2 ^ (k - 1) < 0) by (apply Z.div_lt_upper_bound; lia).
    rewrite (wrap_eqmod w _ (x / 2 ^ (k - 1) + 2 ^ w) (-1)) by lia.
    assert (2 ^ (w - k) < 2 ^ w) by (apply pow2_lt; lia).
    rewrite wrap_small by (unfold uword; lia). apply div_eq_between; lia.
  - assert (0 <= x / 2 ^ (k - 1)) by (apply Z.div_pos; lia).
    assert (2 ^ (w - k) < 2 ^ w) by (apply pow2_lt; lia).
    rewrite wrap_small by (unfold uword; lia). apply Z.div_small. lia.
Qed.

Lemma pow2_round (k x : Z) :
  0 <= k -> (x + if x <? 0 then 2 ^ k - 1 else 0) / 2 ^ k = Z.quot x (2 ^ k).
Proof.
  intros Hk. pose proof (pow2_pos k Hk). destruct (Z.ltb_spec x 0).
  - rewrite <- (Z.opp_involutive x) at 2. rewrite Z.quot_opp_l, Z.quot_div_nonneg by lia.
    pose proof (Z.div_mod (- x) (2 ^ k) ltac:(lia)).
    pose proof (Z.mod_pos_bound (- x) (2 ^ k) ltac:(lia)).
    apply div_eq_between; [lia|]. nia.
  - rewrite Z.add_0_r. symmetry. apply Z.quot_div_nonneg; lia.
Qed.

Lemma wp_pow2_unsigned blk s rf vx is_32 k ds (w := if is_32 : bool then 32 else 64) :
  0 <= nextv s < 2 ^ 32 - 1 -> id vx < nextv s -> 0 <= k < w ->
  wp blk (pow2_quotient blk false is_32 (VRegOp vx) k ds) s rf
    (yields s rf 10 w (wrap w (rf (id vx)) / 2 ^ k)).
Proof.
  intros Hn Hvx Hk. unfold pow2_quotient. cbn [negb].
  assert (Hc : class_width (if is_32 then Gpr32 else Gpr64) = Some w) by (by destruct is_32).
  assert (Hw : 0 <= w) by (subst w; destruct is_32; lia).
  ilast. yield. rewrite wrap_shiftr, Z.shiftr_div_pow2 by lia. done.
Qed.

Lemma wp_pow2_signed blk s rf vx is_32 k d (w := if is_32 : bool then 32 else 64)
    (x := swrap w (rf (id vx))) :
  0 <= nextv s /\ nextv s + 16 < 2 ^ 32 -> id vx < nextv s -> 1 <= k < w ->
  d = 2 ^ k \/ d = - 2 ^ k ->
  wp blk (pow2_quotient blk true is_32 (VRegOp vx) k d) s rf
    (yields s rf 10 w (wrap w (Z.quot x d))).
Proof.
  intros Hn Hvx Hk Hd. unfold pow2_quotient. cbn [negb]. fold w.
  assert (Hc : class_width (if is_32 then Gpr32 else Gpr64) = Some w) by (by destruct is_32).
  assert (Hw : w = 32 \/ w = 64) by (subst w; destruct is_32; lia).
  assert (Hx : sword w x) by (apply swrap_range; lia).
  assert (Ex : wrap w (rf (id vx)) = wrap w x) by (subst x; by rewrite wrap_swrap by lia).
  set (b := if x <? 0 then 2 ^ k - 1 else 0). pose proof (pow2_pos k ltac:(lia)).
  assert (Hb : sword w (x + b)).
  { unfold sword in *. pose proof (pow2_le k (w - 1) ltac:(lia)).
    subst b. destruct (Z.ltb_spec x 0); lia. }
  pose proof (pow2_round k x ltac:(lia)) as Eq. fold b in Eq.
  istep. istep. istep. apply wp_bind.
  eapply (wp_mono _ _ _ _ (yields s rf 4 w (wrap w (Z.quot x (2 ^ k))))).
  { ilast. yield. rewrite !wrap_wrap, (swrap_of_wrap w x), pow2_bias by (auto; lia). fold b.
    rewrite wrap_add_r, wrap_add_l, swrap_of_wrap, <- Eq, Z.shiftr_div_pow2 by (auto; lia).
    done. }
  intros q s1 rf1 (n1 & F1 & N1 & I1 & V1 & O1).
  destruct Hd as [-> | ->].
  - destruct (Z.ltb_spec (2 ^ k) 0); [lia|]. apply wp_ret. yield. done.
  - destruct (Z.ltb_spec (- 2 ^ k) 0); [|lia]. ilast. yield.
    rewrite wrap_wrap, Z.quot_opp_r, wrap_sub_r by lia. done.
Qed.

(** *** The remainder tail and the result binding *)

Lemma mersenne_form_spec (disabled : bool) (a w k : Z) (is_minus : bool) :
  mersenne_form disabled a w = Some (k, is_minus) ->
  1 <= k < w /\ a = if is_minus then 2 ^ k - 1 else 2 ^ k + 1.
Proof.
  unfold mersenne_form. destruct (disabled || (a <? 3)); [done|].
  destruct (negb _ && is_power_of_two (a + 1)) eqn:E1.
  - apply andb_prop in E1 as [_ E1]. apply power_of_two_spec in E1 as [E1 _].
    destruct ((1 <=? _) && _) eqn:Ek; [|done]. intros [= <- <-]. lia.
  - destruct (is_power_of_two (a - 1)) eqn:E2; [|done].
    apply power_of_two_spec in E2 as [E2 _].
    destruct ((1 <=? _) && _) eqn:Ek; [|done]. intros [= <- <-]. lia.
Qed.

Lemma wp_mersenne blk s rf vx q opw w k is_minus neg x Qt :
  0 <= nextv s /\ nextv s + 16 < 2 ^ 32 -> id vx < nextv s -> id q < nextv s ->
  class_width opw = Some w -> 1 <= k < w ->
  wrap w (rf (id vx)) = wrap w x -> wrap w (rf (id q)) = wrap w Qt ->
  wp blk (mersenne_remainder blk opw neg (VRegOp vx) q k is_minus) s rf
    (yields s rf 2 w (wrap w (x - Qt * ((if neg : bool then -1 else 1) *
                                        (if is_minus : bool then 2 ^ k - 1 else 2 ^ k + 1))))).
Proof.
  intros Hn Hvx Hq Hc Hk Ex Eq. pose proof (class_width_cases _ _ Hc) as Hw.
  unfold mersenne_remainder, emit_rr_shift. apply wp_bind, wp_new_vreg; [lia|]. intros s1 F1.
  destruct is_minus, neg; apply wp_bind, wp_new_vreg; try (frames; lia); intros s2 F2;
    apply wp_bind; (eapply wp_emit_dst; [eassumption| |]);
    try (cbn [alu rd id]; guards; cbn [mbind option_bind]; reflexivity);
    cbn [id]; intros s3 rf3 F3 V3 O3; apply wp_bind;
    (eapply wp_emit_dst; [eassumption| |]);
    try (cbn [alu rd id]; guards; cbn [mbind option_bind]; reads; reflexivity);
    cbn [id]; intros s4 rf4 F4 V4 O4; apply wp_ret; yield; drop_wraps.
Qed.

(** What the source program asks for: quotient or remainder of the [w]-bit
    readings of the dividend word [X] and of the constant [c]. *)
Definition div_spec (is_signed is_rem : bool) (w X c : Z) : Z :=
  if is_signed then
    let x := swrap w X in let d := swrap w c in
    wrap w (if is_rem then Z.rem x d else Z.quot x d)
  else
    let x := wrap w X in let d := wrap w c in
    if is_rem then x mod d else x / d.

(** The lowering bound [r] to a register holding [v], touched no value binding
    but [r]'s, and kept every register allocated before. *)
Definition defines (s : InstructionSelector) (rf : regs) (r : Value) (w v : Z)
    (b : bool) (s' : InstructionSelector) (rf' : regs) : Prop :=
  b = true /\ exists q, value_map s' = <[r := VRegOp q]> (value_map s) /\
    iconst_origins s' = iconst_origins s /\ current_block s' = current_block s /\
    nextv s <= nextv s' /\ id q < nextv s' /\ wrap w (rf' (id q)) = v /\
    forall i, i < nextv s -> rf' i = rf i.

Lemma wp_define_value blk r q ty w v s rf s0 rf0 n :
  frame s0 s n -> nextv s0 <= n -> id q < n -> wrap w (rf (id q)) = v ->
  (forall i, i < nextv s0 -> rf i = rf0 i) ->
  wp blk (define_value r (VRegOp q) ty) s rf (fun _ => defines s0 rf0 r w v true).
Proof.
  intros F N I V O. eexists tt, _, [], rf. split; [reflexivity|]. split_and!; auto.
  - unfold code. cbn. by rewrite app_nil_r.
  - split; [done|]. exists q. cbn. rewrite (frame_next _ _ _ F).
    destruct (frame_fields _ _ _ F) as (E1 & ? & E2 & E3 & ?). rewrite E1, E2, E3.
    split_and!; auto.
Qed.

Lemma wp_define blk r q ty w v s rf s0 rf0 n :
  frame s0 s n -> nextv s0 <= n -> id q < n -> wrap w (rf (id q)) = v ->
  (forall i, i < nextv s0 -> rf i = rf0 i) ->
  wp blk (_ ← define_value r (VRegOp q) ty; mret true) s rf (defines s0 rf0 r w v).
Proof.
  intros F N I V O. apply wp_bind. eapply wp_mono; [by eapply wp_define_value|].
  intros ? s' rf' H. by apply wp_ret.
Qed.

Lemma defines_trans s s1 rf rf1 n r w v b s' rf' :
  frame s s1 n -> nextv s <= n -> (forall i, i < nextv s -> rf1 i = rf i) ->
  defines s1 rf1 r w v b s' rf' -> defines s rf r w v b s' rf'.
Proof.
  intros F N O (Hb & q & E1 & E2 & E3 & N' & I & V & O'). split; [done|]. exists q.
  destruct (frame_fields _ _ _ F) as (-> & _ & -> & -> & _) in E1, E2, E3 |- *.
  rewrite (frame_next _ _ _ F) in *. split_and!; auto; [lia|].
  intros i Hi. rewrite O', O by lia. done.
Qed.

Section Finish.
Context (disabled : bool) (blk : Block) (s : InstructionSelector) (rf : regs) (vx q : VReg).
Context (Hroom : 0 <= nextv s /\ nextv s + 16 < 2 ^ 32).
Context (Hvx : id vx < nextv s) (Hq : id q < nextv s).
Context (is_rem is_signed : bool) (width : MagicWidth) (c r : Z).
Let w := bits width.
Let is_32 := match width with W32 => true | W64 => false end.
Let ty := match width with W32 => I32 | W64 => I64 end.
Let ds := if is_32 then swrap 32 c else c.
Let du := if is_32 then wrap 32 c else wrap 64 c.
Let d := if is_signed then swrap w c else wrap w c.
Context (Hc : sword 64 c).

Lemma finish_divisor :
  (if is_32 then swrap 32 ds else ds) = swrap w c /\
  (if is_32 then Z.land du 0xffffffff else du) = wrap w c.
Proof.
  subst w is_32 ds du. destruct width; cbn [bits].
  - rewrite (swrap_small 32 (swrap 32 c)) by (try apply swrap_range; lia). split; [done|].
    change 0xffffffff with (Z.ones 32). rewrite Z.land_ones by lia. apply Zmod_mod.
  - by rewrite swrap_small by (auto; lia).
Qed.

Lemma wp_finish x Qt :
  wrap w (rf (id vx)) = wrap w x -> wrap w (rf (id q)) = wrap w Qt ->
  wp blk (finish_const_div_rem disabled blk is_rem is_signed is_32 ty r (VRegOp vx) q ds du) s rf
    (defines s rf r w (wrap w (if is_rem then x - Qt * d else Qt))).
Proof.
  intros Ex EQ. unfold finish_const_div_rem. destruct is_rem; cbn [negb].
  2: { eapply wp_define; auto; [apply frame_refl|lia|done]. }
  assert (Hcls : class_width (reg_class_for_type ty) = Some w)
    by (subst ty w; by destruct width).
  destruct finish_divisor as [Es Eu]. rewrite Es, Eu.
  destruct (mersenne_form _ _ _) as [[k is_minus]|] eqn:Em.
  - apply mersenne_form_spec in Em as [Hk Ea]. apply wp_bind. eapply wp_mono.
    { apply (wp_mersenne blk s rf vx q _ w _ _ _ x Qt); auto.
      subst w is_32. destruct width; cbn in *; lia. }
    rewrite <- Ea. intros t s1 rf1 (n1 & F1 & N1 & I1 & V1 & O1).
    eapply wp_define; [eassumption|lia|lia| |done]. rewrite V1. do 3 f_equal.
    subst d. destruct is_signed; cbn [andb]; [destruct (Z.ltb_spec (swrap w c) 0)|]; lia.
  - apply wp_bind. eapply wp_mono.
    { apply (wp_magic_mat blk ty w); auto; [lia|subst ty w; by destruct width|].
      subst is_32 ds du. destruct width, is_signed; auto; try (apply swrap_i64; lia).
      pose proof (wrap_range 32 (wrap 32 c) ltac:(lia)). unfold uword, sword in *. lia. }
    intros cc s1 rf1 (n1 & F1 & N1 & I1 & V1 & O1).
    assert (Ed : wrap w (rf1 (id cc)) = wrap w d).
    { rewrite V1. clear -width. subst w is_32 ds du d.
      destruct width, is_signed; cbn [bits]; rewrite ?wrap_swrap by lia;
        rewrite ?wrap_wrap by lia; rewrite ?wrap_swrap by lia; done. }
    pose proof (class_width_cases _ _ Hcls). apply wp_bind, wp_new_vreg; [frames; lia|].
    intros s2 F2. apply wp_bind. eapply wp_emit_dst; [eassumption| |].
    { cbn [alu rd mbind option_bind]. reads. reflexivity. }
    cbn [id]. intros s3 rf3 F3 V3 O3.
    eapply wp_define; [close_frame|frames; lia|cbn [id]; frames; lia| |intros; reads; done].
    cbn [id]. rewrite V3, wrap_wrap by lia. drop_wraps.
Qed.

End Finish.

(** *** The guards of the magic paths *)

Lemma usable_magicu_spec (d : Z) (width : MagicWidth) (m : MagicU) (w := bits width) :
  1 < d < 2 ^ w -> usable_magicu d width = Some m ->
  uword w (magic m) /\ 0 <= shift m <= w /\ (add m = true -> 1 <= shift m) /\
  (add m = false -> shift m < w) /\
  forall x, uword w x -> eval_magic x m width = x / d.
Proof.
  intros Hd. pose proof (bits_range width) as Hbw. fold w in Hbw. unfold usable_magicu.
  destruct (magicu_finds d width Hd) as (m' & -> & Hm & Hs & Ha & _).
  destruct (band_holds d m' width) eqn:Hb; [|done]. cbn [negb].
  destruct (add m' && _); [done|]. intros [= <-]. split_and!; auto; try lia.
  - intros Hna. apply band_holds_iff in Hb as (_ & Hlo & _); auto; try lia.
    unfold mult_of, uword in *. fold w in Hlo, Hm. rewrite Hna in Hlo.
    assert (magic m' * d < 2 ^ w * 2 ^ w) by (apply Z.mul_lt_mono_nonneg; lia).
    rewrite <- pow2_split in H by lia.
    destruct (Z_lt_le_dec (shift m') w) as [|Hge]; [done|].
    assert (2 ^ (w + w) <= 2 ^ (w + shift m')) by (apply pow2_le; lia). lia.
  - intros x. apply band_holds_sound; auto; lia.
Qed.

(** The only divisor an unsigned path declines needs the shift 64. *)
Lemma usable_magicu_none (d : Z) (width : MagicWidth) :
  1 < d < 2 ^ bits width -> usable_magicu d width = None ->
  width = W64 /\ exists m, magicu d width = Some m /\ shift m = 64.
Proof.
  intros Hd. pose proof (bits_range width) as Hbw. unfold usable_magicu.
  destruct (magicu_finds d width Hd) as (m & E & Hm & Hs & Ha & Hb). rewrite E.
  destruct (Z_lt_le_dec (shift m) 64) as [Hlt|Hge].
  - rewrite (Hb Hlt). cbn [negb]. destruct (add m) eqn:Ea; [|done].
    specialize (Ha eq_refl). destruct (Z.eqb_spec (shift m) 0); [lia|done].
  - intros _. destruct width; cbn [bits] in Hs; [lia|]. split; [done|].
    exists m. split; [done|lia].
Qed.

Lemma usable_magics_spec (d : Z) (width : MagicWidth) :
  sword (bits width) d -> 0 < Z.abs d -> is_power_of_two (Z.abs d) = false ->
  exists m, usable_magics d width = Some m /\ sword (bits width) (smagic m) /\
    0 <= sshift m /\ smagic_band_holds d m width = true.
Proof.
  intros Hd H0 Hnp. destruct (magics_finds d width Hd) as (m & E & Hm & Hs & Hb).
  { by apply not_power_of_two_land. }
  exists m. unfold usable_magics. rewrite E, Hb. cbn [negb]. split_and!; auto; lia.
Qed.

Lemma yields_weaken s rf k w' v v' q s1 rf1 :
  k <= 12 -> v = v' -> yields s rf k w' v q s1 rf1 -> yields s rf 12 w' v' q s1 rf1.
Proof. intros Hk -> (n & F & N & I & V & O). exists n. split_and!; auto; lia. Qed.

Lemma wp_bind_assoc {A B C} blk (m : Sel A) (k1 : A -> Sel B) (k2 : B -> Sel C) s rf Q :
  wp blk ((m ≫= k1) ≫= k2) s rf Q -> wp blk (m ≫= fun a => k1 a ≫= k2) s rf Q.
Proof.
  unfold wp, mbind, Sel_bind. by destruct (m s) as [[a|e|] s1].
Qed.

(** ** The lowering is correct *)

(** Nothing was bound; at most dead code was appended. *)
Definition declines (s : InstructionSelector) (rf : regs) (b : bool)
    (s' : InstructionSelector) (rf' : regs) : Prop :=
  b = false /\ exists n, frame s s' n /\ nextv s <= n <= nextv s + 1 /\
    forall i, i < nextv s -> rf' i = rf i.

Section Select_correct.
Context (disabled : bool) (blk : Block) (s : InstructionSelector) (rf : regs) (vx : VReg).
Context (Hroom : 0 <= nextv s /\ nextv s + 32 < 2 ^ 32) (Hvx : id vx < nextv s).
Context (is_signed is_rem : bool) (width : MagicWidth) (c r : Z) (Hc : sword 64 c).
Let w := bits width.
Let is_32 := match width with W32 => true | W64 => false end.
Let ty := match width with W32 => I32 | W64 => I64 end.
Let ds := if is_32 then swrap 32 c else c.
Let du := if is_32 then wrap 32 c else wrap 64 c.
Context (Hnt : if is_signed then 1 < Z.abs (swrap w c) else 1 < wrap w c).

Let x := if is_signed then swrap w (rf (id vx)) else wrap w (rf (id vx)).
Let d := if is_signed then swrap w c else wrap w c.
Let quotient := if is_signed then Z.quot x d else x / d.
Let spec := div_spec is_signed is_rem w (rf (id vx)) c.

Lemma div_spec_eq :
  spec = wrap w (if is_rem then x - quotient * d else quotient) /\
  wrap w (rf (id vx)) = wrap w x.
Proof.
  pose proof (bits_range width) as Hbw. fold w in Hbw.
  pose proof (wrap_range w (rf (id vx)) ltac:(lia)) as HX.
  pose proof (wrap_range w c ltac:(lia)) as HD.
  subst spec quotient x d. unfold div_spec. destruct is_signed.
  - split; [|by rewrite wrap_swrap by lia]. destruct is_rem; f_equal.
    pose proof (Z.quot_rem' (swrap w (rf (id vx))) (swrap w c)). lia.
  - rewrite wrap_wrap by lia. split; [|done]. unfold uword in *.
    set (X := wrap w (rf (id vx))) in *. set (D := wrap w c) in *. symmetry.
    destruct is_rem; (rewrite wrap_small; [|unfold uword]).
    + pose proof (Z.div_mod X D ltac:(lia)). lia.
    + pose proof (Z.div_mod X D ltac:(lia)). pose proof (Z.mod_pos_bound X D ltac:(lia)). lia.
    + done.
    + split; [apply Z.div_pos; lia|]. apply Z.le_lt_trans with X; [|lia].
      apply Z.div_le_upper_bound; nia.
Qed.

Lemma wp_finish_after q s1 rf1 :
  yields s rf 12 w (wrap w quotient) q s1 rf1 ->
  wp blk (finish_const_div_rem disabled blk is_rem is_signed is_32 ty r (VRegOp vx) q ds du)
    s1 rf1 (defines s rf r w spec).
Proof.
  intros (n1 & F1 & N1 & I1 & V1 & O1). destruct div_spec_eq as [-> Ex].
  eapply wp_mono.
  { apply (wp_finish disabled blk s1 rf1 vx q) with (x := x) (Qt := quotient); frames; auto; try lia.
    by rewrite O1 by lia. }
  intros b s' rf' D. eapply defines_trans; [exact F1|lia|done|exact D].
Qed.

Lemma divisor_readings : sword w ds /\ (is_signed = true -> ds = d) /\ (is_signed = false -> du = d).
Proof.
  subst ds du d w is_32. destruct width, is_signed; cbn [bits]; split_and!; auto; try done;
    try (apply swrap_range; lia); by rewrite swrap_small by (auto; lia).
Qed.

(** What [select_const_div_rem] guarantees. *)
Let post (b : bool) (s' : InstructionSelector) (rf' : regs) : Prop :=
  defines s rf r w spec b s' rf' \/
  declines s rf b s' rf' /\ is_signed = false /\ width = W64 /\
  exists m, magicu (wrap w c) width = Some m /\ shift m = 64.

(** Finish from any state reached after the quotient was computed. *)
Lemma wp_quotient_finish (m : Sel VReg) s1 rf1 :
  wp blk m s1 rf1 (yields s rf 12 w (wrap w quotient)) ->
  wp blk (q ← m;
          finish_const_div_rem disabled blk is_rem is_signed is_32 ty r (VRegOp vx) q ds du)
    s1 rf1 post.
Proof.
  intros H. apply wp_bind. eapply wp_mono; [exact H|]. intros q s2 rf2 Y.
  eapply wp_mono; [by apply wp_finish_after|]. intros. by left.
Qed.

Lemma wp_pow2_case :
  is_power_of_two (if is_signed then Z.abs ds else du) = true ->
  wp blk (pow2_quotient blk is_signed is_32 (VRegOp vx)
            (trailing_zeros (if is_signed then Z.abs ds else du)) ds) s rf
    (yields s rf 12 w (wrap w quotient)).
Proof.
  destruct divisor_readings as (Hds & Es & Eu). pose proof (bits_range width) as Hbw.
  fold w in Hbw. assert (Ew : w = if is_32 then 32 else 64) by (subst w is_32; by destruct width).
  pose proof (wrap_range w c ltac:(lia)) as HD.
  intros [Ep Hk]%power_of_two_spec. subst quotient x d. destruct is_signed.
  - specialize (Es eq_refl). rewrite Es in *.
    set (k := trailing_zeros _) in *. unfold sword in Hds.
    assert (1 <= k < w).
    { split.
      - assert (k <> 0) by (intros E; rewrite E in Ep; lia). lia.
      - destruct (Z_lt_le_dec k w); [done|]. pose proof (pow2_le w k ltac:(lia)).
        pose proof (pow2_half w ltac:(lia)). pose proof (pow2_pos w). lia. }
    eapply wp_mono.
    + apply (wp_pow2_signed blk s rf vx is_32 k (swrap w c)); rewrite <- ?Ew; auto; lia.
    + rewrite <- Ew. intros q s1 rf1. apply yields_weaken; [lia|done].
  - specialize (Eu eq_refl). rewrite Eu in *. set (k := trailing_zeros _) in *.
    unfold uword in HD.
    assert (k < w).
    { destruct (Z_lt_le_dec k w); [done|]. pose proof (pow2_le w k ltac:(lia)). lia. }
    eapply wp_mono.
    + apply (wp_pow2_unsigned blk s rf vx is_32 k ds); rewrite <- ?Ew; auto; lia.
    + rewrite <- Ew. intros q s1 rf1. apply yields_weaken; [lia|].
      rewrite Ep. symmetry. apply wrap_small. rewrite <- Z.shiftr_div_pow2 by lia.
      apply uword_shr; [lia|]. apply wrap_range. lia.
Qed.

Lemma unsigned_quotient m :
  is_signed = false -> usable_magicu du width = Some m ->
  uword w (magic m) /\ 0 <= shift m <= w /\ (add m = true -> 1 <= shift m) /\
  (add m = false -> shift m < w) /\
  eval_magic (wrap w (rf (id vx))) m width = wrap w quotient.
Proof.
  intros Eu Hm. destruct divisor_readings as (_ & _ & Ed). rewrite (Ed Eu) in Hm.
  pose proof (bits_range width) as Hbw. fold w in Hbw.
  pose proof (wrap_range w c ltac:(lia)) as HD.
  pose proof (wrap_range w (rf (id vx)) ltac:(lia)) as HX.
  clear Ed. subst quotient x d. rewrite Eu in *. unfold uword in HD.
  destruct (usable_magicu_spec (wrap w c) width m) as (H1 & H2 & H3 & H4 & H5);
    [fold w; lia|done|]. split_and!; auto; try lia. rewrite H5 by done.
  symmetry. apply wrap_small. unfold uword in *.
  split; [apply Z.div_pos; lia|]. apply Z.le_lt_trans with (wrap w (rf (id vx))); [|lia].
  apply Z.div_le_upper_bound; nia.
Qed.

Lemma signed_quotient_magic :
  is_signed = true -> is_power_of_two (Z.abs ds) = false ->
  exists m, usable_magics ds width = Some m /\ sword w (smagic m) /\ 0 <= sshift m /\
    smagic_band_holds ds m width = true /\ quotient = Z.quot (swrap w (rf (id vx))) ds.
Proof.
  intros Es Hnp. destruct divisor_readings as (Hds & Ed & _). specialize (Ed Es).
  destruct (usable_magics_spec ds width) as (m & H1 & H2 & H3 & H4); auto.
  { rewrite Ed. subst d. rewrite Es in *. lia. }
  exists m. split_and!; auto. subst quotient x. rewrite Ed, Es. done.
Qed.

(** The widened dividend of the 64-bit path. *)
Lemma wp_widen :
  wp blk (if is_32 then d0 ← emit_unary blk (if is_signed then Sxtw else Uxtw) Gpr64 (VRegOp vx);
                        mret (VRegOp d0) else mret (VRegOp vx)) s rf
    (fun op s1 rf1 => exists v64, op = VRegOp v64 /\
       yields s rf 1 64 (wrap 64 x) v64 s1 rf1).
Proof.
  pose proof (proj2 div_spec_eq) as Ex. subst is_32 x w. destruct width; cbn [bits] in *.
  - clear Ex. destruct is_signed; istep; apply wp_ret; eexists; (split; [reflexivity|]); yield.
    + by rewrite wrap_wrap, swrap_wrap by lia.
    + done.
  - apply wp_ret. exists vx. split; [done|]. exists (nextv s).
    split_and!; auto using frame_refl; lia.
Qed.

Lemma wp_unsigned64 v64 s1 rf1 m :
  is_signed = false -> usable_magicu du width = Some m -> yields s rf 1 64 (wrap 64 x) v64 s1 rf1 ->
  wp blk (q64 ← umagic_quotient64 blk is_32 (VRegOp vx) (VRegOp v64) m; narrow is_32 blk q64)
    s1 rf1 (yields s rf 12 w (wrap w quotient)).
Proof.
  intros Eu Hm (n1 & F1 & N1 & I1 & V1 & O1). pose proof (bits_range width) as Hbw. fold w in Hbw.
  destruct (unsigned_quotient m Eu Hm) as (Hr & Hs & Ha & Hna & Hev).
  pose proof (wrap_range w (rf (id vx)) ltac:(lia)) as HX.
  apply wp_bind. eapply wp_mono.
  { apply (wp_umagic64 blk s1 rf1 vx m) with (v64 := v64); frames; auto; try lia.
    rewrite V1, O1 by lia. subst x. rewrite Eu.
    apply wrap_small. pose proof (pow2_le w 64 ltac:(lia)). unfold uword in HX |- *. fold w. lia. }
  intros q s2 rf2 (n2 & F2 & N2 & I2 & V2 & O2).
  rewrite (O1 (id vx) Hvx) in V2. fold w in V2.
  rewrite Hev in V2.
  assert (Ew : w = if is_32 then 32 else 64) by (subst w is_32; by destruct width).
  tail_yields 11 (wp_narrow blk is_32 q w). by rewrite V2.
Qed.

Lemma wp_signed64 v64 s1 rf1 m :
  is_signed = true -> sword w (smagic m) -> 0 <= sshift m ->
  smagic_band_holds ds m width = true -> quotient = Z.quot (swrap w (rf (id vx))) ds ->
  yields s rf 1 64 (wrap 64 x) v64 s1 rf1 ->
  wp blk (q64 ← smagic_quotient64 blk is_32 (VRegOp v64) ds m; narrow is_32 blk q64)
    s1 rf1 (yields s rf 12 w (wrap w quotient)).
Proof.
  intros Es Hm Hsh Hb Hq (n1 & F1 & N1 & I1 & V1 & O1).
  pose proof (bits_range width) as Hbw. fold w in Hbw.
  apply wp_bind. eapply wp_mono.
  { apply (wp_smagic64 blk s1 rf1 vx) with (width := width) (v64 := v64); frames; auto; try lia.
    - apply divisor_readings.
    - rewrite V1, O1 by lia. subst x. by rewrite Es. }
  intros q s2 rf2 (n2 & F2 & N2 & I2 & V2 & O2). rewrite (O1 (id vx) Hvx) in V2.
  fold w in V2. rewrite <- Hq in V2.
  assert (Ew : w = if is_32 then 32 else 64) by (subst w is_32; by destruct width).
  tail_yields 11 (wp_narrow blk is_32 q w). by rewrite V2.
Qed.

Lemma unsigned_none :
  is_signed = false -> usable_magicu du width = None ->
  width = W64 /\ exists m, magicu (wrap w c) width = Some m /\ shift m = 64.
Proof.
  intros Eu. destruct divisor_readings as (_ & _ & Ed). rewrite (Ed Eu).
  pose proof (bits_range width) as Hbw. fold w in Hbw.
  pose proof (wrap_range w c ltac:(lia)) as HD. unfold uword in HD. clear Ed. subst d.
  rewrite Eu in *. apply usable_magicu_none. fold w. lia.
Qed.

Lemma wp_w32_case :
  width = W32 -> is_power_of_two (if is_signed then Z.abs ds else du) = false ->
  wp blk (if negb is_signed then
            match usable_magicu du width with
            | None => mret false
            | Some m => q32 ← umull_w32_quotient blk (VRegOp vx) m;
                finish_const_div_rem disabled blk is_rem is_signed is_32 ty r (VRegOp vx) q32 ds du
            end
          else
            match usable_magics ds width with
            | None => mret false
            | Some m => res ← smull_w32_quotient blk (VRegOp vx) ds m;
                finish_const_div_rem disabled blk is_rem is_signed is_32 ty r (VRegOp vx) res ds du
            end) s rf post.
Proof.
  intros EW Ep. assert (is_signed = true \/ is_signed = false) as [Es|Es]
    by (clear; destruct is_signed; auto).
  - replace (negb is_signed) with false by (by rewrite Es). rewrite Es in Ep.
    destruct (signed_quotient_magic Es Ep) as (m & -> & Hm & Hs & Hb & Hq).
    apply wp_quotient_finish. rewrite Hq. pose proof (proj1 divisor_readings) as Hds.
    revert Hm Hb Hds. subst w. rewrite EW. cbn [bits]. intros Hm Hb Hds.
    eapply wp_mono; [apply wp_smull_w32; auto; lia|].
    intros q s1 rf1. apply yields_weaken; [lia|done].
  - replace (negb is_signed) with true by (by rewrite Es).
    destruct (usable_magicu du width) as [m|] eqn:Hu.
    + destruct (unsigned_quotient m Es Hu) as (Hr & Hs & Ha & Hna & Hev).
      apply wp_quotient_finish. rewrite <- Hev.
      revert Hr Hs Hna. subst w. rewrite EW. cbn [bits]. intros Hr Hs Hna.
      eapply wp_mono; [apply wp_umull_w32; auto; lia|].
      intros q s1 rf1. apply yields_weaken; [lia|done].
    + destruct (unsigned_none Es Hu) as [EW' _]. congruence.
Qed.

Lemma wp_select :
  wp blk (select_const_div_rem disabled blk is_signed is_rem ty width (VRegOp vx) r ds du) s rf
    post.
Proof.
  unfold select_const_div_rem. fold is_32.
  destruct (is_power_of_two _) eqn:Ep; [by apply wp_quotient_finish, wp_pow2_case|].
  destruct (is_32 && negb disabled) eqn:E32.
  { apply wp_w32_case; [|done]. clear -E32. subst is_32. by destruct width. }
  apply wp_bind. eapply wp_mono; [apply wp_widen|]. intros op s1 rf1 (v64 & -> & Y).
  assert (is_signed = true \/ is_signed = false) as [Es|Es]
    by (clear; destruct is_signed; auto).
  - replace (negb is_signed) with false by (by rewrite Es). rewrite Es in Ep.
    destruct (signed_quotient_magic Es Ep) as (m & -> & Hm & Hs & Hb & Hq).
    by apply wp_bind_assoc, wp_quotient_finish, wp_signed64.
  - replace (negb is_signed) with true by (by rewrite Es).
    destruct (usable_magicu du width) as [m|] eqn:Hu.
    + by apply wp_bind_assoc, wp_quotient_finish, wp_unsigned64.
    + apply wp_ret. right. split; [|split; [done|by apply unsigned_none]].
      destruct Y as (n & F & N & _ & _ & O). split; [done|]. exists n. split_and!; auto; lia.
Qed.

End Select_correct.

(** ** End-to-end statements *)

Definition width_ty (width : MagicWidth) : Ty := match width with W32 => I32 | W64 => I64 end.

Definition trivial_divisor (is_signed : bool) (w c : Z) : bool :=
  if is_signed then (swrap w c =? 0) || (swrap w c =? 1) || (swrap w c =? -1)
  else wrap w c <=? 1.

Lemma wp_index {A} blk (l : list A) i a s rf Q :
  l !! i = Some a -> Q a s rf -> wp blk (index l i) s rf Q.
Proof. intros E HQ. unfold index. rewrite E. by apply wp_ret. Qed.

Lemma wp_use_value blk v op s rf Q :
  value_map s !! v = Some op -> Q op s rf -> wp blk (use_value v) s rf Q.
Proof.
  intros E HQ. unfold use_value. apply wp_bind, wp_gets. rewrite E. by apply wp_ret.
Qed.

Section End_to_end.
Context (disabled : bool) (blk : Block) (s : InstructionSelector) (rf : regs) (vx : VReg).
Context (inst : Instruction) (xv dv r : Value) (cty : Ty) (c : Z) (width : MagicWidth).
Context (Hargs : args inst !! 0%nat = Some xv /\ args inst !! 1%nat = Some dv).
Context (Hres : results inst !! 0%nat = Some r).
Context (Hroom : 0 <= nextv s /\ nextv s + 32 < 2 ^ 32).
Context (Hx : value_map s !! xv = Some (VRegOp vx)) (Hvx : id vx < nextv s).
Context (Hconst : iconst_origins s !! dv = Some (cty, c)) (Hc : sword 64 c).

(** The guard of the code. *)
Lemma trivial_guard (is_signed : bool) (is_32 := match width with W32 => true | W64 => false end) :
  (if is_signed then
      ((if is_32 then swrap 32 c else c) =? 0) || ((if is_32 then swrap 32 c else c) =? 1) ||
      ((if is_32 then swrap 32 c else c) =? -1)
    else (if is_32 then wrap 32 c else wrap 64 c) <=? 1) = trivial_divisor is_signed (bits width) c.
Proof.
  unfold trivial_divisor. subst is_32. destruct width; cbn [bits]; [done|]. by rewrite (swrap_small 64 c) by (auto; lia).
Qed.

Lemma try_select_trivial (is_signed is_rem : bool) : trivial_divisor is_signed (bits width) c = true ->
  try_select_const_div_rem disabled inst blk is_signed is_rem (width_ty width) s = (Ok false, s).
Proof.
  intros Ht. unfold try_select_const_div_rem.
  replace (match width_ty width with I32 => Some W32 | I64 => Some W64 | _ => None end)
    with (Some width) by (by destruct width). cbv zeta. rewrite <- trivial_guard in Ht. cbv zeta in Ht.
  unfold mbind, Sel_bind, index, gets. rewrite (proj2 Hargs). cbn -[bits wrap swrap]. by rewrite Hconst, Ht.
Qed.

Lemma wp_try_select (is_signed is_rem : bool) (w := bits width) :
  wp blk (try_select_const_div_rem disabled inst blk is_signed is_rem (width_ty width)) s rf
    (fun b s' rf' =>
       defines s rf r w (div_spec is_signed is_rem w (rf (id vx)) c) b s' rf' \/
       declines s rf b s' rf' /\
       (trivial_divisor is_signed w c = true \/
        is_signed = false /\ width = W64 /\
        exists m, magicu (wrap w c) width = Some m /\ shift m = 64)).
Proof.
  destruct Hargs as [Ha0 Ha1]. unfold try_select_const_div_rem.
  replace (match width_ty width with I32 => Some W32 | I64 => Some W64 | _ => None end)
    with (Some width) by (by destruct width). cbv zeta.
  apply wp_bind. eapply wp_index; [exact Ha1|]. apply wp_bind, wp_gets. rewrite Hconst.
  rewrite trivial_guard. fold w. destruct (trivial_divisor is_signed w c) eqn:Ed.
  { apply wp_ret. right. split; [|by left]. split; [done|]. exists (nextv s).
    split_and!; auto using frame_refl; lia. }
  apply wp_bind. eapply wp_index; [exact Ha0|].
  apply wp_bind. eapply wp_use_value; [exact Hx|].
  apply wp_bind. eapply wp_index; [exact Hres|].
  eapply wp_mono.
  { apply (wp_select disabled blk s rf vx) with (width := width) (c := c); auto.
    unfold trivial_divisor in Ed. fold w. destruct is_signed; lia. }
  cbv beta. intros b s' rf' [D|(D & E)]; [by left|right; auto].
Qed.

End End_to_end.

(** *** The hardware-divide fallback *)

Definition int_width (ty : Ty) : option Z :=
  match ty with I8 => Some 8 | I16 => Some 16 | I32 => Some 32 | I64 => Some 64 | _ => None end.

(** Width of the instruction an integer type is computed with. *)
Definition op_width (ty : Ty) : Z := if is_32bit ty then 32 else 64.

Definition reading (signed : bool) (w X : Z) : Z := if signed then swrap w X else wrap w X.

Lemma reading_range signed w wo X :
  1 <= w <= wo -> if signed : bool then sword wo (reading signed w X) else uword wo (reading signed w X).
Proof.
  intros Hw. unfold reading. destruct signed.
  - apply (sword_mono w); [lia|]. apply swrap_range. lia.
  - pose proof (wrap_range w X ltac:(lia)). pose proof (pow2_le w wo ltac:(lia)).
    unfold uword in *. lia.
Qed.

(** The operands as the divide sees them: registers holding the operation-width
    image of the typed readings. *)
Definition holds_operand (s : InstructionSelector) (rf : regs) (ty : Ty) (signed : bool)
    (w X : Z) (op : ISelOperand) : Prop :=
  exists v, op = VRegOp v /\ id v < nextv s /\
    wrap (op_width ty) (rf (id v)) = wrap (op_width ty) (reading signed w X).

Lemma wp_operand blk s rf ty signed w val v :
  0 <= nextv s < 2 ^ 32 - 1 -> int_width ty = Some w ->
  value_map s !! val = Some (VRegOp v) -> id v < nextv s ->
  wp blk (match ty with
          | I8 | I16 => extend_narrow_for_width_op val ty signed blk
          | _ => use_value val
          end) s rf
    (fun op s' rf' => holds_operand s' rf' ty signed w (rf (id v)) op /\
       exists n, frame s s' n /\ nextv s <= n <= nextv s + 1 /\
         forall i, i < nextv s -> rf' i = rf i).
Proof.
  intros Hn Hw Hv Hid.
  assert (Hplain : forall wo, wo = 32 \/ wo = 64 -> op_width ty = wo -> w = wo ->
    wp blk (use_value val) s rf
      (fun op s' rf' => holds_operand s' rf' ty signed w (rf (id v)) op /\
         exists n, frame s s' n /\ nextv s <= n <= nextv s + 1 /\
           forall i, i < nextv s -> rf' i = rf i)).
  { intros wo Hwo Eo ->. eapply wp_use_value; [exact Hv|]. split.
    - exists v. split_and!; auto. rewrite Eo. unfold reading.
      destruct signed; [rewrite wrap_swrap by lia; done|rewrite wrap_wrap by lia; done].
    - exists (nextv s). split_and!; auto using frame_refl; lia. }
  assert (Hext : forall opc, (w = 8 \/ w = 16) -> op_width ty = 32 ->
    alu 32 opc rf (rf (nextv s)) [VRegOp v] = Some (wrap 32 (reading signed w (rf (id v)))) ->
    wp blk (dst ← emit_unary blk opc Gpr32 (VRegOp v); mret (VRegOp dst)) s rf
      (fun op s' rf' => holds_operand s' rf' ty signed w (rf (id v)) op /\
         exists n, frame s s' n /\ nextv s <= n <= nextv s + 1 /\
           forall i, i < nextv s -> rf' i = rf i)).
  { intros opc Hw8 Eo Ha. apply wp_bind. unfold emit_unary.
    eapply wp_fresh; [lia|reflexivity|exact Ha|]. intros s1 rf1 F1 V1 O1. apply wp_ret. split.
    - exists (mkVReg (nextv s) Gpr32). cbn [id]. frames. split_and!; [done|lia|].
      rewrite V1, Eo, wrap_wrap by lia. done.
    - eexists. split; [exact F1|]. split; [lia|]. intros i Hi. apply O1. lia. }
  assert (Hu : forall w', 1 <= w' <= 32 -> wrap 32 (wrap w' (rf (id v))) = wrap w' (rf (id v))).
  { intros w' Hw'. apply wrap_small. pose proof (wrap_range w' (rf (id v)) ltac:(lia)).
    pose proof (pow2_le w' 32 ltac:(lia)). unfold uword in *. lia. }
  destruct ty; try discriminate; injection Hw as <-; unfold extend_narrow_for_width_op.
  - apply wp_bind. eapply wp_use_value; [exact Hv|]. destruct signed; apply Hext; auto; cbn [alu rd reading].
    + cbn [mbind option_bind]. by rewrite swrap_wrap by lia.
    + by rewrite Hu by lia.
  - apply wp_bind. eapply wp_use_value; [exact Hv|]. destruct signed; apply Hext; auto; cbn [alu rd reading].
    + cbn [mbind option_bind]. by rewrite swrap_wrap by lia.
    + by rewrite Hu by lia.
  - by apply (Hplain 32); auto.
  - by apply (Hplain 64); auto.
Qed.

(** The quotient register after the hardware divide. *)
Lemma hw_divide (signed : bool) wo w X D rf a b :
  1 <= w <= wo -> reading signed w D <> 0 ->
  rd wo rf a = Some (wrap wo (reading signed w X)) ->
  rd wo rf b = Some (wrap wo (reading signed w D)) ->
  forall old, exists q, alu wo (if signed then SDiv else UDiv) rf old [a; b] = Some (wrap wo q) /\
    wrap w (wrap wo (wrap wo (reading signed w X) -
                     wrap wo q * wrap wo (reading signed w D))) =
    div_spec signed true w X D.
Proof.
  intros Hw HD Ha Hb old. set (x := reading signed w X) in *. set (d := reading signed w D) in *.
  pose proof (reading_range signed w wo X Hw) as Rx. fold x in Rx.
  pose proof (reading_range signed w wo D Hw) as Rd. fold d in Rd.
  assert (Hd0 : wrap wo d <> 0).
  { destruct signed; [|by rewrite wrap_small].
    intros E. apply HD. rewrite <- (swrap_of_wrap wo d), E by (auto; lia). apply swrap_small; [lia|].
    unfold sword in *. lia. }
  exists (if signed then Z.quot x d else x / d). split.
  - destruct signed; cbn [alu]; rewrite Ha, Hb; cbn [mbind option_bind];
      destruct (Z.eqb_spec (wrap wo d) 0); try done; f_equal.
    + by rewrite !swrap_of_wrap by (auto; lia).
    + rewrite (wrap_small wo x), (wrap_small wo d), wrap_small; auto. unfold uword in *.
      split; [apply Z.div_pos; lia|]. apply Z.le_lt_trans with x; [|lia].
      apply Z.div_le_upper_bound; nia.
  - transitivity (wrap w (x - (if signed then Z.quot x d else x / d) * d)).
    { rewrite wrap_wrap_le by lia. assert (Hl : forall y, eqmw w (wrap wo y) y)
        by (intros; apply wrap_wrap_le; lia).
      change (eqmw w (wrap wo x - wrap wo (if signed then Z.quot x d else x / d) * wrap wo d)
                (x - (if signed then Z.quot x d else x / d) * d)). by rewrite !Hl. }
    subst x d. unfold reading, div_spec in *. destruct signed.
    + f_equal. pose proof (Z.quot_rem' (swrap w X) (swrap w D)). lia.
    + pose proof (Z.div_mod (wrap w X) (wrap w D) HD).
      pose proof (wrap_range w D ltac:(lia)) as HDw. unfold uword in HDw.
      pose proof (Z.mod_pos_bound (wrap w X) (wrap w D) ltac:(lia)).
      rewrite <- (wrap_small w (wrap w X mod wrap w D)) by (unfold uword; lia). f_equal. lia.
Qed.

Definition fetch (ty : Ty) (signed : bool) (blk : Block) (val : Value) : Sel ISelOperand :=
  match ty with
  | I8 | I16 => extend_narrow_for_width_op val ty signed blk
  | _ => use_value val
  end.

Lemma fetch_pair ty signed blk a b :
  (match ty with
   | I8 | I16 =>
       l ← extend_narrow_for_width_op a ty signed blk;
       r ← extend_narrow_for_width_op b ty signed blk;
       mret (l, r)
   | _ => l ← use_value a; r ← use_value b; mret (l, r)
   end) = (l ← fetch ty signed blk a; r ← fetch ty signed blk b; mret (l, r)).
Proof. by destruct ty. Qed.

Section Remainder.
Context (disabled : bool) (blk : Block) (s : InstructionSelector) (rf : regs) (vx vd : VReg).
Context (inst : Instruction) (xv dv r : Value) (ty : Ty) (w : Z) (signed : bool).
Context (Hargs : args inst !! 0%nat = Some xv /\ args inst !! 1%nat = Some dv).
Context (Hres : results inst !! 0%nat = Some r).
Context (Hroom : 0 <= nextv s /\ nextv s + 40 < 2 ^ 32).
Context (Hty : value_types s !! xv = Some ty) (Hw : int_width ty = Some w).
Context (Hx : value_map s !! xv = Some (VRegOp vx)) (Hvx : id vx < nextv s).
Context (Hd : value_map s !! dv = Some (VRegOp vd)) (Hvd : id vd < nextv s).
(** A constant divisor's register holds the constant. *)
Context (Hconst : forall cty c, iconst_origins s !! dv = Some (cty, c) ->
  sword 64 c /\ wrap w (rf (id vd)) = wrap w c).
Context (Hnz : wrap w (rf (id vd)) <> 0).

Let X := rf (id vx).
Let D := rf (id vd).

Lemma int_width_cases : 1 <= w <= op_width ty /\ class_width (reg_class_for_type ty) = Some (op_width ty).
Proof. clear -Hw. destruct ty; try discriminate; injection Hw as <-; cbn; split; done || lia. Qed.

Lemma reading_nonzero : reading signed w D <> 0.
Proof.
  destruct int_width_cases as [Hw1 _]. unfold reading. destruct signed; [|done].
  intros E. apply Hnz. fold D. rewrite <- wrap_swrap, E by lia. by apply Z.mod_0_l, Z.pow_nonzero; lia.
Qed.

(** Code after the strength reduction declined. *)
Lemma wp_hw_remainder s1 rf1 n :
  frame s s1 n -> nextv s <= n <= nextv s + 32 -> (forall i, i < nextv s -> rf1 i = rf i) ->
  wp blk (
    '(lhs, rhs) ← (match ty with
                   | I8 | I16 =>
                       l ← extend_narrow_for_width_op xv ty signed blk;
                       r ← extend_narrow_for_width_op dv ty signed blk;
                       mret (l, r)
                   | _ => l ← use_value xv; r ← use_value dv; mret (l, r)
                   end);
    tmp ← new_vreg (reg_class_for_type ty);
    _ ← emit blk (mkInst (if signed then SDiv else UDiv) [VRegOp tmp; lhs; rhs]);
    dst ← new_vreg (reg_class_for_type ty);
    _ ← emit blk (mkInst Msub [VRegOp dst; VRegOp tmp; rhs; lhs]);
    define_value r (VRegOp dst) ty) s1 rf1
    (fun _ s' rf' => defines s rf r w (div_spec signed true w X D) true s' rf').
Proof.
  intros F1 N1 O1. destruct int_width_cases as [Hw1 Hcls].
  destruct (frame_fields _ _ _ F1) as (Evm & _). rewrite fetch_pair.
  apply wp_bind, wp_bind. eapply wp_mono.
  { apply (wp_operand blk s1 rf1 ty signed w xv vx); rewrite ?Evm; frames; auto; lia. }
  cbv beta. intros l s2 rf2 [(vl & -> & Il & Vl) (n2 & F2 & N2 & O2)].
  destruct (frame_fields _ _ _ F2) as (Evm2 & _).
  apply wp_bind. eapply wp_mono.
  { apply (wp_operand blk s2 rf2 ty signed w dv vd); rewrite ?Evm2, ?Evm; frames; auto; lia. }
  cbv beta. intros rr s3 rf3 [(vr & -> & Ir & Vr) (n3 & F3 & N3 & O3)]. apply wp_ret.
  frames. rewrite (O1 (id vx)) in Vl by lia. rewrite (O2 (id vd)), (O1 (id vd)) in Vr by lia.
  fold X in Vl. fold D in Vr.
  pose proof (class_width_cases _ _ Hcls) as Hwo.
  apply wp_bind, wp_new_vreg; [frames; lia|]. intros s4 F4.
  destruct (hw_divide signed (op_width ty) w X D rf3 (VRegOp vl) (VRegOp vr) Hw1 reading_nonzero)
    with (old := rf3 n3) as (q & Hq & Hspec).
  { cbn [rd]. by rewrite O3, Vl by lia. }
  { cbn [rd]. by rewrite Vr. }
  apply wp_bind. eapply wp_emit_dst; [exact Hcls|cbn [id]; frames; exact Hq|].
  cbn [id]. intros s5 rf5 F5 V5 O5.
  apply wp_bind, wp_new_vreg; [frames; lia|]. intros s6 F6.
  apply wp_bind. eapply wp_emit_dst; [exact Hcls|cbn [alu rd mbind option_bind]; reflexivity|].
  cbn [id]. intros s7 rf7 F7 V7 O7. frames.
  eapply wp_define_value; [close_frame|lia|cbn [id]; lia| |intros; reads; done].
  cbn [id]. rewrite V7, <- Hspec, V5, (O5 (id vl)), (O5 (id vr)), (O3 (id vl)), Vl, Vr by lia.
  by rewrite (wrap_wrap (op_width ty) q) by lia.
Qed.

Lemma wp_try_remainder :
  wp blk (try_select_const_div_rem disabled inst blk signed true ty) s rf
    (fun b s' rf' => defines s rf r w (div_spec signed true w X D) b s' rf' \/
                     declines s rf b s' rf').
Proof.
  assert (Hdec : wp blk (mret false) s rf (fun b s' rf' =>
    defines s rf r w (div_spec signed true w X D) b s' rf' \/ declines s rf b s' rf')).
  { apply wp_ret. right. split; [done|]. exists (nextv s). split_and!; auto using frame_refl; lia. }
  destruct (iconst_origins s !! dv) as [[cty c]|] eqn:Eo.
  - destruct (Hconst cty c eq_refl) as [Hc Ec].
    assert (Espec : div_spec signed true w X c = div_spec signed true w X D).
    { destruct int_width_cases as [Hw1 _]. unfold div_spec, D.
      assert (Es : swrap w c = swrap w (rf (id vd)))
        by (by rewrite <- (swrap_wrap w c), <- Ec, swrap_wrap by lia).
      by rewrite Es, Ec. }
    destruct (match ty with I32 => Some W32 | I64 => Some W64 | _ => None end)
      as [width|] eqn:Ewd.
    + assert (Ety : ty = width_ty width /\ w = bits width)
        by (clear -Ewd Hw; destruct ty; try discriminate; injection Ewd as <-;
            injection Hw as <-; done).
      destruct Ety as [Ety Ebits]. rewrite Ety. eapply wp_mono.
      { eapply (wp_try_select disabled blk s rf vx inst xv dv r cty c width); eauto; lia. }
      cbv beta. rewrite <- Ebits. fold X. rewrite Espec. intros b s' rf' [Hdf|[Hdf _]]; auto.
    + unfold try_select_const_div_rem. rewrite Ewd. exact Hdec.
  - unfold try_select_const_div_rem.
    destruct (match ty with I32 => Some W32 | I64 => Some W64 | _ => None end); [|exact Hdec].
    apply wp_bind. eapply wp_index; [exact (proj2 Hargs)|]. apply wp_bind, wp_gets.
    rewrite Eo. exact Hdec.
Qed.

Lemma wp_select_remainder :
  wp blk (select_remainder disabled signed inst blk) s rf
    (fun _ s' rf' => defines s rf r w (div_spec signed true w X D) true s' rf').
Proof.
  destruct Hargs as [Ha0 Ha1]. unfold select_remainder.
  assert (Hlen : (length (args inst) <? 2)%nat = false).
  { apply Nat.ltb_ge. apply lookup_lt_Some in Ha1. lia. }
  apply wp_bind. unfold require_args. rewrite Hlen. apply wp_ret.
  assert (Hreq : require_result inst = mret tt)
    by (clear -Hres; unfold require_result; by destruct (results inst)).
  apply wp_bind. rewrite Hreq. apply wp_ret.
  apply wp_bind. eapply wp_index; [exact Ha0|]. apply wp_bind. eapply wp_index; [exact Ha1|].
  apply wp_bind. eapply wp_index; [exact Hres|]. apply wp_bind, wp_gets.
  unfold value_type. rewrite Hty. cbn [default from_option]. cbv zeta. apply wp_bind.
  eapply wp_mono; [apply wp_try_remainder|]. cbv beta.
  intros b s1 rf1 [Hdf|(-> & n & F & N & O)].
  - assert (b = true) as -> by apply Hdf. by apply wp_ret.
  - eapply wp_hw_remainder; [exact F|lia|exact O].
Qed.

End Remainder.

(** C38: Constant materialization is exact.  For an integer type of up to 64 bits
    and every 64-bit immediate, the MOVZ / MOVN / MOVK sequence appended to the
    block leaves exactly the immediate's low bits at the register's width in the
    destination, touches no other register and allocates none. *)
Theorem iconst_materialization_exact (blk : Block) (dst : VReg) (ty : Ty) (wt imm : Z)
    (s : InstructionSelector) (rf : regs)
    (Hty : int_width ty = Some wt) (Hdst : class dst = reg_class_for_type ty)
    (Himm : sword 64 imm) :
  wp blk (emit_iconst_materialization blk dst ty imm) s rf
    (fun _ s' rf' => frame s s' (nextv s) /\ rf' (id dst) = wrap (op_width ty) imm /\
       forall i, i <> id dst -> rf' i = rf i).
Proof.
  apply (wp_iconst blk dst (op_width ty)); auto.
  - rewrite Hdst. by destruct ty.
  - by destruct ty.
Qed.

Definition demo_state : InstructionSelector :=
  mkSel (mkFunc ∅ [] 10 [])
        (<[1 := VRegOp (mkVReg 3 Gpr32)]> (<[2 := VRegOp (mkVReg 4 Gpr32)]> ∅))
        (<[1 := I32]> ∅) ∅ 0 (<[2 := (I32, -7)]> ∅) (Some 0).

Definition demo_regs : regs := fun r => if r =? 3 then 2 ^ 32 - 100 else 2 ^ 32 - 7.

Definition demo_inst : Instruction := mkInstruction [1; 2] [5].

Lemma iconst_materialization_exact_witness :
  wp 0 (emit_iconst_materialization 0 (mkVReg 3 Gpr64) I64 (-0x123456789ABC)) demo_state demo_regs
    (fun _ s' rf' => rf' 3 = 2 ^ 64 - 0x123456789ABC).
Proof.
  eapply wp_mono.
  - apply (iconst_materialization_exact 0 (mkVReg 3 Gpr64) I64 64); [reflexivity|reflexivity|].
    split; vm_compute; congruence.
  - intros ? s' rf' (_ & H & _). etransitivity; [exact H|]. vm_compute. reflexivity.
Defined.

(** C5: Strength-reduced division and remainder are correct.  For a 32- or 64-bit
    operation whose divisor is a tracked constant and whose dividend is in an
    allocated register, [try_select_const_div_rem] succeeds and only appends to
    the block.  If it reports success, running the appended code leaves the
    quotient or remainder the source asks for in the register now bound to the
    result, and keeps all earlier registers.  The divisors 0, 1 and -1 (0 and 1, if
    unsigned) are always declined, with the state unchanged; of the others only
    64-bit unsigned divisors whose magic needs the shift 64 can be declined, and the
    value bindings are then untouched. *)
Theorem try_select_const_div_rem_correct (disabled : bool) (blk : Block)
    (s : InstructionSelector) (rf : regs) (vx : VReg) (inst : Instruction)
    (xv dv r : Value) (cty : Ty) (c : Z) (width : MagicWidth) (is_signed is_rem : bool)
    (Hargs : args inst !! 0%nat = Some xv /\ args inst !! 1%nat = Some dv)
    (Hres : results inst !! 0%nat = Some r)
    (Hroom : 0 <= nextv s /\ nextv s + 32 < 2 ^ 32)
    (Hx : value_map s !! xv = Some (VRegOp vx)) (Hvx : id vx < nextv s)
    (Hconst : iconst_origins s !! dv = Some (cty, c)) (Hc : sword 64 c) :
  (trivial_divisor is_signed (bits width) c = true ->
     try_select_const_div_rem disabled inst blk is_signed is_rem (width_ty width) s = (Ok false, s)) /\
  wp blk (try_select_const_div_rem disabled inst blk is_signed is_rem (width_ty width)) s rf
    (fun b s' rf' =>
       (forall i, i < nextv s -> rf' i = rf i) /\
       if b then exists q, value_map s' = <[r := VRegOp q]> (value_map s) /\
         rd (bits width) rf' (VRegOp q)
         = Some (div_spec is_signed is_rem (bits width) (rf (id vx)) c)
       else value_map s' = value_map s /\
         (trivial_divisor is_signed (bits width) c = true \/
          is_signed = false /\ width = W64 /\
          exists m, magicu (wrap 64 c) W64 = Some m /\ shift m = 64)).
Proof.
  split; [by eapply try_select_trivial|]. eapply wp_mono.
  - by eapply (wp_try_select disabled blk s rf vx inst xv dv r cty c width).
  - cbv beta. intros b s' rf' [(-> & q & Ev & _ & _ & _ & _ & V & O)|[(-> & n & F & _ & O) T]].
    + split; [done|]. exists q. split; [done|]. cbn [rd]. by rewrite V.
    + split; [done|]. split; [apply (frame_fields _ _ _ F)|].
      destruct T as [T|(T1 & T2 & T3)]; [by left|right]. rewrite T2 in T3. auto.
Qed.

Lemma try_select_const_div_rem_correct_witness :
  wp 0 (try_select_const_div_rem false demo_inst 0 true true I32) demo_state demo_regs
    (fun b s' rf' => b = true -> exists q, value_map s' !! 5 = Some (VRegOp q) /\
       rd 32 rf' (VRegOp q) = Some (2 ^ 32 - 2)).
Proof.
  eapply wp_mono.
  - apply (try_select_const_div_rem_correct false 0 demo_state demo_regs (mkVReg 3 Gpr32) demo_inst
             1 2 5 I32 (-7) W32 true true); try reflexivity.
    + split; reflexivity.
    + split; vm_compute; congruence.
    + split; vm_compute; congruence.
  - cbv beta. intros b s' rf' [_ H] Hb. rewrite Hb in H. destruct H as (q & Ev & Hq).
    exists q. rewrite Ev. split; [reflexivity|]. etransitivity; [exact Hq|].
    vm_compute. reflexivity.
Defined.

(** C31: Remainder selection is correct for every integer type of up to 64 bits,
    signed or unsigned, on every path (strength-reduced or hardware divide, with
    the narrow operand extensions): running the appended code leaves the
    remainder of the typed operand readings in the register bound to the result. *)
Theorem select_remainder_correct (disabled : bool) (blk : Block)
    (s : InstructionSelector) (rf : regs) (vx vd : VReg) (inst : Instruction)
    (xv dv r : Value) (ty : Ty) (w : Z) (signed : bool)
    (Hargs : args inst !! 0%nat = Some xv /\ args inst !! 1%nat = Some dv)
    (Hres : results inst !! 0%nat = Some r)
    (Hroom : 0 <= nextv s /\ nextv s + 40 < 2 ^ 32)
    (Hty : value_types s !! xv = Some ty) (Hw : int_width ty = Some w)
    (Hx : value_map s !! xv = Some (VRegOp vx)) (Hvx : id vx < nextv s)
    (Hd : value_map s !! dv = Some (VRegOp vd)) (Hvd : id vd < nextv s)
    (Hconst : forall cty c, iconst_origins s !! dv = Some (cty, c) ->
       sword 64 c /\ wrap w (rf (id vd)) = wrap w c)
    (Hnz : wrap w (rf (id vd)) <> 0) :
  wp blk (select_remainder disabled signed inst blk) s rf
    (fun _ s' rf' => (forall i, i < nextv s -> rf' i = rf i) /\
       exists q, value_map s' = <[r := VRegOp q]> (value_map s) /\
         rd w rf' (VRegOp q) = Some (div_spec signed true w (rf (id vx)) (rf (id vd)))).
Proof.
  eapply wp_mono.
  - by eapply (wp_select_remainder disabled blk s rf vx vd inst xv dv r ty w signed).
  - cbv beta. intros _ s' rf' (_ & q & Ev & _ & _ & _ & _ & V & O). split; [done|].
    exists q. split; [done|]. cbn [rd]. by rewrite V.
Qed.

Lemma select_remainder_correct_witness :
  wp 0 (select_remainder true true demo_inst 0) demo_state demo_regs
    (fun _ s' rf' => exists q, value_map s' !! 5 = Some (VRegOp q) /\
       rd 32 rf' (VRegOp q) = Some (2 ^ 32 - 2)).
Proof.
  eapply wp_mono.
  - apply (select_remainder_correct true 0 demo_state demo_regs (mkVReg 3 Gpr32) (mkVReg 4 Gpr32)
             demo_inst 1 2 5 I32 32 true); try reflexivity.
    + split; reflexivity.
    + split; vm_compute; congruence.
    + intros cty c H. vm_compute in H. injection H as <- <-.
      split; [split; vm_compute; congruence|vm_compute; reflexivity].
    + vm_compute. congruence.
  - cbv beta. intros _ s' rf' [_ (q & Ev & Hq)]. exists q. rewrite Ev.
    split; [reflexivity|]. rewrite Hq. vm_compute. reflexivity.
Defined.

(** Emitted code for [x % -7] at 32 bits, run on [x = -100]. *)
Example demo_srem :
  (match try_select_const_div_rem false demo_inst 0 true true I32 demo_state with
   | (Ok true, s') =>
       op ← value_map s' !! 5; rf' ← exec (code s' 0) demo_regs; rd 32 rf' op
   | _ => None
   end) = Some (2 ^ 32 - 2).
Proof. vm_compute. reflexivity. Qed.
