(* ===== verification/Switch.v ===== *)
(** * Switch lowering ([crates/trust-cg-lower/src/switch.rs] and the
      [select_switch] family of [isel.rs])

    Strategy choice, the structural preservation gates, and the three emitters
    (linear scan, binary search tree, jump table) with the selector entry points.
    The second half runs the emitted blocks, flags and branches included, and
    shows that they dispatch like the source switch. *)

From Stdlib Require Import SpecFloat.
From S2P Require Import Prelude Regs ISel.
Local Open Scope Z_scope.

(** ** Strategy selection *)

Inductive SwitchStrategy := LinearScan | BinarySearch | JumpTableStrategy.

Definition LINEAR_SCAN_MAX : Z := 3.

Abbreviation Cases := (list (Z * Block)).

Definition case_min (cases : Cases) : option Z :=
  match cases with
  | [] => None
  | (v, _) :: rest => Some (foldr (fun c m => Z.min c.1 m) v rest)
  end.

Definition case_max (cases : Cases) : option Z :=
  match cases with
  | [] => None
  | (v, _) :: rest => Some (foldr (fun c m => Z.max c.1 m) v rest)
  end.

(** [as f64] of an integer and the literal [0.4], in IEEE binary64. *)
Definition f64_of_int (z : Z) : spec_float := binary_normalize 53 1024 z 0 false.
Definition TCG_JUMPTABLE_DENSITY_THRESHOLD : spec_float :=
  S754_finite false 7205759403792794 (-54).

Definition choose_strategy (cases : Cases) : SwitchStrategy :=
  if Z.of_nat (length cases) <=? LINEAR_SCAN_MAX then LinearScan
  else
    let min_val := default 0 (case_min cases) in
    let max_val := default 0 (case_max cases) in
    let range := f64_of_int (max_val - min_val + 1) in
    let density := SFdiv 53 1024 (f64_of_int (Z.of_nat (length cases))) range in
    if SFltb TCG_JUMPTABLE_DENSITY_THRESHOLD density then JumpTableStrategy else BinarySearch.

(** ** Structural preservation gates *)

#[export] Instance Result_ret : MRet Result := fun A a => Ok a.
#[export] Instance Result_bind : MBind Result := fun A B k r =>
  match r with Ok a => k a | Err e => Err e | Panic => Panic end.

(** The gates' error carries the strategy; the message text is left out. *)
Definition mismatch {A} (strategy : string) : Result A :=
  Err (SwitchNormalizationMismatch strategy).

Record NormalizedMapping := mkMapping { routed : Cases; mdefault : option Block }.

Definition empty_mapping : NormalizedMapping := mkMapping [] None.

Definition record_case (m : NormalizedMapping) (value : Z) (target : Block) : NormalizedMapping :=
  mkMapping (routed m ++ [(value, target)]) (mdefault m).

Definition record_default (m : NormalizedMapping) (d : Block) : NormalizedMapping :=
  mkMapping (routed m) (Some d).

Fixpoint source_map_loop (strategy : string) (cases : Cases) (m : gmap Z Z)
    : Result (gmap Z Z) :=
  match cases with
  | [] => mret m
  | (value, target) :: rest =>
      match m !! value with
      | Some prev =>
          if prev =? target then source_map_loop strategy rest (<[value := target]> m)
          else mismatch strategy
      | None => source_map_loop strategy rest (<[value := target]> m)
      end
  end.

Definition source_case_map (cases : Cases) (strategy : string) : Result (gmap Z Z) :=
  source_map_loop strategy cases ∅.

(** The loop over the routed entries. *)
Fixpoint walk_routed (strategy : string) (source : gmap Z Z) (entries : Cases)
    (seen : gmap Z Z) : Result (gmap Z Z) :=
  match entries with
  | [] => mret seen
  | (value, target) :: rest =>
      match source !! value with
      | None => mismatch strategy
      | Some src_target =>
          if negb (src_target =? target) then mismatch strategy
          else match seen !! value with
               | Some _ => mismatch strategy
               | None => walk_routed strategy source rest (<[value := target]> seen)
               end
      end
  end.

Definition check_mapping_preserved (source : gmap Z Z) (normalized : NormalizedMapping)
    (strategy : string) : Result unit :=
  match mdefault normalized with
  | None => mismatch strategy
  | Some _ =>
      seen ← walk_routed strategy source (routed normalized) ∅;
      if negb (forallb (fun e : Z * Z => bool_decide (is_Some ((seen : gmap Z Z) !! e.1)))
                       (map_to_list source))
      then mismatch strategy
      else if negb (Nat.eqb (size (seen : gmap Z Z)) (size source)) then mismatch strategy
      else mret tt
  end.

(** The loop over the dense slots; [value] starts at the true minimum. *)
Fixpoint check_slots (strategy : string) (source : gmap Z Z) (default_ : Block)
    (value : Z) (slots : list Block) (m : NormalizedMapping) : Result NormalizedMapping :=
  match slots with
  | [] => mret m
  | slot_target :: rest =>
      match source !! value with
      | Some src_target =>
          if negb (slot_target =? src_target) then mismatch strategy
          else check_slots strategy source default_ (value + 1) rest
                 (record_case m value slot_target)
      | None =>
          if negb (slot_target =? default_) then mismatch strategy
          else check_slots strategy source default_ (value + 1) rest m
      end
  end.

Definition check_jump_table_preserved (cases : Cases) (default_ : Block) (min_val : Z)
    (targets : list Block) : Result unit :=
  let strategy := "JumpTable"%string in
  source ← source_case_map cases strategy;
  match case_min cases, case_max cases with
  | Some true_min, Some true_max =>
      if negb (min_val =? true_min) then mismatch strategy
      else if negb (true_max - true_min + 1 =? Z.of_nat (length targets)) then mismatch strategy
      else
        normalized ← check_slots strategy source default_ true_min targets
                       (record_default empty_mapping default_);
        check_mapping_preserved source normalized strategy
  | _, _ => mismatch strategy
  end.

Definition record_cases (m : NormalizedMapping) (cases : Cases) : NormalizedMapping :=
  foldl (fun m c => record_case m c.1 c.2) m cases.

Definition check_cascade_preserved (cases : Cases) (default_ : Block) : Result unit :=
  let strategy := "LinearScan"%string in
  source ← source_case_map cases strategy;
  check_mapping_preserved source (record_default (record_cases empty_mapping cases) default_)
    strategy.

(** ** Emission *)

Definition alloc_block (f : ISelFunction) (next_block_id : Z) : Block * ISelFunction * Z :=
  (next_block_id, ensure_block f next_block_id, wrap 32 (next_block_id + 1)).

Definition alloc_vreg (f : ISelFunction) (c : RegClass) : VReg * ISelFunction :=
  func_new_vreg f c.

(** Push a successor if the block does not list it yet. *)
Definition add_successor (f : ISelFunction) (b t : Block) : ISelFunction :=
  let blk := block_entry f b in
  set_block f b (mkBlock (insts blk)
    (if bool_decide (t ∈ successors blk) then successors blk else successors blk ++ [t])).

Definition push_insts (f : ISelFunction) (b : Block) (l : list ISelInst) : ISelFunction :=
  foldl (fun f i => push_inst f b i) f l.

(** The MOVZ / MOVK chain: one MOVZ, then a MOVK per non-zero chunk. *)
Fixpoint movk_list (dst : VReg) (skip idx : Z) (chunks : list Z) : list ISelInst :=
  match chunks with
  | [] => []
  | c :: rest =>
      (if c =? skip then [] else [mkInst Movk [VRegOp dst; Imm c; Imm (idx * 16)]]) ++
      movk_list dst skip (idx + 1) rest
  end.

Definition emit_movz_movk_chain (f : ISelFunction) (block : Block) (dst : VReg) (val : Z)
    : ISelFunction :=
  push_insts f block
    (mkInst Movz [VRegOp dst; Imm (Z.land val 0xFFFF)] ::
     movk_list dst 0 1 (map (chunk16 val) (seqZ 1 3))).

Definition emit_cmp (f : ISelFunction) (block : Block) (selector : ISelOperand)
    (case_val : Z) (is_32 : bool) : ISelFunction :=
  if (0 <=? case_val) && (case_val <=? 0xFFF) then
    push_inst f block (mkInst CmpRI [selector; Imm case_val])
  else
    let '(tmp, f) := alloc_vreg f (if is_32 then Gpr32 else Gpr64) in
    let bits := if is_32 then wrap 32 case_val else wrap 64 case_val in
    let f := emit_movz_movk_chain f block tmp bits in
    push_inst f block (mkInst CmpRR [selector; VRegOp tmp]).

Fixpoint emit_linear_scan_into (f : ISelFunction) (block : Block) (selector : ISelOperand)
    (is_32 : bool) (cases : Cases) (default_ : Block) (m : NormalizedMapping)
    : ISelFunction * NormalizedMapping :=
  match cases with
  | [] =>
      let f := push_inst f block (mkInst Bra [BlockOp default_]) in
      (add_successor f block default_, record_default m default_)
  | (case_val, target) :: rest =>
      let f := emit_cmp f block selector case_val is_32 in
      let f := push_inst f block (mkInst BCond [CondCode EQ; BlockOp target]) in
      let m := record_case m case_val target in
      let f := add_successor f block target in
      emit_linear_scan_into f block selector is_32 rest default_ m
  end.

(** Emitters return the outcome and the function as it was left. *)
Definition emit_linear_scan (f : ISelFunction) (block : Block) (selector : ISelOperand)
    (is_32 : bool) (cases : Cases) (default_ : Block) : Result unit * ISelFunction :=
  match source_case_map cases "LinearScan" with
  | Ok source =>
      let '(f, mapping) :=
        emit_linear_scan_into f block selector is_32 cases default_ empty_mapping in
      (check_mapping_preserved source mapping "LinearScan", f)
  | Err e => (Err e, f)
  | Panic => (Panic, f)
  end.

(** The state a BST emission threads: function, block counter, mapping. *)
Record BstState := mkBst { bf : ISelFunction; bnext : Z; bmap : NormalizedMapping }.

(** A subtree with no case: a branch to the default. *)
Definition emit_empty_subtree (st : BstState) (block default_ : Block) : BstState :=
  let f := push_inst (bf st) block (mkInst Bra [BlockOp default_]) in
  mkBst (add_successor f block default_) (bnext st) (record_default (bmap st) default_).

(** [fuel] bounds the depth; [length cases] of it is always enough. *)
Fixpoint emit_bst_node (fuel : nat) (selector : ISelOperand) (is_32 : bool) (default_ : Block)
    (cases : Cases) (block : Block) (st : BstState) : BstState :=
  match fuel with
  | O => st
  | S fuel' =>
      if Z.of_nat (length cases) <=? LINEAR_SCAN_MAX then
        let '(f, m) :=
          emit_linear_scan_into (bf st) block selector is_32 cases default_ (bmap st) in
        mkBst f (bnext st) m
      else
        let mid := (length cases / 2)%nat in
        match cases !! mid with
        | None => st
        | Some (pivot_val, pivot_target) =>
            let left_cases := take mid cases in
            let right_cases := drop (mid + 1) cases in
            let '(left_block, f, n) := alloc_block (bf st) (bnext st) in
            let '(right_block, f, n) := alloc_block f n in
            let f := emit_cmp f block selector pivot_val is_32 in
            let f := push_inst f block (mkInst BCond [CondCode EQ; BlockOp pivot_target]) in
            let m := record_case (bmap st) pivot_val pivot_target in
            let f := push_inst f block (mkInst BCond [CondCode LT; BlockOp left_block]) in
            let f := push_inst f block (mkInst Bra [BlockOp right_block]) in
            let f := add_successor f block pivot_target in
            let f := add_successor f block left_block in
            let f := add_successor f block right_block in
            let st1 := mkBst f n m in
            let st2 := match left_cases with
                       | [] => emit_empty_subtree st1 left_block default_
                       | _ => emit_bst_node fuel' selector is_32 default_ left_cases left_block st1
                       end in
            match right_cases with
            | [] => emit_empty_subtree st2 right_block default_
            | _ => emit_bst_node fuel' selector is_32 default_ right_cases right_block st2
            end
        end
  end.

(** [sort_by_key] on the case value: the standard library's stable sort. *)
Fixpoint insert_case (c : Z * Block) (l : Cases) : Cases :=
  match l with
  | [] => [c]
  | d :: rest => if c.1 <=? d.1 then c :: l else d :: insert_case c rest
  end.

Definition sort_cases (cases : Cases) : Cases := foldr insert_case [] cases.

Definition emit_binary_search (f : ISelFunction) (next_block_id : Z) (selector : ISelOperand)
    (is_32 : bool) (cases : Cases) (default_ entry_block : Block)
    : Result unit * (ISelFunction * Z) :=
  match source_case_map cases "BinarySearch" with
  | Ok source =>
      let sorted_cases := sort_cases cases in
      let st := emit_bst_node (S (length sorted_cases)) selector is_32 default_ sorted_cases
                  entry_block (mkBst f next_block_id empty_mapping) in
      (check_mapping_preserved source (bmap st) "BinarySearch", (bf st, bnext st))
  | Err e => (Err e, (f, next_block_id))
  | Panic => (Panic, (f, next_block_id))
  end.

(** ** Jump table *)

(** [cases.iter().cloned().collect()]: later entries win. *)
Definition collect_cases (cases : Cases) : gmap Z Z :=
  foldl (fun m c => <[c.1 := c.2]> m) ∅ cases.

(** The selector sign-extended to 64 bits. *)
Definition norm_selector (f : ISelFunction) (entry_block : Block) (selector : ISelOperand)
    (is_32 : bool) : ISelOperand * ISelFunction :=
  if is_32 then
    let '(sext, f) := alloc_vreg f Gpr64 in
    (VRegOp sext, push_inst f entry_block (mkInst Sxtw [VRegOp sext; selector]))
  else (selector, f).

(** Normalization of the selector to a 0-based index. *)
Definition emit_index (f : ISelFunction) (block : Block) (index_vreg : VReg)
    (normalized : ISelOperand) (min_val : Z) : ISelFunction :=
  if min_val =? 0 then push_inst f block (mkInst MovR [VRegOp index_vreg; normalized])
  else if (0 <? min_val) && (min_val <=? 0xFFF) then
    push_inst f block (mkInst SubRI [VRegOp index_vreg; normalized; Imm min_val])
  else
    let '(tmp_vreg, f) := alloc_vreg f Gpr64 in
    let f := emit_movz_movk_chain f block tmp_vreg (wrap 64 min_val) in
    push_inst f block (mkInst SubRR [VRegOp index_vreg; normalized; VRegOp tmp_vreg]).

(** The range check of the index. *)
Definition emit_range_check (f : ISelFunction) (block : Block) (index_vreg : VReg)
    (range : Z) (default_ : Block) : ISelFunction :=
  let f :=
    if (0 <=? range) && (range <=? 0xFFF) then
      push_inst f block (mkInst CmpRI [VRegOp index_vreg; Imm range])
    else
      let '(range_vreg, f) := alloc_vreg f Gpr64 in
      let f := emit_movz_movk_chain f block range_vreg (wrap 64 range) in
      push_inst f block (mkInst CmpRR [VRegOp index_vreg; VRegOp range_vreg]) in
  push_inst f block (mkInst BCond [CondCode HI; BlockOp default_]).

(** The table load and the indirect branch. *)
Definition emit_table_branch (f : ISelFunction) (block : Block)
    (index_vreg base_vreg offset_vreg target_vreg : VReg) (min_val : Z) (targets : list Block)
    : ISelFunction :=
  let '(jt_idx, f) := add_jump_table f min_val targets in
  push_insts f block
    [mkInst Adr [VRegOp base_vreg; JumpTableIndex jt_idx];
     mkInst LdrswRO [VRegOp offset_vreg; VRegOp base_vreg; VRegOp index_vreg];
     mkInst AddRR [VRegOp target_vreg; VRegOp base_vreg; VRegOp offset_vreg];
     mkInst Br [VRegOp target_vreg]].

Definition dense_targets (cases : Cases) (default_ : Block) (min_val range : Z) : list Block :=
  map (fun i => default default_ (collect_cases cases !! (min_val + i))) (seqZ 0 (range + 1)).

Definition emit_jump_table (f : ISelFunction) (selector : ISelOperand) (is_32 : bool)
    (cases : Cases) (default_ entry_block : Block) : Result unit * ISelFunction :=
  match case_min cases, case_max cases with
  | Some min_val, Some max_val =>
      let range := swrap 64 (max_val - min_val) in
      let targets := dense_targets cases default_ min_val range in
      match check_jump_table_preserved cases default_ min_val targets with
      | Ok _ =>
          let '(index_vreg, f) := alloc_vreg f Gpr64 in
          let '(base_vreg, f) := alloc_vreg f Gpr64 in
          let '(offset_vreg, f) := alloc_vreg f Gpr64 in
          let '(target_vreg, f) := alloc_vreg f Gpr64 in
          let '(normalized, f) := norm_selector f entry_block selector is_32 in
          let f := emit_index f entry_block index_vreg normalized min_val in
          let f := emit_range_check f entry_block index_vreg range default_ in
          let f := emit_table_branch f entry_block index_vreg base_vreg offset_vreg target_vreg
                     min_val targets in
          let f := foldl (fun f t => add_successor f entry_block t) f targets in
          (Ok tt, add_successor f entry_block default_)
      | Err e => (Err e, f)
      | Panic => (Panic, f)
      end
  | _, _ => (Panic, f)
  end.

(** ** Selector entry points *)

Definition SYNTHETIC_BLOCK_ID_BASE : Z := Z.shiftl 1 31.

(** Run a function-level emitter on the selector's function. *)
Definition on_func {A} (e : ISelFunction -> Result A * ISelFunction) : Sel A :=
  fun s => let '(r, f) := e (func s) in (r, with_func s f).

Definition lift_result {A} (r : Result A) : Sel A := fun s => (r, s).

Definition clean_switch_selector (selector : ISelOperand) (sel_ty : Ty) (block : Block)
    : Sel ISelOperand :=
  let uxt opc :=
    dst ← new_vreg Gpr32;
    _ ← emit block (mkInst opc [VRegOp dst; selector]);
    mret (VRegOp dst) in
  match sel_ty with
  | I8 => uxt Uxtb
  | I16 => uxt Uxth
  | _ => mret selector
  end.

(** Argument check, selector fetch and cleaning, common to the three entries. *)
Definition fetch_selector (inst : Instruction) (block : Block) : Sel (ISelOperand * Ty) :=
  _ ← require_args inst 1;
  selector_val ← index (args inst) 0;
  selector ← use_value selector_val;
  sel_ty ← gets (fun s => value_type s selector_val);
  selector ← clean_switch_selector selector sel_ty block;
  mret (selector, sel_ty).

Definition check_block_id (b : Block) : Sel unit :=
  if SYNTHETIC_BLOCK_ID_BASE <=? b then throw (BlockIdInSyntheticRange b) else mret tt.

Fixpoint check_targets (cases : Cases) : Sel unit :=
  match cases with
  | [] => mret tt
  | (_, target) :: rest => _ ← check_block_id target; check_targets rest
  end.

Definition run_binary_search (selector : ISelOperand) (is_32 : bool) (cases : Cases)
    (default_ block : Block) : Sel unit := fun s =>
  let '(r, (f, n)) :=
    emit_binary_search (func s) (next_block_id s) selector is_32 cases default_ block in
  (r, mkSel f (value_map s) (value_types s) (i128_high_map s) n (iconst_origins s)
            (current_block s)).

Definition select_switch_binary_search (cases : Cases) (default_ : Block) (inst : Instruction)
    (block : Block) : Sel unit :=
  '(selector, sel_ty) ← fetch_selector inst block;
  _ ← check_targets cases;
  _ ← check_block_id default_;
  _ ← check_block_id block;
  run_binary_search selector (is_32bit sel_ty) cases default_ block.

Definition select_switch_jump_table (cases : Cases) (default_ : Block) (inst : Instruction)
    (block : Block) : Sel unit :=
  '(selector, sel_ty) ← fetch_selector inst block;
  on_func (fun f => emit_jump_table f selector (is_32bit sel_ty) cases default_ block).

(** One case of the cascade. *)
Definition emit_cascade_case (selector : ISelOperand) (sel_ty : Ty) (block : Block)
    (case_val : Z) (target : Block) : Sel unit :=
  _ ← (if (0 <=? case_val) && (case_val <=? 0xFFF) then
         emit block (mkInst CmpRI [selector; Imm case_val])
       else
         case_vreg ← new_vreg (if is_32bit sel_ty then Gpr32 else Gpr64);
         _ ← emit_iconst_materialization block case_vreg sel_ty case_val;
         emit block (mkInst CmpRR [selector; VRegOp case_vreg]));
  emit block (mkInst BCond [CondCode EQ; BlockOp target]).

(** Unconditional successor push, as the cascade does it. *)
Definition push_successor (block t : Block) : Sel unit := fun s =>
  let f := func s in
  let blk := block_entry f block in
  (Ok tt, with_func s (set_block f block (mkBlock (insts blk) (successors blk ++ [t])))).

Fixpoint emit_cascade (selector : ISelOperand) (sel_ty : Ty) (block : Block) (cases : Cases)
    (default_ : Block) : Sel unit :=
  match cases with
  | [] =>
      _ ← emit block (mkInst Bra [BlockOp default_]);
      push_successor block default_
  | (case_val, target) :: rest =>
      _ ← emit_cascade_case selector sel_ty block case_val target;
      _ ← push_successor block target;
      emit_cascade selector sel_ty block rest default_
  end.

Definition select_switch_cascade (cases : Cases) (default_ : Block) (inst : Instruction)
    (block : Block) : Sel unit :=
  '(selector, sel_ty) ← fetch_selector inst block;
  _ ← emit_cascade selector sel_ty block cases default_;
  lift_result (check_cascade_preserved cases default_).

Definition select_switch (cases : Cases) (default_ : Block) (inst : Instruction) (block : Block)
    : Sel unit :=
  match choose_strategy cases with
  | JumpTableStrategy => select_switch_jump_table cases default_ inst block
  | BinarySearch => select_switch_binary_search cases default_ inst block
  | LinearScan => select_switch_cascade cases default_ inst block
  end.

(** ** What the gates decide *)

(** The source meaning of a switch. *)
Definition switch_target (cases : Cases) (default_ : Block) (x : Z) : Block :=
  match list_find (fun c => c.1 = x) cases with
  | Some (_, (_, t)) => t
  | None => default_
  end.

(** No discriminant with two different targets. *)
Definition consistent (cases : Cases) : Prop :=
  forall k t t', (k, t) ∈ cases -> (k, t') ∈ cases -> t = t'.

Lemma source_map_loop_spec strategy cases m :
  (exists source, source_map_loop strategy cases m = Ok source /\
     forall k t, source !! k = Some t <-> (k, t) ∈ cases \/ m !! k = Some t) \/
  source_map_loop strategy cases m = mismatch strategy /\
     exists k t t', t <> t' /\ (k, t) ∈ cases /\ ((k, t') ∈ cases \/ m !! k = Some t').
Proof.
  revert m. induction cases as [|[v t] rest IH]; intros m; cbn [source_map_loop].
  { left. exists m. split; [done|]. set_solver. }
  assert (Hgo : m !! v = None \/ m !! v = Some t ->
    (exists source, source_map_loop strategy rest (<[v := t]> m) = Ok source /\
       forall k t', source !! k = Some t' <-> (k, t') ∈ (v, t) :: rest \/ m !! k = Some t') \/
    source_map_loop strategy rest (<[v := t]> m) = mismatch strategy /\
       exists k t1 t2, t1 <> t2 /\ (k, t1) ∈ (v, t) :: rest /\
         ((k, t2) ∈ (v, t) :: rest \/ m !! k = Some t2)).
  { intros Hm. destruct (IH (<[v := t]> m)) as [(source & E & H)|[E (k & t1 & t2 & Hne & H1 & H2)]].
    - left. exists source. split; [done|]. intros k t'. rewrite H, lookup_insert_Some.
      set_unfold. destruct (decide (v = k)) as [->|]; naive_solver congruence.
    - right. split; [done|]. exists k, t1, t2. split; [done|]. rewrite lookup_insert_Some in H2.
      set_unfold. destruct H2 as [|[[-> ->]|[]]]; naive_solver. }
  destruct (m !! v) as [prev|] eqn:Em; [|by apply Hgo; left].
  destruct (Z.eqb_spec prev t) as [->|Hne]; [by apply Hgo; right|].
  right. split; [done|]. exists v, t, prev. set_solver.
Qed.

Lemma source_case_map_spec cases strategy source :
  source_case_map cases strategy = Ok source ->
  consistent cases /\ forall k t, source !! k = Some t <-> (k, t) ∈ cases.
Proof.
  unfold source_case_map. intros Hok.
  destruct (source_map_loop_spec strategy cases ∅) as [(source' & E & H)|[E _]]; [|unfold mismatch in E; congruence].
  assert (source' = source) as -> by congruence.
  assert (H' : forall k t, source !! k = Some t <-> (k, t) ∈ cases).
  { intros k t. rewrite H, lookup_empty. naive_solver. }
  split; [|done]. intros k t t' H1 H2. apply H' in H1, H2. congruence.
Qed.

Lemma source_case_map_ok cases strategy :
  consistent cases -> exists source, source_case_map cases strategy = Ok source.
Proof.
  intros Hc. destruct (source_map_loop_spec strategy cases ∅)
    as [(source & E & _)|[_ (k & t & t' & Hne & H1 & [H2|H2])]]; [by exists source|..].
  - by destruct Hne; apply (Hc k).
  - by rewrite lookup_empty in H2.
Qed.

Lemma walk_routed_spec strategy source entries seen seen' :
  walk_routed strategy source entries seen = Ok seen' <->
  NoDup entries.*1 /\ (forall k t, (k, t) ∈ entries -> source !! k = Some t /\ seen !! k = None) /\
  seen' = list_to_map entries ∪ seen.
Proof.
  revert seen. induction entries as [|[v t] rest IH]; intros seen; cbn [walk_routed].
  { rewrite list_to_map_nil, (left_id_L ∅ (∪)). split.
    - intros [= <-]. split_and!; [constructor|set_solver|done].
    - by intros (_ & _ & ->). }
  rewrite fmap_cons, NoDup_cons, list_to_map_cons. cbn [fst].
  destruct (source !! v) as [st|] eqn:Es.
  2: { split; [discriminate|]. intros (_ & H & _). specialize (H v t). set_solver. }
  destruct (Z.eqb_spec st t) as [->|Hne]; cbn [negb].
  2: { split; [discriminate|]. intros (_ & H & _). destruct (H v t) as [H1 _]; [set_solver|congruence]. }
  destruct (seen !! v) eqn:Ev.
  { split; [discriminate|]. intros (_ & H & _). destruct (H v t) as [_ H1]; [set_solver|congruence]. }
  rewrite IH. split.
  - intros (Hnd & H & ->).
    assert (Hv : v ∉ rest.*1).
    { intros Hin. apply list_elem_of_fmap in Hin as ([v' t'] & Ev' & Hin). cbn in Ev'. subst v'.
      destruct (H v t' Hin) as [_ H1]. by rewrite lookup_insert_eq in H1. }
    split_and!; [done..| |].
    + intros k t' Hin. set_unfold in Hin. destruct Hin as [[= -> ->]|Hin]; [done|].
      destruct (H k t' Hin) as [H1 H2]. apply lookup_insert_None in H2 as [H2 _]. done.
    + rewrite <- insert_union_r, insert_union_l; [done|]. by apply not_elem_of_list_to_map_1.
  - intros ([Hv Hnd] & H & ->). split_and!; [done| |].
    + intros k t' Hin. destruct (H k t') as [H1 H2]; [set_solver|]. split; [done|].
      apply lookup_insert_None. split; [done|]. intros ->. apply Hv.
      apply list_elem_of_fmap. by exists (k, t').
    + rewrite <- insert_union_r, insert_union_l; [done|]. by apply not_elem_of_list_to_map_1.
Qed.

(** The gate accepts exactly when every routed entry is a source case, each
    discriminant is routed once, none is dropped, and a default was wired. *)
Lemma check_mapping_preserved_spec source m strategy :
  check_mapping_preserved source m strategy = Ok tt <->
  is_Some (mdefault m) /\ NoDup (routed m).*1 /\
  forall k t, (k, t) ∈ routed m <-> source !! k = Some t.
Proof.
  unfold check_mapping_preserved, mismatch.
  assert (Hwalk : is_Some (mdefault m) /\ NoDup (routed m).*1 /\
      (forall k t, (k, t) ∈ routed m <-> source !! k = Some t) ->
    walk_routed strategy source (routed m) ∅ = Ok (list_to_map (routed m) ∪ ∅)).
  { intros (_ & Hnd & Hall). apply walk_routed_spec. split_and!; [done| |done].
    intros k t Hin. split; [by apply Hall|apply lookup_empty]. }
  destruct (mdefault m) as [d|]; [|split; [done|]; by intros [[? ?] _]].
  destruct (walk_routed strategy source (routed m) ∅) as [seen|e|] eqn:Ew.
  - apply walk_routed_spec in Ew as (Hnd & H & Es).
    rewrite (right_id_L ∅ (∪)) in Es.
    assert (Hseen : forall k t, seen !! k = Some t <-> (k, t) ∈ routed m).
    { intros k t. subst seen. by rewrite elem_of_list_to_map by done. }
    cbn [mbind Result_bind].
    destruct (forallb _ _) eqn:Ef; cbn [negb].
    + assert (Eeq : seen = source).
      { apply map_eq. intros k. destruct (source !! k) as [t|] eqn:Ek.
        - rewrite forallb_forall in Ef.
          specialize (Ef (k, t) ltac:(by apply list_elem_of_In, elem_of_map_to_list)).
          apply bool_decide_eq_true in Ef as [t' Ht']. cbn [fst] in Ht'.
          rewrite Ht'. apply Hseen in Ht' as Hin. destruct (H _ _ Hin) as [Hs _]. congruence.
        - destruct (seen !! k) as [t|] eqn:Ek'; [|done].
          apply Hseen in Ek' as Hin. destruct (H _ _ Hin). congruence. }
      rewrite Eeq, Nat.eqb_refl. cbn [negb]. split; [|done]. intros _.
      split_and!; [eauto|done|]. intros k t. rewrite <- Hseen. by rewrite Eeq.
    + split; [done|]. intros (_ & _ & Hall). exfalso.
      apply not_true_iff_false in Ef. apply Ef, forallb_forall. intros [k t] Hin.
      apply list_elem_of_In, elem_of_map_to_list in Hin. apply bool_decide_eq_true. cbn [fst].
      exists t. by apply Hseen, Hall.
  - split; [done|]. intros H. pose proof (Hwalk H). congruence.
  - split; [done|]. intros H. pose proof (Hwalk H). congruence.
Qed.

(** ** Running emitted blocks *)

(** Condition flags of [SUBS] at width [w]. *)
Record Flags := mkFlags { fN : bool; fZ : bool; fC : bool; fV : bool }.

Definition subs_flags (w a b : Z) : Flags :=
  let r := wrap w (a - b) in
  mkFlags (Z.testbit r (w - 1)) (r =? 0) (b <=? a)
          (negb (swrap w a - swrap w b =? swrap w r)).

Definition cond_holds (cc : AArch64CC) (fl : Flags) : bool :=
  match cc with
  | EQ => fZ fl | NE => negb (fZ fl)
  | HS => fC fl | LO => negb (fC fl)
  | MI => fN fl | PL => negb (fN fl)
  | VS => fV fl | VC => negb (fV fl)
  | HI => fC fl && negb (fZ fl) | LS => negb (fC fl) || fZ fl
  | GE => eqb (fN fl) (fV fl) | LT => xorb (fN fl) (fV fl)
  | GT => negb (fZ fl) && eqb (fN fl) (fV fl)
  | LE => fZ fl || xorb (fN fl) (fV fl)
  end.

Lemma subs_eq (w a c : Z) :
  1 <= w -> uword w a -> sword w c ->
  cond_holds EQ (subs_flags w a (wrap w c)) = (swrap w a =? c).
Proof.
  intros Hw Ha Hc. cbn. rewrite <- (swrap_small w c) at 2 by done.
  destruct (Z.eqb_spec (wrap w (a - wrap w c)) 0) as [E|E], (Z.eqb_spec (swrap w a) (swrap w c)) as [E'|E'];
    try done; exfalso.
  - apply E'. apply Z.mod_divide in E as [k Ek]; [|apply Z.pow_nonzero; lia].
    rewrite <- (swrap_wrap w c) by lia. apply (swrap_eqmod w _ _ k). lia.
  - apply E. assert (a = wrap w c) as ->.
    { rewrite <- (wrap_swrap w c), <- E', wrap_swrap by lia. symmetry. by apply wrap_small. }
    rewrite Z.sub_diag. apply Z.mod_0_l, Z.pow_nonzero; lia.
Qed.

Lemma testbit_sign (w r : Z) : 1 <= w -> uword w r -> Z.testbit r (w - 1) = (swrap w r <? 0).
Proof.
  intros Hw Hr. pose proof (pow2_half w Hw). unfold uword in Hr.
  pose proof (pow2_pos (w - 1) ltac:(lia)).
  rewrite Z.testbit_eqb by lia. destruct (Z_lt_le_dec r (2 ^ (w - 1))).
  - rewrite Z.div_small by lia. rewrite swrap_small by (unfold sword; lia).
    destruct (Z.ltb_spec r 0); [lia|done].
  - replace (r / 2 ^ (w - 1)) with 1 by (symmetry; apply div_eq_between; lia).
    rewrite (swrap_eqmod w r (r - 2 ^ w) 1), swrap_small by (unfold sword; lia).
    destruct (Z.ltb_spec (r - 2 ^ w) 0); [done|lia].
Qed.

Lemma subs_lt (w a c : Z) :
  1 <= w -> uword w a -> sword w c ->
  cond_holds LT (subs_flags w a (wrap w c)) = (swrap w a <? c).
Proof.
  intros Hw Ha Hc. cbn. set (r := wrap w (a - wrap w c)).
  rewrite testbit_sign by (auto; apply wrap_range; lia).
  rewrite (swrap_wrap w c), (swrap_small w c) by (auto; lia).
  pose proof (swrap_range w a Hw) as Hs. pose proof (pow2_half w Hw).
  assert (Er : exists k, swrap w r = swrap w a - c + k * 2 ^ w).
  { assert (Ewr : wrap w (swrap w r) = wrap w (swrap w a - c)).
    { rewrite wrap_swrap by lia. subst r.
      change (eqmw w (wrap w (a - wrap w c)) (swrap w a - c)).
      rewrite !eqmw_wrap. assert (Ea : eqmw w (swrap w a) a) by (by apply wrap_swrap).
      by rewrite Ea. }
    unfold wrap in Ewr. pose proof (pow2_pos w ltac:(lia)).
    exists (swrap w r / 2 ^ w - (swrap w a - c) / 2 ^ w).
    pose proof (Z.div_mod (swrap w r) (2 ^ w) ltac:(lia)).
    pose proof (Z.div_mod (swrap w a - c) (2 ^ w) ltac:(lia)). lia. }
  destruct Er as [k Ek]. pose proof (swrap_range w r Hw) as Hr. unfold sword in *.
  assert (k = 0 \/ k = 1 \/ k = -1) as [-> | [-> | ->]].
  { pose proof (pow2_pos (w - 1) ltac:(lia)).
    assert (- 2 < k < 2); [|lia].
    split; apply (Z.mul_lt_mono_pos_r (2 ^ w)); lia. }
  all: destruct (Z.ltb_spec (swrap w r) 0), (Z.ltb_spec (swrap w a) c),
    (Z.eqb_spec (swrap w a - c) (swrap w r)); cbn [negb xorb]; done || lia.
Qed.

Lemma subs_hi (w a b : Z) :
  0 <= w -> uword w a -> uword w b -> cond_holds HI (subs_flags w a b) = (b <? a).
Proof.
  intros Hw Ha Hb. cbn. unfold uword in *.
  destruct (Z.leb_spec b a), (Z.ltb_spec b a), (Z.eqb_spec (wrap w (a - b)) 0) as [E|E];
    cbn [andb negb]; try done; try lia; exfalso.
  - rewrite wrap_small in E by (unfold uword; lia). lia.
  - apply E. replace (a - b) with 0 by lia. apply Z.mod_0_l, Z.pow_nonzero; lia.
Qed.

(** What the code generator promises about the addresses of blocks and of the
    jump tables it appends to a function: each table holds 32-bit signed offsets
    from the table base to the target blocks. *)
Class Layout := {
  table_addr : Z -> Z;
  block_addr : Block -> Z;
  load32 : Z -> Z;
  block_at : Z -> option Block;
}.

Class LayoutOk (L : Layout) (tables : list ISelJumpTable) := {
  table_entry j t i b :
    tables !! j = Some t -> jt_targets t !! i = Some b ->
    load32 (wrap 64 (table_addr (Z.of_nat j) + 4 * Z.of_nat i)) =
      block_addr b - table_addr (Z.of_nat j) /\
    uword 64 (block_addr b) /\ block_at (block_addr b) = Some b;
}.

Section Run.
Context {L : Layout}.

(** Run a block's code up to the first taken branch. *)
Fixpoint run (c : list ISelInst) (rf : regs) (fl : option Flags) : option (Block * regs) :=
  match c with
  | [] => None
  | i :: rest =>
      match opcode i, operands i with
      | CmpRI, [VRegOp v; Imm n] =>
          w ← class_width (class v);
          if (0 <=? n) && (n <=? 0xFFF)
          then run rest rf (Some (subs_flags w (wrap w (rf (id v))) n)) else None
      | CmpRR, [VRegOp a; VRegOp b] =>
          w ← class_width (class a);
          run rest rf (Some (subs_flags w (wrap w (rf (id a))) (wrap w (rf (id b)))))
      | BCond, [CondCode cc; BlockOp t] =>
          fl' ← fl;
          if cond_holds cc fl' then Some (t, rf) else run rest rf (Some fl')
      | Bra, [BlockOp t] => Some (t, rf)
      | Adr, [VRegOp d; JumpTableIndex j] => run rest (upd rf (id d) (table_addr j)) fl
      | LdrswRO, [VRegOp d; VRegOp b; VRegOp i] =>
          let a := wrap 64 (wrap 64 (rf (id b)) + 4 * wrap 64 (rf (id i))) in
          run rest (upd rf (id d) (wrap 64 (load32 a))) fl
      | Br, [VRegOp t] => b ← block_at (wrap 64 (rf (id t))); Some (b, rf)
      | _, _ => rf' ← exec_inst i rf; run rest rf' fl
      end
  end.

Lemma run_exec c1 c2 rf rf' fl :
  exec c1 rf = Some rf' -> run (c1 ++ c2) rf fl = run c2 rf' fl.
Proof.
  revert rf. induction c1 as [|[opc ops] c1 IH]; intros rf; cbn [exec app].
  { by intros [= ->]. }
  destruct (exec_inst _ rf) as [rf1|] eqn:E; [|done]. cbn [mbind option_bind]. intros H.
  specialize (IH rf1 H). cbn [run opcode operands].
  destruct opc; try (rewrite E; cbn [mbind option_bind]; exact IH);
    exfalso; unfold exec_inst in E; cbn in E;
    destruct ops as [|[] ops]; try discriminate; destruct (class_width _); discriminate.
Qed.

End Run.

(** Code of a block of a function. *)
Definition fcode (f : ISelFunction) (b : Block) : list ISelInst := insts (block_entry f b).

(** [f'] appends [new] to block [blk] of [f] and allocates [k] registers at most. *)
Definition appends (f f' : ISelFunction) (blk : Block) (new : list ISelInst) (k : Z) : Prop :=
  (forall b, fcode f' b = if b =? blk then fcode f b ++ new else fcode f b) /\
  jump_tables f' = jump_tables f /\ next_vreg f <= next_vreg f' <= next_vreg f + k.

Lemma appends_refl f blk : appends f f blk [] 0.
Proof. split_and!; try done; [|lia..]. intros b. rewrite app_nil_r. by destruct (b =? blk). Qed.

Lemma appends_trans f f1 f2 blk n1 n2 k1 k2 :
  appends f f1 blk n1 k1 -> appends f1 f2 blk n2 k2 -> appends f f2 blk (n1 ++ n2) (k1 + k2).
Proof.
  intros (H1 & H2 & H3) (H4 & H5 & H6). split_and!; [|congruence|lia..].
  intros b. rewrite H4, H1. destruct (b =? blk); [by rewrite app_assoc|done].
Qed.

Lemma fcode_set_block f b blk b' :
  fcode (set_block f b blk) b' = if b' =? b then insts blk else fcode f b'.
Proof.
  unfold fcode, block_entry, set_block. cbn. destruct (Z.eqb_spec b' b) as [->|].
  - by rewrite lookup_insert_eq.
  - by rewrite lookup_insert_ne.
Qed.

Lemma appends_push f blk i : appends f (push_inst f blk i) blk [i] 0.
Proof.
  split_and!; try done; [|cbn; lia..]. intros b. unfold push_inst. rewrite fcode_set_block.
  cbn [insts]. destruct (Z.eqb_spec b blk) as [->|]; done.
Qed.

Lemma appends_push_insts f blk l : appends f (push_insts f blk l) blk l 0.
Proof.
  revert f. induction l as [|i l IH]; intros f; [apply appends_refl|].
  change (appends f (push_insts (push_inst f blk i) blk l) blk ([i] ++ l) (0 + 0)).
  eapply appends_trans; [apply appends_push|apply IH].
Qed.

Lemma appends_set_succ f blk b ss :
  appends f (set_block f b (mkBlock (insts (block_entry f b)) ss)) blk [] 0.
Proof.
  split_and!; try done; [|cbn; lia..]. intros b'. rewrite fcode_set_block.
  cbn [insts]. rewrite app_nil_r. destruct (Z.eqb_spec b' b) as [->|]; by destruct (_ =? blk).
Qed.

Lemma appends_successor f blk b t : appends f (add_successor f b t) blk [] 0.
Proof. apply appends_set_succ. Qed.

Lemma appends_alloc f blk c :
  0 <= next_vreg f < 2 ^ 32 - 1 ->
  fst (alloc_vreg f c) = mkVReg (next_vreg f) c /\
  next_vreg (snd (alloc_vreg f c)) = next_vreg f + 1 /\
  appends f (snd (alloc_vreg f c)) blk [] 1.
Proof.
  intros H. assert (E : wrap 32 (next_vreg f + 1) = next_vreg f + 1)
    by (apply wrap_small; unfold uword; lia).
  split; [done|]. split; [done|]. split; [|split; [done|cbn; lia]].
  intros b. rewrite app_nil_r. by destruct (b =? blk).
Qed.

(** *** Constant chains *)

Lemma emit_movks_eq blk dst skip idx chunks s :
  emit_movks blk dst skip idx chunks s =
  (Ok tt, with_func s (push_insts (func s) blk (movk_list dst skip idx chunks))).
Proof.
  revert idx s. induction chunks as [|c rest IH]; intros idx s; cbn [emit_movks movk_list].
  { by destruct s. }
  unfold mbind, Sel_bind. destruct (c =? skip); [apply IH|]. cbn [emit_movk emit].
  rewrite IH. done.
Qed.

Lemma exec_movz_chain (dst : VReg) (w val : Z) (rf : regs) :
  class_width (class dst) = Some w -> uword w val ->
  exists rf', exec (mkInst Movz [VRegOp dst; Imm (Z.land val 0xFFFF)] ::
                    movk_list dst 0 1 (map (chunk16 val) (seqZ 1 3))) rf = Some rf' /\
    rf' (id dst) = val /\ forall i, i <> id dst -> rf' i = rf i.
Proof.
  intros Hc Hv. pose proof (class_width_cases _ _ Hc) as Hw.
  assert (E64 : wrap 64 val = val).
  { apply wrap_small. unfold uword in *. pose proof (pow2_le w 64 ltac:(lia)). lia. }
  (* at 32 bits the two upper chunks are zero and emit nothing *)
  assert (Hl : movk_list dst 0 1 (map (chunk16 val) (seqZ 1 3)) =
               movk_list dst 0 1 (map (chunk16 val) (seqZ 1 (w / 16 - 1)))).
  { destruct Hw as [-> | ->]; [|done].
    assert (Hz : forall k, 2 <= k -> chunk16 val k = 0).
    { intros k Hk. unfold chunk16. rewrite E64, Z.shiftr_div_pow2, Z.div_small by
        (unfold uword in *; pose proof (pow2_le 32 (k * 16) ltac:(lia)); lia). done. }
    change (seqZ 1 3) with [1; 2; 3]. change (seqZ 1 (32 / 16 - 1)) with [1].
    cbn [map movk_list]. rewrite (Hz 2), (Hz 3) by lia. cbn. done. }
  rewrite Hl. set (s0 := mkSel (mkFunc ∅ [] 0 []) ∅ ∅ ∅ 0 ∅ None).
  destruct (wp_movz_chain 0 dst w Hc val s0 rf
    (fun _ _ rf' => rf' (id dst) = val /\ forall i, i <> id dst -> rf' i = rf i))
    as (u & s1 & new & rf1 & E & Hcode & _ & Hex & Hr).
  { intros s' rf' _ Hv' Ho. split; [|done]. rewrite Hv'. by apply wrap_small. }
  exists rf1. split; [|done]. rewrite <- Hex. f_equal.
  unfold mbind, Sel_bind in E. cbn [emit] in E. rewrite emit_movks_eq, E64 in E.
  injection E as _ <-. cbn in Hcode. symmetry. etransitivity; [symmetry; exact Hcode|].
  etransitivity; [apply (appends_push_insts _ 0)|]. rewrite Z.eqb_refl. done.
Qed.

(** *** Compare-and-branch chains *)

Section Emit.
Context {L : Layout} (v : VReg) (is_32 : bool).
Let w := if is_32 then 32 else 64.
Context (Hv : class_width (class v) = Some w).

Lemma w_cases : w = 32 \/ w = 64.
Proof. subst w. destruct is_32; auto. Qed.

(** Code that only computes flags and temporaries above [n]. *)
Definition sets_flags (n c : Z) (new : list ISelInst) : Prop :=
  forall rf fl rest, exists rf',
    run (new ++ rest) rf fl =
      run rest rf' (Some (subs_flags w (wrap w (rf (id v))) (wrap w c))) /\
    forall i, i < n -> rf' i = rf i.

Lemma emit_cmp_spec f blk c :
  0 <= next_vreg f < 2 ^ 32 - 1 -> id v < next_vreg f -> sword w c ->
  exists new, appends f (emit_cmp f blk (VRegOp v) c is_32) blk new 1 /\
    sets_flags (next_vreg f) c new.
Proof.
  intros Hn Hid Hc. pose proof w_cases as Hw. unfold emit_cmp.
  destruct ((0 <=? c) && (c <=? 0xFFF)) eqn:Ec.
  - eexists. split.
    { destruct (appends_push f blk (mkInst CmpRI [VRegOp v; Imm c])) as (H1 & H2 & H3).
      split_and!; [exact H1|done|lia..]. }
    intros rf fl rest. exists rf. split; [|done]. cbn [app run opcode operands].
    rewrite Hv. cbn [mbind option_bind]. rewrite Ec. do 3 f_equal.
    symmetry. apply wrap_small. unfold uword. pose proof (pow2_le 12 w ltac:(lia)). lia.
  - destruct (appends_alloc f blk (if is_32 then Gpr32 else Gpr64) Hn) as (Ea & En & Ha).
    destruct (alloc_vreg f _) as [tmp f1]. cbn [fst snd] in Ea, En, Ha.
    set (val := if is_32 then wrap 32 c else wrap 64 c).
    assert (Eval : val = wrap w c) by (subst val w; by destruct is_32).
    assert (Hcls : class_width (class tmp) = Some w) by (subst tmp w; by destruct is_32).
    set (chain := mkInst Movz [VRegOp tmp; Imm (Z.land val 0xFFFF)] ::
                  movk_list tmp 0 1 (map (chunk16 val) (seqZ 1 3))).
    exists (chain ++ [mkInst CmpRR [VRegOp v; VRegOp tmp]]). split.
    { eapply (appends_trans _ _ _ _ [] _ 1 0); [exact Ha|].
      apply (appends_trans _ (emit_movz_movk_chain f1 blk tmp val) _ _ chain _ 0 0);
        [apply appends_push_insts|apply appends_push]. }
    intros rf fl rest.
    destruct (exec_movz_chain tmp w val rf Hcls) as (rf1 & Hex & Hval & Ho).
    { rewrite Eval. apply wrap_range. lia. }
    exists rf1. rewrite <- app_assoc. rewrite (run_exec _ _ _ _ _ Hex).
    split.
    + cbn [app run opcode operands]. rewrite Hv. cbn [mbind option_bind].
      rewrite Hval, Ho by (subst tmp; cbn; lia). do 3 f_equal.
      rewrite Eval. apply wrap_small, wrap_range. lia.
    + intros i Hi. apply Ho. subst tmp. cbn. lia.
Qed.

(** One compare-and-branch: taken exactly on its discriminant. *)
Lemma run_case n c t cmp rf fl rest :
  sword w c -> sets_flags n c cmp ->
  exists rf' fl', run (cmp ++ [mkInst BCond [CondCode EQ; BlockOp t]] ++ rest) rf fl =
    (if swrap w (rf (id v)) =? c then Some (t, rf') else run rest rf' fl') /\
    forall i, i < n -> rf' i = rf i.
Proof.
  intros Hc Hs. pose proof w_cases as Hw. destruct (Hs rf fl ([mkInst BCond [CondCode EQ; BlockOp t]] ++ rest))
    as (rf1 & -> & Ho).
  exists rf1, (Some (subs_flags w (wrap w (rf (id v))) (wrap w c))). split; [|done].
  cbn [app run opcode operands mbind option_bind].
  rewrite subs_eq, swrap_wrap by (auto; try apply wrap_range; lia). done.
Qed.

(** Cases at the width of the selector. *)
Definition cases_ok (cases : Cases) : Prop := Forall (fun c => sword w c.1) cases.

Lemma switch_target_cons c t rest default_ x :
  switch_target ((c, t) :: rest) default_ x =
  if c =? x then t else switch_target rest default_ x.
Proof.
  unfold switch_target. cbn [list_find]. destruct (Z.eqb_spec c x) as [->|Hne].
  - by rewrite decide_True.
  - rewrite decide_False by done. cbn. by destruct (list_find _ rest) as [[? []]|].
Qed.

Lemma emit_linear_scan_into_spec f blk cases default_ m :
  0 <= next_vreg f -> next_vreg f + Z.of_nat (length cases) < 2 ^ 32 - 1 ->
  id v < next_vreg f -> cases_ok cases ->
  exists f' new,
    emit_linear_scan_into f blk (VRegOp v) is_32 cases default_ m =
      (f', record_default (record_cases m cases) default_) /\
    appends f f' blk new (Z.of_nat (length cases)) /\
    forall rf fl, exists rf',
      run new rf fl = Some (switch_target cases default_ (swrap w (rf (id v))), rf') /\
      forall i, i < next_vreg f -> rf' i = rf i.
Proof.
  pose proof w_cases as Hw. revert f m. induction cases as [|[c t] rest IH]; intros f m Hn0 Hn Hid Hok.
  { eexists _, _. split; [reflexivity|]. split.
    - eapply (appends_trans _ _ _ _ _ _ 0 0); [apply appends_push|apply appends_successor].
    - intros rf fl. exists rf. split; [|done]. by rewrite app_nil_r. }
  cbn [emit_linear_scan_into length] in *. apply Forall_cons in Hok as [Hc Hok]. cbn [fst] in Hc.
  destruct (emit_cmp_spec f blk c) as (n1 & A1 & S1); [lia|lia|done|].
  set (f1 := emit_cmp f blk (VRegOp v) c is_32) in *.
  set (i2 := mkInst BCond [CondCode EQ; BlockOp t]).
  set (f2 := add_successor (push_inst f1 blk i2) blk t).
  assert (A2 : appends f1 f2 blk [i2] 0)
    by (eapply (appends_trans _ _ _ _ [i2] [] 0 0); [apply appends_push|apply appends_successor]).
  pose proof (appends_trans _ _ _ _ _ _ _ _ A1 A2) as A12.
  assert (N12 : next_vreg f <= next_vreg f2 <= next_vreg f + 1) by (destruct A12 as (_ & _ & H); lia).
  destruct (IH f2 (record_case m c t)) as (f' & n3 & E3 & A3 & R3); [lia|lia|lia|done|].
  exists f', ((n1 ++ [i2]) ++ n3). split; [exact E3|]. split.
  { replace (Z.of_nat (S (length rest))) with (1 + 0 + Z.of_nat (length rest)) by lia.
    eapply appends_trans; eassumption. }
  intros rf fl. rewrite <- app_assoc.
  destruct (run_case (next_vreg f) c t n1 rf fl n3 Hc S1) as (rf1 & fl1 & E1 & Ho).
  subst i2. rewrite E1, switch_target_cons, (Z.eqb_sym c).
  destruct (Z.eqb_spec (swrap w (rf (id v))) c); [by exists rf1|].
  destruct (R3 rf1 fl1) as (rf3 & Hrun3 & Ho3). exists rf3. rewrite Hrun3, (Ho (id v)) by lia.
  split; [done|]. intros i Hi. rewrite Ho3, Ho by lia. done.
Qed.

End Emit.

(** *** Binary search trees *)

Lemma switch_target_skip l1 l2 d x :
  Forall (fun c => c.1 <> x) l1 -> switch_target (l1 ++ l2) d x = switch_target l2 d x.
Proof.
  induction 1 as [|[c t] l1 Hne _ IH]; [done|]. cbn [app]. rewrite switch_target_cons.
  cbn [fst] in Hne. by destruct (Z.eqb_spec c x).
Qed.

Lemma switch_target_none l d x : Forall (fun c => c.1 <> x) l -> switch_target l d x = d.
Proof. intros H. rewrite <- (app_nil_r l). by rewrite switch_target_skip. Qed.

Lemma switch_target_prefix l1 l2 d x :
  Forall (fun c => c.1 <> x) l2 -> switch_target (l1 ++ l2) d x = switch_target l1 d x.
Proof.
  intros H2. induction l1 as [|[c t] l1 IH]; cbn [app].
  - by rewrite switch_target_none.
  - rewrite !switch_target_cons. by destruct (c =? x).
Qed.

Abbreviation key_lt := (fun a b : Z * Block => a.1 < b.1).

(** Splitting a strictly sorted case list at its pivot. *)
Lemma sorted_pivot (cases : Cases) (mid : nat) (p t : Z) d x :
  StronglySorted key_lt cases -> cases !! mid = Some (p, t) ->
  cases = take mid cases ++ (p, t) :: drop (mid + 1) cases /\
  StronglySorted key_lt (take mid cases) /\ StronglySorted key_lt (drop (mid + 1) cases) /\
  switch_target cases d x =
    if x =? p then t else if x <? p then switch_target (take mid cases) d x
    else switch_target (drop (mid + 1) cases) d x.
Proof.
  intros Hs Hm. pose proof (take_drop_middle cases mid (p, t) Hm) as E.
  replace (S mid) with (mid + 1)%nat in E by lia.
  rewrite <- E in Hs. apply StronglySorted_app in Hs as (Hcross & Hl & Hpr).
  apply StronglySorted_cons in Hpr as [Hpr Hr].
  split_and!; [done..|]. rewrite <- E at 1.
  assert (Hlt : Forall (fun c => c.1 < p) (take mid cases)).
  { apply Forall_forall. intros c Hc. apply (Hcross c (p, t) Hc). set_solver. }
  rewrite Forall_forall in Hlt, Hpr.
  destruct (Z.eqb_spec x p) as [->|Hne]; [|destruct (Z.ltb_spec x p)].
  - rewrite switch_target_skip, switch_target_cons, Z.eqb_refl; [done|].
    apply Forall_forall. intros c Hc. specialize (Hlt c Hc). lia.
  - apply switch_target_prefix, Forall_cons. split; [cbn; lia|]. apply Forall_forall.
    intros c Hc. specialize (Hpr c Hc). cbn in Hpr. lia.
  - rewrite switch_target_skip, switch_target_cons.
    + by destruct (Z.eqb_spec p x); [lia|].
    + apply Forall_forall. intros c Hc. specialize (Hlt c Hc). lia.
Qed.

(** Follow branches through [n] intermediate blocks, all of them with an id of at
    least [lo] (synthesized), and report the block then branched to. *)
Fixpoint hops `{Layout} (g : Block -> list ISelInst) (lo : Z) (n : nat) (c : list ISelInst)
    (rf : regs) : option (Block * regs) :=
  match run c rf None with
  | None => None
  | Some (b, rf1) =>
      match n with
      | O => Some (b, rf1)
      | S n' => if lo <=? b then hops g lo n' (g b) rf1 else None
      end
  end.

Lemma fcode_ensure f b b' : fcode (ensure_block f b) b' = fcode f b'.
Proof.
  unfold ensure_block, fcode, block_entry. destruct (blocks f !! b) eqn:E; [done|]. cbn.
  destruct (decide (b' = b)) as [->|]; [by rewrite lookup_insert_eq, E|].
  by rewrite lookup_insert_ne.
Qed.

Lemma appends_alloc_block f n blk :
  0 <= n < 2 ^ 32 - 1 ->
  exists f', alloc_block f n = (n, f', n + 1) /\ appends f f' blk [] 0.
Proof.
  intros Hn. exists (ensure_block f n). unfold alloc_block.
  rewrite wrap_small by (unfold uword; lia). split; [done|]. split.
  - intros b. rewrite fcode_ensure, app_nil_r. by destruct (b =? blk).
  - unfold ensure_block. destruct (blocks f !! n); cbn; split; done || lia.
Qed.

Section Bst.
Context {L : Layout} (v : VReg) (is_32 : bool).
Let w := if is_32 then 32 else 64.
Context (Hv : class_width (class v) = Some w) (default_ : Block).

(** [new] dispatches a switch on [v], going through at most [depth] of the blocks
    [g] with an id of [lo] or more, and keeps the registers below [n]. *)
Definition dispatches (g : Block -> list ISelInst) (lo : Z) (depth : nat) (n : Z)
    (cases : Cases) (new : list ISelInst) : Prop :=
  forall rf, exists k rf', (k <= depth)%nat /\
    hops g lo k new rf = Some (switch_target cases default_ (swrap w (rf (id v))), rf') /\
    forall i, i < n -> rf' i = rf i.

(** The pivot node: equal, less, greater. *)
Definition pivot_code (cmp : list ISelInst) (t l r : Block) : list ISelInst :=
  cmp ++ [mkInst BCond [CondCode EQ; BlockOp t]; mkInst BCond [CondCode LT; BlockOp l];
          mkInst Bra [BlockOp r]].

Lemma run_pivot cmp n p t l r rf :
  sword w p -> sets_flags v is_32 n p cmp ->
  exists rf', run (pivot_code cmp t l r) rf None =
    Some (if swrap w (rf (id v)) =? p then t
          else if swrap w (rf (id v)) <? p then l else r, rf') /\
    forall i, i < n -> rf' i = rf i.
Proof.
  intros Hp Hs. assert (Hw : w = 32 \/ w = 64) by (unfold w; destruct is_32; auto).
  destruct (Hs rf None [mkInst BCond [CondCode EQ; BlockOp t];
    mkInst BCond [CondCode LT; BlockOp l]; mkInst Bra [BlockOp r]]) as (rf' & E & Ho).
  fold w in E. exists rf'. split; [|done]. unfold pivot_code. rewrite E.
  cbn [run opcode operands mbind option_bind].
  rewrite subs_eq, subs_lt, !swrap_wrap by (auto; try apply wrap_range; lia).
  by repeat case_match.
Qed.

Lemma dispatches_pivot g lo depth n n' cases left right mid cmp p t l r :
  StronglySorted key_lt cases -> cases !! mid = Some (p, t) ->
  left = take mid cases -> right = drop (mid + 1) cases ->
  sword w p -> id v < n -> n <= n' -> lo <= l -> lo <= r ->
  sets_flags v is_32 n p cmp ->
  dispatches g lo depth n' left (g l) -> dispatches g lo depth n' right (g r) ->
  dispatches g lo (S depth) n cases (pivot_code cmp t l r).
Proof.
  intros Hsort Hmid -> -> Hp Hid Hn Hl Hr Hs Dl Dr rf.
  destruct (run_pivot cmp n p t l r rf Hp Hs) as (rf1 & E & Ho).
  assert (Ev : rf1 (id v) = rf (id v)) by (apply Ho; lia).
  destruct (sorted_pivot cases mid p t default_ (swrap w (rf (id v))) Hsort Hmid)
    as (_ & _ & _ & ->).
  destruct (swrap w (rf (id v)) =? p).
  { exists 0%nat, rf1. split; [lia|]. cbn. rewrite E. auto. }
  assert (Hgo : forall b sub, dispatches g lo depth n' sub (g b) -> lo <= b ->
    run (pivot_code cmp t l r) rf None = Some (b, rf1) ->
    exists k rf', (k <= S depth)%nat /\ hops g lo k (pivot_code cmp t l r) rf =
      Some (switch_target sub default_ (swrap w (rf (id v))), rf') /\
      forall i, i < n -> rf' i = rf i).
  { intros b sub D Hb Er. destruct (D rf1) as (k & rf2 & Hk & Eh & Ho2).
    exists (S k), rf2. split; [lia|]. cbn [hops]. rewrite Er.
    destruct (Z.leb_spec lo b); [|lia]. rewrite Eh, Ev. split; [done|].
    intros i Hi. rewrite Ho2, Ho by lia. done. }
  destruct (swrap w (rf (id v)) <? p); eauto.
Qed.

(** What emitting a subtree for [cases] into [block] does to the emission state. *)
Definition emits_tree (cases : Cases) (block : Block) (st st' : BstState) : Prop :=
  exists new,
    bnext st <= bnext st' <= bnext st + 2 * Z.of_nat (length cases) /\
    (forall b, b < bnext st \/ bnext st' <= b ->
       fcode (bf st') b = if b =? block then fcode (bf st) b ++ new else fcode (bf st) b) /\
    jump_tables (bf st') = jump_tables (bf st) /\
    next_vreg (bf st) <= next_vreg (bf st') <=
      next_vreg (bf st) + Z.of_nat (length cases) /\
    mdefault (bmap st') = Some default_ /\
    routed (bmap st') ≡ₚ routed (bmap st) ++ cases /\
    forall g lo, (forall b, bnext st <= b < bnext st' -> g b = fcode (bf st') b) ->
      lo <= bnext st ->
      dispatches g lo (Nat.log2 (length cases)) (next_vreg (bf st)) cases new.

(** Room for the registers and blocks of a subtree. *)
Definition tree_room (cases : Cases) (block : Block) (st : BstState) : Prop :=
  0 <= next_vreg (bf st) /\ next_vreg (bf st) + Z.of_nat (length cases) < 2 ^ 32 - 1 /\
  id v < next_vreg (bf st) /\
  0 <= bnext st /\ bnext st + 2 * Z.of_nat (length cases) < 2 ^ 32 - 1 /\ block < bnext st /\
  forall b, bnext st <= b -> fcode (bf st) b = [].

Lemma record_cases_routed m cases :
  routed (record_cases m cases) = routed m ++ cases /\
  mdefault (record_cases m cases) = mdefault m.
Proof.
  revert m. induction cases as [|[c t] rest IH]; intros m; [by rewrite app_nil_r|].
  change (record_cases m ((c, t) :: rest)) with (record_cases (record_case m c t) rest).
  destruct (IH (record_case m c t)) as [-> ->]. cbn. by rewrite <- app_assoc.
Qed.

Lemma emits_leaf cases block st :
  tree_room cases block st -> cases_ok is_32 cases ->
  let '(f, m) := emit_linear_scan_into (bf st) block (VRegOp v) is_32 cases default_ (bmap st) in
  emits_tree cases block st (mkBst f (bnext st) m).
Proof.
  intros (Hn0 & Hn & Hid & _) Hok.
  destruct (emit_linear_scan_into_spec v is_32 Hv (bf st) block cases default_ (bmap st))
    as (f' & new & -> & (Hc & Hj & Hvr) & Hrun); [done..|].
  destruct (record_cases_routed (bmap st) cases) as [Er Ed].
  exists new. cbn. split_and!; [lia..| | |lia|lia|done| |].
  - intros b _. apply Hc.
  - done.
  - by rewrite Er.
  - intros g lo _ _ rf. destruct (Hrun rf None) as (rf' & E & Ho).
    exists 0%nat, rf'. split; [lia|]. cbn [hops]. rewrite E. done.
Qed.

(** The pivot node's contribution to [block], its two blocks allocated. *)
Lemma emits_pivot f n block p t :
  0 <= next_vreg f < 2 ^ 32 - 1 -> id v < next_vreg f -> sword w p ->
  0 <= n < 2 ^ 32 - 2 ->
  exists f2 cmp,
    alloc_block f n = (n, ensure_block f n, n + 1) /\
    alloc_block (ensure_block f n) (n + 1) = (n + 1, f2, n + 2) /\
    sets_flags v is_32 (next_vreg f) p cmp /\
    appends f
      (add_successor (add_successor (add_successor
         (push_inst (push_inst (push_inst (emit_cmp f2 block (VRegOp v) p is_32) block
            (mkInst BCond [CondCode EQ; BlockOp t])) block
            (mkInst BCond [CondCode LT; BlockOp n])) block
            (mkInst Bra [BlockOp (n + 1)])) block t) block n) block (n + 1))
      block (pivot_code cmp t n (n + 1)) 1.
Proof.
  intros Hn Hid Hp Hb.
  destruct (appends_alloc_block f n block) as (f1 & E1 & A1); [lia|].
  assert (f1 = ensure_block f n) as -> by (unfold alloc_block in E1; congruence).
  destruct (appends_alloc_block (ensure_block f n) (n + 1) block) as (f2 & E2 & A2); [lia|].
  assert (Hv2 : next_vreg f2 = next_vreg f)
    by (destruct A1 as (_ & _ & ?), A2 as (_ & _ & ?); lia).
  destruct (emit_cmp_spec v is_32 Hv f2 block p) as (cmp & A3 & Hs); [lia|lia|done|].
  exists f2, cmp. split_and!; [done|rewrite E2; f_equal; lia|by rewrite <- Hv2|].
  pose proof (appends_trans _ _ _ _ _ _ _ _ A1 (appends_trans _ _ _ _ _ _ _ _ A2 A3)) as A.
  apply (appends_trans _ _ _ _ cmp _ 1 0 A).
  do 3 (eapply (appends_trans _ _ _ _ [_; _; _] [] 0 0); [|apply appends_successor]).
  eapply (appends_trans _ _ _ _ [_; _] [_] 0 0); [|apply appends_push].
  eapply (appends_trans _ _ _ _ [_] [_] 0 0); apply appends_push.
Qed.

(** Composition of a pivot node with the trees of its two halves. *)
Lemma emits_node cases block mid p t cmp st st1 st2 st3 :
  StronglySorted key_lt cases -> cases_ok is_32 cases -> cases !! mid = Some (p, t) ->
  mid = (length cases / 2)%nat -> (2 <= length cases)%nat -> tree_room cases block st ->
  bnext st1 = bnext st + 2 -> bmap st1 = record_case (bmap st) p t ->
  sets_flags v is_32 (next_vreg (bf st)) p cmp ->
  appends (bf st) (bf st1) block (pivot_code cmp t (bnext st) (bnext st + 1)) 1 ->
  emits_tree (take mid cases) (bnext st) st1 st2 ->
  emits_tree (drop (mid + 1) cases) (bnext st + 1) st2 st3 ->
  emits_tree cases block st st3.
Proof.
  intros Hsort Hok Hmid Emid Hlen (Hn0 & Hn & Hid & Hb0 & Hb & Hblk & Hfresh) En Em Hs
    (Ac & Aj & Av) (newl & Ln & Lc & Lj & Lv & Ld & Lr & LD)
    (newr & Rn & Rc & Rj & Rv & Rd & Rr & RD).
  destruct (sorted_pivot cases mid p t default_ 0 Hsort Hmid) as (Ecases & _).
  rewrite length_take in *. rewrite length_drop in *.
  assert (Hdiv : (2 * mid <= length cases)%nat /\ (length cases <= 2 * mid + 1)%nat).
  { pose proof (Nat.div_mod (length cases) 2). pose proof (Nat.mod_upper_bound (length cases) 2). lia. }
  exists (pivot_code cmp t (bnext st) (bnext st + 1)).
  split_and!; [lia|lia| |congruence|lia|lia|done| |].
  - intros b Hbb. rewrite Rc, Lc, Ac by lia.
    destruct (Z.eqb_spec b (bnext st + 1)), (Z.eqb_spec b (bnext st)); (lia || done).
  - rewrite Rr, Lr, Em. cbn [record_case routed]. rewrite Ecases at 3.
    rewrite <- !app_assoc. f_equiv. cbn [app].
    rewrite <- Permutation_middle. done.
  - intros g lo Hg Hlo.
    assert (Hlog : Nat.log2 (length cases) = S (Nat.log2 mid)).
    { rewrite Emid. destruct (Nat.Even_or_Odd (length cases)) as [[m E]|[m E]]; rewrite E.
      - rewrite Nat.mul_comm, Nat.div_mul, Nat.mul_comm, Nat.log2_double by lia. done.
      - replace ((2 * m + 1) / 2)%nat with m by (apply Nat.div_unique with 1%nat; lia).
        rewrite Nat.log2_succ_double by lia. done. }
    rewrite Hlog.
    assert (El : g (bnext st) = newl).
    { rewrite Hg, Rc, Lc, Ac by lia.
      destruct (Z.eqb_spec (bnext st) (bnext st + 1)), (Z.eqb_spec (bnext st) (bnext st)),
        (Z.eqb_spec (bnext st) block); try lia. by rewrite Hfresh by lia. }
    assert (Er : g (bnext st + 1) = newr).
    { rewrite Hg, Rc, Lc, Ac by lia.
      destruct (Z.eqb_spec (bnext st + 1) (bnext st + 1)), (Z.eqb_spec (bnext st + 1) (bnext st)),
        (Z.eqb_spec (bnext st + 1) block); try lia. by rewrite Hfresh by lia. }
    apply (dispatches_pivot g lo (Nat.log2 mid) (next_vreg (bf st)) (next_vreg (bf st1)) cases
             (take mid cases) (drop (mid + 1) cases) mid cmp p t); try done; try lia.
    + apply Forall_lookup_1 with (1 := Hok) in Hmid. done.
    + rewrite El. rewrite Nat.min_l in LD by lia. apply LD; [|lia].
      intros b Hbb. rewrite Hg, Rc by lia. by destruct (Z.eqb_spec b (bnext st + 1)); [lia|].
    + rewrite Er. intros rf. destruct (RD g lo ltac:(intros; apply Hg; lia) ltac:(lia) rf)
        as (k & rf' & Hk & E & Ho).
      exists k, rf'. split_and!; [|done|intros; apply Ho; lia].
      etransitivity; [exact Hk|]. apply Nat.log2_le_mono. lia.
Qed.

Lemma emit_bst_node_spec fuel cases block st :
  (length cases < fuel)%nat -> StronglySorted key_lt cases -> cases_ok is_32 cases ->
  tree_room cases block st ->
  emits_tree cases block st (emit_bst_node fuel (VRegOp v) is_32 default_ cases block st).
Proof.
  revert cases block st. induction fuel as [|fuel IH]; intros cases block st Hf Hsort Hok Hroom;
    [lia|]. cbn [emit_bst_node].
  destruct (Z.leb_spec (Z.of_nat (length cases)) LINEAR_SCAN_MAX) as [Hle|Hgt].
  { pose proof (emits_leaf cases block st Hroom Hok) as H.
    by destruct (emit_linear_scan_into _ _ _ _ _ _ _). }
  unfold LINEAR_SCAN_MAX in Hgt. set (mid := (length cases / 2)%nat).
  assert (Hdiv : (2 * mid <= length cases <= 2 * mid + 1)%nat).
  { subst mid. pose proof (Nat.div_mod (length cases) 2).
    pose proof (Nat.mod_upper_bound (length cases) 2). lia. }
  destruct (lookup_lt_is_Some_2 cases mid) as [[p t] Hmid]; [lia|]. rewrite Hmid.
  destruct (sorted_pivot cases mid p t default_ 0 Hsort Hmid) as (Ecases & Hsl & Hsr & _).
  assert (Hok' := Hok). unfold cases_ok in Hok'. rewrite Ecases in Hok'.
  apply Forall_app in Hok' as [Hokl Hokr]. apply Forall_cons in Hokr as [Hp Hokr].
  assert (Hroom' := Hroom). destruct Hroom' as (Hn0 & Hn & Hid & Hb0 & Hb & Hblk & Hfresh).
  destruct (emits_pivot (bf st) (bnext st) block p t) as (f2 & cmp & -> & -> & Hs & A);
    [lia|lia|done|lia|].
  pose proof (length_take cases mid) as Hll. pose proof (length_drop cases (mid + 1)) as Hlr.
  destruct (take mid cases) as [|cl ll] eqn:El; [cbn [length] in Hll; lia|]. rewrite <- El in *.
  destruct (drop (mid + 1) cases) as [|cr lr] eqn:Er; [cbn [length] in Hlr; lia|]. rewrite <- Er in *.
  set (st1 := mkBst _ (bnext st + 2) _).
  assert (Hvr : next_vreg (bf st) <= next_vreg (bf st1) <= next_vreg (bf st) + 1)
    by (destruct A as (_ & _ & A); exact A).
  assert (Hc1 : forall b, bnext st <= b -> fcode (bf st1) b = []).
  { intros b Hbb. destruct A as [A _]. cbn [bf st1]. rewrite A.
    destruct (Z.eqb_spec b block); [lia|auto]. }
  assert (E1 : bnext st1 = bnext st + 2) by done.
  assert (T1 : emits_tree (take mid cases) (bnext st) st1
    (emit_bst_node fuel (VRegOp v) is_32 default_ (take mid cases) (bnext st) st1)).
  { apply IH; [lia|done..|]. split_and!; try lia. intros b Hbb. apply Hc1. lia. }
  set (st2 := emit_bst_node fuel _ _ _ (take mid cases) _ _) in *.
  eapply (emits_node cases block mid p t cmp st st1 st2); try done; [lia|].
  apply IH; [lia|done..|]. destruct T1 as (newl & Ln & Lc & _ & Lv & _).
  split_and!; try lia. intros b Hbb. rewrite Lc, Hc1 by lia.
  destruct (Z.eqb_spec b (bnext st)); [lia|done].
Qed.

End Bst.

(** *** Sorting *)

Lemma insert_case_perm c l : insert_case c l ≡ₚ c :: l.
Proof.
  induction l as [|d rest IH]; cbn [insert_case]; [done|].
  destruct (c.1 <=? d.1); [done|]. rewrite IH. apply Permutation_swap.
Qed.

Lemma sort_cases_perm cases : sort_cases cases ≡ₚ cases.
Proof.
  induction cases as [|c rest IH]; [done|]. unfold sort_cases in *. cbn [foldr].
  rewrite insert_case_perm. by f_equiv.
Qed.

Lemma insert_case_sorted c l :
  c.1 ∉ l.*1 -> StronglySorted key_lt l -> StronglySorted key_lt (insert_case c l).
Proof.
  intros Hc Hs. induction Hs as [|d rest Hs IH Hd]; cbn [insert_case].
  { repeat constructor. }
  assert (Hne : c.1 <> d.1) by (intros E; apply Hc; rewrite E; left).
  destruct (Z.leb_spec c.1 d.1).
  - constructor; [by constructor|]. constructor; [lia|].
    eapply Forall_impl; [exact Hd|]. cbn. lia.
  - constructor; [apply IH; intros E; apply Hc; by right|].
    rewrite insert_case_perm. constructor; [lia|done].
Qed.

(** The stable sort yields strictly increasing discriminants when they are distinct. *)
Lemma sort_cases_sorted cases : NoDup cases.*1 -> StronglySorted key_lt (sort_cases cases).
Proof.
  induction cases as [|c rest IH]; [constructor|]. rewrite fmap_cons, NoDup_cons.
  intros [Hc Hnd]. apply insert_case_sorted; [|by apply IH].
  by rewrite (sort_cases_perm rest).
Qed.

Lemma NoDup_consistent cases : NoDup cases.*1 -> consistent cases.
Proof.
  intros Hnd k t t' H1 H2. apply elem_of_list_to_map in H1, H2; [congruence|done..].
Qed.

(** In a consistent case list a discriminant has one target. *)
Lemma switch_target_elem cases d k t :
  consistent cases -> (k, t) ∈ cases -> switch_target cases d k = t.
Proof.
  induction cases as [|[c t'] rest IH]; intros Hc Hin; [by apply not_elem_of_nil in Hin|].
  rewrite switch_target_cons. destruct (Z.eqb_spec c k) as [->|Hne].
  - apply (Hc k); [left|done].
  - apply IH; [|set_solver]. intros k' t1 t2 H1 H2. apply (Hc k'); by right.
Qed.

Lemma switch_target_absent cases d k :
  (forall t, (k, t) ∉ cases) -> switch_target cases d k = d.
Proof.
  intros H. apply switch_target_none, Forall_forall. intros [c t] Hin E. cbn in E. subst c.
  by apply (H t).
Qed.

Lemma switch_target_lookup cases d (m : gmap Z Z) k :
  (forall k t, m !! k = Some t <-> (k, t) ∈ cases) ->
  switch_target cases d k = default d (m !! k).
Proof.
  intros Hm. assert (Hc : consistent cases).
  { intros k' t1 t2 H1%Hm H2%Hm. congruence. }
  destruct (m !! k) as [t|] eqn:E; cbn [default].
  - apply switch_target_elem; [done|]. by apply Hm.
  - apply switch_target_absent. intros t Hin%Hm. congruence.
Qed.

Lemma switch_target_perm cases cases' d k :
  NoDup cases.*1 -> cases ≡ₚ cases' -> switch_target cases d k = switch_target cases' d k.
Proof.
  intros Hnd Hp. rewrite (switch_target_lookup cases d (list_to_map cases)).
  - symmetry. apply switch_target_lookup. intros k' t. rewrite <- Hp.
    symmetry. by apply elem_of_list_to_map.
  - intros k' t. symmetry. by apply elem_of_list_to_map.
Qed.

(** *** What each strategy's gate accepts *)

Lemma linear_scan_mapping f blk sel is_32 cases d m :
  snd (emit_linear_scan_into f blk sel is_32 cases d m) = record_default (record_cases m cases) d.
Proof.
  revert f m. induction cases as [|[c t] rest IH]; intros f m; [done|].
  cbn [emit_linear_scan_into]. rewrite IH. done.
Qed.

Lemma bst_mapping fuel sel is_32 d cases block st :
  (length cases < fuel)%nat ->
  let st' := emit_bst_node fuel sel is_32 d cases block st in
  routed (bmap st') ≡ₚ routed (bmap st) ++ cases /\ mdefault (bmap st') = Some d.
Proof.
  revert cases block st. induction fuel as [|fuel IH]; intros cases block st Hf; [lia|].
  cbn [emit_bst_node].
  destruct (Z.leb_spec (Z.of_nat (length cases)) LINEAR_SCAN_MAX) as [Hle|Hgt].
  { pose proof (linear_scan_mapping (bf st) block sel is_32 cases d (bmap st)) as E.
    destruct (emit_linear_scan_into _ _ _ _ _ _ _) as [f m]. cbn in E |- *. subst m. cbn.
    destruct (record_cases_routed (bmap st) cases) as [-> _]. done. }
  unfold LINEAR_SCAN_MAX in Hgt. pose proof (Nat.div_mod (length cases) 2 ltac:(lia)) as Hdm.
  pose proof (Nat.mod_upper_bound (length cases) 2 ltac:(lia)).
  set (mid := (length cases / 2)%nat) in *.
  destruct (lookup_lt_is_Some_2 cases mid) as [[p t] Hmid]; [lia|]. rewrite Hmid.
  pose proof (take_drop_middle cases mid _ Hmid) as Ec. rewrite <- Nat.add_1_r in Ec.
  pose proof (length_take cases mid) as Hll. pose proof (length_drop cases (mid + 1)) as Hlr.
  cbn [alloc_block].
  destruct (take mid cases) as [|cl ll] eqn:El; [cbn [length] in Hll; lia|].
  destruct (drop (mid + 1) cases) as [|cr lr] eqn:Er; [cbn [length] in Hlr; lia|].
  rewrite <- El, <- Er in *.
  match goal with |- context [emit_bst_node fuel sel is_32 d (drop _ _) ?b2 ?st2] =>
    destruct (IH (drop (mid + 1) cases) b2 st2) as [-> ->]; [lia|] end.
  match goal with |- context [emit_bst_node fuel sel is_32 d (take _ _) ?b1 ?st1] =>
    destruct (IH (take mid cases) b1 st1) as [-> _]; [lia|] end.
  split; [|done]. cbn [bmap record_case routed]. rewrite <- Ec at 3.
  rewrite <- !app_assoc. f_equiv. cbn [app]. by rewrite <- Permutation_middle.
Qed.

(** A complete mapping that routes a permutation of the cases passes the gate
    exactly when no discriminant repeats. *)
Lemma gate_permutation cases m d strategy :
  routed m ≡ₚ cases -> mdefault m = Some d ->
  (source ← source_case_map cases strategy; check_mapping_preserved source m strategy) = Ok tt <->
  NoDup cases.*1.
Proof.
  intros Hp Hd. split.
  - destruct (source_case_map cases strategy) as [source|e|] eqn:E; cbn; try done.
    intros (_ & Hnd & _)%check_mapping_preserved_spec. by rewrite Hp in Hnd.
  - intros Hnd. destruct (source_case_map_ok cases strategy) as [source E];
      [by apply NoDup_consistent|]. rewrite E. cbn. apply check_mapping_preserved_spec.
    split_and!; [by rewrite Hd|by rewrite Hp|].
    intros k t. rewrite Hp. apply source_case_map_spec in E as [_ E]. by rewrite E.
Qed.

Lemma cascade_gate cases d : check_cascade_preserved cases d = Ok tt <-> NoDup cases.*1.
Proof.
  apply (gate_permutation cases (record_default (record_cases empty_mapping cases) d) d).
  - cbn. by destruct (record_cases_routed empty_mapping cases) as [-> _].
  - done.
Qed.

Lemma binary_search_gate f n sel is_32 cases d entry :
  fst (emit_binary_search f n sel is_32 cases d entry) = Ok tt <-> NoDup cases.*1.
Proof.
  unfold emit_binary_search.
  set (st := emit_bst_node _ _ _ _ _ _ _).
  destruct (bst_mapping (S (length (sort_cases cases))) sel is_32 d (sort_cases cases) entry
              (mkBst f n empty_mapping)) as [Hr Hd]; [lia|]. fold st in Hr, Hd.
  rewrite <- (gate_permutation cases (bmap st) d "BinarySearch" (transitivity Hr (sort_cases_perm cases)) Hd).
  by destruct (source_case_map cases "BinarySearch").
Qed.

(** The slots of a dense table that the source names. *)
Definition slot_cases (source : gmap Z Z) (value : Z) (n : nat) : Cases :=
  omap (fun k => (k,.) <$> source !! k) (seqZ value (Z.of_nat n)).

Lemma check_slots_dense strategy source d value slots m :
  (forall i t, slots !! i = Some t -> t = default d (source !! (value + Z.of_nat i))) ->
  check_slots strategy source d value slots m =
    Ok (record_cases m (slot_cases source value (length slots))).
Proof.
  revert value m. induction slots as [|t rest IH]; intros value m H; [done|].
  assert (Ht : t = default d (source !! value)) by (rewrite (H 0%nat t) by done; do 2 f_equal; lia).
  assert (Hrest : forall i t', rest !! i = Some t' -> t' = default d (source !! (value + 1 + Z.of_nat i))).
  { intros i t' Hi. rewrite (H (S i) t') by done. do 2 f_equal. lia. }
  cbn [check_slots length]. unfold slot_cases. rewrite seqZ_cons by lia.
  replace (Z.pred (Z.of_nat (S (length rest)))) with (Z.of_nat (length rest)) by lia.
  replace (Z.succ value) with (value + 1) by lia. cbn [omap list_omap].
  destruct (source !! value) as [st|]; cbn in Ht |- *; subst t; rewrite Z.eqb_refl;
    cbn [negb]; by rewrite IH.
Qed.

Lemma slot_cases_elem source value n k t :
  (k, t) ∈ slot_cases source value n <->
  source !! k = Some t /\ value <= k < value + Z.of_nat n.
Proof.
  unfold slot_cases. rewrite list_elem_of_omap. split.
  - intros (k' & Hk & E). apply elem_of_seqZ in Hk.
    destruct (source !! k') as [t'|] eqn:Es; [|done]. injection E as -> ->. done.
  - intros [Es Hk]. exists k. rewrite elem_of_seqZ, Es. done.
Qed.

Lemma slot_cases_NoDup source value n : NoDup (slot_cases source value n).*1.
Proof.
  unfold slot_cases. pose proof (NoDup_seqZ value (Z.of_nat n)) as H.
  induction H as [|k rest Hk _ IH]; [constructor|]. cbn [omap list_omap].
  destruct (source !! k) as [t|]; cbn; [|done]. constructor; [|done].
  intros (c & Ec & Hin)%list_elem_of_fmap. apply list_elem_of_omap in Hin as (k' & Hk' & E).
  destruct (source !! k') as [t'|]; [|done]. injection E as <-. cbn in Ec. by subst k'.
Qed.

Lemma case_min_spec cases lo :
  case_min cases = Some lo ->
  (exists t, (lo, t) ∈ cases) /\ forall k t, (k, t) ∈ cases -> lo <= k.
Proof.
  destruct cases as [|[v t] rest]; [done|]. cbn [case_min]. intros [= <-].
  induction rest as [|[k' t'] rest [[t0 IH1] IH2]]; cbn [foldr fst].
  { split; [exists t; left|]. intros k t0 [= -> ->]%list_elem_of_singleton. lia. }
  split.
  - destruct (Z.min_spec k' (foldr (fun c m => Z.min c.1 m) v rest)) as [[_ ->]|[_ ->]];
      [exists t'|exists t0]; rewrite !elem_of_cons in *; tauto.
  - intros k t1 [[= -> ->]|[[= -> ->]|H]%elem_of_cons]%elem_of_cons; [|lia|].
    + specialize (IH2 v t ltac:(left)). lia.
    + specialize (IH2 k t1 ltac:(by right)). lia.
Qed.

Lemma case_max_spec cases hi :
  case_max cases = Some hi ->
  (exists t, (hi, t) ∈ cases) /\ forall k t, (k, t) ∈ cases -> k <= hi.
Proof.
  destruct cases as [|[v t] rest]; [done|]. cbn [case_max]. intros [= <-].
  induction rest as [|[k' t'] rest [[t0 IH1] IH2]]; cbn [foldr fst].
  { split; [exists t; left|]. intros k t0 [= -> ->]%list_elem_of_singleton. lia. }
  split.
  - destruct (Z.max_spec k' (foldr (fun c m => Z.max c.1 m) v rest)) as [[_ ->]|[_ ->]];
      [exists t0|exists t']; rewrite !elem_of_cons in *; tauto.
  - intros k t1 [[= -> ->]|[[= -> ->]|H]%elem_of_cons]%elem_of_cons; [|lia|].
    + specialize (IH2 v t ltac:(left)). lia.
    + specialize (IH2 k t1 ltac:(by right)). lia.
Qed.

Lemma collect_cases_spec cases :
  consistent cases -> forall k t, collect_cases cases !! k = Some t <-> (k, t) ∈ cases.
Proof.
  unfold collect_cases. induction cases as [|[c t'] cases IH] using rev_ind; intros Hc k t.
  { cbn. rewrite lookup_empty. set_solver. }
  assert (Hc' : consistent cases) by (intros k' t1 t2 H1 H2; apply (Hc k'); set_solver).
  rewrite foldl_app. cbn [foldl fst snd]. rewrite lookup_insert_Some, IH by done.
  rewrite elem_of_app, list_elem_of_singleton. split.
  - intros [[-> ->]|[_ H]]; auto.
  - intros [H|[= -> ->]]; [|auto]. destruct (decide (c = k)) as [->|]; [|auto].
    left. split; [done|]. apply (Hc k); set_solver.
Qed.

(** The dense table lists the source targets of [min .. max]. *)
Lemma dense_targets_lookup cases d lo range i t :
  consistent cases -> dense_targets cases d lo range !! i = Some t ->
  t = switch_target cases d (lo + Z.of_nat i) /\ Z.of_nat i <= range.
Proof.
  intros Hc Hi. unfold dense_targets in Hi. apply list_lookup_fmap_Some in Hi as (j & -> & Hj).
  apply lookup_seqZ in Hj as [-> Hlt]. split; [|lia].
  rewrite (switch_target_lookup cases d (collect_cases cases)); [do 2 f_equal; lia|].
  by apply collect_cases_spec.
Qed.

Lemma dense_targets_length cases d lo range :
  Z.of_nat (length (dense_targets cases d lo range)) = Z.max 0 (range + 1).
Proof. unfold dense_targets. rewrite length_map, length_seqZ. lia. Qed.

Lemma case_bounds_some cases :
  cases <> [] -> exists lo hi, case_min cases = Some lo /\ case_max cases = Some hi.
Proof. destruct cases as [|[v t] rest]; [done|]. cbn. eauto. Qed.

(** The dense gate accepts a consistent switch when the table spans [min .. max]. *)
Lemma check_jump_table_iff cases d lo hi range :
  case_min cases = Some lo -> case_max cases = Some hi ->
  check_jump_table_preserved cases d lo (dense_targets cases d lo range) = Ok tt <->
  consistent cases /\ range = hi - lo.
Proof.
  intros Elo Ehi. apply case_min_spec in Elo as Hlo. apply case_max_spec in Ehi as Hhi.
  assert (Hle : lo <= hi) by (destruct Hlo as [[t H] _], Hhi as [_ H']; by apply (H' lo t)).
  unfold check_jump_table_preserved. rewrite Elo, Ehi, Z.eqb_refl, dense_targets_length.
  cbn [negb]. unfold mismatch. split.
  - destruct (source_case_map _ _) as [source|e|] eqn:Es; cbn [mbind Result_bind]; try done.
    destruct (Z.eqb_spec (hi - lo + 1) (Z.max 0 (range + 1))); cbn [negb]; [|done]. intros _.
    split; [by apply source_case_map_spec in Es as [Hc _]|lia].
  - intros [Hc ->]. destruct (source_case_map_ok cases "JumpTable" Hc) as [source Es]. rewrite Es.
    cbn [mbind Result_bind]. rewrite Z.max_r, Z.eqb_refl by lia. cbn [negb].
    apply source_case_map_spec in Es as [_ Es].
    rewrite check_slots_dense.
    2: { intros i t Hi. apply dense_targets_lookup in Hi as [-> _]; [|done].
         by apply switch_target_lookup. }
    cbn [mbind Result_bind]. apply check_mapping_preserved_spec.
    destruct (record_cases_routed (record_default empty_mapping d)
      (slot_cases source lo (length (dense_targets cases d lo (hi - lo))))) as [-> ->]. cbn.
    split_and!; [done|apply slot_cases_NoDup|]. intros k t. rewrite slot_cases_elem.
    rewrite dense_targets_length. split; [by intros [H _]|]. intros H. split; [done|].
    apply Es in H. pose proof (proj2 Hlo k t H). pose proof (proj2 Hhi k t H). lia.
Qed.

(** At 64-bit width a wrapped span is the real one exactly when it is below [2^63]. *)
Lemma span_wraps lo hi :
  sword 64 lo -> sword 64 hi -> lo <= hi ->
  swrap 64 (hi - lo) = hi - lo <-> hi - lo < 2 ^ 63.
Proof.
  intros Hlo Hhi Hle. unfold sword in *. split.
  - intros E. pose proof (swrap_range 64 (hi - lo) ltac:(lia)) as H. unfold sword in H. lia.
  - intros H. apply swrap_small; unfold sword; lia.
Qed.


(** *** Jump-table dispatch *)

Section Table.
Context {L : Layout}.

(** [new] computes [val] into [d], touching otherwise only registers from [n] on. *)
Definition computes (n : Z) (d : VReg) (val : regs -> Z) (new : list ISelInst) : Prop :=
  forall rf fl rest, exists rf',
    run (new ++ rest) rf fl = run rest rf' fl /\ rf' (id d) = val rf /\
    forall i, i < n -> i <> id d -> rf' i = rf i.

Lemma computes_exec n d val new :
  (forall rf, exists rf', exec new rf = Some rf' /\ rf' (id d) = val rf /\
     forall i, i < n -> i <> id d -> rf' i = rf i) ->
  computes n d val new.
Proof.
  intros H rf fl rest. destruct (H rf) as (rf' & E & Hd & Ho). exists rf'.
  by rewrite (run_exec _ _ _ _ _ E).
Qed.

Lemma emit_index_spec f blk d nv lo :
  0 <= next_vreg f < 2 ^ 32 - 1 -> id d < next_vreg f -> id nv < next_vreg f ->
  class d = Gpr64 -> class_width (class nv) = Some 64 -> sword 64 lo ->
  exists new, appends f (emit_index f blk d (VRegOp nv) lo) blk new 1 /\
    computes (next_vreg f) d (fun rf => wrap 64 (rf (id nv) - lo)) new.
Proof.
  intros Hn Hd Hnv Hcd Hcnv Hlo. unfold emit_index.
  assert (Hone : forall i, appends f (push_inst f blk i) blk [i] 1).
  { intros i. destruct (appends_push f blk i) as (H1 & H2 & H3). split_and!; [exact H1|done|lia..]. }
  destruct (Z.eqb_spec lo 0) as [->|Hne]; [|destruct ((0 <? lo) && (lo <=? 0xFFF)) eqn:Er].
  - eexists. split; [apply Hone|]. apply computes_exec. intros rf.
    cbn [exec exec_inst operands opcode]. rewrite Hcd. cbn. eexists. split; [done|].
    rewrite upd_eq, Z.sub_0_r. split; [done|]. intros i _ Hi. by rewrite upd_ne.
  - eexists. split; [apply Hone|]. apply computes_exec. intros rf.
    cbn [exec exec_inst operands opcode]. rewrite Hcd. cbn.
    replace (0 <=? lo) with true by lia. replace (lo <=? 4095) with true by lia. cbn.
    eexists. split; [done|]. rewrite upd_eq. split.
    + change (eqmw 64 (wrap 64 (rf (id nv)) - lo) (rf (id nv) - lo)). by rewrite eqmw_wrap.
    + intros i _ Hi. by rewrite upd_ne.
  - destruct (appends_alloc f blk Gpr64 Hn) as (Ea & En & Ha).
    destruct (alloc_vreg f _) as [tmp f1]. cbn [fst snd] in Ea, En, Ha.
    set (chain := mkInst Movz [VRegOp tmp; Imm (Z.land (wrap 64 lo) 0xFFFF)] ::
                  movk_list tmp 0 1 (map (chunk16 (wrap 64 lo)) (seqZ 1 3))).
    exists (chain ++ [mkInst SubRR [VRegOp d; VRegOp nv; VRegOp tmp]]). split.
    { eapply (appends_trans _ _ _ _ [] _ 1 0); [exact Ha|].
      apply (appends_trans _ (emit_movz_movk_chain f1 blk tmp (wrap 64 lo)) _ _ chain _ 0 0);
        [apply appends_push_insts|apply appends_push]. }
    apply computes_exec. intros rf.
    destruct (exec_movz_chain tmp 64 (wrap 64 lo) rf) as (rf1 & Hex & Hval & Ho);
      [by subst tmp|apply wrap_range; lia|].
    subst tmp. cbn [id] in Hval, Ho. rewrite exec_app. subst chain. rewrite Hex.
    cbn [mbind option_bind exec exec_inst operands opcode]. rewrite Hcd. cbn.
    eexists. split; [done|]. rewrite upd_eq, Hval, Ho by lia. split.
    + change (eqmw 64 (wrap 64 (rf (id nv)) - wrap 64 (wrap 64 lo)) (rf (id nv) - lo)).
      by rewrite !eqmw_wrap.
    + intros i Hi Hne'. rewrite upd_ne, Ho by lia. done.
Qed.

Lemma emit_range_check_spec f blk iv range default_ :
  0 <= next_vreg f < 2 ^ 32 - 1 -> id iv < next_vreg f -> class iv = Gpr64 ->
  0 <= range < 2 ^ 63 ->
  exists new, appends f (emit_range_check f blk iv range default_) blk new 1 /\
    forall rf fl rest, exists rf' fl',
      run (new ++ rest) rf fl =
        (if range <? wrap 64 (rf (id iv)) then Some (default_, rf') else run rest rf' fl') /\
      forall i, i < next_vreg f -> rf' i = rf i.
Proof.
  intros Hn Hiv Hc Hr. unfold emit_range_check.
  assert (Hhi : forall (rf rf' : regs) rest,
    run (mkInst BCond [CondCode HI; BlockOp default_] :: rest) rf'
      (Some (subs_flags 64 (wrap 64 (rf (id iv))) range)) =
    if range <? wrap 64 (rf (id iv)) then Some (default_, rf')
    else run rest rf' (Some (subs_flags 64 (wrap 64 (rf (id iv))) range))).
  { intros rf rf' rest. cbn [run opcode operands mbind option_bind].
    rewrite subs_hi; [done|lia|apply wrap_range; lia|unfold uword; lia]. }
  destruct ((0 <=? range) && (range <=? 0xFFF)) eqn:Er.
  - exists ([mkInst CmpRI [VRegOp iv; Imm range]] ++ [mkInst BCond [CondCode HI; BlockOp default_]]).
    split.
    { destruct (appends_trans _ _ _ _ _ _ _ _ (appends_push f blk (mkInst CmpRI [VRegOp iv; Imm range]))
        (appends_push _ blk (mkInst BCond [CondCode HI; BlockOp default_]))) as (H1 & H2 & H3).
      split_and!; [exact H1|done|lia..]. }
    intros rf fl rest. eexists rf, _. split; [|done]. cbn [app]. rewrite <- Hhi.
    cbn [run opcode operands]. rewrite Hc. cbn [class_width mbind option_bind]. by rewrite Er.
  - destruct (appends_alloc f blk Gpr64 Hn) as (Ea & En & Ha).
    destruct (alloc_vreg f _) as [tmp f1]. cbn [fst snd] in Ea, En, Ha.
    assert (Ew : wrap 64 range = range) by (apply wrap_small; unfold uword; lia).
    set (chain := mkInst Movz [VRegOp tmp; Imm (Z.land (wrap 64 range) 0xFFFF)] ::
                  movk_list tmp 0 1 (map (chunk16 (wrap 64 range)) (seqZ 1 3))).
    exists (chain ++ [mkInst CmpRR [VRegOp iv; VRegOp tmp]] ++
              [mkInst BCond [CondCode HI; BlockOp default_]]). split.
    { eapply (appends_trans _ _ _ _ [] _ 1 0); [exact Ha|].
      eapply (appends_trans _ _ _ _ chain _ 0 0); [apply appends_push_insts|].
      eapply (appends_trans _ _ _ _ _ _ 0 0); apply appends_push. }
    intros rf fl rest.
    destruct (exec_movz_chain tmp 64 (wrap 64 range) rf) as (rf1 & Hex & Hval & Ho);
      [by subst tmp|apply wrap_range; lia|].
    subst tmp. cbn [id] in Hval, Ho. eexists rf1, _. split; [|intros i Hi; apply Ho; lia].
    rewrite <- app_assoc, (run_exec _ _ _ _ _ Hex). cbn [app]. rewrite <- Hhi.
    cbn [run opcode operands]. rewrite Hc. cbn [class_width mbind option_bind id].
    by rewrite Hval, Ho, !Ew by lia.
Qed.

(** The load-and-branch tail jumps to the table entry the index selects. *)
Lemma table_branch_run tables j t i b iv bv ov tv rf fl :
  LayoutOk L tables -> tables !! j = Some t -> jt_targets t !! i = Some b ->
  class tv = Gpr64 -> id iv <> id bv -> id bv <> id ov -> wrap 64 (rf (id iv)) = Z.of_nat i ->
  exists rf',
    run [mkInst Adr [VRegOp bv; JumpTableIndex (Z.of_nat j)];
         mkInst LdrswRO [VRegOp ov; VRegOp bv; VRegOp iv];
         mkInst AddRR [VRegOp tv; VRegOp bv; VRegOp ov];
         mkInst Br [VRegOp tv]] rf fl = Some (b, rf') /\
    forall r, r <> id bv -> r <> id ov -> r <> id tv -> rf' r = rf r.
Proof.
  intros Hl Hj Hi Ht N1 N2 Hidx.
  destruct (table_entry j t i b Hj Hi) as (Eload & Hu & Hat).
  eexists. cbn [run opcode operands]. rewrite upd_eq, upd_ne, Hidx by done.
  assert (Eaddr : wrap 64 (wrap 64 (table_addr (Z.of_nat j)) + 4 * Z.of_nat i) =
                  wrap 64 (table_addr (Z.of_nat j) + 4 * Z.of_nat i)).
  { change (eqmw 64 (wrap 64 (table_addr (Z.of_nat j)) + 4 * Z.of_nat i)
                    (table_addr (Z.of_nat j) + 4 * Z.of_nat i)). by rewrite eqmw_wrap. }
  rewrite Eaddr, Eload. cbn [exec_inst operands opcode]. rewrite Ht.
  cbn [class_width mbind option_bind alu rd]. rewrite (upd_ne _ _ _ (id bv)), !upd_eq by done.
  assert (Et : wrap 64 (wrap 64 (wrap 64 (table_addr (Z.of_nat j)) +
             wrap 64 (wrap 64 (block_addr b - table_addr (Z.of_nat j))))) = block_addr b).
  { rewrite <- (wrap_small 64 (block_addr b) Hu) at 2.
    change (eqmw 64 (wrap 64 (wrap 64 (table_addr (Z.of_nat j)) +
      wrap 64 (wrap 64 (block_addr b - table_addr (Z.of_nat j))))) (block_addr b)).
    rewrite !eqmw_wrap. unfold eqmw. f_equal. lia. }
  rewrite Et, Hat. cbn. split; [done|].
  intros r H1 H2 H3. by rewrite !upd_ne.
Qed.

Lemma index_in_range x lo hi :
  sword 64 x -> sword 64 lo -> sword 64 hi -> lo <= hi -> hi - lo < 2 ^ 63 ->
  (hi - lo <? wrap 64 (x - lo)) = negb ((lo <=? x) && (x <=? hi)) /\
  (lo <= x <= hi -> wrap 64 (x - lo) = x - lo).
Proof.
  unfold sword. intros Hx Hlo Hhi Hle Hr. destruct (Z_lt_le_dec x lo).
  - assert (E : wrap 64 (x - lo) = x - lo + 2 ^ 64).
    { unfold wrap. rewrite <- (Z.mod_add _ 1) by lia. apply Z.mod_small. lia. }
    rewrite E. split; [|lia]. destruct (Z.ltb_spec (hi - lo) (x - lo + 2 ^ 64)); lia.
  - rewrite wrap_small by (unfold uword; lia). split; [|done].
    destruct (Z.ltb_spec (hi - lo) (x - lo)); lia.
Qed.

Lemma appends_successors f blk b ts :
  appends f (foldl (fun f t => add_successor f b t) f ts) blk [] 0.
Proof.
  revert f. induction ts as [|t ts IH]; intros f; [apply appends_refl|]. cbn [foldl].
  apply (appends_trans _ _ _ _ [] [] 0 0 (appends_successor f blk b t) (IH _)).
Qed.

Context (v : VReg) (is_32 : bool).
Let w := if is_32 then 32 else 64.
Context (Hv : class_width (class v) = Some w).

Lemma norm_selector_spec f blk :
  0 <= next_vreg f < 2 ^ 32 - 1 -> id v < next_vreg f ->
  exists nv f1 new, norm_selector f blk (VRegOp v) is_32 = (VRegOp nv, f1) /\ appends f f1 blk new 1 /\
    id nv < next_vreg f1 /\ class_width (class nv) = Some 64 /\
    (id nv = id v \/ next_vreg f <= id nv) /\
    forall rf fl rest, exists rf', run (new ++ rest) rf fl = run rest rf' fl /\
      wrap 64 (rf' (id nv)) = wrap 64 (swrap w (rf (id v))) /\
      forall i, i < next_vreg f -> rf' i = rf i.
Proof.
  intros Hn Hid. unfold norm_selector. assert (Hb : is_32 = true \/ is_32 = false) by (destruct is_32; auto).
  destruct Hb as [Hb|Hb]; rewrite Hb.
  - assert (Ew : w = 32) by (unfold w; by rewrite Hb).
    destruct (appends_alloc f blk Gpr64 Hn) as (Ea & En & Ha).
    destruct (alloc_vreg f _) as [sx f1]. cbn [fst snd] in Ea, En, Ha. subst sx.
    eexists _, _, _. split; [done|]. cbn [id class].
    split; [eapply (appends_trans _ _ _ _ [] _ 1 0); [exact Ha|apply appends_push]|].
    split_and!; [cbn; lia|done|right; lia|].
    intros rf fl rest. eexists. split; [cbn; done|]. rewrite Ew.
    rewrite upd_eq, swrap_wrap by lia. split.
    + apply wrap_small, wrap_range. lia.
    + intros i Hi. rewrite upd_ne; [done|]. cbn. lia.
  - assert (Ew : w = 64) by (unfold w; by rewrite Hb).
    eexists v, f, []. split; [done|]. split.
    { destruct (appends_refl f blk) as (H1 & H2 & H3). split_and!; [exact H1|done|lia..]. }
    rewrite Hv, Ew. split_and!; [lia|done|left; done|].
    intros rf fl rest. exists rf. rewrite wrap_swrap by lia. done.
Qed.

Lemma alloc4 f blk :
  0 <= next_vreg f -> next_vreg f + 4 < 2 ^ 32 ->
  exists f4, (let '(a, f) := alloc_vreg f Gpr64 in let '(b, f) := alloc_vreg f Gpr64 in
              let '(c, f) := alloc_vreg f Gpr64 in let '(d, f) := alloc_vreg f Gpr64 in
              (a, b, c, d, f)) =
    (mkVReg (next_vreg f) Gpr64, mkVReg (next_vreg f + 1) Gpr64,
     mkVReg (next_vreg f + 2) Gpr64, mkVReg (next_vreg f + 3) Gpr64, f4) /\
    next_vreg f4 = next_vreg f + 4 /\ appends f f4 blk [] 4.
Proof.
  intros H0 H. cbn [alloc_vreg].
  assert (E : forall k, 0 <= k <= 3 -> wrap 32 (next_vreg f + k + 1) = next_vreg f + (k + 1)).
  { intros k Hk. rewrite wrap_small by (unfold uword; lia). lia. }
  pose proof (E 0 ltac:(lia)) as E0. rewrite Z.add_0_r in E0. unfold alloc_vreg, func_new_vreg.
  cbn [next_vreg]. rewrite E0. cbn [next_vreg]. change (0 + 1) with 1. rewrite (E 1) by lia.
  cbn [next_vreg]. change (1 + 1) with 2. rewrite (E 2) by lia. cbn [next_vreg].
  change (2 + 1) with 3. rewrite (E 3) by lia. change (3 + 1) with 4.
  eexists. split; [reflexivity|]. split; [done|]. split_and!; [|done|cbn; lia..].
  intros b. rewrite app_nil_r. by destruct (b =? blk).
Qed.

(** The emitted index, range check and table branch dispatch like the switch. *)
Lemma table_dispatch tables j cases d lo hi iv bv ov tv n new1 new2 new3 nv :
  LayoutOk L tables -> tables !! j = Some (mkJumpTable lo (dense_targets cases d lo (hi - lo))) ->
  consistent cases -> case_min cases = Some lo -> case_max cases = Some hi ->
  sword 64 lo -> sword 64 hi -> lo <= hi -> hi - lo < 2 ^ 63 ->
  class tv = Gpr64 -> id iv <> id bv -> id bv <> id ov -> id v < n ->
  n <= id iv -> n <= id bv -> n <= id ov -> n <= id tv ->
  (forall rf fl rest, exists rf', run (new1 ++ rest) rf fl = run rest rf' fl /\
     wrap 64 (rf' (id nv)) = wrap 64 (swrap w (rf (id v))) /\ forall i, i < n -> rf' i = rf i) ->
  (forall rf fl rest, exists rf', run (new2 ++ rest) rf fl = run rest rf' fl /\
     rf' (id iv) = wrap 64 (rf (id nv) - lo) /\ forall i, i < n -> rf' i = rf i) ->
  (forall rf fl rest, exists rf' fl', run (new3 ++ rest) rf fl =
        (if hi - lo <? wrap 64 (rf (id iv)) then Some (d, rf') else run rest rf' fl') /\
      rf' (id iv) = rf (id iv) /\ forall i, i < n -> rf' i = rf i) ->
  forall rf, exists rf',
    run (new1 ++ new2 ++ new3 ++
        [mkInst Adr [VRegOp bv; JumpTableIndex (Z.of_nat j)];
         mkInst LdrswRO [VRegOp ov; VRegOp bv; VRegOp iv];
         mkInst AddRR [VRegOp tv; VRegOp bv; VRegOp ov];
         mkInst Br [VRegOp tv]]) rf None = Some (switch_target cases d (swrap w (rf (id v))), rf') /\
    forall i, i < n -> rf' i = rf i.
Proof.
  intros Hl Hj Hc Elo Ehi Hlo Hhi Hle Hr Ct N1 N2 Hn Ni Nb No Nt H1 H2 H3 rf.
  set (tail := [mkInst Adr _; _; _; _]).
  destruct (H1 rf None (new2 ++ new3 ++ tail)) as (rf1 & -> & E1 & O1).
  destruct (H2 rf1 None (new3 ++ tail)) as (rf2 & -> & E2 & O2).
  set (x := swrap w (rf (id v))) in *.
  assert (Hx : sword 64 x).
  { pose proof (swrap_range w (rf (id v)) ltac:(unfold w; destruct is_32; lia)) as Hx. fold x in Hx.
    unfold sword in *. unfold w in Hx. destruct is_32; lia. }
  assert (Ei : wrap 64 (rf2 (id iv)) = wrap 64 (x - lo)).
  { rewrite E2. change (eqmw 64 (wrap 64 (rf1 (id nv) - lo)) (x - lo)). rewrite eqmw_wrap.
    assert (En : eqmw 64 (rf1 (id nv)) x) by exact E1. by rewrite En. }
  destruct (index_in_range x lo hi) as [Eb Ein]; [done..|].
  destruct (H3 rf2 None tail) as (rf3 & fl & -> & E3 & O3).
  rewrite Ei, Eb. destruct ((lo <=? x) && (x <=? hi)) eqn:Erange; cbn [negb].
  - assert (Hi : lo <= x <= hi) by lia. specialize (Ein Hi).
    destruct (lookup_lt_is_Some_2 (dense_targets cases d lo (hi - lo)) (Z.to_nat (x - lo)))
      as [b Hb]; [pose proof (dense_targets_length cases d lo (hi - lo)); lia|].
    destruct (dense_targets_lookup _ _ _ _ _ _ Hc Hb) as [Et _].
    destruct (table_branch_run tables j _ (Z.to_nat (x - lo)) b iv bv ov tv rf3 fl Hl Hj Hb Ct N1 N2)
      as (rf4 & E4 & O4); [rewrite E3, Ei, Ein; lia|]. fold tail in E4. rewrite E4.
    exists rf4. split; [|intros i Hi'; rewrite O4, O3, O2, O1 by lia; done].
    rewrite Et. do 3 f_equal. lia.
  - exists rf3. split; [|intros i Hi'; rewrite O3, O2, O1 by lia; done].
    rewrite switch_target_absent; [done|]. intros t Hin.
    pose proof (proj2 (case_min_spec _ _ Elo) x t Hin).
    pose proof (proj2 (case_max_spec _ _ Ehi) x t Hin). lia.
Qed.

Lemma emit_jump_table_spec f cases d entry lo hi :
  0 <= next_vreg f -> next_vreg f + 7 < 2 ^ 32 - 1 -> id v < next_vreg f ->
  Z.of_nat (length (jump_tables f)) < 2 ^ 32 ->
  case_min cases = Some lo -> case_max cases = Some hi -> sword 64 lo -> sword 64 hi ->
  consistent cases -> hi - lo < 2 ^ 63 ->
  exists f' new, emit_jump_table f (VRegOp v) is_32 cases d entry = (Ok tt, f') /\
    (forall b, fcode f' b = if b =? entry then fcode f b ++ new else fcode f b) /\
    jump_tables f' = jump_tables f ++ [mkJumpTable lo (dense_targets cases d lo (hi - lo))] /\
    (LayoutOk L (jump_tables f') -> forall rf, exists rf',
       run new rf None = Some (switch_target cases d (swrap w (rf (id v))), rf') /\
       forall i, i < next_vreg f -> rf' i = rf i).
Proof.
  intros Hn0 Hn Hid Hjt Elo Ehi Hlo Hhi Hc Hr.
  assert (Hle : lo <= hi) by (destruct (case_min_spec _ _ Elo) as [[t H] _],
    (case_max_spec _ _ Ehi) as [_ Hm]; by apply (Hm lo t)).
  unfold emit_jump_table. rewrite Elo, Ehi.
  rewrite (proj2 (span_wraps lo hi Hlo Hhi Hle)) by done.
  rewrite (proj2 (check_jump_table_iff cases d lo hi (hi - lo) Elo Ehi)) by done.
  destruct (alloc4 f entry) as (f4 & E4 & N4 & A4); [lia|lia|].
  destruct (alloc_vreg f Gpr64) as [iv fa]. destruct (alloc_vreg fa Gpr64) as [bv fb].
  destruct (alloc_vreg fb Gpr64) as [ov fc]. destruct (alloc_vreg fc Gpr64) as [tv fd].
  injection E4 as Eiv Ebv Eov Etv Efd.
  destruct (norm_selector_spec f4 entry) as (nv & f5 & new1 & E5 & A5 & H5 & C5 & D5 & R1); [lia|lia|].
  rewrite Efd, E5. assert (V5 : next_vreg f4 <= next_vreg f5 <= next_vreg f4 + 1) by apply A5.
  destruct (emit_index_spec f5 entry iv nv lo) as (new2 & A6 & R2);
    [lia|subst iv; cbn; lia|done|by subst iv|done|done|].
  set (f6 := emit_index f5 entry iv (VRegOp nv) lo) in *.
  assert (V6 : next_vreg f5 <= next_vreg f6 <= next_vreg f5 + 1) by apply A6.
  destruct (emit_range_check_spec f6 entry iv (hi - lo) d) as (new3 & A7 & R3);
    [lia|subst iv; cbn; lia|by subst iv|lia|].
  set (f7 := emit_range_check f6 entry iv (hi - lo) d) in *.
  pose proof (appends_trans _ _ _ _ _ _ _ _ A4 (appends_trans _ _ _ _ _ _ _ _ A5
    (appends_trans _ _ _ _ _ _ _ _ A6 A7))) as (Ac & Aj & _). clear A4 A5 A6 A7.
  assert (Ej : wrap 32 (Z.of_nat (length (jump_tables f7))) = Z.of_nat (length (jump_tables f)))
    by (rewrite Aj; apply wrap_small; unfold uword; lia).
  unfold emit_table_branch. cbn [add_jump_table]. rewrite Ej.
  set (f8 := mkFunc _ _ _ _). set (tail := [mkInst Adr _; _; _; _]).
  destruct (appends_trans _ _ _ _ _ _ _ _ (appends_push_insts f8 entry tail)
    (appends_trans _ _ _ _ _ _ _ _
       (appends_successors _ entry entry (dense_targets cases d lo (hi - lo)))
       (appends_successor _ entry entry d))) as (Bc & Bj & _). rewrite !app_nil_r in Bc.
  eexists _, (new1 ++ new2 ++ new3 ++ tail). split; [reflexivity|]. split_and!.
  - intros b. rewrite Bc. change (fcode f8 b) with (fcode f7 b). rewrite Ac.
    destruct (b =? entry); [|done]. by rewrite <- !app_assoc.
  - rewrite Bj. subst f8. cbn [jump_tables]. by rewrite Aj.
  - rewrite Bj. subst f8. cbn [jump_tables]. rewrite Aj. intros Hl.
    eapply (table_dispatch _ (length (jump_tables f)) cases d lo hi iv bv ov tv
              (next_vreg f) new1 new2 new3 nv Hl); try done;
      try (subst iv bv ov tv; cbn; lia); try (by subst tv).
    + by rewrite lookup_app_r, Nat.sub_diag by lia.
    + intros rf fl rest. destruct (R1 rf fl rest) as (rf' & E & Hval & Ho).
      exists rf'. split_and!; [done..|]. intros i Hi. apply Ho. lia.
    + intros rf fl rest. destruct (R2 rf fl rest) as (rf' & E & Hval & Ho).
      exists rf'. split_and!; [done..|]. intros i Hi. apply Ho; [lia|subst iv; cbn; lia].
    + intros rf fl rest. destruct (R3 rf fl rest) as (rf' & fl' & E & Ho).
      exists rf', fl'. split_and!; [done| |]; [apply Ho; subst iv; cbn; lia|].
      intros i Hi. apply Ho. lia.
Qed.

End Table.

(** *** Selector entry points *)

Lemma hops_exec `{Layout} g lo k pre c rf rf' :
  exec pre rf = Some rf' -> hops g lo k (pre ++ c) rf = hops g lo k c rf'.
Proof. intros E. destruct k; cbn [hops]; by rewrite (run_exec _ _ _ _ _ E). Qed.

Lemma with_func_func s : with_func s (func s) = s.
Proof. by destruct s. Qed.

(** Constant materialization, as an appending emitter. *)
Lemma iconst_appends blk dst w ty imm s :
  class_width (class dst) = Some w -> is_32bit ty = (w =? 32) -> sword 64 imm ->
  exists f' new, emit_iconst_materialization blk dst ty imm s = (Ok tt, with_func s f') /\
    appends (func s) f' blk new 0 /\
    forall rf, exists rf', exec new rf = Some rf' /\ rf' (id dst) = wrap w imm /\
      forall i, i <> id dst -> rf' i = rf i.
Proof.
  intros Hc Hty Himm.
  assert (Hwp : forall rf, wp blk (emit_iconst_materialization blk dst ty imm) s rf
    (fun _ s' rf' => frame s s' (nextv s) /\ rf' (id dst) = wrap w imm /\
       forall i, i <> id dst -> rf' i = rf i)).
  { intros rf. eapply wp_iconst; eauto. }
  destruct (Hwp (fun _ => 0)) as ([] & s' & new & _ & E & Hcode & Hoth & _ & F & _).
  destruct F as (f' & -> & Hn & _ & Hj). exists f', new. split; [done|]. split.
  - split_and!; [|done|rewrite Hn; lia..]. intros b. destruct (Z.eqb_spec b blk) as [->|Hne]; [done|].
    specialize (Hoth b Hne). cbn in Hoth. unfold fcode, block_entry. by rewrite Hoth.
  - intros rf. destruct (Hwp rf) as (u & s2 & new2 & rf' & E2 & Hcode2 & _ & Hx & _ & H).
    rewrite E in E2. injection E2 as <- <-.
    assert (new2 = new) as -> by (eapply app_inv_head; by rewrite <- Hcode, <- Hcode2).
    eauto.
Qed.

Section Cascade.
Context {L : Layout} (v : VReg) (ty : Ty).
Let is_32 := is_32bit ty.
Let w := if is_32 then 32 else 64.
Context (Hv : class_width (class v) = Some w).

Lemma emit_cascade_case_spec s blk c t :
  0 <= nextv s < 2 ^ 32 - 1 -> id v < nextv s -> sword w c ->
  exists f' cmp, emit_cascade_case (VRegOp v) ty blk c t s = (Ok tt, with_func s f') /\
    appends (func s) f' blk (cmp ++ [mkInst BCond [CondCode EQ; BlockOp t]]) 1 /\
    sets_flags v is_32 (nextv s) c cmp.
Proof.
  intros Hn Hid Hc. assert (Hw : w = 32 \/ w = 64) by (unfold w; destruct is_32; auto).
  unfold emit_cascade_case, sets_flags. fold w.
  destruct ((0 <=? c) && (c <=? 0xFFF)) eqn:Ec.
  - exists (push_inst (push_inst (func s) blk (mkInst CmpRI [VRegOp v; Imm c])) blk
             (mkInst BCond [CondCode EQ; BlockOp t])), [mkInst CmpRI [VRegOp v; Imm c]].
    split; [done|]. split.
    { destruct (appends_trans _ _ _ _ _ _ _ _ (appends_push (func s) blk (mkInst CmpRI [VRegOp v; Imm c]))
        (appends_push _ blk (mkInst BCond [CondCode EQ; BlockOp t]))) as (H1 & H2 & H3).
      split_and!; [exact H1|done|lia..]. }
    intros rf fl rest. exists rf. split; [|done]. cbn [app run opcode operands].
    rewrite Hv. cbn [mbind option_bind]. rewrite Ec. do 3 f_equal.
    symmetry. apply wrap_small. unfold uword. pose proof (pow2_le 12 w ltac:(lia)). lia.
  - destruct (appends_alloc (func s) blk (if is_32 then Gpr32 else Gpr64) Hn) as (Ea & En & Ha).
    fold is_32. unfold mbind, Sel_bind, new_vreg.
    change (func_new_vreg (func s) _) with (alloc_vreg (func s) (if is_32 then Gpr32 else Gpr64)).
    destruct (alloc_vreg (func s) _) as [tmp f1]. cbn [fst snd] in Ea, En, Ha.
    assert (Hcls : class_width (class tmp) = Some w) by (subst tmp; unfold w; by destruct is_32).
    destruct (iconst_appends blk tmp w ty c (with_func s f1)) as (f2 & new & E2 & A2 & X2);
      [done|unfold w; fold is_32; by destruct is_32
      |unfold sword in *; destruct Hw as [E|E]; rewrite E in Hc; lia|].
    rewrite E2. cbn in A2.
    exists (push_inst (push_inst f2 blk (mkInst CmpRR [VRegOp v; VRegOp tmp])) blk
             (mkInst BCond [CondCode EQ; BlockOp t])), (new ++ [mkInst CmpRR [VRegOp v; VRegOp tmp]]).
    split; [done|]. split.
    { rewrite <- app_assoc. eapply (appends_trans _ _ _ _ [] _ 1 0); [exact Ha|].
      eapply (appends_trans _ _ _ _ new _ 0 0); [exact A2|].
      eapply (appends_trans _ _ _ _ [_] [_] 0 0); apply appends_push. }
    intros rf fl rest. destruct (X2 rf) as (rf1 & Hex & Hval & Ho).
    exists rf1. rewrite <- app_assoc, (run_exec _ _ _ _ _ Hex). split.
    + cbn [app run opcode operands]. rewrite Hv. cbn [mbind option_bind].
      rewrite Hval, Ho, (wrap_small w (wrap w c)) by (subst tmp; cbn; lia || apply wrap_range; lia). done.
    + intros i Hi. apply Ho. subst tmp. cbn. lia.
Qed.

Lemma emit_cascade_spec s blk cases d :
  0 <= nextv s -> nextv s + Z.of_nat (length cases) < 2 ^ 32 - 1 -> id v < nextv s ->
  cases_ok is_32 cases ->
  exists f' new, emit_cascade (VRegOp v) ty blk cases d s = (Ok tt, with_func s f') /\
    appends (func s) f' blk new (Z.of_nat (length cases)) /\
    forall rf fl, exists rf',
      run new rf fl = Some (switch_target cases d (swrap w (rf (id v))), rf') /\
      forall i, i < nextv s -> rf' i = rf i.
Proof.
  revert s. induction cases as [|[c t] rest IH]; intros s Hn0 Hn Hid Hok.
  { eexists _, [mkInst Bra [BlockOp d]]. split; [reflexivity|]. split.
    - eapply (appends_trans _ _ _ _ [_] [] 0 0); [apply appends_push|apply appends_set_succ].
    - intros rf fl. by exists rf. }
  cbn [emit_cascade length] in *. apply Forall_cons in Hok as [Hc Hok]. cbn [fst] in Hc.
  destruct (emit_cascade_case_spec s blk c t) as (f1 & cmp & E1 & A1 & S1); [lia|lia|done|].
  unfold mbind, Sel_bind. rewrite E1. unfold push_successor. cbn [func with_func].
  set (f2 := set_block f1 blk _).
  assert (A2 : appends f1 f2 blk [] 0) by apply appends_set_succ.
  clearbody f2. pose proof (appends_trans _ _ _ _ _ _ _ _ A1 A2) as A12. rewrite app_nil_r in A12.
  assert (N12 : nextv s <= next_vreg f2 <= nextv s + 1) by (destruct A12 as (_ & _ & H); lia).
  destruct (IH (with_func s f2)) as (f' & n3 & E3 & A3 & R3); cbn; [lia|lia|lia|done|].
  exists f', ((cmp ++ [mkInst BCond [CondCode EQ; BlockOp t]]) ++ n3). split; [exact E3|]. split.
  { replace (Z.of_nat (S (length rest))) with (1 + 0 + Z.of_nat (length rest)) by lia.
    eapply appends_trans; [exact A12|exact A3]. }
  intros rf fl. rewrite <- app_assoc.
  destruct (run_case v is_32 Hv (nextv s) c t cmp rf fl n3 Hc S1) as (rf1 & fl1 & -> & Ho).
  rewrite switch_target_cons, (Z.eqb_sym c). fold w.
  destruct (Z.eqb_spec (swrap w (rf (id v))) c); [by exists rf1|].
  destruct (R3 rf1 fl1) as (rf3 & Hrun3 & Ho3). exists rf3. rewrite Hrun3, (Ho (id v)) by lia.
  split; [done|]. intros i Hi. rewrite Ho3, Ho by (cbn; lia). done.
Qed.

End Cascade.

(** The value a switch reads from its selector register: narrow selectors are
    zero-extended, wider ones read as signed words (the form of the case values). *)
Definition selector_value (ty : Ty) (raw : Z) : Z :=
  match ty with
  | I8 => wrap 8 raw
  | I16 => wrap 16 raw
  | I32 => swrap 32 raw
  | _ => swrap 64 raw
  end.

Definition selector_type (ty : Ty) : Prop := ty = I8 \/ ty = I16 \/ ty = I32 \/ ty = I64.

Abbreviation sel_width ty := (if is_32bit ty then 32 else 64).

(** [v'], set up by [pre] from [f0] to [f], holds the selector value of [v]. *)
Definition holds_selector (blk : Block) (v : VReg) (ty : Ty) (f0 : ISelFunction)
    (v' : VReg) (f : ISelFunction) (pre : list ISelInst) : Prop :=
  appends f0 f blk pre 1 /\ class_width (class v') = Some (sel_width ty) /\ id v' < next_vreg f /\
  forall rf, exists rf', exec pre rf = Some rf' /\
    swrap (sel_width ty) (rf' (id v')) = selector_value ty (rf (id v)) /\
    forall i, i < next_vreg f0 -> rf' i = rf i.

(** A narrow selector goes through a zero extension. *)
Lemma extended_selector blk s v ty k opc :
  (k = 8 \/ k = 16) -> is_32bit ty = true ->
  (forall raw, selector_value ty raw = wrap k raw) ->
  (forall rf old, alu 32 opc rf old [VRegOp v] = Some (wrap k (rf (id v)))) ->
  0 <= nextv s < 2 ^ 32 - 1 ->
  exists v' f pre,
    (dst ← new_vreg Gpr32; _ ← emit blk (mkInst opc [VRegOp dst; VRegOp v]); mret (VRegOp dst)) s
      = (Ok (VRegOp v'), with_func s f) /\
    holds_selector blk v ty (func s) v' f pre.
Proof.
  intros Hk H32 Hsv Halu Hn.
  destruct (appends_alloc (func s) blk Gpr32 Hn) as (Ea & En & Hap).
  unfold mbind, Sel_bind, new_vreg.
  change (func_new_vreg (func s) Gpr32) with (alloc_vreg (func s) Gpr32).
  destruct (alloc_vreg (func s) Gpr32) as [dst f1]. cbn [fst snd] in Ea, En, Hap. subst dst.
  eexists (mkVReg (nextv s) Gpr32), _, [mkInst opc [VRegOp (mkVReg (nextv s) Gpr32); VRegOp v]].
  split; [reflexivity|]. unfold holds_selector.
  rewrite H32. split; [eapply (appends_trans _ _ _ _ [] _ 1 0); [exact Hap|apply appends_push]|].
  split; [done|]. split; [cbn; lia|]. intros rf. eexists. split.
  { cbn [exec exec_inst operands opcode class class_width mbind option_bind]. by rewrite Halu. }
  cbn [id]. rewrite upd_eq, Hsv. split; [|intros i Hi; by rewrite upd_ne by lia].
  pose proof (wrap_range k (rf (id v)) ltac:(lia)) as H. pose proof (pow2_le k 16 ltac:(lia)).
  apply swrap_small; unfold uword, sword in *; lia.
Qed.

Lemma clean_switch_selector_spec blk s v ty :
  selector_type ty -> class_width (class v) = Some (sel_width ty) ->
  0 <= nextv s < 2 ^ 32 - 1 -> id v < nextv s ->
  exists v' f pre, clean_switch_selector (VRegOp v) ty blk s = (Ok (VRegOp v'), with_func s f) /\
    holds_selector blk v ty (func s) v' f pre.
Proof.
  intros Hsel Hc Hn Hid.
  assert (Hnone : (ty = I32 \/ ty = I64) -> holds_selector blk v ty (func s) v (func s) []).
  { intros H. split; [|split_and!; try done].
    - destruct (appends_refl (func s) blk) as (H1 & H2 & H3). split_and!; [exact H1|done|lia..].
    - intros rf. exists rf. by destruct H as [->| ->]. }
  destruct Hsel as [->|[->|[->| ->]]].
  - by apply (extended_selector blk s v I8 8 Uxtb); [lia|..].
  - by apply (extended_selector blk s v I16 16 Uxth); [lia|..].
  - exists v, (func s), []. rewrite with_func_func. auto.
  - exists v, (func s), []. rewrite with_func_func. auto.
Qed.

Lemma fetch_selector_spec inst blk s x v ty :
  args inst !! 0%nat = Some x -> value_map s !! x = Some (VRegOp v) -> value_type s x = ty ->
  selector_type ty -> class_width (class v) = Some (sel_width ty) ->
  0 <= nextv s < 2 ^ 32 - 1 -> id v < nextv s ->
  exists v' f pre, fetch_selector inst blk s = (Ok (VRegOp v', ty), with_func s f) /\
    holds_selector blk v ty (func s) v' f pre.
Proof.
  intros Ha Hx Hty Hsel Hc Hn Hid. unfold fetch_selector, require_args, index, use_value, gets.
  unfold mbind, Sel_bind. rewrite Ha.
  replace (length (args inst) <? 1)%nat with false
    by (symmetry; apply Nat.ltb_ge; apply lookup_lt_Some in Ha; lia).
  cbn [mret Sel_ret]. rewrite Hx. cbn [mret Sel_ret]. rewrite Hty.
  destruct (clean_switch_selector_spec blk s v ty) as (v' & f & pre & -> & H); [done..|].
  by exists v', f, pre.
Qed.

(** What selection relies on when it reaches a switch on the value [x], held in [v]:
    the selector's class fits its type, ids have room, synthesized block ids are
    unused, and the case values are in the range of the comparison width. *)
Record switch_ready (s : InstructionSelector) (inst : Instruction) (block : Block) (x : Value)
    (v : VReg) (ty : Ty) (cases : Cases) (d : Block) : Prop := {
  sr_arg : args inst !! 0%nat = Some x;
  sr_map : value_map s !! x = Some (VRegOp v);
  sr_ty : value_type s x = ty;
  sr_sel : selector_type ty;
  sr_class : class_width (class v) = Some (sel_width ty);
  sr_id : id v < nextv s;
  sr_vregs : 0 <= nextv s /\ nextv s + Z.of_nat (length cases) + 8 < 2 ^ 32 - 1;
  sr_tables : Z.of_nat (length (jump_tables (func s))) < 2 ^ 32;
  sr_base : SYNTHETIC_BLOCK_ID_BASE <= next_block_id s;
  sr_ids : next_block_id s + 2 * Z.of_nat (length cases) < 2 ^ 32 - 1;
  sr_fresh : forall b, next_block_id s <= b -> fcode (func s) b = [];
  sr_blocks : block < SYNTHETIC_BLOCK_ID_BASE /\ d < SYNTHETIC_BLOCK_ID_BASE;
  sr_targets : Forall (fun c => c.2 < SYNTHETIC_BLOCK_ID_BASE) cases;
  sr_cases : cases_ok (is_32bit ty) cases;
}.

(** [s'] extends [block] with code that reaches the switch target, through at most
    [log2 (length cases)] synthesized blocks; no other source block changes. *)
Definition lowers_switch (L : Layout) (s s' : InstructionSelector) (block : Block) (v : VReg)
    (ty : Ty) (cases : Cases) (d : Block) : Prop :=
  exists new,
    (forall b, b < next_block_id s ->
       fcode (func s') b = if b =? block then fcode (func s) b ++ new else fcode (func s) b) /\
    (LayoutOk L (jump_tables (func s')) -> forall rf, exists k rf',
       (k <= Nat.log2 (length cases))%nat /\
       hops (fcode (func s')) (next_block_id s) k new rf =
         Some (switch_target cases d (selector_value ty (rf (id v))), rf') /\
       forall i, i < nextv s -> rf' i = rf i).

Section Top.
Context (L : Layout) (s : InstructionSelector) (inst : Instruction) (block : Block) (x : Value).
Context (v : VReg) (ty : Ty) (cases : Cases) (d : Block).
Context (R : switch_ready s inst block x v ty cases d) (Hnd : NoDup cases.*1).

Lemma ready_selector :
  exists v' f pre, fetch_selector inst block s = (Ok (VRegOp v', ty), with_func s f) /\
    holds_selector block v ty (func s) v' f pre.
Proof. destruct R. eapply fetch_selector_spec; eauto. lia. Qed.

(** The selector prefix in front of a lowering of the fetched selector. *)
Lemma lowers_after_fetch v' f pre f' n' new :
  holds_selector block v ty (func s) v' f pre ->
  (forall b, b < next_block_id s -> fcode f' b = if b =? block then fcode f b ++ new else fcode f b) ->
  (LayoutOk L (jump_tables f') -> forall rf, exists k rf', (k <= Nat.log2 (length cases))%nat /\
     hops (fcode f') (next_block_id s) k new rf =
       Some (switch_target cases d (swrap (sel_width ty) (rf (id v'))), rf') /\
     forall i, i < next_vreg f -> rf' i = rf i) ->
  lowers_switch L s (mkSel f' (value_map s) (value_types s) (i128_high_map s) n' (iconst_origins s)
                       (current_block s)) block v ty cases d.
Proof.
  intros ((Ac & _ & Av) & _ & _ & Hx) Hc Hrun. exists (pre ++ new). cbn. split.
  - intros b Hb. rewrite Hc, Ac by done. destruct (b =? block); [by rewrite app_assoc|done].
  - intros Hl rf. destruct (Hx rf) as (rf1 & E1 & V1 & O1).
    destruct (Hrun Hl rf1) as (k & rf2 & Hk & E2 & O2). exists k, rf2.
    rewrite (hops_exec _ _ _ _ _ _ _ E1), E2, V1. split_and!; [done..|].
    intros i Hi. rewrite O2, O1 by lia. done.
Qed.

Lemma select_switch_cascade_spec :
  exists s', select_switch_cascade cases d inst block s = (Ok tt, s') /\
    lowers_switch L s s' block v ty cases d.
Proof.
  destruct ready_selector as (v' & f & pre & E & H). destruct R.
  assert (H' := H). destruct H' as ((Ac & _ & Av) & Hc & Hid & _).
  destruct (emit_cascade_spec v' ty Hc (with_func s f) block cases d)
    as (f' & new & E2 & (A2 & _) & R2); cbn [with_func func]; [lia|lia|lia|done|].
  eexists. split.
  - unfold select_switch_cascade, mbind, Sel_bind. rewrite E, E2. unfold lift_result.
    rewrite (proj2 (cascade_gate cases d)) by done. reflexivity.
  - eapply (lowers_after_fetch v' f pre f' _ new H); [intros b _; apply A2|].
    intros _ rf. destruct (R2 rf None) as (rf' & E3 & O3). exists 0%nat, rf'. cbn [hops].
    rewrite E3. split_and!; [lia|done..].
Qed.

Lemma check_targets_ok (cs : Cases) s0 :
  Forall (fun c => c.2 < SYNTHETIC_BLOCK_ID_BASE) cs -> check_targets cs s0 = (Ok tt, s0).
Proof.
  induction 1 as [|[c t] rest Ht _ IH]; [done|]. cbn [check_targets]. unfold mbind, Sel_bind.
  unfold check_block_id. cbn [snd] in Ht. by destruct (Z.leb_spec SYNTHETIC_BLOCK_ID_BASE t); [lia|].
Qed.

Lemma check_block_id_ok b s0 : b < SYNTHETIC_BLOCK_ID_BASE -> check_block_id b s0 = (Ok tt, s0).
Proof.
  intros Hb. unfold check_block_id. by destruct (Z.leb_spec SYNTHETIC_BLOCK_ID_BASE b); [lia|].
Qed.

Lemma select_switch_binary_search_spec :
  exists s', select_switch_binary_search cases d inst block s = (Ok tt, s') /\
    lowers_switch L s s' block v ty cases d.
Proof.
  destruct ready_selector as (v' & f & pre & E & H). assert (R' := R). destruct R'.
  assert (H' := H). destruct H' as ((Ac & _ & Av) & Hc & Hid & _).
  pose proof (sort_cases_perm cases) as Hperm. pose proof (Permutation_length Hperm) as Hlen.
  assert (Hok : cases_ok (is_32bit ty) (sort_cases cases)) by (unfold cases_ok; by rewrite Hperm).
  set (st0 := mkBst f (next_block_id s) empty_mapping).
  assert (Hroom : tree_room v' (sort_cases cases) block st0).
  { unfold tree_room. cbn [bf bnext st0]. rewrite Hlen.
    change SYNTHETIC_BLOCK_ID_BASE with 2147483648 in *. split_and!; try lia. intros b Hb. rewrite Ac, sr_fresh0 by done.
    destruct (Z.eqb_spec b block); [lia|done]. }
  pose proof (emit_bst_node_spec v' (is_32bit ty) Hc d (S (length (sort_cases cases)))
    (sort_cases cases) block st0 ltac:(lia) (sort_cases_sorted cases Hnd) Hok Hroom) as Htree.
  destruct (source_case_map_ok cases "BinarySearch" (NoDup_consistent _ Hnd)) as [source Es].
  pose proof (proj2 (binary_search_gate f (next_block_id s) (VRegOp v') (is_32bit ty) cases d block)
    Hnd) as Hgate.
  unfold emit_binary_search in Hgate. rewrite Es in Hgate.
  destruct Htree as (new & Hn & Hcode & _ & _ & _ & _ & Hdisp).
  eexists. split.
  - unfold select_switch_binary_search, mbind, Sel_bind. rewrite E, check_targets_ok by done.
    rewrite !check_block_id_ok by tauto. unfold run_binary_search, emit_binary_search. rewrite Es.
    cbn [with_func func next_block_id fst] in *. rewrite Hgate. reflexivity.
  - eapply (lowers_after_fetch v' f pre _ _ new H); [intros b Hb; apply Hcode; left; exact Hb|].
    intros _ rf. destruct (Hdisp _ (next_block_id s) (fun b _ => eq_refl) ltac:(cbn; lia) rf)
      as (k & rf' & Hk & E3 & O3).
    exists k, rf'. rewrite Hlen in Hk. split_and!; [done| |done].
    rewrite (switch_target_perm cases (sort_cases cases)) by done. exact E3.
Qed.

Lemma select_switch_jump_table_spec :
  cases <> [] ->
  (forall a b, a ∈ cases -> b ∈ cases -> a.1 - b.1 < 2 ^ 63) ->
  exists s', select_switch_jump_table cases d inst block s = (Ok tt, s') /\
    lowers_switch L s s' block v ty cases d.
Proof.
  intros Hne Hspan. destruct ready_selector as (v' & f & pre & E & H). assert (R' := R). destruct R'.
  assert (H' := H). destruct H' as ((Ac & Aj & Av) & Hc & Hid & _).
  destruct (case_bounds_some cases Hne) as (lo & hi & Elo & Ehi).
  destruct (proj1 (case_min_spec _ _ Elo)) as [tlo Hlo].
  destruct (proj1 (case_max_spec _ _ Ehi)) as [thi Hhi].
  assert (Hsw : forall c, c ∈ cases -> sword 64 c.1).
  { intros c Hin. unfold cases_ok in sr_cases0. rewrite Forall_forall in sr_cases0.
    specialize (sr_cases0 c Hin). unfold sword in *. destruct (is_32bit ty); lia. }
  destruct (emit_jump_table_spec v' (is_32bit ty) Hc f cases d block lo hi)
    as (f' & new & Ej & Hcode & _ & Hrun);
    [lia|lia|lia|by rewrite Aj|done|done|by apply (Hsw (lo, tlo))|by apply (Hsw (hi, thi))
    |by apply NoDup_consistent|by apply (Hspan (hi, thi) (lo, tlo))|].
  eexists. split.
  - unfold select_switch_jump_table, mbind, Sel_bind. rewrite E. unfold on_func.
    cbn [with_func func]. rewrite Ej. reflexivity.
  - eapply (lowers_after_fetch v' f pre _ _ new H); [intros b _; apply Hcode|].
    intros Hl rf. destruct (Hrun Hl rf) as (rf' & E3 & O3). exists 0%nat, rf'. cbn [hops].
    rewrite E3. split_and!; [lia|done..].
Qed.

End Top.

(** ** Properties *)

(** C6: selecting a switch whose discriminants are distinct succeeds, whatever the
    strategy, and the emitted code (run with condition flags and branches, the jump
    table read through the layout) branches for every selector content to the
    target the source switch names, or the default; it goes through at most
    [log2 n] synthesized blocks, keeps the registers that existed before, and
    leaves all other source blocks alone. *)
Theorem select_switch_correct (L : Layout) s inst block x v ty cases d :
  switch_ready s inst block x v ty cases d ->
  NoDup cases.*1 ->
  (choose_strategy cases = JumpTableStrategy ->
     forall a b, a ∈ cases -> b ∈ cases -> a.1 - b.1 < 2 ^ 63) ->
  exists s', select_switch cases d inst block s = (Ok tt, s') /\
    lowers_switch L s s' block v ty cases d.
Proof.
  intros R Hnd Hspan. unfold select_switch.
  destruct (choose_strategy cases) eqn:Es.
  - by apply (select_switch_cascade_spec L s inst block x v ty).
  - by apply (select_switch_binary_search_spec L s inst block x v ty).
  - apply (select_switch_jump_table_spec L s inst block x v ty); [done|done| |by apply Hspan].
    intros ->. done.
Qed.


(** A dense switch on a 32-bit selector in a function with one block. *)
Definition demo_cases : Cases := [(10, 1); (11, 2); (12, 3); (14, 1)].
Definition demo_state : InstructionSelector :=
  mkSel (mkFunc ∅ [] 1 []) {[ 7 := VRegOp (mkVReg 0 Gpr32) ]} {[ 7 := I32 ]} ∅
        SYNTHETIC_BLOCK_ID_BASE ∅ None.

(** Tables at 64 KiB, blocks four bytes apart at 1 MiB. *)
Definition demo_table : list Block := [1; 2; 3; 9; 1].
#[local] Instance demo_layout : Layout := {
  table_addr j := 0x10000;
  block_addr b := 0x100000 + 4 * b;
  load32 a := 0x100000 + 4 * nth (Z.to_nat ((a - 0x10000) / 4)) demo_table 0 - 0x10000;
  block_at a := Some ((a - 0x100000) / 4);
}.

Lemma demo_layout_ok : LayoutOk demo_layout [mkJumpTable 10 demo_table].
Proof.
  split. intros j t i b Hj Hi. destruct j as [|j]; [|done]. injection Hj as <-.
  do 5 (destruct i as [|i]; [injection Hi as <-; vm_compute; repeat split; congruence|]). done.
Qed.

Lemma demo_ready : switch_ready demo_state (mkInstruction [7] []) 0 7 (mkVReg 0 Gpr32) I32 demo_cases 9.
Proof.
  constructor.
  - reflexivity.
  - vm_compute. reflexivity.
  - vm_compute. reflexivity.
  - unfold selector_type. auto.
  - reflexivity.
  - vm_compute. reflexivity.
  - vm_compute. split; congruence.
  - vm_compute. reflexivity.
  - vm_compute. congruence.
  - vm_compute. reflexivity.
  - intros b _. reflexivity.
  - vm_compute. split; reflexivity.
  - unfold demo_cases. repeat constructor.
  - unfold demo_cases, cases_ok, sword. cbn [is_32bit]. repeat constructor; cbn [fst]; lia.
Qed.

Lemma select_switch_correct_witness :
  exists s', select_switch demo_cases 9 (mkInstruction [7] []) 0 demo_state = (Ok tt, s') /\
    LayoutOk demo_layout (jump_tables (func s')) /\
    lowers_switch demo_layout demo_state s' 0 (mkVReg 0 Gpr32) I32 demo_cases 9.
Proof.
  destruct (select_switch_correct demo_layout demo_state (mkInstruction [7] []) 0 7
    (mkVReg 0 Gpr32) I32 demo_cases 9) as (s' & E & H).
  - exact demo_ready.
  - apply (bool_decide_unpack _). vm_compute. exact I.
  - intros _ a b Ha Hb. repeat (apply elem_of_cons in Ha as [->|Ha]); try (by apply not_elem_of_nil in Ha);
      repeat (apply elem_of_cons in Hb as [->|Hb]); try (by apply not_elem_of_nil in Hb); reflexivity.
  - exists s'. split; [exact E|]. split; [|exact H].
    assert (Ej : jump_tables (func (snd (select_switch demo_cases 9 (mkInstruction [7] []) 0 demo_state)))
                 = [mkJumpTable 10 demo_table]) by (vm_compute; reflexivity).
    rewrite E in Ej. cbn [snd] in Ej. rewrite Ej. exact demo_layout_ok.
Defined.

(** A sparse switch goes through the search tree, here through one synthesized block. *)
Definition sparse_cases : Cases :=
  [(5000, 5); (-7, 1); (100, 2); (70000, 6); (2000, 4); (1000, 3); (900000, 7)].

Example demo_bst :
  let s' := snd (select_switch sparse_cases 9 (mkInstruction [7] []) 0 demo_state) in
  option_map fst (hops (fcode (func s')) SYNTHETIC_BLOCK_ID_BASE 1 (fcode (func s') 0)
                    (fun _ => 5000)) = Some 5 /\
  option_map fst (hops (fcode (func s')) SYNTHETIC_BLOCK_ID_BASE 1 (fcode (func s') 0)
                    (fun _ => 2 ^ 32 - 7)) = Some 1.
Proof. vm_compute. split; reflexivity. Qed.


