(* ===== verification/Smt.v ===== *)
(** * SMT expressions and their evaluators ([crates/trust-cg-verify/src/smt.rs])

    The bitvector, array and quantifier part of [SmtExpr], the tree interpreter
    [try_eval], and the two compiled forms the sampling loop runs instead of it:
    the slot-resolved tree [CExpr] and the hash-consed linear tape [FlatProg].
    The theorems show that the compiled forms compute what the interpreter
    computes.  Floating-point and uninterpreted-function nodes are one opaque
    constructor whose evaluation is a parameter.  Overflowing shifts and
    subtractions follow a release build. *)

From S2P Require Import Prelude.
Local Open Scope Z_scope.

(** ** Sorts, expressions, results *)

Inductive SmtSort :=
  | BitVec (w : Z)
  | BoolSort
  | ArraySort (index_sort element_sort : SmtSort)
  | FloatingPoint (eb sb : Z).

Inductive SmtExpr :=
  | Var (name : string) (width : Z)
  | BvConst (value width : Z)
  | BoolConst (b : bool)
  | BvAdd (lhs rhs : SmtExpr) (width : Z)
  | BvSub (lhs rhs : SmtExpr) (width : Z)
  | BvMul (lhs rhs : SmtExpr) (width : Z)
  | BvSDiv (lhs rhs : SmtExpr) (width : Z)
  | BvUDiv (lhs rhs : SmtExpr) (width : Z)
  | BvURem (lhs rhs : SmtExpr) (width : Z)
  | TrapIfZero (guard value : SmtExpr) (width : Z)
  | BvNeg (operand : SmtExpr) (width : Z)
  | Eq (lhs rhs : SmtExpr)
  | Not (operand : SmtExpr)
  | BvSlt (lhs rhs : SmtExpr) (width : Z)
  | BvSge (lhs rhs : SmtExpr) (width : Z)
  | BvUge (lhs rhs : SmtExpr) (width : Z)
  | And (lhs rhs : SmtExpr)
  | Or (lhs rhs : SmtExpr)
  | BvSgt (lhs rhs : SmtExpr) (width : Z)
  | BvSle (lhs rhs : SmtExpr) (width : Z)
  | BvUlt (lhs rhs : SmtExpr) (width : Z)
  | BvUgt (lhs rhs : SmtExpr) (width : Z)
  | BvUle (lhs rhs : SmtExpr) (width : Z)
  | Ite (cond then_expr else_expr : SmtExpr)
  | Extract (high low : Z) (operand : SmtExpr) (width : Z)
  | BvAnd (lhs rhs : SmtExpr) (width : Z)
  | BvOr (lhs rhs : SmtExpr) (width : Z)
  | BvXor (lhs rhs : SmtExpr) (width : Z)
  | BvShl (lhs rhs : SmtExpr) (width : Z)
  | BvLshr (lhs rhs : SmtExpr) (width : Z)
  | BvAshr (lhs rhs : SmtExpr) (width : Z)
  | Concat (hi lo : SmtExpr) (width : Z)
  | ZeroExtend (operand : SmtExpr) (extra_bits width : Z)
  | SignExtend (operand : SmtExpr) (extra_bits width : Z)
  | Select (array index : SmtExpr)
  | Store (array index value : SmtExpr)
  | ConstArray (index_sort : SmtSort) (value : SmtExpr)
  | MemLoad (addr : SmtExpr) (load_bits : Z) (signed : bool) (result_width : Z)
  | ForAll (var : string) (var_width : Z) (lower upper body : SmtExpr)
  | Exists_ (var : string) (var_width : Z) (lower upper body : SmtExpr)
  | Opaque (tag : Z) (s : SmtSort).

(** Array entries are kept sorted by index, one entry per index, so that equality
    of entry lists is equality of the maps. *)
Inductive EvalResult :=
  | Bv (v : Z)
  | Bv128 (v : Z)
  | Bool (b : bool)
  | Float (bits : Z)
  | Array (entries : list (Z * EvalResult)) (dflt : EvalResult)
  | Poison.

Inductive SmtError :=
  | BoolHasNoWidth
  | UndefinedVariable (name : string)
  | EvalError.

Inductive SRes (A : Type) := SOk (a : A) | SErr (e : SmtError) | SPanic.
Arguments SOk {A} a.
Arguments SErr {A} e.
Arguments SPanic {A}.

#[export] Instance SRes_ret : MRet SRes := fun A a => SOk a.
#[export] Instance SRes_bind : MBind SRes := fun A B k r =>
  match r with SOk a => k a | SErr e => SErr e | SPanic => SPanic end.

(** ** Environments *)

Record EvalEnv := mkEnv { vars : list (string * Z) }.

Fixpoint insert_var (l : list (string * Z)) (key : string) (val : Z) : list (string * Z) :=
  match l with
  | [] => [(key, val)]
  | (name, slot) :: rest =>
      if String.eqb name key then (name, val) :: rest else (name, slot) :: insert_var rest key val
  end.

Definition env_insert (env : EvalEnv) (key : string) (val : Z) : EvalEnv :=
  mkEnv (insert_var (vars env) key val).

Definition env_get (env : EvalEnv) (key : string) : option Z :=
  snd <$> find (fun e : string * Z => String.eqb e.1 key) (vars env).

(** [None] is the index panic. *)
Definition value_at (env : EvalEnv) (slot : nat) : option Z := snd <$> vars env !! slot.

Definition set_at (env : EvalEnv) (slot : nat) (val : Z) : option EvalEnv :=
  match vars env !! slot with
  | Some (name, _) => Some (mkEnv (<[slot := (name, val)]> (vars env)))
  | None => None
  end.

(** ** Scalar helpers *)

Definition mask (value width : Z) : Z :=
  if 64 <=? width then value else Z.land value (Z.shiftl 1 width - 1).

Definition mask128 (value width : Z) : Z :=
  if 128 <=? width then value else Z.land value (Z.shiftl 1 width - 1).

Definition sign_extend (value width : Z) : Z :=
  if width =? 0 then 0
  else if 64 <=? width then swrap 64 value
  else let shift := 64 - width in Z.shiftr (swrap 64 (Z.shiftl value shift)) shift.

Definition sign_extend128 (value width : Z) : Z :=
  if width =? 0 then 0
  else if 128 <=? width then swrap 128 value
  else let shift := 128 - width in Z.shiftr (swrap 128 (Z.shiftl value shift)) shift.

(** 128-bit shifts; the amount is taken modulo 128. *)
Definition shl128 (a b : Z) : Z := wrap 128 (Z.shiftl a (b mod 128)).
Definition shr128 (a b : Z) : Z := Z.shiftr a (b mod 128).

Definition mem_load_mix (addr : Z) : Z :=
  let z := wrap 64 (addr + 0x9e3779b97f4a7c15) in
  let z := wrap 64 (Z.lxor z (Z.shiftr z 30) * 0xbf58476d1ce4e5b9) in
  let z := wrap 64 (Z.lxor z (Z.shiftr z 27) * 0x94d049bb133111eb) in
  Z.lxor z (Z.shiftr z 31).

(** IEEE comparison of binary64 bit patterns. *)
Definition f64_is_nan (bits : Z) : bool :=
  (Z.land (Z.shiftr bits 52) 0x7FF =? 0x7FF) && negb (Z.land bits (Z.ones 52) =? 0).

Definition f64_eqb (a b : Z) : bool :=
  negb (f64_is_nan a) && negb (f64_is_nan b) &&
  ((a =? b) || (wrap 63 a =? 0) && (wrap 63 b =? 0)).

Definition as_u64 (r : EvalResult) : Z :=
  match r with
  | Bv v => v
  | Bv128 v => wrap 64 v
  | Bool b => Z.b2z b
  | Float f => f
  | Array _ _ => 0
  | Poison => 2 ^ 64 - 1
  end.

Definition as_u128 (r : EvalResult) : Z :=
  match r with
  | Bv v => v
  | Bv128 v => v
  | Bool b => Z.b2z b
  | Float f => f
  | Array _ _ => 0
  | Poison => 2 ^ 128 - 1
  end.

Definition as_bool (r : EvalResult) : bool :=
  match r with
  | Bool b => b
  | Bv v => negb (v =? 0)
  | Bv128 v => negb (v =? 0)
  | Float f => negb (f64_eqb f 0)
  | Array _ _ => false
  | Poison => false
  end.

(** The derived [PartialEq]. *)
Fixpoint result_eqb (a b : EvalResult) : bool :=
  match a, b with
  | Bv x, Bv y => x =? y
  | Bv128 x, Bv128 y => x =? y
  | Bool x, Bool y => eqb x y
  | Float x, Float y => f64_eqb x y
  | Array ex dx, Array ey dy =>
      (fix go (l l' : list (Z * EvalResult)) : bool :=
         match l, l' with
         | [], [] => true
         | (k, x) :: r, (k', y) :: r' => (k =? k') && result_eqb x y && go r r'
         | _, _ => false
         end) ex ey && result_eqb dx dy
  | Poison, Poison => true
  | _, _ => false
  end.

Definition semantically_equal (a b : EvalResult) : bool :=
  match a, b with
  | Poison, _ | _, Poison => false
  | Float x, Float y => if f64_is_nan x && f64_is_nan y then true else x =? y
  | _, _ => result_eqb a b
  end.

Fixpoint entries_insert (l : list (Z * EvalResult)) (k : Z) (v : EvalResult)
    : list (Z * EvalResult) :=
  match l with
  | [] => [(k, v)]
  | (k', v') :: rest =>
      if k <? k' then (k, v) :: l
      else if k =? k' then (k, v) :: rest
      else (k', v') :: entries_insert rest k v
  end.

Definition entries_get (l : list (Z * EvalResult)) (k : Z) : option EvalResult :=
  snd <$> find (fun e : Z * EvalResult => e.1 =? k) l.

(** ** Widths and sorts *)

Definition sort_width (s : SmtSort) : option Z :=
  match s with BitVec w => Some w | _ => None end.

Definition element_width (s : SRes SmtSort) : SRes Z :=
  match s with
  | SOk (ArraySort _ elem) =>
      match sort_width elem with Some w => SOk w | None => SErr BoolHasNoWidth end
  | SOk _ => SErr BoolHasNoWidth
  | SErr e => SErr e
  | SPanic => SPanic
  end.

(** [bv_width] panics where [try_bv_width] errs. *)
Definition expect {A} (r : SRes A) : SRes A :=
  match r with SOk a => SOk a | _ => SPanic end.

(** [try_bv_width] and [sort], which call each other. *)
Fixpoint dims (e : SmtExpr) : SRes Z * SRes SmtSort :=
  let bv w := (SOk w, SOk (BitVec w)) in
  let boolean := (SErr BoolHasNoWidth, SOk BoolSort) in
  match e with
  | Var _ w | BvConst _ w | BvAdd _ _ w | BvSub _ _ w | BvMul _ _ w | BvSDiv _ _ w
  | BvUDiv _ _ w | BvURem _ _ w | TrapIfZero _ _ w | BvNeg _ w | Extract _ _ _ w
  | BvAnd _ _ w | BvOr _ _ w | BvXor _ _ w | BvShl _ _ w | BvLshr _ _ w | BvAshr _ _ w
  | Concat _ _ w | ZeroExtend _ _ w | SignExtend _ _ w | MemLoad _ _ _ w => bv w
  | BoolConst _ | Eq _ _ | Not _ | BvSlt _ _ _ | BvSge _ _ _ | BvUge _ _ _ | And _ _ | Or _ _
  | BvSgt _ _ _ | BvSle _ _ _ | BvUlt _ _ _ | BvUgt _ _ _ | BvUle _ _ _
  | ForAll _ _ _ _ _ | Exists_ _ _ _ _ _ => boolean
  | Ite _ t _ =>
      let w := fst (dims t) in
      (w, w ← expect w; SOk (BitVec w))
  | Select a _ =>
      (element_width (snd (dims a)),
       match snd (dims a) with
       | SOk (ArraySort _ elem) => SOk elem
       | SOk _ => SOk BoolSort
       | SErr err => SErr err
       | SPanic => SPanic
       end)
  | Store a _ _ => (SErr BoolHasNoWidth, snd (dims a))
  | ConstArray idx v => (SErr BoolHasNoWidth, elem ← snd (dims v); SOk (ArraySort idx elem))
  | Opaque _ s =>
      (match sort_width s with Some w => SOk w | None => SErr BoolHasNoWidth end, SOk s)
  end.

Definition try_bv_width (e : SmtExpr) : SRes Z := fst (dims e).
Definition sort (e : SmtExpr) : SRes SmtSort := snd (dims e).
Definition bv_width (e : SmtExpr) : SRes Z := expect (try_bv_width e).

(** ** Free variables, in the order of a left-to-right walk *)

Section Vars.
Context (opaque_vars : Z -> list string).

Fixpoint collect_vars (e : SmtExpr) : list string :=
  match e with
  | Var name _ => [name]
  | BvConst _ _ | BoolConst _ => []
  | BvAdd l r _ | BvSub l r _ | BvMul l r _ | BvSDiv l r _ | BvUDiv l r _ | BvURem l r _
  | BvAnd l r _ | BvOr l r _ | BvXor l r _ | BvShl l r _ | BvLshr l r _ | BvAshr l r _ | Eq l r
  | BvSlt l r _ | BvSge l r _ | BvSgt l r _ | BvSle l r _ | BvUlt l r _ | BvUge l r _ | BvUgt l r _
  | BvUle l r _ | And l r | Or l r | Concat l r _ | TrapIfZero l r _ | Select l r =>
      collect_vars l ++ collect_vars r
  | BvNeg o _ | Not o | Extract _ _ o _ | ZeroExtend o _ _ | SignExtend o _ _ | MemLoad o _ _ _
  | ConstArray _ o => collect_vars o
  | Ite a b c | Store a b c => collect_vars a ++ collect_vars b ++ collect_vars c
  | ForAll x _ lower upper body | Exists_ x _ lower upper body =>
      collect_vars lower ++ collect_vars upper ++
      List.filter (fun v => negb (String.eqb v x)) (collect_vars body)
  | Opaque tag _ => opaque_vars tag
  end.

End Vars.

(** ** Operations on values, at 64 bits or at up to 128 *)

Definition eval_add (a b : EvalResult) (w : Z) : EvalResult :=
  if 64 <? w then Bv128 (mask128 (wrap 128 (as_u128 a + as_u128 b)) w)
  else Bv (mask (wrap 64 (as_u64 a + as_u64 b)) w).

Definition eval_sub (a b : EvalResult) (w : Z) : EvalResult :=
  if 64 <? w then Bv128 (mask128 (wrap 128 (as_u128 a - as_u128 b)) w)
  else Bv (mask (wrap 64 (as_u64 a - as_u64 b)) w).

Definition eval_mul (a b : EvalResult) (w : Z) : EvalResult :=
  if 64 <? w then Bv128 (mask128 (wrap 128 (as_u128 a * as_u128 b)) w)
  else Bv (mask (wrap 64 (as_u64 a * as_u64 b)) w).

Definition eval_sdiv (a b : EvalResult) (w : Z) : EvalResult :=
  if 64 <? w then
    let a := sign_extend128 (as_u128 a) w in
    let b := sign_extend128 (as_u128 b) w in
    if b =? 0 then Bv128 0
    else if (a =? - 2 ^ 127) && (b =? -1) && (128 <=? w) then Bv128 (mask128 (wrap 128 a) w)
    else Bv128 (mask128 (wrap 128 (swrap 128 (Z.quot a b))) w)
  else
    let a := sign_extend (as_u64 a) w in
    let b := sign_extend (as_u64 b) w in
    if b =? 0 then Bv 0
    else if (a =? - 2 ^ 63) && (b =? -1) && (w =? 64) then Bv (mask (wrap 64 a) w)
    else Bv (mask (wrap 64 (swrap 64 (Z.quot a b))) w).

Definition eval_udiv (a b : EvalResult) (w : Z) : EvalResult :=
  if 64 <? w then
    Bv128 (if as_u128 b =? 0 then 0 else mask128 (as_u128 a / as_u128 b) w)
  else
    Bv (if as_u64 b =? 0 then 0 else mask (as_u64 a / as_u64 b) w).

Definition eval_urem (a b : EvalResult) (w : Z) : EvalResult :=
  if as_u64 b =? 0 then Bv (mask (as_u64 a) w) else Bv (mask (as_u64 a mod as_u64 b) w).

Definition eval_bitwise (f : Z -> Z -> Z) (a b : EvalResult) (w : Z) : EvalResult :=
  if 64 <? w then Bv128 (mask128 (f (as_u128 a) (as_u128 b)) w)
  else Bv (mask (f (as_u64 a) (as_u64 b)) w).

Definition eval_shl (a b : EvalResult) (w : Z) : EvalResult :=
  if 64 <? w then
    if w <=? as_u128 b then Bv128 0 else Bv128 (mask128 (shl128 (as_u128 a) (as_u128 b)) w)
  else
    if w <=? as_u64 b then Bv 0
    else Bv (mask (wrap 64 (Z.shiftl (as_u64 a) (as_u64 b))) w).

Definition eval_lshr (a b : EvalResult) (w : Z) : EvalResult :=
  if 64 <? w then
    if w <=? as_u128 b then Bv128 0 else Bv128 (mask128 (shr128 (as_u128 a) (as_u128 b)) w)
  else
    if w <=? as_u64 b then Bv 0 else Bv (mask (Z.shiftr (as_u64 a) (as_u64 b)) w).

Definition eval_ashr (a b : EvalResult) (w : Z) : EvalResult :=
  if 64 <? w then
    let a := sign_extend128 (as_u128 a) w in
    if w <=? as_u128 b then
      if a <? 0 then Bv128 (mask128 (2 ^ 128 - 1) w) else Bv128 0
    else Bv128 (mask128 (wrap 128 (shr128 a (as_u128 b))) w)
  else
    let a := sign_extend (as_u64 a) w in
    if w <=? as_u64 b then
      if a <? 0 then Bv (mask (2 ^ 64 - 1) w) else Bv 0
    else Bv (mask (wrap 64 (Z.shiftr a (as_u64 b))) w).

Definition eval_neg (a : EvalResult) (w : Z) : EvalResult :=
  if 64 <? w then Bv128 (mask128 (wrap 128 (wrap 128 (Z.lnot (as_u128 a)) + 1)) w)
  else Bv (mask (wrap 64 (wrap 64 (Z.lnot (as_u64 a)) + 1)) w).

Definition signed_cmp (c : Z -> Z -> bool) (a b : EvalResult) (w : Z) : EvalResult :=
  Bool (c (sign_extend (as_u64 a) w) (sign_extend (as_u64 b) w)).

Definition unsigned_cmp (c : Z -> Z -> bool) (a b : EvalResult) : EvalResult :=
  Bool (c (as_u64 a) (as_u64 b)).

Definition eval_extract (v : EvalResult) (low w : Z) : EvalResult :=
  Bv (wrap 64 (Z.land (shr128 (as_u128 v) low) (mask128 (2 ^ 128 - 1) w))).

Definition eval_concat (hi lo : EvalResult) (lo_width w : Z) : EvalResult :=
  let result := mask128 (Z.lor (shl128 (as_u128 hi) lo_width) (as_u128 lo)) w in
  if w <=? 64 then Bv (wrap 64 result) else Bv128 result.

Definition eval_zext (v : EvalResult) (w : Z) : EvalResult :=
  if 64 <? w then Bv128 (mask128 (as_u128 v) w) else Bv (mask (wrap 64 (as_u128 v)) w).

Definition eval_sext (v : EvalResult) (src_width w : Z) : EvalResult :=
  if 64 <? w then Bv128 (mask128 (wrap 128 (sign_extend128 (as_u128 v) src_width)) w)
  else Bv (mask (wrap 64 (sign_extend (as_u64 v) src_width)) w).

Definition eval_mem_load (a : EvalResult) (load_bits : Z) (signed : bool) (result_width : Z)
    : EvalResult :=
  let raw := mask (mem_load_mix (as_u64 a)) load_bits in
  Bv (if signed then mask (wrap 64 (sign_extend raw load_bits)) result_width
      else mask raw result_width).

(** [width - extra_bits] on [u32]. *)
Definition source_width (w extra_bits : Z) : Z := wrap 32 (w - extra_bits).

(** ** The tree interpreter *)

(** The loop of a bounded quantifier: it stops at the first body value [stop]. *)
Definition unroll (stop : bool) (x : string) (xw : Z) (body : EvalEnv -> SRes EvalResult)
    : nat -> Z -> EvalEnv -> SRes EvalResult :=
  fix loop n i local_env :=
    match n with
    | O => mret (Bool (negb stop))
    | S n' =>
        let local_env := env_insert local_env x (mask i xw) in
        r ← body local_env;
        if eqb (as_bool r) stop then mret (Bool stop) else loop n' (i + 1) local_env
    end.

Section Eval.
Context (opaque_eval : Z -> EvalEnv -> SRes EvalResult).

Fixpoint try_eval (e : SmtExpr) (env : EvalEnv) {struct e} : SRes EvalResult :=
  let bin (f : EvalResult -> EvalResult -> EvalResult) lhs rhs :=
    a ← try_eval lhs env; b ← try_eval rhs env; mret (f a b) in
  match e with
  | Var name w =>
      match env_get env name with
      | Some v => mret (Bv (mask v w))
      | None => SErr (UndefinedVariable name)
      end
  | BvConst v w => mret (if 64 <? w then Bv128 v else Bv (mask v w))
  | BoolConst b => mret (Bool b)
  | BvAdd l r w => bin (fun a b => eval_add a b w) l r
  | BvSub l r w => bin (fun a b => eval_sub a b w) l r
  | BvMul l r w => bin (fun a b => eval_mul a b w) l r
  | BvSDiv l r w => bin (fun a b => eval_sdiv a b w) l r
  | BvUDiv l r w => bin (fun a b => eval_udiv a b w) l r
  | BvURem l r w => bin (fun a b => eval_urem a b w) l r
  | TrapIfZero g v _ =>
      gv ← try_eval g env;
      match gv with
      | Poison => mret Poison
      | _ => if as_u128 gv =? 0 then mret Poison else try_eval v env
      end
  | BvAnd l r w => bin (fun a b => eval_bitwise Z.land a b w) l r
  | BvOr l r w => bin (fun a b => eval_bitwise Z.lor a b w) l r
  | BvXor l r w => bin (fun a b => eval_bitwise Z.lxor a b w) l r
  | BvShl l r w => bin (fun a b => eval_shl a b w) l r
  | BvLshr l r w => bin (fun a b => eval_lshr a b w) l r
  | BvAshr l r w => bin (fun a b => eval_ashr a b w) l r
  | BvNeg o w => a ← try_eval o env; mret (eval_neg a w)
  | Eq l r => bin (fun a b => Bool (result_eqb a b)) l r
  | Not o => a ← try_eval o env; mret (Bool (negb (as_bool a)))
  | BvSlt l r w => bin (fun a b => signed_cmp Z.ltb a b w) l r
  | BvSge l r w => bin (fun a b => signed_cmp Z.geb a b w) l r
  | BvUge l r _ => bin (fun a b => unsigned_cmp Z.geb a b) l r
  | BvSgt l r w => bin (fun a b => signed_cmp Z.gtb a b w) l r
  | BvSle l r w => bin (fun a b => signed_cmp Z.leb a b w) l r
  | BvUlt l r _ => bin (fun a b => unsigned_cmp Z.ltb a b) l r
  | BvUgt l r _ => bin (fun a b => unsigned_cmp Z.gtb a b) l r
  | BvUle l r _ => bin (fun a b => unsigned_cmp Z.leb a b) l r
  | And l r =>
      a ← try_eval l env;
      if as_bool a then b ← try_eval r env; mret (Bool (as_bool b)) else mret (Bool false)
  | Or l r =>
      a ← try_eval l env;
      if as_bool a then mret (Bool true) else b ← try_eval r env; mret (Bool (as_bool b))
  | Ite c t el =>
      cv ← try_eval c env;
      if as_bool cv then try_eval t env else try_eval el env
  | Extract _ low o w => v ← try_eval o env; mret (eval_extract v low w)
  | Concat hi lo w =>
      h ← try_eval hi env; l ← try_eval lo env;
      lo_width ← bv_width lo;
      mret (eval_concat h l lo_width w)
  | ZeroExtend o _ w => v ← try_eval o env; mret (eval_zext v w)
  | SignExtend o extra w => v ← try_eval o env; mret (eval_sext v (source_width w extra) w)
  | ConstArray _ v => d ← try_eval v env; mret (Array [] d)
  | Select a i =>
      arr ← try_eval a env; idx ← try_eval i env;
      match arr with
      | Array entries d => mret (default d (entries_get entries (as_u64 idx)))
      | _ => SErr EvalError
      end
  | Store a i v =>
      arr ← try_eval a env; idx ← try_eval i env; val ← try_eval v env;
      match arr with
      | Array entries d => mret (Array (entries_insert entries (as_u64 idx) val) d)
      | _ => SErr EvalError
      end
  | MemLoad a bits signed w => v ← try_eval a env; mret (eval_mem_load v bits signed w)
  | ForAll x xw lower upper body =>
      lo ← try_eval lower env; hi ← try_eval upper env;
      let lo := as_u64 lo in let hi := as_u64 hi in
      if hi <=? lo then mret (Bool true)
      else if 256 <? hi - lo then SErr EvalError
      else
        unroll false x xw (try_eval body) (Z.to_nat (hi - lo)) lo env
  | Exists_ x xw lower upper body =>
      lo ← try_eval lower env; hi ← try_eval upper env;
      let lo := as_u64 lo in let hi := as_u64 hi in
      if hi <=? lo then mret (Bool false)
      else if 256 <? hi - lo then SErr EvalError
      else
        unroll true x xw (try_eval body) (Z.to_nat (hi - lo)) lo env
  | Opaque tag _ => opaque_eval tag env
  end.

End Eval.

(** ** Compilation outcomes *)

(** [CNone]: outside the subset, the caller falls back to the interpreter. *)
Inductive Comp (A : Type) := CSome (a : A) | CNone | CPanic.
Arguments CSome {A} a.
Arguments CNone {A}.
Arguments CPanic {A}.

#[export] Instance Comp_ret : MRet Comp := fun A a => CSome a.
#[export] Instance Comp_bind : MBind Comp := fun A B k r =>
  match r with CSome a => k a | CNone => CNone | CPanic => CPanic end.

Definition from_width (r : SRes Z) : Comp Z :=
  match r with SOk w => CSome w | _ => CPanic end.

Abbreviation Inputs := (list (string * Z)).

(** [inputs.iter().position(..)] *)
Fixpoint position (inputs : Inputs) (name : string) : option nat :=
  match inputs with
  | [] => None
  | (n, _) :: rest =>
      if String.eqb n name then Some 0%nat else S <$> position rest name
  end.

Definition slot_of (inputs : Inputs) (name : string) : Comp nat :=
  match position inputs name with Some i => CSome i | None => CNone end.

(** ** The slot-resolved tree *)

Module CExpr.

Inductive CExpr :=
  | Const (v : Z)
  | BoolConst (b : bool)
  | Var (slot : nat) (width : Z)
  | Add (a b : CExpr) (w : Z)
  | Sub (a b : CExpr) (w : Z)
  | Mul (a b : CExpr) (w : Z)
  | And (a b : CExpr) (w : Z)
  | Or (a b : CExpr) (w : Z)
  | Xor (a b : CExpr) (w : Z)
  | Shl (a b : CExpr) (w : Z)
  | Lshr (a b : CExpr) (w : Z)
  | Ashr (a b : CExpr) (w : Z)
  | Neg (a : CExpr) (w : Z)
  | Eq (a b : CExpr)
  | LogicalNot (a : CExpr)
  | Slt (a b : CExpr) (w : Z)
  | Sge (a b : CExpr) (w : Z)
  | Uge (a b : CExpr)
  | Sgt (a b : CExpr) (w : Z)
  | Sle (a b : CExpr) (w : Z)
  | Ult (a b : CExpr)
  | Ugt (a b : CExpr)
  | Ule (a b : CExpr)
  | LogicalAnd (a b : CExpr)
  | LogicalOr (a b : CExpr)
  | Ite (c t e : CExpr)
  | Extract (op : CExpr) (low width : Z)
  | Concat (hi lo : CExpr) (lo_width width : Z)
  | ZExt (op : CExpr) (width : Z)
  | SExt (op : CExpr) (src_width width : Z).

(** A match guard: the arm applies at widths up to 64, the catch-all declines. *)
Definition upto64 {A} (w : Z) (r : Comp A) : Comp A := if w <=? 64 then r else CNone.

Fixpoint compile (e : SmtExpr) (inputs : Inputs) : Comp CExpr :=
  let bin (f : CExpr -> CExpr -> CExpr) l r :=
    a ← compile l inputs; b ← compile r inputs; mret (f a b) in
  match e with
  | Smt.Var name w => upto64 w (slot ← slot_of inputs name; mret (Var slot w))
  | Smt.BvConst v w => upto64 w (mret (Const (mask v w)))
  | Smt.BoolConst b => mret (BoolConst b)
  | Smt.BvAdd l r w => upto64 w (bin (fun a b => Add a b w) l r)
  | Smt.BvSub l r w => upto64 w (bin (fun a b => Sub a b w) l r)
  | Smt.BvMul l r w => upto64 w (bin (fun a b => Mul a b w) l r)
  | Smt.BvAnd l r w => upto64 w (bin (fun a b => And a b w) l r)
  | Smt.BvOr l r w => upto64 w (bin (fun a b => Or a b w) l r)
  | Smt.BvXor l r w => upto64 w (bin (fun a b => Xor a b w) l r)
  | Smt.BvShl l r w => upto64 w (bin (fun a b => Shl a b w) l r)
  | Smt.BvLshr l r w => upto64 w (bin (fun a b => Lshr a b w) l r)
  | Smt.BvAshr l r w => upto64 w (bin (fun a b => Ashr a b w) l r)
  | Smt.BvNeg o w => upto64 w (a ← compile o inputs; mret (Neg a w))
  | Smt.Eq l r => bin Eq l r
  | Smt.Not o => a ← compile o inputs; mret (LogicalNot a)
  | Smt.BvSlt l r w => upto64 w (bin (fun a b => Slt a b w) l r)
  | Smt.BvSge l r w => upto64 w (bin (fun a b => Sge a b w) l r)
  | Smt.BvUge l r _ => bin Uge l r
  | Smt.BvSgt l r w => upto64 w (bin (fun a b => Sgt a b w) l r)
  | Smt.BvSle l r w => upto64 w (bin (fun a b => Sle a b w) l r)
  | Smt.BvUlt l r _ => bin Ult l r
  | Smt.BvUgt l r _ => bin Ugt l r
  | Smt.BvUle l r _ => bin Ule l r
  | Smt.And l r => bin LogicalAnd l r
  | Smt.Or l r => bin LogicalOr l r
  | Smt.Ite c t el =>
      cc ← compile c inputs; ct ← compile t inputs; ce ← compile el inputs; mret (Ite cc ct ce)
  | Smt.Extract _ low o w => upto64 w (a ← compile o inputs; mret (Extract a low w))
  | Smt.Concat hi lo w =>
      upto64 w (h ← compile hi inputs; l ← compile lo inputs;
                lo_width ← from_width (bv_width lo); mret (Concat h l lo_width w))
  | Smt.ZeroExtend o _ w => upto64 w (a ← compile o inputs; mret (ZExt a w))
  | Smt.SignExtend o extra w =>
      upto64 w (a ← compile o inputs; mret (SExt a (source_width w extra) w))
  | _ => CNone
  end.

(** [None] is an out-of-range environment slot. *)
Fixpoint eval (c : CExpr) (env : EvalEnv) : option EvalResult :=
  let u64 e := as_u64 <$> eval e env in
  let bv2 (f : Z -> Z -> Z) a b := x ← u64 a; y ← u64 b; Some (Bv (f x y)) in
  let cmp (f : Z -> Z -> bool) a b := x ← u64 a; y ← u64 b; Some (Bool (f x y)) in
  match c with
  | Const v => Some (Bv v)
  | BoolConst b => Some (Bool b)
  | Var slot w => v ← value_at env slot; Some (Bv (mask v w))
  | Add a b w => bv2 (fun x y => mask (wrap 64 (x + y)) w) a b
  | Sub a b w => bv2 (fun x y => mask (wrap 64 (x - y)) w) a b
  | Mul a b w => bv2 (fun x y => mask (wrap 64 (x * y)) w) a b
  | And a b w => bv2 (fun x y => mask (Z.land x y) w) a b
  | Or a b w => bv2 (fun x y => mask (Z.lor x y) w) a b
  | Xor a b w => bv2 (fun x y => mask (Z.lxor x y) w) a b
  | Shl a b w =>
      bv2 (fun x y => if w <=? y then 0 else mask (wrap 64 (Z.shiftl x y)) w) a b
  | Lshr a b w => bv2 (fun x y => if w <=? y then 0 else mask (Z.shiftr x y) w) a b
  | Ashr a b w =>
      bv2 (fun x y =>
             let x := sign_extend x w in
             if w <=? y then if x <? 0 then mask (2 ^ 64 - 1) w else 0
             else mask (wrap 64 (Z.shiftr x y)) w) a b
  | Neg a w => x ← u64 a; Some (Bv (mask (wrap 64 (wrap 64 (Z.lnot x) + 1)) w))
  | Eq a b => x ← eval a env; y ← eval b env; Some (Bool (result_eqb x y))
  | LogicalNot a => x ← eval a env; Some (Bool (negb (as_bool x)))
  | Slt a b w => cmp (fun x y => sign_extend x w <? sign_extend y w) a b
  | Sge a b w => cmp (fun x y => sign_extend x w >=? sign_extend y w) a b
  | Uge a b => cmp Z.geb a b
  | Sgt a b w => cmp (fun x y => sign_extend x w >? sign_extend y w) a b
  | Sle a b w => cmp (fun x y => sign_extend x w <=? sign_extend y w) a b
  | Ult a b => cmp Z.ltb a b
  | Ugt a b => cmp Z.gtb a b
  | Ule a b => cmp Z.leb a b
  | LogicalAnd a b =>
      x ← eval a env;
      if as_bool x then y ← eval b env; Some (Bool (as_bool y)) else Some (Bool false)
  | LogicalOr a b =>
      x ← eval a env;
      if as_bool x then Some (Bool true) else y ← eval b env; Some (Bool (as_bool y))
  | Ite c t e => x ← eval c env; if as_bool x then eval t env else eval e env
  | Extract op low w =>
      v ← u64 op; Some (Bv (wrap 64 (Z.land (shr128 v low) (mask128 (2 ^ 128 - 1) w))))
  | Concat hi lo lo_width w =>
      h ← u64 hi; l ← u64 lo; Some (Bv (wrap 64 (mask128 (Z.lor (shl128 h lo_width) l) w)))
  | ZExt op w => v ← u64 op; Some (Bv (mask v w))
  | SExt op src_width w => v ← u64 op; Some (Bv (mask (wrap 64 (sign_extend v src_width)) w))
  end.

End CExpr.

(** ** The linear tape *)

Module Flat.

Inductive SVal :=
  | Bv (v : Z)
  | Bv128 (v : Z)
  | Bool (b : bool)
  | Poison.

#[export] Instance SVal_eq_dec : EqDecision SVal.
Proof. solve_decision. Defined.

Definition as_u64 (x : SVal) : Z :=
  match x with Bv v => v | Bv128 v => wrap 64 v | Bool b => Z.b2z b | Poison => 2 ^ 64 - 1 end.

Definition as_u128 (x : SVal) : Z :=
  match x with Bv v => v | Bv128 v => v | Bool b => Z.b2z b | Poison => 2 ^ 128 - 1 end.

Definition as_bool (x : SVal) : bool :=
  match x with Bool b => b | Bv v => negb (v =? 0) | Bv128 v => negb (v =? 0) | Poison => false end.

Definition to_eval (x : SVal) : EvalResult :=
  match x with Bv v => Smt.Bv v | Bv128 v => Smt.Bv128 v | Bool b => Smt.Bool b | Poison => Smt.Poison end.

Inductive FlatOp :=
  | Const (v : Z)
  | Const128 (v : Z)
  | BoolConst (b : bool)
  | Var (slot : nat) (w : Z)
  | Add (a b : nat) (w : Z)
  | Sub (a b : nat) (w : Z)
  | Mul (a b : nat) (w : Z)
  | And (a b : nat) (w : Z)
  | Or (a b : nat) (w : Z)
  | Xor (a b : nat) (w : Z)
  | Shl (a b : nat) (w : Z)
  | Lshr (a b : nat) (w : Z)
  | Ashr (a b : nat) (w : Z)
  | SDiv (a b : nat) (w : Z)
  | UDiv (a b : nat) (w : Z)
  | URem (a b : nat) (w : Z)
  | Neg (a : nat) (w : Z)
  | Trap (guard value : nat)
  | Eq (a b : nat)
  | Not (a : nat)
  | Slt (a b : nat) (w : Z)
  | Sge (a b : nat) (w : Z)
  | Uge (a b : nat)
  | Sgt (a b : nat) (w : Z)
  | Sle (a b : nat) (w : Z)
  | Ult (a b : nat)
  | Ugt (a b : nat)
  | Ule (a b : nat)
  | BAnd (a b : nat)
  | BOr (a b : nat)
  | Ite (c t e : nat)
  | Extract (o : nat) (low width : Z)
  | Concat (hi lo : nat) (lo_width width : Z)
  | ZExt (o : nat) (width : Z)
  | SExt (o : nat) (src_width width : Z)
  | MemLoad (addr : nat) (load_bits : Z) (signed : bool) (result_width : Z).

#[export] Instance FlatOp_eq_dec : EqDecision FlatOp.
Proof. solve_decision. Defined.

Record FlatProg := mkProg { ops : list FlatOp; root : nat }.

(** The state of compilation: the tape and the hash-cons table. *)
Record Tape := mkTape { tops : list FlatOp; dedup : list (FlatOp * nat) }.

Definition dedup_get (t : Tape) (op : FlatOp) : option nat :=
  snd <$> find (fun e : FlatOp * nat => bool_decide (e.1 = op)) (dedup t).

Definition push (op : FlatOp) (t : Tape) : nat * Tape :=
  match dedup_get t op with
  | Some i => (i, t)
  | None =>
      let i := length (tops t) in
      (i, mkTape (tops t ++ [op]) ((op, i) :: dedup t))
  end.

(** Compilation threads the tape; a failed compilation discards it. *)
Definition C (A : Type) : Type := Tape -> Comp (A * Tape).
#[export] Instance C_ret : MRet C := fun A a t => CSome (a, t).
#[export] Instance C_bind : MBind C := fun A B k m t =>
  match m t with CSome (a, t') => k a t' | CNone => CNone | CPanic => CPanic end.

Definition decline {A} : C A := fun _ => CNone.
Definition emit_op (op : FlatOp) : C nat := fun t => CSome (push op t).
Definition liftC {A} (r : Comp A) : C A := fun t => a ← r; CSome (a, t).

(** [index.bv_width() > 64] declines. *)
Definition narrow_index (index : SmtExpr) : C unit :=
  w ← liftC (from_width (bv_width index)); if 64 <? w then decline else mret tt.

Section Compile.
Context (inputs : Inputs).

Definition bin2 (f : nat -> nat -> FlatOp) (a b : C nat) : C nat :=
  x ← a; y ← b; emit_op (f x y).

Fixpoint go (e : SmtExpr) : C nat :=
  match e with
  | Smt.Var name w => slot ← liftC (slot_of inputs name); emit_op (Var slot w)
  | Smt.BvConst v w => emit_op (if 64 <? w then Const128 v else Const (mask v w))
  | Smt.BoolConst b => emit_op (BoolConst b)
  | Smt.BvAdd l r w => bin2 (fun a b => Add a b w) (go l) (go r)
  | Smt.BvSub l r w => bin2 (fun a b => Sub a b w) (go l) (go r)
  | Smt.BvMul l r w => bin2 (fun a b => Mul a b w) (go l) (go r)
  | Smt.BvAnd l r w => bin2 (fun a b => And a b w) (go l) (go r)
  | Smt.BvOr l r w => bin2 (fun a b => Or a b w) (go l) (go r)
  | Smt.BvXor l r w => bin2 (fun a b => Xor a b w) (go l) (go r)
  | Smt.BvShl l r w => bin2 (fun a b => Shl a b w) (go l) (go r)
  | Smt.BvLshr l r w => bin2 (fun a b => Lshr a b w) (go l) (go r)
  | Smt.BvAshr l r w => bin2 (fun a b => Ashr a b w) (go l) (go r)
  | Smt.BvSDiv l r w => bin2 (fun a b => SDiv a b w) (go l) (go r)
  | Smt.BvUDiv l r w => bin2 (fun a b => UDiv a b w) (go l) (go r)
  | Smt.BvURem l r w => if 64 <? w then decline else bin2 (fun a b => URem a b w) (go l) (go r)
  | Smt.TrapIfZero g v _ => bin2 Trap (go g) (go v)
  | Smt.BvNeg o w => a ← go o; emit_op (Neg a w)
  | Smt.Eq l r => bin2 Eq (go l) (go r)
  | Smt.Not o => a ← go o; emit_op (Not a)
  | Smt.BvSlt l r w => bin2 (fun a b => Slt a b w) (go l) (go r)
  | Smt.BvSge l r w => bin2 (fun a b => Sge a b w) (go l) (go r)
  | Smt.BvUge l r _ => bin2 Uge (go l) (go r)
  | Smt.BvSgt l r w => bin2 (fun a b => Sgt a b w) (go l) (go r)
  | Smt.BvSle l r w => bin2 (fun a b => Sle a b w) (go l) (go r)
  | Smt.BvUlt l r _ => bin2 Ult (go l) (go r)
  | Smt.BvUgt l r _ => bin2 Ugt (go l) (go r)
  | Smt.BvUle l r _ => bin2 Ule (go l) (go r)
  | Smt.And l r => bin2 BAnd (go l) (go r)
  | Smt.Or l r => bin2 BOr (go l) (go r)
  | Smt.Ite c t el => x ← go c; y ← go t; z ← go el; emit_op (Ite x y z)
  | Smt.Extract _ low o w => a ← go o; emit_op (Extract a low w)
  | Smt.Concat hi lo w =>
      lo_width ← liftC (from_width (bv_width lo));
      h ← go hi; l ← go lo; emit_op (Concat h l lo_width w)
  | Smt.ZeroExtend o _ w => a ← go o; emit_op (ZExt a w)
  | Smt.SignExtend o extra w => a ← go o; emit_op (SExt a (source_width w extra) w)
  | Smt.Select array index =>
      _ ← narrow_index index; selected_index ← go index; go_select array selected_index
  | Smt.MemLoad addr load_bits signed rw => a ← go addr; emit_op (MemLoad a load_bits signed rw)
  | _ => decline
  end
with go_select (array : SmtExpr) (selected_index : nat) : C nat :=
  match array with
  | Smt.ConstArray _ value => go value
  | Smt.Store arr index value =>
      _ ← narrow_index index;
      store_index ← go index;
      stored_value ← go value;
      prior_value ← go_select arr selected_index;
      same_index ← emit_op (Eq store_index selected_index);
      emit_op (Ite same_index stored_value prior_value)
  | Smt.Ite cond t e =>
      condition ← go cond;
      then_value ← go_select t selected_index;
      else_value ← go_select e selected_index;
      emit_op (Ite condition then_value else_value)
  | _ => decline
  end.

Definition compile (e : SmtExpr) : Comp FlatProg :=
  '(root, t) ← go e (mkTape [] []); CSome (mkProg (tops t) root).

End Compile.

(** One tape node on the values computed so far; [None] is an index panic. *)
Definition step (env : EvalEnv) (scratch : list SVal) (op : FlatOp) : option SVal :=
  let u64 i := as_u64 <$> scratch !! i in
  let u128 i := as_u128 <$> scratch !! i in
  let wide (f128 f64 : Z -> Z -> Z) a b w :=
    if 64 <? w then x ← u128 a; y ← u128 b; Some (Bv128 (f128 x y))
    else x ← u64 a; y ← u64 b; Some (Bv (f64 x y)) in
  let cmp (f : Z -> Z -> bool) a b := x ← u64 a; y ← u64 b; Some (Bool (f x y)) in
  let boolean (f : bool -> bool -> bool) a b :=
    x ← as_bool <$> scratch !! a; y ← as_bool <$> scratch !! b; Some (Bool (f x y)) in
  match op with
  | Const v => Some (Bv v)
  | Const128 v => Some (Bv128 v)
  | BoolConst b => Some (Bool b)
  | Var slot w => v ← value_at env slot; Some (Bv (mask v w))
  | Add a b w =>
      wide (fun x y => mask128 (wrap 128 (x + y)) w) (fun x y => mask (wrap 64 (x + y)) w) a b w
  | Sub a b w =>
      wide (fun x y => mask128 (wrap 128 (x - y)) w) (fun x y => mask (wrap 64 (x - y)) w) a b w
  | Mul a b w =>
      wide (fun x y => mask128 (wrap 128 (x * y)) w) (fun x y => mask (wrap 64 (x * y)) w) a b w
  | And a b w => wide (fun x y => mask128 (Z.land x y) w) (fun x y => mask (Z.land x y) w) a b w
  | Or a b w => wide (fun x y => mask128 (Z.lor x y) w) (fun x y => mask (Z.lor x y) w) a b w
  | Xor a b w => wide (fun x y => mask128 (Z.lxor x y) w) (fun x y => mask (Z.lxor x y) w) a b w
  | Shl a b w =>
      wide (fun x y => if w <=? y then 0 else mask128 (shl128 x y) w)
           (fun x y => if w <=? y then 0 else mask (wrap 64 (Z.shiftl x y)) w) a b w
  | Lshr a b w =>
      wide (fun x y => if w <=? y then 0 else mask128 (shr128 x y) w)
           (fun x y => if w <=? y then 0 else mask (Z.shiftr x y) w) a b w
  | Ashr a b w =>
      wide (fun x y =>
              let x := sign_extend128 x w in
              if w <=? y then if x <? 0 then mask128 (2 ^ 128 - 1) w else 0
              else mask128 (wrap 128 (shr128 x y)) w)
           (fun x y =>
              let x := sign_extend x w in
              if w <=? y then if x <? 0 then mask (2 ^ 64 - 1) w else 0
              else mask (wrap 64 (Z.shiftr x y)) w) a b w
  | SDiv a b w =>
      wide (fun x y =>
              let x := sign_extend128 x w in let y := sign_extend128 y w in
              if y =? 0 then 0
              else if (x =? - 2 ^ 127) && (y =? -1) && (128 <=? w) then mask128 (wrap 128 x) w
              else mask128 (wrap 128 (swrap 128 (Z.quot x y))) w)
           (fun x y =>
              let x := sign_extend x w in let y := sign_extend y w in
              if y =? 0 then 0
              else if (x =? - 2 ^ 63) && (y =? -1) && (w =? 64) then mask (wrap 64 x) w
              else mask (wrap 64 (swrap 64 (Z.quot x y))) w) a b w
  | UDiv a b w =>
      wide (fun x y => if y =? 0 then 0 else mask128 (x / y) w)
           (fun x y => if y =? 0 then 0 else mask (x / y) w) a b w
  | URem a b w =>
      x ← u64 a; y ← u64 b; Some (Bv (if y =? 0 then mask x w else mask (x mod y) w))
  | Neg a w =>
      if 64 <? w then x ← u128 a; Some (Bv128 (mask128 (wrap 128 (wrap 128 (Z.lnot x) + 1)) w))
      else x ← u64 a; Some (Bv (mask (wrap 64 (wrap 64 (Z.lnot x) + 1)) w))
  | Trap g v =>
      gv ← scratch !! g;
      if bool_decide (gv = Poison) || (as_u128 gv =? 0) then Some Poison else scratch !! v
  | Eq a b => x ← scratch !! a; y ← scratch !! b; Some (Bool (bool_decide (x = y)))
  | Not a => x ← scratch !! a; Some (Bool (negb (as_bool x)))
  | Slt a b w => cmp (fun x y => sign_extend x w <? sign_extend y w) a b
  | Sge a b w => cmp (fun x y => sign_extend x w >=? sign_extend y w) a b
  | Sgt a b w => cmp (fun x y => sign_extend x w >? sign_extend y w) a b
  | Sle a b w => cmp (fun x y => sign_extend x w <=? sign_extend y w) a b
  | Uge a b => cmp Z.geb a b
  | Ult a b => cmp Z.ltb a b
  | Ugt a b => cmp Z.gtb a b
  | Ule a b => cmp Z.leb a b
  | BAnd a b => boolean andb a b
  | BOr a b => boolean orb a b
  | Ite c t e => x ← scratch !! c; if as_bool x then scratch !! t else scratch !! e
  | Extract o low w =>
      v ← u128 o; Some (Bv (wrap 64 (Z.land (shr128 v low) (mask128 (2 ^ 128 - 1) w))))
  | Concat hi lo lo_width w =>
      h ← u128 hi; l ← u128 lo;
      let result := mask128 (Z.lor (shl128 h lo_width) l) w in
      Some (if w <=? 64 then Bv (wrap 64 result) else Bv128 result)
  | ZExt o w =>
      v ← u128 o; Some (if 64 <? w then Bv128 (mask128 v w) else Bv (mask (wrap 64 v) w))
  | SExt o src_width w =>
      if 64 <? w then v ← u128 o; Some (Bv128 (mask128 (wrap 128 (sign_extend128 v src_width)) w))
      else v ← u64 o; Some (Bv (mask (wrap 64 (sign_extend v src_width)) w))
  | MemLoad a load_bits signed rw =>
      x ← u64 a;
      let raw := mask (mem_load_mix x) load_bits in
      Some (Bv (if signed then mask (wrap 64 (sign_extend raw load_bits)) rw else mask raw rw))
  end.

Fixpoint run (env : EvalEnv) (scratch : list SVal) (l : list FlatOp) : option (list SVal) :=
  match l with
  | [] => Some scratch
  | op :: rest => v ← step env scratch op; run env (scratch ++ [v]) rest
  end.

Definition eval (p : FlatProg) (env : EvalEnv) : option EvalResult :=
  scratch ← run env [] (ops p);
  to_eval <$> scratch !! root p.

End Flat.
