(* ===== verification/SmtEquiv.v ===== *)
(** * The compiled evaluators agree with the interpreter

    Equivalence of [CExpr] and [FlatProg] with [SmtExpr::try_eval]
    ([crates/trust-cg-verify/src/smt.rs]): whenever compilation accepts an
    expression, evaluation of the compiled form returns, and returns the
    interpreter's result. *)

From S2P Require Import Prelude Smt.
Local Open Scope Z_scope.

(** ** Environments *)

(** The environment holds 64-bit values under the input names, in order. *)
Definition env_matches (inputs : Inputs) (env : EvalEnv) : Prop :=
  (vars env).*1 = inputs.*1 /\ Forall (fun e => uword 64 e.2) (vars env).

Lemma position_get (inputs : Inputs) (env : EvalEnv) name i :
  env_matches inputs env -> position inputs name = Some i ->
  exists v, value_at env i = Some v /\ env_get env name = Some v /\ uword 64 v.
Proof.
  unfold value_at, env_get. destruct env as [l]. intros [Hn Hu]. cbn [vars] in *.
  revert inputs i Hn. induction Hu as [|[n v] l Hv Hu IH]; intros [|[m w] inputs] i Hn; try done.
  rewrite !fmap_cons in Hn. injection Hn as -> Hn. cbn [position find fst].
  destruct (String.eqb m name).
  { intros [= <-]. exists v. done. }
  destruct (position inputs name) as [j|] eqn:Ej; [|done]. intros [= <-].
  destruct (IH inputs j Hn Ej) as (v' & ? & ? & ?). exists v'. done.
Qed.

Lemma insert_var_fresh l key val : key ∉ l.*1 -> insert_var l key val = l ++ [(key, val)].
Proof.
  induction l as [|[n v] l IH]; [done|]. cbn. rewrite not_elem_of_cons. intros [Hne Hin].
  destruct (String.eqb_spec n key) as [->|]; [done|]. by rewrite IH.
Qed.

(** Binding distinct names in order yields one slot per name, in that order. *)
Lemma bind_in_order (names : list string) (vals : list Z) l :
  NoDup (l.*1 ++ names) -> length names = length vals ->
  foldl (fun env b => env_insert env b.1 b.2) (mkEnv l) (zip names vals) = mkEnv (l ++ zip names vals).
Proof.
  revert vals l. induction names as [|n names IH]; intros [|v vals] l Hnd Hlen; try done.
  { by rewrite app_nil_r. }
  cbn [zip foldl fst snd zip_with]. unfold env_insert at 2. cbn [vars].
  rewrite insert_var_fresh.
  - rewrite IH; [by rewrite <- app_assoc| |by injection Hlen].
    rewrite fmap_app, <- app_assoc. exact Hnd.
  - apply NoDup_app in Hnd as (_ & Hd & _). intros Hin. apply (Hd n Hin). by left.
Qed.

(** ** Ranges *)

Lemma mask_range (x w : Z) : uword 64 x -> uword 64 (mask x w).
Proof. intros H. unfold mask. destruct (64 <=? w); [done|]. by apply uword_land. Qed.

Lemma mem_load_mix_range a : uword 64 (mem_load_mix a).
Proof.
  unfold mem_load_mix. apply uword_lxor; [lia|apply wrap_range; lia|].
  apply uword_shr; [lia|apply wrap_range; lia].
Qed.

Create HintDb u64.
#[local] Hint Resolve mask_range mem_load_mix_range : u64.
#[local] Hint Extern 1 (uword 64 (wrap 64 _)) => apply wrap_range; lia : u64.
#[local] Hint Extern 1 (uword 64 (Z.land _ _)) => apply uword_land; [lia|] : u64.
#[local] Hint Extern 1 (uword 64 (Z.lor _ _)) => apply uword_lor; [lia| |] : u64.
#[local] Hint Extern 1 (uword 64 (Z.lxor _ _)) => apply uword_lxor; [lia| |] : u64.
#[local] Hint Extern 1 (uword 64 (Z.shiftr _ _)) =>
  apply uword_shr; [unfold uword in *; lia|] : u64.
#[local] Hint Extern 1 (uword 64 _) => (unfold uword; lia) : u64.

(** The scalar results of 64-bit evaluation. *)
Definition scalar64 (r : EvalResult) : Prop :=
  match r with Bv v => uword 64 v | Bool _ => True | _ => False end.

Lemma scalar64_u64 r : scalar64 r -> uword 64 (as_u64 r).
Proof. destruct r as [| |[]| | |]; cbn; unfold uword; try done; lia. Qed.

Lemma scalar64_u128 r : scalar64 r -> as_u128 r = as_u64 r.
Proof. by destruct r. Qed.

#[local] Hint Resolve scalar64_u64 : u64.

(** Literals of the expression are [u64] values. *)
Fixpoint u64_consts (e : SmtExpr) : bool :=
  match e with
  | BvConst v _ => (0 <=? v) && (v <? 2 ^ 64)
  | Var _ _ | BoolConst _ | Opaque _ _ => true
  | BvAdd l r _ | BvSub l r _ | BvMul l r _ | BvSDiv l r _ | BvUDiv l r _ | BvURem l r _
  | TrapIfZero l r _ | Eq l r | BvSlt l r _ | BvSge l r _ | BvUge l r _ | And l r | Or l r
  | BvSgt l r _ | BvSle l r _ | BvUlt l r _ | BvUgt l r _ | BvUle l r _ | BvAnd l r _
  | BvOr l r _ | BvXor l r _ | BvShl l r _ | BvLshr l r _ | BvAshr l r _ | Concat l r _
  | Select l r => u64_consts l && u64_consts r
  | BvNeg o _ | Not o | Extract _ _ o _ | ZeroExtend o _ _ | SignExtend o _ _ | MemLoad o _ _ _
  | ConstArray _ o => u64_consts o
  | Ite a b c | Store a b c | ForAll _ _ a b c | Exists_ _ _ a b c =>
      u64_consts a && u64_consts b && u64_consts c
  end.

(** ** Inversion of compilation *)

Lemma comp_bind {A B} (m : Comp A) (k : A -> Comp B) b :
  (m ≫= k) = CSome b -> exists a, m = CSome a /\ k a = CSome b.
Proof. destruct m as [a| |]; cbn; [eauto|done|done]. Qed.

Lemma upto64_some {A} w (r : Comp A) a :
  CExpr.upto64 w r = CSome a -> w <= 64 /\ r = CSome a.
Proof. unfold CExpr.upto64. destruct (Z.leb_spec w 64); done. Qed.

Lemma slot_of_some inputs name i : slot_of inputs name = CSome i -> position inputs name = Some i.
Proof. unfold slot_of. destruct (position inputs name); [by intros [= ->]|done]. Qed.

Lemma from_width_some r w : from_width r = CSome w -> r = SOk w.
Proof. destruct r; cbn; [by intros [= ->]|done|done]. Qed.

Ltac inv_compile :=
  repeat match goal with
  | H : CExpr.upto64 _ _ = CSome _ |- _ => apply upto64_some in H as [? H]
  | H : (_ ≫= _) = CSome _ |- _ =>
      let a := fresh "c" in let E := fresh "E" in apply comp_bind in H as (a & E & H)
  | H : mret _ = CSome _ |- _ => injection H as <-
  | H : CSome _ = CSome _ |- _ => injection H as <-
  | H : slot_of _ _ = CSome _ |- _ => apply slot_of_some in H
  | H : from_width _ = CSome _ |- _ => apply from_width_some in H
  | H : CNone = CSome _ |- _ => discriminate H
  | H : _ && _ = true |- _ => apply andb_true_iff in H as [? ?]
  end.

Section Tree.
Context (opaque_eval : Z -> EvalEnv -> SRes EvalResult) (inputs : Inputs) (env : EvalEnv).
Context (Henv : env_matches inputs env).

(** Instantiate the induction hypotheses at the compiled children. *)
Ltac use_children :=
  repeat match goal with
  | IH : forall c, CExpr.compile ?e inputs = CSome c -> _, E : CExpr.compile ?e inputs = CSome ?c |- _ =>
      let r := fresh "r" in let H := fresh "H" in
      destruct (IH c E) as (r & ? & ? & H); [assumption|]; clear IH
  end.

Lemma cexpr_sound e c :
  CExpr.compile e inputs = CSome c -> u64_consts e = true ->
  exists r, CExpr.eval c env = Some r /\ try_eval opaque_eval e env = SOk r /\ scalar64 r.
Proof.
  revert c. induction e; cbn [CExpr.compile u64_consts]; intros c0 Hc Hu; inv_compile; use_children.
  all: cbn [CExpr.eval try_eval].
  all: repeat match goal with
       | H : CExpr.eval ?c env = Some _ |- context [CExpr.eval ?c env] => rewrite H
       | H : try_eval opaque_eval ?e env = SOk _ |- context [try_eval opaque_eval ?e env] => rewrite H
       | H : bv_width ?e = SOk _ |- context [bv_width ?e] => rewrite H
       end.
  all: unfold mret, SRes_ret, mbind, SRes_bind, option_bind, fmap, option_fmap, option_map.
  all: unfold eval_add, eval_sub, eval_mul, eval_bitwise, eval_shl, eval_lshr, eval_ashr, eval_neg,
         signed_cmp, unsigned_cmp, eval_extract, eval_concat, eval_zext, eval_sext.
  all: try replace (64 <? width) with false by lia.
  all: try replace (width <=? 64) with true by lia.
  all: rewrite ?scalar64_u128 by done.
  all: repeat match goal with
       | H : scalar64 ?r |- _ =>
           lazymatch goal with
           | _ : uword 64 (as_u64 r) |- _ => fail
           | _ => pose proof (scalar64_u64 r H)
           end
       end.
  all: try (rewrite (wrap_small 64 (as_u64 _)) by done).
  all: lazymatch goal with
       | E : position _ _ = Some _ |- _ =>
           destruct (position_get inputs env _ _ Henv E) as (v & -> & -> & ?);
           exists (Bv (mask v width)); split_and!; [done|done|]; cbn; auto with u64
       | _ => repeat case_match; eexists; (split; [reflexivity|]); (split; [reflexivity|]);
              cbn [scalar64]; auto with u64
       end.
Qed.

End Tree.

(** ** Array entries *)

Lemma entries_get_insert l k v k' :
  entries_get (entries_insert l k v) k' = if k =? k' then Some v else entries_get l k'.
Proof.
  unfold entries_get. induction l as [|[k1 v1] l IH]; cbn [entries_insert find fst].
  { by destruct (k =? k'). }
  destruct (Z.ltb_spec k k1); [|destruct (Z.eqb_spec k k1) as [->|Hne]]; cbn [find fst].
  - by destruct (k =? k').
  - by destruct (k1 =? k').
  - destruct (Z.eqb_spec k1 k') as [->|]; [|done]. by destruct (Z.eqb_spec k k').
Qed.

(** Expressions whose value is a [Bv] by their shape, and arrays of such. *)
Fixpoint bv64 (e : SmtExpr) : bool :=
  match e with
  | Var _ _ | BvURem _ _ _ | Extract _ _ _ _ | MemLoad _ _ _ _ => true
  | BvConst _ w | BvAdd _ _ w | BvSub _ _ w | BvMul _ _ w | BvSDiv _ _ w | BvUDiv _ _ w
  | BvAnd _ _ w | BvOr _ _ w | BvXor _ _ w | BvShl _ _ w | BvLshr _ _ w | BvAshr _ _ w
  | BvNeg _ w | Concat _ _ w | ZeroExtend _ _ w | SignExtend _ _ w => w <=? 64
  | Ite _ t e => bv64 t && bv64 e
  | Select a _ => bv64_array a
  | _ => false
  end
with bv64_array (e : SmtExpr) : bool :=
  match e with
  | ConstArray _ v => bv64 v
  | Store a _ v => bv64_array a && bv64 v
  | Ite _ t e => bv64_array t && bv64_array e
  | _ => false
  end.

(** Every index of a select or store is a [bv64] expression. *)
Fixpoint indices_ok (e : SmtExpr) : bool :=
  match e with
  | Var _ _ | BvConst _ _ | BoolConst _ | Opaque _ _ => true
  | BvAdd l r _ | BvSub l r _ | BvMul l r _ | BvSDiv l r _ | BvUDiv l r _ | BvURem l r _
  | TrapIfZero l r _ | Eq l r | BvSlt l r _ | BvSge l r _ | BvUge l r _ | And l r | Or l r
  | BvSgt l r _ | BvSle l r _ | BvUlt l r _ | BvUgt l r _ | BvUle l r _ | BvAnd l r _
  | BvOr l r _ | BvXor l r _ | BvShl l r _ | BvLshr l r _ | BvAshr l r _ | Concat l r _ =>
      indices_ok l && indices_ok r
  | BvNeg o _ | Not o | Extract _ _ o _ | ZeroExtend o _ _ | SignExtend o _ _ | MemLoad o _ _ _
  | ConstArray _ o => indices_ok o
  | Select a i => bv64 i && indices_ok a && indices_ok i
  | Store a i v => bv64 i && indices_ok a && indices_ok i && indices_ok v
  | Ite a b c | ForAll _ _ a b c | Exists_ _ _ a b c =>
      indices_ok a && indices_ok b && indices_ok c
  end.

Definition is_bv (r : EvalResult) : Prop := match r with Bv _ => True | _ => False end.

(** Arrays whose entries and default are all [Bv]. *)
Definition is_bv_array (r : EvalResult) : Prop :=
  match r with
  | Array entries d => is_bv d /\ forall k v, entries_get entries k = Some v -> is_bv v
  | _ => False
  end.

Lemma sres_bind {A B} (m : SRes A) (k : A -> SRes B) b :
  (m ≫= k) = SOk b -> exists a, m = SOk a /\ k a = SOk b.
Proof. destruct m as [a| |]; cbn; [eauto|done|done]. Qed.

Ltac inv_eval :=
  repeat match goal with
  | H : (_ ≫= _) = SOk _ |- _ =>
      let a := fresh "a" in let E := fresh "E" in apply sres_bind in H as (a & E & H)
  | H : mret _ = SOk _ |- _ => injection H as <-
  | H : SErr _ = SOk _ |- _ => discriminate H
  | H : _ && _ = true |- _ => apply andb_true_iff in H as [? ?]
  end.

Section Shape.
Context (opaque_eval : Z -> EvalEnv -> SRes EvalResult) (env : EvalEnv).

Lemma bv64_eval e :
  (forall r, bv64 e = true -> try_eval opaque_eval e env = SOk r -> is_bv r) /\
  (forall r, bv64_array e = true -> try_eval opaque_eval e env = SOk r -> is_bv_array r).
Proof.
  induction e; (split; [intros r H E|intros r H E]);
    cbn [bv64 bv64_array try_eval] in *; try discriminate H; inv_eval.
  all: unfold eval_add, eval_sub, eval_mul, eval_sdiv, eval_udiv, eval_urem, eval_bitwise, eval_shl,
    eval_lshr, eval_ashr, eval_neg, eval_concat, eval_zext, eval_sext; cbn [eval_extract eval_mem_load].
  all: try replace (64 <? width) with false by lia.
  all: try replace (width <=? 64) with true by lia.
  all: try (repeat case_match; inv_eval; exact I).
  - case_match; [apply IHe2|apply IHe3]; done.
  - case_match; [apply IHe2|apply IHe3]; done.
  - pose proof (proj2 IHe1 a H E0) as Ha. destruct a as [| | | |entries d|]; try done.
    injection E as <-. destruct Ha as [Hd Hent].
    destruct (entries_get entries (as_u64 a0)) eqn:Eg; [by apply (Hent (as_u64 a0))|done].
  - pose proof (proj2 IHe1 a H E0) as Ha. destruct a as [| | | |entries d|]; try done.
    injection E as <-. destruct Ha as [Hd Hent]. split; [done|]. intros k v.
    rewrite entries_get_insert. destruct (_ =? k); [|apply Hent].
    intros [= <-]. by apply (proj1 IHe3).
  - split; [by apply (proj1 IHe)|]. done.
Qed.

End Shape.

(** ** Running the tape *)

#[local] Existing Instances Flat.C_bind Flat.C_ret Flat.SVal_eq_dec.

Section Tape.
Context (env : EvalEnv).

Lemma run_app sc l1 l2 :
  Flat.run env sc (l1 ++ l2) = (sc' ← Flat.run env sc l1; Flat.run env sc' l2).
Proof.
  revert sc. induction l1 as [|op l1 IH]; intros sc; [done|]. cbn.
  destruct (Flat.step env sc op); cbn; auto.
Qed.

(** A node's value does not depend on what follows its operands. *)
Lemma step_mono sc sc' op v :
  Flat.step env sc op = Some v -> sc `prefix_of` sc' -> Flat.step env sc' op = Some v.
Proof.
  intros H Hp.
  assert (Hl : forall i x, sc !! i = Some x -> sc' !! i = Some x)
    by (intros i x Hi; by eapply prefix_lookup_Some).
  destruct op; cbn [Flat.step] in H |- *;
    repeat match type of H with
    | None = Some _ => discriminate H
    | context [sc !! ?i] =>
        let x := fresh "x" in let E := fresh "E" in
        destruct (sc !! i) as [x|] eqn:E; [rewrite (Hl i x E); clear E|clear E];
        cbn [fmap option_fmap option_map mbind option_bind] in H |- *
    | (if ?b then _ else _) = Some _ => destruct b
    end; exact H.
Qed.

(** Each slot holds the value of its node on the slots before it. *)
Lemma run_slots sc l sc' :
  Flat.run env sc l = Some sc' ->
  sc `prefix_of` sc' /\ length sc' = (length sc + length l)%nat /\
  forall i op, l !! i = Some op ->
    exists v, sc' !! (length sc + i)%nat = Some v /\ Flat.step env sc' op = Some v.
Proof.
  revert sc. induction l as [|op l IH]; intros sc; cbn [Flat.run].
  { intros [= <-]. split_and!; [done|cbn; lia|done]. }
  destruct (Flat.step env sc op) as [v|] eqn:Es; [|done]. cbn. intros Hrun.
  destruct (IH _ Hrun) as (Hp & Hlen & Hs). rewrite length_app in *. cbn in *.
  assert (Hp0 : sc `prefix_of` sc') by (etransitivity; [|exact Hp]; by eexists).
  split_and!; [done|lia|]. intros [|i] op' Hi.
  - injection Hi as <-. exists v. split; [|by eapply step_mono].
    eapply prefix_lookup_Some; [|exact Hp]. rewrite Nat.add_0_r. by apply list_lookup_middle.
  - destruct (Hs i op' Hi) as (v' & Hv & Hst). exists v'. split; [|done].
    rewrite <- Hv. f_equal. lia.
Qed.

(** A tape in sync with its hash-cons table, and the values it computes. *)
Definition in_sync (t : Flat.Tape) (sc : list Flat.SVal) : Prop :=
  Flat.run env [] (Flat.tops t) = Some sc /\
  forall op i, (op, i) ∈ Flat.dedup t -> Flat.tops t !! i = Some op.

Lemma emit_op_sync op t i t' sc v :
  Flat.emit_op op t = CSome (i, t') -> in_sync t sc -> Flat.step env sc op = Some v ->
  exists sc', in_sync t' sc' /\ sc `prefix_of` sc' /\ sc' !! i = Some v.
Proof.
  unfold Flat.emit_op, Flat.push. intros [= E] [Hrun Hd] Hst.
  destruct (Flat.dedup_get t op) as [j|] eqn:Eg.
  - injection E as <- <-. exists sc. split_and!; [done|done|].
    unfold Flat.dedup_get in Eg. destruct (find _ _) as [[op' j']|] eqn:Ef; [|done].
    injection Eg as <-. apply find_some in Ef as [Hin Heq]. cbn [fst] in Heq.
    apply bool_decide_eq_true in Heq as ->. apply list_elem_of_In, Hd in Hin.
    destruct (run_slots _ _ _ Hrun) as (_ & _ & Hs). destruct (Hs _ _ Hin) as (v' & Hv' & Hst').
    cbn in Hv'. congruence.
  - injection E as <- <-. exists (sc ++ [v]). destruct (run_slots _ _ _ Hrun) as (_ & Hlen & _).
    cbn in Hlen. split_and!.
    + split.
      * cbn [Flat.tops]. rewrite run_app, Hrun. cbn. by rewrite Hst.
      * cbn [Flat.dedup Flat.tops]. intros op' j [[= -> ->]|Hin]%elem_of_cons.
        -- by apply list_lookup_middle.
        -- apply Hd in Hin. by apply lookup_app_l_Some.
    + by eexists.
    + rewrite <- Hlen. by apply list_lookup_middle.
Qed.

(** [gives sc m P]: run from a tape whose slots extend [sc], an accepted compilation
    [m] returns a slot whose value satisfies [P]. *)
Definition gives (sc0 : list Flat.SVal) (m : Flat.C nat) (P : Flat.SVal -> Prop) : Prop :=
  forall t sc i t', m t = CSome (i, t') -> in_sync t sc -> sc0 `prefix_of` sc ->
  exists sc' v, in_sync t' sc' /\ sc `prefix_of` sc' /\ sc' !! i = Some v /\ P v.

Lemma gives_emit sc0 op v (P : Flat.SVal -> Prop) :
  Flat.step env sc0 op = Some v -> P v -> gives sc0 (Flat.emit_op op) P.
Proof.
  intros Hst HP t sc i t' E Hs Hp. apply (step_mono _ sc) in Hst; [|done].
  destruct (emit_op_sync _ _ _ _ _ _ E Hs Hst) as (sc' & ? & ? & ?). by exists sc', v.
Qed.

Lemma gives_bind sc0 m (k : nat -> Flat.C nat) P Q :
  gives sc0 m P ->
  (forall sc1 i v, sc0 `prefix_of` sc1 -> sc1 !! i = Some v -> P v -> gives sc1 (k i) Q) ->
  gives sc0 (m ≫= k) Q.
Proof.
  intros Hm Hk t sc i t' E Hs Hp. unfold mbind, Flat.C_bind in E.
  destruct (m t) as [[j t1]| |] eqn:Em; try discriminate E.
  destruct (Hm _ _ _ _ Em Hs Hp) as (sc1 & v & Hs1 & Hp1 & Hv & HP).
  destruct (Hk sc1 j v (transitivity Hp Hp1) Hv HP t1 sc1 i t' E Hs1 (reflexivity _))
    as (sc2 & v2 & ? & Hp2 & ? & ?).
  exists sc2, v2. split_and!; try done. by transitivity sc1.
Qed.

Lemma gives_lift {A} sc0 (r : Comp A) (k : A -> Flat.C nat) Q :
  (forall a, r = CSome a -> gives sc0 (k a) Q) -> gives sc0 (Flat.liftC r ≫= k) Q.
Proof.
  intros Hk t sc i t' E. unfold Flat.liftC in E.
  destruct r as [a| |]; try discriminate E. by apply (Hk a eq_refl t sc i t').
Qed.

Lemma gives_narrow sc0 e (k : unit -> Flat.C nat) Q :
  gives sc0 (k tt) Q -> gives sc0 (Flat.narrow_index e ≫= k) Q.
Proof.
  intros Hk t sc i t' E. unfold Flat.narrow_index, Flat.liftC in E.
  destruct (from_width (bv_width e)) as [w| |]; try discriminate E.
  change (((if 64 <? w then Flat.decline else mret tt) ≫= k) t = CSome (i, t')) in E.
  destruct (64 <? w); [discriminate E|]. by apply (Hk t sc i t').
Qed.

Lemma gives_weaken sc0 sc1 m (P : Flat.SVal -> Prop) :
  sc0 `prefix_of` sc1 -> gives sc0 m P -> gives sc1 m P.
Proof. intros Hp Hm t sc i t' E Hs Hp1. apply (Hm t sc i t' E Hs). by transitivity sc1. Qed.

Lemma gives_bin2 sc0 f m1 m2 P1 P2 Q :
  gives sc0 m1 P1 -> gives sc0 m2 P2 ->
  (forall sc i j x y, sc !! i = Some x -> sc !! j = Some y -> P1 x -> P2 y ->
     exists v, Flat.step env sc (f i j) = Some v /\ Q v) ->
  gives sc0 (Flat.bin2 f m1 m2) Q.
Proof.
  intros H1 H2 Hf. eapply gives_bind; [exact H1|]. intros sc1 i x Hp1 Hx HP1.
  eapply gives_bind; [by eapply gives_weaken|]. intros sc2 j y Hp2 Hy HP2.
  destruct (Hf sc2 i j x y) as (v & Hv & HQ); try done; [by eapply prefix_lookup_Some|].
  by eapply gives_emit.
Qed.

Lemma gives_un sc0 (f : nat -> Flat.FlatOp) m P Q :
  gives sc0 m P ->
  (forall sc i x, sc !! i = Some x -> P x -> exists v, Flat.step env sc (f i) = Some v /\ Q v) ->
  gives sc0 (x ← m; Flat.emit_op (f x)) Q.
Proof.
  intros Hm Hf. eapply gives_bind; [exact Hm|]. intros sc1 i x _ Hx HP.
  destruct (Hf sc1 i x Hx HP) as (v & Hv & HQ). by eapply gives_emit.
Qed.

Lemma gives_ite sc0 m1 m2 m3 (P1 P2 P3 Q : Flat.SVal -> Prop) :
  gives sc0 m1 P1 -> gives sc0 m2 P2 -> gives sc0 m3 P3 ->
  (forall c x y, P1 c -> P2 x -> P3 y -> Q (if Flat.as_bool c then x else y)) ->
  gives sc0 (c ← m1; x ← m2; y ← m3; Flat.emit_op (Flat.Ite c x y)) Q.
Proof.
  intros H1 H2 H3 HQ.
  eapply gives_bind; [exact H1|]. intros sc1 i c Hp1 Hc Pc.
  eapply gives_bind; [by eapply gives_weaken|]. intros sc2 j x Hp2 Hx Px.
  eapply gives_bind; [eapply gives_weaken; [|exact H3]; by transitivity sc1|].
  intros sc3 k y Hp3 Hy Py. eapply gives_emit; [|by apply HQ].
  cbn [Flat.step]. rewrite (prefix_lookup_Some _ _ _ _ Hx Hp3), Hy.
  rewrite (prefix_lookup_Some _ _ _ _ Hc (transitivity Hp2 Hp3)). cbn [mbind option_bind].
  by destruct (Flat.as_bool c).
Qed.

(** A select at slot [i] of a store: compare the indices, then choose. *)
Lemma gives_pick sc0 i j b a va vj (P Q : Flat.SVal -> Prop) m :
  sc0 !! j = Some vj -> sc0 !! a = Some va -> sc0 !! i = Some b -> gives sc0 m P ->
  (forall y, P y -> Q (if bool_decide (b = vj) then va else y)) ->
  gives sc0 (y ← m; c ← Flat.emit_op (Flat.Eq i j); Flat.emit_op (Flat.Ite c a y)) Q.
Proof.
  intros Hj Ha Hi Hm HQ. eapply gives_bind; [exact Hm|]. intros sc1 y vy Hp1 Hy Py.
  eapply (gives_bind _ _ _ (fun v => v = Flat.Bool (bool_decide (b = vj)))).
  { eapply gives_emit; [|reflexivity]. cbn [Flat.step].
    by rewrite (prefix_lookup_Some _ _ _ _ Hi Hp1), (prefix_lookup_Some _ _ _ _ Hj Hp1). }
  intros sc2 c vc Hp2 Hc ->. eapply gives_emit; [|by apply HQ]. cbn [Flat.step].
  rewrite Hc, (prefix_lookup_Some _ _ _ _ Hy Hp2).
  rewrite (prefix_lookup_Some _ _ _ _ Ha (transitivity Hp1 Hp2)). cbn [mbind option_bind Flat.as_bool].
  by destruct (bool_decide (b = vj)).
Qed.

Lemma gives_decline sc0 P : gives sc0 Flat.decline P.
Proof. intros t sc i t' E. discriminate E. Qed.

End Tape.

(** ** Slot values as interpreter results *)

Lemma as_u64_to_eval x : as_u64 (Flat.to_eval x) = Flat.as_u64 x.
Proof. by destruct x. Qed.

Lemma as_u128_to_eval x : as_u128 (Flat.to_eval x) = Flat.as_u128 x.
Proof. by destruct x. Qed.

Lemma as_bool_to_eval x : as_bool (Flat.to_eval x) = Flat.as_bool x.
Proof. by destruct x. Qed.

Lemma result_eqb_to_eval x y :
  result_eqb (Flat.to_eval x) (Flat.to_eval y) = bool_decide (x = y).
Proof.
  destruct x as [a|a|a|], y as [b|b|b|]; cbn [Flat.to_eval result_eqb]; symmetry;
    try (by apply bool_decide_eq_false_2); try (by apply bool_decide_eq_true_2).
  - destruct (Z.eqb_spec a b) as [->|]; [by apply bool_decide_eq_true_2|].
    apply bool_decide_eq_false_2. congruence.
  - destruct (Z.eqb_spec a b) as [->|]; [by apply bool_decide_eq_true_2|].
    apply bool_decide_eq_false_2. congruence.
  - destruct (eqb_spec a b) as [->|]; [by apply bool_decide_eq_true_2|].
    apply bool_decide_eq_false_2. congruence.
Qed.

Create Rewrite HintDb to_eval.
#[export] Hint Rewrite as_u64_to_eval as_u128_to_eval as_bool_to_eval result_eqb_to_eval : to_eval.

(** ** Compilation to the tape *)

Section FlatSound.
Context (opaque_eval : Z -> EvalEnv -> SRes EvalResult) (inputs : Inputs) (env : EvalEnv).
Context (Henv : env_matches inputs env).

Abbreviation ev e := (try_eval opaque_eval e env).
Abbreviation denotes e := (fun v => ev e = SOk (Flat.to_eval v)).

(** What the code of a read of [array] at slot value [k] computes. *)
Definition reads (array : SmtExpr) (k : Z) (v : Flat.SVal) : Prop :=
  exists entries d, ev array = SOk (Array entries d) /\
    default d (entries_get entries k) = Flat.to_eval v.

(** Evaluate the emitted node on the slots of its operands. *)
Ltac eval_node :=
  cbn [Flat.step try_eval];
  repeat match goal with
  | H : _ !! ?i = Some _ |- context [_ !! ?i] => rewrite H
  | H : try_eval opaque_eval ?e env = _ |- context [try_eval opaque_eval ?e env] => rewrite H
  end;
  unfold mret, SRes_ret, mbind, SRes_bind, option_bind, fmap, option_fmap, option_map;
  unfold eval_add, eval_sub, eval_mul, eval_sdiv, eval_udiv, eval_urem, eval_bitwise, eval_shl,
    eval_lshr, eval_ashr, eval_neg, signed_cmp, unsigned_cmp, eval_extract, eval_concat,
    eval_zext, eval_sext, eval_mem_load;
  autorewrite with to_eval.

Ltac solve_node :=
  intros; eval_node; repeat case_match; eexists; (split; [reflexivity|]); reflexivity.

Lemma go_sound e :
  (indices_ok e = true -> forall sc, gives env sc (Flat.go inputs e) (denotes e)) /\
  (indices_ok e = true -> forall sc j k, sc !! j = Some (Flat.Bv k) ->
     gives env sc (Flat.go_select inputs e j) (reads e k)).
Proof.
  induction e; (split; [intros Hi sc|intros Hi sc j k Hj]);
    cbn [Flat.go Flat.go_select indices_ok] in *; try apply gives_decline;
    repeat match goal with
    | H : _ && _ = true |- _ => apply andb_true_iff in H as [? ?]
    | IH : (indices_ok _ = true -> _) /\ (_ -> _) |- _ =>
        let I1 := fresh "IHv" in let I2 := fresh "IHa" in
        destruct IH as [I1 I2]; specialize (I1 ltac:(assumption)); specialize (I2 ltac:(assumption))
    end.
  all: try (eapply gives_bin2; [by eauto|by eauto|cbn beta; solve_node]).
  all: try (eapply gives_un; [by eauto|cbn beta; solve_node]).
  - apply gives_lift. intros slot [v (Hv & Hg & _)]%slot_of_some%(position_get _ _ _ _ Henv).
    eapply gives_emit; eval_node; [by rewrite Hv|by rewrite Hg].
  - case_match; (eapply gives_emit; [reflexivity|]); cbn [try_eval]; by case_match.
  - by eapply gives_emit.
  - case_match; [apply gives_decline|].
    eapply gives_bin2; [by eauto|by eauto|cbn beta; solve_node].
  - eapply gives_bin2; [by eauto|by eauto|cbn beta]. intros. eval_node.
    destruct (bool_decide_reflect (x = Flat.Poison)) as [->|Hx]; cbn [orb].
    { eexists. done. }
    destruct (Flat.as_u128 x =? 0) eqn:Ex; eexists; (split; [reflexivity|]); by destruct x.
  - eapply gives_ite; [by eauto|by eauto|by eauto|]. cbn beta. intros c x y Hc Hx Hy. eval_node.
    by destruct (Flat.as_bool c).
  - eapply gives_ite; [by eauto|by eauto|by eauto|]. cbn beta. intros c x y Hc Hx Hy.
    unfold reads. eval_node. by destruct (Flat.as_bool c).
  - apply gives_lift. intros lo_width Hw%from_width_some.
    eapply (gives_bin2 _ _ (fun h l => Flat.Concat h l lo_width width)); [by eauto|by eauto|].
    cbn beta. intros. eval_node. rewrite Hw. eval_node. case_match; eexists; done.
  - apply gives_narrow. eapply gives_bind; [by eauto|]. cbn beta. intros sc1 i v Hp Hv Ev.
    assert (is_bv (Flat.to_eval v)) as Hb by (by eapply (proj1 (bv64_eval opaque_eval env e2))).
    destruct v as [k| | |]; try done. intros t sc2 j t' E Hs Hp2.
    destruct (IHa0 sc1 i k Hv t sc2 j t' E Hs Hp2) as (sc3 & v & ? & ? & ? & en & d & Ha & Hd).
    exists sc3, v. split_and!; [done..|]. eval_node. cbn [Flat.as_u64]. by rewrite Hd.
  - apply gives_narrow. eapply gives_bind; [by eauto|]. cbn beta. intros sc1 i vi Hp1 Hi Ei.
    eapply gives_bind; [by eauto|]. cbn beta. intros sc2 a va Hp2 Ha Ea.
    assert (is_bv (Flat.to_eval vi)) as Hb by (by eapply (proj1 (bv64_eval opaque_eval env e2))).
    destruct vi as [ki| | |]; try done.
    assert (sc2 !! j = Some (Flat.Bv k)) as Hj2
      by (eapply prefix_lookup_Some; [exact Hj|by transitivity sc1]).
    eapply gives_pick; [exact Hj2|exact Ha|by eapply prefix_lookup_Some|by eauto|].
    intros y (en & d & Hen & Hd). unfold reads. eval_node. cbn [Flat.as_u64].
    do 2 eexists. split; [reflexivity|]. rewrite entries_get_insert.
    destruct (Z.eqb_spec ki k) as [->|]; [by rewrite bool_decide_eq_true_2|].
    rewrite bool_decide_eq_false_2 by congruence. done.
  - intros t sc1 i t' E Hs Hp. destruct (IHv sc t sc1 i t' E Hs Hp) as (sc2 & v & ? & ? & ? & Ev).
    exists sc2, v. split_and!; [done..|]. unfold reads. eval_node. by do 2 eexists.
Qed.

End FlatSound.

(** ** The equivalences *)

(** C30: whenever [CExpr::compile] accepts an expression, evaluation of the compiled
    tree returns on every environment that binds the inputs in order, and returns
    exactly what the interpreter [SmtExpr::try_eval] returns. *)
Theorem cexpr_equiv opaque_eval inputs env e c :
  CExpr.compile e inputs = CSome c -> u64_consts e = true -> env_matches inputs env ->
  exists r, CExpr.eval c env = Some r /\ try_eval opaque_eval e env = SOk r.
Proof.
  intros Hc Hu Henv. destruct (cexpr_sound opaque_eval inputs env Henv e c Hc Hu) as (r & ? & ? & _).
  by exists r.
Qed.

Definition demo_inputs : Inputs := [("a", 64); ("b", 64)]%string.
Definition demo_env : EvalEnv :=
  env_insert (env_insert (mkEnv []) "a" (2 ^ 64 - 3)) "b" 2.
Definition demo_expr : SmtExpr :=
  Ite (BvSlt (Var "a" 64) (Var "b" 64) 64) (BvAdd (Var "a" 64) (Var "b" 64) 64)
      (BvShl (Var "a" 64) (BvConst 5 64) 64).

Lemma demo_matches : env_matches demo_inputs demo_env.
Proof. split; [done|]. repeat constructor; cbn; lia. Qed.

Lemma cexpr_equiv_witness :
  exists c r, CExpr.compile demo_expr demo_inputs = CSome c /\
    CExpr.eval c demo_env = Some r /\ r = Bv (2 ^ 64 - 1).
Proof.
  eexists. edestruct (cexpr_equiv (fun _ _ => SErr EvalError) demo_inputs demo_env demo_expr)
    as (r & Hr & Hi); [reflexivity|reflexivity|exact demo_matches|].
  exists r. split; [reflexivity|]. split; [exact Hr|]. vm_compute in Hi. by injection Hi as <-.
Defined.

(** C12: whenever [FlatProg::compile] accepts an expression whose array indices are
    bitvectors by shape, the tape runs without an out-of-range slot on every
    environment that binds the inputs in order, and its root value is exactly the
    result of [SmtExpr::try_eval]: hash-consing, unconditional evaluation of both
    branches and the rewriting of array reads into comparisons preserve the value.
    With an index that may be poison the two differ ([poison_index_differs]). *)
Theorem flatprog_equiv opaque_eval inputs env e p :
  Flat.compile inputs e = CSome p -> indices_ok e = true -> env_matches inputs env ->
  exists r, Flat.eval p env = Some r /\ try_eval opaque_eval e env = SOk r.
Proof.
  unfold Flat.compile, Flat.eval. intros Hc Hi Henv.
  apply comp_bind in Hc as ([i t] & Hg & Hp). injection Hp as <-.
  destruct (go_sound opaque_eval inputs env Henv e) as [Hs _].
  destruct (Hs Hi [] _ [] _ _ Hg) as (sc & v & [Hrun _] & _ & Hv & He);
    [split; [done|by intros op j []%not_elem_of_nil]|done|].
  exists (Flat.to_eval v). split; [|done]. cbn [Flat.ops Flat.root]. rewrite Hrun. cbn. by rewrite Hv.
Qed.

(** A read through a conditional store, sharing the index computation. *)
Definition demo_array : SmtExpr :=
  let i := BvAnd (Var "a" 64) (BvConst 7 64) 64 in
  Select (Store (ConstArray (BitVec 64) (BvConst 0 8)) i (BvConst 42 8)) i.

Lemma flatprog_equiv_witness :
  exists p r, Flat.compile demo_inputs demo_array = CSome p /\ length (Flat.ops p) = 7%nat /\
    Flat.eval p demo_env = Some r /\ r = Bv 42.
Proof.
  eexists. edestruct (flatprog_equiv (fun _ _ => SErr EvalError) demo_inputs demo_env demo_array)
    as (r & Hr & Hi); [vm_compute; reflexivity|reflexivity|exact demo_matches|].
  exists r. split; [vm_compute; reflexivity|]. split; [reflexivity|].
  split; [exact Hr|]. vm_compute in Hi. by injection Hi as <-.
Defined.

(** With a trapped (poison) index the two disagree: the interpreter stores under
    [u64::MAX], the tape compares slot values. *)
Definition poison_index : SmtExpr :=
  Select (Store (ConstArray (BitVec 64) (BvConst 0 8))
            (TrapIfZero (BvConst 0 64) (BvConst 1 64) 64) (BvConst 42 8))
    (BvConst (2 ^ 64 - 1) 64).

Example poison_index_differs :
  try_eval (fun _ _ => SErr EvalError) poison_index demo_env = SOk (Bv 42) /\
  (p ← (match Flat.compile demo_inputs poison_index with CSome p => Some p | _ => None end);
   Flat.eval p demo_env) = Some (Bv 0).
Proof. split; vm_compute; reflexivity. Qed.
