(* ===== verification/SmtSem.v ===== *)
(** * What the interpreter computes

    The interpreter of [crates/trust-cg-verify/src/smt.rs] against the SMT-LIB
    meaning of the bitvector operations, and the sort discipline under which it
    never errs.  The reference semantics is over mathematical integers; the
    widths above 64 at which the interpreter departs from it are exhibited. *)

From S2P Require Import Prelude Smt SmtEquiv.
Local Open Scope Z_scope.

(** ** Masks and sign extensions as residues *)

Lemma mask_wrap x w : 0 <= w -> uword 64 x -> mask x w = wrap w x.
Proof.
  intros Hw Hx. unfold mask. destruct (Z.leb_spec 64 w).
  - symmetry. apply wrap_small. pose proof (pow2_le 64 w ltac:(lia)). unfold uword in *. lia.
  - by apply land_pow2_mask.
Qed.

Lemma mask128_wrap x w : 0 <= w -> uword 128 x -> mask128 x w = wrap w x.
Proof.
  intros Hw Hx. unfold mask128. destruct (Z.leb_spec 128 w).
  - symmetry. apply wrap_small. pose proof (pow2_le 128 w ltac:(lia)). unfold uword in *. lia.
  - by apply land_pow2_mask.
Qed.

(** The low [w] bits, placed at the top of a [W]-bit word and shifted back down. *)
Lemma shift_pair_swrap W w x :
  1 <= w <= W -> Z.shiftr (swrap W (Z.shiftl x (W - w))) (W - w) = swrap w x.
Proof.
  intros Hw. rewrite Z.shiftl_mul_pow2, Z.shiftr_div_pow2 by lia.
  pose proof (pow2_pos (W - w) ltac:(lia)) as Hp. unfold swrap.
  replace (2 ^ (W - 1)) with (2 ^ (w - 1) * 2 ^ (W - w)) by (rewrite <- pow2_split by lia; f_equal; lia).
  replace (2 ^ W) with (2 ^ w * 2 ^ (W - w)) by (rewrite <- pow2_split by lia; f_equal; lia).
  rewrite <- Z.mul_add_distr_r, Z.mul_mod_distr_r by (pose proof (pow2_pos w ltac:(lia)); lia).
  rewrite <- Z.mul_sub_distr_r. apply Z.div_mul. lia.
Qed.

Lemma sign_extend_swrap x w : 1 <= w <= 64 -> sign_extend x w = swrap w x.
Proof.
  intros Hw. unfold sign_extend. replace (w =? 0) with false by lia.
  destruct (Z.leb_spec 64 w); [by replace w with 64 by lia|]. by apply shift_pair_swrap.
Qed.

Lemma sign_extend128_swrap x w : 1 <= w <= 128 -> sign_extend128 x w = swrap w x.
Proof.
  intros Hw. unfold sign_extend128. replace (w =? 0) with false by lia.
  destruct (Z.leb_spec 128 w); [by replace w with 128 by lia|]. by apply shift_pair_swrap.
Qed.

(** ** Sorts *)

#[export] Instance SmtSort_eq_dec : EqDecision SmtSort.
Proof. solve_decision. Defined.

(** Widths the interpreter carries exactly: 128 bits for arithmetic, 64 bits for
    variables, comparisons, remainders, extracts and loads. *)
Definition wide_ok (w : Z) : bool := (1 <=? w) && (w <=? 128).
Definition narrow_ok (w : Z) : bool := (1 <=? w) && (w <=? 64).

Definition is_bitvec (s : option SmtSort) : bool :=
  match s with Some (BitVec _) => true | _ => false end.

(** The sort of an expression that the interpreter carries: the two conditions
    [smt_sort] and [carried] below in one pass. *)
Fixpoint sort_of (e : SmtExpr) : option SmtSort :=
  let check (b : bool) (s : SmtSort) := if b then Some s else None in
  let has x s := bool_decide (sort_of x = Some s) in
  let bin l r w (b : bool) s := check (has l (BitVec w) && has r (BitVec w) && b) s in
  match e with
  | Var _ w => check (narrow_ok w) (BitVec w)
  | BvConst v w => check (wide_ok w && (0 <=? v) && (v <? 2 ^ Z.min w 64)) (BitVec w)
  | BoolConst _ => Some BoolSort
  | BvAdd l r w | BvSub l r w | BvMul l r w | BvSDiv l r w | BvUDiv l r w | BvAnd l r w
  | BvOr l r w | BvXor l r w | BvShl l r w | BvLshr l r w | BvAshr l r w =>
      bin l r w (wide_ok w) (BitVec w)
  | BvURem l r w => bin l r w (narrow_ok w) (BitVec w)
  | TrapIfZero g v w => check (is_bitvec (sort_of g) && has v (BitVec w)) (BitVec w)
  | BvNeg o w => check (has o (BitVec w) && wide_ok w) (BitVec w)
  | Eq l r =>
      match sort_of l with
      | Some (BitVec w) => check (has r (BitVec w)) BoolSort
      | Some BoolSort => check (has r BoolSort) BoolSort
      | _ => None
      end
  | Not o => check (has o BoolSort) BoolSort
  | BvSlt l r w | BvSge l r w | BvUge l r w | BvSgt l r w | BvSle l r w | BvUlt l r w
  | BvUgt l r w | BvUle l r w => bin l r w (narrow_ok w) BoolSort
  | And l r | Or l r => check (has l BoolSort && has r BoolSort) BoolSort
  | Ite c t el =>
      check (has c BoolSort && bool_decide (sort_of t = sort_of el)) BoolSort ≫= fun _ => sort_of t
  | Extract hi lo o w =>
      match sort_of o with
      | Some (BitVec ow) =>
          check ((0 <=? lo) && (hi =? lo + w - 1) && (hi <? ow) && narrow_ok w) (BitVec w)
      | _ => None
      end
  | Concat h l w =>
      match sort_of h, sort_of l, bv_width l with
      | Some (BitVec wh), Some (BitVec wl), SOk lo_width =>
          check ((w =? wh + wl) && (lo_width =? wl) && wide_ok w) (BitVec w)
      | _, _, _ => None
      end
  | ZeroExtend o extra w | SignExtend o extra w =>
      check (has o (BitVec (w - extra)) && (0 <=? extra) && wide_ok w) (BitVec w)
  | Select a i =>
      match sort_of a with
      | Some (ArraySort idx elem) => check (has i idx) elem
      | _ => None
      end
  | Store a i v =>
      match sort_of a with
      | Some (ArraySort idx elem) => check (has i idx && has v elem) (ArraySort idx elem)
      | _ => None
      end
  | ConstArray idx v => elem ← sort_of v; Some (ArraySort idx elem)
  | MemLoad a bits _ w =>
      check (is_bitvec (sort_of a) && narrow_ok bits && narrow_ok w) (BitVec w)
  | ForAll _ _ _ _ _ | Exists_ _ _ _ _ _ | Opaque _ _ => None
  end.

(** *** The sorts of SMT-LIB, and what the interpreter carries of them *)

(** The sort of an expression all of whose nodes agree with the sorts of their
    operands, at bitvectors of every positive width. *)
Fixpoint smt_sort (e : SmtExpr) : option SmtSort :=
  let check (b : bool) (s : SmtSort) := if b then Some s else None in
  let has x s := bool_decide (smt_sort x = Some s) in
  let bin l r w s := check (has l (BitVec w) && has r (BitVec w)) s in
  match e with
  | Var _ w => check (1 <=? w) (BitVec w)
  | BvConst v w => check ((1 <=? w) && (0 <=? v) && (v <? 2 ^ w)) (BitVec w)
  | BoolConst _ => Some BoolSort
  | BvAdd l r w | BvSub l r w | BvMul l r w | BvSDiv l r w | BvUDiv l r w | BvURem l r w | BvAnd l r w
  | BvOr l r w | BvXor l r w | BvShl l r w | BvLshr l r w | BvAshr l r w => bin l r w (BitVec w)
  | BvNeg o w => check (has o (BitVec w)) (BitVec w)
  | TrapIfZero g v w => check (is_bitvec (smt_sort g) && has v (BitVec w)) (BitVec w)
  | Eq l r => s ← smt_sort l; check (has r s) BoolSort
  | Not o => check (has o BoolSort) BoolSort
  | BvSlt l r w | BvSge l r w | BvUge l r w | BvSgt l r w | BvSle l r w | BvUlt l r w
  | BvUgt l r w | BvUle l r w => bin l r w BoolSort
  | And l r | Or l r => check (has l BoolSort && has r BoolSort) BoolSort
  | Ite c t el => s ← smt_sort t; check (has c BoolSort && has el s) s
  | Extract hi lo o w =>
      match smt_sort o with
      | Some (BitVec ow) => check ((0 <=? lo) && (lo <=? hi) && (hi <? ow) && (w =? hi - lo + 1)) (BitVec w)
      | _ => None
      end
  | Concat h l w =>
      match smt_sort h, smt_sort l with
      | Some (BitVec wh), Some (BitVec wl) => check (w =? wh + wl) (BitVec w)
      | _, _ => None
      end
  | ZeroExtend o extra w | SignExtend o extra w =>
      check (has o (BitVec (w - extra)) && (0 <=? extra)) (BitVec w)
  | Select a i =>
      match smt_sort a with Some (ArraySort idx elem) => check (has i idx) elem | _ => None end
  | Store a i v =>
      match smt_sort a with Some (ArraySort idx elem) => check (has i idx && has v elem) (ArraySort idx elem) | _ => None end
  | ConstArray idx v => elem ← smt_sort v; Some (ArraySort idx elem)
  | MemLoad a bits _ w => check (is_bitvec (smt_sort a) && (1 <=? bits) && (1 <=? w)) (BitVec w)
  | ForAll _ w lo hi body | Exists_ _ w lo hi body =>
      check ((1 <=? w) && has lo (BitVec w) && has hi (BitVec w) && has body BoolSort) BoolSort
  | Opaque _ s => Some s
  end.

(** The expressions that the interpreter carries exactly: variables, comparisons,
    unsigned remainders, extracts and loads up to 64 bits, other operations up to
    128 bits, constants of 64 bits, no equality of arrays, no quantifiers, and the
    low part of a concatenation with a width that [bv_width] finds. *)
Fixpoint carried (e : SmtExpr) : bool :=
  match e with
  | Var _ w => w <=? 64
  | BvConst v w => (w <=? 128) && (v <? 2 ^ 64)
  | BoolConst _ => true
  | BvAdd l r w | BvSub l r w | BvMul l r w | BvSDiv l r w | BvUDiv l r w | BvAnd l r w
  | BvOr l r w | BvXor l r w | BvShl l r w | BvLshr l r w | BvAshr l r w => carried l && carried r && (w <=? 128)
  | BvURem l r w | BvSlt l r w | BvSge l r w | BvUge l r w | BvSgt l r w | BvSle l r w | BvUlt l r w
  | BvUgt l r w | BvUle l r w => carried l && carried r && (w <=? 64)
  | BvNeg o w | ZeroExtend o _ w | SignExtend o _ w => carried o && (w <=? 128)
  | Extract _ _ o w => carried o && (w <=? 64)
  | MemLoad a bits _ w => carried a && (bits <=? 64) && (w <=? 64)
  | TrapIfZero l r _ | And l r | Or l r | Select l r => carried l && carried r
  | Eq l r =>
      carried l && carried r && match smt_sort l with Some (BitVec _) | Some BoolSort => true | _ => false end
  | Not o | ConstArray _ o => carried o
  | Ite a b c | Store a b c => carried a && carried b && carried c
  | Concat h l w =>
      carried h && carried l && (w <=? 128) &&
      match smt_sort l, bv_width l with Some (BitVec wl), SOk n => n =? wl | _, _ => false end
  | ForAll _ _ _ _ _ | Exists_ _ _ _ _ _ | Opaque _ _ => false
  end.

(** The values of a sort.  A trapped result is a bitvector. *)
Fixpoint has_sort (s : SmtSort) (r : EvalResult) : Prop :=
  match s, r with
  | BitVec w, Poison => True
  | BitVec w, Bv n => w <= 64 /\ uword w n
  | BitVec w, Bv128 n => 64 < w /\ uword w n
  | BoolSort, Bool _ => True
  | ArraySort _ elem, Array entries d =>
      has_sort elem d /\ forall k v, entries_get entries k = Some v -> has_sort elem v
  | _, _ => False
  end.

(** Bitvector sorts the interpreter carries. *)
Fixpoint sort_fits (s : SmtSort) : Prop :=
  match s with
  | BitVec w => 1 <= w <= 128
  | ArraySort _ elem => sort_fits elem
  | BoolSort => True
  | FloatingPoint _ _ => False
  end.

Lemma has_sort_fits s r :
  sort_fits s -> has_sort s r -> uword 64 (as_u64 r) /\ uword 128 (as_u128 r).
Proof.
  assert (H64 : forall w n, 1 <= w <= 64 -> uword w n -> uword 64 n)
    by (intros w n Hw Hn; pose proof (pow2_le w 64 ltac:(lia)); unfold uword in *; lia).
  assert (H128 : forall w n, 1 <= w <= 128 -> uword w n -> uword 128 n)
    by (intros w n Hw Hn; pose proof (pow2_le w 128 ltac:(lia)); unfold uword in *; lia).
  destruct s, r as [n|n|b| |en d|]; cbn [sort_fits has_sort as_u64 as_u128]; intros Hs Hr; try done;
    try (split; unfold uword; lia).
  - split; [apply (H64 w); [lia|tauto]|apply (H128 w); tauto].
  - split; [apply wrap_range; lia|apply (H128 w); tauto].
  - destruct b; split; unfold uword; cbn; lia.
Qed.

(** Take apart [sort_of e = Some s]. *)
Ltac inv_sort :=
  repeat match goal with
  | H : Some _ = Some _ |- _ => injection H as <-
  | H : None = Some _ |- _ => discriminate H
  | H : (if ?b then _ else _) = Some _ |- _ => destruct b eqn:?
  | H : (_ ≫= _) = Some _ |- _ => apply bind_Some in H as (? & ? & H)
  | H : match ?x with _ => _ end = Some _ |- _ => destruct x eqn:?
  | H : _ && _ = true |- _ => apply andb_true_iff in H as [? ?]
  | H : bool_decide _ = true |- _ => apply bool_decide_eq_true in H
  | H : wide_ok _ = true |- _ => unfold wide_ok in H
  | H : narrow_ok _ = true |- _ => unfold narrow_ok in H
  | H : is_bitvec ?s = true |- _ => destruct s as [[]|] eqn:?; try discriminate H; clear H
  end.

Lemma sort_of_fits e s : sort_of e = Some s -> sort_fits s.
Proof.
  revert s. induction e; cbn [sort_of]; intros s0 H; inv_sort; cbn [sort_fits]; auto; try lia.
  - exact (IHe2 _ H0).
  - exact (IHe1 _ eq_refl).
Qed.

(** [sort_of] accepts what both accept. *)
Lemma smt_sorted e s : smt_sort e = Some s -> carried e = true -> sort_of e = Some s.
Proof.
  revert s. induction e; cbn [smt_sort carried sort_of]; intros s0 H Hc; try discriminate Hc; inv_sort.
  all: repeat match goal with
    | IH : forall s, smt_sort ?e = Some s -> _, Hs : smt_sort ?e = Some _ |- _ => specialize (IH _ Hs ltac:(assumption))
    | IH : forall s, Some _ = Some s -> _ |- _ => specialize (IH _ eq_refl ltac:(assumption))
    end.
  all: repeat match goal with IH : sort_of ?e = Some _ |- _ => pose proof (sort_of_fits _ _ IH); rewrite ?IH; clear IH end.
  all: rewrite ?bool_decide_eq_true_2 by (reflexivity || congruence); cbn [sort_fits andb is_bitvec] in *; unfold wide_ok, narrow_ok.
  all: repeat match goal with |- context [if ?b then _ else _] => replace b with true by lia end; try reflexivity.
  - destruct (Z.min_spec width 64) as [[_ ->]|[_ ->]];
      match goal with |- context [if ?b then _ else _] => replace b with true by lia end; reflexivity.
  - match goal with Hs : smt_sort e1 = Some _, Hm : match smt_sort e1 with _ => _ end = true |- _ => rewrite Hs in Hm end.
    destruct x; try discriminate; by rewrite bool_decide_eq_true_2.
  - destruct (bv_width e2) as [n| |]; try discriminate.
    match goal with |- context [if ?b then _ else _] => replace b with true by lia end. reflexivity.
Qed.

Lemma sorted_smt e s : sort_of e = Some s -> smt_sort e = Some s /\ carried e = true.
Proof.
  revert s. induction e; cbn [smt_sort carried sort_of]; intros s0 H; inv_sort.
  all: repeat match goal with
    | IH : forall s, sort_of ?e = Some s -> _, Hs : sort_of ?e = Some _ |- _ => pose proof (sort_of_fits _ _ Hs); destruct (IH _ Hs); clear IH
    | IH : forall s, Some _ = Some s -> _ |- _ => destruct (IH _ eq_refl); clear IH
    end.
  all: repeat match goal with IH : smt_sort ?e = Some _ |- _ => rewrite ?IH; clear IH end.
  all: repeat match goal with IH : carried ?e = true |- _ => rewrite ?IH; clear IH end.
  all: rewrite ?bool_decide_eq_true_2 by (reflexivity || congruence); cbn [sort_fits andb is_bitvec mbind option_bind] in *.
  all: rewrite ?bool_decide_eq_true_2 by (reflexivity || congruence); cbn [andb].
  all: repeat match goal with |- context [if ?b then _ else _] => replace b with true by lia end; split; try reflexivity; try lia.
  - replace (value <? 2 ^ width) with true; [|destruct (Z.min_spec width 64) as [[_ E]|[? E]]; rewrite E in *; pose proof (pow2_le 64 width); lia].
    match goal with |- context [if ?b then _ else _] => replace b with true by lia end. reflexivity.
  - destruct (Z.min_spec width 64) as [[? E]|[_ E]]; rewrite E in *; pose proof (pow2_le width 64); lia.
  - rewrite bool_decide_eq_true_2; [done|]. apply IHe3. congruence.
  - apply (IHe3 s0). congruence.
Qed.

(** ** Every operation lands in its sort *)

Section OpSorts.
Context (a b : EvalResult) (w : Z).
Context (Ha : uword 64 (as_u64 a) /\ uword 128 (as_u128 a)).
Context (Hb : uword 64 (as_u64 b) /\ uword 128 (as_u128 b)).

Lemma bv_sort x : 1 <= w <= 64 -> uword 64 x -> has_sort (BitVec w) (Bv (mask x w)).
Proof. intros Hw Hx. split; [lia|]. rewrite mask_wrap by (done || lia). apply wrap_range. lia. Qed.

Lemma bv128_sort x : 64 < w -> uword 128 x -> has_sort (BitVec w) (Bv128 (mask128 x w)).
Proof. intros Hw Hx. split; [lia|]. rewrite mask128_wrap by (done || lia). apply wrap_range. lia. Qed.

Lemma bv_zero : 1 <= w <= 64 -> has_sort (BitVec w) (Bv 0).
Proof. intros Hw. pose proof (pow2_pos w ltac:(lia)). split; [lia|]. unfold uword. lia. Qed.

Lemma bv128_zero : 64 < w -> has_sort (BitVec w) (Bv128 0).
Proof. intros Hw. pose proof (pow2_pos w ltac:(lia)). split; [lia|]. unfold uword. lia. Qed.

Lemma div_range W x y : uword W x -> 0 <= y -> uword W (x / y).
Proof.
  unfold uword. intros Hx Hy. destruct (Z.eq_dec y 0) as [->|]; [rewrite Z.div_0_r; lia|].
  split; [apply Z.div_pos; lia|]. apply Z.div_lt_upper_bound; nia.
Qed.

Lemma mod_range W x y : uword W x -> 0 < y -> uword W (x mod y).
Proof.
  unfold uword. intros Hx Hy. pose proof (Z.mod_pos_bound x y Hy).
  pose proof (Z.mod_le x y ltac:(lia) Hy). lia.
Qed.

Ltac word :=
  match goal with
  | |- uword _ (wrap _ _) => apply wrap_range; lia
  | |- uword _ (Z.land _ _) => apply uword_land; [lia|tauto]
  | |- uword _ (Z.lor _ _) => apply uword_lor; [lia|tauto|tauto]
  | |- uword _ (Z.lxor _ _) => apply uword_lxor; [lia|tauto|tauto]
  | |- uword _ (shl128 _ _) => apply wrap_range; lia
  | |- uword _ (shr128 _ _) => apply uword_shr; [apply Z.mod_pos_bound; lia|tauto]
  | |- uword _ (Z.shiftr _ _) => apply uword_shr; [unfold uword in *; lia|tauto]
  | |- uword _ (_ / _) => apply div_range; [tauto|unfold uword in *; lia]
  | |- uword _ (_ mod _) => apply mod_range; [tauto|unfold uword in *; lia]
  | |- uword _ _ => first [tauto | unfold uword; lia]
  end.

Ltac op_sort :=
  intros; repeat case_match;
  first [ apply bv_sort; [lia|word] | apply bv128_sort; [lia|word]
        | apply bv_zero; lia | apply bv128_zero; lia ].

Lemma arith_sorts : 1 <= w <= 128 ->
  has_sort (BitVec w) (eval_add a b w) /\ has_sort (BitVec w) (eval_sub a b w) /\
  has_sort (BitVec w) (eval_mul a b w) /\ has_sort (BitVec w) (eval_neg a w).
Proof. unfold eval_add, eval_sub, eval_mul, eval_neg. intros; split_and!; op_sort. Qed.

Lemma bitwise_sorts : 1 <= w <= 128 ->
  has_sort (BitVec w) (eval_bitwise Z.land a b w) /\ has_sort (BitVec w) (eval_bitwise Z.lor a b w) /\
  has_sort (BitVec w) (eval_bitwise Z.lxor a b w).
Proof. unfold eval_bitwise. intros; split_and!; op_sort. Qed.

Lemma shift_sorts : 1 <= w <= 128 ->
  has_sort (BitVec w) (eval_shl a b w) /\ has_sort (BitVec w) (eval_lshr a b w) /\
  has_sort (BitVec w) (eval_ashr a b w).
Proof. unfold eval_shl, eval_lshr, eval_ashr. intros; split_and!; op_sort. Qed.

Lemma div_sorts : 1 <= w <= 128 ->
  has_sort (BitVec w) (eval_sdiv a b w) /\ has_sort (BitVec w) (eval_udiv a b w).
Proof.
  unfold eval_sdiv, eval_udiv. intros; split_and!; [op_sort|].
  destruct (Z.ltb_spec 64 w), (Z.eqb_spec (as_u128 b) 0), (Z.eqb_spec (as_u64 b) 0); op_sort.
Qed.

Lemma urem_sort : 1 <= w <= 64 -> has_sort (BitVec w) (eval_urem a b w).
Proof. unfold eval_urem. intros Hw. destruct (Z.eqb_spec (as_u64 b) 0); op_sort. Qed.

Lemma extract_sort lo : 1 <= w <= 64 -> has_sort (BitVec w) (eval_extract a lo w).
Proof.
  intros Hw. unfold eval_extract. split; [lia|]. rewrite mask128_wrap by (lia || (unfold uword; lia)).
  assert (H : uword w (Z.land (shr128 (as_u128 a) lo) (wrap w (2 ^ 128 - 1)))).
  { rewrite Z.land_comm. apply uword_land; [lia|]. apply wrap_range. lia. }
  rewrite wrap_small; [done|]. pose proof (pow2_le w 64 ltac:(lia)). unfold uword in *. lia.
Qed.

Lemma concat_sort lo_width : 1 <= w <= 128 -> has_sort (BitVec w) (eval_concat a b lo_width w).
Proof.
  intros Hw. unfold eval_concat.
  assert (H : uword 128 (Z.lor (shl128 (as_u128 a) lo_width) (as_u128 b)))
    by (apply uword_lor; [lia|word|tauto]).
  destruct (Z.leb_spec w 64); [|by apply bv128_sort].
  rewrite mask128_wrap by (done || lia). split; [lia|]. rewrite wrap_small; [apply wrap_range; lia|].
  pose proof (wrap_range w (Z.lor (shl128 (as_u128 a) lo_width) (as_u128 b)) ltac:(lia)).
  pose proof (pow2_le w 64 ltac:(lia)). unfold uword in *. lia.
Qed.

Lemma ext_sorts src_width : 1 <= w <= 128 ->
  has_sort (BitVec w) (eval_zext a w) /\ has_sort (BitVec w) (eval_sext a src_width w).
Proof. clear b Hb. unfold eval_zext, eval_sext. intros; split_and!; op_sort. Qed.

Lemma load_sort bits signed :
  1 <= w <= 64 -> has_sort (BitVec w) (eval_mem_load a bits signed w).
Proof.
  clear b Hb. intros Hw. unfold eval_mem_load.
  pose proof (mask_range _ bits (mem_load_mix_range (as_u64 a))). op_sort.
Qed.

End OpSorts.

(** ** Evaluation depends on the free variables only *)

Lemma env_get_insert env x v y :
  env_get (env_insert env x v) y = if String.eqb x y then Some v else env_get env y.
Proof.
  unfold env_get, env_insert. cbn [vars]. induction (vars env) as [|[n u] l IH]; cbn.
  - by destruct (String.eqb x y).
  - destruct (String.eqb_spec n x) as [->|Hne]; cbn.
    + by destruct (String.eqb x y).
    + destruct (String.eqb_spec n y) as [->|]; [|exact IH].
      by destruct (String.eqb_spec x y) as [->|].
Qed.

Section Coincidence.
Context (opaque_eval : Z -> EvalEnv -> SRes EvalResult) (opaque_vars : Z -> list string).

Definition agree_on (xs : list string) (env env' : EvalEnv) : Prop :=
  forall x, x ∈ xs -> env_get env x = env_get env' x.

Context (Hopaque : forall tag env env',
  agree_on (opaque_vars tag) env env' -> opaque_eval tag env = opaque_eval tag env').

Abbreviation fv e := (collect_vars opaque_vars e).
Abbreviation ev e env := (try_eval opaque_eval e env).

Lemma agree_app xs ys env env' :
  agree_on (xs ++ ys) env env' -> agree_on xs env env' /\ agree_on ys env env'.
Proof. intros H. split; intros x Hx; apply H, elem_of_app; tauto. Qed.

Lemma agree_insert xs x v env env' :
  agree_on (List.filter (fun y => negb (String.eqb y x)) xs) env env' ->
  agree_on xs (env_insert env x v) (env_insert env' x v).
Proof.
  intros H y Hy. rewrite !env_get_insert. destruct (String.eqb_spec x y) as [|Hne]; [done|].
  apply H, list_elem_of_In, filter_In. split; [by apply list_elem_of_In|].
  by destruct (String.eqb_spec y x) as [->|].
Qed.

Lemma unroll_coincide stop x xw (run : EvalEnv -> SRes EvalResult) xs n i env env' :
  (forall env env', agree_on xs env env' -> run env = run env') ->
  agree_on (List.filter (fun y => negb (String.eqb y x)) xs) env env' ->
  unroll stop x xw run n i env = unroll stop x xw run n i env'.
Proof.
  intros Hrun. revert i env env'. induction n as [|n IH]; intros i env env' H; [done|]. cbn [unroll].
  rewrite (Hrun _ (env_insert env' x (mask i xw))) by (by apply agree_insert).
  destruct (run (env_insert env' x (mask i xw))) as [r| |]; cbn; [|done|done].
  destruct (eqb (as_bool r) stop); [done|]. apply IH. intros y Hy.
  rewrite !env_get_insert. destruct (String.eqb x y); [done|]. by apply H.
Qed.

Lemma eval_coincide e env env' : agree_on (fv e) env env' -> ev e env = ev e env'.
Proof.
  revert env env'. induction e; intros env env' H; cbn [collect_vars] in H;
    repeat match goal with
    | H : agree_on (_ ++ _) _ _ |- _ => apply agree_app in H as [? ?]
    | IH : forall a b, agree_on (fv ?e) a b -> _, H : agree_on (fv ?e) _ _ |- _ =>
        pose proof (IH _ _ H); clear IH
    end;
    cbn [try_eval]; try congruence.
  all: try (repeat match goal with H : try_eval _ _ _ = try_eval _ _ _ |- _ => rewrite <- H; clear H end; done).
  - by rewrite (H name) by (by left).
  - repeat match goal with E : try_eval _ _ _ = _ |- _ => rewrite E; clear E end. destruct (ev e1 env'), (ev e2 env'); cbn; try done.
    repeat (case_match; [done|]). by eapply unroll_coincide.
  - repeat match goal with E : try_eval _ _ _ = _ |- _ => rewrite E; clear E end. destruct (ev e1 env'), (ev e2 env'); cbn; try done.
    repeat (case_match; [done|]). by eapply unroll_coincide.
  - by apply Hopaque.
Qed.

End Coincidence.

(** the value of an expression depends only on the variables [collect_vars]
    lists: environments that agree on them give the same result, error or panic,
    through bounded quantifiers and their rebinding included. *)
Theorem eval_free_vars opaque_eval opaque_vars e env env' :
  (forall tag a b, agree_on (opaque_vars tag) a b -> opaque_eval tag a = opaque_eval tag b) ->
  agree_on (collect_vars opaque_vars e) env env' ->
  try_eval opaque_eval e env = try_eval opaque_eval e env'.
Proof. intros Ho. by apply (eval_coincide opaque_eval opaque_vars). Qed.

Definition demo_forall : SmtExpr :=
  ForAll "i" 64 (BvConst 0 64) (BvConst 4 64) (BvUlt (Var "i" 64) (Var "n" 64) 64).

Lemma eval_free_vars_witness :
  let opaque := fun (_ : Z) (_ : EvalEnv) => SErr EvalError in
  try_eval opaque demo_forall (mkEnv [("n", 4); ("i", 9)]%string) = SOk (Bool true) /\
  try_eval opaque demo_forall (mkEnv [("i", 9); ("n", 4)]%string) =
    try_eval opaque demo_forall (mkEnv [("n", 4)]%string).
Proof.
  split; [reflexivity|]. apply (eval_free_vars _ (fun _ => [])); [done|].
  intros x [->|[]%not_elem_of_nil]%elem_of_cons. reflexivity.
Defined.

(** ** Type soundness *)

Definition binds (xs : list string) (env : EvalEnv) : Prop :=
  forall x, x ∈ xs -> exists v, env_get env x = Some v /\ uword 64 v.

Lemma binds_app xs ys env : binds (xs ++ ys) env -> binds xs env /\ binds ys env.
Proof. intros H. split; intros x Hx; apply H, elem_of_app; tauto. Qed.

(** Evaluate a node whose children's values are known. *)
Ltac rewrite_children :=
  cbn [try_eval];
  repeat match goal with
  | H : try_eval ?o ?e ?env = _ |- context [try_eval ?o ?e ?env] => rewrite H
  end; cbn [mbind SRes_bind mret SRes_ret].

Section Soundness.
Context (opaque_eval : Z -> EvalEnv -> SRes EvalResult) (env : EvalEnv).

Abbreviation fv e := (collect_vars (fun _ => []) e).

Definition evaluates (e : SmtExpr) (s : SmtSort) : Prop :=
  exists r, try_eval opaque_eval e env = SOk r /\ has_sort s r /\
    uword 64 (as_u64 r) /\ uword 128 (as_u128 r).

Lemma evaluates_intro e s r :
  sort_fits s -> try_eval opaque_eval e env = SOk r -> has_sort s r -> evaluates e s.
Proof. intros Hs He Hr. exists r. pose proof (has_sort_fits s r Hs Hr). tauto. Qed.

(** Children of a well-sorted node evaluate. *)
Ltac eval_children :=
  repeat match goal with
  | IH : forall s, sort_of ?e = Some s -> binds (fv ?e) env -> evaluates ?e s,
    Hs : sort_of ?e = Some _, Hb : binds (fv ?e) env |- _ =>
      destruct (IH _ Hs Hb) as (? & ? & ? & ? & ?); clear IH
  | IH : forall s, Some _ = Some s -> binds (fv ?e) env -> evaluates ?e s,
    Hb : binds (fv ?e) env |- _ =>
      destruct (IH _ eq_refl Hb) as (? & ? & ? & ? & ?); clear IH
  end.

Lemma evaluates_ite c t e s :
  evaluates c BoolSort -> evaluates t s -> evaluates e s -> evaluates (Ite c t e) s.
Proof.
  intros (rc & Ec & _) (rt & Et & ?) (re & Ee & ?). unfold evaluates. rewrite_children.
  destruct (as_bool rc); eauto.
Qed.

Lemma evaluates_trap g v sg w :
  1 <= w <= 128 -> evaluates g sg -> evaluates v (BitVec w) -> evaluates (TrapIfZero g v w) (BitVec w).
Proof.
  intros Hw (rg & Eg & _) Hv.
  assert (Hp : exists r, SOk Poison = SOk r /\ has_sort (BitVec w) r /\
    uword 64 (as_u64 r) /\ uword 128 (as_u128 r)).
  { exists Poison. split; [done|]. split; [done|]. unfold uword; cbn [as_u64 as_u128]; lia. }
  unfold evaluates in *. rewrite_children. destruct rg; try exact Hp; by case_match.
Qed.

Lemma evaluates_and l r :
  evaluates l BoolSort -> evaluates r BoolSort -> evaluates (And l r) BoolSort /\ evaluates (Or l r) BoolSort.
Proof.
  intros (rl & El & _) (rr & Er & _).
  assert (Hb : forall b, exists r, SOk (Bool b) = SOk r /\ has_sort BoolSort r /\
    uword 64 (as_u64 r) /\ uword 128 (as_u128 r)).
  { intros b. exists (Bool b). split; [done|]. split; [done|]. apply (has_sort_fits BoolSort); done. }
  unfold evaluates. rewrite_children. split; destruct (as_bool rl); apply Hb.
Qed.

Lemma evaluates_select a i idx elem :
  evaluates a (ArraySort idx elem) -> evaluates i idx -> sort_fits elem -> evaluates (Select a i) elem.
Proof.
  intros (ra & Ea & Ha & _) (ri & Ei & _) Hs. destruct ra as [| | | |en d|]; try done.
  destruct Ha as [Hd Hen]. eapply evaluates_intro; [done|rewrite_children; reflexivity|].
  destruct (entries_get en (as_u64 ri)) eqn:E; [by eapply Hen|done].
Qed.

Lemma evaluates_store a i v idx elem :
  evaluates a (ArraySort idx elem) -> evaluates i idx -> evaluates v elem -> sort_fits elem ->
  evaluates (Store a i v) (ArraySort idx elem).
Proof.
  intros (ra & Ea & Ha & _) (ri & Ei & _) (rv & Ev & Hv & _) Hs. destruct ra as [| | | |en d|]; try done.
  destruct Ha as [Hd Hen]. eapply evaluates_intro; [done|rewrite_children; reflexivity|].
  split; [done|]. intros k x. rewrite entries_get_insert.
  destruct (as_u64 ri =? k); [by intros [= <-]|apply Hen].
Qed.

Lemma well_sorted_evaluates e s : sort_of e = Some s -> binds (fv e) env -> evaluates e s.
Proof.
  revert s. induction e; intros s0 Hs Hb; pose proof (sort_of_fits _ _ Hs) as Hfit;
    cbn [sort_of collect_vars] in Hs, Hb;
    inv_sort; repeat match goal with
    | H : binds (_ ++ _) _ |- _ => apply binds_app in H as [? ?]
    end.
  all: try (lazymatch goal with |- evaluates (Ite _ _ _) _ =>
    apply evaluates_ite; [by auto|by auto|apply IHe3; [congruence|done]] end).
  all: try (lazymatch goal with
    | |- evaluates (TrapIfZero _ _ _) _ => by eapply evaluates_trap; eauto
    | |- evaluates (And _ _) _ => apply evaluates_and; auto
    | |- evaluates (Or _ _) _ => apply evaluates_and; auto
    | |- evaluates (Select _ _) _ => by eapply evaluates_select; eauto
    | |- evaluates (Store _ _ _) _ => by eapply evaluates_store; eauto
    end).
  all: eval_children.
  all: try (eapply evaluates_intro; [done|rewrite_children; reflexivity|];
    first [ exact I | apply arith_sorts; done | apply div_sorts; done | apply bitwise_sorts; done
          | apply shift_sorts; done | apply urem_sort; (done || lia) | apply extract_sort; (done || lia)
          | apply load_sort; (done || lia) ]).
  - destruct (Hb name) as (v & Hv & Hu); [by left|]. eapply evaluates_intro; [done| |].
    + cbn [try_eval]. by rewrite Hv.
    + apply bv_sort; [lia|done].
  - eapply evaluates_intro; [done|reflexivity|]. case_match.
    + split; [lia|]. pose proof (pow2_le 64 width ltac:(lia)). unfold uword.
      replace (Z.min width 64) with 64 in * by lia. lia.
    + apply bv_sort; [cbn in Hfit; lia|].
      pose proof (pow2_le (Z.min width 64) 64 ltac:(cbn in Hfit; lia)). unfold uword. lia.
  - eapply evaluates_intro; [done| |].
    + rewrite_children. by match goal with E : bv_width e2 = _ |- _ => rewrite E end.
    + by apply concat_sort.
  - eapply evaluates_intro; [done|rewrite_children; reflexivity|]. by apply (ext_sorts x width ltac:(done) 0).
  - eapply evaluates_intro; [done|rewrite_children; reflexivity|]. by apply ext_sorts.
  - eapply evaluates_intro; [done|rewrite_children; reflexivity|]. by split.
Qed.
End Soundness.



Lemma demo_binds e :
  forallb (fun x => String.eqb x "a" || String.eqb x "b") (collect_vars (fun _ => []) e) = true ->
  binds (collect_vars (fun _ => []) e) demo_env.
Proof.
  intros H x Hx%list_elem_of_In. pose proof (proj1 (forallb_forall _ _) H x Hx) as E. cbn beta in E.
  destruct (String.eqb_spec x "a") as [->|]; [exists (2 ^ 64 - 3)|].
  { split; [reflexivity|unfold uword; lia]. }
  destruct (String.eqb_spec x "b") as [->|]; [exists 2|discriminate E].
  split; [reflexivity|unfold uword; lia].
Qed.


(** [sort] and [bv_width] panic on expressions that evaluate: a conditional
    boolean has no sort, a concatenation over a read of a conditional array has no
    value. *)
Example sort_panics :
  let b := BoolConst true in
  let arr v := ConstArray (BitVec 64) (BvConst v 8) in
  let read := Select (Ite b (arr 1) (arr 2)) (BvConst 0 64) in
  sort (Ite b b b) = SPanic /\
  try_eval (fun _ _ => SErr EvalError) (Ite b b b) demo_env = SOk (Bool true) /\
  try_eval (fun _ _ => SErr EvalError) read demo_env = SOk (Bv 1) /\
  try_eval (fun _ _ => SErr EvalError) (Concat (BvConst 0 8) read 16) demo_env = SPanic /\
  smt_sort (Concat (BvConst 0 8) read 16) = Some (BitVec 16) /\ carried (Concat (BvConst 0 8) read 16) = false.
Proof. split_and!; reflexivity. Qed.

(** ** The SMT-LIB meaning of bitvector expressions *)

Inductive Den := DBv (n : Z) | DBool (b : bool).

(** Operations on unsigned readings; the result is reduced to the width.  A
    division by zero, which the obligations rule out by a precondition, has no
    meaning here. *)
Definition smt_sdiv (w x y : Z) : option Z :=
  if y =? 0 then None else Some (Z.quot (swrap w x) (swrap w y)).
Definition smt_udiv (x y : Z) : option Z := if y =? 0 then None else Some (x / y).
Definition smt_urem (x y : Z) : Z := if y =? 0 then x else x mod y.

Fixpoint denote (env : EvalEnv) (e : SmtExpr) : option Den :=
  let bv (x : SmtExpr) : option Z :=
    v ← denote env x; match v with DBv n => Some n | DBool _ => None end in
  let boolean (x : SmtExpr) : option bool :=
    v ← denote env x; match v with DBool b => Some b | DBv _ => None end in
  let bin w (f : Z -> Z -> option Z) l r :=
    x ← bv l; y ← bv r; n ← f x y; Some (DBv (wrap w n)) in
  let op w (f : Z -> Z -> Z) l r := bin w (fun x y => Some (f x y)) l r in
  let cmp (f : Z -> Z -> bool) l r := x ← bv l; y ← bv r; Some (DBool (f x y)) in
  let scmp w (f : Z -> Z -> bool) l r := cmp (fun x y => f (swrap w x) (swrap w y)) l r in
  match e with
  | Var name w => v ← env_get env name; Some (DBv (wrap w v))
  | BvConst v _ => Some (DBv v)
  | BoolConst b => Some (DBool b)
  | BvAdd l r w => op w Z.add l r
  | BvSub l r w => op w Z.sub l r
  | BvMul l r w => op w Z.mul l r
  | BvSDiv l r w => bin w (smt_sdiv w) l r
  | BvUDiv l r w => bin w smt_udiv l r
  | BvURem l r w => op w smt_urem l r
  | TrapIfZero g v _ => n ← bv g; if n =? 0 then None else denote env v
  | BvAnd l r w => op w Z.land l r
  | BvOr l r w => op w Z.lor l r
  | BvXor l r w => op w Z.lxor l r
  | BvShl l r w => op w (fun x y => x * 2 ^ y) l r
  | BvLshr l r w => op w (fun x y => x / 2 ^ y) l r
  | BvAshr l r w => op w (fun x y => swrap w x / 2 ^ y) l r
  | BvNeg o w => x ← bv o; Some (DBv (wrap w (- x)))
  | Eq l r =>
      a ← denote env l; b ← denote env r;
      match a, b with
      | DBv x, DBv y => Some (DBool (x =? y))
      | DBool x, DBool y => Some (DBool (eqb x y))
      | _, _ => None
      end
  | Not o => b ← boolean o; Some (DBool (negb b))
  | BvSlt l r w => scmp w Z.ltb l r
  | BvSge l r w => scmp w Z.geb l r
  | BvSgt l r w => scmp w Z.gtb l r
  | BvSle l r w => scmp w Z.leb l r
  | BvUge l r _ => cmp Z.geb l r
  | BvUlt l r _ => cmp Z.ltb l r
  | BvUgt l r _ => cmp Z.gtb l r
  | BvUle l r _ => cmp Z.leb l r
  | And l r => a ← boolean l; b ← boolean r; Some (DBool (a && b))
  | Or l r => a ← boolean l; b ← boolean r; Some (DBool (a || b))
  | Ite c t el => boolean c ≫= fun b : bool => if b then denote env t else denote env el
  | Extract _ lo o w => x ← bv o; Some (DBv (wrap w (x / 2 ^ lo)))
  | Concat h l w =>
      x ← bv h; y ← bv l;
      match bv_width l with SOk lw => Some (DBv (x * 2 ^ lw + y)) | _ => None end
  | ZeroExtend o _ _ => x ← bv o; Some (DBv x)
  | SignExtend o extra w => x ← bv o; Some (DBv (wrap w (swrap (w - extra) x)))
  | _ => None
  end.

(** The machine representation of a value of a sort. *)
Definition rep (w n : Z) : EvalResult := if w <=? 64 then Bv n else Bv128 n.

Definition result (s : SmtSort) (v : Den) : option EvalResult :=
  match s, v with
  | BitVec w, DBv n => Some (rep w n)
  | BoolSort, DBool b => Some (Bool b)
  | _, _ => None
  end.

(** ** The operations compute their meaning *)

Section Ops.
Context (w x y : Z) (Hw : 1 <= w <= 128) (Hx : uword w x) (Hy : uword w y).

Lemma rep_u128 n : as_u128 (rep w n) = n.
Proof. unfold rep. by case_match. Qed.

Lemma rep_u64 n : w <= 64 -> as_u64 (rep w n) = n.
Proof. intros. unfold rep. by replace (w <=? 64) with true by lia. Qed.

(** Both paths of an operation reduce one integer to the width. *)
Lemma rep_wide n :
  (if 64 <? w then Bv128 (mask128 (wrap 128 n) w) else Bv (mask (wrap 64 n) w)) = rep w (wrap w n).
Proof.
  unfold rep. destruct (Z.ltb_spec 64 w).
  - replace (w <=? 64) with false by lia. rewrite mask128_wrap by (lia || apply wrap_range; lia).
    by rewrite wrap_wrap_le by lia.
  - replace (w <=? 64) with true by lia. rewrite mask_wrap by (lia || apply wrap_range; lia).
    by rewrite wrap_wrap_le by lia.
Qed.

Lemma rep_split n : (if 64 <? w then Bv128 n else Bv n) = rep w n.
Proof.
  unfold rep. destruct (Z.ltb_spec 64 w);
    [by replace (w <=? 64) with false by lia|by replace (w <=? 64) with true by lia].
Qed.

Lemma wrap_0 : wrap w 0 = 0.
Proof. apply Z.mod_0_l. pose proof (pow2_pos w ltac:(lia)). lia. Qed.

Lemma word_in W n : uword w n -> w <= W -> uword W n.
Proof. intros Hn HW. pose proof (pow2_le w W ltac:(lia)). unfold uword in *. lia. Qed.

(** Read the operands at the width the operation uses. *)
Ltac reads := destruct (Z.ltb_spec 64 w); rewrite ?rep_u128, ?rep_u64 by lia.

Lemma add_meaning : eval_add (rep w x) (rep w y) w = rep w (wrap w (x + y)).
Proof. rewrite <- rep_wide. unfold eval_add. by reads. Qed.

Lemma sub_meaning : eval_sub (rep w x) (rep w y) w = rep w (wrap w (x - y)).
Proof. rewrite <- rep_wide. unfold eval_sub. by reads. Qed.

Lemma mul_meaning : eval_mul (rep w x) (rep w y) w = rep w (wrap w (x * y)).
Proof. rewrite <- rep_wide. unfold eval_mul. by reads. Qed.

Lemma neg_meaning : eval_neg (rep w x) w = rep w (wrap w (- x)).
Proof.
  rewrite <- rep_wide. unfold eval_neg.
  reads; do 2 f_equal; rewrite wrap_add_l; f_equal; unfold Z.lnot; lia.
Qed.

Lemma bitwise_meaning f :
  (forall W, 0 <= W -> uword W x -> uword W y -> uword W (f x y)) ->
  eval_bitwise f (rep w x) (rep w y) w = rep w (wrap w (f x y)).
Proof.
  intros Hf. rewrite <- rep_wide. unfold eval_bitwise. reads.
  - rewrite (wrap_small 128); [done|]. apply Hf; [lia|by apply word_in; [|lia]..].
  - rewrite (wrap_small 64); [done|]. apply Hf; [lia|by apply word_in; [|lia]..].
Qed.

Lemma swrap_zero : swrap w y = 0 <-> y = 0.
Proof.
  split; intros H.
  - rewrite <- (wrap_small w y), <- wrap_swrap, H by (done || lia). apply Z.mod_0_l.
    pose proof (pow2_pos w ltac:(lia)). lia.
  - subst y. apply swrap_small; [lia|]. pose proof (pow2_pos (w - 1) ltac:(lia)). unfold sword. lia.
Qed.

Lemma sdiv_meaning n :
  smt_sdiv w x y = Some n -> eval_sdiv (rep w x) (rep w y) w = rep w (wrap w n).
Proof.
  unfold smt_sdiv. destruct (Z.eqb_spec y 0) as [|Hy0]; [done|]. intros [= <-].
  rewrite <- rep_wide. unfold eval_sdiv. pose proof swrap_zero. reads.
  - rewrite !sign_extend128_swrap by lia. destruct (Z.eqb_spec (swrap w y) 0); [tauto|].
    rewrite wrap_swrap by lia. case_match; [|done].
    assert (swrap w x = - 2 ^ 127 /\ swrap w y = -1) as [-> ->] by lia. reflexivity.
  - rewrite !sign_extend_swrap by lia. destruct (Z.eqb_spec (swrap w y) 0); [tauto|].
    rewrite wrap_swrap by lia. case_match; [|done].
    assert (swrap w x = - 2 ^ 63 /\ swrap w y = -1) as [-> ->] by lia. reflexivity.
Qed.

Lemma udiv_meaning n :
  smt_udiv x y = Some n -> eval_udiv (rep w x) (rep w y) w = rep w (wrap w n).
Proof.
  unfold smt_udiv. destruct (Z.eqb_spec y 0) as [|Hy0]; [done|]. intros [= <-].
  rewrite <- rep_wide. unfold eval_udiv. reads; replace (y =? 0) with false by lia.
  - rewrite (wrap_small 128); [done|]. apply div_range; [by apply word_in; [|lia]|unfold uword in *; lia].
  - rewrite (wrap_small 64); [done|]. apply div_range; [by apply word_in; [|lia]|unfold uword in *; lia].
Qed.

Lemma urem_meaning : w <= 64 -> eval_urem (rep w x) (rep w y) w = rep w (wrap w (smt_urem x y)).
Proof.
  intros H64. unfold eval_urem, smt_urem. rewrite !rep_u64 by lia. unfold rep.
  replace (w <=? 64) with true by lia.
  destruct (Z.eqb_spec y 0); rewrite mask_wrap; try done; try lia; [by apply word_in|].
  apply mod_range; [by apply word_in|]. unfold uword in *. lia.
Qed.

Lemma shl_meaning : eval_shl (rep w x) (rep w y) w = rep w (wrap w (x * 2 ^ y)).
Proof.
  assert (Hbig : w <= y -> wrap w (x * 2 ^ y) = 0).
  { intros. unfold wrap. replace y with (w + (y - w)) by lia. rewrite pow2_split by lia.
    replace (x * (2 ^ w * 2 ^ (y - w))) with (x * 2 ^ (y - w) * 2 ^ w) by ring.
    apply Z.mod_mul. pose proof (pow2_pos w ltac:(lia)). lia. }
  unfold uword in Hx, Hy. unfold eval_shl, shl128. destruct (Z.leb_spec w y).
  - rewrite Hbig, <- (rep_split 0) by lia. by reads; replace (w <=? y) with true by lia.
  - rewrite <- rep_wide. reads; replace (w <=? y) with false by lia;
      rewrite Z.shiftl_mul_pow2; rewrite ?Z.mod_small by lia; done || lia.
Qed.

Lemma lshr_meaning : eval_lshr (rep w x) (rep w y) w = rep w (wrap w (x / 2 ^ y)).
Proof.
  pose proof (pow2_pos y ltac:(unfold uword in *; lia)).
  assert (Hd : forall W, w <= W -> wrap W (x / 2 ^ y) = x / 2 ^ y)
    by (intros W HW; apply wrap_small, div_range; [by apply word_in|lia]).
  unfold eval_lshr, shr128. destruct (Z.leb_spec w y).
  - assert (Hz : x / 2 ^ y = 0).
    { apply Z.div_small. pose proof (pow2_le w y ltac:(lia)). unfold uword in *. lia. }
    rewrite Hz, wrap_0, <- (rep_split 0). by reads; replace (w <=? y) with true by lia.
  - rewrite <- rep_wide. unfold uword in Hy. reads; replace (w <=? y) with false by lia;
      rewrite ?(Z.mod_small y) by lia; by rewrite Hd, Z.shiftr_div_pow2 by lia.
Qed.

(** A negative dividend shifted past its width is all ones. *)
Lemma shift_out : w <= y -> swrap w x / 2 ^ y = if swrap w x <? 0 then -1 else 0.
Proof.
  intros Hwy. pose proof (swrap_range w x ltac:(lia)) as Hs. unfold sword in Hs.
  pose proof (pow2_le (w - 1) y ltac:(lia)). pose proof (pow2_pos y ltac:(lia)).
  destruct (Z.ltb_spec (swrap w x) 0).
  - apply div_eq_between; lia.
  - apply Z.div_small. lia.
Qed.

Lemma ashr_meaning : eval_ashr (rep w x) (rep w y) w = rep w (wrap w (swrap w x / 2 ^ y)).
Proof.
  unfold eval_ashr, shr128. destruct (Z.leb_spec w y) as [Hwy|Hwy].
  - rewrite shift_out by lia. destruct (Z.ltb_spec (swrap w x) 0).
    + rewrite <- rep_wide. reads; replace (w <=? y) with true by lia.
      * rewrite sign_extend128_swrap by lia. by replace (swrap w x <? 0) with true by lia.
      * rewrite sign_extend_swrap by lia. by replace (swrap w x <? 0) with true by lia.
    + rewrite wrap_0, <- (rep_split 0). reads; replace (w <=? y) with true by lia.
      * rewrite sign_extend128_swrap by lia. by replace (swrap w x <? 0) with false by lia.
      * rewrite sign_extend_swrap by lia. by replace (swrap w x <? 0) with false by lia.
  - rewrite <- rep_wide. unfold uword in Hy. reads; replace (w <=? y) with false by lia.
    + rewrite sign_extend128_swrap, Z.shiftr_div_pow2, Z.mod_small by (try apply Z.mod_pos_bound; lia).
      done.
    + by rewrite sign_extend_swrap, Z.shiftr_div_pow2 by lia.
Qed.

Lemma extract_meaning lo v :
  0 <= lo < w -> 1 <= v <= 64 -> eval_extract (rep w x) lo v = rep v (wrap v (x / 2 ^ lo)).
Proof.
  intros Hlo Hv. unfold eval_extract, rep at 2, shr128. replace (v <=? 64) with true by lia.
  rewrite rep_u128, (Z.mod_small lo) by lia. rewrite mask128_wrap by (unfold uword; lia).
  replace (wrap v (2 ^ 128 - 1)) with (Z.shiftl 1 v - 1).
  - rewrite land_pow2_mask, Z.shiftr_div_pow2 by lia. fold (wrap v (x / 2 ^ lo)).
    rewrite wrap_small; [done|]. pose proof (wrap_range v (x / 2 ^ lo) ltac:(lia)).
    pose proof (pow2_le v 64 ltac:(lia)). unfold uword in *. lia.
  - rewrite Z.shiftl_1_l. symmetry. unfold wrap.
    replace (2 ^ 128) with (2 ^ (128 - v) * 2 ^ v) by (rewrite <- pow2_split by lia; f_equal; lia).
    pose proof (pow2_pos v ltac:(lia)).
    replace (2 ^ (128 - v) * 2 ^ v - 1) with (2 ^ v - 1 + (2 ^ (128 - v) - 1) * 2 ^ v) by ring.
    rewrite Z_mod_plus_full. apply Z.mod_small. lia.
Qed.

Lemma zext_meaning v : w <= v <= 128 -> eval_zext (rep w x) v = rep v x.
Proof.
  intros Hv. unfold eval_zext, rep at 3. rewrite rep_u128.
  assert (Hin : forall W, v <= W -> uword W x) by (intros; apply word_in; [done|lia]).
  destruct (Z.ltb_spec 64 v).
  - replace (v <=? 64) with false by lia. rewrite mask128_wrap, wrap_small by (lia || apply Hin; lia). done.
  - replace (v <=? 64) with true by lia. 
    rewrite (wrap_small 64), mask_wrap, wrap_small by (lia || apply Hin; lia). done.
Qed.

Lemma sext_meaning v :
  w <= v <= 128 -> eval_sext (rep w x) w v = rep v (wrap v (swrap w x)).
Proof.
  intros Hv. unfold eval_sext. rewrite rep_u128. unfold rep at 2.
  destruct (Z.ltb_spec 64 v).
  - replace (v <=? 64) with false by lia. rewrite sign_extend128_swrap by lia.
    rewrite mask128_wrap, wrap_wrap_le by (try apply wrap_range; lia). done.
  - replace (v <=? 64) with true by lia. rewrite rep_u64, sign_extend_swrap by lia.
    rewrite mask_wrap, wrap_wrap_le by (try apply wrap_range; lia). done.
Qed.

End Ops.

Lemma concat_meaning wh wl x y :
  1 <= wh -> 1 <= wl -> wh + wl <= 128 -> uword wh x -> uword wl y ->
  eval_concat (rep wh x) (rep wl y) wl (wh + wl) = rep (wh + wl) (x * 2 ^ wl + y).
Proof.
  intros Hh Hl Hs Hx Hy. unfold eval_concat, shl128. rewrite !rep_u128.
  assert (Hin : uword (wh + wl) (x * 2 ^ wl + y)).
  { unfold uword in *. rewrite pow2_split by lia. nia. }
  assert (Hin' : forall W, wh + wl <= W -> uword W (x * 2 ^ wl + y))
    by (intros; apply (word_in (wh + wl)); [lia|done|done]).
  rewrite (Z.mod_small wl), Z.shiftl_mul_pow2 by lia.
  rewrite (wrap_small 128) by (specialize (Hin' 128 Hs); unfold uword in *; pose proof (pow2_pos wl); nia).
  rewrite lor_disjoint by (done || lia). rewrite mask128_wrap, (wrap_small (wh + wl)) by (lia || apply Hin'; lia).
  unfold rep. destruct (Z.leb_spec (wh + wl) 64); [|done]. by rewrite wrap_small by (apply Hin'; lia).
Qed.

(** ** The interpreter refines the SMT-LIB meaning *)

Section Refinement.
Context (opaque_eval : Z -> EvalEnv -> SRes EvalResult) (env : EvalEnv).

Abbreviation fv e := (collect_vars (fun _ => []) e).

(** [e] evaluates to the representation of [v], which is in range. *)
Definition refines (e : SmtExpr) (s : SmtSort) (v : Den) : Prop :=
  exists r, result s v = Some r /\ try_eval opaque_eval e env = SOk r /\ has_sort s r.

Lemma refines_bv e w n :
  refines e (BitVec w) (DBv n) -> try_eval opaque_eval e env = SOk (rep w n) /\ uword w n.
Proof.
  intros (r & [= <-] & He & Hr). split; [done|]. unfold rep in Hr. by case_match; destruct Hr.
Qed.

Lemma refines_intro e s v r :
  sort_of e = Some s -> binds (fv e) env -> result s v = Some r ->
  try_eval opaque_eval e env = SOk r -> refines e s v.
Proof.
  intros Hs Hb Hr He. exists r. split_and!; [done|done|].
  destruct (well_sorted_evaluates opaque_eval env e s Hs Hb) as (r' & He' & Hr' & _). congruence.
Qed.

(** Take apart [denote env e = Some v]. *)
Ltac inv_den :=
  repeat match goal with
  | H : (_ ≫= _) = Some _ |- _ => apply bind_Some in H as (? & ? & H)
  | H : Some _ = Some _ |- _ => injection H as <-
  | H : None = Some _ |- _ => discriminate H
  | H : match ?d with DBv _ => _ | DBool _ => _ end = Some _ |- _ => destruct d
  end.

Ltac use_meanings :=
  repeat match goal with
  | IH : forall s v, sort_of ?e = Some s -> _, Hs : sort_of ?e = Some _, Hb : binds (fv ?e) env,
    Hd : denote env ?e = Some _ |- _ => pose proof (IH _ _ Hs Hb Hd); clear IH
  | IH : forall s v, Some _ = Some s -> _, Hb : binds (fv ?e) env,
    Hd : denote env ?e = Some _ |- _ => pose proof (IH _ _ eq_refl Hb Hd); clear IH
  | H : refines _ (BitVec _) (DBv _) |- _ => apply refines_bv in H as [? ?]
  | H : refines _ (BitVec _) (DBool _) |- _ => destruct H as (? & ? & ?); discriminate
  | H : refines _ BoolSort (DBv _) |- _ => destruct H as (? & ? & ?); discriminate
  | H : refines _ BoolSort (DBool _) |- _ => destruct H as (? & [= <-] & H & _)
  end.

Lemma denote_refines e s v :
  sort_of e = Some s -> binds (fv e) env -> denote env e = Some v -> refines e s v.
Proof.
  revert s v. induction e; intros s0 v0 Hs Hb Hd; pose proof Hs as Hs0; pose proof Hb as Hb0;
    cbn [sort_of] in Hs; cbn [collect_vars] in Hb; cbn [denote] in Hd;
    inv_sort; repeat match goal with
    | H : binds (_ ++ _) _ |- _ => apply binds_app in H as [? ?]
    end; inv_den; use_meanings.
  all: try (lazymatch goal with |- refines (Ite _ _ _) _ _ => fail | _ => idtac end;
    (eapply refines_intro; [exact Hs0|exact Hb0|reflexivity|]); rewrite_children;
    try reflexivity; f_equal;
    first [ apply add_meaning | apply sub_meaning | apply mul_meaning | apply neg_meaning
          | apply shl_meaning | apply lshr_meaning | apply ashr_meaning | apply urem_meaning
          | apply sdiv_meaning | apply udiv_meaning
          | apply bitwise_meaning; [lia|done|done|intros; by first
              [apply uword_land | apply uword_lor | apply uword_lxor]] ]; (done || lia)).
  all: try (eapply refines_intro; [exact Hs0|exact Hb0|reflexivity|]; rewrite_children;
    unfold signed_cmp, unsigned_cmp; rewrite ?rep_u64, ?sign_extend_swrap by lia; reflexivity).
  all: repeat match goal with
    | Hs : sort_of ?e = Some (BitVec ?w) |- _ =>
        lazymatch goal with
        | _ : 1 <= w <= 128 |- _ => fail
        | _ => pose proof (sort_of_fits _ _ Hs : 1 <= w <= 128)
        end
    end.
  - eapply refines_intro; [exact Hs0|exact Hb0|reflexivity|]. cbn [try_eval]. rewrite H.
    destruct (Hb name) as (v & Hv & Hu); [by left|]. replace v with x in * by congruence.
    rewrite mask_wrap by (done || lia). unfold rep. by replace (width <=? 64) with true by lia.
  - eapply refines_intro; [exact Hs0|exact Hb0|reflexivity|]. cbn [try_eval].
    rewrite <- rep_split. destruct (Z.ltb_spec 64 width); [done|].
    replace (Z.min width 64) with width in * by lia.
    rewrite mask_wrap, wrap_small; [done|unfold uword; lia|lia|].
    apply (word_in width); [lia|unfold uword; lia|lia].
  - destruct (n =? 0) eqn:En; [done|]. use_meanings.
    match goal with H : refines e2 _ _ |- _ => destruct H as (r & Hr & He & Hrs) end.
    exists r. split_and!; [done| |done].
    rewrite_children. rewrite rep_u128, En. unfold rep. by destruct (w <=? 64).
  - eapply refines_intro; [exact Hs0|exact Hb0|reflexivity|]. rewrite_children. unfold rep.
    by case_match.
  - eapply refines_intro; [exact Hs0|exact Hb0|reflexivity|]. rewrite_children. by destruct b0.
  - eapply refines_intro; [exact Hs0|exact Hb0|reflexivity|]. rewrite_children. by destruct b0.
  - match goal with H : refines e2 _ _ |- _ => destruct H as (r & Hr & He & Hrs) end.
    exists r. split_and!; [done| |done]. simplify_eq. by rewrite_children.
  - assert (refines e3 s0 v0) as (r & Hr & He & Hrs) by (apply IHe3; [congruence|done|done]).
    exists r. split_and!; [done| |done]. simplify_eq. by rewrite_children.
  - eapply refines_intro; [exact Hs0|exact Hb0|reflexivity|]. rewrite_children. f_equal.
    apply extract_meaning; (done || lia).
  - eapply refines_intro; [exact Hs0|exact Hb0|reflexivity|]. rewrite_children.
    match goal with E : bv_width e2 = _ |- _ => rewrite E end. cbn. f_equal.
    replace width with (w + w0) by lia. replace a with w0 by lia. apply concat_meaning; (done || lia).
  - eapply refines_intro; [exact Hs0|exact Hb0|reflexivity|]. rewrite_children. f_equal.
    apply zext_meaning; (done || lia).
  - eapply refines_intro; [exact Hs0|exact Hb0|reflexivity|]. rewrite_children. f_equal.
    unfold source_width. rewrite wrap_small by (unfold uword; lia). apply sext_meaning; (done || lia).
Qed.

End Refinement.

(** C13: on a well-sorted bitvector expression within the widths that the interpreter
    carries ([carried]), with bound variables and no division
    by zero, [SmtExpr::try_eval] returns the machine representation of the SMT-LIB
    value: addition, multiplication and negation modulo two to the width, truncated
    signed and floored unsigned division, shifts with an amount of any size, signed
    and unsigned order, extraction, concatenation and extension.  Beyond these widths
    it departs from the SMT-LIB value ([wide_departures]). *)
Theorem eval_refines_smtlib opaque_eval env e s v :
  smt_sort e = Some s -> carried e = true -> binds (collect_vars (fun _ => []) e) env -> denote env e = Some v ->
  exists r, result s v = Some r /\ try_eval opaque_eval e env = SOk r.
Proof.
  intros Hs Hc Hb Hd. apply smt_sorted in Hs; [|done]. destruct (denote_refines opaque_eval env e s v Hs Hb Hd) as (r & ? & ? & _). eauto.
Qed.

(** -3 / 2 at 64 bits, sign-extended to 128 bits and shifted right by two. *)
Definition demo_signed : SmtExpr :=
  BvAshr (SignExtend (BvSDiv (Var "a" 64) (Var "b" 64) 64) 64 128)
    (ZeroExtend (Var "b" 64) 64 128) 128.

Lemma eval_refines_smtlib_witness :
  denote demo_env demo_signed = Some (DBv (2 ^ 128 - 1)) /\
  exists r, result (BitVec 128) (DBv (2 ^ 128 - 1)) = Some r /\
    try_eval (fun _ _ => SErr EvalError) demo_signed demo_env = SOk r.
Proof.
  split; [vm_compute; reflexivity|]. apply eval_refines_smtlib; [reflexivity|reflexivity| |vm_compute; reflexivity].
  by apply (demo_binds demo_signed).
Defined.

(** Above 64 bits comparisons read the low halves only, a variable is not equal to
    its own zero extension, and an extract drops its high half. *)
Example wide_departures :
  let ev e := try_eval (fun _ _ => SErr EvalError) e demo_env in
  let two64 := BvShl (BvConst 1 128) (BvConst 64 128) 128 in
  ev (BvUlt (BvConst 1 128) two64 128) = SOk (Bool false) /\
  ev (BvURem two64 (BvConst 3 128) 128) = SOk (Bv 0) /\
  ev (Eq (Var "b" 128) (ZeroExtend (Var "b" 64) 64 128)) = SOk (Bool false) /\
  ev (Extract 95 0 two64 96) = SOk (Bv 0) /\
  Forall (fun e => is_Some (smt_sort e) /\ carried e = false)
    [BvUlt (BvConst 1 128) two64 128; BvURem two64 (BvConst 3 128) 128;
     Eq (Var "b" 128) (ZeroExtend (Var "b" 64) 64 128); Extract 95 0 two64 96].
Proof. split_and!; try reflexivity. repeat constructor; eexists; reflexivity. Qed.

(** ** The hash behind memory loads *)

Definition xorshift (k z : Z) : Z := Z.lxor z (Z.shiftr z k).
Definition unxorshift (k z : Z) : Z := Z.lxor (Z.lxor z (Z.shiftr z k)) (Z.shiftr z (2 * k)).

Lemma xorshift_range k z : 0 <= k -> uword 64 z -> uword 64 (xorshift k z) /\ uword 64 (unxorshift k z).
Proof.
  intros Hk Hz. unfold xorshift, unxorshift.
  split; repeat (apply uword_lxor; [lia| |]); try done; apply uword_shr; (done || lia).
Qed.

Lemma xorshift_inverse k z :
  22 <= k -> uword 64 z -> unxorshift k (xorshift k z) = z /\ xorshift k (unxorshift k z) = z.
Proof.
  intros Hk Hz. unfold xorshift, unxorshift. split; apply Z.bits_inj'; intros i Hi;
    repeat (rewrite ?Z.lxor_spec, ?Z.shiftr_spec by lia);
    replace (i + k + k) with (i + 2 * k) by lia; replace (i + 2 * k + k) with (i + 3 * k) by lia;
    try replace (i + k + 2 * k) with (i + 3 * k) by lia;
    rewrite (testbit_high 64 z (i + 3 * k)) by (done || lia);
    destruct (Z.testbit z i), (Z.testbit z (i + k)), (Z.testbit z (i + 2 * k)); reflexivity.
Qed.

(** The two multipliers are odd; their inverses modulo 2^64. *)
Definition unmix (v : Z) : Z :=
  let z := unxorshift 31 v in
  let z := unxorshift 27 (wrap 64 (z * 0x319642b2d24d8ec3)) in
  let z := unxorshift 30 (wrap 64 (z * 0x96de1b173f119089)) in
  wrap 64 (z - 0x9e3779b97f4a7c15).

Lemma mul_inverse c d z : uword 64 z -> wrap 64 (c * d) = 1 -> wrap 64 (wrap 64 (z * c) * d) = z.
Proof.
  intros Hz Hc. rewrite wrap_mul_l, <- Z.mul_assoc, <- wrap_mul_r, Hc, Z.mul_1_r. by apply wrap_small.
Qed.

Lemma mix_eq a :
  mem_load_mix a =
  xorshift 31 (wrap 64 (xorshift 27 (wrap 64 (xorshift 30 (wrap 64 (a + 0x9e3779b97f4a7c15))
    * 0xbf58476d1ce4e5b9)) * 0x94d049bb133111eb)).
Proof. reflexivity. Qed.

Lemma unmix_range v : uword 64 (unmix v).
Proof. apply wrap_range. lia. Qed.

Lemma mix_unmix v : uword 64 v -> mem_load_mix (unmix v) = v.
Proof.
  intros Hv. rewrite mix_eq. unfold unmix. cbv zeta. rewrite wrap_add_l, Z.sub_add.
  assert (Hw : forall n, uword 64 (wrap 64 n)) by (intros; apply wrap_range; lia).
  rewrite (wrap_small 64 (unxorshift 30 _)) by (apply xorshift_range; [lia|done]).
  rewrite (proj2 (xorshift_inverse 30 _ ltac:(lia) (Hw _))).
  rewrite mul_inverse by (reflexivity || (apply xorshift_range; [lia|done])).
  rewrite (proj2 (xorshift_inverse 27 _ ltac:(lia) (Hw _))).
  rewrite mul_inverse by (reflexivity || (apply xorshift_range; [lia|done])).
  by apply xorshift_inverse; [lia|].
Qed.

Lemma unmix_mix a : uword 64 a -> unmix (mem_load_mix a) = a.
Proof.
  intros Ha. rewrite mix_eq. unfold unmix. cbv zeta.
  assert (Hw : forall n, uword 64 (wrap 64 n)) by (intros; apply wrap_range; lia).
  rewrite (proj1 (xorshift_inverse 31 _ ltac:(lia) (Hw _))).
  rewrite mul_inverse by (reflexivity || (apply xorshift_range; [lia|done])).
  rewrite (proj1 (xorshift_inverse 27 _ ltac:(lia) (Hw _))).
  rewrite mul_inverse by (reflexivity || (apply xorshift_range; [lia|done])).
  rewrite (proj1 (xorshift_inverse 30 _ ltac:(lia) (Hw _))).
  rewrite wrap_sub_l, Z.add_simpl_r. by apply wrap_small.
Qed.

(** [mem_load_mix], the contents function behind [MemLoad], is a bijection of
    the 64-bit words: every word is the contents of exactly one address, so two
    addresses that differ give different full-width loads. *)
Theorem mem_load_mix_bijective v :
  uword 64 v -> exists! a, uword 64 a /\ mem_load_mix a = v.
Proof.
  intros Hv. exists (unmix v). split; [split; [apply unmix_range|by apply mix_unmix]|].
  intros a [Ha <-]. by apply unmix_mix.
Qed.

Lemma mem_load_mix_bijective_witness :
  exists! a, uword 64 a /\ mem_load_mix a = 0xDEADBEEF.
Proof. apply mem_load_mix_bijective. unfold uword. lia. Defined.

(** A narrow load is not injective in its address. *)
Example narrow_loads_collide :
  let load a := eval_mem_load (Bv a) 8 false 64 in
  load 0 = Bv 0xAF /\ load 71 = Bv 0xAF.
Proof. split; reflexivity. Qed.
