(* ===== verification/SatBlastSound.v ===== *)
(** * The blasted miter means what the obligation means

    Satisfaction of clauses, exactness of the gate encodings, and the fidelity of
    [blast_equivalence_miter] ([crates/trust-cg-verify/src/sat_blast.rs]): the
    miter is unsatisfiable exactly when the interpreter gives both sides of the
    obligation the same value on every input. *)

From S2P Require Import Prelude Smt SmtEquiv SmtSem SatBlast.
Local Open Scope Z_scope.

(** ** Assignments *)

Definition lval (A : Z -> bool) (l : Z) : bool := if 0 <? l then A l else negb (A (- l)).
Definition bval (A : Z -> bool) (x : Bit) : bool :=
  match x with Const b => b | Lit l => lval A l end.

Definition clause_sat (A : Z -> bool) (c : list Z) : bool := existsb (lval A) c.
Definition sat (A : Z -> bool) (cs : list (list Z)) : Prop :=
  forall c, c ∈ cs -> clause_sat A c = true.

Lemma lval_opp A l : l <> 0 -> lval A (- l) = negb (lval A l).
Proof.
  intros Hl. unfold lval. destruct (Z.ltb_spec 0 l), (Z.ltb_spec 0 (- l)); try lia.
  - by rewrite Z.opp_involutive.
  - by rewrite negb_involutive.
Qed.

Lemma sat_app A cs cs' : sat A (cs ++ cs') <-> sat A cs /\ sat A cs'.
Proof.
  split.
  - intros H. split; intros c Hc; apply H, elem_of_app; tauto.
  - intros [H1 H2] c [Hc|Hc]%elem_of_app; auto.
Qed.

Lemma sat_cons A c cs : sat A (c :: cs) <-> clause_sat A c = true /\ sat A cs.
Proof.
  split.
  - intros H. split; [|intros c' Hc']; apply H; [by left|by right].
  - intros [H1 H2] c' [->|Hc']%elem_of_cons; auto.
Qed.

Lemma sat_nil A : sat A [].
Proof. by intros c []%not_elem_of_nil. Qed.

(** A list of clauses is satisfied as a boolean. *)
Lemma sat_forallb A cs : sat A cs <-> forallb (clause_sat A) cs = true.
Proof.
  rewrite forallb_forall. unfold sat. split; intros H c Hc; apply H; by apply list_elem_of_In.
Qed.

Lemma neg1_mul x : -1 * x = - x.
Proof. lia. Qed.

(** The CNF of a gate is its truth table. *)
Lemma gate_cnf A k o ins cs :
  canonical_gate_clauses k o ins = Some cs -> o <> 0 -> Forall (fun l => l <> 0) ins ->
  sat A cs <-> gate_eval k (lval A <$> ins) = Some (lval A o).
Proof.
  intros Hc Ho Hi. rewrite sat_forallb.
  destruct k, ins as [|a [|b [|c [|d ins]]]]; try discriminate Hc; cbn in Hc; injection Hc as <-;
    repeat match goal with H : Forall _ (_ :: _) |- _ => apply Forall_cons in H as [? H] end;
    unfold clause_sat; cbn [forallb existsb fmap list_fmap gate_eval].
  all: change (- (1)) with (-1); change (- (-1)) with 1.
  all: rewrite ?neg1_mul, ?Z.mul_1_l.
  all: rewrite !lval_opp by assumption.
  all: destruct (lval A o), (lval A a), (lval A b); try destruct (lval A c).
  all: cbn; split; congruence.
Qed.

(** ** Numbers as bit lists, least significant first *)

Fixpoint bits_val (l : list bool) : Z :=
  match l with [] => 0 | b :: r => Z.b2z b + 2 * bits_val r end.

Lemma bits_val_range l : uword (Z.of_nat (length l)) (bits_val l).
Proof.
  unfold uword. induction l as [|b l IH]; cbn [bits_val length]; [done|].
  rewrite Nat2Z.inj_succ, Z.pow_succ_r by lia. destruct b; cbn [Z.b2z]; lia.
Qed.

Lemma bits_val_inj l l' : length l = length l' -> bits_val l = bits_val l' -> l = l'.
Proof.
  revert l'. induction l as [|b l IH]; intros [|b' l'] Hlen; try done. cbn [bits_val]. intros H.
  assert (Z.b2z b = Z.b2z b' /\ bits_val l = bits_val l') as [Hb Hr]
    by (destruct b, b'; cbn [Z.b2z] in *; lia).
  f_equal; [by apply Z.b2z_inj|]. apply IH; [by injection Hlen|done].
Qed.

Lemma bits_val_negb l : bits_val (negb <$> l) = 2 ^ Z.of_nat (length l) - 1 - bits_val l.
Proof.
  induction l as [|b l IH]; [done|]. rewrite fmap_cons. cbn [bits_val length]. rewrite IH.
  rewrite Nat2Z.inj_succ, Z.pow_succ_r by lia. destruct b; cbn [Z.b2z negb]; lia.
Qed.

Lemma bits_val_zeros n : bits_val (replicate n false) = 0.
Proof. induction n as [|n IH]; [done|]. cbn [replicate bits_val]. rewrite IH. done. Qed.

(** The bits of a number. *)
Lemma bits_val_testbit n v : 0 <= v ->
  bits_val ((fun i => Z.testbit v (Z.of_nat i)) <$> seq 0 n) = v mod 2 ^ Z.of_nat n.
Proof.
  revert v. induction n as [|n IH]; intros v Hv; [by rewrite Z.mod_1_r|].
  rewrite <- cons_seq, fmap_cons. cbn [bits_val].
  rewrite <- fmap_S_seq, <- list_fmap_compose.
  rewrite (list_fmap_ext _ (fun i => Z.testbit (v / 2) (Z.of_nat i)) (seq 0 n)).
  - rewrite IH by (apply Z.div_pos; lia). rewrite Nat2Z.inj_succ, Z.pow_succ_r by lia.
    rewrite Z.rem_mul_r by (pose proof (pow2_pos (Z.of_nat n)); lia).
    rewrite Z.bit0_odd, Zmod_odd. by destruct (Z.odd v).
  - intros i x Hx. unfold compose. rewrite <- Z.div2_div, Z.div2_spec, Z.shiftr_spec by lia.
    f_equal. lia.
Qed.

(** One column of an addition. *)
Lemma adder_column a b c X Y n :
  (Z.b2z a + 2 * X + (Z.b2z b + 2 * Y) + Z.b2z c) mod 2 ^ Z.of_nat (S n) =
  Z.b2z (xorb (xorb a b) c) +
  2 * ((X + Y + Z.b2z ((a && b) || (a && c) || (b && c))) mod 2 ^ Z.of_nat n).
Proof.
  rewrite Nat2Z.inj_succ, Z.pow_succ_r by lia. pose proof (pow2_pos (Z.of_nat n) ltac:(lia)).
  set (p := 2 ^ Z.of_nat n) in *.
  assert (Hcol : forall r M, 0 <= r < 2 -> (r + 2 * M) mod (2 * p) = r + 2 * (M mod p)).
  { intros r M Hr. rewrite Z.rem_mul_r by lia. replace (r + 2 * M) with (r + M * 2) by lia.
    rewrite Z_mod_plus_full, Z.div_add, (Z.mod_small r), (Z.div_small r) by lia. done. }
  destruct a, b, c; cbn [xorb andb orb Z.b2z]; rewrite <- Hcol by lia; f_equal; lia.
Qed.

Lemma testbit_succ_b2z a X i : 0 <= i -> Z.testbit (Z.b2z a + 2 * X) (Z.succ i) = Z.testbit X i.
Proof.
  intros Hi. destruct a; cbn [Z.b2z].
  - rewrite Z.add_comm. by apply Z.testbit_odd_succ.
  - rewrite Z.add_0_l. by apply Z.testbit_even_succ.
Qed.

(** Bitwise operations act on the columns. *)
Lemma bits_val_zip (f : bool -> bool -> bool) (g : Z -> Z -> Z) x y :
  (forall a b i, Z.testbit (g a b) i = f (Z.testbit a i) (Z.testbit b i)) ->
  f false false = false -> length x = length y ->
  bits_val (zip_with f x y) = g (bits_val x) (bits_val y).
Proof.
  intros Hg Hf. revert y. induction x as [|a x IH]; intros [|b y] Hlen; try done.
  - cbn. symmetry. apply Z.bits_inj'. intros i Hi. by rewrite Hg, !Z.bits_0.
  - cbn [zip_with bits_val]. rewrite IH by (by injection Hlen). symmetry. apply Z.bits_inj'.
    intros i Hi. rewrite Hg. destruct (Z.eq_dec i 0) as [->|Hne].
    + rewrite !Z.add_b2z_double_bit0. done.
    + replace i with (Z.succ (i - 1)) by lia. rewrite !testbit_succ_b2z by lia. symmetry. apply Hg.
Qed.

Lemma canonical_some k o ins :
  length ins = arity k -> exists cs, canonical_gate_clauses k o ins = Some cs.
Proof. destruct k, ins as [|a [|b [|c [|d ins]]]]; try discriminate; intros _; eexists; reflexivity. Qed.

Lemma gate_eval_some k l : length l = arity k -> exists v, gate_eval k l = Some v.
Proof. destruct k, l as [|a [|b [|c [|d l]]]]; try discriminate; intros _; eexists; reflexivity. Qed.

Lemma clause_sat_ext A A' c : (forall l, l ∈ c -> lval A l = lval A' l) -> clause_sat A c = clause_sat A' c.
Proof.
  unfold clause_sat. induction c as [|l c IH]; intros H; [done|]. cbn [existsb].
  rewrite (H l) by (by left). f_equal. apply IH. intros l' Hl'. apply H. by right.
Qed.

(** ** Entailment by enumeration *)

Section Entailment.
Context (k : GateKind) (o : Z) (ins : list Z).
Context (Hlen : length ins = arity k) (Hnz : Forall (fun l => l <> 0) (o :: ins)).

Lemma dedup_vars_elem seen l v :
  v ∈ dedup_vars seen l <-> v ∈ seen \/ exists x, x ∈ l /\ v = Z.abs x.
Proof.
  revert seen. induction l as [|y l IH]; intros seen; cbn [dedup_vars].
  { split; [by left|]. intros [?|(x & []%not_elem_of_nil & _)]. done. }
  rewrite IH. setoid_rewrite elem_of_cons. destruct (bool_decide_reflect (Z.abs y ∈ seen)).
  - split; [naive_solver|]. intros [?|(x & [->|?] & ->)]; eauto.
  - rewrite elem_of_app, list_elem_of_singleton. naive_solver.
Qed.

Lemma dedup_vars_pos : Forall (fun v => 0 < v) (dedup_vars [] (o :: ins)).
Proof.
  apply Forall_forall. intros v [[]%not_elem_of_nil|(x & Hx & ->)]%dedup_vars_elem.
  rewrite Forall_forall in Hnz. specialize (Hnz x Hx). lia.
Qed.

Lemma var_position_elem vars v : v ∈ vars -> exists i, var_position vars v = Some i /\ vars !! i = Some v.
Proof.
  induction vars as [|x vars IH]; [by intros []%not_elem_of_nil|]. cbn [var_position].
  destruct (Z.eqb_spec x v) as [->|Hne]; [exists 0%nat; done|].
  intros [->|Hin]%elem_of_cons; [done|]. destruct (IH Hin) as (i & -> & Hi). exists (S i). done.
Qed.

(** The assignment numbered [m], and the number of an assignment. *)
Definition numbered (vars : list Z) (m : Z) : Z -> bool := fun v =>
  match var_position vars v with Some i => Z.testbit m (Z.of_nat i) | None => false end.

Lemma mask_val_numbered vars m l :
  l <> 0 -> Z.abs l ∈ vars -> mask_val vars m l = Some (lval (numbered vars m) l).
Proof.
  intros Hl Hin. unfold mask_val, lval, numbered.
  destruct (var_position_elem _ _ Hin) as (i & Hi & _). rewrite Hi. cbn.
  destruct (Z.ltb_spec 0 l); [rewrite Z.abs_eq in Hi by lia|rewrite Z.abs_neq in Hi by lia]; by rewrite Hi.
Qed.

Lemma testbit_bits_val l i b : l !! i = Some b -> Z.testbit (bits_val l) (Z.of_nat i) = b.
Proof.
  revert i. induction l as [|x l IH]; intros [|i] H; try discriminate H; cbn [bits_val].
  - injection H as <-. apply Z.add_b2z_double_bit0.
  - rewrite Nat2Z.inj_succ, testbit_succ_b2z by lia. by apply IH.
Qed.

Lemma numbered_of A vars v : v ∈ vars -> numbered vars (bits_val (A <$> vars)) v = A v.
Proof.
  intros Hin. unfold numbered. destruct (var_position_elem _ _ Hin) as (i & -> & Hi).
  apply testbit_bits_val. by rewrite list_lookup_fmap, Hi.
Qed.

Lemma lval_numbered_of A vars l :
  l <> 0 -> Z.abs l ∈ vars -> lval (numbered vars (bits_val (A <$> vars))) l = lval A l.
Proof.
  intros Hl Hin. unfold lval. destruct (Z.ltb_spec 0 l).
  - apply numbered_of. by rewrite Z.abs_eq in Hin by lia.
  - f_equal. apply numbered_of. by rewrite Z.abs_neq in Hin by lia.
Qed.

Abbreviation vars := (dedup_vars [] (o :: ins)).

Lemma gate_vars l : l ∈ o :: ins -> l <> 0 /\ Z.abs l ∈ vars.
Proof.
  intros Hl. split; [rewrite Forall_forall in Hnz; by apply Hnz|]. apply dedup_vars_elem. eauto.
Qed.

(** The relation at [A], and the entailment at [A]. *)
Definition entails_at (clause : list Z) (A : Z -> bool) : Prop :=
  gate_eval k (lval A <$> ins) = Some (lval A o) -> clause_sat A clause = true.

Lemma any_lit_sat clause m :
  Forall (fun l => l <> 0 /\ Z.abs l ∈ vars) clause ->
  any_lit (mask_val vars m) clause = Some (clause_sat (numbered vars m) clause).
Proof.
  induction 1 as [|l c [Hl Hin] _ IH]; [done|]. cbn [any_lit].
  rewrite mask_val_numbered by done. cbn [mbind option_bind]. rewrite IH.
  unfold clause_sat. cbn [existsb]. by destruct (lval (numbered vars m) l).
Qed.

Lemma entailed_from_iff clause n m :
  Forall (fun l => l <> 0 /\ Z.abs l ∈ vars) clause ->
  entailed_from vars clause k o ins n m = Some true <->
  forall m', m <= m' < m + Z.of_nat n -> entails_at clause (numbered vars m').
Proof.
  intros Hc. revert m. induction n as [|n IH]; intros m; cbn [entailed_from].
  { split; [intros _ m' Hm'; lia|done]. }
  assert (Hins : mapM (mask_val vars m) ins = Some (lval (numbered vars m) <$> ins)).
  { apply mapM_Some, Forall2_fmap_r, Forall_Forall2_diag, Forall_forall. intros l Hl.
    destruct (gate_vars l) as [? ?]; [by right|]. by apply mask_val_numbered. }
  destruct (gate_vars o) as [? ?]; [by left|].
  destruct (gate_eval_some k (lval (numbered vars m) <$> ins)) as [vk Hvk]; [by rewrite length_fmap|].
  rewrite Hins. cbn [mbind option_bind]. rewrite mask_val_numbered by done. cbn [mbind option_bind].
  rewrite Hvk. cbn [mbind option_bind].
  assert (Hsplit : (forall m', m <= m' < m + Z.of_nat (S n) -> entails_at clause (numbered vars m')) <->
    entails_at clause (numbered vars m) /\
    (forall m', m + 1 <= m' < m + 1 + Z.of_nat n -> entails_at clause (numbered vars m'))).
  { split; [intros Ha; split; [|intros]; apply Ha; lia|]. intros [H1 H2] m' Hm'.
    destruct (Z.eq_dec m' m) as [->|]; [done|]. apply H2. lia. }
  rewrite Hsplit, <- IH. unfold entails_at at 1. rewrite Hvk.
  destruct (eqb_spec (lval (numbered vars m) o) vk) as [<-|Hne]; cbn [negb].
  - rewrite any_lit_sat by done. cbn. destruct (clause_sat _ clause); [naive_solver|].
    split; [done|]. intros [H1 _]. by specialize (H1 eq_refl).
  - split; [|tauto]. intros Ht. split; [|done]. intros E. by injection E as ->.
Qed.

(** The check decides entailment over all assignments. *)
Lemma clause_entailed_iff clause :
  Forall (fun l => l <> 0) clause ->
  clause_entailed_by_gate clause k o ins = Some true <->
  (forall l, l ∈ clause -> Z.abs l ∈ Z.abs <$> (o :: ins)) /\ forall A, entails_at clause A.
Proof.
  intros Hc0. unfold clause_entailed_by_gate. rewrite bool_decide_eq_true_2 by done. cbn [negb].
  assert (Hv : forall v, v ∈ vars <-> v ∈ Z.abs <$> (o :: ins)).
  { intros v. rewrite dedup_vars_elem, list_elem_of_fmap. split; [|naive_solver].
    intros [[]%not_elem_of_nil|(x & ? & ->)]. eauto. }
  destruct (existsb _ clause) eqn:Ex.
  - apply existsb_exists in Ex as (l & Hl & Hn). apply negb_true_iff, bool_decide_eq_false in Hn.
    split; [done|]. intros [Hall _]. exfalso. apply Hn, Hv, Hall. by apply list_elem_of_In.
  - assert (Hc : Forall (fun l => l <> 0 /\ Z.abs l ∈ vars) clause).
    { apply Forall_forall. intros l Hl. split; [rewrite Forall_forall in Hc0; by apply Hc0|].
      destruct (bool_decide_reflect (Z.abs l ∈ vars)) as [|Hn]; [done|].
      rewrite <- not_true_iff_false in Ex. exfalso. apply Ex, existsb_exists. exists l.
      split; [by apply list_elem_of_In|]. by rewrite bool_decide_eq_false_2. }
    rewrite entailed_from_iff by done. rewrite Forall_forall in Hc. split.
    + intros Hall. split; [intros l Hl; by apply Hv, Hc|]. intros A HA.
      set (A' := numbered vars (bits_val (A <$> vars))).
      assert (Hext : forall l, l ∈ o :: ins -> lval A' l = lval A l)
        by (intros l [? ?]%gate_vars; by apply lval_numbered_of).
      rewrite <- (clause_sat_ext A' A clause) by (intros l [? ?]%Hc; by apply lval_numbered_of).
      apply Hall.
      * pose proof (bits_val_range (A <$> vars)) as Hr. rewrite length_fmap in Hr.
        rewrite Nat2Z.inj_pow. exact Hr.
      * rewrite Hext by (by left). rewrite <- HA. f_equal. apply list_fmap_ext.
        intros i l Hl. apply Hext. right. by eapply list_elem_of_lookup_2.
    + intros [_ Hall] m' _. apply Hall.
Qed.

End Entailment.

(** ** Growth of the clause list *)

Definition lit_ok (b : Blaster) (l : Z) : Prop := 1 <= Z.abs l <= next_var b.
Definition bit_ok (b : Blaster) (x : Bit) : Prop :=
  match x with Const _ => True | Lit l => lit_ok b l end.

(** Literals are variables allocated so far. *)
Definition wf (b : Blaster) : Prop :=
  0 <= next_var b /\ Forall (Forall (lit_ok b)) (clauses b).

(** The clauses a gate contributes, and the tagged clauses of a list of gates. *)
Definition gate_clauses (g : GateRecord) : list (list Z) :=
  default [] (canonical_gate_clauses (kind g) (out g) (ins g)).

Fixpoint entries (start : nat) (gs : list GateRecord) : list (list Z * option nat) :=
  match gs with
  | [] => []
  | g :: gs' => ((fun c => (c, Some start)) <$> gate_clauses g) ++ entries (S start) gs'
  end.

Lemma entries_app start gs gs' :
  entries start (gs ++ gs') = entries start gs ++ entries (start + length gs) gs'.
Proof.
  revert start. induction gs as [|g gs IH]; intros start; cbn.
  - by rewrite Nat.add_0_r.
  - rewrite IH, <- app_assoc. do 3 f_equal. lia.
Qed.

(** The clauses and tags are those of the recorded gates, whose outputs are distinct
    allocated variables. *)
Record coherent (b : Blaster) : Prop := {
  co_clauses : clauses b = (entries 0 (gates b)).*1;
  co_tags : clause_tags b = (entries 0 (gates b)).*2;
  co_gates : Forall (fun g => length (ins g) = arity (kind g) /\ 1 <= out g <= next_var b) (gates b);
  co_outs : NoDup (out <$> gates b);
}.

Definition agree (n : Z) (A A' : Z -> bool) : Prop := forall v, 1 <= v <= n -> A v = A' v.

(** From [b] to [b'], at most [n] variables were allocated and clauses were added
    that every assignment of the old variables extends to satisfy. *)
Record grows (b b' : Blaster) (n : Z) : Prop := {
  grows_wf : wf b';
  grows_next : next_var b <= next_var b' <= next_var b + n;
  grows_clauses : exists new, clauses b' = clauses b ++ new;
  grows_extend : forall A, sat A (clauses b) ->
    exists A', agree (next_var b) A A' /\ sat A' (clauses b');
  grows_coherent : coherent b -> coherent b';
}.

Lemma lval_agree n A A' l : agree n A A' -> 1 <= Z.abs l <= n -> lval A l = lval A' l.
Proof.
  intros H Hl. unfold lval. destruct (Z.ltb_spec 0 l); [apply H; lia|]. f_equal. apply H. lia.
Qed.

Lemma bval_agree b A A' x : agree (next_var b) A A' -> bit_ok b x -> bval A x = bval A' x.
Proof. destruct x; [done|]. intros H Hl. by apply (lval_agree (next_var b)). Qed.

Lemma sat_agree b A A' : wf b -> agree (next_var b) A A' -> sat A (clauses b) -> sat A' (clauses b).
Proof.
  intros [_ Hc] Ha Hs c Hin. specialize (Hs c Hin). rewrite Forall_forall in Hc.
  specialize (Hc c Hin). unfold clause_sat in *. apply existsb_exists in Hs as (l & Hl & Hv).
  apply existsb_exists. exists l. split; [done|]. rewrite <- Hv. symmetry.
  apply (lval_agree (next_var b)); [done|]. rewrite Forall_forall in Hc. apply Hc.
  by apply list_elem_of_In.
Qed.

Lemma grows_refl b : wf b -> grows b b 0.
Proof. intros Hwf. split; [done|lia|by exists []; rewrite app_nil_r| |done]. intros A HA. by exists A. Qed.

Lemma agree_trans n m A B C : n <= m -> agree n A B -> agree m B C -> agree n A C.
Proof. intros Hnm H1 H2 v Hv. rewrite H1 by done. apply H2. lia. Qed.

Lemma grows_trans b b1 b2 n1 n2 : grows b b1 n1 -> grows b1 b2 n2 -> grows b b2 (n1 + n2).
Proof.
  intros H1 H2. split.
  - apply H2.
  - pose proof (grows_next _ _ _ H1). pose proof (grows_next _ _ _ H2). lia.
  - destruct (grows_clauses _ _ _ H1) as [c1 E1], (grows_clauses _ _ _ H2) as [c2 E2].
    exists (c1 ++ c2). by rewrite E2, E1, app_assoc.
  - intros A HA. destruct (grows_extend _ _ _ H1 A HA) as (A1 & Ha1 & Hs1).
    destruct (grows_extend _ _ _ H2 A1 Hs1) as (A2 & Ha2 & Hs2). exists A2. split; [|done].
    eapply agree_trans; [|done|done]. pose proof (grows_next _ _ _ H1). lia.
  - intros Hc. by apply (grows_coherent _ _ _ H2), (grows_coherent _ _ _ H1).
Qed.

Lemma grows_sat b b' n A : grows b b' n -> sat A (clauses b') -> sat A (clauses b).
Proof. intros Hg. destruct (grows_clauses _ _ _ Hg) as [new ->]. rewrite sat_app. tauto. Qed.

Lemma grows_bit b b' n x : grows b b' n -> bit_ok b x -> bit_ok b' x.
Proof.
  intros Hg. destruct x; [done|]. unfold bit_ok, lit_ok. pose proof (grows_next _ _ _ Hg). lia.
Qed.

(** ** Specifications of blaster computations

    [spec b n E m P]: from [b], with room for [n] more variables, [m] does not
    panic, errs only if [E], and otherwise grows the clauses and establishes [P]. *)
Definition spec {X} (b : Blaster) (n : Z) (E : Prop) (m : B X) (P : X -> Blaster -> Prop) : Prop :=
  wf b -> next_var b + n < 2 ^ 31 ->
  match m b with
  | ROk (x, b') => grows b b' n /\ P x b'
  | RErr _ => E
  | RPanic => False
  end.

Lemma spec_ret {X} b E (x : X) (P : X -> Blaster -> Prop) : P x b -> spec b 0 E (mret x) P.
Proof. intros HP Hwf _. split; [by apply grows_refl|done]. Qed.

Lemma spec_weaken {X} b n n' (E E' : Prop) (m : B X) (P P' : X -> Blaster -> Prop) :
  spec b n E m P -> n <= n' -> (E -> E') -> (forall x b', grows b b' n -> P x b' -> P' x b') ->
  spec b n' E' m P'.
Proof.
  intros Hs Hn HE HP Hwf Hr. specialize (Hs Hwf ltac:(lia)).
  destruct (m b) as [[x b']| |]; [|auto|done]. destruct Hs as [Hg Hx]. split; [|by apply HP].
  destruct Hg. split; try done. lia.
Qed.

Lemma spec_bind {X Y} b n1 n2 E (m : B X) (k : X -> B Y) P Q :
  spec b n1 E m P -> 0 <= n2 ->
  (forall x b1, grows b b1 n1 -> P x b1 -> spec b1 n2 E (k x) Q) ->
  spec b (n1 + n2) E (m ≫= k) Q.
Proof.
  intros Hm Hn Hk Hwf Hr. unfold mbind, B_bind. specialize (Hm Hwf ltac:(lia)).
  destruct (m b) as [[x b1]| |]; [|done|done]. destruct Hm as [Hg Hx].
  pose proof (grows_next _ _ _ Hg). specialize (Hk x b1 Hg Hx (grows_wf _ _ _ Hg) ltac:(lia)).
  destruct (k x b1) as [[y b2]| |]; [|done|done]. destruct Hk as [Hg2 Hy].
  split; [by eapply grows_trans|done].
Qed.

(** A pure step after a computation. *)
Lemma spec_map {X Y} b n E (m : B X) (f : X -> Y) P (Q : Y -> Blaster -> Prop) :
  spec b n E m P -> (forall x b', grows b b' n -> P x b' -> Q (f x) b') ->
  spec b n E (x ← m; mret (f x)) Q.
Proof.
  intros Hm HQ. replace n with (n + 0) by lia. eapply spec_bind; [exact Hm|lia|].
  intros x b1 Hg Hx. apply spec_ret. by apply HQ.
Qed.

(** [x] is a bit of [b] whose value is [f]. *)
Definition denotes (x : Bit) (b : Blaster) (f : (Z -> bool) -> bool) : Prop :=
  bit_ok b x /\ forall A, sat A (clauses b) -> bval A x = f A.

Lemma bval_negate A b x : bit_ok b x -> bval A (negate x) = negb (bval A x).
Proof. destruct x as [|l]; [done|]. cbn. unfold lit_ok. intros. apply lval_opp. lia. Qed.

Lemma bit_ok_negate b x : bit_ok b x -> bit_ok b (negate x).
Proof. destruct x as [|l]; [done|]. cbn. unfold lit_ok. lia. Qed.

Lemma denotes_negate x b f : denotes x b f -> denotes (negate x) b (fun A => negb (f A)).
Proof.
  intros [Hok Hf]. split; [by apply bit_ok_negate|]. intros A HA.
  by rewrite (bval_negate A b), Hf by done.
Qed.

Lemma denotes_self x b : bit_ok b x -> denotes x b (fun A => bval A x).
Proof. by split. Qed.

Lemma denotes_ext x b f g :
  denotes x b f -> (forall A, sat A (clauses b) -> f A = g A) -> denotes x b g.
Proof. intros [Hok Hf] Hfg. split; [done|]. intros A HA. by rewrite Hf, Hfg. Qed.

(** ** Gates *)

(** The literals of a gate's clauses are those of the gate. *)
Lemma canonical_lits k o ins cs c l :
  canonical_gate_clauses k o ins = Some cs -> c ∈ cs -> l ∈ c ->
  exists l', l' ∈ o :: ins /\ Z.abs l = Z.abs l'.
Proof.
  intros Hc Hin Hl.
  destruct k, ins as [|x [|y [|z [|d ins]]]]; try discriminate Hc; cbn in Hc; injection Hc as <-;
    repeat (apply elem_of_cons in Hin as [->|Hin]; [
      repeat (apply elem_of_cons in Hl as [->|Hl];
        [solve [ exists o; split; [set_solver|lia] | exists x; split; [set_solver|lia]
               | exists y; split; [set_solver|lia] | exists z; split; [set_solver|lia] ]|]);
      by apply not_elem_of_nil in Hl|]); by apply not_elem_of_nil in Hin.
Qed.

Lemma fresh_value b :
  0 <= next_var b -> next_var b + 1 < 2 ^ 31 ->
  fresh b = ROk (next_var b + 1,
    mkBlaster (next_var b + 1) (clauses b) (clause_tags b) (gates b) (bside b)).
Proof.
  intros H0 H1. unfold fresh. rewrite wrap_small by (unfold uword; lia).
  by rewrite swrap_small by (unfold sword; lia).
Qed.

(** Give a fresh variable a value. *)
Definition assign (A : Z -> bool) (v : Z) (x : bool) : Z -> bool := fun w => if w =? v then x else A w.

Lemma assign_agree A v x n : n < v -> agree n A (assign A v x).
Proof. intros Hn w Hw. unfold assign. by replace (w =? v) with false by lia. Qed.

Lemma lval_assign A v x : 0 < v -> lval (assign A v x) v = x.
Proof. intros Hv. unfold lval, assign. by rewrite Z.eqb_refl, (proj2 (Z.ltb_lt 0 v)). Qed.

Lemma push_gate_coherent b k ins cs :
  let o := next_var b + 1 in
  0 <= next_var b -> length ins = arity k -> canonical_gate_clauses k o ins = Some cs -> coherent b ->
  coherent (mkBlaster o (clauses b ++ cs)
    (clause_tags b ++ replicate (length cs) (Some (length (gates b))))
    (gates b ++ [mkGate (bside b) k o ins]) (bside b)).
Proof.
  intros o H0 Hlen Hcs [Hc Ht Hg Ho].
  assert (He : entries 0 (gates b ++ [mkGate (bside b) k o ins]) =
    entries 0 (gates b) ++ ((fun c => (c, Some (length (gates b)))) <$> cs)).
  { rewrite entries_app. cbn. unfold gate_clauses. cbn. rewrite Hcs. by rewrite app_nil_r. }
  split; cbn [clauses clause_tags gates next_var].
  - rewrite He, fmap_app, Hc. f_equal. rewrite <- list_fmap_compose. symmetry. apply list_fmap_id.
  - rewrite He, fmap_app, Ht. f_equal. rewrite <- list_fmap_compose. clear.
    induction cs as [|c cs IH]; [done|]. cbn. by rewrite IH.
  - apply Forall_app. split; [|apply Forall_singleton; cbn; lia].
    eapply Forall_impl; [exact Hg|]. cbn. lia.
  - rewrite fmap_app. cbn. apply NoDup_app. split_and!; [done| |apply NoDup_singleton].
    intros x Hx ->%list_elem_of_singleton. apply list_elem_of_fmap in Hx as (g & Hgo & Hin).
    rewrite Forall_forall in Hg. specialize (Hg g Hin). lia.
Qed.

(** After allocating [o] and pushing the gate. *)
Lemma push_gate_grows b k ins cs :
  let o := next_var b + 1 in
  let b' := mkBlaster o (clauses b ++ cs) (clause_tags b ++ replicate (length cs) (Some (length (gates b))))
              (gates b ++ [mkGate (bside b) k o ins]) (bside b) in
  wf b -> length ins = arity k -> Forall (lit_ok b) ins ->
  canonical_gate_clauses k o ins = Some cs -> grows b b' 1.
Proof.
  intros o b' Hwf Hlen Hins Hcs. destruct Hwf as [H0 Hc].
  assert (Hok : forall l, lit_ok b l -> lit_ok b' l) by (unfold lit_ok; cbn; lia).
  assert (Hlits : Forall (fun l => l <> 0) ins)
    by (eapply Forall_impl; [exact Hins|]; unfold lit_ok; intros; lia).
  split; [split|cbn; lia|by eexists| |].
  - cbn. lia.
  - cbn [clauses b']. apply Forall_app. split.
    + eapply Forall_impl; [exact Hc|]. intros c Hl. eapply Forall_impl; [exact Hl|]. auto.
    + apply Forall_forall. intros c Hcin. apply Forall_forall. intros l Hl.
      destruct (canonical_lits _ _ _ _ _ _ Hcs Hcin Hl) as (l' & Hl' & Habs).
      apply elem_of_cons in Hl' as [->|Hl']; [unfold lit_ok; cbn; lia|].
      rewrite Forall_forall in Hins. specialize (Hins l' Hl'). unfold lit_ok in *. cbn. lia.
  - intros A HA. destruct (gate_eval_some k (lval A <$> ins)) as [v Hv]; [by rewrite length_fmap|].
    exists (assign A o v). assert (Ha : agree (next_var b) A (assign A o v)) by (apply assign_agree; lia).
    split; [done|]. cbn [clauses b']. apply sat_app. split; [by apply (sat_agree b A)|].
    eapply gate_cnf; [exact Hcs|lia|done|]. rewrite lval_assign by lia. rewrite <- Hv. f_equal.
    apply list_fmap_ext. intros i l Hl. symmetry. apply (lval_agree (next_var b)); [done|].
    eapply Forall_lookup_1 in Hins; [|exact Hl]. exact Hins.
  - intros Hco. by apply push_gate_coherent.
Qed.

Lemma emit_gate_spec b E k ins :
  length ins = arity k -> Forall (lit_ok b) ins ->
  spec b 1 E (emit_gate k ins) (fun o b' => lit_ok b' o /\
    forall A, sat A (clauses b') -> gate_eval k (lval A <$> ins) = Some (lval A o)).
Proof.
  intros Hlen Hins Hwf Hr. destruct (Hwf) as [H0 _].
  destruct (canonical_some k (next_var b + 1) ins Hlen) as [cs Hcs].
  unfold emit_gate, mbind, B_bind. rewrite fresh_value by lia. unfold push_gate at 1. rewrite Hcs.
  cbn [next_var clauses clause_tags gates bside mret B_ret].
  split; [by apply push_gate_grows|]. split; [unfold lit_ok; cbn; lia|].
  intros A HA. cbn [clauses] in HA. apply sat_app in HA as [_ HA].
  eapply gate_cnf; [exact Hcs|lia| |done].
  eapply Forall_impl; [exact Hins|]. unfold lit_ok. intros; lia.
Qed.

(** The gate of two or three literals, as a bit. *)
Lemma gate_bit_spec b E k ins f :
  length ins = arity k -> Forall (lit_ok b) ins ->
  (forall A, gate_eval k (lval A <$> ins) = Some (f A)) ->
  spec b 1 E (o ← emit_gate k ins; mret (Lit o)) (fun r b' => denotes r b' f).
Proof.
  intros Hlen Hins Hf. eapply spec_map; [by apply emit_gate_spec|].
  intros o b' _ [Hok Ho]. split; [done|]. intros A HA. cbn. specialize (Ho A HA). rewrite Hf in Ho.
  by injection Ho as ->.
Qed.

(** No gate: the result is an operand, its negation or a constant. *)
Lemma fold_spec b E x f :
  bit_ok b x -> (forall A, bval A x = f A) -> spec b 1 E (mret x) (fun r b' => denotes r b' f).
Proof.
  intros Hok Hf. eapply spec_weaken; [apply spec_ret with (P := fun r b' => denotes r b' f)|lia|done|auto].
  split; [done|]. intros A _. apply Hf.
Qed.

Ltac fold_bit :=
  apply fold_spec; [first [done | by apply bit_ok_negate]|];
  let A := fresh "A" in
  intros A; rewrite ?(bval_negate A _ _) by eassumption; cbn [bval];
  rewrite ?xorb_false_l, ?xorb_false_r, ?xorb_true_l, ?xorb_true_r, ?andb_true_r, ?andb_false_r;
  reflexivity.

Ltac lits := repeat (apply Forall_cons_2; [assumption|]); apply Forall_nil_2.

Lemma xor2_spec b E x y :
  bit_ok b x -> bit_ok b y ->
  spec b 1 E (xor2 x y) (fun r b' => denotes r b' (fun A => xorb (bval A x) (bval A y))).
Proof.
  intros Hx Hy. destruct x as [[]|lx], y as [[]|ly]; cbn [xor2]; try fold_bit.
  apply gate_bit_spec; [done|lits|done].
Qed.

Lemma and2_spec b E x y :
  bit_ok b x -> bit_ok b y ->
  spec b 1 E (and2 x y) (fun r b' => denotes r b' (fun A => bval A x && bval A y)).
Proof.
  intros Hx Hy. destruct x as [[]|lx], y as [[]|ly]; cbn [and2]; try fold_bit.
  apply gate_bit_spec; [done|lits|done].
Qed.

Lemma negate_if_denotes a r b f : denotes r b f -> denotes (negate_if a r) b (fun A => xorb a (f A)).
Proof.
  intros H. destruct a; cbn [negate_if].
  - eapply denotes_ext; [by apply denotes_negate|]. by intros A _; rewrite xorb_true_l.
  - eapply denotes_ext; [exact H|]. by intros A _; rewrite xorb_false_l.
Qed.

Lemma xor3_spec b E x y z :
  bit_ok b x -> bit_ok b y -> bit_ok b z ->
  spec b 1 E (xor3 x y z) (fun r b' =>
    denotes r b' (fun A => xorb (xorb (bval A x) (bval A y)) (bval A z))).
Proof.
  assert (Hfold : forall c u v, bit_ok b u -> bit_ok b v ->
    spec b 1 E (r ← xor2 u v; mret (negate_if c r))
      (fun r b' => denotes r b' (fun A => xorb c (xorb (bval A u) (bval A v))))).
  { intros c u v Hu Hv. eapply spec_map; [by apply xor2_spec|]. intros r b' _ Hr.
    by apply negate_if_denotes. }
  intros Hx Hy Hz. unfold xor3.
  destruct x as [cx|lx]; [|destruct y as [cy|ly]; [|destruct z as [cz|lz]]].
  1-3: eapply spec_weaken; [by apply Hfold|lia|done|]; intros r b' _ Hr;
    eapply denotes_ext; [exact Hr|]; intros A _; cbn [bval].
  - by rewrite xorb_assoc.
  - by rewrite <- xorb_assoc, (xorb_comm cy).
  - apply xorb_comm.
  - apply gate_bit_spec; [done|lits|done].
Qed.

Lemma or2_spec b E x y :
  bit_ok b x -> bit_ok b y ->
  spec b 1 E (or2 x y) (fun r b' => denotes r b' (fun A => bval A x || bval A y)).
Proof.
  intros Hx Hy. unfold or2. eapply spec_map; [apply and2_spec; by apply bit_ok_negate|].
  intros r b' Hg Hr. eapply denotes_ext; [exact (denotes_negate _ _ _ Hr)|]. intros A _. cbn beta.
  rewrite !(bval_negate A b) by done. by destruct (bval A x), (bval A y).
Qed.

Lemma maj3_spec b E x y z :
  bit_ok b x -> bit_ok b y -> bit_ok b z ->
  spec b 1 E (maj3 x y z) (fun r b' => denotes r b' (fun A =>
    (bval A x && bval A y) || (bval A x && bval A z) || (bval A y && bval A z))).
Proof.
  assert (Ha : forall f u v, bit_ok b u -> bit_ok b v -> (forall A, bval A u && bval A v = f A) ->
    spec b 1 E (and2 u v) (fun r b' => denotes r b' f)).
  { intros f u v Hu Hv Hf. eapply spec_weaken; [by apply and2_spec|lia|done|]. intros r b' _ Hr.
    eapply denotes_ext; [exact Hr|]. intros A _. apply Hf. }
  assert (Ho : forall f u v, bit_ok b u -> bit_ok b v -> (forall A, bval A u || bval A v = f A) ->
    spec b 1 E (or2 u v) (fun r b' => denotes r b' f)).
  { intros f u v Hu Hv Hf. eapply spec_weaken; [by apply or2_spec|lia|done|]. intros r b' _ Hr.
    eapply denotes_ext; [exact Hr|]. intros A _. apply Hf. }
  intros Hx Hy Hz. unfold maj3.
  destruct x as [[]|lx], y as [[]|ly], z as [[]|lz];
    try (apply Ha; [done|done|]; intros A; cbn [bval]; try destruct (lval A lx); try destruct (lval A ly);
         try destruct (lval A lz); reflexivity);
    try (apply Ho; [done|done|]; intros A; cbn [bval]; try destruct (lval A lx); try destruct (lval A ly);
         try destruct (lval A lz); reflexivity).
  apply gate_bit_spec; [done|lits|done].
Qed.

(** ** Words of bits *)

Abbreviation word A x := (bits_val (bval A <$> x)).

(** [r] has [n] bits in [b] and the value [f]. *)
Record has_value (r : list Bit) (b : Blaster) (n : nat) (f : (Z -> bool) -> Z) : Prop := {
  hv_length : length r = n;
  hv_ok : Forall (bit_ok b) r;
  hv_value : forall A, sat A (clauses b) -> word A r = f A;
}.

Lemma grows_bits b b' n l : grows b b' n -> Forall (bit_ok b) l -> Forall (bit_ok b') l.
Proof. intros Hg Hl. eapply Forall_impl; [exact Hl|]. intros x. by apply (grows_bit b b' n). Qed.

Lemma has_value_cons x r b b' m n f g :
  denotes x b f -> grows b b' m -> has_value r b' n g ->
  has_value (x :: r) b' (S n) (fun A => Z.b2z (f A) + 2 * g A).
Proof.
  intros [Hx Hf] Hg [Hl Ho Hv]. split.
  - cbn. by rewrite Hl.
  - apply Forall_cons_2; [by eapply grows_bit|done].
  - intros A HA. rewrite fmap_cons. cbn [bits_val]. rewrite Hv by done.
    by rewrite Hf by (by eapply grows_sat).
Qed.

Lemma has_value_ext r b n f g :
  has_value r b n f -> (forall A, sat A (clauses b) -> f A = g A) -> has_value r b n g.
Proof. intros [Hl Ho Hv] Hfg. split; [done|done|]. intros A HA. by rewrite Hv, Hfg. Qed.

Lemma has_value_nil b : has_value [] b 0 (fun _ => 0).
Proof. by split. Qed.

Definition sum_value (x y : list Bit) (c : Bit) (A : Z -> bool) : Z :=
  (word A x + word A y + Z.b2z (bval A c)) mod 2 ^ Z.of_nat (length x).

(** What is added to the columns above the first. *)
Definition carry_value (a d c : Bit) (x y : list Bit) (A : Z -> bool) : Z :=
  (word A x + word A y + Z.b2z ((bval A a && bval A d) || (bval A a && bval A c) ||
     (bval A d && bval A c))) mod 2 ^ Z.of_nat (length x).

Lemma sum_value_cons a d c x y A :
  sum_value (a :: x) (d :: y) c A =
  Z.b2z (xorb (xorb (bval A a) (bval A d)) (bval A c)) + 2 * carry_value a d c x y A.
Proof. unfold sum_value. rewrite !fmap_cons. cbn [bits_val length]. by rewrite adder_column. Qed.

Lemma ripple_add_spec x y c b E :
  length x = length y -> Forall (bit_ok b) x -> Forall (bit_ok b) y -> bit_ok b c ->
  spec b (2 * Z.of_nat (length x)) E (ripple_add x y c)
    (fun r b' => has_value r b' (length x) (sum_value x y c)).
Proof.
  revert y c b. induction x as [|a x IH]; intros [|d y] c b Hlen Hx Hy Hc; try discriminate Hlen.
  { apply spec_ret. eapply has_value_ext; [apply has_value_nil|]. intros A _.
    unfold sum_value. cbn. by rewrite Z.mod_1_r. }
  apply Forall_cons in Hx as [Ha Hx]. apply Forall_cons in Hy as [Hd Hy]. injection Hlen as Hlen.
  cbn [ripple_add]. replace (2 * Z.of_nat (length (a :: x))) with (1 + (1 + 2 * Z.of_nat (length x)))
    by (cbn [length]; lia).
  eapply spec_bind; [by apply xor3_spec|lia|]. intros s b1 Hg1 Hs.
  eapply (spec_map _ _ _ _ _ (fun r b2 => has_value r b2 (length x) (carry_value a d c x y))).
  - destruct x as [|a' x'].
    + eapply spec_weaken; [apply (spec_ret _ _ _ (fun r b2 => r = []))|cbn; lia|exact id|]; [done|].
      intros r b2 _ ->. eapply has_value_ext; [apply has_value_nil|]. intros A _.
      unfold carry_value. cbn [length Z.of_nat]. by rewrite Z.mod_1_r.
    + eapply spec_bind; [apply maj3_spec; by eapply grows_bit|lia|]. intros c' b2 Hg2 [Hc' Hv].
      eapply spec_weaken; [apply IH|lia|exact id|]; try done.
      * by do 2 (eapply grows_bits; [eassumption|]).
      * by do 2 (eapply grows_bits; [eassumption|]).
      * intros r b3 Hg3 Hr. eapply has_value_ext; [exact Hr|]. intros A HA.
        unfold sum_value, carry_value. by rewrite Hv by (by eapply grows_sat).
  - intros r b2 Hg2 Hr. eapply has_value_ext; [eapply has_value_cons; [exact Hs|exact Hg2|exact Hr]|].
    intros A _. by rewrite sum_value_cons.
Qed.

Definition bitwise_bool (op : GateKind) : bool -> bool -> bool :=
  match op with And2 => andb | Xor2 => xorb | _ => orb end.
Definition bitwise_Z (op : GateKind) : Z -> Z -> Z :=
  match op with And2 => Z.land | Xor2 => Z.lxor | _ => Z.lor end.

Lemma bitwise_columns op x y :
  length x = length y ->
  bits_val (zip_with (bitwise_bool op) x y) = bitwise_Z op (bits_val x) (bits_val y).
Proof.
  intros Hlen. destruct op; apply bits_val_zip; try done; intros.
  - apply Z.lxor_spec.
  - apply Z.lor_spec.
  - apply Z.land_spec.
  - apply Z.lor_spec.
Qed.

Lemma bitwise_spec op x y b E :
  length x = length y -> Forall (bit_ok b) x -> Forall (bit_ok b) y ->
  spec b (Z.of_nat (length x)) E (bitwise op x y)
    (fun r b' => has_value r b' (length x) (fun A => bitwise_Z op (word A x) (word A y))).
Proof.
  intros Hlen Hx Hy.
  cut (spec b (Z.of_nat (length x)) E (bitwise op x y) (fun r b' => has_value r b' (length x)
    (fun A => bits_val (zip_with (bitwise_bool op) (bval A <$> x) (bval A <$> y))))).
  { intros Hs. eapply spec_weaken; [exact Hs|lia|exact id|]. intros r b' _ Hr.
    eapply has_value_ext; [exact Hr|]. intros A _. apply bitwise_columns. by rewrite !length_fmap. }
  revert y b Hlen Hx Hy. induction x as [|a x IH]; intros [|d y] b Hlen Hx Hy; try discriminate Hlen.
  { apply spec_ret, has_value_nil. }
  apply Forall_cons in Hx as [Ha Hx]. apply Forall_cons in Hy as [Hd Hy]. injection Hlen as Hlen.
  cbn [bitwise]. replace (Z.of_nat (length (a :: x))) with (1 + Z.of_nat (length x)) by (cbn [length]; lia).
  eapply (spec_bind _ _ _ _ _ _
    (fun r b1 => denotes r b1 (fun A => bitwise_bool op (bval A a) (bval A d)))); [|lia|].
  - destruct op; [by apply xor2_spec|by apply or2_spec|by apply and2_spec|by apply or2_spec].
  - intros r b1 Hg1 Hr. eapply spec_map; [apply IH; [done|by eapply grows_bits..]|].
    intros rest b2 Hg2 Hrest. eapply has_value_ext; [eapply has_value_cons; [exact Hr|exact Hg2|exact Hrest]|].
    done.
Qed.

(** ** Expressions *)

Definition env_ok (b : Blaster) (env : BitEnv) : Prop :=
  forall x bits, env !! x = Some bits -> Forall (bit_ok b) bits.

(** The input bits under [A] are the values of the inputs in [rho]. *)
Definition env_rel (env : BitEnv) (A : Z -> bool) (rho : EvalEnv) : Prop :=
  forall x bits, env !! x = Some bits ->
  exists v, env_get rho x = Some v /\ uword 64 v /\ word A bits = wrap (Z.of_nat (length bits)) v.

(** The expressions the blaster accepts. *)
Fixpoint blastable (env : BitEnv) (e : SmtExpr) : bool :=
  match e with
  | Var x w => match env !! x with Some bits => Z.of_nat (length bits) =? w | None => false end
  | BvConst _ _ => true
  | BvAdd l r _ | BvSub l r _ | BvAnd l r _ | BvOr l r _ | BvXor l r _ =>
      blastable env l && blastable env r
  | BvNeg o _ => blastable env o
  | _ => false
  end.

(** The variables a side of width [w] allocates, at most. *)
Fixpoint gate_bound (w : Z) (e : SmtExpr) : Z :=
  match e with
  | BvAdd l r _ | BvSub l r _ | BvAnd l r _ | BvOr l r _ | BvXor l r _ =>
      gate_bound w l + gate_bound w r + 2 * w
  | BvNeg o _ => gate_bound w o + 2 * w
  | _ => 0
  end.

Lemma gate_bound_pos w e : 0 <= w -> 0 <= gate_bound w e.
Proof. intros Hw. induction e; cbn [gate_bound]; lia. Qed.

Lemma env_ok_grows b b' n env : grows b b' n -> env_ok b env -> env_ok b' env.
Proof. intros Hg He x bits Hx. eapply grows_bits; [exact Hg|by eapply He]. Qed.

(** The bits of [e] at width [w]. *)
Record blasts (env : BitEnv) (e : SmtExpr) (w : Z) (r : list Bit) (b : Blaster) : Prop := {
  bl_length : Z.of_nat (length r) = w;
  bl_ok : Forall (bit_ok b) r;
  bl_vars : forall x, x ∈ collect_vars (fun _ => []) e -> is_Some (env !! x);
  bl_value : forall A rho, sat A (clauses b) -> env_rel env A rho ->
    denote rho e = Some (DBv (word A r));
}.

Lemma word_negate A b x : Forall (bit_ok b) x -> bval A <$> (negate <$> x) = negb <$> (bval A <$> x).
Proof.
  intros Hx. rewrite <- !list_fmap_compose. apply list_fmap_ext. intros i y Hy. cbn.
  apply (bval_negate A b). by eapply Forall_lookup_1.
Qed.

Lemma word_length A x : length (bval A <$> x) = length x.
Proof. apply length_fmap. Qed.

Lemma same_length_spec b E x y :
  length x = length y -> x <> [] -> spec b 0 E (same_length x y) (fun _ _ => True).
Proof.
  intros Hl Hn. unfold same_length. rewrite bool_decide_eq_true_2 by done.
  rewrite bool_decide_eq_false_2 by done. cbn. by apply spec_ret.
Qed.

(** Both operands, blasted one after the other. *)
Lemma operands_spec env l r w b (E : Prop) :
  1 <= w ->
  (forall b, env_ok b env -> spec b (gate_bound w l) E (blast_expr env l) (blasts env l w)) ->
  (forall b, env_ok b env -> spec b (gate_bound w r) E (blast_expr env r) (blasts env r w)) ->
  env_ok b env ->
  spec b (gate_bound w l + gate_bound w r) E
    (x ← blast_expr env l; y ← blast_expr env r; _ ← same_length x y; mret (x, y))
    (fun p b' => exists b1 n, grows b1 b' n /\ blasts env l w p.1 b1 /\ blasts env r w p.2 b').
Proof.
  intros Hw Hl Hr He. pose proof (gate_bound_pos w r ltac:(lia)).
  eapply spec_bind; [by apply Hl|done|]. intros x b1 Hg1 Hx.
  replace (gate_bound w r) with (gate_bound w r + (0 + 0)) by lia.
  eapply spec_bind; [apply Hr; by eapply env_ok_grows|lia|]. intros y b2 Hg2 Hy.
  eapply spec_bind; [apply same_length_spec|lia|].
  - pose proof (bl_length _ _ _ _ _ Hx). pose proof (bl_length _ _ _ _ _ Hy). lia.
  - intros ->. pose proof (bl_length _ _ _ _ _ Hx). cbn in *. lia.
  - intros _ b3 Hg3 _. apply spec_ret. exists b1, (gate_bound w r + 0). split_and!.
    + eapply grows_trans; [exact Hg2|exact Hg3].
    + done.
    + destruct Hy as [? ? ? ?]. split; [done|by eapply grows_bits|done|].
      intros A rho HA. apply bl_value0. by eapply grows_sat.
Qed.

(** An operation on words of [w] bits that computes [F] modulo [2^w]. *)
Definition computes (w : Z) (F : Z -> Z -> Z) (op : list Bit -> list Bit -> B (list Bit)) : Prop :=
  forall x y b E, Z.of_nat (length x) = w -> Z.of_nat (length y) = w ->
  Forall (bit_ok b) x -> Forall (bit_ok b) y ->
  spec b (2 * w) E (op x y)
    (fun r b' => has_value r b' (length x) (fun A => wrap w (F (word A x) (word A y)))).

Lemma computes_add w : computes w Z.add (fun x y => ripple_add x y (Const false)).
Proof.
  intros x y b E Hx Hy Hox Hoy. rewrite <- Hx.
  eapply spec_weaken; [apply ripple_add_spec; [lia|done|done|done]|lia|exact id|]. intros r b' _ Hr.
  eapply has_value_ext; [exact Hr|]. intros A _. unfold sum_value. cbn [bval Z.b2z].
  by rewrite Z.add_0_r.
Qed.

Lemma computes_sub w : computes w Z.sub (fun x y => ripple_add x (negate <$> y) (Const true)).
Proof.
  intros x y b E Hx Hy Hox Hoy. rewrite <- Hx.
  assert (Hn : Forall (bit_ok b) (negate <$> y))
    by (apply Forall_fmap; eapply Forall_impl; [exact Hoy|]; intros; by apply bit_ok_negate).
  eapply spec_weaken; [apply ripple_add_spec; [rewrite length_fmap; lia|done|done|done]|lia|exact id|].
  intros r b' _ Hr. eapply has_value_ext; [exact Hr|]. intros A _. unfold sum_value.
  rewrite (word_negate A b), bits_val_negb, word_length by done. cbn [bval Z.b2z].
  replace (length y) with (length x) by lia. symmetry.
  apply (wrap_eqmod _ _ _ (-1)). lia.
Qed.

Lemma computes_bitwise w op :
  computes w (bitwise_Z op) (bitwise op).
Proof.
  intros x y b E Hx Hy Hox Hoy.
  eapply spec_weaken; [apply bitwise_spec; [lia|done|done]|lia|exact id|]. intros r b' _ Hr.
  eapply has_value_ext; [exact Hr|]. intros A HA. cbn beta. symmetry. apply wrap_small.
  rewrite <- (hv_value _ _ _ _ Hr A HA). pose proof (bits_val_range (bval A <$> r)) as Hb.
  rewrite word_length, (hv_length _ _ _ _ Hr), Hx in Hb. exact Hb.
Qed.

Lemma binop_spec env e l r w F op b (E : Prop) :
  1 <= w -> computes w F op ->
  collect_vars (fun _ => []) e = collect_vars (fun _ => []) l ++ collect_vars (fun _ => []) r ->
  (forall rho n m, denote rho l = Some (DBv n) -> denote rho r = Some (DBv m) ->
     denote rho e = Some (DBv (wrap w (F n m)))) ->
  (forall b, env_ok b env -> spec b (gate_bound w l) E (blast_expr env l) (blasts env l w)) ->
  (forall b, env_ok b env -> spec b (gate_bound w r) E (blast_expr env r) (blasts env r w)) ->
  env_ok b env ->
  spec b (gate_bound w l + gate_bound w r + 2 * w) E
    ('(x, y) ← (x ← blast_expr env l; y ← blast_expr env r; _ ← same_length x y; mret (x, y));
     op x y) (blasts env e w).
Proof.
  intros Hw Hop Hv Hd Hl Hr He.
  eapply spec_bind; [by apply operands_spec|lia|]. intros [x y] b1 _ (b0 & n & Hg & Hx & Hy). cbn [fst snd] in *.
  eapply spec_weaken; [apply Hop|lia|exact id|].
  - apply Hx.
  - apply Hy.
  - eapply grows_bits; [exact Hg|apply Hx].
  - apply Hy.
  - intros res b2 Hg2 Hres. split.
    + rewrite (hv_length _ _ _ _ Hres). apply Hx.
    + apply Hres.
    + intros v. rewrite Hv, elem_of_app. intros [?|?]; [by apply Hx|by apply Hy].
    + intros A rho HA Hrel. rewrite (hv_value _ _ _ _ Hres A HA). apply Hd.
      * apply Hx; [|done]. eapply grows_sat; [exact Hg|]. by eapply grows_sat.
      * apply Hy; [|done]. by eapply grows_sat.
Qed.

Lemma const_spec env v w b E :
  1 <= w <= 64 -> uword w v -> spec b 0 E (blast_expr env (BvConst v w)) (blasts env (BvConst v w) w).
Proof.
  intros Hw Hv. apply spec_ret. split.
  - rewrite length_fmap, length_seq. lia.
  - apply Forall_fmap, Forall_forall. done.
  - intros x []%not_elem_of_nil.
  - intros A rho _ _. cbn [denote]. do 2 f_equal. rewrite <- list_fmap_compose.
    rewrite (list_fmap_ext _ (fun i => Z.testbit v (Z.of_nat i)) (seq 0 (Z.to_nat w))).
    + rewrite bits_val_testbit by (unfold uword in Hv; lia). rewrite Z2Nat.id by lia.
      symmetry. by apply wrap_small.
    + intros i j Hj. cbn [compose bval]. apply lookup_seq in Hj as [-> Hj].
      rewrite Z.mod_small, land_1_mod by lia.
      rewrite <- Z.bit0_mod, Z.shiftr_spec, Z.add_0_l by lia. by destruct (Z.testbit v _).
Qed.

Lemma var_spec env x w b E :
  1 <= w <= 64 -> env_ok b env -> (blastable env (Var x w) = false -> E) ->
  spec b 0 E (blast_expr env (Var x w)) (blasts env (Var x w) w).
Proof.
  intros Hw He HE. cbn [blast_expr blastable] in *. destruct (env !! x) as [bits|] eqn:Hx.
  2: { intros _ _. by apply HE. }
  destruct (Z.eqb_spec (Z.of_nat (length bits)) w) as [Hl|Hl]; [|intros _ _; by apply HE].
  apply spec_ret. split.
  - done.
  - by eapply He.
  - intros y [->|[]%not_elem_of_nil]%elem_of_cons. by eexists.
  - intros A rho _ Hrel. destruct (Hrel x bits Hx) as (v & Hv & _ & Hval). cbn [denote].
    rewrite Hv. cbn. by rewrite Hval, Hl.
Qed.

Lemma neg_spec env o w b (E : Prop) :
  1 <= w ->
  (forall b, env_ok b env -> spec b (gate_bound w o) E (blast_expr env o) (blasts env o w)) ->
  env_ok b env ->
  spec b (gate_bound w o + 2 * w) E (blast_expr env (BvNeg o w)) (blasts env (BvNeg o w) w).
Proof.
  intros Hw Ho He. cbn [blast_expr].
  eapply spec_bind; [by apply Ho|lia|]. intros x b1 Hg Hx. rewrite (bl_length _ _ _ _ _ Hx), Z.eqb_refl.
  cbn [negb].
  assert (Hn : Forall (bit_ok b1) (negate <$> x)).
  { apply Forall_fmap. eapply Forall_impl; [apply Hx|]. intros; by apply bit_ok_negate. }
  eapply spec_weaken; [apply ripple_add_spec|..].
  - by rewrite length_fmap, length_replicate.
  - done.
  - by apply Forall_replicate.
  - done.
  - rewrite length_fmap, (bl_length _ _ _ _ _ Hx). lia.
  - exact id.
  - intros r b2 Hg2 Hr. pose proof (hv_length _ _ _ _ Hr) as Hlen. rewrite length_fmap in Hlen.
    split; [by rewrite Hlen, (bl_length _ _ _ _ _ Hx)|apply Hr|apply Hx|].
    intros A rho HA Hrel. cbn [denote].
    rewrite (bl_value _ _ _ _ _ Hx A rho) by (done || by eapply grows_sat). cbn [mbind option_bind].
    rewrite (hv_value _ _ _ _ Hr A HA). unfold sum_value.
    rewrite (word_negate A b1), bits_val_negb, word_length, length_fmap by apply Hx.
    rewrite fmap_replicate. cbn [bval]. rewrite bits_val_zeros, (bl_length _ _ _ _ _ Hx). cbn [Z.b2z].
    do 2 f_equal. apply (wrap_eqmod _ _ _ (-1)). lia.
Qed.

(** An unsupported expression is refused with an error. *)
Lemma blast_expr_spec env e w b :
  sort_of e = Some (BitVec w) -> w <= 64 -> env_ok b env ->
  spec b (gate_bound w e) (blastable env e = false) (blast_expr env e) (blasts env e w).
Proof.
  intros Hs H64. revert b. pose proof (sort_of_fits _ _ Hs : 1 <= w <= 128) as Hfit.
  assert (Hbin : forall l r F op b, computes w F op ->
    (forall b, env_ok b env -> spec b (gate_bound w l) (blastable env l = false) (blast_expr env l) (blasts env l w)) ->
    (forall b, env_ok b env -> spec b (gate_bound w r) (blastable env r = false) (blast_expr env r) (blasts env r w)) ->
    forall e, collect_vars (fun _ => []) e = collect_vars (fun _ => []) l ++ collect_vars (fun _ => []) r ->
    (forall rho n m, denote rho l = Some (DBv n) -> denote rho r = Some (DBv m) ->
       denote rho e = Some (DBv (wrap w (F n m)))) ->
    env_ok b env ->
    spec b (gate_bound w l + gate_bound w r + 2 * w) (blastable env l && blastable env r = false)
      ('(x, y) ← (x ← blast_expr env l; y ← blast_expr env r; _ ← same_length x y; mret (x, y));
       op x y) (blasts env e w)).
  { intros l r F op b Hop Hl Hr e' Hv Hd He. eapply binop_spec; try done; try lia.
    - intros b0 He0. eapply spec_weaken; [by apply Hl|lia| |auto]. intros ->. done.
    - intros b0 He0. eapply spec_weaken; [by apply Hr|lia| |auto]. intros ->. apply andb_false_r. }
  induction e; cbn [sort_of] in Hs; inv_sort; intros b0 He;
    try (intros _ _; reflexivity); cbn [blastable gate_bound].
  - apply var_spec; (done || lia).
  - apply const_spec; [lia|]. replace (Z.min width 64) with width in * by lia. unfold uword. lia.
  - eapply (Hbin _ _ Z.add); auto using computes_add. intros rho n m Hn Hm. cbn [denote].
    by rewrite Hn, Hm.
  - eapply (Hbin _ _ Z.sub); auto using computes_sub. intros rho n m Hn Hm. cbn [denote].
    by rewrite Hn, Hm.
  - apply neg_spec; [lia|auto|done].
  - eapply (Hbin _ _ Z.land); auto. { apply (computes_bitwise _ And2). }
    intros rho n m Hn Hm. cbn [denote]. by rewrite Hn, Hm.
  - eapply (Hbin _ _ Z.lor); auto. { apply (computes_bitwise _ Maj3). }
    intros rho n m Hn Hm. cbn [denote]. by rewrite Hn, Hm.
  - eapply (Hbin _ _ Z.lxor); auto. { apply (computes_bitwise _ Xor2). }
    intros rho n m Hn Hm. cbn [denote]. by rewrite Hn, Hm.
Qed.

(** ** Inputs *)

Definition new_ids (v : Z) (n : nat) : list Z := (fun i => v + 1 + Z.of_nat i) <$> seq 0 n.

Lemma new_ids_S v n : new_ids v (S n) = (v + 1) :: new_ids (v + 1) n.
Proof.
  unfold new_ids. rewrite <- cons_seq, fmap_cons. f_equal; [lia|].
  rewrite <- fmap_S_seq, <- list_fmap_compose. apply list_fmap_ext. intros i x _. cbn. lia.
Qed.

Definition advance (b : Blaster) (n : Z) : Blaster :=
  mkBlaster (next_var b + n) (clauses b) (clause_tags b) (gates b) (bside b).

Lemma fresh_bits_value n b :
  0 <= next_var b -> next_var b + Z.of_nat n < 2 ^ 31 ->
  fresh_bits n b = ROk (new_ids (next_var b) n, advance b (Z.of_nat n)).
Proof.
  revert b. induction n as [|n IH]; intros b H0 H1.
  { unfold advance. cbn. rewrite Z.add_0_r. by destruct b. }
  cbn [fresh_bits]. unfold mbind, B_bind. rewrite fresh_value by lia.
  rewrite IH by (cbn; lia). unfold advance, mret, B_ret.
  cbn [next_var clauses clause_tags gates bside].
  replace (next_var b + Z.of_nat (S n)) with (next_var b + 1 + Z.of_nat n) by lia.
  by rewrite new_ids_S.
Qed.

Lemma new_ids_range v n l : l ∈ new_ids v n -> v < l <= v + Z.of_nat n.
Proof.
  unfold new_ids. intros (i & -> & Hi)%list_elem_of_fmap. apply elem_of_seq in Hi. lia.
Qed.

Lemma advance_grows b n : wf b -> 0 <= n -> grows b (advance b n) n.
Proof.
  intros [H0 Hc] Hn. split; [split| |by exists []; rewrite app_nil_r| |]; cbn; try lia.
  - eapply Forall_impl; [exact Hc|]. intros c Hl. eapply Forall_impl; [exact Hl|].
    unfold lit_ok. cbn. intros; lia.
  - intros A HA. by exists A.
  - intros [? ? Hg ?]. split; try done. eapply Forall_impl; [exact Hg|]. cbn. lia.
Qed.

(** Store the low bits of [v] in the fresh variables above [base]. *)
Definition load_bits (A : Z -> bool) (base : Z) (n : nat) (v : Z) : Z -> bool := fun x =>
  if (base <? x) && (x <=? base + Z.of_nat n) then Z.testbit v (x - base - 1) else A x.

Lemma load_bits_agree A base n v : agree base A (load_bits A base n v).
Proof. intros x Hx. unfold load_bits. by replace (base <? x) with false by lia. Qed.

Lemma load_bits_word A base n v :
  0 <= base -> 0 <= v ->
  word (load_bits A base n v) (Lit <$> new_ids base n) = wrap (Z.of_nat n) v.
Proof.
  intros Hb Hv. unfold wrap. rewrite <- bits_val_testbit by done. f_equal.
  unfold new_ids. rewrite <- !list_fmap_compose. apply list_fmap_ext. intros i j Hj.
  apply lookup_seq in Hj as [-> Hj]. cbn [compose bval]. unfold lval, load_bits.
  set (y := base + 1 + Z.of_nat (0 + i)). assert (Hy : base < y <= base + Z.of_nat n) by lia.
  rewrite (proj2 (Z.ltb_lt 0 y)), (proj2 (Z.ltb_lt base y)), (proj2 (Z.leb_le y _)) by lia.
  cbn [andb]. f_equal. lia.
Qed.

Definition input_bits (l : list (string * Z)) : Z :=
  foldr (fun i acc => Z.of_nat (Z.to_nat i.2) + acc) 0 l.

Lemma input_bits_pos l : 0 <= input_bits l.
Proof. induction l as [|i l IH]; cbn [input_bits foldr]; [lia|]. fold (input_bits l). lia. Qed.

(** The inputs have 64-bit values in [rho]. *)
Definition declared (l : list (string * Z)) (rho : EvalEnv) : Prop :=
  forall x w, (x, w) ∈ l -> exists v, env_get rho x = Some v /\ uword 64 v.

(** What the declaration of the inputs [l] adds to [env]. *)
Record declares (l : list (string * Z)) (env env' : BitEnv) (b b' : Blaster) : Prop := {
  dc_ok : env_ok b' env';
  dc_state : b' = advance b (input_bits l);
  dc_new : forall x bits, env' !! x = Some bits ->
    env !! x = Some bits \/
    exists w ids, (x, w) ∈ l /\ length bits = Z.to_nat w /\ bits = Lit <$> ids;
  dc_all : forall x w, (x, w) ∈ l -> is_Some (env' !! x);
  dc_load : forall A rho, declared l rho -> env_rel env A rho ->
    exists A', agree (next_var b) A A' /\ env_rel env' A' rho;
}.

Lemma env_rel_agree b env A A' rho :
  env_ok b env -> agree (next_var b) A A' -> env_rel env A rho -> env_rel env A' rho.
Proof.
  intros He Ha Hr x bits Hx. destruct (Hr x bits Hx) as (v & Hv & Hu & Hw). exists v.
  split_and!; [done|done|]. rewrite <- Hw. f_equal. apply list_fmap_ext. intros i y Hy. symmetry.
  apply (bval_agree b); [done|]. eapply Forall_lookup_1; [by eapply He|done].
Qed.

Lemma declare_one x w env b ids :
  wf b -> env_ok b env -> env !! x = None ->
  ids = new_ids (next_var b) (Z.to_nat w) ->
  declares [(x, w)] env (<[x := Lit <$> ids]> env) b (advance b (Z.of_nat (Z.to_nat w))).
Proof.
  intros [H0 Hc] He Hx ->. set (n := Z.to_nat w).
  assert (Hnew : env_ok (advance b (Z.of_nat n)) (<[x := Lit <$> new_ids (next_var b) n]> env)).
  { intros y bits. destruct (decide (x = y)) as [->|Hne].
    - rewrite lookup_insert_eq. intros [= <-]. apply Forall_fmap, Forall_forall.
      intros l Hl%new_ids_range. unfold bit_ok, lit_ok. cbn. lia.
    - rewrite lookup_insert_ne by done. intros Hb. eapply grows_bits; [|by eapply He].
      by apply advance_grows; [|lia]. }
  split.
  - exact Hnew.
  - unfold input_bits. cbn [foldr snd]. fold n. f_equal. lia.
  - intros y bits. destruct (decide (x = y)) as [->|Hne].
    + rewrite lookup_insert_eq. intros [= <-]. right. eexists w, _. split_and!; [by left| |done].
      unfold new_ids. by rewrite !length_fmap, length_seq.
    + rewrite lookup_insert_ne by done. auto.
  - intros y w' [[= -> ->]|[]%not_elem_of_nil]%elem_of_cons. rewrite lookup_insert_eq. by eexists.
  - intros A rho Hd Hr. destruct (Hd x w) as (v & Hv & Hu); [by left|].
    exists (load_bits A (next_var b) n v). split; [apply load_bits_agree|].
    intros y bits. destruct (decide (x = y)) as [->|Hne].
    + rewrite lookup_insert_eq. intros [= <-]. exists v. split_and!; [done|done|].
      rewrite load_bits_word by (unfold uword in Hu; lia).
      unfold new_ids. by rewrite !length_fmap, length_seq.
    + rewrite lookup_insert_ne by done. intros Hb.
      eapply (env_rel_agree b env A); [done|apply load_bits_agree|done|exact Hb].
Qed.

Lemma declares_trans l1 l2 env env1 env2 b b1 b2 :
  declares l1 env env1 b b1 -> declares l2 env1 env2 b1 b2 ->
  (forall x bits, env1 !! x = Some bits -> env2 !! x = Some bits) ->
  declares (l1 ++ l2) env env2 b b2.
Proof.
  intros H1 H2 Hsub. pose proof (input_bits_pos l1). split.
  - apply H2.
  - rewrite (dc_state _ _ _ _ _ H2), (dc_state _ _ _ _ _ H1). unfold advance. cbn. f_equal.
    clear. unfold input_bits. induction l1 as [|i l1 IH]; cbn; lia.
  - intros x bits Hx. destruct (dc_new _ _ _ _ _ H2 x bits Hx) as [Hx1|(w & ids & Hw & Hl)].
    + destruct (dc_new _ _ _ _ _ H1 x bits Hx1) as [?|(w & ids & Hw & Hl)]; [by left|right].
      exists w, ids. split; [|done]. apply elem_of_app. by left.
    + right. exists w, ids. split; [|done]. apply elem_of_app. by right.
  - intros x w [Hx|Hx]%elem_of_app; [|by eapply (dc_all _ _ _ _ _ H2)].
    destruct (dc_all _ _ _ _ _ H1 x w Hx) as [bits Hb]. eauto.
  - intros A rho Hd Hr.
    destruct (dc_load _ _ _ _ _ H1 A rho) as (A1 & Ha1 & Hr1);
      [intros x w Hx; apply (Hd x w), elem_of_app; by left|done|].
    destruct (dc_load _ _ _ _ _ H2 A1 rho) as (A2 & Ha2 & Hr2);
      [intros x w Hx; apply (Hd x w), elem_of_app; by right|done|].
    exists A2. split; [|done]. eapply agree_trans; [|exact Ha1|exact Ha2].
    rewrite (dc_state _ _ _ _ _ H1). cbn. lia.
Qed.

(** Distinct fresh names are declared; a repeated name is refused. *)
Lemma declare_inputs_ok l env acc b :
  wf b -> env_ok b env -> next_var b + input_bits l < 2 ^ 31 ->
  match declare_inputs l env acc b with
  | ROk (env', _, b') =>
      declares l env env' b b' /\ forall x bits, env !! x = Some bits -> env' !! x = Some bits
  | RErr _ => ~ (NoDup l.*1 /\ forall x, x ∈ l.*1 -> env !! x = None)
  | RPanic => False
  end.
Proof.
  revert env acc b. induction l as [|[x w] l IH]; intros env acc b Hwf He Hr.
  { cbn. split; [|done]. split; try done.
    - unfold advance, input_bits. cbn. rewrite Z.add_0_r. by destruct b.
    - by left.
    - by intros x w []%not_elem_of_nil.
    - intros A rho _ H. by exists A. }
  cbn [declare_inputs]. cbn [input_bits foldr snd] in Hr. fold (input_bits l) in Hr.
  pose proof (input_bits_pos l). destruct (Hwf) as [H0 _].
  unfold mbind, B_bind. rewrite fresh_bits_value by lia.
  destruct (env !! x) as [bits|] eqn:Hx.
  { intros [_ Hn]. specialize (Hn x ltac:(by left)). congruence. }
  pose proof (declare_one x w env b _ Hwf He Hx eq_refl) as H1.
  set (ids := new_ids (next_var b) (Z.to_nat w)) in *.
  pose proof (advance_grows b (Z.of_nat (Z.to_nat w)) Hwf ltac:(lia)) as Hg.
  specialize (IH (<[x := Lit <$> ids]> env) (acc ++ [(x, wrap 32 <$> ids)])
    (advance b (Z.of_nat (Z.to_nat w))) (grows_wf _ _ _ Hg) (dc_ok _ _ _ _ _ H1) ltac:(cbn; lia)).
  destruct (declare_inputs l _ _ _) as [[[env' ids'] b']| |]; [|..].
  - destruct IH as [H2 Hsub]. split; [by eapply (declares_trans [(x, w)])|].
    intros y bits Hy. apply Hsub. rewrite lookup_insert_ne by congruence. done.
  - intros [Hnd Hn]. apply NoDup_cons in Hnd as [Hni Hnd]. apply IH. split; [done|].
    intros y Hy. cbn in Hni. rewrite lookup_insert_ne by (intros ->; done). apply Hn. by right.
  - done.
Qed.

(** ** The miter *)

Lemma set_side_spec b E sd : spec b 0 E (set_side sd) (fun _ b' => clauses b' = clauses b /\ next_var b' = next_var b).
Proof.
  intros [H0 Hc] _. split; [|done]. split; [split| |by exists []; rewrite app_nil_r| |]; cbn; try lia; [done| |].
  - intros A HA. by exists A.
  - by intros [? ? ? ?]; split.
Qed.

(** The surviving literals say exactly that the words differ. *)
Definition differs (x y : list Bit) (r : list Z * bool) (b : Blaster) : Prop :=
  Forall (lit_ok b) r.1 /\
  forall A, sat A (clauses b) ->
    r.2 || clause_sat A r.1 = negb (bool_decide (bval A <$> x = bval A <$> y)).

Lemma differs_cons a d x y s lits always b b' n :
  denotes s b (fun A => xorb (bval A a) (bval A d)) -> grows b b' n -> differs x y (lits, always) b' ->
  differs (a :: x) (d :: y)
    (match s with
     | Const true => (lits, true) | Const false => (lits, always) | Lit l => (l :: lits, always)
     end) b'.
Proof.
  intros [Hok Hs] Hg [Hl Hd]. cbn [fst snd] in *.
  assert (Hcons : forall A, sat A (clauses b') ->
    bval A s || (always || clause_sat A lits) =
    negb (bool_decide (bval A <$> a :: x = bval A <$> d :: y))).
  { intros A HA. rewrite Hs, Hd by (done || by eapply grows_sat). rewrite !fmap_cons.
    destruct (bool_decide_reflect (bval A <$> x = bval A <$> y)) as [E|E].
    - destruct (bval A a) eqn:E1, (bval A d) eqn:E2; cbn;
        (rewrite bool_decide_eq_true_2 by congruence; done) ||
        (rewrite bool_decide_eq_false_2 by congruence; done).
    - rewrite bool_decide_eq_false_2 by congruence. by rewrite orb_true_r. }
  destruct s as [[]|l]; (split; [cbn [fst]|intros A HA; cbn [fst snd]; rewrite <- Hcons by done]).
  - done.
  - done.
  - done.
  - done.
  - apply Forall_cons_2; [|done]. by apply (grows_bit _ _ _ (Lit l) Hg).
  - cbn [bval]. unfold clause_sat. cbn [existsb]. by destruct (lval A l), always.
Qed.

Lemma diff_bits_spec x y b E :
  length x = length y -> Forall (bit_ok b) x -> Forall (bit_ok b) y ->
  spec b (Z.of_nat (length x)) E (diff_bits x y) (differs x y).
Proof.
  revert y b. induction x as [|a x IH]; intros [|d y] b Hlen Hx Hy; try discriminate Hlen.
  { apply spec_ret. split; [by apply Forall_nil_2|done]. }
  apply Forall_cons in Hx as [Ha Hx]. apply Forall_cons in Hy as [Hd Hy]. injection Hlen as Hlen.
  cbn [diff_bits]. replace (Z.of_nat (length (a :: x))) with (1 + Z.of_nat (length x)) by (cbn [length]; lia).
  eapply spec_bind; [by apply xor2_spec|lia|]. intros s b1 Hg1 Hs.
  replace (Z.of_nat (length x)) with (Z.of_nat (length x) + 0) by lia.
  eapply spec_bind; [apply IH; [done|by eapply grows_bits..]|lia|].
  intros [lits always] b2 Hg2 Hr. apply spec_ret. eapply differs_cons; [exact Hs|exact Hg2|exact Hr].
Qed.

(** Both sides, over shared inputs. *)
Lemma blast_sides_spec ob env w b :
  sort_of (trust_ir_expr ob) = Some (BitVec w) -> sort_of (aarch64_expr ob) = Some (BitVec w) ->
  w <= 64 -> env_ok b env ->
  spec b (gate_bound w (trust_ir_expr ob) + gate_bound w (aarch64_expr ob))
    (blastable env (trust_ir_expr ob) && blastable env (aarch64_expr ob) = false)
    (blast_sides ob env)
    (fun p b' => exists b1 n, grows b1 b' n /\ blasts env (trust_ir_expr ob) w p.1 b1 /\
       blasts env (aarch64_expr ob) w p.2 b').
Proof.
  intros Hi Hm H64 He. pose proof (sort_of_fits _ _ Hi : 1 <= w <= 128).
  set (ni := gate_bound w (trust_ir_expr ob)). set (nm := gate_bound w (aarch64_expr ob)).
  pose proof (gate_bound_pos w (trust_ir_expr ob) ltac:(lia)) as Hni.
  pose proof (gate_bound_pos w (aarch64_expr ob) ltac:(lia)) as Hnm.
  unfold blast_sides. replace (ni + nm) with (0 + (ni + (0 + (nm + 0)))) by lia.
  eapply spec_bind; [apply set_side_spec|lia|]. intros _ b0 Hg0 _.
  eapply (spec_bind _ _ _ _ _ _ (blasts env (trust_ir_expr ob) w)); [|lia|].
  { eapply spec_weaken; [apply blast_expr_spec; [done|done|by eapply env_ok_grows]|lia| |auto].
    by intros ->. }
  intros x b1 Hg1 Hx. eapply spec_bind; [apply set_side_spec|lia|]. intros _ b2 Hg2 _.
  assert (He2 : env_ok b2 env) by (do 3 (eapply env_ok_grows; [eassumption|]); done).
  eapply (spec_bind _ _ _ _ _ _ (blasts env (aarch64_expr ob) w)); [|lia|].
  { eapply spec_weaken; [by apply blast_expr_spec|lia| |auto]. intros ->. apply andb_false_r. }
  intros y b3 Hg3 Hy. pose proof (bl_length _ _ _ _ _ Hx). pose proof (bl_length _ _ _ _ _ Hy).
  rewrite bool_decide_eq_true_2 by lia. rewrite bool_decide_eq_false_2 by (intros ->; cbn in *; lia).
  apply spec_ret. exists b1, (0 + nm). split; [by eapply grows_trans|done].
Qed.

(** The values of the two sides. *)
Lemma blasts_eval opaque_eval env e w r b A rho :
  sort_of e = Some (BitVec w) -> blasts env e w r b -> sat A (clauses b) -> env_rel env A rho ->
  try_eval opaque_eval e rho = SOk (rep w (word A r)).
Proof.
  intros Hs Hb HA Hr. assert (Hbind : binds (collect_vars (fun _ => []) e) rho).
  { intros x Hx. destruct (bl_vars _ _ _ _ _ Hb x Hx) as [bits Hx'].
    destruct (Hr x bits Hx') as (v & ? & ? & _). eauto. }
  destruct (denote_refines opaque_eval rho e _ _ Hs Hbind (bl_value _ _ _ _ _ Hb A rho HA Hr))
    as (res & [= <-] & He & _). exact He.
Qed.

(** The inputs as the assignment has them. *)
Definition read_inputs (l : list (string * Z)) (env : BitEnv) (A : Z -> bool) : EvalEnv :=
  mkEnv ((fun i => (i.1, word A (default [] (env !! i.1)))) <$> l).

Lemma read_inputs_get l env A x w :
  (x, w) ∈ l -> env_get (read_inputs l env A) x = Some (word A (default [] (env !! x))).
Proof.
  unfold env_get, read_inputs. cbn [vars]. induction l as [|[y u] l IH]; [by intros []%not_elem_of_nil|].
  rewrite fmap_cons. cbn [find fst]. destruct (String.eqb_spec y x) as [->|Hne]; [done|].
  intros [[= -> ->]|Hin]%elem_of_cons; [done|]. by apply IH.
Qed.

Lemma read_inputs_rel l env b b' A :
  declares l ∅ env b b' -> Forall (fun i => i.2 <= 64) l ->
  env_rel env A (read_inputs l env A) /\ declared l (read_inputs l env A).
Proof.
  intros Hd Hw. rewrite Forall_forall in Hw.
  assert (Hlen : forall x bits, env !! x = Some bits ->
    exists w, (x, w) ∈ l /\ uword (Z.of_nat (length bits)) (word A bits) /\ uword 64 (word A bits)).
  { intros x bits Hx. destruct (dc_new _ _ _ _ _ Hd x bits Hx) as [[]%lookup_empty_Some|(w & ids & Hin & Hl & _)].
    exists w. pose proof (bits_val_range (bval A <$> bits)) as Hr. rewrite word_length in Hr.
    split_and!; [done|done|]. specialize (Hw _ Hin). cbn in Hw.
    pose proof (pow2_le (Z.of_nat (length bits)) 64 ltac:(lia)). unfold uword in *. lia. }
  split.
  - intros x bits Hx. destruct (Hlen x bits Hx) as (w & Hin & Hr & H64).
    exists (word A bits). rewrite (read_inputs_get _ _ _ _ w) by done. rewrite Hx.
    split_and!; [done|done|]. symmetry. by apply wrap_small.
  - intros x w Hin. rewrite (read_inputs_get _ _ _ _ w) by done. eexists. split; [done|].
    destruct (dc_all _ _ _ _ _ Hd x w Hin) as [bits Hx]. rewrite Hx.
    by destruct (Hlen x bits Hx) as (? & _ & _ & ?).
Qed.

Lemma blasts_grows env e w r b b' n : grows b b' n -> blasts env e w r b -> blasts env e w r b'.
Proof.
  intros Hg [? ? ? Hv]. split; [done|by eapply grows_bits|done|]. intros A rho HA. apply Hv.
  by eapply grows_sat.
Qed.

(** The clauses of the miter, before and after the disequality. *)
Definition miter_clauses (cs : list (list Z)) (lits : list Z) (always : bool) : list (list Z) :=
  if always then cs else cs ++ [lits].

(** A blasted obligation: inputs, gates and comparison. *)
Definition mitered (ob : ProofObligation) (w : Z) (cs : list (list Z)) : Prop :=
  exists env x y lits always b0 b n,
    declares (inputs ob) ∅ env new b0 /\ grows b0 b n /\
    blasts env (trust_ir_expr ob) w x b /\ blasts env (aarch64_expr ob) w y b /\
    differs x y (lits, always) b /\ cs = miter_clauses (clauses b) lits always.

(** Room for all variables. *)
Definition var_bound (ob : ProofObligation) (w : Z) : Z :=
  input_bits (inputs ob) + gate_bound w (trust_ir_expr ob) + gate_bound w (aarch64_expr ob) + w.

Lemma wf_new : wf new.
Proof. split; [done|apply Forall_nil_2]. Qed.

Lemma env_ok_empty b : env_ok b ∅.
Proof. by intros x bits []%lookup_empty_Some. Qed.

(** Declaring the inputs and blasting both sides. *)
Lemma stages_ok ob w :
  sort_of (trust_ir_expr ob) = Some (BitVec w) -> sort_of (aarch64_expr ob) = Some (BitVec w) ->
  w <= 64 -> var_bound ob w < 2 ^ 31 ->
  match declare_inputs (inputs ob) ∅ [] new with
  | ROk (env, _, b0) =>
      declares (inputs ob) ∅ env new b0 /\ grows new b0 (input_bits (inputs ob)) /\
      match blast_sides ob env b0 with
      | ROk (x, y, b1) =>
          let n := gate_bound w (trust_ir_expr ob) + gate_bound w (aarch64_expr ob) in
          grows b0 b1 n /\ next_var b1 + w < 2 ^ 31 /\
          blasts env (trust_ir_expr ob) w x b1 /\ blasts env (aarch64_expr ob) w y b1
      | RErr _ => blastable env (trust_ir_expr ob) && blastable env (aarch64_expr ob) = false
      | RPanic => False
      end
  | RErr _ => ~ NoDup (inputs ob).*1
  | RPanic => False
  end.
Proof.
  unfold var_bound. intros Hi Hm H64 Hr. pose proof (sort_of_fits _ _ Hi : 1 <= w <= 128).
  pose proof (gate_bound_pos w (trust_ir_expr ob) ltac:(lia)).
  pose proof (gate_bound_pos w (aarch64_expr ob) ltac:(lia)).
  pose proof (declare_inputs_ok (inputs ob) ∅ [] new wf_new (env_ok_empty _) ltac:(cbn; lia)) as Hd.
  destruct (declare_inputs (inputs ob) ∅ [] new) as [[[env ids] b0]| |]; [| |done].
  2: { intros Hnd. by apply Hd. }
  destruct Hd as [Hd _].
  assert (Hg0 : grows new b0 (input_bits (inputs ob)))
    by (rewrite (dc_state _ _ _ _ _ Hd); apply advance_grows; [apply wf_new|apply input_bits_pos]).
  pose proof (grows_next _ _ _ Hg0) as Hn0. cbn [next_var new] in Hn0. split; [done|]. split; [done|].
  pose proof (blast_sides_spec ob env w b0 Hi Hm H64 (dc_ok _ _ _ _ _ Hd) (grows_wf _ _ _ Hg0)
    ltac:(lia)) as Hs.
  destruct (blast_sides ob env b0) as [[[x y] b1]| |]; [|done|done].
  destruct Hs as (Hg1 & b1' & n1 & Hg1' & Hx & Hy). cbn [fst snd] in *.
  pose proof (grows_next _ _ _ Hg1). split_and!; [done|lia|by eapply blasts_grows|done].
Qed.

Lemma blast_mitered ob w m :
  blast_equivalence_miter ob = ROk m ->
  sort_of (trust_ir_expr ob) = Some (BitVec w) -> sort_of (aarch64_expr ob) = Some (BitVec w) ->
  w <= 64 -> var_bound ob w < 2 ^ 31 -> mitered ob w (m_clauses m).
Proof.
  unfold blast_equivalence_miter. intros Hb Hi Hm H64 Hr.
  repeat (destruct (bool_decide _) in Hb; [discriminate Hb || idtac|discriminate Hb || idtac]; cbn [negb] in Hb).
  all: try discriminate Hb. pose proof (stages_ok ob w Hi Hm H64 Hr) as Hst.
  destruct (declare_inputs (inputs ob) ∅ [] new) as [[[env ids] b0]| |]; try discriminate Hb.
  destruct Hst as (Hd & Hg0 & Hst). cbn [mbind Res_bind] in Hb.
  destruct (blast_sides ob env b0) as [[[x y] b1]| |]; try discriminate Hb.
  destruct Hst as (Hg1 & Hn1 & Hx & Hy). cbn [mbind Res_bind] in Hb.
  pose proof (bl_length _ _ _ _ _ Hx). pose proof (bl_length _ _ _ _ _ Hy).
  assert (Hds : spec b1 w True (_ ← set_side Diff; diff_bits x y) (differs x y)).
  { replace w with (0 + w) by lia. eapply spec_bind; [apply set_side_spec|lia|]. intros _ b2 Hg2 _.
    eapply spec_weaken; [apply diff_bits_spec; [lia|..]|lia|exact id|auto].
    - eapply grows_bits; [exact Hg2|apply Hx].
    - eapply grows_bits; [exact Hg2|apply Hy]. }
  specialize (Hds (grows_wf _ _ _ Hg1) Hn1).
  destruct ((_ ← set_side Diff; diff_bits x y) b1) as [[[lits always] b2]| |]; try discriminate Hb.
  destruct Hds as [Hg2 Hdiff]. cbn [mbind Res_bind] in Hb.
  eexists env, x, y, lits, always, b0, b2, _.
  split_and!; [done|by eapply grows_trans|by eapply blasts_grows|by eapply blasts_grows|done|].
  unfold finish_miter in Hb. unfold miter_clauses. destruct always; cbn in Hb.
  - by injection Hb as <-.
  - destruct (check_provenance _); try discriminate Hb. by injection Hb as <-.
Qed.

(** A satisfying assignment is a counterexample. *)
Lemma sat_counterexample opaque_eval ob w cs A :
  mitered ob w cs -> sort_of (trust_ir_expr ob) = Some (BitVec w) ->
  sort_of (aarch64_expr ob) = Some (BitVec w) -> Forall (fun i => i.2 <= 64) (inputs ob) ->
  sat A cs ->
  exists rho, declared (inputs ob) rho /\
    try_eval opaque_eval (trust_ir_expr ob) rho <> try_eval opaque_eval (aarch64_expr ob) rho.
Proof.
  intros (env & x & y & lits & always & b0 & b & n & Hd & Hg & Hx & Hy & Hdf & ->) Hi Hm Hw HA.
  destruct (read_inputs_rel _ _ _ _ A Hd Hw) as [Hr Hdecl].
  assert (HA' : sat A (clauses b) /\ always || clause_sat A lits = true).
  { unfold miter_clauses in HA. destruct always; [done|]. apply sat_app in HA as [? HA].
    apply sat_cons in HA as [HA _]. split; [done|exact HA]. }
  destruct HA' as [HA' Ht]. destruct Hdf as [_ Hdf]. cbn [fst snd] in Hdf. rewrite Hdf in Ht by done.
  apply negb_true_iff, bool_decide_eq_false in Ht. exists (read_inputs (inputs ob) env A).
  split; [done|]. rewrite (blasts_eval opaque_eval _ _ _ _ _ _ _ Hi Hx HA' Hr).
  rewrite (blasts_eval opaque_eval _ _ _ _ _ _ _ Hm Hy HA' Hr). intros Heq. apply Ht.
  pose proof (bl_length _ _ _ _ _ Hx). pose proof (bl_length _ _ _ _ _ Hy).
  apply bits_val_inj; [rewrite !length_fmap; lia|]. injection Heq as Heq.
  apply (f_equal as_u128) in Heq. by rewrite !rep_u128 in Heq.
Qed.

(** Without a satisfying assignment the sides agree: the inputs extend to an
    assignment of the gates, so the disequality clause must fail. *)
Lemma unsat_agree opaque_eval ob w cs rho :
  mitered ob w cs -> sort_of (trust_ir_expr ob) = Some (BitVec w) ->
  sort_of (aarch64_expr ob) = Some (BitVec w) -> declared (inputs ob) rho ->
  (forall A, ~ sat A cs) ->
  try_eval opaque_eval (trust_ir_expr ob) rho = try_eval opaque_eval (aarch64_expr ob) rho.
Proof.
  intros (env & x & y & lits & always & b0 & b & n & Hd & Hg & Hx & Hy & Hdf & ->) Hi Hm Hdecl Hun.
  destruct (dc_load _ _ _ _ _ Hd (fun _ => false) rho Hdecl) as (A0 & _ & Hr0).
  { by intros ? ? []%lookup_empty_Some. }
  assert (Hs0 : sat A0 (clauses b0)) by (rewrite (dc_state _ _ _ _ _ Hd); apply sat_nil).
  destruct (grows_extend _ _ _ Hg A0 Hs0) as (A & Ha & HA).
  assert (Hr : env_rel env A rho) by (eapply env_rel_agree; [apply Hd|exact Ha|exact Hr0]).
  rewrite (blasts_eval opaque_eval _ _ _ _ _ _ _ Hi Hx HA Hr).
  rewrite (blasts_eval opaque_eval _ _ _ _ _ _ _ Hm Hy HA Hr).
  destruct (bool_decide_reflect (bval A <$> x = bval A <$> y)) as [->|Hne]; [done|].
  exfalso. apply (Hun A). destruct Hdf as [_ Hdf]. specialize (Hdf A HA). cbn [fst snd] in Hdf.
  rewrite bool_decide_eq_false_2 in Hdf by done. unfold miter_clauses. destruct always; [done|].
  apply sat_app. split; [done|]. apply sat_cons. split; [done|apply sat_nil].
Qed.

(** C8: the bit-blaster is faithful.  For an obligation whose sides are well-sorted
    at one width up to 64 bits, the miter that [blast_equivalence_miter] returns is
    unsatisfiable exactly when the interpreter gives both sides the same result on
    every assignment of 64-bit values to the declared inputs.  The room for
    variables, an [i32] in the source, is bounded by the size of the obligation. *)
Theorem miter_faithful opaque_eval ob w m :
  blast_equivalence_miter ob = ROk m ->
  sort_of (trust_ir_expr ob) = Some (BitVec w) -> sort_of (aarch64_expr ob) = Some (BitVec w) ->
  w <= 64 -> Forall (fun i => i.2 <= 64) (inputs ob) -> var_bound ob w < 2 ^ 31 ->
  (forall A, ~ sat A (m_clauses m)) <->
  (forall rho, declared (inputs ob) rho ->
     try_eval opaque_eval (trust_ir_expr ob) rho = try_eval opaque_eval (aarch64_expr ob) rho).
Proof.
  intros Hb Hi Hm H64 Hw Hr. pose proof (blast_mitered ob w m Hb Hi Hm H64 Hr) as Hmt.
  split.
  - intros Hun rho Hd. by eapply unsat_agree.
  - intros Heq A HA. destruct (sat_counterexample opaque_eval _ _ _ _ Hmt Hi Hm Hw HA) as (rho & Hd & Hne).
    by apply Hne, Heq.
Qed.

(** ** Gates *)

(** the gate encodings are exact, and the entailment test is a decision
    procedure.  Over non-zero literals, an assignment satisfies the canonical
    clauses of a gate precisely when the output has the value of the truth table;
    [clause_entailed_by_gate] accepts a clause precisely when it mentions only the
    gate's variables and holds at every assignment that respects the gate; so it
    accepts every canonical clause. *)
Theorem gate_cnf_exact k o ins cs :
  canonical_gate_clauses k o ins = Some cs -> Forall (fun l => l <> 0) (o :: ins) ->
  (forall A, sat A cs <-> gate_eval k (lval A <$> ins) = Some (lval A o)) /\
  (forall c, Forall (fun l => l <> 0) c ->
     clause_entailed_by_gate c k o ins = Some true <->
     (forall l, l ∈ c -> Z.abs l ∈ Z.abs <$> (o :: ins)) /\
     forall A, gate_eval k (lval A <$> ins) = Some (lval A o) -> clause_sat A c = true) /\
  (forall c, c ∈ cs -> clause_entailed_by_gate c k o ins = Some true).
Proof.
  intros Hc Hnz. destruct (Forall_cons_1 _ _ _ Hnz) as [Ho Hi].
  assert (Hlen : length ins = arity k).
  { destruct k, ins as [|a [|b [|d [|]]]]; done. }
  assert (Hg : forall A, sat A cs <-> gate_eval k (lval A <$> ins) = Some (lval A o))
    by (intros A; by apply gate_cnf).
  split_and!; [done|intros c Hcz; by apply clause_entailed_iff|].
  intros c Hin. apply clause_entailed_iff; [done|done| |split].
  - apply Forall_forall. intros l Hl. destruct (canonical_lits _ _ _ _ _ _ Hc Hin Hl) as (l' & Hl' & E).
    rewrite Forall_forall in Hnz. specialize (Hnz l' Hl'). lia.
  - intros l Hl. destruct (canonical_lits _ _ _ _ _ _ Hc Hin Hl) as (l' & Hl' & ->).
    by apply list_elem_of_fmap_2.
  - intros A HA. by apply Hg in HA; apply HA.
Qed.

Lemma gate_cnf_exact_witness :
  clause_entailed_by_gate [13] Maj3 13 [3; -4; -5] = Some false /\
  (forall c, c ∈ default [] (canonical_gate_clauses Maj3 13 [3; -4; -5]) ->
     clause_entailed_by_gate c Maj3 13 [3; -4; -5] = Some true).
Proof.
  split; [vm_compute; reflexivity|].
  apply (gate_cnf_exact Maj3 13 [3; -4; -5]); [reflexivity|].
  repeat (apply Forall_cons_2; [lia|]). apply Forall_nil_2.
Defined.

(** [a - b] against [a + (-b)], at one byte. *)
Definition proof_sub_neg : ProofObligation :=
  let a := Var "a" 8 in let b := Var "b" 8 in
  mkOb "isub" (BvSub a b 8) (BvAdd a (BvNeg b 8) 8) [("a", 8); ("b", 8)]%string [] [].

Lemma miter_faithful_witness :
  match blast_equivalence_miter proof_sub_neg with
  | ROk m =>
      (forall A, ~ sat A (m_clauses m)) <->
      (forall rho, declared (inputs proof_sub_neg) rho ->
         try_eval (fun _ _ => SErr EvalError) (trust_ir_expr proof_sub_neg) rho =
         try_eval (fun _ _ => SErr EvalError) (aarch64_expr proof_sub_neg) rho)
  | _ => False
  end.
Proof.
  assert (Hok : exists m, blast_equivalence_miter proof_sub_neg = ROk m)
    by (vm_compute; eexists; reflexivity).
  destruct Hok as [m Hm]. rewrite Hm.
  apply (miter_faithful (fun _ _ => SErr EvalError) proof_sub_neg 8 m Hm);
    [reflexivity|reflexivity|lia| |vm_compute; reflexivity].
  repeat (apply Forall_cons_2; [cbn; lia|]). apply Forall_nil_2.
Defined.
