(* ===== verification/SatProv.v ===== *)
(** * The provenance of a blasted miter

    What [check_provenance] ([crates/trust-cg-verify/src/sat_blast.rs]) guarantees
    about any miter it accepts, and that the blaster's own miters pass it whenever
    the obligation is built from inputs and supported operations alone. *)

From S2P Require Import Prelude Smt SmtEquiv SmtSem SatBlast SatBlastSound.
Local Open Scope Z_scope.

#[local] Existing Instances B_bind B_ret.

(** ** Soundness of the check *)

Lemma clause_sat_perm A c c' : c ≡ₚ c' -> clause_sat A c = clause_sat A c'.
Proof.
  unfold clause_sat. induction 1 as [|x l l' _ IH|x y l|l l' l'' _ IH1 _ IH2]; cbn [existsb].
  - done.
  - by rewrite IH.
  - by rewrite !orb_assoc, (orb_comm (lval A x)).
  - by rewrite IH1.
Qed.

Lemma canon_sat A c : clause_sat A (canon c) = clause_sat A c.
Proof. apply clause_sat_perm, merge_sort_Permutation. Qed.

Lemma sat_perm A cs cs' : cs ≡ₚ cs' -> sat A cs <-> sat A cs'.
Proof. intros Hp. unfold sat. by setoid_rewrite Hp. Qed.

Lemma sat_canon A cs : sat A (canon <$> cs) <-> sat A cs.
Proof.
  induction cs as [|c cs IH]; [done|]. rewrite fmap_cons, !sat_cons, canon_sat. tauto.
Qed.

(** Grouping neither loses nor adds a clause. *)
Lemma group_sat A l per dis per' dis' :
  group per dis l = ROk (per', dis') ->
  length per' = length per /\
  (Forall (sat A) per' /\ sat A dis' <-> Forall (sat A) per /\ sat A dis /\ sat A l.*1).
Proof.
  revert per dis. induction l as [|[c [g|]] l IH]; intros per dis H; cbn [group] in H.
  - injection H as <- <-. split; [done|]. pose proof (sat_nil A). tauto.
  - destruct (per !! g) as [slot|] eqn:Hg; [|discriminate H].
    destruct (IH _ _ H) as [Hl Hs]. rewrite length_insert in Hl. split; [done|]. rewrite Hs.
    rewrite fmap_cons, sat_cons. cbn [fst].
    assert (Hi : Forall (sat A) (<[g:=slot ++ [canon c]]> per) <->
      Forall (sat A) per /\ clause_sat A c = true).
    { rewrite (Forall_lookup _ (<[g:=_]> per)), (Forall_lookup _ per).
      pose proof (lookup_lt_Some _ _ _ Hg). split.
      - intros Hall. pose proof (Hall g _ (list_lookup_insert_eq _ _ _ ltac:(done))) as Hslot.
        apply sat_app in Hslot as [Hslot Hc]. apply sat_cons in Hc as [Hc _]. rewrite canon_sat in Hc.
        split; [|done]. intros i x Hx. destruct (decide (i = g)) as [->|Hne];
          [by replace x with slot by congruence|].
        apply (Hall i). by rewrite list_lookup_insert_ne.
      - intros [Hall Hc] i x. destruct (decide (i = g)) as [->|Hne].
        + rewrite list_lookup_insert_eq by done. intros [= <-]. apply sat_app. split; [by apply (Hall g)|].
          apply sat_cons. rewrite canon_sat. split; [done|apply sat_nil].
        + rewrite list_lookup_insert_ne by done. apply Hall. }
    rewrite Hi. tauto.
  - destruct (IH _ _ H) as [Hl Hs]. split; [done|]. rewrite Hs.
    rewrite fmap_cons, sat_cons, sat_app, sat_cons, canon_sat. cbn [fst].
    pose proof (sat_nil A). tauto.
Qed.

(** The relation a gate states. *)
Definition gate_holds (A : Z -> bool) (g : GateRecord) : Prop :=
  gate_eval (kind g) (lval A <$> ins g) = Some (lval A (out g)).

Definition gate_nonzero (g : GateRecord) : Prop := Forall (fun l => l <> 0) (out g :: ins g).

Lemma check_gates_sat A gs per :
  check_gates gs per = ROk tt -> length per = length gs -> Forall gate_nonzero gs ->
  Forall (sat A) per <-> Forall (gate_holds A) gs.
Proof.
  revert per. induction gs as [|g gs IH]; intros [|slot per] H Hlen Hnz; try discriminate Hlen; [done|].
  cbn [check_gates] in H. destruct (bool_decide (length (ins g) = arity (kind g))); [|discriminate H].
  cbn [negb] in H. destruct (canonical_gate_clauses _ _ _) as [cs|] eqn:Hcs; [|discriminate H].
  destruct (bool_decide_reflect (sort_clauses (canon <$> cs) = sort_clauses slot)) as [E|]; [|discriminate H].
  apply Forall_cons in Hnz as [Hg Hnz]. rewrite !Forall_cons, (IH per H) by (done || by injection Hlen).
  apply Forall_cons in Hg as [Ho Hi]. apply and_iff_compat_r.
  unfold gate_holds. rewrite <- (gate_cnf A _ _ _ _ Hcs) by done. rewrite <- (sat_canon A cs).
  rewrite <- (sat_perm A (sort_clauses slot) slot) by apply merge_sort_Permutation.
  rewrite <- E. apply sat_perm, merge_sort_Permutation.
Qed.

(** What the literal [d] in the disjunction says of the bits [a] and [b]. *)
Definition diff_holds (A : Z -> bool) (a b d : Z) : Prop :=
  if 0 <? d then lval A a <> lval A b else lval A a = lval A b.

(** Each diff literal belongs to the XOR gate of the two sides' bits. *)
Lemma check_diff_gates A dg diff xs ys :
  check_diff dg diff xs ys = ROk tt -> Forall (gate_holds A) dg -> Forall gate_nonzero dg ->
  length xs = length diff -> length ys = length diff ->
  clause_sat A diff = true <->
  exists i a b d, xs !! i = Some a /\ ys !! i = Some b /\ diff !! i = Some d /\ diff_holds A a b d.
Proof.
  revert xs ys. induction diff as [|d diff IH]; intros [|a xs] [|b ys] H Hg Hnz Hx Hy;
    try discriminate Hx; try discriminate Hy.
  { split; [done|]. intros (i & ? & ? & ? & Hi & _). by rewrite lookup_nil in Hi. }
  cbn [check_diff] in H. destruct (find _ dg) as [g|] eqn:Hf; [|discriminate H].
  apply find_some in Hf as [Hin Hout]. apply Z.eqb_eq in Hout. apply list_elem_of_In in Hin.
  destruct (bool_decide_reflect (kind g = Xor2)) as [Hk|]; [|discriminate H].
  destruct (bool_decide_reflect (ins g = [a; b])) as [Hi|]; [|discriminate H]. cbn [andb] in H.
  assert (Hd : lval A d = true <-> diff_holds A a b d).
  { rewrite Forall_forall in Hg, Hnz. specialize (Hg g Hin). apply Hnz, Forall_cons in Hin as [Hd0 _].
    unfold gate_holds in Hg. rewrite Hk, Hi, Hout in Hg. rewrite Hout in Hd0. cbn in Hg. injection Hg as Hg.
    unfold diff_holds. revert Hg. unfold lval at 3. rewrite (proj2 (Z.ltb_lt 0 (Z.abs d))) by lia.
    unfold lval at 3. destruct (Z.ltb_spec 0 d).
    - rewrite Z.abs_eq by lia. intros <-. by destruct (lval A a), (lval A b).
    - rewrite Z.abs_neq by lia. intros <-. by destruct (lval A a), (lval A b). }
  unfold clause_sat in *. cbn [existsb]. rewrite orb_true_iff, Hd.
  cbn [length] in Hx, Hy. rewrite (IH xs ys) by (done || lia). split.
  - intros [Hd1|(i & u & v & d' & ?)]; [by exists 0%nat, a, b, d|by exists (S i), u, v, d'].
  - intros ([|i] & u & v & d' & Hu & Hv & Hd' & Hh); [left|right; by exists i, u, v, d']. cbn in Hu, Hv, Hd'. congruence.
Qed.

(** C29: a miter that [check_provenance] accepts means what its provenance says.
    Over non-zero gate literals, an assignment satisfies
    its clauses precisely when every recorded gate computes its truth table and, for
    some output bit, the two sides differ, if the literal of the bit in the
    disjunction is positive, or agree, if it is negative; in particular no clause is
    missing, extra or attached to the wrong gate.  The check leaves the sign of these
    literals open: only where all are positive, as in the miters of the blaster,
    does the miter say that the sides differ. *)
Theorem check_provenance_sound m A :
  check_provenance m = ROk tt ->
  Forall gate_nonzero (p_gates (m_provenance m)) ->
  sat A (m_clauses m) <->
  Forall (gate_holds A) (p_gates (m_provenance m)) /\
  exists i a b d, p_ir_out (m_provenance m) !! i = Some a /\
    p_machine_out (m_provenance m) !! i = Some b /\ p_diff (m_provenance m) !! i = Some d /\ diff_holds A a b d.
Proof.
  unfold check_provenance. set (p := m_provenance m). intros H Hnz.
  destruct (bool_decide_reflect (length (m_clause_tags m) = length (m_clauses m))) as [Hlen|];
    [|discriminate H].
  cbn [negb] in H. destruct (group _ _ _) as [[per dis]| |] eqn:Hgr; try discriminate H.
  destruct (group_sat A _ _ _ _ _ Hgr) as [Hl Hs]. rewrite length_replicate in Hl.
  rewrite fst_zip in Hs by lia. cbn [mbind Res_bind] in H.
  destruct (check_gates (p_gates p) per) as [[]| |] eqn:Hcg; try discriminate H.
  cbn [mbind Res_bind] in H. destruct dis as [|c [|]]; try discriminate H.
  destruct (bool_decide_reflect (c = canon (p_diff p))) as [->|]; [|discriminate H]. cbn [negb] in H.
  destruct (bool_decide_reflect (length (p_ir_out p) = length (p_machine_out p))) as [H1|]; [|discriminate H].
  destruct (bool_decide_reflect (length (p_ir_out p) = length (p_diff p))) as [H2|]; [|discriminate H].
  cbn [negb orb] in H. rewrite (check_gates_sat A _ _ Hcg Hl Hnz) in Hs.
  assert (Hrep : Forall (sat A) (replicate (length (p_gates p)) [])) by (apply Forall_replicate, sat_nil).
  rewrite sat_cons, canon_sat in Hs. pose proof (sat_nil A).
  assert (Hd : Forall (gate_holds A) (p_gates p) -> clause_sat A (p_diff p) = true <->
    exists i a b d, p_ir_out p !! i = Some a /\ p_machine_out p !! i = Some b /\ p_diff p !! i = Some d /\ diff_holds A a b d).
  { intros Hg. rewrite Forall_forall in Hg, Hnz.
    eapply check_diff_gates; [exact H| | |lia|lia]; apply Forall_forall; intros g Hin;
      apply list_elem_of_In, filter_In in Hin as [Hin%list_elem_of_In _]; [by apply Hg|by apply Hnz]. }
  tauto.
Qed.

Lemma check_provenance_sound_witness :
  match blast_equivalence_miter proof_sub_neg with
  | ROk m =>
      length (p_gates (m_provenance m)) = 51%nat /\
      forall A, sat A (m_clauses m) ->
        exists i a b, p_ir_out (m_provenance m) !! i = Some a /\
          p_machine_out (m_provenance m) !! i = Some b /\ lval A a <> lval A b
  | _ => False
  end.
Proof.
  assert (Hok : exists m, blast_equivalence_miter proof_sub_neg = ROk m /\ check_provenance m = ROk tt /\
    forallb (fun g => forallb (fun l => negb (l =? 0)) (out g :: ins g)) (p_gates (m_provenance m)) = true /\
    forallb (fun d => 0 <? d) (p_diff (m_provenance m)) = true /\
    length (p_gates (m_provenance m)) = 51%nat)
    by (vm_compute; eexists; split_and!; reflexivity).
  destruct Hok as (m & -> & Hc & Hg & Hd & Hl). split; [exact Hl|]. intros A HA.
  destruct (proj1 (check_provenance_sound m A Hc ltac:(
    apply Forall_forall; intros g Hin%list_elem_of_In; rewrite forallb_forall in Hg;
    specialize (Hg g Hin); apply Forall_forall; intros l Hl'%list_elem_of_In;
    rewrite forallb_forall in Hg; specialize (Hg l Hl'); lia)) HA) as (_ & i & a & b & d & Ha & Hb & Ed & Hh).
  exists i, a, b. split; [exact Ha|]. split; [exact Hb|].
  rewrite forallb_forall in Hd. unfold diff_holds in Hh. rewrite Hd in Hh; [exact Hh|].
  apply list_elem_of_In. by eapply list_elem_of_lookup_2.
Defined.

(** The polarity of a diff literal is not checked: with it negated, the accepted
    miter asserts that the sides agree. *)
Example negated_diff_accepted :
  let g := mkGate Diff Xor2 3 [1; 2] in
  let cs := default [] (canonical_gate_clauses Xor2 3 [1; 2]) in
  check_provenance (mkMiter 3 (cs ++ [[-3]]) (replicate 4 (Some 0%nat) ++ [None]) [] ""
    (mkProv 1 3 [] [g] [1] [2] [-3])) = ROk tt.
Proof. reflexivity. Qed.

(** ** The check passes on what the blaster emits *)

Lemma group_slot pre slot post dis cs rest :
  group (pre ++ slot :: post) dis (((fun c => (c, Some (length pre))) <$> cs) ++ rest) =
  group (pre ++ (slot ++ (canon <$> cs)) :: post) dis rest.
Proof.
  revert slot. induction cs as [|c cs IH]; intros slot; [by rewrite app_nil_r|].
  rewrite fmap_cons. cbn [app group]. rewrite list_lookup_middle by done.
  rewrite list_insert_middle || rewrite insert_app_r_alt by lia.
  rewrite ?Nat.sub_diag. cbn [insert list_insert]. rewrite IH, <- app_assoc. done.
Qed.

Lemma group_entries gs pre dis rest :
  group (pre ++ replicate (length gs) []) dis (entries (length pre) gs ++ rest) =
  group (pre ++ ((fun g => canon <$> gate_clauses g) <$> gs)) dis rest.
Proof.
  revert pre. induction gs as [|g gs IH]; intros pre; [done|].
  cbn [entries length replicate]. rewrite <- app_assoc, group_slot, fmap_cons.
  change (?x :: ?l) with ([x] ++ l). rewrite !(app_assoc pre).
  specialize (IH (pre ++ [[] ++ (canon <$> gate_clauses g)])).
  rewrite length_app in IH. cbn [length] in IH. replace (length pre + 1)%nat with (S (length pre)) in IH by lia.
  exact IH.
Qed.

Lemma check_gates_coherent gs :
  Forall (fun g => length (ins g) = arity (kind g)) gs ->
  check_gates gs ((fun g => canon <$> gate_clauses g) <$> gs) = ROk tt.
Proof.
  induction 1 as [|g gs Hg _ IH]; [done|]. rewrite fmap_cons. cbn [check_gates].
  rewrite bool_decide_eq_true_2 by done. cbn [negb].
  destruct (canonical_some (kind g) (out g) (ins g) Hg) as [cs Hcs].
  assert (gate_clauses g = cs) as Hgc by (unfold gate_clauses; by rewrite Hcs).
  rewrite Hcs, bool_decide_eq_true_2; [done|by rewrite Hgc].
Qed.

(** The diff gates of [n] pairs of literals, outputs above [v]. *)
Fixpoint diff_records (v : Z) (xs ys : list Z) : list GateRecord :=
  match xs, ys with
  | a :: xs', c :: ys' => mkGate Diff Xor2 (v + 1) [a; c] :: diff_records (v + 1) xs' ys'
  | _, _ => []
  end.

Lemma diff_bits_lits xs ys b :
  length xs = length ys -> 0 <= next_var b -> next_var b + Z.of_nat (length xs) < 2 ^ 31 ->
  bside b = Diff ->
  exists b', diff_bits (Lit <$> xs) (Lit <$> ys) b = ROk (new_ids (next_var b) (length xs), false, b') /\
    gates b' = gates b ++ diff_records (next_var b) xs ys.
Proof.
  revert ys b. induction xs as [|a xs IH]; intros [|c ys] b Hlen H0 H1 Hside; try discriminate Hlen.
  { exists b. by rewrite app_nil_r. }
  rewrite !fmap_cons. cbn [diff_bits xor2]. unfold emit_gate, mbind, B_bind, mret, B_ret.
  cbn [length] in H1. rewrite fresh_value by lia. unfold push_gate. cbn [canonical_gate_clauses].
  edestruct (IH ys) as (b' & -> & Hg); [by injection Hlen|..].
  3: done.
  - cbn. lia.
  - cbn [next_var]. lia.
  - cbn [next_var gates bside] in *. exists b'. split.
    + cbn [length]. by rewrite new_ids_S.
    + rewrite Hg, <- app_assoc, Hside. done.
Qed.

Lemma find_gate gs g :
  g ∈ gs -> NoDup (out <$> gs) -> 0 < out g -> find (fun g' => out g' =? Z.abs (out g)) gs = Some g.
Proof.
  intros Hin Hnd Hpos. rewrite Z.abs_eq by lia. induction gs as [|h gs IH]; [by apply not_elem_of_nil in Hin|].
  rewrite fmap_cons in Hnd. apply NoDup_cons in Hnd as [Hni Hnd]. cbn [find].
  destruct (Z.eqb_spec (out h) (out g)) as [E|Hne].
  - apply elem_of_cons in Hin as [->|Hin]; [done|]. exfalso. apply Hni. rewrite E. by apply list_elem_of_fmap_2.
  - apply elem_of_cons in Hin as [->|Hin]; [done|]. by apply IH.
Qed.

Lemma check_diff_records dg v xs ys :
  length xs = length ys -> 0 <= v -> NoDup (out <$> dg) -> (forall g, g ∈ diff_records v xs ys -> g ∈ dg) ->
  check_diff dg (new_ids v (length xs)) xs ys = ROk tt.
Proof.
  intros Hlen Hv Hnd. revert v ys Hlen Hv.
  induction xs as [|a xs IH]; intros v [|c ys] Hlen Hv Hin; try discriminate Hlen; [done|].
  cbn [length]. rewrite new_ids_S. cbn [check_diff].
  set (g := mkGate Diff Xor2 (v + 1) [a; c]).
  assert (Hf : find (fun g' => out g' =? Z.abs (v + 1)) dg = Some g)
    by (apply (find_gate dg g); [apply Hin; by left|done|cbn; lia]).
  rewrite Hf. cbn [kind ins g].
  rewrite !bool_decide_eq_true_2 by done. cbn [andb]. apply IH; [by injection Hlen|lia|].
  intros h Hh. apply Hin. by right.
Qed.

Lemma diff_records_side v xs ys g : g ∈ diff_records v xs ys -> side g = Diff.
Proof.
  revert v ys. induction xs as [|a xs IH]; intros v [|c ys]; try by intros []%not_elem_of_nil.
  intros [->|H]%elem_of_cons; [done|by eapply IH].
Qed.

(** ** Outputs are literals *)

Definition returns {X} (m : B X) (P : X -> Prop) : Prop := forall b r b', m b = ROk (r, b') -> P r.

Lemma returns_ret {X} (x : X) (P : X -> Prop) : P x -> returns (mret x) P.
Proof. by intros HP b r b' [= <- _]. Qed.

Lemma returns_bind {X Y} (m : B X) (k : X -> B Y) P Q :
  returns m P -> (forall x, P x -> returns (k x) Q) -> returns (m ≫= k) Q.
Proof.
  intros Hm Hk b r b' H. unfold mbind, B_bind in H. destruct (m b) as [[x b1]| |] eqn:E; try discriminate H.
  eapply Hk; [by eapply Hm|done].
Qed.

Lemma returns_any {X} (m : B X) : returns m (fun _ => True).
Proof. done. Qed.

Definition is_lit (x : Bit) : Prop := match x with Lit _ => True | Const _ => False end.
(** A carry that is not the constant zero. *)
Definition live (x : Bit) : Prop := match x with Const false => False | _ => True end.

Lemma lit_negate x : is_lit x -> is_lit (negate x).
Proof. by destruct x. Qed.

Lemma lit_negate_if c x : is_lit x -> is_lit (negate_if c x).
Proof. destruct c; [apply lit_negate|done]. Qed.

Lemma gate_returns k l : returns (o ← emit_gate k l; mret (Lit o)) is_lit.
Proof. eapply returns_bind; [apply returns_any|]. intros o _. by apply returns_ret. Qed.

Lemma xor2_lit x y : is_lit x -> returns (xor2 x y) is_lit.
Proof.
  destruct x as [|a]; [done|]. intros _. destruct y as [[]|b]; cbn [xor2];
    [by apply returns_ret|by apply returns_ret|apply gate_returns].
Qed.

Lemma and2_lit x y : is_lit x -> live y -> returns (and2 x y) is_lit.
Proof.
  destruct x as [|a]; [done|]. intros _ Hy. destruct y as [[]|b]; [|done|]; cbn [and2];
    [by apply returns_ret|apply gate_returns].
Qed.

Lemma xor3_lit x y c : is_lit x -> returns (xor3 x y c) is_lit.
Proof.
  destruct x as [|a]; [done|]. intros _. destruct y as [b|b], c as [d|d]; cbn [xor3].
  1-3: (eapply returns_bind; [by apply xor2_lit|]); intros r Hr; by apply returns_ret, lit_negate_if.
  apply gate_returns.
Qed.

Lemma or2_lit x y : is_lit x -> is_lit y -> returns (or2 x y) is_lit.
Proof.
  intros Hx Hy. eapply returns_bind; [apply and2_lit; [by apply lit_negate|by destruct y]|].
  intros r Hr. by apply returns_ret, lit_negate.
Qed.

(** Two words of literals, or a word of literals and zeros with a live carry. *)
Definition addable (y : list Bit) (c : Bit) : Prop :=
  Forall is_lit y \/ (Forall (fun x => x = Const false) y /\ live c).

Lemma maj3_lit a y c :
  is_lit a -> (is_lit y \/ (y = Const false /\ live c)) -> returns (maj3 a y c) is_lit.
Proof.
  destruct a as [|a]; [done|]. intros _ [Hy|[-> Hc]].
  - destruct y as [|b]; [done|]. destruct c as [[]|d]; cbn [maj3];
      [by apply or2_lit|by apply and2_lit|apply gate_returns].
  - cbn [maj3]. destruct c as [[]|d]; [by apply and2_lit|done|by apply and2_lit].
Qed.

Lemma ripple_add_lits x y c :
  Forall is_lit x -> addable y c -> returns (ripple_add x y c) (Forall is_lit).
Proof.
  intros Hx. revert y c. induction Hx as [|a x Ha Hx IH]; intros y c Hy.
  { by apply returns_ret, Forall_nil_2. }
  destruct y as [|d y]; [by intros b r b' [=]|]. cbn [ripple_add].
  assert (Hd : (is_lit d \/ (d = Const false /\ live c)) /\ forall c', is_lit c' -> addable y c').
  { destruct Hy as [Hy|[Hy Hc]]; apply Forall_cons in Hy as [Hd Hy].
    - split; [by left|]. intros. by left.
    - split; [by right|]. intros c' Hc'. right. split; [done|]. by destruct c'. }
  destruct Hd as [Hd Hy']. eapply returns_bind; [by apply xor3_lit|]. intros s Hs.
  eapply (returns_bind _ _ (Forall is_lit)).
  - destruct x as [|a' x']; [by apply returns_ret, Forall_nil_2|].
    eapply returns_bind; [by apply maj3_lit|]. intros c' Hc'. apply IH. by apply Hy'.
  - intros rest Hr. by apply returns_ret, Forall_cons_2.
Qed.

Lemma bitwise_lits op x y : Forall is_lit x -> Forall is_lit y -> returns (bitwise op x y) (Forall is_lit).
Proof.
  intros Hx. revert y. induction Hx as [|a x Ha Hx IH]; intros y Hy.
  { by apply returns_ret, Forall_nil_2. }
  destruct Hy as [|d y Hd Hy]; [by apply returns_ret, Forall_nil_2|]. cbn [bitwise].
  eapply (returns_bind _ _ is_lit).
  - destruct op; [by apply xor2_lit|by apply or2_lit| |by apply or2_lit].
    apply and2_lit; [done|by destruct d].
  - intros r Hr. eapply returns_bind; [by apply IH|]. intros rest Hrest. by apply returns_ret, Forall_cons_2.
Qed.

(** Expressions without constants. *)
Fixpoint const_free (e : SmtExpr) : bool :=
  match e with
  | Var _ _ => true
  | BvAdd l r _ | BvSub l r _ | BvAnd l r _ | BvOr l r _ | BvXor l r _ => const_free l && const_free r
  | BvNeg o _ => const_free o
  | _ => false
  end.

Lemma blast_expr_lits env e :
  (forall x bits, env !! x = Some bits -> Forall is_lit bits) -> const_free e = true ->
  returns (blast_expr env e) (Forall is_lit).
Proof.
  intros Henv. 
  assert (Hneg : forall y, Forall is_lit y -> Forall is_lit (negate <$> y))
    by (intros y Hy; apply Forall_fmap; eapply Forall_impl; [exact Hy|]; apply lit_negate).
  assert (Hop : forall l r op, returns (blast_expr env l) (Forall is_lit) ->
    returns (blast_expr env r) (Forall is_lit) ->
    (forall x y, Forall is_lit x -> Forall is_lit y -> returns (op x y) (Forall is_lit)) ->
    returns ('(x, y) ← (x ← blast_expr env l; y ← blast_expr env r; _ ← same_length x y; mret (x, y));
       op x y) (Forall is_lit)).
  { intros l r op Hl Hr Ho.
    eapply (returns_bind _ _ (fun p => Forall is_lit p.1 /\ Forall is_lit p.2)); [|intros [x y] [? ?]; by apply Ho].
    eapply returns_bind; [exact Hl|]. intros x Hx. eapply returns_bind; [exact Hr|]. intros y Hy.
    eapply returns_bind; [apply returns_any|]. intros _ _. by apply returns_ret. }
  induction e; cbn [const_free]; intros Hc; try discriminate Hc;
    try (apply andb_true_iff in Hc as [? ?]); cbn [blast_expr].
  - destruct (env !! name) as [bits|] eqn:Hx; [|by intros b r b' [=]].
    case_match; [by intros b r b' [=]|]. apply returns_ret. by eapply Henv.
  - apply Hop; auto. intros x y Hx Hy. apply ripple_add_lits; [done|by left].
  - apply Hop; auto. intros x y Hx Hy. apply ripple_add_lits; [done|left; auto].
  - eapply returns_bind; [by apply IHe|]. intros x Hx. case_match; [by intros b r b' [=]|].
    apply ripple_add_lits; [auto|]. right. split; [by apply Forall_replicate|done].
  - apply Hop; auto using bitwise_lits.
  - apply Hop; auto using bitwise_lits.
  - apply Hop; auto using bitwise_lits.
Qed.

(** ** Acceptance *)

(** Built from the declared inputs, at their widths, by supported operations. *)
Fixpoint from_inputs (l : list (string * Z)) (e : SmtExpr) : bool :=
  match e with
  | Var x w => bool_decide ((x, w) ∈ l)
  | BvAdd a b _ | BvSub a b _ | BvAnd a b _ | BvOr a b _ | BvXor a b _ =>
      from_inputs l a && from_inputs l b
  | BvNeg o _ => from_inputs l o
  | _ => false
  end.

Lemma from_inputs_ok l env b b' e :
  declares l ∅ env b b' -> NoDup l.*1 -> Forall (fun i => 0 <= i.2) l -> from_inputs l e = true ->
  const_free e = true /\ blastable env e = true.
Proof.
  intros Hd Hnd Hw. rewrite Forall_forall in Hw. induction e; cbn [from_inputs const_free blastable];
    intros H; try discriminate H;
    try (apply andb_true_iff in H as [H1 H2]; destruct (IHe1 H1) as [-> ->], (IHe2 H2) as [-> ->]; done);
    auto.
  split; [done|]. apply bool_decide_eq_true in H.
  destruct (dc_all _ _ _ _ _ Hd name width H) as [bits Hx]. rewrite Hx.
  destruct (dc_new _ _ _ _ _ Hd name bits Hx) as [[]%lookup_empty_Some|(w & ids & Hin & Hl & _)].
  assert (w = width) as ->.
  { clear -Hnd H Hin. induction l as [|[y u] l IH]; [by apply not_elem_of_nil in H|].
    rewrite fmap_cons in Hnd. apply NoDup_cons in Hnd as [Hni Hnd]. cbn in Hni.
    assert (Hout : forall v, (name, v) ∈ l -> name ∈ l.*1)
      by (intros v Hv; apply list_elem_of_fmap; by exists (name, v)).
    apply elem_of_cons in H as [[= -> ->]|H], Hin as [[= ->]|Hin]; try done; eauto.
    - exfalso. eauto.
    - subst. exfalso. eauto. }
  specialize (Hw _ H). cbn in Hw. lia.
Qed.

Lemma bit_lit_lits (xs : list Z) : bit_lit <$> (Lit <$> xs) = xs.
Proof. rewrite <- list_fmap_compose. apply list_fmap_id. Qed.

Lemma zip_entries l (c : list Z) :
  zip ((l : list (list Z * option nat)).*1 ++ [c]) (l.*2 ++ [None]) = l ++ [(c, None)].
Proof. induction l as [|[c' t] l IH]; [done|]. cbn. f_equal. exact IH. Qed.

(** The provenance check passes after the comparison of two words of literals. *)
Lemma finish_miter_ok ob ids xs ys b gs v :
  coherent b -> gates b = gs ++ diff_records v xs ys -> length xs = length ys -> 0 <= v ->
  exists m, finish_miter ob ids (Lit <$> xs) (Lit <$> ys) (new_ids v (length xs)) false b = ROk m.
Proof.
  intros [Hc Ht Hg Ho] Hgs Hlen Hv. unfold finish_miter, push_untagged. cbn [mbind Res_bind].
  match goal with |- exists _, (_ ← check_provenance ?mt; _) = _ =>
    enough (check_provenance mt = ROk tt) as -> by (eexists; reflexivity) end.
  unfold check_provenance. cbn [m_clauses m_clause_tags m_provenance p_gates p_diff p_ir_out p_machine_out
    clauses clause_tags gates].
  rewrite !bit_lit_lits, Hc, Ht, !length_app, !length_fmap, bool_decide_eq_true_2 by done. cbn [negb].
  rewrite zip_entries.
  change (replicate (length (gates b)) []) with ([] ++ replicate (length (gates b)) ([] : list (list Z))).
  change (entries 0 (gates b)) with (entries (length ([] : list (list (list Z)))) (gates b)).
  rewrite group_entries. cbn [app group mbind Res_bind]. rewrite check_gates_coherent.
  2: { eapply Forall_impl; [exact Hg|]. by intros g [? _]. }
  cbn [mbind Res_bind]. rewrite bool_decide_eq_true_2 by done. cbn [negb].
  rewrite (bool_decide_eq_true_2 (length xs = length ys)) by done.
  rewrite (bool_decide_eq_true_2 (length xs = length (new_ids v (length xs))))
    by (unfold new_ids; by rewrite length_fmap, length_seq).
  cbn [negb orb].
  apply check_diff_records; [done|done| |].
  - eapply sublist_NoDup; [exact Ho|]. apply fmap_sublist. clear.
    induction (gates b) as [|g l IH]; [done|]. cbn. case_match; [by apply sublist_skip|by apply sublist_cons].
  - intros g Hin. apply list_elem_of_In, filter_In. split.
    + apply list_elem_of_In. rewrite Hgs. apply elem_of_app. by right.
    + apply bool_decide_eq_true_2. by eapply diff_records_side.
Qed.

Lemma lits_shape (l : list Bit) : Forall is_lit l -> exists xs, l = Lit <$> xs.
Proof.
  induction 1 as [|[|x] l Hx _ [xs ->]]; [by exists []|done|by exists (x :: xs)].
Qed.

Lemma coherent_new : coherent new.
Proof. split; [done|done|apply Forall_nil_2|apply NoDup_nil_2]. Qed.

Lemma declared_lits l env b b' :
  declares l ∅ env b b' -> forall x bits, env !! x = Some bits -> Forall is_lit bits.
Proof.
  intros Hd x bits Hx.
  destruct (dc_new _ _ _ _ _ Hd x bits Hx) as [[]%lookup_empty_Some|(? & l' & _ & _ & ->)].
  by apply Forall_fmap, Forall_forall.
Qed.

Lemma blast_sides_lits ob env :
  (forall x bits, env !! x = Some bits -> Forall is_lit bits) ->
  const_free (trust_ir_expr ob) = true -> const_free (aarch64_expr ob) = true ->
  returns (blast_sides ob env) (fun p => Forall is_lit p.1 /\ Forall is_lit p.2).
Proof.
  intros Henv Hi Hm. unfold blast_sides. eapply returns_bind; [apply returns_any|]. intros _ _.
  eapply returns_bind; [by apply blast_expr_lits|]. intros x Hx.
  eapply returns_bind; [apply returns_any|]. intros _ _.
  eapply returns_bind; [by apply blast_expr_lits|]. intros y Hy.
  case_match; [by intros b r b' [=]|]. by apply returns_ret.
Qed.

(** C40: the blaster accepts its whole fragment.  An obligation without
    preconditions or floating-point inputs, with distinct inputs, whose sides are
    well-sorted at one width up to 64 bits and built from the inputs by the
    supported operations, is always blasted: no error, no panic, and the
    provenance self-check never fails. *)
Theorem blast_total ob w :
  preconditions ob = [] -> fp_inputs ob = [] -> inputs ob <> [] -> NoDup (inputs ob).*1 ->
  Forall (fun i => 0 <= i.2) (inputs ob) ->
  from_inputs (inputs ob) (trust_ir_expr ob) = true -> from_inputs (inputs ob) (aarch64_expr ob) = true ->
  sort_of (trust_ir_expr ob) = Some (BitVec w) -> sort_of (aarch64_expr ob) = Some (BitVec w) ->
  w <= 64 -> var_bound ob w < 2 ^ 31 ->
  exists m, blast_equivalence_miter ob = ROk m.
Proof.
  intros Hp Hf Hi Hnd Hw Hfi Hfm Hsi Hsm H64 Hr. unfold blast_equivalence_miter, var_bound in *.
  rewrite Hp, Hf, !bool_decide_eq_true_2, bool_decide_eq_false_2 by done. cbn [negb].
  pose proof (stages_ok ob w Hsi Hsm H64 Hr) as Hst.
  destruct (declare_inputs (inputs ob) ∅ [] new) as [[[env ids] b0]| |]; [|done|done].
  destruct Hst as (Hd & Hg0 & Hst). cbn [mbind Res_bind].
  destruct (from_inputs_ok _ _ _ _ _ Hd Hnd Hw Hfi) as [Hci Hbi].
  destruct (from_inputs_ok _ _ _ _ _ Hd Hnd Hw Hfm) as [Hcm Hbm]. rewrite Hbi, Hbm in Hst.
  pose proof (blast_sides_lits ob env (declared_lits _ _ _ _ Hd) Hci Hcm) as Hlits.
  destruct (blast_sides ob env b0) as [[[x y] b1]| |] eqn:Eb; [|done|done].
  destruct (Hlits _ _ _ Eb) as [Hlx Hly]. cbn [fst snd] in *.
  apply lits_shape in Hlx as [xs ->], Hly as [ys ->].
  destruct Hst as (Hg1 & Hn1 & Hx & Hy). cbn [mbind Res_bind].
  pose proof (bl_length _ _ _ _ _ Hx) as Lx. pose proof (bl_length _ _ _ _ _ Hy) as Ly.
  rewrite length_fmap in Lx, Ly. pose proof (grows_wf _ _ _ Hg1) as Hwf1.
  destruct (set_side_spec b1 True Diff Hwf1 ltac:(lia)) as [Hg2 _]. unfold mbind at 2, B_bind.
  change (set_side Diff b1) with (ROk (tt, mkBlaster (next_var b1) (clauses b1) (clause_tags b1) (gates b1) Diff)).
  cbv iota beta. set (b1' := mkBlaster _ _ _ _ Diff) in *.
  pose proof (diff_bits_spec (Lit <$> xs) (Lit <$> ys) b1' True ltac:(rewrite !length_fmap; lia)
    (grows_bits _ _ _ _ Hg2 (bl_ok _ _ _ _ _ Hx)) (grows_bits _ _ _ _ Hg2 (bl_ok _ _ _ _ _ Hy))
    (grows_wf _ _ _ Hg2) ltac:(rewrite length_fmap; cbn; lia)) as Hds.
  destruct (diff_bits_lits xs ys b1') as (b2 & Hdb & Hgs);
    [lia|destruct Hwf1; cbn; lia|cbn; lia|done|].
  rewrite Hdb in Hds |- *. destruct Hds as [Hg3 _]. cbn [mbind Res_bind].
  eapply finish_miter_ok; [|exact Hgs|lia|destruct Hwf1; cbn; lia].
  apply (grows_coherent _ _ _ Hg3), (grows_coherent _ _ _ Hg2), (grows_coherent _ _ _ Hg1).
  apply (grows_coherent _ _ _ Hg0), coherent_new.
Qed.

Lemma blast_total_witness : exists m, blast_equivalence_miter proof_sub_neg = ROk m.
Proof.
  apply (blast_total proof_sub_neg 8); try reflexivity; try done.
  - by apply (bool_decide_unpack _); vm_compute.
  - repeat (apply Forall_cons_2; [cbn; lia|]). apply Forall_nil_2.
Defined.

(** An output bit that folds to a constant is refused even when the sides agree. *)
Example constant_bit_refused :
  let e := BvAnd (Var "a" 8) (BvConst 15 8) 8 in
  blast_equivalence_miter (mkOb "mask" e e [("a", 8)]%string [] []) = RErr ProvenanceMismatch.
Proof. reflexivity. Qed.

(** A node whose width disagrees with its operands is blasted at theirs: here the
    interpreter sees two bits and the miter one. *)
Example node_width_unchecked :
  let a := Var "a" 1 in let e := BvAdd a a 2 in
  (exists m, blast_equivalence_miter (mkOb "narrow" e (BvSub a a 1) [("a", 1)]%string [] []) = ROk m) /\
  try_eval (fun _ _ => SErr EvalError) e (mkEnv [("a", 1)]%string) = SOk (Bv 2) /\
  try_eval (fun _ _ => SErr EvalError) (BvSub a a 1) (mkEnv [("a", 1)]%string) = SOk (Bv 0).
Proof. split_and!; [vm_compute; eexists; reflexivity|reflexivity|reflexivity]. Qed.
