(* ===== verification/Frame.v ===== *)
(** * AArch64 stack frames ([crates/trust-cg-codegen/src/frame.rs])

    The machine instructions and functions frame lowering works on, the scan for
    callee-saved registers, the placement of stack slots, the computation of the
    frame layout, the prologue and epilogue sequences and the Darwin compact
    unwind encoding.  [FrameSlots] proves the placement of the slots, [FrameExec]
    executes the sequences. *)

From S2P Require Import Prelude Regs.
Local Open Scope Z_scope.

(** ** Machine instructions ([crates/trust-cg-ir/src/operand.rs], [inst.rs]) *)

Inductive SpecialReg := SpecSP | SpecXZR | SpecWZR.

#[export] Instance SpecialReg_eq_dec : EqDecision SpecialReg.
Proof. solve_decision. Defined.

(** The 64-bit float immediate is kept as its bit pattern. *)
Inductive MachOperand :=
  | MVReg (v : VReg)
  | MPReg (p : PReg)
  | MImm (i : Z)
  | MFImm (bits : Z)
  | MBlock (b : Z)
  | MStackSlot (s : Z)
  | MFrameIndex (i : Z)
  | MMemOp (base : PReg) (offset : Z)
  | MSpecial (s : SpecialReg)
  | MSymbol (name : string)
  | MJumpTableIndex (i : Z)
  | MIncomingArg (offset : Z).

(** The opcodes frame lowering emits or tests for; every other opcode of the
    source's enumeration is [OtherOp] with its discriminant. *)
Inductive MachOpcode :=
  | StpPreIndex | StpRI | LdpRI | LdpPostIndex | AddRI | SubRI | Ret
  | StackAlloc | StrRI | StrbRI | StrhRI | TailCall
  | LdrRI | LdrbRI | LdrsbRI | LdrhRI | LdrshRI | STRWui | STRSui | STRXui | STRDui
  | OtherOp (discriminant : Z).

#[export] Instance MachOpcode_eq_dec : EqDecision MachOpcode.
Proof. solve_decision. Defined.

(** The fields of [MachInst] frame lowering reads; of the flags, [IS_CALL]. *)
Record MachInst := mkMachInst {
  opcode : MachOpcode;
  operands : list MachOperand;
  implicit_defs : list PReg;
  implicit_uses : list PReg;
  is_call : bool }.

(** [MachInst::new] for the opcodes emitted here, none of which is a call. *)
Definition MachInst_new (op : MachOpcode) (ops : list MachOperand) : MachInst :=
  mkMachInst op ops [] [] false.

Inductive StackSlotSizeSource := SizeValue (v : Z) | SizeUnknown.
Inductive StackSlotAllocationKind :=
  | Fixed
  | RuntimeSized (size_source : StackSlotSizeSource).

Record StackSlot := mkSlot {
  size : Z;
  align : Z;
  allocation : StackSlotAllocationKind }.

#[export] Instance StackSlot_inhabited : Inhabited StackSlot := populate (mkSlot 0 1 Fixed).

(** [u32::is_power_of_two], on the 32 values it accepts. *)
Definition is_power_of_two (x : Z) : bool := (0 <? x) && (Z.land x (x - 1) =? 0).

(** [StackSlot::new], [new_dynamic] and [new_dynamic_with_unit]; [None] is a
    failed [assert!]. *)
Definition StackSlot_new (sz al : Z) : option StackSlot :=
  if is_power_of_two al then Some (mkSlot sz al Fixed) else None.

Definition StackSlot_new_dynamic (src : StackSlotSizeSource) (al : Z) : option StackSlot :=
  if is_power_of_two al then Some (mkSlot 0 al (RuntimeSized src)) else None.

Definition StackSlot_new_dynamic_with_unit (src : StackSlotSizeSource) (unit_size al : Z)
    : option StackSlot :=
  if is_power_of_two al
  then if 0 <? unit_size then Some (mkSlot unit_size al (RuntimeSized src)) else None
  else None.

Definition is_runtime_sized (slot : StackSlot) : bool :=
  match allocation slot with RuntimeSized _ => true | Fixed => false end.

Inductive StackProtectorMode := NoProtector | StackGuard.

Definition is_enabled (m : StackProtectorMode) : bool :=
  match m with NoProtector => false | StackGuard => true end.

(** The fields of [MachFunction] frame lowering reads. *)
Record MachFunction := mkMachFunction {
  insts : list MachInst;
  stack_slots : list StackSlot;
  stack_protector : StackProtectorMode;
  stack_protector_slot : option Z }.

(** [MachFunction::alloc_stack_slot]. *)
Definition alloc_stack_slot (func : MachFunction) (slot : StackSlot) : Z * MachFunction :=
  (wrap 32 (Z.of_nat (length (stack_slots func))),
   mkMachFunction (insts func) (stack_slots func ++ [slot]) (stack_protector func)
     (stack_protector_slot func)).

(** ** Constants *)

Abbreviation UNWIND_ARM64_MODE_FRAME := (0x04000000)%Z (only parsing).
Abbreviation UNWIND_ARM64_MODE_FRAMELESS := (0x02000000)%Z (only parsing).
Abbreviation UNWIND_ARM64_MODE_DWARF := (0x03000000)%Z (only parsing).
Abbreviation UNWIND_ARM64_FRAME_X19_X20_PAIR := (0x00000001)%Z (only parsing).
Abbreviation UNWIND_ARM64_FRAME_X21_X22_PAIR := (0x00000002)%Z (only parsing).
Abbreviation UNWIND_ARM64_FRAME_X23_X24_PAIR := (0x00000004)%Z (only parsing).
Abbreviation UNWIND_ARM64_FRAME_X25_X26_PAIR := (0x00000008)%Z (only parsing).
Abbreviation UNWIND_ARM64_FRAME_X27_X28_PAIR := (0x00000010)%Z (only parsing).
Abbreviation UNWIND_ARM64_FRAME_D8_D9_PAIR := (0x00000100)%Z (only parsing).
Abbreviation UNWIND_ARM64_FRAME_D10_D11_PAIR := (0x00000200)%Z (only parsing).
Abbreviation UNWIND_ARM64_FRAME_D12_D13_PAIR := (0x00000400)%Z (only parsing).
Abbreviation UNWIND_ARM64_FRAME_D14_D15_PAIR := (0x00000800)%Z (only parsing).
Abbreviation RED_ZONE_SIZE := 128%Z (only parsing).
Definition STACK_ALIGNMENT : Z := 16.
Abbreviation AARCH64_ADD_SUB_IMM12_MAX := 4095%Z (only parsing).
Definition AARCH64_SP_ADJUST_CHUNK : Z :=
  (AARCH64_ADD_SUB_IMM12_MAX / STACK_ALIGNMENT) * STACK_ALIGNMENT.

Definition X29 : PReg := mkPReg 29.
Definition X30 : PReg := mkPReg 30.

(** ** Layout data *)

Record CalleeSavedPair := mkPair {
  reg1 : PReg;
  reg2 : PReg;
  fp_offset : Z;
  is_fpr : bool }.

Record FrameLayout := mkLayout {
  callee_saved_pairs : list CalleeSavedPair;
  callee_saved_area_size : Z;
  spill_area_size : Z;
  local_area_size : Z;
  outgoing_arg_area_size : Z;
  total_frame_size : Z;
  uses_frame_pointer : bool;
  is_leaf : bool;
  uses_red_zone : bool;
  fp_to_spill_offset : Z;
  has_dynamic_alloc : bool }.

Definition sp_adjustment (l : FrameLayout) : Z :=
  wrap 32 (total_frame_size l - callee_saved_area_size l).

(** ** Scanning the function *)

Record ScanResult := mkScan { gpr_used : Z; fpr_used : Z; has_calls : bool }.

Definition callee_saved_gpr_index (preg : PReg) : option Z :=
  let r := encoding preg in
  if within 19 28 r then Some (r - 19)
  else if within 51 60 r then Some (r - 51)
  else None.

Definition callee_saved_fpr_index (preg : PReg) : option Z :=
  let r := encoding preg in
  if within 72 79 r then Some (r - 72)
  else if within 104 111 r then Some (r - 104)
  else if within 136 143 r then Some (r - 136)
  else if within 173 180 r then Some (r - 173)
  else None.

Definition mark_callee_saved_reg (used : Z * Z) (preg : PReg) : Z * Z :=
  let '(gpr, fpr) := used in
  match callee_saved_gpr_index preg with
  | Some idx => (Z.lor gpr (Z.shiftl 1 idx), fpr)
  | None =>
      match callee_saved_fpr_index preg with
      | Some idx => (gpr, Z.lor fpr (Z.shiftl 1 idx))
      | None => (gpr, fpr)
      end
  end.

Definition operand_pregs (ops : list MachOperand) : list PReg :=
  omap (fun op => match op with MPReg p => Some p | _ => None end) ops.

(** The loop body of [scan_function]: the explicit operands, then the implicit
    definitions and uses. *)
Definition scan_inst (acc : ScanResult) (inst : MachInst) : ScanResult :=
  let calls := if negb (has_calls acc) && is_call inst && bool_decide (opcode inst <> TailCall)
               then true else has_calls acc in
  let used := fold_left mark_callee_saved_reg (operand_pregs (operands inst))
                (gpr_used acc, fpr_used acc) in
  let used := fold_left mark_callee_saved_reg (implicit_defs inst ++ implicit_uses inst) used in
  mkScan used.1 used.2 calls.

Definition scan_function (func : MachFunction) : ScanResult :=
  fold_left scan_inst (insts func) (mkScan 0 0 false).

(** ** Stack slots *)

Definition stack_slot_layout_order (func : MachFunction) : list nat :=
  let slot_count := length (stack_slots func) in
  let protector :=
    match stack_protector_slot func with
    | Some slot => let idx := Z.to_nat slot in
                   if (idx <? slot_count)%nat then Some idx else None
    | None => None
    end in
  match protector with Some idx => [idx] | None => [] end ++
  filter (fun idx => Some idx <> protector) (seq 0 slot_count).

(** The step both walkers take over a fixed-size slot, on 32-bit offsets: subtract
    the size, then round the base down to the alignment. *)
Definition place_slot (offset : Z) (slot : StackSlot) : Z :=
  let offset := swrap 32 (offset - swrap 32 (size slot)) in
  let al := swrap 32 (align slot) in
  if 0 <? al then Z.land offset (Z.lnot (swrap 32 (al - 1))) else offset.

(** The indices of [stack_slot_layout_order] are in range, so the total lookup
    [!!!] is the source's indexing. *)
Definition compute_stack_slot_area (func : MachFunction) : Z :=
  let step '(offset, max_align) idx :=
    let slot := stack_slots func !!! idx in
    if is_runtime_sized slot then (offset, max_align)
    else (place_slot offset slot, Z.max max_align (align slot)) in
  let '(offset, max_align) := fold_left step (stack_slot_layout_order func) (0, STACK_ALIGNMENT) in
  let extent := wrap 32 (swrap 32 (- offset)) in
  wrap 32 (extent + wrap 32 (max_align - STACK_ALIGNMENT)).

Definition stack_slot_frame_offsets (func : MachFunction) (layout : FrameLayout)
    : list (option Z) :=
  let step '(offsets, current_offset) idx :=
    let slot := stack_slots func !!! idx in
    if is_runtime_sized slot then (offsets, current_offset)
    else let current_offset := place_slot current_offset slot in
         (<[idx := Some current_offset]> offsets, current_offset) in
  (fold_left step (stack_slot_layout_order func)
     (replicate (length (stack_slots func)) None, fp_to_spill_offset layout)).1.

Definition compute_slot_offsets (func : MachFunction) (layout : FrameLayout) : list Z :=
  map (fun o => default (fp_to_spill_offset layout) o) (stack_slot_frame_offsets func layout).

Definition function_has_runtime_stack_slots (func : MachFunction) : bool :=
  existsb is_runtime_sized (stack_slots func).

Definition is_dynamic_stack_alloc_pseudo (inst : MachInst) : bool :=
  bool_decide (opcode inst = StackAlloc) && (2 <=? length (operands inst))%nat.

Definition function_has_dynamic_stack_alloc_pseudos (func : MachFunction) : bool :=
  existsb is_dynamic_stack_alloc_pseudo (insts func).

Definition contains_preg (l : list PReg) (p : PReg) : bool := bool_decide (p ∈ l).

Definition function_has_frame_pointer_dependencies (func : MachFunction) : bool :=
  existsb (fun inst =>
    contains_preg (implicit_defs inst) X29
    || contains_preg (implicit_uses inst) X29
    || existsb (fun operand =>
         match operand with
         | MStackSlot _ | MFrameIndex _ | MIncomingArg _ => true
         | MPReg preg => bool_decide (preg = X29)
         | MMemOp base _ => bool_decide (base = X29)
         | _ => false
         end) (operands inst)) (insts func).

Definition ensure_stack_protector_slot (func : MachFunction) : option MachFunction :=
  if negb (is_enabled (stack_protector func)) || bool_decide (is_Some (stack_protector_slot func))
  then Some func
  else match StackSlot_new 8 STACK_ALIGNMENT with
       | Some s =>
           let '(slot, func) := alloc_stack_slot func s in
           Some (mkMachFunction (insts func) (stack_slots func) (stack_protector func) (Some slot))
       | None => None
       end.

(** ** Outgoing arguments *)

(** [align_up] on [u32]; [align] is a power of two (a debug assertion). *)
Definition align_up (value al : Z) : Z :=
  Z.land (wrap 32 (value + al - 1)) (wrap 32 (Z.lnot (al - 1))).

(** [(base_idx, offset_idx, access_size)] of the stores that may write an
    outgoing argument. *)
Definition outgoing_store_shape (op : MachOpcode) : option (nat * nat * Z) :=
  match op with
  | StrRI => Some (1%nat, 2%nat, 8)
  | StrbRI => Some (1%nat, 2%nat, 1)
  | StrhRI => Some (1%nat, 2%nat, 2)
  | StpRI => Some (2%nat, 3%nat, 16)
  | _ => None
  end.

Definition operand_is_sp (op : MachOperand) : bool :=
  match op with
  | MPReg p => bool_decide (p = SP)
  | MSpecial SpecSP => true
  | _ => false
  end.

Definition outgoing_store_end (inst : MachInst) : option Z :=
  match outgoing_store_shape (opcode inst) with
  | None => None
  | Some (base_idx, offset_idx, access_size) =>
      if (length (operands inst) <=? offset_idx)%nat then None
      else match operands inst !! base_idx, operands inst !! offset_idx with
           | Some base, Some (MImm off) =>
               if operand_is_sp base && (0 <=? off)
               then Some (swrap 64 (off + access_size)) else None
           | _, _ => None
           end
  end.

Definition compute_max_outgoing_arg_size (func : MachFunction) : Z :=
  let step max_end inst :=
    match outgoing_store_end inst with
    | Some e => if max_end <? e then e else max_end
    | None => max_end
    end in
  align_up (wrap 32 (fold_left step (insts func) 0)) 16.

(** ** The frame layout *)

Definition gpr_pair_regs : list (PReg * PReg * Z) :=
  [ (mkPReg 19, mkPReg 20, 0x003); (mkPReg 21, mkPReg 22, 0x00C);
    (mkPReg 23, mkPReg 24, 0x030); (mkPReg 25, mkPReg 26, 0x0C0);
    (mkPReg 27, mkPReg 28, 0x300) ].

Definition fpr_pair_regs : list (PReg * PReg * Z) :=
  [ (mkPReg 72, mkPReg 73, 0x03); (mkPReg 74, mkPReg 75, 0x0C);
    (mkPReg 76, mkPReg 77, 0x30); (mkPReg 78, mkPReg 79, 0xC0) ].

(** One of the two loops that append the used pairs of a table. *)
Definition push_pairs (fpr : bool) (used : Z) (table : list (PReg * PReg * Z))
    (acc : list CalleeSavedPair * Z) : list CalleeSavedPair * Z :=
  fold_left (fun '(pairs, csa_offset) '(r1, r2, mask) =>
    if Z.land used mask =? 0 then (pairs, csa_offset)
    else let csa_offset := csa_offset - 16 in
         (pairs ++ [mkPair r1 r2 csa_offset fpr], csa_offset)) table acc.

Definition compute_frame_layout_inner (func : MachFunction) (outgoing_arg_size : Z)
    (enable_red_zone has_dynamic_alloc : bool) : FrameLayout :=
  let has_dynamic_alloc := has_dynamic_alloc || function_has_runtime_stack_slots func
                           || function_has_dynamic_stack_alloc_pseudos func in
  let scan := scan_function func in
  let is_leaf := negb (has_calls scan) in
  let gpr_used := gpr_used scan in
  let fpr_used := fpr_used scan in
  let has_frame_pointer_dependencies := function_has_frame_pointer_dependencies func in
  let has_stack_protector_frame_dependency :=
    is_enabled (stack_protector func) || bool_decide (is_Some (stack_protector_slot func)) in
  let raw_stack_slot_area := compute_stack_slot_area func in
  let outgoing_arg_area_size :=
    if is_leaf then 0 else align_up outgoing_arg_size STACK_ALIGNMENT in
  let can_use_zero_frame :=
    enable_red_zone && is_leaf && negb has_dynamic_alloc && (outgoing_arg_area_size =? 0)
    && (gpr_used =? 0) && (fpr_used =? 0) && negb has_stack_protector_frame_dependency
    && negb has_frame_pointer_dependencies in
  let uses_frame_pointer := negb can_use_zero_frame in
  let stack_slot_area := if can_use_zero_frame then 0 else raw_stack_slot_area in
  let pairs := if uses_frame_pointer then [mkPair X29 X30 0 false] else [] in
  let acc := push_pairs false gpr_used gpr_pair_regs (pairs, -16) in
  let pairs := (push_pairs true fpr_used fpr_pair_regs acc).1 in
  let callee_saved_area_size := Z.of_nat (length pairs) * 16 in
  let raw_total :=
    wrap 32 (wrap 32 (callee_saved_area_size + stack_slot_area) + outgoing_arg_area_size) in
  let total_frame_size := align_up raw_total STACK_ALIGNMENT in
  let uses_red_zone :=
    enable_red_zone && is_leaf && negb has_dynamic_alloc && (stack_slot_area =? 0)
    && (outgoing_arg_area_size =? 0) && (total_frame_size <=? RED_ZONE_SIZE) in
  let fp_to_spill_offset := - (callee_saved_area_size - 16) in
  mkLayout pairs callee_saved_area_size stack_slot_area 0 outgoing_arg_area_size
    total_frame_size uses_frame_pointer is_leaf uses_red_zone fp_to_spill_offset
    has_dynamic_alloc.

Definition compute_frame_layout (func : MachFunction) (outgoing_arg_size : Z)
    (enable_red_zone : bool) : FrameLayout :=
  compute_frame_layout_inner func outgoing_arg_size enable_red_zone false.

Definition compute_frame_layout_dynamic (func : MachFunction) (outgoing_arg_size : Z)
    (enable_red_zone : bool) : FrameLayout :=
  compute_frame_layout_inner func outgoing_arg_size enable_red_zone true.

(** ** Instruction builders *)

Definition make_stp_pre_index (r1 r2 : PReg) (offset : Z) : MachInst :=
  MachInst_new StpPreIndex [MPReg r1; MPReg r2; MSpecial SpecSP; MImm offset].

Definition make_stp_offset (r1 r2 : PReg) (offset : Z) : MachInst :=
  MachInst_new StpRI [MPReg r1; MPReg r2; MSpecial SpecSP; MImm offset].

Definition make_ldp_offset (r1 r2 : PReg) (offset : Z) : MachInst :=
  MachInst_new LdpRI [MPReg r1; MPReg r2; MSpecial SpecSP; MImm offset].

Definition make_ldp_base_offset (r1 r2 base : PReg) (offset : Z) : MachInst :=
  MachInst_new LdpRI [MPReg r1; MPReg r2; MPReg base; MImm offset].

Definition make_ldp_post_index (r1 r2 : PReg) (offset : Z) : MachInst :=
  MachInst_new LdpPostIndex [MPReg r1; MPReg r2; MSpecial SpecSP; MImm offset].

Definition make_add_fp_sp_imm (imm : Z) : MachInst :=
  MachInst_new AddRI [MPReg X29; MSpecial SpecSP; MImm imm].

Definition make_mov_sp_to_fp : MachInst := make_add_fp_sp_imm 0.

Definition make_mov_fp_to_sp : MachInst :=
  MachInst_new AddRI [MSpecial SpecSP; MPReg X29; MImm 0].

Definition make_sub_sp_imm (imm : Z) : MachInst :=
  MachInst_new SubRI [MSpecial SpecSP; MSpecial SpecSP; MImm imm].

Definition make_add_sp_imm (imm : Z) : MachInst :=
  MachInst_new AddRI [MSpecial SpecSP; MSpecial SpecSP; MImm imm].

Definition make_ret : MachInst := MachInst_new Ret [].

(** [while imm > 0] of [push_sp_imm_chunks]: each round takes at most
    [AARCH64_SP_ADJUST_CHUNK]. *)
Fixpoint sp_chunks (fuel : nat) (imm : Z) : list Z :=
  match fuel with
  | O => []
  | S fuel =>
      if 0 <? imm
      then let chunk := Z.min imm AARCH64_SP_ADJUST_CHUNK in
           chunk :: sp_chunks fuel (imm - chunk)
      else []
  end.

(** Enough rounds for [imm]. *)
Definition sp_chunk_rounds (imm : Z) : nat := Z.to_nat (imm / AARCH64_SP_ADJUST_CHUNK + 1).

Definition push_sp_imm_chunks (imm : Z) (make : Z -> MachInst) : list MachInst :=
  map make (sp_chunks (sp_chunk_rounds imm) imm).

Definition push_sub_sp_imm (imm : Z) : list MachInst := push_sp_imm_chunks imm make_sub_sp_imm.
Definition push_add_sp_imm (imm : Z) : list MachInst := push_sp_imm_chunks imm make_add_sp_imm.

Definition lower64_fpr_alias (reg : PReg) : PReg :=
  match preg_class reg with
  | Fpr128 => mkPReg (encoding reg + 32)
  | Fpr32 => mkPReg (encoding reg - 32)
  | Fpr64 => reg
  | _ => reg
  end.

Definition storage_regs_for_callee_saved_pair (pair : CalleeSavedPair) : PReg * PReg :=
  if is_fpr pair then (lower64_fpr_alias (reg1 pair), lower64_fpr_alias (reg2 pair))
  else (reg1 pair, reg2 pair).

(** ** Prologue and epilogue *)

#[export] Instance CalleeSavedPair_inhabited : Inhabited CalleeSavedPair :=
  populate (mkPair X29 X30 0 false).

Definition minimal_frame (layout : FrameLayout) : bool :=
  uses_red_zone layout && (sp_adjustment layout =? 0)
  && (length (callee_saved_pairs layout) <=? 1)%nat.

(** The loop body of [emit_prologue] for the extra pair [i]. *)
Definition prologue_save (layout : FrameLayout) (num_extra : nat) (i : nat) : MachInst :=
  let pair := callee_saved_pairs layout !!! i in
  let '(r1, r2) := storage_regs_for_callee_saved_pair pair in
  let sp_offset := (Z.of_nat num_extra - Z.of_nat i) * 16 in
  if sp_offset =? 0 then make_stp_pre_index r2 r1 (- callee_saved_area_size layout)
  else make_stp_offset r2 r1 sp_offset.

Definition emit_prologue (layout : FrameLayout) : list MachInst :=
  let pairs := callee_saved_pairs layout in
  if minimal_frame layout then
    if uses_frame_pointer layout && negb (length pairs =? 0)%nat
    then [make_stp_pre_index X29 X30 (-16); make_mov_sp_to_fp]
    else []
  else if (length pairs =? 0)%nat then push_sub_sp_imm (sp_adjustment layout)
  else
    let csa := callee_saved_area_size layout in
    let num_pairs := length pairs in
    let num_extra := (num_pairs - 1)%nat in
    map (prologue_save layout num_extra) (rev (seq 1 num_extra))
    ++ [ if (num_extra =? 0)%nat then make_stp_pre_index X29 X30 (- csa)
         else make_stp_offset X29 X30 (csa - 16) ]
    ++ (if uses_frame_pointer layout then [make_add_fp_sp_imm (csa - 16)] else [])
    ++ (if 0 <? sp_adjustment layout then push_sub_sp_imm (sp_adjustment layout) else []).

Definition epilogue_restore (layout : FrameLayout) (num_extra : nat) (i : nat) : MachInst :=
  let pair := callee_saved_pairs layout !!! i in
  let '(r1, r2) := storage_regs_for_callee_saved_pair pair in
  let sp_offset := (Z.of_nat num_extra - Z.of_nat i) * 16 in
  if sp_offset =? 0 then make_ldp_post_index r2 r1 (callee_saved_area_size layout)
  else make_ldp_offset r2 r1 sp_offset.

Definition epilogue_restore_fp (layout : FrameLayout) (i : nat) : MachInst :=
  let pair := callee_saved_pairs layout !!! i in
  let '(r1, r2) := storage_regs_for_callee_saved_pair pair in
  make_ldp_base_offset r2 r1 X29 (- (Z.of_nat i * 16)).

(** [None]: the subtraction [callee_saved_pairs.len() - 1] underflows, a panic in a
    build that checks overflow; without the checks the count wraps.  The computed
    layouts never get there ([FrameExec]). *)
Definition emit_epilogue (layout : FrameLayout) : option (list MachInst) :=
  let pairs := callee_saved_pairs layout in
  if minimal_frame layout then
    Some ((if uses_frame_pointer layout && negb (length pairs =? 0)%nat
           then [make_ldp_post_index X29 X30 16] else []) ++ [make_ret])
  else if (length pairs =? 0)%nat then None
  else
    let csa := callee_saved_area_size layout in
    let num_extra := (length pairs - 1)%nat in
    let sp_adj := sp_adjustment layout in
    if has_dynamic_alloc layout && uses_frame_pointer layout then
      Some ([make_mov_fp_to_sp]
            ++ map (epilogue_restore_fp layout) (seq 1 num_extra)
            ++ [make_ldp_post_index X29 X30 16; make_ret])
    else
      Some ((if 0 <? sp_adj then push_add_sp_imm sp_adj else [])
            ++ (if (num_extra =? 0)%nat then [make_ldp_post_index X29 X30 csa]
                else make_ldp_offset X29 X30 (csa - 16)
                     :: map (epilogue_restore layout num_extra) (seq 1 num_extra))
            ++ [make_ret]).

Definition emit_epilogue_before_tail_branch (layout : FrameLayout) : option (list MachInst) :=
  match emit_epilogue layout with
  | None => None
  | Some insts =>
      Some (match last insts with
            | Some inst => if decide (opcode inst = Ret) then removelast insts else insts
            | None => insts
            end)
  end.

(** ** Compact unwind encoding *)

Definition mode (encoding : Z) : Z := Z.land encoding 0x0F000000.
Definition needs_dwarf_fallback (encoding : Z) : bool :=
  Z.land encoding 0x0F000000 =? UNWIND_ARM64_MODE_DWARF.
Definition register_pair_flags (encoding : Z) : Z := Z.land encoding 0x00000FFF.

(** The flag of a pair, [None] for a pair compact unwind cannot encode. *)
Definition pair_flag (pair : CalleeSavedPair) : option Z :=
  let e1 := encoding (reg1 pair) in
  let e2 := encoding (reg2 pair) in
  let regs_are r1 r2 := (e1 =? r1) && (e2 =? r2) in
  if negb (is_fpr pair) then
    if regs_are 19 20 then Some UNWIND_ARM64_FRAME_X19_X20_PAIR
    else if regs_are 21 22 then Some UNWIND_ARM64_FRAME_X21_X22_PAIR
    else if regs_are 23 24 then Some UNWIND_ARM64_FRAME_X23_X24_PAIR
    else if regs_are 25 26 then Some UNWIND_ARM64_FRAME_X25_X26_PAIR
    else if regs_are 27 28 then Some UNWIND_ARM64_FRAME_X27_X28_PAIR
    else None
  else
    if regs_are 72 73 then Some UNWIND_ARM64_FRAME_D8_D9_PAIR
    else if regs_are 74 75 then Some UNWIND_ARM64_FRAME_D10_D11_PAIR
    else if regs_are 76 77 then Some UNWIND_ARM64_FRAME_D12_D13_PAIR
    else if regs_are 78 79 then Some UNWIND_ARM64_FRAME_D14_D15_PAIR
    else None.

Fixpoint encode_pairs (encoding : Z) (pairs : list CalleeSavedPair) : Z :=
  match pairs with
  | [] => encoding
  | p :: pairs =>
      match pair_flag p with
      | Some flag => encode_pairs (Z.lor encoding flag) pairs
      | None => UNWIND_ARM64_MODE_DWARF
      end
  end.

Definition encode_compact_unwind (layout : FrameLayout) : Z :=
  if negb (uses_frame_pointer layout) then
    if negb (has_dynamic_alloc layout) && (total_frame_size layout =? 0)
       && (length (callee_saved_pairs layout) =? 0)%nat
    then UNWIND_ARM64_MODE_FRAMELESS
    else UNWIND_ARM64_MODE_DWARF
  else if has_dynamic_alloc layout then UNWIND_ARM64_MODE_DWARF
  else encode_pairs UNWIND_ARM64_MODE_FRAME (drop 1 (callee_saved_pairs layout)).

(** ** Resolving slots to addresses

    [sp_far_slot_disabled] is whether the environment variable
    [TCG_NO_SP_FAR_SLOT] is set. *)

Abbreviation FP_TO_CFA := 16%Z (only parsing).

(** [eliminate_frame_indices] on the [IncomingArg] operands. *)
Definition resolve_incoming_arg (op : MachOperand) : MachOperand :=
  match op with
  | MIncomingArg arg_offset => MImm (swrap 64 (FP_TO_CFA + arg_offset))
  | _ => op
  end.

Definition sp_rebase_delta_for (sp_far_slot_disabled : bool) (layout : FrameLayout)
    (func : MachFunction) : option Z :=
  if sp_far_slot_disabled then None
  else if negb (uses_frame_pointer layout) || (length (callee_saved_pairs layout) =? 0)%nat
  then None
  else if has_dynamic_alloc layout || uses_red_zone layout then None
  else if function_has_runtime_stack_slots func
          || function_has_dynamic_stack_alloc_pseudos func then None
  else Some (sp_adjustment layout + callee_saved_area_size layout - 16).

Record FrameIndexEliminator := mkEliminator {
  fie_layout : FrameLayout;
  slot_offsets : list Z;
  runtime_sized_slots : list bool;
  sp_rebase_delta : option Z }.

Definition FrameIndexEliminator_new (disabled : bool) (layout : FrameLayout)
    (func : MachFunction) : FrameIndexEliminator :=
  mkEliminator layout (compute_slot_offsets func layout)
    (map is_runtime_sized (stack_slots func)) (sp_rebase_delta_for disabled layout func).

(** [None]: the panic on a runtime-sized slot. *)
Definition resolve_slot_operand (e : FrameIndexEliminator) (slot_idx : nat)
    : option (PReg * Z) :=
  if default false (runtime_sized_slots e !! slot_idx) then None
  else match slot_offsets e !! slot_idx with
       | Some fp_offset =>
           if uses_frame_pointer (fie_layout e) then Some (X29, fp_offset)
           else Some (SP, fp_offset + sp_adjustment (fie_layout e))
       | None => Some (SP, 0)
       end.

(** [scalar_ri_mem_scale], [scalar_transfer_scale] and [scalar_ri_offset_encodable]
    of [crates/trust-cg-codegen/src/aarch64/encode.rs]. *)
Definition scalar_transfer_scale (inst : MachInst) : option Z :=
  match head (operands inst) with
  | Some (MPReg p) =>
      match preg_class p with
      | Gpr64 => Some 8
      | Gpr32 => Some 4
      | Fpr128 => Some 16
      | Fpr64 => Some 8
      | Fpr32 => Some 4
      | Fpr16 => Some 2
      | _ => None
      end
  | Some (MSpecial s) => match s with SpecSP | SpecXZR => Some 8 | SpecWZR => Some 4 end
  | _ => None
  end.

Definition scalar_ri_mem_scale (inst : MachInst) : option Z :=
  match opcode inst with
  | LdrRI | StrRI => scalar_transfer_scale inst
  | LdrbRI | LdrsbRI | StrbRI => Some 1
  | LdrhRI | LdrshRI | StrhRI => Some 2
  | STRWui | STRSui => Some 4
  | STRXui | STRDui => Some 8
  | _ => None
  end.

Definition scalar_ri_offset_encodable (offset scale : Z) : bool :=
  ((0 <=? offset) && (Z.rem offset scale =? 0) && (Z.quot offset scale <=? 0xFFF))
  || ((-256 <=? offset) && (offset <=? 255)).

Definition resolve_slot_operand_for_inst (e : FrameIndexEliminator) (slot_idx : nat)
    (inst : MachInst) : option (PReg * Z * bool) :=
  match resolve_slot_operand e slot_idx with
  | None => None
  | Some (base, offset) =>
      if decide (base <> X29) then Some (base, offset, false)
      else match sp_rebase_delta e, scalar_ri_mem_scale inst with
           | Some delta, Some scale =>
               if scalar_ri_offset_encodable offset scale then Some (base, offset, false)
               else let sp_offset := offset + delta in
                    if (0 <=? sp_offset) && scalar_ri_offset_encodable sp_offset scale
                    then Some (SP, sp_offset, true)
                    else Some (base, offset, false)
           | _, _ => Some (base, offset, false)
           end
  end.
