(* ===== verification/FrameSlots.v ===== *)
(** * Placement of stack slots ([crates/trust-cg-codegen/src/frame.rs])

    [compute_stack_slot_area] sizes the local area with one walk over the slots
    and [stack_slot_frame_offsets] places them with another, started elsewhere.
    This file proves that the two agree: no slot leaves the area the frame
    reserves, and no two slots overlap. *)

From S2P Require Import Prelude Regs Frame.
Local Open Scope Z_scope.

(** ** Well-formed functions *)

(** What the constructors of [StackSlot] assert, on [u32] fields. *)
Definition wf_slot (s : StackSlot) : Prop :=
  0 <= size s /\ exists k, 0 <= k /\ align s = 2 ^ k.

Definition slot_weight (s : StackSlot) : Z := size s + align s.

Definition slots_weight (l : list StackSlot) : Z := fold_right (fun s n => slot_weight s + n) 0 l.

(** Frames of less than a gigabyte: the 32-bit arithmetic does not wrap. *)
Definition wf_func (func : MachFunction) : Prop :=
  Forall wf_slot (stack_slots func) /\ slots_weight (stack_slots func) <= 2 ^ 30.

Lemma is_power_of_two_pow (x : Z) :
  is_power_of_two x = true -> exists k, 0 <= k /\ x = 2 ^ k.
Proof.
  unfold is_power_of_two; intros [Hx Hl]%andb_true_iff.
  apply Z.ltb_lt in Hx; apply Z.eqb_eq in Hl.
  exists (Z.log2 x); split; [apply Z.log2_nonneg|].
  destruct (Z.log2_spec x Hx) as [Hlo Hhi].
  destruct (Z.eq_dec x (2 ^ Z.log2 x)) as [|Hne]; [done|exfalso].
  assert (Hb : Z.testbit (Z.land x (x - 1)) (Z.log2 x) = true); [|by rewrite Hl, Z.bits_0 in Hb].
  rewrite Z.land_spec, Z.bit_log2, andb_true_l by lia.
  rewrite <- (Z.log2_unique' (x - 1) (Z.log2 x) (x - 1 - 2 ^ Z.log2 x)); [|apply Z.log2_nonneg|..].
  - apply Z.bit_log2; pose proof (Z.pow_pos_nonneg 2 (Z.log2 x) ltac:(lia) (Z.log2_nonneg x)); lia.
  - rewrite Z.pow_succ_r in Hhi by apply Z.log2_nonneg; lia.
  - lia.
Qed.

Lemma StackSlot_new_wf (sz al : Z) (s : StackSlot) :
  0 <= sz -> StackSlot_new sz al = Some s -> wf_slot s.
Proof.
  unfold StackSlot_new; intros Hsz; destruct (is_power_of_two al) eqn:E; [|done].
  intros [= <-]; split; [done|by apply is_power_of_two_pow].
Qed.

(** ** Rounding down to a power of two *)

(** The placement of a slot on unbounded integers. *)
Definition place (o : Z) (s : StackSlot) : Z := (o - size s) / align s * align s.

Lemma land_lnot_pow (x k : Z) : 0 <= k -> Z.land x (Z.lnot (2 ^ k - 1)) = x / 2 ^ k * 2 ^ k.
Proof.
  intros Hk. rewrite <- Z.ldiff_land.
  replace (2 ^ k - 1) with (Z.ones k) by (rewrite Z.ones_equiv; lia).
  rewrite Z.ldiff_ones_r, Z.shiftl_mul_pow2, Z.shiftr_div_pow2 by done; done.
Qed.

Lemma floor_bounds (x m : Z) : 0 < m -> x - m < x / m * m <= x.
Proof. intros; pose proof (Z.div_mod x m); pose proof (Z.mod_pos_bound x m); lia. Qed.

Lemma place_bounds (o : Z) (s : StackSlot) :
  wf_slot s -> o - slot_weight s < place o s /\ place o s + size s <= o.
Proof.
  intros (Hs & k & Hk & E); unfold place, slot_weight.
  assert (0 < align s) by (rewrite E; apply pow2_pos; lia).
  pose proof (floor_bounds (o - size s) (align s)); lia.
Qed.

Lemma place_slot_exact (o : Z) (s : StackSlot) :
  wf_slot s -> slot_weight s <= 2 ^ 30 -> - 2 ^ 31 <= o - size s -> o < 2 ^ 31 ->
  place_slot o s = place o s.
Proof.
  intros Hwf Hw Hlo Hhi; unfold place_slot, place.
  destruct Hwf as (Hs & k & Hk & E). unfold slot_weight in Hw.
  assert (0 < align s) by (rewrite E; apply pow2_pos; lia).
  rewrite (swrap_small 32 (size s)), (swrap_small 32 (align s)) by (unfold sword; lia).
  rewrite (swrap_small 32 (align s - 1)), (swrap_small 32 (o - size s)) by (unfold sword; lia).
  rewrite (proj2 (Z.ltb_lt 0 (align s))) by done.
  rewrite E; by apply land_lnot_pow.
Qed.

(** ** The walk over the slots *)

Definition fixed_slots (slots : list StackSlot) (order : list nat) : list StackSlot :=
  filter (fun s => is_runtime_sized s = false) (map (fun i => slots !!! i) order).

Definition walk (o : Z) (l : list StackSlot) : Z := fold_left place l o.

Definition max_alignment (l : list StackSlot) : Z :=
  fold_left (fun m s => Z.max m (align s)) l STACK_ALIGNMENT.

Lemma walk_app (o : Z) (l1 l2 : list StackSlot) : walk o (l1 ++ l2) = walk (walk o l1) l2.
Proof. apply fold_left_app. Qed.

Lemma walk_le (l : list StackSlot) (o : Z) : Forall wf_slot l -> walk o l <= o.
Proof.
  revert o; induction l as [|s l IH]; intros o H; [done|]; inversion_clear H as [|? ? Hs Hl].
  specialize (IH (place o s) Hl). change (walk o (s :: l)) with (walk (place o s) l).
  pose proof (place_bounds o s Hs). destruct Hs; lia.
Qed.

Lemma walk_weight (l : list StackSlot) (o : Z) : Forall wf_slot l -> o - slots_weight l <= walk o l.
Proof.
  revert o; induction l as [|s l IH]; intros o H; [cbn; lia|]; inversion_clear H as [|? ? Hs Hl].
  specialize (IH (place o s) Hl). change (walk o (s :: l)) with (walk (place o s) l).
  pose proof (place_bounds o s Hs). cbn [slots_weight fold_right]; fold (slots_weight l); lia.
Qed.

(** Powers of two are ordered by divisibility. *)
Lemma pow_divides (a b : Z) : 0 <= a <= b -> (2 ^ a | 2 ^ b).
Proof.
  intros; exists (2 ^ (b - a)). rewrite <- Z.pow_add_r by lia; f_equal; lia.
Qed.

(** One step of the two walks, [d] being how much lower the displaced one runs. *)
Lemma displaced_step (m al a d y : Z) :
  0 < m -> 0 < al -> (m | al) \/ (al | m) -> (m | a - d) -> d <= m - 16 ->
  let d' := a + y / al * al - (a + y - d) / al * al in
  (Z.max m al | a - d') /\ d' <= Z.max m al - 16.
Proof.
  intros Hm Hal Hdiv [t Ht] Hd d'.
  pose proof (Z.div_mod y al ltac:(lia)) as Ey.
  pose proof (Z.mod_pos_bound y al Hal) as Hr.
  set (q := y / al) in *; set (r := y mod al) in *.
  destruct Hdiv as [[c Hc]|[c Hc]].
  - (* the new alignment is the coarser one *)
    assert (0 < c) by nia; assert (m <= al) by nia. rewrite Z.max_r by done.
    pose proof (Z.div_mod (a + y - d) al ltac:(lia)) as E2.
    pose proof (Z.mod_pos_bound (a + y - d) al Hal) as H2.
    set (q2 := (a + y - d) / al) in *; set (v := (a + y - d) mod al) in *.
    split; [exists (q2 - q); subst d'; lia|].
    assert (Hv : v - r = m * (t + c * (q - q2))) by nia.
    assert (t + c * (q - q2) <= c - 1) by nia.
    subst d'; nia.
  - (* the old one divides evenly: the displacement is kept *)
    assert (0 < c) by nia; assert (al <= m) by nia. rewrite Z.max_l by done.
    assert (E2 : (a + y - d) / al = q + t * c).
    { replace (a + y - d) with (y + t * c * al) by lia. by rewrite Z.div_add by lia. }
    subst d'; rewrite E2; split; [exists t|]; nia.
Qed.

Lemma pow_comparable (a b : Z) : 0 <= a -> 0 <= b -> (2 ^ a | 2 ^ b) \/ (2 ^ b | 2 ^ a).
Proof.
  intros; destruct (Z.le_ge_cases a b); [left|right]; apply pow_divides; lia.
Qed.

Lemma walk_displaced_from (l : list StackSlot) (a k o o' : Z) :
  Forall wf_slot l -> 0 <= k -> (2 ^ k | o' - o) -> a + o - o' <= 2 ^ k - 16 ->
  a + walk o l - walk o' l <= fold_left (fun m s => Z.max m (align s)) l (2 ^ k) - 16.
Proof.
  revert k o o'; induction l as [|s l IH]; intros k o o' H Hk Hdiv Hd; [done|].
  inversion_clear H as [|? ? Hs Hl]. destruct Hs as (Hsz & j & Hj & Ej).
  change (a + walk (place o s) l - walk (place o' s) l
          <= fold_left (fun m s => Z.max m (align s)) l (Z.max (2 ^ k) (align s)) - 16).
  pose proof (displaced_step (2 ^ k) (align s) a (a + o - o') (o - size s)) as Hstep.
  rewrite Ej in Hstep.
  destruct Hstep as [Hdiv' Hd']; [apply pow2_pos; lia|apply pow2_pos; lia| | |done|].
  { by apply pow_comparable. }
  { replace (a - (a + o - o')) with (o' - o) by lia; done. }
  replace (a + (o - size s) - (a + o - o')) with (o' - size s) in Hdiv', Hd' by lia.
  rewrite Ej.
  assert (exists i, 0 <= i /\ Z.max (2 ^ k) (2 ^ j) = 2 ^ i) as (i & Hi & Ei).
  { destruct (Z.max_spec (2 ^ k) (2 ^ j)) as [[_ ->]|[_ ->]]; eauto. }
  rewrite Ei in *. apply IH; [done|done| |]; unfold place; rewrite Ej.
  - match goal with |- (_ | ?x) => replace x with
      (a - (a + (o - size s) / 2 ^ j * 2 ^ j - (o' - size s) / 2 ^ j * 2 ^ j)) by lia end.
    done.
  - lia.
Qed.

(** Started at any 16-byte boundary, the walk descends at most [max_align - 16]
    further than the walk started at zero. *)
Lemma walk_displaced (l : list StackSlot) (a : Z) :
  Forall wf_slot l -> (16 | a) -> a + walk 0 l - (max_alignment l - 16) <= walk a l.
Proof.
  intros Hl Ha. pose proof (walk_displaced_from l a 4 0 a Hl) as H.
  change (2 ^ 4) with STACK_ALIGNMENT in H. rewrite Z.sub_0_r in H.
  specialize (H ltac:(lia) Ha ltac:(unfold STACK_ALIGNMENT; lia)). unfold max_alignment; lia.
Qed.

Lemma max_alignment_bound_from (l : list StackSlot) (m : Z) :
  Forall wf_slot l -> 0 <= m ->
  m <= fold_left (fun m s => Z.max m (align s)) l m <= m + slots_weight l.
Proof.
  revert m; induction l as [|s l IH]; intros m H Hm; [cbn; lia|].
  inversion_clear H as [|? ? Hs Hl]. destruct Hs as (? & j & ? & Ej).
  assert (0 < align s) by (rewrite Ej; apply pow2_pos; lia).
  specialize (IH (Z.max m (align s)) Hl ltac:(lia)).
  cbn [fold_left slots_weight fold_right]; fold (slots_weight l); unfold slot_weight; lia.
Qed.

(** ** The layout order *)

Lemma layout_order_range (func : MachFunction) (i : nat) :
  i ∈ stack_slot_layout_order func -> (i < length (stack_slots func))%nat.
Proof.
  unfold stack_slot_layout_order; intros [H|H]%elem_of_app.
  - destruct (stack_protector_slot func) as [p|]; [|by apply elem_of_nil in H].
    destruct (Z.to_nat p <? length (stack_slots func))%nat eqn:E; [|by apply elem_of_nil in H].
    apply list_elem_of_singleton in H as ->; by apply Nat.ltb_lt.
  - apply list_elem_of_filter in H as [_ H]. apply elem_of_seq in H; lia.
Qed.

Lemma layout_order_complete (func : MachFunction) (i : nat) :
  (i < length (stack_slots func))%nat -> i ∈ stack_slot_layout_order func.
Proof.
  intros Hi; unfold stack_slot_layout_order.
  set (p := match stack_protector_slot func with Some slot => _ | None => None end).
  destruct (decide (Some i = p)) as [<-|Hne]; apply elem_of_app; [left; by left|right].
  apply list_elem_of_filter; split; [done|]. apply elem_of_seq; lia.
Qed.

Lemma layout_order_nodup (func : MachFunction) : NoDup (stack_slot_layout_order func).
Proof.
  unfold stack_slot_layout_order.
  set (p := match stack_protector_slot func with Some slot => _ | None => None end).
  apply NoDup_app; split_and!.
  - destruct p; [apply NoDup_singleton|apply NoDup_nil_2].
  - intros i Hi [Hf _]%list_elem_of_filter. destruct p as [q|]; [|by apply elem_of_nil in Hi].
    apply list_elem_of_singleton in Hi as ->; done.
  - apply NoDup_filter, NoDup_seq.
Qed.

(** The protector slot is visited first. *)
Lemma layout_order_protector (func : MachFunction) (p : Z) :
  stack_protector_slot func = Some p -> (Z.to_nat p < length (stack_slots func))%nat ->
  exists rest, stack_slot_layout_order func = Z.to_nat p :: rest.
Proof.
  intros Hp Hr; unfold stack_slot_layout_order; rewrite Hp.
  rewrite (proj2 (Nat.ltb_lt _ _) Hr). eexists; reflexivity.
Qed.

(** ** The fixed slots in layout order *)

Definition laid_out (func : MachFunction) : list StackSlot :=
  fixed_slots (stack_slots func) (stack_slot_layout_order func).

#[export] Instance slots_weight_perm : Proper (Permutation ==> eq) slots_weight.
Proof. intros l l' H; induction H; cbn in *; unfold slots_weight in *; cbn; lia. Qed.

Lemma slots_weight_cons (s : StackSlot) (l : list StackSlot) :
  slots_weight (s :: l) = slot_weight s + slots_weight l.
Proof. done. Qed.

Lemma slots_weight_app (l1 l2 : list StackSlot) :
  slots_weight (l1 ++ l2) = slots_weight l1 + slots_weight l2.
Proof. induction l1 as [|s l1 IH]; [done|]. cbn [app]; rewrite !slots_weight_cons; lia. Qed.

Lemma slot_weight_nonneg (s : StackSlot) : wf_slot s -> 0 <= slot_weight s.
Proof.
  intros (? & j & ? & Ej); unfold slot_weight.
  assert (0 < align s) by (rewrite Ej; apply pow2_pos; lia); lia.
Qed.

Lemma slots_weight_nonneg (l : list StackSlot) : Forall wf_slot l -> 0 <= slots_weight l.
Proof.
  induction 1 as [|s l Hs Hl IH]; [done|]. rewrite slots_weight_cons.
  pose proof (slot_weight_nonneg s Hs); lia.
Qed.

Lemma slots_weight_filter (P : StackSlot -> Prop) `{!forall s, Decision (P s)} (l : list StackSlot) :
  Forall wf_slot l -> slots_weight (filter P l) <= slots_weight l.
Proof.
  induction 1 as [|s l Hs Hl IH]; [done|]. rewrite filter_cons, slots_weight_cons.
  pose proof (slot_weight_nonneg s Hs); case_decide; [rewrite slots_weight_cons|]; lia.
Qed.

Lemma map_lookup_seq (slots : list StackSlot) :
  map (fun i => slots !!! i) (seq 0 (length slots)) = slots.
Proof.
  apply list_eq; intros i. rewrite list_lookup_fmap.
  destruct (decide (i < length slots)%nat) as [Hi|Hi].
  - rewrite lookup_seq_lt by done. cbn. symmetry; apply list_lookup_lookup_total_lt; lia.
  - rewrite lookup_seq_ge, lookup_ge_None_2 by lia. done.
Qed.

Lemma layout_order_perm (func : MachFunction) :
  map (fun i => stack_slots func !!! i) (stack_slot_layout_order func) ≡ₚ stack_slots func.
Proof.
  transitivity (map (fun i => stack_slots func !!! i) (seq 0 (length (stack_slots func)))); [|by rewrite map_lookup_seq].
  apply Permutation_map, NoDup_Permutation; [apply layout_order_nodup|apply NoDup_seq|].
  intros i; split; intros H.
  - apply layout_order_range in H. apply elem_of_seq; lia.
  - apply elem_of_seq in H. apply layout_order_complete; lia.
Qed.

Lemma laid_out_wf (func : MachFunction) : wf_func func -> Forall wf_slot (laid_out func).
Proof.
  intros [Hwf _]; apply Forall_forall; intros s [_ Hs]%list_elem_of_filter.
  rewrite layout_order_perm in Hs. by apply (proj1 (Forall_forall _ _) Hwf).
Qed.

Lemma laid_out_weight (func : MachFunction) :
  wf_func func -> slots_weight (laid_out func) <= 2 ^ 30.
Proof.
  intros [Hwf Hw]. etrans; [|exact Hw]. unfold laid_out, fixed_slots.
  etrans; [apply slots_weight_filter|by rewrite layout_order_perm].
  by rewrite layout_order_perm.
Qed.

(** The 32-bit walk is the walk on unbounded integers. *)
Lemma place_slots_exact (l : list StackSlot) (o : Z) :
  Forall wf_slot l -> slots_weight l <= 2 ^ 30 -> - 2 ^ 30 <= o < 2 ^ 30 ->
  fold_left place_slot l o = walk o l.
Proof.
  assert (G : forall o, Forall wf_slot l -> slots_weight l <= 2 ^ 30 ->
                        - 2 ^ 31 <= o - slots_weight l -> o < 2 ^ 30 ->
                        fold_left place_slot l o = walk o l).
  { induction l as [|s l IH]; intros o' Hl Hw Hlo Hhi; [done|].
    inversion_clear Hl as [|? ? Hs Hl']. rewrite slots_weight_cons in *.
    pose proof (slot_weight_nonneg s Hs). pose proof (slots_weight_nonneg l Hl').
    pose proof (place_bounds o' s Hs). destruct (Hs) as (? & ?).
    cbn [fold_left walk]; rewrite place_slot_exact; [apply IH| | | |]; try done; try lia. }
  intros; apply G; try done; lia.
Qed.

Lemma area_fold (slots : list StackSlot) (order : list nat) (o m : Z) :
  fold_left (fun '(offset, max_align) idx =>
    let slot := slots !!! idx in
    if is_runtime_sized slot then (offset, max_align)
    else (place_slot offset slot, Z.max max_align (align slot))) order (o, m)
  = (fold_left place_slot (fixed_slots slots order) o,
     fold_left (fun m s => Z.max m (align s)) (fixed_slots slots order) m).
Proof.
  revert o m; induction order as [|i order IH]; intros o m; [done|].
  cbn [fold_left]. unfold fixed_slots; cbn [map]; rewrite filter_cons.
  destruct (is_runtime_sized (slots !!! i)) eqn:E; rewrite IH.
  - rewrite decide_False by congruence; done.
  - rewrite decide_True by done; done.
Qed.

(** The reserved area is the extent of the walk from zero plus the slack. *)
Lemma stack_slot_area_walk (func : MachFunction) :
  wf_func func ->
  compute_stack_slot_area func = - walk 0 (laid_out func) + (max_alignment (laid_out func) - 16).
Proof.
  intros Hwf. pose proof (laid_out_wf func Hwf) as Hl. pose proof (laid_out_weight func Hwf) as Hw.
  unfold compute_stack_slot_area. rewrite area_fold. fold (laid_out func).
  rewrite place_slots_exact by (done || lia). fold (max_alignment (laid_out func)).
  pose proof (walk_le (laid_out func) 0 Hl). pose proof (walk_weight (laid_out func) 0 Hl).
  pose proof (max_alignment_bound_from (laid_out func) STACK_ALIGNMENT Hl ltac:(done)) as Hm.
  fold (max_alignment (laid_out func)) in Hm. unfold STACK_ALIGNMENT in *.
  rewrite (swrap_small 32) by (unfold sword; lia).
  rewrite !(wrap_small 32); unfold uword; rewrite ?(wrap_small 32) by (unfold uword; lia); lia.
Qed.

(** ** The offsets *)

Definition offset_step (slots : list StackSlot) '(offsets, current_offset) (idx : nat)
    : list (option Z) * Z :=
  let slot := slots !!! idx in
  if is_runtime_sized slot then (offsets, current_offset)
  else let current_offset := place_slot current_offset slot in
       (<[idx := Some current_offset]> offsets, current_offset).

(** A visited fixed slot gets the position of the walk when it is reached; the
    others are left alone. *)
Lemma offset_fold (slots : list StackSlot) (order : list nat) (offs : list (option Z)) (o : Z)
    (i : nat) :
  NoDup order -> (i < length offs)%nat ->
  let r := (fold_left (offset_step slots) order (offs, o)).1 in
  (i ∉ order -> r !! i = offs !! i) /\
  (i ∈ order -> is_runtime_sized (slots !!! i) = true -> r !! i = offs !! i) /\
  (forall l1 l2, order = l1 ++ i :: l2 -> is_runtime_sized (slots !!! i) = false ->
     r !! i = Some (Some (fold_left place_slot (fixed_slots slots l1 ++ [slots !!! i]) o))).
Proof.
  revert offs o; induction order as [|j order IH]; intros offs o Hnd Hi.
  { cbn; split_and!; [done|done|]. by intros [] ?. }
  inversion_clear Hnd as [|? ? Hj Hnd'].
  cbn zeta; cbn [fold_left].
  destruct (is_runtime_sized (slots !!! j)) eqn:E.
  - assert (Es : offset_step slots (offs, o) j = (offs, o)) by (by unfold offset_step; rewrite E).
    rewrite Es. destruct (IH offs o Hnd' Hi) as (IH1 & IH2 & IH3); split_and!.
    + intros H; apply IH1; set_solver.
    + intros [->|H]%elem_of_cons Hr; [by apply IH1|by apply IH2].
    + intros [|k l1] l2 [= -> ->] Hf; [congruence|].
      rewrite (IH3 l1 l2 eq_refl Hf). unfold fixed_slots; cbn [map]; rewrite filter_cons.
      by rewrite decide_False by congruence.
  - assert (Es : offset_step slots (offs, o) j
             = (<[j:=Some (place_slot o (slots !!! j))]> offs, place_slot o (slots !!! j)))
      by (by unfold offset_step; rewrite E).
    rewrite Es.
    destruct (IH (<[j:=Some (place_slot o (slots !!! j))]> offs) (place_slot o (slots !!! j)) Hnd')
      as (IH1 & IH2 & IH3); [by rewrite length_insert|]; split_and!.
    + intros H; rewrite IH1 by set_solver. apply list_lookup_insert_ne; set_solver.
    + intros [->|H]%elem_of_cons Hr; [congruence|].
      rewrite IH2 by done. apply list_lookup_insert_ne; congruence.
    + intros [|k l1] l2 [= -> ->] Hf.
      * rewrite IH1 by done. by rewrite list_lookup_insert_eq.
      * rewrite (IH3 l1 l2 eq_refl Hf). unfold fixed_slots; cbn [map]; rewrite filter_cons.
        by rewrite decide_True by congruence.
Qed.

Lemma offset_fold_length (slots : list StackSlot) (order : list nat) (acc : list (option Z) * Z) :
  length (fold_left (offset_step slots) order acc).1 = length acc.1.
Proof.
  revert acc; induction order as [|j order IH]; intros [offs o]; [done|].
  cbn [fold_left]; rewrite IH; unfold offset_step.
  destruct (is_runtime_sized _); cbn; [done|apply length_insert].
Qed.

Lemma fixed_slots_app (slots : list StackSlot) (l1 l2 : list nat) :
  fixed_slots slots (l1 ++ l2) = fixed_slots slots l1 ++ fixed_slots slots l2.
Proof. unfold fixed_slots; by rewrite map_app, filter_app. Qed.

Lemma fixed_slots_cons (slots : list StackSlot) (i : nat) (l : list nat) :
  is_runtime_sized (slots !!! i) = false ->
  fixed_slots slots (i :: l) = slots !!! i :: fixed_slots slots l.
Proof.
  intros E; unfold fixed_slots; cbn [map]; rewrite filter_cons; by rewrite decide_True.
Qed.

(** Exactly the slots of fixed size get an offset. *)
Lemma frame_offset_cases (func : MachFunction) (layout : FrameLayout) (i : nat) :
  (i < length (stack_slots func))%nat ->
  if is_runtime_sized (stack_slots func !!! i) then stack_slot_frame_offsets func layout !! i = Some None
  else exists o, stack_slot_frame_offsets func layout !! i = Some (Some o).
Proof.
  intros Hlt. pose proof (offset_fold (stack_slots func) (stack_slot_layout_order func)
    (replicate (length (stack_slots func)) None) (fp_to_spill_offset layout) i
    (layout_order_nodup func) ltac:(by rewrite length_replicate)) as (_ & Hrt & Hfix).
  pose proof (layout_order_complete func i Hlt) as Hin. destruct (is_runtime_sized (stack_slots func !!! i)) eqn:E.
  - by rewrite <- (lookup_replicate_2 (length (stack_slots func)) None i Hlt), <- (Hrt Hin eq_refl).
  - apply list_elem_of_split in Hin as (l1 & l2 & Eo). eexists. exact (Hfix l1 l2 Eo eq_refl).
Qed.

(** Where a fixed slot is placed. *)
Lemma frame_offset_walk (func : MachFunction) (layout : FrameLayout) (i : nat) (o : Z) :
  wf_func func -> - 2 ^ 30 <= fp_to_spill_offset layout < 2 ^ 30 ->
  stack_slot_frame_offsets func layout !! i = Some (Some o) ->
  exists l1 l2,
    stack_slot_layout_order func = l1 ++ i :: l2 /\
    is_runtime_sized (stack_slots func !!! i) = false /\
    o = place (walk (fp_to_spill_offset layout) (fixed_slots (stack_slots func) l1))
          (stack_slots func !!! i).
Proof.
  intros Hwf Hr Hi.
  change (stack_slot_frame_offsets func layout) with (fold_left (offset_step (stack_slots func))
    (stack_slot_layout_order func) (replicate (length (stack_slots func)) None,
     fp_to_spill_offset layout)).1 in Hi.
  assert (Hlt : (i < length (stack_slots func))%nat).
  { apply lookup_lt_Some in Hi. rewrite offset_fold_length in Hi; cbn [fst] in Hi.
    by rewrite length_replicate in Hi. }
  pose proof (offset_fold (stack_slots func) (stack_slot_layout_order func)
    (replicate (length (stack_slots func)) None) (fp_to_spill_offset layout) i
    (layout_order_nodup func) ltac:(by rewrite length_replicate)) as (_ & Hrt & Hfix).
  pose proof (layout_order_complete func i Hlt) as Hin.
  destruct (is_runtime_sized (stack_slots func !!! i)) eqn:E.
  { rewrite (Hrt Hin eq_refl), lookup_replicate_2 in Hi by done. done. }
  apply list_elem_of_split in Hin as (l1 & l2 & Eo). exists l1, l2; split_and!; [done|done|].
  rewrite (Hfix l1 l2 Eo eq_refl) in Hi. injection Hi as <-.
  rewrite place_slots_exact; [by rewrite walk_app| | |done].
  all: pose proof (laid_out_wf func Hwf) as Hl; pose proof (laid_out_weight func Hwf) as Hw.
  all: unfold laid_out in Hl, Hw; rewrite Eo, fixed_slots_app, fixed_slots_cons in Hl, Hw by done.
  all: rewrite cons_middle, app_assoc in Hl, Hw.
  - by apply Forall_app in Hl as [Hl _].
  - rewrite slots_weight_app in Hw. apply Forall_app in Hl as [_ Hl].
    pose proof (slots_weight_nonneg _ Hl); lia.
Qed.

(** ** The frame layout *)

Lemma align_up_16 (v : Z) : 0 <= v -> v + 15 < 2 ^ 32 -> align_up v 16 = (v + 15) / 16 * 16.
Proof.
  intros H0 H1; unfold align_up. replace (v + 16 - 1) with (v + 15) by lia.
  rewrite (wrap_small 32 (v + 15)) by (unfold uword; lia).
  change (16 - 1) with (2 ^ 4 - 1). unfold wrap.
  rewrite <- (Z.land_ones (Z.lnot _)) by lia. rewrite (Z.land_comm (Z.lnot _)), Z.land_assoc.
  rewrite (Z.land_ones (v + 15)), (Z.mod_small (v + 15)) by lia.
  by rewrite land_lnot_pow by lia.
Qed.

Lemma align_up_16_spec (v : Z) :
  0 <= v -> v + 15 < 2 ^ 32 -> v <= align_up v 16 < v + 16 /\ (16 | align_up v 16).
Proof.
  intros; rewrite align_up_16 by done. split; [|by eexists].
  pose proof (floor_bounds (v + 15) 16); lia.
Qed.

(** The extra pairs a layout saves below the frame record. *)
Definition extra_pairs (gpr fpr : Z) : list CalleeSavedPair :=
  (push_pairs true fpr fpr_pair_regs (push_pairs false gpr gpr_pair_regs ([], -16))).1.

Lemma push_pairs_app (b : bool) (used : Z) (table : list (PReg * PReg * Z))
    (pre acc : list CalleeSavedPair) (o : Z) :
  push_pairs b used table (pre ++ acc, o)
  = (pre ++ (push_pairs b used table (acc, o)).1, (push_pairs b used table (acc, o)).2).
Proof.
  unfold push_pairs; revert acc o; induction table as [|[[r1 r2] m] table IH]; intros acc o; [done|].
  cbn [fold_left]; destruct (Z.land used m =? 0); [apply IH|]. rewrite <- app_assoc; apply IH.
Qed.

Lemma push_pairs_length (b : bool) (used : Z) (table : list (PReg * PReg * Z))
    (acc : list CalleeSavedPair * Z) :
  (length (push_pairs b used table acc).1 <= length acc.1 + length table)%nat.
Proof.
  unfold push_pairs; revert acc; induction table as [|[[r1 r2] m] table IH]; intros [acc o]; cbn; [lia|].
  destruct (Z.land used m =? 0); etrans; [apply IH|cbn; lia|apply IH|].
  cbn; rewrite length_app; cbn; lia.
Qed.

Lemma extra_pairs_length (gpr fpr : Z) : (length (extra_pairs gpr fpr) <= 9)%nat.
Proof.
  unfold extra_pairs; etrans; [apply push_pairs_length|].
  pose proof (push_pairs_length false gpr gpr_pair_regs ([], -16)); cbn in *; lia.
Qed.

Section Layout.
Context (func : MachFunction) (outgoing_arg_size : Z) (red dyn : bool).
Let layout := compute_frame_layout_inner func outgoing_arg_size red dyn.

Lemma layout_pairs :
  callee_saved_pairs layout =
    (if uses_frame_pointer layout then [mkPair X29 X30 0 false] else [])
    ++ extra_pairs (gpr_used (scan_function func)) (fpr_used (scan_function func)).
Proof.
  unfold layout, compute_frame_layout_inner, extra_pairs; cbn [callee_saved_pairs uses_frame_pointer].
  set (pre := if negb _ then _ else _).
  rewrite <- (app_nil_r pre) at 1. rewrite push_pairs_app.
  destruct (push_pairs false _ _ ([], -16)) as [ps o]; cbn [fst snd].
  by rewrite push_pairs_app.
Qed.

Lemma layout_csa : callee_saved_area_size layout = 16 * Z.of_nat (length (callee_saved_pairs layout)).
Proof. cbn; lia. Qed.

Lemma layout_pairs_bound : (length (callee_saved_pairs layout) <= 10)%nat.
Proof.
  rewrite layout_pairs, length_app.
  pose proof (extra_pairs_length (gpr_used (scan_function func)) (fpr_used (scan_function func))).
  destruct (uses_frame_pointer layout); cbn; lia.
Qed.

Lemma layout_anchor : fp_to_spill_offset layout = 16 - callee_saved_area_size layout.
Proof. cbn; lia. Qed.

Lemma layout_spill_area :
  spill_area_size layout = if uses_frame_pointer layout then compute_stack_slot_area func else 0.
Proof. cbn; by destruct (_ && _). Qed.

(** No frame pointer: no frame at all. *)
Lemma layout_frameless :
  uses_frame_pointer layout = false ->
  callee_saved_pairs layout = [] /\ spill_area_size layout = 0 /\ outgoing_arg_area_size layout = 0
  /\ total_frame_size layout = 0 /\ has_dynamic_alloc layout = false /\ uses_red_zone layout = true.
Proof.
  intros Hfp. pose proof layout_pairs as Hp. pose proof layout_spill_area as Hs.
  rewrite Hfp in Hp, Hs. unfold layout, compute_frame_layout_inner in *.
  cbn [callee_saved_pairs uses_frame_pointer spill_area_size outgoing_arg_area_size
       total_frame_size has_dynamic_alloc uses_red_zone] in *.
  apply negb_false_iff in Hfp. rewrite Hfp in Hs |- *.
  rewrite !andb_true_iff in Hfp. destruct Hfp as [[[[[[[H1 H2] H3] H4] H5] H6] H7] H8].
  apply Z.eqb_eq in H4, H5, H6. rewrite H5, H6 in Hp |- *. rewrite H4.
  rewrite H1, H2. cbn. apply negb_true_iff in H3; rewrite H3. done.
Qed.

Context (Hwf : wf_func func) (Hout : 0 <= outgoing_arg_size <= 2 ^ 30).

Lemma slot_area_bounds : 0 <= compute_stack_slot_area func <= 2 ^ 31.
Proof.
  rewrite stack_slot_area_walk by done.
  pose proof (laid_out_wf func Hwf) as Hl. pose proof (laid_out_weight func Hwf).
  pose proof (walk_le (laid_out func) 0 Hl). pose proof (walk_weight (laid_out func) 0 Hl).
  pose proof (max_alignment_bound_from (laid_out func) STACK_ALIGNMENT Hl ltac:(done)) as Hm.
  fold (max_alignment (laid_out func)) in Hm. unfold STACK_ALIGNMENT in *; lia.
Qed.

Lemma outgoing_area_bounds :
  0 <= outgoing_arg_area_size layout <= 2 ^ 30 + 16 /\ (16 | outgoing_arg_area_size layout).
Proof.
  unfold layout, compute_frame_layout_inner; cbn [outgoing_arg_area_size].
  destruct (negb _); [split; [lia|by exists 0]|]. unfold STACK_ALIGNMENT.
  pose proof (align_up_16_spec outgoing_arg_size ltac:(lia) ltac:(lia)); lia || (split; [lia|tauto]).
Qed.

(** The 32-bit sizes do not wrap, and the frame holds its three areas. *)
Lemma layout_total :
  (16 | total_frame_size layout) /\ total_frame_size layout < 2 ^ 32 /\
  callee_saved_area_size layout + spill_area_size layout + outgoing_arg_area_size layout
    <= total_frame_size layout /\
  sp_adjustment layout = total_frame_size layout - callee_saved_area_size layout.
Proof.
  pose proof slot_area_bounds as Ha. pose proof outgoing_area_bounds as [Ho _].
  pose proof layout_pairs_bound as Hn. pose proof layout_csa as Hc. pose proof layout_spill_area as Hs.
  assert (Hs' : 0 <= spill_area_size layout <= 2 ^ 31)
    by (rewrite Hs; destruct (uses_frame_pointer layout); lia).
  assert (Et : total_frame_size layout = align_up (wrap 32 (wrap 32 (callee_saved_area_size layout
            + spill_area_size layout) + outgoing_arg_area_size layout)) 16) by done.
  rewrite (wrap_small 32 (_ + spill_area_size _)) in Et by (unfold uword; lia).
  rewrite (wrap_small 32) in Et by (unfold uword; lia).
  destruct (align_up_16_spec (callee_saved_area_size layout + spill_area_size layout
              + outgoing_arg_area_size layout)) as [Hb Hd]; [lia|lia|].
  rewrite <- Et in Hb, Hd. split_and!; [done|lia|lia|].
  unfold sp_adjustment; apply wrap_small; unfold uword; lia.
Qed.
End Layout.

(** ** Safety of the placement *)

Definition slot_at (func : MachFunction) (layout : FrameLayout) (i : nat) (o : Z) : Prop :=
  stack_slot_frame_offsets func layout !! i = Some (Some o).

Lemma slot_wf (func : MachFunction) (i : nat) :
  wf_func func -> (i < length (stack_slots func))%nat -> wf_slot (stack_slots func !!! i).
Proof.
  intros [H _] Hi. eapply Forall_lookup_1; [exact H|]. apply list_lookup_lookup_total_lt; lia.
Qed.

Lemma order_slot_wf (func : MachFunction) (i : nat) (l1 l2 : list nat) :
  wf_func func -> stack_slot_layout_order func = l1 ++ i :: l2 -> wf_slot (stack_slots func !!! i).
Proof.
  intros Hwf E; apply slot_wf; [done|]. apply layout_order_range; rewrite E; set_solver.
Qed.

Lemma fixed_prefix_wf (func : MachFunction) (l1 l2 : list nat) :
  wf_func func -> stack_slot_layout_order func = l1 ++ l2 ->
  Forall wf_slot (fixed_slots (stack_slots func) l1) /\
  Forall wf_slot (fixed_slots (stack_slots func) l2).
Proof.
  intros Hwf E; pose proof (laid_out_wf func Hwf) as H.
  unfold laid_out in H; rewrite E, fixed_slots_app in H. by apply Forall_app.
Qed.

(** A slot visited later lies wholly below. *)
Lemma placed_below (func : MachFunction) (a : Z) (l1 k l2 : list nat) (i j : nat) :
  wf_func func -> stack_slot_layout_order func = (l1 ++ i :: k) ++ j :: l2 ->
  is_runtime_sized (stack_slots func !!! i) = false ->
  let F := fixed_slots (stack_slots func) in
  place (walk a (F (l1 ++ i :: k))) (stack_slots func !!! j) + size (stack_slots func !!! j)
  <= place (walk a (F l1)) (stack_slots func !!! i).
Proof.
  intros Hwf E Hi F. unfold F.
  rewrite fixed_slots_app, fixed_slots_cons, walk_app by done.
  change (walk ?x (?s :: ?l)) with (walk (place x s) l).
  set (x := place (walk a _) _).
  pose proof (place_bounds (walk x (fixed_slots (stack_slots func) k)) (stack_slots func !!! j)
    (order_slot_wf func j _ _ Hwf E)).
  pose proof (proj1 (fixed_prefix_wf func _ _ Hwf E)) as Hk.
  rewrite fixed_slots_app, fixed_slots_cons in Hk by done.
  apply Forall_app in Hk as [_ Hk]; inversion_clear Hk as [|? ? _ Hk'].
  pose proof (walk_le _ x Hk'); lia.
Qed.

(** The lowest position of the walk is inside the reserved area. *)
Lemma walk_reserved (func : MachFunction) (a : Z) :
  wf_func func -> (16 | a) -> a - compute_stack_slot_area func <= walk a (laid_out func).
Proof.
  intros Hwf Ha. rewrite stack_slot_area_walk by done.
  pose proof (walk_displaced (laid_out func) a (laid_out_wf func Hwf) Ha); lia.
Qed.

(** What the placement of slot [i] at [o] promises: the base is aligned, the slot
    lies below the saved registers and above the outgoing arguments, it is
    disjoint from every other slot, and the protector's slot is above them all. *)
Definition well_placed (func : MachFunction) (layout : FrameLayout) (i : nat) (o : Z) : Prop :=
  let sz k := size (stack_slots func !!! k) in
  (align (stack_slots func !!! i) | o) /\
  o + sz i <= - (callee_saved_area_size layout - 16) /\
  - (callee_saved_area_size layout - 16) - sp_adjustment layout + outgoing_arg_area_size layout
    <= o /\
  (forall j oj, j <> i -> slot_at func layout j oj -> oj + sz j <= o \/ o + sz i <= oj) /\
  (stack_protector_slot func = Some (Z.of_nat i) ->
   forall j oj, j <> i -> slot_at func layout j oj -> oj + sz j <= o).

Lemma two_splits {A} (l1 l2 m1 m2 : list A) (x y : A) :
  x <> y -> l1 ++ x :: l2 = m1 ++ y :: m2 ->
  (exists k, m1 = l1 ++ x :: k) \/ (exists k, l1 = m1 ++ y :: k).
Proof.
  intros Hne [(k & -> & E)|(k & -> & E)]%app_eq_inv; destruct k as [|z k]; simplify_eq/=; eauto.
Qed.

(** Of two placed slots the one visited later lies below the other. *)
Lemma placed_apart (func : MachFunction) (layout : FrameLayout) (i j : nat) (oi oj : Z) :
  wf_func func -> - 2 ^ 30 <= fp_to_spill_offset layout < 2 ^ 30 -> i <> j ->
  slot_at func layout i oi -> slot_at func layout j oj ->
  oj + size (stack_slots func !!! j) <= oi \/
  (oi + size (stack_slots func !!! i) <= oj /\
   exists m1 k l2, stack_slot_layout_order func = (m1 ++ j :: k) ++ i :: l2).
Proof.
  intros Hwf Hr Hne Hi Hj.
  destruct (frame_offset_walk func layout i oi Hwf Hr Hi) as (l1 & l2 & Ei & Hfi & ->).
  destruct (frame_offset_walk func layout j oj Hwf Hr Hj) as (m1 & m2 & Ej & Hfj & ->).
  destruct (two_splits l1 l2 m1 m2 i j Hne ltac:(congruence)) as [[k ->]|[k ->]].
  - left; by apply (placed_below func _ l1 k m2 i j).
  - right; split; [by apply (placed_below func _ m1 k l2 j i)|eauto].
Qed.

(** Where a slot is placed relative to the local area. *)
Lemma placed_in_area (func : MachFunction) (layout : FrameLayout) (i : nat) (o : Z) :
  wf_func func -> - 2 ^ 30 <= fp_to_spill_offset layout < 2 ^ 30 ->
  (16 | fp_to_spill_offset layout) -> slot_at func layout i o ->
  (align (stack_slots func !!! i) | o) /\
  o + size (stack_slots func !!! i) <= fp_to_spill_offset layout /\
  fp_to_spill_offset layout - compute_stack_slot_area func <= o.
Proof.
  intros Hwf Hr Ha Hi.
  destruct (frame_offset_walk func layout i o Hwf Hr Hi) as (l1 & l2 & E & Hf & ->).
  destruct (fixed_prefix_wf func _ _ Hwf E) as [Hw1 Hw2]. rewrite fixed_slots_cons in Hw2 by done.
  inversion_clear Hw2 as [|? ? Hs Hw2'].
  set (x := walk (fp_to_spill_offset layout) (fixed_slots (stack_slots func) l1)).
  pose proof (place_bounds x _ Hs) as [_ Hb].
  pose proof (walk_le _ (fp_to_spill_offset layout) Hw1) as Hle; fold x in Hle.
  split_and!; [by eexists|lia|].
  etrans; [by apply walk_reserved|]. unfold laid_out.
  rewrite E, fixed_slots_app, fixed_slots_cons, walk_app by done.
  by apply (walk_le _ (place x _) Hw2').
Qed.

Lemma protector_first (func : MachFunction) (i j : nat) (m1 k l2 : list nat) :
  stack_protector_slot func = Some (Z.of_nat i) -> (i < length (stack_slots func))%nat ->
  stack_slot_layout_order func <> (m1 ++ j :: k) ++ i :: l2.
Proof.
  intros Hp Hlt E. destruct (layout_order_protector func _ Hp) as [rest Er]; [lia|].
  rewrite Nat2Z.id in Er. pose proof (layout_order_nodup func) as Hnd.
  rewrite E in Hnd. rewrite Er in E. rewrite <- app_assoc in Hnd.
  apply NoDup_app in Hnd as (_ & Hm & Hnd). cbn in Hnd.
  destruct m1 as [|z m1]; simplify_eq/=.
  - inversion_clear Hnd; set_solver.
  - apply (Hm z); set_solver.
Qed.

Lemma slot_at_lt (func : MachFunction) (layout : FrameLayout) (i : nat) (o : Z) :
  slot_at func layout i o -> (i < length (stack_slots func))%nat.
Proof.
  intros Hi%lookup_lt_Some. unfold stack_slot_frame_offsets in Hi.
  change (fold_left _ _ _) with (fold_left (offset_step (stack_slots func))
    (stack_slot_layout_order func) (replicate (length (stack_slots func)) None,
     fp_to_spill_offset layout)) in Hi.
  rewrite offset_fold_length in Hi; cbn [fst] in Hi. by rewrite length_replicate in Hi.
Qed.

Lemma slot_well_placed (func : MachFunction) (outgoing : Z) (red dyn : bool) (i : nat) (o : Z) :
  wf_func func -> 0 <= outgoing <= 2 ^ 30 ->
  uses_frame_pointer (compute_frame_layout_inner func outgoing red dyn) = true ->
  slot_at func (compute_frame_layout_inner func outgoing red dyn) i o ->
  well_placed func (compute_frame_layout_inner func outgoing red dyn) i o.
Proof.
  intros Hwf Hout Hfp Hi.
  pose proof (layout_anchor func outgoing red dyn) as Han.
  pose proof (layout_csa func outgoing red dyn) as Hc.
  pose proof (layout_pairs_bound func outgoing red dyn) as Hn.
  pose proof (layout_total func outgoing red dyn Hwf Hout) as (_ & _ & Hcap & Hadj).
  pose proof (layout_spill_area func outgoing red dyn) as Hsp. rewrite Hfp in Hsp.
  set (layout := compute_frame_layout_inner func outgoing red dyn) in *.
  assert (Hr : - 2 ^ 30 <= fp_to_spill_offset layout < 2 ^ 30) by lia.
  assert (H16 : (16 | fp_to_spill_offset layout))
    by (exists (1 - Z.of_nat (length (callee_saved_pairs layout))); lia).
  destruct (placed_in_area func layout i o Hwf Hr H16 Hi) as (Hal & Htop & Hbot).
  unfold well_placed; split_and!; [done|lia|lia| |].
  - intros j oj Hne Hj. destruct (placed_apart func layout i j o oj) as [|[]]; auto.
  - intros Hp j oj Hne Hj.
    destruct (placed_apart func layout i j o oj) as [|(_ & m1 & k & l2 & E)]; auto.
    by apply (protector_first func i j m1 k l2) in Hp; [|by eapply slot_at_lt].
Qed.

(** The operand is an address in the frame. *)
Definition names_frame (op : MachOperand) : bool :=
  match op with MStackSlot _ | MFrameIndex _ | MIncomingArg _ => true | _ => false end.

Lemma frameless_operands (func : MachFunction) (outgoing : Z) (red dyn : bool) (inst : MachInst) (op : MachOperand) :
  uses_frame_pointer (compute_frame_layout_inner func outgoing red dyn) = false ->
  inst ∈ insts func -> op ∈ operands inst -> names_frame op = false.
Proof.
  cbn. intros H%negb_false_iff Hi Hop. apply andb_true_iff in H as [_ H%negb_true_iff].
  apply not_true_iff_false. intros Hn. apply not_true_iff_false in H. apply H.
  apply existsb_exists. exists inst. split; [by apply list_elem_of_In|]. apply orb_true_iff. right.
  apply existsb_exists. exists op. split; [by apply list_elem_of_In|]. by destruct op.
Qed.

(** C28: Stack slots are well placed.  A slot of runtime size gets no offset and every
    other slot gets one.  In a frame with a frame pointer this is a multiple of the
    slot's alignment, and the slot is between the saved registers and the
    outgoing arguments of the area the prologue allocates, disjoint from all other
    slots, the stack protector's slot being above all others; without a frame pointer
    no instruction has an operand in the frame.  The slack
    [max_align - 16] of [compute_stack_slot_area] is enough for over-aligned slots
    although the placement starts from another anchor than the sizing. *)
Theorem stack_slots_well_placed (func : MachFunction) (outgoing : Z) (red dyn : bool) (i : nat) :
  wf_func func -> 0 <= outgoing <= 2 ^ 30 -> (i < length (stack_slots func))%nat ->
  let layout := compute_frame_layout_inner func outgoing red dyn in
  (is_runtime_sized (stack_slots func !!! i) = true -> stack_slot_frame_offsets func layout !! i = Some None) /\
  (is_runtime_sized (stack_slots func !!! i) = false ->
     exists o, slot_at func layout i o /\ (uses_frame_pointer layout = true -> well_placed func layout i o)) /\
  (uses_frame_pointer layout = false ->
     forall inst op, inst ∈ insts func -> op ∈ operands inst -> names_frame op = false).
Proof.
  intros Hwf Hout Hi layout. pose proof (frame_offset_cases func layout i Hi) as Ho. split_and!.
  - intros E. by rewrite E in Ho.
  - intros E. rewrite E in Ho. destruct Ho as [o Ho]. exists o. split; [done|]. intros Hfp. by apply slot_well_placed.
  - intros Hfp inst op. by eapply frameless_operands.
Qed.

(** A protected function with a buffer and an over-aligned local. *)
Definition demo_slots_func : MachFunction :=
  mkMachFunction [] [mkSlot 20 4 Fixed; mkSlot 8 64 Fixed; mkSlot 8 16 Fixed] StackGuard (Some 2).

Lemma stack_slots_well_placed_witness :
  let layout := compute_frame_layout_inner demo_slots_func 0 true false in
  stack_slot_frame_offsets demo_slots_func layout = [Some (-36); Some (-64); Some (-16)] /\
  well_placed demo_slots_func layout 1 (-64).
Proof.
  intros layout. split; [by vm_compute|].
  destruct (stack_slots_well_placed demo_slots_func 0 true false 1) as (_ & (o & Ho & Hw) & _).
  - split; [|by vm_compute].
    repeat constructor; cbn; try lia; [exists 2|exists 6|exists 4]; lia.
  - lia.
  - vm_compute. lia.
  - reflexivity.
  - vm_compute in Ho. injection Ho as <-. apply Hw. by vm_compute.
Defined.
