(* ===== verification/FrameExec.v ===== *)
(** * Execution of prologues and epilogues ([crates/trust-cg-codegen/src/frame.rs])

    The AArch64 meaning of the instructions [emit_prologue] and [emit_epilogue]
    produce, and the proof that a computed layout saves what the body may use and
    that the epilogue gives it back. *)

From S2P Require Import Prelude Regs Frame FrameSlots.
Local Open Scope Z_scope.

(** ** The machine

    Registers are indexed by the encoding of their 64-bit view: [0..30] for
    [X0..X30], [31] for [SP], [96..127] for [D0..D31].  Memory is a map from
    8-byte aligned addresses to 64-bit cells. *)

Record Machine := mkMachine { reg : Z -> Z; mem : Z -> Z; returned_to : option Z }.

Definition upd (f : Z -> Z) (i v : Z) : Z -> Z := fun j => if j =? i then v else f j.

Definition reg_index (op : MachOperand) : option Z :=
  match op with
  | MPReg p =>
      match preg_class p with
      | Gpr64 => if encoding p =? 160 then None else Some (encoding p)
      | Fpr64 => Some (encoding p)
      | _ => None
      end
  | MSpecial SpecSP => Some 31
  | _ => None
  end.

(** The signed scaled 7-bit offset of a 64-bit pair access. *)
Definition pair_imm_ok (off : Z) : bool :=
  (off mod 8 =? 0) && (-512 <=? off) && (off <=? 504).

(** The two transfer registers are of one kind and neither is [SP]. *)
Definition pair_regs_ok (a b : Z) : bool :=
  bool_decide ((a <? 31) = (b <? 31)) && negb (a =? 31) && negb (b =? 31).

(** An access through [SP] requires it to be 16-byte aligned. *)
Definition base_ok (b v : Z) : bool := if b =? 31 then v mod 16 =? 0 else v mod 8 =? 0.

Definition store_pair (m : Machine) (addr a b : Z) : Machine :=
  mkMachine (reg m) (upd (upd (mem m) addr (reg m a)) (wrap 64 (addr + 8)) (reg m b))
    (returned_to m).

Definition load_pair (m : Machine) (addr a b : Z) : Machine :=
  mkMachine (upd (upd (reg m) a (mem m addr)) b (mem m (wrap 64 (addr + 8)))) (mem m)
    (returned_to m).

Definition set_reg (m : Machine) (r v : Z) : Machine :=
  mkMachine (upd (reg m) r v) (mem m) (returned_to m).

(** [None]: the instruction has no encoding or faults. *)
Definition exec_inst (i : MachInst) (m : Machine) : option Machine :=
  match opcode i, operands i with
  | Ret, [] => Some (mkMachine (reg m) (mem m) (Some (reg m 30)))
  | AddRI, [d; s; MImm imm] =>
      match reg_index d, reg_index s with
      | Some d, Some s =>
          if (0 <=? imm) && (imm <=? 4095) && (d <? 32) && (s <? 32)
          then Some (set_reg m d (wrap 64 (reg m s + imm))) else None
      | _, _ => None
      end
  | SubRI, [d; s; MImm imm] =>
      match reg_index d, reg_index s with
      | Some d, Some s =>
          if (0 <=? imm) && (imm <=? 4095) && (d <? 32) && (s <? 32)
          then Some (set_reg m d (wrap 64 (reg m s - imm))) else None
      | _, _ => None
      end
  | op, [ra; rb; base; MImm off] =>
      match reg_index ra, reg_index rb, reg_index base with
      | Some a, Some b, Some s =>
          if pair_imm_ok off && pair_regs_ok a b && base_ok s (reg m s) && (s <? 32) then
            let addr := wrap 64 (reg m s + off) in
            match op with
            | StpRI => Some (store_pair m addr a b)
            | StpPreIndex => Some (set_reg (store_pair m addr a b) s addr)
            | LdpRI => Some (load_pair m addr a b)
            | LdpPostIndex =>
                if (s =? a) || (s =? b) then None
                else Some (set_reg (load_pair m (reg m s) a b) s addr)
            | _ => None
            end
          else None
      | _, _, _ => None
      end
  | _, _ => None
  end.

Fixpoint exec_insts (l : list MachInst) (m : Machine) : option Machine :=
  match l with
  | [] => Some m
  | i :: l => match exec_inst i m with Some m' => exec_insts l m' | None => None end
  end.

Lemma exec_insts_app (l1 l2 : list MachInst) (m : Machine) :
  exec_insts (l1 ++ l2) m
  = match exec_insts l1 m with Some m' => exec_insts l2 m' | None => None end.
Proof.
  revert m; induction l1 as [|i l1 IH]; intros m; [done|]; cbn.
  destruct (exec_inst i m); [apply IH|done].
Qed.

Lemma upd_same (f : Z -> Z) (i v : Z) : upd f i v i = v.
Proof. unfold upd; by rewrite Z.eqb_refl. Qed.

Lemma upd_other (f : Z -> Z) (i v j : Z) : j <> i -> upd f i v j = f j.
Proof. unfold upd; intros; by rewrite (proj2 (Z.eqb_neq j i)). Qed.

(** ** Registers of a pair *)

(** The registers a callee must preserve: [X19..X28] and [D8..D15]. *)
Definition callee_reg (r : Z) : bool := within 19 28 r || within 104 111 r.

Definition storage (p : CalleeSavedPair) : Z * Z :=
  let '(r1, r2) := storage_regs_for_callee_saved_pair p in (encoding r1, encoding r2).

(** The two registers of an extra pair are callee-saved and of the same kind. *)
Definition pair_ok (p : CalleeSavedPair) : bool :=
  let '(a, b) := storage p in
  callee_reg a && callee_reg b && bool_decide ((a <? 31) = (b <? 31)).

Definition table_pair (fpr : bool) (e : PReg * PReg * Z) : CalleeSavedPair :=
  mkPair e.1.1 e.1.2 0 fpr.

Definition table_pairs : list CalleeSavedPair :=
  map (table_pair false) gpr_pair_regs ++ map (table_pair true) fpr_pair_regs.

Definition pair_key (p : CalleeSavedPair) : PReg * PReg * bool := (reg1 p, reg2 p, is_fpr p).

Lemma push_pairs_elem (b : bool) (used : Z) (table : list (PReg * PReg * Z))
    (acc : list CalleeSavedPair * Z) (p : CalleeSavedPair) :
  p ∈ (push_pairs b used table acc).1 ->
  p ∈ acc.1 \/ exists e, e ∈ table /\ pair_key p = (e.1.1, e.1.2, b).
Proof.
  unfold push_pairs; revert acc; induction table as [|[[r1 r2] mk] table IH]; intros [acc o]; [by left|].
  cbn [fold_left]; destruct (Z.land used mk =? 0); intros [H|(e & He & E)]%IH.
  - by left.
  - right; exists e; split; [by right|done].
  - cbn in H; apply elem_of_app in H as [H| ->%list_elem_of_singleton]; [by left|right].
    eexists; split; [by left|done].
  - right; exists e; split; [by right|done].
Qed.

Lemma push_pairs_used (b : bool) (used : Z) (table : list (PReg * PReg * Z))
    (acc : list CalleeSavedPair * Z) (e : PReg * PReg * Z) :
  e ∈ table -> Z.land used e.2 <> 0 ->
  exists p, p ∈ (push_pairs b used table acc).1 /\ pair_key p = (e.1.1, e.1.2, b).
Proof.
  intros He Hu; apply list_elem_of_split in He as (t1 & t2 & ->).
  unfold push_pairs; rewrite fold_left_app; cbn [fold_left].
  destruct (fold_left _ t1 acc) as [ps o]. destruct e as [[r1 r2] mk]; cbn [fst snd] in *.
  rewrite (proj2 (Z.eqb_neq _ _) Hu).
  change (fold_left _ t2 ?x) with (push_pairs b used t2 x).
  rewrite <- (app_nil_r (ps ++ _)), push_pairs_app. exists (mkPair r1 r2 (o - 16) b); split; [|done].
  cbn; apply elem_of_app; left; apply elem_of_app; right; by left.
Qed.

Lemma push_pairs_keep (b : bool) (used : Z) (table : list (PReg * PReg * Z))
    (acc : list CalleeSavedPair * Z) (p : CalleeSavedPair) :
  p ∈ acc.1 -> p ∈ (push_pairs b used table acc).1.
Proof.
  destruct acc as [ps o]; intros H. rewrite <- (app_nil_r ps), push_pairs_app; cbn.
  apply elem_of_app; by left.
Qed.

(** [pair_ok] only looks at the key. *)
Lemma pair_key_ok (p q : CalleeSavedPair) : pair_key p = pair_key q -> pair_ok p = pair_ok q.
Proof.
  destruct p, q; unfold pair_key, pair_ok, storage, storage_regs_for_callee_saved_pair; cbn.
  by intros [= -> -> ->].
Qed.

Lemma extra_pairs_ok (gpr fpr : Z) (p : CalleeSavedPair) :
  p ∈ extra_pairs gpr fpr -> pair_ok p = true.
Proof.
  assert (T : forall q, q ∈ table_pairs -> pair_ok q = true).
  { apply Forall_forall. unfold table_pairs; repeat constructor. }
  unfold extra_pairs; intros [H|(e & He & E)]%push_pairs_elem.
  - apply push_pairs_elem in H as [H|(e & He & E)]; [by apply elem_of_nil in H|].
    rewrite (pair_key_ok p (table_pair false e)) by done. apply T; unfold table_pairs.
    apply elem_of_app; left. by apply list_elem_of_fmap_2.
  - rewrite (pair_key_ok p (table_pair true e)) by done. apply T; unfold table_pairs.
    apply elem_of_app; right. by apply list_elem_of_fmap_2.
Qed.

(** ** One instruction at a time *)

Definition reg64 (p : PReg) : Prop := reg_index (MPReg p) = Some (encoding p).

Lemma callee_reg64 (p : PReg) : callee_reg (encoding p) = true -> reg64 p.
Proof.
  destruct p as [e]; unfold callee_reg, reg64, reg_index, preg_class, within; cbn [encoding]; intros H.
  assert (19 <= e <= 28 \/ 104 <= e <= 111) as [He|He] by lia.
  - rewrite (proj2 (Z.leb_le 0 e)), (proj2 (Z.leb_le e 31)) by lia. cbn.
    by rewrite (proj2 (Z.eqb_neq e 160)) by lia.
  - repeat (rewrite (proj2 (Z.leb_gt e _)) by lia; rewrite ?andb_false_r).
    rewrite (proj2 (Z.leb_le 96 e)), (proj2 (Z.leb_le e 127)) by lia. done.
Qed.

Section Step.
Context (m : Machine) (a b : PReg) (off : Z).
Context (Ha : reg64 a) (Hb : reg64 b).
Context (Hok : pair_regs_ok (encoding a) (encoding b) = true) (Hoff : pair_imm_ok off = true).

Lemma exec_stp_offset :
  reg m 31 mod 16 = 0 ->
  exec_inst (make_stp_offset a b off) m
  = Some (store_pair m (wrap 64 (reg m 31 + off)) (encoding a) (encoding b)).
Proof.
  intros Hs; unfold exec_inst; cbn [opcode operands make_stp_offset MachInst_new].
  rewrite Ha, Hb; cbn [reg_index]. unfold base_ok; cbn [Z.eqb].
  by rewrite Hok, Hoff, Hs.
Qed.

Lemma exec_stp_pre_index :
  reg m 31 mod 16 = 0 ->
  exec_inst (make_stp_pre_index a b off) m
  = Some (set_reg (store_pair m (wrap 64 (reg m 31 + off)) (encoding a) (encoding b)) 31
            (wrap 64 (reg m 31 + off))).
Proof.
  intros Hs; unfold exec_inst; cbn [opcode operands make_stp_pre_index MachInst_new].
  rewrite Ha, Hb; cbn [reg_index]. unfold base_ok; cbn [Z.eqb].
  by rewrite Hok, Hoff, Hs.
Qed.

Lemma exec_ldp_offset :
  reg m 31 mod 16 = 0 ->
  exec_inst (make_ldp_offset a b off) m
  = Some (load_pair m (wrap 64 (reg m 31 + off)) (encoding a) (encoding b)).
Proof.
  intros Hs; unfold exec_inst; cbn [opcode operands make_ldp_offset MachInst_new].
  rewrite Ha, Hb; cbn [reg_index]. unfold base_ok; cbn [Z.eqb].
  by rewrite Hok, Hoff, Hs.
Qed.

Lemma exec_ldp_fp :
  reg m 29 mod 8 = 0 ->
  exec_inst (make_ldp_base_offset a b X29 off) m
  = Some (load_pair m (wrap 64 (reg m 29 + off)) (encoding a) (encoding b)).
Proof.
  intros Hs; unfold exec_inst; cbn [opcode operands make_ldp_base_offset MachInst_new].
  rewrite Ha, Hb; cbn. unfold base_ok; cbn [Z.eqb].
  by rewrite Hok, Hoff, Hs.
Qed.

Lemma exec_ldp_post_index :
  reg m 31 mod 16 = 0 ->
  exec_inst (make_ldp_post_index a b off) m
  = Some (set_reg (load_pair m (reg m 31) (encoding a) (encoding b)) 31
            (wrap 64 (reg m 31 + off))).
Proof.
  intros Hs; unfold exec_inst; cbn [opcode operands make_ldp_post_index MachInst_new].
  rewrite Ha, Hb; cbn [reg_index]. unfold base_ok; change (31 =? 31) with true; cbn iota.
  rewrite Hok, Hoff, Hs; change (31 <? 32) with true; cbn iota beta; cbn [andb].
  unfold pair_regs_ok in Hok; rewrite !andb_true_iff, !negb_true_iff in Hok.
  destruct Hok as [[_ E1] E2]. rewrite (Z.eqb_sym 31 (encoding a)), E1, (Z.eqb_sym 31 (encoding b)), E2. done.
Qed.
End Step.

(** ** Saving and restoring the pairs *)

Lemma exec_push_sp (k : Z) (add : bool) (fuel : nat) (imm : Z) (m : Machine) :
  k = (if add then 1 else -1) -> 0 <= imm -> imm <= Z.of_nat fuel * AARCH64_SP_ADJUST_CHUNK ->
  uword 64 (reg m 31) -> uword 64 (reg m 31 + k * imm) ->
  exists m', exec_insts (map (if add then make_add_sp_imm else make_sub_sp_imm)
                             (sp_chunks fuel imm)) m = Some m' /\
    mem m' = mem m /\ returned_to m' = returned_to m /\
    reg m' 31 = reg m 31 + k * imm /\ (forall r, r <> 31 -> reg m' r = reg m r).
Proof.
  intros Hk; revert imm m; induction fuel as [|fuel IH]; intros imm m H0 Hf Hu Hu'.
  { assert (imm = 0) as -> by lia. exists m; cbn; split_and!; auto; lia. }
  cbn [sp_chunks]; destruct (0 <? imm) eqn:E.
  2: { apply Z.ltb_ge in E. exists m; cbn. split_and!; auto; destruct add; subst k; lia. }
  apply Z.ltb_lt in E. change AARCH64_SP_ADJUST_CHUNK with 4080 in *.
  set (c := Z.min imm 4080). set (m1 := set_reg m 31 (reg m 31 + k * c)).
  assert (Ec : exec_inst ((if add then make_add_sp_imm else make_sub_sp_imm) c) m = Some m1).
  { unfold m1; destruct add; subst k; unfold exec_inst; cbn [opcode operands make_add_sp_imm
      make_sub_sp_imm MachInst_new reg_index].
    all: rewrite (proj2 (Z.leb_le 0 c)), (proj2 (Z.leb_le c 4095)) by lia; cbn.
    all: rewrite wrap_small by (unfold uword in *; lia); do 2 f_equal; lia. }
  destruct (IH (imm - c) m1) as (m' & He & Hm & Hr & Hs & Ho); [lia|lia| | |].
  - unfold m1; cbn [reg set_reg]; rewrite upd_same; unfold uword in *; destruct add; subst k; lia.
  - unfold m1; cbn [reg set_reg]; rewrite upd_same; unfold uword in *; destruct add; subst k; lia.
  - exists m'; cbn [map exec_insts]; rewrite Ec. split_and!; [done|by rewrite Hm|by rewrite Hr| |].
    + rewrite Hs; unfold m1; cbn [reg set_reg]; rewrite upd_same; destruct add; subst k; lia.
    + intros r Hr'; rewrite Ho by done. unfold m1; cbn [reg set_reg]; by rewrite upd_other.
Qed.

Lemma sp_chunk_rounds_enough (imm : Z) :
  0 <= imm -> imm <= Z.of_nat (sp_chunk_rounds imm) * AARCH64_SP_ADJUST_CHUNK.
Proof.
  intros H; unfold sp_chunk_rounds; change AARCH64_SP_ADJUST_CHUNK with 4080.
  pose proof (Z.div_pos imm 4080 H ltac:(lia)). rewrite Z2Nat.id by lia.
  pose proof (Z.div_mod imm 4080); pose proof (Z.mod_pos_bound imm 4080); lia.
Qed.

Lemma mod_sub_mul (x m k : Z) : m <> 0 -> x mod m = 0 -> (x - m * k) mod m = 0.
Proof.
  intros Hm Hx. replace (x - m * k) with (x + - k * m) by lia. by rewrite Z.mod_add.
Qed.

Definition frame_record : CalleeSavedPair := mkPair X29 X30 0 false.

Section Pairs.
Context (layout : FrameLayout) (extras : list CalleeSavedPair) (sp0 : Z) (m0 : Machine).
Context (Hpairs : callee_saved_pairs layout = frame_record :: extras).
Context (Hextras : forall p, p ∈ extras -> pair_ok p = true).
Context (Hlen : (length extras <= 9)%nat).
Context (Hcsa : callee_saved_area_size layout = 16 * (Z.of_nat (length extras) + 1)).
Context (Hal : sp0 mod 16 = 0).
Context (Hsp0 : callee_saved_area_size layout <= sp0 < 2 ^ 64).

Let n := length extras.
Let base := sp0 - callee_saved_area_size layout.

(** The address of pair [i] and the registers at its two cells, low cell first:
    the frame record is stored in order, the extra pairs reversed. *)
Definition slot_addr (i : nat) : Z := sp0 - 16 * (Z.of_nat i + 1).

Definition cell_regs (i : nat) : Z * Z :=
  if (i =? 0)%nat then (29, 30)
  else let '(a, b) := storage (callee_saved_pairs layout !!! i) in (b, a).

(** [mm] holds the entry values of the registers of pair [i]. *)
Definition saved_at (mm : Z -> Z) (i : nat) : Prop :=
  mm (slot_addr i) = reg m0 (cell_regs i).1 /\ mm (slot_addr i + 8) = reg m0 (cell_regs i).2.

Lemma extra_at (i : nat) :
  (1 <= i <= n)%nat -> exists p, callee_saved_pairs layout !!! i = p /\ pair_ok p = true.
Proof.
  intros Hi; eexists; split; [done|]. rewrite Hpairs. destruct i as [|i]; [lia|].
  apply Hextras. change ((frame_record :: extras) !!! S i) with (extras !!! i).
  apply list_elem_of_lookup_total_2; unfold n in Hi; lia.
Qed.

(** Side conditions of the access to pair [i]. *)
Lemma extra_storage (i : nat) :
  (1 <= i <= n)%nat ->
  exists r1 r2, storage_regs_for_callee_saved_pair (callee_saved_pairs layout !!! i) = (r1, r2) /\
    reg64 r1 /\ reg64 r2 /\ pair_regs_ok (encoding r2) (encoding r1) = true /\
    cell_regs i = (encoding r2, encoding r1) /\
    callee_reg (encoding r1) = true /\ callee_reg (encoding r2) = true.
Proof.
  intros Hi; destruct (extra_at i Hi) as (p & Ep & Hp).
  unfold cell_regs, storage. rewrite (proj2 (Nat.eqb_neq i 0)) by lia. rewrite Ep.
  unfold pair_ok, storage in Hp.
  destruct (storage_regs_for_callee_saved_pair p) as [r1 r2].
  rewrite !andb_true_iff in Hp; destruct Hp as [[H1 H2] H3]. exists r1, r2.
  split_and!; auto using callee_reg64.
  unfold pair_regs_ok; rewrite !andb_true_iff, !negb_true_iff, !Z.eqb_neq.
  unfold callee_reg, within in H1, H2. split_and!; [|lia|lia].
  apply bool_decide_eq_true in H3; apply bool_decide_eq_true; done.
Qed.

(** The registers other than [SP] still have their entry values. *)
Definition entry_regs (m : Machine) : Prop := forall r, r <> 31 -> reg m r = reg m0 r.

Lemma slot_addr_word (i : nat) :
  (i <= n)%nat -> uword 64 (slot_addr i) /\ uword 64 (slot_addr i + 8).
Proof. unfold slot_addr, uword, n; intros; lia. Qed.

Lemma cell_regs_not_sp (i : nat) :
  (i <= n)%nat -> (cell_regs i).1 <> 31 /\ (cell_regs i).2 <> 31.
Proof.
  intros Hi; destruct (decide (i = 0%nat)) as [->|Hne]; [done|].
  destruct (extra_storage i) as (r1 & r2 & _ & _ & _ & _ & -> & H1 & H2); [lia|].
  unfold callee_reg, within in *; cbn; lia.
Qed.

(** Storing pair [i] saves it and keeps the pairs already saved. *)
Lemma store_saves (m : Machine) (i j : nat) :
  entry_regs m -> (i <= n)%nat -> (j <= n)%nat -> j = i \/ saved_at (mem m) j ->
  saved_at (mem (store_pair m (slot_addr i) (cell_regs i).1 (cell_regs i).2)) j.
Proof.
  intros Hr Hi Hj H. pose proof (cell_regs_not_sp i Hi) as [N1 N2].
  unfold saved_at, store_pair; cbn [mem].
  rewrite (wrap_small 64) by apply (slot_addr_word i Hi).
  destruct (decide (j = i)) as [->|Hne].
  - rewrite upd_same, upd_other, upd_same by lia. split; apply Hr; done.
  - destruct H as [|[H1 H2]]; [done|]. unfold slot_addr in *; rewrite !upd_other by lia. done.
Qed.

Lemma store_elsewhere (m : Machine) (i : nat) (a lo hi : Z) :
  (i <= n)%nat -> a < base \/ sp0 <= a -> mem (store_pair m (slot_addr i) lo hi) a = mem m a.
Proof.
  intros Hi Ha; unfold store_pair; cbn [mem].
  rewrite (wrap_small 64) by apply (slot_addr_word i Hi).
  unfold slot_addr, base, n in *; rewrite !upd_other; lia || done.
Qed.

Lemma save_step (m : Machine) (i : nat) :
  reg m 31 = base -> (1 <= i < n)%nat ->
  exec_inst (prologue_save layout n i) m
  = Some (store_pair m (slot_addr i) (cell_regs i).1 (cell_regs i).2).
Proof.
  intros Hs Hi. destruct (extra_storage i) as (r1 & r2 & E & H1 & H2 & H3 & -> & _); [lia|].
  unfold prologue_save; rewrite E.
  rewrite (proj2 (Z.eqb_neq _ 0)) by lia.
  rewrite exec_stp_offset; [| done | done | done | | ].
  - rewrite Hs. do 3 f_equal. unfold base, slot_addr, n in *. rewrite wrap_small; unfold uword; lia.
  - unfold pair_imm_ok; rewrite !andb_true_iff, Z.eqb_eq, !Z.leb_le. unfold n in *.
    split_and!; [|lia|lia]. apply Z.mod_divide; [lia|].
    exists (2 * (Z.of_nat (length extras) - Z.of_nat i)); lia.
  - rewrite Hs; unfold base; rewrite Hcsa; by apply mod_sub_mul.
Qed.

Lemma csa_imm_ok : pair_imm_ok (- callee_saved_area_size layout) = true /\
                   pair_imm_ok (callee_saved_area_size layout) = true /\
                   pair_imm_ok (callee_saved_area_size layout - 16) = true.
Proof.
  unfold pair_imm_ok; rewrite !andb_true_iff, !Z.eqb_eq, !Z.leb_le, Hcsa.
  split_and!; try lia; apply Z.mod_divide; try lia.
  - exists (- (2 * (Z.of_nat (length extras) + 1))); lia.
  - exists (2 * (Z.of_nat (length extras) + 1)); lia.
  - exists (2 * Z.of_nat (length extras)); lia.
Qed.

Lemma save_bottom (m : Machine) :
  reg m 31 = sp0 -> (1 <= n)%nat ->
  exec_inst (prologue_save layout n n) m
  = Some (set_reg (store_pair m (slot_addr n) (cell_regs n).1 (cell_regs n).2) 31 base).
Proof.
  intros Hs Hi. destruct (extra_storage n) as (r1 & r2 & E & H1 & H2 & H3 & -> & _); [lia|].
  unfold prologue_save; rewrite E, (proj2 (Z.eqb_eq _ 0)) by lia.
  rewrite exec_stp_pre_index; [| done | done | done | apply csa_imm_ok | by rewrite Hs ].
  rewrite Hs. rewrite (wrap_small 64) by (unfold uword; lia).
  replace (slot_addr n) with base by (unfold slot_addr, base, n; lia).
  unfold base; by rewrite Z.add_opp_r.
Qed.

(** The stores of the pairs above the bottom one. *)
Lemma saves_exec (l : list nat) (m : Machine) :
  (forall i, i ∈ l -> (1 <= i < n)%nat) -> reg m 31 = base -> entry_regs m ->
  exists m', exec_insts (map (prologue_save layout n) l) m = Some m' /\
    reg m' = reg m /\ returned_to m' = returned_to m /\
    (forall j, (j <= n)%nat -> j ∈ l \/ saved_at (mem m) j -> saved_at (mem m') j) /\
    (forall a, a < base \/ sp0 <= a -> mem m' a = mem m a).
Proof.
  revert m; induction l as [|i l IH]; intros m Hl Hs Hr.
  { exists m; cbn; split_and!; auto. intros j _ [H|H]; [by apply elem_of_nil in H|done]. }
  assert (Hi : (1 <= i < n)%nat) by (apply Hl; by left).
  cbn [map exec_insts]; rewrite (save_step m i Hs Hi).
  set (m1 := store_pair _ _ _ _).
  destruct (IH m1) as (m' & He & Hreg & Hret & Hsv & Hout); [|done|done|].
  { intros k Hk; apply Hl; by right. }
  exists m'; split_and!; [done|by rewrite Hreg|by rewrite Hret| |].
  - intros j Hj H. apply Hsv; [done|]. destruct H as [[->|H]%elem_of_cons|H]; [|by left|].
    + right; apply store_saves; auto; lia.
    + right; apply store_saves; auto; lia.
  - intros a Ha; rewrite Hout by done. apply store_elsewhere; [lia|done].
Qed.

Lemma base_aligned : base mod 16 = 0.
Proof. unfold base; rewrite Hcsa; by apply mod_sub_mul. Qed.

Lemma frame_record_regs : reg64 X29 /\ reg64 X30 /\ pair_regs_ok (encoding X29) (encoding X30) = true.
Proof. done. Qed.

(** The store that puts the frame record on top of the saved pairs. *)
Definition save_record : MachInst :=
  if (n =? 0)%nat then make_stp_pre_index X29 X30 (- callee_saved_area_size layout)
  else make_stp_offset X29 X30 (callee_saved_area_size layout - 16).

Lemma save_record_exec (m : Machine) :
  reg m 31 = (if (n =? 0)%nat then sp0 else base) ->
  exists m', exec_inst save_record m = Some m' /\ reg m' 31 = base /\
    (forall r, r <> 31 -> reg m' r = reg m r) /\ returned_to m' = returned_to m /\
    mem m' = mem (store_pair m (slot_addr 0) (cell_regs 0).1 (cell_regs 0).2).
Proof.
  destruct frame_record_regs as (H1 & H2 & H3). destruct csa_imm_ok as (I1 & _ & I3).
  intros Hs; unfold save_record; destruct (n =? 0)%nat eqn:E.
  - apply Nat.eqb_eq in E. unfold n in E. rewrite exec_stp_pre_index by (done || by rewrite Hs).
    eexists; split; [reflexivity|]. rewrite Hs, (wrap_small 64) by (unfold uword; lia).
    replace (slot_addr 0) with (sp0 + - callee_saved_area_size layout) by (unfold slot_addr; lia).
    cbn [reg mem returned_to set_reg store_pair]. split_and!; [|by intros; rewrite upd_other|done|done].
    rewrite upd_same; unfold base; lia.
  - rewrite exec_stp_offset by (done || (rewrite Hs; apply base_aligned)).
    eexists; split; [reflexivity|]. rewrite Hs, (wrap_small 64) by (unfold uword, base; lia).
    replace (slot_addr 0) with (base + (callee_saved_area_size layout - 16))
      by (unfold slot_addr, base; lia).
    cbn [reg mem returned_to store_pair]; done.
Qed.

(** The state after the saves. *)
Definition after_saves (m : Machine) : Prop :=
  reg m 31 = base /\ entry_regs m /\ returned_to m = returned_to m0 /\
  (forall j, (j <= n)%nat -> saved_at (mem m) j) /\
  (forall a, a < base \/ sp0 <= a -> mem m a = mem m0 a).

Lemma save_pairs_exec :
  reg m0 31 = sp0 ->
  exists m, exec_insts (map (prologue_save layout n) (rev (seq 1 n)) ++ [save_record]) m0 = Some m /\
            after_saves m.
Proof.
  intros Hs. rewrite exec_insts_app.
  destruct (n =? 0)%nat eqn:En.
  { destruct (save_record_exec m0) as (m & He & Hb & Hr & Hret & Hm); [by rewrite En|].
    apply Nat.eqb_eq in En. rewrite En in *; cbn. exists m; rewrite He; split; [done|].
    unfold after_saves; split_and!; [done|done|done| |].
    - intros j Hj. rewrite Hm. apply store_saves; [by intros ?|lia|lia|left; lia].
    - intros a Ha. rewrite Hm. apply store_elsewhere; [lia|done]. }
  pose proof En as Hn; apply Nat.eqb_neq in Hn.
  replace (rev (seq 1 n)) with (n :: rev (seq 1 (n - 1))).
  2: { replace n with (S (n - 1)) at 3 by lia. rewrite seq_S, rev_app_distr.
       cbn [rev app]; f_equal; lia. }
  cbn [map exec_insts]; rewrite (save_bottom m0 Hs) by lia.
  set (m1 := set_reg _ _ _).
  assert (Hr1 : entry_regs m1) by (intros r Hr; unfold m1; cbn; by rewrite upd_other).
  destruct (saves_exec (rev (seq 1 (n - 1))) m1) as (m2 & He2 & Hreg2 & Hret2 & Hsv2 & Ho2);
    [|done|done|].
  { intros i Hi. apply list_elem_of_In in Hi; rewrite <- in_rev, in_seq in Hi; lia. }
  rewrite He2.
  destruct (save_record_exec m2) as (m & He & Hb & Hr & Hret & Hm).
  { by rewrite En, Hreg2. }
  cbn [exec_insts]; rewrite He. exists m; split; [done|].
  assert (Hr2 : entry_regs m2) by (intros r Hr'; rewrite Hreg2; by apply Hr1).
  unfold after_saves; split_and!; [done| |by rewrite Hret, Hret2| |].
  - intros r Hr'; rewrite Hr by done. by apply Hr2.
  - intros j Hj; rewrite Hm. apply store_saves; [done|lia|done|].
    destruct (decide (j = 0)%nat) as [|Hj0]; [by left|right]. apply Hsv2; [done|].
    destruct (decide (j = n)) as [->|Hjn]; [right|left].
    + unfold m1; cbn [mem set_reg]. apply store_saves; [by intros ?|lia|lia|by left].
    + apply list_elem_of_In; rewrite <- in_rev, in_seq; lia.
  - intros a Ha. rewrite Hm, store_elsewhere, Ho2 by (lia || done).
    unfold m1; cbn [mem set_reg]. apply store_elsewhere; [lia|done].
Qed.

Context (Hfp : uses_frame_pointer layout = true).
Context (Hadj : 0 <= sp_adjustment layout /\ callee_saved_area_size layout + sp_adjustment layout <= sp0).
Context (Hred : uses_red_zone layout = true -> has_dynamic_alloc layout = false).

Lemma prologue_shape :
  emit_prologue layout =
    (map (prologue_save layout n) (rev (seq 1 n)) ++ [save_record])
    ++ make_add_fp_sp_imm (callee_saved_area_size layout - 16)
    :: push_sub_sp_imm (sp_adjustment layout).
Proof.
  unfold emit_prologue, minimal_frame. rewrite Hpairs, Hfp; cbn [length].
  rewrite Nat.sub_0_r || replace (S (length extras) - 1)%nat with (length extras) by lia.
  replace (S (length extras) =? 0)%nat with false by done. cbn [negb andb].
  destruct (uses_red_zone layout && (sp_adjustment layout =? 0) && (S (length extras) <=? 1)%nat) eqn:E.
  - rewrite !andb_true_iff, Z.eqb_eq, Nat.leb_le in E; destruct E as [[_ E1] E2].
    assert (En : n = 0%nat) by (unfold n; lia). unfold save_record; rewrite En, E1; cbn.
    unfold n in En. rewrite Hcsa, En. done.
  - fold n. unfold save_record. rewrite <- app_assoc. cbn [app]. do 3 f_equal.
    destruct (0 <? sp_adjustment layout) eqn:Ea; [done|]. apply Z.ltb_ge in Ea.
    assert (sp_adjustment layout = 0) as -> by lia. done.
Qed.

(** The state after the prologue. *)
Definition after_prologue (m : Machine) : Prop :=
  reg m 31 = base - sp_adjustment layout /\ reg m 29 = sp0 - 16 /\
  (forall r, r <> 31 -> r <> 29 -> reg m r = reg m0 r) /\ returned_to m = returned_to m0 /\
  (forall j, (j <= n)%nat -> saved_at (mem m) j) /\
  (forall a, a < base \/ sp0 <= a -> mem m a = mem m0 a).

Lemma add_fp_exec (m : Machine) :
  reg m 31 = base ->
  exec_inst (make_add_fp_sp_imm (callee_saved_area_size layout - 16)) m
  = Some (set_reg m 29 (sp0 - 16)).
Proof.
  intros Hs; unfold exec_inst; cbn [opcode operands make_add_fp_sp_imm MachInst_new reg_index].
  rewrite (proj2 (Z.leb_le 0 _)), (proj2 (Z.leb_le _ 4095)) by lia; cbn.
  rewrite Hs, wrap_small by (unfold uword, base; lia). do 2 f_equal; unfold base; lia.
Qed.

Lemma prologue_exec :
  reg m0 31 = sp0 -> exists m, exec_insts (emit_prologue layout) m0 = Some m /\ after_prologue m.
Proof.
  intros Hs. rewrite prologue_shape, exec_insts_app.
  destruct (save_pairs_exec Hs) as (m1 & -> & Hb & Hr & Hret & Hsv & Ho).
  cbn [exec_insts]; rewrite (add_fp_exec m1 Hb).
  destruct (exec_push_sp (-1) false (sp_chunk_rounds (sp_adjustment layout)) (sp_adjustment layout)
              (set_reg m1 29 (sp0 - 16))) as (m & He & Hm & Hret' & Hs' & Ho').
  - done.
  - lia.
  - apply sp_chunk_rounds_enough; lia.
  - cbn; rewrite Hb; unfold base, uword; lia.
  - cbn [reg set_reg]; rewrite upd_other by done; rewrite Hb; unfold base, uword; lia.
  - cbn [reg set_reg] in Hs', Ho'; rewrite upd_other in Hs' by done.
    exists m; split; [done|]. unfold after_prologue; rewrite Hm, Hret'; cbn [mem returned_to set_reg].
    split_and!; [rewrite Hs', Hb; lia| |intros r H1 H2|done|done|done].
    + by rewrite Ho', upd_same.
    + rewrite Ho', upd_other by done. by apply Hr.
Qed.

(** ** The epilogue *)

Definition cell_reg (i : nat) (r : Z) : Prop := r = (cell_regs i).1 \/ r = (cell_regs i).2.

Lemma load_restores (m : Machine) (i : nat) (r : Z) :
  (i <= n)%nat -> saved_at (mem m) i ->
  let m' := load_pair m (slot_addr i) (cell_regs i).1 (cell_regs i).2 in
  (cell_reg i r -> reg m' r = reg m0 r) /\ (~ cell_reg i r -> reg m' r = reg m r).
Proof.
  intros Hi [S1 S2]; unfold cell_reg, load_pair; cbn [reg].
  rewrite (wrap_small 64) by apply (slot_addr_word i Hi). rewrite S1, S2.
  unfold upd; split; intros H; destruct (Z.eqb_spec r (cell_regs i).2) as [E2|N2];
    destruct (Z.eqb_spec r (cell_regs i).1) as [E1|N1]; congruence || tauto.
Qed.

(** What restoring a list of pairs does to the registers. *)
Definition restored (l : list nat) (m m' : Machine) : Prop :=
  mem m' = mem m /\ returned_to m' = returned_to m /\ reg m' 31 = reg m 31 /\
  (forall r, r <> 31 -> (exists i, i ∈ l /\ cell_reg i r) -> reg m' r = reg m0 r) /\
  (forall r, (forall i, i ∈ l -> ~ cell_reg i r) -> reg m' r = reg m r).

Definition all_saved (m : Machine) : Prop := forall j, (j <= n)%nat -> saved_at (mem m) j.

Lemma restored_nil (m : Machine) : restored [] m m.
Proof.
  unfold restored; split_and!; auto. intros r _ (i & H & _); by apply elem_of_nil in H.
Qed.

Lemma cell_reg_dec (i : nat) (r : Z) : cell_reg i r \/ ~ cell_reg i r.
Proof. unfold cell_reg; lia. Qed.

Lemma cell_reg_list_dec (l : list nat) (r : Z) :
  (exists k, k ∈ l /\ cell_reg k r) \/ (forall k, k ∈ l -> ~ cell_reg k r).
Proof.
  induction l as [|k l IH]; [right; intros k Hk; by apply elem_of_nil in Hk|].
  destruct (cell_reg_dec k r) as [Hc|Hc]; [left; exists k; split; [by left|done]|].
  destruct IH as [(k' & H1 & H2)|H]; [left; exists k'; split; [by right|done]|right].
  intros k' [->|H']%elem_of_cons; [done|by apply H].
Qed.

(** Restoring pair [i], then the pairs [l]. *)
Lemma restored_cons (i : nat) (l : list nat) (m m1 m' : Machine) :
  (i <= n)%nat -> all_saved m ->
  m1 = load_pair m (slot_addr i) (cell_regs i).1 (cell_regs i).2 ->
  restored l m1 m' -> restored (i :: l) m m'.
Proof.
  intros Hi Hsv -> (Hm & Hret & Hs & Hin & Hout). pose proof (cell_regs_not_sp i Hi) as [N1 N2].
  unfold restored; split_and!.
  - by rewrite Hm.
  - by rewrite Hret.
  - rewrite Hs. apply (load_restores m i 31 Hi (Hsv i Hi)). unfold cell_reg; lia.
  - intros r Hr (j & Hj & Hc).
    assert (Hd : (exists k, k ∈ l /\ cell_reg k r) \/ (forall k, k ∈ l -> ~ cell_reg k r)).
    { apply cell_reg_list_dec. }
    destruct Hd as [Hd|Hd]; [by apply Hin|]. rewrite Hout by done.
    apply (load_restores m i r Hi (Hsv i Hi)).
    apply elem_of_cons in Hj as [->|Hj]; [done|]. by destruct (Hd j Hj).
  - intros r Hc. rewrite Hout by (intros k Hk; apply Hc; by right).
    apply (load_restores m i r Hi (Hsv i Hi)). apply Hc; by left.
Qed.

(** Restoring through [SP] ([fixed] frames) and through [FP] (dynamic ones). *)
Lemma restore_step (m : Machine) (i : nat) :
  reg m 31 = base -> (1 <= i < n)%nat ->
  exec_inst (epilogue_restore layout n i) m
  = Some (load_pair m (slot_addr i) (cell_regs i).1 (cell_regs i).2).
Proof.
  intros Hs Hi. destruct (extra_storage i) as (r1 & r2 & E & H1 & H2 & H3 & -> & _); [lia|].
  unfold epilogue_restore; rewrite E. rewrite (proj2 (Z.eqb_neq _ 0)) by lia.
  rewrite exec_ldp_offset; [| done | done | done | | rewrite Hs; apply base_aligned ].
  - rewrite Hs. do 3 f_equal. unfold base, slot_addr, n in *. rewrite wrap_small; unfold uword; lia.
  - unfold pair_imm_ok; rewrite !andb_true_iff, Z.eqb_eq, !Z.leb_le. unfold n in *.
    split_and!; [|lia|lia]. apply Z.mod_divide; [lia|].
    exists (2 * (Z.of_nat (length extras) - Z.of_nat i)); lia.
Qed.

Lemma restore_fp_step (m : Machine) (i : nat) :
  reg m 29 = sp0 - 16 -> (1 <= i <= n)%nat ->
  exec_inst (epilogue_restore_fp layout i) m
  = Some (load_pair m (slot_addr i) (cell_regs i).1 (cell_regs i).2).
Proof.
  intros Hs Hi. destruct (extra_storage i) as (r1 & r2 & E & H1 & H2 & H3 & -> & _); [lia|].
  unfold epilogue_restore_fp; rewrite E.
  rewrite exec_ldp_fp; [| done | done | done | | ].
  - rewrite Hs. do 3 f_equal. unfold slot_addr, n in *. rewrite wrap_small; unfold uword; lia.
  - unfold pair_imm_ok; rewrite !andb_true_iff, Z.eqb_eq, !Z.leb_le. unfold n in *.
    split_and!; [|lia|lia]. apply Z.mod_divide; [lia|]. exists (- (2 * Z.of_nat i)); lia.
  - rewrite Hs. apply Z.mod_divide; [lia|].
    exists (2 * (sp0 / 16) - 2). pose proof (Z.div_mod sp0 16); lia.
Qed.

Lemma restored_app (l1 l2 : list nat) (m m1 m2 : Machine) :
  restored l1 m m1 -> restored l2 m1 m2 -> restored (l1 ++ l2) m m2.
Proof.
  intros (Hm & Hret & Hs & Hin & Hout) (Hm' & Hret' & Hs' & Hin' & Hout').
  unfold restored; split_and!; [congruence|congruence|congruence| |].
  - intros r Hr (i & Hi & Hc).
    destruct (cell_reg_list_dec l2 r) as [Hd|Hd]; [by apply Hin'|]. rewrite Hout' by done.
    apply Hin; [done|]. apply elem_of_app in Hi as [Hi|Hi]; [by exists i|]. by destruct (Hd i Hi).
  - intros r Hc. rewrite Hout' by (intros k Hk; apply Hc, elem_of_app; by right).
    apply Hout; intros k Hk; apply Hc, elem_of_app; by left.
Qed.

Lemma restored_one (i : nat) (m : Machine) :
  (i <= n)%nat -> all_saved m ->
  restored [i] m (load_pair m (slot_addr i) (cell_regs i).1 (cell_regs i).2).
Proof. intros Hi Hsv; by eapply restored_cons; [..|apply restored_nil]. Qed.

Lemma restores_exec (f : nat -> MachInst) (ok : Machine -> Prop) (l : list nat) (m : Machine) :
  (forall i m, i ∈ l -> ok m ->
     exec_inst (f i) m = Some (load_pair m (slot_addr i) (cell_regs i).1 (cell_regs i).2)) ->
  (forall i m, i ∈ l -> ok m -> ok (load_pair m (slot_addr i) (cell_regs i).1 (cell_regs i).2)) ->
  (forall i, i ∈ l -> (i <= n)%nat) -> ok m -> all_saved m ->
  exists m', exec_insts (map f l) m = Some m' /\ restored l m m' /\ ok m'.
Proof.
  revert m; induction l as [|i l IH]; intros m Hf Hk Hl Hm Hsv.
  { exists m; split_and!; [done|apply restored_nil|done]. }
  cbn [map exec_insts]. rewrite Hf by (done || by left).
  destruct (IH (load_pair m (slot_addr i) (cell_regs i).1 (cell_regs i).2)) as (m' & He & Hr & Ho).
  - intros; apply Hf; [by right|done].
  - intros; apply Hk; [by right|done].
  - intros; apply Hl; by right.
  - apply Hk; [by left|done].
  - done.
  - exists m'; split_and!; [done| |done]. eapply restored_cons; eauto. apply Hl; by left.
Qed.

(** The state at the return. *)
Definition returns (m2 m3 : Machine) : Prop :=
  reg m3 31 = sp0 /\ mem m3 = mem m2 /\ returned_to m3 = Some (reg m0 30) /\
  (forall r, r <> 31 -> (exists i, (i <= n)%nat /\ cell_reg i r) -> reg m3 r = reg m0 r) /\
  (forall r, r <> 31 -> (forall i, (i <= n)%nat -> ~ cell_reg i r) -> reg m3 r = reg m2 r).

(** All pairs restored and [SP] back where it was: [RET] returns. *)
Lemma restored_returns (l : list nat) (m2 m m' : Machine) :
  (forall i, (i <= n)%nat -> i ∈ l) -> (forall i, i ∈ l -> (i <= n)%nat) ->
  mem m = mem m2 -> (forall r, r <> 31 -> reg m r = reg m2 r) -> restored l m m' ->
  exists m3, exec_insts [make_ret] (set_reg m' 31 sp0) = Some m3 /\ returns m2 m3.
Proof.
  intros Hall Hl Hmem Hreg (Hm & Hret & Hs & Hin & Hout). cbn. eexists; split; [reflexivity|].
  assert (H30 : reg m' 30 = reg m0 30).
  { apply Hin; [done|]. exists 0%nat; split; [apply Hall; lia|by right]. }
  unfold returns; cbn [reg mem returned_to set_reg]; split_and!.
  - by rewrite upd_same.
  - congruence.
  - by rewrite <- H30.
  - intros r Hr (i & Hi & Hc). rewrite upd_other by done. apply Hin; [done|]. exists i; auto.
  - intros r Hr Hc. rewrite upd_other by done. rewrite Hout by auto. by apply Hreg.
Qed.

Lemma restore_record_exec (m : Machine) :
  reg m 31 = base -> 
  exec_inst (make_ldp_offset X29 X30 (callee_saved_area_size layout - 16)) m
  = Some (load_pair m (slot_addr 0) (cell_regs 0).1 (cell_regs 0).2).
Proof.
  intros Hs. destruct frame_record_regs as (H1 & H2 & H3). destruct csa_imm_ok as (_ & _ & I3).
  rewrite exec_ldp_offset by (done || (rewrite Hs; apply base_aligned)).
  rewrite Hs, (wrap_small 64) by (unfold uword, base; lia).
  by replace (slot_addr 0) with (base + (callee_saved_area_size layout - 16))
    by (unfold slot_addr, base; lia).
Qed.

(** The post-indexed load that frees the area, from pair [k] at its bottom. *)
Lemma restore_last (a b : PReg) (k : nat) (off : Z) (m : Machine) :
  reg64 a -> reg64 b -> pair_regs_ok (encoding a) (encoding b) = true -> pair_imm_ok off = true ->
  cell_regs k = (encoding a, encoding b) -> reg m 31 = slot_addr k -> slot_addr k + off = sp0 ->
  slot_addr k mod 16 = 0 ->
  exec_inst (make_ldp_post_index a b off) m
  = Some (set_reg (load_pair m (slot_addr k) (cell_regs k).1 (cell_regs k).2) 31 sp0).
Proof.
  intros Ha Hb Hok Hoff -> Hs E Hk. rewrite exec_ldp_post_index by (done || by rewrite Hs).
  by rewrite Hs, E, wrap_small by (unfold uword; lia).
Qed.

(** What the epilogue needs of the body: the saved pairs are intact and the
    register the frame is addressed by has its prologue value. *)
Definition body_keeps_frame (m2 : Machine) : Prop :=
  all_saved m2 /\
  (if has_dynamic_alloc layout then reg m2 29 = sp0 - 16
   else reg m2 31 = base - sp_adjustment layout).

Definition restore_fixed : list MachInst :=
  if (n =? 0)%nat then [make_ldp_post_index X29 X30 (callee_saved_area_size layout)]
  else make_ldp_offset X29 X30 (callee_saved_area_size layout - 16)
       :: map (epilogue_restore layout n) (seq 1 n).

Lemma epilogue_shape :
  emit_epilogue layout = Some
    (if has_dynamic_alloc layout then
       [make_mov_fp_to_sp] ++ map (epilogue_restore_fp layout) (seq 1 n)
       ++ [make_ldp_post_index X29 X30 16; make_ret]
     else push_add_sp_imm (sp_adjustment layout) ++ restore_fixed ++ [make_ret]).
Proof.
  unfold emit_epilogue, minimal_frame. rewrite Hpairs, Hfp; cbn [length].
  replace (S (length extras) - 1)%nat with (length extras) by lia.
  replace (S (length extras) =? 0)%nat with false by done. cbn [negb andb].
  destruct (uses_red_zone layout && (sp_adjustment layout =? 0) && (S (length extras) <=? 1)%nat) eqn:E.
  - rewrite !andb_true_iff, Z.eqb_eq, Nat.leb_le in E; destruct E as [[E0 E1] E2].
    assert (En : n = 0%nat) by (unfold n; lia). unfold restore_fixed. rewrite (Hred E0), En, E1; cbn.
    unfold n in En. rewrite Hcsa, En. done.
  - fold n. rewrite andb_true_r. destruct (has_dynamic_alloc layout); [done|].
    unfold restore_fixed. f_equal. f_equal.
    destruct (0 <? sp_adjustment layout) eqn:Ea; [done|]. apply Z.ltb_ge in Ea.
    assert (sp_adjustment layout = 0) as -> by lia. done.
Qed.

(** The load and [SP] update that end the restores. *)
Lemma finish_exec (i : MachInst) (l : list nat) (k : nat) (m2 m m' : Machine) :
  exec_inst i m' = Some (set_reg (load_pair m' (slot_addr k) (cell_regs k).1 (cell_regs k).2) 31 sp0) ->
  (k <= n)%nat -> (forall j, (j <= n)%nat -> j ∈ l ++ [k]) -> (forall j, j ∈ l -> (j <= n)%nat) ->
  all_saved m -> mem m = mem m2 -> (forall r, r <> 31 -> reg m r = reg m2 r) -> restored l m m' ->
  exists m3, exec_insts [i; make_ret] m' = Some m3 /\ returns m2 m3.
Proof.
  intros He Hk Hall Hl Hsv Hmem Hreg Hr.
  cbn [exec_insts]; rewrite He.
  apply (restored_returns (l ++ [k]) m2 m); auto.
  - intros j [Hj| ->%list_elem_of_singleton]%elem_of_app; auto.
  - apply (restored_app l [k] m m'); [done|]. apply restored_one; [done|].
    intros j Hj. destruct Hr as (-> & _). by apply Hsv.
Qed.

Lemma restore_fixed_exec (m2 m : Machine) :
  all_saved m -> reg m 31 = base -> mem m = mem m2 -> (forall r, r <> 31 -> reg m r = reg m2 r) ->
  exists m3, exec_insts (restore_fixed ++ [make_ret]) m = Some m3 /\ returns m2 m3.
Proof.
  intros Hsv Hs Hmem Hreg. unfold restore_fixed.
  destruct frame_record_regs as (H1 & H2 & H3). destruct csa_imm_ok as (_ & I2 & _).
  destruct (n =? 0)%nat eqn:En.
  { apply Nat.eqb_eq in En. pose proof En as En'; unfold n in En'.
    assert (Eb : base = slot_addr 0) by (unfold base, slot_addr; lia).
    apply (finish_exec _ [] 0 m2 m); auto using restored_nil; [|lia| |].
    - apply restore_last; auto; [congruence|unfold slot_addr; lia|rewrite <- Eb; apply base_aligned].
    - intros j Hj; assert (j = 0%nat) as -> by lia; by left.
    - intros j Hj; by apply elem_of_nil in Hj. }
  apply Nat.eqb_neq in En.
  destruct (extra_storage n) as (r1 & r2 & E & G1 & G2 & G3 & Ec & _); [lia|].
  replace (seq 1 n) with (seq 1 (n - 1) ++ [n]).
  2: { replace n with (S (n - 1)) at 3 by lia. rewrite seq_S; do 2 f_equal; lia. }
  rewrite map_app. cbn [map app]. rewrite <- app_assoc. cbn [app exec_insts].
  rewrite (restore_record_exec m Hs). set (m1 := load_pair m (slot_addr 0) _ _).
  rewrite exec_insts_app.
  assert (Hrec : restored [0%nat] m m1) by (apply restored_one; [lia|done]).
  destruct (restores_exec (epilogue_restore layout n) (fun m => reg m 31 = base) (seq 1 (n - 1)) m1)
    as (m' & -> & Hr & Hs').
  - intros i mi Hi Hb. apply elem_of_seq in Hi. apply restore_step; [done|lia].
  - intros i mi Hi Hb. apply elem_of_seq in Hi. pose proof (cell_regs_not_sp i ltac:(lia)).
    cbn [reg load_pair]; rewrite !upd_other by lia; done.
  - intros i Hi. apply elem_of_seq in Hi; lia.
  - destruct Hrec as (_ & _ & -> & _); done.
  - done.
  - assert (Eb : base = slot_addr n) by (unfold base, slot_addr, n; lia).
    apply (finish_exec _ ([0%nat] ++ seq 1 (n - 1)) n m2 m); auto.
    + unfold epilogue_restore; rewrite E, (proj2 (Z.eqb_eq _ 0)) by lia.
      apply restore_last; auto; [congruence|unfold slot_addr, n; lia|rewrite <- Eb; apply base_aligned].
    + intros j Hj. destruct (decide (j = n)) as [->|]; [set_solver|].
      destruct j; [set_solver|]. apply elem_of_app; left; apply elem_of_app; right.
      apply elem_of_seq; lia.
    + intros j [->%list_elem_of_singleton|Hj%elem_of_seq]%elem_of_app; lia.
    + by apply (restored_app [0%nat] _ m m1).
Qed.

Lemma restore_dynamic_exec (m2 : Machine) :
  all_saved m2 -> reg m2 29 = sp0 - 16 ->
  exists m3, exec_insts ([make_mov_fp_to_sp] ++ map (epilogue_restore_fp layout) (seq 1 n)
                         ++ [make_ldp_post_index X29 X30 16; make_ret]) m2 = Some m3 /\
             returns m2 m3.
Proof.
  intros Hsv Hs. destruct frame_record_regs as (H1 & H2 & H3). cbn [app].
  assert (Em : exec_inst make_mov_fp_to_sp m2 = Some (set_reg m2 31 (slot_addr 0))).
  { unfold exec_inst; cbn. rewrite Hs, Z.add_0_r, wrap_small by (unfold uword; lia).
    unfold slot_addr; do 2 f_equal; lia. }
  cbn [exec_insts]; rewrite Em. rewrite exec_insts_app. set (m := set_reg _ _ _).
  destruct (restores_exec (epilogue_restore_fp layout)
              (fun m => reg m 29 = sp0 - 16 /\ reg m 31 = slot_addr 0) (seq 1 n) m)
    as (m' & -> & Hr & _ & Hs').
  - intros i mi Hi [Hb _]. apply elem_of_seq in Hi. apply restore_fp_step; [done|lia].
  - intros i mi Hi [Hb Hb']. apply elem_of_seq in Hi.
    destruct (extra_storage i) as (r1 & r2 & _ & _ & _ & _ & -> & C1 & C2); [lia|].
    unfold callee_reg, within in C1, C2.
    cbn [reg load_pair fst snd]; rewrite !upd_other by lia; done.
  - intros i Hi. apply elem_of_seq in Hi; lia.
  - done.
  - done.
  - apply (finish_exec _ (seq 1 n) 0 m2 m); auto; [|lia| | |].
    + apply restore_last; auto; [unfold slot_addr; lia|].
      unfold slot_addr; by apply mod_sub_mul.
    + intros j Hj. destruct j; [set_solver|]. apply elem_of_app; left; apply elem_of_seq; lia.
    + intros j Hj%elem_of_seq; lia.
    + intros r Hr'; unfold m; cbn [reg set_reg]; by rewrite upd_other.
Qed.

Lemma epilogue_exec (m2 : Machine) :
  body_keeps_frame m2 ->
  exists epi m3, emit_epilogue layout = Some epi /\ exec_insts epi m2 = Some m3 /\ returns m2 m3.
Proof.
  intros [Hsv Hb]. rewrite epilogue_shape.
  destruct (bool_dec (has_dynamic_alloc layout) true) as [Ed|Ed%not_true_is_false];
    rewrite Ed in Hb |- *.
  - destruct (restore_dynamic_exec m2 Hsv Hb) as (m3 & He & Hr). eexists _, m3; split_and!; done.
  - destruct (exec_push_sp 1 true (sp_chunk_rounds (sp_adjustment layout)) (sp_adjustment layout) m2)
      as (m & He & Hm & _ & Hs & Ho);
      [done|lia|apply sp_chunk_rounds_enough; lia|rewrite Hb; unfold base, uword; lia
      |rewrite Hb; unfold base, uword; lia|].
    destruct (restore_fixed_exec m2 m) as (m3 & He3 & Hr3);
      [unfold all_saved; by rewrite Hm|rewrite Hs, Hb; lia|done|done|].
    eexists _, m3; split_and!; [done| |done]. by rewrite exec_insts_app; unfold push_add_sp_imm,
      push_sp_imm_chunks; rewrite He.
Qed.
End Pairs.

(** ** Computed layouts *)

(** The registers a function must give back: the callee-saved ones, the frame
    pointer and the link register. *)
Definition preserved (r : Z) : bool := callee_reg r || (r =? 29) || (r =? 30).

(** The registers the prologue of a layout stores. *)
Definition saved_regs (layout : FrameLayout) : list Z :=
  concat (map (fun p => [(storage p).1; (storage p).2]) (callee_saved_pairs layout)).

(** The contract of the body, run from [m1] to [m2] in the frame of a caller whose
    stack pointer is [sp0]: it leaves the saved pairs and the frame pointer alone,
    leaves [SP] where it found it unless the frame is dynamic, and preserves the
    registers that the prologue did not save. *)
Definition body_ok (layout : FrameLayout) (sp0 : Z) (m1 m2 : Machine) : Prop :=
  (forall a, sp0 - callee_saved_area_size layout <= a < sp0 -> mem m2 a = mem m1 a) /\
  (uses_frame_pointer layout = true -> reg m2 29 = reg m1 29) /\
  (has_dynamic_alloc layout = false -> reg m2 31 = reg m1 31) /\
  (forall r, preserved r = true -> r ∉ saved_regs layout -> reg m2 r = reg m1 r).

(** The state at the return, from the entry state [m0] and the state [m2] after
    the body. *)
Definition call_returned (m0 m2 m3 : Machine) : Prop :=
  reg m3 31 = reg m0 31 /\ returned_to m3 = Some (reg m0 30) /\ mem m3 = mem m2 /\
  (forall r, preserved r = true -> reg m3 r = reg m0 r).

Section Computed.
Context (func : MachFunction) (outgoing : Z) (red dyn : bool) (m0 : Machine).
Context (Hwf : wf_func func) (Hout : 0 <= outgoing <= 2 ^ 30).
Let layout := compute_frame_layout_inner func outgoing red dyn.
Context (Hal : reg m0 31 mod 16 = 0) (Hsp : total_frame_size layout <= reg m0 31 < 2 ^ 64).

Let extras := extra_pairs (gpr_used (scan_function func)) (fpr_used (scan_function func)).

Lemma computed_red_zone : uses_red_zone layout = true -> has_dynamic_alloc layout = false.
Proof.
  unfold layout, compute_frame_layout_inner; cbn [uses_red_zone has_dynamic_alloc].
  rewrite !andb_true_iff; intros [[[[[_ _] H] _] _] _]. by apply negb_true_iff.
Qed.

(** The side conditions of the section above hold of a computed layout. *)
Lemma computed_sides :
  uses_frame_pointer layout = true ->
  callee_saved_pairs layout = frame_record :: extras /\
  (forall p, p ∈ extras -> pair_ok p = true) /\ (length extras <= 9)%nat /\
  callee_saved_area_size layout = 16 * (Z.of_nat (length extras) + 1) /\
  callee_saved_area_size layout <= reg m0 31 < 2 ^ 64 /\
  0 <= sp_adjustment layout /\
  callee_saved_area_size layout + sp_adjustment layout = total_frame_size layout.
Proof.
  intros Hfp. pose proof (layout_pairs func outgoing red dyn) as Hp. fold layout extras in Hp.
  rewrite Hfp in Hp. cbn [app] in Hp.
  pose proof (layout_csa func outgoing red dyn) as Hc. fold layout in Hc.
  rewrite Hp in Hc; cbn [length] in Hc.
  pose proof (extra_pairs_length (gpr_used (scan_function func)) (fpr_used (scan_function func))) as Hl.
  fold extras in Hl.
  pose proof (layout_total func outgoing red dyn Hwf Hout) as (_ & _ & Hcap & Hadj).
  fold layout in Hcap, Hadj.
  pose proof (outgoing_area_bounds func outgoing red dyn Hout) as [Ho _]. fold layout in Ho.
  pose proof (slot_area_bounds func Hwf) as Ha.
  pose proof (layout_spill_area func outgoing red dyn) as Hs. fold layout in Hs. rewrite Hfp in Hs.
  split_and!; try done; try lia. intros p; apply extra_pairs_ok.
Qed.

Lemma saved_regs_cells (r : Z) :
  uses_frame_pointer layout = true ->
  r ∈ saved_regs layout <-> exists i, (i <= length extras)%nat /\ cell_reg layout i r.
Proof.
  intros Hfp. destruct (computed_sides Hfp) as (Hp & _).
  unfold saved_regs, cell_reg, cell_regs. rewrite Hp. split.
  - intros H. apply list_elem_of_In, in_concat in H as (l & Hl & Hr).
    apply in_map_iff in Hl as (p & <- & Hpin).
    apply list_elem_of_In, list_elem_of_lookup in Hpin as [i Hi].
    exists i; split; [apply lookup_lt_Some in Hi; cbn in Hi; lia|].
    destruct i as [|i]; [cbn in Hi; injection Hi as <-; cbn in Hr |- *; intuition lia|].
    cbn [Nat.eqb]. rewrite (list_lookup_total_correct _ _ _ Hi).
    destruct (storage p); cbn in Hr |- *; intuition lia.
  - intros (i & Hi & Hc). apply list_elem_of_In, in_concat.
    exists [(storage ((frame_record :: extras) !!! i)).1; (storage ((frame_record :: extras) !!! i)).2].
    split.
    + apply in_map_iff. eexists; split; [reflexivity|]. apply list_elem_of_In.
      apply list_elem_of_lookup_total_2; cbn; lia.
    + destruct i as [|i]; [cbn in *; intuition lia|]. cbn [Nat.eqb] in Hc.
      destruct (storage _); cbn in *; intuition lia.
Qed.
End Computed.

Lemma frameless_sequences (func : MachFunction) (outgoing : Z) (red dyn : bool) :
  let layout := compute_frame_layout_inner func outgoing red dyn in
  uses_frame_pointer layout = false ->
  emit_prologue layout = [] /\ emit_epilogue layout = Some [make_ret] /\
  callee_saved_area_size layout = 0 /\ total_frame_size layout = 0 /\
  has_dynamic_alloc layout = false /\ saved_regs layout = [].
Proof.
  intros layout Hfp. destruct (layout_frameless func outgoing red dyn Hfp)
    as (Hp & _ & _ & Ht & Hd & Hr). fold layout in Hp, Ht, Hd, Hr.
  assert (Hc : callee_saved_area_size layout = 0).
  { unfold layout; rewrite layout_csa; fold layout; by rewrite Hp. }
  assert (Hm : minimal_frame layout = true).
  { unfold minimal_frame, sp_adjustment; by rewrite Hr, Hp, Ht, Hc. }
  unfold emit_prologue, emit_epilogue, saved_regs. by rewrite Hm, Hfp, Hp.
Qed.

(** The prologue of a frame with a frame pointer, and its epilogue after a body
    that keeps to its contract. *)
Lemma framed_call (func : MachFunction) (outgoing : Z) (red dyn : bool) (m0 : Machine) :
  let layout := compute_frame_layout_inner func outgoing red dyn in
  wf_func func -> 0 <= outgoing <= 2 ^ 30 -> uses_frame_pointer layout = true ->
  reg m0 31 mod 16 = 0 -> total_frame_size layout <= reg m0 31 < 2 ^ 64 ->
  exists m1 epi,
    exec_insts (emit_prologue layout) m0 = Some m1 /\ emit_epilogue layout = Some epi /\
    reg m1 31 = reg m0 31 - total_frame_size layout /\ reg m1 29 = reg m0 31 - 16 /\
    (forall r, preserved r = true -> r <> 29 -> reg m1 r = reg m0 r) /\
    (forall a, a < reg m0 31 - callee_saved_area_size layout \/ reg m0 31 <= a ->
       mem m1 a = mem m0 a) /\
    (forall m2, body_ok layout (reg m0 31) m1 m2 ->
       exists m3, exec_insts epi m2 = Some m3 /\ call_returned m0 m2 m3).
Proof.
  intros layout Hwf Hout Hfp Hal Hsp.
  destruct (computed_sides func outgoing red dyn m0 Hwf Hout Hsp Hfp)
    as (Hp & Hex & Hl & Hc & Hsp' & Ha0 & Hadj).
  fold layout in Hp, Hc, Hsp', Ha0, Hadj.
  pose proof (computed_red_zone func outgoing red dyn) as Hred. fold layout in Hred.
  set (extras := extra_pairs _ _) in *.
  assert (Hadj' : 0 <= sp_adjustment layout /\
                  callee_saved_area_size layout + sp_adjustment layout <= reg m0 31) by lia.
  destruct (prologue_exec layout extras (reg m0 31) m0 Hp Hex Hl Hc Hal Hsp' Hfp Hadj' eq_refl)
    as (m1 & He & Hs & H29 & Hregs & Hret & Hsv & Hmem).
  assert (Hepi : exists epi, emit_epilogue layout = Some epi)
    by (rewrite (epilogue_shape layout extras (reg m0 31)); eauto).
  destruct Hepi as [epi Hepi]. exists m1, epi; split_and!; [done|done|lia|done| |done|].
  { intros r Hr Hne. apply Hregs; [|done]. unfold preserved, callee_reg, within in Hr; lia. }
  intros m2 (Hb1 & Hb2 & Hb3 & Hb4).
  assert (Hk : body_keeps_frame layout extras (reg m0 31) m0 m2).
  { split.
    - intros j Hj. destruct (Hsv j Hj) as [S1 S2]. unfold saved_at in *.
      rewrite !Hb1 by (unfold slot_addr; lia). done.
    - destruct (has_dynamic_alloc layout); [rewrite Hb2 by done; done|].
      rewrite Hb3 by done. done. }
  destruct (epilogue_exec layout extras (reg m0 31) m0 Hp Hex Hl Hc Hal Hsp' Hfp Hadj' Hred m2 Hk)
    as (epi' & m3 & Hepi' & He3 & Hs3 & Hm3 & Hret3 & Hin & Hout').
  assert (epi' = epi) as -> by congruence. exists m3; split; [done|].
  unfold call_returned; split_and!; [done|done|done|]. intros r Hr.
  assert (r <> 31) by (unfold preserved, callee_reg, within in Hr; lia).
  destruct (decide (r ∈ saved_regs layout)) as [Hi|Hi].
  - apply Hin; [done|]. by apply (saved_regs_cells func outgoing red dyn m0 Hwf Hout Hsp).
  - assert (Hn29 : r <> 29).
    { intros ->. apply Hi, (saved_regs_cells func outgoing red dyn m0 Hwf Hout Hsp _ Hfp).
      exists 0%nat; split; [lia|by left]. }
    rewrite Hout', Hb4; [apply Hregs|..]; auto.
    intros i Hi' Hc'. apply Hi, (saved_regs_cells func outgoing red dyn m0 Hwf Hout Hsp _ Hfp). eauto.
Qed.

(** What a prologue and epilogue promise the caller: from the entry state [m0]
    the prologue runs without a fault, takes [total_frame_size] bytes of stack and
    writes nothing outside the callee-saved area; after any body that keeps to
    [body_ok] the epilogue runs, returns to the caller's address with the caller's
    stack pointer, and gives back every preserved register. *)
Definition frame_roundtrip (layout : FrameLayout) (m0 : Machine) : Prop :=
  exists m1 epi,
    exec_insts (emit_prologue layout) m0 = Some m1 /\ emit_epilogue layout = Some epi /\
    reg m1 31 = reg m0 31 - total_frame_size layout /\
    (uses_frame_pointer layout = true -> reg m1 29 = reg m0 31 - 16) /\
    (forall a, a < reg m0 31 - callee_saved_area_size layout \/ reg m0 31 <= a ->
       mem m1 a = mem m0 a) /\
    (forall m2, body_ok layout (reg m0 31) m1 m2 ->
       exists m3, exec_insts epi m2 = Some m3 /\ call_returned m0 m2 m3).

(** C9: For every function whose slots are well formed, the prologue and epilogue
    of the computed layout (fixed, dynamic or frameless) form a round trip: every
    instruction is encodable and none faults, the stack pointer, frame pointer,
    link register and all callee-saved registers are restored, and
    [emit_epilogue]'s subtraction never underflows. *)
Theorem prologue_epilogue_roundtrip (func : MachFunction) (outgoing : Z) (red dyn : bool)
    (m0 : Machine) :
  wf_func func -> 0 <= outgoing <= 2 ^ 30 -> reg m0 31 mod 16 = 0 ->
  total_frame_size (compute_frame_layout_inner func outgoing red dyn) <= reg m0 31 < 2 ^ 64 ->
  frame_roundtrip (compute_frame_layout_inner func outgoing red dyn) m0.
Proof.
  intros Hwf Hout Hal Hsp.
  destruct (uses_frame_pointer (compute_frame_layout_inner func outgoing red dyn)) eqn:Hfp.
  - destruct (framed_call func outgoing red dyn m0 Hwf Hout Hfp Hal Hsp)
      as (m1 & epi & H1 & H2 & H3 & H4 & _ & H6 & H7).
    exists m1, epi; split_and!; auto.
  - destruct (frameless_sequences func outgoing red dyn Hfp) as (Ep & Ee & Hc & Ht & Hd & Hsr).
    unfold frame_roundtrip; rewrite Ep, Ee, Hc, Ht. exists m0, [make_ret].
    split_and!; [done|done|lia|congruence|done|].
    intros m2 (_ & _ & Hs & Hr). rewrite Hsr in Hr. cbn. eexists; split; [reflexivity|].
    unfold call_returned; cbn [reg mem returned_to].
    assert (Hn : forall r, preserved r = true -> reg m2 r = reg m0 r)
      by (intros r Hr'; apply Hr; [done|apply not_elem_of_nil]).
    split_and!; auto. by rewrite Hn.
Qed.

(** A function that uses [X19], [D8] and a large local, and makes a call. *)
Definition demo_frame_func : MachFunction :=
  mkMachFunction
    [ mkMachInst AddRI [MPReg (mkPReg 19); MPReg (mkPReg 0); MImm 1] [] [] false;
      mkMachInst (OtherOp 0) [MPReg (mkPReg 136)] [] [] true ]
    [mkSlot 5000 8 Fixed] NoProtector None.

Definition demo_machine : Machine := mkMachine (fun r => if r =? 31 then 2 ^ 20 else r) (fun _ => 0) None.

Lemma prologue_epilogue_roundtrip_witness :
  frame_roundtrip (compute_frame_layout_inner demo_frame_func 0 true false) demo_machine.
Proof.
  apply prologue_epilogue_roundtrip.
  - split; [|by vm_compute]. repeat constructor; cbn; try lia. exists 3; lia.
  - lia.
  - by vm_compute.
  - vm_compute; split; congruence.
Defined.

(** ** The scan finds every callee-saved register

    [mark_callee_saved_reg] accumulates bits, one per 64-bit register. *)

Definition used_regs (func : MachFunction) : list PReg :=
  concat (map (fun i => operand_pregs (operands i) ++ implicit_defs i ++ implicit_uses i) (insts func)).

(** The bases of memory operands. *)
Definition mem_bases (func : MachFunction) : list PReg :=
  insts func ≫= fun inst => omap (fun op => match op with MMemOp base _ => Some base | _ => None end) (operands inst).

Definition bit_of (preg : PReg) : option (bool * Z) :=
  match callee_saved_gpr_index preg with
  | Some idx => Some (false, idx)
  | None => match callee_saved_fpr_index preg with Some idx => Some (true, idx) | None => None end
  end.

Definition marked (used : Z * Z) (b : bool * Z) : Prop :=
  Z.testbit (if b.1 then used.2 else used.1) b.2 = true.

Lemma bit_of_nonneg (p : PReg) (b : bool * Z) : bit_of p = Some b -> 0 <= b.2.
Proof.
  unfold bit_of, callee_saved_gpr_index, callee_saved_fpr_index, within.
  repeat case_match; intros [= <-]; cbn; simplify_eq; lia.
Qed.

Lemma mark_step (used : Z * Z) (p : PReg) (b : bool * Z) :
  marked used b \/ bit_of p = Some b -> marked (mark_callee_saved_reg used p) b.
Proof.
  intros H. assert (Hb : bit_of p = Some b -> 0 <= b.2) by apply bit_of_nonneg.
  destruct used as [g f], b as [bb idx]. unfold marked, mark_callee_saved_reg, bit_of in *.
  destruct (callee_saved_gpr_index p) as [i|]; [|destruct (callee_saved_fpr_index p) as [i|]];
    destruct bb; cbn [fst snd] in *; rewrite ?Z.lor_spec; destruct H as [H|H]; simplify_eq;
    rewrite ?H; try done.
  all: rewrite Z.shiftl_spec, Z.sub_diag by auto; by rewrite orb_true_r.
Qed.

Lemma mark_all (l : list PReg) (used : Z * Z) (b : bool * Z) :
  marked used b \/ (exists p, p ∈ l /\ bit_of p = Some b) ->
  marked (fold_left mark_callee_saved_reg l used) b.
Proof.
  revert used; induction l as [|q l IH]; intros used [H|(p & Hp & Hb)]; [done|set_solver| |].
  - apply IH; left; apply mark_step; by left.
  - apply IH. apply elem_of_cons in Hp as [->|Hp]; [left; apply mark_step; by right|right; eauto].
Qed.

Definition scan_bits (s : ScanResult) : Z * Z := (gpr_used s, fpr_used s).

Lemma scan_inst_marks (s : ScanResult) (i : MachInst) (b : bool * Z) :
  marked (scan_bits s) b \/
  (exists p, p ∈ operand_pregs (operands i) ++ implicit_defs i ++ implicit_uses i /\ bit_of p = Some b) ->
  marked (scan_bits (scan_inst s i)) b.
Proof.
  unfold scan_inst, scan_bits; cbn [gpr_used fpr_used]; rewrite <- surjective_pairing.
  intros [H|(p & Hp & Hb)]; apply mark_all.
  - left; apply mark_all; by left.
  - apply elem_of_app in Hp as [Hp|Hp]; [left; apply mark_all|]; right; eauto.
Qed.

Lemma scan_marks (func : MachFunction) (p : PReg) (b : bool * Z) :
  p ∈ used_regs func -> bit_of p = Some b -> marked (scan_bits (scan_function func)) b.
Proof.
  unfold used_regs, scan_function; intros Hp Hb. generalize (mkScan 0 0 false).
  assert (K : forall l s, marked (scan_bits s) b -> marked (scan_bits (fold_left scan_inst l s)) b).
  { induction l as [|i l IH]; intros s Hs; [done|]. apply IH, scan_inst_marks; by left. }
  induction (insts func) as [|i l IH]; intros s; [by apply elem_of_nil in Hp|].
  cbn [map concat fold_left] in *. apply elem_of_app in Hp as [Hp|Hp].
  - apply K, scan_inst_marks; right; eauto.
  - by apply IH.
Qed.

(** The 64-bit register of a bit. *)
Definition bit_reg (b : bool * Z) : Z := if b.1 then 104 + b.2 else 19 + b.2.

Definition reg_table (fpr : bool) : list (PReg * PReg * Z) :=
  if fpr then fpr_pair_regs else gpr_pair_regs.

(** Every bit belongs to a table entry that stores its register. *)
Definition covered (b : bool * Z) : bool :=
  existsb (fun e => Z.testbit e.2 b.2 &&
                    ((bit_reg b =? (storage (table_pair b.1 e)).1)
                     || (bit_reg b =? (storage (table_pair b.1 e)).2))) (reg_table b.1).

(** A register that overlaps a callee-saved one, other than a byte view, has its bit. *)
Definition bit_ok (pe qe : Z) : bool :=
  let p := mkPReg pe in
  let q := mkPReg qe in
  implb (regs_overlap p q && negb (bool_decide (preg_class p = Fpr8)))
    match bit_of p with Some b => (bit_reg b =? qe) && covered b | None => false end.

Definition callee_regs : list Z := seqZ 19 10 ++ seqZ 104 8.

Lemma bit_ok_all : forallb (fun pe => forallb (bit_ok pe) callee_regs) all_encodings = true.
Proof. by vm_compute. Qed.

Lemma callee_regs_elem (r : Z) : callee_reg r = true -> r ∈ callee_regs.
Proof.
  unfold callee_reg, within, callee_regs; intros H. apply elem_of_app.
  rewrite !elem_of_seqZ. lia.
Qed.

Lemma overlap_encoding (p q : PReg) :
  regs_overlap p q = true -> callee_reg (encoding q) = true -> encoding p ∈ all_encodings.
Proof.
  intros H Hq. unfold all_encodings; apply elem_of_seqZ.
  destruct (decide (p = q)) as [->|Hne]; [unfold callee_reg, within in Hq; lia|].
  unfold regs_overlap in H; rewrite decide_False in H by done.
  destruct (reg_root p) as [[n g]|] eqn:E; [|done]. unfold reg_root, within in E.
  repeat case_match; simplify_eq; lia.
Qed.

Lemma overlap_bit (p q : PReg) :
  regs_overlap p q = true -> callee_reg (encoding q) = true -> preg_class p <> Fpr8 ->
  exists b, bit_of p = Some b /\ bit_reg b = encoding q /\ covered b = true.
Proof.
  intros Ho Hq Hc. pose proof bit_ok_all as H. rewrite forallb_forall in H.
  specialize (H (encoding p) (proj1 (list_elem_of_In _ _) (overlap_encoding p q Ho Hq))).
  rewrite forallb_forall in H.
  specialize (H (encoding q) (proj1 (list_elem_of_In _ _) (callee_regs_elem _ Hq))).
  unfold bit_ok in H. destruct p as [pe], q as [qe]; cbn [encoding] in *.
  rewrite Ho, bool_decide_eq_false_2 in H by done. cbn [negb andb implb] in H.
  destruct (bit_of (mkPReg pe)) as [b|]; [|done]. rewrite andb_true_iff, Z.eqb_eq in H. eauto.
Qed.

Lemma covered_saved (func : MachFunction) (outgoing : Z) (red dyn : bool) (b : bool * Z) :
  covered b = true -> marked (scan_bits (scan_function func)) b ->
  bit_reg b ∈ saved_regs (compute_frame_layout_inner func outgoing red dyn).
Proof.
  intros Hc Hm. unfold covered in Hc. apply existsb_exists in Hc as (e & He & Hb).
  rewrite andb_true_iff, orb_true_iff, !Z.eqb_eq in Hb. destruct Hb as [Hbit Hst].
  set (g := gpr_used (scan_function func)) in *. set (f := fpr_used (scan_function func)) in *.
  assert (Hp : exists p, p ∈ extra_pairs g f /\ pair_key p = pair_key (table_pair b.1 e)).
  { apply list_elem_of_In in He. unfold marked, scan_bits in Hm; cbn [fst snd] in Hm.
    fold g f in Hm.
    assert (Hu : Z.land (if b.1 then f else g) e.2 <> 0).
    { intros E. apply (f_equal (fun x => Z.testbit x b.2)) in E.
      rewrite Z.land_spec, Hbit, Z.bits_0, Hm in E. done. }
    unfold extra_pairs, reg_table in *. destruct b.1.
    - by apply push_pairs_used.
    - destruct (push_pairs_used false g gpr_pair_regs ([], -16) e He Hu) as (p & Hp & Hk).
      exists p; split; [by apply push_pairs_keep|done]. }
  destruct Hp as (p & Hp & Hk).
  assert (Es : storage p = storage (table_pair b.1 e)).
  { destruct p, e as [[? ?] ?]; unfold pair_key, table_pair, storage,
      storage_regs_for_callee_saved_pair in *; cbn in *. by injection Hk as -> -> ->. }
  unfold saved_regs; rewrite layout_pairs. apply list_elem_of_In, in_concat.
  exists [(storage p).1; (storage p).2]; split.
  - apply in_map_iff; eexists; split; [reflexivity|]. apply in_or_app; right.
    by apply list_elem_of_In.
  - rewrite Es; destruct Hst as [->| ->]; cbn; tauto.
Qed.

(** C37: Every register an instruction of the function mentions, as an operand, as the
    base of a memory operand or as an implicit definition or use, is accounted for, in any
    view but the 8-bit one: if it overlaps a callee-saved
    register then the computed layout saves that register, or the register is
    mentioned as the base of memory operands only, which the scan does not look at
    ([memory_base_not_saved], [byte_view_not_saved]). *)
Theorem callee_saved_uses_saved (func : MachFunction) (outgoing : Z) (red dyn : bool) (p q : PReg) :
  p ∈ used_regs func ++ mem_bases func -> callee_reg (encoding q) = true -> regs_overlap p q = true ->
  preg_class p <> Fpr8 ->
  encoding q ∈ saved_regs (compute_frame_layout_inner func outgoing red dyn) \/
  (p ∈ mem_bases func /\ p ∉ used_regs func).
Proof.
  intros Hp Hq Ho Hc. destruct (decide (p ∈ used_regs func)) as [Hu|Hu].
  - left. destruct (overlap_bit p q Ho Hq Hc) as (b & Hb & <- & Hcov).
    apply covered_saved; [done|]. by apply (scan_marks func p).
  - right. split; [|done]. apply elem_of_app in Hp as [|]; done.
Qed.

Lemma callee_saved_uses_saved_witness :
  104 ∈ saved_regs (compute_frame_layout_inner demo_frame_func 0 true false).
Proof.
  destruct (callee_saved_uses_saved demo_frame_func 0 true false (mkPReg 136) (mkPReg 104)) as [H|[H _]].
  - apply list_elem_of_In; vm_compute; tauto.
  - by vm_compute.
  - by vm_compute.
  - by vm_compute.
  - exact H.
  - exfalso. revert H. apply (bool_decide_unpack _). by vm_compute.
Defined.

(** A load through [X19] does not make the layout save it. *)
Example memory_base_not_saved :
  let func := mkMachFunction [mkMachInst (OtherOp 0) [MPReg (mkPReg 0); MMemOp (mkPReg 19) 8] [] [] true] [] NoProtector None in
  mkPReg 19 ∈ mem_bases func /\ 19 ∉ saved_regs (compute_frame_layout_inner func 0 true false).
Proof.
  split; [left|]. apply (bool_decide_unpack _). by vm_compute.
Qed.

(** The 8-bit views [B8..B15] are not counted: a function that only names [B8]
    does not save [D8]. *)
Example byte_view_not_saved :
  let func := mkMachFunction [mkMachInst (OtherOp 0) [MPReg (mkPReg 205)] [] [] true] [] NoProtector None in
  regs_overlap (mkPReg 205) (mkPReg 104) = true /\
  104 ∉ saved_regs (compute_frame_layout_inner func 0 true false).
Proof.
  split; [by vm_compute|]. apply (bool_decide_unpack _). by vm_compute.
Qed.
