(* ===== verification/Dwarf.v ===== *)
(** * DWARF call frame information ([crates/trust-cg-codegen/src/dwarf_cfi.rs],
      [crates/trust-cg-codegen/src/dwarf_cfi_decode_check.rs])

    The emitter of [__eh_frame] sections (CIE and FDE records, LEB128 numbers,
    call frame instructions) and the independent decoder that re-reads the emitted
    bytes and compares every field with what the emitter meant.  [DwarfCheck]
    proves that the two agree, [Unwind] what the emitted instructions describe. *)

From S2P Require Import Prelude Regs Frame.
Local Open Scope Z_scope.

(** ** Constants *)

Abbreviation DW_CFA_DEF_CFA := (0x0C)%Z (only parsing).
Abbreviation DW_CFA_DEF_CFA_OFFSET := (0x0E)%Z (only parsing).
Abbreviation DW_CFA_OFFSET := (0x80)%Z (only parsing).
Abbreviation DW_CFA_ADVANCE_LOC := (0x40)%Z (only parsing).
Abbreviation DW_CFA_ADVANCE_LOC1 := (0x02)%Z (only parsing).
Abbreviation DW_CFA_ADVANCE_LOC2 := (0x03)%Z (only parsing).
Abbreviation DW_CFA_NOP := (0x00)%Z (only parsing).
Abbreviation DW_EH_PE_PCREL := (0x10)%Z (only parsing).
Abbreviation DW_EH_PE_SDATA4 := (0x0B)%Z (only parsing).
Abbreviation DW_EH_PE_SDATA8 := (0x0C)%Z (only parsing).
Abbreviation DW_EH_PE_INDIRECT := (0x80)%Z (only parsing).
Abbreviation CODE_ALIGN_FACTOR := (4)%Z (only parsing).
Abbreviation DATA_ALIGN_FACTOR := (-8)%Z (only parsing).
Abbreviation RA_REGISTER := (30)%Z (only parsing).
Abbreviation FP_REGISTER := (29)%Z (only parsing).
Abbreviation SP_REGISTER := (31)%Z (only parsing).
Abbreviation X86_64_CODE_ALIGN_FACTOR := (1)%Z (only parsing).
Abbreviation X86_64_DATA_ALIGN_FACTOR := (-8)%Z (only parsing).
Abbreviation X86_64_RA_REGISTER := (16)%Z (only parsing).
Abbreviation X86_64_SP_REGISTER := (7)%Z (only parsing).
Abbreviation X86_64_FP_REGISTER := (6)%Z (only parsing).

(** ** Numbers as bytes

    A byte is a [Z] in [[0, 256)]. *)

(** [to_le_bytes] of the low [n] bytes of [v]. *)
Fixpoint le_bytes (n : nat) (v : Z) : list Z :=
  match n with
  | O => []
  | S n => v mod 256 :: le_bytes n (v / 256)
  end.

Definition u32_le (v : Z) : list Z := le_bytes 4 (wrap 32 v).

(** The loop of [encode_uleb128]; a 64-bit value takes at most ten rounds. *)
Fixpoint uleb_loop (fuel : nat) (value : Z) : list Z :=
  match fuel with
  | O => []
  | S fuel =>
      let byte := Z.land value 0x7F in
      let value := Z.shiftr value 7 in
      let byte := if value =? 0 then byte else Z.lor byte 0x80 in
      byte :: (if value =? 0 then [] else uleb_loop fuel value)
  end.

Definition encode_uleb128 (value : Z) : list Z := uleb_loop 10 value.

Fixpoint sleb_loop (fuel : nat) (value : Z) : list Z :=
  match fuel with
  | O => []
  | S fuel =>
      let byte := Z.land value 0x7F in
      let value := Z.shiftr value 7 in
      if ((value =? 0) && (Z.land byte 0x40 =? 0))
         || ((value =? -1) && negb (Z.land byte 0x40 =? 0))
      then [byte]
      else Z.lor byte 0x80 :: sleb_loop fuel value
  end.

Definition encode_sleb128 (value : Z) : list Z := sleb_loop 10 value.

Definition pointer_encoding_size (encoding : Z) : nat :=
  let nibble := Z.land encoding 0x0F in
  if nibble =? 0 then 8%nat
  else if nibble =? DW_EH_PE_SDATA4 then 4%nat
  else if nibble =? DW_EH_PE_SDATA8 then 8%nat
  else 8%nat.

(** [push_sized_value]; the sizes it is called with are those of
    [pointer_encoding_size], so its panic is out of reach. *)
Definition push_sized_value (value : Z) (size : nat) : list Z := le_bytes size value.

Definition encode_advance_loc (n_instructions : Z) : list Z :=
  if n_instructions <=? 63 then [Z.lor DW_CFA_ADVANCE_LOC n_instructions]
  else if n_instructions <=? 255 then [DW_CFA_ADVANCE_LOC1; n_instructions]
  else DW_CFA_ADVANCE_LOC2 :: le_bytes 2 (wrap 16 n_instructions).

Definition encode_advance_loc_bytes (n_bytes : Z) : list Z :=
  if n_bytes =? 0 then []
  else if n_bytes <=? 63 then [Z.lor DW_CFA_ADVANCE_LOC n_bytes]
  else if n_bytes <=? 255 then [DW_CFA_ADVANCE_LOC1; n_bytes]
  else DW_CFA_ADVANCE_LOC2 :: le_bytes 2 (wrap 16 n_bytes).

(** ** Records *)

Record DwarfCie := mkCie {
  version : Z;
  augmentation : list Z;
  code_alignment_factor : Z;
  data_alignment_factor : Z;
  return_address_register : Z;
  fde_pointer_encoding : Z;
  personality_encoding : option Z;
  personality_pointer : option Z;
  lsda_encoding : option Z;
  initial_instructions : list Z }.

Record DwarfFde := mkFde {
  function_offset : Z;
  function_length : Z;
  symbol_index : Z;
  instructions : list Z;
  lsda_pointer : option Z }.

Record DwarfCfiSection := mkSection { cie : DwarfCie; fdes : list DwarfFde }.

(** The ASCII strings [zR] and [zPLR] with their NUL. *)
Definition aug_zR : list Z := [122; 82; 0].
Definition aug_zPLR : list Z := [122; 80; 76; 82; 0].

Definition def_cfa (r off : Z) : list Z :=
  DW_CFA_DEF_CFA :: encode_uleb128 r ++ encode_uleb128 off.

Definition cfa_offset (r factored : Z) : list Z :=
  Z.lor DW_CFA_OFFSET (Z.land (wrap 8 r) 0x3F) :: encode_uleb128 factored.

Definition def_cfa_offset (off : Z) : list Z := DW_CFA_DEF_CFA_OFFSET :: encode_uleb128 off.

Definition personality_enc : Z :=
  Z.lor (Z.lor DW_EH_PE_INDIRECT DW_EH_PE_PCREL) DW_EH_PE_SDATA4.

Definition aarch64_darwin : DwarfCie :=
  mkCie 1 aug_zR CODE_ALIGN_FACTOR DATA_ALIGN_FACTOR RA_REGISTER DW_EH_PE_PCREL
    None None None (def_cfa SP_REGISTER 0).

Definition aarch64_darwin_with_eh : DwarfCie :=
  mkCie 1 aug_zPLR CODE_ALIGN_FACTOR DATA_ALIGN_FACTOR RA_REGISTER DW_EH_PE_PCREL
    (Some personality_enc) (Some 0) (Some DW_EH_PE_PCREL) (def_cfa SP_REGISTER 0).

Definition aarch64_elf : DwarfCie :=
  mkCie 1 aug_zR CODE_ALIGN_FACTOR DATA_ALIGN_FACTOR RA_REGISTER
    (Z.lor DW_EH_PE_PCREL DW_EH_PE_SDATA4) None None None (def_cfa SP_REGISTER 0).

Definition aarch64_elf_with_eh : DwarfCie :=
  mkCie 1 aug_zPLR CODE_ALIGN_FACTOR DATA_ALIGN_FACTOR RA_REGISTER
    (Z.lor DW_EH_PE_PCREL DW_EH_PE_SDATA4) (Some personality_enc) (Some 0)
    (Some (Z.lor DW_EH_PE_PCREL DW_EH_PE_SDATA4)) (def_cfa SP_REGISTER 0).

Definition x86_64_darwin : DwarfCie :=
  mkCie 1 aug_zR X86_64_CODE_ALIGN_FACTOR X86_64_DATA_ALIGN_FACTOR X86_64_RA_REGISTER
    (Z.lor DW_EH_PE_PCREL DW_EH_PE_SDATA4) None None None
    (def_cfa X86_64_SP_REGISTER 8 ++ cfa_offset X86_64_RA_REGISTER 1).

Definition x86_64_darwin_with_eh : DwarfCie :=
  mkCie 1 aug_zPLR X86_64_CODE_ALIGN_FACTOR X86_64_DATA_ALIGN_FACTOR X86_64_RA_REGISTER
    DW_EH_PE_PCREL (Some personality_enc) (Some 0) (Some DW_EH_PE_PCREL)
    (def_cfa X86_64_SP_REGISTER 8 ++ cfa_offset X86_64_RA_REGISTER 1).

Definition has_personality (c : DwarfCie) : bool :=
  match personality_encoding c with Some _ => true | None => false end.

(** ** Serialization *)

(** [while (body.len() + 4) % 8 != 0]: at most seven rounds. *)
Definition pad_body (body : list Z) : list Z :=
  body ++ replicate ((8 - (length body + 4) mod 8) mod 8) DW_CFA_NOP.

Definition prepend_length (body : list Z) : list Z :=
  u32_le (Z.of_nat (length body)) ++ body.

Definition cie_aug_data (c : DwarfCie) : list Z :=
  (match personality_encoding c with
   | Some enc => enc :: u32_le (default 0 (personality_pointer c))
   | None => []
   end)
  ++ (match lsda_encoding c with Some enc => [enc] | None => [] end)
  ++ [fde_pointer_encoding c].

(** The CIE body up to and including the length of the augmentation data. *)
Definition cie_head (c : DwarfCie) : list Z :=
  u32_le 0 ++ [version c] ++ augmentation c
  ++ encode_uleb128 (code_alignment_factor c)
  ++ encode_sleb128 (data_alignment_factor c)
  ++ encode_uleb128 (return_address_register c)
  ++ encode_uleb128 (Z.of_nat (length (cie_aug_data c))).

Definition cie_to_bytes (c : DwarfCie) : list Z :=
  prepend_length (pad_body (cie_head c ++ cie_aug_data c ++ initial_instructions c)).

Definition to_bytes_with_sizes (f : DwarfFde) (cie_offset : Z) (pc_size lsda_size : nat)
    : list Z :=
  prepend_length (pad_body
    (u32_le cie_offset
     ++ push_sized_value (swrap 64 (function_offset f)) pc_size
     ++ push_sized_value (function_length f) pc_size
     ++ (match lsda_pointer f with
         | Some lsda_ptr =>
             encode_uleb128 (Z.of_nat lsda_size) ++ push_sized_value lsda_ptr lsda_size
         | None => encode_uleb128 0
         end)
     ++ instructions f)).

Definition fde_to_bytes (f : DwarfFde) (cie_offset : Z) : list Z :=
  to_bytes_with_sizes f cie_offset 8 8.

Definition section_pc_size (s : DwarfCfiSection) : nat :=
  pointer_encoding_size (fde_pointer_encoding (cie s)).

Definition section_lsda_size (s : DwarfCfiSection) : nat :=
  match lsda_encoding (cie s) with
  | Some enc => pointer_encoding_size enc
  | None => section_pc_size s
  end.

(** The loop of [to_bytes] over the FDEs, appending to [data]. *)
Definition push_fdes (pc_size lsda_size : nat) (fs : list DwarfFde) (data : list Z) : list Z :=
  fold_left (fun data f =>
    let cie_offset := wrap 32 (wrap 32 (Z.of_nat (length data)) + 4) in
    data ++ to_bytes_with_sizes f cie_offset pc_size lsda_size) fs data.

Definition to_bytes (s : DwarfCfiSection) : list Z :=
  match fdes s with
  | [] => []
  | _ => push_fdes (section_pc_size s) (section_lsda_size s) (fdes s) (cie_to_bytes (cie s)) ++ u32_le 0
  end.

Definition to_bytes_no_terminator (s : DwarfCfiSection) : list Z :=
  let data := to_bytes s in
  if (4 <=? length data)%nat then take (length data - 4) data else data.

(** The walk over FDE start offsets shared by the two relocation tables. *)
Definition fde_starts (s : DwarfCfiSection) : list (Z * DwarfFde) :=
  (fold_left (fun '(acc, fde_start) f =>
     let cie_offset := wrap 32 (fde_start + 4) in
     (acc ++ [(fde_start, f)],
      wrap 32 (fde_start
        + wrap 32 (Z.of_nat (length (to_bytes_with_sizes f cie_offset (section_pc_size s)
                                       (section_lsda_size s))))))) (fdes s)
     ([], wrap 32 (Z.of_nat (length (cie_to_bytes (cie s)))))).1.

Definition fde_pc_begin_relocation_offsets (s : DwarfCfiSection) : list Z :=
  match fdes s with
  | [] => []
  | _ => map (fun '(fde_start, _) => wrap 32 (fde_start + 8)) (fde_starts s)
  end.

Definition fde_lsda_relocation_offsets (s : DwarfCfiSection) : list Z :=
  match fdes s with
  | [] => []
  | _ => omap (fun '(fde_start, f) =>
           match lsda_pointer f with
           | Some _ => Some (wrap 32 (fde_start + 8 + Z.of_nat (section_pc_size s) * 2 + 1))
           | None => None
           end) (fde_starts s)
  end.

Definition cie_personality_relocation_offset (s : DwarfCfiSection) : option Z :=
  match personality_encoding (cie s) with
  | None => None
  | Some _ => Some (wrap 32 (4 + wrap 32 (Z.of_nat (length (cie_head (cie s)))) + 1))
  end.

Definition add_fde (s : DwarfCfiSection) (f : DwarfFde) : DwarfCfiSection :=
  mkSection (cie s) (fdes s ++ [f]).

Definition with_lsda (f : DwarfFde) : DwarfFde :=
  mkFde (function_offset f) (function_length f) (symbol_index f) (instructions f) (Some 0).

(** ** FDEs of AArch64 frames *)

Definition preg_to_dwarf (preg : PReg) (fpr : bool) : Z :=
  if fpr then wrap 64 (64 + wrap 64 (encoding preg - 64)) else encoding preg.

Definition factored (bytes_below_cfa : Z) : Z := bytes_below_cfa / - DATA_ALIGN_FACTOR.

Definition describe_pair (pairs : list CalleeSavedPair) (i : nat) : list Z :=
  let pair := pairs !!! i in
  cfa_offset (preg_to_dwarf (reg2 pair) (is_fpr pair)) (factored (16 * (Z.of_nat i + 1)))
  ++ cfa_offset (preg_to_dwarf (reg1 pair) (is_fpr pair)) (factored (16 * Z.of_nat i + 8)).

Definition describe_fp_lr : list Z :=
  cfa_offset FP_REGISTER (factored 16) ++ cfa_offset RA_REGISTER (factored 8).

(** The [while remaining > 0] loops that follow an SP adjustment in chunks. *)
Fixpoint describe_sp_chunks (chunks : list Z) (cumulative : Z) : list Z :=
  match chunks with
  | [] => []
  | chunk :: chunks =>
      encode_advance_loc 1 ++ def_cfa_offset (cumulative + chunk)
      ++ describe_sp_chunks chunks (cumulative + chunk)
  end.

Definition from_layout_instructions (layout : FrameLayout) : list Z :=
  let pairs := callee_saved_pairs layout in
  let csa := callee_saved_area_size layout in
  let chunks := sp_chunks (sp_chunk_rounds (sp_adjustment layout)) (sp_adjustment layout) in
  match length pairs with
  | O => describe_sp_chunks chunks 0
  | S num_extra =>
      encode_advance_loc 1 ++ def_cfa_offset csa
      ++ (match num_extra with
          | O => describe_fp_lr
          | S k =>
              describe_pair pairs num_extra
              ++ concat (map (fun i => encode_advance_loc 1 ++ describe_pair pairs i)
                           (rev (seq 1 k)))
              ++ encode_advance_loc 1 ++ describe_fp_lr
          end)
      ++ (if uses_frame_pointer layout
          then encode_advance_loc 1 ++ def_cfa FP_REGISTER 16
          else describe_sp_chunks chunks csa)
  end.

Definition from_layout (layout : FrameLayout) (offset len sym : Z) : DwarfFde :=
  mkFde offset len sym (from_layout_instructions layout) None.

(** ** FDEs of x86-64 frames

    An x86-64 register is its hardware encoding; [None] is the panic on an
    unknown one. *)

Definition x86_64_preg_to_dwarf (enc : Z) : option Z :=
  if enc =? 0 then Some 0
  else if enc =? 1 then Some 2
  else if enc =? 2 then Some 1
  else if enc =? 3 then Some 3
  else if enc =? 4 then Some 7
  else if enc =? 5 then Some 6
  else if enc =? 6 then Some 4
  else if enc =? 7 then Some 5
  else if within 8 15 enc then Some enc
  else if within 64 79 enc then Some (17 + (enc - 64))
  else None.

Fixpoint x86_64_describe_pushes (i : Z) (callee_saved : list Z) : option (list Z) :=
  match callee_saved with
  | [] => Some []
  | enc :: rest =>
      let push_size := if within 8 15 enc then 2 else 1 in
      match x86_64_preg_to_dwarf enc, x86_64_describe_pushes (i + 1) rest with
      | Some dwarf_reg, Some tail =>
          Some (encode_advance_loc_bytes push_size ++ cfa_offset dwarf_reg (3 + i) ++ tail)
      | _, _ => None
      end
  end.

Definition x86_64_fde_from_prologue (callee_saved : list Z) (frame_size offset len sym : Z)
    : option DwarfFde :=
  match x86_64_describe_pushes 0 callee_saved with
  | None => None
  | Some pushes =>
      let instructions :=
        encode_advance_loc_bytes 1 ++ def_cfa_offset 16 ++ cfa_offset X86_64_FP_REGISTER 2
        ++ encode_advance_loc_bytes 3 ++ def_cfa X86_64_FP_REGISTER 16
        ++ pushes
        ++ (if 0 <? frame_size
            then encode_advance_loc_bytes (if frame_size <=? 127 then 4 else 7) else []) in
      Some (mkFde offset len sym instructions None)
  end.

(** ** The decoder

    Error messages are kept as their kind and the field they name. *)

Inductive Field :=
  | F_cie_id | F_version | F_augmentation | F_code_align | F_data_align | F_return_reg
  | F_personality_encoding | F_personality_pointer | F_lsda_encoding | F_fde_pointer_encoding
  | F_initial_instructions | F_cie_pointer | F_pc_begin | F_pc_range | F_aug_len | F_lsda
  | F_instructions.

Inductive DecodeError :=
  | NotEmpty | Truncated | BadPointerSize | UnterminatedString | LebOverflow
  | Mismatch (f : Field)
  | LengthPastEnd | NotAligned | MissingZ | UnknownLetter (c : Z) | AugTrailing | MissingR
  | ZeroCiePointer
  | RegionTooShort (f : Field) | RegionMismatch (f : Field) | PaddingTooLong (f : Field)
  | PaddingNotNop (f : Field)
  | MissingTerminator | BadTerminator | TrailingBytes.

(** [Panic] is an arithmetic overflow of a checked build; an unchecked build wraps
    and then reports a truncated read. *)
Inductive DRes (A : Type) := DOk (a : A) | DErr (e : DecodeError) | DPanic.
Arguments DOk {A} _.
Arguments DErr {A} _.
Arguments DPanic {A}.

Definition dbind {A B} (m : DRes A) (k : A -> DRes B) : DRes B :=
  match m with DOk a => k a | DErr e => DErr e | DPanic => DPanic end.

Declare Scope dwarf_scope.
Delimit Scope dwarf_scope with dwarf.
Notation "'let?' p ':=' m 'in' k" := (dbind m (fun x => match x with p => k end))
  (at level 10, p pattern, m at level 100, k at level 200) : dwarf_scope.
Notation "m ;; k" := (dbind m (fun _ => k)) (at level 100, k at level 200, right associativity) : dwarf_scope.
Open Scope dwarf_scope.

Definition check_eq {A} `{EqDecision A} (f : Field) (decoded intent : A) : DRes unit :=
  if decide (decoded = intent) then DOk tt else DErr (Mismatch f).

Definition dguard (b : bool) (e : DecodeError) : DRes unit := if b then DErr e else DOk tt.

Record Reader := mkReader { rbytes : list Z; rpos : nat }.

Definition Reader_new (bytes : list Z) : Reader := mkReader bytes 0.
Definition remaining (r : Reader) : nat := (length (rbytes r) - rpos r)%nat.
Definition at_end (r : Reader) : bool := (length (rbytes r) <=? rpos r)%nat.

Definition read_u8 (r : Reader) : DRes (Z * Reader) :=
  match rbytes r !! rpos r with
  | Some b => DOk (b, mkReader (rbytes r) (S (rpos r)))
  | None => DErr Truncated
  end.

(** [self.bytes.get(self.pos..self.pos + n)], then the cursor moves to the end.
    The positions are [usize]: a sum past [2^64] overflows. *)
Definition read_take (r : Reader) (n : Z) : DRes (list Z * Reader) :=
  let e := Z.of_nat (rpos r) + n in
  if 2 ^ 64 <=? e then DPanic
  else if Z.of_nat (length (rbytes r)) <? e then DErr Truncated
  else DOk (take (Z.to_nat n) (drop (rpos r) (rbytes r)),
            mkReader (rbytes r) (rpos r + Z.to_nat n)%nat).

(** [from_le_bytes], unsigned. *)
Fixpoint of_le (l : list Z) : Z :=
  match l with [] => 0 | b :: l => b + 256 * of_le l end.

Definition read_u32_le (r : Reader) : DRes (Z * Reader) :=
  let? (bs, r) := read_take r 4 in DOk (of_le bs, r).

Definition read_sized_le (r : Reader) (size : nat) : DRes (Z * Reader) :=
  let? (bs, r) := read_take r (Z.of_nat size) in
  match size with
  | 4%nat => DOk (swrap 32 (of_le bs), r)
  | 8%nat => DOk (swrap 64 (of_le bs), r)
  | _ => DErr BadPointerSize
  end.

(** The loop of [cstr_with_nul] from [start]; it ends at the NUL, at the end of
    the section or after 65 bytes. *)
Fixpoint cstr_loop (fuel : nat) (start : nat) (r : Reader) : DRes (list Z * Reader) :=
  match fuel with
  | O => DErr UnterminatedString
  | S fuel =>
      let? (b, r) := read_u8 r in
      if b =? 0 then DOk (take (rpos r - start) (drop start (rbytes r)), r)
      else if (64 <? rpos r - start)%nat then DErr UnterminatedString
      else cstr_loop fuel start r
  end.

Definition cstr_with_nul (r : Reader) : DRes (list Z * Reader) := cstr_loop 65 (rpos r) r.

(** The loops of [uleb128] and [sleb128]; the eleventh byte overflows. *)
Fixpoint uleb_read (fuel : nat) (result shift : Z) (r : Reader) : DRes (Z * Reader) :=
  match fuel with
  | O => DErr LebOverflow
  | S fuel =>
      let? (byte, r) := read_u8 r in
      if 64 <=? shift then DErr LebOverflow
      else let result := Z.lor result (wrap 64 (Z.shiftl (Z.land byte 0x7F) shift)) in
           if Z.land byte 0x80 =? 0 then DOk (result, r)
           else uleb_read fuel result (shift + 7) r
  end.

Definition uleb128 (r : Reader) : DRes (Z * Reader) := uleb_read 11 0 0 r.

Fixpoint sleb_read (fuel : nat) (result shift : Z) (r : Reader) : DRes (Z * Reader) :=
  match fuel with
  | O => DErr LebOverflow
  | S fuel =>
      let? (byte, r) := read_u8 r in
      if 64 <=? shift then DErr LebOverflow
      else let result := Z.lor result (swrap 64 (Z.shiftl (Z.land byte 0x7F) shift)) in
           let shift := shift + 7 in
           if Z.land byte 0x80 =? 0 then
             DOk (if (shift <? 64) && negb (Z.land byte 0x40 =? 0)
                  then Z.lor result (swrap 64 (Z.shiftl (-1) shift)) else result, r)
           else sleb_read fuel result shift r
  end.

Definition sleb128 (r : Reader) : DRes (Z * Reader) := sleb_read 11 0 0 r.

(** ** The decode check *)

Definition check_instruction_region (f : Field) (region intent : list Z) : DRes unit :=
  dguard (length region <? length intent)%nat (RegionTooShort f) ;;
  let padding := drop (length intent) region in
  dguard (negb (bool_decide (take (length intent) region = intent))) (RegionMismatch f) ;;
  dguard (8 <=? length padding)%nat (PaddingTooLong f) ;;
  dguard (negb (forallb (fun b => b =? DW_CFA_NOP) padding)) (PaddingNotNop f).

(** The fields decoded from the augmentation data. *)
Record AugFields := mkAug {
  aug_fde_enc : option Z;
  aug_lsda_enc : option Z;
  aug_personality_enc : option Z;
  aug_personality_ptr : option Z }.

(** The loop over the letters after the leading [z]. *)
Fixpoint decode_aug (letters : list Z) (a : AugFields) (ar : Reader) : DRes (AugFields * Reader) :=
  match letters with
  | [] => DOk (a, ar)
  | letter :: letters =>
      if letter =? 0 then DOk (a, ar)
      else if letter =? 80 then
        let? (enc, ar) := read_u8 ar in
        let? (ptr, ar) := read_u32_le ar in
        decode_aug letters (mkAug (aug_fde_enc a) (aug_lsda_enc a) (Some enc) (Some ptr)) ar
      else if letter =? 76 then
        let? (enc, ar) := read_u8 ar in
        decode_aug letters (mkAug (aug_fde_enc a) (Some enc) (aug_personality_enc a)
                              (aug_personality_ptr a)) ar
      else if letter =? 82 then
        let? (enc, ar) := read_u8 ar in
        decode_aug letters (mkAug (Some enc) (aug_lsda_enc a) (aug_personality_enc a)
                              (aug_personality_ptr a)) ar
      else DErr (UnknownLetter letter)
  end.

(** [entry_end - r.pos] on [usize]. *)
Definition bytes_left (entry_end : Z) (r : Reader) : DRes Z :=
  if entry_end <? Z.of_nat (rpos r) then DPanic else DOk (entry_end - Z.of_nat (rpos r)).

(** The rest of an entry, compared with the intended program. *)
Definition decode_region (f : Field) (entry_end : Z) (r : Reader) (intent : list Z) : DRes Reader :=
  let? n := bytes_left entry_end r in
  let? (region, r) := read_take r n in
  check_instruction_region f region intent ;;
  DOk r.

(** The length prefix of an entry and the checks on it; the result is the offset
    of the end of the entry. *)
Definition entry_header (r : Reader) : DRes (Z * Reader) :=
  let? (len, r) := read_u32_le r in
  let entry_end := Z.of_nat (rpos r) + len in
  dguard (Z.of_nat (length (rbytes r)) <? entry_end) LengthPastEnd ;;
  dguard (negb ((len + 4) mod 8 =? 0)) NotAligned ;;
  DOk (entry_end, r).

Definition decode_and_check_cie (r : Reader) (c : DwarfCie) : DRes (nat * nat * Reader) :=
  let? (entry_end, r) := entry_header r in
  let? (cie_id, r) := read_u32_le r in
  check_eq F_cie_id cie_id 0 ;;
  let? (ver, r) := read_u8 r in
  check_eq F_version ver (version c) ;;
  let? (aug, r) := cstr_with_nul r in
  check_eq F_augmentation aug (augmentation c) ;;
  let? (code_align, r) := uleb128 r in
  check_eq F_code_align code_align (code_alignment_factor c) ;;
  let? (data_align, r) := sleb128 r in
  check_eq F_data_align data_align (data_alignment_factor c) ;;
  let? (ra, r) := uleb128 r in
  check_eq F_return_reg ra (return_address_register c) ;;
  dguard (negb (bool_decide (head aug = Some 122))) MissingZ ;;
  let? (aug_data_len, r) := uleb128 r in
  let? (aug_data, r) := read_take r aug_data_len in
  let? (a, ar) := decode_aug (drop 1 aug) (mkAug None None None None) (Reader_new aug_data) in
  dguard (negb (at_end ar)) AugTrailing ;;
  check_eq F_personality_encoding (aug_personality_enc a) (personality_encoding c) ;;
  check_eq F_personality_pointer (aug_personality_ptr a) (personality_pointer c) ;;
  check_eq F_lsda_encoding (aug_lsda_enc a) (lsda_encoding c) ;;
  match aug_fde_enc a with
  | None => DErr MissingR
  | Some fde_ptr_enc =>
      check_eq F_fde_pointer_encoding fde_ptr_enc (fde_pointer_encoding c) ;;
      let? r := decode_region F_initial_instructions entry_end r (initial_instructions c) in
      let pc_size := pointer_encoding_size fde_ptr_enc in
      let lsda_size := match aug_lsda_enc a with
                       | Some enc => pointer_encoding_size enc
                       | None => pc_size
                       end in
      DOk (pc_size, lsda_size, r)
  end.

(** The augmentation data of an FDE: its length, then the LSDA pointer if any. *)
Definition decode_fde_aug (r : Reader) (f : DwarfFde) (lsda_size : nat) : DRes Reader :=
  let? (aug_data_len, r) := uleb128 r in
  match lsda_pointer f with
  | Some intent_lsda =>
      check_eq F_aug_len aug_data_len (Z.of_nat lsda_size) ;;
      let? (lsda, r) := read_sized_le r lsda_size in
      check_eq F_lsda lsda intent_lsda ;;
      DOk r
  | None => check_eq F_aug_len aug_data_len 0 ;; DOk r
  end.

Definition decode_and_check_fde (r : Reader) (f : DwarfFde) (expected_cie_pointer : Z)
    (pc_size lsda_size : nat) : DRes Reader :=
  let? (entry_end, r) := entry_header r in
  let? (cie_pointer, r) := read_u32_le r in
  dguard (cie_pointer =? 0) ZeroCiePointer ;;
  check_eq F_cie_pointer cie_pointer expected_cie_pointer ;;
  let? (pc_begin, r) := read_sized_le r pc_size in
  check_eq F_pc_begin pc_begin (swrap 64 (function_offset f)) ;;
  let? (pc_range, r) := read_sized_le r pc_size in
  check_eq F_pc_range pc_range (function_length f) ;;
  let? r := decode_fde_aug r f lsda_size in
  decode_region F_instructions entry_end r (instructions f).

Fixpoint decode_fdes (fs : list DwarfFde) (pc_size lsda_size : nat) (r : Reader) : DRes Reader :=
  match fs with
  | [] => DOk r
  | f :: fs =>
      let expected_cie_pointer := wrap 32 (wrap 32 (Z.of_nat (rpos r)) + 4) in
      let? r := decode_and_check_fde r f expected_cie_pointer pc_size lsda_size in
      decode_fdes fs pc_size lsda_size r
  end.

Definition verify_eh_frame_roundtrip (s : DwarfCfiSection) (bytes : list Z) : DRes unit :=
  match fdes s with
  | [] => dguard (negb (length bytes =? 0)%nat) NotEmpty
  | _ =>
      let? (pc_size, lsda_size, r) := decode_and_check_cie (Reader_new bytes) (cie s) in
      let? r := decode_fdes (fdes s) pc_size lsda_size r in
      dguard (remaining r <? 4)%nat MissingTerminator ;;
      let? (term, r) := read_u32_le r in
      dguard (negb (term =? 0)) BadTerminator ;;
      dguard (negb (at_end r)) TrailingBytes
  end.
