(* ===== verification/DwarfCheck.v ===== *)
(** * The [__eh_frame] decode check accepts what the emitter writes
      ([crates/trust-cg-codegen/src/dwarf_cfi.rs],
       [crates/trust-cg-codegen/src/dwarf_cfi_decode_check.rs])

    LEB128 round trips, the round trip of whole sections, and the converse: the
    bytes the check accepts determine the records. *)

From S2P Require Import Prelude Regs Frame Dwarf.
Local Open Scope Z_scope.

(** ** Reading *)

(** The reader stands before the bytes [l]. *)
Definition reads (r : Reader) (l : list Z) : Prop :=
  (rpos r <= length (rbytes r))%nat /\ drop (rpos r) (rbytes r) = l.

Definition adv (r : Reader) (n : nat) : Reader := mkReader (rbytes r) (rpos r + n).

(** Sections are shorter than the address space. *)
Definition fits (r : Reader) : Prop := Z.of_nat (length (rbytes r)) < 2 ^ 64.

Lemma adv_adv (r : Reader) (n m : nat) : adv (adv r n) m = adv r (n + m).
Proof. unfold adv; cbn; f_equal; lia. Qed.

Lemma adv_0 (r : Reader) : adv r 0 = r.
Proof. destruct r; unfold adv; cbn; f_equal; lia. Qed.

Lemma reads_length (r : Reader) (l : list Z) :
  reads r l -> length (rbytes r) = (rpos r + length l)%nat.
Proof. intros [H <-]. rewrite length_drop; lia. Qed.

Lemma reads_adv (r : Reader) (l1 l2 : list Z) :
  reads r (l1 ++ l2) -> reads (adv r (length l1)) l2.
Proof.
  intros H; pose proof (reads_length _ _ H) as Hl; rewrite length_app in Hl.
  destruct H as [H E]; unfold reads, adv; cbn. split; [lia|].
  rewrite <- drop_drop, E. apply drop_app_length.
Qed.

Lemma read_u8_at (r : Reader) (b : Z) (l : list Z) :
  reads r (b :: l) -> read_u8 r = DOk (b, adv r 1) /\ reads (adv r 1) l.
Proof.
  intros H; split; [|by apply (reads_adv r [b] l)].
  unfold read_u8, adv. replace (rpos r + 1)%nat with (S (rpos r)) by lia.
  destruct H as [H E]. rewrite <- (Nat.add_0_r (rpos r)) at 1. rewrite <- lookup_drop, E. done.
Qed.

Lemma read_take_at (r : Reader) (l1 l2 : list Z) :
  fits r -> reads r (l1 ++ l2) ->
  read_take r (Z.of_nat (length l1)) = DOk (l1, adv r (length l1)) /\ reads (adv r (length l1)) l2.
Proof.
  intros Hf H; split; [|by apply reads_adv].
  pose proof (reads_length _ _ H) as Hl; rewrite length_app in Hl.
  destruct H as [H E]; unfold fits in Hf; unfold read_take.
  rewrite (proj2 (Z.leb_gt _ _)), (proj2 (Z.ltb_ge _ _)) by lia.
  rewrite Nat2Z.id, E, take_app_length. done.
Qed.

Lemma of_le_le_bytes (n : nat) (v : Z) : of_le (le_bytes n v) = v mod 256 ^ Z.of_nat n.
Proof.
  revert v; induction n as [|n IH]; intros v; cbn [le_bytes of_le]; [by rewrite Z.mod_1_r|].
  rewrite IH, Nat2Z.inj_succ, Z.pow_succ_r by lia.
  rewrite (Z.rem_mul_r v 256 (256 ^ Z.of_nat n)) by (try apply Z.pow_pos_nonneg; lia). lia.
Qed.

Lemma le_bytes_length (n : nat) (v : Z) : length (le_bytes n v) = n.
Proof. revert v; induction n as [|n IH]; intros v; cbn; [done|by rewrite IH]. Qed.

Lemma read_u32_at (r : Reader) (v : Z) (l : list Z) :
  fits r -> reads r (u32_le v ++ l) ->
  read_u32_le r = DOk (wrap 32 v, adv r 4) /\ reads (adv r 4) l.
Proof.
  intros Hf H. unfold read_u32_le.
  destruct (read_take_at r (u32_le v) l Hf H) as [E H'].
  unfold u32_le in E, H'; rewrite le_bytes_length in E, H'.
  change (Z.of_nat 4) with 4 in E. rewrite E; cbn [dbind]. split; [|done].
  rewrite of_le_le_bytes. change (256 ^ Z.of_nat 4) with (2 ^ 32). fold (wrap 32 (wrap 32 v)).
  by rewrite wrap_wrap.
Qed.

Definition ptr_size (n : nat) : Prop := n = 4%nat \/ n = 8%nat.

Lemma pointer_encoding_size_ok (e : Z) : ptr_size (pointer_encoding_size e).
Proof. unfold pointer_encoding_size, ptr_size. repeat case_match; auto. Qed.

Lemma swrap_mod (w x : Z) : 1 <= w -> swrap w (x mod 2 ^ w) = swrap w x.
Proof.
  intros; unfold swrap. by rewrite Z.add_mod_idemp_l by (pose proof (pow2_pos w); lia).
Qed.

Lemma read_sized_at (r : Reader) (v : Z) (size : nat) (l : list Z) :
  fits r -> ptr_size size -> reads r (push_sized_value v size ++ l) ->
  read_sized_le r size = DOk (swrap (8 * Z.of_nat size) v, adv r size) /\ reads (adv r size) l.
Proof.
  intros Hf Hs H. unfold read_sized_le.
  destruct (read_take_at r (push_sized_value v size) l Hf H) as [E H'].
  unfold push_sized_value in *; rewrite le_bytes_length in E, H'. rewrite E; cbn [dbind].
  rewrite of_le_le_bytes. split; [|done].
  destruct Hs as [->| ->].
  - change (256 ^ Z.of_nat 4) with (2 ^ 32). by rewrite swrap_mod.
  - change (256 ^ Z.of_nat 8) with (2 ^ 64). by rewrite swrap_mod.
Qed.

(** ** LEB128 *)

Lemma low7 (v : Z) : Z.land v 0x7F = v mod 128 /\ 0 <= v mod 128 < 128.
Proof.
  split; [|apply Z.mod_pos_bound; lia]. change 0x7F with (Z.ones 7).
  rewrite Z.land_ones by lia. done.
Qed.

Lemma lor_high (b : Z) : 0 <= b < 128 -> Z.lor b 0x80 = b + 128.
Proof.
  intros Hb. rewrite Z.add_nocarry_lxor, <- Z.lxor_lor; [done| |];
  apply Z.bits_inj'; intros n Hn; rewrite Z.land_spec, Z.bits_0;
  destruct (Z.eq_dec n 7) as [->|Hne].
  all: try (rewrite <- (Z.mod_small b (2 ^ 7)) by lia; rewrite Z.mod_pow2_bits_high by lia; done).
  all: change 0x80 with (2 ^ 7); rewrite Z.pow2_bits_false by lia; apply andb_false_r.
Qed.

Lemma leb_byte_more (b : Z) :
  0 <= b < 128 -> Z.land (Z.lor b 0x80) 0x7F = b /\ (Z.land (Z.lor b 0x80) 0x80 =? 0) = false.
Proof.
  intros Hb. rewrite lor_high by done. split.
  - destruct (low7 (b + 128)) as [-> _]. replace (b + 128) with (b + 1 * 128) by lia.
    rewrite Z.mod_add by lia. by apply Z.mod_small.
  - apply Z.eqb_neq. intros E. apply (f_equal (fun x => Z.testbit x 7)) in E.
    rewrite Z.land_spec, Z.bits_0, <- lor_high, Z.lor_spec in E by done. cbn in E.
    by rewrite orb_true_r in E.
Qed.

Lemma leb_byte_last (b : Z) :
  0 <= b < 128 -> Z.land b 0x7F = b /\ (Z.land b 0x80 =? 0) = true.
Proof.
  intros Hb. destruct (low7 b) as [-> _]. rewrite Z.mod_small by done. split; [done|].
  apply Z.eqb_eq, Z.bits_inj'; intros n Hn. rewrite Z.land_spec, Z.bits_0.
  destruct (Z.eq_dec n 7) as [->|Hne].
  - rewrite <- (Z.mod_small b (2 ^ 7)) by lia. by rewrite Z.mod_pow2_bits_high by lia.
  - change 0x80 with (2 ^ 7). rewrite Z.pow2_bits_false by lia. apply andb_false_r.
Qed.

(** Seven bits at a time. *)
Lemma lor_split7 (v s : Z) :
  0 <= s -> Z.lor (Z.shiftl (Z.land v 0x7F) s) (Z.shiftl (Z.shiftr v 7) (s + 7)) = Z.shiftl v s.
Proof.
  intros Hs. rewrite Z.add_comm, <- Z.shiftl_shiftl, <- Z.shiftl_lor by lia. f_equal.
  change 0x7F with (Z.ones 7). rewrite <- Z.ldiff_ones_r by lia.
  rewrite Z.lor_comm. apply Z.lor_ldiff_and.
Qed.

Lemma shiftl_lt (x s n : Z) : 0 <= s -> 0 <= x < 2 ^ (n - s) -> s <= n -> 0 <= Z.shiftl x s < 2 ^ n.
Proof.
  intros Hs Hx Hn. rewrite Z.shiftl_mul_pow2 by done.
  replace (2 ^ n) with (2 ^ (n - s) * 2 ^ s) by (rewrite <- Z.pow_add_r by lia; f_equal; lia).
  pose proof (pow2_pos s Hs); nia.
Qed.

Lemma shiftr7_range (v n : Z) : 0 <= v < 2 ^ (7 + n) -> 0 <= n -> 0 <= Z.shiftr v 7 < 2 ^ n.
Proof.
  intros Hv Hn. rewrite Z.shiftr_div_pow2 by lia. rewrite Z.pow_add_r in Hv by lia.
  split; [apply Z.div_pos; lia|apply Z.div_lt_upper_bound; lia].
Qed.

(** The decoder reads back what the encoder writes, seven bits per round. *)
Lemma uleb_read_loop (e d : nat) (v result shift : Z) (r : Reader) (l : list Z) :
  (e <= d)%nat -> 0 <= v < 2 ^ (7 * Z.of_nat e) -> 0 <= shift < 64 -> v < 2 ^ (64 - shift) ->
  reads r (uleb_loop e v ++ l) -> (0 < e)%nat ->
  uleb_read d result shift r
    = DOk (Z.lor result (Z.shiftl v shift), adv r (length (uleb_loop e v))) /\
  reads (adv r (length (uleb_loop e v))) l.
Proof.
  revert d v result shift r; induction e as [|e IH]; intros d v result shift r Hd Hv Hs Hv' Hr He;
    [lia|]. destruct d as [|d]; [lia|]. cbn [uleb_loop uleb_read] in *.
  destruct (low7 v) as [E7 B7]. rewrite E7 in Hr |- *.
  destruct (Z.shiftr v 7 =? 0) eqn:Ez.
  - (* the last byte *)
    apply Z.eqb_eq in Ez. cbn [app length] in *.
    destruct (read_u8_at r _ l Hr) as [-> Hr']. cbn [dbind].
    rewrite (proj2 (Z.leb_gt 64 shift)) by lia.
    destruct (leb_byte_last (v mod 128) B7) as [-> ->]. split; [|done].
    assert (Ev : v mod 128 = v).
    { rewrite Z.shiftr_div_pow2 in Ez by lia. change (2 ^ 7) with 128 in Ez.
      pose proof (Z.div_mod v 128); lia. }
    rewrite Ev, (wrap_small 64); [done|]. apply shiftl_lt; lia.
  - (* more to come *)
    apply Z.eqb_neq in Ez. cbn [app length] in *.
    destruct (read_u8_at r _ _ Hr) as [-> Hr']. cbn [dbind].
    rewrite (proj2 (Z.leb_gt 64 shift)) by lia.
    destruct (leb_byte_more (v mod 128) B7) as [-> ->].
    assert (Hbig : 128 <= v).
    { destruct (Z.lt_ge_cases v 128) as [Hlt|]; [|done]. destruct Ez.
      rewrite Z.shiftr_div_pow2 by lia. apply Z.div_small; lia. }
    assert (H57 : shift + 7 < 64).
    { destruct (Z.lt_ge_cases (shift + 7) 64) as [|Hge]; [done|].
      pose proof (pow2_le (64 - shift) 7); lia. }
    assert (He0 : (0 < e)%nat).
    { destruct e; [|lia]. change (2 ^ (7 * Z.of_nat 1)) with 128 in Hv; lia. }
    destruct (IH d (Z.shiftr v 7) (Z.lor result (wrap 64 (Z.shiftl (v mod 128) shift))) (shift + 7)
                 (adv r 1)) as [-> Hr'']; [lia| |lia| |done|done|].
    { apply shiftr7_range; [|lia]. replace (7 + 7 * Z.of_nat e) with (7 * Z.of_nat (S e)) by lia. lia. }
    { apply shiftr7_range; [|lia]. replace (7 + (64 - (shift + 7))) with (64 - shift) by lia. lia. }
    rewrite adv_adv in Hr'' |- *. cbn [Nat.add] in *. split; [|done].
    rewrite (wrap_small 64).
    + rewrite <- Z.lor_assoc, <- E7, lor_split7 by lia. done.
    + apply shiftl_lt; [lia| |lia]. pose proof (pow2_le 7 (64 - shift)); lia.
Qed.

Lemma uleb128_at (r : Reader) (v : Z) (l : list Z) :
  uword 64 v -> reads r (encode_uleb128 v ++ l) ->
  uleb128 r = DOk (v, adv r (length (encode_uleb128 v))) /\
  reads (adv r (length (encode_uleb128 v))) l.
Proof.
  intros Hv Hr. unfold uleb128, encode_uleb128 in *.
  destruct (uleb_read_loop 10 11 v 0 0 r l) as [E H]; [lia| |lia|apply Hv|done|lia|].
  - unfold uword in Hv; pose proof (pow2_le 64 70). change (7 * Z.of_nat 10) with 70. lia.
  - rewrite E, Z.lor_0_l, Z.shiftl_0_r. done.
Qed.

(** ** Signed numbers *)

Lemma shiftr7_srange (v n : Z) :
  0 <= n -> - 2 ^ (7 + n) <= v < 2 ^ (7 + n) -> - 2 ^ n <= Z.shiftr v 7 < 2 ^ n.
Proof.
  intros Hn Hv. rewrite Z.shiftr_div_pow2 by lia. rewrite Z.pow_add_r in Hv by lia.
  split; [apply Z.div_le_lower_bound; lia|apply Z.div_lt_upper_bound; lia].
Qed.

(** The test that ends the encoder: the sign of the remaining value is bit 6. *)
Definition sleb_done (v : Z) : bool :=
  let byte := Z.land v 0x7F in
  let value := Z.shiftr v 7 in
  ((value =? 0) && (Z.land byte 0x40 =? 0)) || ((value =? -1) && negb (Z.land byte 0x40 =? 0)).

Lemma bit6 (b : Z) : 0 <= b < 128 -> (Z.land b 0x40 =? 0) = (b <? 64).
Proof.
  intros Hb. assert (H : forallb (fun b => bool_decide ((Z.land b 0x40 =? 0) = (b <? 64)))
                           (seqZ 0 128) = true) by by vm_compute.
  rewrite forallb_forall in H. specialize (H b). rewrite bool_decide_eq_true in H.
  apply H, list_elem_of_In, elem_of_seqZ; lia.
Qed.

Lemma sleb_done_spec (v : Z) : sleb_done v = (-64 <=? v) && (v <? 64).
Proof.
  unfold sleb_done. destruct (low7 v) as [-> B]. rewrite bit6 by done.
  rewrite Z.shiftr_div_pow2 by lia. change (2 ^ 7) with 128. pose proof (Z.div_mod v 128).
  apply eq_iff_eq_true. rewrite orb_true_iff, !andb_true_iff, negb_true_iff, !Z.eqb_eq.
  rewrite Z.ltb_lt, Z.ltb_ge, Z.leb_le, Z.ltb_lt. lia.
Qed.

(** The last byte of a signed number. *)
Lemma sleb_last (v result shift : Z) :
  -64 <= v < 64 -> 0 <= shift <= 63 -> shift mod 7 = 0 -> - 2 ^ (63 - shift) <= v < 2 ^ (63 - shift) ->
  let byte := v mod 128 in
  let res := Z.lor result (swrap 64 (Z.shiftl byte shift)) in
  (if (shift + 7 <? 64) && negb (byte <? 64) then Z.lor res (swrap 64 (Z.shiftl (-1) (shift + 7)))
   else res) = Z.lor result (Z.shiftl v shift).
Proof.
  intros Hv Hs Hm Hr. cbn zeta. pose proof (low7 v) as [E7 B7].
  destruct (Z.lt_ge_cases v 0) as [Hneg|Hpos].
  - assert (Eb : v mod 128 = v + 128).
    { replace v with (v + 128 + -1 * 128) at 1 by lia. rewrite Z.mod_add by lia. apply Z.mod_small; lia. }
    rewrite Eb. rewrite (proj2 (Z.ltb_ge (v + 128) 64)) by lia. cbn [negb]. rewrite andb_true_r.
    destruct (shift + 7 <? 64) eqn:E.
    + apply Z.ltb_lt in E.
      rewrite (swrap_small 64 (Z.shiftl (v + 128) shift)), (swrap_small 64 (Z.shiftl (-1) (shift + 7))).
      * rewrite <- Z.lor_assoc. f_equal. rewrite <- Eb, <- E7.
        replace (-1) with (Z.shiftr v 7)
          by (rewrite Z.shiftr_div_pow2 by lia; symmetry; apply (Z.div_unique v 128 _ (v + 128)); lia).
        apply lor_split7; lia.
      * lia.
      * unfold sword. rewrite Z.shiftl_mul_pow2 by lia. change (64 - 1) with 63.
        pose proof (pow2_le (shift + 7) 63). pose proof (pow2_pos (shift + 7)). lia.
      * lia.
      * unfold sword. pose proof (shiftl_lt (v + 128) shift 63) as H.
        pose proof (pow2_le 7 (63 - shift)). change (64 - 1) with 63. lia.
    + apply Z.ltb_ge in E. pose proof (Z.div_mod shift 7). assert (shift = 63) as -> by lia.
      change (2 ^ (63 - 63)) with 1 in Hr. assert (v = -1) as -> by lia. f_equal.
  - assert (Eb : v mod 128 = v) by (apply Z.mod_small; lia).
    rewrite Eb, (proj2 (Z.ltb_lt v 64)) by lia. cbn [negb]. rewrite andb_false_r.
    rewrite (swrap_small 64); [done|lia|]. unfold sword. pose proof (shiftl_lt v shift 63) as H.
    change (2 ^ (64 - 1)) with (2 ^ 63). lia.
Qed.

Lemma sleb_loop_unfold (e : nat) (v : Z) :
  sleb_loop (S e) v = if sleb_done v then [Z.land v 0x7F]
                      else Z.lor (Z.land v 0x7F) 0x80 :: sleb_loop e (Z.shiftr v 7).
Proof. done. Qed.

Lemma sleb_read_loop (e d : nat) (v result shift : Z) (r : Reader) (l : list Z) :
  (e <= d)%nat -> - 2 ^ (7 * Z.of_nat e - 1) <= v < 2 ^ (7 * Z.of_nat e - 1) ->
  0 <= shift <= 63 -> shift mod 7 = 0 -> - 2 ^ (63 - shift) <= v < 2 ^ (63 - shift) ->
  reads r (sleb_loop e v ++ l) -> (0 < e)%nat ->
  sleb_read d result shift r
    = DOk (Z.lor result (Z.shiftl v shift), adv r (length (sleb_loop e v))) /\
  reads (adv r (length (sleb_loop e v))) l.
Proof.
  revert d v result shift r; induction e as [|e IH]; intros d v result shift r Hd Hv Hs Hm Hv' Hr He;
    [lia|]. destruct d as [|d]; [lia|]. rewrite sleb_loop_unfold in Hr |- *.
  destruct (low7 v) as [E7 B7]. rewrite E7 in Hr |- *. rewrite sleb_done_spec in Hr |- *.
  destruct ((-64 <=? v) && (v <? 64)) eqn:Ez; cbn [app length] in *;
    destruct (read_u8_at r _ _ Hr) as [Er Hr']; cbn [sleb_read]; rewrite Er; cbn [dbind];
    rewrite (proj2 (Z.leb_gt 64 shift)) by lia.
  - rewrite andb_true_iff, Z.leb_le, Z.ltb_lt in Ez.
    destruct (leb_byte_last (v mod 128) B7) as [-> ->]. rewrite bit6 by done.
    rewrite sleb_last by lia. done.
  - rewrite andb_false_iff, Z.leb_gt, Z.ltb_ge in Ez.
    destruct (leb_byte_more (v mod 128) B7) as [-> ->].
    assert (H57 : shift + 7 <= 63).
    { destruct (Z.le_gt_cases (shift + 7) 63) as [|Hgt]; [done|].
      pose proof (pow2_le (63 - shift) 6). lia. }
    assert (He0 : (0 < e)%nat).
    { destruct e; [|lia]. change (2 ^ (7 * Z.of_nat 1 - 1)) with 64 in Hv; lia. }
    destruct (IH d (Z.shiftr v 7) (Z.lor result (swrap 64 (Z.shiftl (v mod 128) shift))) (shift + 7)
                 (adv r 1)) as [-> Hr'']; [lia| |lia| | |done|done|].
    { apply shiftr7_srange; [lia|].
      replace (7 + (7 * Z.of_nat e - 1)) with (7 * Z.of_nat (S e) - 1) by lia. done. }
    { rewrite <- Zplus_mod_idemp_l, Hm. done. }
    { apply shiftr7_srange; [lia|]. replace (7 + (63 - (shift + 7))) with (63 - shift) by lia. done. }
    rewrite adv_adv in Hr'' |- *. split; [|done].
    rewrite (swrap_small 64); [|lia|].
    + rewrite <- Z.lor_assoc, <- E7, lor_split7 by lia. done.
    + unfold sword. change (2 ^ (64 - 1)) with (2 ^ 63).
      pose proof (shiftl_lt (v mod 128) shift 63). pose proof (pow2_le 7 (63 - shift)). lia.
Qed.

Lemma sleb128_at (r : Reader) (v : Z) (l : list Z) :
  sword 64 v -> reads r (encode_sleb128 v ++ l) ->
  sleb128 r = DOk (v, adv r (length (encode_sleb128 v))) /\
  reads (adv r (length (encode_sleb128 v))) l.
Proof.
  intros Hv Hr. unfold sleb128, encode_sleb128 in *.
  destruct (sleb_read_loop 10 11 v 0 0 r l) as [E H]; [lia| |lia|done|apply Hv|done|lia|].
  - unfold sword in Hv; pose proof (pow2_le 63 69). change (7 * Z.of_nat 10 - 1) with 69.
    change (64 - 1) with 63 in Hv. lia.
  - rewrite E, Z.lor_0_l, Z.shiftl_0_r. done.
Qed.

(** ** Length of the encodings *)

Lemma uleb_loop_length (e : nat) (v : Z) (k : nat) :
  0 <= v -> (1 <= k <= e)%nat ->
  (length (uleb_loop e v) <= k)%nat <-> v < 2 ^ (7 * Z.of_nat k) \/ k = e.
Proof.
  revert v k; induction e as [|e IH]; intros v k Hv Hk; [lia|]. cbn [uleb_loop].
  rewrite Z.shiftr_div_pow2 by lia. change (2 ^ 7) with 128.
  destruct (Z.eqb_spec (v / 128) 0) as [E|E]; cbn [length].
  - split; [intros _; left|lia]. pose proof (Z.div_mod v 128). pose proof (Z.mod_pos_bound v 128).
    pose proof (pow2_le 7 (7 * Z.of_nat k)). lia.
  - assert (Hd : 0 < v / 128) by (pose proof (Z.div_pos v 128); lia).
    destruct k as [|k]; [lia|]. destruct k as [|k].
    + split; [|intros [H|H]; [exfalso|]].
      * intros H. destruct e as [|e]; [by right|]. cbn [uleb_loop length] in H. lia.
      * change (2 ^ (7 * Z.of_nat 1)) with 128 in H. rewrite Z.div_small in E; lia.
      * injection H as <-. cbn; lia.
    + rewrite <- Nat.succ_le_mono, IH by (lia || (apply Z.div_pos; lia)).
      replace (7 * Z.of_nat (S (S k))) with (7 + 7 * Z.of_nat (S k)) by lia.
      rewrite Z.pow_add_r by lia. change (2 ^ 7) with 128.
      assert (v < 128 * 2 ^ (7 * Z.of_nat (S k)) <-> v / 128 < 2 ^ (7 * Z.of_nat (S k))).
      { split; [intros; apply Z.div_lt_upper_bound; lia|].
        pose proof (Z.div_mod v 128); pose proof (Z.mod_pos_bound v 128); lia. }
      split; intros [|]; [left|right|left|right]; lia || tauto.
Qed.

(** The encoding takes at most [k] bytes exactly when [7 k] bits hold the value. *)
Lemma encode_uleb128_length (v : Z) (k : nat) :
  uword 64 v -> (1 <= k <= 10)%nat ->
  (length (encode_uleb128 v) <= k)%nat <-> v < 2 ^ (7 * Z.of_nat k).
Proof.
  intros [H0 H1] Hk. unfold encode_uleb128. rewrite uleb_loop_length by done.
  split; [intros [| ->]; [done|]|by left]. pose proof (pow2_le 64 (7 * Z.of_nat 10)). lia.
Qed.

Lemma uleb_nonempty (v : Z) : (1 <= length (encode_uleb128 v))%nat.
Proof. unfold encode_uleb128; cbn [uleb_loop length]; lia. Qed.

Lemma sleb_bounds (v : Z) : (1 <= length (encode_sleb128 v) <= 10)%nat.
Proof.
  unfold encode_sleb128.
  assert (G : forall e w, (length (sleb_loop e w) <= e)%nat).
  { induction e as [|e IH]; intros w; [done|]. rewrite sleb_loop_unfold.
    destruct (sleb_done w); cbn [length]; [lia|]. specialize (IH (Z.shiftr w 7)); lia. }
  split; [|apply G]. rewrite sleb_loop_unfold; destruct (sleb_done v); cbn [length]; lia.
Qed.

Lemma reads_new (l : list Z) : reads (Reader_new l) l.
Proof. split; cbn; [lia|done]. Qed.

(** LEB128 round trip and size.  Every [u64] and every [i64] written by the
    emitter's LEB128 encoders is read back unchanged by the checker's decoders,
    which stop exactly after the encoding; an unsigned number takes at most [k]
    bytes exactly when it fits in [7 k] bits, so never more than ten, and a signed
    one takes between one and ten bytes. *)
Theorem leb128_roundtrip (u i : Z) (k : nat) (rest : list Z) :
  uword 64 u -> sword 64 i -> (1 <= k <= 10)%nat ->
  uleb128 (Reader_new (encode_uleb128 u ++ rest))
    = DOk (u, mkReader (encode_uleb128 u ++ rest) (length (encode_uleb128 u))) /\
  sleb128 (Reader_new (encode_sleb128 i ++ rest))
    = DOk (i, mkReader (encode_sleb128 i ++ rest) (length (encode_sleb128 i))) /\
  ((length (encode_uleb128 u) <= k)%nat <-> u < 2 ^ (7 * Z.of_nat k)) /\
  (1 <= length (encode_sleb128 i) <= 10)%nat.
Proof.
  intros Hu Hi Hk. split; [|split; [|split]].
  - apply (uleb128_at _ u rest Hu (reads_new _)).
  - apply (sleb128_at _ i rest Hi (reads_new _)).
  - by apply encode_uleb128_length.
  - apply sleb_bounds.
Qed.

Lemma leb128_roundtrip_witness :
  uleb128 (Reader_new (encode_uleb128 624485 ++ [7])) = DOk (624485, mkReader [229; 142; 38; 7] 3).
Proof.
  refine (proj1 (leb128_roundtrip 624485 (-123456) 3 [7] _ _ _)); [split; lia|split; lia|lia].
Defined.

(** ** Entries *)

Definition padding (body : list Z) : list Z :=
  replicate ((8 - (length body + 4) mod 8) mod 8) DW_CFA_NOP.

Lemma pad_body_app (body : list Z) : pad_body body = body ++ padding body.
Proof. done. Qed.

Lemma padding_length (body : list Z) : (length (padding body) < 8)%nat.
Proof. unfold padding; rewrite length_replicate. apply Nat.mod_upper_bound; lia. Qed.

Lemma pad_body_aligned (body : list Z) : (Z.of_nat (length (pad_body body)) + 4) mod 8 = 0.
Proof.
  unfold pad_body; rewrite length_app, length_replicate.
  pose proof (Nat.div_mod (length body + 4) 8 ltac:(lia)) as H1.
  pose proof (Nat.mod_upper_bound (length body + 4) 8 ltac:(lia)) as H2.
  set (m := ((length body + 4) mod 8)%nat) in *. set (q := ((length body + 4) / 8)%nat) in *.
  destruct (decide (m = 0%nat)) as [E|E].
  - rewrite E in *. change ((8 - 0) mod 8)%nat with 0%nat.
    apply Z.mod_divide; [lia|]. exists (Z.of_nat q); lia.
  - rewrite Nat.mod_small by lia. apply Z.mod_divide; [lia|]. exists (Z.of_nat q + 1); lia.
Qed.

Lemma entry_header_at (r : Reader) (body l : list Z) :
  fits r -> reads r (prepend_length body ++ l) -> Z.of_nat (length body) < 2 ^ 32 ->
  (Z.of_nat (length body) + 4) mod 8 = 0 ->
  entry_header r = DOk (Z.of_nat (rpos r + 4 + length body), adv r 4) /\ reads (adv r 4) (body ++ l).
Proof.
  intros Hf Hr Hlen Hal. unfold prepend_length in Hr. rewrite <- app_assoc in Hr.
  pose proof (reads_length _ _ Hr) as Hb.
  destruct (read_u32_at r _ _ Hf Hr) as [E Hr']. split; [|done].
  unfold entry_header; rewrite E; cbn [dbind]. rewrite wrap_small by (unfold uword; lia).
  rewrite Hal; unfold dguard; cbn [rpos adv rbytes negb].
  rewrite !length_app in Hb. unfold u32_le in Hb; rewrite le_bytes_length in Hb.
  destruct (Z.ltb_spec (Z.of_nat (length (rbytes r)))
              (Z.of_nat (rpos r + 4) + Z.of_nat (length body))); [lia|].
  change (0 =? 0) with true; cbn [dbind negb]. do 2 f_equal. lia.
Qed.

Lemma check_region_ok (f : Field) (intent body : list Z) :
  check_instruction_region f (intent ++ padding body) intent = DOk tt.
Proof.
  unfold check_instruction_region, dguard. pose proof (padding_length body).
  rewrite length_app, drop_app_length, take_app_length.
  rewrite (proj2 (Nat.ltb_ge _ _)) by lia. cbn [dbind].
  rewrite bool_decide_eq_true_2 by done. cbn [negb dbind].
  rewrite (proj2 (Nat.leb_gt _ _)) by lia. cbn [dbind].
  unfold padding. clear H. induction ((8 - _) mod 8)%nat as [|n IH]; [done|exact IH].
Qed.

(** The tail of an entry: what is left of it is the instructions and the padding. *)
Lemma region_at (r : Reader) (f : Field) (e : nat) (intent body l : list Z) :
  fits r -> e = (rpos r + length (intent ++ padding body))%nat ->
  reads r (intent ++ padding body ++ l) ->
  decode_region f (Z.of_nat e) r intent = DOk (adv r (length (intent ++ padding body))) /\
  reads (adv r (length (intent ++ padding body))) l.
Proof.
  intros Hf -> Hr. rewrite app_assoc in Hr.
  destruct (read_take_at r _ _ Hf Hr) as [E Hr']. split; [|done].
  unfold decode_region, bytes_left. rewrite (proj2 (Z.ltb_ge _ _)) by lia. cbn [dbind].
  replace (Z.of_nat (rpos r + length (intent ++ padding body)) - Z.of_nat (rpos r))
    with (Z.of_nat (length (intent ++ padding body))) by lia.
  rewrite E. cbn [dbind]. by rewrite check_region_ok.
Qed.

(** ** Well-formed records *)

Definition size_ok (size : nat) (v : Z) : Prop := sword (8 * Z.of_nat size) v.

Record wf_fde (pc_size lsda_size : nat) (f : DwarfFde) : Prop := {
  wf_offset : uword 64 (function_offset f);
  wf_offset_size : size_ok pc_size (swrap 64 (function_offset f));
  wf_length_size : size_ok pc_size (function_length f);
  wf_lsda_size : forall p, lsda_pointer f = Some p -> size_ok lsda_size p }.

(** The letters the optional fields of a CIE call for. *)
Definition aug_letters (c : DwarfCie) : list Z :=
  (match personality_encoding c with Some _ => [80] | None => [] end)
  ++ (match lsda_encoding c with Some _ => [76] | None => [] end) ++ [82].

Record wf_cie (c : DwarfCie) : Prop := {
  wf_augmentation : augmentation c = 122 :: aug_letters c ++ [0];
  wf_code_align : uword 64 (code_alignment_factor c);
  wf_data_align : sword 64 (data_alignment_factor c);
  wf_return_reg : uword 64 (return_address_register c);
  wf_personality : match personality_encoding c, personality_pointer c with
                   | Some _, Some p => uword 32 p
                   | None, None => True
                   | _, _ => False
                   end }.

Definition wf_section (s : DwarfCfiSection) : Prop :=
  wf_cie (cie s) /\ Forall (wf_fde (section_pc_size s) (section_lsda_size s)) (fdes s) /\
  Z.of_nat (length (to_bytes s)) < 2 ^ 32.

Lemma read_sized_ok (r : Reader) (v : Z) (size : nat) (l : list Z) :
  fits r -> ptr_size size -> size_ok size v -> reads r (push_sized_value v size ++ l) ->
  read_sized_le r size = DOk (v, adv r size) /\ reads (adv r size) l.
Proof.
  intros Hf Hs Hv Hr. destruct (read_sized_at r v size l Hf Hs Hr) as [E Hr']. split; [|done].
  rewrite swrap_small in E; [done|destruct Hs; lia|done].
Qed.

Lemma fits_adv (r : Reader) (n : nat) : fits r -> fits (adv r n).
Proof. done. Qed.

Lemma check_eq_refl {A} `{EqDecision A} (f : Field) (x : A) : check_eq f x x = DOk tt.
Proof. unfold check_eq; by rewrite decide_True. Qed.

Create HintDb dwarf.
#[export] Hint Resolve fits_adv pointer_encoding_size_ok wf_offset_size wf_length_size wf_lsda_size : dwarf.

(** Step the decoder over the next read: [lem] describes the read, [R0] says what
    the reader stands before. *)
Ltac rd lem R0 R1 :=
  edestruct lem as [-> R1]; [..|exact R0|]; [by eauto with dwarf..|]; cbn [dbind]; clear R0.

Lemma prepend_length_length (body : list Z) :
  length (prepend_length body) = (4 + length body)%nat.
Proof. unfold prepend_length, u32_le; by rewrite length_app, le_bytes_length. Qed.

(** The augmentation data of an FDE. *)
Definition fde_aug (f : DwarfFde) (lsda_size : nat) : list Z :=
  match lsda_pointer f with
  | Some p => encode_uleb128 (Z.of_nat lsda_size) ++ push_sized_value p lsda_size
  | None => encode_uleb128 0
  end.

(** The body of an FDE up to the instructions. *)
Definition fde_head (f : DwarfFde) (cie_offset : Z) (pc_size lsda_size : nat) : list Z :=
  u32_le cie_offset
  ++ push_sized_value (swrap 64 (function_offset f)) pc_size
  ++ push_sized_value (function_length f) pc_size
  ++ fde_aug f lsda_size.

Definition fde_body (f : DwarfFde) (cie_offset : Z) (pc_size lsda_size : nat) : list Z :=
  fde_head f cie_offset pc_size lsda_size ++ instructions f.

Lemma to_bytes_with_sizes_shape (f : DwarfFde) (cie_offset : Z) (pc_size lsda_size : nat) :
  to_bytes_with_sizes f cie_offset pc_size lsda_size
  = prepend_length (fde_body f cie_offset pc_size lsda_size
                    ++ padding (fde_body f cie_offset pc_size lsda_size)).
Proof.
  unfold to_bytes_with_sizes, fde_body, fde_head. rewrite pad_body_app. by rewrite <- !app_assoc.
Qed.

Lemma fde_head_length (f : DwarfFde) (cie_offset : Z) (pc_size lsda_size : nat) :
  length (fde_head f cie_offset pc_size lsda_size)
  = (4 + pc_size + pc_size + match lsda_pointer f with
                             | Some _ => length (encode_uleb128 (Z.of_nat lsda_size)) + lsda_size
                             | None => length (encode_uleb128 0)
                             end)%nat.
Proof.
  unfold fde_head, fde_aug, u32_le, push_sized_value. rewrite !length_app, !le_bytes_length.
  destruct (lsda_pointer f); rewrite ?length_app, ?le_bytes_length; lia.
Qed.

Lemma fde_aug_at (r : Reader) (f : DwarfFde) (pc_size lsda_size : nat) (l : list Z) :
  fits r -> ptr_size lsda_size -> wf_fde pc_size lsda_size f ->
  reads r (fde_aug f lsda_size ++ l) ->
  decode_fde_aug r f lsda_size = DOk (adv r (length (fde_aug f lsda_size))) /\
  reads (adv r (length (fde_aug f lsda_size))) l.
Proof.
  intros Hf Hp Hwf Hr. pose proof (reads_adv _ _ _ Hr) as Hr'. split; [|done]. clear Hr'.
  unfold decode_fde_aug, fde_aug in *. destruct (lsda_pointer f) as [p|] eqn:E.
  - rewrite <- app_assoc in Hr.
    destruct (uleb128_at r (Z.of_nat lsda_size) _ ltac:(destruct Hp as [->| ->]; split; lia) Hr) as [-> R].
    cbn [dbind]. rewrite check_eq_refl; cbn [dbind].
    destruct (read_sized_ok _ p lsda_size l (fits_adv _ _ Hf) Hp (wf_lsda_size _ _ _ Hwf _ E) R) as [-> R'].
    cbn [dbind]. rewrite check_eq_refl; cbn [dbind].
    rewrite adv_adv, length_app. unfold push_sized_value. by rewrite le_bytes_length.
  - destruct (uleb128_at r 0 l ltac:(split; lia) Hr) as [-> R]. cbn [dbind].
    rewrite check_eq_refl; done.
Qed.

Lemma decode_fde_at (r : Reader) (f : DwarfFde) (off : Z) (pc_size lsda_size : nat) (l : list Z) :
  let bytes := to_bytes_with_sizes f off pc_size lsda_size in
  fits r -> ptr_size pc_size -> ptr_size lsda_size -> wf_fde pc_size lsda_size f ->
  Z.of_nat (length bytes) < 2 ^ 32 -> uword 32 off -> off <> 0 -> reads r (bytes ++ l) ->
  decode_and_check_fde r f off pc_size lsda_size = DOk (adv r (length bytes)) /\
  reads (adv r (length bytes)) l.
Proof.
  intros bytes Hf Hp Hl Hwf Hlen Hoff Hne Hr.
  pose proof (reads_adv _ _ _ Hr) as Hend. split; [|done]. clear Hend.
  unfold bytes in *; clear bytes. rewrite to_bytes_with_sizes_shape in Hr, Hlen |- *.
  rewrite prepend_length_length in Hlen |- *. rewrite <- pad_body_app in Hr, Hlen |- *.
  unfold decode_and_check_fde.
  destruct (entry_header_at r _ l Hf Hr ltac:(lia) (pad_body_aligned _)) as [-> R]. cbn [dbind].
  rewrite pad_body_app in R. remember (padding (fde_body f off pc_size lsda_size)) as pad eqn:Epad.
  unfold fde_body, fde_head in R. rewrite <- !app_assoc in R.
  rd read_u32_at R R1. rewrite wrap_small by done. unfold dguard.
  rewrite (proj2 (Z.eqb_neq off 0)) by done. cbn [dbind].
  rewrite check_eq_refl; cbn [dbind].
  rd read_sized_ok R1 R2. rewrite check_eq_refl; cbn [dbind].
  rd read_sized_ok R2 R3. rewrite check_eq_refl; cbn [dbind].
  rd fde_aug_at R3 R4. subst pad. rewrite !adv_adv in R4 |- *.
  match type of R4 with reads (adv r ?n) _ =>
    assert (En : n = (4 + length (fde_head f off pc_size lsda_size))%nat)
      by (rewrite fde_head_length; unfold fde_aug; destruct (lsda_pointer f); rewrite ?length_app;
          unfold push_sized_value; rewrite ?le_bytes_length; lia); rewrite En in R4 |- * end.
  edestruct region_at as [-> _]; [..|exact R4|]; [done| |].
  { rewrite pad_body_app. unfold fde_body; cbn [rpos adv]. rewrite !length_app. lia. }
  rewrite adv_adv, pad_body_app. unfold fde_body; rewrite !length_app. do 2 f_equal. lia.
Qed.

(** ** The CIE *)

Lemma cstr_loop_at (letters : list Z) (fuel start : nat) (r : Reader) (pre l : list Z) :
  Forall (fun c => c <> 0) letters -> rpos r = (start + length pre)%nat ->
  drop start (rbytes r) = pre ++ letters ++ 0 :: l ->
  (length pre + length letters < 65)%nat -> (65 <= fuel + length pre)%nat ->
  reads r (letters ++ 0 :: l) ->
  cstr_loop fuel start r = DOk (pre ++ letters ++ [0], adv r (S (length letters))).
Proof.
  revert fuel r pre; induction letters as [|c letters IH]; intros fuel r pre Hz Hp Hd Hl Hf Hr;
    (destruct fuel as [|fuel]; [cbn in *; lia|]); cbn [cstr_loop app length] in *.
  - destruct (read_u8_at r 0 l Hr) as [-> _]; cbn [dbind Z.eqb rpos rbytes adv].
    unfold adv; rewrite Hd, Hp. replace (start + length pre + 1 - start)%nat with (length (pre ++ [0]))
      by (rewrite length_app; cbn; lia).
    rewrite (cons_middle 0 pre l), (app_assoc pre [0] l), take_app_length. done.
  - inversion_clear Hz as [|? ? Hc Hz'].
    destruct (read_u8_at r c _ Hr) as [-> R]; cbn [dbind].
    rewrite (proj2 (Z.eqb_neq c 0)) by done. cbn [rpos adv].
    rewrite (proj2 (Nat.ltb_ge _ _)) by lia.
    rewrite (IH fuel (adv r 1) (pre ++ [c])); [| done | | | | | exact R].
    + rewrite <- app_assoc, adv_adv. cbn. done.
    + cbn [rpos adv]; rewrite length_app; cbn; lia.
    + cbn [rbytes adv]; rewrite Hd, <- app_assoc; done.
    + rewrite length_app; cbn; lia.
    + rewrite length_app; cbn; lia.
Qed.

Lemma cstr_at (r : Reader) (letters l : list Z) :
  Forall (fun c => c <> 0) letters -> (length letters < 65)%nat ->
  reads r ((letters ++ [0]) ++ l) ->
  cstr_with_nul r = DOk (letters ++ [0], adv r (length (letters ++ [0]))) /\
  reads (adv r (length (letters ++ [0]))) l.
Proof.
  intros Hz Hl Hr. pose proof (reads_adv _ _ _ Hr) as Hr'. split; [|done].
  rewrite <- app_assoc in Hr. unfold cstr_with_nul.
  rewrite (cstr_loop_at letters 65 (rpos r) r [] l); cbn; try done; try lia.
  - rewrite length_app; cbn. do 3 f_equal. lia.
  - apply Hr.
Qed.

(** What the letters and the data of a well-formed CIE decode to. *)
Lemma decode_aug_at (c : DwarfCie) :
  wf_cie c -> 
  decode_aug (drop 1 (augmentation c)) (mkAug None None None None) (Reader_new (cie_aug_data c))
  = DOk (mkAug (Some (fde_pointer_encoding c)) (lsda_encoding c) (personality_encoding c)
           (personality_pointer c), mkReader (cie_aug_data c) (length (cie_aug_data c))).
Proof.
  intros Hwf. rewrite (wf_augmentation _ Hwf). pose proof (wf_personality _ Hwf) as Hp.
  pose proof (reads_new (cie_aug_data c)) as R.
  assert (Hf : fits (Reader_new (cie_aug_data c))).
  { unfold fits, cie_aug_data, u32_le; cbn [rbytes Reader_new]. rewrite !length_app.
    destruct (personality_encoding c), (lsda_encoding c); cbn; lia. }
  replace (mkReader (cie_aug_data c) (length (cie_aug_data c)))
    with (adv (Reader_new (cie_aug_data c)) (length (cie_aug_data c))) by done.
  revert R Hf. generalize (Reader_new (cie_aug_data c)). intros r R Hf.
  unfold aug_letters, cie_aug_data in *.
  destruct (personality_encoding c) as [pe|], (personality_pointer c) as [pp|]; try done;
    destruct (lsda_encoding c) as [le|]; cbn [app drop decode_aug Z.eqb Pos.eqb default] in *.
  - rd read_u8_at R R1. rd read_u32_at R1 R2. rewrite wrap_small by done.
    rd read_u8_at R2 R3. rd read_u8_at R3 R4. rewrite !adv_adv. unfold u32_le.
    do 3 f_equal.
  - rd read_u8_at R R1. rd read_u32_at R1 R2. rewrite wrap_small by done.
    rd read_u8_at R2 R3. rewrite !adv_adv. done.
  - rd read_u8_at R R1. rd read_u8_at R1 R2. rewrite !adv_adv. done.
  - rd read_u8_at R R1. rewrite ?adv_adv. done.
Qed.

Definition cie_body (c : DwarfCie) : list Z := cie_head c ++ cie_aug_data c ++ initial_instructions c.

Lemma cie_to_bytes_shape (c : DwarfCie) : cie_to_bytes c = prepend_length (pad_body (cie_body c)).
Proof. done. Qed.

Lemma aug_data_length (c : DwarfCie) : (length (cie_aug_data c) <= 7)%nat.
Proof.
  unfold cie_aug_data, u32_le. rewrite !length_app.
  destruct (personality_encoding c), (lsda_encoding c); cbn; lia.
Qed.

Definition cie_pc_size (c : DwarfCie) : nat := pointer_encoding_size (fde_pointer_encoding c).
Definition cie_lsda_size (c : DwarfCie) : nat :=
  match lsda_encoding c with Some enc => pointer_encoding_size enc | None => cie_pc_size c end.

Lemma decode_cie_at (r : Reader) (c : DwarfCie) (l : list Z) :
  fits r -> wf_cie c -> Z.of_nat (length (cie_to_bytes c)) < 2 ^ 32 ->
  reads r (cie_to_bytes c ++ l) ->
  decode_and_check_cie r c
    = DOk (cie_pc_size c, cie_lsda_size c, adv r (length (cie_to_bytes c))) /\
  reads (adv r (length (cie_to_bytes c))) l.
Proof.
  intros Hf Hwf Hlen Hr. pose proof (reads_adv _ _ _ Hr) as Hend. split; [|done]. clear Hend.
  rewrite cie_to_bytes_shape in Hr, Hlen |- *. rewrite prepend_length_length in Hlen |- *.
  unfold decode_and_check_cie.
  destruct (entry_header_at r _ l Hf Hr ltac:(lia) (pad_body_aligned _)) as [-> R]. cbn [dbind].
  rewrite pad_body_app in R. remember (padding (cie_body c)) as pad eqn:Epad.
  unfold cie_body, cie_head in R. rewrite (wf_augmentation _ Hwf) in R.
  change (122 :: aug_letters c ++ [0]) with ((122 :: aug_letters c) ++ [0]) in R.
  rewrite <- !app_assoc in R. rewrite (app_assoc (122 :: aug_letters c)) in R.
  rd read_u32_at R R1. rewrite check_eq_refl; cbn [dbind].
  change ([version c] ++ ?x) with (version c :: x) in R1. rd read_u8_at R1 R2. rewrite check_eq_refl; cbn [dbind].
  edestruct cstr_at as [-> R3]; [..|exact R2|].
  { unfold aug_letters. destruct (personality_encoding c), (lsda_encoding c); repeat first [lia|constructor]. }
  { unfold aug_letters. destruct (personality_encoding c), (lsda_encoding c); cbn; lia. }
  cbn [dbind]. rewrite <- (wf_augmentation _ Hwf : _ = (122 :: aug_letters c) ++ [0]) in R3 |- *.
  rewrite check_eq_refl; cbn [dbind].
  edestruct uleb128_at as [-> R4]; [apply (wf_code_align _ Hwf)|exact R3|]. cbn [dbind].
  rewrite check_eq_refl; cbn [dbind].
  edestruct sleb128_at as [-> R5]; [apply (wf_data_align _ Hwf)|exact R4|]. cbn [dbind].
  rewrite check_eq_refl; cbn [dbind].
  edestruct uleb128_at as [-> R6]; [apply (wf_return_reg _ Hwf)|exact R5|]. cbn [dbind].
  rewrite check_eq_refl; cbn [dbind].
  rewrite bool_decide_eq_true_2 by (by rewrite (wf_augmentation _ Hwf)). cbn [dguard negb dbind].
  pose proof (aug_data_length c) as Ha.
  edestruct uleb128_at as [-> R7]; [|exact R6|]; [split; lia|]. cbn [dbind].
  rd read_take_at R7 R8. rewrite decode_aug_at by done. cbn [dbind].
  unfold at_end at 1; cbn [rpos rbytes]. rewrite Nat.leb_refl. cbn [dguard negb dbind].
  cbn [aug_personality_enc aug_personality_ptr aug_lsda_enc aug_fde_enc].
  rewrite !check_eq_refl; cbn [dbind]. rewrite !adv_adv in R8 |- *. subst pad.
  edestruct region_at as [-> _]; [..|exact R8|]; [done| |].
  { rewrite pad_body_app. unfold cie_body, cie_head, u32_le; cbn [rpos adv].
    rewrite !length_app, !le_bytes_length. cbn [length]. lia. }
  cbn [dbind]. rewrite adv_adv, pad_body_app. unfold cie_pc_size, cie_lsda_size, cie_body, cie_head, u32_le.
  rewrite !length_app, !le_bytes_length. cbn [length]. do 3 f_equal. lia.
Qed.

(** ** The section *)

(** The FDEs of a section that starts at offset [start]. *)
Fixpoint fdes_bytes (pc_size lsda_size : nat) (fs : list DwarfFde) (start : nat) : list Z :=
  match fs with
  | [] => []
  | f :: fs =>
      let b := to_bytes_with_sizes f (wrap 32 (wrap 32 (Z.of_nat start) + 4)) pc_size lsda_size in
      b ++ fdes_bytes pc_size lsda_size fs (start + length b)
  end.

Lemma push_fdes_shape (pc_size lsda_size : nat) (fs : list DwarfFde) (data : list Z) :
  push_fdes pc_size lsda_size fs data = data ++ fdes_bytes pc_size lsda_size fs (length data).
Proof.
  revert data; induction fs as [|f fs IH]; intros data; cbn [fdes_bytes]; [by rewrite app_nil_r|].
  change (push_fdes _ _ (f :: fs) data) with (push_fdes pc_size lsda_size fs
    (data ++ to_bytes_with_sizes f (wrap 32 (wrap 32 (Z.of_nat (length data)) + 4)) pc_size lsda_size)).
  rewrite IH, length_app, <- app_assoc. done.
Qed.

Lemma fde_bytes_long (f : DwarfFde) (off : Z) (pc_size lsda_size : nat) :
  (8 <= length (to_bytes_with_sizes f off pc_size lsda_size))%nat.
Proof.
  rewrite to_bytes_with_sizes_shape, prepend_length_length, length_app. unfold fde_body.
  rewrite length_app, fde_head_length. lia.
Qed.

Lemma decode_fdes_at (pc_size lsda_size : nat) (fs : list DwarfFde) (r : Reader) (l : list Z) :
  ptr_size pc_size -> ptr_size lsda_size -> Forall (wf_fde pc_size lsda_size) fs ->
  Z.of_nat (length (rbytes r)) < 2 ^ 32 ->
  reads r (fdes_bytes pc_size lsda_size fs (rpos r) ++ l) ->
  decode_fdes fs pc_size lsda_size r
    = DOk (adv r (length (fdes_bytes pc_size lsda_size fs (rpos r)))) /\
  reads (adv r (length (fdes_bytes pc_size lsda_size fs (rpos r)))) l.
Proof.
  intros Hp Hl Hwf; revert r; induction Hwf as [|f fs Hf Hfs IH]; intros r Hlen Hr.
  { cbn in *. by rewrite adv_0. }
  cbn [fdes_bytes decode_fdes] in *.
  set (off := wrap 32 (wrap 32 (Z.of_nat (rpos r)) + 4)) in *.
  set (b := to_bytes_with_sizes f off pc_size lsda_size) in *.
  assert (Hb : (8 <= length b)%nat) by apply fde_bytes_long.
  pose proof (reads_length _ _ Hr) as Hlr. rewrite !length_app in Hlr.
  assert (Eo : off = Z.of_nat (rpos r) + 4).
  { unfold off. rewrite !wrap_small; unfold uword; rewrite ?wrap_small by (unfold uword; lia); lia. }
  rewrite <- app_assoc in Hr.
  destruct (decode_fde_at r f off pc_size lsda_size
              (fdes_bytes pc_size lsda_size fs (rpos r + length b) ++ l)) as [E R]; try done.
  - unfold fits; lia.
  - fold b; lia.
  - unfold uword; lia.
  - lia.
  - rewrite E; cbn [dbind]. fold b in R |- *.
    destruct (IH (adv r (length b))) as [-> R']; [done|exact R|].
    cbn [rpos adv] in R'. rewrite adv_adv in R' |- *. rewrite length_app. done.
Qed.

Lemma to_bytes_shape (s : DwarfCfiSection) :
  fdes s <> [] ->
  to_bytes s = cie_to_bytes (cie s)
               ++ fdes_bytes (section_pc_size s) (section_lsda_size s) (fdes s)
                    (length (cie_to_bytes (cie s))) ++ u32_le 0.
Proof.
  intros H; unfold to_bytes. rewrite push_fdes_shape, <- app_assoc. by destruct (fdes s).
Qed.

(** C26: Round trip of [__eh_frame] sections.  For every well-formed section (any
    of the emitter's augmentations, any alignment factors, any number of FDEs with
    or without LSDA pointers, any instruction bytes) the decode check accepts the
    bytes the emitter writes for it: no field differs, no length prefix, CIE
    pointer, padding or terminator is rejected, and the check does not overflow. *)
Theorem eh_frame_roundtrip (s : DwarfCfiSection) :
  wf_section s -> verify_eh_frame_roundtrip s (to_bytes s) = DOk tt.
Proof.
  intros (Hcie & Hfdes & Hlen). unfold verify_eh_frame_roundtrip.
  destruct (decide (fdes s = [])) as [E|E]; [unfold to_bytes; by rewrite E|].
  assert (Hm : forall A (x y : A), match fdes s with [] => x | _ => y end = y)
    by (intros; by destruct (fdes s)).
  rewrite Hm. rewrite to_bytes_shape in Hlen |- * by done.
  pose proof (reads_new (cie_to_bytes (cie s) ++ fdes_bytes (section_pc_size s) (section_lsda_size s)
                (fdes s) (length (cie_to_bytes (cie s))) ++ u32_le 0)) as R.
  set (bytes := cie_to_bytes (cie s) ++ _) in *.
  assert (Hf : fits (Reader_new bytes)) by (unfold fits; cbn [rbytes Reader_new]; lia).
  destruct (decode_cie_at (Reader_new bytes) (cie s) (fdes_bytes (section_pc_size s)
    (section_lsda_size s) (fdes s) (length (cie_to_bytes (cie s))) ++ u32_le 0) Hf Hcie)
    as [-> R1]; [|exact R|].
  { unfold bytes in Hlen; rewrite length_app in Hlen; lia. }
  cbn [dbind]. change (cie_pc_size (cie s)) with (section_pc_size s).
  change (cie_lsda_size (cie s)) with (section_lsda_size s).
  assert (Hls : ptr_size (section_lsda_size s))
    by (unfold section_lsda_size, section_pc_size; destruct (lsda_encoding _); apply pointer_encoding_size_ok).
  destruct (decode_fdes_at (section_pc_size s) (section_lsda_size s) (fdes s)
              (adv (Reader_new bytes) (length (cie_to_bytes (cie s)))) (u32_le 0)
              (pointer_encoding_size_ok _) Hls Hfdes Hlen R1) as [-> R2].
  cbn [dbind]. pose proof (reads_length _ _ R2) as Hl2. unfold u32_le in Hl2 at 1; rewrite le_bytes_length in Hl2.
  unfold remaining. rewrite Hl2. rewrite (proj2 (Nat.ltb_ge _ _)) by lia. cbn [dguard dbind].
  rewrite <- (app_nil_r (u32_le 0)) in R2.
  rd read_u32_at R2 R3.
  change (wrap 32 0 =? 0) with true. cbn [dguard negb dbind].
  unfold at_end. pose proof (reads_length _ _ R3) as Hl3. cbn [length] in Hl3.
  rewrite Hl3. rewrite (proj2 (Nat.leb_le _ _)) by lia. done.
Qed.

(** An AArch64 section with exception handling and two functions. *)
Definition demo_section : DwarfCfiSection :=
  mkSection aarch64_elf_with_eh
    [ mkFde 0 128 1 (def_cfa_offset 16) (Some (-4)); mkFde 4096 64 2 [] None ].

Lemma demo_section_wf : wf_section demo_section.
Proof.
  split; [|split].
  - constructor; try by vm_compute. all: vm_compute; split; congruence.
  - apply Forall_cons; split; [|apply Forall_cons; split; [|done]].
    all: constructor; [vm_compute; split; congruence..|]; intros p [= <-].
    vm_compute; split; congruence.
  - by vm_compute.
Qed.

Lemma eh_frame_roundtrip_witness : verify_eh_frame_roundtrip demo_section (to_bytes demo_section) = DOk tt.
Proof. apply (eh_frame_roundtrip demo_section), demo_section_wf. Defined.

(** ** The accepted bytes determine the records *)

(** Equal up to trailing [DW_CFA_nop]s. *)
Definition same_program (p q : list Z) : Prop :=
  exists j k, (j < 8)%nat /\ (k < 8)%nat /\ p ++ replicate j DW_CFA_NOP = q ++ replicate k DW_CFA_NOP.

Record same_cie (c d : DwarfCie) : Prop := {
  same_version : version c = version d;
  same_augmentation : augmentation c = augmentation d;
  same_code_align : code_alignment_factor c = code_alignment_factor d;
  same_data_align : data_alignment_factor c = data_alignment_factor d;
  same_return_reg : return_address_register c = return_address_register d;
  same_fde_enc : fde_pointer_encoding c = fde_pointer_encoding d;
  same_personality : personality_encoding c = personality_encoding d;
  same_personality_ptr : personality_pointer c = personality_pointer d;
  same_lsda_enc : lsda_encoding c = lsda_encoding d;
  same_initial : same_program (initial_instructions c) (initial_instructions d) }.

(** The symbol index is not part of the bytes. *)
Record same_fde (f g : DwarfFde) : Prop := {
  same_offset : function_offset f = function_offset g;
  same_length : function_length f = function_length g;
  same_lsda : lsda_pointer f = lsda_pointer g;
  same_instructions : same_program (instructions f) (instructions g) }.

Lemma check_eq_inv {A} `{EqDecision A} (f : Field) (x y : A) (u : unit) :
  check_eq f x y = DOk u -> x = y.
Proof. unfold check_eq; by case_decide. Qed.

Lemma dguard_inv (b : bool) (e : DecodeError) (u : unit) : dguard b e = DOk u -> b = false.
Proof. by destruct b. Qed.

Lemma dbind_inv {A B} (m : DRes A) (k : A -> DRes B) (b : B) :
  dbind m k = DOk b -> exists a, m = DOk a /\ k a = DOk b.
Proof. destruct m; cbn; eauto; done. Qed.

(** Invert one step of a successful decoder run. *)
Ltac dinv H :=
  lazymatch type of H with
  | dbind (check_eq _ _ _) _ = DOk _ =>
      let u := fresh in let E := fresh "E" in
      apply dbind_inv in H as (u & E & H); apply check_eq_inv in E; cbn beta in H
  | dbind (dguard _ _) _ = DOk _ =>
      let u := fresh in let E := fresh "E" in
      apply dbind_inv in H as (u & E & H); apply dguard_inv in E; cbn beta in H
  | dbind _ _ = DOk _ =>
      let a := fresh "a" in let E := fresh "E" in
      apply dbind_inv in H as (a & E & H); destruct_and? E; cbn beta iota in H
  end.

Lemma all_nops (l : list Z) : forallb (fun b => b =? DW_CFA_NOP) l = true ->
  l = replicate (length l) DW_CFA_NOP.
Proof.
  induction l as [|b l IH]; [done|]. cbn [forallb length]. rewrite andb_true_iff, Z.eqb_eq.
  intros [-> H]. cbn [replicate]; by f_equal; apply IH.
Qed.

Lemma check_region_inv (f : Field) (region intent : list Z) (u : unit) :
  check_instruction_region f region intent = DOk u ->
  exists k, (k < 8)%nat /\ region = intent ++ replicate k DW_CFA_NOP.
Proof.
  unfold check_instruction_region; intros H. repeat dinv H. apply dguard_inv in H.
  rewrite negb_false_iff in *. apply Nat.leb_gt in E1. apply bool_decide_eq_true in E0.
  exists (length (drop (length intent) region)); split; [done|].
  rewrite <- (take_drop (length intent) region) at 1. rewrite E0. f_equal. by apply all_nops.
Qed.

Lemma region_same (f : Field) (e : Z) (r r1 r2 : Reader) (p q : list Z) :
  decode_region f e r p = DOk r1 -> decode_region f e r q = DOk r2 -> r1 = r2 /\ same_program p q.
Proof.
  unfold decode_region; intros H1 H2.
  destruct (bytes_left e r); cbn [dbind] in *; try done.
  destruct (read_take r a) as [[region r']| |]; cbn [dbind] in *; try done.
  apply dbind_inv in H1 as (u1 & E1 & H1), H2 as (u2 & E2 & H2).
  apply check_region_inv in E1 as (j & Hj & Ej), E2 as (k & Hk & Ek).
  split; [congruence|]. exists j, k. split_and!; congruence.
Qed.

(** Run two successful decoders over a read they share. *)
Ltac dsync H1 H2 :=
  match type of H1 with
  | dbind ?m _ = DOk _ =>
      destruct m as [?a| |] eqn:?; cbn [dbind] in H1, H2; [|discriminate H1|discriminate H1];
      repeat match goal with p : _ * _ |- _ => destruct p end; cbn iota beta in H1, H2
  end.

Lemma decode_cie_same (r : Reader) (c d : DwarfCie) (x y : nat * nat * Reader) :
  decode_and_check_cie r c = DOk x -> decode_and_check_cie r d = DOk y -> x = y /\ same_cie c d.
Proof.
  unfold decode_and_check_cie; intros H1 H2.
  dsync H1 H2. dsync H1 H2. dinv H1; dinv H2. dsync H1 H2. dinv H1; dinv H2.
  dsync H1 H2. dinv H1; dinv H2. dsync H1 H2. dinv H1; dinv H2. dsync H1 H2. dinv H1; dinv H2.
  dsync H1 H2. dinv H1; dinv H2. dinv H1; dinv H2. dsync H1 H2. dsync H1 H2. dsync H1 H2.
  dinv H1; dinv H2. dinv H1; dinv H2. dinv H1; dinv H2. dinv H1; dinv H2.
  destruct (aug_fde_enc _) as [enc|]; [|done]. dinv H1; dinv H2.
  apply dbind_inv in H1 as (q1 & R1 & H1), H2 as (q2 & R2 & H2).
  destruct (region_same _ _ _ _ _ _ _ R1 R2) as [-> Hs].
  split; [congruence|]. constructor; congruence || done.
Qed.

Lemma swrap_uword_inj (w x y : Z) : 1 <= w -> uword w x -> uword w y -> swrap w x = swrap w y -> x = y.
Proof.
  intros Hw Hx Hy H. rewrite <- (wrap_small w x), <- (wrap_small w y) by done.
  by rewrite <- (wrap_swrap w x), <- (wrap_swrap w y), H.
Qed.

Lemma decode_fde_same (r : Reader) (f g : DwarfFde) (off : Z) (pc ls : nat) (x y : Reader) :
  uword 64 (function_offset f) -> uword 64 (function_offset g) -> ptr_size ls ->
  decode_and_check_fde r f off pc ls = DOk x -> decode_and_check_fde r g off pc ls = DOk y ->
  x = y /\ same_fde f g.
Proof.
  unfold decode_and_check_fde; intros Uf Ug Hls H1 H2.
  dsync H1 H2. dsync H1 H2. dinv H1; dinv H2. dinv H1; dinv H2.
  dsync H1 H2. dinv H1; dinv H2. dsync H1 H2. dinv H1; dinv H2.
  apply dbind_inv in H1 as (q1 & R1 & H1), H2 as (q2 & R2 & H2).
  assert (Ha : q1 = q2 /\ lsda_pointer f = lsda_pointer g).
  { unfold decode_fde_aug in R1, R2. dsync R1 R2.
    destruct (lsda_pointer f), (lsda_pointer g); dinv R1; dinv R2.
    - dsync R1 R2. dinv R1; dinv R2. split; congruence.
    - destruct Hls; lia.
    - destruct Hls; lia.
    - split; congruence. }
  destruct Ha as [-> Hl]. destruct (region_same _ _ _ _ _ _ _ H1 H2) as [-> Hs].
  split; [done|]. constructor; try congruence; try done.
  apply (swrap_uword_inj 64); [lia|done|done|congruence].
Qed.

(** After the last FDE the check has seen the terminator. *)
Definition ends_here (r : Reader) : Prop := exists r', read_u32_le r = DOk (0, r').

Lemma fde_not_terminator (r : Reader) (f : DwarfFde) (off : Z) (pc ls : nat) (x : Reader) :
  ends_here r -> decode_and_check_fde r f off pc ls <> DOk x.
Proof.
  intros [r' E] H. unfold decode_and_check_fde, entry_header in H. rewrite E in H. cbn [dbind] in H.
  dinv H. dinv E0. dinv E0. done.
Qed.

Lemma decode_fdes_same (fs gs : list DwarfFde) (pc ls : nat) (r x y : Reader) :
  Forall (fun f => uword 64 (function_offset f)) fs ->
  Forall (fun f => uword 64 (function_offset f)) gs -> ptr_size ls ->
  decode_fdes fs pc ls r = DOk x -> decode_fdes gs pc ls r = DOk y -> ends_here x -> ends_here y ->
  x = y /\ Forall2 same_fde fs gs.
Proof.
  intros Hf; revert gs r; induction Hf as [|f fs Uf Hf IH]; intros [|g gs] r Hg Hls H1 H2 Ex Ey;
    cbn [decode_fdes] in *.
  - split; [congruence|done].
  - injection H1 as <-. dinv H2. by apply fde_not_terminator in E.
  - injection H2 as <-. dinv H1. by apply fde_not_terminator in E.
  - inversion_clear Hg as [|? ? Ug Hg'].
    apply dbind_inv in H1 as (q1 & R1 & H1), H2 as (q2 & R2 & H2).
    destruct (decode_fde_same _ _ _ _ _ _ _ _ Uf Ug Hls R1 R2) as [-> Hs].
    destruct (IH gs q2) as [-> Hss]; auto.
Qed.

Lemma decode_cie_lsda_size (r r' : Reader) (c : DwarfCie) (pc ls : nat) :
  decode_and_check_cie r c = DOk (pc, ls, r') -> ptr_size ls.
Proof.
  unfold decode_and_check_cie; intros H.
  repeat (dinv H; repeat match goal with p : _ * _ |- _ => destruct p end; cbn iota beta in H).
  destruct (aug_fde_enc _) as [enc|]; [|done]. repeat dinv H. injection H as <- <- <-.
  destruct (aug_lsda_enc _); apply pointer_encoding_size_ok.
Qed.

(** The check after the FDEs. *)
Lemma terminator_inv (r : Reader) :
  (dguard (remaining r <? 4)%nat MissingTerminator ;;
   let? (term, r) := read_u32_le r in
   dguard (negb (term =? 0)) BadTerminator ;;
   dguard (negb (at_end r)) TrailingBytes) = DOk tt -> ends_here r.
Proof.
  intros H. dinv H. dinv H. destruct a as [term r']. dinv H.
  apply negb_false_iff, Z.eqb_eq in E1 as ->. by exists r'.
Qed.

(** C27: The bytes the decode check accepts determine the unwind table: if it
    accepts the same bytes for two sections, the sections have equal CIE fields and
    the same FDEs, field by field, up to the trailing [DW_CFA_nop] padding of the
    instruction programs (symbol indices are not part of the bytes).  So bytes
    that pass describe the intended section and no other. *)
Theorem eh_frame_check_determines (s t : DwarfCfiSection) (bytes : list Z) :
  Forall (fun f => uword 64 (function_offset f)) (fdes s) ->
  Forall (fun f => uword 64 (function_offset f)) (fdes t) ->
  verify_eh_frame_roundtrip s bytes = DOk tt -> verify_eh_frame_roundtrip t bytes = DOk tt ->
  bytes <> [] -> same_cie (cie s) (cie t) /\ Forall2 same_fde (fdes s) (fdes t).
Proof.
  intros Us Ut H1 H2 Hb. unfold verify_eh_frame_roundtrip in *.
  destruct (fdes s) as [|f fs]; [by destruct bytes|].
  destruct (fdes t) as [|g gs]; [by destruct bytes|].
  apply dbind_inv in H1 as ([[pc ls] r1] & C1 & H1), H2 as (y & C2 & H2).
  destruct (decode_cie_same _ _ _ _ _ C1 C2) as [<- Hc]. split; [done|].
  apply dbind_inv in H1 as (x1 & F1 & H1), H2 as (x2 & F2 & H2).
  apply terminator_inv in H1, H2. apply decode_cie_lsda_size in C1.
  by destruct (decode_fdes_same _ _ _ _ _ _ _ Us Ut C1 F1 F2 H1 H2).
Qed.

Lemma eh_frame_check_determines_witness :
  same_cie (cie demo_section) (cie demo_section) /\
  Forall2 same_fde (fdes demo_section) (fdes demo_section).
Proof.
  apply (eh_frame_check_determines demo_section demo_section (to_bytes demo_section)).
  - repeat (apply Forall_cons; split); [vm_compute; split; congruence..|done].
  - repeat (apply Forall_cons; split); [vm_compute; split; congruence..|done].
  - by vm_compute.
  - by vm_compute.
  - by vm_compute.
Defined.

(** ** The decode check on malformed bytes *)

(** A malformed length makes the checker's own arithmetic overflow: an
    augmentation length close to [2^64] overflows the cursor addition, and an entry
    length shorter than the entry's fields underflows [entry_end - pos]. *)
Example decode_check_overflows :
  let huge := u32_le 20 ++ u32_le 0 ++ [1; 122; 82; 0; 4; 120; 30]
              ++ encode_uleb128 (2 ^ 64 - 1) in
  let short := u32_le 4 ++ u32_le 0 ++ [1; 122; 82; 0; 4; 120; 30; 1; 16; 12; 31; 0] in
  let s := mkSection aarch64_darwin [mkFde 0 4 0 [] None] in
  verify_eh_frame_roundtrip s (huge ++ replicate 16 0) = DPanic /\
  verify_eh_frame_roundtrip s (short ++ replicate 16 0) = DPanic.
Proof. split; by vm_compute. Qed.

(** ** Relocation offsets *)

(** The FDEs of a section with the offsets they start at, on unbounded integers. *)
Fixpoint starts (pc_size lsda_size : nat) (fs : list DwarfFde) (start : nat) : list (Z * DwarfFde) :=
  match fs with
  | [] => []
  | f :: fs =>
      let b := to_bytes_with_sizes f (wrap 32 (wrap 32 (Z.of_nat start) + 4)) pc_size lsda_size in
      (Z.of_nat start, f) :: starts pc_size lsda_size fs (start + length b)
  end.

(** The loop of the relocation tables, from any accumulator. *)
Definition start_step (pc_size lsda_size : nat) '(acc, fde_start) (f : DwarfFde)
    : list (Z * DwarfFde) * Z :=
  let cie_offset := wrap 32 (fde_start + 4) in
  (acc ++ [(fde_start, f)],
   wrap 32 (fde_start
     + wrap 32 (Z.of_nat (length (to_bytes_with_sizes f cie_offset pc_size lsda_size))))).

Lemma starts_fold (pc_size lsda_size : nat) (fs : list DwarfFde) (acc : list (Z * DwarfFde))
    (start : nat) :
  Z.of_nat (start + length (fdes_bytes pc_size lsda_size fs start)) < 2 ^ 32 ->
  (fold_left (start_step pc_size lsda_size) fs (acc, Z.of_nat start)).1
  = acc ++ starts pc_size lsda_size fs start.
Proof.
  revert acc start; induction fs as [|f fs IH]; intros acc start H; cbn [fold_left starts fdes_bytes] in *;
    [by rewrite app_nil_r|].
  rewrite (wrap_small 32 (Z.of_nat start)) in H |- * by (unfold uword; lia).
  set (b := to_bytes_with_sizes f (wrap 32 (Z.of_nat start + 4)) pc_size lsda_size) in *.
  rewrite length_app in H. unfold start_step at 2. fold b.
  rewrite (wrap_small 32 (Z.of_nat (length b))) by (unfold uword; lia).
  rewrite (wrap_small 32 (Z.of_nat start + Z.of_nat (length b))) by (unfold uword; lia).
  rewrite <- Nat2Z.inj_add, IH, <- app_assoc by lia. done.
Qed.

Lemma fde_starts_exact (s : DwarfCfiSection) :
  fdes s <> [] -> Z.of_nat (length (to_bytes s)) < 2 ^ 32 ->
  fde_starts s = starts (section_pc_size s) (section_lsda_size s) (fdes s)
                   (length (cie_to_bytes (cie s))).
Proof.
  intros Hne H. rewrite to_bytes_shape, !length_app in H by done.
  unfold fde_starts. rewrite (wrap_small 32) by (unfold uword; lia).
  rewrite <- (app_nil_l (starts _ _ _ _)). apply starts_fold. lia.
Qed.

Lemma starts_split (pc_size lsda_size : nat) (fs : list DwarfFde) (start i : nat) (st : Z)
    (f : DwarfFde) :
  starts pc_size lsda_size fs start !! i = Some (st, f) ->
  exists pre off post,
    fdes_bytes pc_size lsda_size fs start = pre ++ to_bytes_with_sizes f off pc_size lsda_size ++ post /\
    st = Z.of_nat (start + length pre).
Proof.
  revert start i; induction fs as [|g fs IH]; intros start i H; [done|]. cbn [starts fdes_bytes] in *.
  destruct i as [|i]; cbn [lookup list_lookup] in H.
  - injection H as <- <-. eexists [], _, _. split; [reflexivity|]. cbn [length]; lia.
  - destruct (IH _ _ H) as (pre & off & post & -> & ->). rewrite app_assoc.
    eexists _, _, _; split; [reflexivity|]. rewrite length_app; lia.
Qed.

Lemma starts_fdes (pc_size lsda_size : nat) (fs : list DwarfFde) (start : nat) :
  map snd (starts pc_size lsda_size fs start) = fs.
Proof.
  revert start; induction fs as [|f fs IH]; intros start; cbn [starts map snd]; [done|by rewrite IH].
Qed.

(** The [n] bytes at offset [off]. *)
Definition field (bytes : list Z) (off : Z) (n : nat) : list Z := take n (drop (Z.to_nat off) bytes).

Lemma field_at (pre l post : list Z) (off : Z) (n : nat) :
  off = Z.of_nat (length pre) -> n = length l -> field (pre ++ l ++ post) off n = l.
Proof.
  intros -> ->. unfold field. by rewrite Nat2Z.id, drop_app_length, take_app_length.
Qed.

(** Where the fields of an FDE are. *)
Lemma fde_fields (pre post : list Z) (f : DwarfFde) (off : Z) (pc ls : nat) (lsda : Z) :
  ptr_size ls ->
  let bytes := pre ++ to_bytes_with_sizes f off pc ls ++ post in
  let st := Z.of_nat (length pre) in
  field bytes (st + 8) pc = push_sized_value (swrap 64 (function_offset f)) pc /\
  (lsda_pointer f = Some lsda ->
   field bytes (st + 8 + Z.of_nat pc * 2 + 1) ls = push_sized_value lsda ls).
Proof.
  intros Hls bytes st. unfold bytes, st; rewrite to_bytes_with_sizes_shape.
  generalize (padding (fde_body f off pc ls)); intros pad.
  unfold prepend_length, fde_body, fde_head. set (n := u32_le (Z.of_nat (length _))).
  rewrite <- !app_assoc. split.
  - rewrite !(app_assoc pre), (app_assoc (pre ++ n)). apply field_at.
    + rewrite !length_app. unfold n, u32_le; rewrite !le_bytes_length. lia.
    + unfold push_sized_value; by rewrite le_bytes_length.
  - unfold fde_aug; intros ->. rewrite <- !app_assoc.
    rewrite !(app_assoc pre), !(app_assoc (pre ++ _)), !(app_assoc ((pre ++ _) ++ _)).
    rewrite !(app_assoc (((pre ++ _) ++ _) ++ _)), !(app_assoc ((((pre ++ _) ++ _) ++ _) ++ _)).
    apply field_at.
    + rewrite !length_app. unfold n, u32_le, push_sized_value; rewrite !le_bytes_length.
      replace (length (encode_uleb128 (Z.of_nat ls))) with 1%nat by (destruct Hls as [->| ->]; done). lia.
    + unfold push_sized_value; by rewrite le_bytes_length.
Qed.

Lemma omap_lookup {A B} (g : A -> option B) (l : list A) (i : nat) (x : A) (y : B) :
  l !! i = Some x -> g x = Some y -> omap g l !! length (omap g (take i l)) = Some y.
Proof.
  intros Hi Hg. assert (E : omap g l = omap g (take i l) ++ omap g (x :: drop (S i) l))
    by (by rewrite <- omap_app, take_drop_middle).
  rewrite E, lookup_app_r, Nat.sub_diag by lia. cbn. by rewrite Hg.
Qed.

Lemma omap_length_snd {A B C} (g : A * B -> option C) (h : B -> option Z) (l : list (A * B)) :
  (forall x, is_Some (g x) <-> is_Some (h x.2)) ->
  length (omap g l) = length (omap h (map snd l)).
Proof.
  intros H. induction l as [|x l IH]; [done|]. cbn. specialize (H x).
  destruct (g x), (h x.2); cbn; rewrite ?IH; try done.
  - destruct H as [H _]; destruct H as [? ?]; [eauto|done].
  - destruct H as [_ H]; destruct H as [? ?]; [eauto|done].
Qed.

(** A section's bytes around one of its FDEs. *)
Lemma section_split (s : DwarfCfiSection) (i : nat) (f : DwarfFde) :
  Z.of_nat (length (to_bytes s)) < 2 ^ 32 -> fdes s !! i = Some f ->
  exists st pre off post,
    fde_starts s !! i = Some (st, f) /\ st = Z.of_nat (length pre) /\
    to_bytes s = pre ++ to_bytes_with_sizes f off (section_pc_size s) (section_lsda_size s) ++ post.
Proof.
  intros Hlen Hi. assert (Hne : fdes s <> []) by (intros E; by rewrite E in Hi).
  rewrite (fde_starts_exact s Hne Hlen). rewrite (to_bytes_shape s Hne).
  set (pc := section_pc_size s). set (ls := section_lsda_size s). set (n := length (cie_to_bytes (cie s))).
  destruct (starts pc ls (fdes s) n !! i) as [[st g]|] eqn:E.
  - assert (g = f) as ->.
    { pose proof (starts_fdes pc ls (fdes s) n) as Hs. apply (f_equal (fun l => l !! i)) in Hs.
      rewrite list_lookup_fmap, E, Hi in Hs. by injection Hs. }
    destruct (starts_split _ _ _ _ _ _ _ E) as (pre & off & post & -> & ->).
    eexists _, (cie_to_bytes (cie s) ++ pre), off, (post ++ u32_le 0).
    split_and!; [done|rewrite length_app; unfold n; lia|by rewrite <- !app_assoc].
  - apply lookup_ge_None in E. apply lookup_lt_Some in Hi.
    rewrite <- (length_map snd), starts_fdes in E. lia.
Qed.

(** Where the personality pointer of a CIE is. *)
Lemma personality_field (c : DwarfCie) (e p : Z) (post : list Z) :
  personality_encoding c = Some e -> personality_pointer c = Some p ->
  field (cie_to_bytes c ++ post) (4 + Z.of_nat (length (cie_head c)) + 1) 4 = u32_le p /\
  (4 + length (cie_head c) + 1 <= length (cie_to_bytes c))%nat.
Proof.
  intros He Hp. rewrite cie_to_bytes_shape, pad_body_app. generalize (padding (cie_body c)); intros pad.
  unfold prepend_length, cie_body, cie_aug_data. rewrite He, Hp. cbn [default app].
  set (n := u32_le (Z.of_nat _)). split.
  - rewrite <- !app_assoc. cbn [app]. change (e :: ?x) with ([e] ++ x).
    rewrite <- !app_assoc, (app_assoc (cie_head c) [e]), (app_assoc n).
    apply field_at; [|unfold u32_le; by rewrite le_bytes_length].
    rewrite !length_app. unfold n, u32_le; rewrite le_bytes_length. cbn [length]. lia.
  - rewrite !length_app. unfold n, u32_le; rewrite !le_bytes_length. cbn [length]. lia.
Qed.

Lemma fde_bytes_head (f : DwarfFde) (off : Z) (pc_size lsda_size : nat) :
  (4 + length (fde_head f off pc_size lsda_size)
   <= length (to_bytes_with_sizes f off pc_size lsda_size))%nat.
Proof.
  rewrite to_bytes_with_sizes_shape, prepend_length_length, length_app. unfold fde_body.
  rewrite length_app. lia.
Qed.

(** The relocation tables point at the fields they are for.  In the bytes of a
    well-formed section, the [i]-th PC-begin offset is where the [i]-th FDE's
    function offset is stored, the LSDA offsets are where the LSDA pointers of the
    FDEs that have one are stored, in order, and the personality offset is where
    the CIE's personality pointer is stored. *)
Theorem relocation_offsets_exact (s : DwarfCfiSection) (i : nat) (f : DwarfFde) :
  wf_section s -> fdes s !! i = Some f ->
  (exists off, fde_pc_begin_relocation_offsets s !! i = Some off /\
     field (to_bytes s) off (section_pc_size s)
     = push_sized_value (swrap 64 (function_offset f)) (section_pc_size s)) /\
  (forall p, lsda_pointer f = Some p ->
     exists off,
       fde_lsda_relocation_offsets s !! length (omap lsda_pointer (take i (fdes s))) = Some off /\
       field (to_bytes s) off (section_lsda_size s) = push_sized_value p (section_lsda_size s)) /\
  (forall e p, personality_encoding (cie s) = Some e -> personality_pointer (cie s) = Some p ->
     exists off, cie_personality_relocation_offset s = Some off /\
                 field (to_bytes s) off 4 = u32_le p).
Proof.
  intros (Hcie & _ & Hlen) Hi. assert (Hne : fdes s <> []) by (intros E; by rewrite E in Hi).
  assert (Hls : ptr_size (section_lsda_size s))
    by (unfold section_lsda_size, section_pc_size; destruct (lsda_encoding _); apply pointer_encoding_size_ok).
  destruct (section_split s i f Hlen Hi) as (st & pre & off & post & Hst & Est & Eb).
  assert (Hm : forall A (x y : A), match fdes s with [] => x | _ => y end = y)
    by (intros; by destruct (fdes s)).
  pose proof (fde_bytes_head f off (section_pc_size s) (section_lsda_size s)) as Hlb.
  rewrite fde_head_length in Hlb. pose proof Hlen as Hlen0. rewrite Eb, !length_app in Hlen.
  split_and!.
  - exists (wrap 32 (st + 8)). unfold fde_pc_begin_relocation_offsets; rewrite Hm.
    rewrite list_lookup_fmap, Hst. split; [done|].
    rewrite Eb, Est, wrap_small by (unfold uword; lia). by apply (fde_fields pre post f off _ _ 0).
  - intros p Hp. rewrite Hp in Hlb. pose proof (uleb_nonempty (Z.of_nat (section_lsda_size s))).
    exists (wrap 32 (st + 8 + Z.of_nat (section_pc_size s) * 2 + 1)).
    unfold fde_lsda_relocation_offsets; rewrite Hm. split.
    + pose proof (starts_fdes (section_pc_size s) (section_lsda_size s) (fdes s)
        (length (cie_to_bytes (cie s)))) as Hsnd.
      rewrite <- fde_starts_exact in Hsnd by (done || (rewrite Eb, !length_app; lia)).
      rewrite <- Hsnd at 1. rewrite <- firstn_map || rewrite <- fmap_take.
      erewrite <- omap_length_snd; [eapply omap_lookup; [exact Hst|cbn; by rewrite Hp]|].
      intros [st' g]; cbn. by destruct (lsda_pointer g).
    + rewrite Eb, Est, wrap_small by (unfold uword; lia). by apply (fde_fields pre post f off).
  - intros e p He Hp. exists (wrap 32 (4 + wrap 32 (Z.of_nat (length (cie_head (cie s)))) + 1)).
    unfold cie_personality_relocation_offset; rewrite He. split; [done|].
    rewrite (to_bytes_shape s Hne) in Hlen0 |- *. rewrite !length_app in Hlen0.
    destruct (personality_field (cie s) e p (fdes_bytes (section_pc_size s) (section_lsda_size s)
      (fdes s) (length (cie_to_bytes (cie s))) ++ u32_le 0) He Hp) as [Hf Hb].
    rewrite (wrap_small 32 (Z.of_nat (length (cie_head (cie s))))) by (unfold uword; lia).
    rewrite wrap_small by (unfold uword; lia). exact Hf.
Qed.

Lemma relocation_offsets_exact_witness :
  exists off, fde_lsda_relocation_offsets demo_section !! 0%nat = Some off /\
              field (to_bytes demo_section) off 4 = push_sized_value (-4) 4.
Proof.
  exact (proj1 (proj2 (relocation_offsets_exact demo_section 0
    (mkFde 0 128 1 (def_cfa_offset 16) (Some (-4))) demo_section_wf eq_refl)) (-4) eq_refl).
Defined.
