(* ===== verification/Unwind.v ===== *)
(** * Unwinding through AArch64 prologues
      ([crates/trust-cg-codegen/src/frame.rs],
       [crates/trust-cg-codegen/src/dwarf_cfi.rs])

    The meaning of call frame instructions (DWARF section 6.4), and the proof that
    what [DwarfFde::from_layout] describes is what [emit_prologue] does. *)

From S2P Require Import Prelude Regs Frame FrameSlots FrameExec Dwarf DwarfCheck.
Local Open Scope Z_scope.

(** ** Call frame instructions *)

(** A row of the unwind table: the CFA as register and offset, and for each saved
    register the offset from the CFA it is stored at. *)
Record Row := mkRow { row_cfa : Z * Z; row_rule : Z -> option Z }.

Definition set_rule (row : Row) (r off : Z) : Row :=
  mkRow (row_cfa row) (fun q => if q =? r then Some off else row_rule row q).

Definition set_cfa (row : Row) (r off : Z) : Row := mkRow (r, off) (row_rule row).

Definition read_uleb (l : list Z) : option (Z * list Z) :=
  match uleb128 (Reader_new l) with
  | DOk (v, r) => Some (v, drop (rpos r) l)
  | _ => None
  end.

(** The row in force at offset [target], from the row [row] in force at [loc]:
    instructions are executed until the location passes [target].  [None] is a
    malformed or unsupported program. *)
Fixpoint cfi_run (fuel : nat) (code_align data_align target loc : Z) (l : list Z) (row : Row)
    : option Row :=
  match fuel, l with
  | O, _ => None
  | S _, [] => Some row
  | S fuel, b :: l =>
      let continue := cfi_run fuel code_align data_align target in
      let advance delta l :=
        let loc' := loc + delta * code_align in
        if target <? loc' then Some row else continue loc' l row in
      if Z.shiftr b 6 =? 1 then advance (Z.land b 0x3F) l
      else if Z.shiftr b 6 =? 2 then
        match read_uleb l with
        | Some (f, l) => continue loc l (set_rule row (Z.land b 0x3F) (f * data_align))
        | None => None
        end
      else if b =? 0x00 then continue loc l row
      else if b =? 0x02 then
        match l with d :: l => advance d l | _ => None end
      else if b =? 0x03 then
        match l with d0 :: d1 :: l => advance (d0 + 256 * d1) l | _ => None end
      else if b =? 0x0C then
        match read_uleb l with
        | Some (r, l) =>
            match read_uleb l with
            | Some (off, l) => continue loc l (set_cfa row r off)
            | None => None
            end
        | None => None
        end
      else if b =? 0x0E then
        match read_uleb l with
        | Some (off, l) => continue loc l (set_cfa row (row_cfa row).1 off)
        | None => None
        end
      else None
  end.

(** The row a CIE and an FDE give for the offset [target] into the function: the
    initial instructions set it up, the FDE's program changes it. *)
Definition unwind_row (c : DwarfCie) (f : DwarfFde) (target : Z) : option Row :=
  let run := fun l row => cfi_run (S (length l)) (code_alignment_factor c)
                            (data_alignment_factor c) target 0 l row in
  match run (initial_instructions c) (mkRow (0, 0) (fun _ => None)) with
  | Some row => run (instructions f) row
  | None => None
  end.

(** ** Structured programs *)

Inductive CfaOp := DefCfa (r off : Z) | DefCfaOffset (off : Z) | SaveAt (r f : Z).

Definition enc_op (o : CfaOp) : list Z :=
  match o with
  | DefCfa r off => def_cfa r off
  | DefCfaOffset off => def_cfa_offset off
  | SaveAt r f => cfa_offset r f
  end.

Definition op_ok (o : CfaOp) : Prop :=
  match o with
  | DefCfa r off => uword 64 r /\ uword 64 off
  | DefCfaOffset off => uword 64 off
  | SaveAt r f => 0 <= r < 64 /\ uword 64 f
  end.

Definition apply_op (row : Row) (o : CfaOp) : Row :=
  match o with
  | DefCfa r off => set_cfa row r off
  | DefCfaOffset off => set_cfa row (row_cfa row).1 off
  | SaveAt r f => set_rule row r (f * DATA_ALIGN_FACTOR)
  end.

Definition apply_ops (row : Row) (ops : list CfaOp) : Row := fold_left apply_op ops row.

(** A chunk: the location advances by one instruction, then the rules change. *)
Definition enc_chunk (ops : list CfaOp) : list Z :=
  encode_advance_loc 1 ++ concat (map enc_op ops).

Lemma read_uleb_enc (v : Z) (l : list Z) :
  uword 64 v -> read_uleb (encode_uleb128 v ++ l) = Some (v, l).
Proof.
  intros Hv. unfold read_uleb. destruct (uleb128_at _ v l Hv (reads_new _)) as [-> _].
  cbn [rpos adv Reader_new Nat.add]. by rewrite drop_app_length.
Qed.

Lemma offset_byte (r : Z) :
  0 <= r < 64 ->
  let b := Z.lor DW_CFA_OFFSET (Z.land (wrap 8 r) 0x3F) in Z.shiftr b 6 = 2 /\ Z.land b 0x3F = r.
Proof.
  intros Hr. assert (H : forallb (fun r => let b := Z.lor DW_CFA_OFFSET (Z.land (wrap 8 r) 0x3F) in
    (Z.shiftr b 6 =? 2) && (Z.land b 0x3F =? r)) (seqZ 0 64) = true) by by vm_compute.
  rewrite forallb_forall in H. specialize (H r). rewrite andb_true_iff, !Z.eqb_eq in H.
  apply H, list_elem_of_In, elem_of_seqZ; lia.
Qed.

(** Running an encoded instruction applies it. *)
Lemma cfi_run_op (fuel : nat) (ca target loc : Z) (o : CfaOp) (l : list Z) (row : Row) :
  op_ok o ->
  cfi_run (S fuel) ca DATA_ALIGN_FACTOR target loc (enc_op o ++ l) row
  = cfi_run fuel ca DATA_ALIGN_FACTOR target loc l (apply_op row o).
Proof.
  destruct o as [r off|off|r f]; intros Hok; cbn [enc_op op_ok apply_op] in *.
  - pose proof (read_uleb_enc r (encode_uleb128 off ++ l) ltac:(tauto)) as E1.
    pose proof (read_uleb_enc off l ltac:(tauto)) as E2. unfold def_cfa. rewrite app_comm_cons, <- app_assoc.
    destruct (encode_uleb128 r ++ encode_uleb128 off ++ l) as [|x t] eqn:Et; [done|].
    generalize dependent (encode_uleb128 r); intros.
    cbn [app cfi_run]. rewrite Et. change (Z.shiftr DW_CFA_DEF_CFA 6) with 0.
    cbn [Z.eqb Pos.eqb]. by rewrite E1, E2.
  - pose proof (read_uleb_enc off l ltac:(tauto)) as E2. unfold def_cfa_offset. cbn [app].
    generalize dependent (encode_uleb128 off ++ l); intros t E2. cbn [cfi_run].
    change (Z.shiftr DW_CFA_DEF_CFA_OFFSET 6) with 0. cbn [Z.eqb Pos.eqb].
    by rewrite E2.
  - unfold cfa_offset. cbn [app cfi_run]. destruct (offset_byte r ltac:(tauto)) as [-> ->].
    rewrite read_uleb_enc by tauto. done.
Qed.

Lemma cfi_run_ops (ops : list CfaOp) (fuel : nat) (ca target loc : Z) (l : list Z) (row : Row) :
  Forall op_ok ops ->
  cfi_run (length ops + fuel) ca DATA_ALIGN_FACTOR target loc (concat (map enc_op ops) ++ l) row
  = cfi_run fuel ca DATA_ALIGN_FACTOR target loc l (apply_ops row ops).
Proof.
  intros H; revert row; induction H as [|o ops Ho Hops IH]; intros row; [done|].
  cbn [length map concat Nat.add]. rewrite <- app_assoc, cfi_run_op by done. apply IH.
Qed.

Definition chunk_fuel (chunks : list (list CfaOp)) : nat :=
  length chunks + length (concat chunks).

Lemma cfi_run_chunks (chunks : list (list CfaOp)) (fuel k : nat) (loc : Z) (row : Row) :
  Forall (Forall op_ok) chunks -> (chunk_fuel chunks < fuel)%nat ->
  cfi_run fuel 4 DATA_ALIGN_FACTOR (loc + 4 * Z.of_nat k) loc (concat (map enc_chunk chunks)) row
  = Some (fold_left apply_ops (take k chunks) row).
Proof.
  intros H; revert fuel k loc row; induction H as [|ops chunks Hops Hchunks IH]; intros fuel k loc row Hf.
  { destruct fuel; [lia|]. by destruct k. }
  unfold chunk_fuel in *; cbn [length concat map] in *. rewrite length_app in Hf.
  destruct fuel as [|fuel]; [lia|]. unfold enc_chunk at 1. rewrite <- app_assoc.
  change (encode_advance_loc 1) with [65]. cbn [app cfi_run].
  change (Z.shiftr 65 6 =? 1) with true. cbn iota. change (Z.land 65 63 * 4) with 4.
  destruct k as [|k].
  - rewrite (proj2 (Z.ltb_lt _ _)) by lia. done.
  - rewrite (proj2 (Z.ltb_ge _ _)) by lia.
    replace fuel with (length ops + (fuel - length ops))%nat by lia.
    rewrite cfi_run_ops by done.
    replace (loc + 4 * Z.of_nat (S k)) with (loc + 4 + 4 * Z.of_nat k) by lia.
    rewrite IH by lia. done.
Qed.

(** An encoded program is at least as long as its instructions. *)
Lemma enc_op_nonempty (o : CfaOp) : (1 <= length (enc_op o))%nat.
Proof. destruct o; cbn [enc_op]; unfold def_cfa, def_cfa_offset, cfa_offset; cbn [length]; lia. Qed.

Lemma enc_ops_length (ops : list CfaOp) : (length ops <= length (concat (map enc_op ops)))%nat.
Proof.
  induction ops as [|o ops IH]; [done|]. cbn [map concat length]. rewrite length_app.
  pose proof (enc_op_nonempty o); lia.
Qed.

Lemma chunk_fuel_length (chunks : list (list CfaOp)) :
  (chunk_fuel chunks <= length (concat (map enc_chunk chunks)))%nat.
Proof.
  unfold chunk_fuel; induction chunks as [|ops chunks IH]; [done|]. cbn [map concat length].
  rewrite !length_app. unfold enc_chunk at 1. rewrite length_app. pose proof (enc_ops_length ops).
  change (length (encode_advance_loc 1)) with 1%nat. lia.
Qed.

(** ** The program of a layout *)

Definition pair_ops (pairs : list CalleeSavedPair) (i : nat) : list CfaOp :=
  let p := pairs !!! i in
  [ SaveAt (preg_to_dwarf (reg2 p) (is_fpr p)) (factored (16 * (Z.of_nat i + 1)));
    SaveAt (preg_to_dwarf (reg1 p) (is_fpr p)) (factored (16 * Z.of_nat i + 8)) ].

Definition record_ops : list CfaOp := [SaveAt FP_REGISTER (factored 16); SaveAt RA_REGISTER (factored 8)].

(** What the first save describes: the area it allocates and the pair it stores. *)
Definition layout_chunks (layout : FrameLayout) (n : nat) : list (list CfaOp) :=
  let pairs := callee_saved_pairs layout in
  let saves := map (pair_ops pairs) (rev (seq 1 n)) ++ [record_ops] in
  match saves with
  | first :: rest =>
      ((DefCfaOffset (callee_saved_area_size layout) :: first) :: rest) ++ [[DefCfa FP_REGISTER 16]]
  | [] => []
  end.

Lemma describe_pair_ops (pairs : list CalleeSavedPair) (i : nat) :
  describe_pair pairs i = concat (map enc_op (pair_ops pairs i)).
Proof. unfold describe_pair, pair_ops. cbn [map concat enc_op]. by rewrite app_nil_r. Qed.

Lemma describe_fp_lr_ops : describe_fp_lr = concat (map enc_op record_ops).
Proof. unfold describe_fp_lr, record_ops. cbn [map concat enc_op]. by rewrite app_nil_r. Qed.

Lemma from_layout_chunks (layout : FrameLayout) (n : nat) :
  length (callee_saved_pairs layout) = S n -> uses_frame_pointer layout = true ->
  from_layout_instructions layout = concat (map enc_chunk (layout_chunks layout n)).
Proof.
  intros Hn Hfp. unfold from_layout_instructions. rewrite Hn, Hfp.
  set (pairs := callee_saved_pairs layout).
  assert (Elast : concat (map enc_chunk [[DefCfa FP_REGISTER 16]])
                  = encode_advance_loc 1 ++ def_cfa FP_REGISTER 16).
  { unfold enc_chunk. cbn [map concat enc_op]. by rewrite !app_nil_r. }
  destruct n as [|k].
  - unfold layout_chunks. cbn [seq rev map app]. rewrite <- Elast. cbn [map concat]. rewrite app_nil_r.
    unfold enc_chunk at 2. cbn [map concat enc_op]. rewrite <- !app_assoc.
    by rewrite describe_fp_lr_ops.
  - assert (Er : rev (seq 1 (S k)) = S k :: rev (seq 1 k)) by (by rewrite seq_S, rev_app_distr).
    assert (Ec : layout_chunks layout (S k)
      = [DefCfaOffset (callee_saved_area_size layout) :: pair_ops pairs (S k)]
        ++ map (pair_ops pairs) (rev (seq 1 k)) ++ [record_ops] ++ [[DefCfa FP_REGISTER 16]]).
    { unfold layout_chunks. rewrite Er. cbn [map app]. by rewrite <- app_assoc. }
    rewrite Ec, !map_app, !concat_app, map_map, Elast. unfold enc_chunk. cbn [map concat enc_op].
    rewrite !app_nil_r, <- describe_pair_ops, <- describe_fp_lr_ops, <- !app_assoc.
    do 4 f_equal. f_equal. apply map_ext; intros i. by rewrite describe_pair_ops.
Qed.

(** ** Lockstep of the prologue and its description *)

(** The row lets an unwinder recover the caller's frame from the state [m]: the CFA
    is the caller's stack pointer, every register with a rule is stored where the
    rule says, and every other preserved register still has its value. *)
Definition unwinds (row : Row) (m0 m : Machine) : Prop :=
  wrap 64 (reg m (row_cfa row).1 + (row_cfa row).2) = reg m0 31 /\
  (forall r off, row_rule row r = Some off -> mem m (reg m0 31 + off) = reg m0 r) /\
  (forall r, preserved r = true -> row_rule row r = None -> reg m r = reg m0 r).

(** The row the CIE sets up. *)
Definition entry_row : Row := mkRow (SP_REGISTER, 0) (fun _ => None).

Section Lockstep.
Context (layout : FrameLayout) (extras : list CalleeSavedPair) (m0 : Machine).
Context (Hpairs : callee_saved_pairs layout = frame_record :: extras).
Context (Hextras : forall p, p ∈ extras -> pair_ok p = true).
Context (Hgpr : forall p, p ∈ extras -> is_fpr p = false /\ (storage p).1 < 31 /\ (storage p).2 < 31).
Context (Hlen : (length extras <= 9)%nat).
Context (Hcsa : callee_saved_area_size layout = 16 * (Z.of_nat (length extras) + 1)).
Context (Hal : reg m0 31 mod 16 = 0).
Context (Hsp0 : callee_saved_area_size layout <= reg m0 31 < 2 ^ 64).

Let n := length extras.
Let sp0 := reg m0 31.
Let csa := callee_saved_area_size layout.

Definition slot_off (i : nat) : Z := - (16 * (Z.of_nat i + 1)).

(** The store of pair [i] and what describes it. *)
Definition save_inst (i : nat) : MachInst :=
  if (i =? 0)%nat then save_record layout extras else prologue_save layout n i.

Definition save_ops (i : nat) : list CfaOp :=
  if (i =? 0)%nat then record_ops else pair_ops (callee_saved_pairs layout) i.

Lemma save_ops_cells (i : nat) :
  (i <= n)%nat ->
  save_ops i = [ SaveAt (cell_regs layout i).1 (factored (- slot_off i));
                 SaveAt (cell_regs layout i).2 (factored (- slot_off i - 8)) ].
Proof.
  intros Hi; unfold save_ops, cell_regs. destruct (Nat.eqb_spec i 0) as [->|Hne]; [done|].
  destruct i as [|i]; [done|]. unfold pair_ops, storage, storage_regs_for_callee_saved_pair.
  assert (Hf : is_fpr (callee_saved_pairs layout !!! S i) = false).
  { rewrite Hpairs. apply Hgpr. change ((frame_record :: extras) !!! S i) with (extras !!! i).
    apply list_elem_of_lookup_total_2; unfold n in Hi; lia. }
  rewrite Hf. cbn [fst snd preg_to_dwarf].
  replace (- slot_off (S i)) with (16 * (Z.of_nat (S i) + 1)) by (unfold slot_off; lia).
  by replace (16 * (Z.of_nat (S i) + 1) - 8) with (16 * Z.of_nat (S i) + 8) by lia.
Qed.

Lemma cell_regs_small (i : nat) :
  (i <= n)%nat -> 0 <= (cell_regs layout i).1 < 64 /\ 0 <= (cell_regs layout i).2 < 64.
Proof.
  intros Hi. destruct (decide (i = 0%nat)) as [->|Hne]; [done|].
  unfold cell_regs. rewrite (proj2 (Nat.eqb_neq i 0)) by done. destruct i as [|i]; [done|].
  assert (Hp : extras !!! i ∈ extras) by (apply list_elem_of_lookup_total_2; unfold n in Hi; lia).
  rewrite Hpairs. change ((frame_record :: extras) !!! S i) with (extras !!! i).
  pose proof (Hextras _ Hp) as Hok. destruct (Hgpr _ Hp) as (_ & H1 & H2).
  unfold pair_ok in Hok. destruct (storage (extras !!! i)) as [a b]; cbn [fst snd] in *.
  rewrite !andb_true_iff in Hok. unfold callee_reg, within in Hok. lia.
Qed.

Lemma save_ops_ok (i : nat) : (i <= n)%nat -> Forall op_ok (save_ops i).
Proof.
  intros Hi. rewrite save_ops_cells by done. pose proof (cell_regs_small i Hi) as [H1 H2].
  assert (Hf : forall x, 0 <= x < 2 ^ 64 -> uword 64 (factored x)).
  { intros x Hx. unfold factored, uword; change (- DATA_ALIGN_FACTOR) with 8.
    split; [apply Z.div_pos; lia|apply Z.div_lt_upper_bound; lia]. }
  repeat constructor; try tauto; apply Hf; unfold slot_off, n in *; lia.
Qed.

(** The rules after the pairs [lo..n] are described. *)
Definition rules_are (lo : nat) (row : Row) : Prop :=
  (forall r off, row_rule row r = Some off ->
     exists i, (lo <= i <= n)%nat /\ (r = (cell_regs layout i).1 /\ off = slot_off i
                                      \/ r = (cell_regs layout i).2 /\ off = slot_off i + 8)) /\
  (forall i r, (lo <= i <= n)%nat -> cell_reg layout i r -> row_rule row r <> None).

Lemma factored_exact (k : Z) : factored (8 * k) * DATA_ALIGN_FACTOR = - (8 * k).
Proof.
  unfold factored. change (- DATA_ALIGN_FACTOR) with 8.
  rewrite Z.mul_comm, (Z.mul_comm 8 k), Z.div_mul by lia. lia.
Qed.

Lemma rules_step (i : nat) (row : Row) :
  (i <= n)%nat -> rules_are (S i) row -> rules_are i (apply_ops row (save_ops i)).
Proof.
  intros Hi [H1 H2]. rewrite save_ops_cells by done. cbn [apply_ops fold_left apply_op].
  replace (- slot_off i) with (8 * (2 * (Z.of_nat i + 1))) by (unfold slot_off; lia).
  replace (8 * (2 * (Z.of_nat i + 1)) - 8) with (8 * (2 * (Z.of_nat i + 1) - 1)) by lia.
  rewrite !factored_exact. unfold set_rule; cbn [row_cfa row_rule]. split.
  - intros r off. cbn [row_rule]. destruct (Z.eqb_spec r (cell_regs layout i).2) as [E2|N2].
    { intros [= <-]. exists i; split; [lia|right; split; [done|unfold slot_off; lia]]. }
    destruct (Z.eqb_spec r (cell_regs layout i).1) as [E1|N1].
    { intros [= <-]. exists i; split; [lia|left; split; [done|unfold slot_off; lia]]. }
    intros H. destruct (H1 r off H) as (j & Hj & Hc). exists j; split; [lia|done].
  - intros j r Hj Hc. cbn [row_rule]. destruct (Z.eqb_spec r (cell_regs layout i).2) as [E2|N2]; [done|].
    destruct (Z.eqb_spec r (cell_regs layout i).1) as [E1|N1]; [done|].
    apply (H2 j); [|done]. destruct (decide (j = i)) as [->|]; [destruct Hc; done|lia].
Qed.

(** The stores in the order they are emitted. *)
Definition save_chunk (k : nat) : list CfaOp :=
  (if (k =? 0)%nat then [DefCfaOffset csa] else []) ++ save_ops (n - k).

Lemma rev_seq_map (k : nat) : rev (seq 1 k) = map (fun j => k - j)%nat (seq 0 k).
Proof.
  induction k as [|k IH]; [done|]. rewrite seq_S, rev_app_distr, IH.
  change (seq 0 (S k)) with (0%nat :: seq 1 k). rewrite <- seq_shift, map_cons, map_map. done.
Qed.

Lemma saves_shape :
  map (prologue_save layout n) (rev (seq 1 n)) ++ [save_record layout extras]
  = map (fun k => save_inst (n - k)) (seq 0 (S n)).
Proof.
  rewrite rev_seq_map, map_map, seq_S, map_app. cbn [map Nat.add]. f_equal.
  - apply map_ext_in; intros k Hk%in_seq. unfold save_inst.
    by rewrite (proj2 (Nat.eqb_neq _ _)) by lia.
  - by rewrite Nat.sub_diag.
Qed.

Lemma chunks_shape :
  layout_chunks layout n = map save_chunk (seq 0 (S n)) ++ [[DefCfa FP_REGISTER 16]].
Proof.
  unfold layout_chunks.
  assert (E : map (pair_ops (callee_saved_pairs layout)) (rev (seq 1 n)) ++ [record_ops]
              = map (fun k => save_ops (n - k)) (seq 0 (S n))).
  { rewrite rev_seq_map, map_map, seq_S, map_app. cbn [map Nat.add]. f_equal.
    - apply map_ext_in; intros k Hk%in_seq. unfold save_ops.
      by rewrite (proj2 (Nat.eqb_neq _ _)) by lia.
    - by rewrite Nat.sub_diag. }
  rewrite E. cbn [seq map]. f_equal. f_equal.
  apply map_ext_in; intros k Hk%in_seq. unfold save_chunk.
  by rewrite (proj2 (Nat.eqb_neq k 0)) by lia.
Qed.

Lemma save_inst_exec (i : nat) (m : Machine) :
  (i <= n)%nat -> reg m 31 = (if (i =? n)%nat then sp0 else sp0 - csa) -> entry_regs m0 m ->
  exists m', exec_inst (save_inst i) m = Some m' /\ reg m' 31 = sp0 - csa /\ entry_regs m0 m' /\
    mem m' = mem (store_pair m (slot_addr sp0 i) (cell_regs layout i).1 (cell_regs layout i).2).
Proof.
  intros Hi Hs Hr. unfold save_inst. destruct (Nat.eqb_spec i 0) as [->|Hne].
  - destruct (save_record_exec layout extras sp0 Hlen Hcsa Hal Hsp0 m) as (m' & He & Hb & Hr' & _ & Hm).
    { rewrite Hs, (Nat.eqb_sym 0). done. }
    exists m'; split_and!; auto. intros r Hr''; rewrite Hr' by done. by apply Hr.
  - destruct (Nat.eqb_spec i n) as [->|Hn].
    + pose proof (save_bottom layout extras sp0 Hpairs Hextras Hlen Hcsa Hal Hsp0 m Hs
        ltac:(unfold n in *; lia)) as E. fold n csa in E. rewrite E. eexists; split; [done|]. cbn [reg set_reg mem]. split_and!; [done| |done].
      intros r Hr'; cbn [reg set_reg store_pair]. rewrite upd_other by done. by apply Hr.
    + pose proof (save_step layout extras sp0 Hpairs Hextras Hlen Hcsa Hal Hsp0 m i Hs
        ltac:(unfold n in *; lia)) as E. fold n csa in E. rewrite E. eexists; split; [done|]. done.
Qed.

(** The state and the row after the stores of the pairs [lo..n]. *)
Definition saving (lo : nat) (row : Row) (m : Machine) : Prop :=
  entry_regs m0 m /\ rules_are lo row /\
  (forall i, (lo <= i <= n)%nat -> saved_at layout sp0 m0 (mem m) i) /\
  if (n <? lo)%nat then row_cfa row = (31, 0) /\ reg m 31 = sp0
  else row_cfa row = (31, csa) /\ reg m 31 = sp0 - csa.

Lemma saving_start : saving (S n) entry_row m0.
Proof.
  unfold saving. rewrite (proj2 (Nat.ltb_lt n (S n))) by lia. split_and!; try done.
  - split; [done|lia].
  - lia.
Qed.

Lemma saving_step (k : nat) (row : Row) (m : Machine) :
  (k <= n)%nat -> saving (S n - k) row m ->
  exists m', exec_inst (save_inst (n - k)) m = Some m' /\
             saving (n - k) (apply_ops row (save_chunk k)) m'.
Proof.
  intros Hk (Hr & Hrules & Hsv & Hc).
  replace (S n - k)%nat with (S (n - k)) in * by lia.
  assert (Hs : reg m 31 = (if (n - k =? n)%nat then sp0 else sp0 - csa)).
  { destruct (Nat.ltb_spec n (S (n - k))), (Nat.eqb_spec (n - k) n); try lia; by destruct Hc. }
  destruct (save_inst_exec (n - k) m ltac:(lia) Hs Hr) as (m' & He & Hb & Hr' & Hm).
  exists m'; split; [done|]. unfold saving. rewrite (proj2 (Nat.ltb_ge n (n - k))) by lia.
  assert (Hcfa : forall row, row_cfa (apply_ops row (save_ops (n - k))) = row_cfa row).
  { intros row'. by rewrite save_ops_cells by lia. }
  split_and!; [done| | | |done].
  - unfold save_chunk. unfold apply_ops; rewrite fold_left_app. apply rules_step; [lia|].
    destruct (k =? 0)%nat; done.
  - intros i Hi. rewrite Hm. apply (store_saves layout extras sp0 m0); auto; [unfold n in *; lia..|].
    destruct (decide (i = n - k)%nat); [by left|right; apply Hsv; lia].
  - unfold save_chunk, apply_ops. rewrite fold_left_app.
    change (fold_left apply_op (save_ops (n - k)) ?x) with (apply_ops x (save_ops (n - k))).
    rewrite Hcfa.
    destruct (Nat.eqb_spec k 0) as [->|Hne]; cbn [fold_left apply_op].
    + rewrite (proj2 (Nat.ltb_lt n (S (n - 0)))) in Hc by lia. destruct Hc as [Hc _].
      cbn [set_cfa row_cfa]. by rewrite Hc.
    + rewrite (proj2 (Nat.ltb_ge n (S (n - k)))) in Hc by lia. by destruct Hc.
Qed.

Lemma save_phase (k : nat) :
  (k <= S n)%nat ->
  exists m, exec_insts (map (fun k => save_inst (n - k)) (seq 0 k)) m0 = Some m /\
            saving (S n - k) (fold_left apply_ops (map save_chunk (seq 0 k)) entry_row) m.
Proof.
  induction k as [|k IH]; intros Hk; [exists m0; split; [done|apply saving_start]|].
  destruct IH as (m & He & Hs); [lia|].
  destruct (saving_step k _ m ltac:(lia) Hs) as (m' & He' & Hs').
  exists m'. rewrite seq_S, !map_app, exec_insts_app, He, fold_left_app. cbn [map exec_insts fold_left].
  change (0 + k)%nat with k. rewrite He'. split; [done|]. by replace (S n - S k)%nat with (n - k)%nat by lia.
Qed.

Lemma rules_unwind (lo : nat) (row : Row) (m : Machine) (r off : Z) :
  rules_are lo row -> (forall i, (lo <= i <= n)%nat -> saved_at layout sp0 m0 (mem m) i) ->
  row_rule row r = Some off -> mem m (sp0 + off) = reg m0 r.
Proof.
  intros [H1 _] Hsv H. destruct (H1 r off H) as (i & Hi & Hc). destruct (Hsv i Hi) as [S1 S2].
  unfold slot_addr in S1, S2. unfold slot_off in Hc.
  destruct Hc as [[-> ->]|[-> ->]]; [rewrite <- S1|rewrite <- S2]; f_equal; lia.
Qed.

Lemma preserved_not_sp (r : Z) : preserved r = true -> r <> 31.
Proof. unfold preserved, callee_reg, within; lia. Qed.

Lemma saving_unwinds (lo : nat) (row : Row) (m : Machine) : saving lo row m -> unwinds row m0 m.
Proof.
  intros (Hr & Hrules & Hsv & Hc). split; [|split].
  - destruct (n <? lo)%nat; destruct Hc as [-> Hs]; cbn [fst snd]; rewrite Hs; fold sp0;
      [rewrite Z.add_0_r|rewrite Z.sub_add]; apply wrap_small; unfold uword, sp0; lia.
  - intros r off. by apply (rules_unwind lo).
  - intros r Hp _. by apply Hr, preserved_not_sp.
Qed.

(** The state and the row once the frame pointer is set. *)
Definition framed (row : Row) (m : Machine) : Prop :=
  row_cfa row = (29, 16) /\ rules_are 0 row /\ reg m 29 = sp0 - 16 /\
  (forall i, (i <= n)%nat -> saved_at layout sp0 m0 (mem m) i) /\
  (forall r, preserved r = true -> row_rule row r = None -> reg m r = reg m0 r).

Lemma framed_unwinds (row : Row) (m : Machine) : framed row m -> unwinds row m0 m.
Proof.
  intros (Hc & Hrules & H29 & Hsv & Hr). split; [|split].
  - rewrite Hc; cbn [fst snd]. rewrite H29, Z.sub_add. apply wrap_small. unfold uword, sp0; lia.
  - intros r off. apply (rules_unwind 0); [done|]. intros; apply Hsv; lia.
  - done.
Qed.

Lemma saving_framed (row : Row) (m : Machine) :
  saving 0 row m ->
  exists m', exec_inst (make_add_fp_sp_imm (csa - 16)) m = Some m' /\
             framed (apply_ops row [DefCfa FP_REGISTER 16]) m'.
Proof.
  intros (Hr & Hrules & Hsv & Hc). rewrite (proj2 (Nat.ltb_ge n 0)) in Hc by lia. destruct Hc as [_ Hs].
  eexists; split; [by apply (add_fp_exec layout extras sp0 Hlen Hcsa Hsp0)|].
  unfold framed. split_and!; [done|done|done| |].
  - intros i Hi. apply Hsv; lia.
  - intros r Hp Hn. cbn [reg set_reg]. rewrite upd_other; [by apply Hr, preserved_not_sp|].
    intros ->. destruct Hrules as [_ H]. apply (H 0%nat 29); [lia|by left|done].
Qed.

Lemma sub_chunks_exec (l : list Z) (row : Row) (m : Machine) :
  (forall c, c ∈ l -> 0 <= c <= 4095) -> framed row m ->
  exists m', exec_insts (map make_sub_sp_imm l) m = Some m' /\ framed row m'.
Proof.
  revert m; induction l as [|c l IH]; intros m Hl Hf; [by exists m|].
  cbn [map exec_insts]. assert (Hc : 0 <= c <= 4095) by (apply Hl; by left).
  assert (He : exec_inst (make_sub_sp_imm c) m = Some (set_reg m 31 (wrap 64 (reg m 31 - c)))).
  { unfold exec_inst; cbn [opcode operands make_sub_sp_imm MachInst_new reg_index].
    rewrite (proj2 (Z.leb_le 0 c)), (proj2 (Z.leb_le c 4095)) by lia. done. }
  rewrite He. apply IH; [intros d Hd; apply Hl; by right|].
  destruct Hf as (H1 & H2 & H3 & H4 & H5). unfold framed. split_and!; auto.
  intros r Hp Hn. cbn [reg set_reg]. rewrite upd_other by (by apply preserved_not_sp). auto.
Qed.

Lemma sp_chunks_range (fuel : nat) (imm c : Z) : 0 <= imm -> c ∈ sp_chunks fuel imm -> 0 <= c <= 4095.
Proof.
  revert imm; induction fuel as [|fuel IH]; intros imm H0; cbn [sp_chunks]; [by intros ?%elem_of_nil|].
  change AARCH64_SP_ADJUST_CHUNK with 4080.
  destruct (Z.ltb_spec 0 imm); [|by intros ?%elem_of_nil].
  intros [->|Hc]%elem_of_cons; [lia|]. apply (IH (imm - Z.min imm 4080)); [lia|done].
Qed.

Context (Hfp : uses_frame_pointer layout = true).
Context (Hadj : 0 <= sp_adjustment layout /\ callee_saved_area_size layout + sp_adjustment layout <= reg m0 31).

Definition row_at (k : nat) : Row := fold_left apply_ops (take k (layout_chunks layout n)) entry_row.

Lemma take_map_seq {A} (f : nat -> A) (k N : nat) :
  (k <= N)%nat -> take k (map f (seq 0 N)) = map f (seq 0 k).
Proof. intros. rewrite firstn_map, take_seq. by replace (k `min` N)%nat with k by lia. Qed.

Lemma take_elem {A} (x : A) (k : nat) (l : list A) : x ∈ take k l -> x ∈ l.
Proof. intros H. rewrite <- (take_drop k l). apply elem_of_app; by left. Qed.

Lemma prologue_seq :
  emit_prologue layout = map (fun k => save_inst (n - k)) (seq 0 (S n))
    ++ [make_add_fp_sp_imm (csa - 16)]
    ++ map make_sub_sp_imm (sp_chunks (sp_chunk_rounds (sp_adjustment layout)) (sp_adjustment layout)).
Proof.
  rewrite (prologue_shape layout extras (reg m0 31) Hpairs Hlen Hcsa Hfp Hadj).
  by rewrite <- saves_shape.
Qed.

Lemma row_at_saves (k : nat) :
  (k <= S n)%nat -> row_at k = fold_left apply_ops (map save_chunk (seq 0 k)) entry_row.
Proof.
  intros Hk; unfold row_at. rewrite chunks_shape, take_app_le by (rewrite length_map, length_seq; lia).
  by rewrite take_map_seq.
Qed.

Lemma row_at_framed (k : nat) :
  (S n < k)%nat ->
  row_at k = apply_ops (fold_left apply_ops (map save_chunk (seq 0 (S n))) entry_row) [DefCfa FP_REGISTER 16].
Proof.
  intros Hk; unfold row_at. rewrite take_ge, chunks_shape, fold_left_app; [done|].
  rewrite chunks_shape, length_app, length_map, length_seq; cbn; lia.
Qed.

Lemma lockstep (k : nat) :
  exists m, exec_insts (take k (emit_prologue layout)) m0 = Some m /\ unwinds (row_at k) m0 m /\
            ((S n < k)%nat -> framed (row_at k) m).
Proof.
  rewrite prologue_seq. destruct (Nat.le_gt_cases k (S n)) as [Hk|Hk].
  - rewrite take_app_le by (rewrite length_map, length_seq; lia). rewrite take_map_seq by done.
    destruct (save_phase k Hk) as (m & He & Hs). exists m; split; [done|].
    rewrite row_at_saves by done. split; [by apply saving_unwinds in Hs|lia].
  - destruct (save_phase (S n) ltac:(lia)) as (m1 & He1 & Hs1). rewrite Nat.sub_diag in Hs1.
    destruct (saving_framed _ m1 Hs1) as (m2 & He2 & Hf2).
    destruct (sub_chunks_exec (take (k - S n - 1) (sp_chunks (sp_chunk_rounds (sp_adjustment layout))
                (sp_adjustment layout))) _ m2 ltac:(intros c Hc; apply (sp_chunks_range
                (sp_chunk_rounds (sp_adjustment layout)) (sp_adjustment layout)); [lia|];
                by eapply take_elem) Hf2) as (m & He & Hf).
    exists m. rewrite row_at_framed by done. split; [|split; [by apply framed_unwinds|done]].
    rewrite take_app_ge by (rewrite length_map, length_seq; lia).
    rewrite length_map, length_seq. rewrite exec_insts_app, He1.
    rewrite take_app_ge by (cbn; lia). cbn [app exec_insts length]. rewrite He2.
    by rewrite firstn_map.
Qed.
End Lockstep.

(** ** The bytes of the description *)

Definition aarch64_cies : list DwarfCie :=
  [aarch64_darwin; aarch64_darwin_with_eh; aarch64_elf; aarch64_elf_with_eh].

Lemma aarch64_cie_run (c : DwarfCie) (target : Z) :
  c ∈ aarch64_cies ->
  code_alignment_factor c = 4 /\ data_alignment_factor c = DATA_ALIGN_FACTOR /\
  cfi_run (S (length (initial_instructions c))) 4 DATA_ALIGN_FACTOR target 0 (initial_instructions c)
    (mkRow (0, 0) (fun _ => None)) = Some entry_row.
Proof.
  intros Hc. assert (E : initial_instructions c = enc_op (DefCfa SP_REGISTER 0) ++ []).
  { unfold aarch64_cies in Hc. rewrite app_nil_r.
    repeat (apply elem_of_cons in Hc as [->|Hc]; [done|]). by apply elem_of_nil in Hc. }
  split_and!.
  1, 2: unfold aarch64_cies in Hc; repeat (apply elem_of_cons in Hc as [->|Hc]; [done|]);
        by apply elem_of_nil in Hc.
  rewrite E, cfi_run_op by (cbn [op_ok]; unfold uword; lia). done.
Qed.

Lemma unwind_row_chunks (c : DwarfCie) (f : DwarfFde) (chunks : list (list CfaOp)) (k : nat) :
  c ∈ aarch64_cies -> Forall (Forall op_ok) chunks -> instructions f = concat (map enc_chunk chunks) ->
  unwind_row c f (4 * Z.of_nat k) = Some (fold_left apply_ops (take k chunks) entry_row).
Proof.
  intros Hc Hok E. unfold unwind_row.
  destruct (aarch64_cie_run c (4 * Z.of_nat k) Hc) as (-> & -> & ->). rewrite E.
  rewrite <- (Z.add_0_l (4 * Z.of_nat k)). apply cfi_run_chunks; [done|].
  pose proof (chunk_fuel_length chunks). lia.
Qed.

Lemma extra_pairs_gpr (gpr : Z) (p : CalleeSavedPair) :
  p ∈ extra_pairs gpr 0 -> is_fpr p = false /\ (storage p).1 < 31 /\ (storage p).2 < 31.
Proof.
  assert (E : extra_pairs gpr 0 = (push_pairs false gpr gpr_pair_regs ([], -16)).1).
  { unfold extra_pairs. by destruct (push_pairs false _ _ _). }
  rewrite E. intros [H|(e & He & Ek)]%push_pairs_elem; [by apply elem_of_nil in H|].
  assert (T : Forall (fun e => (storage (table_pair false e)).1 < 31 /\ (storage (table_pair false e)).2 < 31)
                gpr_pair_regs) by (repeat constructor).
  rewrite Forall_forall in T. specialize (T e He).
  destruct p as [a b o fb]; unfold pair_key in Ek; cbn in Ek. injection Ek as -> -> ->.
  split; [done|]. exact T.
Qed.

Section ComputedUnwind.
Context (func : MachFunction) (outgoing : Z) (red dyn : bool) (m0 : Machine).
Context (Hwf : wf_func func) (Hout : 0 <= outgoing <= 2 ^ 30).
Context (Hfpr : fpr_used (scan_function func) = 0).
Let layout := compute_frame_layout_inner func outgoing red dyn.
Context (Hal : reg m0 31 mod 16 = 0) (Hsp : total_frame_size layout <= reg m0 31 < 2 ^ 64).

Lemma framed_body (extras : list CalleeSavedPair) (row : Row) (m1 m2 : Machine) :
  uses_frame_pointer layout = true ->
  extras = extra_pairs (gpr_used (scan_function func)) (fpr_used (scan_function func)) ->
  framed layout extras m0 row m1 -> body_ok layout (reg m0 31) m1 m2 -> framed layout extras m0 row m2.
Proof.
  intros Hfp -> (Hc & Hrules & H29 & Hsv & Hr) (B1 & B2 & _ & B4).
  pose proof (computed_sides func outgoing red dyn m0 Hwf Hout Hsp Hfp) as (_ & _ & _ & Hcsa & _).
  fold layout in Hcsa. unfold framed. split_and!; auto.
  - by rewrite B2.
  - intros i Hi. destruct (Hsv i Hi) as [S1 S2]. unfold saved_at, slot_addr in *.
    rewrite !B1; [done|lia|lia].
  - intros r Hp Hn. rewrite B4; [by apply Hr|done|].
    intros Hs. apply (saved_regs_cells func outgoing red dyn m0 Hwf Hout Hsp r Hfp) in Hs as (i & Hi & Hcell).
    destruct Hrules as [_ H]. by apply (H i r); [lia|..].
Qed.

Context (c : DwarfCie) (Hcie : c ∈ aarch64_cies) (offset len sym : Z).
Let fde := from_layout layout offset len sym.

(** The row of a framed function at instruction [k]. *)
Lemma computed_row (extras : list CalleeSavedPair) (k : nat) :
  uses_frame_pointer layout = true ->
  extras = extra_pairs (gpr_used (scan_function func)) (fpr_used (scan_function func)) ->
  unwind_row c fde (4 * Z.of_nat k) = Some (row_at layout extras k).
Proof.
  intros Hfp ->. set (extras := extra_pairs _ _).
  pose proof (computed_sides func outgoing red dyn m0 Hwf Hout Hsp Hfp) as (Hp & Hok & Hl & Hcsa & Hs & _).
  fold layout extras in Hp, Hok, Hl, Hcsa, Hs.
  assert (Hg : forall p, p ∈ extras -> is_fpr p = false /\ (storage p).1 < 31 /\ (storage p).2 < 31).
  { unfold extras; rewrite Hfpr. apply extra_pairs_gpr. }
  apply unwind_row_chunks; [done| |].
  - rewrite (chunks_shape layout extras m0 Hl). apply Forall_app; split.
    2: { apply Forall_singleton, Forall_singleton. cbn [op_ok]; unfold uword; lia. }
    apply Forall_forall; intros ops Hops. apply list_elem_of_In, in_map_iff in Hops as (j & <- & Hj%in_seq).
    unfold save_chunk. apply Forall_app; split.
    + destruct (j =? 0)%nat; [|done]. apply Forall_singleton. cbn [op_ok]; unfold uword; lia.
    + eapply save_ops_ok; eauto; lia.
  - apply (from_layout_chunks layout (length extras)); [by rewrite Hp|done].
Qed.

Lemma framed_unwind (k : nat) :
  uses_frame_pointer layout = true ->
  (exists m row, exec_insts (take k (emit_prologue layout)) m0 = Some m /\
     unwind_row c fde (4 * Z.of_nat k) = Some row /\ unwinds row m0 m) /\
  (forall m1 m2, exec_insts (emit_prologue layout) m0 = Some m1 -> body_ok layout (reg m0 31) m1 m2 ->
     (length (emit_prologue layout) <= k)%nat ->
     exists row, unwind_row c fde (4 * Z.of_nat k) = Some row /\ unwinds row m0 m2).
Proof.
  intros Hfp. set (extras := extra_pairs (gpr_used (scan_function func)) (fpr_used (scan_function func))).
  pose proof (computed_sides func outgoing red dyn m0 Hwf Hout Hsp Hfp)
    as (Hp & Hok & Hl & Hcsa & Hs & Ha & Hta). fold layout extras in Hp, Hok, Hl, Hcsa, Hs, Ha, Hta.
  assert (Hg : forall p, p ∈ extras -> is_fpr p = false /\ (storage p).1 < 31 /\ (storage p).2 < 31).
  { unfold extras; rewrite Hfpr. apply extra_pairs_gpr. }
  assert (Hadj : 0 <= sp_adjustment layout /\
                 callee_saved_area_size layout + sp_adjustment layout <= reg m0 31) by (fold layout in Hsp; lia).
  pose proof (computed_row extras k Hfp eq_refl) as Erow.
  destruct (lockstep layout extras m0 Hp Hok Hg Hl Hcsa Hal Hs Hfp Hadj k) as (m & He & Hu & Hf).
  split; [by exists m, (row_at layout extras k)|].
  intros m1 m2 He1 Hb Hk. exists (row_at layout extras k); split; [done|].
  assert (m = m1) as -> by (rewrite take_ge in He by done; congruence).
  eapply (framed_unwinds layout extras); eauto. apply (framed_body extras _ m1); [done|done| |done].
  apply Hf. erewrite (prologue_seq layout extras), !length_app, length_map, length_seq in Hk by eauto.
  cbn [length] in Hk. lia.
Qed.

Lemma frameless_unwind (k : nat) :
  uses_frame_pointer layout = false ->
  (exists m row, exec_insts (take k (emit_prologue layout)) m0 = Some m /\
     unwind_row c fde (4 * Z.of_nat k) = Some row /\ unwinds row m0 m) /\
  (forall m1 m2, exec_insts (emit_prologue layout) m0 = Some m1 -> body_ok layout (reg m0 31) m1 m2 ->
     (length (emit_prologue layout) <= k)%nat ->
     exists row, unwind_row c fde (4 * Z.of_nat k) = Some row /\ unwinds row m0 m2).
Proof.
  intros Hfp. destruct (frameless_sequences func outgoing red dyn Hfp) as (Ep & _ & Hc & Ht & Hd & Hsr).
  fold layout in Ep, Hc, Ht, Hd, Hsr.
  pose proof (layout_frameless func outgoing red dyn Hfp) as (Hp & _). fold layout in Hp.
  assert (Erow : unwind_row c fde (4 * Z.of_nat k) = Some entry_row).
  { rewrite (unwind_row_chunks c fde []); [by destruct k|done|done|].
    unfold fde, from_layout, from_layout_instructions, sp_adjustment; cbn [instructions].
    by rewrite Hp, Hc, Ht. }
  assert (Hu : forall m, reg m 31 = reg m0 31 -> (forall r, preserved r = true -> reg m r = reg m0 r) ->
                         unwinds entry_row m0 m).
  { intros m Hs Hr. split; [|split; [done|auto]]. cbn [entry_row row_cfa fst snd].
    rewrite Hs, Z.add_0_r. apply wrap_small. unfold uword; lia. }
  rewrite Ep. split.
  - exists m0, entry_row. rewrite take_nil. split_and!; auto.
  - intros m1 m2 [= <-] (_ & _ & B3 & B4) _. exists entry_row. split; [done|].
    apply Hu; [by apply B3|]. intros r Hr. apply B4; [done|]. rewrite Hsr. apply not_elem_of_nil.
Qed.
End ComputedUnwind.

(** C10: DWARF unwind information is right at every instruction.  For a function
    that saves no floating-point registers, with any of the four AArch64 CIEs:
    after any number [k] of prologue instructions the row that [from_layout]'s
    program gives for that offset recovers the caller's frame (the CFA is the
    caller's stack pointer, each rule finds the caller's value of its register, and
    every preserved register without a rule is untouched); from the end of the
    prologue on it does so for every state a body that keeps to its contract can
    reach, dynamic stack allocation included. *)
Theorem prologue_unwinds (func : MachFunction) (outgoing : Z) (red dyn : bool) (m0 : Machine)
    (c : DwarfCie) (offset len sym : Z) (k : nat) :
  wf_func func -> 0 <= outgoing <= 2 ^ 30 -> fpr_used (scan_function func) = 0 ->
  reg m0 31 mod 16 = 0 ->
  total_frame_size (compute_frame_layout_inner func outgoing red dyn) <= reg m0 31 < 2 ^ 64 ->
  c ∈ aarch64_cies ->
  let layout := compute_frame_layout_inner func outgoing red dyn in
  let fde := from_layout layout offset len sym in
  (exists m row, exec_insts (take k (emit_prologue layout)) m0 = Some m /\
     unwind_row c fde (4 * Z.of_nat k) = Some row /\ unwinds row m0 m) /\
  (forall m1 m2, exec_insts (emit_prologue layout) m0 = Some m1 -> body_ok layout (reg m0 31) m1 m2 ->
     (length (emit_prologue layout) <= k)%nat ->
     exists row, unwind_row c fde (4 * Z.of_nat k) = Some row /\ unwinds row m0 m2).
Proof.
  intros Hwf Hout Hfpr Hal Hsp Hc layout fde.
  destruct (uses_frame_pointer layout) eqn:Hfp.
  - by apply framed_unwind.
  - by apply frameless_unwind.
Qed.

Lemma prologue_unwinds_witness :
  let func := mkMachFunction [mkMachInst AddRI [MPReg (mkPReg 21); MPReg (mkPReg 0); MImm 1] [] [] true]
                [mkSlot 64 16 Fixed] NoProtector None in
  let layout := compute_frame_layout_inner func 0 true false in
  exists m row, exec_insts (take 2 (emit_prologue layout)) demo_machine = Some m /\
    unwind_row aarch64_elf (from_layout layout 0 64 0) 8 = Some row /\ unwinds row demo_machine m.
Proof.
  apply (fun H1 H2 H3 H4 H5 H6 => proj1 (prologue_unwinds _ 0 true false demo_machine aarch64_elf 0 64 0 2
                                          H1 H2 H3 H4 H5 H6)).
  - split; [|by vm_compute]. repeat constructor; cbn; try lia. exists 4; lia.
  - lia.
  - by vm_compute.
  - by vm_compute.
  - vm_compute; split; congruence.
  - apply list_elem_of_In; cbn; tauto.
Defined.

(** ** Floating-point saves have no rule *)

Lemma land_63 (b : Z) : 0 <= Z.land b 0x3F < 64.
Proof. change 0x3F with (Z.ones 6). rewrite Z.land_ones by lia. apply Z.mod_pos_bound; lia. Qed.

(** [DW_CFA_offset] holds a 6-bit register number, so no program built from it has
    a rule for a register above 63. *)
Lemma cfi_run_low (fuel : nat) (ca da target loc : Z) (l : list Z) (row row' : Row) (r : Z) :
  64 <= r -> row_rule row r = None -> cfi_run fuel ca da target loc l row = Some row' ->
  row_rule row' r = None.
Proof.
  intros Hr; revert loc l row; induction fuel as [|fuel IH]; intros loc l row Hn; [done|].
  destruct l as [|b l]; cbn [cfi_run]; [by intros [= <-]|].
  assert (Hadv : forall d l, (if target <? loc + d * ca then Some row
      else cfi_run fuel ca da target (loc + d * ca) l row) = Some row' -> row_rule row' r = None).
  { intros d l'. destruct (target <? _); [by intros [= <-]|by apply IH]. }
  destruct (Z.shiftr b 6 =? 1); [apply Hadv|].
  destruct (Z.shiftr b 6 =? 2).
  { destruct (read_uleb l) as [[f l']|]; [|done]. apply IH. unfold set_rule; cbn [row_rule].
    pose proof (land_63 b). by rewrite (proj2 (Z.eqb_neq _ _)) by lia. }
  destruct (b =? 0); [by apply IH|].
  destruct (b =? 2); [destruct l; [done|apply Hadv]|].
  destruct (b =? 3); [destruct l as [|? [|]]; [done|done|apply Hadv]|].
  destruct (b =? 12).
  { destruct (read_uleb l) as [[q l']|]; [|done]. destruct (read_uleb l') as [[off l'']|]; [|done].
    by apply IH. }
  destruct (b =? 14); [|done]. destruct (read_uleb l) as [[off l']|]; [|done]. by apply IH.
Qed.

(** The DWARF program never describes a saved floating-point register: the
    register number of a [D] register is at least 64 and [from_layout] masks it to
    six bits, so the row for any offset has no rule for it although the prologue
    stores it. *)
Theorem fpr_saves_undescribed (c : DwarfCie) (layout : FrameLayout) (p : CalleeSavedPair)
    (offset len sym target : Z) (row : Row) :
  is_fpr p = true -> preg_class (reg1 p) = Fpr128 ->
  unwind_row c (from_layout layout offset len sym) target = Some row ->
  row_rule row (preg_to_dwarf (reg1 p) (is_fpr p)) = None.
Proof.
  intros Hf Hc. assert (Hr : 64 <= preg_to_dwarf (reg1 p) (is_fpr p)).
  { rewrite Hf. unfold preg_to_dwarf, preg_class, within in *. destruct (reg1 p) as [e]; cbn [encoding] in *.
    repeat case_match; try done.
    rewrite (wrap_small 64 (e - 64)), wrap_small by (unfold uword; lia). lia. }
  unfold unwind_row. destruct (cfi_run _ _ _ _ _ (initial_instructions c) _) as [row0|] eqn:E; [|done].
  intros H. eapply cfi_run_low; [exact Hr| |exact H]. by eapply cfi_run_low; [exact Hr| |exact E].
Qed.

(** The prologue of a function that uses [D8] stores it in the frame; at the end
    of the prologue the DWARF row claims [X8] is there. *)
Lemma fpr_saves_undescribed_witness :
  let layout := compute_frame_layout_inner demo_frame_func 0 true false in
  exists row, unwind_row aarch64_elf (from_layout layout 0 64 0) 16 = Some row /\
    row_rule row 72 = None /\ row_rule row 8 = Some (-40) /\ 104 ∈ saved_regs layout.
Proof.
  intros layout. destruct (unwind_row aarch64_elf (from_layout layout 0 64 0) 16) as [row|] eqn:E;
    [|vm_compute in E; discriminate E].
  exists row; split; [done|]. split; [|split].
  - apply (fpr_saves_undescribed aarch64_elf layout (mkPair (mkPReg 72) (mkPReg 73) (-48) true)
             0 64 0 16 row); done.
  - transitivity (match unwind_row aarch64_elf (from_layout layout 0 64 0) 16 with
                  | Some row => row_rule row 8 | None => None end); [by rewrite E|by vm_compute].
  - apply (bool_decide_unpack _). by vm_compute.
Defined.
