(* ===== verification/CompactUnwind.v ===== *)
(** * Compact unwind information
      ([crates/trust-cg-codegen/src/frame.rs], [encode_compact_unwind])

    The meaning the Darwin unwinder gives a compact unwind encoding, and the proof
    that the encoding of a computed frame layout recovers the caller's registers
    from any state of the body of the function. *)

From S2P Require Import Prelude Regs Frame FrameSlots FrameExec.
Local Open Scope Z_scope.

(** ** The unwinder's step

    The pairs in the order the unwinder tests their flags: flag, the register
    loaded first (from the higher address) and the one loaded second. *)
Definition compact_pairs : list (Z * (Z * Z)) :=
  [ (0x001, (19, 20)); (0x002, (21, 22)); (0x004, (23, 24)); (0x008, (25, 26)); (0x010, (27, 28));
    (0x100, (104, 105)); (0x200, (106, 107)); (0x400, (108, 109)); (0x800, (110, 111)) ].

Definition flagged_pairs (enc : Z) : list (Z * Z) :=
  map snd (filter (fun e => Z.land enc e.1 <> 0) compact_pairs).

(** Load the pairs from [loc] downwards. *)
Fixpoint load_pairs (mm : Z -> Z) (l : list (Z * Z)) (loc : Z) (f : Z -> Z) : Z -> Z :=
  match l with
  | [] => f
  | (a, b) :: l => load_pairs mm l (loc - 16) (upd (upd f a (mm loc)) b (mm (loc - 8)))
  end.

(** The caller's registers and program counter.  A frame-based function has its
    frame record at [x29] and the pairs right below; a frameless one without saved
    pairs has [SP] its encoded size (in units of 16 bytes) below the caller's and
    the return address in [x30].  Other encodings are left to DWARF. *)
Definition compact_step (enc : Z) (m : Machine) : option ((Z -> Z) * Z) :=
  if Z.land enc 0x0F000000 =? 0x04000000 then
    let fp := reg m 29 in
    let regs := load_pairs (mem m) (flagged_pairs enc) (fp - 8) (reg m) in
    Some (upd (upd regs 29 (mem m fp)) 31 (fp + 16), mem m (fp + 8))
  else if (Z.land enc 0x0F000000 =? 0x02000000) && (Z.land enc 0xFFF =? 0) then
    Some (upd (reg m) 31 (reg m 31 + 16 * Z.land (Z.shiftr enc 12) 0xFFF), reg m 30)
  else None.

(** ** The flags of a set of pairs *)

(** The rows of the two tables [compute_frame_layout] selects from. *)
Definition selected (fpr : bool) (used : Z) (table : list (PReg * PReg * Z)) : list (PReg * PReg * bool) :=
  map (fun e => (e.1.1, e.1.2, fpr)) (filter (fun e => Z.land used e.2 <> 0) table).

Lemma push_pairs_selected (fpr : bool) (used : Z) (table : list (PReg * PReg * Z))
    (acc : list CalleeSavedPair * Z) :
  map pair_key (push_pairs fpr used table acc).1 = map pair_key acc.1 ++ selected fpr used table.
Proof.
  unfold push_pairs, selected; revert acc; induction table as [|[[r1 r2] mk] table IH]; intros [acc o].
  - cbn; by rewrite app_nil_r.
  - cbn [fold_left fst snd]. rewrite filter_cons; cbn [snd].
    destruct (Z.eqb_spec (Z.land used mk) 0) as [E|E].
    + rewrite (decide_False (P := _ <> _)) by tauto. apply IH.
    + rewrite (decide_True (P := _ <> _)) by done. rewrite IH; cbn [fst map].
      rewrite map_app, <- app_assoc. done.
Qed.

Lemma extra_pairs_selected (gpr fpr : Z) :
  map pair_key (extra_pairs gpr fpr)
  = selected false gpr gpr_pair_regs ++ selected true fpr fpr_pair_regs.
Proof. unfold extra_pairs. by rewrite !push_pairs_selected. Qed.

Definition key_pair (k : PReg * PReg * bool) : CalleeSavedPair := mkPair k.1.1 k.1.2 0 k.2.

(** The encoding looks at the keys only, and so does [storage]. *)
Lemma encode_pairs_keys (l : list CalleeSavedPair) (e : Z) :
  encode_pairs e l = encode_pairs e (map key_pair (map pair_key l)).
Proof.
  revert e; induction l as [|[r1 r2 o f] l IH]; intros e; [done|].
  cbn [map encode_pairs]. change (pair_flag (key_pair _)) with (pair_flag (mkPair r1 r2 o f)).
  by destruct (pair_flag _).
Qed.

Lemma storage_keys (l : list CalleeSavedPair) :
  map storage l = map storage (map key_pair (map pair_key l)).
Proof. rewrite !map_map. apply map_ext; by intros []. Qed.

Definition flags_match (keys : list (PReg * PReg * bool)) : bool :=
  let enc := encode_pairs UNWIND_ARM64_MODE_FRAME (map key_pair keys) in
  (Z.land enc 0x0F000000 =? 0x04000000) && bool_decide (flagged_pairs enc = map storage (map key_pair keys)).

(** The sublists of the tables, one boolean a row. *)
Fixpoint pick {A} (sel : list bool) (l : list A) : list A :=
  match sel, l with
  | b :: sel, x :: l => if b then x :: pick sel l else pick sel l
  | _, _ => []
  end.

Fixpoint all_sels (n : nat) : list (list bool) :=
  match n with
  | O => [[]]
  | S n => map (cons true) (all_sels n) ++ map (cons false) (all_sels n)
  end.

Lemma filter_pick {A} (P : A -> Prop) `{!forall x, Decision (P x)} (l : list A) :
  filter P l = pick (map (fun x => bool_decide (P x)) l) l.
Proof.
  induction l as [|x l IH]; [done|]. rewrite filter_cons; cbn [map pick].
  case_bool_decide; [rewrite decide_True by done|rewrite decide_False by done]; by rewrite IH.
Qed.

Lemma all_sels_elem (sel : list bool) : sel ∈ all_sels (length sel).
Proof.
  induction sel as [|b sel IH]; cbn; [by left|].
  destruct b; apply elem_of_app; [left|right]; by apply list_elem_of_fmap_2.
Qed.

Definition table_keys (s1 s2 : list bool) : list (PReg * PReg * bool) :=
  map (fun e => (e.1.1, e.1.2, false)) (pick s1 gpr_pair_regs)
  ++ map (fun e => (e.1.1, e.1.2, true)) (pick s2 fpr_pair_regs).

(** All 512 sets of pairs. *)
Lemma flags_match_all :
  forallb (fun s1 => forallb (fun s2 => flags_match (table_keys s1 s2)) (all_sels 4)) (all_sels 5) = true.
Proof. by vm_compute. Qed.

Lemma extra_pairs_flags (gpr fpr : Z) :
  let enc := encode_pairs UNWIND_ARM64_MODE_FRAME (extra_pairs gpr fpr) in
  Z.land enc 0x0F000000 = 0x04000000 /\ flagged_pairs enc = map storage (extra_pairs gpr fpr).
Proof.
  intros enc; unfold enc. rewrite encode_pairs_keys, storage_keys, extra_pairs_selected.
  unfold selected; rewrite !filter_pick.
  set (s1 := map _ gpr_pair_regs). set (s2 := map _ fpr_pair_regs).
  assert (H : flags_match (table_keys s1 s2) = true).
  { pose proof flags_match_all as H. rewrite forallb_forall in H.
    specialize (H s1 (proj1 (list_elem_of_In _ _) (all_sels_elem s1))). rewrite forallb_forall in H.
    exact (H s2 (proj1 (list_elem_of_In _ _) (all_sels_elem s2))). }
  unfold flags_match in H. apply andb_true_iff in H as [H1 H2].
  apply Z.eqb_eq in H1. apply bool_decide_eq_true in H2. done.
Qed.

(** ** Loading the pairs back *)

Definition holds (g mm : Z -> Z) (loc : Z) (l : list (Z * Z)) : Prop :=
  forall i a b, l !! i = Some (a, b) ->
    mm (loc - 16 * Z.of_nat i) = g a /\ mm (loc - 16 * Z.of_nat i - 8) = g b.

Lemma load_pairs_restores (g mm : Z -> Z) (l : list (Z * Z)) (loc : Z) (f : Z -> Z) (r : Z) :
  holds g mm loc l -> f r = g r \/ (exists i, r = (l !!! i).1 /\ (i < length l)%nat \/
                                              r = (l !!! i).2 /\ (i < length l)%nat) ->
  load_pairs mm l loc f r = g r.
Proof.
  revert loc f; induction l as [|[a b] l IH]; intros loc f Hh Hr; cbn [load_pairs].
  { destruct Hr as [?|(i & [[_ H]|[_ H]])]; [done|cbn in H; lia..]. }
  destruct (Hh 0%nat a b eq_refl) as [Ha Hb].
  replace (loc - 16 * Z.of_nat 0) with loc in * by lia. rewrite Ha, Hb.
  apply IH.
  { intros i a' b' Hi. specialize (Hh (S i) a' b' Hi).
    by replace (loc - 16 - 16 * Z.of_nat i) with (loc - 16 * Z.of_nat (S i)) by lia. }
  destruct (decide (r = b)) as [->|Hb']; [left; by rewrite upd_same|].
  destruct (decide (r = a)) as [->|Ha']; [left; by rewrite upd_other, upd_same|].
  rewrite !upd_other by done. destruct Hr as [?|([|i] & H)]; [by left|cbn in H; intuition congruence|].
  right; exists i. cbn in H. destruct H as [[H ?]|[H ?]]; [left|right]; (split; [exact H|lia]).
Qed.

(** ** The caller is recovered *)

(** What unwinding promises: the caller's stack pointer, return address and
    preserved registers. *)
Definition recovers (enc : Z) (m0 m : Machine) : Prop :=
  exists regs, compact_step enc m = Some (regs, reg m0 30) /\ regs 31 = reg m0 31 /\
    forall r, preserved r = true -> r <> 30 -> regs r = reg m0 r.

Section Framed.
Context (func : MachFunction) (outgoing : Z) (red dyn : bool) (m0 : Machine).
Context (Hwf : wf_func func) (Hout : 0 <= outgoing <= 2 ^ 30).
Let layout := compute_frame_layout_inner func outgoing red dyn.
Context (Hal : reg m0 31 mod 16 = 0) (Hsp : total_frame_size layout <= reg m0 31 < 2 ^ 64).
Let extras := extra_pairs (gpr_used (scan_function func)) (fpr_used (scan_function func)).
Context (Hfp : uses_frame_pointer layout = true) (Hdyn : has_dynamic_alloc layout = false).

Lemma framed_encoding :
  Z.land (encode_compact_unwind layout) 0x0F000000 = 0x04000000 /\
  flagged_pairs (encode_compact_unwind layout) = map storage extras.
Proof.
  unfold encode_compact_unwind. rewrite Hfp, Hdyn; cbn [negb].
  pose proof (layout_pairs func outgoing red dyn) as Hp. fold layout extras in Hp.
  rewrite Hp, Hfp. apply extra_pairs_flags.
Qed.

(** The state of the body: the saved cells still hold the entry values. *)
Lemma body_cells (m1 m2 : Machine) :
  exec_insts (emit_prologue layout) m0 = Some m1 -> body_ok layout (reg m0 31) m1 m2 ->
  reg m2 29 = reg m0 31 - 16 /\
  (forall j, (j <= length extras)%nat -> saved_at layout (reg m0 31) m0 (mem m2) j) /\
  (forall r, preserved r = true -> r ∉ saved_regs layout -> reg m2 r = reg m0 r).
Proof.
  destruct (computed_sides func outgoing red dyn m0 Hwf Hout Hsp Hfp) as (Hp & Hex & Hl & Hc & Hsp' & Ha0 & Hadj).
  fold layout extras in Hp, Hex, Hl, Hc, Hsp', Ha0, Hadj.
  assert (Hadj' : 0 <= sp_adjustment layout /\
                  callee_saved_area_size layout + sp_adjustment layout <= reg m0 31) by lia.
  destruct (prologue_exec layout extras (reg m0 31) m0 Hp Hex Hl Hc Hal Hsp' Hfp Hadj' eq_refl)
    as (m & He & _ & H29 & Hregs & _ & Hsv & _).
  rewrite He; intros [= <-] (B1 & B2 & _ & B4). split; [by rewrite B2|split].
  - intros j Hj. destruct (Hsv j Hj) as [S1 S2]. unfold saved_at in *.
    rewrite !B1 by (unfold slot_addr; lia). done.
  - intros r Hr Hs. rewrite B4 by done. apply Hregs.
    + unfold preserved, callee_reg, within in Hr; lia.
    + intros ->. apply Hs, (saved_regs_cells func outgoing red dyn m0 Hwf Hout Hsp _ Hfp).
      exists 0%nat; split; [lia|by left].
Qed.

Lemma cell_regs_extra (i : nat) :
  (i < length extras)%nat -> cell_regs layout (S i) = ((storage (extras !!! i)).2, (storage (extras !!! i)).1).
Proof.
  intros Hi. destruct (computed_sides func outgoing red dyn m0 Hwf Hout Hsp Hfp) as (Hp & _).
  fold layout extras in Hp. unfold cell_regs; cbn [Nat.eqb]. rewrite Hp.
  change ((frame_record :: extras) !!! S i) with (extras !!! i). by destruct (storage _).
Qed.

Lemma framed_recovers (m1 m2 : Machine) :
  exec_insts (emit_prologue layout) m0 = Some m1 -> body_ok layout (reg m0 31) m1 m2 ->
  recovers (encode_compact_unwind layout) m0 m2.
Proof.
  intros He Hb. destruct (body_cells m1 m2 He Hb) as (H29 & Hsv & Hr).
  destruct framed_encoding as [Emode Eflags]. unfold recovers, compact_step.
  rewrite Emode, Eflags, H29; cbn [Z.eqb Pos.eqb].
  destruct (Hsv 0%nat ltac:(lia)) as [S1 S2]. unfold slot_addr in S1, S2; cbn [cell_regs Nat.eqb fst snd] in S1, S2.
  replace (reg m0 31 - 16 * (Z.of_nat 0 + 1)) with (reg m0 31 - 16) in * by lia.
  rewrite S1, S2. eexists; split; [reflexivity|]. split; [rewrite upd_same; lia|].
  intros r Hp H30. rewrite upd_other by (unfold preserved, callee_reg, within in Hp; lia).
  destruct (decide (r = 29)) as [->|H29']; [by rewrite upd_same|]. rewrite upd_other by done.
  apply load_pairs_restores.
  - intros i a b Hi. apply list_lookup_fmap_Some in Hi as (p & E & Hi).
    pose proof (lookup_lt_Some _ _ _ Hi) as Hlt. destruct (Hsv (S i) Hlt) as [T1 T2].
    rewrite (cell_regs_extra i Hlt) in T1, T2. rewrite (list_lookup_total_correct _ _ _ Hi), <- E in T1, T2.
    unfold slot_addr in T1, T2; cbn [fst snd] in T1, T2. split; [rewrite <- T2|rewrite <- T1]; f_equal; lia.
  - destruct (decide (r ∈ saved_regs layout)) as [Hs|Hs]; [right|left; by apply Hr].
    apply (saved_regs_cells func outgoing red dyn m0 Hwf Hout Hsp _ Hfp) in Hs as ([|i] & Hi & Hc).
    { unfold cell_reg in Hc; cbn in Hc; lia. }
    exists i. rewrite length_map. unfold cell_reg in Hc. fold layout in Hc. rewrite (cell_regs_extra i Hi) in Hc; cbn [fst snd] in Hc.
    change (map storage extras) with (storage <$> extras). rewrite (list_lookup_total_fmap storage extras i) by exact Hi.
    destruct Hc as [-> | ->]; [right|left]; (split; [done|exact Hi]).
Qed.
End Framed.

(** C11: Compact unwind information is right in the body.  For every function
    layout: if it allocates stack dynamically its encoding sends the unwinder to
    DWARF; otherwise, from every state a body that keeps to its contract reaches
    after the prologue, the unwinder's step on the encoding gives the caller's
    stack pointer, the return address and the caller's value of every preserved
    register, floating-point registers included. *)
Theorem compact_unwind_recovers (func : MachFunction) (outgoing : Z) (red dyn : bool) (m0 m1 m2 : Machine) :
  wf_func func -> 0 <= outgoing <= 2 ^ 30 -> reg m0 31 mod 16 = 0 ->
  total_frame_size (compute_frame_layout_inner func outgoing red dyn) <= reg m0 31 < 2 ^ 64 ->
  let layout := compute_frame_layout_inner func outgoing red dyn in
  exec_insts (emit_prologue layout) m0 = Some m1 -> body_ok layout (reg m0 31) m1 m2 ->
  if has_dynamic_alloc layout then needs_dwarf_fallback (encode_compact_unwind layout) = true
  else recovers (encode_compact_unwind layout) m0 m2.
Proof.
  intros Hwf Hout Hal Hsp layout He Hb.
  destruct (uses_frame_pointer layout) eqn:Hfp.
  - destruct (has_dynamic_alloc layout) eqn:Hd.
    + unfold encode_compact_unwind. by rewrite Hfp, Hd.
    + by eapply framed_recovers.
  - destruct (frameless_sequences func outgoing red dyn Hfp) as (Hp & _ & _ & Ht & Hd & Hs).
    fold layout in Hp, Ht, Hd, Hs. rewrite Hd. rewrite Hp in He; injection He as <-.
    destruct (layout_frameless func outgoing red dyn Hfp) as (Hps & _). fold layout in Hps.
    unfold encode_compact_unwind. rewrite Hfp, Hd, Ht, Hps; cbn [negb andb Z.eqb length Nat.eqb].
    destruct Hb as (_ & _ & B3 & B4). rewrite Hs in B4. specialize (B3 Hd).
    assert (compact_step UNWIND_ARM64_MODE_FRAMELESS m2 = Some (upd (reg m2) 31 (reg m2 31 + 0), reg m2 30))
      as E by reflexivity.
    unfold recovers. rewrite E, (B4 30) by (done || apply not_elem_of_nil). eexists; split; [reflexivity|].
    split; [rewrite upd_same, B3; lia|]. intros r Hr _.
    rewrite upd_other by (unfold preserved, callee_reg, within in Hr; lia).
    apply B4; [done|apply not_elem_of_nil].
Qed.

Lemma compact_unwind_recovers_witness :
  let layout := compute_frame_layout_inner demo_frame_func 0 true false in
  exists m1, exec_insts (emit_prologue layout) demo_machine = Some m1 /\
    recovers (encode_compact_unwind layout) demo_machine m1.
Proof.
  intros layout. destruct (exec_insts (emit_prologue layout) demo_machine) as [m1|] eqn:E;
    [|vm_compute in E; discriminate E].
  exists m1; split; [done|].
  apply (compact_unwind_recovers demo_frame_func 0 true false demo_machine m1 m1).
  - split; [|by vm_compute]. repeat constructor; cbn; try lia. exists 3; lia.
  - lia.
  - by vm_compute.
  - vm_compute; split; congruence.
  - exact E.
  - unfold body_ok; split_and!; intros; done.
Defined.
