(* ===== verification/MachFunc.v ===== *)
(** * Machine functions and their validation
      ([crates/trust-cg-ir/src/function.rs], [inst.rs], [operand.rs];
       [crates/trust-cg-codegen/src/pipeline.rs],
       [validate_aarch64_mach_function_impl])

    Functions as arenas of blocks and instructions, the control-flow edges their
    branch operands imply, and the totality check that every later pass runs before
    it indexes the arenas. *)

From S2P Require Import Prelude Regs.
Local Open Scope Z_scope.

(** ** Instructions

    Block, instruction, slot and jump-table ids are indices, kept as [nat]. *)

Inductive SpecialReg := SpecSP | SpecXZR | SpecWZR.

Inductive MachOperand :=
  | VRegOp (v : VReg)
  | PRegOp (p : PReg)
  | Imm (i : Z)
  | FImm (bits : Z)
  | Block (b : nat)
  | StackSlotOp (s : nat)
  | FrameIndex (i : Z)
  | MemOp (base : PReg) (offset : Z)
  | Special (s : SpecialReg)
  | Symbol (name : string)
  | JumpTableIndex (i : nat)
  | IncomingArg (offset : Z).

(** The opcodes the passes modelled here test for or emit; [OtherOp] is any other
    opcode of the source's enumeration, by its discriminant. *)
Inductive Opcode :=
  | B | TailCall | BCond | Bcc | Cbz | Cbnz | Tbz | Tbnz | Br | Ret | Brk | AlignNop | Nop
  | OtherOp (discriminant : Z).

#[export] Instance Opcode_eq_dec : EqDecision Opcode.
Proof. solve_decision. Defined.

(** [InstFlags], a [u16] of which these bits are read. *)
Abbreviation IS_CALL := (0x01)%Z (only parsing).
Abbreviation IS_BRANCH := (0x02)%Z (only parsing).
Abbreviation IS_RETURN := (0x04)%Z (only parsing).
Abbreviation IS_TERMINATOR := (0x08)%Z (only parsing).
Abbreviation HAS_SIDE_EFFECTS := (0x10)%Z (only parsing).
Abbreviation IS_PSEUDO := (0x20)%Z (only parsing).
Abbreviation READS_MEMORY := (0x40)%Z (only parsing).
Abbreviation WRITES_MEMORY := (0x80)%Z (only parsing).

Definition flags_contain (flags other : Z) : bool := Z.land flags other =? other.

Record MachInst := mkInst {
  opcode : Opcode;
  operands : list MachOperand;
  implicit_defs : list PReg;
  implicit_uses : list PReg;
  flags : Z }.

(** [AArch64Opcode::default_flags], for the opcodes named above. *)
Definition default_flags (op : Opcode) : Z :=
  match op with
  | B | BCond | Cbz | Cbnz | Tbz | Tbnz | Br | Bcc => Z.lor IS_BRANCH IS_TERMINATOR
  | TailCall =>
      Z.lor (Z.lor (Z.lor (Z.lor (Z.lor IS_CALL IS_BRANCH) IS_TERMINATOR) HAS_SIDE_EFFECTS)
               READS_MEMORY) WRITES_MEMORY
  | Ret => Z.lor IS_RETURN IS_TERMINATOR
  | Brk | AlignNop => HAS_SIDE_EFFECTS
  | Nop => IS_PSEUDO
  | OtherOp _ => 0
  end.

Definition MachInst_new (op : Opcode) (ops : list MachOperand) : MachInst :=
  mkInst op ops [] [] (default_flags op).

Definition is_branch (i : MachInst) : bool := flags_contain (flags i) IS_BRANCH.
Definition is_return (i : MachInst) : bool := flags_contain (flags i) IS_RETURN.
Definition is_terminator (i : MachInst) : bool := flags_contain (flags i) IS_TERMINATOR.
Definition is_pseudo (i : MachInst) : bool := flags_contain (flags i) IS_PSEUDO.

Definition is_unconditional_branch (op : Opcode) : bool :=
  match op with B | TailCall | Br => true | _ => false end.

Definition is_conditional_branch (op : Opcode) : bool :=
  match op with BCond | Bcc | Cbz | Cbnz | Tbz | Tbnz => true | _ => false end.

(** ** Functions *)

Record MachBlock := mkBlock { block_insts : list nat; preds : list nat; succs : list nat }.

#[export] Instance MachBlock_inhabited : Inhabited MachBlock := populate (mkBlock [] [] []).
#[export] Instance MachInst_inhabited : Inhabited MachInst := populate (mkInst Nop [] [] [] 0).

Record LandingPadEntry := mkLandingPad { lp_block : nat }.

Record EhCallSiteEntry := mkCallSite { call_block : nat; landing_pad_block : option nat }.

Record ExceptionHandlingMetadata := mkEh {
  personality : option string;
  landing_pads : list LandingPadEntry;
  call_sites : list EhCallSiteEntry }.

(** [MachFunction], without the fields none of the passes here reads; of the stack
    slots and jump tables, what they read. *)
Record MachFunction := mkFunc {
  name : string;
  insts : list MachInst;
  blocks : list MachBlock;
  block_order : list nat;
  entry : nat;
  num_stack_slots : nat;
  stack_protector_slot : option nat;
  jump_tables : list (list nat);
  eh_metadata : ExceptionHandlingMetadata }.

Definition inst (func : MachFunction) (id : nat) : MachInst := insts func !!! id.
Definition block (func : MachFunction) (id : nat) : MachBlock := blocks func !!! id.

Definition with_arenas (func : MachFunction) (i : list MachInst) (b : list MachBlock) : MachFunction :=
  mkFunc (name func) i b (block_order func) (entry func) (num_stack_slots func)
    (stack_protector_slot func) (jump_tables func) (eh_metadata func).

Definition push_inst (func : MachFunction) (i : MachInst) : nat * MachFunction :=
  (length (insts func), with_arenas func (insts func ++ [i]) (blocks func)).

Definition has_eh_info (eh : ExceptionHandlingMetadata) : bool :=
  bool_decide (is_Some (personality eh)) || negb (length (landing_pads eh) =? 0)%nat
  || negb (length (call_sites eh) =? 0)%nat.

(** ** Control-flow edges implied by the operands
       ([derive_ir_cfg_edges_from_branch_operands]) *)

Definition operand_targets (op : MachOperand) : list nat :=
  match op with Block b => [b] | _ => [] end.

Definition inst_targets (i : MachInst) : list nat := operands i ≫= operand_targets.

Definition jump_table_targets (func : MachFunction) (op : MachOperand) : list nat :=
  match op with
  | JumpTableIndex idx => default [] (jump_tables func !! idx)
  | _ => []
  end.

(** The last instruction that is neither a pseudo nor alignment padding. *)
Definition last_real_inst (func : MachFunction) (blk : MachBlock) : option MachInst :=
  head (filter (fun i => is_pseudo i = false /\ opcode i <> AlignNop)
          (omap (fun id => insts func !! id) (rev (block_insts blk)))).

Definition hard_terminator (i : MachInst) : bool :=
  is_unconditional_branch (opcode i) || is_return i || bool_decide (opcode i = Brk)
  || (is_terminator i && negb (is_conditional_branch (opcode i))).

Definition inst_edges (func : MachFunction) (i : MachInst) : list nat :=
  (operands i ≫= jump_table_targets func)
  ++ (if negb (is_branch i) && negb (is_terminator i) then [] else inst_targets i).

Definition block_edges (func : MachFunction) (layout_idx block_id : nat) : list (nat * nat) :=
  match blocks func !! block_id with
  | None => []
  | Some blk =>
      let explicit := omap (fun id => insts func !! id) (block_insts blk) ≫= inst_edges func in
      let hard := match last_real_inst func blk with Some i => hard_terminator i | None => false end in
      let fallthrough :=
        if hard then []
        else match block_order func !! S layout_idx with Some f => [f] | None => [] end in
      map (pair block_id) (explicit ++ fallthrough)
  end.

Definition derive_ir_cfg_edges_from_branch_operands (func : MachFunction) : list (nat * nat) :=
  concat (imap (block_edges func) (block_order func))
  ++ (call_sites (eh_metadata func) ≫= fun cs =>
        match landing_pad_block cs with Some lp => [(call_block cs, lp)] | None => [] end).

(** ** Personality symbols ([exception_handling.rs]) *)

Inductive PersonalitySymbolError := Missing | Empty | EmbeddedNul.

Definition canonical_personality_symbol (s : string) : string :=
  if bool_decide (s = "_rust_eh_personality"%string) || bool_decide (s = "__rust_eh_personality"%string)
  then "rust_eh_personality"%string else s.

Definition required_personality_symbol (s : option string) : PersonalitySymbolError + string :=
  match s with
  | None => inl Missing
  | Some s =>
      if bool_decide (s = EmptyString) then inl Empty
      else if bool_decide (Ascii.zero ∈ String.list_ascii_of_string s) then inl EmbeddedNul
      else inr (canonical_personality_symbol s)
  end.

(** ** The totality check *)

Inductive CfgStage := SymbolicAuthority | ResolvedEncoding.

#[export] Instance CfgStage_eq_dec : EqDecision CfgStage.
Proof. solve_decision. Defined.

Inductive Malformed :=
  | InvalidPersonality (e : PersonalitySymbolError)
  | EntryOutside (entry : nat)
  | OrderInvalidBlock (b : nat)
  | OrderDuplicateBlock (b : nat)
  | OrderEntry (first : option nat)
  | EdgeInvalid (b edge : nat)
  | EdgeNotLaidOut (b edge : nat)
  | InstOutside (b id : nat)
  | InstLinkedTwice (id : nat)
  | TailCallFlags (id : nat)
  | TailCallTarget (id : nat)
  | BranchCallMetadata (id : nat)
  | ResolvedImmediate (id : nat)
  | OperandBlockInvalid (id target : nat)
  | OperandBlockNotLaidOut (b id target : nat)
  | OperandSlotOutside (id slot : nat)
  | OperandTableOutside (id index : nat)
  | ProtectorSlotOutside (slot : nat)
  | TableTargetInvalid (table target : nat)
  | TableTargetNotLaidOut (table target : nat)
  | LandingPadInvalid (b : nat)
  | LandingPadNotLaidOut (b : nat)
  | CallSiteInvalid (b : nat)
  | CallSiteNotLaidOut (b : nat)
  | CallSitePadInvalid (b : nat)
  | CallSitePadNotLaidOut (b : nat)
  | EdgeEscapes (from to : nat)
  | DuplicateSuccs (b : nat)
  | SuccsMismatch (b : nat)
  | DuplicatePreds (b : nat)
  | PredsMismatch (b : nat).

(** [Result<(), Malformed>] as the error, if any. *)
Definition Verdict := option Malformed.

Declare Scope verdict_scope.
Delimit Scope verdict_scope with verdict.
Notation "a ;; b" := (match a with Some e => Some e | None => b end)
  (at level 100, b at level 200, right associativity) : verdict_scope.
Local Open Scope verdict_scope.

Definition require (b : bool) (e : Malformed) : Verdict := if b then None else Some e.

Fixpoint each {A} (f : A -> Verdict) (l : list A) : Verdict :=
  match l with [] => None | x :: l => f x ;; each f l end.

Section Validate.
Context (func : MachFunction) (stage : CfgStage).

Definition valid_block (b : nat) : bool := (b <? length (blocks func))%nat.

(** The loop over [block_order]; the set of the blocks seen is its [seen]. *)
Fixpoint check_order (seen : gset nat) (order : list nat) : Verdict :=
  match order with
  | [] => None
  | b :: order =>
      require (valid_block b) (OrderInvalidBlock b) ;;
      require (bool_decide (b ∉ seen)) (OrderDuplicateBlock b) ;;
      check_order ({[b]} ∪ seen) order
  end.

Definition seen : gset nat := list_to_set (block_order func).
Definition is_seen (b : nat) : bool := bool_decide (b ∈ seen).

Definition check_edge (block_id edge : nat) : Verdict :=
  require (valid_block edge) (EdgeInvalid block_id edge) ;;
  require (negb (is_seen block_id && negb (is_seen edge))) (EdgeNotLaidOut block_id edge).

Definition tail_call_operands_ok (ops : list MachOperand) : bool :=
  match ops with [Symbol _] | [Block _] | [Imm _] => true | _ => false end.

Definition check_opcode (id : nat) (i : MachInst) : Verdict :=
  if decide (opcode i = TailCall) then
    require (flags i =? default_flags TailCall) (TailCallFlags id) ;;
    require (tail_call_operands_ok (operands i)) (TailCallTarget id)
  else if decide (opcode i = B) then
    require ((length (implicit_uses i) =? 0)%nat && (length (implicit_defs i) =? 0)%nat
             && negb (flags_contain (flags i) IS_CALL)) (BranchCallMetadata id)
  else None.

Definition is_block (op : MachOperand) : bool := match op with Block _ => true | _ => false end.
Definition is_imm (op : MachOperand) : bool := match op with Imm _ => true | _ => false end.

Definition check_symbolic (block_id id : nat) (i : MachInst) : Verdict :=
  if is_seen block_id && is_branch i then
    require (negb (negb (existsb is_block (operands i)) && existsb is_imm (operands i)
                   && bool_decide (stage = SymbolicAuthority))) (ResolvedImmediate id)
  else None.

Definition check_operand (block_id id : nat) (op : MachOperand) : Verdict :=
  match op with
  | Block target =>
      require (valid_block target) (OperandBlockInvalid id target) ;;
      require (negb (is_seen block_id && negb (is_seen target)))
        (OperandBlockNotLaidOut block_id id target)
  | StackSlotOp slot => require (slot <? num_stack_slots func)%nat (OperandSlotOutside id slot)
  | JumpTableIndex idx =>
      require (idx <? length (jump_tables func))%nat (OperandTableOutside id idx)
  | _ => None
  end.

(** The instructions of a block; [linked] is threaded through all blocks. *)
Fixpoint check_insts (block_id : nat) (linked : gset nat) (ids : list nat) : Malformed + gset nat :=
  match ids with
  | [] => inr linked
  | id :: ids =>
      match insts func !! id with
      | None => inl (InstOutside block_id id)
      | Some i =>
          match (require (bool_decide (id ∉ linked)) (InstLinkedTwice id) ;;
                 check_opcode id i ;; check_symbolic block_id id i ;;
                 each (check_operand block_id id) (operands i)) with
          | Some e => inl e
          | None => check_insts block_id ({[id]} ∪ linked) ids
          end
      end
  end.

Fixpoint check_blocks (block_id : nat) (linked : gset nat) (l : list MachBlock) : Verdict :=
  match l with
  | [] => None
  | blk :: l =>
      each (check_edge block_id) (preds blk ++ succs blk) ;;
      match check_insts block_id linked (block_insts blk) with
      | inl e => Some e
      | inr linked => check_blocks (S block_id) linked l
      end
  end.

Definition check_target (invalid not_laid_out : Malformed) (b : nat) : Verdict :=
  require (valid_block b) invalid ;; require (is_seen b) not_laid_out.

Definition check_table (idx : nat) (targets : list nat) : Verdict :=
  each (fun t => check_target (TableTargetInvalid idx t) (TableTargetNotLaidOut idx t) t) targets.

Definition check_call_site (cs : EhCallSiteEntry) : Verdict :=
  check_target (CallSiteInvalid (call_block cs)) (CallSiteNotLaidOut (call_block cs)) (call_block cs) ;;
  match landing_pad_block cs with
  | Some t => check_target (CallSitePadInvalid t) (CallSitePadNotLaidOut t) t
  | None => None
  end.

(** The exact match of the recorded successors and predecessors with the edges
    derived from the instructions. *)
Definition expected_succs (edges : list (nat * nat)) (b : nat) : gset nat :=
  list_to_set (map snd (filter (fun e => e.1 = b) edges)).
Definition expected_preds (edges : list (nat * nat)) (b : nat) : gset nat :=
  list_to_set (map fst (filter (fun e => e.2 = b) edges)).

Definition check_metadata (edges : list (nat * nat)) (b : nat) : Verdict :=
  let actual_succs : gset nat := list_to_set (succs (block func b)) in
  let actual_preds : gset nat := list_to_set (preds (block func b)) in
  require (size actual_succs =? length (succs (block func b)))%nat (DuplicateSuccs b) ;;
  require (bool_decide (actual_succs = expected_succs edges b)) (SuccsMismatch b) ;;
  require (size actual_preds =? length (preds (block func b)))%nat (DuplicatePreds b) ;;
  require (bool_decide (actual_preds = expected_preds edges b)) (PredsMismatch b).

Definition check_authority : Verdict :=
  let edges := derive_ir_cfg_edges_from_branch_operands func in
  each (fun e : nat * nat => require (is_seen e.1 && is_seen e.2) (EdgeEscapes e.1 e.2)) edges ;;
  each (check_metadata edges) (block_order func).

Definition validate_aarch64_mach_function_impl : Verdict :=
  (if has_eh_info (eh_metadata func) then
     match required_personality_symbol (personality (eh_metadata func)) with
     | inl e => Some (InvalidPersonality e)
     | inr _ => None
     end
   else None) ;;
  require (valid_block (entry func)) (EntryOutside (entry func)) ;;
  check_order ∅ (block_order func) ;;
  require (bool_decide (head (block_order func) = Some (entry func))) (OrderEntry (head (block_order func))) ;;
  check_blocks 0 ∅ (blocks func) ;;
  match stack_protector_slot func with
  | Some slot => require (slot <? num_stack_slots func)%nat (ProtectorSlotOutside slot)
  | None => None
  end ;;
  each (fun v => v) (imap check_table (jump_tables func)) ;;
  each (fun lp => check_target (LandingPadInvalid (lp_block lp)) (LandingPadNotLaidOut (lp_block lp))
                    (lp_block lp)) (landing_pads (eh_metadata func)) ;;
  each check_call_site (call_sites (eh_metadata func)) ;;
  if decide (stage = SymbolicAuthority) then check_authority else None.
End Validate.

Definition validate_aarch64_mach_function_totality (func : MachFunction) : Verdict :=
  validate_aarch64_mach_function_impl func ResolvedEncoding.
Definition validate_aarch64_mach_function (func : MachFunction) : Verdict :=
  validate_aarch64_mach_function_impl func SymbolicAuthority.

(** ** What the check guarantees *)

Lemma seq_none (a b : Verdict) : (a ;; b) = None <-> a = None /\ b = None.
Proof. destruct a; naive_solver. Qed.

Lemma require_none (b : bool) (e : Malformed) : require b e = None <-> b = true.
Proof. destruct b; naive_solver. Qed.

Lemma each_none {A} (f : A -> Verdict) (l : list A) : each f l = None <-> Forall (fun x => f x = None) l.
Proof.
  induction l as [|x l IH]; cbn [each]; [by split|]. rewrite seq_none, Forall_cons. by rewrite IH.
Qed.

Lemma check_target_none (func : MachFunction) (e1 e2 : Malformed) (b : nat) :
  check_target func e1 e2 b = None <-> (b < length (blocks func))%nat /\ b ∈ block_order func.
Proof.
  unfold check_target, is_seen, seen, valid_block. rewrite seq_none, !require_none, Nat.ltb_lt.
  by rewrite bool_decide_eq_true, elem_of_list_to_set.
Qed.

Lemma laid_out_none (func : MachFunction) (b t : nat) :
  negb (is_seen func b && negb (is_seen func t)) = true <->
  (b ∈ block_order func -> t ∈ block_order func).
Proof.
  unfold is_seen, seen. rewrite <- (elem_of_list_to_set (C := gset nat) t), <- (elem_of_list_to_set (C := gset nat) b).
  repeat case_bool_decide; cbn; naive_solver.
Qed.

Lemma check_order_none (func : MachFunction) (order : list nat) (s : gset nat) :
  check_order func s order = None <->
  Forall (fun b => (b < length (blocks func))%nat) order /\ NoDup order /\ forall b, b ∈ order -> b ∉ s.
Proof.
  revert s; induction order as [|b order IH]; intros s; cbn [check_order].
  { split; [intros _|done]. split; [done|split; [constructor|]]. by intros b ?%elem_of_nil. }
  rewrite !seq_none, !require_none, IH, NoDup_cons, Forall_cons, bool_decide_eq_true.
  unfold valid_block; rewrite Nat.ltb_lt. split.
  - intros (H1 & H2 & H3 & H4 & H5). split_and!; [done|done|set_solver|done|].
    intros b' [->|Hb']%elem_of_cons; [done|set_solver].
  - intros ([H1 H2] & [H3 H4] & H5). split_and!; [done|apply H5; by left|done|done|].
    intros b' Hb'. specialize (H5 b' ltac:(by right)). set_solver.
Qed.

(** What the check establishes of one instruction. *)
Definition inst_ok (func : MachFunction) (block_id : nat) (i : MachInst) : Prop :=
  (opcode i = TailCall -> flags i = default_flags TailCall) /\
  (forall t, Block t ∈ operands i -> (t < length (blocks func))%nat /\
                                     (block_id ∈ block_order func -> t ∈ block_order func)) /\
  (forall s, StackSlotOp s ∈ operands i -> (s < num_stack_slots func)%nat) /\
  (forall j, JumpTableIndex j ∈ operands i -> (j < length (jump_tables func))%nat).

Lemma check_operands_none (func : MachFunction) (b id : nat) (i : MachInst) :
  check_opcode id i = None -> each (check_operand func b id) (operands i) = None -> inst_ok func b i.
Proof.
  intros Ho He. rewrite each_none, Forall_forall in He. split; [|split; [|split]].
  - intros E. unfold check_opcode in Ho. rewrite decide_True in Ho by done.
    apply seq_none in Ho as [Ho _]. by apply require_none, Z.eqb_eq in Ho.
  - intros t Ht%He. cbn [check_operand] in Ht. rewrite seq_none, !require_none, laid_out_none in Ht.
    unfold valid_block in Ht. by rewrite Nat.ltb_lt in Ht.
  - intros s Hs%He. cbn [check_operand] in Hs. by apply require_none, Nat.ltb_lt in Hs.
  - intros j Hj%He. cbn [check_operand] in Hj. by apply require_none, Nat.ltb_lt in Hj.
Qed.

Lemma check_insts_inr (func : MachFunction) (stage : CfgStage) (b : nat) (ids : list nat) (s s' : gset nat) :
  check_insts func stage b s ids = inr s' ->
  s' = s ∪ list_to_set ids /\ NoDup ids /\ (forall id, id ∈ ids -> id ∉ s) /\
  (forall id, id ∈ ids -> (id < length (insts func))%nat /\ inst_ok func b (inst func id)).
Proof.
  revert s; induction ids as [|id ids IH]; intros s; cbn [check_insts].
  { intros [= <-]. split; [set_solver|]. split; [constructor|]. split; by intros ? ?%elem_of_nil. }
  destruct (insts func !! id) as [i|] eqn:Ei; [|done].
  destruct (_ ;; _) eqn:E; [done|]. rewrite !seq_none, require_none, bool_decide_eq_true in E.
  destruct E as (Hn & Ho & _ & He). intros (-> & Hd & Hs & Hi)%IH.
  assert (Hid : (id < length (insts func))%nat /\ inst_ok func b (inst func id)).
  { split; [by eapply lookup_lt_Some|]. unfold inst. rewrite (list_lookup_total_correct _ _ _ Ei).
    by eapply check_operands_none. }
  split; [cbn; set_solver|]. split; [apply NoDup_cons; split; [|done]; intros ?%Hs; set_solver|].
  split; [|by intros x [->|Hx]%elem_of_cons; [|apply Hi]].
  intros x [->|Hx]%elem_of_cons; [done|]. specialize (Hs x Hx). set_solver.
Qed.

Definition all_inst_ids (l : list MachBlock) : list nat := l ≫= block_insts.

Definition block_ok (func : MachFunction) (block_id : nat) (blk : MachBlock) : Prop :=
  (forall e, e ∈ preds blk ++ succs blk ->
     (e < length (blocks func))%nat /\ (block_id ∈ block_order func -> e ∈ block_order func)) /\
  (forall id, id ∈ block_insts blk ->
     (id < length (insts func))%nat /\ inst_ok func block_id (inst func id)).

Lemma check_blocks_none (func : MachFunction) (stage : CfgStage) (l : list MachBlock) (k : nat) (s : gset nat) :
  check_blocks func stage k s l = None ->
  NoDup (all_inst_ids l) /\ (forall id, id ∈ all_inst_ids l -> id ∉ s) /\
  (forall j blk, l !! j = Some blk -> block_ok func (k + j) blk).
Proof.
  revert k s; induction l as [|blk l IH]; intros k s; cbn [check_blocks].
  { intros _. split; [constructor|]. split; [by intros ? ?%elem_of_nil|done]. }
  rewrite seq_none, each_none, Forall_forall. intros [He H].
  destruct (check_insts _ _ _ _ _) as [|s'] eqn:Ei; [done|].
  apply check_insts_inr in Ei as (-> & Hd & Hs & Hi). apply IH in H as (Hd' & Hs' & Hj).
  change (all_inst_ids (blk :: l)) with (block_insts blk ++ all_inst_ids l).
  split; [|split].
  - apply NoDup_app; split; [done|]. split; [|done]. intros x Hx Hx'. apply (Hs' x Hx'). set_solver.
  - intros x [Hx|Hx]%elem_of_app; [by apply Hs|]. specialize (Hs' x Hx). set_solver.
  - intros [|j] blk' Hl; [|replace (k + S j)%nat with (S k + j)%nat by lia; by apply Hj].
    injection Hl as <-. rewrite Nat.add_0_r. split; [|done].
    intros e Hin%He. unfold check_edge in Hin. rewrite seq_none, !require_none, laid_out_none in Hin.
    unfold valid_block in Hin. by rewrite Nat.ltb_lt in Hin.
Qed.

(** Every id a pass follows is in its arena, every instruction is linked at most
    once, and the layout is closed under the block operands, jump tables and
    landing pads of the blocks in it. *)
Record well_formed (func : MachFunction) : Prop := {
  wf_order : NoDup (block_order func) /\ head (block_order func) = Some (entry func);
  wf_order_range : forall b, b ∈ block_order func -> (b < length (blocks func))%nat;
  wf_linked_once : NoDup (all_inst_ids (blocks func));
  wf_blocks : forall b blk, blocks func !! b = Some blk -> block_ok func b blk;
  wf_protector : forall s, stack_protector_slot func = Some s -> (s < num_stack_slots func)%nat;
  wf_tables : forall l t, l ∈ jump_tables func -> t ∈ l -> t ∈ block_order func;
  wf_landing_pads : forall lp, lp ∈ landing_pads (eh_metadata func) -> lp_block lp ∈ block_order func;
  wf_call_sites : forall cs, cs ∈ call_sites (eh_metadata func) ->
    call_block cs ∈ block_order func /\
    forall t, landing_pad_block cs = Some t -> t ∈ block_order func;
  wf_personality : has_eh_info (eh_metadata func) = true ->
    exists s, required_personality_symbol (personality (eh_metadata func)) = inr s }.

Lemma validate_well_formed (func : MachFunction) (stage : CfgStage) :
  validate_aarch64_mach_function_impl func stage = None -> well_formed func.
Proof.
  unfold validate_aarch64_mach_function_impl. rewrite !seq_none.
  intros (Hp & He & Ho & Hh & Hb & Hs & Ht & Hl & Hc & _).
  apply check_order_none in Ho as (Hr & Hd & _). rewrite Forall_forall in Hr.
  rewrite require_none, bool_decide_eq_true in Hh.
  apply check_blocks_none in Hb as (Hln & _ & Hbk).
  rewrite each_none, Forall_forall in Ht. rewrite each_none, Forall_forall in Hl.
  rewrite each_none, Forall_forall in Hc. split; try done.
  - intros s E. rewrite E in Hs. by apply require_none, Nat.ltb_lt in Hs.
  - intros l t [j Hj]%list_elem_of_lookup Hin.
    assert (H : check_table func j l = None).
    { apply Ht, list_elem_of_lookup. exists j. by rewrite list_lookup_imap, Hj. }
    unfold check_table in H. rewrite each_none, Forall_forall in H.
    apply H, check_target_none in Hin. tauto.
  - intros lp Hin%Hl. apply check_target_none in Hin. tauto.
  - intros cs Hin%Hc. unfold check_call_site in Hin. apply seq_none in Hin as [H1 H2].
    apply check_target_none in H1. split; [tauto|]. intros t E. rewrite E in H2.
    apply check_target_none in H2. tauto.
  - intros H. rewrite H in Hp. destruct (required_personality_symbol _); [done|eauto].
Qed.

(** C35: The totality check makes the arenas safe to index.  If either stage of
    [validate_aarch64_mach_function_impl] accepts a function, the layout starts at
    the entry block and has no block twice, every block, instruction, stack slot
    and jump-table id anywhere in the function is inside its arena, no instruction
    is linked from two positions, and every block operand of a laid-out block,
    jump-table target and landing pad is laid out. *)
Theorem validate_totality (func : MachFunction) (stage : CfgStage) :
  validate_aarch64_mach_function_impl func stage = None -> well_formed func.
Proof. apply validate_well_formed. Qed.

(** A loop: block 0 enters block 1, which branches back to itself or returns from
    block 2. *)
Definition demo_loop : MachFunction :=
  mkFunc "loop"
    [ MachInst_new (OtherOp 1) [PRegOp (mkPReg 0); Imm 4];
      MachInst_new (OtherOp 2) [PRegOp (mkPReg 0); PRegOp (mkPReg 0); Imm 1];
      MachInst_new Cbnz [PRegOp (mkPReg 0); Block 1];
      MachInst_new Ret [] ]
    [ mkBlock [0%nat] [] [1%nat];
      mkBlock [1%nat; 2%nat] [0%nat; 1%nat] [1%nat; 2%nat];
      mkBlock [3%nat] [1%nat] [] ]
    [0%nat; 1%nat; 2%nat] 0 0 None [] (mkEh None [] []).

Lemma validate_totality_witness : well_formed demo_loop.
Proof. apply (validate_totality demo_loop SymbolicAuthority). by vm_compute. Defined.

Lemma elem_of_expected_succs (edges : list (nat * nat)) (b c : nat) :
  c ∈ expected_succs edges b <-> (b, c) ∈ edges.
Proof.
  unfold expected_succs. rewrite elem_of_list_to_set. split.
  - intros ([x y] & -> & [E H]%list_elem_of_filter)%list_elem_of_fmap_1. by cbn in E; subst.
  - intros H. apply (list_elem_of_fmap_2 snd _ (b, c)), list_elem_of_filter. done.
Qed.

Lemma elem_of_expected_preds (edges : list (nat * nat)) (b c : nat) :
  c ∈ expected_preds edges b <-> (c, b) ∈ edges.
Proof.
  unfold expected_preds. rewrite elem_of_list_to_set. split.
  - intros ([x y] & -> & [E H]%list_elem_of_filter)%list_elem_of_fmap_1. by cbn in E; subst.
  - intros H. apply (list_elem_of_fmap_2 fst _ (c, b)), list_elem_of_filter. done.
Qed.

Lemma size_list_to_set_le (l : list nat) : (size (list_to_set l : gset nat) <= length l)%nat.
Proof.
  induction l as [|x l IH]; cbn [list_to_set length]; [by rewrite size_empty|].
  rewrite size_union_alt, size_singleton.
  pose proof (subseteq_size ((list_to_set l : gset nat) ∖ {[x]}) (list_to_set l) ltac:(set_solver)). lia.
Qed.

Lemma NoDup_size_list_to_set (l : list nat) :
  size (list_to_set l : gset nat) = length l -> NoDup l.
Proof.
  induction l as [|x l IH]; cbn [length]; [constructor|]. intros H.
  destruct (decide (x ∈ (list_to_set l : gset nat))) as [Hx|Hx].
  - assert (E : (list_to_set (x :: l) : gset nat) = list_to_set l) by (cbn; set_solver).
    rewrite E in H. pose proof (size_list_to_set_le l). lia.
  - cbn [list_to_set] in H. rewrite size_union, size_singleton in H by set_solver.
    rewrite elem_of_list_to_set in Hx. apply NoDup_cons; split; [done|apply IH; lia].
Qed.

(** What the symbolic stage compares: the edges stay in the layout, and the
    recorded lists of a block are the edges from it and to it. *)
Lemma authority_edges (func : MachFunction) :
  validate_aarch64_mach_function func = None ->
  let edges := derive_ir_cfg_edges_from_branch_operands func in
  (forall e, e ∈ edges -> e.1 ∈ block_order func /\ e.2 ∈ block_order func) /\
  (forall x, x ∈ block_order func ->
    (NoDup (succs (block func x)) /\ NoDup (preds (block func x))) /\
    (forall y, y ∈ succs (block func x) <-> (x, y) ∈ edges) /\
    (forall y, y ∈ preds (block func x) <-> (y, x) ∈ edges)).
Proof.
  intros H edges.
  assert (Ha : check_authority func = None).
  { unfold validate_aarch64_mach_function, validate_aarch64_mach_function_impl in H.
    rewrite !seq_none in H. by destruct H as (_ & _ & _ & _ & _ & _ & _ & _ & _ & H). }
  unfold check_authority in Ha. fold edges in Ha. rewrite seq_none, !each_none, !Forall_forall in Ha.
  destruct Ha as [He Hm]. split.
  - intros e Hin%He. rewrite require_none, andb_true_iff in Hin. unfold is_seen, seen in Hin.
    by rewrite !bool_decide_eq_true, !elem_of_list_to_set in Hin.
  - intros x Hx%Hm. unfold check_metadata in Hx.
    rewrite !seq_none, !require_none, !bool_decide_eq_true, !Nat.eqb_eq in Hx.
    destruct Hx as (Hs1 & Hs2 & Hp1 & Hp2). split; [split; by apply NoDup_size_list_to_set|].
    split; intros y.
    + rewrite <- (elem_of_list_to_set (C := gset nat)), Hs2. apply elem_of_expected_succs.
    + rewrite <- (elem_of_list_to_set (C := gset nat)), Hp2. apply elem_of_expected_preds.
Qed.

(** C36: The recorded control-flow graph is exact.  If the symbolic stage accepts a
    function then for every block [b] of the layout the successor list of [b] is
    duplicate-free and holds exactly the targets of the edges derived from the
    instructions, fallthrough, jump tables and exception call sites, its
    predecessor list exactly their sources, so that successors and predecessors
    are each other's converse on the layout, and no edge leaves the layout. *)
Theorem validate_authority (func : MachFunction) (b c : nat) :
  validate_aarch64_mach_function func = None -> b ∈ block_order func -> c ∈ block_order func ->
  let edges := derive_ir_cfg_edges_from_branch_operands func in
  NoDup (succs (block func b)) /\ NoDup (preds (block func b)) /\
  (forall e, e ∈ edges -> e.1 ∈ block_order func /\ e.2 ∈ block_order func) /\
  (c ∈ succs (block func b) <-> (b, c) ∈ edges) /\
  (c ∈ succs (block func b) <-> b ∈ preds (block func c)).
Proof.
  intros H Hb Hc edges. destruct (authority_edges func H) as [He Hmeta]. fold edges in He, Hmeta.
  destruct (Hmeta b Hb) as ([H1 H2] & H3 & H4), (Hmeta c Hc) as (_ & _ & H5).
  split; [done|]. split; [done|]. split; [done|]. split; [done|]. by rewrite H3, H5.
Qed.

Lemma validate_authority_witness :
  NoDup (succs (block demo_loop 1)) /\ (1%nat ∈ succs (block demo_loop 1) <-> 1%nat ∈ preds (block demo_loop 1)).
Proof.
  destruct (validate_authority demo_loop 1 1) as (H & _ & _ & _ & H').
  - by vm_compute.
  - apply list_elem_of_In; cbn; tauto.
  - apply list_elem_of_In; cbn; tauto.
  - split; [exact H|exact H'].
Defined.
