(* ===== verification/Relax.v ===== *)
(** * Branch relaxation ([crates/trust-cg-codegen/src/relax.rs])

    Block offsets, the range check, the rewriting of an out-of-range conditional
    branch into an inverted branch over an unconditional one, the fixed-point loop
    and the final code with resolved displacements.  [RelaxSound] proves that the
    loop stabilises and that the final displacements are in range, [RelaxExec] that
    the relaxed code executes as the input does. *)

From S2P Require Import Prelude Regs MachFunc.
Local Open Scope Z_scope.

Inductive RelaxError :=
  | MalformedFunction (e : Malformed)
  | BranchOutOfRange (target_block : nat) (func_name : string).

Abbreviation B_MAX_RANGE := (Z.shiftl 1 27 - 4)%Z (only parsing).
Abbreviation B_MIN_RANGE := (- Z.shiftl 1 27)%Z (only parsing).
Abbreviation BCOND_MAX_RANGE := (Z.shiftl 1 20 - 4)%Z (only parsing).
Abbreviation BCOND_MIN_RANGE := (- Z.shiftl 1 20)%Z (only parsing).
Abbreviation TBZ_MAX_RANGE := (Z.shiftl 1 15 - 4)%Z (only parsing).
Abbreviation TBZ_MIN_RANGE := (- Z.shiftl 1 15)%Z (only parsing).

Record BlockInfo := mkInfo { offset : Z; code_size : Z }.

#[export] Instance BlockInfo_inhabited : Inhabited BlockInfo := populate (mkInfo 0 0).

Record RelaxedCode := mkRelaxed { instructions : list MachInst; block_offsets : list Z }.

(** ** Offsets

    The counters are [u32]. *)

Definition block_code_size (func : MachFunction) (blk : MachBlock) : Z :=
  let count := fold_left (fun count inst_id =>
                 if negb (is_pseudo (inst func inst_id)) then wrap 32 (count + 1) else count)
                 (block_insts blk) 0 in
  wrap 32 (count * 4).

Definition offset_pass (func : MachFunction) (acc : list BlockInfo * Z) (block_id : nat) : list BlockInfo * Z :=
  let '(infos, off) := acc in
  let size := block_code_size func (block func block_id) in
  (<[block_id := mkInfo off size]> infos, wrap 32 (off + size)).

Definition compute_block_offsets (func : MachFunction) : list BlockInfo :=
  let infos := replicate (length (blocks func)) (mkInfo 0 0) in
  (fold_left (offset_pass func) (block_order func) (infos, 0)).1.

(** ** Ranges *)

Definition branch_range (op : Opcode) : Z * Z :=
  match op with
  | B | TailCall => (B_MIN_RANGE, B_MAX_RANGE)
  | BCond => (BCOND_MIN_RANGE, BCOND_MAX_RANGE)
  | Cbz | Cbnz => (BCOND_MIN_RANGE, BCOND_MAX_RANGE)
  | Tbz | Tbnz => (TBZ_MIN_RANGE, TBZ_MAX_RANGE)
  | _ => (- 2 ^ 63, 2 ^ 63 - 1)
  end.

Definition in_range (op : Opcode) (displacement : Z) : bool :=
  let '(mn, mx) := branch_range op in (mn <=? displacement) && (displacement <=? mx).

(** *** The encoder's view ([crates/trust-cg-codegen/src/aarch64/encode.rs])

    The operand of a branch that holds its displacement in words, and the width of
    its field. *)
Definition branch_field (op : Opcode) : option (nat * Z) :=
  match op with
  | B | TailCall => Some (0%nat, 26)
  | BCond | Bcc | Cbz | Cbnz => Some (1%nat, 19)
  | Tbz | Tbnz => Some (2%nat, 14)
  | _ => None
  end.

(** The field, or [None] for an operand that is not an immediate or out of range. *)
Definition branch_offset_signed (i : MachInst) (idx : nat) (bits : Z) : option Z :=
  match operands i !! idx with
  | Some (Imm off) =>
      let mn := - Z.shiftl 1 (bits - 1) in
      let mx := Z.shiftl 1 (bits - 1) - 1 in
      if negb ((mn <=? off) && (off <=? mx)) then None
      else Some (Z.land (wrap 32 off) (Z.shiftl 1 bits - 1))
  | _ => None
  end.

Definition is_branch_with_block_target (i : MachInst) : bool :=
  if negb (is_branch i) then false else existsb is_block (operands i).

Definition get_branch_target_block (i : MachInst) : option nat := head (inst_targets i).

(** ** Rewriting one branch *)

(** [u8] condition codes. *)
Definition invert_cc (cc : Z) : Z := Z.lxor cc 1.

Definition first_imm (ops : list MachOperand) : option Z :=
  head (omap (fun op => match op with Imm v => Some v | _ => None end) ops).

(** [blk.insts[inst_pos] = inv_id; blk.insts.insert(inst_pos + 1, far_id)]. *)
Definition replace_and_insert (func : MachFunction) (block_id inst_pos : nat) (inv_inst far_b : MachInst)
    : MachFunction :=
  let '(inv_id, func) := push_inst func inv_inst in
  let '(far_id, func) := push_inst func far_b in
  let blk := block func block_id in
  let ids := <[inst_pos := inv_id]> (block_insts blk) in
  let ids := take (inst_pos + 1) ids ++ [far_id] ++ drop (inst_pos + 1) ids in
  with_arenas func (insts func) (<[block_id := mkBlock ids (preds blk) (succs blk)]> (blocks func)).

(** The inverted branch over one instruction, [None] for an opcode that is not a
    short-range branch. *)
Definition inverted_branch (i : MachInst) : option MachInst :=
  let rest := filter (fun op => is_block op = false) (operands i) ++ [Imm 2] in
  match opcode i with
  | BCond =>
      let cc_val := default 0 (first_imm (operands i)) in
      Some (MachInst_new BCond [Imm (invert_cc (wrap 8 cc_val)); Imm 2])
  | Cbz => Some (MachInst_new Cbnz rest)
  | Cbnz => Some (MachInst_new Cbz rest)
  | Tbz => Some (MachInst_new Tbnz rest)
  | Tbnz => Some (MachInst_new Tbz rest)
  | _ => None
  end.

Definition relax_one_branch (func : MachFunction) (block_id inst_pos : nat) : RelaxError + MachFunction :=
  let i := inst func (block_insts (block func block_id) !!! inst_pos) in
  match get_branch_target_block i with
  | None => inr func
  | Some far_target =>
      let far_b := MachInst_new B [Block far_target] in
      match inverted_branch i with
      | Some inv_inst => inr (replace_and_insert func block_id inst_pos inv_inst far_b)
      | None =>
          match opcode i with
          | B | TailCall => inl (BranchOutOfRange far_target (name func))
          | _ => inr func
          end
      end
  end.

(** ** The fixed-point loop *)

(** The displacement of a branch at byte offset [here], when it has one. *)
Definition branch_displacement (infos : list BlockInfo) (i : MachInst) (here : Z) : option Z :=
  if is_branch_with_block_target i then
    match get_branch_target_block i with
    | Some t => Some (offset (infos !!! t) - here)
    | None => None
    end
  else None.

(** The position of the first out-of-range branch of a block. *)
Fixpoint find_out_of_range (func : MachFunction) (infos : list BlockInfo) (inst_pos : nat) (here : Z)
    (inst_ids : list nat) : option nat :=
  match inst_ids with
  | [] => None
  | inst_id :: inst_ids =>
      let i := inst func inst_id in
      if is_pseudo i then find_out_of_range func infos (S inst_pos) here inst_ids
      else if match branch_displacement infos i here with
              | Some d => negb (in_range (opcode i) d)
              | None => false
              end
      then Some inst_pos
      else find_out_of_range func infos (S inst_pos) (wrap 32 (here + 4)) inst_ids
  end.

Fixpoint relax_blocks (infos : list BlockInfo) (order : list nat) (func : MachFunction) (changed : bool)
    : RelaxError + (MachFunction * bool) :=
  match order with
  | [] => inr (func, changed)
  | block_id :: order =>
      match find_out_of_range func infos 0 (offset (infos !!! block_id))
              (block_insts (block func block_id)) with
      | None => relax_blocks infos order func changed
      | Some inst_pos =>
          match relax_one_branch func block_id inst_pos with
          | inl e => inl e
          | inr func => relax_blocks infos order func true
          end
      end
  end.

(** [fuel] is [max_iterations]; the boolean tells whether the loop ended because
    nothing changed. *)
Fixpoint relax_loop (fuel : nat) (func : MachFunction) : RelaxError + (MachFunction * bool) :=
  match fuel with
  | O => inr (func, false)
  | S fuel =>
      match relax_blocks (compute_block_offsets func) (block_order func) func false with
      | inl e => inl e
      | inr (func, true) => relax_loop fuel func
      | inr (func, false) => inr (func, true)
      end
  end.

(** ** Final code *)

Definition resolve_operand (infos : list BlockInfo) (here : Z) (op : MachOperand) : MachOperand :=
  match op with
  | Block t => Imm (Z.quot (offset (infos !!! t) - here) 4)
  | _ => op
  end.

Definition resolve_inst (infos : list BlockInfo) (here : Z) (i : MachInst) : MachInst :=
  mkInst (opcode i) (map (resolve_operand infos here) (operands i)) (implicit_defs i) (implicit_uses i)
    (flags i).

Definition emit_inst (func : MachFunction) (infos : list BlockInfo) (acc : list MachInst * Z) (inst_id : nat)
    : list MachInst * Z :=
  let '(out, here) := acc in
  let i := inst func inst_id in
  if is_pseudo i then acc else (out ++ [resolve_inst infos here i], wrap 32 (here + 4)).

Definition build_final_code (func : MachFunction) : RelaxedCode :=
  let infos := compute_block_offsets func in
  let offsets := fold_left (fun offsets bid => <[bid := offset (infos !!! bid)]> offsets)
                   (block_order func) (replicate (length (blocks func)) 0) in
  let '(out, _) := fold_left (fun acc block_id =>
                     fold_left (emit_inst func infos) (block_insts (block func block_id)) acc)
                     (block_order func) ([], 0) in
  mkRelaxed out offsets.

Definition validate_relax_input (func : MachFunction) : option RelaxError :=
  match validate_aarch64_mach_function_totality func with
  | Some e => Some (MalformedFunction e)
  | None => None
  end.

Definition max_iterations : nat := 32.

Definition relax_branches (func : MachFunction) : RelaxError + (MachFunction * RelaxedCode) :=
  match validate_relax_input func with
  | Some e => inl e
  | None =>
      match relax_loop max_iterations func with
      | inl e => inl e
      | inr (func, _) => inr (func, build_final_code func)
      end
  end.

(** [BranchRelaxation::has_out_of_range_branches]. *)
Definition has_out_of_range_branches (func : MachFunction) : RelaxError + bool :=
  match validate_relax_input func with
  | Some e => inl e
  | None =>
      let infos := compute_block_offsets func in
      inr (existsb (fun block_id =>
             match find_out_of_range func infos 0 (offset (infos !!! block_id))
                     (block_insts (block func block_id)) with
             | Some _ => true
             | None => false
             end) (block_order func))
  end.
