(* ===== verification/RelaxSound.v ===== *)
(** * Branch relaxation is sound

    The laid-out function as one stream of instructions with labels; the loop of
    [relax_branches] as a sequence of expansions of the stream; stabilisation of
    the loop and ranges of the final displacements. *)

From S2P Require Import Prelude Regs MachFunc Relax.
Local Open Scope Z_scope.

(** ** Blocks as instruction lists *)

Definition bcode (func : MachFunction) (b : nat) : list MachInst :=
  map (inst func) (block_insts (block func b)).

Definition emitted (l : list MachInst) : list MachInst := filter (fun i => is_pseudo i = false) l.

Definition stream_of (func : MachFunction) (order : list nat) : list MachInst :=
  order ≫= fun b => emitted (bcode func b).

(** The instructions that reach the output, in order, and the index in it of the
    first instruction of block [b]. *)
Definition stream (func : MachFunction) : list MachInst := stream_of func (block_order func).

Fixpoint label_in (func : MachFunction) (order : list nat) (b : nat) : nat :=
  match order with
  | [] => 0
  | c :: order => if decide (c = b) then 0
                  else length (emitted (bcode func c)) + label_in func order b
  end.

Definition label (func : MachFunction) (b : nat) : nat := label_in func (block_order func) b.

Definition ids_ok (func : MachFunction) : Prop :=
  forall b id, id ∈ block_insts (block func b) -> (id < length (insts func))%nat.

Lemma well_formed_ids (func : MachFunction) : well_formed func -> ids_ok func.
Proof.
  intros Hwf b id Hid. unfold block in Hid.
  destruct (blocks func !! b) as [blk|] eqn:E.
  - rewrite (list_lookup_total_correct _ _ _ E) in Hid. by apply (wf_blocks _ Hwf b blk E).
  - rewrite list_lookup_total_alt, E in Hid. by apply elem_of_nil in Hid.
Qed.

(** ** Rewriting one branch *)

Definition rewrite_at {A} (p : nat) (new : list A) (l : list A) : list A := take p l ++ new ++ drop (S p) l.

Lemma elem_of_rewrite_at {A} (p : nat) (new l : list A) (x : A) :
  x ∈ rewrite_at p new l -> x ∈ l \/ x ∈ new.
Proof.
  unfold rewrite_at; rewrite !elem_of_app. intros [H|[H|H]]; [left|by right|left].
  - rewrite <- (take_drop p l), elem_of_app. by left.
  - rewrite <- (take_drop (S p) l), elem_of_app. by right.
Qed.

Definition same_shape (func func' : MachFunction) : Prop :=
  block_order func' = block_order func /\ length (blocks func') = length (blocks func) /\ name func' = name func.

Lemma replace_and_insert_spec (func : MachFunction) (b p : nat) (inv far : MachInst) :
  ids_ok func -> (b < length (blocks func))%nat -> (p < length (block_insts (block func b)))%nat ->
  let func' := replace_and_insert func b p inv far in
  ids_ok func' /\ same_shape func func' /\
  bcode func' b = rewrite_at p [inv; far] (bcode func b) /\
  (forall c, c <> b -> bcode func' c = bcode func c).
Proof.
  intros Hids Hb Hp func'.
  set (n := length (insts func)). set (blk := block func b).
  set (ids := rewrite_at p [n; S n] (block_insts blk)).
  assert (E : func' = with_arenas func (insts func ++ [inv; far])
                        (<[b := mkBlock ids (preds blk) (succs blk)]> (blocks func))).
  { unfold func', replace_and_insert, push_inst; cbn [insts with_arenas block blocks fst snd].
    change (block (with_arenas _ _ _) b) with blk. f_equal; [by rewrite <- app_assoc|]. f_equal. f_equal.
    unfold ids, rewrite_at. rewrite length_app; cbn [length]. fold n.
    rewrite Nat.add_1_r, insert_take_drop by done. rewrite take_app_ge by (rewrite length_take; lia).
    rewrite drop_app_ge by (rewrite length_take; lia). rewrite length_take.
    replace (S p - p `min` length (block_insts blk))%nat with 1%nat by (unfold blk; lia).
    cbn [take drop]. rewrite <- app_assoc. replace (n + 1)%nat with (S n) by lia. done. }
  assert (Hlt : forall id, (id < n)%nat -> inst func' id = inst func id).
  { intros id Hid. rewrite E; unfold inst; cbn [insts with_arenas]. by rewrite lookup_total_app_l. }
  assert (Hinv : inst func' n = inv /\ inst func' (S n) = far).
  { rewrite E; unfold inst; cbn [insts with_arenas].
    rewrite !lookup_total_app_r by (fold n; lia). fold n.
    by rewrite Nat.sub_diag, (Nat.sub_succ_l n n), Nat.sub_diag by lia. }
  assert (Hblk : block func' b = mkBlock ids (preds blk) (succs blk) /\
                 forall c, c <> b -> block func' c = block func c).
  { rewrite E; unfold block; cbn [blocks with_arenas].
    split; [by rewrite list_lookup_total_insert_eq|intros c Hc; by rewrite list_lookup_total_insert_ne]. }
  destruct Hblk as [Hblk Hother].
  assert (Hold : forall c, map (inst func') (block_insts (block func c)) = bcode func c).
  { intros c. apply map_ext_in. intros id Hid%list_elem_of_In. by apply Hlt, (Hids c). }
  split; [|split; [|split]].
  - intros c id Hid. rewrite E; cbn [insts with_arenas]; rewrite length_app; cbn [length]; fold n.
    destruct (decide (c = b)) as [->|Hc].
    + rewrite Hblk in Hid; cbn [block_insts] in Hid.
      apply elem_of_rewrite_at in Hid as [Hid|Hid]; [apply Hids in Hid; fold n in Hid; lia|].
      rewrite !elem_of_cons, elem_of_nil in Hid. lia.
    + rewrite (Hother c Hc) in Hid. apply Hids in Hid. fold n in Hid; lia.
  - rewrite E; split; [done|]. split; [cbn; by rewrite length_insert|done].
  - unfold bcode at 1. rewrite Hblk; cbn [block_insts]. unfold ids, rewrite_at.
    rewrite !map_app; cbn [map]. destruct Hinv as [-> ->]. rewrite <- !firstn_map, <- !skipn_map.
    unfold blk. by rewrite (Hold b).
  - intros c Hc. unfold bcode at 1. by rewrite (Hother c Hc).
Qed.

(** ** One pass over the blocks *)

Definition far_branch (infos : list BlockInfo) (i : MachInst) (here : Z) : bool :=
  match branch_displacement infos i here with
  | Some d => negb (in_range (opcode i) d)
  | None => false
  end.

(** [find_out_of_range] reads the instructions only. *)
Fixpoint find_code (infos : list BlockInfo) (pos : nat) (here : Z) (code : list MachInst) : option nat :=
  match code with
  | [] => None
  | i :: code =>
      if is_pseudo i then find_code infos (S pos) here code
      else if far_branch infos i here then Some pos
      else find_code infos (S pos) (wrap 32 (here + 4)) code
  end.

Lemma find_out_of_range_code (func : MachFunction) (infos : list BlockInfo) (ids : list nat) (pos : nat) (here : Z) :
  find_out_of_range func infos pos here ids = find_code infos pos here (map (inst func) ids).
Proof.
  revert pos here; induction ids as [|x ids IH]; intros pos here; [done|].
  cbn [find_out_of_range map find_code]. rewrite !IH. done.
Qed.

(** A short-range branch to a block: what a pass may rewrite. *)
Definition relaxable (i : MachInst) : bool :=
  is_branch_with_block_target i && bool_decide (is_Some (inverted_branch i)).

Definition far_inst (i : MachInst) : MachInst :=
  MachInst_new B [Block (default 0%nat (get_branch_target_block i))].
Definition inv_inst (i : MachInst) : MachInst := default i (inverted_branch i).

Lemma in_range_other (op : Opcode) (d : Z) :
  sword 63 d -> (forall i, opcode i = op -> inverted_branch i = None) -> op <> B -> op <> TailCall ->
  in_range op d = true.
Proof.
  intros Hd Hi H1 H2. unfold in_range.
  assert (E : branch_range op = (- 2 ^ 63, 2 ^ 63 - 1)).
  { destruct op; try done; specialize (Hi (mkInst _ [] [] [] 0) eq_refl); discriminate Hi. }
  rewrite E. unfold sword in Hd. lia.
Qed.

(** Offsets are [u32]s, so displacements are far from the ends of [i64]. *)
Definition infos_ok (infos : list BlockInfo) : Prop := forall b, uword 32 (offset (infos !!! b)).

Lemma find_code_some (infos : list BlockInfo) (code : list MachInst) (pos p : nat) (here : Z) :
  infos_ok infos -> uword 32 here -> find_code infos pos here code = Some p ->
  exists i, code !! (p - pos)%nat = Some i /\ (pos <= p)%nat /\ is_pseudo i = false /\
    is_branch_with_block_target i = true /\ is_Some (get_branch_target_block i) /\
    (is_Some (inverted_branch i) \/ opcode i = B \/ opcode i = TailCall).
Proof.
  intros Hok; revert pos here; induction code as [|i code IH]; intros pos here Hh; cbn [find_code]; [done|].
  assert (Hstep : forall h, uword 32 h -> find_code infos (S pos) h code = Some p ->
    exists i0, (i :: code) !! (p - pos)%nat = Some i0 /\ (pos <= p)%nat /\ is_pseudo i0 = false /\
      is_branch_with_block_target i0 = true /\ is_Some (get_branch_target_block i0) /\
      (is_Some (inverted_branch i0) \/ opcode i0 = B \/ opcode i0 = TailCall)).
  { intros h Hh' H. apply IH in H as (i0 & E & Hle & H); [|done]. exists i0.
    replace (p - pos)%nat with (S (p - S pos)) by lia. split; [done|]. split; [lia|done]. }
  destruct (is_pseudo i) eqn:Hp; [by apply Hstep|].
  destruct (far_branch infos i here) eqn:Hf; [|apply Hstep, wrap_range; lia].
  intros [= ->]. exists i. rewrite Nat.sub_diag. split; [done|]. split; [lia|]. split; [done|].
  unfold far_branch, branch_displacement in Hf.
  destruct (is_branch_with_block_target i); [|done]. destruct (get_branch_target_block i) as [t|] eqn:Et; [|done].
  split; [done|]. split; [by eexists|].
  destruct (decide (opcode i = B)); [tauto|]. destruct (decide (opcode i = TailCall)); [tauto|].
  destruct (inverted_branch i) eqn:Ei; [left; by eexists|].
  rewrite in_range_other in Hf; try done.
  - pose proof (Hok t). unfold uword, sword in *. lia.
  - intros i' E'. unfold inverted_branch in *. rewrite E'. by destruct (opcode i).
Qed.

Inductive block_step (infos : list BlockInfo) (start : Z) (code : list MachInst) : list MachInst -> Prop :=
  | step_keep : find_code infos 0 start code = None -> block_step infos start code code
  | step_rewrite (p : nat) (i : MachInst) :
      find_code infos 0 start code = Some p -> code !! p = Some i -> is_pseudo i = false ->
      relaxable i = true ->
      block_step infos start code (rewrite_at p [inv_inst i; far_inst i] code).

Lemma relax_one_branch_spec (func func' : MachFunction) (infos : list BlockInfo) (b p : nat) (start : Z) :
  ids_ok func -> infos_ok infos -> uword 32 start -> (b < length (blocks func))%nat ->
  find_code infos 0 start (bcode func b) = Some p -> relax_one_branch func b p = inr func' ->
  ids_ok func' /\ same_shape func func' /\ (forall c, c <> b -> bcode func' c = bcode func c) /\
  exists i, bcode func b !! p = Some i /\ is_pseudo i = false /\ relaxable i = true /\
    bcode func' b = rewrite_at p [inv_inst i; far_inst i] (bcode func b).
Proof.
  intros Hids Hok Hs Hb Hf Hr.
  destruct (find_code_some _ _ _ _ _ Hok Hs Hf) as (i & Hi & _ & Hp & Hbr & [t Ht] & Hinv).
  rewrite Nat.sub_0_r in Hi. unfold bcode in Hi. apply list_lookup_fmap_Some in Hi as (id & Ei & Hi).
  unfold relax_one_branch in Hr. rewrite (list_lookup_total_correct _ _ _ Hi), <- Ei, Ht in Hr.
  destruct (inverted_branch i) as [inv|] eqn:Einv.
  2: { destruct Hinv as [[? ?]|[Ho|Ho]]; [done|rewrite Ho in Hr; done..]. }
  injection Hr as <-. apply lookup_lt_Some in Hi as Hlt.
  destruct (replace_and_insert_spec func b p inv (MachInst_new B [Block t]) Hids Hb Hlt) as (H1 & H2 & H3 & H4).
  split; [done|]. split; [done|]. split; [done|]. exists i. split; [|split; [done|split]].
  - unfold bcode. apply list_lookup_fmap_Some. eauto.
  - unfold relaxable. rewrite Hbr, Einv. by apply bool_decide_eq_true.
  - rewrite H3. unfold inv_inst, far_inst. by rewrite Einv, Ht.
Qed.

Lemma relax_blocks_spec (infos : list BlockInfo) (order : list nat) (func func' : MachFunction) (ch ch' : bool) :
  ids_ok func -> infos_ok infos -> NoDup order ->
  (forall b, b ∈ order -> (b < length (blocks func))%nat) ->
  relax_blocks infos order func ch = inr (func', ch') ->
  ids_ok func' /\ same_shape func func' /\ (forall c, c ∉ order -> bcode func' c = bcode func c) /\
  (forall c, c ∈ order -> block_step infos (offset (infos !!! c)) (bcode func c) (bcode func' c)) /\
  (ch' = false -> func' = func /\ ch = false /\
     forall c, c ∈ order -> find_code infos 0 (offset (infos !!! c)) (bcode func c) = None) /\
  (ch' = true -> ch = true \/
     exists c p, c ∈ order /\ find_code infos 0 (offset (infos !!! c)) (bcode func c) = Some p).
Proof.
  revert func ch; induction order as [|b order IH]; intros func ch Hids Hok Hnd Hlt; cbn [relax_blocks].
  { intros [= <- <-]. split; [done|]. split; [done|]. split; [done|].
    split; [by intros ? ?%elem_of_nil|]. split; [|tauto].
    intros ->. split; [done|]. split; [done|]. by intros ? ?%elem_of_nil. }
  apply NoDup_cons in Hnd as [Hn Hnd]. rewrite find_out_of_range_code. fold (bcode func b).
  destruct (find_code infos 0 _ (bcode func b)) as [p|] eqn:Hf.
  - destruct (relax_one_branch func b p) as [|func1] eqn:Hr; [done|]. intros H.
    destruct (relax_one_branch_spec func func1 infos b p _ Hids Hok (Hok b) (Hlt b ltac:(by left)) Hf Hr)
      as (Hids1 & Hsh1 & Hc1 & i & Hi & Hps & Hrx & Hb1).
    apply IH in H as (H1 & H2 & H3 & H4 & H5 & H6); [|done..|].
    2: { intros c Hc. destruct Hsh1 as (_ & -> & _). apply Hlt; by right. }
    assert (Hcong : forall c, c ∈ order -> bcode func1 c = bcode func c)
      by (intros c Hc; apply Hc1; by intros ->).
    split; [done|]. split; [|split; [|split; [|split]]].
    + destruct Hsh1 as (E1 & E2 & E3), H2 as (E4 & E5 & E6). unfold same_shape. by rewrite E4, E5, E6.
    + intros c Hc%not_elem_of_cons. rewrite H3 by tauto. apply Hc1; tauto.
    + intros c [->|Hc]%elem_of_cons.
      * rewrite H3, Hb1 by done. by eapply step_rewrite.
      * rewrite <- (Hcong c Hc) at 1. by apply H4.
    + intros E. apply H5 in E as (_ & ? & _). done.
    + intros _. right. exists b, p. split; [by left|done].
  - intros H. apply IH in H as (H1 & H2 & H3 & H4 & H5 & H6); [|done..|by intros; apply Hlt; right].
    split; [done|]. split; [done|]. split; [|split; [|split]].
    + intros c Hc%not_elem_of_cons. apply H3; tauto.
    + intros c [->|Hc]%elem_of_cons; [|by apply H4]. rewrite H3 by done. by apply step_keep.
    + intros E. destruct (H5 E) as (-> & -> & Hall). split; [done|]. split; [done|].
      intros c [->|Hc]%elem_of_cons; [done|by apply Hall].
    + intros E. destruct (H6 E) as [?|(c & p & Hc & Hp)]; [by left|right].
      exists c, p. split; [by right|done].
Qed.

(** ** Offsets are labels *)

Lemma emitted_cons (i : MachInst) (l : list MachInst) :
  emitted (i :: l) = if is_pseudo i then emitted l else i :: emitted l.
Proof. unfold emitted. rewrite filter_cons. by destruct (is_pseudo i). Qed.

Lemma block_code_size_emitted (func : MachFunction) (b : nat) :
  block_code_size func (block func b) = wrap 32 (4 * Z.of_nat (length (emitted (bcode func b)))).
Proof.
  assert (H : forall ids n, uword 32 n ->
    fold_left (fun count id => if negb (is_pseudo (inst func id)) then wrap 32 (count + 1) else count) ids n
    = wrap 32 (n + Z.of_nat (length (emitted (map (inst func) ids))))).
  { induction ids as [|x ids IH]; intros n Hn; cbn [fold_left map].
    { cbn; by rewrite Z.add_0_r, wrap_small. }
    rewrite emitted_cons. destruct (is_pseudo (inst func x)); cbn [negb]; [by apply IH|].
    rewrite IH by (apply wrap_range; lia). cbn [length]. rewrite wrap_add_l. f_equal; lia. }
  unfold block_code_size, bcode. rewrite H by (unfold uword; lia).
  rewrite Z.add_0_l, wrap_mul_l. f_equal; lia.
Qed.

Lemma offset_fold_spec (func : MachFunction) (order : list nat) (infos : list BlockInfo) (off : Z) (b : nat) :
  NoDup order -> (forall c, c ∈ order -> (c < length infos)%nat) -> uword 32 off ->
  offset ((fold_left (offset_pass func) order (infos, off)).1 !!! b)
  = if decide (b ∈ order) then wrap 32 (off + 4 * Z.of_nat (label_in func order b)) else offset (infos !!! b).
Proof.
  revert infos off; induction order as [|c order IH]; intros infos off Hnd Hlt Hoff; cbn [fold_left].
  { rewrite decide_False by apply not_elem_of_nil. done. }
  apply NoDup_cons in Hnd as [Hc Hnd]. cbn [offset_pass]. rewrite IH.
  2: done.
  2: { intros x Hx. rewrite length_insert. apply Hlt; by right. }
  2: { apply wrap_range; lia. }
  cbn [label_in]. destruct (decide (c = b)) as [->|Hne].
  - rewrite decide_False, decide_True by (done || by left).
    rewrite list_lookup_total_insert_eq by (apply Hlt; by left). cbn [offset].
    by rewrite Z.mul_0_r, Z.add_0_r, wrap_small.
  - destruct (decide (b ∈ order)) as [Hb|Hb].
    + rewrite decide_True by (by right). rewrite block_code_size_emitted, wrap_add_l.
      rewrite <- (Z.add_assoc off), (Z.add_comm (wrap 32 _)), Z.add_assoc, wrap_add_r. f_equal. lia.
    + rewrite decide_False by (rewrite elem_of_cons; intuition congruence).
      by rewrite list_lookup_total_insert_ne.
Qed.

Lemma offset_fold_ok (func : MachFunction) (order : list nat) (infos : list BlockInfo) (off : Z) :
  infos_ok infos -> uword 32 off -> infos_ok (fold_left (offset_pass func) order (infos, off)).1.
Proof.
  revert infos off; induction order as [|c order IH]; intros infos off Hok Hoff; [done|].
  cbn [fold_left offset_pass]. apply IH; [|apply wrap_range; lia].
  intros b. rewrite list_lookup_total_insert. by destruct (decide _).
Qed.

Lemma compute_block_offsets_ok (func : MachFunction) : infos_ok (compute_block_offsets func).
Proof.
  change (compute_block_offsets func) with
    (fold_left (offset_pass func) (block_order func) (replicate (length (blocks func)) (mkInfo 0 0), 0)).1.
  apply offset_fold_ok; [|unfold uword; lia]. intros b. rewrite list_lookup_total_alt.
  destruct (replicate _ _ !! b) as [x|] eqn:E; [|unfold uword; cbn; lia].
  apply lookup_replicate in E as [-> _]. unfold uword; cbn; lia.
Qed.

(** The layout of a function that fits the 32-bit offsets. *)
Definition layout_ok (func : MachFunction) : Prop :=
  NoDup (block_order func) /\ (forall b, b ∈ block_order func -> (b < length (blocks func))%nat).

Definition code_fits (func : MachFunction) : Prop := 4 * Z.of_nat (length (stream func)) < 2 ^ 32.

Lemma stream_of_cons (func : MachFunction) (b : nat) (order : list nat) :
  stream_of func (b :: order) = emitted (bcode func b) ++ stream_of func order.
Proof. done. Qed.

Lemma label_in_le (func : MachFunction) (order : list nat) (b : nat) :
  b ∈ order -> (label_in func order b + length (emitted (bcode func b)) <= length (stream_of func order))%nat.
Proof.
  induction order as [|c order IH]; [by intros ?%elem_of_nil|].
  intros Hb. cbn [label_in]. rewrite stream_of_cons, length_app.
  destruct (decide (c = b)) as [->|Hne]; [lia|].
  apply elem_of_cons in Hb as [->|Hb]; [done|]. specialize (IH Hb). lia.
Qed.

Lemma block_offset_label (func : MachFunction) (b : nat) :
  layout_ok func -> code_fits func -> b ∈ block_order func ->
  offset (compute_block_offsets func !!! b) = 4 * Z.of_nat (label func b).
Proof.
  intros [Hnd Hlt] Hfit Hb.
  change (compute_block_offsets func) with
    (fold_left (offset_pass func) (block_order func) (replicate (length (blocks func)) (mkInfo 0 0), 0)).1.
  rewrite offset_fold_spec; [|done|by intros c Hc; rewrite length_replicate; apply Hlt|unfold uword; lia].
  rewrite decide_True by done. rewrite Z.add_0_l, wrap_small; [done|].
  pose proof (label_in_le func (block_order func) b Hb). unfold code_fits, stream, uword in *. lia.
Qed.

(** The instruction at index [k] of block [b] in the stream. *)
Lemma stream_block (func : MachFunction) (order : list nat) (b k : nat) (i : MachInst) :
  NoDup order -> b ∈ order -> emitted (bcode func b) !! k = Some i ->
  stream_of func order !! (label_in func order b + k)%nat = Some i.
Proof.
  induction order as [|c order IH]; [by intros _ ?%elem_of_nil|].
  intros [Hc Hnd]%NoDup_cons Hb Hk. rewrite stream_of_cons; cbn [label_in].
  destruct (decide (c = b)) as [->|Hne].
  - rewrite lookup_app_l by (by eapply lookup_lt_Some). done.
  - apply elem_of_cons in Hb as [->|Hb]; [done|]. rewrite lookup_app_r by lia.
    rewrite <- IH by done. f_equal; lia.
Qed.

Lemma stream_lookup (func : MachFunction) (order : list nat) (k : nat) (i : MachInst) :
  stream_of func order !! k = Some i ->
  NoDup order -> exists b j, b ∈ order /\ emitted (bcode func b) !! j = Some i /\
    k = (label_in func order b + j)%nat.
Proof.
  revert k; induction order as [|c order IH]; intros k; [done|].
  rewrite stream_of_cons. intros Hk [Hc Hnd]%NoDup_cons.
  apply lookup_app_Some in Hk as [Hk|[Hle Hk]].
  - exists c, k. split; [by left|]. split; [done|]. cbn [label_in]. by rewrite decide_True.
  - apply IH in Hk as (b & j & Hb & Hj & E); [|done]. exists b, j. split; [by right|]. split; [done|].
    cbn [label_in]. rewrite decide_False by (by intros ->). lia.
Qed.

(** ** A pass expands the marked branches of the stream *)

Fixpoint expand (marks : list bool) (l : list MachInst) : list MachInst :=
  match marks, l with
  | m :: marks, i :: l => (if m : bool then [inv_inst i; far_inst i] else [i]) ++ expand marks l
  | _, _ => l
  end.

Definition marked (marks : list bool) : nat := length (filter (fun m => m = true) marks).

(** Where index [k] of the stream goes. *)
Definition shift (marks : list bool) (k : nat) : nat := k + marked (take k marks).

Definition marks_ok (marks : list bool) (l : list MachInst) : Prop :=
  length marks = length l /\
  forall k, marks !! k = Some true -> exists i, l !! k = Some i /\ relaxable i = true.

Lemma marked_app (m1 m2 : list bool) : marked (m1 ++ m2) = (marked m1 + marked m2)%nat.
Proof. unfold marked. by rewrite filter_app, length_app. Qed.

Lemma marked_cons (m : bool) (ms : list bool) : marked (m :: ms) = ((if m then 1 else 0) + marked ms)%nat.
Proof. unfold marked. rewrite filter_cons. by destruct m. Qed.

Lemma marked_false (n : nat) : marked (replicate n false) = 0%nat.
Proof. induction n as [|n IH]; [done|]. cbn [replicate]. by rewrite marked_cons, IH. Qed.

Lemma expand_app (m1 m2 : list bool) (l1 l2 : list MachInst) :
  length m1 = length l1 -> expand (m1 ++ m2) (l1 ++ l2) = expand m1 l1 ++ expand m2 l2.
Proof.
  revert l1; induction m1 as [|m m1 IH]; intros [|i l1] H; try done.
  cbn [app expand]. rewrite IH by (cbn in H; lia). by rewrite app_assoc.
Qed.

Lemma expand_false (n : nat) (l : list MachInst) : length l = n -> expand (replicate n false) l = l.
Proof. revert l; induction n as [|n IH]; intros [|i l] H; try done. cbn in *. f_equal. apply IH. lia. Qed.

Lemma expand_length (marks : list bool) (l : list MachInst) :
  length marks = length l -> length (expand marks l) = (length l + marked marks)%nat.
Proof.
  revert l; induction marks as [|m marks IH]; intros [|i l] H; try done.
  cbn [expand]. rewrite length_app, IH, marked_cons by (cbn in H; lia). destruct m; cbn; lia.
Qed.

Lemma marks_ok_app (m1 m2 : list bool) (l1 l2 : list MachInst) :
  marks_ok m1 l1 -> marks_ok m2 l2 -> marks_ok (m1 ++ m2) (l1 ++ l2).
Proof.
  intros [E1 H1] [E2 H2]. split; [rewrite !length_app; lia|].
  intros k [Hk|[Hle Hk]]%lookup_app_Some.
  - destruct (H1 k Hk) as (i & Hi & Hr). exists i. split; [|done]. rewrite lookup_app_l; [done|].
    by eapply lookup_lt_Some.
  - destruct (H2 _ Hk) as (i & Hi & Hr). exists i. split; [|done].
    rewrite lookup_app_r by lia. by rewrite <- E1.
Qed.

Lemma marks_ok_false (l : list MachInst) : marks_ok (replicate (length l) false) l.
Proof. split; [apply length_replicate|]. intros k [? _]%lookup_replicate. done. Qed.

Lemma inv_inst_facts (i : MachInst) :
  relaxable i = true -> is_pseudo (inv_inst i) = false /\ relaxable (inv_inst i) = false.
Proof.
  unfold relaxable, inv_inst. rewrite andb_true_iff, bool_decide_eq_true. intros [_ [inv E]]. rewrite E; cbn [from_option Datatypes.id].
  assert (Hf : forall l, existsb is_block (filter (fun op => is_block op = false) l ++ [Imm 2]) = false).
  { intros l. rewrite existsb_app, orb_false_r. induction l as [|op l IH]; [done|].
    rewrite filter_cons. destruct (is_block op) eqn:Eop; [done|].
    rewrite decide_True by done. cbn [existsb]. by rewrite Eop. }
  unfold inverted_branch in E.
  destruct (opcode i); try done; injection E as <-; (split; [done|]);
    unfold is_branch_with_block_target, MachInst_new; cbn [operands]; rewrite ?Hf; try done.
Qed.

Lemma far_inst_facts (i : MachInst) : is_pseudo (far_inst i) = false /\ relaxable (far_inst i) = false.
Proof. done. Qed.

Lemma emitted_app (l1 l2 : list MachInst) : emitted (l1 ++ l2) = emitted l1 ++ emitted l2.
Proof. apply filter_app. Qed.

Lemma block_step_marks (infos : list BlockInfo) (start : Z) (code code' : list MachInst) :
  block_step infos start code code' ->
  exists marks, marks_ok marks (emitted code) /\ emitted code' = expand marks (emitted code) /\
    (is_Some (find_code infos 0 start code) -> (0 < marked marks)%nat).
Proof.
  destruct 1 as [Hf|p i Hf Hi Hp Hr].
  - exists (replicate (length (emitted code)) false). split; [apply marks_ok_false|].
    split; [by rewrite expand_false|]. rewrite Hf. by intros [? ?].
  - set (l1 := emitted (take p code)). set (l2 := emitted (drop (S p) code)).
    assert (E : emitted code = l1 ++ [i] ++ l2).
    { rewrite <- (take_drop_middle code p i Hi) at 1. rewrite emitted_app, emitted_cons, Hp. done. }
    exists (replicate (length l1) false ++ [true] ++ replicate (length l2) false). rewrite E.
    split; [|split].
    + apply marks_ok_app; [apply marks_ok_false|]. apply marks_ok_app; [|apply marks_ok_false].
      split; [done|]. intros [|k] Hk; [by exists i|by destruct k].
    + unfold rewrite_at. rewrite !emitted_app. fold l1 l2.
      rewrite expand_app by apply length_replicate. rewrite (expand_app [true]) by done.
      rewrite !expand_false by done. f_equal. f_equal.
      rewrite !emitted_cons. destruct (inv_inst_facts i Hr) as [-> _]. done.
    + intros _. rewrite !marked_app. change (marked [true]) with 1%nat. lia.
Qed.

(** The effect of a pass on the whole stream. *)
Record expansion (func func' : MachFunction) (marks : list bool) : Prop := {
  exp_marks : marks_ok marks (stream func);
  exp_stream : stream func' = expand marks (stream func);
  exp_label : forall b, b ∈ block_order func -> label func' b = shift marks (label func b) }.

Lemma shift_app_l (m1 m2 : list bool) (k : nat) : (k <= length m1)%nat -> shift (m1 ++ m2) k = shift m1 k.
Proof. intros H. unfold shift. by rewrite take_app_le. Qed.

Lemma shift_app_r (m1 m2 : list bool) (k : nat) :
  shift (m1 ++ m2) (length m1 + k) = (length m1 + marked m1 + shift m2 k)%nat.
Proof. unfold shift. rewrite take_app_add, marked_app. lia. Qed.

Lemma order_expansion (func func' : MachFunction) (order : list nat) (P : nat -> Prop) :
  (forall c, c ∈ order -> exists marks, marks_ok marks (emitted (bcode func c)) /\
     emitted (bcode func' c) = expand marks (emitted (bcode func c)) /\ (P c -> (0 < marked marks)%nat)) ->
  exists marks, marks_ok marks (stream_of func order) /\
    stream_of func' order = expand marks (stream_of func order) /\
    (forall b, b ∈ order -> label_in func' order b = shift marks (label_in func order b)) /\
    (forall c, c ∈ order -> P c -> (0 < marked marks)%nat).
Proof.
  induction order as [|c order IH]; intros H.
  { exists []. split; [split; [done|by intros k Hk]|]. split; [done|].
    split; [by intros ? ?%elem_of_nil|by intros ? ?%elem_of_nil]. }
  destruct IH as (ms & Hok & Hs & Hl & Hp); [intros; apply H; by right|].
  destruct (H c ltac:(by left)) as (m & Hm & Hc & Hpc).
  exists (m ++ ms). rewrite !stream_of_cons. split; [by apply marks_ok_app|].
  split; [rewrite Hs, Hc; symmetry; apply expand_app, Hm|]. split.
  - intros b Hb. cbn [label_in]. destruct (decide (c = b)) as [->|Hne].
    { unfold shift. by rewrite take_0. }
    apply elem_of_cons in Hb as [->|Hb]; [done|]. rewrite (Hl b Hb).
    rewrite <- (proj1 Hm) at 1. rewrite shift_app_r. f_equal.
    rewrite Hc, expand_length by apply Hm. f_equal. symmetry; apply Hm.
  - intros x [->|Hx]%elem_of_cons Px; rewrite marked_app; [specialize (Hpc Px); lia|].
    specialize (Hp x Hx Px); lia.
Qed.

Lemma pass_expansion (func func' : MachFunction) (ch : bool) :
  ids_ok func -> layout_ok func ->
  relax_blocks (compute_block_offsets func) (block_order func) func false = inr (func', ch) ->
  ids_ok func' /\ layout_ok func' /\ block_order func' = block_order func /\ name func' = name func /\
  exists marks, expansion func func' marks /\ (ch = true -> (0 < marked marks)%nat).
Proof.
  intros Hids [Hnd Hlt] H.
  apply relax_blocks_spec in H as (H1 & (Ho & Hb & Hn) & H3 & H4 & _ & H6);
    [|done|apply compute_block_offsets_ok|done|done].
  split; [done|]. split; [split; rewrite Ho; [done|intros b Hin; rewrite Hb; by apply Hlt]|].
  split; [done|]. split; [done|].
  set (infos := compute_block_offsets func) in *.
  destruct (order_expansion func func' (block_order func)
    (fun c => is_Some (find_code infos 0 (offset (infos !!! c)) (bcode func c)))) as (marks & M1 & M2 & M3 & M4).
  { intros c Hc. by eapply block_step_marks, H4. }
  exists marks. split.
  - split; [done| |].
    + unfold stream. by rewrite Ho.
    + intros b Hin. unfold label. rewrite Ho. by apply M3.
  - intros E. destruct (H6 E) as [?|(c & p & Hc & Hp)]; [done|].
    apply (M4 c Hc). by exists p.
Qed.

(** ** The loop stabilises

    Every changing pass replaces at least one relaxable branch by two instructions
    that are not. *)

Definition shorts (l : list MachInst) : nat := length (filter (fun i => relaxable i = true) l).

Lemma shorts_cons (i : MachInst) (l : list MachInst) :
  shorts (i :: l) = ((if relaxable i then 1 else 0) + shorts l)%nat.
Proof. unfold shorts. rewrite filter_cons. by destruct (relaxable i). Qed.

Lemma shorts_expand (marks : list bool) (l : list MachInst) :
  marks_ok marks l -> (shorts (expand marks l) + marked marks = shorts l)%nat.
Proof.
  revert l; induction marks as [|m marks IH]; intros [|i l] [Hlen Hm]; try done.
  assert (Hok : marks_ok marks l).
  { split; [cbn in Hlen; lia|]. intros k Hk. apply (Hm (S k) Hk). }
  specialize (IH l Hok). rewrite shorts_cons, marked_cons. cbn [expand].
  destruct m; cbn [app]; rewrite !shorts_cons.
  - destruct (Hm 0%nat eq_refl) as (i' & [= <-] & Hr). rewrite Hr.
    destruct (inv_inst_facts i Hr) as [_ ->]. destruct (far_inst_facts i) as [_ ->]. lia.
  - lia.
Qed.

Lemma loop_stable (fuel : nat) (func func' : MachFunction) (stable : bool) :
  ids_ok func -> layout_ok func -> (shorts (stream func) < fuel)%nat ->
  relax_loop fuel func = inr (func', stable) -> stable = true.
Proof.
  revert func; induction fuel as [|fuel IH]; intros func Hids Hlay Hf; [lia|]. cbn [relax_loop].
  destruct (relax_blocks _ _ _ _) as [|[func1 [|]]] eqn:E; [done| |by intros [= _ <-]].
  destruct (pass_expansion _ _ _ Hids Hlay E) as (H1 & H2 & _ & _ & marks & [Hok Hs _] & Hp).
  apply IH; [done|done|]. rewrite Hs. pose proof (shorts_expand marks (stream func) Hok).
  specialize (Hp eq_refl). lia.
Qed.

(** ** What the loop returns *)

(** Every block operand in the stream is laid out. *)
Definition targets_ok (func : MachFunction) : Prop :=
  Forall (fun i => forall t, Block t ∈ operands i -> t ∈ block_order func) (stream func).

Definition nothing_far (func : MachFunction) : Prop :=
  forall c, c ∈ block_order func ->
    find_code (compute_block_offsets func) 0 (offset (compute_block_offsets func !!! c)) (bcode func c) = None.

Lemma expand_forall (P : MachInst -> Prop) (marks : list bool) (l : list MachInst) :
  marks_ok marks l -> Forall P l ->
  (forall i, relaxable i = true -> P i -> P (inv_inst i) /\ P (far_inst i)) -> Forall P (expand marks l).
Proof.
  intros Hok Hl Hstep. revert l Hok Hl; induction marks as [|m marks IH]; intros [|i l] [Hlen Hm] Hl; try done.
  apply Forall_cons in Hl as [Hi Hl]. cbn [expand].
  assert (Hrest : Forall P (expand marks l)).
  { apply IH; [split|done]; [cbn in Hlen; lia|]. intros k Hk. apply (Hm (S k) Hk). }
  destruct m; cbn [app]; [|by apply Forall_cons].
  destruct (Hm 0%nat eq_refl) as (i' & [= <-] & Hr). destruct (Hstep i Hr Hi).
  by repeat apply Forall_cons_2.
Qed.

Lemma elem_of_inst_targets (i : MachInst) (t : nat) : t ∈ inst_targets i <-> Block t ∈ operands i.
Proof.
  unfold inst_targets. rewrite list_elem_of_bind. split.
  - intros (op & H & Hin). destruct op; try by apply elem_of_nil in H.
    apply list_elem_of_singleton in H as ->. done.
  - intros H. exists (Block t). split; [by left|done].
Qed.

Lemma target_operand (i : MachInst) (t : nat) : get_branch_target_block i = Some t -> Block t ∈ operands i.
Proof.
  unfold get_branch_target_block. intros H. apply elem_of_inst_targets.
  destruct (inst_targets i); [done|]. injection H as ->. by left.
Qed.

Lemma relaxable_target (i : MachInst) :
  relaxable i = true -> exists t, get_branch_target_block i = Some t /\ Block t ∈ operands i.
Proof.
  unfold relaxable, is_branch_with_block_target. rewrite andb_true_iff. intros [H _].
  destruct (is_branch i); [|done]. cbn [negb] in H. apply existsb_exists in H as (op & Hin & Hb).
  destruct op as [| | | |t| | | | | | |]; try done. apply list_elem_of_In in Hin.
  apply elem_of_inst_targets in Hin. destruct (inst_targets i) as [|t' ts] eqn:E; [by apply elem_of_nil in Hin|].
  exists t'. unfold get_branch_target_block. rewrite E. split; [done|]. apply elem_of_inst_targets.
  rewrite E. by left.
Qed.

Lemma expansion_targets (func func' : MachFunction) (marks : list bool) :
  block_order func' = block_order func -> expansion func func' marks -> targets_ok func -> targets_ok func'.
Proof.
  intros Ho [Hm Hs _] H. unfold targets_ok. rewrite Hs, Ho. apply expand_forall; [done|done|].
  intros i Hr Hi. destruct (relaxable_target i Hr) as (t & Ht & Hin). split.
  - intros u Hu. destruct (inv_inst_facts i Hr) as [_ Hinv]. exfalso.
    unfold relaxable in Hr. rewrite andb_true_iff, bool_decide_eq_true in Hr. destruct Hr as [_ [inv E]].
    unfold inv_inst in Hu. rewrite E in Hu. cbn [from_option Datatypes.id] in Hu. unfold inverted_branch in E.
    assert (Hno : forall l, Block u ∈ filter (fun op => is_block op = false) l ++ [Imm 2] -> False).
    { intros l [[H1 _]%list_elem_of_filter|H1%list_elem_of_singleton]%elem_of_app; done. }
    destruct (opcode i); try done; injection E as <-; cbn [MachInst_new operands] in Hu;
      try (by eapply Hno). by rewrite !elem_of_cons, elem_of_nil in Hu; destruct Hu as [?|[?|?]].
  - intros u Hu. unfold far_inst in Hu. rewrite Ht in Hu. cbn in Hu.
    apply list_elem_of_singleton in Hu as [= ->]. by apply Hi.
Qed.

Lemma loop_facts (fuel : nat) (func func' : MachFunction) (stable : bool) :
  ids_ok func -> layout_ok func -> targets_ok func -> relax_loop fuel func = inr (func', stable) ->
  block_order func' = block_order func /\ layout_ok func' /\ targets_ok func' /\
  (length (stream func') + shorts (stream func') <= length (stream func) + shorts (stream func))%nat /\
  (stable = true -> nothing_far func').
Proof.
  revert func; induction fuel as [|fuel IH]; intros func Hids Hlay Ht; cbn [relax_loop].
  { by intros [= <- <-]. }
  destruct (relax_blocks _ _ _ _) as [|[func1 ch]] eqn:E; [done|].
  destruct (pass_expansion _ _ _ Hids Hlay E) as (H1 & H2 & Ho & _ & marks & Hexp & _).
  destruct (exp_marks _ _ _ Hexp) as [Hlen Hm].
  pose proof (shorts_expand marks (stream func) (conj Hlen Hm)) as Hsh.
  pose proof (expand_length marks (stream func) Hlen) as Hel. rewrite <- (exp_stream _ _ _ Hexp) in Hsh, Hel.
  destruct ch.
  - intros H. destruct (IH func1 H1 H2 (expansion_targets _ _ _ Ho Hexp Ht) H) as (Ho' & H3 & H4 & H5 & H6).
    split; [congruence|]. split; [done|]. split; [done|]. split; [lia|done].
  - intros [= <- <-]. split; [done|]. split; [done|]. split; [by eapply expansion_targets|].
    split; [lia|]. intros _.
    apply relax_blocks_spec in E as (_ & _ & _ & _ & Hn & _);
      [|done|apply compute_block_offsets_ok|apply Hlay|apply Hlay].
    destruct (Hn eq_refl) as (-> & _ & Hn'). exact Hn'.
Qed.

Lemma find_code_none (infos : list BlockInfo) (code : list MachInst) (pos : nat) (here : Z) (k : nat) (i : MachInst) :
  find_code infos pos here code = None -> uword 32 here -> emitted code !! k = Some i ->
  far_branch infos i (wrap 32 (here + 4 * Z.of_nat k)) = false.
Proof.
  revert pos here k; induction code as [|x code IH]; intros pos here k; [done|].
  cbn [find_code]. rewrite emitted_cons. destruct (is_pseudo x); [by apply IH|].
  destruct (far_branch infos x here) eqn:Ef; [done|]. intros H Hh. destruct k as [|k]; cbn [lookup].
  - intros [= ->]. by rewrite Z.add_0_r, wrap_small.
  - intros Hk. specialize (IH _ _ k H ltac:(apply wrap_range; lia) Hk).
    rewrite wrap_add_l in IH. rewrite <- IH. f_equal. f_equal. lia.
Qed.

(** A stable function has every branch in range. *)
Lemma nothing_far_in_range (func : MachFunction) (k : nat) (i : MachInst) (t : nat) :
  layout_ok func -> code_fits func -> targets_ok func -> nothing_far func ->
  stream func !! k = Some i -> is_branch_with_block_target i = true -> get_branch_target_block i = Some t ->
  in_range (opcode i) (4 * (Z.of_nat (label func t) - Z.of_nat k)) = true.
Proof.
  intros Hlay Hfit Htg Hn Hk Hb Ht. pose proof (lookup_lt_Some _ _ _ Hk) as Hlt.
  assert (Hin : t ∈ block_order func).
  { unfold targets_ok in Htg. rewrite Forall_lookup in Htg. by eapply Htg, target_operand. }
  destruct (stream_lookup _ _ _ _ Hk (proj1 Hlay)) as (b & j & Hbo & Hj & ->).
  pose proof (find_code_none _ _ _ _ _ _ (Hn b Hbo) (compute_block_offsets_ok func b) Hj) as Hf.
  rewrite (block_offset_label func b Hlay Hfit Hbo) in Hf.
  unfold far_branch, branch_displacement in Hf. rewrite Hb, Ht in Hf.
  rewrite (block_offset_label func t Hlay Hfit Hin) in Hf. apply negb_false_iff in Hf.
  rewrite wrap_small in Hf; [rewrite <- Hf; f_equal; unfold label; lia|].
  unfold code_fits, uword, label in *. lia.
Qed.

(** ** The final code *)

Definition resolved_at (infos : list BlockInfo) (here : Z) (k : nat) (i : MachInst) : MachInst :=
  resolve_inst infos (wrap 32 (here + 4 * Z.of_nat k)) i.

Lemma resolved_at_shift (infos : list BlockInfo) (here : Z) (n k : nat) (i : MachInst) :
  resolved_at infos (wrap 32 (here + 4 * Z.of_nat n)) k i = resolved_at infos here (n + k) i.
Proof. unfold resolved_at. rewrite wrap_add_l. f_equal. f_equal. lia. Qed.

Lemma emit_block_spec (func : MachFunction) (infos : list BlockInfo) (ids : list nat) (out : list MachInst) (here : Z) :
  uword 32 here ->
  fold_left (emit_inst func infos) ids (out, here)
  = (out ++ imap (resolved_at infos here) (emitted (map (inst func) ids)),
     wrap 32 (here + 4 * Z.of_nat (length (emitted (map (inst func) ids))))).
Proof.
  revert out here; induction ids as [|x ids IH]; intros out here Hh; cbn [fold_left map].
  { cbn. by rewrite app_nil_r, Z.add_0_r, wrap_small. }
  cbn [emit_inst]. rewrite emitted_cons. destruct (is_pseudo (inst func x)); [by apply IH|].
  rewrite IH by (apply wrap_range; lia). cbn [length imap]. f_equal.
  - rewrite <- app_assoc. f_equal. cbn [app]. f_equal.
    + unfold resolved_at. by rewrite Z.add_0_r, wrap_small.
    + apply imap_ext. intros k i _. change 4 with (4 * Z.of_nat 1). apply resolved_at_shift.
  - rewrite wrap_add_l. f_equal. lia.
Qed.

Lemma emit_blocks_spec (func : MachFunction) (infos : list BlockInfo) (order : list nat) (out : list MachInst) (here : Z) :
  uword 32 here ->
  fold_left (fun acc b => fold_left (emit_inst func infos) (block_insts (block func b)) acc) order (out, here)
  = (out ++ imap (resolved_at infos here) (stream_of func order),
     wrap 32 (here + 4 * Z.of_nat (length (stream_of func order)))).
Proof.
  revert out here; induction order as [|b order IH]; intros out here Hh; cbn [fold_left].
  { cbn. by rewrite app_nil_r, Z.add_0_r, wrap_small. }
  rewrite emit_block_spec by done. fold (bcode func b). rewrite IH by (apply wrap_range; lia).
  rewrite stream_of_cons. f_equal.
  - rewrite imap_app, <- app_assoc. f_equal. f_equal. apply imap_ext. intros k i _. apply resolved_at_shift.
  - rewrite wrap_add_l, length_app. f_equal. lia.
Qed.

Lemma final_instructions (func : MachFunction) :
  instructions (build_final_code func) = imap (resolved_at (compute_block_offsets func) 0) (stream func).
Proof. unfold build_final_code. rewrite emit_blocks_spec by (unfold uword; lia). done. Qed.

Lemma final_offsets (func : MachFunction) (b : nat) :
  layout_ok func -> b ∈ block_order func ->
  block_offsets (build_final_code func) !! b = Some (offset (compute_block_offsets func !!! b)).
Proof.
  intros [_ Hlt] Hb. unfold build_final_code. rewrite emit_blocks_spec by (unfold uword; lia). cbn [block_offsets].
  set (infos := compute_block_offsets func).
  assert (H : forall order offs, (b < length offs)%nat -> b ∈ order \/ offs !! b = Some (offset (infos !!! b)) ->
    fold_left (fun offs bid => <[bid := offset (infos !!! bid)]> offs) order offs !! b
    = Some (offset (infos !!! b))).
  { induction order as [|c order IH]; intros offs Hl Hor; cbn [fold_left].
    { destruct Hor as [?%elem_of_nil|?]; done. }
    apply IH; [by rewrite length_insert|]. destruct (decide (b = c)) as [->|Hne].
    - right. by apply list_lookup_insert_eq.
    - destruct Hor as [[?|?]%elem_of_cons|?]; [done|by left|right]. by rewrite list_lookup_insert_ne. }
  apply H; [rewrite length_replicate; by apply Hlt|by left].
Qed.

(** The operands of a final instruction: block operands become displacements in
    instructions. *)
Definition displaced (func : MachFunction) (k : nat) (op : MachOperand) : MachOperand :=
  match op with
  | Block t => Imm (Z.of_nat (label func t) - Z.of_nat k)
  | _ => op
  end.

Lemma final_inst (func : MachFunction) (k : nat) (i : MachInst) :
  layout_ok func -> code_fits func -> targets_ok func -> stream func !! k = Some i ->
  instructions (build_final_code func) !! k
  = Some (mkInst (opcode i) (map (displaced func k) (operands i)) (implicit_defs i) (implicit_uses i) (flags i)).
Proof.
  intros Hlay Hfit Ht Hk. pose proof (lookup_lt_Some _ _ _ Hk) as Hlt.
  rewrite final_instructions, list_lookup_imap, Hk. cbn. unfold resolved_at, resolve_inst. do 2 f_equal.
  apply map_ext_in. intros op Hin%list_elem_of_In. destruct op as [| | | |t| | | | | | |]; try done.
  cbn [resolve_operand displaced]. unfold targets_ok in Ht. rewrite Forall_lookup in Ht.
  rewrite (block_offset_label func t Hlay Hfit) by (by eapply Ht).
  rewrite Z.add_0_l, wrap_small by (unfold code_fits, uword in *; lia). f_equal.
  replace (4 * Z.of_nat (label func t) - 4 * Z.of_nat k) with ((Z.of_nat (label func t) - Z.of_nat k) * 4) by lia.
  by rewrite Z.quot_mul.
Qed.

(** ** Validated functions *)

Lemma well_formed_layout (func : MachFunction) : well_formed func -> layout_ok func.
Proof. intros Hwf. split; [apply (wf_order _ Hwf)|apply (wf_order_range _ Hwf)]. Qed.

Lemma well_formed_targets (func : MachFunction) : well_formed func -> targets_ok func.
Proof.
  intros Hwf. unfold targets_ok, stream, stream_of. apply Forall_forall. intros i Hi t Ht.
  apply list_elem_of_bind in Hi as (b & Hi & Hb). apply list_elem_of_filter in Hi as [_ Hi].
  unfold bcode in Hi. apply list_elem_of_fmap_1 in Hi as (id & -> & Hid).
  pose proof (wf_order_range _ Hwf b Hb) as Hlt. apply lookup_lt_is_Some in Hlt as [blk E].
  unfold block in Hid. rewrite (list_lookup_total_correct _ _ _ E) in Hid.
  destruct (proj2 (wf_blocks _ Hwf b blk E) id Hid) as (_ & _ & Hblk & _).
  by apply (Hblk t Ht).
Qed.

Lemma relax_branches_inv (func func' : MachFunction) (code : RelaxedCode) :
  relax_branches func = inr (func', code) ->
  well_formed func /\ (exists stable, relax_loop max_iterations func = inr (func', stable)) /\
  code = build_final_code func'.
Proof.
  unfold relax_branches, validate_relax_input, validate_aarch64_mach_function_totality.
  destruct (validate_aarch64_mach_function_impl func ResolvedEncoding) eqn:Ev; [done|].
  apply validate_well_formed in Ev. destruct (relax_loop max_iterations func) as [|[f s]] eqn:E; [done|].
  intros [= <- <-]. split; [done|]. split; [by exists s|done].
Qed.

Lemma relax_blocks_error (infos : list BlockInfo) (order : list nat) (func : MachFunction) (ch : bool) (e : RelaxError) :
  relax_blocks infos order func ch = inl e -> exists t, e = BranchOutOfRange t (name func).
Proof.
  revert func ch; induction order as [|b order IH]; intros func ch; cbn [relax_blocks]; [done|].
  destruct (find_out_of_range _ _ _ _ _) as [p|]; [|apply IH].
  destruct (relax_one_branch func b p) as [e'|func1] eqn:Er; unfold relax_one_branch in Er.
  - intros [= ->]. destruct (get_branch_target_block _) as [t|]; [|done].
    destruct (inverted_branch _); [done|]. destruct (opcode _); try done; injection Er as <-; by eexists.
  - intros H. destruct (IH func1 true H) as [t ->]. exists t. f_equal.
    destruct (get_branch_target_block _); [|congruence].
    destruct (inverted_branch _); [by injection Er as <-|]. destruct (opcode _); congruence.
Qed.

Lemma relax_loop_error (fuel : nat) (func : MachFunction) (e : RelaxError) :
  ids_ok func -> layout_ok func -> relax_loop fuel func = inl e -> exists t, e = BranchOutOfRange t (name func).
Proof.
  revert func; induction fuel as [|fuel IH]; intros func Hids Hlay; cbn [relax_loop]; [done|].
  destruct (relax_blocks _ _ _ _) as [e'|[func1 ch]] eqn:E.
  - intros [= ->]. by eapply relax_blocks_error.
  - destruct (pass_expansion _ _ _ Hids Hlay E) as (H1 & H2 & _ & Hn & _).
    destruct ch; [|done]. intros H. rewrite <- Hn. by apply IH.
Qed.

(** C33: The relaxation loop terminates at a fixed point.  On a validated function
    with fewer short-range branches to blocks than iterations, the loop does not
    run out of iterations: it returns a function in which no branch is out of
    range, or it reports an unconditional branch beyond 128 MB.  Every changing
    pass uses up one of the short branches, so the bound holds for any iteration
    limit; the code's is 32. *)
Theorem relax_loop_stabilises (fuel : nat) (func : MachFunction) :
  validate_relax_input func = None -> (shorts (stream func) < fuel)%nat ->
  (exists t, relax_loop fuel func = inl (BranchOutOfRange t (name func))) \/
  (exists func', relax_loop fuel func = inr (func', true) /\ nothing_far func').
Proof.
  unfold validate_relax_input, validate_aarch64_mach_function_totality.
  destruct (validate_aarch64_mach_function_impl func ResolvedEncoding) eqn:Ev; [done|].
  apply validate_well_formed in Ev. intros _ Hf.
  pose proof (well_formed_ids _ Ev) as Hids. pose proof (well_formed_layout _ Ev) as Hlay.
  destruct (relax_loop fuel func) as [e|[func' stable]] eqn:E.
  - destruct (relax_loop_error fuel func e Hids Hlay E) as [t ->]. left; by exists t.
  - right. exists func'. pose proof (loop_stable fuel func func' stable Hids Hlay Hf E) as ->.
    split; [done|].
    by destruct (loop_facts fuel func func' true Hids Hlay (well_formed_targets _ Ev) E) as (_ & _ & _ & _ & ?); auto.
Qed.

Lemma relax_loop_stabilises_witness :
  (exists t, relax_loop 32 demo_loop = inl (BranchOutOfRange t "loop")) \/
  (exists func', relax_loop 32 demo_loop = inr (func', true) /\ nothing_far func').
Proof.
  apply (relax_loop_stabilises 32 demo_loop); [by vm_compute|].
  change (shorts (stream demo_loop)) with 1%nat. lia.
Defined.

(** *** What the encoder accepts *)

Lemma branch_offset_encoded (i : MachInst) (idx : nat) (bits off : Z) :
  0 < bits <= 32 -> operands i !! idx = Some (Imm off) -> sword bits off -> branch_offset_signed i idx bits = Some (wrap bits off).
Proof.
  intros Hb Hop Hs. unfold branch_offset_signed. rewrite Hop, (Z.shiftl_1_l (bits - 1)). unfold sword in Hs.
  replace (negb _) with false by lia. f_equal. rewrite land_pow2_mask by lia. apply wrap_wrap_le. lia.
Qed.

(** The ranges of relaxation are those of the fields, except for [Bcc]. *)
Lemma in_range_field (op : Opcode) (idx : nat) (bits d : Z) :
  branch_field op = Some (idx, bits) -> op <> Bcc -> in_range op (4 * d) = true -> 0 < bits <= 32 /\ sword bits d.
Proof.
  unfold in_range, branch_range, sword. destruct op; cbn [branch_field]; intros [= <- <-] Hne H; try done;
    rewrite Z.shiftl_1_l in H; lia.
Qed.

(** [Bcc] has the field of [BCond], but is in range at any distance. *)
Example bcc_unlimited :
  in_range Bcc (4 * 2 ^ 18) = true /\ in_range BCond (4 * 2 ^ 18) = false /\
  branch_offset_signed (MachInst_new Bcc [Imm 0; Imm (2 ^ 18)]) 1 19 = None.
Proof. by vm_compute. Qed.

(** C32: The final displacements are right and encodable.  If [relax_branches]
    succeeds on a function with fewer than 32 short-range branches to blocks whose
    relaxed code fits 32-bit offsets, the final code has one instruction per
    emitted instruction of the relaxed function, with each block operand replaced
    by the distance in instructions to that block's first instruction, at the byte
    offset reported for the block; and the distance of every branch to a block,
    other than [Bcc], is a signed number of the width of the field that the encoder
    has for it (26, 19 or 14 bits), which [branch_offset_signed] accepts.  [Bcc] is never
    relaxed ([bcc_unlimited]). *)
Theorem relaxed_branches_in_range (func func' : MachFunction) (code : RelaxedCode) :
  relax_branches func = inr (func', code) -> (shorts (stream func) < max_iterations)%nat ->
  4 * Z.of_nat (length (stream func) + shorts (stream func)) < 2 ^ 32 ->
  length (instructions code) = length (stream func') /\
  (forall b, b ∈ block_order func -> block_offsets code !! b = Some (4 * Z.of_nat (label func' b))) /\
  forall k i, stream func' !! k = Some i ->
    let i' := mkInst (opcode i) (map (displaced func' k) (operands i)) (implicit_defs i) (implicit_uses i) (flags i) in
    instructions code !! k = Some i' /\
    forall t idx bits, is_branch_with_block_target i = true -> get_branch_target_block i = Some t ->
      branch_field (opcode i) = Some (idx, bits) -> opcode i <> Bcc ->
      let d := Z.of_nat (label func' t) - Z.of_nat k in
      sword bits d /\ (operands i !! idx = Some (Block t) -> branch_offset_signed i' idx bits = Some (wrap bits d)).
Proof.
  intros H Hsh Hsz. destruct (relax_branches_inv _ _ _ H) as (Hwf & [stable E] & ->).
  pose proof (well_formed_ids _ Hwf) as Hids. pose proof (well_formed_layout _ Hwf) as Hlay.
  pose proof (loop_stable _ _ _ _ Hids Hlay Hsh E) as ->.
  destruct (loop_facts _ _ _ _ Hids Hlay (well_formed_targets _ Hwf) E) as (Ho & Hlay' & Ht' & Hg & Hn).
  assert (Hfit : code_fits func') by (unfold code_fits; lia).
  split; [by rewrite final_instructions, length_imap|]. split.
  - intros b Hb. rewrite final_offsets by (done || by rewrite Ho). by rewrite block_offset_label by (done || by rewrite Ho).
  - intros k i Hk i'. split; [by apply final_inst|]. intros t idx bits Hb Ht Hf Hne d.
    destruct (in_range_field (opcode i) idx bits d Hf Hne) as [Hbits Hd]; [by apply nothing_far_in_range; auto|].
    split; [done|]. intros Hop. apply branch_offset_encoded; [done| |done]. cbn. by rewrite list_lookup_fmap, Hop.
Qed.

(** The conditional branch of the loop jumps one instruction back. *)
Lemma relaxed_branches_in_range_witness :
  exists func' code i, relax_branches demo_loop = inr (func', code) /\
    length (instructions code) = length (stream func') /\
    instructions code !! 2%nat = Some i /\ branch_offset_signed i 1 19 = Some (2 ^ 19 - 1).
Proof.
  destruct (relax_branches demo_loop) as [|[func' code]] eqn:E; [vm_compute in E; discriminate E|].
  destruct (relaxed_branches_in_range demo_loop func' code E) as (Hl & _ & Hi).
  - change (shorts (stream demo_loop)) with 1%nat. unfold max_iterations; lia.
  - change (shorts (stream demo_loop)) with 1%nat. change (length (stream demo_loop)) with 4%nat. lia.
  - assert (Ef : func' = demo_loop) by (vm_compute in E; injection E as <- _; reflexivity). subst func'.
    destruct (Hi 2%nat (MachInst_new Cbnz [PRegOp (mkPReg 0); Block 1%nat]) ltac:(reflexivity)) as [Hc Hb].
    eexists demo_loop, code, _. split; [reflexivity|]. split; [exact Hl|]. split; [exact Hc|].
    exact (proj2 (Hb 1%nat 1%nat 19 ltac:(reflexivity) ltac:(reflexivity) ltac:(reflexivity) ltac:(discriminate)) ltac:(reflexivity)).
Defined.
