(* ===== verification/RelaxExec.v ===== *)
(** * Execution of laid-out code

    A semantics for streams of machine instructions with symbolic or resolved
    branch targets, over an arbitrary machine state, and the proof that branch
    relaxation preserves it. *)

From S2P Require Import Prelude Regs MachFunc Relax RelaxSound.
Local Open Scope Z_scope.

(** ** Branches *)

Inductive Cond :=
  | Always
  | CC (cc : Z)
  | RegZero (r : PReg)
  | RegNonzero (r : PReg)
  | BitClear (r : PReg) (bit : Z)
  | BitSet (r : PReg) (bit : Z).

Inductive Target := ToBlock (t : nat) | ToDisp (d : Z).

Definition as_target (op : MachOperand) : option Target :=
  match op with
  | Block t => Some (ToBlock t)
  | Imm d => Some (ToDisp d)
  | _ => None
  end.

(** The condition and target of a direct branch, as the encoder reads its operands
    (a condition code is the low four bits of its immediate); [None] for an
    instruction that is not a direct branch within the function. *)
Definition decode (i : MachInst) : option (Cond * Target) :=
  match opcode i, operands i with
  | B, [t] | TailCall, [t] => pair Always <$> as_target t
  | BCond, [Imm cc; t] | Bcc, [Imm cc; t] => pair (CC (Z.land cc 0xF)) <$> as_target t
  | Cbz, [PRegOp r; t] => pair (RegZero r) <$> as_target t
  | Cbnz, [PRegOp r; t] => pair (RegNonzero r) <$> as_target t
  | Tbz, [PRegOp r; Imm b; t] => pair (BitClear r b) <$> as_target t
  | Tbnz, [PRegOp r; Imm b; t] => pair (BitSet r b) <$> as_target t
  | _, _ => None
  end.

(** The architecture's condition codes on the flags [N], [Z], [C], [V]. *)
Definition condition_holds (cc : Z) (nzcv : bool * bool * bool * bool) : bool :=
  let '(n, z, c, v) := nzcv in
  let base :=
    match Z.to_nat (cc / 2) with
    | 0 => z | 1 => c | 2 => n | 3 => v
    | 4 => c && negb z
    | 5 => Bool.eqb n v
    | 6 => Bool.eqb n v && negb z
    | _ => true
    end%nat in
  if Z.odd cc && negb (cc =? 15) then negb base else base.

(** ** The machine *)

Section Machine.
Context {State : Type}.
Context (nzcv : State -> bool * bool * bool * bool) (read : State -> PReg -> Z).

(** The effect of an instruction that is not a direct branch, and whether it
    leaves the function (return, tail call, trap, indirect jump). *)
Context (exec : MachInst -> State -> State * bool).

Definition holds (c : Cond) (s : State) : bool :=
  match c with
  | Always => true
  | CC cc => condition_holds cc (nzcv s)
  | RegZero r => read s r =? 0
  | RegNonzero r => negb (read s r =? 0)
  | BitClear r b => negb (Z.testbit (read s r) b)
  | BitSet r b => Z.testbit (read s r) b
  end.

Inductive Config := Run (pc : nat) (s : State) | Exit (s : State).

Definition target_pc (lab : nat -> nat) (pc : nat) (t : Target) : option nat :=
  match t with
  | ToBlock b => Some (lab b)
  | ToDisp d => if Z.of_nat pc + d <? 0 then None else Some (Z.to_nat (Z.of_nat pc + d))
  end.

(** [None]: there is no next step, because the machine has left the function or
    has run off the code. *)
Definition step (code : list MachInst) (lab : nat -> nat) (c : Config) : option Config :=
  match c with
  | Exit _ => None
  | Run pc s =>
      match code !! pc with
      | None => None
      | Some i =>
          match decode i with
          | Some (cond, t) =>
              if holds cond s then (fun pc' => Run pc' s) <$> target_pc lab pc t else Some (Run (S pc) s)
          | None => let '(s', leaves) := exec i s in Some (if leaves then Exit s' else Run (S pc) s')
          end
      end
  end.

Fixpoint run (n : nat) (code : list MachInst) (lab : nat -> nat) (c : Config) : option Config :=
  match n with
  | O => Some c
  | S n => match step code lab c with Some c' => run n code lab c' | None => None end
  end.

Lemma run_add (n m : nat) (code : list MachInst) (lab : nat -> nat) (c : Config) :
  run (n + m) code lab c = match run n code lab c with Some c' => run m code lab c' | None => None end.
Proof.
  revert c; induction n as [|n IH]; intros c; [done|]. cbn [run Nat.add].
  by destruct (step code lab c).
Qed.

(** ** Simulation up to a renaming of program counters *)

Definition move (pi : nat -> nat) (c : Config) : Config :=
  match c with Run pc s => Run (pi pc) s | Exit s => Exit s end.

Definition simulates (pi : nat -> nat) (code : list MachInst) (lab : nat -> nat)
    (code' : list MachInst) (lab' : nat -> nat) : Prop :=
  forall c, match step code lab c with
            | None => step code' lab' (move pi c) = None
            | Some c1 => exists j, run (S j) code' lab' (move pi c) = Some (move pi c1)
            end.

Lemma simulates_run (pi : nat -> nat) code lab code' lab' (n : nat) (c c1 : Config) :
  simulates pi code lab code' lab' -> run n code lab c = Some c1 ->
  exists m, (n <= m)%nat /\ run m code' lab' (move pi c) = Some (move pi c1).
Proof.
  intros Hs; revert c; induction n as [|n IH]; intros c; cbn [run].
  { intros [= ->]. by exists 0%nat. }
  specialize (Hs c). destruct (step code lab c) as [c2|]; [|done].
  destruct Hs as [j Hj]. intros (m & Hm & Hr)%IH. exists (S j + m)%nat. split; [lia|].
  by rewrite run_add, Hj.
Qed.

Lemma simulates_trans (pi pi' : nat -> nat) code lab code' lab' code'' lab'' :
  simulates pi code lab code' lab' -> simulates pi' code' lab' code'' lab'' ->
  simulates (fun k => pi' (pi k)) code lab code'' lab''.
Proof.
  intros H1 H2 c. assert (Em : forall c, move (fun k => pi' (pi k)) c = move pi' (move pi c)) by (by intros []).
  rewrite !Em. specialize (H1 c). destruct (step code lab c) as [c1|].
  - destruct H1 as [j Hj]. destruct (simulates_run _ _ _ _ _ _ _ _ H2 Hj) as ([|m] & Hm & Hr); [lia|].
    exists m. by rewrite Em.
  - specialize (H2 (move pi c)). by rewrite H1 in H2.
Qed.

(** The renamed machine leaves the function exactly when the original does, with
    the same state. *)
Lemma simulates_exit (pi : nat -> nat) code lab code' lab' (c : Config) (s : State) :
  simulates pi code lab code' lab' ->
  (exists n, run n code lab c = Some (Exit s)) <-> (exists m, run m code' lab' (move pi c) = Some (Exit s)).
Proof.
  intros Hs. split.
  - intros [n Hn]. destruct (simulates_run _ _ _ _ _ _ _ _ Hs Hn) as (m & _ & Hm). by exists m.
  - intros [m Hm]. revert c Hm. induction (lt_wf m) as [m _ IH]; intros c Hm.
    specialize (Hs c) as Hc. destruct (step code lab c) as [c1|] eqn:E.
    + destruct Hc as [j Hj]. destruct (decide (m <= S j)%nat) as [Hle|Hle].
      * assert (Hsp : run (m + (S j - m)) code' lab' (move pi c) = Some (move pi c1))
          by (rewrite <- Hj; f_equal; lia).
        rewrite run_add, Hm in Hsp. destruct (S j - m)%nat eqn:Ed; [|done].
        cbn [run] in Hsp. destruct c1 as [|s1]; [done|]. exists 1%nat. cbn [run]. rewrite E.
        injection Hsp as <-. done.
      * replace m with (S j + (m - S j))%nat in Hm by lia. rewrite run_add, Hj in Hm.
        destruct (IH (m - S j)%nat ltac:(lia) _ Hm) as [n Hn]. exists (S n). cbn [run]. by rewrite E.
    + destruct m as [|m]; [|cbn [run] in Hm; by rewrite Hc in Hm].
      destruct c; [done|]. exists 0%nat. done.
Qed.

(** ** Well-shaped instructions

    A direct branch to a block is flagged as a branch and does not use the
    conditions [AL] and [NV], which have no inverse; no other instruction has a
    block operand. *)
Definition invertible (c : Cond) : bool := match c with CC cc => cc <? 14 | _ => true end.

Definition shaped (i : MachInst) : bool :=
  match decode i with
  | Some (c, ToBlock _) => is_branch i && invertible c
  | Some (_, ToDisp _) => true
  | None => negb (existsb is_block (operands i))
  end.

(** A resolved branch skips one instruction, which no pass rewrites. *)
Fixpoint skips (l : list MachInst) : bool :=
  match l with
  | [] => true
  | i :: l =>
      match decode i with
      | Some (_, ToDisp d) => (d =? 2) && match l with j :: _ => negb (relaxable j) | [] => true end
      | _ => true
      end && skips l
  end.

Definition skips_ok (l : list MachInst) : Prop :=
  forall k i c d, l !! k = Some i -> decode i = Some (c, ToDisp d) ->
    d = 2 /\ forall j, l !! S k = Some j -> relaxable j = false.

Lemma skips_lookup (l : list MachInst) : skips l = true -> skips_ok l.
Proof.
  induction l as [|x l IH]; [by intros _ k i c d Hk|]. cbn [skips]. rewrite andb_true_iff.
  intros [Hx Hl] [|k] i c d Hk Hd; [|by eapply (IH Hl)].
  injection Hk as <-. rewrite Hd, andb_true_iff, Z.eqb_eq in Hx. destruct Hx as [-> Hn]. split; [done|].
  intros j Hj. destruct l as [|y l]; [done|]. injection Hj as ->. by apply negb_true_iff.
Qed.

Definition negate (c : Cond) : Cond :=
  match c with
  | Always => Always
  | CC cc => CC (Z.lxor cc 1)
  | RegZero r => RegNonzero r
  | RegNonzero r => RegZero r
  | BitClear r b => BitSet r b
  | BitSet r b => BitClear r b
  end.

Lemma condition_inverted (cc : Z) (f : bool * bool * bool * bool) :
  0 <= cc < 14 -> condition_holds (Z.lxor cc 1) f = negb (condition_holds cc f).
Proof.
  intros H. assert (E : cc ∈ seqZ 0 14) by (apply elem_of_seqZ; lia).
  revert f. cut (forallb (fun cc => forallb (fun f => bool_decide
    (condition_holds (Z.lxor cc 1) f = negb (condition_holds cc f)))
    (list_prod (list_prod (list_prod [true; false] [true; false]) [true; false]) [true; false])) (seqZ 0 14) = true).
  { rewrite forallb_forall. intros Hall f.
    specialize (Hall cc (proj1 (list_elem_of_In _ _) E)). rewrite forallb_forall in Hall.
    apply (bool_decide_eq_true_1 _), Hall. destruct f as [[[n z] c] v].
    rewrite !in_prod_iff. destruct n, z, c, v; cbn; tauto. }
  by vm_compute.
Qed.

Lemma negate_holds (c : Cond) (s : State) :
  c <> Always -> invertible c = true -> (forall cc, c = CC cc -> 0 <= cc) ->
  holds (negate c) s = negb (holds c s).
Proof.
  destruct c as [|cc|r|r|r b|r b]; cbn [invertible holds negate]; try done; intros _ Hi Hc.
  - apply condition_inverted. specialize (Hc cc eq_refl). lia.
  - by rewrite negb_involutive.
  - by rewrite negb_involutive.
Qed.

Lemma invert_cc_low (cc : Z) : Z.land (invert_cc (wrap 8 cc)) 0xF = Z.lxor (Z.land cc 0xF) 1.
Proof.
  unfold invert_cc, wrap. change 0xF with (Z.ones 4). rewrite !Z.land_ones by lia.
  apply Z.bits_inj'; intros n Hn. rewrite Z.lxor_spec.
  destruct (decide (n < 4)) as [H|H].
  - rewrite !Z.mod_pow2_bits_low, Z.lxor_spec, Z.mod_pow2_bits_low by lia. done.
  - rewrite !Z.mod_pow2_bits_high by lia. change 1 with (Z.ones 1).
    rewrite Z.ones_spec_high by lia. done.
Qed.

(** The operands of a direct branch. *)
Inductive branch_shape : Opcode -> list MachOperand -> Cond -> MachOperand -> Prop :=
  | shape_b t : branch_shape B [t] Always t
  | shape_tail t : branch_shape TailCall [t] Always t
  | shape_bcond cc t : branch_shape BCond [Imm cc; t] (CC (Z.land cc 0xF)) t
  | shape_bcc cc t : branch_shape Bcc [Imm cc; t] (CC (Z.land cc 0xF)) t
  | shape_cbz r t : branch_shape Cbz [PRegOp r; t] (RegZero r) t
  | shape_cbnz r t : branch_shape Cbnz [PRegOp r; t] (RegNonzero r) t
  | shape_tbz r b t : branch_shape Tbz [PRegOp r; Imm b; t] (BitClear r b) t
  | shape_tbnz r b t : branch_shape Tbnz [PRegOp r; Imm b; t] (BitSet r b) t.

Lemma decode_shape (i : MachInst) (c : Cond) (tg : Target) :
  decode i = Some (c, tg) ->
  exists t, as_target t = Some tg /\ branch_shape (opcode i) (operands i) c t.
Proof.
  unfold decode. intros H.
  assert (Hm : forall (c' : Cond) t, pair c' <$> as_target t = Some (c, tg) -> c' = c /\ as_target t = Some tg).
  { intros c' t. destruct (as_target t); [|done]. by intros [= -> ->]. }
  destruct (opcode i); try done;
    repeat match type of H with
    | (match ?x with _ => _ end) = _ => destruct x; try done
    end; apply Hm in H as [<- H]; eexists; (split; [exact H|constructor]).
Qed.

Lemma as_target_block (t : MachOperand) (b : nat) : as_target t = Some (ToBlock b) -> t = Block b.
Proof. destruct t; try done. by intros [= ->]. Qed.

Lemma as_target_disp (t : MachOperand) (d : Z) : as_target t = Some (ToDisp d) -> t = Imm d.
Proof. destruct t; try done. by intros [= ->]. Qed.

Lemma decode_disp_no_block (i : MachInst) (c : Cond) (d : Z) :
  decode i = Some (c, ToDisp d) -> existsb is_block (operands i) = false.
Proof. intros (t & ->%as_target_disp & H)%decode_shape. by inversion H. Qed.

(** What the pass does to a well-shaped branch. *)
Lemma relaxable_decode (i : MachInst) :
  shaped i = true -> relaxable i = true ->
  exists c t, decode i = Some (c, ToBlock t) /\ decode (inv_inst i) = Some (negate c, ToDisp 2) /\
    decode (far_inst i) = Some (Always, ToBlock t) /\ forall s, holds (negate c) s = negb (holds c s).
Proof.
  unfold shaped, relaxable, is_branch_with_block_target. rewrite andb_true_iff, bool_decide_eq_true.
  intros Hsh [Hb [inv Hinv]]. destruct (is_branch i); [|done]. cbn [negb] in Hb.
  destruct (decode i) as [[c [t|d]]|] eqn:Ed.
  2: { apply decode_disp_no_block in Ed. congruence. }
  2: { apply negb_true_iff in Hsh. congruence. }
  exists c, t. split; [done|]. unfold inv_inst, far_inst. rewrite Hinv; cbn [from_option Datatypes.id andb] in *.
  apply decode_shape in Ed as (op & ->%as_target_block & Hs).
  unfold inverted_branch in Hinv. unfold get_branch_target_block, inst_targets.
  inversion Hs as [? E1 E2|? E1 E2|cc ? E1 E2|cc ? E1 E2|r ? E1 E2|r ? E1 E2|r b ? E1 E2|r b ? E1 E2]; subst;
    rewrite <- E1, <- E2 in *; try done; injection Hinv as <-;
    (split; [try reflexivity|split; [reflexivity|intros s; apply negate_holds; try done]]).
  - unfold decode. cbn [MachInst_new opcode operands default from_option first_imm omap list_omap head Datatypes.id].
    by rewrite invert_cc_low.
  - intros cc' [= <-]. apply Z.land_nonneg; lia.
Qed.

(** ** One pass *)

Lemma shift_S (marks : list bool) (k : nat) (m : bool) :
  marks !! k = Some m -> shift marks (S k) = (S (shift marks k) + if m then 1 else 0)%nat.
Proof.
  intros H. unfold shift. rewrite (take_S_r _ _ _ H), marked_app, marked_cons. cbn. lia.
Qed.

Lemma expand_split (marks : list bool) (l : list MachInst) (k : nat) (m : bool) (i : MachInst) :
  length marks = length l -> marks !! k = Some m -> l !! k = Some i ->
  expand marks l = expand (take k marks) (take k l)
                   ++ (if m then [inv_inst i; far_inst i] else [i]) ++ expand (drop (S k) marks) (drop (S k) l) /\
  length (expand (take k marks) (take k l)) = shift marks k.
Proof.
  intros Hlen Hm Hi. pose proof (lookup_lt_Some _ _ _ Hi).
  assert (Ht : length (take k marks) = length (take k l)) by (rewrite !length_take; lia).
  split.
  - rewrite <- (take_drop_middle marks k m Hm) at 1. rewrite <- (take_drop_middle l k i Hi) at 1.
    by rewrite expand_app.
  - rewrite expand_length by done. unfold shift. rewrite length_take. lia.
Qed.

Lemma expand_lookup (marks : list bool) (l : list MachInst) (k : nat) (m : bool) (i : MachInst) :
  length marks = length l -> marks !! k = Some m -> l !! k = Some i ->
  expand marks l !! shift marks k = Some (if m then inv_inst i else i) /\
  (m = true -> expand marks l !! S (shift marks k) = Some (far_inst i)).
Proof.
  intros Hlen Hm Hi. destruct (expand_split marks l k m i Hlen Hm Hi) as [E Hk].
  rewrite E, <- Hk. split.
  - rewrite lookup_app_r, Nat.sub_diag by lia. by destruct m.
  - intros ->. rewrite lookup_app_r by lia. by rewrite Nat.sub_succ_l, Nat.sub_diag by lia.
Qed.

Lemma expand_beyond (marks : list bool) (l : list MachInst) (k : nat) :
  length marks = length l -> (length l <= k)%nat -> expand marks l !! shift marks k = None.
Proof.
  intros Hlen Hk. apply lookup_ge_None. rewrite expand_length by done.
  unfold shift. rewrite take_ge by lia. lia.
Qed.

Lemma lookup_same_length {A B} (l : list A) (l' : list B) (k : nat) (x : A) :
  length l' = length l -> l !! k = Some x -> exists y, l' !! k = Some y.
Proof. intros Hl Hk. apply lookup_lt_is_Some. rewrite Hl. by eapply lookup_lt_Some. Qed.

Section Pass.
Context (marks : list bool) (l : list MachInst) (lab lab' : nat -> nat).
Context (Hok : marks_ok marks l) (Hshaped : Forall (fun i => shaped i = true) l) (Hskips : skips_ok l).
Context (Hlab : forall k i c t, l !! k = Some i -> decode i = Some (c, ToBlock t) ->
                  lab' t = shift marks (lab t)).

Lemma unmarked (k : nat) (m : bool) (i : MachInst) :
  marks !! k = Some m -> l !! k = Some i -> relaxable i = false -> m = false.
Proof.
  intros Hm Hi Hr. destruct m; [|done]. destruct (proj2 Hok k Hm) as (i' & Hi' & Hr'). congruence.
Qed.

Lemma skip_shift (k : nat) (i : MachInst) (c : Cond) (d : Z) (t : nat) :
  l !! k = Some i -> decode i = Some (c, ToDisp d) -> target_pc lab k (ToDisp d) = Some t ->
  marks !! k = Some false ->
  target_pc lab' (shift marks k) (ToDisp d) = Some (shift marks t).
Proof.
  intros Hi Hd Ht Hm. destruct (Hskips k i c d Hi Hd) as [-> Hnext]. unfold target_pc in *.
  rewrite (proj2 (Z.ltb_ge _ _)) in Ht by lia. injection Ht as <-.
  rewrite (proj2 (Z.ltb_ge _ _)) by lia. f_equal.
  replace (Z.to_nat (Z.of_nat k + 2)) with (S (S k)) by lia.
  assert (E : shift marks (S (S k)) = S (S (shift marks k))).
  { destruct (l !! S k) as [j|] eqn:Ej.
    - destruct (lookup_same_length l marks (S k) j (proj1 Hok) Ej) as [m' Hm'].
      rewrite (shift_S marks (S k) m' Hm'), (shift_S marks k false Hm).
      rewrite (unmarked (S k) m' j Hm' Ej (Hnext j eq_refl)). lia.
    - apply lookup_ge_None in Ej. pose proof (shift_S marks k false Hm) as E1. unfold shift in *.
      rewrite !take_ge in * by (rewrite (proj1 Hok); lia). lia. }
  rewrite E. lia.
Qed.

Lemma pass_simulates : simulates (shift marks) l lab (expand marks l) lab'.
Proof.
  intros [pc s|s]; [|done]. cbn [step move].
  destruct (l !! pc) as [i|] eqn:Hi.
  2: { by rewrite (expand_beyond marks l pc (proj1 Hok) (proj1 (lookup_ge_None _ _) Hi)). }
  destruct (lookup_same_length l marks pc i (proj1 Hok) Hi) as [m Hm].
  destruct (expand_lookup marks l pc m i (proj1 Hok) Hm Hi) as [Hl Hfar].
  pose proof (shift_S marks pc m Hm) as HS.
  assert (Hsh : shaped i = true) by (rewrite Forall_lookup in Hshaped; eauto).
  destruct m; cbv iota in HS.
  - destruct (proj2 Hok pc Hm) as (i' & Hi' & Hr). assert (i' = i) as -> by congruence.
    destruct (relaxable_decode i Hsh Hr) as (c & t & Ed & Einv & Efar & Hneg). rewrite Ed. cbn [target_pc fmap option_fmap option_map].
    destruct (holds c s) eqn:Hc.
    + exists 1%nat. cbn [run step]. rewrite Hl, Einv, Hneg, Hc. cbn [negb run step].
      rewrite (Hfar eq_refl), Efar. cbn. by rewrite (Hlab pc i c t Hi Ed).
    + exists 0%nat. cbn [run step]. rewrite Hl, Einv, Hneg, Hc. cbn [negb move].
      unfold target_pc. rewrite (proj2 (Z.ltb_ge _ _)) by lia.
      cbn [fmap option_fmap option_map run]. rewrite HS. do 2 f_equal. lia.
  - rewrite Nat.add_0_r in HS. destruct (decode i) as [[c [t|d]]|] eqn:Ed.
    + destruct (holds c s) eqn:Hc; exists 0%nat; cbn [run step]; rewrite Hl, Ed, Hc;
        cbn [move target_pc fmap option_fmap option_map];
        [by rewrite (Hlab pc i c t Hi Ed)|by rewrite HS].
    + destruct (holds c s) eqn:Hc.
      2: { exists 0%nat. cbn [run step]. rewrite Hl, Ed, Hc. cbn [move]. by rewrite HS. }
      destruct (target_pc lab pc (ToDisp d)) as [t|] eqn:Et; cbn [fmap option_fmap option_map].
      * exists 0%nat. cbn [run step]. rewrite Hl, Ed, Hc.
        by rewrite (skip_shift pc i c d t Hi Ed Et Hm).
      * destruct (Hskips pc i c d Hi Ed) as [-> _]. unfold target_pc in Et.
        by rewrite (proj2 (Z.ltb_ge _ _)) in Et by lia.
    + destruct (exec i s) as [s' leaves] eqn:Ex. exists 0%nat. cbn [run step]. rewrite Hl, Ed, Ex.
      destruct leaves; cbn [move]; [done|]. by rewrite HS.
Qed.
End Pass.

(** ** All passes *)

(** The streams the semantics theorem is about: every instruction is well shaped,
    resolved branches are skips, and branch targets are laid out. *)
Definition stream_ok (func : MachFunction) : Prop :=
  Forall (fun i => shaped i = true) (stream func) /\ skips (stream func) = true /\
  Forall (fun i => match decode i with
                   | Some (_, ToBlock t) => t ∈ block_order func
                   | _ => True
                   end) (stream func).

Lemma expand_skips (marks : list bool) (l : list MachInst) :
  marks_ok marks l -> Forall (fun i => shaped i = true) l -> skips l = true -> skips (expand marks l) = true.
Proof.
  revert l; induction marks as [|m marks IH]; intros [|i l] [Hlen Hm] Hsh Hs; try done.
  apply Forall_cons in Hsh as [Hi Hsh]. cbn [skips] in Hs. apply andb_true_iff in Hs as [Hd Hs].
  assert (Hok : marks_ok marks l).
  { split; [cbn in Hlen; lia|]. intros k Hk. apply (Hm (S k) Hk). }
  specialize (IH l Hok Hsh Hs). cbn [expand]. destruct m; cbn [app].
  - destruct (Hm 0%nat eq_refl) as (i' & [= <-] & Hr).
    destruct (relaxable_decode i Hi Hr) as (c & t & _ & Einv & Efar & _).
    cbn [skips]. rewrite Einv, Efar. destruct (far_inst_facts i) as [_ ->]. by rewrite IH.
  - cbn [skips]. rewrite IH, andb_true_r. destruct (decode i) as [[c [t|d]]|]; try done.
    rewrite andb_true_iff in Hd |- *. destruct Hd as [Hd2 Hn]. split; [done|].
    destruct marks as [|m' marks]; destruct l as [|j l]; try done.
    cbn [expand]. destruct m'; [|done].
    destruct (proj2 Hok 0%nat eq_refl) as (j' & [= <-] & Hr). by rewrite Hr in Hn.
Qed.

Lemma expansion_ok (func func' : MachFunction) (marks : list bool) :
  block_order func' = block_order func -> expansion func func' marks -> stream_ok func -> stream_ok func'.
Proof.
  intros Ho [Hm Hs _] (H1 & H2 & H3). unfold stream_ok. rewrite Hs, Ho. split; [|split].
  - apply expand_forall; [done|done|]. intros i Hr Hi.
    destruct (relaxable_decode i Hi Hr) as (c & t & _ & Einv & Efar & _).
    unfold shaped. rewrite Einv, Efar. done.
  - by apply expand_skips.
  - assert (H : Forall (fun i => shaped i = true /\ match decode i with
                   | Some (_, ToBlock t) => t ∈ block_order func | _ => True end) (expand marks (stream func))).
    { apply expand_forall; [done|by apply Forall_and|]. intros i Hr [Hi Ht].
      destruct (relaxable_decode i Hi Hr) as (c & t & Ed & Einv & Efar & _).
      unfold shaped. rewrite Einv, Efar. rewrite Ed in Ht. done. }
    eapply Forall_impl; [exact H|]. cbn. tauto.
Qed.

Lemma expansion_simulates (func func' : MachFunction) (marks : list bool) :
  expansion func func' marks -> stream_ok func ->
  simulates (shift marks) (stream func) (label func) (stream func') (label func').
Proof.
  intros [Hm Hs Hl] (H1 & H2 & H3). rewrite Hs. apply pass_simulates; [done|done|by apply skips_lookup|].
  intros k i c t Hk Hd. apply Hl. rewrite Forall_lookup in H3. specialize (H3 k i Hk). by rewrite Hd in H3.
Qed.

(** What a run of the loop does to a function. *)
Record relaxed_to (func func' : MachFunction) (pi : nat -> nat) : Prop := {
  rt_order : block_order func' = block_order func;
  rt_layout : layout_ok func';
  rt_ids : ids_ok func';
  rt_ok : stream_ok func';
  rt_grows : (length (stream func') + shorts (stream func') <= length (stream func) + shorts (stream func))%nat;
  rt_label : forall b, b ∈ block_order func -> label func' b = pi (label func b);
  rt_mono : forall k, (pi k < pi (S k))%nat;
  rt_zero : pi 0%nat = 0%nat;
  rt_sim : simulates pi (stream func) (label func) (stream func') (label func') }.

Lemma shift_mono (marks : list bool) (k : nat) : (shift marks k < shift marks (S k))%nat.
Proof.
  destruct (marks !! k) as [m|] eqn:E; [rewrite (shift_S _ _ _ E); lia|].
  apply lookup_ge_None in E. unfold shift. rewrite !take_ge by lia. lia.
Qed.

Lemma simulates_refl (code : list MachInst) (lab : nat -> nat) : simulates (fun k => k) code lab code lab.
Proof.
  intros c. assert (Em : forall c, move (fun k => k) c = c) by (by intros []). rewrite Em.
  destruct (step code lab c) as [c1|] eqn:E; [|done]. exists 0%nat. cbn [run]. by rewrite E, Em.
Qed.

Lemma relax_loop_relaxed (fuel : nat) (func func' : MachFunction) (stable : bool) :
  ids_ok func -> layout_ok func -> stream_ok func -> relax_loop fuel func = inr (func', stable) ->
  exists pi, relaxed_to func func' pi.
Proof.
  revert func; induction fuel as [|fuel IH]; intros func Hids Hlay Hok; cbn [relax_loop].
  { intros [= <- _]. exists (fun k => k). split; try done; [lia|apply simulates_refl]. }
  destruct (relax_blocks _ _ _ _) as [|[func1 ch]] eqn:E; [done|].
  destruct (pass_expansion _ _ _ Hids Hlay E) as (H1 & H2 & Ho & _ & marks & Hexp & _).
  pose proof (expansion_ok _ _ _ Ho Hexp Hok) as Hok1.
  pose proof (expansion_simulates _ _ _ Hexp Hok) as Hsim.
  assert (Hone : relaxed_to func func1 (shift marks)).
  { split; try done.
    - rewrite (exp_stream _ _ _ Hexp). destruct (exp_marks _ _ _ Hexp) as [Hlen Hm].
      rewrite expand_length by done. pose proof (shorts_expand marks (stream func) (conj Hlen Hm)). lia.
    - apply (exp_label _ _ _ Hexp).
    - apply shift_mono. }
  destruct ch; [|intros [= <- _]; eauto].
  intros H. destruct (IH func1 H1 H2 Hok1 H) as [pi Hpi]. exists (fun k => pi (shift marks k)).
  assert (Hmono : forall a b, (a < b)%nat -> (pi a < pi b)%nat).
  { intros a b Hab. induction Hab as [|b Hab IHab]; [apply (rt_mono _ _ _ Hpi)|].
    pose proof (rt_mono _ _ _ Hpi b). lia. }
  destruct Hpi, Hone. split; try done; try lia; try congruence.
  - intros b Hb. rewrite rt_label0 by congruence. f_equal. by apply rt_label1.
  - intros k. apply Hmono, shift_mono.
  - by eapply simulates_trans.
Qed.

(** ** The final code *)

Lemma displaced_no_block (func : MachFunction) (k : nat) (ops : list MachOperand) :
  existsb is_block ops = false -> map (displaced func k) ops = ops.
Proof.
  induction ops as [|op ops IH]; [done|]. cbn [existsb map]. rewrite orb_false_iff. intros [Hop H].
  rewrite IH by done. by destruct op.
Qed.

Definition final_of (func : MachFunction) (k : nat) (i : MachInst) : MachInst :=
  mkInst (opcode i) (map (displaced func k) (operands i)) (implicit_defs i) (implicit_uses i) (flags i).

Lemma final_of_unchanged (func : MachFunction) (k : nat) (i : MachInst) :
  existsb is_block (operands i) = false -> final_of func k i = i.
Proof. intros H. unfold final_of. rewrite displaced_no_block by done. by destruct i. Qed.

Lemma final_of_branch (func : MachFunction) (k : nat) (i : MachInst) (c : Cond) (t : nat) :
  decode i = Some (c, ToBlock t) ->
  decode (final_of func k i) = Some (c, ToDisp (Z.of_nat (label func t) - Z.of_nat k)).
Proof.
  intros (op & ->%as_target_block & Hs)%decode_shape. unfold decode, final_of; cbn [opcode operands].
  by inversion Hs.
Qed.

Lemma final_simulates (func : MachFunction) (lab : nat -> nat) :
  layout_ok func -> code_fits func -> targets_ok func -> stream_ok func ->
  simulates (fun k => k) (stream func) (label func) (instructions (build_final_code func)) lab.
Proof.
  intros Hlay Hfit Ht (Hsh & Hsk & _) c. assert (Em : forall c, move (fun k => k) c = c) by (by intros []).
  rewrite !Em. destruct c as [pc s|]; [|done].
  assert (E : forall pc, stream func !! pc = None -> instructions (build_final_code func) !! pc = None).
  { intros k. rewrite final_instructions, list_lookup_imap. by intros ->. }
  cbn [step]. destruct (stream func !! pc) as [i|] eqn:Hi; [|by rewrite E].
  pose proof (final_inst func pc i Hlay Hfit Ht Hi) as Hf. fold (final_of func pc i) in Hf.
  assert (Hs : shaped i = true) by (rewrite Forall_lookup in Hsh; eauto). unfold shaped in Hs.
  destruct (decode i) as [[c [t|d]]|] eqn:Ed.
  - destruct (holds c s) eqn:Hc; cbn [target_pc fmap option_fmap option_map];
      exists 0%nat; cbn [run step]; rewrite Hf, (final_of_branch func pc i c t Ed), Hc, Em; [|done].
    unfold target_pc. rewrite (proj2 (Z.ltb_ge _ _)) by lia. cbn. do 2 f_equal. lia.
  - rewrite (final_of_unchanged func pc i) in Hf by (by eapply decode_disp_no_block).
    destruct (skips_lookup _ Hsk pc i c d Hi Ed) as [-> _].
    destruct (holds c s) eqn:Hc; unfold target_pc; rewrite ?(proj2 (Z.ltb_ge _ _)) by lia;
      cbn [fmap option_fmap option_map]; exists 0%nat; cbn [run step]; rewrite Hf, Ed, Hc, Em; [|done].
    unfold target_pc. rewrite (proj2 (Z.ltb_ge _ _)) by lia. done.
  - rewrite (final_of_unchanged func pc i) in Hf by (by apply negb_true_iff).
    destruct (exec i s) as [s' leaves] eqn:Ex. exists 0%nat. cbn [run step]. by rewrite Hf, Ed, Ex, Em.
Qed.

(** C7: Branch relaxation preserves execution.  For every machine (any state, any
    effect of the instructions that are not direct branches) and every validated
    function whose stream is well shaped and whose relaxed code fits 32-bit
    offsets: if [relax_branches] succeeds there is a strictly increasing map of
    positions, which sends the start of each block to the byte offset reported for
    it, such that every run of the laid-out input from its first instruction is
    matched by a run of the final code to the same state at the mapped position,
    in at least as many steps; and the final code leaves the function with a state
    exactly when the input does. *)
Theorem relax_preserves_execution (func func' : MachFunction) (code : RelaxedCode) :
  relax_branches func = inr (func', code) -> stream_ok func ->
  4 * Z.of_nat (length (stream func) + shorts (stream func)) < 2 ^ 32 ->
  exists pi : nat -> nat,
    (forall k, (pi k < pi (S k))%nat) /\
    (forall b, b ∈ block_order func -> block_offsets code !! b = Some (4 * Z.of_nat (pi (label func b)))) /\
    (forall n s c, run n (stream func) (label func) (Run 0 s) = Some c ->
       exists m, (n <= m)%nat /\ run m (instructions code) (fun _ => 0%nat) (Run 0 s) = Some (move pi c)) /\
    (forall s s', (exists n, run n (stream func) (label func) (Run 0 s) = Some (Exit s')) <->
                  (exists m, run m (instructions code) (fun _ => 0%nat) (Run 0 s) = Some (Exit s'))).
Proof.
  intros H Hok Hsz. destruct (relax_branches_inv _ _ _ H) as (Hwf & [stable E] & ->).
  pose proof (well_formed_ids _ Hwf) as Hids. pose proof (well_formed_layout _ Hwf) as Hlay.
  destruct (relax_loop_relaxed _ _ _ _ Hids Hlay Hok E) as [pi []].
  destruct (loop_facts _ _ _ _ Hids Hlay (well_formed_targets _ Hwf) E) as (_ & _ & Ht' & _ & _).
  assert (Hfit : code_fits func') by (unfold code_fits; lia).
  pose proof (simulates_trans _ _ _ _ _ _ _ _ rt_sim0
                (final_simulates func' (fun _ => 0%nat) rt_layout0 Hfit Ht' rt_ok0)) as Hsim.
  cbv beta in Hsim. assert (E0 : forall s, move (fun k => pi k) (Run 0 s) = Run 0 s).
  { intros s. cbn. by rewrite rt_zero0. }
  exists pi. split; [done|]. split; [|split].
  - intros b Hb. rewrite final_offsets by (done || by rewrite rt_order0).
    rewrite block_offset_label by (done || by rewrite rt_order0). by rewrite rt_label0.
  - intros n s c Hn. destruct (simulates_run _ _ _ _ _ _ _ _ Hsim Hn) as (m & Hm & Hr).
    exists m. by rewrite E0 in Hr.
  - intros s s'. pose proof (simulates_exit _ _ _ _ _ (Run 0 s) s' Hsim) as Hx. by rewrite E0 in Hx.
Qed.
End Machine.

(** The loop of [demo_loop] on a machine with one register: set to 4, count down to
    0, return. *)
Definition demo_exec (i : MachInst) (s : Z) : Z * bool :=
  match opcode i with
  | OtherOp 1 => (4, false)
  | OtherOp 2 => (s - 1, false)
  | _ => (s, true)
  end.

Definition demo_nzcv (s : Z) : bool * bool * bool * bool := (false, false, false, false).
Definition demo_read (s : Z) (r : PReg) : Z := s.

Lemma relax_preserves_execution_witness :
  exists func' code, relax_branches demo_loop = inr (func', code) /\
    exists m, run demo_nzcv demo_read demo_exec m (instructions code) (fun _ => 0%nat) (Run 0 7) = Some (Exit 0).
Proof.
  destruct (relax_branches demo_loop) as [|[func' code]] eqn:E; [vm_compute in E; discriminate E|].
  exists func', code. split; [done|].
  destruct (relax_preserves_execution demo_nzcv demo_read demo_exec demo_loop func' code E) as (pi & _ & _ & _ & H).
  - split; [by repeat constructor|]. split; [done|].
    repeat constructor.
  - vm_compute. done.
  - apply (proj1 (H 7 0)). exists 10%nat. vm_compute. done.
Defined.
