(* ===== verification/Liveness.v ===== *)
(** * Live ranges and live intervals ([crates/trust-cg-regalloc/src/liveness.rs])

    Ranges, intervals and their merging insertion, the interval queries the
    allocators use, and the dense bitset of the liveness dataflow.  The spill
    weight of an interval, a floating-point heuristic, is not part of the record. *)

From S2P Require Import Prelude Regs.
Local Open Scope Z_scope.

(** ** Ranges and intervals *)

Record LiveRange := mkRange { rstart : Z; rend : Z }.

#[export] Instance LiveRange_eq_dec : EqDecision LiveRange.
Proof. solve_decision. Defined.

#[export] Instance LiveRange_inhabited : Inhabited LiveRange := populate (mkRange 0 0).

(** [LiveRange::contains] and [LiveRange::overlaps]. *)
Definition range_contains (r : LiveRange) (idx : Z) : bool := (rstart r <=? idx) && (idx <? rend r).
Definition range_overlaps (a b : LiveRange) : bool := (rstart a <? rend b) && (rstart b <? rend a).

Record LiveInterval := mkInterval {
  vreg : VReg;
  ranges : list LiveRange;
  is_fixed : bool;
  use_positions : list Z;
  def_positions : list Z }.

Definition LiveInterval_new (v : VReg) : LiveInterval := mkInterval v [] false [] [].

Definition with_ranges (iv : LiveInterval) (l : list LiveRange) : LiveInterval :=
  mkInterval (vreg iv) l (is_fixed iv) (use_positions iv) (def_positions iv).

(** [LiveInterval::start] and [LiveInterval::end]. *)
Definition interval_start (iv : LiveInterval) : Z :=
  match head (ranges iv) with Some r => rstart r | None => 0 end.
Definition interval_end (iv : LiveInterval) : Z :=
  match last (ranges iv) with Some r => rend r | None => 0 end.

(** The standard library's [binary_search_by]: [size] halves each round, so
    [length l] rounds are enough. *)
Fixpoint bsearch_base {A} (f : A -> comparison) (l : list A) (fuel base size : nat) `{!Inhabited A} : nat :=
  match fuel with
  | O => base
  | S fuel =>
      if (size <=? 1)%nat then base
      else let half := (size / 2)%nat in
           let mid := (base + half)%nat in
           let base := match f (l !!! mid) with Gt => base | _ => mid end in
           bsearch_base f l fuel base (size - half)
  end.

Definition binary_search_ok {A} `{!Inhabited A} (f : A -> comparison) (l : list A) : bool :=
  match l with
  | [] => false
  | _ => match f (l !!! bsearch_base f l (length l) 0 (length l)) with Eq => true | _ => false end
  end.

Definition is_live_at (iv : LiveInterval) (idx : Z) : bool :=
  binary_search_ok (fun r => if rend r <=? idx then Lt else if idx <? rstart r then Gt else Eq)
    (ranges iv).

(** The merge scan of [LiveInterval::overlaps]: each round advances [i] or [j]. *)
Fixpoint overlap_scan (fuel : nat) (l1 l2 : list LiveRange) : bool :=
  match fuel with
  | O => false
  | S fuel =>
      match l1, l2 with
      | a :: l1', b :: l2' =>
          if range_overlaps a b then true
          else if rend a <=? rstart b then overlap_scan fuel l1' l2
          else overlap_scan fuel l1 l2'
      | _, _ => false
      end
  end.

Definition overlaps (x y : LiveInterval) : bool :=
  match head (ranges x), last (ranges x), head (ranges y), last (ranges y) with
  | Some a_first, Some a_last, Some b_first, Some b_last =>
      if (rend a_last <=? rstart b_first) || (rend b_last <=? rstart a_first) then false
      else overlap_scan (length (ranges x) + length (ranges y)) (ranges x) (ranges y)
  | _, _, _, _ => false
  end.

(** ** Adding a range *)

Record MergeState := mkMerge {
  merged_start : Z;
  merged_end : Z;
  remove_start : option nat;
  remove_end : option nat }.

Definition merge_step (st : MergeState) (i : nat) (existing : LiveRange) : MergeState :=
  if (rstart existing <=? merged_end st) && (merged_start st <=? rend existing) then
    mkMerge (Z.min (merged_start st) (rstart existing)) (Z.max (merged_end st) (rend existing))
      (match remove_start st with None => Some i | Some rs => Some rs end) (Some i)
  else st.

(** The loop over [self.ranges.iter().enumerate()]. *)
Fixpoint merge_scan (st : MergeState) (i : nat) (l : list LiveRange) : MergeState :=
  match l with
  | [] => st
  | r :: l => merge_scan (merge_step st i r) (S i) l
  end.

(** [iter().position(..).unwrap_or(len)]. *)
Fixpoint position_or_len {A} (p : A -> bool) (l : list A) : nat :=
  match l with
  | [] => 0
  | x :: l => if p x then 0 else S (position_or_len p l)
  end.

Definition insert_at {A} (i : nat) (x : A) (l : list A) : list A := take i l ++ x :: drop i l.

Definition add_range (iv : LiveInterval) (s e : Z) : LiveInterval :=
  if e <=? s then iv
  else
    let st := merge_scan (mkMerge s e None None) 0 (ranges iv) in
    match remove_start st, remove_end st with
    | Some rs, Some re =>
        let kept := take rs (ranges iv) ++ drop (S re) (ranges iv) in
        with_ranges iv (insert_at rs (mkRange (merged_start st) (merged_end st)) kept)
    | _, _ =>
        let pos := position_or_len (fun r => s <? rstart r) (ranges iv) in
        with_ranges iv (insert_at pos (mkRange s e) (ranges iv))
    end.

(** ** Dense bitsets

    [n.div_ceil(64)] words of 64 bits; an access outside them panics, which the
    width computed by [compute_live_intervals] excludes. *)

Abbreviation LiveSet := (list Z) (only parsing).

Definition LiveSet_new (n_vregs : Z) : LiveSet := replicate (Z.to_nat ((n_vregs + 63) / 64)) 0.

Definition word_of (id : Z) : nat := Z.to_nat (id / 64).
Definition bit_of (id : Z) : Z := Z.shiftl 1 (id mod 64).

Definition set_insert (s : LiveSet) (id : Z) : LiveSet :=
  <[word_of id := Z.lor (s !!! word_of id) (bit_of id)]> s.
Definition set_remove (s : LiveSet) (id : Z) : LiveSet :=
  <[word_of id := Z.land (s !!! word_of id) (Z.lxor (bit_of id) (2 ^ 64 - 1))]> s.
Definition set_contains (s : LiveSet) (id : Z) : bool :=
  negb (Z.land (Z.shiftr (s !!! word_of id) (id mod 64)) 1 =? 0).
Definition set_clear (s : LiveSet) : LiveSet := map (fun _ => 0) s.
Definition set_union (s t : LiveSet) : LiveSet := zip_with Z.lor s t.

(** [LiveSet::iter]: the set bits of each word, lowest first. *)
Fixpoint word_bits (fuel : nat) (base bits : Z) : list Z :=
  match fuel with
  | O => []
  | S fuel =>
      if bits =? 0 then []
      else let b := Z.log2 (Z.land bits (- bits)) in
           base + b :: word_bits fuel base (Z.land bits (bits - 1))
  end.

Fixpoint iter_words (wi : Z) (s : LiveSet) : list Z :=
  match s with
  | [] => []
  | word :: s => word_bits 64 (wi * 64) word ++ iter_words (wi + 1) s
  end.

Definition set_iter (s : LiveSet) : list Z := iter_words 0 s.

(** ** Sorted intervals *)

(** Non-empty ranges in ascending order with a gap between neighbours. *)
Definition separated (l : list LiveRange) : Prop :=
  Forall (fun r => rstart r < rend r) l /\ StronglySorted (fun a b => rend a < rstart b) l.

Definition live_in_ranges (l : list LiveRange) (idx : Z) : Prop :=
  exists r, r ∈ l /\ rstart r <= idx < rend r.

Definition live (iv : LiveInterval) (idx : Z) : Prop := live_in_ranges (ranges iv) idx.

Lemma separated_cons (r : LiveRange) (l : list LiveRange) :
  separated (r :: l) <-> rstart r < rend r /\ Forall (fun b => rend r < rstart b) l /\ separated l.
Proof.
  unfold separated. rewrite Forall_cons. split.
  - intros [[H1 H2] H3]. apply StronglySorted_inv in H3 as [H3 H4]. done.
  - intros (H1 & H2 & H3 & H4). split; [done|]. by constructor.
Qed.

Lemma live_in_ranges_cons (r : LiveRange) (l : list LiveRange) (idx : Z) :
  live_in_ranges (r :: l) idx <-> rstart r <= idx < rend r \/ live_in_ranges l idx.
Proof.
  unfold live_in_ranges. split.
  - intros (x & [->|Hx]%elem_of_cons & H); [by left|right; eauto].
  - intros [H|(x & Hx & H)]; [exists r; split; [by left|done]|exists x; split; [by right|done]].
Qed.

Lemma live_in_ranges_app (l1 l2 : list LiveRange) (idx : Z) :
  live_in_ranges (l1 ++ l2) idx <-> live_in_ranges l1 idx \/ live_in_ranges l2 idx.
Proof. unfold live_in_ranges. setoid_rewrite elem_of_app. naive_solver. Qed.

Lemma separated_app (l1 l2 : list LiveRange) :
  separated (l1 ++ l2) <->
  separated l1 /\ separated l2 /\ forall a b, a ∈ l1 -> b ∈ l2 -> rend a < rstart b.
Proof.
  induction l1 as [|r l1 IH]; cbn [app].
  { split; [|naive_solver]. intros H. split; [split; constructor|]. split; [done|].
    by intros a b ?%elem_of_nil. }
  rewrite !separated_cons, IH, Forall_app, !Forall_forall. split.
  - intros (H1 & (H2 & H3) & H4 & H5 & H6). split; [done|]. split; [done|].
    intros a b [->|Ha]%elem_of_cons Hb; auto.
  - intros ((H1 & H2 & H3) & H4 & H5). split; [done|]. split; [split; [done|]|].
    + intros x Hx. apply H5; [by left|done].
    + split; [done|]. split; [done|]. intros a b Ha Hb. apply H5; [by right|done].
Qed.

(** The reference insertion: skip what ends before the range, absorb what touches
    it, keep the rest. *)
Fixpoint absorb (l : list LiveRange) (s e : Z) : nat * Z * Z :=
  match l with
  | [] => (0%nat, s, e)
  | r :: l =>
      if rstart r <=? e then let '(n, s', e') := absorb l (Z.min s (rstart r)) (Z.max e (rend r)) in (S n, s', e')
      else (0%nat, s, e)
  end.

Lemma absorb_facts (l : list LiveRange) (s e : Z) :
  separated l -> s < e -> Forall (fun r => s <= rend r) l ->
  let '(n, s', e') := absorb l s e in
  (n <= length l)%nat /\ s' <= s /\ e <= e' /\ s' < e' /\
  Forall (fun r => e' < rstart r) (drop n l) /\
  (forall x, (forall r, r ∈ l -> x < rstart r) -> x < s -> x < s') /\
  (forall idx, s' <= idx < e' <-> s <= idx < e \/ live_in_ranges (take n l) idx).
Proof.
  revert s e; induction l as [|r l IH]; intros s e Hsep Hlt Hend; cbn [absorb].
  { cbn. do 4 (split; [lia|]). split; [constructor|]. split; [auto|].
    intros idx. split; [by left|]. intros [?|(x & ?%elem_of_nil & _)]; done. }
  apply separated_cons in Hsep as (Hr & Hgap & Hsep). apply Forall_cons in Hend as [Hre Hend].
  destruct (Z.leb_spec (rstart r) e) as [Hle|Hgt].
  - specialize (IH (Z.min s (rstart r)) (Z.max e (rend r)) Hsep).
    destruct (absorb l _ _) as [[n s'] e'].
    destruct IH as (H1 & H2 & H3 & H4 & H5 & H6 & H7); [lia| |].
    { rewrite Forall_forall in Hgap, Hend |- *. intros x Hx. specialize (Hend x Hx). lia. }
    cbn [length take drop]. do 4 (split; [lia|]). split; [done|]. split.
    + intros x Hx Hxs. apply H6; [intros y Hy; apply Hx; by right|].
      specialize (Hx r ltac:(by left)). lia.
    + intros idx. rewrite H7, live_in_ranges_cons.
      assert (Z.min s (rstart r) <= idx < Z.max e (rend r) <-> s <= idx < e \/ rstart r <= idx < rend r) by lia.
      tauto.
  - cbn [take drop length]. do 4 (split; [lia|]). split; [|split; [done|]].
    + constructor; [done|]. rewrite Forall_forall in Hgap |- *. intros x Hx. specialize (Hgap x Hx). lia.
    + intros idx. split; [by left|]. intros [?|(x & ?%elem_of_nil & _)]; done.
Qed.

Lemma split_before (l : list LiveRange) (s : Z) :
  separated l -> exists l1 l2, l = l1 ++ l2 /\ Forall (fun r => rend r < s) l1 /\ Forall (fun r => s <= rend r) l2.
Proof.
  induction l as [|r l IH]; intros Hsep; [by exists [], []|].
  apply separated_cons in Hsep as (Hr & Hgap & Hsep). destruct (Z.lt_ge_cases (rend r) s) as [Hlt|Hge].
  - destruct (IH Hsep) as (l1 & l2 & -> & H1 & H2). exists (r :: l1), l2. split; [done|]. split; [by constructor|done].
  - exists [], (r :: l). split; [done|]. split; [done|]. constructor; [done|].
    destruct Hsep as [Hne _]. rewrite Forall_forall in Hgap, Hne |- *.
    intros x Hx. specialize (Hgap x Hx). specialize (Hne x Hx). cbn in *. lia.
Qed.

Lemma merge_scan_before (st : MergeState) (l1 l2 : list LiveRange) (i : nat) :
  Forall (fun r => rend r < merged_start st) l1 ->
  merge_scan st i (l1 ++ l2) = merge_scan st (i + length l1) l2.
Proof.
  revert i; induction l1 as [|r l1 IH]; intros i H; cbn [app merge_scan length].
  { by rewrite Nat.add_0_r. }
  apply Forall_cons in H as [Hr H]. unfold merge_step at 1.
  rewrite (proj2 (Z.leb_gt (merged_start st) (rend r))), andb_false_r by done. rewrite IH by done. f_equal. lia.
Qed.

Lemma merge_scan_after (st : MergeState) (l : list LiveRange) (i : nat) :
  Forall (fun r => merged_end st < rstart r) l -> merge_scan st i l = st.
Proof.
  revert i; induction l as [|r l IH]; intros i H; [done|]. apply Forall_cons in H as [Hr H].
  cbn [merge_scan]. unfold merge_step. rewrite (proj2 (Z.leb_gt _ _)) by done. by apply IH.
Qed.

Lemma merge_scan_absorb (l : list LiveRange) (s e : Z) (rs re : option nat) (i : nat) :
  separated l -> Forall (fun r => s <= rend r) l ->
  let '(n, s', e') := absorb l s e in
  merge_scan (mkMerge s e rs re) i l
  = mkMerge s' e' (if (n =? 0)%nat then rs else match rs with None => Some i | Some x => Some x end)
      (if (n =? 0)%nat then re else Some (i + n - 1)%nat).
Proof.
  revert s e rs re i; induction l as [|r l IH]; intros s e rs re i Hsep Hend; [done|].
  apply separated_cons in Hsep as (Hr & Hgap & Hsep). apply Forall_cons in Hend as [Hre Hend].
  cbn [absorb]. destruct (Z.leb_spec (rstart r) e) as [Hle|Hgt].
  - assert (Hend' : Forall (fun r0 => Z.min s (rstart r) <= rend r0) l)
      by (eapply Forall_impl; [exact Hend|cbn; lia]).
    specialize (IH (Z.min s (rstart r)) (Z.max e (rend r))
      (match rs with None => Some i | Some x => Some x end) (Some i) (S i) Hsep Hend').
    destruct (absorb l _ _) as [[n s'] e']. cbn [merge_scan]. unfold merge_step; cbn [merged_start merged_end remove_start].
    rewrite (proj2 (Z.leb_le (rstart r) e)), (proj2 (Z.leb_le s (rend r))) by lia. cbn [andb]. rewrite IH.
    destruct n as [|n]; cbn [Nat.eqb]; f_equal; [|destruct rs; done|]; f_equal; lia.
  - cbn [Nat.eqb]. apply merge_scan_after. constructor; cbn [merged_end]; [done|].
    eapply Forall_impl; [exact Hgap|cbn; lia].
Qed.

Lemma position_app {A} (p : A -> bool) (l1 l2 : list A) :
  Forall (fun x => p x = false) l1 -> (forall x, head l2 = Some x -> p x = true) ->
  position_or_len p (l1 ++ l2) = length l1.
Proof.
  intros H1 H2. induction l1 as [|x l1 IH]; cbn [app position_or_len length].
  - destruct l2 as [|y l2]; [done|]. cbn. by rewrite (H2 y eq_refl).
  - apply Forall_cons in H1 as [Hx H1]. by rewrite Hx, IH.
Qed.

Lemma add_range_ranges (iv : LiveInterval) (s e : Z) (l1 l2 : list LiveRange) :
  s < e -> ranges iv = l1 ++ l2 -> separated l2 ->
  Forall (fun r => rstart r < rend r /\ rend r < s) l1 -> Forall (fun r => s <= rend r) l2 ->
  let '(n, s', e') := absorb l2 s e in
  ranges (add_range iv s e) = l1 ++ mkRange s' e' :: drop n l2.
Proof.
  intros Hlt Hl Hsep H1 H2. pose proof (merge_scan_absorb l2 s e None None (length l1) Hsep H2) as Hm.
  pose proof (absorb_facts l2 s e Hsep Hlt H2) as Hf.
  destruct (absorb l2 s e) as [[n s'] e'] eqn:Ea.
  unfold add_range. rewrite (proj2 (Z.leb_gt e s)) by done. rewrite Hl.
  rewrite merge_scan_before by (eapply Forall_impl; [exact H1|by intros r []]). cbn [Nat.add]. rewrite Hm.
  cbn [remove_start remove_end merged_start merged_end]. destruct n as [|n]; cbn [Nat.eqb].
  - assert (s' = s /\ e' = e) as [-> ->].
    { destruct l2 as [|r l2]; cbn [absorb] in Ea; [by injection Ea|].
      destruct (rstart r <=? e); [|by injection Ea]. destruct (absorb l2 _ _) as [[? ?] ?]. done. }
    destruct Hf as (_ & _ & _ & _ & Hd & _). cbn [drop] in Hd. cbn [with_ranges ranges].
    rewrite (position_app _ l1 l2).
    + unfold insert_at. rewrite take_app_length, drop_app_length. done.
    + eapply Forall_impl; [exact H1|]. cbn. intros r [? ?]. apply Z.ltb_ge. lia.
    + intros x Hx. destruct l2 as [|y l2]; [done|]. injection Hx as ->. apply Forall_cons in Hd as [Hd _].
      apply Z.ltb_lt. lia.
  - cbn [with_ranges ranges]. replace (S (length l1 + S n - 1)) with (length l1 + S n)%nat by lia.
    rewrite take_app_length, drop_app_add. unfold insert_at.
    rewrite take_app_length, drop_app_length. done.
Qed.

Lemma add_range_spec (iv : LiveInterval) (s e : Z) :
  separated (ranges iv) ->
  separated (ranges (add_range iv s e)) /\
  forall idx, live (add_range iv s e) idx <-> live iv idx \/ s <= idx < e.
Proof.
  intros Hsep. destruct (Z.le_gt_cases e s) as [Hle|Hlt].
  { unfold add_range. rewrite (proj2 (Z.leb_le e s)) by done. split; [done|]. intros idx.
    split; [by left|]. intros [?|?]; [done|lia]. }
  destruct (split_before (ranges iv) s Hsep) as (l1 & l2 & El & H1 & H2).
  rewrite El in Hsep. apply separated_app in Hsep as (Hs1 & Hs2 & H12).
  pose proof (absorb_facts l2 s e Hs2 Hlt H2) as Hf.
  pose proof (add_range_ranges iv s e l1 l2 Hlt El Hs2) as Hr.
  destruct (absorb l2 s e) as [[n s'] e']. destruct Hf as (Hn & Hs' & He' & Hlt' & Hd & Hx & Hidx).
  assert (H1' : Forall (fun r => rstart r < rend r /\ rend r < s) l1).
  { apply Forall_and. split; [apply Hs1|done]. }
  specialize (Hr H1' H2). unfold live. rewrite Hr, El.
  rewrite <- (take_drop n l2) in Hs2. apply separated_app in Hs2 as (_ & Hs2 & _).
  rewrite Forall_forall in Hd, H1. split.
  - apply separated_app. split; [done|]. split.
    + apply separated_cons. split; [done|]. split; [by apply Forall_forall|done].
    + intros a b Ha [->|Hb]%elem_of_cons; cbn [rstart].
      * apply Hx; [intros r Hr'; by apply H12|by apply H1].
      * apply H12; [done|]. rewrite <- (take_drop n l2). apply elem_of_app. by right.
  - intros idx. rewrite !live_in_ranges_app, live_in_ranges_cons. cbn [rstart rend]. rewrite Hidx.
    assert (Hl2 : live_in_ranges l2 idx <-> live_in_ranges (take n l2) idx \/ live_in_ranges (drop n l2) idx)
      by (by rewrite <- live_in_ranges_app, take_drop).
    tauto.
Qed.

(** ** The queries *)

Lemma overlap_scan_spec (fuel : nat) (l1 l2 : list LiveRange) :
  separated l1 -> separated l2 -> (length l1 + length l2 <= fuel)%nat ->
  overlap_scan fuel l1 l2 = true <-> exists idx, live_in_ranges l1 idx /\ live_in_ranges l2 idx.
Proof.
  revert l1 l2; induction fuel as [|fuel IH]; intros [|a l1] [|b l2] H1 H2 Hf; cbn [length] in Hf; try lia.
  all: cbn [overlap_scan].
  1-3: split; [done|]; intros (idx & (r & Hr & _) & (r' & Hr' & _));
       by (apply elem_of_nil in Hr || apply elem_of_nil in Hr').
  all: try (split; [done|]; intros (idx & (r & Hr & _) & (r' & Hr' & _));
            by (apply elem_of_nil in Hr || apply elem_of_nil in Hr')).
  pose proof H1 as H1'. pose proof H2 as H2'.
  apply separated_cons in H1 as (Ha & Hga & Hs1), H2 as (Hb & Hgb & Hs2).
  rewrite Forall_forall in Hga, Hgb.
  destruct (range_overlaps a b) eqn:Eo; unfold range_overlaps in Eo.
  { split; [intros _|done]. exists (Z.max (rstart a) (rstart b)).
    rewrite !live_in_ranges_cons. split; left; lia. }
  destruct (Z.leb_spec (rend a) (rstart b)) as [Hle|Hgt].
  - rewrite IH by (done || cbn; lia). setoid_rewrite (live_in_ranges_cons a). split; [naive_solver|].
    intros (idx & [Hx|Hx] & Hy); [exfalso|by exists idx]. apply live_in_ranges_cons in Hy as [Hy|(r & Hr & Hy)]; [lia|].
    specialize (Hgb r Hr). lia.
  - rewrite IH by (done || cbn; lia). setoid_rewrite (live_in_ranges_cons b). split; [naive_solver|].
    intros (idx & Hx & [Hy|Hy]); [exfalso|by exists idx]. apply live_in_ranges_cons in Hx as [Hx|(r & Hr & Hx)]; [lia|].
    specialize (Hga r Hr). lia.
Qed.

Lemma ends_bound (l : list LiveRange) (a b : LiveRange) (idx : Z) :
  separated l -> head l = Some a -> last l = Some b -> live_in_ranges l idx -> rstart a <= idx < rend b.
Proof.
  intros Hsep Ha Hb (r & Hr & Hi). split.
  - destruct l as [|x l]; [done|]. injection Ha as ->. apply separated_cons in Hsep as (Hx & Hg & _).
    rewrite Forall_forall in Hg. apply elem_of_cons in Hr as [->|Hr]; [lia|]. specialize (Hg r Hr). lia.
  - apply last_Some in Hb as [l' ->]. apply separated_app in Hsep as (_ & Hs & Hg).
    apply elem_of_app in Hr as [Hr| ->%list_elem_of_singleton]; [|lia].
    specialize (Hg r b Hr ltac:(by left)). destruct Hs as [Hs _]. apply Forall_cons in Hs as [Hs _]. lia.
Qed.

Lemma overlaps_spec (x y : LiveInterval) :
  separated (ranges x) -> separated (ranges y) ->
  overlaps x y = true <-> exists idx, live x idx /\ live y idx.
Proof.
  intros Hx Hy. unfold overlaps, live.
  assert (Hempty : forall l idx, head l = None \/ last l = None -> live_in_ranges l idx -> False).
  { intros l idx Hl (r & Hr & _). destruct l as [|a l]; [by apply elem_of_nil in Hr|].
    destruct Hl as [?|Hl]; [done|]. apply last_None in Hl. done. }
  destruct (head (ranges x)) as [a1|] eqn:E1; [|split; [done|]; intros (idx & ? & _); exfalso; eauto].
  destruct (last (ranges x)) as [a2|] eqn:E2; [|split; [done|]; intros (idx & ? & _); exfalso; eauto].
  destruct (head (ranges y)) as [b1|] eqn:E3; [|split; [done|]; intros (idx & _ & ?); exfalso; eauto].
  destruct (last (ranges y)) as [b2|] eqn:E4; [|split; [done|]; intros (idx & _ & ?); exfalso; eauto].
  destruct ((rend a2 <=? rstart b1) || (rend b2 <=? rstart a1)) eqn:Er; [|by apply overlap_scan_spec].
  split; [done|]. intros (idx & H1 & H2).
  pose proof (ends_bound _ _ _ _ Hx E1 E2 H1). pose proof (ends_bound _ _ _ _ Hy E3 E4 H2). lia.
Qed.

Section BinarySearch.
Context {A : Type} `{!Inhabited A} (f : A -> comparison) (l : list A).

(** What the search has established when [size] candidates from [base] are left. *)
Definition bsearch_inv (base size : nat) : Prop :=
  (1 <= size)%nat /\ (base + size <= length l)%nat /\
  (forall j, (base + size <= j < length l)%nat -> f (l !!! j) = Gt) /\
  (base = 0%nat \/ f (l !!! base) <> Gt).

Context (Hsorted : forall i j, (i < j < length l)%nat -> f (l !!! i) = Gt -> f (l !!! j) = Gt).

Lemma bsearch_base_inv (fuel base size : nat) :
  bsearch_inv base size -> (size <= fuel)%nat -> bsearch_inv (bsearch_base f l fuel base size) 1.
Proof.
  revert base size; induction fuel as [|fuel IH]; intros base size (H1 & H2 & H3 & H4) Hf; [lia|].
  cbn [bsearch_base]. destruct (Nat.leb_spec size 1) as [Hle|Hgt].
  { replace size with 1%nat in * by lia. done. }
  pose proof (Nat.div_lt size 2 ltac:(lia) ltac:(lia)). pose proof (Nat.Div0.mul_div_le size 2). assert (1 <= size / 2)%nat.
  { apply Nat.div_le_lower_bound; lia. }
  destruct (f (l !!! (base + size / 2)%nat)) eqn:E; (apply IH; [|lia]); (split; [lia|]; split; [lia|]; split).
  all: try (intros j Hj; apply H3; lia). all: try (right; congruence).
  - intros j Hj. destruct (decide (j < base + size)%nat); [|apply H3; lia].
    destruct (decide (j = base + size / 2)%nat) as [->|]; [done|].
    apply (Hsorted (base + size / 2)%nat); [lia|done].
  - done.
Qed.

Context (Hunique : forall i j, (i < j < length l)%nat -> f (l !!! i) = Eq -> f (l !!! j) = Gt).

Lemma binary_search_spec : binary_search_ok f l = true <-> exists x, x ∈ l /\ f x = Eq.
Proof.
  assert (Hc : length l = 0%nat /\ binary_search_ok f l = false \/
    (0 < length l)%nat /\ binary_search_ok f l
      = match f (l !!! bsearch_base f l (length l) 0 (length l)) with Eq => true | _ => false end).
  { clear. destruct l; cbn [length]; [by left|right]. split; [lia|done]. }
  destruct Hc as [[Hl ->]|[Hlen ->]].
  { split; [done|]. intros (x & [j Hj]%list_elem_of_lookup & _). apply lookup_lt_Some in Hj. lia. }
  destruct (bsearch_base_inv (length l) 0 (length l)) as (_ & Hb & Hgt & H0); [|lia|].
  { split; [lia|]. split; [lia|]. split; [lia|by left]. }
  set (base := bsearch_base f l (length l) 0 (length l)) in *. split.
  - destruct (f (l !!! base)) eqn:E; try done. intros _. exists (l !!! base).
    split; [apply list_elem_of_lookup_total_2; lia|done].
  - intros (x & [j Hj]%list_elem_of_lookup & Hx). pose proof (lookup_lt_Some _ _ _ Hj) as Hlt.
    apply list_lookup_total_correct in Hj. rewrite <- Hj in Hx.
    destruct (decide (j = base)) as [->|Hne]; [by rewrite Hx|].
    destruct (decide (base < j)%nat) as [Hl|Hl].
    + rewrite Hgt in Hx by lia. done.
    + destruct H0 as [H0|H0]; [lia|]. exfalso. apply H0, (Hunique j); [lia|done].
Qed.
End BinarySearch.

Lemma separated_lookup (l : list LiveRange) (i j : nat) :
  separated l -> (i < j < length l)%nat ->
  rstart (l !!! i) < rend (l !!! i) /\ rend (l !!! i) < rstart (l !!! j) /\ rstart (l !!! j) < rend (l !!! j).
Proof.
  intros Hsep Hij. destruct (lookup_lt_is_Some_2 l i ltac:(lia)) as [x Hx].
  destruct (lookup_lt_is_Some_2 l j ltac:(lia)) as [y Hy].
  rewrite (list_lookup_total_correct _ _ _ Hx), (list_lookup_total_correct _ _ _ Hy).
  pose proof (proj1 Hsep) as Hne. rewrite Forall_lookup in Hne. pose proof (Hne i x Hx). pose proof (Hne j y Hy).
  split; [done|]. split; [|done].
  rewrite <- (take_drop j l) in Hsep. apply separated_app in Hsep as (_ & _ & Hg). apply Hg.
  - apply list_elem_of_lookup. exists i. rewrite lookup_take. by rewrite decide_True by lia.
  - apply list_elem_of_lookup. exists 0%nat. rewrite lookup_drop. by rewrite Nat.add_0_r.
Qed.

Lemma is_live_at_spec (iv : LiveInterval) (idx : Z) :
  separated (ranges iv) -> is_live_at iv idx = true <-> live iv idx.
Proof.
  intros Hsep. unfold is_live_at. rewrite binary_search_spec.
  - unfold live, live_in_ranges. split; intros (r & Hr & H); exists r; (split; [done|]).
    + destruct (Z.leb_spec (rend r) idx); [done|]. destruct (Z.ltb_spec idx (rstart r)); [done|lia].
    + destruct (Z.leb_spec (rend r) idx); [lia|]. destruct (Z.ltb_spec idx (rstart r)); [lia|done].
  - intros i j Hij. pose proof (separated_lookup _ i j Hsep Hij).
    destruct (Z.leb_spec (rend (ranges iv !!! i)) idx); [done|].
    destruct (Z.leb_spec (rend (ranges iv !!! j)) idx); [|destruct (Z.ltb_spec idx (rstart (ranges iv !!! j))); lia || done].
    destruct (Z.ltb_spec idx (rstart (ranges iv !!! i))); [lia|done].
  - intros i j Hij. pose proof (separated_lookup _ i j Hsep Hij).
    destruct (Z.leb_spec (rend (ranges iv !!! i)) idx); [done|].
    destruct (Z.ltb_spec idx (rstart (ranges iv !!! i))); [done|]. intros _.
    destruct (Z.leb_spec (rend (ranges iv !!! j)) idx); [lia|].
    destruct (Z.ltb_spec idx (rstart (ranges iv !!! j))); [done|lia].
Qed.

(** Live intervals are exact.  Adding a range to an interval whose ranges are
    non-empty, ascending and separated by gaps keeps them so and makes the interval
    live exactly where it was or where the new range is.  On such intervals the
    binary search of [is_live_at] finds a range exactly when one holds the index,
    and the merge scan of [overlaps], its bounding-box reject included, succeeds
    exactly when some index lies in both. *)
Theorem intervals_exact (x y : LiveInterval) (s e idx : Z) :
  separated (ranges x) -> separated (ranges y) ->
  separated (ranges (add_range x s e)) /\
  (forall i, live (add_range x s e) i <-> live x i \/ s <= i < e) /\
  (is_live_at x idx = true <-> live x idx) /\
  (overlaps x y = true <-> exists i, live x i /\ live y i).
Proof.
  intros Hx Hy. destruct (add_range_spec x s e Hx). split_and!; [done|done|by apply is_live_at_spec|by apply overlaps_spec].
Qed.

Lemma intervals_exact_witness :
  let x := mkInterval (mkVReg 0 Gpr64) [mkRange 1 3; mkRange 5 6; mkRange 9 12] false [] [] in
  let y := mkInterval (mkVReg 1 Gpr64) [mkRange 3 5; mkRange 11 12] false [] [] in
  ranges (add_range x 4 9) = [mkRange 1 3; mkRange 4 12] /\ separated (ranges (add_range x 4 9)) /\
  overlaps x y = true /\ (exists i, live x i /\ live y i).
Proof.
  intros x y. destruct (intervals_exact x y 4 9 8) as (H1 & _ & _ & H2).
  - split; repeat constructor; cbn; lia.
  - split; repeat constructor; cbn; lia.
  - split; [by vm_compute|]. split; [exact H1|]. split; [by vm_compute|]. apply H2. by vm_compute.
Defined.
