(* ===== verification/LiveSets.v ===== *)
(** * The dense bitset is a set ([crates/trust-cg-regalloc/src/liveness.rs],
    [LiveSet])

    Every operation of the bitset of the liveness dataflow against the set of ids
    it represents, and extensionality: sets with the same members have the same
    words. *)

From S2P Require Import Prelude Regs Liveness.
Local Open Scope Z_scope.

(** A bitset of [n] words. *)
Definition wf_set (n : nat) (s : LiveSet) : Prop := length s = n /\ Forall (uword 64) s.

Definition valid_id (n : nat) (id : Z) : Prop := 0 <= id < 64 * Z.of_nat n.

Lemma word_of_lt (n : nat) (id : Z) : valid_id n id -> (word_of id < n)%nat.
Proof. unfold valid_id, word_of. intros H. pose proof (Z.div_lt_upper_bound id 64 (Z.of_nat n)). lia. Qed.

Lemma word_bit_eq (x y : Z) : 0 <= x -> 0 <= y -> x = y <-> word_of x = word_of y /\ x mod 64 = y mod 64.
Proof.
  intros Hx Hy. split; [by intros ->|]. intros [Hw Hm]. unfold word_of in Hw.
  apply Z2Nat.inj in Hw; [|apply Z.div_pos; lia..].
  rewrite (Z.div_mod x 64), (Z.div_mod y 64) by lia. lia.
Qed.

Lemma set_contains_testbit (s : LiveSet) (id : Z) :
  set_contains s id = Z.testbit (s !!! word_of id) (id mod 64).
Proof.
  unfold set_contains. rewrite land_1_mod. pose proof (Z.mod_pos_bound id 64).
  rewrite (Z.testbit_eqb (s !!! word_of id)) by lia. rewrite <- Z.shiftr_div_pow2 by lia.
  pose proof (Z.mod_pos_bound (Z.shiftr (s !!! word_of id) (id mod 64)) 2).
  destruct (Z.eqb_spec ((Z.shiftr (s !!! word_of id) (id mod 64)) mod 2) 0), (Z.eqb_spec ((Z.shiftr (s !!! word_of id) (id mod 64)) mod 2) 1); cbn; lia || done.
Qed.

Lemma wf_set_word (n : nat) (s : LiveSet) (k : nat) : wf_set n s -> (k < n)%nat -> uword 64 (s !!! k).
Proof.
  intros [Hl Hw] Hk. rewrite Forall_lookup in Hw. apply (Hw k), list_lookup_lookup_total_lt. lia.
Qed.

Lemma wf_set_insert (n : nat) (s : LiveSet) (k : nat) (w : Z) :
  wf_set n s -> uword 64 w -> wf_set n (<[k := w]> s).
Proof. intros [Hl Hw] H. split; [by rewrite length_insert|by apply Forall_insert]. Qed.

Lemma bit_of_pow (id : Z) : 0 <= id mod 64 < 64 /\ bit_of id = 2 ^ (id mod 64).
Proof.
  pose proof (Z.mod_pos_bound id 64). unfold bit_of. rewrite Z.shiftl_mul_pow2 by lia. lia.
Qed.

Lemma bit_of_word (id : Z) : uword 64 (bit_of id).
Proof.
  destruct (bit_of_pow id) as [H ->]. unfold uword.
  pose proof (pow2_pos (id mod 64)). pose proof (pow2_lt (id mod 64) 64). lia.
Qed.

Lemma bit_of_testbit (id j : Z) : Z.testbit (bit_of id) j = (id mod 64 =? j).
Proof. destruct (bit_of_pow id) as [H ->]. rewrite Z.pow2_bits_eqb by lia. done. Qed.

Lemma new_wf (n_vregs : Z) : wf_set (Z.to_nat ((n_vregs + 63) / 64)) (LiveSet_new n_vregs).
Proof. split; [apply length_replicate|]. apply Forall_replicate. unfold uword; lia. Qed.

Lemma new_contains (n_vregs id : Z) :
  valid_id (Z.to_nat ((n_vregs + 63) / 64)) id -> set_contains (LiveSet_new n_vregs) id = false.
Proof.
  intros Hid. rewrite set_contains_testbit. unfold LiveSet_new.
  rewrite (list_lookup_total_correct _ _ 0); [apply Z.testbit_0_l|].
  apply lookup_replicate. split; [done|by apply word_of_lt].
Qed.

Section Ops.
Context (n : nat).

Lemma insert_wf (s : LiveSet) (x : Z) : wf_set n s -> valid_id n x -> wf_set n (set_insert s x).
Proof.
  intros Hs Hx. apply wf_set_insert; [done|]. apply uword_lor; [lia| |apply bit_of_word].
  eapply wf_set_word; [done|by apply word_of_lt].
Qed.

Lemma insert_contains (s : LiveSet) (x y : Z) :
  wf_set n s -> valid_id n x -> valid_id n y ->
  set_contains (set_insert s x) y = (x =? y) || set_contains s y.
Proof.
  intros [Hl _] Hx Hy. rewrite !set_contains_testbit. unfold set_insert.
  pose proof (word_of_lt n x Hx). pose proof (word_bit_eq x y ltac:(apply Hx) ltac:(apply Hy)) as He.
  destruct (decide (word_of x = word_of y)) as [E|E].
  - rewrite <- E, list_lookup_total_insert_eq by lia. rewrite Z.lor_spec, bit_of_testbit.
    destruct (Z.eqb_spec x y), (Z.eqb_spec (x mod 64) (y mod 64)); try tauto;
      destruct (Z.testbit _ _); done.
  - rewrite list_lookup_total_insert_ne by done. destruct (Z.eqb_spec x y); [tauto|done].
Qed.

Lemma mask_testbit (x j : Z) : 0 <= j < 64 -> Z.testbit (Z.lxor (bit_of x) (2 ^ 64 - 1)) j = negb (x mod 64 =? j).
Proof.
  intros Hj. rewrite Z.lxor_spec, bit_of_testbit. change (2 ^ 64 - 1) with (Z.ones 64).
  rewrite Z.ones_spec_low by lia. by destruct (x mod 64 =? j).
Qed.

Lemma remove_wf (s : LiveSet) (x : Z) : wf_set n s -> valid_id n x -> wf_set n (set_remove s x).
Proof.
  intros Hs Hx. apply wf_set_insert; [done|]. apply uword_land; [lia|].
  eapply wf_set_word; [done|by apply word_of_lt].
Qed.

Lemma remove_contains (s : LiveSet) (x y : Z) :
  wf_set n s -> valid_id n x -> valid_id n y ->
  set_contains (set_remove s x) y = negb (x =? y) && set_contains s y.
Proof.
  intros [Hl _] Hx Hy. rewrite !set_contains_testbit. unfold set_remove.
  pose proof (word_of_lt n x Hx). pose proof (word_bit_eq x y ltac:(apply Hx) ltac:(apply Hy)) as He.
  pose proof (Z.mod_pos_bound y 64). destruct (decide (word_of x = word_of y)) as [E|E].
  - rewrite <- E, list_lookup_total_insert_eq by lia. rewrite Z.land_spec, mask_testbit by lia.
    destruct (Z.eqb_spec x y), (Z.eqb_spec (x mod 64) (y mod 64)); try tauto;
      destruct (Z.testbit _ _); done.
  - rewrite list_lookup_total_insert_ne by done. destruct (Z.eqb_spec x y); [tauto|done].
Qed.

Lemma clear_wf (s : LiveSet) : wf_set n s -> wf_set n (set_clear s).
Proof.
  intros [Hl Hw]. split; [by unfold set_clear; rewrite length_map|].
  unfold set_clear. apply Forall_forall. intros x (y & -> & _)%list_elem_of_fmap_1. unfold uword; lia.
Qed.

Lemma clear_contains (s : LiveSet) (id : Z) :
  wf_set n s -> valid_id n id -> set_contains (set_clear s) id = false.
Proof.
  intros [Hl _] Hid. rewrite set_contains_testbit. unfold set_clear.
  rewrite (list_lookup_total_correct _ _ 0); [apply Z.testbit_0_l|].
  apply list_lookup_fmap_Some. destruct (lookup_lt_is_Some_2 s (word_of id)) as [w Hw]; [|by exists w].
  rewrite Hl. by apply word_of_lt.
Qed.

Lemma union_wf (s t : LiveSet) : wf_set n s -> wf_set n t -> wf_set n (set_union s t).
Proof.
  intros [Hs Hsw] [Ht Htw]. unfold set_union. split; [rewrite length_zip_with; lia|].
  rewrite Forall_lookup in Hsw, Htw |- *. intros k w Hk.
  apply lookup_zip_with_Some in Hk as (a & b & -> & Ha & Hb). apply uword_lor; [lia|eauto|eauto].
Qed.

Lemma union_contains (s t : LiveSet) (id : Z) :
  wf_set n s -> wf_set n t -> valid_id n id ->
  set_contains (set_union s t) id = set_contains s id || set_contains t id.
Proof.
  intros [Hs _] [Ht _] Hid. rewrite !set_contains_testbit. unfold set_union.
  pose proof (word_of_lt n id Hid).
  destruct (lookup_lt_is_Some_2 s (word_of id) ltac:(lia)) as [a Ha].
  destruct (lookup_lt_is_Some_2 t (word_of id) ltac:(lia)) as [b Hb].
  rewrite (list_lookup_total_correct (zip_with Z.lor s t) (word_of id) (Z.lor a b)).
  - by rewrite (list_lookup_total_correct _ _ _ Ha), (list_lookup_total_correct _ _ _ Hb), Z.lor_spec.
  - apply lookup_zip_with_Some. eauto.
Qed.

(** Bitsets of one width with the same members are equal word by word. *)
Lemma set_ext (s t : LiveSet) :
  wf_set n s -> wf_set n t -> (forall id, valid_id n id -> set_contains s id = set_contains t id) -> s = t.
Proof.
  intros [Hs Hsw] [Ht Htw] H. apply list_eq_same_length with (n := n); [done|done|].
  intros k a b Hk Ha Hb. rewrite Forall_lookup in Hsw, Htw.
  pose proof (Hsw k a Ha) as Wa. pose proof (Htw k b Hb) as Wb.
  apply Z.bits_inj'. intros j Hj. destruct (Z.lt_ge_cases j 64) as [Hlt|Hge].
  - specialize (H (64 * Z.of_nat k + j)). rewrite !set_contains_testbit in H.
    assert (E : word_of (64 * Z.of_nat k + j) = k /\ (64 * Z.of_nat k + j) mod 64 = j).
    { unfold word_of. rewrite (Z.mul_comm 64), Z.div_add_l, Z.div_small, Z.add_0_r by lia.
      rewrite Z.add_comm, Z_mod_plus_full, Z.mod_small by lia. split; [lia|done]. }
    destruct E as [E1 E2]. rewrite E1, E2 in H.
    rewrite (list_lookup_total_correct _ _ _ Ha), (list_lookup_total_correct _ _ _ Hb) in H.
    apply H. unfold valid_id. lia.
  - rewrite !(testbit_high 64) by (done || lia). done.
Qed.
End Ops.

(** ** Iterating the set bits *)

(** The lowest set bit of a non-zero word. *)
Lemma lowest_bit (x : Z) :
  0 < x -> exists t, 0 <= t /\ Z.testbit x t = true /\ (forall j, 0 <= j < t -> Z.testbit x j = false).
Proof.
  intros Hx. assert (H : forall m : nat, x < 2 ^ Z.of_nat m -> exists t, 0 <= t /\ Z.testbit x t = true /\
    (forall j, 0 <= j < t -> Z.testbit x j = false)).
  { clear -Hx. intros m; revert x Hx; induction m as [|m IH]; intros x Hx Hlt; [cbn in Hlt; lia|].
    destruct (Z.odd x) eqn:Eo.
    - exists 0. rewrite Z.bit0_odd. split; [lia|]. split; [done|lia].
    - assert (Hev : x = 2 * (x / 2)) by (rewrite <- Z.negb_even in Eo; apply negb_false_iff, Z.even_spec in Eo as [k ->];
        rewrite Z.mul_comm, Z.div_mul by lia; lia).
      rewrite Nat2Z.inj_succ, Z.pow_succ_r in Hlt by lia.
      destruct (IH (x / 2)) as (t & Ht & Hb & Hlow); [lia|lia|]. exists (t + 1).
      rewrite Hev. split; [lia|]. split; [rewrite Z.add_1_r, Z.double_bits_succ; done|].
      intros j Hj. destruct (Z.eq_dec j 0) as [->|]; [apply Z.testbit_even_0|].
      replace j with (Z.succ (j - 1)) by lia. rewrite Z.double_bits_succ. apply Hlow; lia. }
  apply (H (Z.to_nat (Z.log2 x + 1))). rewrite Z2Nat.id by (pose proof (Z.log2_nonneg x); lia).
  by apply Z.log2_spec.
Qed.

Lemma clear_lowest (x t : Z) :
  0 < x -> 0 <= t -> Z.testbit x t = true -> (forall j, 0 <= j < t -> Z.testbit x j = false) ->
  (forall j, 0 <= j -> Z.testbit (x - 1) j = if j <? t then true else if j =? t then false else Z.testbit x j).
Proof.
  intros Hx Ht Hb Hlow j Hj. set (p := 2 ^ (t + 1)). pose proof (pow2_pos t Ht) as Hp.
  assert (Ep : p = 2 * 2 ^ t) by (unfold p; rewrite Z.add_1_r, Z.pow_succ_r by lia; lia).
  assert (Em : x mod p = 2 ^ t).
  { apply Z.bits_inj'. intros k Hk. unfold p. rewrite Z.pow2_bits_eqb by lia.
    destruct (Z.lt_ge_cases k (t + 1)).
    - rewrite Z.mod_pow2_bits_low by lia. destruct (Z.eqb_spec t k) as [<-|]; [done|]. apply Hlow; lia.
    - rewrite Z.mod_pow2_bits_high by lia. symmetry. apply Z.eqb_neq; lia. }
  assert (Ex : x = p * (x / p) + 2 ^ t) by (rewrite <- Em; apply Z.div_mod; lia).
  assert (Ed : (x - 1) / p = x / p).
  { symmetry. apply (Z.div_unique_pos (x - 1) p (x / p) (2 ^ t - 1)); lia. }
  assert (Er : (x - 1) mod p = Z.ones t).
  { rewrite Z.ones_equiv. symmetry. apply (Z.mod_unique_pos (x - 1) p (x / p)); lia. }
  destruct (Z.lt_ge_cases j (t + 1)) as [Hlt|Hge].
  - rewrite <- (Z.mod_pow2_bits_low (x - 1) (t + 1)) by lia. fold p. rewrite Er.
    destruct (Z.ltb_spec j t); [apply Z.ones_spec_low; lia|].
    destruct (Z.eqb_spec j t); [apply Z.ones_spec_high; lia|lia].
  - rewrite (proj2 (Z.ltb_ge j t)), (proj2 (Z.eqb_neq j t)) by lia.
    replace j with (j - (t + 1) + (t + 1)) by lia. rewrite <- !Z.div_pow2_bits by lia. fold p. by rewrite Ed.
Qed.

Lemma lowest_isolated (x t : Z) :
  0 < x -> 0 <= t -> Z.testbit x t = true -> (forall j, 0 <= j < t -> Z.testbit x j = false) ->
  Z.log2 (Z.land x (- x)) = t.
Proof.
  intros Hx Ht Hb Hlow. assert (E : Z.land x (- x) = 2 ^ t); [|rewrite E; apply Z.log2_pow2; lia].
  replace (- x) with (Z.lnot (x - 1)) by (unfold Z.lnot; lia).
  apply Z.bits_inj'. intros j Hj. rewrite Z.land_spec, Z.lnot_spec, (clear_lowest x t) by done.
  rewrite Z.pow2_bits_eqb by lia. destruct (Z.ltb_spec j t).
  - rewrite Hlow by lia. symmetry. apply Z.eqb_neq. lia.
  - destruct (Z.eqb_spec j t) as [->|]; [by rewrite Hb, Z.eqb_refl|].
    rewrite (proj2 (Z.eqb_neq t j)) by lia. by destruct (Z.testbit x j).
Qed.

Lemma word_bits_spec (fuel : nat) (base bits lo : Z) :
  uword 64 bits -> 0 <= lo -> 64 - lo <= Z.of_nat fuel -> (forall j, 0 <= j < lo -> Z.testbit bits j = false) ->
  (forall x, x ∈ word_bits fuel base bits <-> 0 <= x - base /\ Z.testbit bits (x - base) = true) /\
  StronglySorted Z.lt (word_bits fuel base bits).
Proof.
  revert bits lo; induction fuel as [|fuel IH]; intros bits lo Hw Hlo Hf Hlow.
  - cbn. split; [|constructor]. intros x. rewrite elem_of_nil. split; [done|]. intros [Hx Hb].
    destruct (Z.lt_ge_cases (x - base) 64); [rewrite Hlow in Hb by lia; done|].
    rewrite (testbit_high 64) in Hb by (done || lia). done.
  - cbn [word_bits]. destruct (Z.eqb_spec bits 0) as [->|Hne].
    { split; [|constructor]. intros x. rewrite elem_of_nil, Z.testbit_0_l. naive_solver. }
    destruct Hw as [Hw1 Hw2]. destruct (lowest_bit bits ltac:(lia)) as (t & Ht & Hb & Hlt).
    rewrite (lowest_isolated bits t) by (done || lia).
    assert (Hlt' : lo <= t) by (destruct (Z.lt_ge_cases t lo) as [H|H]; [rewrite Hlow in Hb by lia; done|done]).
    assert (Hbits : forall j, 0 <= j -> Z.testbit (Z.land bits (bits - 1)) j = negb (j =? t) && Z.testbit bits j).
    { intros j Hj. rewrite Z.land_spec, (clear_lowest bits t) by (done || lia).
      destruct (Z.ltb_spec j t); [rewrite Hlt by lia; by rewrite andb_false_r|].
      destruct (Z.eqb_spec j t); [by rewrite andb_false_r|]. by destruct (Z.testbit bits j). }
    destruct (IH (Z.land bits (bits - 1)) (t + 1)) as [Hel Hs].
    + apply uword_land; [lia|done].
    + lia.
    + lia.
    + intros j Hj. rewrite Hbits by lia. destruct (Z.eqb_spec j t); [done|]. rewrite Hlt by lia. done.
    + split.
      * intros x. rewrite elem_of_cons, Hel. split.
        -- intros [->|[Hx Hxb]]; [split; [lia|]; by replace (base + t - base) with t by lia|].
           split; [done|]. rewrite Hbits in Hxb by lia. by apply andb_true_iff in Hxb as [_ ?].
        -- intros [Hx Hxb]. destruct (Z.eq_dec (x - base) t); [left; lia|right]. split; [done|].
           rewrite Hbits by lia. by rewrite (proj2 (Z.eqb_neq _ _)).
      * constructor; [done|]. apply Forall_forall. intros x [Hx Hxb]%Hel.
        rewrite Hbits in Hxb by lia. apply andb_true_iff in Hxb as [H1 H2]. apply negb_true_iff, Z.eqb_neq in H1.
        destruct (Z.lt_ge_cases (x - base) t); [rewrite Hlt in H2 by lia; done|lia].
Qed.

Lemma iter_words_spec (s : LiveSet) (wi : Z) :
  0 <= wi -> Forall (uword 64) s ->
  (forall x, x ∈ iter_words wi s <-> 0 <= x - 64 * wi < 64 * Z.of_nat (length s) /\ set_contains s (x - 64 * wi) = true) /\
  StronglySorted Z.lt (iter_words wi s).
Proof.
  revert wi; induction s as [|w s IH]; intros wi Hwi Hw.
  { cbn. split; [|constructor]. intros x. rewrite elem_of_nil. split; [done|lia]. }
  apply Forall_cons in Hw as [Hw Hs]. destruct (IH (wi + 1) ltac:(lia) Hs) as [Hel Hsrt].
  destruct (word_bits_spec 64 (wi * 64) w 0) as [Hwel Hwsrt]; [done|lia|lia|lia|].
  assert (Hlow : forall x, x ∈ word_bits 64 (wi * 64) w -> 0 <= x - wi * 64 < 64).
  { intros x [Hx Hb]%Hwel. split; [done|]. destruct (Z.lt_ge_cases (x - wi * 64) 64); [done|].
    rewrite (testbit_high 64) in Hb by (done || lia). done. }
  cbn [iter_words length]. split.
  - intros x. rewrite elem_of_app, Hwel, Hel. rewrite !set_contains_testbit. unfold word_of.
    destruct (Z.lt_ge_cases (x - 64 * wi) 0) as [Hneg|Hpos]; [split; intros; lia|].
    destruct (Z.lt_ge_cases (x - 64 * wi) 64) as [Hlt|Hge].
    + rewrite (Z.div_small (x - 64 * wi)), (Z.mod_small (x - 64 * wi)) by lia. cbn.
      replace (x - wi * 64) with (x - 64 * wi) by lia. split; [|intros [_ Hb]; left; split; [lia|done]].
      intros [[? ?]|[? _]]; [split; [lia|done]|lia].
    + assert (E : (x - 64 * wi) / 64 = Z.succ ((x - 64 * (wi + 1)) / 64) /\ (x - 64 * wi) mod 64 = (x - 64 * (wi + 1)) mod 64).
      { replace (x - 64 * wi) with ((x - 64 * (wi + 1)) + 1 * 64) by lia.
        rewrite Z.div_add, Z_mod_plus_full by lia. split; [lia|done]. }
      destruct E as [E1 E2]. rewrite E1, E2. pose proof (Z.div_pos (x - 64 * (wi + 1)) 64 ltac:(lia) ltac:(lia)).
      rewrite (Z2Nat.inj_succ ((x - 64 * (wi + 1)) / 64)) by lia. cbn. split.
      * intros [[_ Hb]|[? ?]]; [|split; [lia|done]].
        rewrite (testbit_high 64) in Hb by (done || lia). done.
      * intros [? ?]. right. split; [lia|done].
  - apply StronglySorted_app. split_and!; [|done|done]. intros a b Ha%Hlow [Hb _]%Hel. lia.
Qed.

(** ** The abstract set *)

(** The set of ids a bitset stands for, the [BTreeSet<u32>] it replaces. *)
Definition members (s : LiveSet) : gset Z := list_to_set (set_iter s).

Lemma elem_of_members (n : nat) (s : LiveSet) (id : Z) :
  wf_set n s -> id ∈ members s <-> valid_id n id /\ set_contains s id = true.
Proof.
  intros [Hl Hw]. unfold members, set_iter, valid_id. rewrite elem_of_list_to_set.
  destruct (iter_words_spec s 0 ltac:(lia) Hw) as [-> _]. rewrite Z.mul_0_r, Z.sub_0_r, Hl. done.
Qed.

Lemma set_iter_elements (n : nat) (s : LiveSet) :
  wf_set n s -> StronglySorted Z.lt (set_iter s) /\ set_iter s ≡ₚ elements (members s).
Proof.
  intros [Hl Hw]. destruct (iter_words_spec s 0 ltac:(lia) Hw) as [_ Hs]. split; [done|].
  unfold members. rewrite elements_list_to_set; [done|].
  clear Hl Hw. unfold set_iter in *. induction Hs as [|x l Hs IH Hall]; [apply NoDup_nil_2|].
  apply NoDup_cons. split; [|done]. intros Hin. rewrite Forall_forall in Hall. apply Hall in Hin. lia.
Qed.

Lemma members_eq (n : nat) (s : LiveSet) (X : gset Z) :
  wf_set n s -> (forall id, valid_id n id -> set_contains s id = true <-> id ∈ X) ->
  (forall id, id ∈ X -> valid_id n id) -> members s = X.
Proof.
  intros Hs H Hv. apply set_eq. intros id. rewrite (elem_of_members n) by done.
  specialize (H id). specialize (Hv id). tauto.
Qed.

Lemma members_insert (n : nat) (s : LiveSet) (x : Z) :
  wf_set n s -> valid_id n x -> members (set_insert s x) = {[x]} ∪ members s.
Proof.
  intros Hs Hx. apply (members_eq n); [by apply insert_wf|..]; intros id;
    rewrite elem_of_union, elem_of_singleton, (elem_of_members n) by done.
  - intros Hid. rewrite (insert_contains n), orb_true_iff, Z.eqb_eq by done. naive_solver.
  - naive_solver.
Qed.

Lemma members_remove (n : nat) (s : LiveSet) (x : Z) :
  wf_set n s -> valid_id n x -> members (set_remove s x) = members s ∖ {[x]}.
Proof.
  intros Hs Hx. apply (members_eq n); [by apply remove_wf|..]; intros id;
    rewrite elem_of_difference, elem_of_singleton, (elem_of_members n) by done.
  - intros Hid. rewrite (remove_contains n), andb_true_iff, negb_true_iff, Z.eqb_neq by done. naive_solver.
  - naive_solver.
Qed.

Lemma members_union (n : nat) (s t : LiveSet) :
  wf_set n s -> wf_set n t -> members (set_union s t) = members s ∪ members t.
Proof.
  intros Hs Ht. apply (members_eq n); [by apply union_wf|..]; intros id;
    rewrite elem_of_union, !(elem_of_members n) by done.
  - intros Hid. rewrite (union_contains n), orb_true_iff by done. tauto.
  - tauto.
Qed.

(** The dense bitset is the set of ids it replaces.  For ids inside its width,
    insert, remove, clear, union, membership and equality are the operations of
    finite sets, a new bitset is empty, and iteration yields every member once, in
    ascending order. *)
Theorem liveset_refines_set (n : nat) (s t : LiveSet) (x : Z) :
  wf_set n s -> wf_set n t -> valid_id n x ->
  members (LiveSet_new (64 * Z.of_nat n)) = ∅ /\
  members (set_insert s x) = {[x]} ∪ members s /\
  members (set_remove s x) = members s ∖ {[x]} /\
  members (set_clear s) = ∅ /\
  members (set_union s t) = members s ∪ members t /\
  (set_contains s x = true <-> x ∈ members s) /\
  (s = t <-> members s = members t) /\
  StronglySorted Z.lt (set_iter s) /\ set_iter s ≡ₚ elements (members s).
Proof.
  intros Hs Ht Hx. pose proof (elem_of_members n) as Hm.
  assert (En : Z.to_nat ((64 * Z.of_nat n + 63) / 64) = n).
  { rewrite (Z.mul_comm 64), Z.div_add_l by lia. change (63 / 64) with 0. lia. }
  pose proof (new_wf (64 * Z.of_nat n)) as Hn. rewrite En in Hn.
  split. { apply (members_eq n); [done| |by intros id ?%elem_of_empty]. intros id Hid.
    rewrite elem_of_empty, new_contains by (by rewrite En). done. }
  split. { apply (members_insert n); done. }
  split. { apply (members_remove n); done. }
  split. { apply (members_eq n); [by apply clear_wf| |by intros id ?%elem_of_empty]. intros id Hid.
    rewrite (clear_contains n), elem_of_empty by done. done. }
  split. { apply (members_union n); done. }
  split; [rewrite Hm by done; tauto|]. split; [|by apply (set_iter_elements n)].
  split; [by intros ->|]. intros Heq. apply (set_ext n); [done..|]. intros id Hid.
  apply eq_true_iff_eq. rewrite set_eq in Heq. specialize (Heq id). rewrite !Hm in Heq by done. tauto.
Qed.

Lemma liveset_refines_set_witness :
  wf_set 2 [5; 1] /\ wf_set 2 [2; 4] /\ valid_id 2 65 /\
  members (set_union [5; 1] [2; 4]) = members [5; 1] ∪ members [2; 4].
Proof.
  assert (H1 : wf_set 2 [5; 1]) by (split; [done|]; repeat constructor; cbn; lia).
  assert (H2 : wf_set 2 [2; 4]) by (split; [done|]; repeat constructor; cbn; lia).
  assert (H3 : valid_id 2 65) by (unfold valid_id; lia).
  split; [done|]. split; [done|]. split; [done|].
  apply (liveset_refines_set 2 [5; 1] [2; 4] 65 H1 H2 H3).
Defined.
