(* ===== verification/LiveFlow.v ===== *)
(** * The liveness dataflow ([crates/trust-cg-regalloc/src/liveness.rs], steps 1
      and 2 of [compute_live_intervals]; [machine_types.rs])

    Functions as the register allocator sees them, the numbering of their
    instructions, and the backward fixed-point iteration over blocks.  The theorem
    compares its result with liveness along paths: a register is live where some
    path reaches a use before a definition.  Indexing outside the arenas panics;
    [wf_func] excludes it. *)

From S2P Require Import Prelude Regs Liveness LiveSets.
Local Open Scope Z_scope.

(** ** Functions *)

(** [FImm] carries the bits of the [f64]. *)
Inductive RegAllocOperand :=
  | VRegOp (v : VReg)
  | PRegOp (p : PReg)
  | Imm (i : Z)
  | FImm (bits : Z)
  | BlockOp (b : nat)
  | StackSlotOp (s : Z).

#[export] Instance RegAllocOperand_eq_dec : EqDecision RegAllocOperand.
Proof. solve_decision. Defined.

Definition as_vreg (op : RegAllocOperand) : option VReg :=
  match op with VRegOp v => Some v | _ => None end.
Definition as_preg (op : RegAllocOperand) : option PReg :=
  match op with PRegOp p => Some p | _ => None end.

(** Without the tied operands, which none of the passes here reads. *)
Record RegAllocInst := mkRInst {
  opcode : Z;
  defs : list RegAllocOperand;
  uses : list RegAllocOperand;
  implicit_defs : list PReg;
  implicit_uses : list PReg;
  flags : Z }.

#[export] Instance RegAllocInst_inhabited : Inhabited RegAllocInst := populate (mkRInst 0 [] [] [] [] 0).

Definition vreg_defs (i : RegAllocInst) : list VReg := omap as_vreg (defs i).
Definition vreg_uses (i : RegAllocInst) : list VReg := omap as_vreg (uses i).

Record RegAllocBlock := mkRBlock {
  block_insts : list nat;
  preds : list nat;
  succs : list nat;
  loop_depth : Z }.

#[export] Instance RegAllocBlock_inhabited : Inhabited RegAllocBlock := populate (mkRBlock [] [] [] 0).

Record RegAllocFunction := mkRFunc {
  insts : list RegAllocInst;
  blocks : list RegAllocBlock;
  block_order : list nat;
  entry_block : nat;
  next_vreg : Z }.

Section Analysis.
Context (f : RegAllocFunction).

(** ** Step 1: numbering *)

(** [func.insts[inst_id]] and [func.blocks[block_id]]. *)
Definition inst (i : nat) : RegAllocInst := insts f !!! i.
Definition block (b : nat) : RegAllocBlock := blocks f !!! b.

(** [inst_numbering]: the walk of [block_order] and the blocks' instructions with
    the counter [idx]; a repeated id keeps its last number. *)
Definition number_step (st : gmap nat Z * Z) (inst_id : nat) : gmap nat Z * Z :=
  (<[inst_id := st.2]> st.1, wrap 32 (st.2 + 1)).

Definition number_insts : gmap nat Z :=
  (fold_left (fun st b => fold_left number_step (block_insts (block b)) st) (block_order f) (∅, 0)).1.

(** ** Step 2: the dataflow *)

Definition n_vregs : Z :=
  fold_left (fun n i => fold_left (fun n v => Z.max n (id v + 1)) (vreg_defs i ++ vreg_uses i) n)
    (insts f) (next_vreg f).

(** The backward walk over the instructions of a block. *)
Definition walk_inst (s : LiveSet) (i : RegAllocInst) : LiveSet :=
  fold_left (fun s v => set_insert s (id v)) (vreg_uses i)
    (fold_left (fun s v => set_remove s (id v)) (vreg_defs i) s).

Record Flow := mkFlow { live_in : list LiveSet; live_out : list LiveSet; changed : bool }.

(** One block: [new_live_out] starts from the cleared scratch set. *)
Definition flow_block (st : Flow) (bi : nat) : Flow :=
  let new_live_out := fold_left (fun s x => set_union s (live_in st !!! x)) (succs (block bi))
                        (set_clear (LiveSet_new n_vregs)) in
  let new_live_in := fold_left (fun s i => walk_inst s (inst i)) (rev (block_insts (block bi))) new_live_out in
  if negb (bool_decide (new_live_in = live_in st !!! bi)) || negb (bool_decide (new_live_out = live_out st !!! bi))
  then mkFlow (<[bi := new_live_in]> (live_in st)) (<[bi := new_live_out]> (live_out st)) true
  else st.

Definition flow_pass (st : Flow) : Flow :=
  fold_left flow_block (rev (block_order f)) (mkFlow (live_in st) (live_out st) false).

(** The [while changed] loop; the fuel is [max_iterations - iteration]. *)
Fixpoint flow_loop (fuel : nat) (st : Flow) : Flow :=
  match fuel with
  | O => st
  | S fuel => if changed st then flow_loop fuel (flow_pass st) else st
  end.

Definition max_iterations : nat := length (blocks f) * 2 + 10.

Definition dataflow : Flow :=
  let empty := replicate (length (blocks f)) (LiveSet_new n_vregs) in
  flow_loop max_iterations (mkFlow empty empty true).

End Analysis.

(** ** Liveness along paths *)

Section Paths.
Context (f : RegAllocFunction).

Definition ids (l : list VReg) : list Z := id <$> l.

(** [live_before v b k]: some path from just before the [k]-th instruction of
    block [b] uses [v] before it defines it; [k] is the length of the block at its
    end. *)
Inductive live_before (v : Z) : nat -> nat -> Prop :=
  | live_use b k i :
      block_insts (block f b) !! k = Some i -> v ∈ ids (vreg_uses (inst f i)) -> live_before v b k
  | live_skip b k i :
      block_insts (block f b) !! k = Some i -> v ∉ ids (vreg_defs (inst f i)) ->
      live_before v b (S k) -> live_before v b k
  | live_succ b s :
      s ∈ succs (block f b) -> live_before v s 0 -> live_before v b (length (block_insts (block f b))).

(** What the analysis relies on: the ids of the laid-out blocks are inside the
    arenas, the layout is closed under successors, no instruction occurs twice,
    and the numbers fit 32 bits. *)
Record wf_func : Prop := mkWf {
  order_bound : forall b, b ∈ block_order f -> (b < length (blocks f))%nat;
  order_nodup : NoDup (block_order f);
  succs_ordered : forall b s, b ∈ block_order f -> s ∈ succs (block f b) -> s ∈ block_order f;
  insts_bound : forall b i, b ∈ block_order f -> i ∈ block_insts (block f b) -> (i < length (insts f))%nat;
  insts_nodup : NoDup (block_order f ≫= fun b => block_insts (block f b));
  insts_count : Z.of_nat (length (block_order f ≫= fun b => block_insts (block f b))) < 2 ^ 32;
  vreg_ids : forall i v, i ∈ insts f -> v ∈ vreg_defs i ++ vreg_uses i -> 0 <= id v;
  next_vreg_pos : 0 <= next_vreg f }.

(** ** The transfer function of one register *)

Definition uses_b (v : Z) (i : RegAllocInst) : bool := bool_decide (v ∈ ids (vreg_uses i)).
Definition defs_b (v : Z) (i : RegAllocInst) : bool := bool_decide (v ∈ ids (vreg_defs i)).

Definition transfer (v : Z) (l : list RegAllocInst) (out : bool) : bool :=
  foldr (fun i acc => uses_b v i || (negb (defs_b v i) && acc)) out l.

Definition code (b : nat) : list RegAllocInst := inst f <$> block_insts (block f b).

Lemma transfer_mono (v : Z) (l : list RegAllocInst) (a b : bool) :
  (a = true -> b = true) -> transfer v l a = true -> transfer v l b = true.
Proof.
  intros H. induction l as [|i l IH]; cbn; [done|]. destruct (uses_b v i); [done|].
  destruct (defs_b v i); cbn; [done|]. exact IH.
Qed.

Lemma transfer_live (v : Z) (b k : nat) (out : bool) :
  (k <= length (block_insts (block f b)))%nat ->
  transfer v (inst f <$> drop k (block_insts (block f b))) out = true ->
  (out = true -> live_before v b (length (block_insts (block f b)))) -> live_before v b k.
Proof.
  remember (length (block_insts (block f b)) - k)%nat as n eqn:En. revert k En.
  induction n as [|n IH]; intros k En Hk Ht Ho.
  - assert (k = length (block_insts (block f b))) as -> by lia. rewrite drop_all in Ht. by apply Ho.
  - destruct (lookup_lt_is_Some_2 (block_insts (block f b)) k ltac:(lia)) as [i Hi].
    rewrite (drop_S _ i) in Ht by done. cbn in Ht. unfold uses_b, defs_b in Ht.
    case_bool_decide as Hu; [by eapply live_use|]. case_bool_decide as Hd; cbn in Ht; [done|].
    eapply live_skip; [done|done|]. apply IH; [lia|lia|done|done].
Qed.

Lemma live_transfer (v : Z) (b k : nat) (out : bool) :
  live_before v b k -> (live_before v b (length (block_insts (block f b))) -> out = true) ->
  transfer v (inst f <$> drop k (block_insts (block f b))) out = true.
Proof.
  induction 1 as [b k i Hi Hu|b k i Hi Hd _ IH|b s Hs Hl _]; intros Ho.
  - rewrite (drop_S _ i) by done. cbn. unfold uses_b. by rewrite bool_decide_true.
  - rewrite (drop_S _ i) by done. cbn. unfold defs_b. rewrite (bool_decide_false _ Hd), orb_true_iff. right. by apply IH.
  - rewrite drop_all. cbn. apply Ho. by eapply live_succ.
Qed.

Lemma live_end (v : Z) (b : nat) :
  live_before v b (length (block_insts (block f b))) -> exists s, s ∈ succs (block f b) /\ live_before v s 0.
Proof.
  inversion 1 as [? ? i Hi|? ? i Hi|? s Hs Hl]; subst; [apply lookup_lt_Some in Hi; lia..|eauto].
Qed.

End Paths.

(** ** Chains of finite sets *)

(** Iterating a monotone map from the empty set is stable after as many steps as
    the bound has elements. *)
Section Chain.
Context {A} `{Countable A} (F : gset A -> gset A).
Context (F_mono : forall X Y, X ⊆ Y -> F X ⊆ F Y).

Definition chain (n : nat) : gset A := Nat.iter n F ∅.

Lemma chain_step (n : nat) : chain n ⊆ chain (S n).
Proof. induction n as [|n IH]; [set_solver|]. cbn. by apply F_mono. Qed.

Lemma chain_grows (n : nat) : (n <= size (chain n))%nat \/ chain (S n) = chain n.
Proof.
  induction n as [|n [IH|IH]]; [left; lia| |right; cbn in *; by rewrite IH].
  destruct (decide (chain (S n) = chain n)) as [E|E]; [right; cbn in *; by rewrite E|left].
  assert (chain n ⊂ chain (S n)) as Hs%subset_size; [|lia].
  split; [apply chain_step|]. intros H'. apply E. apply set_eq. pose proof (chain_step n). set_solver.
Qed.

Context (U : gset A) (F_bound : forall X, F X ⊆ U).

Lemma chain_below (n : nat) : chain n ⊆ U.
Proof. destruct n; [set_solver|]. apply F_bound. Qed.

Lemma chain_stable (n : nat) : (size U <= n)%nat -> chain (S n) = chain n.
Proof.
  intros Hn. destruct (chain_grows n) as [Hg|]; [|done]. apply set_eq.
  pose proof (set_subseteq_size_eq (chain n) U (chain_below n) ltac:(lia)) as E.
  pose proof (chain_below (S n)). pose proof (chain_step n). intros x. split; [|set_solver].
  intros Hx. rewrite E. set_solver.
Qed.

Lemma chain_limit (n m : nat) : (size U <= n)%nat -> chain m ⊆ chain n.
Proof.
  intros Hn. destruct (le_lt_dec m n) as [Hle|Hlt].
  - clear Hn. induction Hle as [|n _ IH]; [done|]. pose proof (chain_step n). set_solver.
  - induction m as [|m IH]; [lia|]. destruct (decide (m = n)) as [->|]; [by rewrite chain_stable|].
    rewrite chain_stable by lia. apply IH. lia.
Qed.
End Chain.

Section Convergence.
Context (f : RegAllocFunction) (Hwf : wf_func f).

(** ** The width covers every register *)

Lemma fold_max_ge (l : list VReg) (n : Z) :
  n <= fold_left (fun n v => Z.max n (id v + 1)) l n /\
  (forall v, v ∈ l -> id v < fold_left (fun n v => Z.max n (id v + 1)) l n).
Proof.
  revert n; induction l as [|x l IH]; intros n; cbn; [split; [lia|]; intros v Hv; by apply elem_of_nil in Hv|].
  destruct (IH (Z.max n (id x + 1))) as [H1 H2]. split; [lia|].
  intros v [->|Hv]%elem_of_cons; [lia|auto].
Qed.

Lemma n_vregs_ge : 0 <= n_vregs f /\
  (forall i v, i ∈ insts f -> v ∈ vreg_defs i ++ vreg_uses i -> id v < n_vregs f).
Proof.
  pose proof (next_vreg_pos f Hwf) as H0. unfold n_vregs. revert H0. generalize (next_vreg f).
  induction (insts f) as [|x l IH]; intros n Hn; cbn; [split; [done|]; intros i v Hi; by apply elem_of_nil in Hi|].
  destruct (fold_max_ge (vreg_defs x ++ vreg_uses x) n) as [Hge Hin].
  destruct (IH (fold_left (fun n v => Z.max n (id v + 1)) (vreg_defs x ++ vreg_uses x) n)) as [H1 H2]; [lia|].
  split; [lia|]. intros i v [->|Hi]%elem_of_cons Hv; [|eauto].
  specialize (Hin v Hv). eapply Z.lt_le_trans; [exact Hin|]. clear.
  generalize (fold_left (fun n v => Z.max n (id v + 1)) (vreg_defs x ++ vreg_uses x) n). clear.
  induction l as [|y l IH]; intros m; cbn; [lia|].
  etransitivity; [|apply IH]. apply fold_max_ge.
Qed.

Let width : nat := Z.to_nat ((n_vregs f + 63) / 64).

Lemma width_covers (v : Z) : 0 <= v < n_vregs f -> valid_id width v.
Proof.
  intros Hv. unfold valid_id, width. pose proof (Z.div_mod (n_vregs f + 63) 64).
  pose proof (Z.mod_pos_bound (n_vregs f + 63) 64). rewrite Z2Nat.id by (apply Z.div_pos; lia). lia.
Qed.

Definition vreg_valid (i : RegAllocInst) : Prop :=
  forall v, v ∈ vreg_defs i ++ vreg_uses i -> valid_id width (id v).

Lemma inst_valid (b i : nat) : b ∈ block_order f -> i ∈ block_insts (block f b) -> vreg_valid (inst f i).
Proof.
  intros Hb Hi v Hv. assert (Hin : inst f i ∈ insts f).
  { apply list_elem_of_lookup_total_2. by eapply insts_bound. }
  apply width_covers. split; [by eapply vreg_ids|by eapply n_vregs_ge].
Qed.

(** ** The backward walk computes the transfer function *)

Lemma fold_remove (l : list VReg) (s : LiveSet) :
  wf_set width s -> (forall v, v ∈ l -> valid_id width (id v)) ->
  wf_set width (fold_left (fun s v => set_remove s (id v)) l s) /\
  (forall x, valid_id width x -> set_contains (fold_left (fun s v => set_remove s (id v)) l s) x
    = negb (bool_decide (x ∈ ids l)) && set_contains s x).
Proof.
  revert s; induction l as [|v l IH]; intros s Hs Hl; cbn; [split; [done|]; intros; by destruct (set_contains s x)|].
  pose proof (Hl v ltac:(left)) as Hv.
  destruct (IH (set_remove s (id v))) as [H1 H2]; [by apply remove_wf|intros; apply Hl; by right|]. split; [done|].
  intros x Hx. rewrite H2, (remove_contains width) by done.
  rewrite (bool_decide_ext (x ∈ ids (v :: l)) (id v = x \/ x ∈ ids l)) by (unfold ids; cbn; rewrite elem_of_cons; split; intros [|]; auto).
  destruct (Z.eqb_spec (id v) x); repeat case_bool_decide; destruct (set_contains s x); tauto || done.
Qed.

Lemma fold_insert (l : list VReg) (s : LiveSet) :
  wf_set width s -> (forall v, v ∈ l -> valid_id width (id v)) ->
  wf_set width (fold_left (fun s v => set_insert s (id v)) l s) /\
  (forall x, valid_id width x -> set_contains (fold_left (fun s v => set_insert s (id v)) l s) x
    = bool_decide (x ∈ ids l) || set_contains s x).
Proof.
  revert s; induction l as [|v l IH]; intros s Hs Hl; cbn; [split; [done|]; intros; done|].
  pose proof (Hl v ltac:(left)) as Hv.
  destruct (IH (set_insert s (id v))) as [H1 H2]; [by apply insert_wf|intros; apply Hl; by right|]. split; [done|].
  intros x Hx. rewrite H2, (insert_contains width) by done.
  rewrite (bool_decide_ext (x ∈ ids (v :: l)) (id v = x \/ x ∈ ids l)) by (unfold ids; cbn; rewrite elem_of_cons; split; intros [|]; auto).
  destruct (Z.eqb_spec (id v) x); repeat case_bool_decide; destruct (set_contains s x); tauto || done.
Qed.

Lemma walk_inst_spec (i : RegAllocInst) (s : LiveSet) :
  wf_set width s -> vreg_valid i -> wf_set width (walk_inst s i) /\
  (forall x, valid_id width x -> set_contains (walk_inst s i) x = uses_b x i || (negb (defs_b x i) && set_contains s x)).
Proof.
  intros Hs Hv. unfold walk_inst. destruct (fold_remove (vreg_defs i) s Hs) as [H1 H2]; [intros; apply Hv, elem_of_app; by left|].
  destruct (fold_insert (vreg_uses i) _ H1) as [H3 H4]; [intros; apply Hv, elem_of_app; by right|]. split; [done|].
  intros x Hx. by rewrite H4, H2.
Qed.

Lemma walk_block_spec (l : list nat) (s : LiveSet) :
  wf_set width s -> (forall i, i ∈ l -> vreg_valid (inst f i)) ->
  let r := fold_left (fun s i => walk_inst s (inst f i)) (rev l) s in
  wf_set width r /\ (forall x, valid_id width x -> set_contains r x = transfer x (inst f <$> l) (set_contains s x)).
Proof.
  intros Hs Hl. cbn. induction l as [|i l IH]; [done|]. cbn [rev]. rewrite fold_left_app. cbn.
  destruct IH as [H1 H2]; [intros; apply Hl; by right|]. destruct (walk_inst_spec (inst f i) _ H1) as [H3 H4]; [apply Hl; left|].
  split; [done|]. intros x Hx. by rewrite H4, H2.
Qed.

(** ** One block *)

Definition wf_flow (st : Flow) : Prop :=
  length (live_in st) = length (blocks f) /\ length (live_out st) = length (blocks f) /\
  Forall (wf_set width) (live_in st) /\ Forall (wf_set width) (live_out st).

Lemma wf_flow_in (st : Flow) (b : nat) : wf_flow st -> b ∈ block_order f -> wf_set width (live_in st !!! b).
Proof.
  intros (Hl & _ & Hw & _) Hb. rewrite Forall_lookup in Hw.
  apply (Hw b), list_lookup_lookup_total_lt. rewrite Hl. by apply order_bound.
Qed.

Definition new_out (st : Flow) (b : nat) : LiveSet :=
  fold_left (fun s x => set_union s (live_in st !!! x)) (succs (block f b)) (set_clear (LiveSet_new (n_vregs f))).
Definition new_in (st : Flow) (b : nat) : LiveSet :=
  fold_left (fun s i => walk_inst s (inst f i)) (rev (block_insts (block f b))) (new_out st b).

Definition succ_in (st : Flow) (v : Z) (b : nat) : bool :=
  existsb (fun x => set_contains (live_in st !!! x) v) (succs (block f b)).

Lemma new_out_spec (st : Flow) (b : nat) :
  wf_flow st -> b ∈ block_order f ->
  wf_set width (new_out st b) /\ (forall v, valid_id width v -> set_contains (new_out st b) v = succ_in st v b).
Proof.
  intros Hst Hb. unfold new_out, succ_in.
  assert (Hs : forall x, x ∈ succs (block f b) -> wf_set width (live_in st !!! x)).
  { intros x Hx. apply wf_flow_in; [done|]. by eapply succs_ordered. }
  assert (H0 : wf_set width (set_clear (LiveSet_new (n_vregs f))) /\
    forall v, valid_id width v -> set_contains (set_clear (LiveSet_new (n_vregs f))) v = false).
  { pose proof (new_wf (n_vregs f)). split; [by apply clear_wf|]. intros v Hv. by apply (clear_contains width). }
  assert (H : forall l s, wf_set width s -> (forall x, x ∈ l -> wf_set width (live_in st !!! x)) ->
    wf_set width (fold_left (fun s x => set_union s (live_in st !!! x)) l s) /\
    forall v, valid_id width v -> set_contains (fold_left (fun s x => set_union s (live_in st !!! x)) l s) v
      = set_contains s v || existsb (fun x => set_contains (live_in st !!! x) v) l).
  { induction l as [|x l IH]; intros s Hw Hl; cbn; [split; [done|]; intros v _; by rewrite orb_false_r|].
    destruct (IH (set_union s (live_in st !!! x))) as [H1 H2].
    - apply union_wf; [done|apply Hl; left].
    - intros y Hy. apply Hl. by right.
    - split; [done|]. intros v Hv. rewrite H2, (union_contains width), orb_assoc by (done || apply Hl; left). done. }
  destruct (H (succs (block f b)) _ (proj1 H0) Hs) as [H1 H2]. split; [done|].
  intros v Hv. by rewrite H2, (proj2 H0).
Qed.

Lemma new_in_spec (st : Flow) (b : nat) :
  wf_flow st -> b ∈ block_order f ->
  wf_set width (new_in st b) /\
  (forall v, valid_id width v -> set_contains (new_in st b) v = transfer v (code f b) (succ_in st v b)).
Proof.
  intros Hst Hb. destruct (new_out_spec st b Hst Hb) as [H1 H2].
  destruct (walk_block_spec (block_insts (block f b)) (new_out st b) H1) as [H3 H4].
  - intros i Hi. by eapply inst_valid.
  - split; [done|]. intros v Hv. unfold new_in. rewrite H4, H2 by done. done.
Qed.

(** Whether or not the block is reported as changed, its sets are the new ones. *)
Lemma flow_block_sets (st : Flow) (b : nat) :
  wf_flow st -> b ∈ block_order f ->
  live_in (flow_block f st b) = <[b := new_in st b]> (live_in st) /\
  live_out (flow_block f st b) = <[b := new_out st b]> (live_out st).
Proof.
  intros (Hl1 & Hl2 & _) Hb. unfold flow_block. fold (new_out st b). fold (new_in st b).
  pose proof (order_bound f Hwf b Hb). repeat case_bool_decide; cbn; try done.
  split; rewrite list_insert_id; try done; rewrite list_lookup_lookup_total_lt by lia; congruence.
Qed.

Lemma flow_block_wf (st : Flow) (b : nat) : wf_flow st -> b ∈ block_order f -> wf_flow (flow_block f st b).
Proof.
  intros Hst Hb. destruct (flow_block_sets st b Hst Hb) as [E1 E2]. unfold wf_flow. rewrite E1, E2.
  destruct (new_in_spec st b Hst Hb), (new_out_spec st b Hst Hb), Hst as (? & ? & ? & ?).
  rewrite !length_insert. split_and!; try done; by apply Forall_insert.
Qed.

Lemma flow_block_in (st : Flow) (b x : nat) :
  wf_flow st -> b ∈ block_order f ->
  live_in (flow_block f st b) !!! x = (if decide (x = b) then new_in st b else live_in st !!! x) /\
  live_out (flow_block f st b) !!! x = (if decide (x = b) then new_out st b else live_out st !!! x).
Proof.
  intros Hst Hb. destruct (flow_block_sets st b Hst Hb) as [-> ->]. pose proof (order_bound f Hwf b Hb).
  destruct Hst as (? & ? & _). destruct (decide (x = b)) as [->|].
  - rewrite !list_lookup_total_insert_eq by lia. done.
  - rewrite !list_lookup_total_insert_ne by done. done.
Qed.

Lemma wf_flow_out (st : Flow) (b : nat) : wf_flow st -> b ∈ block_order f -> wf_set width (live_out st !!! b).
Proof.
  intros (_ & Hl & _ & Hw) Hb. rewrite Forall_lookup in Hw.
  apply (Hw b), list_lookup_lookup_total_lt. rewrite Hl. by apply order_bound.
Qed.

(** ** One pass *)

Lemma fold_blocks_wf (l : list nat) (st : Flow) :
  wf_flow st -> (forall b, b ∈ l -> b ∈ block_order f) -> wf_flow (fold_left (flow_block f) l st).
Proof.
  revert st; induction l as [|b l IH]; intros st Hst Hl; cbn; [done|].
  apply IH; [|intros; apply Hl; by right]. apply flow_block_wf; [done|]. apply Hl. left.
Qed.

Lemma pass_blocks (b : nat) : b ∈ rev (block_order f) <-> b ∈ block_order f.
Proof. rewrite !list_elem_of_In. symmetry. apply in_rev. Qed.

Lemma flow_pass_wf (st : Flow) : wf_flow st -> wf_flow (flow_pass f st).
Proof. intros Hst. apply fold_blocks_wf; [done|]. intros b. apply pass_blocks. Qed.

(** *** From above: nothing is reported that is not live *)

Definition below (st : Flow) : Prop :=
  forall b v, b ∈ block_order f -> valid_id width v ->
  (set_contains (live_in st !!! b) v = true -> live_before f v b 0) /\
  (set_contains (live_out st !!! b) v = true -> live_before f v b (length (block_insts (block f b)))).

Lemma flow_block_below (st : Flow) (b : nat) :
  wf_flow st -> below st -> b ∈ block_order f -> below (flow_block f st b).
Proof.
  intros Hst Hbel Hb x v Hx Hv. destruct (flow_block_in st b x Hst Hb) as [-> ->].
  destruct (decide (x = b)) as [->|]; [|by apply Hbel].
  destruct (new_in_spec st b Hst Hb) as [_ Hin], (new_out_spec st b Hst Hb) as [_ Hout].
  rewrite Hin, Hout by done.
  assert (Ho : succ_in st v b = true -> live_before f v b (length (block_insts (block f b)))).
  { intros (s & Hs%list_elem_of_In & Hc)%existsb_exists. eapply live_succ; [done|].
    apply (Hbel s v); [by eapply succs_ordered|done|done]. }
  split; [|done]. intros Ht. eapply transfer_live; [lia|by rewrite drop_0|done].
Qed.

Lemma fold_blocks_below (l : list nat) (st : Flow) :
  wf_flow st -> below st -> (forall b, b ∈ l -> b ∈ block_order f) -> below (fold_left (flow_block f) l st).
Proof.
  revert st; induction l as [|b l IH]; intros st Hst Hbel Hl; cbn; [done|].
  assert (b ∈ block_order f) by (apply Hl; left).
  apply IH; [by apply flow_block_wf|by apply flow_block_below|intros; apply Hl; by right].
Qed.

Lemma flow_pass_below (st : Flow) : wf_flow st -> below st -> below (flow_pass f st).
Proof. intros Hst Hbel. apply fold_blocks_below; [done|done|]. intros b. apply pass_blocks. Qed.

(** *** From below: every pass finds the liveness one more edge away *)

Definition reaches (X : gset nat) (b : nat) : bool := existsb (fun s => bool_decide (s ∈ X)) (succs (block f b)).

Definition live_step (v : Z) (X : gset nat) : gset nat :=
  filter (fun b => transfer v (code f b) (reaches X b) = true) (list_to_set (block_order f)).

Definition live_within (v : Z) (n : nat) : gset nat := chain (live_step v) n.

Lemma reaches_mono (X Y : gset nat) (b : nat) : X ⊆ Y -> reaches X b = true -> reaches Y b = true.
Proof.
  intros HXY (s & Hs & Hd%bool_decide_eq_true)%existsb_exists. apply existsb_exists. exists s. split; [done|].
  apply bool_decide_eq_true. set_solver.
Qed.

Lemma live_step_bound (v : Z) (X : gset nat) : live_step v X ⊆ list_to_set (block_order f).
Proof. unfold live_step. intros b Hb%elem_of_filter. tauto. Qed.

Lemma live_step_mono (v : Z) (X Y : gset nat) : X ⊆ Y -> live_step v X ⊆ live_step v Y.
Proof.
  intros HXY b. unfold live_step. rewrite !elem_of_filter. intros [Ht Hb]. split; [|done].
  eapply transfer_mono; [|done]. by apply reaches_mono.
Qed.

Definition above (n : nat) (st : Flow) (b : nat) : Prop :=
  forall v, valid_id width v -> b ∈ live_within v n -> set_contains (live_in st !!! b) v = true.
Definition above_out (n : nat) (st : Flow) (b : nat) : Prop :=
  forall v, valid_id width v -> reaches (live_within v n) b = true -> set_contains (live_out st !!! b) v = true.

Lemma above_weaken (n : nat) (st : Flow) (b : nat) : above (S n) st b -> above n st b.
Proof.
  intros H v Hv Hb. apply H; [done|].
  exact (chain_step (live_step v) (live_step_mono v) n b Hb).
Qed.

Lemma flow_block_above (n : nat) (st : Flow) (b : nat) :
  wf_flow st -> b ∈ block_order f -> (forall x, x ∈ block_order f -> above n st x) ->
  above (S n) (flow_block f st b) b /\ above_out n (flow_block f st b) b.
Proof.
  intros Hst Hb Hab. unfold above, above_out. destruct (flow_block_in st b b Hst Hb) as [-> ->].
  rewrite !decide_True by done.
  destruct (new_in_spec st b Hst Hb) as [_ Hin], (new_out_spec st b Hst Hb) as [_ Hout].
  assert (Hs : forall v, valid_id width v -> reaches (live_within v n) b = true -> succ_in st v b = true).
  { intros v Hv (s & Hs & Hd%bool_decide_eq_true)%existsb_exists. apply existsb_exists. exists s. split; [done|].
    apply Hab; [|done|done]. eapply succs_ordered; [done|done|]. by apply list_elem_of_In. }
  split; intros v Hv H; [rewrite Hin by done|rewrite Hout by done; auto].
  unfold live_within, chain in H. cbn in H. apply elem_of_filter in H as [Ht _].
  eapply transfer_mono; [|exact Ht]. by apply Hs.
Qed.

Lemma fold_blocks_above (n : nat) (l : list nat) (done_ : nat -> Prop) (st : Flow) :
  wf_flow st -> (forall b, b ∈ l -> b ∈ block_order f) ->
  (forall x, x ∈ block_order f -> above n st x) ->
  (forall x, done_ x -> above (S n) st x /\ above_out n st x) ->
  forall x, x ∈ l \/ done_ x ->
    above (S n) (fold_left (flow_block f) l st) x /\ above_out n (fold_left (flow_block f) l st) x.
Proof.
  revert done_ st; induction l as [|b l IH]; intros done_ st Hst Hl Hab Hd x Hx; cbn.
  { destruct Hx as [Hx|Hx]; [by apply elem_of_nil in Hx|auto]. }
  assert (Hb : b ∈ block_order f) by (apply Hl; left).
  pose proof (flow_block_above n st b Hst Hb Hab) as Hnew.
  assert (Hkeep : forall y, y ≠ b -> live_in (flow_block f st b) !!! y = live_in st !!! y /\
                                     live_out (flow_block f st b) !!! y = live_out st !!! y).
  { intros y Hy. destruct (flow_block_in st b y Hst Hb) as [-> ->]. by rewrite !decide_False. }
  apply (IH (fun y => y = b \/ done_ y)).
  - by apply flow_block_wf.
  - intros y Hy. apply Hl. by right.
  - intros y Hy. destruct (decide (y = b)) as [->|Hne]; [apply above_weaken, Hnew|].
    unfold above. rewrite (proj1 (Hkeep y Hne)). by apply Hab.
  - intros y Hy. destruct (decide (y = b)) as [->|Hne]; [exact Hnew|].
    destruct Hy as [|Hy]; [done|]. unfold above, above_out. destruct (Hkeep y Hne) as [-> ->]. by apply Hd.
  - destruct Hx as [[->|Hx]%elem_of_cons|Hx]; auto.
Qed.

Lemma flow_pass_above (n : nat) (st : Flow) :
  wf_flow st -> (forall x, x ∈ block_order f -> above n st x) ->
  forall x, x ∈ block_order f -> above (S n) (flow_pass f st) x /\ above_out n (flow_pass f st) x.
Proof.
  intros Hst Hab x Hx. apply (fold_blocks_above n _ (fun _ => False)); [done|by intros b ?%pass_blocks|done|done|].
  left. by apply pass_blocks.
Qed.

Lemma live_reaches (v : Z) (b k : nat) :
  live_before f v b k -> b ∈ block_order f ->
  exists n, transfer v (inst f <$> drop k (block_insts (block f b))) (reaches (live_within v n) b) = true.
Proof.
  induction 1 as [b k i Hi Hu|b k i Hi Hd _ IH|b s Hs _ IH]; intros Hb.
  - exists 0%nat. rewrite (drop_S _ i) by done. cbn. unfold uses_b. by rewrite bool_decide_true.
  - destruct (IH Hb) as [n Hn]. exists n. rewrite (drop_S _ i) by done. cbn. unfold defs_b.
    rewrite (bool_decide_false _ Hd), orb_true_iff. by right.
  - assert (Hso : s ∈ block_order f) by by eapply succs_ordered.
    destruct (IH Hso) as [n Hn]. rewrite drop_0 in Hn. exists (S n). rewrite drop_all. cbn.
    apply existsb_exists. exists s. split; [by apply list_elem_of_In|]. apply bool_decide_eq_true.
    apply elem_of_filter. split; [done|]. by apply elem_of_list_to_set.
Qed.

Let N : nat := length (block_order f).

Lemma live_within_limit (v : Z) (n : nat) : live_within v n ⊆ live_within v N.
Proof.
  apply (chain_limit _ (live_step_mono v) _ (live_step_bound v)).
  rewrite size_list_to_set by apply (order_nodup f Hwf). done.
Qed.

Lemma live_is_within (v : Z) (b : nat) :
  b ∈ block_order f ->
  (live_before f v b 0 -> b ∈ live_within v N) /\
  (live_before f v b (length (block_insts (block f b))) -> reaches (live_within v N) b = true).
Proof.
  intros Hb. split; intros Hl; destruct (live_reaches _ _ _ Hl Hb) as [n Hn].
  - apply (live_within_limit v (S n)). apply elem_of_filter. rewrite drop_0 in Hn.
    split; [done|]. by apply elem_of_list_to_set.
  - rewrite drop_all in Hn. cbn in Hn. eapply reaches_mono; [apply live_within_limit|done].
Qed.

Definition exact (st : Flow) : Prop :=
  forall b v, b ∈ block_order f -> valid_id width v ->
  (set_contains (live_in st !!! b) v = true <-> live_before f v b 0) /\
  (set_contains (live_out st !!! b) v = true <-> live_before f v b (length (block_insts (block f b)))).

Lemma sandwich (st : Flow) :
  below st -> (forall b, b ∈ block_order f -> above N st b /\ above_out N st b) -> exact st.
Proof.
  intros Hbel Hab b v Hb Hv. destruct (Hbel b v Hb Hv), (Hab b Hb) as [Ha Hao], (live_is_within v b Hb).
  split; split; auto.
Qed.

(** *** Unchanged passes *)

Lemma flow_block_unchanged (st : Flow) (b : nat) : changed (flow_block f st b) = false -> flow_block f st b = st.
Proof. unfold flow_block. by destruct (_ || _). Qed.

Lemma fold_unchanged (l : list nat) (st : Flow) :
  changed (fold_left (flow_block f) l st) = false -> fold_left (flow_block f) l st = st.
Proof.
  revert st; induction l as [|b l IH]; intros st; cbn; [done|]. intros H. pose proof (IH _ H) as E.
  rewrite E in H |- *. by apply flow_block_unchanged.
Qed.

Lemma exact_unchanged (st : Flow) (b : nat) : wf_flow st -> exact st -> b ∈ block_order f -> flow_block f st b = st.
Proof.
  intros Hst Hex Hb. destruct (new_in_spec st b Hst Hb) as [Hwi Hin], (new_out_spec st b Hst Hb) as [Hwo Hout].
  assert (Hs : forall v, valid_id width v -> succ_in st v b = set_contains (live_out st !!! b) v).
  { intros v Hv. apply eq_true_iff_eq. rewrite (proj2 (Hex b v Hb Hv)). unfold succ_in. rewrite existsb_exists. split.
    - intros (s & Hs%list_elem_of_In & Hc). eapply live_succ; [done|]. apply (Hex s v); [by eapply succs_ordered|done|done].
    - intros (s & Hs & Hl)%live_end. exists s. split; [by apply list_elem_of_In|].
      apply (Hex s v); [by eapply succs_ordered|done|done]. }
  assert (Ho : new_out st b = live_out st !!! b).
  { apply (set_ext width); [done|by apply wf_flow_out|]. intros v Hv. rewrite Hout by done. by apply Hs. }
  assert (Hi : new_in st b = live_in st !!! b).
  { apply (set_ext width); [done|by apply wf_flow_in|]. intros v Hv. rewrite Hin, Hs by done.
    destruct (Hex b v Hb Hv) as [Hi Ho']. apply eq_true_iff_eq. rewrite Hi. split.
    - intros Ht. eapply transfer_live; [lia|by rewrite drop_0|]. by apply Ho'.
    - intros Hl. apply (live_transfer f v b 0); [done|]. by apply Ho'. }
  unfold flow_block. fold (new_out st b). fold (new_in st b). by rewrite !bool_decide_true.
Qed.

Lemma exact_stays (l : list nat) (st : Flow) :
  wf_flow st -> exact st -> (forall b, b ∈ l -> b ∈ block_order f) -> fold_left (flow_block f) l st = st.
Proof.
  intros Hst Hex. induction l as [|b l IH]; intros Hl; cbn; [done|].
  rewrite exact_unchanged by (done || apply Hl; left). apply IH. intros; apply Hl; by right.
Qed.

(** *** The loop *)

(** The state after [k] passes. *)
Record after_passes (k : nat) (st : Flow) : Prop := mkAfter {
  after_wf : wf_flow st;
  after_below : below st;
  after_above : forall b, b ∈ block_order f -> above k st b;
  after_above_out : forall j b, k = S j -> b ∈ block_order f -> above_out j st b;
  after_stop : (N + 2 <= k)%nat -> changed st = false }.

Lemma above_limit (k : nat) (st : Flow) (b : nat) : (N <= k)%nat -> above k st b -> above N st b.
Proof.
  intros Hk H v Hv Hb. apply H; [done|]. clear H. induction Hk as [|k _ IH]; [done|].
  exact (chain_step (live_step v) (live_step_mono v) k b IH).
Qed.

Lemma above_out_limit (k : nat) (st : Flow) (b : nat) : (N <= k)%nat -> above_out k st b -> above_out N st b.
Proof.
  intros Hk H v Hv Hb. apply H; [done|]. eapply reaches_mono; [|done]. clear H Hb.
  induction Hk as [|k _ IH]; [done|]. etransitivity; [exact IH|]. apply chain_step, live_step_mono.
Qed.

Lemma after_exact (k : nat) (st : Flow) : (N + 1 <= k)%nat -> after_passes k st -> exact st.
Proof.
  intros Hk [Hw Hb Ha Hao _]. apply sandwich; [done|]. intros b Hin. split.
  - apply (above_limit k); [lia|auto].
  - apply (above_out_limit (k - 1)); [lia|]. apply Hao; [lia|done].
Qed.

Lemma after_pass (k : nat) (st : Flow) : after_passes k st -> after_passes (S k) (flow_pass f st).
Proof.
  intros H. pose proof H as [Hw Hb Ha _ _]. pose proof (flow_pass_above k st Hw Ha) as Hab. split.
  - by apply flow_pass_wf.
  - by apply flow_pass_below.
  - intros b Hin. by apply Hab.
  - intros j b [= <-] Hin. by apply Hab.
  - intros Hk. pose proof (after_exact k st ltac:(lia) H) as Hex. unfold flow_pass.
    rewrite exact_stays; [done|done|done|]. intros b. apply pass_blocks.
Qed.

(** A pass that changes nothing has reached the limit, however early. *)
Lemma unchanged_exact (st : Flow) :
  wf_flow st -> below st -> changed (flow_pass f st) = false -> exact (flow_pass f st).
Proof.
  intros Hw Hb Hc. pose proof (fold_unchanged _ _ Hc : flow_pass f st = _) as E.
  assert (H : forall n b, b ∈ block_order f -> above n st b).
  { induction n as [|n IH]; intros b Hin v Hv Hl; [set_solver|].
    pose proof (proj1 (flow_pass_above n st Hw IH b Hin) v Hv Hl) as Hp. by rewrite E in Hp. }
  apply sandwich; [by apply flow_pass_below|]. intros b Hin.
  destruct (flow_pass_above N st Hw (H N) b Hin) as [H1 H2]. split; [by apply above_weaken|done].
Qed.

Lemma flow_loop_exact (fuel k : nat) (st : Flow) :
  after_passes k st -> changed st = true -> (N + 2 <= k + fuel)%nat ->
  changed (flow_loop f fuel st) = false /\ exact (flow_loop f fuel st) /\ wf_flow (flow_loop f fuel st).
Proof.
  revert k st; induction fuel as [|fuel IH]; intros k st Ha Hc Hf; cbn.
  - rewrite (after_stop k st Ha) in Hc by lia. done.
  - rewrite Hc. pose proof (after_pass k st Ha) as Ha'. destruct Ha as [Hw Hb _ _ _].
    destruct (changed (flow_pass f st)) eqn:Ec; [apply (IH (S k)); [done|done|lia]|].
    pose proof (unchanged_exact st Hw Hb Ec) as Hex.
    destruct fuel; cbn; [|rewrite Ec]; split_and!; try done; apply Ha'.
Qed.

Lemma order_short : (length (block_order f) <= length (blocks f))%nat.
Proof.
  rewrite <- (length_seq (length (blocks f)) 0).
  apply submseteq_length, NoDup_submseteq; [apply (order_nodup f Hwf)|].
  intros b Hb. apply elem_of_seq. pose proof (order_bound f Hwf b Hb). lia.
Qed.

Lemma initial_passes :
  let empty := replicate (length (blocks f)) (LiveSet_new (n_vregs f)) in after_passes 0 (mkFlow empty empty true).
Proof.
  assert (Hc : forall b v, b ∈ block_order f -> valid_id width v ->
    set_contains (replicate (length (blocks f)) (LiveSet_new (n_vregs f)) !!! b) v = false).
  { intros b v Hb Hv. rewrite (list_lookup_total_correct _ _ (LiveSet_new (n_vregs f))); [by apply new_contains|].
    apply lookup_replicate. split; [done|]. by apply order_bound. }
  split; cbn.
  - unfold wf_flow. cbn. rewrite length_replicate. split_and!; try done; apply Forall_replicate, new_wf.
  - intros b v Hb Hv. cbn. rewrite !Hc by done. done.
  - intros b Hb v Hv Hin. unfold live_within, chain in Hin. cbn in Hin. by apply elem_of_empty in Hin.
  - done.
  - lia.
Qed.

Lemma dataflow_exact : changed (dataflow f) = false /\ exact (dataflow f) /\ wf_flow (dataflow f).
Proof.
  apply (flow_loop_exact _ 0); [apply initial_passes|done|]. pose proof order_short. unfold max_iterations, N. lia.
Qed.
End Convergence.

(** ** A checker for well-formed functions *)

Definition wf_check (f : RegAllocFunction) : bool :=
  let laid := block_order f ≫= fun b => block_insts (block f b) in
  forallb (fun b => (b <? length (blocks f))%nat) (block_order f) &&
  bool_decide (NoDup (block_order f)) &&
  forallb (fun b => forallb (fun s => bool_decide (s ∈ block_order f)) (succs (block f b))) (block_order f) &&
  forallb (fun i => (i <? length (insts f))%nat) laid &&
  bool_decide (NoDup laid) &&
  (Z.of_nat (length laid) <? 2 ^ 32) &&
  forallb (fun i => forallb (fun v => 0 <=? id v) (vreg_defs i ++ vreg_uses i)) (insts f) &&
  (0 <=? next_vreg f).

Lemma forallb_elem {A} (p : A -> bool) (l : list A) (x : A) : forallb p l = true -> x ∈ l -> p x = true.
Proof. rewrite forallb_forall, list_elem_of_In. auto. Qed.

Lemma wf_check_sound (f : RegAllocFunction) : wf_check f = true -> wf_func f.
Proof.
  unfold wf_check. rewrite !andb_true_iff, !bool_decide_eq_true. intros [[[[[[[H1 H2] H3] H4] H5] H6] H7] H8].
  split; try done.
  - intros b Hb. by apply Nat.ltb_lt, (forallb_elem _ _ _ H1).
  - intros b s Hb Hs. pose proof (forallb_elem _ _ _ H3 Hb) as H. cbn beta in H.
    pose proof (forallb_elem _ _ _ H Hs) as H'. by apply bool_decide_eq_true in H'.
  - intros b i Hb Hi. apply Nat.ltb_lt, (forallb_elem _ _ _ H4). apply list_elem_of_bind. eauto.
  - by apply Z.ltb_lt.
  - intros i v Hi Hv. pose proof (forallb_elem _ _ _ H7 Hi) as H. cbn beta in H.
    by apply Z.leb_le, (forallb_elem _ _ _ H).
  - by apply Z.leb_le.
Qed.

(** A counted loop: v0 and v1 are set before it, v1 is updated in it and v2 is
    its exit test; v1 is copied to X0. *)
Definition gpr (n : Z) : VReg := mkVReg n Gpr64.
Definition demo_func : RegAllocFunction := mkRFunc
  [ mkRInst 1 [VRegOp (gpr 0)] [Imm 10] [] [] 0;
    mkRInst 1 [VRegOp (gpr 1)] [Imm 0] [] [] 0;
    mkRInst 2 [VRegOp (gpr 1)] [VRegOp (gpr 1); VRegOp (gpr 0)] [] [] 0;
    mkRInst 3 [VRegOp (gpr 2)] [VRegOp (gpr 1)] [] [] 0;
    mkRInst 4 [] [VRegOp (gpr 2); BlockOp 1; BlockOp 2] [] [] 0;
    mkRInst 276 [PRegOp (mkPReg 0)] [VRegOp (gpr 1)] [] [] 0 ]
  [ mkRBlock [0; 1]%nat [] [1]%nat 0; mkRBlock [2; 3; 4]%nat [0; 1]%nat [1; 2]%nat 1; mkRBlock [5]%nat [1]%nat [] 0 ]
  [0; 1; 2]%nat 0 3.

Lemma demo_func_wf : wf_func demo_func.
Proof. apply wf_check_sound. by vm_compute. Qed.

(** C18: The liveness iteration always converges by itself, before its iteration
    limit, and to the right sets.  For every well-formed function the loop ends
    because a pass changed nothing, and a register is then in the live-in or
    live-out set of a laid-out block exactly when some path from the start or the
    end of the block uses it before defining it. *)
Theorem dataflow_converges (f : RegAllocFunction) :
  wf_func f ->
  changed (dataflow f) = false /\
  (forall b v, b ∈ block_order f -> 0 <= v < n_vregs f ->
   (set_contains (live_in (dataflow f) !!! b) v = true <-> live_before f v b 0) /\
   (set_contains (live_out (dataflow f) !!! b) v = true <->
    live_before f v b (length (block_insts (block f b))))).
Proof.
  intros Hwf. destruct (dataflow_exact f Hwf) as (Hc & Hex & _). split; [done|].
  intros b v Hb Hv. apply Hex; [done|]. by apply width_covers.
Qed.

Lemma dataflow_converges_witness :
  wf_func demo_func /\ changed (dataflow demo_func) = false /\ live_before demo_func 0 1 0.
Proof.
  split; [exact demo_func_wf|].
  assert (Hb : 1%nat ∈ block_order demo_func) by (right; left).
  assert (Hv : 0 <= 0 < n_vregs demo_func) by (vm_compute; done).
  assert (Hin : set_contains (live_in (dataflow demo_func) !!! 1%nat) 0 = true) by (vm_compute; reflexivity).
  destruct (dataflow_converges demo_func demo_func_wf) as [Hc Hex]. split; [exact Hc|].
  exact (proj1 (proj1 (Hex 1%nat 0 Hb Hv)) Hin).
Defined.
