(* ===== verification/LiveBuild.v ===== *)
(** * Live intervals ([crates/trust-cg-regalloc/src/liveness.rs], step 3 of
      [compute_live_intervals])

    The construction of intervals from the dataflow result, and the proof that an
    interval covers every instruction its register is live at: a register that is
    live across a definition of another one has an interval that overlaps the
    other's.  Spill weights (step 4) are left out. *)

From S2P Require Import Prelude Regs Liveness LiveSets LiveFlow.
Local Open Scope Z_scope.

Definition merge_vreg_class (lhs rhs : RegClass) : RegClass :=
  if bool_decide (lhs = rhs) then lhs
  else
    match lhs, rhs with
    | Gpr64, (Gpr32 | System) | (Gpr32 | System), Gpr64 => Gpr64
    | Gpr32, System | System, Gpr32 => Gpr32
    | Fpr128, (Fpr64 | Fpr32 | Fpr16 | Fpr8) | (Fpr64 | Fpr32 | Fpr16 | Fpr8), Fpr128 => Fpr128
    | Fpr64, (Fpr32 | Fpr16 | Fpr8) | (Fpr32 | Fpr16 | Fpr8), Fpr64 => Fpr64
    | Fpr32, (Fpr16 | Fpr8) | (Fpr16 | Fpr8), Fpr32 => Fpr32
    | Fpr16, Fpr8 | Fpr8, Fpr16 => Fpr16
    | _, _ => lhs
    end.

Section Build.
Context (f : RegAllocFunction).

Definition collect_vreg_classes : gmap Z RegClass :=
  fold_left (fun m i =>
    fold_left (fun m v =>
      <[id v := match m !! id v with Some c => merge_vreg_class c (class v) | None => class v end]> m)
      (vreg_defs i ++ vreg_uses i) m) (insts f) ∅.

Definition vreg_class_for_id (vreg_id : Z) (classes : gmap Z RegClass) : RegClass :=
  default Gpr64 (classes !! vreg_id).

(** [inst_num_vec[inst_id]]. *)
Definition inst_num (i : nat) : Z := default 0 (number_insts f !! i).

Abbreviation Intervals := (list (option LiveInterval)) (only parsing).

(** [interval_vec[id].get_or_insert_with(|| fresh)], then an update in place. *)
Definition with_interval (ivs : Intervals) (vid : Z) (fresh : LiveInterval) (g : LiveInterval -> LiveInterval)
    : Intervals :=
  <[Z.to_nat vid := Some (g (default fresh (ivs !!! Z.to_nat vid)))]> ivs.

Definition last_defs_in_block (b : RegAllocBlock) : gmap Z Z :=
  fold_left (fun m i => fold_left (fun m v => <[id v := inst_num i]> m) (vreg_defs (inst f i)) m)
    (block_insts b) ∅.

Definition last_use_end_in_block (b : RegAllocBlock) : gmap Z Z :=
  fold_left (fun m i => fold_left (fun m v => <[id v := wrap 32 (inst_num i + 1)]> m) (vreg_uses (inst f i)) m)
    (block_insts b) ∅.

Definition fresh_for (vreg_id : Z) : LiveInterval :=
  LiveInterval_new (mkVReg vreg_id (vreg_class_for_id vreg_id collect_vreg_classes)).

Definition live_out_step (last_defs : gmap Z Z) (block_start block_end : Z) (ivs : Intervals) (vreg_id : Z)
    : Intervals :=
  with_interval ivs vreg_id (fresh_for vreg_id) (fun interval =>
    match last_defs !! vreg_id with
    | Some def_pos => add_range interval def_pos block_end
    | None => add_range interval block_start block_end
    end).

Definition live_in_step (out : LiveSet) (last_use_end : gmap Z Z) (block_start : Z) (ivs : Intervals) (vreg_id : Z)
    : Intervals :=
  if set_contains out vreg_id then ivs
  else
    match last_use_end !! vreg_id with
    | Some e =>
        if block_start <? e
        then with_interval ivs vreg_id (fresh_for vreg_id) (fun interval => add_range interval block_start e)
        else ivs
    | None => ivs
    end.

Definition push_use (iv : LiveInterval) (idx : Z) : LiveInterval :=
  mkInterval (vreg iv) (ranges iv) (is_fixed iv) (use_positions iv ++ [idx]) (def_positions iv).
Definition push_def (iv : LiveInterval) (c : RegClass) (idx : Z) : LiveInterval :=
  mkInterval (mkVReg (id (vreg iv)) c) (ranges iv) (is_fixed iv) (use_positions iv) (def_positions iv ++ [idx]).

Definition use_step (reaching : gmap Z Z) (block_start idx : Z) (ivs : Intervals) (v : VReg) : Intervals :=
  with_interval ivs (id v) (LiveInterval_new v) (fun interval =>
    add_range (push_use interval idx) (default block_start (reaching !! id v)) (wrap 32 (idx + 1))).

Definition def_step (idx : Z) (st : Intervals * gmap Z Z) (v : VReg) : Intervals * gmap Z Z :=
  (with_interval st.1 (id v) (LiveInterval_new v) (fun interval =>
     add_range (push_def interval (class v) idx) idx (wrap 32 (idx + 1))),
   <[id v := idx]> st.2).

(** The second pass over a block: uses see the reaching definitions before the
    definitions of the same instruction. *)
Definition inst_step (block_start : Z) (st : Intervals * gmap Z Z) (i : nat) : Intervals * gmap Z Z :=
  let idx := inst_num i in
  let ivs := fold_left (use_step st.2 block_start idx) (vreg_uses (inst f i)) st.1 in
  fold_left (def_step idx) (vreg_defs (inst f i)) (ivs, st.2).

Definition build_block (flow : Flow) (ivs : Intervals) (bi : nat) : Intervals :=
  let b := block f bi in
  match block_insts b, last (block_insts b) with
  | first :: _, Some last_inst =>
      let block_start := inst_num first in
      let block_end := wrap 32 (inst_num last_inst + 1) in
      let out := live_out flow !!! bi in
      let ivs := fold_left (live_out_step (last_defs_in_block b) block_start block_end) (set_iter out) ivs in
      let ivs := fold_left (live_in_step out (last_use_end_in_block b) block_start)
                   (set_iter (live_in flow !!! bi)) ivs in
      (fold_left (inst_step block_start) (block_insts b) (ivs, ∅)).1
  | _, _ => ivs
  end.

Definition interval_vec : Intervals :=
  fold_left (build_block (dataflow f)) (block_order f) (replicate (Z.to_nat (n_vregs f)) None).

(** The result: the [BTreeMap] of intervals as its entries in the order of the
    keys, and the numbering. *)
Record LivenessResult := mkResult { intervals : list (Z * LiveInterval); inst_numbering : gmap nat Z }.

Definition compute_live_intervals : LivenessResult :=
  mkResult (omap Datatypes.id (imap (fun k o => pair (Z.of_nat k) <$> o) interval_vec)) (number_insts f).

End Build.

(** ** The numbering follows the layout *)

Section Numbering.
Context (f : RegAllocFunction) (Hwf : wf_func f).

Definition laid_out : list nat := block_order f ≫= fun b => block_insts (block f b).

Lemma number_fold (l : list nat) (m : gmap nat Z) (n : Z) :
  NoDup l -> 0 <= n -> n + Z.of_nat (length l) < 2 ^ 32 ->
  (fold_left number_step l (m, n)).2 = n + Z.of_nat (length l) /\
  (forall j i, l !! j = Some i -> (fold_left number_step l (m, n)).1 !! i = Some (n + Z.of_nat j)) /\
  (forall i, i ∉ l -> (fold_left number_step l (m, n)).1 !! i = m !! i).
Proof.
  revert m n; induction l as [|x l IH]; intros m n Hnd Hn Hlt; cbn [fold_left length] in *.
  { split; [cbn; lia|]. split; [by intros j i Hj|done]. }
  apply NoDup_cons in Hnd as [Hx Hnd]. unfold number_step at 2 4 6. cbn [fst snd].
  rewrite wrap_small by (unfold uword; lia).
  destruct (IH (<[x := n]> m) (n + 1) Hnd) as (H1 & H2 & H3); [lia|lia|]. split; [lia|]. split.
  - intros [|j] i Hj; cbn in Hj.
    + injection Hj as <-. rewrite H3, lookup_insert_eq by done. f_equal. lia.
    + rewrite (H2 j i Hj). f_equal. lia.
  - intros i Hi. apply not_elem_of_cons in Hi as [Hne Hi]. by rewrite H3, lookup_insert_ne by done.
Qed.

Lemma number_insts_flat : number_insts f = (fold_left number_step laid_out (∅, 0)).1.
Proof.
  unfold number_insts, laid_out. f_equal. generalize (∅ : gmap nat Z, 0).
  induction (block_order f) as [|b l IH]; intros st; cbn; [done|]. by rewrite fold_left_app, IH.
Qed.

Lemma inst_num_pos (j i : nat) : laid_out !! j = Some i -> inst_num f i = Z.of_nat j.
Proof.
  intros Hj. unfold inst_num. rewrite number_insts_flat.
  destruct (number_fold laid_out ∅ 0) as (_ & H & _); [apply (insts_nodup f Hwf)|lia|apply (insts_count f Hwf)|].
  by rewrite (H j i Hj).
Qed.

(** The instructions of a block have consecutive numbers. *)
Lemma block_numbers (b : nat) :
  b ∈ block_order f -> exists base, 0 <= base /\ base + Z.of_nat (length (block_insts (block f b))) < 2 ^ 32 /\
  forall k i, block_insts (block f b) !! k = Some i -> inst_num f i = base + Z.of_nat k.
Proof.
  intros Hb. apply list_elem_of_split in Hb as (l1 & l2 & El).
  set (g := fun b => block_insts (block f b)).
  assert (E : laid_out = (l1 ≫= g) ++ g b ++ (l2 ≫= g)) by (unfold laid_out; rewrite El, bind_app, bind_cons; done).
  exists (Z.of_nat (length (l1 ≫= g))). pose proof (insts_count f Hwf) as Hc. fold laid_out in Hc.
  rewrite E, !length_app in Hc. unfold g in Hc at 2. split; [lia|]. split; [lia|].
  intros k i Hk. rewrite (inst_num_pos (length (l1 ≫= g) + k)); [lia|].
  rewrite E, lookup_app_r, Nat.add_comm, Nat.add_sub by lia. rewrite lookup_app_l; [done|].
  by apply lookup_lt_Some in Hk.
Qed.
End Numbering.

(** ** Updates of the interval vector *)

Lemma add_range_vreg (iv : LiveInterval) (s e : Z) : vreg (add_range iv s e) = vreg iv.
Proof.
  unfold add_range. destruct (e <=? s); [done|]. by repeat case_match.
Qed.

Lemma add_range_fixed (iv : LiveInterval) (s e : Z) : is_fixed (add_range iv s e) = is_fixed iv.
Proof.
  unfold add_range. destruct (e <=? s); [done|]. by repeat case_match.
Qed.

Section Updates.
Context (n : nat).

(** Entry [k] belongs to register [k] and is sorted. *)
Definition ok_interval (k : nat) (iv : LiveInterval) : Prop :=
  separated (ranges iv) /\ id (vreg iv) = Z.of_nat k /\ is_fixed iv = false.

Definition ok_vec (ivs : list (option LiveInterval)) : Prop :=
  length ivs = n /\ forall k iv, ivs !! k = Some (Some iv) -> ok_interval k iv.

Definition covered (ivs : list (option LiveInterval)) (v idx : Z) : Prop :=
  exists iv, ivs !! Z.to_nat v = Some (Some iv) /\ live iv idx.

Definition widens (ivs ivs' : list (option LiveInterval)) : Prop :=
  ok_vec ivs' /\ forall v idx, covered ivs v idx -> covered ivs' v idx.

Lemma widens_refl ivs : ok_vec ivs -> widens ivs ivs.
Proof. by split. Qed.

Lemma widens_trans a b c : widens a b -> widens b c -> widens a c.
Proof. intros [_ H1] [H2 H3]. split; [done|auto]. Qed.

Definition good_id (v : Z) : Prop := 0 <= v < Z.of_nat n.

Lemma with_interval_spec (ivs : list (option LiveInterval)) (v : Z) (fresh : LiveInterval)
    (g deco : LiveInterval -> LiveInterval) (s e : Z) :
  ok_vec ivs -> good_id v -> id (vreg fresh) = v -> ranges fresh = [] -> is_fixed fresh = false ->
  (forall iv, g iv = add_range (deco iv) s e) ->
  (forall iv, ranges (deco iv) = ranges iv /\ id (vreg (deco iv)) = id (vreg iv) /\ is_fixed (deco iv) = is_fixed iv) ->
  widens ivs (with_interval ivs v fresh g) /\ (forall idx, s <= idx < e -> covered (with_interval ivs v fresh g) v idx).
Proof.
  intros [Hl Hok] Hv Hid Hr Hf Hg Hd. unfold with_interval. set (iv0 := default fresh (ivs !!! Z.to_nat v)).
  assert (Hn : (Z.to_nat v < length ivs)%nat) by (unfold good_id in Hv; lia).
  assert (Hiv : ok_interval (Z.to_nat v) iv0).
  { unfold iv0. destruct (ivs !!! Z.to_nat v) as [iv|] eqn:E; cbn.
    - apply Hok. by rewrite list_lookup_lookup_total_lt, E by done.
    - unfold ok_interval. rewrite Hr, Hid, Hf. split; [split; constructor|]. unfold good_id in Hv. split; [lia|done]. }
  destruct Hiv as (Hsep & Hvid & Hfix), (Hd iv0) as (Dr & Di & Df).
  destruct (add_range_spec (deco iv0) s e) as [Hsep' Hlive]; [by rewrite Dr|]. rewrite <- Hg in Hsep', Hlive.
  assert (Hnew : ok_interval (Z.to_nat v) (g iv0)).
  { split; [done|]. by rewrite Hg, add_range_vreg, add_range_fixed, Di, Df. }
  assert (Hat : <[Z.to_nat v := Some (g iv0)]> ivs !! Z.to_nat v = Some (Some (g iv0))) by by apply list_lookup_insert_eq.
  split; [split|].
  - split; [by rewrite length_insert|]. intros k iv Hk. destruct (decide (k = Z.to_nat v)) as [->|Hne].
    + rewrite Hat in Hk. by injection Hk as <-.
    + rewrite list_lookup_insert_ne in Hk by done. by apply Hok.
  - intros x idx (iv & Hx & Hxl). destruct (decide (Z.to_nat x = Z.to_nat v)) as [Ex|Hne].
    + exists (g iv0). rewrite Ex. split; [done|]. apply Hlive. left. rewrite Ex in Hx. unfold iv0.
      rewrite (list_lookup_total_correct _ _ _ Hx). cbn. unfold live in *. destruct (Hd iv) as [-> _]. done.
    + exists iv. by rewrite list_lookup_insert_ne by done.
  - intros idx Hidx. exists (g iv0). split; [done|]. apply Hlive. by right.
Qed.

Lemma fold_grows {A} (step : list (option LiveInterval) -> A -> list (option LiveInterval)) (l : list A) ivs :
  (forall ivs x, x ∈ l -> ok_vec ivs -> widens ivs (step ivs x)) -> ok_vec ivs -> widens ivs (fold_left step l ivs).
Proof.
  revert ivs; induction l as [|x l IH]; intros ivs Hs Hok; cbn; [by apply widens_refl|].
  pose proof (Hs ivs x ltac:(left) Hok) as Hg. eapply widens_trans; [done|].
  apply IH; [|apply Hg]. intros; apply Hs; [by right|done].
Qed.

(** A step of a fold covers what the step covers. *)
Lemma fold_covers {A} (step : list (option LiveInterval) -> A -> list (option LiveInterval)) (l : list A) x (v idx : Z) ivs :
  (forall ivs x, x ∈ l -> ok_vec ivs -> widens ivs (step ivs x)) -> ok_vec ivs -> x ∈ l ->
  (forall ivs, ok_vec ivs -> covered (step ivs x) v idx) -> covered (fold_left step l ivs) v idx.
Proof.
  intros Hs Hok Hx Hc. apply list_elem_of_split in Hx as (l1 & l2 & ->). rewrite fold_left_app. cbn.
  assert (H1 : ok_vec (fold_left step l1 ivs)).
  { apply (fold_grows step l1 ivs); [|done]. intros; apply Hs; [|done]. apply elem_of_app; by left. }
  eapply fold_grows; [|apply (Hs _ x); [|done]|by apply Hc].
  - intros; apply Hs; [|done]. apply elem_of_app; right; by right.
  - apply elem_of_app; right; left.
Qed.
End Updates.

(** ** One block *)

Section Cover.
Context (f : RegAllocFunction) (Hwf : wf_func f).
Let n : nat := Z.to_nat (n_vregs f).

Lemma inst_ids (b i : nat) (v : VReg) :
  b ∈ block_order f -> i ∈ block_insts (block f b) -> v ∈ vreg_defs (inst f i) ++ vreg_uses (inst f i) ->
  good_id n (id v).
Proof.
  intros Hb Hi Hv. assert (Hin : inst f i ∈ insts f) by (apply list_elem_of_lookup_total_2; by eapply insts_bound).
  unfold good_id, n. pose proof (proj2 (n_vregs_ge f Hwf) _ _ Hin Hv). pose proof (vreg_ids f Hwf _ _ Hin Hv). lia.
Qed.

Lemma elem_of_ids (x : Z) (l : list VReg) : x ∈ ids l -> exists v, v ∈ l /\ id v = x.
Proof. unfold ids. intros (v & -> & Hv)%list_elem_of_fmap_1. eauto. Qed.

Lemma live_before_id (v : Z) (b k : nat) : live_before f v b k -> b ∈ block_order f -> good_id n v.
Proof.
  induction 1 as [b k i Hi Hu|b k i _ _ _ IH|b s Hs _ IH]; intros Hb.
  - apply elem_of_ids in Hu as (x & Hx & <-). eapply inst_ids; [done| |apply elem_of_app; by right].
    by eapply list_elem_of_lookup_2.
  - by apply IH.
  - apply IH. by eapply succs_ordered.
Qed.

Lemma flow_ids (b : nat) (x : Z) :
  b ∈ block_order f ->
  (x ∈ set_iter (live_out (dataflow f) !!! b) <-> live_before f x b (length (block_insts (block f b)))) /\
  (x ∈ set_iter (live_in (dataflow f) !!! b) <-> live_before f x b 0).
Proof.
  intros Hb. destruct (dataflow_exact f Hwf) as (_ & Hex & Hw).
  assert (Hiter : forall s, wf_set (Z.to_nat ((n_vregs f + 63) / 64)) s -> x ∈ set_iter s <->
    valid_id (Z.to_nat ((n_vregs f + 63) / 64)) x /\ set_contains s x = true).
  { intros s Hs. rewrite <- (elem_of_members _ s x Hs). unfold members. by rewrite elem_of_list_to_set. }
  assert (Hv : forall k, live_before f x b k -> valid_id (Z.to_nat ((n_vregs f + 63) / 64)) x).
  { intros k Hl. apply width_covers. pose proof (live_before_id _ _ _ Hl Hb) as Hg. unfold good_id, n in Hg. lia. }
  rewrite (Hiter _ (wf_flow_out f Hwf _ b Hw Hb)), (Hiter _ (wf_flow_in f Hwf _ b Hw Hb)).
  split; split; (intros [Hx Hc]; by apply (Hex b x Hb Hx)) || (intros Hl; pose proof (Hv _ Hl) as Hx; split; [done|by apply (Hex b x Hb Hx)]).
Qed.

(** *** The folds over a block *)

Lemma live_out_step_spec (ld : gmap Z Z) (bs be x : Z) ivs :
  ok_vec n ivs -> good_id n x ->
  widens n ivs (live_out_step f ld bs be ivs x) /\
  (forall idx, default bs (ld !! x) <= idx < be -> covered (live_out_step f ld bs be ivs x) x idx).
Proof.
  intros Hok Hx. apply (with_interval_spec n ivs x _ _ Datatypes.id); try done.
  intros iv. by destruct (ld !! x).
Qed.

Lemma live_in_step_grows (out : LiveSet) (lu : gmap Z Z) (bs x : Z) ivs :
  ok_vec n ivs -> good_id n x -> widens n ivs (live_in_step f out lu bs ivs x).
Proof.
  intros Hok Hx. unfold live_in_step. destruct (set_contains out x); [by apply widens_refl|].
  destruct (lu !! x) as [e|]; [|by apply widens_refl]. destruct (bs <? e); [|by apply widens_refl].
  apply (with_interval_spec n ivs x _ _ Datatypes.id bs e); done.
Qed.

Lemma use_step_spec (r : gmap Z Z) (bs idx : Z) (v : VReg) ivs :
  ok_vec n ivs -> good_id n (id v) ->
  widens n ivs (use_step r bs idx ivs v) /\
  (forall j, default bs (r !! id v) <= j < wrap 32 (idx + 1) -> covered (use_step r bs idx ivs v) (id v) j).
Proof. intros Hok Hx. by apply (with_interval_spec n ivs (id v) _ _ (fun iv => push_use iv idx)). Qed.

Definition def_interval (idx : Z) (ivs : list (option LiveInterval)) (v : VReg) : list (option LiveInterval) :=
  (def_step idx (ivs, ∅) v).1.

Lemma def_interval_spec (idx : Z) (v : VReg) ivs :
  ok_vec n ivs -> good_id n (id v) ->
  widens n ivs (def_interval idx ivs v) /\
  (forall j, idx <= j < wrap 32 (idx + 1) -> covered (def_interval idx ivs v) (id v) j).
Proof. intros Hok Hx. by apply (with_interval_spec n ivs (id v) _ _ (fun iv => push_def iv (class v) idx)). Qed.

Lemma def_fold_split (idx : Z) (l : list VReg) ivs r :
  fold_left (def_step idx) l (ivs, r)
  = (fold_left (def_interval idx) l ivs, fold_left (fun m v => <[id v := idx]> m) l r).
Proof.
  revert ivs r; induction l as [|v l IH]; intros ivs r; [done|]. cbn [fold_left]. rewrite <- IH. done.
Qed.

Lemma insert_fold (idx : Z) (l : list VReg) (m : gmap Z Z) (x p : Z) :
  fold_left (fun m v => <[id v := idx]> m) l m !! x = Some p -> (x ∈ ids l /\ p = idx) \/ m !! x = Some p.
Proof.
  revert m; induction l as [|v l IH]; intros m H; cbn in H; [by right|].
  unfold ids. cbn. rewrite elem_of_cons. destruct (IH _ H) as [[Hx ->]|Hm]; [left; auto|].
  apply lookup_insert_Some in Hm as [[<- <-]|[_ Hm]]; [left; auto|by right].
Qed.

Lemma inst_step_spec (b i : nat) (bs : Z) ivs r :
  b ∈ block_order f -> i ∈ block_insts (block f b) -> ok_vec n ivs ->
  let st := inst_step f bs (ivs, r) i in
  let idx := inst_num f i in
  widens n ivs st.1 /\
  (forall v j, v ∈ ids (vreg_uses (inst f i)) -> default bs (r !! v) <= j < wrap 32 (idx + 1) -> covered st.1 v j) /\
  (forall v j, v ∈ ids (vreg_defs (inst f i)) -> idx <= j < wrap 32 (idx + 1) -> covered st.1 v j) /\
  (forall v p, st.2 !! v = Some p -> (v ∈ ids (vreg_defs (inst f i)) /\ p = idx) \/ r !! v = Some p).
Proof.
  intros Hb Hi Hok. cbn zeta. unfold inst_step. cbn [fst snd]. rewrite def_fold_split. cbn [fst snd].
  set (idx := inst_num f i). set (ivs' := fold_left (use_step r bs idx) (vreg_uses (inst f i)) ivs).
  assert (Hu : forall v, v ∈ vreg_uses (inst f i) -> good_id n (id v)) by (intros; eapply inst_ids; [done|done|apply elem_of_app; by right]).
  assert (Hd : forall v, v ∈ vreg_defs (inst f i) -> good_id n (id v)) by (intros; eapply inst_ids; [done|done|apply elem_of_app; by left]).
  assert (Hus : forall ivs x, x ∈ vreg_uses (inst f i) -> ok_vec n ivs -> widens n ivs (use_step r bs idx ivs x))
    by (intros; apply use_step_spec; auto).
  assert (Hds : forall ivs x, x ∈ vreg_defs (inst f i) -> ok_vec n ivs -> widens n ivs (def_interval idx ivs x))
    by (intros; apply def_interval_spec; auto).
  pose proof (fold_grows n (use_step r bs idx) (vreg_uses (inst f i)) ivs Hus Hok) as G1. fold ivs' in G1.
  pose proof (fold_grows n (def_interval idx) (vreg_defs (inst f i)) ivs' Hds (proj1 G1)) as G2.
  split; [by eapply widens_trans|]. split; [|split].
  - intros v j (x & Hx & <-)%elem_of_ids Hj. apply G2.
    apply (fold_covers n (use_step r bs idx) _ x); [done|done|done|]. intros ivs0 Hok0. apply use_step_spec; auto.
  - intros v j (x & Hx & <-)%elem_of_ids Hj.
    apply (fold_covers n (def_interval idx) _ x); [done|apply G1|done|]. intros ivs0 Hok0. apply def_interval_spec; auto.
  - intros v p. apply insert_fold.
Qed.

Definition undefined_between (b : nat) (v : Z) (k k' : nat) : Prop :=
  forall d i, (k <= d < k')%nat -> block_insts (block f b) !! d = Some i -> v ∉ ids (vreg_defs (inst f i)).

(** Liveness inside a block ends at a use or at the end of the block. *)
Lemma live_split (v : Z) (b k : nat) :
  live_before f v b k ->
  (exists K i, (k <= K)%nat /\ block_insts (block f b) !! K = Some i /\ v ∈ ids (vreg_uses (inst f i)) /\
    undefined_between b v k K) \/
  (undefined_between b v k (length (block_insts (block f b))) /\
   live_before f v b (length (block_insts (block f b)))).
Proof.
  induction 1 as [b k i Hi Hu|b k i Hi Hd Hl IH|b s Hs Hl _].
  - left. exists k, i. split_and!; [lia|done|done|]. intros d i' ?; lia.
  - assert (Hstep : forall K, undefined_between b v (S k) K -> undefined_between b v k K).
    { intros K Hun d i' Hdk Hi'. destruct (decide (d = k)) as [->|]; [|by apply (Hun d); [lia|]].
      rewrite Hi in Hi'. by injection Hi' as <-. }
    destruct IH as [(K & i' & HK & Hi' & Hu & Hun)|[Hun Ho]]; [left|right; auto].
    exists K, i'. split_and!; [lia|done|done|auto].
  - right. split; [|by eapply live_succ]. intros d i ?. lia.
Qed.

Section Block.
Context (b : nat) (Hb : b ∈ block_order f) (base : Z) (Hbase : 0 <= base).
Let l : list nat := block_insts (block f b).
Context (Hroom : base + Z.of_nat (length l) < 2 ^ 32).
Context (Hnum : forall k i, l !! k = Some i -> inst_num f i = base + Z.of_nat k).

(** Some definition of [v] before position [k] has number [p]. *)
Definition defined_before (v p : Z) (k : nat) : Prop :=
  exists d i, (d < k)%nat /\ l !! d = Some i /\ v ∈ ids (vreg_defs (inst f i)) /\ p = base + Z.of_nat d.

Lemma defined_before_gap (v p : Z) (k k' : nat) :
  defined_before v p k' -> undefined_between b v k k' -> p < base + Z.of_nat k.
Proof.
  intros (d & i & Hd & Hi & Hv & ->) Hu. destruct (le_lt_dec k d); [|lia]. by destruct (Hu d i ltac:(lia) Hi).
Qed.

Lemma inst_num_next (k i : nat) : l !! k = Some i -> wrap 32 (inst_num f i + 1) = base + Z.of_nat k + 1.
Proof.
  intros Hk. rewrite (Hnum k i Hk). apply wrap_small. apply lookup_lt_Some in Hk. unfold uword. lia.
Qed.

Lemma insts_fold_spec (suf pre : list nat) (ivs : list (option LiveInterval)) (r : gmap Z Z) :
  l = pre ++ suf -> ok_vec n ivs -> (forall v p, r !! v = Some p -> defined_before v p (length pre)) ->
  let ivs' := (fold_left (inst_step f base) suf (ivs, r)).1 in
  widens n ivs ivs' /\
  (forall K i v, (length pre <= K)%nat -> l !! K = Some i ->
    (v ∈ ids (vreg_defs (inst f i)) -> covered ivs' v (base + Z.of_nat K)) /\
    (forall k, v ∈ ids (vreg_uses (inst f i)) -> (k <= K)%nat -> undefined_between b v k K ->
      covered ivs' v (base + Z.of_nat k))).
Proof.
  revert pre ivs r; induction suf as [|i suf IH]; intros pre ivs r El Hok Hr; cbn [fold_left].
  { split; [by apply widens_refl|]. intros K i v HK Hi. apply lookup_lt_Some in Hi. rewrite El, app_nil_r in Hi. lia. }
  assert (Hi : l !! length pre = Some i) by (rewrite El; by apply list_lookup_middle).
  destruct (inst_step_spec b i base ivs r Hb) as (Hg & Huse & Hdef & Hr'); [by eapply list_elem_of_lookup_2|done|].
  destruct (inst_step f base (ivs, r) i) as [ivs1 r1] eqn:Es. cbn [fst snd] in *.
  rewrite (inst_num_next _ _ Hi), (Hnum _ _ Hi) in *.
  destruct (IH (pre ++ [i]) ivs1 r1) as [Hg2 Hrest].
  - by rewrite <- app_assoc.
  - apply Hg.
  - rewrite length_app. cbn. intros v p Hp. destruct (Hr' v p Hp) as [[Hv ->]|Hp'].
    + exists (length pre), i. split_and!; [lia|done|done|done].
    + destruct (Hr v p Hp') as (d & i' & ? & ? & ? & ?). exists d, i'. split_and!; [lia|done..].
  - split; [by eapply widens_trans|]. intros K i' v HK Hi'. destruct (decide (K = length pre)) as [->|Hne].
    + rewrite Hi in Hi'. injection Hi' as <-. split.
      * intros Hv. apply Hg2, Hdef; [done|lia].
      * intros k Hv Hk Hu. apply Hg2, Huse; [done|]. split; [|lia].
        destruct (r !! v) as [p|] eqn:Ep; cbn; [|lia]. pose proof (defined_before_gap v p k _ (Hr v p Ep) Hu). lia.
    + apply Hrest; [rewrite length_app; cbn; lia|done].
Qed.

Lemma last_defs_defined (v p : Z) :
  last_defs_in_block f (block f b) !! v = Some p -> defined_before v p (length l).
Proof.
  unfold last_defs_in_block. fold l.
  assert (H : forall suf pre (m : gmap Z Z), l = pre ++ suf -> (forall v p, m !! v = Some p -> defined_before v p (length pre)) ->
    fold_left (fun m i => fold_left (fun m v => <[id v := inst_num f i]> m) (vreg_defs (inst f i)) m) suf m !! v = Some p ->
    defined_before v p (length l)).
  { induction suf as [|i suf IH]; intros pre m El Hm; cbn [fold_left].
    - rewrite app_nil_r in El. intros Hp. replace (length l) with (length pre) by by rewrite El. by apply Hm.
    - assert (Hi : l !! length pre = Some i) by (rewrite El; by apply list_lookup_middle).
      apply (IH (pre ++ [i])); [by rewrite <- app_assoc|]. rewrite length_app. cbn. intros x q Hp.
      apply insert_fold in Hp as [[Hv ->]|Hp].
      + exists (length pre), i. split_and!; [lia|done|done|by apply Hnum].
      + destruct (Hm x q Hp) as (d & i' & ? & ? & ? & ?). exists d, i'. split_and!; [lia|done..]. }
  apply (H l []); [done|]. intros x q Hq. by rewrite lookup_empty in Hq.
Qed.

End Block.

Lemma build_block_spec (b : nat) (ivs : list (option LiveInterval)) :
  b ∈ block_order f -> ok_vec n ivs ->
  widens n ivs (build_block f (dataflow f) ivs b) /\
  (forall k i v, block_insts (block f b) !! k = Some i -> live_before f v b k \/ v ∈ ids (vreg_defs (inst f i)) ->
    covered (build_block f (dataflow f) ivs b) v (inst_num f i)).
Proof.
  intros Hb Hok. destruct (block_numbers f Hwf b Hb) as (base & Hbase & Hroom & Hnum). unfold build_block.
  destruct (block_insts (block f b)) as [|first rest] eqn:El; [split; [by apply widens_refl|done]|].
  destruct (last (first :: rest)) as [lst|] eqn:Elast; [|by apply last_None in Elast].
  rewrite last_lookup in Elast. pose proof (Hnum 0%nat first eq_refl) as E0. rewrite Z.add_0_r in E0. rewrite E0.
  assert (Eend : wrap 32 (inst_num f lst + 1) = base + Z.of_nat (length (first :: rest))).
  { rewrite (Hnum _ _ Elast). cbn [length Nat.pred] in *. rewrite wrap_small; [lia|]. unfold uword. lia. }
  rewrite Eend. rewrite <- El in *. set (l := block_insts (block f b)) in *.
  set (ld := last_defs_in_block f (block f b)). set (out := live_out (dataflow f) !!! b).
  set (ivs1 := fold_left (live_out_step f ld base (base + Z.of_nat (length l))) (set_iter out) ivs).
  set (ivs2 := fold_left _ (set_iter (live_in (dataflow f) !!! b)) ivs1).
  assert (Hsteps : forall ivs x, x ∈ set_iter out -> ok_vec n ivs ->
    widens n ivs (live_out_step f ld base (base + Z.of_nat (length l)) ivs x)).
  { intros ivs0 x Hx Hok0. apply live_out_step_spec; [done|]. apply flow_ids in Hx; [|done]. by eapply live_before_id. }
  assert (G1 : widens n ivs ivs1) by (apply (fold_grows n); [exact Hsteps|done]).
  assert (G2 : widens n ivs1 ivs2).
  { apply (fold_grows n); [|apply G1]. intros ivs0 x Hx Hok0. apply live_in_step_grows; [done|].
    apply flow_ids in Hx; [|done]. by eapply live_before_id. }
  destruct (insts_fold_spec b Hb base Hbase Hroom Hnum l [] ivs2 ∅ eq_refl) as [G3 Hcov].
  { apply G2. } { intros v p Hp. by rewrite lookup_empty in Hp. }
  split; [by eapply widens_trans, widens_trans|]. intros k i v Hi Hv. rewrite (Hnum k i Hi).
  destruct Hv as [Hl|Hd]; [|exact (proj1 (Hcov k i v ltac:(cbn; lia) Hi) Hd)].
  destruct (live_split v b k Hl) as [(K & i' & HK & Hi' & Hu & Hun)|[Hun Ho]].
  - by apply (proj2 (Hcov K i' v ltac:(cbn; lia) Hi') k).
  - apply G3, G2. apply (fold_covers n (live_out_step f ld base (base + Z.of_nat (length l))) _ v); [done|done|by apply flow_ids|].
    intros ivs0 Hok0. apply live_out_step_spec; [done|by eapply live_before_id|].
    apply lookup_lt_Some in Hi. split; [|lia]. destruct (ld !! v) as [p|] eqn:Ep; cbn; [|lia].
    pose proof (defined_before_gap b base v p k _ (last_defs_defined b base Hnum v p Ep) Hun). lia.
Qed.

Lemma interval_vec_spec :
  ok_vec n (interval_vec f) /\
  (forall b k i v, b ∈ block_order f -> block_insts (block f b) !! k = Some i ->
    live_before f v b k \/ v ∈ ids (vreg_defs (inst f i)) -> covered (interval_vec f) v (inst_num f i)).
Proof.
  assert (H0 : ok_vec n (replicate n None)).
  { split; [apply length_replicate|]. intros k iv [Hk _]%lookup_replicate. done. }
  assert (Hs : forall ivs x, x ∈ block_order f -> ok_vec n ivs -> widens n ivs (build_block f (dataflow f) ivs x))
    by (intros; by apply build_block_spec).
  split; [by apply (fold_grows n _ (block_order f) (replicate n None))|].
  intros b k i v Hb Hi Hv. apply (fold_covers n _ (block_order f) b); [done|done|done|].
  intros ivs Hok. by apply (build_block_spec b ivs Hb Hok) with (k := k).
Qed.
End Cover.

(** ** The result *)

Lemma elem_of_entries {A} (l : list (option A)) (k : nat) (v : Z) (x : A) :
  (v, x) ∈ omap Datatypes.id (imap (fun j o => pair (Z.of_nat (k + j)) <$> o) l) <->
  exists j, v = Z.of_nat (k + j) /\ l !! j = Some (Some x).
Proof.
  revert k; induction l as [|o l IH]; intros k; cbn [imap].
  { cbn. rewrite elem_of_nil. split; [done|]. by intros (j & _ & Hj). }
  assert (E : imap ((fun j o => pair (Z.of_nat (k + j)) <$> o) ∘ S) l
              = imap (fun j (o : option A) => pair (Z.of_nat (S k + j)) <$> o) l).
  { apply imap_ext. intros j y _. cbn. by replace (k + S j)%nat with (S (k + j)) by lia. }
  rewrite E. specialize (IH (S k)). destruct o as [y|]; cbn [omap list_omap fmap option_fmap option_map Datatypes.id].
  - rewrite elem_of_cons. change (list_omap _ _ Datatypes.id) with (@omap list _ (Z * A) (Z * A) Datatypes.id). rewrite IH. split.
    + intros [[= -> ->]|(j & -> & Hj)]; [exists 0%nat; cbn; split; [f_equal; lia|done]|].
      exists (S j). split; [f_equal; lia|done].
    + intros ([|j] & -> & Hj); cbn in Hj; [left; injection Hj as ->; do 2 f_equal; lia|right].
      exists j. split; [f_equal; lia|done].
  - rewrite IH. split.
    + intros (j & -> & Hj). exists (S j). split; [f_equal; lia|done].
    + intros ([|j] & -> & Hj); cbn in Hj; [done|]. exists j. split; [f_equal; lia|done].
Qed.

Lemma elem_of_intervals (f : RegAllocFunction) (v : Z) (iv : LiveInterval) :
  (v, iv) ∈ intervals (compute_live_intervals f) <-> 0 <= v /\ interval_vec f !! Z.to_nat v = Some (Some iv).
Proof.
  cbn [intervals compute_live_intervals]. rewrite (elem_of_entries (interval_vec f) 0). split.
  - intros (j & -> & Hj). rewrite Nat2Z.id. split; [lia|done].
  - intros [Hv Hj]. exists (Z.to_nat v). split; [lia|done].
Qed.

Lemma entries_sorted {A} (l : list (option A)) (k : nat) :
  StronglySorted Z.lt (omap Datatypes.id (imap (fun j o => pair (Z.of_nat (k + j)) <$> o) l)).*1.
Proof.
  revert k; induction l as [|o l IH]; intros k; cbn [imap]; [constructor|].
  assert (E : imap ((fun j o => pair (Z.of_nat (k + j)) <$> o) ∘ S) l
              = imap (fun j (o : option A) => pair (Z.of_nat (S k + j)) <$> o) l).
  { apply imap_ext. intros j y _. cbn. by replace (k + S j)%nat with (S (k + j)) by lia. }
  rewrite E. specialize (IH (S k)). destruct o as [y|]; [|exact IH]. constructor; [exact IH|].
  apply Forall_forall. intros x ([z a] & -> & Hx)%list_elem_of_fmap_1. cbn [fst].
  apply (elem_of_entries l (S k)) in Hx as (j & -> & _). lia.
Qed.

Lemma intervals_ok (f : RegAllocFunction) (v : Z) (iv : LiveInterval) :
  wf_func f -> (v, iv) ∈ intervals (compute_live_intervals f) ->
  separated (ranges iv) /\ id (vreg iv) = v /\ is_fixed iv = false.
Proof.
  intros Hwf [Hv Hk]%elem_of_intervals. destruct (interval_vec_spec f Hwf) as [[_ Hok] _].
  destruct (Hok _ _ Hk) as (H1 & H2 & H3). split_and!; [done|lia|done].
Qed.

(** The interval of a register contains the number of every instruction before
    which it is live, or which defines it. *)
Lemma intervals_contain (f : RegAllocFunction) (b k i : nat) (v : Z) :
  wf_func f -> b ∈ block_order f -> block_insts (block f b) !! k = Some i ->
  live_before f v b k \/ v ∈ ids (vreg_defs (inst f i)) ->
  exists iv, (v, iv) ∈ intervals (compute_live_intervals f) /\ live iv (inst_num f i).
Proof.
  intros Hwf Hb Hi Hv. destruct (interval_vec_spec f Hwf) as [_ Hcov].
  destruct (Hcov b k i v Hb Hi Hv) as (iv & Hk & Hl). exists iv. split; [|done].
  apply elem_of_intervals. split; [|done]. destruct Hv as [Hl'|(x & Hx & <-)%elem_of_ids].
  - apply (live_before_id f Hwf v b k Hl' Hb).
  - eapply (inst_ids f Hwf b i); [done|by eapply list_elem_of_lookup_2|apply elem_of_app; by left].
Qed.

Lemma live_after_contained (f : RegAllocFunction) (b k i : nat) (v : Z) :
  wf_func f -> b ∈ block_order f -> block_insts (block f b) !! k = Some i -> live_before f v b (S k) ->
  exists iv, (v, iv) ∈ intervals (compute_live_intervals f) /\ live iv (inst_num f i).
Proof.
  intros Hwf Hb Hi Hl. eapply intervals_contain; [done|done|done|].
  destruct (decide (v ∈ ids (vreg_defs (inst f i)))) as [|Hd]; [by right|left]. by eapply live_skip.
Qed.

Lemma intervals_functional (f : RegAllocFunction) (v : Z) (iv iv' : LiveInterval) :
  (v, iv) ∈ intervals (compute_live_intervals f) -> (v, iv') ∈ intervals (compute_live_intervals f) -> iv = iv'.
Proof. rewrite !elem_of_intervals. intros [_ H] [_ H']. congruence. Qed.

(** C19: The intervals of a well-formed function are sorted, belong to the register
    they are filed under, and show every interference: a register that is live
    after an instruction and any register the instruction defines have intervals
    that [overlaps] reports as overlapping. *)
Theorem intervals_show_interference (f : RegAllocFunction) (b k i : nat) (v w : Z) :
  wf_func f -> b ∈ block_order f -> block_insts (block f b) !! k = Some i ->
  v ∈ ids (vreg_defs (inst f i)) -> live_before f w b (S k) ->
  exists iv iw,
    (v, iv) ∈ intervals (compute_live_intervals f) /\ (w, iw) ∈ intervals (compute_live_intervals f) /\
    separated (ranges iv) /\ separated (ranges iw) /\ id (vreg iv) = v /\ id (vreg iw) = w /\
    is_live_at iv (inst_num f i) = true /\ is_live_at iw (inst_num f i) = true /\ overlaps iv iw = true.
Proof.
  intros Hwf Hb Hi Hv Hw.
  destruct (intervals_contain f b k i v Hwf Hb Hi (or_intror Hv)) as (iv & Hiv & Lv).
  destruct (live_after_contained f b k i w Hwf Hb Hi Hw) as (iw & Hiw & Lw). exists iv, iw.
  destruct (intervals_ok f v iv Hwf Hiv) as (Sv & Iv & _), (intervals_ok f w iw Hwf Hiw) as (Sw & Iw & _).
  do 6 (split; [done|]). rewrite (is_live_at_spec iv), (is_live_at_spec iw), overlaps_spec by done. eauto.
Qed.

Lemma intervals_show_interference_witness :
  wf_func demo_func /\ live_before demo_func 0 1 2 /\
  exists iv iw, (2, iv) ∈ intervals (compute_live_intervals demo_func) /\
    (0, iw) ∈ intervals (compute_live_intervals demo_func) /\ overlaps iv iw = true.
Proof.
  assert (Hl : live_before demo_func 0 1 2).
  { eapply live_skip; [reflexivity|by vm_compute; inversion 1|]. eapply (live_succ demo_func 0 1%nat 1%nat); [left|].
    eapply live_use; [reflexivity|]. vm_compute. right. left. }
  split; [exact demo_func_wf|]. split; [exact Hl|].
  destruct (intervals_show_interference demo_func 1 1 3 2 0 demo_func_wf) as (iv & iw & Hv & Hw & H);
    [right; left|reflexivity|vm_compute; left|exact Hl|].
  exists iv, iw. split; [exact Hv|]. split; [exact Hw|]. apply H.
Defined.
