(* ===== verification/LinearScan.v ===== *)
(** * The linear-scan allocator ([crates/trust-cg-regalloc/src/linear_scan.rs]; the
      register aliases of [greedy.rs] and [x86_adapter.rs])

    The whole allocator as a state machine over intervals sorted by their start.
    Spill weights are a parameter: the proofs hold for every weight.  Vectors
    indexed by interval numbers are lists; [BTreeMap]s are finite maps. *)

From S2P Require Import Prelude Regs Liveness.
From Stdlib Require Import Floats.SpecFloat.
Local Open Scope Z_scope.

(** ** Aliasing of physical registers *)

Definition is_x86_preg (p : PReg) : bool :=
  within 512 527 (encoding p) || within 528 543 (encoding p) || within 544 559 (encoding p).

(** The register itself comes first. *)
Definition x86_preg_aliases (p : PReg) : list PReg :=
  if within 512 527 (encoding p) then [p; mkPReg (528 + (encoding p - 512))]
  else if within 528 543 (encoding p) then [p; mkPReg (512 + (encoding p - 528))]
  else [p].

Definition x86_pregs_overlap (a b : PReg) : bool :=
  bool_decide (a = b) || bool_decide (b ∈ x86_preg_aliases a).

Definition allocator_pregs_overlap (a b : PReg) : bool :=
  if is_x86_preg a || is_x86_preg b then x86_pregs_overlap a b else regs_overlap a b.

Definition aliasing_pregs (p : PReg) : list PReg :=
  let e := encoding p in
  let opts := omap (M := list) Datatypes.id in
  if is_x86_preg p then filter (fun a => a <> p) (x86_preg_aliases p)
  else if within 0 30 e then opts [gpr64_to_gpr32 p]
  else if within 32 62 e then opts [gpr32_to_gpr64 p]
  else if within 64 95 e then opts [fpr128_to_fpr64 p; fpr128_to_fpr32 p; fpr128_to_fpr16 p; fpr128_to_fpr8 p]
  else if within 96 127 e then
    match fpr64_to_fpr128 p with
    | Some v => v :: opts [fpr128_to_fpr32 v; fpr128_to_fpr16 v; fpr128_to_fpr8 v]
    | None => []
    end
  else if within 128 159 e then
    match fpr32_to_fpr128 p with
    | Some v => v :: opts [fpr128_to_fpr64 v; fpr128_to_fpr16 v; fpr128_to_fpr8 v]
    | None => []
    end
  else if within 165 196 e then
    let v := mkPReg (e - 101) in v :: opts [fpr128_to_fpr64 v; fpr128_to_fpr32 v; fpr128_to_fpr8 v]
  else if within 197 228 e then
    let v := mkPReg (e - 133) in v :: opts [fpr128_to_fpr64 v; fpr128_to_fpr32 v; fpr128_to_fpr16 v]
  else [].

(** ** The allocator *)

(** Error texts are left out. *)
Inductive AllocError := CannotSpillFixed | NoRegistersForClass (c : RegClass) | Failed | ValidationFailed.

Abbreviation Pools := (gmap RegClass (list PReg)) (only parsing).

Record LinearScan := mkScan {
  intervals : list LiveInterval;
  active : list nat;
  allocatable : Pools;
  allocation : gmap VReg PReg;
  spills : list VReg;
  free_regs : Pools;
  reserved_regs : gmap PReg (list Z);
  hints : gmap VReg (list PReg);
  hint_exempt : gmap (VReg * PReg) (list Z) }.

Definition with_free (s : LinearScan) (free : Pools) : LinearScan :=
  mkScan (intervals s) (active s) (allocatable s) (allocation s) (spills s) free (reserved_regs s) (hints s) (hint_exempt s).
Definition with_active (s : LinearScan) (a : list nat) : LinearScan :=
  mkScan (intervals s) a (allocatable s) (allocation s) (spills s) (free_regs s) (reserved_regs s) (hints s) (hint_exempt s).
Definition with_allocation (s : LinearScan) (m : gmap VReg PReg) : LinearScan :=
  mkScan (intervals s) (active s) (allocatable s) m (spills s) (free_regs s) (reserved_regs s) (hints s) (hint_exempt s).
Definition push_spill (s : LinearScan) (v : VReg) : LinearScan :=
  mkScan (intervals s) (active s) (allocatable s) (allocation s) (spills s ++ [v]) (free_regs s) (reserved_regs s) (hints s)
    (hint_exempt s).

(** [sort_by_key(|i| i.start())], a stable sort. *)
Fixpoint insert_by_start (x : LiveInterval) (l : list LiveInterval) : list LiveInterval :=
  match l with
  | [] => [x]
  | y :: l' => if interval_start x <=? interval_start y then x :: y :: l' else y :: insert_by_start x l'
  end.
Definition sort_by_start (l : list LiveInterval) : list LiveInterval := foldr insert_by_start [] l.

Definition new_with_reserved (ivs : list LiveInterval) (target_regs : Pools) (reserved : gmap PReg (list Z)) : LinearScan :=
  mkScan (sort_by_start ivs) [] target_regs ∅ [] target_regs reserved ∅ ∅.

Definition set_hints (s : LinearScan) (h : gmap VReg (list PReg)) (e : gmap (VReg * PReg) (list Z)) : LinearScan :=
  mkScan (intervals s) (active s) (allocatable s) (allocation s) (spills s) (free_regs s) (reserved_regs s) h e.

(** [iter().position(..)]. *)
Fixpoint position {A} (p : A -> bool) (l : list A) : option nat :=
  match l with
  | [] => None
  | x :: l => if p x then Some 0%nat else S <$> position p l
  end.

#[export] Instance LiveInterval_inhabited : Inhabited LiveInterval := populate (LiveInterval_new (mkVReg 0 Gpr64)).

Definition interval (s : LinearScan) (i : nat) : LiveInterval := intervals s !!! i.

(** [usize::MAX] stands for no exception. *)
Definition active_allocation_overlaps_except (s : LinearScan) (p : PReg) (except : option nat) : bool :=
  existsb (fun i =>
    if bool_decide (Some i = except) then false
    else match allocation s !! vreg (interval s i) with
         | Some q => allocator_pregs_overlap q p
         | None => false
         end) (active s).

Definition active_allocation_overlaps (s : LinearScan) (p : PReg) : bool :=
  active_allocation_overlaps_except s p None.

Definition return_preg_to_free_pool_if_unowned (s : LinearScan) (p : PReg) : LinearScan :=
  if active_allocation_overlaps s p then s
  else
    let c := preg_class p in
    match allocatable s !! c with
    | None => s
    | Some regs =>
        match position (fun q => bool_decide (q = p)) regs with
        | None => s
        | Some preferred_idx =>
            match free_regs s !! c with
            | None => s
            | Some pool =>
                if bool_decide (p ∈ pool) then s
                else
                  let insert_pos := position_or_len (fun existing =>
                    match position (fun q => bool_decide (q = existing)) regs with
                    | None => true
                    | Some idx => (preferred_idx <? idx)%nat
                    end) pool in
                  with_free s (<[c := insert_at insert_pos p pool]> (free_regs s))
            end
        end
    end.

Definition return_preg_and_aliases_to_free_pools (s : LinearScan) (p : PReg) : LinearScan :=
  fold_left return_preg_to_free_pool_if_unowned (aliasing_pregs p) (return_preg_to_free_pool_if_unowned s p).

Definition remove_aliases_from_free_pools (s : LinearScan) (p : PReg) : LinearScan :=
  fold_left (fun s a =>
    match free_regs s !! preg_class a with
    | Some pool => with_free s (<[preg_class a := filter (fun q => q <> a) pool]> (free_regs s))
    | None => s
    end) (aliasing_pregs p) s.

(** Expired intervals leave [active] before their registers are returned. *)
Definition expire_old_intervals (s : LinearScan) (pos : Z) : LinearScan :=
  let expired i := interval_end (interval s i) <=? pos in
  let freed := omap (fun i => allocation s !! vreg (interval s i)) (filter (fun i => expired i = true) (active s)) in
  fold_left return_preg_and_aliases_to_free_pools freed
    (with_active s (filter (fun i => expired i = false) (active s))).

Definition reserved_interferes_except (s : LinearScan) (i : nat) (p : PReg) (exempt : list Z) : bool :=
  existsb (fun e : PReg * list Z =>
    allocator_pregs_overlap e.1 p &&
    existsb (fun pos => is_live_at (interval s i) pos && negb (bool_decide (pos ∈ exempt))) e.2)
    (map_to_list (reserved_regs s)).

Definition reserved_interferes (s : LinearScan) (i : nat) (p : PReg) : bool :=
  existsb (fun e : PReg * list Z =>
    allocator_pregs_overlap e.1 p && existsb (fun pos => is_live_at (interval s i) pos) e.2)
    (map_to_list (reserved_regs s)).

(** Take the register at [pos] out of the pool of [c]. *)
Definition take_free (s : LinearScan) (c : RegClass) (pool : list PReg) (pos : nat) : option (PReg * LinearScan) :=
  p ← pool !! pos; Some (p, with_free s (<[c := delete pos pool]> (free_regs s))).

(** The loop over the hinted registers of the class. *)
Fixpoint try_hints (s : LinearScan) (i : nat) (c : RegClass) (hinted : list PReg) : option (PReg * LinearScan) :=
  match hinted with
  | [] => None
  | hint :: rest =>
      let exempt := default [] (hint_exempt s !! (vreg (interval s i), hint)) in
      match free_regs s !! c with
      | Some pool =>
          match position (fun p => bool_decide (p = hint)) pool with
          | Some pos =>
              if negb (reserved_interferes_except s i hint exempt) && negb (active_allocation_overlaps s hint)
              then take_free s c pool pos else try_hints s i c rest
          | None => try_hints s i c rest
          end
      | None => try_hints s i c rest
      end
  end.

Definition try_alloc_free_reg (s : LinearScan) (i : nat) (c : RegClass) : option (PReg * LinearScan) :=
  let hinted := filter (fun p => preg_class p = c) (default [] (hints s !! vreg (interval s i))) in
  match try_hints s i c hinted with
  | Some r => Some r
  | None =>
      pool ← free_regs s !! c;
      pos ← position (fun p => negb (reserved_interferes s i p) && negb (active_allocation_overlaps s p)) pool;
      take_free s c pool pos
  end.

Definition insert_active (s : LinearScan) (i : nat) : LinearScan :=
  let e := interval_end (interval s i) in
  let pos := position_or_len (fun j => e <? interval_end (interval s j)) (active s) in
  with_active s (insert_at pos i (active s)).

Section Scan.
Context (spill_weight : LiveInterval -> spec_float).

Definition Candidate : Type := nat * PReg * spec_float.

(** The inner loop over the active intervals for one candidate register. *)
Definition candidate_step (s : LinearScan) (p : PReg) (best : option Candidate) (a : nat) : option Candidate :=
  if is_fixed (interval s a) then best
  else
    match allocation s !! vreg (interval s a) with
    | None => best
    | Some q =>
        if negb (allocator_pregs_overlap q p) then best
        else if active_allocation_overlaps_except s p (Some a) then best
        else
          let w := spill_weight (interval s a) in
          match best with
          | None => Some (a, p, w)
          | Some b => if SFltb w b.2 then Some (a, p, w) else best
          end
    end.

Definition blocked_spill_candidate (s : LinearScan) (current : nat) : option Candidate :=
  regs ← allocatable s !! class (vreg (interval s current));
  fold_left (fun best p =>
    if reserved_interferes s current p then best else fold_left (candidate_step s p) (active s) best) regs None.

Definition allocate_blocked_reg (s : LinearScan) (current : nat) : AllocError + LinearScan :=
  let spill_current := inr (push_spill s (vreg (interval s current))) in
  match blocked_spill_candidate s current with
  | Some (spill_idx, p, w) =>
      if SFltb w (spill_weight (interval s current)) then
        let spill_vreg := vreg (interval s spill_idx) in
        match allocation s !! spill_vreg with
        | None => inl Failed
        | Some _ =>
            let s := push_spill (with_allocation s (delete spill_vreg (allocation s))) spill_vreg in
            let s := with_allocation s (<[vreg (interval s current) := p]> (allocation s)) in
            let s := remove_aliases_from_free_pools s p in
            let s := with_active s (filter (fun i => i <> spill_idx) (active s)) in
            inr (insert_active s current)
        end
      else spill_current
  | None => spill_current
  end.

(** One iteration of the main loop. *)
Definition allocate_step (s : LinearScan) (i : nat) : AllocError + LinearScan :=
  let s := expire_old_intervals s (interval_start (interval s i)) in
  if is_fixed (interval s i) then inr s
  else
    match try_alloc_free_reg s i (class (vreg (interval s i))) with
    | Some (p, s) =>
        let s := with_allocation s (<[vreg (interval s i) := p]> (allocation s)) in
        inr (insert_active (remove_aliases_from_free_pools s p) i)
    | None => allocate_blocked_reg s i
    end.

Fixpoint allocate_from (s : LinearScan) (todo : list nat) : AllocError + LinearScan :=
  match todo with
  | [] => inr s
  | i :: todo =>
      match allocate_step s i with
      | inl e => inl e
      | inr s => allocate_from s todo
      end
  end.

(** [allocate]; the result is read off the final state: [allocation], and
    [spilled_vregs] for [spills]. *)
Definition allocate (s : LinearScan) : AllocError + LinearScan :=
  allocate_from s (seq 0 (length (intervals s))).

End Scan.

(** The pools of the AArch64 configurations. *)
Definition pregs (l : list Z) : list PReg := mkPReg <$> l.
Definition aarch64_allocatable_regs : Pools :=
  <[Gpr64 := pregs (seqZ 0 8 ++ seqZ 9 7 ++ seqZ 19 10)]>
  (<[Gpr32 := pregs (seqZ 32 8 ++ seqZ 41 7 ++ seqZ 51 10)]>
  (<[Fpr128 := pregs (seqZ 64 8 ++ seqZ 82 14)]>
  (<[Fpr64 := pregs (seqZ 96 16 ++ seqZ 114 14)]>
  (<[Fpr32 := pregs (seqZ 128 16 ++ seqZ 146 14)]>
  (<[Fpr16 := pregs (seqZ 165 16 ++ seqZ 183 14)]> ∅))))).
