(* ===== verification/LinearScanSound.v ===== *)
(** * Linear scan is sound ([crates/trust-cg-regalloc/src/linear_scan.rs])

    The allocator returns for every input, places every interval in a register of
    its class or among the spills, keeps out of reserved registers, and gives
    registers that share no storage to intervals that overlap. *)

From S2P Require Import Prelude Regs Liveness LinearScan.
From Stdlib Require Import Floats.SpecFloat.
Local Open Scope Z_scope.

(** ** Overlap is symmetric *)

Lemma x86_aliases_sym (a b : PReg) : b ∈ x86_preg_aliases a -> a ∈ x86_preg_aliases b.
Proof.
  destruct a as [x], b as [y]. unfold x86_preg_aliases. cbn [encoding].
  assert (Hp : forall u v : Z, mkPReg u = mkPReg v <-> u = v) by (intros; split; congruence).
  case_ranges; rewrite ?elem_of_cons, ?Hp, ?elem_of_nil; lia.
Qed.

Lemma allocator_pregs_overlap_sym (a b : PReg) : allocator_pregs_overlap a b = allocator_pregs_overlap b a.
Proof.
  unfold allocator_pregs_overlap. rewrite (orb_comm (is_x86_preg b)).
  destruct (is_x86_preg a || is_x86_preg b); [|apply regs_overlap_sym].
  unfold x86_pregs_overlap. f_equal; apply bool_decide_ext; [naive_solver|].
  split; apply x86_aliases_sym.
Qed.

(** ** Pool operations *)

Definition pools_sub (target free : gmap RegClass (list PReg)) : Prop :=
  forall c pool p, free !! c = Some pool -> p ∈ pool -> exists regs, target !! c = Some regs /\ p ∈ regs.

(** [s'] differs from [s] in its pools only, which stay inside the target's. *)
Definition pool_op (s s' : LinearScan) : Prop :=
  exists free, s' = with_free s free /\
    (pools_sub (allocatable s) (free_regs s) -> pools_sub (allocatable s) free).

Lemma pool_op_refl s : pool_op s s.
Proof. exists (free_regs s). split; [by destruct s|done]. Qed.

Lemma pool_op_trans a b c : pool_op a b -> pool_op b c -> pool_op a c.
Proof. intros (f1 & -> & H1) (f2 & -> & H2). exists f2. split; [done|]. auto. Qed.

Lemma pool_op_fold {A} (g : LinearScan -> A -> LinearScan) (l : list A) s :
  (forall s x, pool_op s (g s x)) -> pool_op s (fold_left g l s).
Proof.
  intros Hg. revert s; induction l as [|x l IH]; intros s; cbn; [apply pool_op_refl|].
  eapply pool_op_trans; [apply Hg|apply IH].
Qed.

Lemma position_elem {A} (p : A -> bool) (l : list A) (k : nat) :
  position p l = Some k -> exists x, l !! k = Some x /\ p x = true.
Proof.
  revert k; induction l as [|x l IH]; intros k H; cbn in H; [done|]. destruct (p x) eqn:Ep.
  - injection H as <-. eauto.
  - destruct (position p l) as [j|]; [|done]. injection H as <-. apply IH. done.
Qed.

Lemma elem_of_insert_at {A} (k : nat) (x y : A) (l : list A) : y ∈ insert_at k x l <-> y = x \/ y ∈ l.
Proof.
  unfold insert_at. rewrite <- (take_drop k l) at 3. rewrite !elem_of_app, elem_of_cons. tauto.
Qed.

Lemma return_unowned_op (s : LinearScan) (p : PReg) : pool_op s (return_preg_to_free_pool_if_unowned s p).
Proof.
  unfold return_preg_to_free_pool_if_unowned. destruct (active_allocation_overlaps s p); [apply pool_op_refl|].
  destruct (allocatable s !! preg_class p) as [regs|] eqn:Er; [|apply pool_op_refl].
  destruct (position _ regs) as [k|] eqn:Ek; [|apply pool_op_refl].
  destruct (free_regs s !! preg_class p) as [pool|] eqn:Ep; [|apply pool_op_refl].
  case_bool_decide; [apply pool_op_refl|]. eexists. split; [done|]. intros Hsub c pool' q Hc Hq.
  apply lookup_insert_Some in Hc as [[<- <-]|[Hne Hc]]; [|by eapply Hsub].
  apply elem_of_insert_at in Hq as [->|Hq]; [|by eapply Hsub].
  apply position_elem in Ek as (x & Hx & ->%bool_decide_eq_true). exists regs. split; [done|].
  by eapply list_elem_of_lookup_2.
Qed.

Lemma return_aliases_op (s : LinearScan) (p : PReg) : pool_op s (return_preg_and_aliases_to_free_pools s p).
Proof.
  eapply pool_op_trans; [apply return_unowned_op|]. apply pool_op_fold. intros; apply return_unowned_op.
Qed.

Lemma remove_aliases_op (s : LinearScan) (p : PReg) : pool_op s (remove_aliases_from_free_pools s p).
Proof.
  apply pool_op_fold. intros s0 a. destruct (free_regs s0 !! preg_class a) as [pool|] eqn:Ep; [|apply pool_op_refl].
  eexists. split; [done|]. intros Hsub c pool' q Hc Hq.
  apply lookup_insert_Some in Hc as [[<- <-]|[Hne Hc]]; [|by eapply Hsub].
  apply list_elem_of_filter in Hq as [_ Hq]. by eapply Hsub.
Qed.

Lemma expire_op (s : LinearScan) (pos : Z) :
  pool_op (with_active s (filter (fun i => (interval_end (interval s i) <=? pos) = false) (active s)))
    (expire_old_intervals s pos).
Proof. apply pool_op_fold. intros; apply return_aliases_op. Qed.

(** ** Taking a register *)

Lemma active_free (s : LinearScan) (p q : PReg) (except : option nat) (a : nat) :
  active_allocation_overlaps_except s p except = false -> a ∈ active s -> Some a <> except ->
  allocation s !! vreg (interval s a) = Some q -> allocator_pregs_overlap q p = false.
Proof.
  intros H Ha Hne Hq. apply not_true_iff_false. intros Ho. apply not_true_iff_false in H. apply H.
  apply existsb_exists. exists a. split; [by apply list_elem_of_In|].
  rewrite bool_decide_false by done. by rewrite Hq.
Qed.

(** [p] is clear of every reservation inside the interval, up to the exemptions. *)
Definition reserved_clear (rsv : gmap PReg (list Z)) (iv : LiveInterval) (p : PReg) (exempt : list Z) : Prop :=
  forall r points pos, rsv !! r = Some points -> pos ∈ points -> allocator_pregs_overlap r p = true ->
  is_live_at iv pos = true -> pos ∈ exempt.

Lemma reserved_except_clear (s : LinearScan) (i : nat) (p : PReg) (exempt : list Z) :
  reserved_interferes_except s i p exempt = false -> reserved_clear (reserved_regs s) (interval s i) p exempt.
Proof.
  intros H r points pos Hr Hpos Ho Hl. destruct (decide (pos ∈ exempt)) as [|Hne]; [done|].
  apply not_true_iff_false in H. destruct H. apply existsb_exists. exists (r, points).
  split; [by apply list_elem_of_In, elem_of_map_to_list|]. cbn. rewrite Ho. cbn. apply existsb_exists. exists pos.
  split; [by apply list_elem_of_In|]. by rewrite Hl, bool_decide_false.
Qed.

Lemma reserved_interferes_clear (s : LinearScan) (i : nat) (p : PReg) (exempt : list Z) :
  reserved_interferes s i p = false -> reserved_clear (reserved_regs s) (interval s i) p exempt.
Proof.
  intros H r points pos Hr Hpos Ho Hl.
  apply not_true_iff_false in H. destruct H. apply existsb_exists. exists (r, points).
  split; [by apply list_elem_of_In, elem_of_map_to_list|]. cbn. rewrite Ho. cbn. apply existsb_exists. exists pos.
  split; [by apply list_elem_of_In|done].
Qed.

(** What both ways of choosing a free register guarantee. *)
Definition good_choice (s : LinearScan) (i : nat) (c : RegClass) (p : PReg) : Prop :=
  (exists pool, free_regs s !! c = Some pool /\ p ∈ pool) /\
  active_allocation_overlaps s p = false /\
  reserved_clear (reserved_regs s) (interval s i) p (default [] (hint_exempt s !! (vreg (interval s i), p))).

Lemma take_free_op (s s' : LinearScan) (c : RegClass) (pool : list PReg) (pos : nat) (p : PReg) :
  free_regs s !! c = Some pool -> take_free s c pool pos = Some (p, s') -> pool !! pos = Some p /\ pool_op s s'.
Proof.
  intros Hp H. unfold take_free in H. apply bind_Some in H as (q & Hq & [= <- <-]). split; [done|].
  eexists. split; [done|]. intros Hsub c' pool' x Hc Hx.
  apply lookup_insert_Some in Hc as [[<- <-]|[Hne Hc]]; [|by eapply Hsub].
  eapply Hsub; [done|]. eapply elem_of_submseteq; [exact Hx|]. apply sublist_submseteq, sublist_delete.
Qed.

Lemma try_hints_good (s s' : LinearScan) (i : nat) (c : RegClass) (hinted : list PReg) (p : PReg) :
  try_hints s i c hinted = Some (p, s') -> good_choice s i c p /\ pool_op s s'.
Proof.
  induction hinted as [|h rest IH]; intros H; cbn [try_hints] in H; [done|].
  destruct (free_regs s !! c) as [pool|] eqn:Ep; [|auto].
  destruct (position _ pool) as [pos|] eqn:Epos; [|auto].
  destruct (negb _ && negb _) eqn:Ec; [|auto].
  apply andb_true_iff in Ec as [H1%negb_true_iff H2%negb_true_iff].
  apply position_elem in Epos as (x & Hx & ->%bool_decide_eq_true).
  destruct (take_free_op _ _ _ _ _ _ Ep H) as [Hp Hop]. rewrite Hx in Hp. injection Hp as <-.
  split; [|done]. split_and!; [exists pool; split; [done|by eapply list_elem_of_lookup_2]|done|].
  by apply reserved_except_clear.
Qed.

Lemma try_alloc_good (s s' : LinearScan) (i : nat) (c : RegClass) (p : PReg) :
  try_alloc_free_reg s i c = Some (p, s') -> good_choice s i c p /\ pool_op s s'.
Proof.
  unfold try_alloc_free_reg. destruct (try_hints _ _ _ _) as [[q t]|] eqn:Eh.
  - intros [= <- <-]. by eapply try_hints_good.
  - intros (pool & Hpool & (pos & Hpos & H)%bind_Some)%bind_Some.
    apply position_elem in Hpos as (x & Hx & [H1%negb_true_iff H2%negb_true_iff]%andb_true_iff).
    destruct (take_free_op _ _ _ _ _ _ Hpool H) as [Hp Hop]. rewrite Hx in Hp. injection Hp as <-.
    split; [|done]. split_and!; [exists pool; split; [done|by eapply list_elem_of_lookup_2]|done|].
    by apply reserved_interferes_clear.
Qed.

(** ** The spill candidate *)

Section Candidate.
Context (spill_weight : LiveInterval -> spec_float) (s : LinearScan) (current : nat).

Definition good_candidate (a : nat) (p : PReg) : Prop :=
  a ∈ active s /\ (exists regs, allocatable s !! class (vreg (interval s current)) = Some regs /\ p ∈ regs) /\
  reserved_interferes s current p = false /\ active_allocation_overlaps_except s p (Some a) = false.

Lemma blocked_candidate_good (a : nat) (p : PReg) (w : spec_float) :
  blocked_spill_candidate spill_weight s current = Some (a, p, w) -> good_candidate a p.
Proof.
  unfold blocked_spill_candidate. intros (regs & Hregs & H)%bind_Some.
  set (ok := fun best : option Candidate => forall a p w, best = Some (a, p, w) -> good_candidate a p).
  assert (Hin : forall q l best, ok best -> (forall a, a ∈ l -> a ∈ active s) -> q ∈ regs ->
    reserved_interferes s current q = false -> ok (fold_left (candidate_step spill_weight s q) l best)).
  { intros q l. induction l as [|x l IH]; intros best Hok Hl Hq Hr; cbn [fold_left]; [done|].
    apply IH; [|intros; apply Hl; by right|done|done]. unfold candidate_step.
    destruct (is_fixed _); [done|]. destruct (allocation s !! _) as [y|]; [|done].
    destruct (negb _); [done|]. destruct (active_allocation_overlaps_except s q (Some x)) eqn:Ea; [done|].
    assert (Hnew : ok (Some (x, q, spill_weight (interval s x)))).
    { intros ? ? ? [= <- <- _]. split_and!; [apply Hl; left|eauto|done|done]. }
    destruct best as [b|]; [|done]. by destruct (SFltb _ _). }
  assert (Hout : forall l best, ok best -> (forall q, q ∈ l -> q ∈ regs) -> ok (fold_left (fun best p =>
    if reserved_interferes s current p then best else fold_left (candidate_step spill_weight s p) (active s) best) l best)).
  { induction l as [|q l IH]; intros best Hok Hl; cbn [fold_left]; [done|].
    apply IH; [|intros; apply Hl; by right]. destruct (reserved_interferes s current q) eqn:Er; [done|].
    apply Hin; [done|done|apply Hl; left|done]. }
  apply (Hout regs None ltac:(done) ltac:(done) a p w). done.
Qed.
End Candidate.

(** ** The invariant of the scan *)

Lemma live_bounds (iv : LiveInterval) (idx : Z) :
  separated (ranges iv) -> live iv idx -> interval_start iv <= idx < interval_end iv.
Proof.
  intros Hs Hl. unfold interval_start, interval_end. pose proof Hl as (r & Hr & _).
  destruct (head (ranges iv)) as [a|] eqn:Ea; [|destruct (ranges iv); [by apply elem_of_nil in Hr|done]].
  destruct (last (ranges iv)) as [b|] eqn:Eb; [|apply last_None in Eb; rewrite Eb in Hr; by apply elem_of_nil in Hr].
  by eapply ends_bound.
Qed.

Section Invariant.
Context (ivs : list LiveInterval) (target : gmap RegClass (list PReg)) (rsv : gmap PReg (list Z)).
Context (exempt : gmap (VReg * PReg) (list Z)).
Context (Hsep : forall i iv, ivs !! i = Some iv -> separated (ranges iv)).
Context (Hdistinct : forall i j x y, ivs !! i = Some x -> ivs !! j = Some y -> vreg x = vreg y -> i = j).
Context (Hsorted : forall i j x y, (i <= j)%nat -> ivs !! i = Some x -> ivs !! j = Some y -> interval_start x <= interval_start y).

Definition placed (iv : LiveInterval) (p : PReg) : Prop :=
  is_fixed iv = false /\ (exists regs, target !! class (vreg iv) = Some regs /\ p ∈ regs) /\
  reserved_clear rsv iv p (default [] (exempt !! (vreg iv, p))).

(** After the first [i] intervals. *)
Record scanned (i : nat) (s : LinearScan) : Prop := mkScanned {
  sc_env : intervals s = ivs /\ allocatable s = target /\ reserved_regs s = rsv /\ hint_exempt s = exempt;
  sc_pools : pools_sub target (free_regs s);
  sc_active : forall a, a ∈ active s -> (a < i)%nat /\ exists iv p, ivs !! a = Some iv /\ allocation s !! vreg iv = Some p;
  sc_nodup : NoDup (active s);
  sc_retired : forall j x p k y, (j < i <= k)%nat -> ivs !! j = Some x -> ivs !! k = Some y ->
    allocation s !! vreg x = Some p -> j ∈ active s \/ interval_end x <= interval_start y;
  sc_pairs : forall j k x y p q, (j < i)%nat -> (k < i)%nat -> j <> k -> ivs !! j = Some x -> ivs !! k = Some y ->
    allocation s !! vreg x = Some p -> allocation s !! vreg y = Some q -> overlaps x y = true ->
    allocator_pregs_overlap p q = false;
  sc_dom : forall v p, allocation s !! v = Some p -> exists j x, (j < i)%nat /\ ivs !! j = Some x /\ vreg x = v /\ placed x p;
  sc_spills : forall v, v ∈ spills s -> allocation s !! v = None /\
    exists j x, (j < i)%nat /\ ivs !! j = Some x /\ vreg x = v /\ is_fixed x = false;
  sc_total : forall j x, (j < i)%nat -> ivs !! j = Some x -> is_fixed x = false ->
    is_Some (allocation s !! vreg x) \/ vreg x ∈ spills s;
  sc_once : NoDup (spills s) }.

Lemma interval_lookup (i : nat) (s : LinearScan) (iv : LiveInterval) :
  intervals s = ivs -> ivs !! i = Some iv -> interval s i = iv.
Proof. intros E H. unfold interval. rewrite E. by apply list_lookup_total_correct. Qed.

Lemma fresh_vreg (i : nat) (s : LinearScan) (iv : LiveInterval) :
  scanned i s -> ivs !! i = Some iv -> allocation s !! vreg iv = None /\ vreg iv ∉ spills s.
Proof.
  intros Hs Hi. split.
  - destruct (allocation s !! vreg iv) as [p|] eqn:E; [|done].
    destruct (sc_dom i s Hs _ _ E) as (j & x & Hj & Hx & Ev & _). pose proof (Hdistinct _ _ _ _ Hx Hi Ev). lia.
  - intros Hin. destruct (sc_spills i s Hs _ Hin) as (_ & j & x & Hj & Hx & Ev & _).
    pose proof (Hdistinct _ _ _ _ Hx Hi Ev). lia.
Qed.

Lemma scanned_pools (i : nat) (s s' : LinearScan) : scanned i s -> pool_op s s' -> scanned i s'.
Proof.
  intros [Henv ? ? ? ? ? ? ? ? ?] (free & -> & Hf). split; cbn; try done.
  destruct Henv as (_ & E & _). rewrite E in Hf. auto.
Qed.

Lemma retired_apart (x y : LiveInterval) :
  separated (ranges x) -> separated (ranges y) -> interval_end x <= interval_start y -> overlaps x y = false.
Proof.
  intros Hx Hy He. apply not_true_iff_false. rewrite overlaps_spec by done. intros (idx & H1 & H2).
  pose proof (live_bounds _ _ Hx H1). pose proof (live_bounds _ _ Hy H2). lia.
Qed.

(** Expiring leaves only intervals that end after the current start. *)
Lemma scanned_expire (i : nat) (s : LinearScan) (iv : LiveInterval) :
  scanned i s -> ivs !! i = Some iv -> scanned i (expire_old_intervals s (interval_start iv)).
Proof.
  intros Hs Hi. eapply scanned_pools; [|apply expire_op]. pose proof (proj1 (sc_env i s Hs)) as Eivs.
  destruct Hs as [Henv Hp Ha Hnd Hret Hpairs Hdom Hsp Htot Honce]. split; cbn; try done.
  - intros a [_ Hin]%list_elem_of_filter. by apply Ha.
  - by apply NoDup_filter.
  - intros j x p k y Hj Hx Hy Hal. destruct (Hret j x p k y Hj Hx Hy Hal) as [Hin|]; [|by right].
    destruct (Z.leb_spec (interval_end x) (interval_start iv)) as [Hle|Hgt].
    + right. pose proof (Hsorted i k iv y ltac:(lia) Hi Hy). lia.
    + left. apply list_elem_of_filter. split; [|done]. rewrite (interval_lookup j s x) by done. by apply Z.leb_gt.
Qed.

(** An interval that gets no register. *)
Lemma scanned_skip (i : nat) (s s' : LinearScan) (iv : LiveInterval) :
  scanned i s -> ivs !! i = Some iv ->
  intervals s' = intervals s -> allocatable s' = allocatable s -> reserved_regs s' = reserved_regs s ->
  hint_exempt s' = hint_exempt s -> free_regs s' = free_regs s -> active s' = active s -> allocation s' = allocation s ->
  (forall v, v ∈ spills s' <-> v ∈ spills s \/ (is_fixed iv = false /\ v = vreg iv)) -> NoDup (spills s') -> scanned (S i) s'.
Proof.
  intros Hs Hi E1 E2 E3 E4 E5 E6 E7 E8 Honce'. pose proof (fresh_vreg i s iv Hs Hi) as [Hfr _].
  destruct Hs as [Henv Hp Ha Hnd Hret Hpairs Hdom Hsp Htot Honce].
  assert (Hnew : forall x, ivs !! i = Some x -> x = iv) by (intros; congruence).
  split; rewrite ?E1, ?E2, ?E3, ?E4, ?E5, ?E6, ?E7; try done.
  - intros a Hin. destruct (Ha a Hin) as [? ?]. split; [lia|done].
  - intros j x p k y Hj Hx Hy Hal. destruct (decide (j = i)) as [->|]; [rewrite (Hnew x Hx), Hfr in Hal; done|].
    apply (Hret j x p k y); [lia|done..].
  - intros j k x y p q Hj Hk Hne Hx Hy Hal Hal'.
    destruct (decide (j = i)) as [->|]; [rewrite (Hnew x Hx), Hfr in Hal; done|].
    destruct (decide (k = i)) as [->|]; [rewrite (Hnew y Hy), Hfr in Hal'; done|].
    apply (Hpairs j k x y p q); [lia|lia|done..].
  - intros v p Hal. destruct (Hdom v p Hal) as (j & x & Hj & H). exists j, x. split; [lia|done].
  - intros v [Hv|[Hf ->]]%E8.
    + destruct (Hsp v Hv) as (H & j & x & Hj & H'). split; [done|]. exists j, x. split; [lia|done].
    + split; [done|]. exists i, iv. split; [lia|done].
  - intros j x Hj Hx Hf. rewrite E8. destruct (decide (j = i)) as [->|].
    + rewrite (Hnew x Hx) in *. right; right. done.
    + destruct (Htot j x ltac:(lia) Hx Hf) as [|]; [by left|by right; left].
Qed.

(** An interval that gets the register [p]. *)
Lemma scanned_assign (i : nat) (s s' : LinearScan) (iv : LiveInterval) (p : PReg) :
  scanned i s -> ivs !! i = Some iv -> placed iv p ->
  (forall a x q, a ∈ active s -> ivs !! a = Some x -> allocation s !! vreg x = Some q -> allocator_pregs_overlap q p = false) ->
  intervals s' = intervals s -> allocatable s' = allocatable s -> reserved_regs s' = reserved_regs s ->
  hint_exempt s' = hint_exempt s -> spills s' = spills s -> pools_sub target (free_regs s') ->
  (forall a, a ∈ active s' <-> a = i \/ a ∈ active s) -> NoDup (active s') ->
  allocation s' = <[vreg iv := p]> (allocation s) -> scanned (S i) s'.
Proof.
  intros Hs Hi Hplaced Hclear E1 E2 E3 E4 E5 Hpool Hact Hnd' E6. pose proof (fresh_vreg i s iv Hs Hi) as [Hfr Hfs].
  destruct Hs as [Henv Hp Ha Hnd Hret Hpairs Hdom Hsp Htot Honce].
  assert (Hnew : forall x, ivs !! i = Some x -> x = iv) by (intros; congruence).
  assert (Hold : forall j x, j <> i -> ivs !! j = Some x -> allocation s' !! vreg x = allocation s !! vreg x).
  { intros j x Hne Hx. rewrite E6. apply lookup_insert_ne. intros E. apply Hne. symmetry. by apply (Hdistinct i j iv x). }
  assert (Hcur : allocation s' !! vreg iv = Some p) by (rewrite E6; apply lookup_insert_eq).
  assert (Hnewpair : forall j x q, (j < i)%nat -> ivs !! j = Some x -> allocation s !! vreg x = Some q ->
    overlaps x iv = true -> allocator_pregs_overlap q p = false).
  { intros j x q Hj Hx Hal Ho. destruct (Hret j x q i iv ltac:(lia) Hx Hi Hal) as [Hin|He]; [eauto|].
    rewrite retired_apart in Ho by eauto. done. }
  split; rewrite ?E1, ?E2, ?E3, ?E4, ?E5; try done.
  - intros a [->|Hin]%Hact; [split; [lia|]; eauto|]. destruct (Ha a Hin) as (Hlt & x & q & Hx & Hq). split; [lia|].
    exists x, q. split; [done|]. by rewrite (Hold a) by (done || lia).
  - intros j x q k y Hj Hx Hy Hal. destruct (decide (j = i)) as [->|Hne]; [left; apply Hact; by left|].
    rewrite (Hold j) in Hal by done. destruct (Hret j x q k y ltac:(lia) Hx Hy Hal); [left; apply Hact; by right|by right].
  - intros j k x y p1 p2 Hj Hk Hne Hx Hy Hal Hal' Ho.
    destruct (decide (j = i)) as [->|Hji]; [|destruct (decide (k = i)) as [->|Hki]].
    + rewrite (Hnew x Hx) in *. rewrite Hcur in Hal. injection Hal as <-. rewrite (Hold k) in Hal' by done.
      rewrite allocator_pregs_overlap_sym. apply (Hnewpair k y p2); [lia|done|done|].
      rewrite overlaps_spec in Ho |- * by eauto. naive_solver.
    + rewrite (Hnew y Hy) in *. rewrite Hcur in Hal'. injection Hal' as <-. rewrite (Hold j) in Hal by done.
      apply (Hnewpair j x p1); [lia|done..].
    + rewrite (Hold j) in Hal by done. rewrite (Hold k) in Hal' by done.
      apply (Hpairs j k x y p1 p2); [lia|lia|done..].
  - intros v q Hal. rewrite E6 in Hal. apply lookup_insert_Some in Hal as [[<- <-]|[Hne Hal]].
    + exists i, iv. split; [lia|done].
    + destruct (Hdom v q Hal) as (j & x & Hj & H). exists j, x. split; [lia|done].
  - intros v Hv. destruct (Hsp v Hv) as (H & j & x & Hj & Hx & <- & Hf). split; [|exists j, x; split; [lia|done]].
    by rewrite (Hold j) by (done || lia).
  - intros j x Hj Hx Hf. destruct (decide (j = i)) as [->|Hne]; [rewrite (Hnew x Hx); left; eauto|].
    rewrite (Hold j) by done. apply (Htot j x); [lia|done|done].
Qed.

(** An active interval that loses its register. *)
Lemma scanned_drop (i a : nat) (s s' : LinearScan) (x : LiveInterval) (p : PReg) :
  scanned i s -> a ∈ active s -> ivs !! a = Some x -> allocation s !! vreg x = Some p ->
  intervals s' = intervals s -> allocatable s' = allocatable s -> reserved_regs s' = reserved_regs s ->
  hint_exempt s' = hint_exempt s -> free_regs s' = free_regs s -> spills s' = spills s ++ [vreg x] ->
  active s' = filter (fun j => j <> a) (active s) -> allocation s' = delete (vreg x) (allocation s) -> scanned i s'.
Proof.
  intros Hs Ha Hx Hal E1 E2 E3 E4 E5 E6 E7 E8. destruct Hs as [Henv Hp Hact Hnd Hret Hpairs Hdom Hsp Htot Honce].
  assert (Hkeep : forall v q, allocation s' !! v = Some q -> allocation s !! v = Some q /\ v <> vreg x).
  { intros v q Hv. rewrite E8 in Hv. apply lookup_delete_Some in Hv as [Hne Hv]. auto. }
  split; rewrite ?E1, ?E2, ?E3, ?E4, ?E5; try done.
  - intros b Hin. rewrite E7 in Hin. apply list_elem_of_filter in Hin as [Hne Hin].
    destruct (Hact b Hin) as (Hlt & y & q & Hy & Hq). split; [done|]. exists y, q. split; [done|].
    rewrite E8, lookup_delete_ne; [done|]. intros E. by pose proof (Hdistinct a b x y Hx Hy E).
  - rewrite E7. by apply NoDup_filter.
  - intros j y q k z Hj Hy Hz [Hq Hne]%Hkeep. destruct (Hret j y q k z Hj Hy Hz Hq) as [Hin|]; [left|by right].
    rewrite E7. apply list_elem_of_filter. split; [|done]. intros ->. apply Hne. congruence.
  - intros j k y z q r Hj Hk Hne Hy Hz [Hq _]%Hkeep [Hr _]%Hkeep. by apply (Hpairs j k y z).
  - intros v q [Hq _]%Hkeep. by apply Hdom.
  - intros v Hv. rewrite E6 in Hv. apply elem_of_app in Hv as [Hv| ->%list_elem_of_singleton].
    + destruct (Hsp v Hv) as [Hn H]. split; [|done]. rewrite E8. by apply lookup_delete_None; right.
    + rewrite E8, lookup_delete_eq. split; [done|]. exists a, x. split_and!; [by apply Hact|done|done|].
      destruct (Hdom _ _ Hal) as (j & y & _ & Hy & Ey & Hf & _). assert (j = a) as -> by by apply (Hdistinct j a y x). congruence.
  - intros j y Hj Hy Hf. rewrite E6, elem_of_app. destruct (decide (j = a)) as [->|Hne].
    + right; right. assert (y = x) as -> by congruence. left.
    + destruct (Htot j y Hj Hy Hf) as [H|H]; [left|by right; left]. rewrite E8, lookup_delete_ne; [done|].
      intros E. by pose proof (Hdistinct a j x y Hx Hy E).
  - rewrite E6. apply NoDup_app. split_and!; [done| |apply NoDup_singleton]. intros v Hv ->%list_elem_of_singleton.
    destruct (Hsp _ Hv) as [Hn _]. congruence.
Qed.

Lemma NoDup_insert_at {A} (k : nat) (x : A) (l : list A) : NoDup l -> x ∉ l -> NoDup (insert_at k x l).
Proof.
  intros Hnd Hx. unfold insert_at. rewrite <- (take_drop k l) in Hnd, Hx. apply NoDup_app in Hnd as (H1 & H2 & H3).
  rewrite elem_of_app in Hx. apply NoDup_app. split_and!; [done| |].
  - intros y Hy. rewrite elem_of_cons. intros [->|?]; [tauto|by eapply H2].
  - apply NoDup_cons. split; [tauto|done].
Qed.

(** The common end of both ways to place an interval. *)
Lemma scanned_place (i : nat) (s s' : LinearScan) (iv : LiveInterval) (p : PReg) :
  scanned i s -> ivs !! i = Some iv -> placed iv p ->
  (forall a x q, a ∈ active s -> ivs !! a = Some x -> allocation s !! vreg x = Some q -> allocator_pregs_overlap q p = false) ->
  pool_op (with_allocation s (<[vreg iv := p]> (allocation s))) s' -> scanned (S i) (insert_active s' i).
Proof.
  intros Hs Hi Hpl Hcl (free & -> & Hf). pose proof (sc_env i s Hs) as (E & Et & _).
  apply (scanned_assign i s _ iv p); try done; cbn.
  - cbn in Hf. rewrite Et in Hf. apply Hf, (sc_pools i s Hs).
  - intros a. apply elem_of_insert_at.
  - apply NoDup_insert_at; [apply (sc_nodup i s Hs)|]. intros Hin. apply (sc_active i s Hs) in Hin as [Hlt _]. lia.
Qed.

Lemma blocked_step (w : LiveInterval -> spec_float) (i : nat) (s : LinearScan) (iv : LiveInterval) :
  scanned i s -> ivs !! i = Some iv -> is_fixed iv = false ->
  exists s', allocate_blocked_reg w s i = inr s' /\ scanned (S i) s'.
Proof.
  intros Hs Hi Hf. pose proof (sc_env i s Hs) as (E & Et & Er & Ex). pose proof (interval_lookup i s iv E Hi) as Eiv.
  assert (Hspill : scanned (S i) (push_spill s (vreg iv))).
  { apply (scanned_skip i s _ iv); try done.
    - intros v. cbn. rewrite elem_of_app, list_elem_of_singleton. tauto.
    - cbn. apply NoDup_app. split_and!; [apply (sc_once i s Hs)| |apply NoDup_singleton]. intros v Hv ->%list_elem_of_singleton.
      by apply (fresh_vreg i s iv Hs Hi). }
  unfold allocate_blocked_reg. rewrite Eiv. destruct (blocked_spill_candidate w s i) as [[[a p] wa]|] eqn:Ec; [|eauto].
  destruct (SFltb wa (w iv)); [|eauto].
  apply blocked_candidate_good in Ec as (Ha & Hregs & Hres & Hover). rewrite Eiv, Et in Hregs.
  destruct (sc_active i s Hs a Ha) as (Hlt & x & q & Hx & Hq).
  rewrite (interval_lookup a s x E Hx). rewrite Hq. eexists. split; [done|].
  set (s2 := mkScan (intervals s) (filter (fun j => j <> a) (active s)) (allocatable s) (delete (vreg x) (allocation s))
    (spills s ++ [vreg x]) (free_regs s) (reserved_regs s) (hints s) (hint_exempt s)).
  assert (Hs2 : scanned i s2) by by apply (scanned_drop i a s s2 x q).
  assert (Hiv2 : interval (push_spill (with_allocation s (delete (vreg x) (allocation s))) (vreg x)) i = iv) by exact Eiv.
  rewrite Hiv2. apply (scanned_place i s2 _ iv p); [done|done| | |].
  - split_and!; [done|done|]. rewrite <- Er, <- Eiv at 1. rewrite <- Eiv. by apply reserved_interferes_clear.
  - intros b y r [Hne Hin]%list_elem_of_filter Hy Hal. cbn in Hal. apply lookup_delete_Some in Hal as [_ Hal].
    apply (active_free s p r (Some a) b); [done|done|congruence|]. by rewrite (interval_lookup b s y E Hy).
  - set (t := with_allocation (push_spill _ _) _). destruct (remove_aliases_op t p) as (free & -> & Hfree).
    exists free. split; [done|]. exact Hfree.
Qed.

Lemma allocate_step_spec (w : LiveInterval -> spec_float) (i : nat) (s : LinearScan) (iv : LiveInterval) :
  scanned i s -> ivs !! i = Some iv -> exists s', allocate_step w s i = inr s' /\ scanned (S i) s'.
Proof.
  intros Hs0 Hi. unfold allocate_step. rewrite (interval_lookup i s iv (proj1 (sc_env i s Hs0)) Hi).
  pose proof (scanned_expire i s iv Hs0 Hi) as Hs. generalize dependent (expire_old_intervals s (interval_start iv)).
  clear s Hs0. intros s Hs. pose proof (sc_env i s Hs) as (E & Et & Er & Ex).
  rewrite (interval_lookup i s iv E Hi). destruct (is_fixed iv) eqn:Hf.
  { exists s. split; [done|]. apply (scanned_skip i s _ iv); try done; [|apply (sc_once i s Hs)]. intros v. rewrite Hf. naive_solver. }
  destruct (try_alloc_free_reg s i (class (vreg iv))) as [[p s2]|] eqn:Etry; [|by apply (blocked_step w i s iv)].
  apply try_alloc_good in Etry as (((pool & Hpool & Hin) & Hact & Hres) & Hop).
  pose proof (scanned_pools i s s2 Hs Hop) as Hs2. pose proof (proj1 (sc_env i s2 Hs2)) as E2.
  rewrite (interval_lookup i s2 iv E2 Hi). eexists. split; [done|].
  apply (scanned_place i s2 _ iv p); [done|done| | |apply remove_aliases_op].
  - split_and!; [done|by eapply (sc_pools i s Hs)|]. rewrite (interval_lookup i s iv E Hi), Er, Ex in Hres. done.
  - destruct Hop as (free & -> & _). cbn. intros a x q Ha Hx Hal.
    apply (active_free s p q None a); [done|done|done|]. by rewrite (interval_lookup a s x E Hx).
Qed.

Lemma allocate_from_spec (w : LiveInterval -> spec_float) (n i : nat) (s : LinearScan) :
  scanned i s -> (i + n = length ivs)%nat ->
  exists s', allocate_from w s (seq i n) = inr s' /\ scanned (length ivs) s'.
Proof.
  revert i s; induction n as [|n IH]; intros i s Hs Hn; cbn [seq allocate_from].
  - exists s. split; [done|]. by replace (length ivs) with i by lia.
  - destruct (lookup_lt_is_Some_2 ivs i ltac:(lia)) as [iv Hi].
    destruct (allocate_step_spec w i s iv Hs Hi) as (s' & -> & Hs'). apply IH; [done|lia].
Qed.
End Invariant.

(** ** Sorting by start *)

Lemma insert_by_start_perm (x : LiveInterval) (l : list LiveInterval) : insert_by_start x l ≡ₚ x :: l.
Proof.
  induction l as [|y l IH]; cbn; [done|]. destruct (_ <=? _); [done|]. rewrite IH. apply Permutation_swap.
Qed.

Lemma sort_by_start_perm (l : list LiveInterval) : sort_by_start l ≡ₚ l.
Proof. induction l as [|x l IH]; cbn; [done|]. rewrite insert_by_start_perm. by constructor. Qed.

Lemma insert_by_start_sorted (x : LiveInterval) (l : list LiveInterval) :
  StronglySorted (fun a b => interval_start a <= interval_start b) l ->
  StronglySorted (fun a b => interval_start a <= interval_start b) (insert_by_start x l).
Proof.
  induction 1 as [|y l Hs IH Hall]; cbn; [repeat constructor|].
  destruct (Z.leb_spec (interval_start x) (interval_start y)).
  - constructor; [by constructor|]. constructor; [done|]. eapply Forall_impl; [done|]. cbn. lia.
  - constructor; [done|]. rewrite insert_by_start_perm. constructor; [lia|done].
Qed.

Lemma sort_by_start_sorted (l : list LiveInterval) :
  StronglySorted (fun a b => interval_start a <= interval_start b) (sort_by_start l).
Proof. induction l as [|x l IH]; cbn; [constructor|by apply insert_by_start_sorted]. Qed.

Lemma sorted_lookup {A} (R : A -> A -> Prop) (l : list A) (i j : nat) (x y : A) :
  (forall z, R z z) -> StronglySorted R l -> (i <= j)%nat -> l !! i = Some x -> l !! j = Some y -> R x y.
Proof.
  intros Hr Hs. revert i j; induction Hs as [|z l Hs IH Hall]; intros i j Hij Hx Hy; [done|].
  destruct i as [|i], j as [|j]; cbn in *; try lia.
  - simplify_eq. apply Hr.
  - simplify_eq. rewrite Forall_forall in Hall. by eapply Hall, list_elem_of_lookup_2.
  - apply (IH i j); [lia|done|done].
Qed.

(** ** Soundness *)

Lemma sorted_distinct (ivs : list LiveInterval) : NoDup (vreg <$> ivs) ->
  forall i j x y, sort_by_start ivs !! i = Some x -> sort_by_start ivs !! j = Some y -> vreg x = vreg y -> i = j.
Proof.
  intros Hnd i j x y Hx Hy E. rewrite <- (sort_by_start_perm ivs) in Hnd.
  eapply (NoDup_lookup (vreg <$> sort_by_start ivs)); [done| |].
  - rewrite list_lookup_fmap, Hx. cbn. done.
  - rewrite list_lookup_fmap, Hy. cbn. by rewrite E.
Qed.

Lemma allocate_spec (w : LiveInterval -> spec_float) (ivs : list LiveInterval) (target : gmap RegClass (list PReg))
    (rsv : gmap PReg (list Z)) (h : gmap VReg (list PReg)) (exempt : gmap (VReg * PReg) (list Z)) :
  (forall iv, iv ∈ ivs -> separated (ranges iv)) -> NoDup (vreg <$> ivs) ->
  exists s, allocate w (set_hints (new_with_reserved ivs target rsv) h exempt) = inr s /\
    scanned (sort_by_start ivs) target rsv exempt (length (sort_by_start ivs)) s.
Proof.
  intros Hsep Hnd. pose proof (sort_by_start_perm ivs) as Hperm.
  assert (Hel : forall i x, sort_by_start ivs !! i = Some x -> x ∈ ivs).
  { intros i x Hx%list_elem_of_lookup_2. by rewrite Hperm in Hx. }
  unfold allocate. cbn [intervals set_hints new_with_reserved].
  apply allocate_from_spec; [eauto| | | |lia].
  - by apply sorted_distinct.
  - intros i j x y Hij Hx Hy.
    apply (sorted_lookup (fun a b => interval_start a <= interval_start b) (sort_by_start ivs) i j); [lia| |done..].
    apply sort_by_start_sorted.
  - split; cbn; try done; try lia.
    + intros c pool p Hc Hp. eauto.
    + intros a Ha. by apply elem_of_nil in Ha.
    + apply NoDup_nil_2.
    + intros v Hv. by apply elem_of_nil in Hv.
    + apply NoDup_nil_2.
Qed.

Lemma in_sorted (ivs : list LiveInterval) (x : LiveInterval) :
  x ∈ ivs -> exists i, (i < length (sort_by_start ivs))%nat /\ sort_by_start ivs !! i = Some x.
Proof.
  intros Hx. rewrite <- (sort_by_start_perm ivs) in Hx. apply list_elem_of_lookup in Hx as [i Hi].
  exists i. split; [|done]. by apply lookup_lt_Some in Hi.
Qed.

(** C17: Linear scan on intervals of distinct registers with separated ranges always
    succeeds and its allocation is sound, for every weight, pool, reservation and hint.  Intervals that overlap never get
    registers that share storage; a register comes from the pool of the interval's
    class and is reserved nowhere in the interval, except at the copies exempted
    for this very register; every interval that is not fixed is either
    allocated or spilled, never both; and a fixed interval is neither. *)
Theorem linear_scan_sound (w : LiveInterval -> spec_float) (ivs : list LiveInterval)
    (target : gmap RegClass (list PReg)) (rsv : gmap PReg (list Z)) (h : gmap VReg (list PReg))
    (exempt : gmap (VReg * PReg) (list Z)) :
  (forall iv, iv ∈ ivs -> separated (ranges iv)) -> NoDup (vreg <$> ivs) ->
  exists s, allocate w (set_hints (new_with_reserved ivs target rsv) h exempt) = inr s /\
    (forall x y p q, x ∈ ivs -> y ∈ ivs -> x <> y -> allocation s !! vreg x = Some p -> allocation s !! vreg y = Some q ->
       overlaps x y = true -> allocator_pregs_overlap p q = false) /\
    (forall v p, allocation s !! v = Some p -> exists x regs, x ∈ ivs /\ vreg x = v /\ is_fixed x = false /\
       target !! class v = Some regs /\ p ∈ regs /\
       forall r points pos, rsv !! r = Some points -> pos ∈ points -> allocator_pregs_overlap r p = true ->
         is_live_at x pos = true -> pos ∈ default [] (exempt !! (v, p))) /\
    (forall x, x ∈ ivs -> is_fixed x = false ->
       (is_Some (allocation s !! vreg x) <-> vreg x ∉ spills s)) /\
    (forall x, x ∈ ivs -> is_fixed x = true -> allocation s !! vreg x = None /\ vreg x ∉ spills s).
Proof.
  intros Hsep Hnd. destruct (allocate_spec w ivs target rsv h exempt Hsep Hnd) as (s & Hrun & Hs). exists s.
  split; [done|]. split_and!.
  - intros x y p q Hx Hy Hne Hp Hq Ho. destruct (in_sorted ivs x Hx) as (i & Hi & Hxi), (in_sorted ivs y Hy) as (j & Hj & Hyj).
    apply (sc_pairs _ _ _ _ _ s Hs i j x y p q); try done. congruence.
  - intros v p Hp. destruct (sc_dom _ _ _ _ _ s Hs v p Hp) as (j & x & _ & Hx & <- & Hfix & (regs & Hr & Hin) & Hcl).
    exists x, regs. split_and!; try done. apply list_elem_of_lookup_2 in Hx. by rewrite sort_by_start_perm in Hx.
  - intros x Hx Hf. destruct (in_sorted ivs x Hx) as (i & Hi & Hxi). split.
    + intros [p Hp] Hin. destruct (sc_spills _ _ _ _ _ s Hs _ Hin) as [Hn _]. congruence.
    + intros Hn. destruct (sc_total _ _ _ _ _ s Hs i x Hi Hxi Hf); [done|tauto].
  - intros x Hx Hf. assert (Hone : forall j y, sort_by_start ivs !! j = Some y -> vreg y = vreg x -> is_fixed y = true).
    { intros j y Hy E. destruct (in_sorted ivs x Hx) as (i & _ & Hxi). rewrite (sorted_distinct ivs Hnd j i y x Hy Hxi E) in Hy. congruence. }
    split.
    + apply eq_None_not_Some. intros [p Hp]. destruct (sc_dom _ _ _ _ _ s Hs _ p Hp) as (j & y & _ & Hy & E & Hf' & _). by rewrite (Hone j y) in Hf'.
    + intros Hin. destruct (sc_spills _ _ _ _ _ s Hs _ Hin) as (_ & j & y & _ & Hy & E & Hf'). by rewrite (Hone j y) in Hf'.
Qed.

(** Four registers' worth of code on a machine with two. *)
Definition demo_interval (n s e : Z) : LiveInterval := add_range (LiveInterval_new (mkVReg n Gpr64)) s e.
Definition demo_intervals : list LiveInterval :=
  [demo_interval 0 0 9; demo_interval 1 1 5; demo_interval 2 2 4; demo_interval 3 5 8].
Definition demo_pools : gmap RegClass (list PReg) := {[Gpr64 := [mkPReg 0; mkPReg 1]]}.
Definition demo_weight (iv : LiveInterval) : spec_float := S754_finite false (Pos.of_nat (S (Z.to_nat (id (vreg iv))))) 0.

Lemma linear_scan_sound_witness :
  exists s, allocate demo_weight (set_hints (new_with_reserved demo_intervals demo_pools ∅) ∅ ∅) = inr s /\
    forall x, x ∈ demo_intervals -> is_fixed x = false ->
      (is_Some (allocation s !! vreg x) <-> vreg x ∉ spills s).
Proof.
  destruct (linear_scan_sound demo_weight demo_intervals demo_pools ∅ ∅ ∅) as (s & Hrun & _ & _ & Hall & _).
  - intros iv Hiv. apply (Forall_forall (fun iv => separated (ranges iv)) demo_intervals); [|exact Hiv].
    repeat constructor.
  - apply (bool_decide_unpack _). vm_compute. exact I.
  - exists s. split; [exact Hrun|exact Hall].
Defined.

Example demo_allocation :
  (allocation <$> (match allocate demo_weight (new_with_reserved demo_intervals demo_pools ∅) with inr s => Some s | inl _ => None end))
  = Some (<[mkVReg 3 Gpr64 := mkPReg 0]> (<[mkVReg 2 Gpr64 := mkPReg 0]> {[mkVReg 1 Gpr64 := mkPReg 1]})).
Proof. vm_compute. reflexivity. Qed.

(** ** Where the code departs from its comments *)

Definition run (s : LinearScan) : option (gmap VReg PReg * list VReg) :=
  match allocate demo_weight s with inr s => Some (allocation s, spills s) | inl _ => None end.

(** Freed x86-64 registers do not return to their pool: the pools are indexed with
    the AArch64 [preg_class], which is [System] for them.  The second of two
    disjoint intervals is spilled although the only register is free again; with
    the AArch64 register X0 in its place it is allocated. *)
Example x86_register_not_returned :
  let ivs := [demo_interval 0 0 1; demo_interval 1 5 6] in
  run (new_with_reserved ivs {[Gpr64 := [mkPReg 512]]} ∅) = Some ({[mkVReg 0 Gpr64 := mkPReg 512]}, [mkVReg 1 Gpr64]) /\
  run (new_with_reserved ivs {[Gpr64 := [mkPReg 0]]} ∅)
  = Some (<[mkVReg 1 Gpr64 := mkPReg 0]> {[mkVReg 0 Gpr64 := mkPReg 0]}, []).
Proof. vm_compute. done. Qed.

(** A hint with an exemption places an interval in a register that the scan of the
    pool refuses: the hinted candidates are not a subset of the plain ones. *)
Example hint_beyond_plain_scan :
  let s := new_with_reserved [demo_interval 0 0 4] {[Gpr64 := [mkPReg 0]]} {[mkPReg 0 := [3]]} in
  run s = Some (∅, [mkVReg 0 Gpr64]) /\
  run (set_hints s {[mkVReg 0 Gpr64 := [mkPReg 0]]} {[(mkVReg 0 Gpr64, mkPReg 0) := [3]]})
  = Some ({[mkVReg 0 Gpr64 := mkPReg 0]}, []).
Proof. vm_compute. done. Qed.
