(* ===== verification/Reserve.v ===== *)
(** * Reservations and hints ([crates/trust-cg-regalloc/src/lib.rs],
      [implicit_def_reservations], [copy_register_hints])

    The positions at which instructions read or write fixed physical registers, the
    spans over which outgoing and incoming argument registers hold a value, and the
    copies that relate a virtual register to a physical one. *)

From S2P Require Import Prelude Regs Liveness LiveFlow LiveBuild LinearScan.
Local Open Scope Z_scope.

Abbreviation Reservations := (gmap PReg (list Z)) (only parsing).

(** [reserved.entry(preg).or_default().extend(positions)]. *)
Definition reserve (m : Reservations) (p : PReg) (positions : list Z) : Reservations :=
  <[p := default [] (m !! p) ++ positions]> m.

Definition preg_defs (i : RegAllocInst) : list PReg := omap as_preg (defs i).
Definition preg_uses (i : RegAllocInst) : list PReg := omap as_preg (uses i).

Section Reservations.
Context (f : RegAllocFunction) (numbering : gmap nat Z).

(** The position and the instruction, when both lookups succeed. *)
Definition numbered (inst_id : nat) : option (Z * RegAllocInst) :=
  pos ← numbering !! inst_id; i ← insts f !! inst_id; Some (pos, i).

(** [last_preg_def] of an argument register or of one of its aliases. *)
Definition last_def_of (last_preg_def : gmap PReg Z) (arg : PReg) : option Z :=
  fold_left (fun acc p =>
    match last_preg_def !! p with
    | Some d => Some (match acc with Some a => Z.max a d | None => d end)
    | None => acc
    end) (arg :: aliasing_pregs arg) None.

(** Reserve an argument register from its setup to the call at [pos]. *)
Definition span_step (last_preg_def : gmap PReg Z) (pos : Z) (m : Reservations) (arg : PReg) : Reservations :=
  match last_def_of last_preg_def arg with
  | Some d => if d <? pos then reserve m arg (seqZ (d + 1) (pos - (d + 1))) else m
  | None => m
  end.

Definition reserve_inst (st : Reservations * gmap PReg Z) (inst_id : nat) : Reservations * gmap PReg Z :=
  match numbered inst_id with
  | None => st
  | Some (pos, i) =>
      let m := if Z.land (flags i) 1 =? 1
               then fold_left (span_step st.2 pos) (implicit_uses i) st.1 else st.1 in
      let m := fold_left (fun m p => reserve m p [pos]) (preg_defs i) m in
      let m := fold_left (fun m p => reserve m p [pos]) (preg_uses i) m in
      let m := fold_left (fun m p => reserve m p [pos]) (implicit_defs i) m in
      let m := fold_left (fun m p => reserve m p [pos]) (implicit_uses i) m in
      (m, fold_left (fun d p => <[p := pos]> d) (preg_defs i ++ implicit_defs i) st.2)
  end.

Definition reserve_block (m : Reservations) (b : nat) : Reservations :=
  match blocks f !! b with
  | None => m
  | Some blk => (fold_left reserve_inst (block_insts blk) (m, ∅)).1
  end.

(** Entry-block registers that are read before they are defined: the first read
    of each, and the start of the block. *)
Record Incoming := mkIncoming { first_read : gmap PReg Z; locally_defined : gset PReg; entry_start : option Z }.

Definition incoming_step (st : Incoming) (inst_id : nat) : Incoming :=
  match numbered inst_id with
  | None => st
  | Some (pos, i) =>
      mkIncoming
        (fold_left (fun m p =>
           if bool_decide (p ∈ locally_defined st) then m
           else match m !! p with Some _ => m | None => <[p := pos]> m end)
           (preg_uses i ++ implicit_uses i) (first_read st))
        (list_to_set (preg_defs i ++ implicit_defs i) ∪ locally_defined st)
        (Some (default pos (entry_start st)))
  end.

Definition reserve_incoming_argument_spans (m : Reservations) : Reservations :=
  match blocks f !! entry_block f with
  | None => m
  | Some blk =>
      let st := fold_left incoming_step (block_insts blk) (mkIncoming ∅ ∅ None) in
      match entry_start st with
      | None => m
      | Some start =>
          fold_left (fun m (e : PReg * Z) => if start <? e.2 then reserve m e.1 (seqZ start (e.2 - start)) else m)
            (map_to_list (first_read st)) m
      end
  end.

(** [positions.sort_unstable(); positions.dedup()]. *)
Definition sort_dedup (l : list Z) : list Z := remove_dups (merge_sort Z.le l).

Definition implicit_def_reservations : Reservations :=
  sort_dedup <$> reserve_incoming_argument_spans (fold_left reserve_block (block_order f) ∅).

(** ** Copy hints *)

(** [PSEUDO_COPY] and the discriminant of [AArch64Opcode::Copy]. *)
Definition is_copy_opcode (op : Z) : bool := (op =? 0xFFE1) || (op =? 276).

(** The virtual and the physical register a copy relates. *)
Definition copy_related (i : RegAllocInst) : option (VReg * PReg) :=
  if is_copy_opcode (opcode i) then
    match head (defs i), head (uses i) with
    | Some (VRegOp dst), Some (PRegOp src) => Some (dst, src)
    | Some (PRegOp dst), Some (VRegOp src) => Some (src, dst)
    | _, _ => None
    end
  else None.

(** The view of the physical register that fits the class of the virtual one. *)
Definition hint_preg (v : VReg) (p : PReg) : PReg :=
  if bool_decide (class v = Gpr32) && bool_decide (preg_class p = Gpr64)
  then default p (gpr64_to_gpr32 p) else p.

Abbreviation CopyHints := (gmap VReg (list PReg) * gmap (VReg * PReg) (list Z))%type (only parsing).

Definition hint_step (st : CopyHints) (e : nat * RegAllocInst) : CopyHints :=
  match copy_related e.2 with
  | None => st
  | Some (v, p) =>
      let h := hint_preg v p in
      (<[v := default [] (st.1 !! v) ++ [h]]> st.1,
       match numbering !! e.1 with
       | Some pos => <[(v, h) := default [] (st.2 !! (v, h)) ++ [pos]]> st.2
       | None => st.2
       end)
  end.

(** [Vec::dedup]: drop repetitions of neighbours. *)
Fixpoint dedup_neighbours {A} `{EqDecision A} (l : list A) : list A :=
  match l with
  | [] => []
  | x :: l' =>
      match dedup_neighbours l' with
      | y :: r => if decide (x = y) then y :: r else x :: y :: r
      | [] => [x]
      end
  end.

Definition copy_register_hints : CopyHints :=
  let st := fold_left hint_step (imap pair (insts f)) (∅, ∅) in
  (dedup_neighbours <$> st.1, sort_dedup <$> st.2).

End Reservations.
