(* ===== verification/FixedRegs.v ===== *)
(** * Fixed physical registers ([crates/trust-cg-regalloc/src/lib.rs])

    Where a fixed physical register holds a value that is still to be read, how a
    lowered function protects such values from the registers the allocator hands
    out, and what [implicit_def_reservations] contains: the positions that mention a
    register, the spans of outgoing call arguments, and the spans of incoming
    arguments. *)

From S2P Require Import Prelude Regs Liveness LiveSets LinearScan LiveFlow LiveBuild Reserve.
Local Open Scope Z_scope.

(** ** Views of one register *)

(** What two overlapping registers have in common. *)
Inductive Storage := X86Gpr (n : Z) | Root (r : Z * Z) | Itself (p : PReg).

Definition storage (p : PReg) : Storage :=
  if within 512 527 (encoding p) then X86Gpr (encoding p - 512)
  else if within 528 543 (encoding p) then X86Gpr (encoding p - 528)
  else match reg_root p with Some r => Root r | None => Itself p end.

Lemma x86_root (p : PReg) : is_x86_preg p = true -> reg_root p = None.
Proof.
  unfold is_x86_preg, reg_root, within. intros H.
  repeat match goal with |- (if ?c then _ else _) = None => replace c with false by lia end. done.
Qed.

(** The four kinds of encodings. *)
Lemma preg_kind (p : PReg) :
  (512 <= encoding p <= 527 /\ storage p = X86Gpr (encoding p - 512) /\ is_x86_preg p = true /\
     x86_preg_aliases p = [p; mkPReg (encoding p + 16)]) \/
  (528 <= encoding p <= 543 /\ storage p = X86Gpr (encoding p - 528) /\ is_x86_preg p = true /\
     x86_preg_aliases p = [p; mkPReg (encoding p - 16)]) \/
  (544 <= encoding p <= 559 /\ storage p = Itself p /\ is_x86_preg p = true /\ x86_preg_aliases p = [p]) \/
  (~ 512 <= encoding p <= 559 /\ storage p = (match reg_root p with Some r => Root r | None => Itself p end) /\
     is_x86_preg p = false /\ x86_preg_aliases p = [p]).
Proof.
  pose proof (x86_root p) as Hr. unfold storage, is_x86_preg, x86_preg_aliases in *. unfold within in *.
  destruct (Z_lt_le_dec (encoding p) 512); [do 3 right|destruct (Z_le_gt_dec (encoding p) 527); [left|right;
    destruct (Z_le_gt_dec (encoding p) 543); [left|right; destruct (Z_le_gt_dec (encoding p) 559); [left|right]]]].
  all: repeat match goal with |- context [?a <=? ?b] => first [replace (a <=? b) with true by lia|replace (a <=? b) with false by lia] end.
  all: cbn [andb orb]; split_and!; try done; try lia.
  - do 3 f_equal. lia.
  - do 3 f_equal. lia.
  - rewrite Hr; [done|]. lia.
Qed.

Lemma overlap_storage (p q : PReg) : allocator_pregs_overlap p q = true <-> storage p = storage q.
Proof.
  unfold allocator_pregs_overlap, x86_pregs_overlap.
  destruct (preg_kind p) as [(Ra & Sa & Xa & Aa)|[(Ra & Sa & Xa & Aa)|[(Ra & Sa & Xa & Aa)|(Ra & Sa & Xa & Aa)]]],
    (preg_kind q) as [(Rb & Sb & Xb & Ab)|[(Rb & Sb & Xb & Ab)|[(Rb & Sb & Xb & Ab)|(Rb & Sb & Xb & Ab)]]];
    rewrite Sa, Sb, Xa, Xb; cbn [orb]; rewrite ?Aa;
    try lazymatch goal with |- regs_overlap _ _ = true <-> _ =>
      rewrite regs_overlap_iff; destruct (reg_root p) as [r|] eqn:Rp, (reg_root q) as [r'|] eqn:Rq; naive_solver congruence end.
  all: rewrite orb_true_iff, !bool_decide_eq_true, ?elem_of_cons, elem_of_nil; destruct p as [a], q as [b]; cbn [encoding] in *.
  all: split; [intros [E|E]; repeat destruct E as [E|E]; simplify_eq; try done; try (f_equal; lia); lia|].
  all: try (destruct (reg_root _)); intros E; try done; simplify_eq; try done; try lia.
  - left. f_equal. lia.
  - right. right. left. f_equal. lia.
  - right. right. left. f_equal. lia.
  - left. f_equal. lia.
  - by left.
Qed.

Lemma overlap_refl (p : PReg) : allocator_pregs_overlap p p = true.
Proof. by apply overlap_storage. Qed.

Lemma overlap_sym (p q : PReg) : allocator_pregs_overlap p q = true -> allocator_pregs_overlap q p = true.
Proof. by rewrite !overlap_storage. Qed.

Lemma overlap_trans (p q r : PReg) :
  allocator_pregs_overlap p q = true -> allocator_pregs_overlap q r = true -> allocator_pregs_overlap p r = true.
Proof. rewrite !overlap_storage. congruence. Qed.

(** The view that a copy hint asks for is one of the copied register. *)
Lemma hint_overlap (v : VReg) (p : PReg) : allocator_pregs_overlap p (hint_preg v p) = true.
Proof.
  unfold hint_preg. destruct (_ && _); [|apply overlap_refl]. unfold gpr64_to_gpr32.
  destruct (within 0 30 (encoding p)) eqn:E1; [|destruct (Z.eqb_spec (encoding p) 31) as [E2|]; [|destruct (Z.eqb_spec (encoding p) 160) as [E3|]]].
  - cbn. unfold within in E1. apply overlap_storage. unfold storage, reg_root, within. cbn [encoding].
    repeat match goal with |- context [?a <=? ?b] => first [replace (a <=? b) with true by lia|replace (a <=? b) with false by lia] end.
    cbn. do 2 f_equal. lia.
  - destruct p as [e]. cbn in *. subst e. by vm_compute.
  - destruct p as [e]. cbn in *. subst e. by vm_compute.
  - apply overlap_refl.
Qed.

(** The aliases of a register are views of it. *)
Lemma aliases_ok : forallb (fun e => forallb (allocator_pregs_overlap (mkPReg e)) (aliasing_pregs (mkPReg e))) all_encodings = true.
Proof. vm_compute. reflexivity. Qed.

Lemma alias_overlap (p q : PReg) : q ∈ p :: aliasing_pregs p -> allocator_pregs_overlap p q = true.
Proof.
  intros [->|Hq]%elem_of_cons; [apply overlap_refl|]. destruct (is_x86_preg p) eqn:Ex.
  - unfold aliasing_pregs in Hq. rewrite Ex in Hq. apply list_elem_of_filter in Hq as [_ Hq].
    unfold allocator_pregs_overlap, x86_pregs_overlap. rewrite Ex. cbn [orb]. apply orb_true_iff. right. by apply bool_decide_eq_true.
  - destruct (decide (encoding p ∈ all_encodings)) as [He|He].
    + pose proof aliases_ok as H. rewrite forallb_forall in H. apply list_elem_of_In in He. specialize (H _ He).
      rewrite forallb_forall in H. destruct p. by apply H, list_elem_of_In.
    + exfalso. unfold all_encodings in He. rewrite elem_of_seqZ in He. unfold aliasing_pregs in Hq. rewrite Ex in Hq. unfold within in Hq.
      repeat match type of Hq with context [(?a <=? ?x) && (?x <=? ?b)] => replace ((a <=? x) && (x <=? b)) with false in Hq by lia end.
      by apply elem_of_nil in Hq.
Qed.

(** ** Fixed registers that hold a value *)

Definition preg_reads (i : RegAllocInst) : list PReg := preg_uses i ++ implicit_uses i.
Definition preg_writes (i : RegAllocInst) : list PReg := preg_defs i ++ implicit_defs i.

Definition reads_view (i : RegAllocInst) (q : PReg) : Prop := exists p, p ∈ preg_reads i /\ allocator_pregs_overlap p q = true.
Definition writes_view (i : RegAllocInst) (q : PReg) : Prop := exists p, p ∈ preg_writes i /\ allocator_pregs_overlap p q = true.

#[export] Instance reads_view_dec i q : Decision (reads_view i q).
Proof. refine (cast_if (decide (Exists (fun p => allocator_pregs_overlap p q = true) (preg_reads i)))); by rewrite Exists_exists in *. Defined.
#[export] Instance writes_view_dec i q : Decision (writes_view i q).
Proof. refine (cast_if (decide (Exists (fun p => allocator_pregs_overlap p q = true) (preg_writes i)))); by rewrite Exists_exists in *. Defined.

Section Fixed.
Context (f : RegAllocFunction).

(** [fixed_before q b k]: some path from just before the [k]-th instruction of [b]
    reads a view of [q] before it writes one. *)
Inductive fixed_before (q : PReg) : nat -> nat -> Prop :=
  | fixed_read b k i :
      block_insts (block f b) !! k = Some i -> reads_view (inst f i) q -> fixed_before q b k
  | fixed_skip b k i :
      block_insts (block f b) !! k = Some i -> ~ writes_view (inst f i) q ->
      fixed_before q b (S k) -> fixed_before q b k
  | fixed_succ b s :
      s ∈ succs (block f b) -> fixed_before q s 0 -> fixed_before q b (length (block_insts (block f b))).

Definition is_call (i : RegAllocInst) : bool := Z.land (flags i) 1 =? 1.

(** *** How lowered code protects such a value at an instruction that defines
    virtual registers *)

(** The instruction mentions the register. *)
Definition mentions (i : RegAllocInst) (q : PReg) : Prop :=
  exists a, a ∈ preg_reads i ++ preg_writes i /\ allocator_pregs_overlap a q = true.

(** The register is an outgoing argument: it was set up earlier in the block and a
    call later in the block reads it, with no other write in between. *)
Definition outgoing (b k : nat) (q : PReg) : Prop :=
  let l := block_insts (block f b) in
  exists k0 k1 i0 c a p, (k0 < k < k1)%nat /\ l !! k0 = Some i0 /\ l !! k1 = Some c /\
    is_call (inst f c) = true /\ a ∈ implicit_uses (inst f c) /\ allocator_pregs_overlap a q = true /\
    p ∈ preg_writes (inst f i0) /\ p ∈ a :: aliasing_pregs a /\
    forall j i, (k <= j < k1)%nat -> l !! j = Some i -> ~ writes_view (inst f i) a.

(** The register is an incoming argument: the entry block reads it later, and does
    not mention it before. *)
Definition incoming (b k : nat) (q : PReg) : Prop :=
  let l := block_insts (block f b) in
  b = entry_block f /\ exists k1 i1 a, (k < k1)%nat /\ l !! k1 = Some i1 /\ a ∈ preg_reads (inst f i1) /\
    allocator_pregs_overlap a q = true /\
    forall j i, (j < k1)%nat -> l !! j = Some i -> a ∉ preg_reads (inst f i) ++ preg_writes (inst f i).

(** What the instruction defines stays live up to a later instruction of the block
    that mentions the register, other than by a copy between the two. *)
Definition outlived (b k : nat) (i : RegAllocInst) (q : PReg) : Prop :=
  exists k1 i1, (k < k1)%nat /\ block_insts (block f b) !! k1 = Some i1 /\ mentions (inst f i1) q /\
    forall d, d ∈ ids (vreg_defs i) -> live_before f d b k1 /\
      forall v p, copy_related (inst f i1) = Some (v, p) -> id v <> d.

Definition protected (b k : nat) (i : RegAllocInst) (q : PReg) : Prop :=
  (forall v p, copy_related i = Some (v, p) -> allocator_pregs_overlap p q = false) /\
  (mentions i q \/ outgoing b k q \/ incoming b k q \/ outlived b k i q).

(** Some register of the pools is a view of [q]. *)
Definition allocatable_view (target : gmap RegClass (list PReg)) (q : PReg) : Prop :=
  exists c regs p, target !! c = Some regs /\ p ∈ regs /\ allocator_pregs_overlap p q = true.

(** Every value in an allocatable fixed register is protected where virtual
    registers are defined. *)
Definition fixed_regs_protected (target : gmap RegClass (list PReg)) : Prop :=
  forall b k i q, b ∈ block_order f -> block_insts (block f b) !! k = Some i -> vreg_defs (inst f i) <> [] ->
    fixed_before q b (S k) -> ~ writes_view (inst f i) q -> allocatable_view target q -> protected b k (inst f i) q.
End Fixed.

(** ** What reservations contain *)

Definition reserved_at (m : gmap PReg (list Z)) (p : PReg) (pos : Z) : Prop :=
  exists l, m !! p = Some l /\ pos ∈ l.

Lemma reserve_mono (m : gmap PReg (list Z)) (p q : PReg) (ps : list Z) (pos : Z) :
  reserved_at m q pos -> reserved_at (reserve m p ps) q pos.
Proof.
  intros (l & Hl & Hpos). unfold reserved_at, reserve. destruct (decide (p = q)) as [->|Hne].
  - rewrite lookup_insert_eq, Hl. cbn. eexists. split; [done|]. apply elem_of_app. by left.
  - rewrite lookup_insert_ne by done. eauto.
Qed.

Lemma reserve_adds (m : gmap PReg (list Z)) (p : PReg) (ps : list Z) (pos : Z) :
  pos ∈ ps -> reserved_at (reserve m p ps) p pos.
Proof.
  intros Hpos. unfold reserved_at, reserve. rewrite lookup_insert_eq. eexists. split; [done|]. apply elem_of_app. by right.
Qed.

Lemma fold_reserved {A} (g : gmap PReg (list Z) -> A -> gmap PReg (list Z)) (l : list A) m q pos :
  (forall m x, reserved_at m q pos -> reserved_at (g m x) q pos) -> reserved_at m q pos ->
  reserved_at (fold_left g l m) q pos.
Proof. intros Hg. revert m; induction l as [|x l IH]; intros m Hm; cbn; [done|]. apply IH, Hg, Hm. Qed.

Lemma fold_at_pos (l : list PReg) m (p : PReg) (pos : Z) :
  p ∈ l -> reserved_at (fold_left (fun m p => reserve m p [pos]) l m) p pos.
Proof.
  intros (l1 & l2 & ->)%list_elem_of_split. rewrite fold_left_app. cbn.
  apply fold_reserved; [intros; by apply reserve_mono|]. apply reserve_adds. left.
Qed.

Section Reserved.
Context (f : RegAllocFunction) (numbering : gmap nat Z).

Lemma span_step_mono d pos m arg q x : reserved_at m q x -> reserved_at (span_step d pos m arg) q x.
Proof.
  intros H. unfold span_step. destruct (last_def_of d arg) as [y|]; [|done].
  destruct (y <? pos); [|done]. by apply reserve_mono.
Qed.

Lemma reserve_inst_mono st i q x : reserved_at st.1 q x -> reserved_at (reserve_inst f numbering st i).1 q x.
Proof.
  intros H. unfold reserve_inst. destruct (numbered f numbering i) as [[pos r]|]; [|done]. cbn [fst].
  do 4 (apply fold_reserved; [intros; by apply reserve_mono|]).
  destruct (Z.land (flags r) 1 =? 1); [|done]. apply fold_reserved; [intros; by apply span_step_mono|done].
Qed.

Lemma reserve_inst_adds st i pos r p :
  numbered f numbering i = Some (pos, r) -> p ∈ preg_reads r ++ preg_writes r -> reserved_at (reserve_inst f numbering st i).1 p pos.
Proof.
  intros Hn Hp. unfold reserve_inst. rewrite Hn. cbn [fst]. unfold preg_reads, preg_writes in Hp. rewrite !elem_of_app in Hp.
  destruct Hp as [[Hp|Hp]|[Hp|Hp]].
  - do 2 (apply fold_reserved; [intros; by apply reserve_mono|]). by apply fold_at_pos.
  - by apply fold_at_pos.
  - do 3 (apply fold_reserved; [intros; by apply reserve_mono|]). by apply fold_at_pos.
  - apply fold_reserved; [intros; by apply reserve_mono|]. by apply fold_at_pos.
Qed.

Lemma fold_insts_mono l st q x : reserved_at st.1 q x -> reserved_at (fold_left (reserve_inst f numbering) l st).1 q x.
Proof. revert st; induction l as [|i l IH]; intros st H; cbn; [done|]. by apply IH, reserve_inst_mono. Qed.

Lemma reserve_block_mono m b q x : reserved_at m q x -> reserved_at (reserve_block f numbering m b) q x.
Proof. intros H. unfold reserve_block. destruct (blocks f !! b); [|done]. by apply fold_insts_mono. Qed.

Lemma reservations_sorted (p : PReg) (pos : Z) :
  reserved_at (reserve_incoming_argument_spans f numbering (fold_left (reserve_block f numbering) (block_order f) ∅)) p pos ->
  reserved_at (implicit_def_reservations f numbering) p pos.
Proof.
  intros (l & Hl & Hl'). unfold implicit_def_reservations. exists (sort_dedup l).
  rewrite lookup_fmap, Hl. split; [done|]. unfold sort_dedup. rewrite elem_of_remove_dups, merge_sort_Permutation. done.
Qed.

(** What the walk of one block reserves is reserved. *)
Lemma block_reserved (b : nat) (pos : Z) (p : PReg) : b ∈ block_order f ->
  (forall m, reserved_at (reserve_block f numbering m b) p pos) -> reserved_at (implicit_def_reservations f numbering) p pos.
Proof.
  intros Hb Hblock.
  assert (Hfold : reserved_at (fold_left (reserve_block f numbering) (block_order f) ∅) p pos).
  { apply list_elem_of_split in Hb as (l1 & l2 & ->). rewrite fold_left_app. cbn [fold_left].
    apply fold_reserved; [intros; by apply reserve_block_mono|]. apply Hblock. }
  assert (Hin : reserved_at (reserve_incoming_argument_spans f numbering
    (fold_left (reserve_block f numbering) (block_order f) ∅)) p pos).
  { unfold reserve_incoming_argument_spans. destruct (blocks f !! entry_block f); [|done].
    destruct (entry_start _) as [start|]; [|done]. apply fold_reserved; [|done].
    intros m x Hm. destruct (start <? x.2); [by apply reserve_mono|done]. }
  by apply reservations_sorted.
Qed.

(** Exemptions come from copies of the pair, at their position. *)
Lemma exempt_copy (v : VReg) (h : PReg) (pos : Z) :
  pos ∈ default [] ((copy_register_hints f numbering).2 !! (v, h)) ->
  exists i r p, insts f !! i = Some r /\ copy_related r = Some (v, p) /\ h = hint_preg v p /\ numbering !! i = Some pos.
Proof.
  unfold copy_register_hints. cbn [snd]. rewrite lookup_fmap.
  set (st := fold_left _ _ _). destruct (st.2 !! (v, h)) as [l|] eqn:El; cbn [fmap option_fmap option_map default];
    [|intros Hx; by apply elem_of_nil in Hx].
  unfold sort_dedup. cbn. rewrite elem_of_remove_dups, merge_sort_Permutation. intros Hpos. revert l El Hpos.
  assert (H : forall es st0,
    (forall e, e ∈ es -> insts f !! e.1 = Some e.2) ->
    (forall l, st0.2 !! (v, h) = Some l -> pos ∈ l ->
      exists i r p, insts f !! i = Some r /\ copy_related r = Some (v, p) /\ h = hint_preg v p /\ numbering !! i = Some pos) ->
    forall l, (fold_left (hint_step numbering) es st0).2 !! (v, h) = Some l -> pos ∈ l ->
      exists i r p, insts f !! i = Some r /\ copy_related r = Some (v, p) /\ h = hint_preg v p /\ numbering !! i = Some pos).
  { induction es as [|[i r] es IH]; intros st0 Hes H0; cbn [fold_left]; [done|].
    apply IH; [intros; apply Hes; by right|]. unfold hint_step. cbn [fst snd].
    destruct (copy_related r) as [[v' p]|] eqn:Ec; [|done]. cbn [snd].
    destruct (numbering !! i) as [x|] eqn:Ex; [|done]. intros l Hl Hpos.
    apply lookup_insert_Some in Hl as [[[= -> <-] <-]|[_ Hl]]; [|eauto].
    apply elem_of_app in Hpos as [Hpos| ->%list_elem_of_singleton].
    - destruct (st0.2 !! (v, hint_preg v p)) as [l0|] eqn:E0; [by apply (H0 l0)|by apply elem_of_nil in Hpos].
    - exists i, r, p. pose proof (Hes (i, r) ltac:(left)). done. }
  apply (H (imap pair (insts f)) (∅, ∅)).
  - intros [i r] Hin. apply elem_of_lookup_imap_1 in Hin as (j & y & [= -> ->] & Hj). done.
  - intros l Hl. cbn in Hl. by rewrite lookup_empty in Hl.
Qed.
End Reserved.

(** ** The walk of a block *)

Lemma set_defs_lookup (ps : list PReg) (d : gmap PReg Z) (pos : Z) (p : PReg) :
  fold_left (fun d p => <[p := pos]> d) ps d !! p = if decide (p ∈ ps) then Some pos else d !! p.
Proof.
  revert d. induction ps as [|x ps IH]; intros d; cbn [fold_left]; [by rewrite decide_False by apply not_elem_of_nil|].
  rewrite IH. destruct (decide (p ∈ ps)) as [Hp|Hp]; [by rewrite decide_True by (by right)|].
  destruct (decide (p = x)) as [->|Hne]; [rewrite decide_True by left; by rewrite lookup_insert_eq|].
  rewrite decide_False by (rewrite not_elem_of_cons; done). by rewrite lookup_insert_ne.
Qed.

(** The most recent definition among some registers. *)
Lemma last_def_spec (d : gmap PReg Z) (a : PReg) (p : PReg) (x : Z) : p ∈ a :: aliasing_pregs a -> d !! p = Some x ->
  exists z q, last_def_of d a = Some z /\ x <= z /\ q ∈ a :: aliasing_pregs a /\ d !! q = Some z.
Proof.
  unfold last_def_of. generalize (a :: aliasing_pregs a) as ps.
  assert (H : forall ps acc,
    let r := fold_left (fun acc p => match d !! p with
                                     | Some d => Some (match acc with Some a => Z.max a d | None => d end)
                                     | None => acc end) ps acc in
    (forall y, acc = Some y \/ (exists q, q ∈ ps /\ d !! q = Some y) -> exists z, r = Some z /\ y <= z) /\
    (forall z, r = Some z -> acc = Some z \/ exists q, q ∈ ps /\ d !! q = Some z)).
  { induction ps as [|q ps IH]; intros acc; cbn [fold_left].
    - split; [|by left]. intros y [->|(q & []%elem_of_nil & _)]. exists y. split; [done|lia].
    - match goal with |- context [fold_left ?F ps ?acc'] => destruct (IH acc') as [IH1 IH2] end. split.
      + intros y Hy. destruct (d !! q) as [x'|] eqn:Eq.
        * destruct Hy as [->|(q' & [->|Hq']%elem_of_cons & Hd)].
          -- destruct (IH1 (Z.max y x')) as (z & Hz & Hle); [by left|]. exists z. split; [done|lia].
          -- rewrite Eq in Hd. injection Hd as ->. destruct acc as [y'|].
             ++ destruct (IH1 (Z.max y' y)) as (z & Hz & Hle); [by left|]. exists z. split; [done|lia].
             ++ by apply IH1; left.
          -- apply IH1. right. by exists q'.
        * apply IH1. destruct Hy as [->|(q' & [->|Hq']%elem_of_cons & Hd)]; [by left|congruence|right; by exists q'].
      + intros z Hz. destruct (IH2 z Hz) as [E|(q' & Hq' & Hd)]; [|right; exists q'; split; [by right|done]].
        destruct (d !! q) as [x'|] eqn:Eq; [|by left]. destruct acc as [y|].
        * injection E as <-. destruct (Z.max_spec y x') as [[_ ->]|[_ ->]]; [right; exists q; split; [left|done]|by left].
        * injection E as <-. right. exists q. split; [left|done]. }
  intros ps Hp Hd. destruct (H ps None) as [H1 H2]. destruct (H1 x) as (z & Hz & Hle); [right; by exists p|].
  exists z. destruct (H2 z Hz) as [|(q & Hq & Eq)]; [done|]. by exists q.
Qed.

Section Walk.
Context (f : RegAllocFunction) (Hwf : wf_func f).

Lemma number_lookup (i : nat) (z : Z) : number_insts f !! i = Some z -> exists j, laid_out f !! j = Some i /\ z = Z.of_nat j.
Proof.
  rewrite number_insts_flat.
  destruct (number_fold (laid_out f) ∅ 0) as (_ & H1 & H2); [apply (insts_nodup f Hwf)|lia|apply (insts_count f Hwf)|].
  intros Hz. destruct (decide (i ∈ laid_out f)) as [[j Hj]%list_elem_of_lookup|Hn].
  - exists j. split; [done|]. rewrite (H1 j i Hj) in Hz. injection Hz. lia.
  - by rewrite H2, lookup_empty in Hz.
Qed.

Lemma number_laid (b i : nat) : b ∈ block_order f -> i ∈ block_insts (block f b) -> number_insts f !! i = Some (inst_num f i).
Proof.
  intros Hb Hi. assert (Hin : i ∈ laid_out f) by (apply list_elem_of_bind; eauto).
  apply list_elem_of_lookup in Hin as [j Hj]. rewrite (inst_num_pos f Hwf j i Hj), number_insts_flat.
  destruct (number_fold (laid_out f) ∅ 0) as (_ & H1 & _); [apply (insts_nodup f Hwf)|lia|apply (insts_count f Hwf)|].
  by rewrite (H1 j i Hj).
Qed.

Lemma number_inj (i j : nat) (z : Z) : number_insts f !! i = Some z -> number_insts f !! j = Some z -> i = j.
Proof.
  intros (a & Ha & ->)%number_lookup (b & Hb & E)%number_lookup. assert (a = b) as -> by lia. congruence.
Qed.


Context (b : nat) (Hb : b ∈ block_order f).
Abbreviation l := (block_insts (block f b)).
Abbreviation numbering := (number_insts f).

Lemma laid_block : blocks f !! b = Some (block f b).
Proof. apply list_lookup_lookup_total_lt. by apply (order_bound f Hwf). Qed.

Lemma laid_inst k i : l !! k = Some i -> insts f !! i = Some (inst f i).
Proof. intros Hi. apply list_lookup_lookup_total_lt. eapply (insts_bound f Hwf); [done|]. by eapply list_elem_of_lookup_2. Qed.

Lemma laid_numbered k i : l !! k = Some i -> numbered f numbering i = Some (inst_num f i, inst f i).
Proof.
  intros Hi. unfold numbered. rewrite (number_laid b i Hb) by by eapply list_elem_of_lookup_2. cbn. by rewrite (laid_inst k i Hi).
Qed.

(** Every register an instruction mentions is reserved at its position. *)
Lemma mention_reserved k i p : l !! k = Some i -> p ∈ preg_reads (inst f i) ++ preg_writes (inst f i) ->
  reserved_at (implicit_def_reservations f numbering) p (inst_num f i).
Proof.
  intros Hi Hp. apply (block_reserved f numbering b); [done|]. intros m. unfold reserve_block. rewrite laid_block.
  rewrite <- (take_drop_middle l k i Hi), fold_left_app. cbn [fold_left]. apply fold_insts_mono.
  apply (reserve_inst_adds _ _ _ _ _ (inst f i)); [by eapply laid_numbered|done].
Qed.

(** The definitions recorded after the first [n] instructions. *)
Lemma walk_defs base m n : (forall k i, l !! k = Some i -> inst_num f i = base + Z.of_nat k) -> (n <= length l)%nat ->
  let d := (fold_left (reserve_inst f numbering) (take n l) (m, ∅)).2 in
  (forall p z, d !! p = Some z -> exists j i, (j < n)%nat /\ l !! j = Some i /\ p ∈ preg_writes (inst f i) /\ z = base + Z.of_nat j) /\
  (forall p j i, (j < n)%nat -> l !! j = Some i -> p ∈ preg_writes (inst f i) -> exists z, d !! p = Some z /\ base + Z.of_nat j <= z).
Proof.
  intros Hbase. induction n as [|n IH]; intros Hn.
  - split; [|lia]. intros p z. rewrite take_0. cbn [fold_left snd]. by rewrite lookup_empty.
  - destruct (lookup_lt_is_Some_2 l n ltac:(lia)) as [x Hx]. rewrite (take_S_r _ _ _ Hx), fold_left_app. cbn [fold_left].
    destruct (IH ltac:(lia)) as [IH1 IH2]. clear IH. set (st := fold_left _ _ _) in *. unfold reserve_inst.
    rewrite (laid_numbered n x Hx). cbn [snd]. fold (preg_writes (inst f x)). rewrite (Hbase n x Hx). split.
    + intros p z. rewrite set_defs_lookup. destruct (decide (p ∈ preg_writes (inst f x))) as [Hp|Hp].
      * intros [= <-]. exists n, x. split_and!; [lia|done|done|done].
      * intros (j & i & Hj & Hi & Hw & ->)%IH1. exists j, i. split_and!; [lia|done..].
    + intros p j i Hj Hi Hw. rewrite set_defs_lookup. destruct (decide (p ∈ preg_writes (inst f x))) as [Hp|Hp].
      * eexists. split; [done|]. lia.
      * apply (IH2 p j i); [|done|done]. assert (j <> n) by (intros ->; congruence). lia.
Qed.

(** The span of an outgoing argument is reserved. *)
Lemma outgoing_reserved k i q : l !! k = Some i -> outgoing f b k q ->
  exists a, reserved_at (implicit_def_reservations f numbering) a (inst_num f i) /\ allocator_pregs_overlap a q = true.
Proof.
  intros Hi (k0 & k1 & i0 & c & a & p & Hk & H0 & H1 & Hc & Ha & Ho & Hp & Hal & Hno).
  exists a. split; [|done]. apply (block_reserved f numbering b); [done|]. intros m. unfold reserve_block. rewrite laid_block.
  destruct (block_numbers f Hwf b Hb) as (base & _ & _ & Hbase).
  rewrite <- (take_drop_middle l k1 c H1), fold_left_app. cbn [fold_left]. apply fold_insts_mono.
  pose proof (lookup_lt_Some _ _ _ H1) as Hlen.
  destruct (walk_defs base m k1 Hbase ltac:(lia)) as [D1 D2]. set (st := fold_left _ _ _) in *.
  destruct (D2 p k0 i0 ltac:(lia) H0 Hp) as (x & Hx & Hx0). destruct (last_def_spec st.2 a p x Hal Hx) as (z & r & Hz & Hxz & Hr & Hrz).
  destruct (D1 r z Hrz) as (j & i' & Hj & Hi' & Hw & ->).
  assert (Hjk : (j < k)%nat).
  { destruct (Nat.lt_ge_cases j k) as [|Hge]; [done|]. exfalso. apply (Hno j i' ltac:(lia) Hi'). exists r. split; [done|].
    by apply overlap_sym, alias_overlap. }
  unfold reserve_inst. rewrite (laid_numbered k1 c H1). cbn [fst]. unfold is_call in Hc. rewrite Hc.
  do 4 (apply fold_reserved; [intros; by apply reserve_mono|]).
  apply list_elem_of_split in Ha as (u1 & u2 & ->). rewrite fold_left_app. cbn [fold_left].
  apply fold_reserved; [intros; by apply span_step_mono|]. unfold span_step. rewrite Hz, (Hbase k1 c H1), (Hbase k i Hi).
  replace (base + Z.of_nat j <? base + Z.of_nat k1) with true by lia. apply reserve_adds. apply elem_of_seqZ. lia.
Qed.

(** *** Incoming arguments *)

Lemma first_read_fold (ps : list PReg) (ld : gset PReg) (m : gmap PReg Z) (pos : Z) (a : PReg) :
  fold_left (fun m p => if bool_decide (p ∈ ld) then m else match m !! p with Some _ => m | None => <[p := pos]> m end) ps m !! a =
  match m !! a with Some z => Some z | None => if decide (a ∈ ps /\ a ∉ ld) then Some pos else None end.
Proof.
  revert m. induction ps as [|x ps IH]; intros m; cbn [fold_left].
  - rewrite decide_False by (intros [[]%elem_of_nil _]). by destruct (m !! a).
  - rewrite IH. clear IH. case_bool_decide as Hld.
    + destruct (m !! a); [done|]. destruct (decide (a = x)) as [->|Hne].
      * rewrite !decide_False by tauto. done.
      * destruct (decide (a ∈ ps /\ a ∉ ld)) as [[H1 H2]|Hn]; [rewrite decide_True by (split; [by right|done]); done|].
        rewrite decide_False; [done|]. intros [[->|H1]%elem_of_cons H2]; [done|by apply Hn].
    + destruct (m !! x) as [y|] eqn:Ex.
      * destruct (m !! a) eqn:Ea; [done|]. destruct (decide (a = x)) as [->|Hne]; [congruence|].
        destruct (decide (a ∈ ps /\ a ∉ ld)) as [[H1 H2]|Hn]; [rewrite decide_True by (split; [by right|done]); done|].
        rewrite decide_False; [done|]. intros [[->|H1]%elem_of_cons H2]; [done|by apply Hn].
      * destruct (decide (a = x)) as [->|Hne].
        -- rewrite lookup_insert_eq, Ex. rewrite decide_True; [done|]. split; [left|done].
        -- rewrite lookup_insert_ne by done. destruct (m !! a); [done|].
           destruct (decide (a ∈ ps /\ a ∉ ld)) as [[H1 H2]|Hn]; [rewrite decide_True by (split; [by right|done]); done|].
           rewrite decide_False; [done|]. intros [[->|H1]%elem_of_cons H2]; [done|by apply Hn].
Qed.

Abbreviation istate n := (fold_left (incoming_step f numbering) (take n l) (mkIncoming ∅ ∅ None)).

Lemma istate_S n x : l !! n = Some x -> istate (S n) =
  mkIncoming
    (fold_left (fun m p => if bool_decide (p ∈ locally_defined (istate n)) then m else match m !! p with Some _ => m | None => <[p := inst_num f x]> m end)
       (preg_reads (inst f x)) (first_read (istate n)))
    (list_to_set (preg_writes (inst f x)) ∪ locally_defined (istate n)) (Some (default (inst_num f x) (entry_start (istate n)))).
Proof.
  intros Hx. rewrite (take_S_r _ _ _ Hx), fold_left_app. cbn [fold_left]. unfold incoming_step at 1. by rewrite (laid_numbered n x Hx).
Qed.

(** Before the first mention of a register nothing is recorded about it. *)
Lemma istate_before a n : (n <= length l)%nat ->
  (forall j i, (j < n)%nat -> l !! j = Some i -> a ∉ preg_reads (inst f i) ++ preg_writes (inst f i)) ->
  first_read (istate n) !! a = None /\ a ∉ locally_defined (istate n).
Proof.
  induction n as [|n IH]; intros Hn Hno.
  - rewrite take_0. cbn [fold_left first_read locally_defined]. rewrite lookup_empty. split; [done|set_solver].
  - destruct (lookup_lt_is_Some_2 l n ltac:(lia)) as [x Hx]. destruct (IH ltac:(lia)) as [IH1 IH2]; [intros j i Hj; apply Hno; lia|].
    rewrite (istate_S n x Hx). cbn [first_read locally_defined].
    specialize (Hno n x ltac:(lia) Hx). rewrite elem_of_app in Hno. rewrite first_read_fold, IH1. split.
    + rewrite decide_False; [done|]. intros [H _]. apply Hno. by left.
    + rewrite elem_of_union, elem_of_list_to_set. intros [H|H]; [apply Hno; by right|done].
Qed.

Lemma istate_after a z n n' : (n <= n')%nat -> first_read (istate n) !! a = Some z -> first_read (istate n') !! a = Some z.
Proof.
  induction 1 as [|n' Hle IH]; [done|]. intros H. specialize (IH H). destruct (l !! n') as [x|] eqn:Hx.
  - rewrite (istate_S n' x Hx). cbn [first_read]. by rewrite first_read_fold, IH.
  - apply lookup_ge_None in Hx. rewrite take_ge in * by lia. done.
Qed.

Lemma istate_start x n : l !! 0%nat = Some x -> (0 < n)%nat -> entry_start (istate n) = Some (inst_num f x).
Proof.
  intros Hx Hn. destruct n as [|n]; [lia|]. clear Hn. induction n as [|n IH].
  - by rewrite (istate_S 0 x Hx).
  - destruct (l !! S n) as [y|] eqn:Hy.
    + rewrite (istate_S (S n) y Hy). cbn [entry_start]. by rewrite IH.
    + apply lookup_ge_None in Hy. rewrite (take_ge l (S (S n))) by lia. by rewrite (take_ge l (S n)) in IH by lia.
Qed.

(** The span of an incoming argument is reserved. *)
Lemma incoming_reserved k i q : l !! k = Some i -> incoming f b k q ->
  exists a, reserved_at (implicit_def_reservations f numbering) a (inst_num f i) /\ allocator_pregs_overlap a q = true.
Proof.
  intros Hi (Eb & k1 & i1 & a & Hk & H1 & Ha & Ho & Hno). exists a. split; [|done]. apply reservations_sorted.
  destruct (block_numbers f Hwf b Hb) as (base & _ & _ & Hbase). pose proof (lookup_lt_Some _ _ _ H1) as Hlen.
  destruct (istate_before a k1 ltac:(lia) Hno) as [B1 B2].
  assert (Hread : first_read (istate (S k1)) !! a = Some (inst_num f i1)).
  { rewrite (istate_S k1 i1 H1). cbn [first_read].
    rewrite first_read_fold, B1, decide_True; [done|]. by split. }
  apply (istate_after a _ (S k1) (length l)) in Hread; [|lia]. rewrite firstn_all in Hread.
  destruct (lookup_lt_is_Some_2 l 0 ltac:(lia)) as [x Hx]. pose proof (istate_start x (length l) Hx ltac:(lia)) as Hstart. rewrite firstn_all in Hstart.
  unfold reserve_incoming_argument_spans. rewrite <- Eb, laid_block, Hstart.
  assert (Hin : (a, inst_num f i1) ∈ map_to_list (first_read (fold_left (incoming_step f numbering) l (mkIncoming ∅ ∅ None))))
    by by apply elem_of_map_to_list.
  apply list_elem_of_split in Hin as (u1 & u2 & ->). rewrite fold_left_app. cbn [fold_left]. apply fold_reserved.
  - intros m e Hm. destruct (_ <? e.2); [by apply reserve_mono|done].
  - cbn [fst snd]. rewrite (Hbase 0%nat x Hx), (Hbase k1 i1 H1), (Hbase k i Hi).
    rewrite (proj2 (Z.ltb_lt _ _)) by lia. apply reserve_adds, elem_of_seqZ. lia.
Qed.
End Walk.

(** ** Bounding the fixed registers that hold a value *)

Section Bound.
Context (f : RegAllocFunction) (Hwf : wf_func f) (entry_regs : nat -> list PReg).

(** The registers to be read from before [l], given those after it. *)
Definition fixed_walk (l : list RegAllocInst) (out : list PReg) : list PReg :=
  foldr (fun i acc => preg_reads i ++ filter (fun q => ~ writes_view i q) acc) out l.

Context (Hentry : forall b, b ∈ block_order f -> fixed_walk (code f b) (succs (block f b) ≫= entry_regs) ⊆ entry_regs b).

Lemma writes_view_overlap i p q : allocator_pregs_overlap p q = true -> writes_view i p -> writes_view i q.
Proof. intros H (a & Ha & Ho). exists a. split; [done|by eapply overlap_trans]. Qed.

Lemma fixed_bound q b k : fixed_before f q b k -> b ∈ block_order f ->
  exists a, a ∈ fixed_walk (drop k (code f b)) (succs (block f b) ≫= entry_regs) /\ allocator_pregs_overlap a q = true.
Proof.
  induction 1 as [b k i Hi (p & Hp & Ho)|b k i Hi Hnw _ IH|b s Hs _ IH]; intros Hb.
  - exists p. split; [|done]. rewrite (drop_S _ (inst f i)) by (unfold code; by rewrite list_lookup_fmap, Hi). cbn. apply elem_of_app. by left.
  - destruct (IH Hb) as (a & Ha & Ho). exists a. split; [|done].
    rewrite (drop_S _ (inst f i)) by (unfold code; by rewrite list_lookup_fmap, Hi). cbn. apply elem_of_app. right.
    apply list_elem_of_filter. split; [|done]. intros Hw. apply Hnw. by eapply writes_view_overlap.
  - destruct (IH (succs_ordered _ Hwf b s Hb Hs)) as (a & Ha & Ho). exists a. split; [|done].
    rewrite drop_ge by (unfold code; by rewrite length_fmap). cbn. apply list_elem_of_bind. exists s. split; [|done].
    rewrite drop_0 in Ha. apply Hentry in Ha; [done|]. by apply (succs_ordered _ Hwf b).
Qed.
Lemma protected_view b k i p q : allocator_pregs_overlap p q = true -> protected f b k i p -> protected f b k i q.
Proof.
  intros Hpq [Hc Hp]. assert (Hm : forall j, mentions j p -> mentions j q) by (intros j (a & Ha & Ho); exists a; split; [done|by eapply overlap_trans]).
  split.
  - intros v r Hr. specialize (Hc v r Hr). apply not_true_iff_false. intros H. rewrite (overlap_trans r q p) in Hc; [done|done|by apply overlap_sym].
  - destruct Hp as [Hp|[(k0 & k1 & i0 & c & a & r & H1 & H2 & H3 & H4 & H5 & Ho & H6)|[(Eb & k1 & i1 & a & H1 & H2 & H3 & Ho & H4)|(k1 & i1 & H1 & H2 & H3 & H4)]]].
    + left. by apply Hm.
    + right. left. exists k0, k1, i0, c, a, r. split_and!; try tauto. by eapply overlap_trans.
    + do 2 right. left. split; [done|]. exists k1, i1, a. split_and!; try tauto. by eapply overlap_trans.
    + do 3 right. exists k1, i1. split_and!; try tauto. by apply Hm.
Qed.

(** It is enough to protect the registers found by walking back. *)
Lemma protected_by_walk target :
  (forall b k i a, b ∈ block_order f -> block_insts (block f b) !! k = Some i -> vreg_defs (inst f i) <> [] ->
     a ∈ fixed_walk (drop (S k) (code f b)) (succs (block f b) ≫= entry_regs) -> protected f b k (inst f i) a) ->
  fixed_regs_protected f target.
Proof.
  intros H b k i q Hb Hi Hd Hq _ _. destruct (fixed_bound q b (S k) Hq Hb) as (a & Ha & Ho).
  eapply protected_view; [done|]. by apply H.
Qed.
End Bound.
