(* ===== verification/AllocExec.v ===== *)
(** * Allocated code executes like its source
      ([crates/trust-cg-regalloc/src]: [liveness.rs], [linear_scan.rs], [lib.rs])

    Liveness, interval construction, reservations, hints and linear scan composed
    as the allocator composes them when it does not coalesce, and a semantics for
    code over virtual and over allocated registers.  The theorem: the allocated
    code carries the value of every live virtual register. *)

From S2P Require Import Prelude Regs Liveness LiveSets LinearScan LinearScanSound LiveFlow LiveBuild Reserve FixedRegs.
From Stdlib Require Import Floats.SpecFloat.
Local Open Scope Z_scope.

(** ** The linear-scan arm of the allocator *)

(** [hints.entry(vreg).or_default().extend(pregs)] for every copy hint. *)
Definition extend_hints (config copies : gmap VReg (list PReg)) : gmap VReg (list PReg) :=
  union_with (fun a b => Some (a ++ b)) config copies.

Definition linear_scan_arm (w : LiveInterval -> spec_float) (target : gmap RegClass (list PReg))
    (config_hints : gmap VReg (list PReg)) (f : RegAllocFunction) : AllocError + LinearScan :=
  let live := compute_live_intervals f in
  let reserved := implicit_def_reservations f (inst_numbering live) in
  let '(copy_hints, exempt) := copy_register_hints f (inst_numbering live) in
  allocate w (set_hints (new_with_reserved (snd <$> intervals live) target reserved)
    (extend_hints config_hints copy_hints) exempt).

Section Allocated.
Context (f : RegAllocFunction) (Hwf : wf_func f).

Lemma vregs_distinct : NoDup (vreg <$> (snd <$> intervals (compute_live_intervals f))).
Proof.
  assert (Hall : forall e, e ∈ intervals (compute_live_intervals f) -> id (vreg e.2) = e.1).
  { intros [v iv] He. by apply (intervals_ok f v iv Hwf). }
  assert (Hs : StronglySorted Z.lt (intervals (compute_live_intervals f)).*1) by apply (entries_sorted (interval_vec f) 0).
  revert Hall Hs. generalize (intervals (compute_live_intervals f)). intros l.
  induction l as [|e l IH]; intros Hall Hs; cbn; [apply NoDup_nil_2|].
  cbn in Hs. apply StronglySorted_inv in Hs as [Hs Hlt]. apply NoDup_cons. split.
  - intros (x & Ex & (y & -> & Hy)%list_elem_of_fmap_1)%list_elem_of_fmap_1.
    rewrite Forall_forall in Hlt. specialize (Hlt y.1 ltac:(by apply list_elem_of_fmap_2)).
    pose proof (Hall e ltac:(left)) as E1. pose proof (Hall y ltac:(by right)) as E2. rewrite Ex in E1. lia.
  - apply IH; [|done]. intros x Hx. apply Hall. by right.
Qed.

Context (w : LiveInterval -> spec_float) (target : gmap RegClass (list PReg)) (config_hints : gmap VReg (list PReg)).

Lemma arm_scanned : exists s, linear_scan_arm w target config_hints f = inr s /\
  exists ivs, ivs ≡ₚ (snd <$> intervals (compute_live_intervals f)) /\
  scanned ivs target (implicit_def_reservations f (number_insts f)) (copy_register_hints f (number_insts f)).2 (length ivs) s.
Proof.
  unfold linear_scan_arm. change (inst_numbering (compute_live_intervals f)) with (number_insts f).
  destruct (copy_register_hints f (number_insts f)) as [ch ex] eqn:Ec. cbn [snd].
  destruct (allocate_spec w (snd <$> intervals (compute_live_intervals f)) target
    (implicit_def_reservations f (number_insts f)) (extend_hints config_hints ch) ex) as (s & Hrun & Hs).
  - intros iv ([v x] & -> & Hx)%list_elem_of_fmap_1. by apply (intervals_ok f v x Hwf).
  - apply vregs_distinct.
  - exists s. split; [done|]. eexists. split; [apply sort_by_start_perm|done].
Qed.

Context (s : LinearScan) (Hrun : linear_scan_arm w target config_hints f = inr s).

(** The register of a virtual register: what its interval was given. *)
Definition home (v : Z) : option PReg :=
  iv ← mjoin (interval_vec f !! Z.to_nat v); allocation s !! vreg iv.

Definition live_at (v : Z) (iv : LiveInterval) (i : nat) : Prop :=
  (v, iv) ∈ intervals (compute_live_intervals f) /\ live iv (inst_num f i).

Lemma home_interval (v : Z) (iv : LiveInterval) (i : nat) : live_at v iv i -> home v = allocation s !! vreg iv.
Proof. intros [[_ Hk]%elem_of_intervals _]. unfold home. by rewrite Hk. Qed.

Lemma in_scan ivs v iv : ivs ≡ₚ (snd <$> intervals (compute_live_intervals f)) ->
  (v, iv) ∈ intervals (compute_live_intervals f) -> exists j, (j < length ivs)%nat /\ ivs !! j = Some iv.
Proof.
  intros Hp Hin. assert (Hiv : iv ∈ ivs) by (rewrite Hp; apply (list_elem_of_fmap_2 snd _ (v, iv)); done).
  apply list_elem_of_lookup in Hiv as [j Hj]. exists j. split; [by eapply lookup_lt_Some|done].
Qed.

(** Two registers that are live at one instruction share no storage. *)
Lemma homes_apart (v v' : Z) (iv iv' : LiveInterval) (i : nat) (p q : PReg) :
  live_at v iv i -> live_at v' iv' i -> v <> v' -> home v = Some p -> home v' = Some q ->
  allocator_pregs_overlap p q = false.
Proof.
  intros Hv Hv' Hne Hp Hq. rewrite (home_interval v iv i) in Hp by done. rewrite (home_interval v' iv' i) in Hq by done.
  destruct arm_scanned as (s' & Hrun' & ivs & Hperm & Hs). rewrite Hrun in Hrun'. injection Hrun' as <-.
  destruct Hv as [Hv Lv], Hv' as [Hv' Lv'].
  destruct (in_scan ivs v iv Hperm Hv) as (j & Hj & Hxj), (in_scan ivs v' iv' Hperm Hv') as (k & Hk & Hyk).
  destruct (intervals_ok f v iv Hwf Hv) as (Sv & Iv & _), (intervals_ok f v' iv' Hwf Hv') as (Sw & Iw & _).
  apply (sc_pairs _ _ _ _ _ s Hs j k iv iv' p q); try done; [congruence|]. apply overlaps_spec; [done|done|eauto].
Qed.

(** A register lives in a register of a pool. *)
Lemma home_pooled (v : Z) (p : PReg) : home v = Some p -> exists iv regs, allocation s !! vreg iv = Some p /\
  mjoin (interval_vec f !! Z.to_nat v) = Some iv /\ target !! class (vreg iv) = Some regs /\ p ∈ regs.
Proof.
  unfold home. intros (iv & Hiv & Hp)%bind_Some. destruct arm_scanned as (s' & Hrun' & ivs & Hperm & Hs). rewrite Hrun in Hrun'. injection Hrun' as <-.
  destruct (sc_dom _ _ _ _ _ s Hs _ _ Hp) as (j & x & _ & Hx & Ex & _ & (regs & Hr & Hin) & _). rewrite Ex in Hr. by exists iv, regs.
Qed.

(** A physical register that is reserved at an instruction shares no storage with a
    register live at the instruction, unless the instruction is a copy of the pair. *)
Lemma home_clear (b i : nat) (v : Z) (iv : LiveInterval) (p q : PReg) :
  b ∈ block_order f -> i ∈ block_insts (block f b) -> live_at v iv i -> home v = Some q ->
  reserved_at (implicit_def_reservations f (number_insts f)) p (inst_num f i) -> allocator_pregs_overlap p q = true ->
  exists p', copy_related (inst f i) = Some (vreg iv, p') /\ q = hint_preg (vreg iv) p'.
Proof.
  intros Hb Hi Hv Hq (points & Hpts & Hpos) Ho. rewrite (home_interval v iv i) in Hq by done.
  destruct arm_scanned as (s' & Hrun' & ivs & Hperm & Hs). rewrite Hrun in Hrun'. injection Hrun' as <-.
  destruct Hv as [Hv Lv]. destruct (sc_dom _ _ _ _ _ s Hs _ _ Hq) as (j & x & _ & Hx & Ex & _ & _ & Hclear).
  destruct (intervals_ok f v iv Hwf Hv) as (Sv & Iv & _).
  assert (x = iv) as ->.
  { assert (Hxin : x ∈ snd <$> intervals (compute_live_intervals f)) by (rewrite <- Hperm; by eapply list_elem_of_lookup_2).
    apply list_elem_of_fmap_1 in Hxin as ([v' x'] & -> & Hx'). cbn [snd] in *.
    destruct (intervals_ok f v' x' Hwf Hx') as (_ & Iv' & _). assert (v' = v) as -> by congruence.
    by eapply intervals_functional. }
  specialize (Hclear p points (inst_num f i) Hpts Hpos Ho). rewrite is_live_at_spec in Hclear by done.
  apply Hclear, exempt_copy in Lv as (i' & r & p' & Hr & Hc & -> & Hn).
  assert (i' = i) as -> by (eapply (number_inj f Hwf); [done|by eapply number_laid]).
  exists p'. split; [|done]. unfold inst. by rewrite (list_lookup_total_correct _ _ _ Hr).
Qed.
End Allocated.

(** ** Execution

    A machine with an arbitrary state (memory, flags, control), a file of physical
    registers with a value for every view, and arbitrary instructions:
    [eff i (st, rho) uses (st', rho') defs] relates the state, the file and the values
    of the virtual uses of [i] to the next state, the next file and the values of its
    virtual definitions; [goto st b s] holds when control passes from the end of [b] to
    [s].  Before allocation the virtual registers are apart from the file; after it
    they share it. *)

(** A virtual register without a register lives in a slot of its own. *)
Inductive Loc := Reg (p : PReg) | Slot (v : Z).

#[export] Instance Loc_eq_dec : EqDecision Loc.
Proof. solve_decision. Defined.

Definition touches (a b : Loc) : Prop :=
  match a, b with
  | Reg p, Reg q => allocator_pregs_overlap p q = true
  | Slot v, Slot w => v = w
  | _, _ => False
  end.

Lemma touches_refl (a : Loc) : touches a a.
Proof. destruct a; [apply overlap_refl|done]. Qed.

(** A configuration: block, position in the block, state and registers. *)
Definition Config {State Val : Type} (R : Type) : Type := nat * nat * State * (R -> Val).

Section Virtual.
Context {State Val : Type} (eff : RegAllocInst -> State -> list Val -> State -> list Val -> Prop).
Context (goto : State -> nat -> nat -> Prop) (f : RegAllocFunction).

Inductive vstep : Config (State := State) (Val := Val) Z -> Config (State := State) (Val := Val) Z -> Prop :=
  | vstep_inst b k i st st' (m : Z -> Val) vals :
      block_insts (block f b) !! k = Some i ->
      eff (inst f i) st (m <$> ids (vreg_uses (inst f i))) st' vals ->
      length vals = length (vreg_defs (inst f i)) ->
      vstep (b, k, st, m) (b, S k, st', assign m (ids (vreg_defs (inst f i))) vals)
  | vstep_goto b s st m :
      s ∈ succs (block f b) -> goto st b s -> vstep (b, length (block_insts (block f b)), st, m) (s, 0%nat, st, m).
End Virtual.

Section Allocated_code.
Context {State Val : Type}.
Abbreviation FileState := (State * (PReg -> Val))%type.
Context (eff : RegAllocInst -> FileState -> list Val -> FileState -> list Val -> Prop).
Context (goto : State -> nat -> nat -> Prop) (f : RegAllocFunction) (home : Z -> option PReg).

Definition loc (v : Z) : Loc := match home v with Some p => Reg p | None => Slot v end.

(** The locations an instruction may change. *)
Definition clobbers (i : RegAllocInst) (l : Loc) : Prop :=
  (exists d, d ∈ ids (vreg_defs i) /\ touches (loc d) l) \/ (exists p, p ∈ preg_writes i /\ touches (Reg p) l).

(** An instruction of allocated code finds the file of physical registers in the
    locations, and reads and writes the locations of its virtual registers there.
    The views of a fixed register that it writes are what the machine makes them;
    what else a write may touch is arbitrary afterwards. *)
Definition pinst (i : RegAllocInst) (st : State) (m : Loc -> Val) (st' : State) (m' : Loc -> Val) : Prop :=
  exists vals rho rho', (forall p, rho p = m (Reg p)) /\
    eff i (st, rho) ((m ∘ loc) <$> ids (vreg_uses i)) (st', rho') vals /\
    length vals = length (vreg_defs i) /\
    (forall j d val, ids (vreg_defs i) !! j = Some d -> vals !! j = Some val -> m' (loc d) = val) /\
    (forall q, writes_view i q -> (forall d, d ∈ ids (vreg_defs i) -> ~ touches (loc d) (Reg q)) -> m' (Reg q) = rho' q) /\
    (forall l, ~ clobbers i l -> m' l = m l).

Inductive pstep : Config (State := State) (Val := Val) Loc -> Config (State := State) (Val := Val) Loc -> Prop :=
  | pstep_inst b k i st st' (m m' : Loc -> Val) :
      block_insts (block f b) !! k = Some i -> pinst (inst f i) st m st' m' ->
      pstep (b, k, st, m) (b, S k, st', m')
  | pstep_goto b s st m :
      s ∈ succs (block f b) -> goto st b s -> pstep (b, length (block_insts (block f b)), st, m) (s, 0%nat, st, m).

(** The two machines are at the same point and agree on the live virtual registers
    and on the fixed registers that are still to be read. *)
Definition matches (c : Config (State := FileState) (Val := Val) Z) (pc : Config (State := State) (Val := Val) Loc) : Prop :=
  let '(b, k, (st, rho), m) := c in let '(b', k', st', m') := pc in
  b' = b /\ k' = k /\ st' = st /\ b ∈ block_order f /\ (forall v, live_before f v b k -> m' (loc v) = m v) /\
  forall q, fixed_before f q b k -> m' (Reg q) = rho q.
End Allocated_code.

(** What the machine does with fixed registers: an instruction changes the views of
    those it writes only; what it does depends on the views of those it reads only;
    and a copy of a virtual register into a fixed one leaves the value in the view that
    the allocator would hint at. *)
Record fixed_machine {State Val : Type} (target : gmap RegClass (list PReg))
    (eff : RegAllocInst -> State * (PReg -> Val) -> list Val -> State * (PReg -> Val) -> list Val -> Prop) : Prop := mkFixedMachine {
  fm_frame : forall i st rho us st' rho' vals q, eff i (st, rho) us (st', rho') vals -> ~ writes_view i q -> rho' q = rho q;
  fm_local : forall i st rho us st' rho' vals rho1, eff i (st, rho) us (st', rho') vals ->
    (forall q, reads_view i q -> rho1 q = rho q) ->
    exists rho1', eff i (st, rho1) us (st', rho1') vals /\ forall q, writes_view i q -> rho1' q = rho' q;
  fm_copy : forall i v p regs st rho x us st' rho' vals, is_copy_opcode (opcode i) = true ->
    defs i = [PRegOp p] -> head (uses i) = Some (VRegOp v) -> target !! class v = Some regs -> hint_preg v p ∈ regs ->
    eff i (st, rho) (x :: us) (st', rho') vals -> rho' (hint_preg v p) = x }.

(** ** The simulation *)

(** Copies write one register and nothing implicitly; the definitions of an
    instruction are distinct. *)
Definition plain_copies (f : RegAllocFunction) : Prop :=
  forall i, i ∈ insts f -> is_copy_opcode (opcode i) = true -> length (defs i) = 1%nat /\ implicit_defs i = [].
Definition distinct_defs (f : RegAllocFunction) : Prop :=
  forall i, i ∈ insts f -> NoDup (ids (vreg_defs i)).

Section Simulation.
Context {State Val : Type} (eff : RegAllocInst -> State * (PReg -> Val) -> list Val -> State * (PReg -> Val) -> list Val -> Prop).
Context (goto : State -> nat -> nat -> Prop).
Context (f : RegAllocFunction) (Hwf : wf_func f) (Hcopies : plain_copies f).
Context (w : LiveInterval -> spec_float) (target : gmap RegClass (list PReg)) (config_hints : gmap VReg (list PReg)).
Context (Hmach : fixed_machine target eff) (Hfixed : fixed_regs_protected f target).
Context (s : LinearScan) (Hrun : linear_scan_arm w target config_hints f = inr s).

Abbreviation hm := (home f s).
Abbreviation ploc := (loc (home f s)).

Lemma locs_apart (v v' : Z) (iv iv' : LiveInterval) (i : nat) :
  live_at f v iv i -> live_at f v' iv' i -> v <> v' -> ~ touches (ploc v) (ploc v').
Proof.
  intros Hv Hv' Hne. unfold loc. destruct (hm v) as [p|] eqn:Ep, (hm v') as [q|] eqn:Eq; cbn [touches]; intros Ht; [|done..].
  by rewrite (homes_apart f Hwf w target config_hints s Hrun v v' iv iv' i p q) in Ht.
Qed.

Lemma touches_home v q : touches (ploc v) (Reg q) -> exists r, hm v = Some r /\ allocator_pregs_overlap r q = true.
Proof. unfold loc. destruct (hm v) as [r|]; [|done]. intros H. by exists r. Qed.

Section Instruction.
Context (b k i : nat) (Hb : b ∈ block_order f) (Hi : block_insts (block f b) !! k = Some i).

Lemma arena_inst : inst f i ∈ insts f.
Proof. apply list_elem_of_lookup_total_2. eapply insts_bound; [done|done|]. by eapply list_elem_of_lookup_2. Qed.

(** A copy between a virtual and a physical register defines one of them. *)
Lemma copy_cases v p : copy_related (inst f i) = Some (v, p) ->
  is_copy_opcode (opcode (inst f i)) = true /\
  ((vreg_defs (inst f i) = [v] /\ preg_writes (inst f i) = [] /\ p ∈ preg_reads (inst f i)) \/
   (vreg_defs (inst f i) = [] /\ preg_writes (inst f i) = [p] /\ defs (inst f i) = [PRegOp p] /\ head (uses (inst f i)) = Some (VRegOp v))).
Proof.
  unfold copy_related. destruct (is_copy_opcode (opcode (inst f i))) eqn:Ec; [|done].
  destruct (Hcopies _ arena_inst Ec) as [Hlen Himp]. unfold vreg_defs, preg_writes, preg_reads, preg_defs, preg_uses. rewrite Himp.
  destruct (defs (inst f i)) as [|d [|]]; try done. cbn [head]. intros H. split; [done|].
  destruct d as [dv|dp| | | |]; try done; destruct (uses (inst f i)) as [|[uv|up| | | |] us]; try done; cbn in H; injection H as -> ->.
  - left. split_and!; [done|done|left].
  - by right.
Qed.

(** The location of a definition is clear of the registers the instruction writes... *)
Lemma def_clear_writes d q : d ∈ ids (vreg_defs (inst f i)) -> writes_view (inst f i) q -> ~ touches (ploc d) (Reg q).
Proof.
  intros Hd (p & Hp & Ho) (r & Hr & Hrq)%touches_home.
  destruct (intervals_contain f b k i d Hwf Hb Hi (or_intror Hd)) as (iv & Hv).
  destruct (home_clear f Hwf w target config_hints s Hrun b i d iv p r) as (p' & Hc & ->); try done.
  - by eapply list_elem_of_lookup_2.
  - eapply (mention_reserved f Hwf b Hb k); [done|]. apply elem_of_app. by right.
  - eapply overlap_trans; [done|by apply overlap_sym].
  - apply copy_cases in Hc as [_ [(_ & E & _)|(E & _)]]; [rewrite E in Hp; by apply elem_of_nil in Hp|].
    rewrite E in Hd. by apply elem_of_nil in Hd.
Qed.

(** ... and of the fixed registers that hold a value. *)
Lemma def_clear_fixed d q : d ∈ ids (vreg_defs (inst f i)) -> fixed_before f q b (S k) -> ~ writes_view (inst f i) q ->
  ~ touches (ploc d) (Reg q).
Proof.
  intros Hd Hq Hnw (r & Hr & Hrq)%touches_home.
  destruct (home_pooled f Hwf w target config_hints s Hrun d r Hr) as (iv0 & regs & _ & _ & Hpool & Hin).
  destruct (Hfixed b k i q Hb Hi) as [Hcp Hprot]; [|done|done|by exists (class (vreg iv0)), regs, r|].
  { intros E. rewrite E in Hd. by apply elem_of_nil in Hd. }
  assert (Hhere : forall a, reserved_at (implicit_def_reservations f (number_insts f)) a (inst_num f i) ->
    allocator_pregs_overlap a q = true -> False).
  { intros a Ha Hao. destruct (intervals_contain f b k i d Hwf Hb Hi (or_intror Hd)) as (iv & Hv).
    destruct (home_clear f Hwf w target config_hints s Hrun b i d iv a r) as (p' & Hc & ->); try done.
    - by eapply list_elem_of_lookup_2.
    - eapply overlap_trans; [done|by apply overlap_sym].
    - specialize (Hcp _ _ Hc). rewrite (overlap_trans p' (hint_preg (vreg iv) p') q) in Hcp; [done|apply hint_overlap|done]. }
  destruct Hprot as [(a & Ha & Hao)|[Hout|[Hinc|(k1 & i1 & Hk & H1 & (a & Ha & Hao) & Hlive)]]].
  - apply (Hhere a); [|done]. by eapply (mention_reserved f Hwf b Hb k).
  - destruct (outgoing_reserved f Hwf b Hb k i q Hi Hout) as (a & Ha & Hao). by apply (Hhere a).
  - destruct (incoming_reserved f Hwf b Hb k i q Hi Hinc) as (a & Ha & Hao). by apply (Hhere a).
  - destruct (Hlive d Hd) as [Hl Hnc].
    destruct (intervals_contain f b k1 i1 d Hwf Hb H1 (or_introl Hl)) as (iv & Hv).
    destruct (home_clear f Hwf w target config_hints s Hrun b i1 d iv a r) as (p' & Hc & ->); try done.
    + by eapply list_elem_of_lookup_2.
    + by eapply (mention_reserved f Hwf b Hb k1).
    + eapply overlap_trans; [done|by apply overlap_sym].
    + apply (Hnc _ _ Hc). by destruct (intervals_ok f d iv Hwf (proj1 Hv)) as (_ & -> & _).
Qed.

(** A virtual register that is live across the instruction: its location is not
    written, or it is copied to the register it lives in. *)
Lemma live_kept (v : Z) : live_before f v b (S k) -> v ∉ ids (vreg_defs (inst f i)) ->
  ~ clobbers hm (inst f i) (ploc v) \/
  exists u p regs, id u = v /\ vreg_defs (inst f i) = [] /\ defs (inst f i) = [PRegOp p] /\ head (uses (inst f i)) = Some (VRegOp u) /\
    is_copy_opcode (opcode (inst f i)) = true /\ target !! class u = Some regs /\ hint_preg u p ∈ regs /\
    ploc v = Reg (hint_preg u p) /\ writes_view (inst f i) (hint_preg u p).
Proof.
  intros Hl Hnd. destruct (live_after_contained f b k i v Hwf Hb Hi Hl) as (iv & Hv).
  assert (Hdef : forall d, d ∈ ids (vreg_defs (inst f i)) -> ~ touches (ploc d) (ploc v)).
  { intros d Hd. destruct (intervals_contain f b k i d Hwf Hb Hi (or_intror Hd)) as (id_ & Hd').
    apply (locs_apart d v id_ iv i); [done|done|by intros ->]. }
  assert (Hcase : (exists q, hm v = Some q /\ writes_view (inst f i) q) \/ ~ exists q, hm v = Some q /\ writes_view (inst f i) q).
  { destruct (hm v) as [q|]; [|right; by intros (q & [=] & _)].
    destruct (decide (writes_view (inst f i) q)); [left; by exists q|right]. by intros (q' & [= <-] & Hq'). }
  destruct Hcase as [(q & Hq & (p & Hp & Ho))|Hn].
  - right. destruct (home_clear f Hwf w target config_hints s Hrun b i v iv p q) as (p' & Hc & ->); try done.
    { by eapply list_elem_of_lookup_2. }
    { eapply (mention_reserved f Hwf b Hb k); [done|]. apply elem_of_app. by right. }
    destruct (intervals_ok f v iv Hwf (proj1 Hv)) as (_ & Iv & _).
    destruct (copy_cases _ _ Hc) as [Hop [(E & _)|(E1 & E2 & E3 & E4)]].
    { destruct Hnd. rewrite E. cbn. rewrite Iv. left. }
    destruct (home_pooled f Hwf w target config_hints s Hrun v _ Hq) as (iv0 & regs & _ & Hiv0 & Hpool & Hin).
    destruct Hv as [[_ Hk]%elem_of_intervals _]. rewrite Hk in Hiv0. cbn in Hiv0. injection Hiv0 as <-.
    exists (vreg iv), p', regs. split_and!; try done; [unfold loc; by rewrite Hq|by exists p].
  - left. intros [(d & Hd & Ht)|(p & Hp & Ht)]; [by apply (Hdef d)|]. apply Hn. unfold loc in Ht.
    destruct (hm v) as [q|]; [|done]. exists q. split; [done|]. by exists p.
Qed.

(** What the constraints on the locations give for the values. *)
Lemma step_matches (st st' : State) (rho rho' rt rt' : PReg -> Val) (m : Z -> Val) (pm pm' : Loc -> Val) (us vals : list Val) :
  (forall v, live_before f v b k -> pm (ploc v) = m v) -> (forall q, fixed_before f q b k -> pm (Reg q) = rho q) ->
  us = m <$> ids (vreg_uses (inst f i)) ->
  eff (inst f i) (st, rho) us (st', rho') vals -> eff (inst f i) (st, rt) us (st', rt') vals ->
  (forall q, writes_view (inst f i) q -> rt' q = rho' q) -> length vals = length (vreg_defs (inst f i)) ->
  (forall j d val, ids (vreg_defs (inst f i)) !! j = Some d -> vals !! j = Some val -> pm' (ploc d) = val) ->
  (forall q, writes_view (inst f i) q -> (forall d, d ∈ ids (vreg_defs (inst f i)) -> ~ touches (ploc d) (Reg q)) -> pm' (Reg q) = rt' q) ->
  (forall l, ~ clobbers hm (inst f i) l -> pm' l = pm l) ->
  matches f hm (b, S k, (st', rho'), assign m (ids (vreg_defs (inst f i))) vals) (b, S k, st', pm').
Proof.
  intros Hm Hf Hus Heff Hefft Hw Hlen Hdef Hwr Hkeep. split_and!; try done.
  - intros v Hl. destruct (decide (v ∈ ids (vreg_defs (inst f i)))) as [Hin|Hn].
    + destruct (assign_in m (ids (vreg_defs (inst f i))) vals v Hin) as (j & u & Hj & Hu & ->); [|by eapply Hdef].
      unfold ids. by rewrite length_fmap.
    + rewrite assign_out by done. assert (Hl0 : live_before f v b k) by by eapply live_skip.
      destruct (live_kept v Hl Hn) as [Hc|(u & p & regs & Eu & Hnd & Ed & Eh & Hop & Hpool & Hin & El & Hwv)].
      * rewrite Hkeep by done. by apply Hm.
      * rewrite El, Hwr; [|done|rewrite Hnd; by intros d []%elem_of_nil].
        assert (Eus : exists us', us = m v :: us').
        { unfold vreg_uses in Hus. destruct (uses (inst f i)) as [|op ops]; [done|]. injection Eh as ->. cbn in Hus. rewrite Eu in Hus. eauto. }
        destruct Eus as [us' ->]. by eapply (fm_copy _ _ Hmach).
  - intros q Hq. destruct (decide (writes_view (inst f i) q)) as [Hwv|Hnw].
    + rewrite Hwr, Hw; [done|done|done|]. intros d Hd. by apply def_clear_writes.
    + assert (Hq0 : fixed_before f q b k) by by eapply fixed_skip. rewrite Hkeep.
      * rewrite (fm_frame _ _ Hmach _ _ _ _ _ _ _ q Heff Hnw). by apply Hf.
      * intros [(d & Hd & Ht)|(p & Hp & Ht)]; [by apply (def_clear_fixed d q)|]. apply Hnw. by exists p.
Qed.

Lemma uses_agree (m : Z -> Val) (pm : Loc -> Val) : (forall v, live_before f v b k -> pm (ploc v) = m v) ->
  (pm ∘ ploc) <$> ids (vreg_uses (inst f i)) = m <$> ids (vreg_uses (inst f i)).
Proof.
  intros Hm. apply list_fmap_ext. intros j v Hv. cbn. apply Hm. eapply live_use; [done|]. by eapply list_elem_of_lookup_2.
Qed.
End Instruction.

Abbreviation vgoto := (fun st : State * (PReg -> Val) => goto st.1).

Lemma matches_goto b x (st : State) (rho : PReg -> Val) m pm : x ∈ succs (block f b) ->
  matches f hm (b, length (block_insts (block f b)), (st, rho), m) (b, length (block_insts (block f b)), st, pm) ->
  matches f hm (x, 0%nat, (st, rho), m) (x, 0%nat, st, pm).
Proof.
  intros Hx (_ & _ & _ & Hb & Hm & Hf). split_and!; try done; [by eapply succs_ordered| |].
  - intros v Hl. apply Hm. by eapply live_succ.
  - intros q Hq. apply Hf. by eapply fixed_succ.
Qed.

Lemma simulation_back c pc pc' :
  matches f hm c pc -> pstep eff goto f hm pc pc' -> exists c', vstep eff vgoto f c c' /\ matches f hm c' pc'.
Proof.
  destruct c as [[[b k] [st rho]] m]. intros Hmt Hstep.
  destruct Hstep as [b' k' i st0 st' pm pm' Hi (vals & rt & rt' & Hrt & He & Hlen & Hdef & Hwr & Hkeep)|b' x st0 pm Hx Hg];
    pose proof Hmt as (-> & Ek & -> & Hb & Hm & Hf); subst.
  - rewrite (uses_agree b k i Hi m pm Hm) in He.
    destruct (fm_local _ _ Hmach _ _ _ _ _ _ _ rho He) as (rho' & He' & Hw).
    { intros q Hq. rewrite Hrt. symmetry. apply Hf. by eapply fixed_read. }
    eexists. split; [eapply vstep_inst; [done|exact He'|done]|].
    eapply (step_matches b k i Hb Hi st st' rho rho' rt rt' m pm pm'); try done. intros q Hq. symmetry. by apply Hw.
  - exists (x, 0%nat, (st, rho), m). split; [by apply (vstep_goto eff vgoto f b x (st, rho) m)|]. by eapply matches_goto.
Qed.

Lemma simulation_forth c c' pc :
  distinct_defs f -> matches f hm c pc -> vstep eff vgoto f c c' ->
  exists pc', pstep eff goto f hm pc pc' /\ matches f hm c' pc'.
Proof.
  intros Hdd. destruct pc as [[[b k] st] pm]. intros Hmt Hstep.
  destruct Hstep as [b' k' i [st0 rho] [st' rho'] m vals Hi He Hlen|b' x [st0 rho] m Hx Hg]; pose proof Hmt as (-> & -> & -> & Hb & Hm & Hf).
  - set (ds := ids (vreg_defs (inst f i))).
    destruct (fm_local _ _ Hmach _ _ _ _ _ _ _ (fun p => pm (Reg p)) He) as (rt' & He' & Hw).
    { intros q Hq. apply Hf. by eapply fixed_read. }
    set (pm1 := fun l => match l with Reg q => if decide (writes_view (inst f i) q) then rt' q else pm l | Slot _ => pm l end).
    set (pm' := assign pm1 (ploc <$> ds) vals).
    assert (Hnd : NoDup (ploc <$> ds)).
    { apply NoDup_fmap_2_strong; [|by apply Hdd, (arena_inst b' k')]. intros d d' Hd Hd' E. destruct (decide (d = d')) as [|Hne]; [done|].
      destruct (intervals_contain f b' k' i d Hwf Hb Hi (or_intror Hd)) as (x & Hx).
      destruct (intervals_contain f b' k' i d' Hwf Hb Hi (or_intror Hd')) as (y & Hy).
      destruct (locs_apart d d' x y i Hx Hy Hne). rewrite E. apply touches_refl. }
    assert (Hll : length vals = length (ploc <$> ds)) by (unfold ds, ids; rewrite !length_fmap; done).
    assert (Hdef : forall j d val, ds !! j = Some d -> vals !! j = Some val -> pm' (ploc d) = val).
    { intros j d val Hd Hv. eapply assign_nodup; [done|done| |done]. by rewrite list_lookup_fmap, Hd. }
    assert (Hwr : forall q, writes_view (inst f i) q -> (forall d, d ∈ ds -> ~ touches (ploc d) (Reg q)) -> pm' (Reg q) = rt' q).
    { intros q Hq Hno. unfold pm'. rewrite assign_out; [cbn; by rewrite decide_True|].
      intros (d & E & Hd)%list_elem_of_fmap_1. apply (Hno d Hd). rewrite <- E. apply touches_refl. }
    assert (Hkeep : forall l, ~ clobbers hm (inst f i) l -> pm' l = pm l).
    { intros l Hl. unfold pm'. rewrite assign_out.
      - destruct l as [q|]; [|done]. cbn. rewrite decide_False; [done|]. intros (p & Hp & Ho). apply Hl. right. by exists p.
      - intros (d & -> & Hd)%list_elem_of_fmap_1. apply Hl. left. exists d. split; [done|apply touches_refl]. }
    exists (b', S k', st', pm'). split.
    + eapply pstep_inst; [done|]. exists vals, (fun p => pm (Reg p)), rt'. rewrite (uses_agree b' k' i Hi m pm Hm). done.
    + by eapply (step_matches b' k' i Hb Hi st0 st' rho rho' (fun p => pm (Reg p)) rt' m pm pm').
  - eexists. split; [by eapply pstep_goto|]. by eapply matches_goto.
Qed.

Lemma run_back c pc pc' : matches f hm c pc -> rtc (pstep eff goto f hm) pc pc' -> exists c', rtc (vstep eff vgoto f) c c' /\ matches f hm c' pc'.
Proof.
  intros Hm Hr. revert c Hm. induction Hr as [|pc pc1 pc' Hstep _ IH]; intros c Hm; [by exists c; split|].
  destruct (simulation_back c pc pc1 Hm Hstep) as (c1 & Hs1 & Hm1).
  destruct (IH c1 Hm1) as (c' & Hr' & Hm'). exists c'. split; [by eapply rtc_l|done].
Qed.

Lemma run_forth c c' pc : distinct_defs f -> matches f hm c pc -> rtc (vstep eff vgoto f) c c' ->
  exists pc', rtc (pstep eff goto f hm) pc pc' /\ matches f hm c' pc'.
Proof.
  intros Hdd Hm Hr. revert pc Hm. induction Hr as [|c c1 c' Hstep _ IH]; intros pc Hm; [by exists pc; split|].
  destruct (simulation_forth c c1 pc Hdd Hm Hstep) as (pc1 & Hs1 & Hm1).
  destruct (IH pc1 Hm1) as (pc' & Hr' & Hm'). exists pc'. split; [by eapply rtc_l|done].
Qed.
End Simulation.

(** C2: Register allocation by linear scan preserves execution, the values in fixed
    physical registers included.  For every well-formed function whose values in
    allocatable fixed registers are protected as lowering protects them (call
    arguments from their setup to the call, incoming arguments in the entry block,
    results next to a definition that outlives them), and every machine in which
    instructions read and write no fixed registers but those they list, the composition
    of liveness, intervals, reservations, copy hints and linear scan succeeds, and the
    allocated code, whose virtual registers share the register file with the fixed
    ones, and the code over virtual registers simulate each other: from configurations
    at the same point that agree on the live registers and on the fixed registers
    still to be read, every run of one is matched by a run of the other that ends at
    the same point, with the same state, and agreeing in the same way. *)
Theorem allocation_preserves_execution {State Val : Type}
    (eff : RegAllocInst -> State * (PReg -> Val) -> list Val -> State * (PReg -> Val) -> list Val -> Prop)
    (goto : State -> nat -> nat -> Prop)
    (f : RegAllocFunction) (w : LiveInterval -> spec_float) (target : gmap RegClass (list PReg))
    (config_hints : gmap VReg (list PReg)) :
  wf_func f -> plain_copies f -> distinct_defs f -> fixed_regs_protected f target -> fixed_machine target eff ->
  exists s, linear_scan_arm w target config_hints f = inr s /\
    forall c pc, matches f (home f s) c pc ->
      (forall pc', rtc (pstep eff goto f (home f s)) pc pc' ->
         exists c', rtc (vstep eff (fun st => goto st.1) f) c c' /\ matches f (home f s) c' pc') /\
      (forall c', rtc (vstep eff (fun st => goto st.1) f) c c' ->
         exists pc', rtc (pstep eff goto f (home f s)) pc pc' /\ matches f (home f s) c' pc').
Proof.
  intros Hwf Hcp Hdd Hfix Hmach. destruct (arm_scanned f Hwf w target config_hints) as (s & Hrun & _). exists s. split; [done|].
  intros c pc Hm. split.
  - intros pc' Hr. by apply (run_back eff goto f Hwf Hcp w target config_hints Hmach Hfix s Hrun c pc).
  - intros c' Hr. by apply (run_forth eff goto f Hwf Hcp w target config_hints Hmach Hfix s Hrun c c' pc).
Qed.

(** The registers of the counted loop: v0, whose interval starts first, takes the
    X0 that the copy at the end would have wanted for v1. *)
Example demo_homes :
  match linear_scan_arm demo_weight aarch64_allocatable_regs ∅ demo_func with
  | inr s => (home demo_func s <$> [0; 1; 2], spills s) = ([Some (mkPReg 0); Some (mkPReg 1); Some (mkPReg 2)], [])
  | inl _ => False
  end.
Proof. vm_compute. reflexivity. Qed.

(** ** An example *)

(** A machine whose instructions add up what they read; copies copy. *)
Definition sum_value (i : RegAllocInst) (us : list Z) (rho : PReg -> Z) : Z :=
  if is_copy_opcode (opcode i) then default 0 (head (us ++ (rho <$> preg_reads i)))
  else fold_left Z.add (us ++ (rho <$> preg_reads i)) 1.

(** The file afterwards. *)
Definition sum_file (i : RegAllocInst) (us : list Z) (rho : PReg -> Z) : PReg -> Z :=
  match preg_writes i with
  | [] => rho
  | _ => fun q => if decide (writes_view i q) then sum_value i us rho else rho q
  end.

Definition sum_machine (i : RegAllocInst) (st : Z * (PReg -> Z)) (us : list Z) (st' : Z * (PReg -> Z)) (ds : list Z) : Prop :=
  st'.1 = st.1 /\ ds = map (fun _ => sum_value i us st.2) (vreg_defs i) /\
  st'.2 = sum_file i us st.2.

Lemma sum_file_at i us rho q : sum_file i us rho q = if decide (writes_view i q) then sum_value i us rho else rho q.
Proof.
  unfold sum_file. destruct (preg_writes i) as [|p ps] eqn:E; [|done]. rewrite decide_False; [done|].
  intros (p & Hp & _). rewrite E in Hp. by apply elem_of_nil in Hp.
Qed.

Lemma sum_value_local i us (rho rho1 : PReg -> Z) : (forall q, reads_view i q -> rho1 q = rho q) -> sum_value i us rho1 = sum_value i us rho.
Proof.
  intros Heq. assert (El : rho1 <$> preg_reads i = rho <$> preg_reads i); [|unfold sum_value; by rewrite El].
  apply list_fmap_ext. intros j p Hp. apply Heq. exists p. split; [by eapply list_elem_of_lookup_2|apply overlap_refl].
Qed.

Lemma sum_file_copy i v p x us (rho : PReg -> Z) : is_copy_opcode (opcode i) = true -> defs i = [PRegOp p] ->
  sum_file i (x :: us) rho (hint_preg v p) = x.
Proof.
  intros Hc Hd. rewrite sum_file_at, decide_True; [unfold sum_value; by rewrite Hc|].
  exists p. split; [|apply hint_overlap]. unfold preg_writes, preg_defs. rewrite Hd. left.
Qed.

Lemma sum_machine_fixed target : fixed_machine target sum_machine.
Proof.
  split.
  - intros i st rho us st' rho' vals q (_ & _ & E) Hn. cbn in E. subst rho'. by rewrite sum_file_at, decide_False.
  - intros i st rho us st' rho' vals rho1 (E1 & E2 & E3) Heq. cbn in *. pose proof (sum_value_local i us rho rho1 Heq) as Ev.
    exists (sum_file i us rho1). split; [split_and!; cbn; [done|by rewrite Ev|done]|]. intros q Hq. subst rho'.
    by rewrite !sum_file_at, !decide_True.
  - intros i v p regs st rho x us st' rho' vals Hc Hd Hu _ _ (_ & _ & E). cbn in E. subst rho'. by apply sum_file_copy.
Qed.

(** A function of two arguments in [X0] and [X1] that calls another one: the second
    argument of the call is computed after the first is set up, and both results
    are read. *)
Definition demo_call : RegAllocFunction :=
  let v n := VRegOp (gpr n) in let x n := PRegOp (mkPReg n) in
  mkRFunc
    [ mkRInst 276 [v 0] [x 0] [] [] 0; mkRInst 276 [v 1] [x 1] [] [] 0; mkRInst 1 [v 2] [v 0; v 1] [] [] 0;
      mkRInst 276 [x 0] [v 2] [] [] 0; mkRInst 1 [v 3] [v 1] [] [] 0; mkRInst 276 [x 1] [v 3] [] [] 0;
      mkRInst 2 [] [] [mkPReg 0; mkPReg 1] [mkPReg 0; mkPReg 1] 1;
      mkRInst 276 [v 4] [x 0] [] [] 0; mkRInst 276 [v 5] [x 1] [] [] 0; mkRInst 1 [v 6] [v 4; v 5] [] [] 0;
      mkRInst 276 [x 0] [v 6] [] [] 0; mkRInst 3 [] [] [] [mkPReg 0] 0x0C ]
    [mkRBlock (seq 0 12) [] [] 0] [0%nat] 0 7.

Lemma demo_call_wf : wf_func demo_call.
Proof. apply wf_check_sound. by vm_compute. Qed.

Lemma demo_call_protected target : fixed_regs_protected demo_call target.
Proof.
  apply (protected_by_walk demo_call demo_call_wf (fun _ => [mkPReg 0; mkPReg 1])).
  { intros b ->%list_elem_of_singleton. by vm_compute. }
  intros b k i a ->%list_elem_of_singleton Hi Hd Ha.
  do 12 (try (destruct k as [|k]; [injection Hi as <-; cbn in Hd; try done; vm_compute in Ha; try by apply elem_of_nil in Ha|])); [..|done];
    apply list_elem_of_singleton in Ha as ->.
  - split; [by intros v p [= <- <-]|]. right. right. left. split; [done|]. exists 1%nat, 1%nat, (mkPReg 1). split_and!; [lia|done|left|done|].
    intros [|j] i Hj Hi'; [|lia]. injection Hi' as <-. by apply (bool_decide_unpack _).
  - split; [done|]. right. left. exists 3%nat, 6%nat, 3%nat, 6%nat, (mkPReg 0), (mkPReg 0). split_and!; try done; [lia|lia|left|left|left|].
    intros j i Hj Hi'. assert (j = 4 \/ j = 5)%nat as [-> | ->] by lia; injection Hi' as <-; by apply (bool_decide_unpack _).
  - split; [by intros v p [= <- <-]|]. do 3 right. exists 8%nat, 8%nat. split_and!; [lia|done| |].
    + exists (mkPReg 1). split; [left|done].
    + intros d ->%list_elem_of_singleton. split; [|by intros v p [= <- <-]].
      eapply live_skip; [done| |eapply live_use; [done|left]]. by apply (bool_decide_unpack _).
Qed.

Lemma sum_step g f b k i st (rho : PReg -> Z) (m : Z -> Z) : block_insts (block f b) !! k = Some i ->
  let us := m <$> ids (vreg_uses (inst f i)) in
  vstep sum_machine g f (b, k, (st, rho), m)
    (b, S k, (st, sum_file (inst f i) us rho), assign m (ids (vreg_defs (inst f i))) (map (fun _ => sum_value (inst f i) us rho) (vreg_defs (inst f i)))).
Proof. intros Hi. eapply vstep_inst; [done|by split_and!|by rewrite length_map]. Qed.

(** The run over virtual registers with the arguments 5 and 7. *)
Definition demo_args (l : Loc) : Z :=
  match l with Reg p => if encoding p =? 0 then 5 else if encoding p =? 1 then 7 else 0 | Slot _ => 0 end.

Lemma demo_call_run (m : Z -> Z) : exists rho m',
  rtc (vstep sum_machine (fun _ _ _ => True) demo_call) (0%nat, 0%nat, (3, fun p => demo_args (Reg p)), m) (0%nat, 11%nat, (3, rho), m') /\
  rho (mkPReg 0) = 45.
Proof.
  eexists _, _. split.
  - do 11 (eapply rtc_l; [apply sum_step; reflexivity|]). apply rtc_refl.
  - vm_compute. reflexivity.
Qed.

(** The value returned is in [X0] at the end. *)
Lemma allocation_preserves_execution_witness :
  exists s, linear_scan_arm demo_weight aarch64_allocatable_regs ∅ demo_call = inr s /\
    exists pm', rtc (pstep sum_machine (fun _ _ _ => True) demo_call (home demo_call s)) (0%nat, 0%nat, 3, demo_args) (0%nat, 11%nat, 3, pm') /\
      pm' (Reg (mkPReg 0)) = 45.
Proof.
  destruct (allocation_preserves_execution sum_machine (fun _ _ _ => True) demo_call demo_weight aarch64_allocatable_regs ∅)
    as (s & Hrun & Hsim).
  - exact demo_call_wf.
  - intros i Hi. apply (Forall_forall (fun i => is_copy_opcode (opcode i) = true -> length (defs i) = 1%nat /\ implicit_defs i = [])
      (insts demo_call)); [|exact Hi]. repeat constructor; discriminate.
  - intros i Hi. apply (Forall_forall (fun i => NoDup (ids (vreg_defs i))) (insts demo_call)); [|exact Hi].
    apply (bool_decide_unpack _). vm_compute. exact I.
  - apply demo_call_protected.
  - apply sum_machine_fixed.
  - exists s. split; [exact Hrun|].
    destruct (Hsim (0%nat, 0%nat, (3, fun p => demo_args (Reg p)), fun v => demo_args (loc (home demo_call s) v)) (0%nat, 0%nat, 3, demo_args)) as [_ Hforth].
    { do 3 (split; [reflexivity|]). split; [left|]. split; intros; reflexivity. }
    destruct (demo_call_run (fun v => demo_args (loc (home demo_call s) v))) as (rho & m' & Hv & E).
    destruct (Hforth _ Hv) as ([[[b k] st] pm'] & Hr & -> & -> & -> & _ & _ & Hf). exists pm'. split; [exact Hr|].
    rewrite Hf; [exact E|]. eapply fixed_read; [reflexivity|]. exists (mkPReg 0). split; [left|reflexivity].
Defined.

(** The pointer to an aggregate result arrives in [X8] and is read in a later block:
    nothing protects it.  With [X8] in the pool a register takes it; the pools of
    AArch64 leave it out. *)
Definition demo_sret : RegAllocFunction :=
  let v n := VRegOp (gpr n) in
  mkRFunc
    [ mkRInst 1 [v 0] [] [] [] 0; mkRInst 4 [] [v 0] [] [] 0; mkRInst 2 [] [BlockOp 1] [] [] 0x0A;
      mkRInst 4 [] [] [] [mkPReg 8] 0; mkRInst 3 [] [] [] [] 0x0C ]
    [mkRBlock [0; 1; 2]%nat [] [1]%nat 0; mkRBlock [3; 4]%nat [0]%nat [] 0] [0; 1]%nat 0 1.

Lemma demo_sret_wf : wf_func demo_sret.
Proof. apply wf_check_sound. by vm_compute. Qed.

Example sret_pointer_taken :
  match linear_scan_arm demo_weight {[Gpr64 := [mkPReg 8]]} ∅ demo_sret with
  | inr s => home demo_sret s 0 = Some (mkPReg 8)
  | inl _ => False
  end /\
  ~ fixed_regs_protected demo_sret {[Gpr64 := [mkPReg 8]]} /\ fixed_regs_protected demo_sret aarch64_allocatable_regs.
Proof.
  split; [by vm_compute|]. split.
  - intros H. destruct (H 0%nat 0%nat 0%nat (mkPReg 8)) as [_ Hp]; [left|done|done| | | |].
    + do 2 (eapply fixed_skip; [reflexivity|by apply (bool_decide_unpack _)|]). apply (fixed_succ demo_sret _ 0 1); [left|].
      eapply fixed_read; [reflexivity|]. exists (mkPReg 8). split; [left|done].
    + by apply (bool_decide_unpack _).
    + exists Gpr64, [mkPReg 8], (mkPReg 8). split_and!; [done|left|done].
    + destruct Hp as [(a & Ha & _)|[(k0 & k1 & ? & ? & ? & ? & Hk & _)|[(_ & k1 & i1 & a & Hk & Hi & Ha & _)|(k1 & i1 & Hk & Hi & (a & Ha & _) & _)]]].
      1: by apply elem_of_nil in Ha.
      1: lia.
      all: destruct k1 as [|[|[|k1]]]; [lia|..|done]; injection Hi as <-; by apply elem_of_nil in Ha.
  - intros b k i q Hb Hi _ Hq _ (c & regs & p & Hc & Hp & Ho). exfalso.
    destruct (fixed_bound demo_sret demo_sret_wf (fun _ => [mkPReg 8])) with (q := q) (b := b) (k := S k) as (a & Ha & Haq); [|done|done|].
    { intros b' Hb'. apply elem_of_cons in Hb' as [->|Hb']; [by vm_compute|]. apply list_elem_of_singleton in Hb' as ->. by vm_compute. }
    assert (a = mkPReg 8) as ->.
    { revert Ha. apply elem_of_cons in Hb as [->|Hb]; [|apply list_elem_of_singleton in Hb as ->]; do 3 (destruct k as [|k]; [vm_compute; set_solver|]); vm_compute; set_solver. }
    assert (Hpa : allocator_pregs_overlap (mkPReg 8) p = true) by (eapply overlap_trans; [exact Haq|by apply overlap_sym]).
    assert (Hall : forallb (fun '(_, l) => forallb (fun p => negb (allocator_pregs_overlap (mkPReg 8) p)) l) (map_to_list aarch64_allocatable_regs) = true) by by vm_compute.
    rewrite forallb_forall in Hall. specialize (Hall (c, regs)). cbn in Hall. rewrite forallb_forall in Hall.
    apply elem_of_map_to_list, list_elem_of_In in Hc. apply list_elem_of_In in Hp. specialize (Hall Hc p Hp). by rewrite Hpa in Hall.
Qed.
