(* ===== verification/ParCopy.v ===== *)
(** * Parallel copies ([crates/trust-cg-lower/src/adapter.rs],
      [schedule_parallel_copies]; [crates/trust-cg-regalloc/src/phi_elim.rs],
      [resolve_parallel_copies])

    Two routines turn simultaneous assignments into a sequence of copies: the one
    that lowers block arguments and the one that lowers phis.  They differ in the
    order in which they look at the pending copies and share the argument: emitting
    a copy whose destination no pending copy reads, and saving the destination of a
    blocked copy in a fresh register, both keep the meaning of what is pending. *)

From S2P Require Import Prelude Regs.
Local Open Scope Z_scope.

(** ** Sequences and sets of copies *)

(** Copies are pairs of destination and source. *)
Section Copies.
Context {A V : Type} `{EqDecision A}.

Definition update (m : A -> V) (d : A) (v : V) : A -> V := fun x => if decide (x = d) then v else m x.

(** One copy after the other. *)
Definition run_copies (cs : list (A * A)) (m : A -> V) : A -> V :=
  fold_left (fun m (c : A * A) => update m c.1 (m c.2)) cs m.

(** All sources are read before any destination is written. *)
Fixpoint par_copies (cs : list (A * A)) (m : A -> V) (x : A) : V :=
  match cs with
  | [] => m x
  | c :: cs => if decide (x = c.1) then m c.2 else par_copies cs m x
  end.

Lemma run_copies_app cs cs' m : run_copies (cs ++ cs') m = run_copies cs' (run_copies cs m).
Proof. apply fold_left_app. Qed.

Lemma update_eq m d v : update m d v d = v.
Proof. unfold update. by rewrite decide_True. Qed.

Lemma update_ne m d v x : x <> d -> update m d v x = m x.
Proof. intros. unfold update. by rewrite decide_False. Qed.

Lemma par_copies_in (cs : list (A * A)) (m : A -> V) d s : NoDup cs.*1 -> (d, s) ∈ cs -> par_copies cs m d = m s.
Proof.
  induction cs as [|[d' s'] cs IH]; cbn; intros Hnd Hin; [by apply elem_of_nil in Hin|].
  apply NoDup_cons in Hnd as [Hn Hnd]. apply elem_of_cons in Hin as [[= -> ->]|Hin]; [by rewrite decide_True|].
  rewrite decide_False; [by apply IH|]. intros ->. apply Hn. by apply (list_elem_of_fmap_2 fst _ (d', s)).
Qed.

Lemma par_copies_out (cs : list (A * A)) (m : A -> V) x : x ∉ cs.*1 -> par_copies cs m x = m x.
Proof.
  induction cs as [|c cs IH]; cbn; intros Hx; [done|]. apply not_elem_of_cons in Hx as [Hne Hx].
  rewrite decide_False by done. by apply IH.
Qed.

(** A register is a destination or not. *)
Lemma par_copies_case (cs : list (A * A)) (x : A) : (exists s, (x, s) ∈ cs) \/ x ∉ cs.*1.
Proof.
  destruct (decide (x ∈ cs.*1)) as [Hin|]; [left|by right].
  apply list_elem_of_fmap_1 in Hin as ([d s] & -> & H). by exists s.
Qed.

Lemma par_copies_perm (cs cs' : list (A * A)) (m : A -> V) x : NoDup cs.*1 -> cs ≡ₚ cs' -> par_copies cs m x = par_copies cs' m x.
Proof.
  intros Hnd Hp. assert (Hnd' : NoDup cs'.*1) by (by rewrite <- Hp).
  destruct (par_copies_case cs x) as [[s Hs]|Hn].
  - rewrite (par_copies_in cs m x s), (par_copies_in cs' m x s); [done|done|by rewrite <- Hp|done|done].
  - rewrite !par_copies_out; [done|by rewrite <- Hp|done].
Qed.

(** Copies of a register to itself do nothing. *)
Lemma par_copies_filter (cs : list (A * A)) (m : A -> V) x :
  NoDup cs.*1 -> par_copies (filter (fun c : A * A => c.1 <> c.2) cs) m x = par_copies cs m x.
Proof.
  induction cs as [|[d s] cs IH]; intros Hnd; [done|]. cbn in Hnd. apply NoDup_cons in Hnd as [Hn Hnd].
  rewrite filter_cons. case_decide as Hne; cbn; [by rewrite IH|].
  cbn in Hne. assert (d = s) as -> by (destruct (decide (d = s)); [done|]; exfalso; auto).
  rewrite IH by done. case_decide as Ex; [subst|done]. by rewrite par_copies_out.
Qed.

(** A copy whose destination no other copy reads may go first. *)
Lemma par_copies_emit (d s : A) (cs : list (A * A)) (m : A -> V) (x : A) :
  NoDup (d :: cs.*1) -> d ∉ cs.*2 -> par_copies cs (update m d (m s)) x = par_copies ((d, s) :: cs) m x.
Proof.
  intros [Hd Hnd]%NoDup_cons Hs. cbn. case_decide as Ex; [subst|].
  - rewrite par_copies_out by done. apply update_eq.
  - destruct (par_copies_case cs x) as [[s' Hin]|Hn].
    + rewrite !(par_copies_in cs _ x s') by done. apply update_ne. intros ->. apply Hs.
      by apply (list_elem_of_fmap_2 snd _ (x, d)).
    + rewrite !par_copies_out by done. by apply update_ne.
Qed.

(** Reading [t] instead of [d]. *)
Definition redirect (d t : A) (cs : list (A * A)) : list (A * A) :=
  (fun c : A * A => (c.1, if decide (c.2 = d) then t else c.2)) <$> cs.

Lemma redirect_dests d t cs : (redirect d t cs).*1 = cs.*1.
Proof. unfold redirect. rewrite <- list_fmap_compose. by apply list_fmap_ext. Qed.

Lemma redirect_srcs (d t : A) (cs : list (A * A)) (y : A) : y ∈ (redirect d t cs).*2 -> y = t \/ y ∈ cs.*2.
Proof.
  unfold redirect. rewrite <- list_fmap_compose. intros (c & -> & Hc)%list_elem_of_fmap_1. cbn.
  case_decide; [by left|right]. by apply list_elem_of_fmap_2.
Qed.

(** A copy goes first when its destination is saved in a register [t] that
    occurs nowhere, and the other copies read [t] instead. *)
Lemma par_copies_break (d s t : A) (cs : list (A * A)) (m : A -> V) (x : A) :
  NoDup (d :: cs.*1) -> t <> d -> t <> s -> t ∉ cs.*1 -> t ∉ cs.*2 -> x <> t ->
  par_copies (redirect d t cs) (update (update m t (m d)) d (update m t (m d) s)) x = par_copies ((d, s) :: cs) m x.
Proof.
  intros [Hd Hnd]%NoDup_cons Htd Hts Ht1 Ht2 Hx. cbn. case_decide as Ex; [subst|].
  - rewrite par_copies_out by (by rewrite redirect_dests). rewrite update_eq, update_ne; [done|by intros ->].
  - destruct (par_copies_case cs x) as [[s' Hin]|Hn].
    + rewrite (par_copies_in cs _ x s') by done.
      rewrite (par_copies_in _ _ x (if decide (s' = d) then t else s')).
      * case_decide as Es; [subst|].
        { by rewrite update_ne, update_eq. }
        rewrite update_ne by done. apply update_ne. intros ->. apply Ht2.
        by apply (list_elem_of_fmap_2 snd _ (x, t)).
      * by rewrite redirect_dests.
      * by refine (list_elem_of_fmap_2' _ _ (x, s') _ Hin _).
    + rewrite !par_copies_out; [|done|by rewrite redirect_dests]. rewrite update_ne by done. by apply update_ne.
Qed.

End Copies.

(** ** The two routines *)

Abbreviation Value := Z (only parsing).

(** [Vec::swap_remove]: the last element takes the place of the removed one. *)
Definition swap_remove {A} (i : nat) (l : list A) : list A :=
  let init := take (length l - 1) l in
  match l !! (length l - 1)%nat with
  | Some z => if (i =? length l - 1)%nat then init else <[i := z]> init
  | None => l
  end.

Module Adapter.

(** The pass that drains the ready copies; [n] is [pending.len() - i]. *)
Fixpoint drain (src_set : list Value) (n i : nat) (pending out : list (Value * Value)) (made_progress : bool)
    : list (Value * Value) * list (Value * Value) * bool :=
  match n with
  | O => (pending, out, made_progress)
  | S n =>
      match pending !! i with
      | None => (pending, out, made_progress)
      | Some c =>
          if bool_decide (c.1 ∈ src_set) then drain src_set n (S i) pending out made_progress
          else drain src_set n i (swap_remove i pending) (out ++ [c]) true
      end
  end.

Fixpoint schedule_loop (fuel : nat) (pending out : list (Value * Value)) (next_value : Z)
    : option (list (Value * Value) * Z) :=
  match pending with
  | [] => Some (out, next_value)
  | _ =>
      match fuel with
      | O => None
      | S fuel =>
          let '(pending, out, made_progress) := drain pending.*2 (length pending) 0 pending out false in
          if made_progress then schedule_loop fuel pending out next_value
          else
            match pending with
            | [] => None
            | c :: _ =>
                let tmp := next_value in
                let pending := redirect c.1 tmp pending in
                schedule_loop fuel (swap_remove 0 pending) (out ++ [(tmp, c.1); c]) (wrap 32 (next_value + 1))
            end
      end
  end.

(** [schedule_parallel_copies]; the pairs of the argument are (source,
    destination), the copies of the result are destination first. *)
Definition schedule_parallel_copies (pairs : list (Value * Value)) (next_value : Z) : option (list (Value * Value) * Z) :=
  let pending := (fun p : Value * Value => (p.2, p.1)) <$> filter (fun p : Value * Value => p.1 <> p.2) pairs in
  schedule_loop (length pending) pending [] next_value.

End Adapter.

Module PhiElim.

(** The pass over the remaining copies; [n] is [remaining.len() - i]. *)
Fixpoint sweep (n i : nat) (remaining result : list (VReg * VReg)) (progress : bool)
    : list (VReg * VReg) * list (VReg * VReg) * bool :=
  match n with
  | O => (remaining, result, progress)
  | S n =>
      match remaining !! i with
      | None => (remaining, result, progress)
      | Some c =>
          let is_source := bool_decide (c.1 ∈ (delete i remaining).*2) in
          if is_source then sweep n (S i) remaining result progress
          else sweep n i (delete i remaining) (result ++ [c]) true
      end
  end.

Fixpoint resolve_loop (fuel : nat) (remaining result : list (VReg * VReg)) (next_vreg : Z)
    : option (list (VReg * VReg) * Z) :=
  match remaining with
  | [] => Some (result, next_vreg)
  | _ =>
      match fuel with
      | O => None
      | S fuel =>
          let '(remaining, result, progress) := sweep (length remaining) 0 remaining result false in
          if progress then resolve_loop fuel remaining result next_vreg
          else
            match remaining with
            | [] => None
            | (dst, src) :: remaining =>
                let tmp := mkVReg next_vreg (class dst) in
                resolve_loop fuel (redirect dst tmp remaining) (result ++ [(tmp, dst); (dst, src)]) (wrap 32 (next_vreg + 1))
            end
      end
  end.

(** [resolve_parallel_copies]; of the function only its register counter is used. *)
Definition resolve_parallel_copies (copies : list (VReg * VReg)) (next_vreg : Z) : option (list (VReg * VReg) * Z) :=
  let remaining := filter (fun c : VReg * VReg => c.1 <> c.2) copies in
  resolve_loop (length remaining) remaining [] next_vreg.

End PhiElim.

(** ** The invariant of both loops *)

Section Pending.
Context {A : Type} `{EqDecision A} (age : A -> Z) (cs0 : list (A * A)) (n0 : Z).

(** [cs] is pending after the copies [out], with fresh registers below [n]: running
    [out] and then [cs] in parallel means [cs0], on the registers older than [n0]. *)
Record pending (cs out : list (A * A)) (n : Z) : Prop := mkPending {
  dests_nodup : NoDup cs.*1;
  dests_old : Forall (fun d => age d < n0) cs.*1;
  srcs_old : Forall (fun s => age s < n) cs.*2;
  fresh_above : n0 <= n;
  same_meaning : forall (V : Type) (m : A -> V) x, age x < n0 -> par_copies cs (run_copies out m) x = par_copies cs0 m x }.

Lemma pending_perm cs cs' out n : cs ≡ₚ cs' -> pending cs out n -> pending cs' out n.
Proof.
  intros Hp [H1 H2 H3 H4 H5]. split; [by rewrite <- Hp..|done|].
  intros V m x Hx. rewrite <- H5 by done. symmetry. by apply par_copies_perm.
Qed.

Lemma pending_emit c cs out n : pending (c :: cs) out n -> c.1 ∉ cs.*2 -> pending cs (out ++ [c]) n.
Proof.
  destruct c as [d s]. intros [H1 H2 H3 H4 H5] Hd. cbn in H1, H2, H3, Hd. apply Forall_cons in H2 as [_ H2], H3 as [_ H3].
  split; [by apply NoDup_cons in H1 as [_ H1]|done|done|done|].
  intros V m x Hx. rewrite run_copies_app, <- H5 by done. cbn [run_copies fold_left fst snd]. by apply par_copies_emit.
Qed.

Lemma pending_break d s t cs out n :
  pending ((d, s) :: cs) out n -> age t = n ->
  pending (redirect d t cs) (out ++ [(t, d); (d, s)]) (n + 1).
Proof.
  intros [H1 H2 H3 H4 H5] Ht. cbn in H1, H2, H3. apply Forall_cons in H2 as [Hd H2], H3 as [Hs H3].
  assert (Hold : forall l, Forall (fun y => age y < n) l -> t ∉ l).
  { intros l Hl Hin. rewrite Forall_forall in Hl. specialize (Hl t Hin). lia. }
  split.
  - rewrite redirect_dests. by apply NoDup_cons in H1 as [_ H1].
  - by rewrite redirect_dests.
  - apply Forall_forall. intros y [->|Hy]%redirect_srcs; [lia|]. rewrite Forall_forall in H3. specialize (H3 y Hy). lia.
  - lia.
  - intros V m x Hx. rewrite run_copies_app, <- H5 by done. cbn [run_copies fold_left fst snd].
    apply par_copies_break; try done; [intros ->; lia..| |by apply Hold|intros ->; lia].
    apply Hold. eapply Forall_impl; [exact H2|]. cbn. lia.
Qed.

(** What both routines promise of the copies [out] they return: executed one by
    one they have the effect of the parallel copies on every register that existed
    before, and at most one new register per copy was used. *)
Definition sequentialises (out : list (A * A)) (n : Z) : Prop :=
  (forall (V : Type) (m : A -> V) x, age x < n0 -> run_copies out m x = par_copies cs0 m x) /\
  n0 <= n <= n0 + Z.of_nat (length cs0).

(** The pending copies of both routines at the start. *)
Lemma pending_start :
  NoDup cs0.*1 -> Forall (fun c => age c.1 < n0 /\ age c.2 < n0) cs0 ->
  pending (filter (fun c : A * A => c.1 <> c.2) cs0) [] n0.
Proof.
  rewrite Forall_forall. intros Hnd Hold. split.
  - eapply sublist_NoDup; [exact Hnd|apply fmap_sublist, sublist_filter].
  - apply Forall_fmap, Forall_forall. intros c [_ Hc]%list_elem_of_filter. by apply Hold.
  - apply Forall_fmap, Forall_forall. intros c [_ Hc]%list_elem_of_filter. by apply Hold.
  - lia.
  - intros V m x _. cbn. by apply par_copies_filter.
Qed.

Lemma pending_nil out n : pending [] out n -> n <= n0 + Z.of_nat (length cs0) -> sequentialises out n.
Proof. intros [_ _ _ H4 H5] Hn. split; [|lia]. intros V m x Hx. by rewrite <- H5. Qed.

End Pending.

(** What a pass over the pending copies leaves. *)
Definition advanced {A} (cs out : list (A * A)) (r : list (A * A) * list (A * A) * bool) (p : bool) : Prop :=
  (r = (cs, out, p)) \/ (r.2 = true /\ (length r.1.1 < length cs)%nat).

Lemma advanced_less {A} (cs cs' out out' : list (A * A)) r p :
  (length cs' < length cs)%nat -> advanced cs' out' r true -> advanced cs out r p.
Proof. intros Hl [->|[H1 H2]]; right; cbn; [done|]. split; [done|lia]. Qed.

Module AdapterSound.
Import Adapter.

Lemma swap_remove_perm {A} (i : nat) (l : list A) (c : A) : l !! i = Some c -> l ≡ₚ c :: swap_remove i l.
Proof.
  intros Hc. pose proof (lookup_lt_Some _ _ _ Hc) as Hi. unfold swap_remove.
  destruct (l !! (length l - 1)%nat) as [z|] eqn:Hz; [|apply lookup_ge_None in Hz; lia].
  assert (El : l = take (length l - 1) l ++ [z]).
  { rewrite <- (take_drop (length l - 1) l) at 1. f_equal. rewrite (drop_S _ z) by done. by rewrite drop_ge by lia. }
  destruct (Nat.eqb_spec i (length l - 1)) as [->|Hne].
  - rewrite El at 1. rewrite Hc in Hz. injection Hz as ->. by rewrite Permutation_app_comm.
  - set (init := take (length l - 1) l) in *.
    assert (Hci : init !! i = Some c) by (unfold init; rewrite lookup_take_lt by lia; done).
    rewrite El at 1. rewrite <- (list_insert_id init i c) at 1 by done. apply lookup_lt_Some in Hci as Hil.
    rewrite !insert_take_drop by done. rewrite <- !app_assoc. cbn.
    rewrite (Permutation_app_comm (c :: drop (S i) init) [z]). cbn.
    rewrite <- !Permutation_middle. apply Permutation_swap.
Qed.

Section Schedule.
Context (cs0 : list (Value * Value)) (n0 : Z).
Abbreviation inv := (pending Datatypes.id cs0 n0).

Lemma drain_spec src_set n i cs out p nv :
  inv cs out nv -> (forall s, s ∈ cs.*2 -> s ∈ src_set) ->
  let r := drain src_set n i cs out p in inv r.1.1 r.1.2 nv /\ advanced cs out r p.
Proof.
  revert i cs out p. induction n as [|n IH]; intros i cs out p Hinv Hsrc; cbn [drain]; [by split; [|left]|].
  destruct (cs !! i) as [c|] eqn:Hc; [|by split; [|left]].
  case_bool_decide as Hin; [by apply IH|].
  pose proof (swap_remove_perm i cs c Hc) as Hp.
  destruct (IH i (swap_remove i cs) (out ++ [c]) true) as [H1 H2].
  - apply pending_emit; [by eapply pending_perm|]. intros Hd. apply Hin, Hsrc. rewrite Hp. by right.
  - intros s Hs. apply Hsrc. rewrite Hp. by right.
  - split; [done|]. eapply advanced_less; [|done]. apply Permutation_length in Hp. cbn in Hp. lia.
Qed.

Lemma schedule_loop_spec fuel cs out nv :
  inv cs out nv -> (length cs <= fuel)%nat -> 0 <= n0 -> nv + Z.of_nat (length cs) <= n0 + Z.of_nat (length cs0) ->
  n0 + Z.of_nat (length cs0) < 2 ^ 32 ->
  exists out' nv', schedule_loop fuel cs out nv = Some (out', nv') /\ sequentialises Datatypes.id cs0 n0 out' nv'.
Proof.
  revert cs out nv. induction fuel as [|fuel IH]; intros cs out nv Hinv Hl H0 Hn Hw; destruct cs as [|c cs];
    cbn [schedule_loop]; try (eexists _, _; split; [done|]; apply pending_nil; [done|cbn in Hn; lia]).
  { cbn in Hl; lia. }
  set (all := c :: cs) in *. pose proof (drain_spec all.*2 (length all) 0 all out false nv Hinv (fun s Hs => Hs)) as Hd.
  destruct (drain all.*2 (length all) 0 all out false) as [[cs' out'] p']. cbn in Hd. destruct Hd as [Hinv' [Hr|[Hp Hlt]]].
  - injection Hr as -> -> ->. unfold all at 1.
    assert (Hrem : redirect c.1 nv all ≡ₚ (c.1, if decide (c.2 = c.1) then nv else c.2) :: swap_remove 0 (redirect c.1 nv all))
      by by apply swap_remove_perm.
    assert (Hrest : swap_remove 0 (redirect c.1 nv all) ≡ₚ redirect c.1 nv cs).
    { unfold all in Hrem |- *. cbn [redirect fmap list_fmap] in Hrem |- *. by apply Permutation_cons_inv in Hrem. }
    pose proof (fresh_above _ _ _ _ _ _ Hinv) as Hge. unfold all in Hl, Hn. cbn [length] in Hl, Hn.
    rewrite wrap_small by (unfold uword; lia). apply IH; [| |done| |done].
    + eapply pending_perm; [symmetry; exact Hrest|]. destruct c as [d s]. by apply pending_break.
    + rewrite Hrest. unfold redirect. rewrite length_fmap. lia.
    + rewrite Hrest. unfold redirect. rewrite length_fmap. lia.
  - cbn in Hp, Hlt. subst p'. unfold all in Hlt. cbn [length] in Hl, Hlt, Hn. unfold all in Hn, Hl. cbn [length] in Hn, Hl.
    apply IH; [done|lia|done|lia|done].
Qed.
End Schedule.
End AdapterSound.

Module PhiElimSound.
Import PhiElim.

Section Resolve.
Context (cs0 : list (VReg * VReg)) (n0 : Z).
Abbreviation inv := (pending id cs0 n0).

Lemma sweep_spec n i cs out p nv :
  inv cs out nv -> let r := sweep n i cs out p in inv r.1.1 r.1.2 nv /\ advanced cs out r p.
Proof.
  revert i cs out p. induction n as [|n IH]; intros i cs out p Hinv; cbn [sweep]; [by split; [|left]|].
  destruct (cs !! i) as [c|] eqn:Hc; [|by split; [|left]].
  case_bool_decide as Hin; [by apply IH|].
  pose proof (delete_Permutation cs i c Hc) as Hp.
  destruct (IH i (delete i cs) (out ++ [c]) true) as [H1 H2].
  - apply pending_emit; [by eapply pending_perm|done].
  - split; [done|]. eapply advanced_less; [|done]. apply Permutation_length in Hp. cbn in Hp. lia.
Qed.

Lemma resolve_loop_spec fuel cs out nv :
  inv cs out nv -> (length cs <= fuel)%nat -> 0 <= n0 -> nv + Z.of_nat (length cs) <= n0 + Z.of_nat (length cs0) ->
  n0 + Z.of_nat (length cs0) < 2 ^ 32 ->
  exists out' nv', resolve_loop fuel cs out nv = Some (out', nv') /\ sequentialises id cs0 n0 out' nv'.
Proof.
  revert cs out nv. induction fuel as [|fuel IH]; intros cs out nv Hinv Hl H0 Hn Hw; destruct cs as [|c cs];
    cbn [resolve_loop]; try (eexists _, _; split; [done|]; apply pending_nil; [done|cbn in Hn; lia]).
  { cbn in Hl; lia. }
  pose proof (sweep_spec (length (c :: cs)) 0 (c :: cs) out false nv Hinv) as Hd. cbn [length] in Hl, Hn.
  destruct (sweep (length (c :: cs)) 0 (c :: cs) out false) as [[cs' out'] p']. cbn in Hd. destruct Hd as [Hinv' [Hr|[Hp Hlt]]].
  - injection Hr as -> -> ->. destruct c as [d s]. pose proof (fresh_above _ _ _ _ _ _ Hinv) as Hge.
    rewrite wrap_small by (unfold uword; lia). apply IH; [by apply pending_break| |done| |done];
      unfold redirect; rewrite length_fmap; lia.
  - cbn in Hp, Hlt. subst p'. apply IH; [done|lia|done|lia|done].
Qed.

Lemma resolve_spec :
  NoDup cs0.*1 -> Forall (fun c => id c.1 < n0 /\ id c.2 < n0) cs0 -> 0 <= n0 -> n0 + Z.of_nat (length cs0) < 2 ^ 32 ->
  exists out nv, resolve_parallel_copies cs0 n0 = Some (out, nv) /\ sequentialises id cs0 n0 out nv.
Proof.
  intros Hnd Hold H0 Hw. unfold resolve_parallel_copies.
  pose proof (length_filter (fun c : VReg * VReg => c.1 <> c.2) cs0).
  apply resolve_loop_spec; [by apply pending_start|done|done|lia|done].
Qed.

(** The registers of the result: those of the copies, and temporaries from the
    counter, each with one class. *)
Definition known (V0 : VReg -> Prop) (tau : Z -> RegClass) (n : Z) (r : VReg) : Prop :=
  V0 r \/ (n0 <= id r < n /\ class r = tau (id r)).

Definition all_known (V0 : VReg -> Prop) (tau : Z -> RegClass) (n : Z) (cs : list (VReg * VReg)) : Prop :=
  Forall (fun c => known V0 tau n c.1 /\ known V0 tau n c.2) cs.

Lemma sweep_regs (P : VReg * VReg -> Prop) n i cs out p :
  Forall P cs -> Forall P out -> let r := sweep n i cs out p in Forall P r.1.1 /\ Forall P r.1.2 /\ (length r.1.1 <= length cs)%nat.
Proof.
  revert i cs out p. induction n as [|n IH]; intros i cs out p H1 H2; cbn [sweep]; [done|].
  destruct (cs !! i) as [c|] eqn:Hc; [|done]. case_bool_decide; [by apply IH|].
  pose proof (delete_Permutation cs i c Hc) as Hp. pose proof (Permutation_length Hp) as Hl. cbn in Hl.
  rewrite Hp in H1. apply Forall_cons in H1 as [Hc' H1].
  destruct (IH i (delete i cs) (out ++ [c]) true H1) as (? & ? & ?); [by apply Forall_app; split; [|apply Forall_singleton]|].
  split_and!; [done|done|lia].
Qed.

Lemma all_known_mono V0 tau tau' n n' cs :
  (forall k, k < n -> tau k = tau' k) -> n <= n' -> all_known V0 tau n cs -> all_known V0 tau' n' cs.
Proof.
  intros Ht Hn H. eapply Forall_impl; [exact H|]. intros c [H1 H2]. split; [destruct H1 as [|[? E]]|destruct H2 as [|[? E]]]; (by left) || right;
    (split; [lia|]); rewrite E; apply Ht; lia.
Qed.

Lemma resolve_loop_regs V0 fuel : forall cs out nv tau res nv',
  all_known V0 tau nv cs -> all_known V0 tau nv out -> 0 <= n0 <= nv -> nv + Z.of_nat (length cs) < 2 ^ 32 ->
  resolve_loop fuel cs out nv = Some (res, nv') -> exists tau', all_known V0 tau' nv' res.
Proof.
  induction fuel as [|fuel IH]; intros cs out nv tau res nv' Hc Ho Hn Hw; destruct cs as [|c cs]; cbn [resolve_loop];
    try done; try (intros [= <- <-]; by exists tau).
  destruct (sweep_regs (fun c => known V0 tau nv c.1 /\ known V0 tau nv c.2) (length (c :: cs)) 0 (c :: cs) out false Hc Ho) as (H1 & H2 & H3).
  destruct (sweep (length (c :: cs)) 0 (c :: cs) out false) as [[cs' out'] p']. cbn in H1, H2, H3. destruct p'.
  - apply (IH cs' out' nv tau); [done|done|done|cbn in Hw; lia].
  - destruct cs' as [|[d s] cs']; [done|]. cbn in H3, Hw. rewrite wrap_small by (unfold uword; lia).
    set (tau' := fun k => if k =? nv then class d else tau k). apply Forall_cons in H1 as [[Hd Hs] H1]. cbn in Hd, Hs.
    assert (Ht : forall k, k < nv -> tau k = tau' k) by (intros k Hk; unfold tau'; destruct (Z.eqb_spec k nv); [lia|done]).
    assert (Htmp : known V0 tau' (nv + 1) (mkVReg nv (class d))) by (right; cbn; split; [lia|]; unfold tau'; by rewrite Z.eqb_refl).
    pose proof (all_known_mono V0 tau tau' nv (nv + 1) [(d, s)] Ht ltac:(lia) ltac:(apply Forall_singleton; by split)) as Hds.
    apply Forall_singleton in Hds as [Hd' Hs']. cbn in Hd', Hs'.
    pose proof (all_known_mono V0 tau tau' nv (nv + 1) _ Ht ltac:(lia) H1) as H1'.
    pose proof (all_known_mono V0 tau tau' nv (nv + 1) _ Ht ltac:(lia) H2) as H2'.
    apply (IH _ _ _ tau'); [| |lia|unfold redirect; rewrite length_fmap; lia].
    + unfold redirect. apply Forall_fmap. eapply Forall_impl; [exact H1'|]. intros x [Hx1 Hx2]. cbn. split; [done|]. by case_decide.
    + apply Forall_app. split; [done|]. apply Forall_cons. split; [by split|]. apply Forall_singleton. by split.
Qed.

Lemma resolve_regs V0 cs res nv :
  Forall (fun c => V0 c.1 /\ V0 c.2) cs -> 0 <= n0 -> n0 + Z.of_nat (length cs) < 2 ^ 32 ->
  resolve_parallel_copies cs n0 = Some (res, nv) -> exists tau, all_known V0 tau nv res.
Proof.
  intros Hc H0 Hw. unfold resolve_parallel_copies. pose proof (length_filter (fun c : VReg * VReg => c.1 <> c.2) cs).
  apply (resolve_loop_regs V0 _ _ _ _ (fun _ => Gpr64)); [|constructor|lia|lia].
  apply Forall_forall. intros c [_ Hin]%list_elem_of_filter. rewrite Forall_forall in Hc. destruct (Hc c Hin). split; by left.
Qed.
End Resolve.
End PhiElimSound.

(** ** Block arguments *)

(** The copies of a branch, destination first. *)
Definition edge_copies (pairs : list (Value * Value)) : list (Value * Value) :=
  (fun p : Value * Value => (p.2, p.1)) <$> pairs.

Lemma edge_copies_filter (pairs : list (Value * Value)) :
  edge_copies (filter (fun p : Value * Value => p.1 <> p.2) pairs) = filter (fun c : Value * Value => c.1 <> c.2) (edge_copies pairs).
Proof.
  induction pairs as [|p pairs IH]; [done|]. unfold edge_copies in *. rewrite fmap_cons, !filter_cons. cbn.
  repeat case_decide; cbn; try by rewrite IH; congruence. all: exfalso; auto.
Qed.

(** C24: The copies that lower the arguments of a branch have the effect of the
    simultaneous assignment to the block parameters.  For distinct parameters and
    values below the counter, [schedule_parallel_copies] terminates, and running
    its copies one by one gives every existing value what it has after all
    arguments are read and then all parameters written; it takes at most one fresh
    value per argument. *)
Theorem schedule_parallel_copies_correct (pairs : list (Value * Value)) (next_value : Z) :
  NoDup pairs.*2 -> Forall (fun p => p.1 < next_value /\ p.2 < next_value) pairs ->
  0 <= next_value -> next_value + Z.of_nat (length pairs) < 2 ^ 32 ->
  exists out next', Adapter.schedule_parallel_copies pairs next_value = Some (out, next') /\
    next_value <= next' <= next_value + Z.of_nat (length pairs) /\
    forall (V : Type) (m : Value -> V) x, x < next_value -> run_copies out m x = par_copies (edge_copies pairs) m x.
Proof.
  intros Hnd Hold H0 Hw. assert (El : length (edge_copies pairs) = length pairs) by apply length_fmap.
  assert (Hnd' : NoDup (edge_copies pairs).*1).
  { unfold edge_copies. by rewrite <- list_fmap_compose. }
  unfold Adapter.schedule_parallel_copies. fold (edge_copies (filter (fun p : Value * Value => p.1 <> p.2) pairs)).
  rewrite edge_copies_filter. pose proof (length_filter (fun c : Value * Value => c.1 <> c.2) (edge_copies pairs)).
  destruct (AdapterSound.schedule_loop_spec (edge_copies pairs) next_value
    (length (filter (fun c : Value * Value => c.1 <> c.2) (edge_copies pairs)))
    (filter (fun c : Value * Value => c.1 <> c.2) (edge_copies pairs)) [] next_value)
    as (out & nv & Hrun & Hm & Hb); [|done|done|lia|lia|].
  - apply pending_start; [done|]. unfold edge_copies. apply Forall_fmap. eapply Forall_impl; [exact Hold|]. by intros p [].
  - exists out, nv. split; [done|]. split; [lia|done].
Qed.

(** The swap at a back edge: one fresh value breaks the cycle. *)
Lemma schedule_parallel_copies_correct_witness :
  Adapter.schedule_parallel_copies [(1, 2); (2, 1); (1, 3); (4, 4)] 10 = Some ([(3, 1); (10, 2); (2, 1); (1, 10)], 11) /\
  forall x, x < 10 -> run_copies [(3, 1); (10, 2); (2, 1); (1, 10)] (fun y => y) x = par_copies [(2, 1); (1, 2); (3, 1); (4, 4)] (fun y => y) x.
Proof.
  destruct (schedule_parallel_copies_correct [(1, 2); (2, 1); (1, 3); (4, 4)] 10) as (out & nv & Hrun & _ & Hm).
  - apply (bool_decide_unpack _). vm_compute. exact I.
  - repeat constructor; cbn; lia.
  - lia.
  - cbn. lia.
  - assert (E : Adapter.schedule_parallel_copies [(1, 2); (2, 1); (1, 3); (4, 4)] 10
      = Some ([(3, 1); (10, 2); (2, 1); (1, 10)], 11)) by (vm_compute; reflexivity).
    split; [exact E|]. rewrite E in Hrun. injection Hrun as <- <-. exact (Hm Z (fun y => y)).
Defined.
