(* ===== verification/LogicalImm.v ===== *)
(** * Logical immediates ([crates/trust-cg-lower/src/isel.rs],
      [logical_immediate_encodable]; [crates/trust-cg-codegen/src/aarch64/encode.rs],
      [encode_logical_immediate]; [crates/trust-cg-lift/src/disasm/aarch64.rs],
      [decode_logical_imm]; [crates/trust-cg-codegen/tests/common/a64_interp.rs])

    An AArch64 logical immediate is a run of ones, rotated inside an element and
    replicated over the register.  Four parts of the repository know this encoding:
    instruction selection decides which constants it may fold, the encoder searches
    the fields, the disassembler reads them back and the interpreter expands them.
    The theorem makes them agree. *)

From S2P Require Import Prelude Regs MachFunc.
Local Open Scope Z_scope.

(** ** The search *)

(** [low_mask] of the encoder and of instruction selection, [mask_of] and
    [ones_u64] of the interpreter. *)
Definition low_mask (bits : Z) : Z := if 64 <=? bits then 2 ^ 64 - 1 else Z.shiftl 1 bits - 1.

Definition rotate_right_within (value rot width : Z) : Z :=
  let mask := low_mask width in
  let value := Z.land value mask in
  if rot =? 0 then value
  else Z.land (Z.lor (Z.shiftr value rot) (wrap 64 (Z.shiftl value (width - rot)))) mask.

(** The values of [shift] in the loops that fill a register. *)
Definition shifts (element_width register_width : Z) : list Z :=
  (fun k => k * element_width) <$> seqZ 0 ((register_width + element_width - 1) / element_width).

Definition replicate_logical_element (pattern element_width register_width : Z) : Z :=
  Z.land (fold_left (fun out shift => Z.lor out (wrap 64 (Z.shiftl pattern shift))) (shifts element_width register_width) 0)
    (low_mask register_width).

Definition element_widths (register_width : Z) : list Z :=
  if register_width =? 64 then [2; 4; 8; 16; 32; 64] else [2; 4; 8; 16; 32].

(** The three nested loops, in their order. *)
Definition candidates (register_width : Z) : list (Z * Z * Z) :=
  element_widths register_width ≫= fun element_width =>
  seqZ 1 (element_width - 1) ≫= fun ones_len =>
  (fun rotation => (element_width, ones_len, rotation)) <$> seqZ 0 element_width.

Definition candidate (register_width : Z) (c : Z * Z * Z) : Z :=
  let '(element_width, ones_len, rotation) := c in
  replicate_logical_element (rotate_right_within (low_mask ones_len) rotation element_width) element_width register_width.

(** ** Instruction selection *)

(** The element and its replication as instruction selection writes them. *)
Definition isel_candidate (register_width : Z) (c : Z * Z * Z) : Z :=
  let '(element_width, ones_len, rotation) := c in
  let element_mask := low_mask element_width in
  let ones := low_mask ones_len in
  let element :=
    if rotation =? 0 then Z.land ones element_mask
    else Z.land (Z.lor (Z.shiftr ones rotation) (wrap 64 (Z.shiftl ones (element_width - rotation)))) element_mask in
  Z.land (fold_left (fun acc shift => Z.lor acc (wrap 64 (Z.shiftl element shift))) (shifts element_width register_width) 0)
    (low_mask register_width).

Definition logical_immediate_encodable (raw : Z) (width_is_32 : bool) : bool :=
  let register_width := if width_is_32 then 32 else 64 in
  let register_mask := low_mask register_width in
  let raw_mask := Z.land (wrap 64 raw) register_mask in
  if (raw_mask =? 0) || (raw_mask =? register_mask) then false
  else existsb (fun c => isel_candidate register_width c =? raw_mask) (candidates register_width).

(** ** The encoder *)

(** Errors keep the operand's index. *)
Inductive EncodeError := InvalidOperand (index : nat) | MissingOperand (index : nat).

Definition encode_logical_imm_fields (raw register_width : Z) (index : nat) : EncodeError + Z * Z * Z :=
  let register_mask := low_mask register_width in
  let raw_mask := Z.land (wrap 64 raw) register_mask in
  if (raw_mask =? 0) || (raw_mask =? register_mask) then inl (InvalidOperand index)
  else
    match find (fun c => candidate register_width c =? raw_mask) (candidates register_width) with
    | Some (element_width, ones_len, rotation) =>
        let n := if element_width =? 64 then 1 else 0 in
        let immr := Z.land rotation 63 in
        let imms_prefix := Z.land (Z.lnot (Z.shiftl element_width 1 - 1)) 63 in
        inr (n, immr, Z.lor imms_prefix (ones_len - 1))
    | None => inl (InvalidOperand index)
    end.

Definition sf_from_operand (i : MachInst) (idx : nat) : Z :=
  match operands i !! idx with
  | Some (PRegOp p) => match preg_class p with Gpr32 => 0 | _ => 1 end
  | Some (Special SpecWZR) => 0
  | _ => 1
  end.

Definition preg_hw (i : MachInst) (idx : nat) : EncodeError + Z :=
  match operands i !! idx with
  | Some (PRegOp p) => inr (hw_encoding p)
  | Some (Special _) => inr 31
  | Some _ => inl (InvalidOperand idx)
  | None => inl (MissingOperand idx)
  end.

Definition imm_operand (i : MachInst) (idx : nat) : EncodeError + Z :=
  match operands i !! idx with
  | Some (Imm v) => inr v
  | Some _ => inl (InvalidOperand idx)
  | None => inl (MissingOperand idx)
  end.

Definition logical_imm_raw_field (i : MachInst) (idx : nat) (max : Z) : EncodeError + Z :=
  match imm_operand i idx with
  | inl e => inl e
  | inr v => if (0 <=? v) && (v <=? max) then inr v else inl (InvalidOperand idx)
  end.

Definition logical_imm_operands (i : MachInst) (sf : Z) : EncodeError + Z * Z * Z :=
  if (length (operands i) =? 3)%nat then
    match imm_operand i 2 with
    | inl e => inl e
    | inr raw => encode_logical_imm_fields raw (if sf =? 1 then 64 else 32) 2
    end
  else
    match logical_imm_raw_field i 2 1, logical_imm_raw_field i 3 63, logical_imm_raw_field i 4 63 with
    | inl e, _, _ => inl e
    | _, inl e, _ => inl e
    | _, _, inl e => inl e
    | inr n, inr immr, inr imms => inr (n, immr, imms)
    end.

Definition encode_logical_immediate (i : MachInst) (opc : Z) : EncodeError + Z :=
  let sf := sf_from_operand i 0 in
  match preg_hw i 0 with
  | inl e => inl e
  | inr rd =>
      match preg_hw i 1 with
      | inl e => inl e
      | inr rn =>
          match logical_imm_operands i sf with
          | inl e => inl e
          | inr (n, immr, imms) =>
              let w := Z.lor (Z.shiftl sf 31) (Z.shiftl opc 29) in
              let w := Z.lor w (Z.shiftl 36 23) in
              let w := Z.lor w (Z.shiftl n 22) in
              let w := Z.lor w (Z.shiftl immr 16) in
              let w := Z.lor w (Z.shiftl imms 10) in
              inr (Z.lor (Z.lor w (Z.shiftl rn 5)) rd)
          end
      end
  end.

(** ** The disassembler *)

Definition bits (word offset width : Z) : Z := Z.land (Z.shiftr word offset) (Z.shiftl 1 width - 1).
Definition bit (word offset : Z) : bool := negb (Z.land (Z.shiftr word offset) 1 =? 0).

Record LogicalImm := mkLogicalImm { sf : Z; opc : Z; n : bool; immr : Z; imms : Z; rn : Z; rd : Z }.

(** Every other class of instruction is [OtherInst]. *)
Inductive Instruction := LogicalImmI (l : LogicalImm) | OtherInst.
Inductive DecodeError := Unallocated.

Definition logical_immediate_bitmask_is_allocated (n : bool) (imms : Z) : bool :=
  let pattern := Z.lor (Z.shiftl (if n then 1 else 0) 6) (Z.land (Z.lnot imms) 63) in
  if pattern =? 0 then false
  else
    (* [7 - leading_zeros] of a byte *)
    let len := Z.log2 pattern in
    if len <? 1 then false
    else let levels := Z.shiftl 1 len - 1 in negb (Z.land imms levels =? levels).

Definition decode_logical_imm (word : Z) : DecodeError + Instruction :=
  let sf := bits word 31 1 in
  let n := bit word 22 in
  let imms := bits word 10 6 in
  if (sf =? 0) && n then inl Unallocated
  else if negb (logical_immediate_bitmask_is_allocated n imms) then inl Unallocated
  else inr (LogicalImmI (mkLogicalImm sf (bits word 29 2) n (bits word 16 6) imms (bits word 5 5) (bits word 0 5))).

(** [decode] up to the class of logical immediates. *)
Definition decode (word : Z) : DecodeError + Instruction :=
  if (word =? 3573751839) || (word =? 3558866976) then inr OtherInst
  else if bits word 24 5 =? 16 then inr OtherInst
  else if (bits word 24 5 =? 11) && negb (bit word 21) then inr OtherInst
  else if bits word 24 5 =? 10 then inr OtherInst
  else if bits word 23 6 =? 36 then decode_logical_imm word
  else inr OtherInst.

(** ** The interpreter *)

Definition ror (val amount bits : Z) : Z :=
  let m := low_mask bits in
  let val := Z.land val m in
  let amount := amount mod Z.max bits 1 mod Z.max bits 1 in
  if amount =? 0 then val else Z.land (Z.lor (Z.shiftr val amount) (wrap 64 (Z.shiftl val (bits - amount)))) m.

Definition replicate_elem (elem elem_bits total_bits : Z) : Z :=
  let elem := Z.land elem (low_mask elem_bits) in
  if elem_bits =? 0 then 0
  else Z.land (fold_left (fun out pos => Z.lor out (wrap 64 (Z.shiftl elem pos))) (shifts elem_bits total_bits) 0)
    (low_mask total_bits).

Definition decode_bit_masks (immn imms immr bits : Z) : option (Z * Z) :=
  let concat := Z.lor (Z.shiftl (Z.land immn 1) 6) (Z.land (Z.lnot imms) 63) in
  if concat =? 0 then None
  else
    let len := Z.log2 concat in
    if len <? 1 then None
    else
      let levels := Z.shiftl 1 len - 1 in
      let s := Z.land imms levels in
      let r := Z.land immr levels in
      let diff := Z.land (wrap 32 (s - r)) levels in
      let esize := Z.shiftl 1 len in
      let d := Z.land diff (Z.shiftl 1 len - 1) in
      let welem := low_mask (s + 1) in
      let telem := low_mask (d + 1) in
      Some (replicate_elem (ror welem r esize) esize bits, replicate_elem telem esize bits).

(** What the opcodes 0 (AND), 1 (ORR), 2 (EOR) and 3 (ANDS) compute. *)
Definition logic_op (opc a b : Z) : Z :=
  match opc with 1 => Z.lor a b | 2 => Z.lxor a b | _ => Z.land a b end.

(** The result the interpreter writes to [rd], from the value of [rn]. *)
Definition exec_logical_imm (l : LogicalImm) (rn_val : Z) : option Z :=
  let bits := if sf l =? 1 then 64 else 32 in
  let rn_val := Z.land rn_val (low_mask bits) in
  masks ← decode_bit_masks (if n l then 1 else 0) (imms l) (immr l) bits;
  Some (Z.land (logic_op (opc l) rn_val masks.1) (low_mask bits)).

(** ** The four agree *)

(** The two register widths. *)
Definition reg_width (sf : Z) : Z := if sf =? 1 then 64 else 32.

Definition fields_of (c : Z * Z * Z) : Z * Z * Z :=
  let '(element_width, ones_len, rotation) := c in
  (if element_width =? 64 then 1 else 0, Z.land rotation 63,
   Z.lor (Z.land (Z.lnot (Z.shiftl element_width 1 - 1)) 63) (ones_len - 1)).

(** What the disassembler and the interpreter read from the fields of a candidate:
    they are allocated, and give back the element width, the run and the rotation. *)
Definition candidate_ok (w : Z) (c : Z * Z * Z) : bool :=
  let '(element_width, ones_len, rotation) := c in
  let '(n, immr, imms) := fields_of c in
  let concat := Z.lor (Z.shiftl (Z.land n 1) 6) (Z.land (Z.lnot imms) 63) in
  within 0 1 n && within 0 63 immr && within 0 63 imms && ((w =? 64) || (n =? 0)) &&
  logical_immediate_bitmask_is_allocated (n =? 1) imms &&
  negb (concat =? 0) && (1 <=? Z.log2 concat) && (Z.shiftl 1 (Z.log2 concat) =? element_width) &&
  (Z.land imms (element_width - 1) =? ones_len - 1) && (Z.land immr (element_width - 1) =? rotation) &&
  within 1 (element_width - 1) ones_len && within 0 (element_width - 1) rotation && within 2 64 element_width.

Definition mask_ok (w : Z) (c : Z * Z * Z) : bool :=
  let mask := candidate w c in negb (mask =? 0) && negb (mask =? low_mask w).

Lemma forallb_candidates (P : Z -> Z * Z * Z -> bool) (w : Z) (c : Z * Z * Z) :
  forallb (P 32) (candidates 32) && forallb (P 64) (candidates 64) = true ->
  w = 32 \/ w = 64 -> c ∈ candidates w -> P w c = true.
Proof.
  rewrite andb_true_iff, !forallb_forall. intros [H1 H2] [->| ->] Hc; [apply H1|apply H2]; by apply list_elem_of_In.
Qed.

Lemma candidates_ok (w : Z) (c : Z * Z * Z) : w = 32 \/ w = 64 -> c ∈ candidates w -> candidate_ok w c = true.
Proof. apply forallb_candidates. vm_compute. reflexivity. Qed.

Lemma masks_ok (w : Z) (c : Z * Z * Z) : w = 32 \/ w = 64 -> c ∈ candidates w -> mask_ok w c = true.
Proof. apply forallb_candidates. vm_compute. reflexivity. Qed.

(** The candidate behind allocated fields. *)
Definition candidate_of (n imms immr : Z) : Z * Z * Z :=
  let len := Z.log2 (Z.lor (Z.shiftl n 6) (Z.land (Z.lnot imms) 63)) in
  let levels := Z.shiftl 1 len - 1 in
  (Z.shiftl 1 len, Z.land imms levels + 1, Z.land immr levels).

(** Membership in [candidates]. *)
Definition is_candidate (w : Z) (c : Z * Z * Z) : bool :=
  let '(element_width, ones_len, rotation) := c in
  bool_decide (element_width ∈ element_widths w) && within 1 (element_width - 1) ones_len && within 0 (element_width - 1) rotation.

Lemma is_candidate_spec (w : Z) (c : Z * Z * Z) : is_candidate w c = true -> c ∈ candidates w.
Proof.
  destruct c as [[ew ol] rot]. unfold is_candidate, within. rewrite !andb_true_iff, bool_decide_eq_true, !Z.leb_le.
  intros [[He [H1 H2]] [H3 H4]]. unfold candidates. apply list_elem_of_bind. exists ew. split; [|done].
  apply list_elem_of_bind. exists ol. split; [|apply elem_of_seqZ; lia].
  apply list_elem_of_fmap. exists rot. split; [done|]. apply elem_of_seqZ. lia.
Qed.

(** Allocated fields are those of a candidate, up to the rotation bits that
    expansion ignores. *)
Definition fields_ok (w n imms immr : Z) : bool :=
  if ((w =? 64) || (n =? 0)) && logical_immediate_bitmask_is_allocated (n =? 1) imms then
    let c := candidate_of n imms immr in
    is_candidate w c && bool_decide (fields_of c = (n, c.2, imms))
  else true.

Lemma all_fields_ok (w n imms immr : Z) :
  w = 32 \/ w = 64 -> 0 <= n <= 1 -> 0 <= imms <= 63 -> 0 <= immr <= 63 -> fields_ok w n imms immr = true.
Proof.
  assert (H : forallb (fun w => forallb (fun n => forallb (fun imms => forallb (fields_ok w n imms) (seqZ 0 64)) (seqZ 0 64))
    (seqZ 0 2)) [32; 64] = true) by (vm_compute; reflexivity).
  intros Hw Hn Hs Hr. rewrite forallb_forall in H. specialize (H w ltac:(destruct Hw as [->| ->]; cbn; tauto)). cbn beta in H.
  rewrite forallb_forall in H. specialize (H n ltac:(apply list_elem_of_In, elem_of_seqZ; lia)). cbn beta in H.
  rewrite forallb_forall in H. specialize (H imms ltac:(apply list_elem_of_In, elem_of_seqZ; lia)). cbn beta in H.
  rewrite forallb_forall in H. apply H, list_elem_of_In, elem_of_seqZ. lia.
Qed.

Lemma low_mask_ones (b : Z) : 0 <= b <= 64 -> low_mask b = Z.ones b.
Proof.
  intros Hb. unfold low_mask, Z.ones. destruct (Z.leb_spec 64 b); [|by rewrite Z.sub_1_r].
  assert (b = 64) as -> by lia. reflexivity.
Qed.

Lemma land_low_mask (a b : Z) : 0 <= b <= 64 -> Z.land a (low_mask b) = a mod 2 ^ b.
Proof. intros Hb. rewrite low_mask_ones by done. apply Z.land_ones. lia. Qed.

Lemma low_mask_small (a b : Z) : 0 <= a <= b -> b <= 64 -> Z.land (low_mask a) (low_mask b) = low_mask a.
Proof.
  intros Ha Hb. rewrite land_low_mask, low_mask_ones, Z.ones_equiv by lia. apply Z.mod_small.
  pose proof (Z.pow_pos_nonneg 2 a ltac:(lia) ltac:(lia)). pose proof (Z.pow_le_mono_r 2 a b ltac:(lia) ltac:(lia)). lia.
Qed.

Lemma land_twice (a m : Z) : Z.land (Z.land a m) m = Z.land a m.
Proof. by rewrite <- Z.land_assoc, Z.land_diag. Qed.

Lemma isel_candidate_same (w ew ol rot : Z) :
  1 <= ol < ew -> ew <= 64 -> isel_candidate w (ew, ol, rot) = candidate w (ew, ol, rot).
Proof.
  intros Ho He. unfold isel_candidate, candidate, rotate_right_within, replicate_logical_element.
  by rewrite low_mask_small by lia.
Qed.

Lemma ror_same (v r ew : Z) : 0 <= r < ew -> ror v r ew = rotate_right_within v r ew.
Proof. intros Hr. unfold ror, rotate_right_within. rewrite Z.max_l by lia. by rewrite !(Z.mod_small r ew) by lia. Qed.

Lemma replicate_same (v r ew w : Z) :
  ew <> 0 -> replicate_elem (rotate_right_within v r ew) ew w = replicate_logical_element (rotate_right_within v r ew) ew w.
Proof.
  intros He. unfold replicate_elem, replicate_logical_element.
  assert (Z.land (rotate_right_within v r ew) (low_mask ew) = rotate_right_within v r ew) as ->.
  { unfold rotate_right_within. destruct (r =? 0); apply land_twice. }
  by rewrite (proj2 (Z.eqb_neq ew 0)).
Qed.

(** Expanding the fields of a candidate gives its mask. *)
Lemma expand_candidate (w : Z) (c : Z * Z * Z) (n immr imms : Z) :
  w = 32 \/ w = 64 -> c ∈ candidates w -> fields_of c = (n, immr, imms) ->
  exists t, decode_bit_masks n imms immr w = Some (candidate w c, t).
Proof.
  intros Hw Hc Hf. pose proof (candidates_ok w c Hw Hc) as Hok. destruct c as [[ew ol] rot]. unfold candidate_ok in Hok.
  rewrite Hf in Hok. unfold within in Hok. rewrite !andb_true_iff, !negb_true_iff, !Z.leb_le, !Z.eqb_eq in Hok.
  destruct_and! Hok. unfold decode_bit_masks. match goal with H : (_ =? 0) = false |- _ => rewrite H end.
  rewrite (proj2 (Z.ltb_ge _ _)) by done.
  match goal with H : Z.shiftl 1 _ = ew |- _ => rewrite H end.
  match goal with H : Z.land imms _ = _ |- _ => rewrite H end. match goal with H : Z.land immr _ = _ |- _ => rewrite H end.
  eexists. f_equal. f_equal. rewrite Z.sub_add, ror_same by lia. by rewrite replicate_same by lia.
Qed.

(** The rotation bits beyond the element do not matter. *)
Lemma expand_rotation (w n imms immr : Z) :
  0 <= n <= 1 -> decode_bit_masks n imms (candidate_of n imms immr).2 w = decode_bit_masks n imms immr w.
Proof.
  intros Hn. unfold decode_bit_masks, candidate_of. cbn [snd]. assert (Z.land n 1 = n) as -> by (assert (n = 0 \/ n = 1) as [->| ->] by lia; done).
  by rewrite land_twice.
Qed.

(** ** The instruction word *)

Lemma word_fields (sf opc n immr imms rn rd : Z) :
  0 <= sf <= 1 -> 0 <= opc <= 3 -> 0 <= n <= 1 -> 0 <= immr <= 63 -> 0 <= imms <= 63 -> 0 <= rn <= 31 -> 0 <= rd <= 31 ->
  Z.lor (Z.lor (Z.lor (Z.lor (Z.lor (Z.lor (Z.lor (Z.shiftl sf 31) (Z.shiftl opc 29)) (Z.shiftl 36 23)) (Z.shiftl n 22))
    (Z.shiftl immr 16)) (Z.shiftl imms 10)) (Z.shiftl rn 5)) rd
  = sf * 2 ^ 31 + opc * 2 ^ 29 + 36 * 2 ^ 23 + n * 2 ^ 22 + immr * 2 ^ 16 + imms * 2 ^ 10 + rn * 2 ^ 5 + rd.
Proof.
  intros. rewrite !Z.shiftl_mul_pow2 by lia.
  rewrite (lor_disjoint sf) by (unfold uword; lia).
  replace (sf * 2 ^ 31 + opc * 2 ^ 29) with ((sf * 4 + opc) * 2 ^ 29) by lia. rewrite lor_disjoint by (unfold uword; lia).
  replace ((sf * 4 + opc) * 2 ^ 29 + 36 * 2 ^ 23) with (((sf * 4 + opc) * 64 + 36) * 2 ^ 23) by lia.
  rewrite lor_disjoint by (unfold uword; lia).
  replace (((sf * 4 + opc) * 64 + 36) * 2 ^ 23 + n * 2 ^ 22) with ((((sf * 4 + opc) * 64 + 36) * 2 + n) * 2 ^ 22) by lia.
  rewrite lor_disjoint by (unfold uword; lia).
  match goal with |- Z.lor (Z.lor (Z.lor (?a * 2 ^ 22 + _) _) _) _ = _ =>
    replace (a * 2 ^ 22 + immr * 2 ^ 16) with ((a * 64 + immr) * 2 ^ 16) by lia end.
  rewrite lor_disjoint by (unfold uword; lia).
  match goal with |- Z.lor (Z.lor (?a * 2 ^ 16 + _) _) _ = _ =>
    replace (a * 2 ^ 16 + imms * 2 ^ 10) with ((a * 64 + imms) * 2 ^ 10) by lia end.
  rewrite lor_disjoint by (unfold uword; lia).
  match goal with |- Z.lor (?a * 2 ^ 10 + _) _ = _ => replace (a * 2 ^ 10 + rn * 2 ^ 5) with ((a * 32 + rn) * 2 ^ 5) by lia end.
  rewrite lor_disjoint by (unfold uword; lia). lia.
Qed.

Lemma bits_spec (word offset width : Z) : 0 <= offset -> 0 <= width -> bits word offset width = word / 2 ^ offset mod 2 ^ width.
Proof.
  intros Ho Hw. unfold bits. rewrite Z.shiftr_div_pow2, Z.shiftl_1_l, <- Z.land_ones, Z.ones_equiv by lia. by rewrite Z.sub_1_r.
Qed.

Lemma bit_spec (word offset : Z) : 0 <= offset -> bit word offset = (bits word offset 1 =? 1).
Proof.
  intros Ho. rewrite bits_spec by lia. unfold bit. rewrite Z.shiftr_div_pow2 by lia. change 1 with (Z.ones 1) at 1.
  rewrite Z.land_ones by lia. pose proof (Z.mod_pos_bound (word / 2 ^ offset) (2 ^ 1)).
  destruct (Z.eqb_spec (word / 2 ^ offset mod 2 ^ 1) 0), (Z.eqb_spec (word / 2 ^ offset mod 2 ^ 1) 1); cbn; lia.
Qed.

(** Every field is read back. *)
Lemma word_decode (sf opc n immr imms rn rd : Z) :
  0 <= sf <= 1 -> 0 <= opc <= 3 -> 0 <= n <= 1 -> 0 <= immr <= 63 -> 0 <= imms <= 63 -> 0 <= rn <= 31 -> 0 <= rd <= 31 ->
  sf = 1 \/ n = 0 -> logical_immediate_bitmask_is_allocated (n =? 1) imms = true ->
  decode (sf * 2 ^ 31 + opc * 2 ^ 29 + 36 * 2 ^ 23 + n * 2 ^ 22 + immr * 2 ^ 16 + imms * 2 ^ 10 + rn * 2 ^ 5 + rd)
  = inr (LogicalImmI (mkLogicalImm sf opc (n =? 1) immr imms rn rd)).
Proof.
  intros. set (w := _ + rd).
  assert (E24 : bits w 24 5 = 18) by (rewrite bits_spec by lia; unfold w; Z.div_mod_to_equations; lia).
  assert (E23 : bits w 23 6 = 36) by (rewrite bits_spec by lia; unfold w; Z.div_mod_to_equations; lia).
  assert (E31 : bits w 31 1 = sf) by (rewrite bits_spec by lia; unfold w; Z.div_mod_to_equations; lia).
  assert (E29 : bits w 29 2 = opc) by (rewrite bits_spec by lia; unfold w; Z.div_mod_to_equations; lia).
  assert (E22 : bits w 22 1 = n) by (rewrite bits_spec by lia; unfold w; Z.div_mod_to_equations; lia).
  assert (E16 : bits w 16 6 = immr) by (rewrite bits_spec by lia; unfold w; Z.div_mod_to_equations; lia).
  assert (E10 : bits w 10 6 = imms) by (rewrite bits_spec by lia; unfold w; Z.div_mod_to_equations; lia).
  assert (E5 : bits w 5 5 = rn) by (rewrite bits_spec by lia; unfold w; Z.div_mod_to_equations; lia).
  assert (E0 : bits w 0 5 = rd) by (rewrite bits_spec by lia; unfold w; Z.div_mod_to_equations; lia).
  unfold decode. destruct (Z.eqb_spec w 3573751839) as [->|_]; [exfalso; vm_compute in E23; lia|].
  destruct (Z.eqb_spec w 3558866976) as [->|_]; [exfalso; vm_compute in E23; lia|]. cbn [orb].
  rewrite E24, E23. cbn [Z.eqb Pos.eqb andb]. unfold decode_logical_imm. rewrite (bit_spec w 22), E31, E29, E22, E16, E10, E5, E0 by lia.
  destruct (Z.eqb_spec sf 0), (Z.eqb_spec n 1); cbn [andb]; try lia;
    match goal with H : logical_immediate_bitmask_is_allocated _ _ = true |- _ => rewrite H end; done.
Qed.

(** ** Searching *)

Lemma find_existsb {A} (p : A -> bool) (l : list A) : existsb p l = match find p l with Some _ => true | None => false end.
Proof. induction l as [|x l IH]; cbn; [done|]. by destruct (p x). Qed.

Lemma existsb_ext_in {A} (p q : A -> bool) (l : list A) : (forall x, x ∈ l -> p x = q x) -> existsb p l = existsb q l.
Proof.
  induction l as [|x l IH]; intros H; cbn; [done|]. rewrite (H x ltac:(left)), IH; [done|]. intros y Hy. apply H. by right.
Qed.

Lemma candidate_bounds (w ew ol rot : Z) : (ew, ol, rot) ∈ candidates w -> 1 <= ol < ew /\ ew <= 64.
Proof.
  intros (ew' & H & Hew)%list_elem_of_bind. apply list_elem_of_bind in H as (ol' & H & Hol).
  apply list_elem_of_fmap in H as (rot' & [= -> -> ->] & _). apply elem_of_seqZ in Hol.
  split; [lia|]. clear Hol. unfold element_widths in Hew. destruct (w =? 64); repeat (apply elem_of_cons in Hew as [->|Hew]; [lia|]);
    by apply elem_of_nil in Hew.
Qed.

(** Instruction selection accepts what the encoder encodes. *)
Lemma encodable_fields (raw : Z) (width_is_32 : bool) :
  let w := if width_is_32 then 32 else 64 in
  match encode_logical_imm_fields raw w 2 with
  | inr f => logical_immediate_encodable raw width_is_32 = true /\
      exists c, c ∈ candidates w /\ candidate w c = Z.land (wrap 64 raw) (low_mask w) /\ f = fields_of c
  | inl e => logical_immediate_encodable raw width_is_32 = false /\ e = InvalidOperand 2
  end.
Proof.
  cbn zeta. unfold encode_logical_imm_fields, logical_immediate_encodable. set (w := if width_is_32 then 32 else 64).
  set (mask := Z.land (wrap 64 raw) (low_mask w)). destruct (_ || _); [done|].
  rewrite (existsb_ext_in _ (fun c => candidate w c =? mask)), find_existsb.
  2:{ intros [[ew ol] rot] Hc. apply candidate_bounds in Hc as [H1 H2]. by rewrite isel_candidate_same. }
  destruct (find _ _) as [[[ew ol] rot]|] eqn:Hf; [|done]. apply find_some in Hf as [Hin Hm]. apply Z.eqb_eq in Hm.
  split; [done|]. exists (ew, ol, rot). split; [by apply list_elem_of_In|]. done.
Qed.

(** A mask of a candidate is encodable. *)
Lemma candidate_encodable (w : Z) (c : Z * Z * Z) (width_is_32 : bool) :
  w = (if width_is_32 then 32 else 64) -> c ∈ candidates w -> logical_immediate_encodable (candidate w c) width_is_32 = true.
Proof.
  intros Ew Hc. assert (Hw : w = 32 \/ w = 64) by (destruct width_is_32; auto).
  pose proof (masks_ok w c Hw Hc) as Hm. unfold mask_ok in Hm. apply andb_true_iff in Hm as [Hm0 Hm1].
  assert (Hmask : candidate w c = Z.land (candidate w c) (low_mask w)).
  { destruct c as [[ew ol] rot]. unfold candidate, replicate_logical_element. by rewrite land_twice. }
  assert (Hland : Z.land (wrap 64 (candidate w c)) (low_mask w) = candidate w c).
  { rewrite wrap_small; [by symmetry|]. rewrite Hmask, land_low_mask by (destruct Hw as [->| ->]; lia).
    unfold uword. pose proof (Z.mod_pos_bound (candidate w c) (2 ^ w)). destruct Hw as [->| ->]; lia. }
  unfold logical_immediate_encodable. rewrite <- Ew, Hland.
  rewrite negb_true_iff in Hm0, Hm1. rewrite Hm0, Hm1. cbn [orb]. apply existsb_exists. exists c. split; [by apply list_elem_of_In|].
  destruct c as [[ew ol] rot]. apply candidate_bounds in Hc as [H1 H2]. rewrite isel_candidate_same by done. apply Z.eqb_refl.
Qed.

Lemma hw_encoding_range (p : PReg) : 0 <= hw_encoding p <= 31.
Proof.
  unfold hw_encoding, within. repeat match goal with |- context [if ?b then _ else _] => destruct b eqn:? end; lia.
Qed.

Lemma preg_hw_range (i : MachInst) (idx : nat) (r : Z) : preg_hw i idx = inr r -> 0 <= r <= 31.
Proof.
  unfold preg_hw. destruct (operands i !! idx) as [[]|]; intros [= <-]; [apply hw_encoding_range|lia].
Qed.

Lemma sf_cases (i : MachInst) (idx : nat) : sf_from_operand i idx = 0 \/ sf_from_operand i idx = 1.
Proof.
  unfold sf_from_operand. destruct (operands i !! idx) as [[| | | | | | | |[]| | |]|]; auto.
  destruct (preg_class p); auto.
Qed.

Lemma logic_op_range (opc a b w : Z) : 0 <= w -> uword w a -> uword w b -> uword w (logic_op opc a b).
Proof.
  intros Hw Ha Hb. unfold logic_op. destruct opc as [|[|[]|]|]; auto using uword_lor, uword_lxor, uword_land.
Qed.

Lemma exec_mask (l : LogicalImm) (mask t x : Z) :
  decode_bit_masks (if n l then 1 else 0) (imms l) (immr l) (reg_width (sf l)) = Some (mask, t) ->
  uword (reg_width (sf l)) mask ->
  exec_logical_imm l x = Some (logic_op (opc l) (x mod 2 ^ reg_width (sf l)) mask).
Proof.
  intros Hd Hm. unfold exec_logical_imm. fold (reg_width (sf l)). rewrite Hd. cbn [mbind option_bind fst].
  assert (Hw : 0 <= reg_width (sf l) <= 64) by (unfold reg_width; destruct (sf l =? 1); lia).
  rewrite !land_low_mask by lia. f_equal. apply Z.mod_small, logic_op_range; [lia| |done].
  apply Z.mod_pos_bound. apply Z.pow_pos_nonneg; lia.
Qed.

(** The encoder and its readers, for one instruction. *)
Lemma encode_decode (i : MachInst) (opc_ rd_ rn_ raw : Z) :
  length (operands i) = 3%nat -> preg_hw i 0 = inr rd_ -> preg_hw i 1 = inr rn_ -> imm_operand i 2 = inr raw -> 0 <= opc_ <= 3 ->
  if logical_immediate_encodable raw (sf_from_operand i 0 =? 0)
  then exists word l, encode_logical_immediate i opc_ = inr word /\ decode word = inr (LogicalImmI l) /\
    (sf l, opc l, rn l, rd l) = (sf_from_operand i 0, opc_, rn_, rd_) /\
    forall x, exec_logical_imm l x = Some (logic_op opc_ (x mod 2 ^ reg_width (sf l)) (raw mod 2 ^ reg_width (sf l)))
  else encode_logical_immediate i opc_ = inl (InvalidOperand 2).
Proof.
  intros Hlen Hrd Hrn Himm Ho. unfold encode_logical_immediate, logical_imm_operands. rewrite Hrd, Hrn, Hlen, Himm. cbn [Nat.eqb].
  pose proof (sf_cases i 0) as Hsf. set (s := sf_from_operand i 0) in *.
  assert (Ew : (if s =? 1 then 64 else 32) = (if s =? 0 then 32 else 64)) by (destruct Hsf as [->| ->]; done).
  rewrite Ew. pose proof (encodable_fields raw (s =? 0)) as Hf. cbn zeta in Hf. rewrite <- Ew in *. fold (reg_width s) in Hf |- *.
  destruct (encode_logical_imm_fields raw (reg_width s) 2) as [e|[[n_ immr_] imms_]].
  - destruct Hf as [-> ->]. done.
  - destruct Hf as (-> & c & Hc & Hm & Ef). symmetry in Ef.
    assert (Hw : reg_width s = 32 \/ reg_width s = 64) by (destruct Hsf as [->| ->]; [left|right]; done).
    destruct (expand_candidate (reg_width s) c n_ immr_ imms_ Hw Hc Ef) as (t & Hexp).
    pose proof (candidates_ok (reg_width s) c Hw Hc) as Hok. destruct c as [[ew ol] rot]. unfold candidate_ok in Hok.
    rewrite Ef in Hok. unfold within in Hok. rewrite !andb_true_iff, orb_true_iff, !Z.leb_le, !Z.eqb_eq in Hok. destruct_and! Hok.
    pose proof (preg_hw_range i 0 rd_ Hrd). pose proof (preg_hw_range i 1 rn_ Hrn).
    eexists _, (mkLogicalImm s opc_ (n_ =? 1) immr_ imms_ rn_ rd_). split; [done|]. split.
    + rewrite word_fields by (destruct Hsf as [->| ->]; lia). apply word_decode; try lia; [by destruct Hsf as [->| ->]..| |done].
      destruct Hsf as [Es|Es]; [right|by left]. rewrite Es in *. unfold reg_width in *. cbn in *. lia.
    + split; [done|]. intros x. cbn [sf opc]. rewrite Hm, land_low_mask in Hexp by lia.
      assert (Eraw : wrap 64 raw mod 2 ^ reg_width s = raw mod 2 ^ reg_width s).
      { unfold wrap. destruct Hw as [->| ->]; [|by rewrite Z.mod_mod by lia]. apply Z.mod_mod_divide.
        by exists (2 ^ 32). }
      rewrite Eraw in Hexp. apply (exec_mask (mkLogicalImm s opc_ (n_ =? 1) immr_ imms_ rn_ rd_) _ t).
      * cbn. assert (n_ = 0 \/ n_ = 1) as [->| ->] by lia; done.
      * cbn. apply Z.mod_pos_bound. apply Z.pow_pos_nonneg; lia.
Qed.

(** Whatever the disassembler accepts expands to a mask that the encoder knows. *)
Lemma decode_encodable (word : Z) (l : LogicalImm) :
  decode word = inr (LogicalImmI l) ->
  exists mask t, decode_bit_masks (if n l then 1 else 0) (imms l) (immr l) (reg_width (sf l)) = Some (mask, t) /\
    logical_immediate_encodable mask (sf l =? 0) = true.
Proof.
  unfold decode. repeat (match goal with |- (if ?b then inr OtherInst else _) = _ -> _ => destruct b; [done|] end).
  destruct (_ =? _); [|done]. unfold decode_logical_imm.
  destruct ((bits word 31 1 =? 0) && bit word 22) eqn:Hn; [done|].
  destruct (logical_immediate_bitmask_is_allocated (bit word 22) (bits word 10 6)) eqn:Hal; cbn [negb]; [|done].
  intros [= <-]. cbn [n imms immr sf]. rewrite (bits_spec word 31 1) in Hn |- * by lia. set (s := word / 2 ^ 31 mod 2 ^ 1) in *.
  assert (Hs : s = 0 \/ s = 1) by (pose proof (Z.mod_pos_bound (word / 2 ^ 31) (2 ^ 1)); lia).
  set (nb := bit word 22) in *. set (n_ := if nb then 1 else 0).
  assert (En : nb = (n_ =? 1)) by (unfold n_; by destruct nb).
  assert (Hw : reg_width s = 32 \/ reg_width s = 64) by (destruct Hs as [->| ->]; [left|right]; done).
  assert (Hn' : 0 <= n_ <= 1) by (unfold n_; destruct nb; lia).
  set (imms_ := bits word 10 6) in *. set (immr_ := bits word 16 6).
  assert (0 <= imms_ <= 63) by (unfold imms_; rewrite bits_spec by lia; pose proof (Z.mod_pos_bound (word / 2 ^ 10) (2 ^ 6)); lia).
  assert (0 <= immr_ <= 63) by (unfold immr_; rewrite bits_spec by lia; pose proof (Z.mod_pos_bound (word / 2 ^ 16) (2 ^ 6)); lia).
  pose proof (all_fields_ok (reg_width s) n_ imms_ immr_ Hw) as Hok. unfold fields_ok in Hok.
  rewrite En in Hal. rewrite Hal in Hok.
  assert (((reg_width s =? 64) || (n_ =? 0)) = true) as E.
  { rewrite En in Hn. destruct Hs as [->| ->]; [|done]. unfold reg_width, n_ in *. destruct nb; done. }
  rewrite E in Hok. cbn [andb] in Hok. specialize (Hok Hn' ltac:(done) ltac:(done)).
  apply andb_true_iff in Hok as [Hc%is_candidate_spec Hf%bool_decide_eq_true].
  destruct (expand_candidate (reg_width s) _ _ _ _ Hw Hc Hf) as (t & Hexp). rewrite expand_rotation in Hexp by done.
  eexists _, t. split; [exact Hexp|]. apply candidate_encodable; [|done]. by destruct Hs as [->| ->].
Qed.

(** C23: The parts of the compiler that know logical immediates agree on them.  For
    an instruction with a register destination and source and an immediate, the
    encoder succeeds exactly when instruction selection may fold the immediate; the
    disassembler reads the word back, and executing what it read applies the
    operation to the immediate itself, at the width of the destination.
    Conversely, every logical immediate the disassembler accepts expands to a mask
    that instruction selection folds, so the encoder misses none. *)
Theorem logical_immediates_agree :
  (forall (i : MachInst) (opc_ rd_ rn_ raw : Z),
    length (operands i) = 3%nat -> preg_hw i 0 = inr rd_ -> preg_hw i 1 = inr rn_ -> imm_operand i 2 = inr raw ->
    0 <= opc_ <= 3 ->
    if logical_immediate_encodable raw (sf_from_operand i 0 =? 0)
    then exists word l, encode_logical_immediate i opc_ = inr word /\ decode word = inr (LogicalImmI l) /\
      (sf l, opc l, rn l, rd l) = (sf_from_operand i 0, opc_, rn_, rd_) /\
      forall x, exec_logical_imm l x = Some (logic_op opc_ (x mod 2 ^ reg_width (sf l)) (raw mod 2 ^ reg_width (sf l)))
    else encode_logical_immediate i opc_ = inl (InvalidOperand 2)) /\
  (forall (word : Z) (l : LogicalImm), decode word = inr (LogicalImmI l) ->
    exists mask t, decode_bit_masks (if n l then 1 else 0) (imms l) (immr l) (reg_width (sf l)) = Some (mask, t) /\
      logical_immediate_encodable mask (sf l =? 0) = true).
Proof. split; [exact encode_decode|exact decode_encodable]. Qed.

(** [and x3, x1, #0x0ff00ff00ff00ff0]. *)
Lemma logical_immediates_agree_witness :
  let i := mkInst (OtherOp 0) [PRegOp (mkPReg 3); PRegOp (mkPReg 1); Imm 0x0ff00ff00ff00ff0] [] [] 0 in
  exists word l, encode_logical_immediate i 0 = inr word /\ decode word = inr (LogicalImmI l) /\
    (n l, immr l, imms l) = (false, 12, 39) /\
    exec_logical_imm l 0x1234567890abcdef = Some (Z.land 0x1234567890abcdef 0x0ff00ff00ff00ff0).
Proof.
  pose proof (proj1 logical_immediates_agree
    (mkInst (OtherOp 0) [PRegOp (mkPReg 3); PRegOp (mkPReg 1); Imm 0x0ff00ff00ff00ff0] [] [] 0)
    0 3 1 0x0ff00ff00ff00ff0 eq_refl eq_refl eq_refl eq_refl ltac:(lia)) as H.
  assert (E : logical_immediate_encodable 0x0ff00ff00ff00ff0 false = true) by (vm_compute; reflexivity).
  change (sf_from_operand _ 0 =? 0) with false in H. rewrite E in H.
  destruct H as (word & l & Henc & Hdec & Hl & Hx). exists word, l.
  assert (E' : encode_logical_immediate (mkInst (OtherOp 0) [PRegOp (mkPReg 3); PRegOp (mkPReg 1); Imm 0x0ff00ff00ff00ff0] [] [] 0) 0
    = inr 0x920c9c23) by (vm_compute; reflexivity).
  rewrite E' in Henc. injection Henc as <-. split; [exact E'|]. split; [exact Hdec|].
  vm_compute in Hdec. injection Hdec as <-. split; [reflexivity|]. exact (Hx 0x1234567890abcdef).
Defined.
