(* ===== verification/DomTree.v ===== *)
(** * Dominator trees ([crates/trust-cg-opt/src/dom.rs])

    The reverse postorder by depth-first search, the iteration of Cooper, Harvey and
    Kennedy, the Euler tour that answers queries and the dominance frontiers.  A
    [HashMap] is a finite map; counters over blocks are natural numbers (a function
    has fewer than [2^31] blocks).  Indexing a missing key panics: such computations
    return [None].  The clock of [TCG_TIME_DOM] is left out. *)

From S2P Require Import Prelude Regs MachFunc.
Local Open Scope nat_scope.

(** ** Reverse postorder *)

Record Dfs := mkDfs { visited : gset nat; postorder : list nat; stack : list (nat * nat) }.

Section Dom.
Context (func : MachFunction).

(** One iteration; the top of the stack is its head. *)
Definition dfs_step (st : Dfs) : Dfs :=
  match stack st with
  | [] => st
  | (b, next_succ_idx) :: rest =>
      match succs (block func b) !! next_succ_idx with
      | Some succ =>
          let rest := (b, S next_succ_idx) :: rest in
          if decide (succ ∈ visited st) then mkDfs (visited st) (postorder st) rest
          else mkDfs ({[succ]} ∪ visited st) (postorder st) ((succ, 0) :: rest)
      | None => mkDfs (visited st) (postorder st ++ [b]) rest
      end
  end.

(** Every block is popped once and every edge looked at once. *)
Definition dfs_fuel : nat := sum_list (S ∘ length ∘ succs <$> blocks func).

Definition compute_rpo (entry : nat) : list nat :=
  reverse (postorder (Nat.iter dfs_fuel dfs_step (mkDfs {[entry]} [] [(entry, 0)]))).

(** ** Immediate dominators *)

Section Iteration.
Context (rpo_order : list nat).

(** [rpo_number], by insertion in order. *)
Definition rpo_number : gmap nat nat :=
  fold_left (fun m (e : nat * nat) => <[e.2 := e.1]> m) (imap pair rpo_order) ∅.

(** [u32::MAX] for blocks without a number. *)
Definition rpo_key (b : nat) : N := match rpo_number !! b with Some i => N.of_nat i | None => 2 ^ 32 - 1 end.

(** The two fingers; [None] when an immediate dominator is missing. *)
Fixpoint intersect (fuel : nat) (idom : gmap nat nat) (b1 b2 : nat) : option nat :=
  if decide (b1 = b2) then Some b1
  else
    match fuel with
    | O => None
    | S fuel =>
        if (rpo_key b2 <? rpo_key b1)%N then d ← idom !! b1; intersect fuel idom d b2
        else d ← idom !! b2; intersect fuel idom b1 d
    end.

Definition intersect_fuel : nat := 2 * length rpo_order.

Definition processed (idom : gmap nat nat) (b : nat) : bool := bool_decide (is_Some (idom !! b)).

(** The loop over the remaining processed predecessors. *)
Definition meet_preds (idom : gmap nat nat) (first : nat) (ps : list nat) : option nat :=
  fold_left (fun acc pred =>
    new_idom ← acc;
    if decide (pred = new_idom) then Some new_idom
    else if processed idom pred then intersect intersect_fuel idom pred new_idom else Some new_idom) ps (Some first).

Definition idom_step (st : option (gmap nat nat * bool)) (b : nat) : option (gmap nat nat * bool) :=
  '(idom, changed) ← st;
  if decide (b = entry func) then Some (idom, changed)
  else
    let ps := preds (block func b) in
    match find (processed idom) ps with
    | None => Some (idom, changed)
    | Some first =>
        new_idom ← meet_preds idom first ps;
        if decide (idom !! b = Some new_idom) then Some (idom, changed)
        else Some (<[b := new_idom]> idom, true)
    end.

Definition idom_pass (idom : gmap nat nat) : option (gmap nat nat * bool) :=
  fold_left idom_step rpo_order (Some (idom, false)).

(** [while changed]; the theorem shows that the fuel is enough. *)
Fixpoint idom_loop (fuel : nat) (idom : gmap nat nat) : option (gmap nat nat) :=
  match fuel with
  | O => None
  | S fuel => '(idom, changed) ← idom_pass idom; if (changed : bool) then idom_loop fuel idom else Some idom
  end.

Definition compute_idom : option (gmap nat nat) := idom_loop (length rpo_order + 2) {[entry func := entry func]}.

(** ** Children, in reverse postorder *)

Definition rpo_le (a b : nat) : Prop := (rpo_key a <= rpo_key b)%N.
#[export] Instance rpo_le_dec : RelDecision rpo_le.
Proof. intros a b. unfold rpo_le. apply _. Defined.

Definition compute_children (idom : gmap nat nat) : gmap nat (list nat) :=
  let push m (e : nat * nat) :=
    if decide (e.1 = e.2) then m else <[e.2 := default [] (m !! e.2) ++ [e.1]]> m in
  merge_sort rpo_le <$> fold_left push (map_to_list idom) ∅.

(** ** The Euler tour *)

Record Tour := mkTour { tin : gmap nat nat; tout : gmap nat nat; timer : nat; tour_stack : list (nat * nat) }.

Definition tour_step (children : gmap nat (list nat)) (t : Tour) : Tour :=
  match tour_stack t with
  | [] => t
  | (b, next) :: rest =>
      match children !! b ≫= (.!! next) with
      | Some child =>
          let rest := (b, S next) :: rest in
          match tin t !! child with
          | None => mkTour (<[child := timer t]> (tin t)) (tout t) (S (timer t)) ((child, 0) :: rest)
          | Some _ => mkTour (tin t) (tout t) (timer t) rest
          end
      | None => mkTour (tin t) (<[b := timer t]> (tout t)) (S (timer t)) rest
      end
  end.

Definition tour (children : gmap nat (list nat)) : Tour :=
  Nat.iter (2 * length rpo_order) (tour_step children) (mkTour {[entry func := 0]} ∅ 1 [(entry func, 0)]).

(** ** Dominance frontiers *)

(** The walk from a predecessor towards the immediate dominator [stop]. *)
Fixpoint frontier_walk (fuel : nat) (idom : gmap nat nat) (b stop runner : nat) (df : gmap nat (gset nat)) : gmap nat (gset nat) :=
  match fuel with
  | O => df
  | S fuel =>
      if decide (runner = stop) then df
      else
        let df := <[runner := {[b]} ∪ default ∅ (df !! runner)]> df in
        let next := default runner (idom !! runner) in
        if decide (next = runner) then df else frontier_walk fuel idom b stop next df
  end.

Definition frontier_block (idom : gmap nat nat) (df : gmap nat (gset nat)) (b : nat) : gmap nat (gset nat) :=
  let ps := preds (block func b) in
  if length ps <? 2 then df
  else fold_left (fun df pred => frontier_walk (length rpo_order + 1) idom b (default b (idom !! b)) pred df) ps df.

Definition compute_dominance_frontiers (idom : gmap nat nat) : gmap nat (gset nat) :=
  fold_left (frontier_block idom) rpo_order ∅.

End Iteration.
End Dom.

(** ** The tree and its queries *)

Record DomTree := mkDomTree {
  idom : gmap nat nat;
  children : gmap nat (list nat);
  dom_frontier : gmap nat (gset nat);
  rpo_numbers : gmap nat nat;
  rpo : list nat;
  stamps : Tour }.

Definition compute (func : MachFunction) : option DomTree :=
  let rpo_order := compute_rpo func (entry func) in
  idom ← compute_idom func rpo_order;
  let children := compute_children rpo_order idom in
  Some (mkDomTree idom children (compute_dominance_frontiers func rpo_order idom)
    (rpo_number rpo_order) rpo_order (tour func rpo_order children)).

Definition dominates (t : DomTree) (a b : nat) : bool :=
  if decide (a = b) then true
  else
    match tin (stamps t) !! a, tout (stamps t) !! a, tin (stamps t) !! b, tout (stamps t) !! b with
    | Some a_in, Some a_out, Some b_in, Some b_out => (a_in <=? b_in) && (b_out <=? a_out)
    | _, _, _, _ => false
    end.

Definition strictly_dominates (t : DomTree) (a b : nat) : bool := negb (bool_decide (a = b)) && dominates t a b.

(** The loop of [MachFunc]: the header dominates the exit. *)
Example demo_dominates :
  match compute demo_loop with
  | Some t => (dominates t 1 2, dominates t 2 1, idom t !! 2, elements <$> dom_frontier t !! 1) = (true, false, Some 1, Some [1])
  | None => False
  end.
Proof. vm_compute. reflexivity. Qed.
