(* ===== verification/DomRpo.v ===== *)
(** * Paths, dominance and the reverse postorder ([crates/trust-cg-opt/src/dom.rs],
      [compute_rpo])

    What dominance means, and that the depth-first search lists the reachable
    blocks once, the entry first and every other block after one of its
    predecessors. *)

From S2P Require Import Prelude Regs MachFunc DomTree.
Local Open Scope nat_scope.

(** [x] comes before [p]. *)
Definition before {A} (l : list A) (x p : A) : Prop := exists l1 l2, l = l1 ++ x :: l2 /\ p ∈ l2.

Lemma before_insert {A} (l1 l2 : list A) (s x p : A) : before (l1 ++ l2) x p -> before (l1 ++ s :: l2) x p.
Proof.
  revert l2; induction l1 as [|y l1 IH]; intros l2 (k1 & k2 & E & Hp); cbn in *.
  - exists (s :: k1), k2. by rewrite E.
  - destruct k1 as [|z k1]; injection E as -> E.
    + exists [], (l1 ++ s :: l2). split; [done|]. subst k2. rewrite elem_of_app, elem_of_cons. apply elem_of_app in Hp. tauto.
    + destruct (IH l2) as (k1' & k2' & E' & Hp'); [by exists k1, k2|]. exists (z :: k1'), k2'. by rewrite E'.
Qed.

Section Cfg.
Context (func : MachFunction).

Definition edge (a b : nat) : Prop := b ∈ succs (block func a).

(** The blocks of a path from the entry to [b], last block first. *)
Inductive walk : list nat -> nat -> Prop :=
  | walk_entry : walk [entry func] (entry func)
  | walk_step w a b : walk w a -> edge a b -> walk (b :: w) b.

Definition reachable (b : nat) : Prop := exists w, walk w b.

(** [a] is on every path from the entry to [b]. *)
Definition dom (a b : nat) : Prop := forall w, walk w b -> a ∈ w.

(** What the analysis needs of the recorded graph: the layout has the entry and is
    closed under successors, and predecessors are the converse of successors. *)
Record cfg_ok : Prop := mkCfgOk {
  entry_laid : entry func ∈ block_order func;
  laid_bound : forall b, b ∈ block_order func -> b < length (blocks func);
  succs_laid : forall a b, a ∈ block_order func -> edge a b -> b ∈ block_order func;
  preds_exact : forall a b, b ∈ block_order func -> (a ∈ preds (block func b) <-> a ∈ block_order func /\ edge a b) }.

Lemma walk_head w b : walk w b -> exists w', w = b :: w'.
Proof. intros []; eauto. Qed.

Lemma walk_self w b : walk w b -> b ∈ w.
Proof. intros (w' & ->)%walk_head. left. Qed.

(** The part of a path up to one of its blocks is a path. *)
Lemma walk_prefix w b x :
  walk w b -> x ∈ w -> exists w', walk w' x /\ length w' <= length w /\ forall y, y ∈ w' -> y ∈ w.
Proof.
  induction 1 as [|w a b Hw IH He]; intros Hx.
  - apply list_elem_of_singleton in Hx as ->. exists [entry func]. split_and!; [constructor|done|done].
  - apply elem_of_cons in Hx as [->|Hx].
    + exists (b :: w). split_and!; [by econstructor|done|done].
    + destruct (IH Hx) as (w' & Hw' & Hl & Hsub). exists w'. split_and!; [done|cbn; lia|]. intros y Hy. right. by apply Hsub.
Qed.

(** A path without repetitions inside a path. *)
Lemma walk_simple w b : walk w b -> exists w', walk w' b /\ NoDup w' /\ forall y, y ∈ w' -> y ∈ w.
Proof.
  induction 1 as [|w a b Hw IH He].
  - exists [entry func]. split_and!; [constructor|apply NoDup_singleton|done].
  - destruct IH as (w' & Hw' & Hnd & Hsub). destruct (decide (b ∈ w')) as [Hb|Hb].
    + clear Hw He. induction Hw' as [|w' a' b' Hw' IH He].
      * apply list_elem_of_singleton in Hb as ->. exists [entry func]. split_and!; [constructor|done|]. intros y Hy. right. by apply Hsub.
      * apply NoDup_cons in Hnd as [Hn Hnd]. apply elem_of_cons in Hb as [->|Hb].
        { exists (b' :: w'). split_and!; [by econstructor|by apply NoDup_cons|]. intros y Hy. right. by apply Hsub. }
        { apply IH; [done| |done]. intros y Hy. apply Hsub. by right. }
    + exists (b :: w'). split_and!; [by econstructor|by apply NoDup_cons|].
      intros y [->|Hy]%elem_of_cons; [left|right; by apply Hsub].
Qed.

Lemma reachable_step a b : reachable a -> edge a b -> reachable b.
Proof. intros [w Hw] He. exists (b :: w). by econstructor. Qed.

Lemma reachable_entry : reachable (entry func).
Proof. eexists. constructor. Qed.

Context (Hok : cfg_ok).

Lemma reachable_laid b : reachable b -> b ∈ block_order func.
Proof.
  intros [w Hw]. induction Hw as [|w a b Hw IH He]; [apply (entry_laid Hok)|]. by apply (succs_laid Hok a).
Qed.

(** ** The search *)

(** The order in which the blocks on the stack and behind it are finished. *)
Definition finishing (st : Dfs) : list nat := postorder st ++ (stack st).*1.

Record dfs_inv (st : Dfs) : Prop := mkDfsInv {
  di_nodup : NoDup (finishing st);
  di_visited : forall b, b ∈ visited st <-> b ∈ finishing st;
  di_reach : forall b, b ∈ visited st -> reachable b;
  di_stack : forall b i, (b, i) ∈ stack st -> i <= length (succs (block func b)) /\
    forall j s, j < i -> succs (block func b) !! j = Some s -> s ∈ visited st;
  di_post : forall b s, b ∈ postorder st -> edge b s -> s ∈ visited st;
  di_last : last (finishing st) = Some (entry func);
  di_parent : forall b, b ∈ visited st -> b <> entry func ->
    exists p, edge p b /\ before (finishing st) b p }.

Lemma dfs_inv_init : dfs_inv (mkDfs {[entry func]} [] [(entry func, 0)]).
Proof.
  split; cbn.
  - apply NoDup_singleton.
  - intros b. rewrite elem_of_singleton, list_elem_of_singleton. done.
  - intros b ->%elem_of_singleton. apply reachable_entry.
  - intros b i [= -> ->]%list_elem_of_singleton. split; [lia|]. intros j s Hj. lia.
  - intros b s Hb. by apply elem_of_nil in Hb.
  - done.
  - intros b ->%elem_of_singleton. done.
Qed.

Lemma dfs_inv_step st : dfs_inv st -> dfs_inv (dfs_step func st).
Proof.
  intros Hi. pose proof Hi as [H1 H2 H3 H4 H5 H6 H7]. unfold dfs_step. destruct st as [vis post stk]. cbn [stack visited postorder] in *.
  destruct stk as [|[b i] rest]; [done|]. unfold finishing in *. cbn [stack visited postorder] in *.
  destruct (H4 b i ltac:(left)) as [Hlen Hdone].
  assert (Hb : b ∈ vis) by (apply H2, elem_of_app; right; left).
  destruct (succs (block func b) !! i) as [s|] eqn:Es.
  - assert (He : edge b s) by by eapply list_elem_of_lookup_2.
    apply lookup_lt_Some in Es as Hlt.
    assert (Hdone' : forall V, vis ⊆ V -> s ∈ V -> forall j s', j < S i -> succs (block func b) !! j = Some s' -> s' ∈ V).
    { intros V HV Hs j s' Hj Hs'. destruct (decide (j = i)) as [->|]; [by rewrite Es in Hs'; injection Hs' as <-|].
      apply HV. apply (Hdone j); [lia|done]. }
    case_decide as Hs.
    + split; cbn [stack visited postorder]; try done. intros b' i' [[= -> ->]|Hin]%elem_of_cons.
      * split; [lia|]. apply Hdone'; [done|done].
      * apply H4. by right.
    + assert (Hs' : s ∉ post ++ b :: rest.*1) by (by rewrite <- H2).
      split; unfold finishing; cbn [stack visited postorder fmap list_fmap fst].
      * apply NoDup_app in H1 as (Ha & Hb' & Hc). apply not_elem_of_app in Hs' as [Hs1 Hs2].
        apply NoDup_app. split; [done|]. split; [|by apply NoDup_cons].
        intros x Hx Hx'. apply elem_of_cons in Hx' as [->|Hx']; [done|]. by apply (Hb' x).
      * intros x. rewrite elem_of_union, elem_of_singleton, H2. cbn. rewrite !elem_of_app, !elem_of_cons. tauto.
      * intros x [->%elem_of_singleton|Hx]%elem_of_union; [|by apply H3]. eapply reachable_step; [by apply H3|done].
      * intros b' i' [[= -> ->]|[[= -> ->]|Hin]%elem_of_cons]%elem_of_cons.
        { split; [lia|]. intros j s' Hj. lia. }
        { split; [lia|]. apply Hdone'; [set_solver|set_solver]. }
        { destruct (H4 b' i') as [H41 H42]; [by right|]. split; [done|]. intros. apply elem_of_union_r. by eapply H42. }
      * intros b' s' Hb' He'. apply elem_of_union_r. by eapply H5.
      * rewrite last_app in H6 |- *. cbn in H6 |- *. destruct rest; done.
      * intros x Hx Hne. apply elem_of_union in Hx as [->%elem_of_singleton|Hx].
        { exists b. split; [done|]. exists post, (b :: rest.*1). split; [done|left]. }
        { destruct (H7 x Hx Hne) as (p & Hep & Hp). exists p. split; [done|]. by apply before_insert. }
  - split; unfold finishing; cbn [stack visited postorder]; rewrite <- ?app_assoc; cbn; try done.
    + intros b' i' Hin. apply H4. by right.
    + intros b' s [Hb'| ->%list_elem_of_singleton]%elem_of_app He; [by eapply H5|].
      apply list_elem_of_lookup in He as [j Hj]. apply lookup_ge_None in Es. apply lookup_lt_Some in Hj as Hj'.
      apply (Hdone j); [lia|done].
Qed.

(** ** The search ends *)

Definition weight (b : nat) : nat := S (length (succs (block func b))).
Arguments weight : simpl never.

(** What is left to do: blocks not visited, and edges and blocks on the stack. *)
Definition todo (st : Dfs) : nat :=
  sum_list (weight <$> filter (fun b => b ∉ visited st) (seq 0 (length (blocks func)))) +
  sum_list ((fun e : nat * nat => weight e.1 - e.2) <$> stack st).

Lemma sum_filter_visit (l : list nat) (V : gset nat) (x : nat) :
  NoDup l -> x ∈ l -> x ∉ V ->
  sum_list (weight <$> filter (fun b => b ∉ V) l) = weight x + sum_list (weight <$> filter (fun b => b ∉ {[x]} ∪ V) l).
Proof.
  induction l as [|y l IH]; intros Hnd Hx Hn; [by apply elem_of_nil in Hx|]. apply NoDup_cons in Hnd as [Hy Hnd]. rewrite !filter_cons.
  apply elem_of_cons in Hx as [->|Hx].
  - rewrite decide_True by done. rewrite (decide_False (P := y ∉ _)) by set_solver. cbn. do 2 f_equal.
    assert (forall z, z ∈ l -> (z ∉ V <-> z ∉ {[y]} ∪ V)) as Hext by (intros z Hz; set_solver).
    clear IH Hnd Hy. induction l as [|z l IH]; [done|]. rewrite !filter_cons.
    destruct (Hext z ltac:(left)) as [Ha Hb]. specialize (IH ltac:(intros; apply Hext; by right)).
    repeat case_decide; cbn; rewrite ?IH; tauto || done.
  - assert (y <> x) by (intros ->; done). specialize (IH Hnd Hx Hn).
    repeat case_decide; cbn; [lia|set_solver|set_solver|lia].
Qed.

Lemma sum_filter_le (P : nat -> Prop) `{forall x, Decision (P x)} (l : list nat) :
  sum_list (weight <$> filter P l) <= sum_list (weight <$> l).
Proof. induction l as [|x l IH]; [done|]. rewrite filter_cons. case_decide; cbn; lia. Qed.

Lemma todo_step st : dfs_inv st -> stack st <> [] -> todo st = S (todo (dfs_step func st)).
Proof.
  intros Hi Hne. unfold dfs_step. destruct st as [vis post [|[b i] rest]]; [done|]. cbn [stack visited postorder].
  destruct (di_stack _ Hi b i ltac:(left)) as [Hlen _]. cbn [stack] in Hlen.
  assert (Ew : weight b = S (length (succs (block func b)))) by done.
  destruct (succs (block func b) !! i) as [s|] eqn:Es.
  - apply lookup_lt_Some in Es as Hlt. case_decide as Hs; unfold todo; cbn [stack visited fmap list_fmap sum_list fst snd Datatypes.id].
    + lia.
    + rewrite (sum_filter_visit _ vis s); [lia|apply NoDup_seq| |done].
      apply elem_of_seq. split; [lia|]. apply (laid_bound Hok), reachable_laid. eapply reachable_step; [|by eapply list_elem_of_lookup_2].
      apply (di_reach _ Hi), (di_visited _ Hi). unfold finishing. apply elem_of_app. right. left.
  - apply lookup_ge_None in Es. unfold todo. cbn. lia.
Qed.

Lemma dfs_iter n st : dfs_inv st -> stack st = [] \/ todo st <= n ->
  dfs_inv (Nat.iter n (dfs_step func) st) /\ stack (Nat.iter n (dfs_step func) st) = [].
Proof.
  revert st. induction n as [|n IH]; intros st Hi Hn.
  - split; [done|]. cbn. destruct Hn as [Hn|Hn]; [done|]. destruct (stack st) as [|e l] eqn:E; [done|].
    pose proof (todo_step st Hi ltac:(by rewrite E)). lia.
  - rewrite Nat.iter_succ_r. apply IH; [by apply dfs_inv_step|]. destruct (stack st) as [|e l] eqn:E.
    + left. unfold dfs_step. by rewrite E.
    + right. destruct Hn as [Hn|Hn]; [done|]. pose proof (todo_step st Hi ltac:(by rewrite E)). lia.
Qed.

Lemma dfs_fuel_weights : dfs_fuel func = sum_list (weight <$> seq 0 (length (blocks func))).
Proof.
  unfold dfs_fuel. f_equal. apply list_eq. intros i. rewrite !list_lookup_fmap.
  destruct (decide (i < length (blocks func))) as [Hi|Hi].
  - rewrite lookup_seq_lt by done. destruct (lookup_lt_is_Some_2 _ _ Hi) as [x Hx]. rewrite Hx. cbn.
    unfold weight, block. by rewrite (list_lookup_total_correct _ _ _ Hx).
  - rewrite lookup_seq_ge by lia. by rewrite lookup_ge_None_2 by lia.
Qed.

(** ** What the order guarantees *)

Record rpo_ok (order : list nat) : Prop := mkRpoOk {
  rpo_nodup : NoDup order;
  rpo_reachable : forall b, b ∈ order <-> reachable b;
  rpo_head : head order = Some (entry func);
  rpo_parent : forall b, b ∈ order -> b <> entry func -> exists p, edge p b /\ before order p b }.

Lemma before_rev {A} (l : list A) (x p : A) : before l x p -> before (reverse l) p x.
Proof.
  intros (l1 & l2 & -> & (k1 & k2 & ->)%list_elem_of_split). exists (reverse k2), (reverse k1 ++ x :: reverse l1).
  rewrite reverse_app, !reverse_cons, reverse_app, reverse_cons, <- !app_assoc. split; [done|].
  apply elem_of_app. right. left.
Qed.

Lemma compute_rpo_ok : rpo_ok (compute_rpo func (entry func)).
Proof.
  unfold compute_rpo. destruct (dfs_iter (dfs_fuel func) _ dfs_inv_init) as [Hi Hs].
  { right. rewrite dfs_fuel_weights. unfold todo. cbn [stack visited fmap list_fmap sum_list fst snd Datatypes.id].
    rewrite (Nat.add_comm _ (_ + _)), Nat.sub_0_r, Nat.add_0_r.
    pose proof (sum_filter_visit (seq 0 (length (blocks func))) ∅ (entry func)) as H. rewrite union_empty_r_L in H.
    rewrite <- H; [|apply NoDup_seq| |set_solver].
    - apply sum_filter_le.
    - apply elem_of_seq. split; [lia|]. apply (laid_bound Hok), (entry_laid Hok). }
  set (st := Nat.iter _ _ _) in *. destruct Hi as [H1 H2 H3 H4 H5 H6 H7]. unfold finishing in *. rewrite Hs in *.
  cbn in *. rewrite app_nil_r in *. split.
  - by rewrite reverse_Permutation.
  - intros b. rewrite elem_of_reverse, <- H2. split; [apply H3|].
    intros [w Hw]. induction Hw as [|w a b Hw IH He]; [|apply (H5 a); [by apply H2|done]].
    apply H2. destruct (last (postorder st)) eqn:E; [|done]. injection H6 as <-. apply last_Some in E as [l' ->].
    apply elem_of_app. right. left.
  - by rewrite head_reverse.
  - intros b Hb Hne. rewrite elem_of_reverse, <- H2 in Hb.
    destruct (H7 b Hb Hne) as (p & He & Hp). exists p. split; [done|]. by apply before_rev.
Qed.

End Cfg.
