(* ===== verification/DomSound.v ===== *)
(** * The iteration computes the dominator tree ([crates/trust-cg-opt/src/dom.rs],
      [compute_inner], [intersect])

    The partial trees of the iteration are related to paths from two sides: every
    dominator of a block is one of its ancestors at any time, and after [k] passes
    its ancestors are on every path of at most [k] edges.  So the tree is exact
    after as many passes as there are blocks, and the next pass changes nothing. *)

From S2P Require Import Prelude Regs MachFunc DomTree DomRpo.
Local Open Scope nat_scope.

Section Idom.
Context (func : MachFunction) (Hok : cfg_ok func) (order : list nat) (Hrpo : rpo_ok func order).

Abbreviation ent := (entry func).
Abbreviation edge := (edge func).
Abbreviation walk := (walk func).
Abbreviation dom := (dom func).

(** ** Numbers *)

Definition pos (b : nat) : nat := default 0 (rpo_number order !! b).

Lemma rpo_number_fold (l : list nat) (k : nat) (m : gmap nat nat) (b : nat) :
  NoDup l ->
  fold_left (fun m (e : nat * nat) => <[e.2 := e.1]> m) (imap (fun i b => (k + i, b)) l) m !! b
  = match list_find (eq b) l with Some (i, _) => Some (k + i) | None => m !! b end.
Proof.
  revert k m; induction l as [|x l IH]; intros k m Hnd; [done|]. apply NoDup_cons in Hnd as [Hx Hnd].
  cbn [imap fold_left fst snd]. rewrite (imap_ext _ (fun i b => (S k + i, b))) by (intros; cbn; f_equal; lia).
  rewrite IH by done. cbn [list_find]. destruct (decide (b = x)) as [->|Hne].
  - destruct (list_find (eq x) l) as [[i y]|] eqn:E; [|by rewrite lookup_insert_eq, Nat.add_0_r].
    apply list_find_Some in E as (Hi & <- & _). destruct Hx. by eapply list_elem_of_lookup_2.
  - destruct (list_find (eq b) l) as [[i y]|]; cbn; [f_equal; lia|]. by rewrite lookup_insert_ne by done.
Qed.

Lemma rpo_number_lookup (b i : nat) : rpo_number order !! b = Some i <-> order !! i = Some b.
Proof.
  unfold rpo_number. rewrite (imap_ext pair (fun i b => (0 + i, b))) by done.
  rewrite rpo_number_fold by apply (rpo_nodup _ _ Hrpo).
  destruct (list_find (eq b) order) as [[j y]|] eqn:E.
  - apply list_find_Some in E as (Hj & <- & _). split; [by intros [= <-]|]. intros Hi. f_equal. cbn.
    by eapply NoDup_lookup; [apply (rpo_nodup _ _ Hrpo)|..].
  - rewrite lookup_empty. split; [done|]. intros Hi. apply list_find_None in E. rewrite Forall_forall in E.
    destruct (E b); [by eapply list_elem_of_lookup_2|done].
Qed.

Lemma pos_lookup (b : nat) : b ∈ order -> order !! pos b = Some b /\ rpo_key order b = N.of_nat (pos b).
Proof.
  intros [i Hi]%list_elem_of_lookup. unfold pos, rpo_key. by rewrite (proj2 (rpo_number_lookup b i) Hi).
Qed.

Lemma pos_inj (a b : nat) : a ∈ order -> b ∈ order -> pos a = pos b -> a = b.
Proof. intros [Ha _]%pos_lookup [Hb _]%pos_lookup E. rewrite E, Hb in Ha. by injection Ha. Qed.

Lemma pos_bound (b : nat) : b ∈ order -> pos b < length order.
Proof. intros [Hb _]%pos_lookup. by eapply lookup_lt_Some. Qed.

Lemma pos_before (l1 l2 : list nat) (a b : nat) : order = l1 ++ b :: l2 -> a ∈ l1 -> pos a < pos b.
Proof.
  intros E [i Hi]%list_elem_of_lookup. assert (Ha : order !! i = Some a) by (rewrite E; by apply lookup_app_l_Some).
  assert (Hb : order !! length l1 = Some b) by (rewrite E; by rewrite list_lookup_middle).
  unfold pos. rewrite (proj2 (rpo_number_lookup a i) Ha), (proj2 (rpo_number_lookup b _) Hb). cbn.
  by eapply lookup_lt_Some.
Qed.

Lemma pos_entry : pos ent = 0.
Proof.
  pose proof (rpo_head _ _ Hrpo) as H. unfold pos. assert (order !! 0 = Some ent) as E%rpo_number_lookup by (by destruct order).
  by rewrite E.
Qed.

Lemma entry_ordered : ent ∈ order.
Proof. apply (rpo_reachable _ _ Hrpo), reachable_entry. Qed.

(** A block of the order has a predecessor among the blocks before it. *)
Lemma parent_before (l1 l2 : list nat) (b : nat) :
  order = l1 ++ b :: l2 -> b <> ent -> exists p, p ∈ l1 /\ edge p b.
Proof.
  intros E Hne. destruct (rpo_parent _ _ Hrpo b) as (p & He & k1 & k2 & E' & Hb); [rewrite E; apply elem_of_app; right; left|done|].
  exists p. split; [|done]. pose proof (rpo_nodup _ _ Hrpo) as Hnd. rewrite E in E', Hnd.
  apply NoDup_app in Hnd as (_ & _ & [Hbl _]%NoDup_cons).
  apply app_eq_inv in E' as [(k & -> & Ek)|(k & -> & Ek)]; destruct k as [|z k]; cbn in Ek; injection Ek as <- Ek.
  - by rewrite Ek in Hb.
  - apply elem_of_app. right. left.
  - by rewrite <- Ek in Hb.
  - destruct Hbl. rewrite Ek. apply elem_of_app. right. by right.
Qed.

(** ** Partial trees *)

Definition par (m : gmap nat nat) (x y : nat) : Prop := m !! x = Some y.
Definition anc (m : gmap nat nat) (x a : nat) : Prop := rtc (par m) x a.

(** A path from [a] to [b] through blocks numbered [k] or more. *)
Definition climb (k a b : nat) : Prop := rtc (fun u v => edge u v /\ k <= pos v) a b.

Lemma climb_trans k a b c : climb k a b -> climb k b c -> climb k a c.
Proof. unfold climb. intros. by etransitivity. Qed.

Lemma anc_trans m x y z : anc m x y -> anc m y z -> anc m x z.
Proof. unfold anc. intros. by etransitivity. Qed.

Record tree_ok (m : gmap nat nat) : Prop := mkTreeOk {
  t_entry : m !! ent = Some ent;
  t_order : forall x y, m !! x = Some y -> x ∈ order;
  t_closed : forall x y, m !! x = Some y -> is_Some (m !! y);
  t_up : forall x y, m !! x = Some y -> x <> ent -> pos y < pos x;
  t_climb : forall x y, m !! x = Some y -> x <> ent -> climb (pos y) y x;
  t_dom : forall x d, is_Some (m !! x) -> dom d x -> anc m x d }.

Section Tree.
Context (m : gmap nat nat) (Hm : tree_ok m).

Lemma par_pos x y : par m x y -> pos y <= pos x.
Proof.
  intros H. destruct (decide (x = ent)) as [->|Hne]; [|pose proof (t_up _ Hm x y H Hne); lia].
  unfold par in H. rewrite (t_entry _ Hm) in H. by injection H as <-.
Qed.

Lemma anc_pos x a : anc m x a -> pos a <= pos x.
Proof. induction 1 as [|x y a Hp _ IH]; [done|]. pose proof (par_pos x y Hp). lia. Qed.

Lemma anc_processed x a : is_Some (m !! x) -> anc m x a -> is_Some (m !! a).
Proof. intros Hx. induction 1 as [|x y a Hp _ IH]; [done|]. apply IH. by eapply t_closed. Qed.

Lemma processed_ordered x : is_Some (m !! x) -> x ∈ order.
Proof. intros [y Hy]. by eapply t_order. Qed.

(** The ancestors of a block other than itself are those of its parent. *)
Lemma anc_parent x y a : m !! x = Some y -> anc m x a -> a = x \/ anc m y a.
Proof.
  intros Hy Ha. inversion Ha as [|? z ? Hz Hr]; subst; [by left|right]. unfold par in Hz. rewrite Hy in Hz.
  by injection Hz as <-.
Qed.

Lemma anc_strict x a : is_Some (m !! x) -> anc m x a -> a <> x -> pos a < pos x.
Proof.
  intros Hx Ha Hne. pose proof (anc_pos x a Ha). destruct (decide (pos a = pos x)) as [E|]; [|lia].
  destruct Hne. apply pos_inj; [|by apply processed_ordered|done]. apply processed_ordered. by eapply anc_processed.
Qed.

Lemma climb_mono k k' a b : k' <= k -> climb k a b -> climb k' a b.
Proof. intros Hk. apply rtc_subrel. intros u v [He Hv]. split; [done|lia]. Qed.

Lemma anc_climb x a : anc m x a -> climb (pos a) a x.
Proof.
  induction 1 as [|x y a Hp Ha IH]; [apply rtc_refl|]. destruct (decide (x = ent)) as [->|Hne].
  - unfold par in Hp. rewrite (t_entry _ Hm) in Hp. by injection Hp as <-.
  - eapply climb_trans; [exact IH|]. eapply climb_mono; [|by eapply t_climb]. by apply anc_pos.
Qed.

(** ** The two fingers meet at the lowest common ancestor *)

Lemma intersect_spec fuel b1 b2 :
  is_Some (m !! b1) -> is_Some (m !! b2) -> pos b1 + pos b2 <= fuel ->
  exists c, intersect order fuel m b1 b2 = Some c /\ anc m b1 c /\ anc m b2 c /\
    forall d, anc m b1 d -> anc m b2 d -> anc m c d.
Proof.
  revert b1 b2. induction fuel as [|fuel IH]; intros b1 b2 H1 H2 Hf; cbn [intersect];
    (case_decide as E; [subst b2; exists b1; split_and!; [done|apply rtc_refl|apply rtc_refl|done]|]).
  - destruct E. apply pos_inj; [by apply processed_ordered..|lia].
  - destruct (pos_lookup b1 (processed_ordered b1 H1)) as [_ ->], (pos_lookup b2 (processed_ordered b2 H2)) as [_ ->].
    assert (Hpos : pos b1 <> pos b2) by (intros E'; apply E, pos_inj; [by apply processed_ordered..|done]).
    destruct H1 as [y1 H1], H2 as [y2 H2]. destruct (N.ltb_spec (N.of_nat (pos b2)) (N.of_nat (pos b1))) as [Hlt|Hge].
    + rewrite H1. cbn. assert (Hne : b1 <> ent).
      { intros ->. rewrite pos_entry in Hlt. lia. }
      pose proof (t_up _ Hm b1 y1 H1 Hne). destruct (IH y1 b2) as (c & Hc & A1 & A2 & A3); [by eapply t_closed|by eexists|lia|].
      exists c. split_and!; [done|by eapply rtc_l|done|]. intros d Hd1 Hd2. apply A3; [|done].
      destruct (anc_parent b1 y1 d H1 Hd1) as [->|]; [|done]. apply anc_pos in Hd2. lia.
    + rewrite H2. cbn. assert (Hne : b2 <> ent).
      { intros ->. rewrite pos_entry in Hge, Hpos. lia. }
      pose proof (t_up _ Hm b2 y2 H2 Hne). destruct (IH b1 y2) as (c & Hc & A1 & A2 & A3); [by eexists|by eapply t_closed|lia|].
      exists c. split_and!; [done|done|by eapply rtc_l|]. intros d Hd1 Hd2. apply A3; [done|].
      destruct (anc_parent b2 y2 d H2 Hd2) as [->|]; [|done]. apply anc_pos in Hd1. lia.
Qed.

(** [n] is the lowest common ancestor of the processed blocks of [ps]. *)
Definition meets (ps : list nat) (n : nat) : Prop :=
  (forall p, p ∈ ps -> is_Some (m !! p) -> anc m p n) /\
  (forall d, (forall p, p ∈ ps -> is_Some (m !! p) -> anc m p d) -> anc m n d).

Lemma meet_preds_cons (cur p : nat) (ps : list nat) :
  meet_preds order m cur (p :: ps) =
  (x ← (if decide (p = cur) then Some cur
        else if processed m p then intersect order (intersect_fuel order) m p cur else Some cur);
   meet_preds order m x ps).
Proof.
  unfold meet_preds. cbn [fold_left]. cbn [mbind option_bind]. destruct (if decide (p = cur) then _ else _); [done|]. cbn.
  by induction ps as [|q ps IH].
Qed.

Lemma meet_fold (ps seen : list nat) (cur : nat) :
  is_Some (m !! cur) -> meets seen cur -> exists n, meet_preds order m cur ps = Some n /\ is_Some (m !! n) /\ meets (seen ++ ps) n.
Proof.
  revert seen cur. induction ps as [|p ps IH]; intros seen cur Hc Hs.
  { exists cur. rewrite app_nil_r. done. }
  rewrite meet_preds_cons.
  assert (Hext : forall x, is_Some (m !! x) -> meets (seen ++ [p]) x ->
    exists n, meet_preds order m x ps = Some n /\ is_Some (m !! n) /\ meets (seen ++ p :: ps) n).
  { intros x Hx Hmx. destruct (IH (seen ++ [p]) x Hx Hmx) as (n & Hn & Hp & Hm'). rewrite <- app_assoc in Hm'. eauto. }
  assert (Hkeep : is_Some (m !! p) -> anc m p cur -> meets (seen ++ [p]) cur).
  { intros Hp Ha. split; [intros q [Hq| ->%list_elem_of_singleton]%elem_of_app Hq'; [by apply Hs|done]|].
    intros d Hd. apply Hs. intros q Hq. apply Hd, elem_of_app. by left. }
  case_decide as E; [|unfold processed; case_bool_decide as Hp].
  - subst p. apply Hext; [done|]. apply Hkeep; [done|apply rtc_refl].
  - destruct (intersect_spec (intersect_fuel order) p cur Hp Hc) as (c & Hi & A1 & A2 & A3).
    { pose proof (pos_bound p (processed_ordered p Hp)). pose proof (pos_bound cur (processed_ordered cur Hc)).
      unfold intersect_fuel. lia. }
    rewrite Hi. apply Hext; [by eapply anc_processed|]. destruct Hs as [Hs1 Hs2]. split.
    + intros q [Hq| ->%list_elem_of_singleton]%elem_of_app Hq'; [|done]. eapply anc_trans; [by apply Hs1|done].
    + intros d Hd. apply A3; [apply Hd; [apply elem_of_app; right; left|done]|]. apply Hs2. intros q Hq. apply Hd, elem_of_app. by left.
  - apply Hext; [done|]. destruct Hs as [Hs1 Hs2]. split.
    + intros q [Hq| ->%list_elem_of_singleton]%elem_of_app Hq'; [by apply Hs1|done].
    + intros d Hd. apply Hs2. intros q Hq. apply Hd, elem_of_app. by left.
Qed.

Lemma meet_preds_spec (ps : list nat) (p : nat) :
  p ∈ ps -> is_Some (m !! p) ->
  exists first n, find (processed m) ps = Some first /\ meet_preds order m first ps = Some n /\ is_Some (m !! n) /\ meets ps n.
Proof.
  intros Hp Hs. destruct (find (processed m) ps) as [first|] eqn:E.
  - apply find_some in E as [Hin Hf]. unfold processed in Hf. apply bool_decide_eq_true in Hf. apply list_elem_of_In in Hin.
    destruct (meet_fold ps [first] first Hf) as (n & Hn & Hn' & Hm1 & Hm2).
    { split; [intros q ->%list_elem_of_singleton _; apply rtc_refl|]. intros d Hd. apply Hd; [left|done]. }
    exists first, n. split_and!; [done|done|done|]. split.
    + intros q Hq. apply Hm1. by right.
    + intros d Hd. apply Hm2. intros q [->|Hq]%elem_of_cons Hq'; by apply Hd.
  - apply find_none with (x := p) in E; [|by apply list_elem_of_In]. unfold processed in E. by rewrite bool_decide_eq_false in E.
Qed.

End Tree.

(** ** Moving a block below another *)

Section Move.
Context (m : gmap nat nat) (Hm : tree_ok m) (b n : nat).
Context (Hn : is_Some (m !! n)) (Hpos : pos n < pos b) (Hb : b ∈ order) (Hne : b <> ent).
Context (Hmeet : meets m (preds (block func b)) n) (p0 : nat) (Hp0 : edge p0 b) (Hp0' : is_Some (m !! p0)).

Abbreviation m' := (<[b := n]> m).

Lemma move_old x a : anc m x a -> anc m' x a \/ (anc m' x b /\ anc m b a).
Proof.
  induction 1 as [x|x y a Hp Ha IH]; [left; apply rtc_refl|]. destruct (decide (x = b)) as [->|Hx].
  - right. split; [apply rtc_refl|by eapply rtc_l].
  - assert (Hp' : par m' x y) by (unfold par; by rewrite lookup_insert_ne by done).
    destruct IH as [IH|[IH1 IH2]]; [left|right; split; [|done]]; by eapply rtc_l.
Qed.

Lemma move_new x a : anc m' x a -> anc m x a \/ (anc m x b /\ anc m' b a).
Proof.
  induction 1 as [x|x y a Hp Ha IH]; [left; apply rtc_refl|]. destruct (decide (x = b)) as [->|Hx].
  - right. split; [apply rtc_refl|by eapply rtc_l].
  - assert (Hp' : par m x y) by (unfold par in *; by rewrite lookup_insert_ne in Hp by done).
    destruct IH as [IH|[IH1 IH2]]; [left|right; split; [|done]]; by eapply rtc_l.
Qed.

Lemma move_above a : anc m' n a <-> anc m n a.
Proof.
  split; intros Ha.
  - destruct (move_new n a Ha) as [|[Hx _]]; [done|]. apply (anc_pos m Hm) in Hx. lia.
  - destruct (move_old n a Ha) as [|[Hx _]]; [done|]. exfalso.
    destruct (move_new n b Hx) as [Hy|[Hy _]]; apply (anc_pos m Hm) in Hy; lia.
Qed.

Lemma move_here a : anc m' b a <-> a = b \/ anc m n a.
Proof.
  rewrite <- move_above. split.
  - intros Ha. inversion Ha as [|? z ? Hz Hr]; subst; [by left|right]. unfold par in Hz. rewrite lookup_insert_eq in Hz.
    by injection Hz as <-.
  - intros [->|Ha]; [apply rtc_refl|]. eapply rtc_l; [|done]. unfold par. apply lookup_insert_eq.
Qed.

Lemma dom_pred d p : dom d b -> d <> b -> edge p b -> dom d p.
Proof.
  intros Hd Hdb He w Hw. specialize (Hd (b :: w) ltac:(by econstructor)). by apply elem_of_cons in Hd as [|].
Qed.

Lemma edge_pred p : is_Some (m !! p) -> edge p b <-> p ∈ preds (block func b).
Proof.
  intros Hp. rewrite (preds_exact _ Hok); [|apply (reachable_laid func Hok), (rpo_reachable _ _ Hrpo), Hb].
  split; [|tauto]. intros He. split; [|done]. apply (reachable_laid func Hok), (rpo_reachable _ _ Hrpo). by apply (processed_ordered m Hm).
Qed.

Lemma move_dominators d : dom d b -> anc m' b d.
Proof.
  intros Hd. apply move_here. destruct (decide (d = b)) as [|Hdb]; [by left|right]. apply Hmeet. intros p Hp Hs.
  apply (t_dom _ Hm); [done|]. apply (dom_pred d p); [done|done|]. by apply edge_pred.
Qed.

Lemma climb_walk k a x w : climb k a x -> walk w a -> exists w', walk w' x /\ forall y, y ∈ w' -> y ∈ w \/ k <= pos y.
Proof.
  intros Hc. revert w. induction Hc as [|a y x [He Hk] _ IH]; intros w Hw; [exists w; auto|].
  destruct (IH (y :: w)) as (w' & Hw' & Hin); [by econstructor|]. exists w'. split; [done|]. intros z Hz.
  apply Hin in Hz as [[->|]%elem_of_cons|]; auto.
Qed.

(** A dominator of a block below [b] that was above [b] dominates [b]. *)
Lemma dom_between x d : is_Some (m !! b) -> anc m x b -> anc m b d -> dom d x -> dom d b.
Proof.
  intros Hs Hx Hd Hdom w Hw. destruct (decide (d = b)) as [->|Hdb]; [by eapply walk_self|].
  destruct (climb_walk _ _ _ w (anc_climb m Hm x b Hx) Hw) as (w' & Hw' & Hin). destruct (Hin d (Hdom w' Hw')) as [|Hge]; [done|].
  pose proof (anc_strict m Hm b d Hs Hd Hdb). lia.
Qed.

Lemma move_ok : tree_ok m'.
Proof.
  split.
  - rewrite lookup_insert_ne by done. apply (t_entry _ Hm).
  - intros x y [[<- <-]|[_ Hx]]%lookup_insert_Some; [done|by eapply t_order].
  - intros x y Hxy. destruct (decide (y = b)) as [->|Hyb]; [rewrite lookup_insert_eq; by eexists|].
    rewrite lookup_insert_ne by done. apply lookup_insert_Some in Hxy as [[<- <-]|[_ Hx]]; [done|by eapply t_closed].
  - intros x y [[<- <-]|[_ Hx]]%lookup_insert_Some Hxe; [done|by apply (t_up _ Hm)].
  - intros x y [[<- <-]|[_ Hx]]%lookup_insert_Some Hxe; [|by apply (t_climb _ Hm)].
    assert (Ha : anc m p0 n) by (apply Hmeet; [by apply edge_pred|done]).
    eapply climb_trans; [by apply (anc_climb m Hm)|]. apply rtc_once. split; [done|lia].
  - intros x d Hx Hd. destruct (decide (x = b)) as [->|Hxb]; [by apply move_dominators|].
    rewrite lookup_insert_ne in Hx by done. destruct (move_old x d (t_dom _ Hm x d Hx Hd)) as [|[Hxb' Hbd]]; [done|].
    assert (Hs : is_Some (m !! b)) by (apply (anc_processed m Hm x b Hx); destruct (move_new x b Hxb') as [|[]]; done).
    eapply anc_trans; [exact Hxb'|]. apply move_dominators, (dom_between x); try done. by destruct (move_new x b Hxb') as [|[]].
Qed.

End Move.

(** ** Passes *)

(** After [k] passes, in a pass that has processed [seen]. *)
Record pass_inv (k : nat) (seen : list nat) (m : gmap nat nat) : Prop := mkPassInv {
  pi_tree : tree_ok m;
  pi_processed : forall x, x ∈ order -> x = ent \/ 0 < k \/ x ∈ seen -> is_Some (m !! x);
  pi_walk : forall w x, walk w x -> length w <= k + 1 \/ (length w <= k + 2 /\ x ∈ seen) -> forall a, anc m x a -> a ∈ w }.

Lemma walk_reachable w x : walk w x -> x ∈ order.
Proof. intros Hw. apply (rpo_reachable _ _ Hrpo). by exists w. Qed.

Lemma pass_inv_move k seen rest m b n :
  pass_inv k seen m -> order = seen ++ b :: rest -> b <> ent -> is_Some (m !! n) -> meets m (preds (block func b)) n ->
  pass_inv k (seen ++ [b]) (<[b := n]> m).
Proof.
  intros [Hm Hp Hw] Eo Hne Hn Hmeet.
  assert (Hb : b ∈ order) by (rewrite Eo; apply elem_of_app; right; left).
  destruct (parent_before seen rest b Eo Hne) as (p0 & Hp0 & He0).
  assert (Hp0o : p0 ∈ order) by (rewrite Eo; apply elem_of_app; by left).
  assert (Hs0 : is_Some (m !! p0)) by (apply Hp; auto).
  assert (Hpos : pos n < pos b).
  { pose proof (pos_before seen rest p0 b Eo Hp0).
    assert (Ha : anc m p0 n) by (apply Hmeet; [by apply (edge_pred m Hm b Hb)|done]). apply (anc_pos m Hm) in Ha. lia. }
  assert (Hhere : forall w, walk w b -> length w <= k + 2 -> forall a, anc (<[b := n]> m) b a -> a ∈ w).
  { intros w Hwb Hl a Ha. inversion Hwb as [E|w' p b' Hw' He]; subst; [done|]. cbn in Hl.
    apply (move_here m Hm b n Hpos Hb Hne Hmeet p0 He0) in Ha as [->|Ha]; [left|right].
    assert (Hsp : is_Some (m !! p)).
    { apply Hp; [by eapply walk_reachable|]. destruct k as [|k]; [|right; left; lia]. left.
      inversion Hw' as [|w'' p' b' Hw'' He']; subst; [done|]. destruct (walk_head _ _ _ Hw'') as [? ->]. cbn in Hl. lia. }
    apply (Hw w' p Hw'); [left; lia|]. eapply anc_trans; [|exact Ha]. apply Hmeet; [by apply (edge_pred m Hm b Hb)|done]. }
  split.
  - by apply (move_ok m Hm b n Hn Hpos Hb Hne Hmeet p0).
  - intros x Hx Hc. destruct (decide (x = b)) as [->|Hxb]; [rewrite lookup_insert_eq; by eexists|].
    rewrite lookup_insert_ne by done. apply Hp; [done|]. rewrite elem_of_app, list_elem_of_singleton in Hc. tauto.
  - intros w x Hwx Hc a Ha. destruct (decide (x = b)) as [->|Hxb]; [apply Hhere; [done| |done]; lia|].
    assert (Hc' : length w <= k + 1 \/ length w <= k + 2 /\ x ∈ seen) by (rewrite elem_of_app, list_elem_of_singleton in Hc; tauto).
    destruct (move_new m b n x a Ha) as [Ha'|[Hxb' Ha']]; [by apply (Hw w x)|].
    pose proof (Hw w x Hwx Hc' b Hxb') as Hbw. destruct (walk_prefix _ w x b Hwx Hbw) as (w1 & Hw1 & Hl1 & Hsub).
    apply Hsub, Hhere; [done| |done]. lia.
Qed.

Lemma idom_step_inv k seen rest m b c :
  pass_inv k seen m -> order = seen ++ b :: rest ->
  exists m' c', idom_step func order (Some (m, c)) b = Some (m', c') /\ pass_inv k (seen ++ [b]) m' /\
    ((c' = c /\ m' = m) \/ (c' = true /\ m' <> m)).
Proof.
  intros Hi Eo. cbn [idom_step mbind option_bind]. case_decide as Hbe.
  - exists m, c. split; [done|]. split; [|by left]. destruct Hi as [Hm Hp Hw]. split; [done|..].
    + intros x Hx Hc. apply Hp; [done|]. rewrite elem_of_app, list_elem_of_singleton in Hc. naive_solver.
    + intros w x Hwx Hc a Ha. destruct (decide (x = b)) as [->|Hxb].
      * subst b. assert (a = ent) as ->; [|by eapply walk_self].
        clear -Ha Hm. remember ent as x eqn:E. induction Ha as [|x y a Hp Ha IH]; [done|]. subst x. unfold par in Hp.
        rewrite (t_entry _ Hm) in Hp. injection Hp as <-. by apply IH.
      * apply (Hw w x); [done| |done]. rewrite elem_of_app, list_elem_of_singleton in Hc. tauto.
  - assert (Hb : b ∈ order) by (rewrite Eo; apply elem_of_app; right; left).
    destruct (parent_before seen rest b Eo Hbe) as (p0 & Hp0 & He0).
    assert (Hs0 : is_Some (m !! p0)) by (apply (pi_processed _ _ _ Hi); [rewrite Eo; apply elem_of_app; by left|auto]).
    destruct (meet_preds_spec m (pi_tree _ _ _ Hi) (preds (block func b)) p0) as (first & n & Hf & Hmp & Hn & Hmeet);
      [by apply (edge_pred m (pi_tree _ _ _ Hi) b Hb)|done|].
    rewrite Hf, Hmp. cbn [mbind option_bind]. pose proof (pass_inv_move k seen rest m b n Hi Eo Hbe Hn Hmeet) as Hi'.
    case_decide as E.
    + exists m, c. rewrite (insert_id m b n E) in Hi'. split; [done|]. split; [done|by left].
    + exists (<[b := n]> m), true. split; [done|]. split; [done|]. right. split; [done|]. intros Em. apply E. rewrite <- Em. apply lookup_insert_eq.
Qed.

Lemma idom_fold_inv k seen rest m c :
  pass_inv k seen m -> order = seen ++ rest ->
  exists m' c', fold_left (idom_step func order) rest (Some (m, c)) = Some (m', c') /\ pass_inv k order m' /\
    ((c' = c /\ m' = m) \/ (c' = true)).
Proof.
  revert seen m c. induction rest as [|b rest IH]; intros seen m c Hi Eo; cbn [fold_left].
  - rewrite app_nil_r in Eo. subst seen. exists m, c. auto.
  - destruct (idom_step_inv k seen rest m b c Hi Eo) as (m1 & c1 & E1 & Hi1 & H1). rewrite E1.
    destruct (IH (seen ++ [b]) m1 c1 Hi1) as (m2 & c2 & E2 & Hi2 & H2); [by rewrite <- app_assoc|].
    exists m2, c2. split; [done|]. split; [done|]. destruct H2 as [[-> ->]| ->]; [|by right].
    destruct H1 as [[-> ->]|[-> _]]; auto.
Qed.

Lemma idom_pass_inv k m :
  pass_inv k [] m ->
  exists m' c', idom_pass func order m = Some (m', c') /\ pass_inv (S k) [] m' /\ (c' = false -> m' = m).
Proof.
  intros Hi. destruct (idom_fold_inv k [] order m false Hi eq_refl) as (m' & c' & E & [Hm Hp Hw] & H).
  exists m', c'. split; [done|]. split; [|destruct H as [[_ ->]| ->]; done]. split; [done|..].
  - intros x Hx _. apply Hp; auto.
  - intros w x Hwx [Hl|[_ Hx]] a Ha; [|by apply elem_of_nil in Hx]. apply (Hw w x); [done| |done]. right.
    split; [lia|by eapply walk_reachable].
Qed.

(** The ancestors are exactly the dominators. *)
Definition exact (m : gmap nat nat) : Prop :=
  (forall x, is_Some (m !! x) <-> x ∈ order) /\ (forall x a, x ∈ order -> anc m x a <-> dom a x).

Lemma pass_inv_exact k seen m : pass_inv k seen m -> length order <= k -> exact m.
Proof.
  intros [Hm Hp Hw] Hk. assert (Hall : forall x, x ∈ order -> is_Some (m !! x)).
  { intros x Hx. apply Hp; [done|]. right. left. destruct order as [|y l]; [by apply elem_of_nil in Hx|]. cbn in Hk. lia. }
  split; [intros x; split; [apply (processed_ordered m Hm)|apply Hall]|].
  intros x a Hx. split; [|intros Hd; apply (t_dom _ Hm); auto]. intros Ha w Hwx.
  destruct (walk_simple _ w x Hwx) as (w' & Hw' & Hnd & Hsub). apply Hsub, (Hw w' x Hw'); [left|done].
  assert (Hincl : w' ⊆ order).
  { intros y Hy. destruct (walk_prefix _ w' x y Hw' Hy) as (w1 & Hw1 & _). by eapply walk_reachable. }
  pose proof (submseteq_length w' order (NoDup_submseteq w' order Hnd Hincl)). lia.
Qed.

(** There is only one exact tree. *)
Lemma exact_unique m m' : tree_ok m -> exact m -> tree_ok m' -> exact m' -> m = m'.
Proof.
  intros Hm [Hd He] Hm' [Hd' He']. apply map_eq. intros x. destruct (decide (x ∈ order)) as [Hx|Hx].
  - destruct (proj2 (Hd x) Hx) as [y Hy], (proj2 (Hd' x) Hx) as [y' Hy']. rewrite Hy, Hy'. f_equal.
    destruct (decide (x = ent)) as [->|Hne]; [rewrite (t_entry _ Hm) in Hy; rewrite (t_entry _ Hm') in Hy'; congruence|].
    assert (H1 : pos y <= pos y').
    { destruct (anc_parent m' x y' y Hy') as [->|Ha].
      - apply He', He; [done..|]. by apply rtc_once.
      - pose proof (t_up _ Hm x x Hy Hne). lia.
      - by apply (anc_pos m' Hm'). }
    assert (H2 : pos y' <= pos y).
    { destruct (anc_parent m x y y' Hy) as [->|Ha].
      - apply He, He'; [done..|]. by apply rtc_once.
      - pose proof (t_up _ Hm' x x Hy' Hne). lia.
      - by apply (anc_pos m Hm). }
    apply pos_inj; [|..|lia]; [apply Hd; by eapply t_closed|apply Hd'; by eapply t_closed].
  - assert (m !! x = None) as -> by (apply eq_None_not_Some; by rewrite Hd).
    symmetry. apply eq_None_not_Some. by rewrite Hd'.
Qed.

(** A pass over the exact tree changes nothing. *)
Lemma idom_fold_stable k seen rest m c :
  pass_inv k seen m -> order = seen ++ rest -> length order <= k ->
  fold_left (idom_step func order) rest (Some (m, c)) = Some (m, c).
Proof.
  revert seen. induction rest as [|b rest IH]; intros seen Hi Eo Hk; cbn [fold_left]; [done|].
  destruct (idom_step_inv k seen rest m b c Hi Eo) as (m1 & c1 & E1 & Hi1 & H1). rewrite E1.
  assert (m1 = m) as ->.
  { apply exact_unique; [apply Hi1|by eapply pass_inv_exact|apply Hi|by eapply pass_inv_exact]. }
  destruct H1 as [[-> _]|[_ H1]]; [|done]. apply (IH (seen ++ [b])); [done|by rewrite <- app_assoc|done].
Qed.

Lemma pass_inv_stable k j m : idom_pass func order m = Some (m, false) -> pass_inv k [] m -> pass_inv (k + j) [] m.
Proof.
  intros Hs Hi. induction j as [|j IH]; [by rewrite Nat.add_0_r|]. rewrite Nat.add_succ_r.
  destruct (idom_pass_inv (k + j) m IH) as (m' & c' & E & Hi' & _). rewrite Hs in E. by injection E as <- <-.
Qed.

Lemma idom_loop_spec fuel k m :
  pass_inv k [] m -> length order + 2 <= fuel + k -> k <= length order + 1 ->
  exists m', idom_loop func order fuel m = Some m' /\ tree_ok m' /\ exact m'.
Proof.
  revert k m. induction fuel as [|fuel IH]; intros k m Hi Hf Hk; [lia|]. cbn [idom_loop].
  destruct (idom_pass_inv k m Hi) as (m' & c' & E & Hi' & Hc). rewrite E. cbn [mbind option_bind]. destruct c'.
  - apply (IH (S k)); [done|lia|]. destruct (decide (length order <= k)) as [Hle|]; [|lia].
    unfold idom_pass in E. rewrite (idom_fold_stable k [] order m false Hi eq_refl Hle) in E. done.
  - specialize (Hc eq_refl). subst m'. exists m. split; [done|]. split; [apply Hi|].
    apply (pass_inv_exact (k + length order) []); [by apply pass_inv_stable|lia].
Qed.

Lemma pass_inv_start : pass_inv 0 [] {[ent := ent]}.
Proof.
  assert (Hanc : forall x a, anc {[ent := ent]} x a -> x = ent -> a = ent).
  { intros x a Ha. induction Ha as [|x y a Hp Ha IH]; [done|]. intros ->. apply IH.
    unfold par in Hp. by apply lookup_singleton_Some in Hp as [_ <-]. }
  split.
  - split.
    + apply lookup_singleton_eq.
    + intros x y [<- _]%lookup_singleton_Some. apply entry_ordered.
    + intros x y [_ <-]%lookup_singleton_Some. rewrite lookup_singleton_eq. by eexists.
    + by intros x y [<- _]%lookup_singleton_Some.
    + by intros x y [<- _]%lookup_singleton_Some.
    + intros x d [y [<- _]%lookup_singleton_Some] Hd. specialize (Hd [ent] ltac:(constructor)).
      apply list_elem_of_singleton in Hd as ->. apply rtc_refl.
  - intros x Hx [->|[|Hin]]; [rewrite lookup_singleton_eq; by eexists|lia|by apply elem_of_nil in Hin].
  - intros w x Hw [Hl|[_ Hx]] a Ha; [|by apply elem_of_nil in Hx]. destruct Hw as [|w a' b Hw He].
    + apply Hanc in Ha as ->; [left|done].
    + destruct (walk_head _ _ _ Hw) as [? ->]. cbn in Hl. lia.
Qed.

Lemma compute_idom_spec : exists m, compute_idom func order = Some m /\ tree_ok m /\ exact m.
Proof. apply (idom_loop_spec _ 0); [apply pass_inv_start|lia|lia]. Qed.

End Idom.
