(* ===== verification/DomEuler.v ===== *)
(** * Queries of the dominator tree ([crates/trust-cg-opt/src/dom.rs],
      [compute_inner], [dominates], [compute_dominance_frontiers])

    The Euler tour stamps every block with an interval, and intervals nest exactly
    along the tree; with the exactness of the tree this makes [dominates] decide
    dominance.  The frontier walks collect the dominance frontiers. *)

From S2P Require Import Prelude Regs MachFunc DomTree DomRpo DomSound.
Local Open Scope nat_scope.

Section Tour.
Context (func : MachFunction) (Hok : cfg_ok func) (order : list nat) (Hrpo : rpo_ok func order).
Context (m : gmap nat nat) (Hm : tree_ok func order m) (Hall : forall x, is_Some (m !! x) <-> x ∈ order).

Abbreviation ent := (entry func).
Abbreviation pos := (pos order).

(** ** Ancestors *)

Lemma anc_linear x a b : anc m x a -> anc m x b -> anc m a b \/ anc m b a.
Proof.
  intros Ha. revert b. induction Ha as [x|x y a Hp Ha IH]; intros b Hb; [by left|].
  inversion Hb as [|? z ? Hz Hr]; subst; [right; by eapply rtc_l|]. unfold par in *. rewrite Hp in Hz. injection Hz as <-.
  by apply IH.
Qed.

Lemma anc_child x b : anc m x b -> x = b \/ exists c, m !! c = Some b /\ c <> b /\ anc m x c.
Proof.
  induction 1 as [x|x y b Hp Ha IH]; [by left|]. destruct IH as [->|(c & Hc & Hne & Hyc)].
  - destruct (decide (x = b)) as [|Hne]; [by left|right]. exists x. split_and!; [done|done|apply rtc_refl].
  - right. exists c. split_and!; [done|done|by eapply rtc_l].
Qed.

Lemma child_not_entry c b : m !! c = Some b -> c <> b -> c <> ent.
Proof. intros Hc Hne ->. rewrite (t_entry _ _ _ Hm) in Hc. by injection Hc as <-. Qed.

Lemma child_pos c b : m !! c = Some b -> c <> b -> pos b < pos c.
Proof. intros Hc Hne. apply (t_up _ _ _ Hm); [done|]. by eapply child_not_entry. Qed.

Lemma parent_not_below c b : m !! c = Some b -> c <> b -> ~ anc m b c.
Proof. intros Hc Hne Ha. pose proof (child_pos c b Hc Hne). apply (anc_pos _ _ _ Hm) in Ha. lia. Qed.

(** Subtrees of different children are disjoint. *)
Lemma siblings_apart b c c' x :
  m !! c = Some b -> c <> b -> m !! c' = Some b -> c' <> b -> anc m x c -> anc m x c' -> c = c'.
Proof.
  assert (H : forall c c', m !! c = Some b -> m !! c' = Some b -> c' <> b -> anc m c c' -> c = c').
  { intros d d' Hd Hd' Hne Ha. destruct (anc_parent _ d b d' Hd Ha) as [->|Hb]; [done|].
    destruct (parent_not_below d' b Hd' Hne Hb). }
  intros Hc Hne Hc' Hne' Ha Ha'. destruct (anc_linear x c c' Ha Ha') as [Hcc|Hcc]; [by apply H|symmetry; by apply H].
Qed.

(** ** Children *)

Definition kids (b : nat) : list nat := default [] (compute_children order m !! b).

Lemma push_fold (l : list (nat * nat)) (m0 : gmap nat (list nat)) (d : nat) :
  default [] (fold_left (fun m (e : nat * nat) =>
    if decide (e.1 = e.2) then m else <[e.2 := default [] (m !! e.2) ++ [e.1]]> m) l m0 !! d)
  = default [] (m0 !! d) ++ (filter (fun e : nat * nat => e.2 = d /\ e.1 <> e.2) l).*1.
Proof.
  revert m0; induction l as [|[x y] l IH]; intros m0; [by rewrite app_nil_r|]. cbn [fold_left fst snd].
  rewrite IH, filter_cons. cbn [fst snd]. destruct (decide (x = y)) as [->|Hne].
  - rewrite decide_False by tauto. done.
  - destruct (decide (y = d)) as [->|Hyd].
    + rewrite lookup_insert_eq, decide_True by done. cbn. by rewrite <- app_assoc.
    + rewrite lookup_insert_ne by done. rewrite decide_False by tauto. done.
Qed.

Lemma kids_perm b : kids b ≡ₚ (filter (fun e : nat * nat => e.2 = b /\ e.1 <> e.2) (map_to_list m)).*1.
Proof.
  unfold kids, compute_children. rewrite lookup_fmap.
  pose proof (push_fold (map_to_list m) ∅ b) as H. rewrite lookup_empty in H. cbn [default app] in H.
  destruct (fold_left _ _ _ !! b) as [l|]; cbn in H |- *; rewrite <- H; [apply merge_sort_Permutation|done].
Qed.

Lemma elem_of_kids b c : c ∈ kids b <-> m !! c = Some b /\ c <> b.
Proof.
  rewrite kids_perm, list_elem_of_fmap. split.
  - intros ([x y] & -> & [[Hy Hne] Hin]%list_elem_of_filter). cbn in *. subst y. apply elem_of_map_to_list in Hin. done.
  - intros [Hc Hne]. exists (c, b). split; [done|]. apply list_elem_of_filter. split; [done|]. by apply elem_of_map_to_list.
Qed.

Lemma NoDup_kids b : NoDup (kids b).
Proof.
  rewrite kids_perm. eapply sublist_NoDup; [apply (NoDup_fst_map_to_list m)|]. apply fmap_sublist, sublist_filter.
Qed.

(** ** Nested intervals *)

Abbreviation ch := (compute_children order m).
Abbreviation step := (tour_step ch).

(** The blocks of [X] are stamped with intervals inside [lo, hi) that nest along
    the tree. *)
Definition nested (t : Tour) (X : nat -> Prop) (lo hi : nat) : Prop :=
  (forall x, X x -> exists i o, tin t !! x = Some i /\ tout t !! x = Some o /\ lo <= i /\ i < o /\ o < hi) /\
  (forall x y i o i' o', X x -> X y -> tin t !! x = Some i -> tout t !! x = Some o -> tin t !! y = Some i' ->
     tout t !! y = Some o' -> (i' <= i /\ o <= o') <-> anc m x y).

Lemma nested_ext t t' (X Y : nat -> Prop) lo hi :
  nested t X lo hi -> (forall x, Y x -> X x) -> (forall x, Y x -> tin t' !! x = tin t !! x /\ tout t' !! x = tout t !! x) ->
  nested t' Y lo hi.
Proof.
  intros [H1 H2] HY Ht. split.
  - intros x Hx. destruct (Ht x Hx) as [-> ->]. by apply H1, HY.
  - intros x y i o i' o' Hx Hy. destruct (Ht x Hx) as [-> ->], (Ht y Hy) as [-> ->]. apply H2; by apply HY.
Qed.

Lemma nested_union t (X Y : nat -> Prop) lo mid hi :
  nested t X lo mid -> nested t Y mid hi -> lo <= mid -> mid <= hi ->
  (forall x y, X x -> Y y -> ~ anc m x y /\ ~ anc m y x) -> nested t (fun x => X x \/ Y x) lo hi.
Proof.
  intros [X1 X2] [Y1 Y2] Hlo Hhi Hd. split.
  - intros x [Hx|Hx]; [destruct (X1 x Hx) as (i & o & ?)|destruct (Y1 x Hx) as (i & o & ?)]; exists i, o; intuition lia.
  - intros x y i o i' o' [Hx|Hx] [Hy|Hy] Hi Ho Hi' Ho'; [by apply (X2 x y)| | |by apply (Y2 x y)].
    + destruct (X1 x Hx) as (? & ? & E1 & E2 & ?), (Y1 y Hy) as (? & ? & E3 & E4 & ?). simplify_eq.
      destruct (Hd x y Hx Hy) as [Hn _]. split; [lia|tauto].
    + destruct (Y1 x Hx) as (? & ? & E1 & E2 & ?), (X1 y Hy) as (? & ? & E3 & E4 & ?). simplify_eq.
      destruct (Hd y x Hy Hx) as [_ Hn]. split; [lia|tauto].
Qed.

(** A block around its subtrees. *)
Lemma nested_root t (X : nat -> Prop) b s e :
  nested t X (S s) e -> tin t !! b = Some s -> tout t !! b = Some e -> s < e ->
  (forall x, X x -> anc m x b /\ ~ anc m b x) -> nested t (fun x => x = b \/ X x) s (S e).
Proof.
  intros [X1 X2] Hi Ho Hse Hd. split.
  - intros x [->|Hx]; [exists s, e; intuition lia|]. destruct (X1 x Hx) as (i & o & ?). exists i, o. intuition lia.
  - intros x y i o i' o' [->|Hx] [->|Hy] Hix Hox Hiy Hoy; [| | |by apply (X2 x y)].
    + simplify_eq. split; [intros; apply rtc_refl|lia].
    + destruct (X1 y Hy) as (? & ? & E1 & E2 & ?). simplify_eq. destruct (Hd y Hy) as [_ Hn]. split; [lia|tauto].
    + destruct (X1 x Hx) as (? & ? & E1 & E2 & ?). simplify_eq. destruct (Hd x Hx) as [Hn _]. split; [done|lia].
Qed.

(** ** The tour *)

Definition counted (t : Tour) : Prop := timer t = size (tin t) + size (tout t).
Definition unstamped (t : Tour) (x : nat) : Prop := tin t !! x = None /\ tout t !! x = None.

(** [n] iterations, each of which takes one stamp, lead from [t] to [t'] with the
    stack [stk], and change only the stamps in [X]. *)
Record tours (n : nat) (t t' : Tour) (stk : list (nat * nat)) (X : nat -> Prop) : Prop := mkTours {
  to_iter : Nat.iter n step t = t';
  to_stack : tour_stack t' = stk;
  to_timer : timer t' = timer t + n;
  to_counted : counted t';
  to_frame : forall x, ~ X x -> tin t' !! x = tin t !! x /\ tout t' !! x = tout t !! x }.

Lemma tours_trans n n' t t' t'' stk stk' (X Y Z : nat -> Prop) :
  tours n t t' stk X -> tours n' t' t'' stk' Y -> (forall x, X x \/ Y x -> Z x) -> tours (n + n') t t'' stk' Z.
Proof.
  intros [A1 A2 A3 A4 A5] [B1 B2 B3 B4 B5] HZ. split; [|done|lia|done|].
  - rewrite Nat.add_comm, Nat.iter_add. by rewrite A1.
  - intros x Hx. destruct (B5 x) as [-> ->]; [by intros Hy; apply Hx, HZ; right|].
    apply A5. intros Hy. by apply Hx, HZ; left.
Qed.

Definition visits (b : nat) : Prop :=
  forall t s rest, tour_stack t = (b, 0) :: rest -> tin t !! b = Some s -> tout t !! b = None -> timer t = S s -> counted t ->
  (forall x, anc m x b -> x <> b -> unstamped t x) ->
  exists n t', tours n t t' rest (fun x => anc m x b) /\ nested t' (fun x => anc m x b) s (timer t') /\ tin t' !! b = Some s.

Lemma kids_lookup b i : ch !! b ≫= (.!! i) = kids b !! i.
Proof. unfold kids. by destruct (ch !! b). Qed.

Lemma step_child t b i rest c :
  tour_stack t = (b, i) :: rest -> kids b !! i = Some c -> tin t !! c = None -> counted t ->
  tours 1 t (mkTour (<[c := timer t]> (tin t)) (tout t) (S (timer t)) ((c, 0) :: (b, S i) :: rest))
    ((c, 0) :: (b, S i) :: rest) (fun x => x = c).
Proof.
  intros Hs Hc Hn Hk. split; cbn.
  - unfold tour_step. by rewrite Hs, kids_lookup, Hc, Hn.
  - done.
  - lia.
  - unfold counted in *. cbn. rewrite map_size_insert_None by done. lia.
  - intros x Hx. by rewrite lookup_insert_ne by auto.
Qed.

Lemma step_pop t b rest :
  tour_stack t = (b, length (kids b)) :: rest -> tout t !! b = None -> counted t ->
  tours 1 t (mkTour (tin t) (<[b := timer t]> (tout t)) (S (timer t)) rest) rest (fun x => x = b).
Proof.
  intros Hs Hn Hk. split; cbn.
  - unfold tour_step. by rewrite Hs, kids_lookup, lookup_ge_None_2 by lia.
  - done.
  - lia.
  - unfold counted in *. cbn. rewrite map_size_insert_None by done. lia.
  - intros x Hx. by rewrite lookup_insert_ne by auto.
Qed.

(** The blocks below one of [l]. *)
Definition below (l : list nat) (x : nat) : Prop := exists c, c ∈ l /\ anc m x c.

Lemma tour_kids b s rest (Hv : forall c, c ∈ kids b -> visits c) l2 : forall l1 t,
  kids b = l1 ++ l2 -> tour_stack t = (b, length l1) :: rest -> counted t -> S s <= timer t ->
  nested t (below l1) (S s) (timer t) -> (forall x, below l2 x -> unstamped t x) ->
  exists n t', tours n t t' ((b, length (kids b)) :: rest) (below l2) /\ nested t' (below (kids b)) (S s) (timer t').
Proof.
  induction l2 as [|c l2 IH]; intros l1 t El Hs Hk Hst Hn Hu.
  - rewrite app_nil_r in El. subst l1. exists 0, t. split; [|done]. split; [done|done|lia|done|done].
  - assert (Hc : kids b !! length l1 = Some c) by (rewrite El; by rewrite list_lookup_middle).
    assert (Hck : c ∈ kids b) by by eapply list_elem_of_lookup_2.
    assert (Hnd : NoDup (l1 ++ c :: l2)) by (rewrite <- El; apply NoDup_kids).
    assert (Hapart : forall d x, d ∈ kids b -> d <> c -> anc m x d -> ~ anc m x c).
    { intros d x [Hd Hdb]%elem_of_kids Hdc Hxd Hxc. apply elem_of_kids in Hck as [Hcb Hcb']. apply Hdc.
      by apply (siblings_apart b d c x). }
    assert (Hl1 : forall d, d ∈ l1 -> d ∈ kids b /\ d <> c).
    { intros d Hd. split; [rewrite El; apply elem_of_app; by left|]. intros ->. apply NoDup_app in Hnd as (_ & Hnd & _).
      apply (Hnd c Hd). left. }
    assert (Hl2 : forall d, d ∈ l2 -> d ∈ kids b /\ d <> c).
    { intros d Hd. split; [rewrite El; apply elem_of_app; right; by right|]. intros ->.
      by apply NoDup_app in Hnd as (_ & _ & [Hnd _]%NoDup_cons). }
    destruct (Hu c) as [Hci Hco]; [exists c; split; [left|apply rtc_refl]|].
    pose proof (step_child t b (length l1) rest c Hs Hc Hci Hk) as H1. set (t1 := mkTour _ _ _ _) in H1.
    destruct (Hv c Hck t1 (timer t) ((b, S (length l1)) :: rest)) as (n & t2 & H2 & Hn2 & Hi2); [done|apply lookup_insert_eq|done|done|apply H1| |].
    { intros x Hx Hne. unfold unstamped, t1. cbn. rewrite lookup_insert_ne by done. apply Hu. exists c. split; [left|done]. }
    destruct (IH (l1 ++ [c]) t2) as (n' & t3 & H3 & Hn3).
    + by rewrite <- app_assoc.
    + rewrite (to_stack _ _ _ _ _ H2), length_app. cbn. by rewrite Nat.add_1_r.
    + apply H2.
    + rewrite (to_timer _ _ _ _ _ H2). cbn. lia.
    + assert (Hkeep : nested t2 (below l1) (S s) (timer t)).
      { apply (nested_ext t t2 (below l1)); [done|done|]. intros x (d & Hd & Hx). destruct (Hl1 d Hd) as [Hdk Hdc].
        pose proof (Hapart d x Hdk Hdc Hx) as Hnx. destruct (to_frame _ _ _ _ _ H2 x Hnx) as [-> ->].
        apply (to_frame _ _ _ _ _ H1). intros ->. apply Hnx, rtc_refl. }
      pose proof (nested_union t2 (below l1) (fun x => anc m x c) (S s) (timer t) (timer t2) Hkeep Hn2 Hst) as Hun.
      eapply nested_ext; [apply Hun| |done].
      * rewrite (to_timer _ _ _ _ _ H2). cbn. lia.
      * intros x y (d & Hd & Hx) Hy. destruct (Hl1 d Hd) as [Hdk Hdc]. split; intros Ha.
        { apply (Hapart d x Hdk Hdc Hx). by eapply anc_trans. }
        { apply (Hapart d y Hdk Hdc); [by eapply anc_trans|done]. }
      * intros x (d & [Hd| ->%list_elem_of_singleton]%elem_of_app & Hx); [left; by exists d|by right].
    + intros x (d & Hd & Hx). destruct (Hl2 d Hd) as [Hdk Hdc]. pose proof (Hapart d x Hdk Hdc Hx) as Hnx.
      unfold unstamped. destruct (to_frame _ _ _ _ _ H2 x Hnx) as [-> ->].
      destruct (to_frame _ _ _ _ _ H1 x) as [-> ->]; [intros ->; apply Hnx, rtc_refl|]. apply Hu. exists d. split; [by right|done].
    + exists (1 + n + n'), t3. split; [|done]. eapply tours_trans; [eapply tours_trans; [exact H1|exact H2|]|exact H3|].
      * intros x Hx. exact (Hx : (fun x => x = c \/ anc m x c) x).
      * intros x [[->|Hx]|(d & Hd & Hx)]; [exists c; split; [left|apply rtc_refl]|exists c; split; [left|done]|exists d; split; [by right|done]].
Qed.

Lemma visit_all d b : b ∈ order -> length order - pos b <= d -> visits b.
Proof.
  revert b. induction d as [|d IH]; intros b Hb Hd; [pose proof (pos_bound _ _ Hrpo b Hb); lia|].
  intros t s rest Hs Hi Ho Ht Hk Hu.
  assert (Hbelow : forall x, below (kids b) x -> anc m x b /\ ~ anc m b x).
  { intros x (c & [Hc Hne]%elem_of_kids & Hx). split; [eapply anc_trans; [exact Hx|by apply rtc_once]|].
    intros Ha. apply (parent_not_below c b Hc Hne). by eapply anc_trans. }
  destruct (tour_kids b s rest) with (l2 := kids b) (l1 := @nil nat) (t := t) as (n & t1 & H1 & Hn1); try done.
  - intros c [Hc Hne]%elem_of_kids. apply IH; [by apply Hall|]. pose proof (child_pos c b Hc Hne). lia.
  - lia.
  - split; [intros x (c & Hc & _)|intros x y i o i' o' (c & Hc & _)]; by apply elem_of_nil in Hc.
  - intros x Hx. destruct (Hbelow x Hx) as [Ha Hn]. apply Hu; [done|]. intros ->. apply Hn, rtc_refl.
  - destruct (to_frame _ _ _ _ _ H1 b) as [Ei Eo]; [intros Hx; apply (Hbelow b Hx), rtc_refl|].
    pose proof (step_pop t1 b rest (to_stack _ _ _ _ _ H1) ltac:(by rewrite Eo) (to_counted _ _ _ _ _ H1)) as H2.
    set (t2 := mkTour _ _ _ _) in H2. pose proof (to_timer _ _ _ _ _ H1) as Ht1.
    assert (Hn2 : nested t2 (fun x => x = b \/ below (kids b) x) s (S (timer t1))).
    { apply nested_root; [|by cbn; rewrite Ei|apply lookup_insert_eq|lia|done].
      apply (nested_ext t1 t2 (below (kids b))); [done|done|]. intros x Hx. cbn. split; [done|].
      rewrite lookup_insert_ne; [done|]. intros <-. apply (Hbelow b Hx), rtc_refl. }
    exists (n + 1), t2. split; [|split; [|by cbn; rewrite Ei]].
    + eapply tours_trans; [exact H1|exact H2|]. intros x [Hx| ->]; [by apply Hbelow|apply rtc_refl].
    + eapply nested_ext; [exact Hn2| |done]. intros x [->|(c & Hc & Hne & Hx)]%anc_child; [by left|right].
      exists c. split; [by apply elem_of_kids|done].
Qed.

Lemma all_below_entry x : x ∈ order -> anc m x ent.
Proof.
  intros Hx. apply (t_dom _ _ _ Hm); [by apply Hall|]. intros w Hw. clear Hx.
  induction Hw as [|w a b Hw IH He]; [left|by right].
Qed.

Lemma step_done t n : tour_stack t = [] -> Nat.iter n step t = t.
Proof. intros Hs. induction n as [|n IH]; [done|]. rewrite Nat.iter_succ, IH. unfold tour_step. by rewrite Hs. Qed.

(** The stamps of the whole tree. *)
Lemma tour_nested :
  let t := tour func order ch in
  nested t (fun x => x ∈ order) 0 (timer t) /\ (forall x, x ∉ order -> unstamped t x).
Proof.
  cbn zeta. set (t0 := mkTour {[ent := 0]} ∅ 1 [(ent, 0)]).
  pose proof (entry_ordered _ _ Hrpo) as He.
  destruct (visit_all (length order) ent He ltac:(lia) t0 0 []) as (n & t & H1 & Hn & Hi); try done.
  - cbn. apply lookup_singleton_eq.
  - unfold counted. cbn. by rewrite map_size_singleton, map_size_empty.
  - intros x Hx Hne. unfold unstamped. cbn. rewrite lookup_singleton_ne by done. by rewrite lookup_empty.
  - assert (Hin : forall x, anc m x ent <-> x ∈ order).
    { intros x. split; [|apply all_below_entry]. intros Ha. inversion Ha as [|? y ? Hp Hr]; subst; [done|]. apply Hall. by exists y. }
    assert (Hout : forall x, x ∉ order -> unstamped t x).
    { intros x Hx. destruct (to_frame _ _ _ _ _ H1 x) as [E1 E2]; [by rewrite Hin|]. unfold unstamped. rewrite E1, E2. cbn.
      rewrite lookup_singleton_ne by (intros <-; done). by rewrite lookup_empty. }
    assert (Hsize : forall g : gmap nat nat, (forall x, x ∉ order -> g !! x = None) -> size g <= length order).
    { intros g Hg. rewrite <- size_dom. transitivity (size (list_to_set order : gset nat)); [|apply size_list_to_set_le].
      apply subseteq_size. intros x Hx. apply elem_of_list_to_set. destruct (decide (x ∈ order)) as [|Hx']; [done|].
      apply elem_of_dom in Hx. rewrite Hg in Hx by done. by destruct Hx. }
    pose proof (Hsize (tin t) (fun x Hx => proj1 (Hout x Hx))) as S1. pose proof (Hsize (tout t) (fun x Hx => proj2 (Hout x Hx))) as S2.
    pose proof (to_counted _ _ _ _ _ H1) as Hk. pose proof (to_timer _ _ _ _ _ H1) as Ht. unfold counted in Hk. cbn in Ht.
    assert (Et : tour func order ch = t).
    { unfold tour. fold t0. replace (2 * length order) with ((2 * length order - n) + n) by lia.
      rewrite Nat.iter_add, (to_iter _ _ _ _ _ H1). apply step_done, H1. }
    rewrite Et. split; [|done]. eapply nested_ext; [exact Hn| |done]. intros x Hx. by apply Hin.
Qed.

End Tour.

(** ** The tree of a validated function *)

Lemma validated_cfg (func : MachFunction) : validate_aarch64_mach_function func = None -> cfg_ok func.
Proof.
  intros H. destruct (validate_well_formed func _ H) as [[_ Hh] Hr _ _ _ _ _ _ _].
  destruct (authority_edges func H) as [He Hm]. split.
  - destruct (block_order func); [done|]. injection Hh as ->. left.
  - done.
  - intros a b Ha Hab. apply (Hm a Ha) in Hab. by apply He in Hab as [_ Hb].
  - intros a b Hb. destruct (Hm b Hb) as (_ & _ & Hp). rewrite Hp. split.
    + intros Hab. destruct (He _ Hab) as [Ha _]. split; [done|]. by apply (Hm a Ha).
    + intros [Ha Hab]. by apply (Hm a Ha) in Hab.
Qed.

Lemma compute_spec (func : MachFunction) :
  cfg_ok func -> exists t, compute func = Some t /\ rpo_ok func (rpo t) /\ tree_ok func (rpo t) (idom t) /\
    exact func (rpo t) (idom t) /\ stamps t = tour func (rpo t) (compute_children (rpo t) (idom t)) /\
    dom_frontier t = compute_dominance_frontiers func (rpo t) (idom t).
Proof.
  intros Hok. pose proof (compute_rpo_ok func Hok) as Hr. unfold compute.
  destruct (compute_idom_spec func Hok _ Hr) as (m & -> & Hm & He). cbn. eexists. done.
Qed.

Lemma dominates_spec (func : MachFunction) (t : DomTree) (a b : nat) :
  cfg_ok func -> rpo_ok func (rpo t) -> tree_ok func (rpo t) (idom t) -> exact func (rpo t) (idom t) ->
  stamps t = tour func (rpo t) (compute_children (rpo t) (idom t)) ->
  dominates t a b = true <-> a = b \/ (reachable func b /\ dom func a b).
Proof.
  intros Hok Hr Hm [Hd He] Hst. destruct (tour_nested func (rpo t) Hr (idom t) Hm Hd) as [[Hn1 Hn2] Hout].
  rewrite <- Hst in Hn1, Hn2, Hout. unfold dominates. destruct (decide (a = b)) as [->|Hne]; [split; auto|].
  rewrite <- (rpo_reachable _ _ Hr b). destruct (decide (b ∈ rpo t)) as [Hb|Hb].
  - rewrite <- (He b a Hb). destruct (decide (a ∈ rpo t)) as [Ha|Ha].
    + destruct (Hn1 a Ha) as (i & o & Ei & Eo & _), (Hn1 b Hb) as (i' & o' & Ei' & Eo' & _). rewrite Ei, Eo, Ei', Eo'.
      rewrite andb_true_iff, !Nat.leb_le, <- (Hn2 b a i' o' i o) by done. tauto.
    + destruct (Hout a Ha) as [-> _]. split; [done|]. intros [|[_ Hanc]]; [done|]. destruct Ha.
      apply Hd. apply (anc_processed _ _ _ Hm b a); [by apply Hd|done].
  - destruct (Hout b Hb) as [-> _]. split; [by repeat case_match|]. intros [|[]]; done.
Qed.

(** C20: The dominator tree is exact.  For every function the validation accepts, the
    computation returns a tree; [dominates] answers whether a block is on every
    path from the entry to a reachable block (an unreachable block is dominated by
    itself only), and the immediate dominator recorded for a reachable block other
    than the entry is a strict dominator that every strict dominator dominates. *)
Theorem dominator_tree_exact (func : MachFunction) :
  validate_aarch64_mach_function func = None ->
  exists t, compute func = Some t /\
    (forall a b, dominates t a b = true <-> a = b \/ (reachable func b /\ dom func a b)) /\
    (forall b, reachable func b -> b <> entry func ->
       exists d, idom t !! b = Some d /\ d <> b /\ dom func d b /\ forall a, a <> b -> dom func a b -> dom func a d).
Proof.
  intros Hok%validated_cfg. destruct (compute_spec func Hok) as (t & Ht & Hr & Hm & He & Hst & _). exists t. split; [done|].
  split; [intros a b; by apply (dominates_spec func)|]. intros b Hb Hne. destruct He as [Hd He].
  apply (rpo_reachable _ _ Hr) in Hb. destruct (proj2 (Hd b) Hb) as [d Hbd]. exists d. split; [done|].
  pose proof (t_up _ _ _ Hm b d Hbd Hne) as Hpos. split; [intros ->; lia|]. split.
  - apply He; [done|]. by apply rtc_once.
  - intros a Hab Hdom. apply He in Hdom; [|done]. destruct (anc_parent _ b d a Hbd Hdom) as [|Ha]; [done|].
    apply He; [|done]. apply Hd. by eapply t_closed.
Qed.

Lemma dominator_tree_exact_witness :
  exists t, compute demo_loop = Some t /\ dominates t 1 2 = true /\ dom demo_loop 1 2.
Proof.
  destruct (dominator_tree_exact demo_loop ltac:(by vm_compute)) as (t & Ht & Hd & _).
  assert (E : dominates (default t (compute demo_loop)) 1 2 = true) by (vm_compute; reflexivity).
  rewrite Ht in E. exists t. split; [exact Ht|]. split; [exact E|].
  apply Hd in E as [E|[_ E]]; [discriminate E|exact E].
Defined.
