(* ===== verification/DomFrontier.v ===== *)
(** * Dominance frontiers ([crates/trust-cg-opt/src/dom.rs],
      [compute_dominance_frontiers])

    The walks from the predecessors of a join collect exactly the frontiers of
    blocks other than the entry; the entry itself is never in a frontier of its own,
    also when a loop returns to it. *)

From S2P Require Import Prelude Regs MachFunc DomTree DomRpo DomSound DomEuler.
Local Open Scope nat_scope.

Section Frontier.
Context (func : MachFunction) (Hok : cfg_ok func) (order : list nat) (Hrpo : rpo_ok func order).
Context (m : gmap nat nat) (Hm : tree_ok func order m) (He : exact func order m).

Abbreviation ent := (entry func).

Definition in_frontier (df : gmap nat (gset nat)) (x y : nat) : Prop := y ∈ default ∅ (df !! x).

Lemma in_frontier_insert df r b x y :
  in_frontier (<[r := {[b]} ∪ default ∅ (df !! r)]> df) x y <-> in_frontier df x y \/ (y = b /\ x = r).
Proof.
  unfold in_frontier. destruct (decide (r = x)) as [->|Hne].
  - rewrite lookup_insert_eq. cbn. rewrite elem_of_union, elem_of_singleton. tauto.
  - rewrite lookup_insert_ne by done. split; [tauto|]. intros [|[_ ->]]; done.
Qed.

Lemma frontier_walk_spec fuel b stop runner df x y :
  is_Some (m !! runner) -> anc m runner stop -> pos order runner < fuel ->
  in_frontier (frontier_walk fuel m b stop runner df) x y <->
  in_frontier df x y \/ (y = b /\ anc m runner x /\ ~ anc m stop x).
Proof.
  revert runner df. induction fuel as [|fuel IH]; intros runner df Hs Ha Hf; [lia|]. cbn [frontier_walk].
  case_decide as E; [subst; tauto|]. destruct Hs as [next Hn]. rewrite Hn. cbn [from_option Datatypes.id].
  assert (Hne : runner <> ent).
  { intros ->. pose proof (anc_pos _ _ _ Hm _ _ Ha) as Hp. rewrite (pos_entry _ _ Hrpo) in Hp. apply E.
    apply (pos_inj _ _ Hrpo); [by eapply t_order| |rewrite (pos_entry _ _ Hrpo); lia].
    apply (processed_ordered _ _ _ Hm), (anc_processed _ _ _ Hm ent); [by eexists|done]. }
  pose proof (t_up _ _ _ Hm runner next Hn Hne) as Hup. rewrite decide_False by (intros ->; lia).
  assert (Ha' : anc m next stop) by (destruct (anc_parent _ _ _ _ Hn Ha); [by subst|done]).
  assert (Hnot : ~ anc m stop runner).
  { intros Hx. pose proof (anc_pos _ _ _ Hm _ _ Hx). pose proof (anc_pos _ _ _ Hm _ _ Ha'). lia. }
  rewrite IH, in_frontier_insert; [|by eapply t_closed|done|lia]. split.
  - intros [[|[-> ->]]|(-> & Hx & Hs)]; [by left|right|right]; (split; [done|]).
    + split; [apply rtc_refl|done].
    + split; [by eapply rtc_l|done].
  - intros [|(-> & Hx & Hs)]; [tauto|]. destruct (anc_parent _ _ _ _ Hn Hx) as [->|]; tauto.
Qed.

(** The walk from a predecessor that is not reachable leaves reachable blocks alone. *)
Lemma frontier_walk_unreachable fuel b stop runner df x y :
  m !! runner = None -> runner <> stop -> x <> runner -> 0 < fuel ->
  in_frontier (frontier_walk fuel m b stop runner df) x y <-> in_frontier df x y.
Proof.
  intros Hr Hs Hx Hf. destruct fuel as [|fuel]; [lia|]. cbn [frontier_walk]. rewrite decide_False by done.
  rewrite Hr. cbn [from_option Datatypes.id]. rewrite decide_True by done. rewrite in_frontier_insert. tauto.
Qed.

(** Where the walks for [b] stop is above every predecessor. *)
Lemma stop_above b stop p : m !! b = Some stop -> p ∈ preds (block func b) -> is_Some (m !! p) -> anc m p stop.
Proof.
  intros Hb Hp Hs. destruct He as [Hd Hex]. destruct (decide (b = ent)) as [->|Hne].
  - rewrite (t_entry _ _ _ Hm) in Hb. injection Hb as <-. apply (all_below_entry func order m Hm Hd). by apply Hd.
  - pose proof (t_up _ _ _ Hm b stop Hb Hne). apply Hex; [by apply Hd|].
    assert (Hbo : b ∈ order) by (apply Hd; by eexists).
    assert (Hedge : edge func p b).
    { apply (preds_exact _ Hok) in Hp; [tauto|]. apply (reachable_laid _ Hok), (rpo_reachable _ _ Hrpo), Hbo. }
    assert (Hdom : dom func stop b) by (apply Hex; [done|by apply rtc_once]).
    intros w Hw. specialize (Hdom (b :: w) ltac:(by econstructor)). apply elem_of_cons in Hdom as [->|]; [lia|done].
Qed.

Lemma frontier_fold b stop ps df x y :
  m !! b = Some stop -> (forall p, p ∈ ps -> p ∈ preds (block func b)) -> x ∈ order ->
  in_frontier (fold_left (fun df pred => frontier_walk (length order + 1) m b stop pred df) ps df) x y <->
  in_frontier df x y \/ (y = b /\ exists p, p ∈ ps /\ is_Some (m !! p) /\ anc m p x /\ ~ anc m stop x).
Proof.
  intros Hb Hps Hx. revert df. induction ps as [|p ps IH]; intros df; cbn [fold_left].
  { split; [tauto|]. intros [|(_ & p & Hp & _)]; [done|by apply elem_of_nil in Hp]. }
  rewrite IH by (intros; apply Hps; by right). destruct (m !! p) as [q|] eqn:Ep.
  - assert (Hs : is_Some (m !! p)) by by eexists. rewrite frontier_walk_spec; [|done| |].
    + split.
      * intros [[|(-> & H1 & H2)]|(-> & p' & Hp' & H')]; [by left|right|right]; (split; [done|]).
        { exists p. split; [left|done]. } { exists p'. split; [by right|done]. }
      * intros [|(-> & p' & [->|Hp']%elem_of_cons & Hs' & H1 & H2)]; [tauto| |]; [left; right; done|right; split; [done|eauto]].
    + apply (stop_above b); [done|apply Hps; left|done].
    + pose proof (pos_bound _ _ Hrpo p (processed_ordered _ _ _ Hm p Hs)). lia.
  - rewrite frontier_walk_unreachable; [|done| | |lia].
    + split.
      * intros [|(-> & p' & Hp' & H')]; [by left|right; split; [done|]; exists p'; split; [by right|done]].
      * intros [|(-> & p' & [->|Hp']%elem_of_cons & Hs' & H')]; [by left| |right; split; [done|eauto]].
        rewrite Ep in Hs'. by destruct Hs'.
    + intros ->. destruct (t_closed _ _ _ Hm b stop Hb) as [? E]. by rewrite Ep in E.
    + intros ->. apply (proj1 He) in Hx as [? E]. by rewrite Ep in E.
Qed.

Lemma frontiers_fold l df x y :
  (forall b, b ∈ l -> b ∈ order) -> x ∈ order ->
  in_frontier (fold_left (frontier_block func order m) l df) x y <->
  in_frontier df x y \/ (y ∈ l /\ 2 <= length (preds (block func y)) /\
    exists p stop, p ∈ preds (block func y) /\ is_Some (m !! p) /\ m !! y = Some stop /\ anc m p x /\ ~ anc m stop x).
Proof.
  intros Hl Hx. revert df. induction l as [|b l IH]; intros df; cbn [fold_left].
  { split; [tauto|]. intros [|[Hp _]]; [done|by apply elem_of_nil in Hp]. }
  rewrite IH by (intros; apply Hl; by right). destruct (proj2 (proj1 He b) (Hl b ltac:(left))) as [stop Hb].
  unfold frontier_block. destruct (Nat.ltb_spec (length (preds (block func b))) 2) as [Hlt|Hge].
  - split.
    + intros [|[Hy H']]; [by left|right; split; [by right|done]].
    + intros [|[[->|Hy]%elem_of_cons [H2 H']]]; [by left|lia|by right].
  - rewrite Hb. cbn [from_option Datatypes.id]. rewrite frontier_fold by done. split.
    + intros [[|(-> & p & Hp & Hs & H')]|[Hy H']]; [by left|right; split; [left|]|right; split; [by right|done]].
      split; [done|]. exists p, stop. done.
    + intros [|[[->|Hy]%elem_of_cons [H2 H']]]; [tauto| |by right]. destruct H' as (p & stop' & Hp & Hs & Hb' & H').
      rewrite Hb in Hb'. injection Hb' as <-. left. right. split; [done|]. exists p. done.
Qed.

(** Paths to a block with one predecessor pass through it. *)
Lemma walk_single_pred y p w :
  y ∈ block_order func -> y <> ent -> preds (block func y) = [p] -> walk func w y -> exists w', w = y :: w' /\ walk func w' p.
Proof.
  intros Hl Hne Hp Hw. inversion Hw as [|w1 q ? Hw1 Hq]; subst; [done|]. exists w1. split; [done|].
  assert (Hin : q ∈ preds (block func y)).
  { apply (preds_exact _ Hok); [done|]. split; [|done]. apply (reachable_laid _ Hok). by exists w1. }
  rewrite Hp in Hin. by apply list_elem_of_singleton in Hin as ->.
Qed.

(** A reachable block other than the entry that dominates its predecessor has
    another one. *)
Lemma single_pred y p : y ∈ order -> y <> ent -> preds (block func y) = [p] -> ~ dom func y p.
Proof.
  intros Hy Hne Hp Hd. assert (Hl : y ∈ block_order func) by (apply (reachable_laid _ Hok), (rpo_reachable _ _ Hrpo), Hy).
  apply (rpo_reachable _ _ Hrpo) in Hy as [w Hw]. destruct (walk_simple _ _ _ Hw) as (w' & Hw' & Hnd & _).
  destruct (walk_single_pred y p w' Hl Hne Hp Hw') as (w1 & -> & Hw1). apply NoDup_cons in Hnd as [Hn _]. by apply Hn, Hd.
Qed.

End Frontier.

(** C25: The dominance frontiers are exact, except at the entry.  For a validated
    function and reachable blocks [x] and [y], [y] not the entry, [y] is in the
    recorded frontier of [x] exactly when [x] dominates a reachable predecessor of
    [y] and does not strictly dominate [y]. *)
Theorem dominance_frontiers_exact (func : MachFunction) (x y : nat) :
  validate_aarch64_mach_function func = None -> reachable func x -> reachable func y -> y <> entry func ->
  exists t, compute func = Some t /\
    (y ∈ default ∅ (dom_frontier t !! x) <->
     (exists p, reachable func p /\ edge func p y /\ dom func x p) /\ ~ (x <> y /\ dom func x y)).
Proof.
  intros Hok%validated_cfg Hx Hy Hne. destruct (compute_spec func Hok) as (t & Ht & Hr & Hm & He & _ & Hf).
  exists t. split; [done|]. rewrite Hf. pose proof Hy as Hl. apply (reachable_laid func Hok) in Hl.
  apply (rpo_reachable _ _ Hr) in Hx, Hy. unfold compute_dominance_frontiers.
  fold (in_frontier (fold_left (frontier_block func (rpo t) (idom t)) (rpo t) ∅) x y).
  rewrite (frontiers_fold func Hok (rpo t) Hr (idom t) Hm He (rpo t) ∅ x y (fun b Hb => Hb) Hx).
  destruct (proj2 (proj1 He y) Hy) as [stop Hs]. pose proof (t_up _ _ _ Hm y stop Hs Hne) as Hup.
  assert (Hstrict : anc (idom t) stop x <-> x <> y /\ dom func x y).
  { rewrite <- (proj2 He y x Hy). split.
    - intros Ha. split; [intros ->; apply (anc_pos _ _ _ Hm) in Ha; lia|by eapply rtc_l].
    - intros [Hxy Ha]. by destruct (anc_parent _ _ _ _ Hs Ha). }
  assert (Hpred : forall p, p ∈ preds (block func y) /\ is_Some (idom t !! p) <-> reachable func p /\ edge func p y).
  { intros p. rewrite (preds_exact _ Hok p y Hl), (proj1 He), (rpo_reachable _ _ Hr). split; [tauto|].
    intros [Hp Hpy]. pose proof (reachable_laid func Hok p Hp). tauto. }
  split.
  - intros [H|(_ & _ & p & stop' & Hp & Hps & Hs' & Ha & Hn)]; [unfold in_frontier in H; rewrite lookup_empty in H; by apply elem_of_empty in H|].
    rewrite Hs in Hs'. injection Hs' as <-. split; [|by rewrite <- Hstrict]. exists p.
    destruct (proj1 (Hpred p)) as [H1 H2]; [done|]. split; [done|]. split; [done|]. apply He; [by apply He|done].
  - intros [(p & Hp & Hpy & Hd) Hn]. right. split; [done|]. destruct (proj2 (Hpred p)) as [Hin Hps]; [done|]. split.
    + destruct (preds (block func y)) as [|q [|]] eqn:Eq; [by apply elem_of_nil in Hin| |cbn; lia].
      apply list_elem_of_singleton in Hin as ->. exfalso. apply Hn. split.
      * intros ->. by apply (single_pred func Hok (rpo t) Hr y q).
      * intros w Hw. destruct (walk_single_pred func Hok y q w Hl Hne Eq Hw) as (w1 & -> & Hw1). right. by apply Hd.
    + exists p, stop. split_and!; try done; [|by rewrite Hstrict]. apply He; [by apply He|done].
Qed.

(** In the loop the header is in its own frontier. *)
Lemma dominance_frontiers_exact_witness :
  reachable demo_loop 1 /\ exists t, compute demo_loop = Some t /\
    (1 ∈ default ∅ (dom_frontier t !! 1) <->
     (exists p, reachable demo_loop p /\ edge demo_loop p 1 /\ dom demo_loop 1 p) /\ ~ (1 <> 1 /\ dom demo_loop 1 1)).
Proof.
  assert (H : reachable demo_loop 1).
  { apply (reachable_step demo_loop 0 1); [exact (reachable_entry demo_loop)|left]. }
  split; [exact H|]. apply (dominance_frontiers_exact demo_loop 1 1); [by vm_compute|exact H|exact H|discriminate].
Defined.

(** A loop that returns to the entry: block 0 dominates its predecessor 0 and does
    not strictly dominate itself, but has no frontier. *)
Example entry_frontier_missing :
  let func := mkFunc "f" [MachInst_new Cbnz [PRegOp (mkPReg 0); Block 0]; MachInst_new Ret []]
    [mkBlock [0] [0] [0; 1]; mkBlock [1] [0] []] [0; 1] 0 0 None [] (mkEh None [] []) in
  validate_aarch64_mach_function func = None /\ (dom_frontier <$> compute func) = Some ∅ /\
  edge func 0 0 /\ dom func 0 0.
Proof.
  cbn zeta. split; [by vm_compute|]. split; [by vm_compute|]. split; [left|]. intros w Hw. by apply walk_self in Hw.
Qed.
