(* ===== verification/Loops.v ===== *)
(** * Natural loops ([crates/trust-cg-opt/src/loops.rs])

    Back edges by dominance, loop bodies by reverse search, preheaders, nesting and
    the map from blocks to their innermost loop, and the creation of preheaders.
    [HashSet]s are finite sets; where the source iterates over a [BTreeMap] the keys
    are taken in ascending order. *)

From S2P Require Import Prelude Regs MachFunc DomTree DomRpo DomSound DomEuler.
Local Open Scope nat_scope.

Record NaturalLoop := mkLoop {
  header : nat;
  latch : nat;
  body : gset nat;
  preheader : option nat;
  depth : nat;
  parent : option nat }.

Record LoopAnalysis := mkLoops { loops : gmap nat NaturalLoop; block_to_loop : gmap nat nat }.

Section Loops.
Context (func : MachFunction).

Definition find_back_edges (t : DomTree) : list (nat * nat) :=
  block_order func ≫= fun b =>
  (fun succ => (b, succ)) <$> filter (fun succ => dominates t succ b = true) (succs (block func b)).

(** The inner loop over the predecessors of one block. *)
Definition visit_preds (st : gset nat * list nat) (ps : list nat) : gset nat * list nat :=
  fold_left (fun (st : gset nat * list nat) pred =>
    if decide (pred ∈ st.1) then st else ({[pred]} ∪ st.1, st.2 ++ [pred])) ps st.

(** The worklist loop; every block enters the worklist at most once. *)
Fixpoint body_loop (fuel : nat) (body : gset nat) (worklist : list nat) : gset nat :=
  match fuel, worklist with
  | S fuel, b :: worklist =>
      let st := visit_preds (body, worklist) (preds (block func b)) in body_loop fuel st.1 st.2
  | _, _ => body
  end.

Definition compute_loop_body (header latch : nat) : gset nat :=
  let body := {[latch]} ∪ {[header]} in
  if decide (header = latch) then body else body_loop (S (length (blocks func))) body [latch].

Definition find_preheader (header : nat) (body : gset nat) : option nat :=
  match filter (fun p => p ∉ body) (preds (block func header)) with
  | [p] => Some p
  | _ => None
  end.

Definition add_back_edge (m : gmap nat NaturalLoop) (e : nat * nat) : gmap nat NaturalLoop :=
  let new_body := compute_loop_body e.2 e.1 in
  match m !! e.2 with
  | Some l => <[e.2 := mkLoop (header l) (latch l) (body l ∪ new_body) (preheader l) (depth l) (parent l)]> m
  | None => <[e.2 := mkLoop e.2 e.1 new_body (find_preheader e.2 new_body) 1 None]> m
  end.

(** The keys of the map in ascending order. *)
Definition headers (m : gmap nat NaturalLoop) : list nat := merge_sort le (map_to_list m).*1.

Definition body_of (m : gmap nat NaturalLoop) (h : nat) : gset nat := default ∅ (body <$> m !! h).

(** The smallest loop that strictly contains the loop of [h1]; [None] as size is
    [usize::MAX]. *)
Definition best_parent (m : gmap nat NaturalLoop) (h1 : nat) : option nat :=
  (fold_left (fun (best : option nat * option nat) h2 =>
    if decide (h1 = h2) then best
    else
      let body1 := body_of m h1 in
      let body2 := body_of m h2 in
      if bool_decide (body1 ⊆ body2) && (size body1 <? size body2) &&
         match best.2 with Some n => size body2 <? n | None => true end
      then (Some h2, Some (size body2)) else best) (headers m) (None, None)).1.

(** [depth] along the chain of parents; the chain is not longer than the number of
    loops. *)
Fixpoint chain_depth (fuel : nat) (m : gmap nat NaturalLoop) (current : option nat) : nat :=
  match fuel, current with
  | S fuel, Some p => S (chain_depth fuel m (m !! p ≫= parent))
  | _, _ => 1
  end.

Definition with_parent (m : gmap nat NaturalLoop) (h : nat) (l : NaturalLoop) : NaturalLoop :=
  mkLoop (header l) (latch l) (body l) (preheader l) (depth l)
    (match best_parent m h with Some p => Some p | None => parent l end).

Definition compute_nesting (m : gmap nat NaturalLoop) : gmap nat NaturalLoop :=
  let m := map_imap (fun h l => Some (with_parent m h l)) m in
  (fun l => mkLoop (header l) (latch l) (body l) (preheader l) (chain_depth (size m) m (parent l)) (parent l)) <$> m.

(** [sort_by_key(|l| Reverse(l.body.len()))]. *)
Definition larger (a b : NaturalLoop) : Prop := size (body b) <= size (body a).
#[export] Instance larger_dec : RelDecision larger.
Proof. intros a b. unfold larger. apply _. Defined.

Definition innermost_map (m : gmap nat NaturalLoop) : gmap nat nat :=
  let sorted := merge_sort larger (omap (m !!.) (headers m)) in
  fold_left (fun acc l => fold_left (fun acc b => <[b := header l]> acc) (elements (body l)) acc) sorted ∅.

Definition compute_loops (t : DomTree) : LoopAnalysis :=
  let m := fold_left add_back_edge (find_back_edges t) ∅ in
  let m := (fun l => mkLoop (header l) (latch l) (body l) (find_preheader (header l) (body l)) (depth l) (parent l)) <$> m in
  let m := compute_nesting m in
  mkLoops m (innermost_map m).

End Loops.

Definition get_loop (a : LoopAnalysis) (h : nat) : option NaturalLoop := loops a !! h.
Definition containing_loop (a : LoopAnalysis) (b : nat) : option NaturalLoop := block_to_loop a !! b ≫= (loops a !!.).
Definition is_in_loop (a : LoopAnalysis) (b : nat) : bool := bool_decide (is_Some (block_to_loop a !! b)).

(** Two nested loops: 0 -> 1 -> 2 -> 2, 2 -> 1, 1 -> 3. *)
Definition demo_nest : MachFunction :=
  mkFunc "nest"
    [ MachInst_new (OtherOp 1) [PRegOp (mkPReg 0); Imm 4];
      MachInst_new Cbz [PRegOp (mkPReg 0); Block 3];
      MachInst_new Cbnz [PRegOp (mkPReg 1); Block 2];
      MachInst_new B [Block 1];
      MachInst_new Ret [] ]
    [ mkBlock [0] [] [1]; mkBlock [1] [0; 2] [2; 3]; mkBlock [2; 3] [1; 2] [1; 2]; mkBlock [4] [1] [] ]
    [0; 1; 2; 3] 0 0 None [] (mkEh None [] []).

Example demo_nest_valid : validate_aarch64_mach_function demo_nest = None.
Proof. by vm_compute. Qed.

Example demo_nest_loops :
  match compute demo_nest with
  | Some t =>
      let a := compute_loops demo_nest t in
      (fun b => (fun l => (header l, latch l, elements (body l), preheader l, depth l, parent l)) <$> containing_loop a b) <$> [0; 1; 2; 3]
      = [None; Some (1, 2, [2; 1], Some 0, 1, None); Some (2, 2, [2], Some 1, 2, Some 1); None]
  | None => False
  end.
Proof. vm_compute. reflexivity. Qed.

(** ** Creating a preheader *)

Abbreviation with_order func i b order :=
  (mkFunc (name func) i b order (entry func) (num_stack_slots func)
    (stack_protector_slot func) (jump_tables func) (eh_metadata func)) (only parsing).

Definition create_block (func : MachFunction) : nat * MachFunction :=
  let id := length (blocks func) in
  (id, with_order func (insts func) (blocks func ++ [mkBlock [] [] []]) (block_order func ++ [id])).

Definition append_inst (func : MachFunction) (b id : nat) : MachFunction :=
  with_arenas func (insts func)
    (alter (fun k => mkBlock (block_insts k ++ [id]) (preds k) (succs k)) b (blocks func)).

Definition add_edge (func : MachFunction) (from to : nat) : MachFunction :=
  with_arenas func (insts func)
    (alter (fun k => mkBlock (block_insts k) (preds k ++ [from]) (succs k)) to
      (alter (fun k => mkBlock (block_insts k) (preds k) (succs k ++ [to])) from (blocks func))).

Definition retarget (header preheader : nat) (op : MachOperand) : MachOperand :=
  match op with Block b => if decide (b = header) then Block preheader else op | _ => op end.

(** One predecessor from outside the loop. *)
Definition redirect_pred (header preheader : nat) (func : MachFunction) (pred : nat) : MachFunction :=
  let bs := alter (fun k => mkBlock (block_insts k) (preds k)
                     ((fun s => if decide (s = header) then preheader else s) <$> succs k)) pred (blocks func) in
  let bs := alter (fun k => mkBlock (block_insts k) (filter (fun p => p <> pred) (preds k)) (succs k)) header bs in
  let bs := alter (fun k => mkBlock (block_insts k) (preds k ++ [pred]) (succs k)) preheader bs in
  let ins := match last (block_insts (block func pred)) with
             | Some id => alter (fun i => mkInst (opcode i) (retarget header preheader <$> operands i)
                                            (implicit_defs i) (implicit_uses i) (flags i)) id (insts func)
             | None => insts func
             end in
  with_arenas func ins bs.

Definition create_preheader (func : MachFunction) (header : nat) (body : gset nat) : nat * MachFunction :=
  let '(preheader, func) := create_block func in
  let '(br, func) := push_inst func (MachInst_new B [Block header]) in
  let func := append_inst func preheader br in
  let non_loop_preds := filter (fun p => p ∉ body) (preds (block func header)) in
  let func := add_edge func preheader header in
  let func := fold_left (redirect_pred header preheader) non_loop_preds func in
  let order := block_order func in
  let header_pos := from_option fst (length order) (list_find (fun b => b = header) order) in
  let order := filter (fun b => b <> preheader) order in
  (preheader, with_order func (insts func) (blocks func) (take header_pos order ++ preheader :: drop header_pos order)).

(** The preheader of a loop entered by a single branch: the function stays valid. *)
Example preheader_of_branch :
  let '(p, func) := create_preheader demo_nest 1 {[1; 2]} in
  p = 4 /\ block_order func = [0; 4; 1; 2; 3] /\ preds (block func 1) = [2; 4] /\
  validate_aarch64_mach_function func = None.
Proof. vm_compute. repeat split. Qed.

(** A loop entered by the conditional branch of a block that ends in a second branch. *)
Definition demo_guard : MachFunction :=
  mkFunc "guard"
    [ MachInst_new Cbz [PRegOp (mkPReg 0); Block 1];
      MachInst_new B [Block 2];
      MachInst_new Cbnz [PRegOp (mkPReg 0); Block 1];
      MachInst_new Ret [] ]
    [ mkBlock [0; 1] [] [1; 2]; mkBlock [2] [0; 1] [1; 2]; mkBlock [3] [0; 1] [] ]
    [0; 1; 2] 0 0 None [] (mkEh None [] []).

(** [create_preheader] rewrites the targets of the last instruction of a predecessor
    only: here the conditional branch keeps its target while the recorded successor
    becomes the preheader, and the result of a valid function is rejected. *)
Example preheader_misses_branch :
  validate_aarch64_mach_function demo_guard = None /\
  let '(p, func) := create_preheader demo_guard 1 {[1]} in
  succs (block func 0) = [p; 2] /\ operands (inst func 0) = [PRegOp (mkPReg 0); Block 1] /\
  validate_aarch64_mach_function func <> None.
Proof. vm_compute. repeat split. discriminate. Qed.
