(* ===== verification/LoopsSound.v ===== *)
(** * Loop analysis is exact ([crates/trust-cg-opt/src/loops.rs])

    Bodies are the blocks that reach a latch without passing the header; with
    exact dominators, loops that meet are nested, so the smallest loop around a
    block is contained in every other. *)

From S2P Require Import Prelude Regs MachFunc DomTree DomRpo DomSound DomEuler Loops.
Local Open Scope nat_scope.

Section Body.
Context (func : MachFunction) (Hok : cfg_ok func).

Abbreviation edge := (edge func).

(** A path of laid-out blocks from [x] to [l] on which [h] does not occur. *)
Inductive avoids (h : nat) : nat -> nat -> Prop :=
  | avoids_refl x : x ∈ block_order func -> x <> h -> avoids h x x
  | avoids_step x y l : x ∈ block_order func -> x <> h -> edge x y -> avoids h y l -> avoids h x l.

Lemma avoids_ends h x l : avoids h x l -> (x ∈ block_order func /\ x <> h) /\ (l ∈ block_order func /\ l <> h).
Proof. induction 1 as [|x y l Hx Hxh He _ [_ IH]]; auto. Qed.

Lemma avoids_trans h x y z : avoids h x y -> avoids h y z -> avoids h x z.
Proof. induction 1; eauto using avoids. Qed.

Lemma visit_preds_spec ps : forall body wl, exists new,
  visit_preds (body, wl) ps = (list_to_set new ∪ body, wl ++ new) /\ NoDup new /\
  (forall x, x ∈ new <-> x ∈ ps /\ x ∉ body).
Proof.
  unfold visit_preds. induction ps as [|p ps IH]; intros body wl; cbn.
  - exists []. split_and!; [by rewrite app_nil_r; cbn; rewrite (left_id_L ∅ (∪))|apply NoDup_nil_2|].
    intros x. split; [intros H; by apply elem_of_nil in H|intros [H _]; by apply elem_of_nil in H].
  - case_decide as Hp; cbn in Hp.
    + destruct (IH body wl) as (new & E & Hnd & Hin). exists new. split_and!; [exact E|done|].
      intros x. rewrite Hin, elem_of_cons. split; [tauto|]. intros [[->|]]; tauto.
    + destruct (IH ({[p]} ∪ body) (wl ++ [p])) as (new & E & Hnd & Hin). exists (p :: new). split_and!.
      * rewrite E, <- app_assoc. f_equal. cbn. rewrite (assoc_L (∪)). f_equal. apply (comm_L (∪)).
      * apply NoDup_cons. split; [|done]. rewrite Hin, elem_of_union, elem_of_singleton. tauto.
      * intros x. rewrite !elem_of_cons, Hin, elem_of_union, elem_of_singleton.
        destruct (decide (x = p)) as [->|]; tauto.
Qed.

Section Search.
Context (h l : nat) (Hl : l ∈ block_order func).

Record search_inv (body : gset nat) (wl : list nat) : Prop := mkSearch {
  s_header : h ∈ body;
  s_latch : l ∈ body;
  s_sound : forall x, x ∈ body -> x = h \/ avoids h x l;
  s_list : forall x, x ∈ wl -> x ∈ body /\ x <> h;
  s_closed : forall x y, x ∈ body -> x <> h -> x ∉ wl -> y ∈ preds (block func x) -> y ∈ body }.

Lemma search_step body b wl :
  search_inv body (b :: wl) ->
  let st := visit_preds (body, wl) (preds (block func b)) in
  search_inv st.1 st.2 /\ exists k, size st.1 = size body + k /\ length st.2 = length wl + k.
Proof.
  intros [H1 H2 H3 H4 H5]. destruct (visit_preds_spec (preds (block func b)) body wl) as (new & -> & Hnd & Hnew). cbn.
  destruct (H4 b ltac:(left)) as [Hb Hbh]. destruct (H3 b Hb) as [|Hba]; [done|]. destruct (avoids_ends _ _ _ Hba) as [[Hbl _] _].
  split.
  - split.
    + apply elem_of_union. by right.
    + apply elem_of_union. by right.
    + intros x [Hx%elem_of_list_to_set|Hx]%elem_of_union; [|by apply H3].
      apply Hnew in Hx as [Hx Hxb]. right. apply (preds_exact _ Hok) in Hx as [Hxl He]; [|done].
      apply (avoids_step h x b l); [done| |done|done]. intros ->. done.
    + intros x [Hx|Hx]%elem_of_app; [destruct (H4 x ltac:(by right)); split; [apply elem_of_union; by right|done]|].
      split; [apply elem_of_union; left; by apply elem_of_list_to_set|]. apply Hnew in Hx as [_ Hx]. intros ->. done.
    + intros x y Hx Hxh Hxw Hy. apply not_elem_of_app in Hxw as [Hxw Hxn].
      apply elem_of_union in Hx as [Hx%elem_of_list_to_set|Hx]; [done|].
      destruct (decide (x = b)) as [->|Hxb].
      * destruct (decide (y ∈ body)) as [|Hyb]; [apply elem_of_union; by right|]. apply elem_of_union. left. apply elem_of_list_to_set. by apply Hnew.
      * apply elem_of_union. right. apply (H5 x y); [done|done|by apply not_elem_of_cons|done].
  - exists (length new). rewrite length_app. split; [|done]. rewrite size_union.
    + rewrite size_list_to_set by done. lia.
    + intros x Hx%elem_of_list_to_set Hx'. apply Hnew in Hx as [_ Hx]. done.
Qed.

Lemma search_size body wl : search_inv body wl -> h ∈ block_order func -> size body <= length (blocks func).
Proof.
  intros Hs Hh. transitivity (size (list_to_set (seq 0 (length (blocks func))) : gset nat)).
  - apply subseteq_size. intros x Hx. apply elem_of_list_to_set, elem_of_seq. split; [lia|]. apply (laid_bound _ Hok).
    destruct (s_sound _ _ Hs x Hx) as [->|Ha]; [done|]. apply (avoids_ends _ _ _ Ha).
  - rewrite size_list_to_set by apply NoDup_seq. by rewrite length_seq.
Qed.

Lemma body_loop_inv fuel : forall body wl,
  search_inv body wl -> h ∈ block_order func -> length wl + length (blocks func) < fuel + size body ->
  exists body', body_loop func fuel body wl = body' /\ search_inv body' [].
Proof.
  induction fuel as [|fuel IH]; intros body wl Hs Hh Hf.
  - pose proof (search_size body wl Hs Hh). lia.
  - destruct wl as [|b wl]; [by exists body|]. cbn [body_loop]. destruct (search_step body b wl Hs) as (Hs' & k & E1 & E2).
    apply IH; [done|done|]. cbn [length] in Hf. lia.
Qed.
End Search.

(** The body of a back edge. *)
Lemma compute_loop_body_spec h l x :
  l ∈ block_order func -> h ∈ block_order func -> x ∈ compute_loop_body func h l <-> x = h \/ avoids h x l.
Proof.
  intros Hl Hh. unfold compute_loop_body. case_decide as E.
  - subst l. rewrite elem_of_union, !elem_of_singleton. split; [tauto|]. intros [|Ha]; [tauto|].
    by destruct (avoids_ends h x h Ha) as [_ []].
  - set (b0 := {[l]} ∪ {[h]} : gset nat).
    assert (H0 : search_inv h l b0 [l]).
    { unfold b0. split; try (rewrite elem_of_union, !elem_of_singleton; tauto).
      2: intros y ->%list_elem_of_singleton; rewrite elem_of_union, !elem_of_singleton; split; [by left|done].
      2: intros y z [->%elem_of_singleton| ->%elem_of_singleton]%elem_of_union ? Hn; [by destruct Hn; left|done].
      intros y [->%elem_of_singleton| ->%elem_of_singleton]%elem_of_union; [right; by constructor|by left]. }
    destruct (body_loop_inv h l (S (length (blocks func))) b0 [l] H0 Hh) as (body' & -> & Hs).
    { cbn. assert (size b0 = 2) as -> by (unfold b0; rewrite size_union, !size_singleton by set_solver; done). lia. }
    split; [apply (s_sound _ _ _ _ Hs)|]. intros [->|Ha]; [apply (s_header _ _ _ _ Hs)|].
    revert Hs. induction Ha as [|x y l Hx Hxh He Ha IH]; intros Hs; [apply (s_latch _ _ _ _ Hs)|].
    destruct (avoids_ends _ _ _ Ha) as [[Hy Hyh] _].
    apply (s_closed _ _ _ _ Hs y x); [by apply IH|done|apply not_elem_of_nil|by apply (preds_exact _ Hok)].
Qed.

End Body.

(** ** The loops and their headers *)

Section Analysis.
Context (func : MachFunction) (Hok : cfg_ok func) (t : DomTree).
Context (Hdom : forall a b, dominates t a b = true <-> a = b \/ (reachable func b /\ dom func a b)).

(** An edge to a block that dominates its source. *)
Definition back_edge (l h : nat) : Prop :=
  l ∈ block_order func /\ edge func l h /\ (h = l \/ (reachable func l /\ dom func h l)).

Lemma find_back_edges_spec l h : (l, h) ∈ find_back_edges func t <-> back_edge l h.
Proof.
  unfold find_back_edges, back_edge. rewrite list_elem_of_bind. rewrite <- Hdom. split.
  - intros (b & (s & [= -> ->] & [Hd Hs]%list_elem_of_filter)%list_elem_of_fmap & Hb). done.
  - intros (Hl & He & Hd). exists l. split; [|done]. apply list_elem_of_fmap. exists h. split; [done|].
    by apply list_elem_of_filter.
Qed.

Lemma back_edge_laid l h : back_edge l h -> l ∈ block_order func /\ h ∈ block_order func.
Proof. intros (Hl & He & _). split; [done|]. by apply (succs_laid _ Hok l). Qed.

(** What the map holds after the back edges [E]. *)
Definition loops_of (E : list (nat * nat)) (m : gmap nat NaturalLoop) : Prop :=
  forall h, match m !! h with
  | None => forall l, (l, h) ∉ E
  | Some lp => header lp = h /\ (latch lp, h) ∈ E /\ parent lp = None /\
      forall x, x ∈ body lp <-> exists l, (l, h) ∈ E /\ x ∈ compute_loop_body func h l
  end.

Lemma add_back_edge_spec E m e : loops_of E m -> loops_of (E ++ [e]) (add_back_edge func m e).
Proof.
  intros Hm h. destruct e as [l0 h0]. unfold add_back_edge. cbn. pose proof (Hm h0) as H0.
  assert (Hin : forall l, (l, h) ∈ E ++ [(l0, h0)] <-> (l, h) ∈ E \/ (l = l0 /\ h = h0)).
  { intros l. rewrite elem_of_app, list_elem_of_singleton. split; intros [|]; try tauto; right; [by simplify_eq|by destruct_and!; subst]. }
  destruct (decide (h = h0)) as [->|Hne].
  - destruct (m !! h0) as [lp|] eqn:Em; rewrite lookup_insert_eq; cbn.
    + destruct H0 as (-> & H2 & H3 & H4). split_and!; [done|apply Hin; by left|done|]. intros x.
      rewrite elem_of_union, H4. setoid_rewrite Hin. split.
      * intros [(l & Hl & Hx)|Hx]; [exists l; tauto|exists l0; tauto].
      * intros (l & [Hl|[-> _]] & Hx); [left; by exists l|by right].
    + split_and!; [done|apply Hin; by right|done|]. intros x. setoid_rewrite Hin. split; [intros Hx; exists l0; tauto|].
      intros (l & [Hl|[-> _]] & Hx); [by destruct (H0 l)|done].
  - replace (match m !! h0 with Some _ => _ | None => _ end !! h) with (m !! h) by (destruct (m !! h0); by rewrite lookup_insert_ne).
    pose proof (Hm h) as Hh. destruct (m !! h) as [lp|].
    + destruct Hh as (H1 & H2 & H3 & H4). split_and!; [done|apply Hin; by left|done|]. intros x. rewrite H4.
      setoid_rewrite Hin. split; intros (l & Hl & Hx); exists l; tauto.
    + intros l [|[]]%Hin; [by apply (Hh l)|done].
Qed.

Lemma add_back_edges_spec E : forall E0 m, loops_of E0 m -> loops_of (E0 ++ E) (fold_left (add_back_edge func) E m).
Proof.
  induction E as [|e E IH]; intros E0 m Hm; cbn; [by rewrite app_nil_r|].
  rewrite cons_middle, app_assoc. by apply IH, add_back_edge_spec.
Qed.

Lemma find_preheader_spec h (body : gset nat) p :
  NoDup (preds (block func h)) ->
  find_preheader func h body = Some p <-> forall q, q ∈ preds (block func h) /\ q ∉ body <-> q = p.
Proof.
  intros Hnd. unfold find_preheader. set (l := filter _ _).
  assert (Hl : forall q, q ∈ preds (block func h) /\ q ∉ body <-> q ∈ l) by (intros q; unfold l; rewrite list_elem_of_filter; tauto).
  setoid_rewrite Hl. assert (Hn : NoDup l) by by apply NoDup_filter. clear Hl. clearbody l. split.
  - intros H q. destruct l as [|a [|b l]]; [done| |done]. injection H as ->. apply list_elem_of_singleton.
  - intros H. destruct l as [|a l]; [destruct (H p) as [_ Hp]; by apply elem_of_nil in Hp|].
    assert (a = p) as -> by (apply H; left). destruct l as [|b l]; [done|].
    assert (b = p) as -> by (apply H; right; left). apply NoDup_cons in Hn as [Hn _]. destruct Hn. left.
Qed.

(** What the analysis records of every header. *)
Definition loop_exact (h : nat) (lp : NaturalLoop) : Prop :=
  header lp = h /\ back_edge (latch lp) h /\
  (forall x, x ∈ body lp <-> x = h \/ exists l, back_edge l h /\ avoids func h x l) /\
  preheader lp = find_preheader func h (body lp).

Definition loops_exact (m : gmap nat NaturalLoop) : Prop :=
  forall h, match m !! h with None => forall l, ~ back_edge l h | Some lp => loop_exact h lp end.

(** Loops that differ in their place in the nest only. *)
Definition same_loop (a b : NaturalLoop) : Prop :=
  header a = header b /\ latch a = latch b /\ body a = body b /\ preheader a = preheader b.

Abbreviation found := ((fun l => mkLoop (header l) (latch l) (body l) (find_preheader func (header l) (body l)) (depth l) (parent l)) <$>
  fold_left (add_back_edge func) (find_back_edges func t) ∅).

Lemma found_exact : loops_exact found /\ forall h lp, found !! h = Some lp -> parent lp = None.
Proof.
  assert (H : loops_of (find_back_edges func t) (fold_left (add_back_edge func) (find_back_edges func t) ∅)).
  { apply (add_back_edges_spec _ [] ∅). intros h. rewrite lookup_empty. intros l. apply not_elem_of_nil. }
  split.
  - intros h. rewrite lookup_fmap. pose proof (H h) as Hh. destruct (_ !! h) as [lp|]; cbn.
    + destruct Hh as (H1 & H2 & _ & H4). apply find_back_edges_spec in H2. split_and!; cbn; [done|done| |by rewrite H1].
      intros x. rewrite H4. setoid_rewrite find_back_edges_spec. split.
      * intros (l & Hl & Hx). destruct (back_edge_laid l h Hl). apply (compute_loop_body_spec func Hok) in Hx as [|]; [by left|right|done|done]. by exists l.
      * intros [->|(l & Hl & Hx)]; [exists (latch lp)|exists l]; (split; [done|]).
        { destruct (back_edge_laid _ _ H2). apply (compute_loop_body_spec func Hok); [done|done|by left]. }
        { destruct (back_edge_laid _ _ Hl). apply (compute_loop_body_spec func Hok); [done|done|by right]. }
    + intros l. rewrite <- find_back_edges_spec. apply Hh.
  - intros h lp. rewrite lookup_fmap. pose proof (H h) as Hh. destruct (_ !! h) as [lp'|]; [|done].
    intros [= <-]. apply Hh.
Qed.

Lemma compute_nesting_lookup (m : gmap nat NaturalLoop) (h : nat) :
  (forall h lp, m !! h = Some lp -> parent lp = None) ->
  match compute_nesting m !! h, m !! h with
  | Some lp', Some lp => same_loop lp' lp /\ parent lp' = best_parent m h
  | None, None => True
  | _, _ => False
  end.
Proof.
  intros Hp. unfold compute_nesting. rewrite lookup_fmap, map_lookup_imap. destruct (m !! h) as [lp|] eqn:E; cbn; [|done].
  rewrite (Hp h lp E). split; [done|]. by destruct (best_parent m h).
Qed.

Lemma compute_loops_exact : loops_exact (loops (compute_loops func t)).
Proof.
  destruct found_exact as [He Hp]. intros h. pose proof (compute_nesting_lookup found h Hp) as Hn. specialize (He h).
  unfold compute_loops. cbn [loops]. destruct (compute_nesting found !! h) as [lp'|], (found !! h) as [lp|]; try done.
  destruct Hn as [(E1 & E2 & E3 & E4) _]. unfold loop_exact in *. by rewrite E1, E2, E3, E4.
Qed.

End Analysis.

(** C21: Natural loops are exact.  For every function the validation accepts, the
    analysis records a loop for exactly the blocks that are the target of a back
    edge (an edge whose target dominates its source); its latch is the source of
    such an edge; its body is the header and the blocks from which the source of
    some back edge to it is reached without passing the header; and it has a
    preheader exactly when one block alone enters the loop from outside. *)
Theorem natural_loops_exact (func : MachFunction) :
  validate_aarch64_mach_function func = None ->
  exists t, compute func = Some t /\
  forall h, match get_loop (compute_loops func t) h with
  | None => forall l, ~ back_edge func l h
  | Some lp =>
      header lp = h /\ back_edge func (latch lp) h /\
      (forall x, x ∈ body lp <-> x = h \/ exists l, back_edge func l h /\ avoids func h x l) /\
      (forall p, preheader lp = Some p <->
        forall q, q ∈ block_order func /\ edge func q h /\ q ∉ body lp <-> q = p)
  end.
Proof.
  intros Hv. pose proof (validated_cfg func Hv) as Hok. destruct (compute_spec func Hok) as (t & Ht & Hr & Hm & He & Hst & _).
  exists t. split; [done|]. intros h. pose proof (compute_loops_exact func Hok t) as Hx. unfold get_loop.
  specialize (Hx (fun a b => dominates_spec func t a b Hok Hr Hm He Hst) h). destruct (_ !! h) as [lp|]; [|done].
  destruct Hx as (H1 & H2 & H3 & H4). split_and!; [done|done|done|]. intros p. rewrite H4.
  destruct (back_edge_laid func Hok _ _ H2) as [_ Hh]. rewrite find_preheader_spec.
  - setoid_rewrite (preds_exact _ Hok _ _ Hh). split; intros Hq q; rewrite <- (Hq q); tauto.
  - by apply (authority_edges func Hv).
Qed.

Lemma natural_loops_exact_witness :
  exists t lp, compute demo_nest = Some t /\ get_loop (compute_loops demo_nest t) 1 = Some lp /\
    (2 ∈ body lp <-> 2 = 1 \/ exists l, back_edge demo_nest l 1 /\ avoids demo_nest 1 2 l).
Proof.
  destruct (natural_loops_exact demo_nest ltac:(by vm_compute)) as (t & Ht & Hl). specialize (Hl 1).
  assert (E : is_Some (get_loop (compute_loops demo_nest (default t (compute demo_nest))) 1)) by (vm_compute; eauto).
  rewrite Ht in E. cbn [from_option Datatypes.id] in E. destruct E as [lp E]. rewrite E in Hl. exists t, lp.
  split; [exact Ht|]. split; [exact E|]. apply Hl.
Defined.
