(* ===== verification/LoopNest.v ===== *)
(** * Nested loops ([crates/trust-cg-opt/src/loops.rs], [compute_nesting])

    In a function whose blocks are all reachable, two loops that share a block are
    nested.  So the parent chosen by size is the innermost loop around a loop, the
    depth counts the loops around it, and the last entry written for a block is the
    innermost loop that contains it. *)

From S2P Require Import Prelude Regs MachFunc DomTree DomRpo DomSound DomEuler Loops LoopsSound.
Local Open Scope nat_scope.

Section Dominance.
Context (func : MachFunction) (Hok : cfg_ok func).

Lemma dom_linear a b x : reachable func x -> dom func a x -> dom func b x -> dom func a b \/ dom func b a.
Proof.
  intros Hx Ha Hb. destruct (compute_spec func Hok) as (t & _ & Hr & Hm & [Hall He] & _).
  apply (rpo_reachable _ _ Hr) in Hx. apply He in Ha, Hb; [|done|done].
  assert (Hp : forall y, anc (idom t) x y -> y ∈ rpo t).
  { intros y Hy. apply Hall. apply (anc_processed _ _ _ Hm x); [by apply Hall|done]. }
  destruct (anc_linear (idom t) x a b Ha Hb) as [H|H]; [right|left]; apply He; auto.
Qed.

Lemma dom_antisym a b : reachable func a -> reachable func b -> dom func a b -> dom func b a -> a = b.
Proof.
  intros Ha Hb Hab Hba. destruct (compute_spec func Hok) as (t & _ & Hr & Hm & [Hall He] & _).
  apply (rpo_reachable _ _ Hr) in Ha, Hb. apply He in Hab, Hba; [|done|done].
  apply (pos_inj func (rpo t) Hr); [done|done|]. pose proof (anc_pos _ _ _ Hm _ _ Hab). pose proof (anc_pos _ _ _ Hm _ _ Hba). lia.
Qed.

(** A path through [x], cut at [x]. *)
Lemma walk_split w b x : walk func w b -> x ∈ w ->
  exists w1 w2, w = w1 ++ w2 /\ walk func w2 x /\ forall h, h <> x -> h ∉ w1 -> avoids func h x b.
Proof.
  induction 1 as [|w a b Hw IH He]; intros Hx.
  - apply list_elem_of_singleton in Hx as ->. exists [], [entry func]. split_and!; [done|constructor|].
    intros h Hh _. constructor; [by apply (entry_laid _ Hok)|done].
  - assert (Hb : b ∈ block_order func) by (apply (reachable_laid _ Hok); exists (b :: w); by econstructor).
    destruct (decide (x = b)) as [->|Hne].
    { exists [], (b :: w). split_and!; [done|by econstructor|]. intros h Hh _. by constructor. }
    apply elem_of_cons in Hx as [|Hx]; [done|]. destruct (IH Hx) as (w1 & w2 & -> & Hw2 & Ha). exists (b :: w1), w2.
    split_and!; [done|done|]. intros h Hh [Hhb Hh1]%not_elem_of_cons. specialize (Ha h Hh Hh1).
    destruct (avoids_ends _ _ _ _ Ha) as [_ [Hal Hah]].
    apply (avoids_trans func h x a b Ha). apply (avoids_step func h a b b); [done|done|done|by constructor].
Qed.

(** Below a strict dominator there is a path that does not return to it. *)
Lemma dom_avoids h x y : reachable func y -> h <> x -> dom func h x -> dom func x y -> avoids func h x y.
Proof.
  intros [w Hw] Hne Hh Hx. destruct (walk_simple _ w y Hw) as (w' & Hw' & Hnd & _).
  destruct (walk_split w' y x Hw' (Hx w' Hw')) as (w1 & w2 & -> & Hw2 & Ha). apply Ha; [done|]. intros Hin.
  apply NoDup_app in Hnd as (_ & Hnd & _). apply (Hnd h Hin), Hh, Hw2.
Qed.

Lemma header_dominates l h x : back_edge func l h -> avoids func h x l -> dom func h x.
Proof.
  intros (_ & _ & Hd) Ha. induction Ha as [x Hx Hxh|x y l Hx Hxh He Ha IH].
  - destruct Hd as [|[]]; [by subst|done].
  - intros w Hw. specialize (IH Hd (y :: w) (walk_step _ _ _ _ Hw He)). destruct (avoids_ends _ _ _ _ Ha) as [[_ Hy] _].
    apply elem_of_cons in IH as [|]; [by subst|done].
Qed.

Context (Hall : forall b, b ∈ block_order func -> reachable func b).

Lemma body_header h lp x : loop_exact func h lp -> x ∈ body lp -> reachable func x /\ dom func h x.
Proof.
  intros (_ & H2 & H3 & _) [->|(l & Hl & Ha)]%H3.
  - split; [apply Hall, (back_edge_laid func Hok _ _ H2)|]. intros w Hw. by apply (walk_self func).
  - split; [apply Hall, (avoids_ends _ _ _ _ Ha)|by apply (header_dominates l)].
Qed.

(** A loop whose header is in the body of another one is contained in it. *)
Lemma inner_subset h1 h2 lp1 lp2 x :
  loop_exact func h1 lp1 -> loop_exact func h2 lp2 -> h1 <> h2 -> dom func h1 h2 ->
  x ∈ body lp1 -> x ∈ body lp2 -> body lp2 ⊆ body lp1.
Proof.
  intros L1 L2 Hne Hd Hx1 Hx2. pose proof L1 as (_ & _ & B1 & _). pose proof L2 as (_ & E2 & B2 & _).
  assert (Hr2 : reachable func h2) by apply Hall, (back_edge_laid func Hok _ _ E2).
  assert (Hout : h1 ∉ body lp2).
  { intros [Hr Hh]%(body_header h2 lp2); [|done]. by apply Hne, dom_antisym. }
  destruct (body_header h2 lp2 x L2 Hx2) as [Hxr Hxd].
  apply B1 in Hx1 as [->|(l1 & Hl1 & Ha1)]; [done|].
  assert (Hh2 : avoids func h1 h2 l1) by (apply (avoids_trans func h1 h2 x l1); [by apply dom_avoids|done]).
  intros y Hy. apply B1. right. exists l1. split; [done|].
  apply B2 in Hy as [->|(l2 & Hl2 & Ha2)]; [done|].
  assert (Hgo : avoids func h1 y l2).
  { clear -Ha2 Hl2 Hout B2. induction Ha2 as [y Hy Hyh|y z l Hy Hyh He Ha IH].
    - constructor; [done|]. intros ->. apply Hout, B2. right. exists h1. split; [done|by constructor].
    - apply (avoids_step func h1 y z l); [done| |done|by apply IH]. intros ->. apply Hout, B2. right. exists l.
      split; [done|by apply (avoids_step func h2 h1 z l)]. }
  apply (avoids_trans func h1 y l2 l1 Hgo). destruct (avoids_ends _ _ _ _ Hgo) as [_ [Hl Hlh]].
  by apply (avoids_step func h1 l2 h2 l1); [done|done|apply Hl2|].
Qed.

Lemma loops_nest h1 h2 lp1 lp2 x :
  loop_exact func h1 lp1 -> loop_exact func h2 lp2 -> h1 <> h2 ->
  x ∈ body lp1 -> x ∈ body lp2 -> body lp1 ⊆ body lp2 \/ body lp2 ⊆ body lp1.
Proof.
  intros L1 L2 Hne H1 H2. destruct (body_header h1 lp1 x L1 H1) as [Hr D1]. destruct (body_header h2 lp2 x L2 H2) as [_ D2].
  destruct (dom_linear h1 h2 x Hr D1 D2); [right|left]; eapply inner_subset; eauto.
Qed.

End Dominance.

(** ** Parents and depths *)

Section Nest.
Context (m : gmap nat NaturalLoop).

(** The loop of [q] is strictly around the loop of [h]. *)
Definition around (h q : nat) : Prop :=
  is_Some (m !! q) /\ body_of m h ⊆ body_of m q /\ size (body_of m h) < size (body_of m q).

Lemma elem_of_headers h : h ∈ headers m <-> is_Some (m !! h).
Proof.
  unfold headers. rewrite merge_sort_Permutation, list_elem_of_fmap. split.
  - intros ([h' lp] & -> & H%elem_of_map_to_list). by exists lp.
  - intros [lp H]. exists (h, lp). split; [done|by apply elem_of_map_to_list].
Qed.

Definition best_ok (h : nat) (seen : list nat) (best : option nat * option nat) : Prop :=
  match best with
  | (Some p, Some n) => around h p /\ n = size (body_of m p) /\ forall q, q ∈ seen -> around h q -> n <= size (body_of m q)
  | (None, None) => forall q, q ∈ seen -> ~ around h q
  | _ => False
  end.

Lemma best_parent_fold h l : forall seen best, (forall q, q ∈ l -> is_Some (m !! q)) -> best_ok h seen best ->
  best_ok h (seen ++ l) (fold_left (fun (best : option nat * option nat) h2 =>
    if decide (h = h2) then best
    else
      let body1 := body_of m h in
      let body2 := body_of m h2 in
      if bool_decide (body1 ⊆ body2) && (size body1 <? size body2) &&
         match best.2 with Some n => size body2 <? n | None => true end
      then (Some h2, Some (size body2)) else best) l best).
Proof.
  induction l as [|q l IH]; intros seen best Hl Hb; cbn [fold_left]; [by rewrite app_nil_r|].
  rewrite cons_middle, app_assoc. apply IH; [intros; apply Hl; by right|].
  assert (Hin : forall y, y ∈ seen ++ [q] <-> y ∈ seen \/ y = q) by (intros; by rewrite elem_of_app, list_elem_of_singleton).
  assert (Hskip : ~ around h q -> best_ok h (seen ++ [q]) best).
  { intros Hn. destruct best as [[p|] [n|]]; cbn in *; try done.
    - destruct Hb as (? & ? & Hb). split_and!; [done|done|]. intros y [Hy| ->]%Hin; [by apply Hb|done].
    - intros y [Hy| ->]%Hin; [by apply Hb|done]. }
  cbn zeta. case_decide as Eq; [subst q; apply Hskip; intros (_ & _ & ?); lia|].
  case_bool_decide as Es; cbn [andb]; [|by apply Hskip; intros (_ & ? & _)].
  destruct (Nat.ltb_spec (size (body_of m h)) (size (body_of m q))) as [El|El]; cbn [andb]; [|by apply Hskip; intros (_ & _ & ?); lia].
  assert (Hq : around h q) by (split_and!; [apply Hl; left|done|done]).
  destruct best as [[p|] [n|]]; cbn [best_ok snd] in *; try done.
  - destruct Hb as (H1 & -> & H3). destruct (Nat.ltb_spec (size (body_of m q)) (size (body_of m p))); cbn [best_ok].
    + split_and!; [done|done|]. intros y [Hy| ->]%Hin Ha; [specialize (H3 y Hy Ha); lia|lia].
    + split_and!; [done|done|]. intros y [Hy| ->]%Hin Ha; [by apply H3|lia].
  - split_and!; [done|done|]. intros y [Hy| ->]%Hin Ha; [by destruct (Hb y Hy)|lia].
Qed.

(** The parent is a smallest loop around. *)
Lemma best_parent_spec h :
  match best_parent m h with
  | Some p => around h p /\ forall q, around h q -> size (body_of m p) <= size (body_of m q)
  | None => forall q, ~ around h q
  end.
Proof.
  assert (H : best_ok h [] (None, None)) by (intros q Hq; by apply elem_of_nil in Hq).
  apply (best_parent_fold h (headers m)) in H; [|intros q Hq; by apply elem_of_headers].
  unfold best_parent. destruct (fold_left _ _ _) as [[p|] [n|]]; cbn in *; try done.
  - destruct H as (H1 & -> & H2). split; [done|]. intros q Hq. apply H2; [apply elem_of_headers, Hq|done].
  - intros q Hq. apply (H q); [apply elem_of_headers, Hq|done].
Qed.

End Nest.

Section Depth.
Context (m : gmap nat NaturalLoop).
Context (Hup : forall h lp p, m !! h = Some lp -> parent lp = Some p ->
  exists lp', m !! p = Some lp' /\ size (body lp) < size (body lp')).

(** The number of loops larger than [n] blocks. *)
Definition larger_loops (n : nat) : nat := size (filter (fun kv : nat * NaturalLoop => n < size (body kv.2)) m).

Lemma larger_loops_step h lp n : m !! h = Some lp -> n < size (body lp) -> larger_loops (size (body lp)) < larger_loops n.
Proof.
  intros Hh Hn. apply map_subset_size. split.
  - apply map_subseteq_spec. intros k x [Hk Hx]%map_lookup_filter_Some. apply map_lookup_filter_Some. cbn in *. split; [done|lia].
  - intros Hs. apply (map_subseteq_spec (filter _ m)) with (i := h) (x := lp) in Hs.
    + apply map_lookup_filter_Some in Hs as [_ Hs]. cbn in Hs. lia.
    + by apply map_lookup_filter_Some.
Qed.

Lemma larger_loops_bound h lp : m !! h = Some lp -> larger_loops (size (body lp)) < size m.
Proof.
  intros Hh. apply map_subset_size. split; [apply map_filter_subseteq|]. intros Hs.
  apply (map_subseteq_spec m) with (i := h) (x := lp) in Hs; [|done]. apply map_lookup_filter_Some in Hs as [_ Hs]. cbn in Hs. lia.
Qed.

Lemma chain_depth_fuel f : forall f' h lp, m !! h = Some lp ->
  larger_loops (size (body lp)) <= f -> larger_loops (size (body lp)) <= f' ->
  chain_depth f m (parent lp) = chain_depth f' m (parent lp).
Proof.
  induction f as [|f IH]; intros f' h lp Hh H1 H2; destruct (parent lp) as [p|] eqn:Ep; try by destruct f'.
  - destruct (Hup h lp p Hh Ep) as (lp' & Hp & Hs). pose proof (larger_loops_step p lp' _ Hp Hs). lia.
  - destruct (Hup h lp p Hh Ep) as (lp' & Hp & Hs). pose proof (larger_loops_step p lp' _ Hp Hs).
    destruct f' as [|f']; [lia|]. cbn. rewrite Hp. cbn. f_equal. apply (IH f' p); [done|lia|lia].
Qed.

(** One more than the depth of the parent. *)
Lemma chain_depth_parent h lp p lp' :
  m !! h = Some lp -> parent lp = Some p -> m !! p = Some lp' ->
  chain_depth (size m) m (parent lp) = S (chain_depth (size m) m (parent lp')).
Proof.
  intros Hh Ep Hp. destruct (Hup h lp p Hh Ep) as (? & ? & Hs). simplify_eq.
  pose proof (larger_loops_bound h lp Hh). pose proof (larger_loops_step p lp' _ Hp Hs).
  rewrite Ep. destruct (size m) as [|n] eqn:En; [lia|]. cbn [chain_depth]. rewrite Hp. cbn [mbind option_bind]. f_equal.
  apply (chain_depth_fuel n (S n) p); [done|lia|lia].
Qed.

End Depth.

(** ** The innermost loop of a block *)

Lemma insert_all_lookup (l : list nat) (h b : nat) : forall acc : gmap nat nat,
  fold_left (fun acc b => <[b := h]> acc) l acc !! b = if decide (b ∈ l) then Some h else acc !! b.
Proof.
  induction l as [|x l IH]; intros acc; cbn [fold_left]; [done|]. rewrite IH.
  destruct (decide (b ∈ l)), (decide (b ∈ x :: l)) as [Hx|Hx]; try done.
  - destruct Hx. by right.
  - apply elem_of_cons in Hx as [->|]; [by rewrite lookup_insert_eq|done].
  - rewrite lookup_insert_ne; [done|]. intros <-. apply Hx. left.
Qed.

Lemma innermost_fold (b : nat) (L : list NaturalLoop) : forall acc : gmap nat nat,
  StronglySorted larger L ->
  let r := fold_left (fun acc l => fold_left (fun acc b => <[b := header l]> acc) (elements (body l)) acc) L acc !! b in
  ((forall lp, lp ∈ L -> b ∉ body lp) /\ r = acc !! b) \/
  (exists lp, lp ∈ L /\ b ∈ body lp /\ r = Some (header lp) /\
     forall lp', lp' ∈ L -> b ∈ body lp' -> size (body lp) <= size (body lp')).
Proof.
  induction L as [|a L IH]; intros acc Hs r; [left; split; [intros lp H; by apply elem_of_nil in H|done]|].
  apply StronglySorted_inv in Hs as [Hs Ha]. rewrite Forall_forall in Ha. subst r. cbn [fold_left].
  destruct (IH (fold_left (fun acc b => <[b := header a]> acc) (elements (body a)) acc) Hs) as [[Hn E]|(lp & Hlp & Hb & E & Hmin)].
  - rewrite E, insert_all_lookup. case_decide as Hba; rewrite elem_of_elements in Hba.
    + right. exists a. split_and!; [left|done|done|]. intros lp' [->|Hl]%elem_of_cons Hb; [lia|by destruct (Hn lp' Hl)].
    + left. split; [|done]. intros lp' [->|Hl]%elem_of_cons; [done|by apply Hn].
  - right. exists lp. split_and!; [by right|done|done|]. intros lp' [->|Hl]%elem_of_cons Hb'; [by apply (Ha lp)|by apply Hmin].
Qed.

#[export] Instance larger_total : Total larger.
Proof. intros a b. unfold larger. lia. Qed.
#[export] Instance larger_trans : Transitive larger.
Proof. intros a b c. unfold larger. lia. Qed.

Lemma innermost_map_spec (m : gmap nat NaturalLoop) (b : nat) :
  (forall h lp, m !! h = Some lp -> header lp = h) ->
  match innermost_map m !! b with
  | None => forall h lp, m !! h = Some lp -> b ∉ body lp
  | Some h => exists lp, m !! h = Some lp /\ b ∈ body lp /\
      forall h' lp', m !! h' = Some lp' -> b ∈ body lp' -> size (body lp) <= size (body lp')
  end.
Proof.
  intros Hh. unfold innermost_map. set (L := merge_sort _ _).
  assert (HL : forall lp, lp ∈ L <-> exists h, m !! h = Some lp).
  { intros lp. unfold L. rewrite merge_sort_Permutation, list_elem_of_omap. split; [intros (h & _ & E); by exists h|].
    intros [h E]. exists h. split; [|done]. apply elem_of_headers. by exists lp. }
  destruct (innermost_fold b L ∅) as [[Hn ->]|(lp & Hlp & Hb & -> & Hmin)].
  - apply Sorted_StronglySorted; [apply _|]. apply Sorted_merge_sort, _.
  - rewrite lookup_empty. intros h lp E. apply Hn, HL. by exists h.
  - apply HL in Hlp as [h E]. rewrite (Hh h lp E). exists lp. split_and!; [done|done|].
    intros h' lp' E' Hb'. apply Hmin; [|done]. apply HL. by exists h'.
Qed.

(** ** The nest *)

Section Nesting.
Context (m : gmap nat NaturalLoop) (Hnone : forall h lp, m !! h = Some lp -> parent lp = None).

Abbreviation linked := (map_imap (fun h l => Some (with_parent m h l)) m).

Lemma linked_lookup h lp : linked !! h = Some lp ->
  exists l, m !! h = Some l /\ body lp = body l /\ parent lp = best_parent m h.
Proof.
  rewrite map_lookup_imap. destruct (m !! h) as [l|] eqn:E; [|done]. intros [= <-]. exists l. split_and!; [done|done|].
  cbn. rewrite (Hnone h l E). by destruct (best_parent m h).
Qed.

Lemma linked_up h lp p : linked !! h = Some lp -> parent lp = Some p ->
  exists lp', linked !! p = Some lp' /\ size (body lp) < size (body lp').
Proof.
  intros (l & E & Eb & Ep)%linked_lookup Hp. rewrite Ep in Hp. pose proof (best_parent_spec m h) as Hb. rewrite Hp in Hb.
  destruct Hb as (([l' E'] & _ & Hs) & _). exists (with_parent m p l'). split; [by rewrite map_lookup_imap, E'|].
  unfold body_of in Hs. rewrite E, E' in Hs. cbn in *. by rewrite Eb.
Qed.

Lemma nesting_depth h lp : compute_nesting m !! h = Some lp ->
  match parent lp with
  | None => depth lp = 1
  | Some p => exists lp', compute_nesting m !! p = Some lp' /\ depth lp = S (depth lp')
  end.
Proof.
  unfold compute_nesting. rewrite lookup_fmap. destruct (linked !! h) as [l|] eqn:E; [|done]. intros [= <-]. cbn.
  destruct (parent l) as [p|] eqn:Ep.
  - destruct (linked_up h l p E Ep) as (l' & E' & _). eexists. rewrite lookup_fmap, E'. split; [done|]. cbn. rewrite <- Ep.
    by apply (chain_depth_parent linked linked_up h l p l').
  - by destruct (size linked).
Qed.

Lemma nesting_lookup h lp : compute_nesting m !! h = Some lp ->
  body_of m h = body lp /\ is_Some (m !! h) /\ parent lp = best_parent m h.
Proof.
  intros E. pose proof (compute_nesting_lookup m h Hnone) as H. rewrite E in H. unfold body_of.
  destruct (m !! h) as [l|]; [|done]. destruct H as [(_ & _ & -> & _) ->]. done.
Qed.

Lemma nesting_found h : is_Some (m !! h) -> exists lp, compute_nesting m !! h = Some lp.
Proof.
  intros [l E]. pose proof (compute_nesting_lookup m h Hnone) as H. rewrite E in H.
  destruct (compute_nesting m !! h) as [lp|]; [by exists lp|done].
Qed.

Lemma around_iff h lp q lq : compute_nesting m !! h = Some lp -> compute_nesting m !! q = Some lq ->
  around m h q <-> body lp ⊂ body lq.
Proof.
  intros (E1 & _ & _)%nesting_lookup (E2 & Hq & _)%nesting_lookup. unfold around. rewrite E1, E2. split.
  - intros (_ & Hs & Hl). split; [done|]. intros Hs'%subseteq_size. lia.
  - intros Hs. split_and!; [done|apply Hs|by apply subset_size].
Qed.

Context (Hnest : forall h1 h2 lp1 lp2 x, compute_nesting m !! h1 = Some lp1 -> compute_nesting m !! h2 = Some lp2 ->
  x ∈ body lp1 -> x ∈ body lp2 -> body lp1 ⊆ body lp2 \/ body lp2 ⊆ body lp1).

(** Of two loops that meet, the one that is not larger is inside. *)
Lemma smaller_inside h1 h2 lp1 lp2 x :
  compute_nesting m !! h1 = Some lp1 -> compute_nesting m !! h2 = Some lp2 ->
  x ∈ body lp1 -> x ∈ body lp2 -> size (body lp1) <= size (body lp2) -> body lp1 ⊆ body lp2.
Proof.
  intros E1 E2 H1 H2 Hs. destruct (Hnest h1 h2 lp1 lp2 x E1 E2 H1 H2) as [|Hsub]; [done|].
  destruct (decide (body lp1 ⊆ body lp2)) as [|Hn]; [done|]. assert (size (body lp2) < size (body lp1)) by (by apply subset_size). lia.
Qed.

Lemma nesting_parent h lp x : compute_nesting m !! h = Some lp -> x ∈ body lp ->
  match parent lp with
  | None => forall q lq, compute_nesting m !! q = Some lq -> ~ body lp ⊂ body lq
  | Some p => exists lp', compute_nesting m !! p = Some lp' /\ body lp ⊂ body lp' /\
      forall q lq, compute_nesting m !! q = Some lq -> body lp ⊂ body lq -> body lp' ⊆ body lq
  end.
Proof.
  intros E Hx. destruct (nesting_lookup h lp E) as (_ & _ & ->). pose proof (best_parent_spec m h) as Hb.
  destruct (best_parent m h) as [p|].
  - destruct Hb as [Ha Hmin]. destruct (nesting_found p (proj1 Ha)) as [lp' E']. exists lp'.
    pose proof (proj1 (around_iff h lp p lp' E E') Ha) as Hs. split_and!; [done|done|]. intros q lq Eq Hq.
    apply (smaller_inside p q lp' lq x); [done|done|by apply Hs|by apply Hq|].
    pose proof (Hmin q (proj2 (around_iff h lp q lq E Eq) Hq)) as Hle.
    by rewrite (proj1 (nesting_lookup p lp' E')), (proj1 (nesting_lookup q lq Eq)) in Hle.
  - intros q lq Eq Hq. by apply (Hb q), (around_iff h lp q lq E Eq).
Qed.

End Nesting.

(** C22: The loop nest is a tree and is recorded exactly.  In a function the validation
    accepts and whose blocks are all reachable, two loops that share a block are
    nested; the parent of a loop is strictly around it and inside every other loop
    strictly around it, a loop without a parent has none around it, and the depth
    is one more than the depth of the parent; and the loop found for a block
    contains it and is inside every other loop that contains it. *)
Theorem loop_nest_exact (func : MachFunction) :
  validate_aarch64_mach_function func = None -> (forall b, b ∈ block_order func -> reachable func b) ->
  exists t, compute func = Some t /\ let a := compute_loops func t in
  (forall h1 h2 lp1 lp2 x, get_loop a h1 = Some lp1 -> get_loop a h2 = Some lp2 ->
     x ∈ body lp1 -> x ∈ body lp2 -> body lp1 ⊆ body lp2 \/ body lp2 ⊆ body lp1) /\
  (forall h lp, get_loop a h = Some lp ->
     match parent lp with
     | None => depth lp = 1 /\ forall q lq, get_loop a q = Some lq -> ~ body lp ⊂ body lq
     | Some p => exists lp', get_loop a p = Some lp' /\ body lp ⊂ body lp' /\ depth lp = S (depth lp') /\
         forall q lq, get_loop a q = Some lq -> body lp ⊂ body lq -> body lp' ⊆ body lq
     end) /\
  (forall b, match containing_loop a b with
     | None => is_in_loop a b = false /\ forall h lp, get_loop a h = Some lp -> b ∉ body lp
     | Some lp => is_in_loop a b = true /\ get_loop a (header lp) = Some lp /\ b ∈ body lp /\
         forall h lp', get_loop a h = Some lp' -> b ∈ body lp' -> body lp ⊆ body lp'
     end).
Proof.
  intros Hv Hall. pose proof (validated_cfg func Hv) as Hok. destruct (compute_spec func Hok) as (t & Ht & Hr & Hm & He & Hst & _).
  exists t. split; [done|]. cbn zeta.
  pose proof (fun a b => dominates_spec func t a b Hok Hr Hm He Hst) as Hd.
  pose proof (compute_loops_exact func Hok t Hd) as Hx. destruct (found_exact func Hok t Hd) as [_ Hp].
  unfold get_loop, containing_loop, is_in_loop, compute_loops in *. cbn [loops block_to_loop] in *.
  set (m := (fun l => mkLoop _ _ _ _ _ _) <$> _) in *. set (F := compute_nesting m) in *.
  assert (Hex : forall h lp, F !! h = Some lp -> loop_exact func h lp) by (intros h lp E; specialize (Hx h); by rewrite E in Hx).
  assert (Hnest : forall h1 h2 lp1 lp2 x, F !! h1 = Some lp1 -> F !! h2 = Some lp2 ->
    x ∈ body lp1 -> x ∈ body lp2 -> body lp1 ⊆ body lp2 \/ body lp2 ⊆ body lp1).
  { intros h1 h2 lp1 lp2 x E1 E2. destruct (decide (h1 = h2)) as [->|Hne]; [simplify_eq; by left|]. by apply (loops_nest func Hok Hall h1 h2); auto. }
  split; [done|split].
  - intros h lp E. pose proof (nesting_depth m Hp h lp E) as Hdep.
    pose proof (nesting_parent m Hp Hnest h lp h E ltac:(apply (Hex h lp E); by left)) as Hpar.
    destruct (parent lp) as [p|]; [|done]. destruct Hdep as (l1 & E1 & ?), Hpar as (l2 & E2 & ? & ?).
    fold F in E1, E2. simplify_eq. by exists l1.
  - intros b. pose proof (innermost_map_spec F b ltac:(intros h lp E; apply (Hex h lp E))) as Hin.
    destruct (innermost_map F !! b) as [h|]; cbn [mbind option_bind].
    + destruct Hin as (lp & E & Hb & Hmin). rewrite E. split_and!; [done| |done|].
      * destruct (Hex h lp E) as [-> _]. done.
      * intros h' lp' E' Hb'. apply (smaller_inside m Hnest h h' lp lp' b); eauto.
    + done.
Qed.

Lemma loop_nest_exact_witness :
  (forall b, b ∈ block_order demo_nest -> reachable demo_nest b) /\
  exists t lp, compute demo_nest = Some t /\ containing_loop (compute_loops demo_nest t) 2 = Some lp /\
    forall h lp', get_loop (compute_loops demo_nest t) h = Some lp' -> 2 ∈ body lp' -> body lp ⊆ body lp'.
Proof.
  assert (R : forall b, b ∈ block_order demo_nest -> reachable demo_nest b).
  { pose proof (reachable_entry demo_nest) as R0.
    pose proof (reachable_step demo_nest 0 1 R0 ltac:(by apply list_elem_of_singleton)) as R1.
    pose proof (reachable_step demo_nest 1 2 R1 ltac:(left)) as R2.
    pose proof (reachable_step demo_nest 1 3 R1 ltac:(right; left)) as R3.
    intros b Hb. cbn in Hb. repeat (apply elem_of_cons in Hb as [->|Hb]; [done|]). by apply elem_of_nil in Hb. }
  split; [exact R|].
  destruct (loop_nest_exact demo_nest ltac:(by vm_compute) R) as (t & Ht & _ & _ & Hc). specialize (Hc 2).
  assert (E : is_Some (containing_loop (compute_loops demo_nest (default t (compute demo_nest))) 2)) by (eexists; vm_compute; reflexivity).
  rewrite Ht in E. cbn [from_option Datatypes.id] in E. destruct E as [lp E]. rewrite E in Hc. exists t, lp.
  split; [exact Ht|]. split; [exact E|]. apply Hc.
Defined.
