(* ===== verification/PhisSound.v ===== *)
(** * What phi elimination leaves ([crates/trust-cg-regalloc/src/phi_elim.rs])

    The graph and the code after splitting edges, and the code of every block after
    the copies are inserted and the phis removed. *)

From S2P Require Import Prelude Regs LiveFlow ParCopy Phis.
Local Open Scope nat_scope.

(** ** Lists *)

(** The first position of an element. *)
Fixpoint index {A} `{EqDecision A} (l : list A) (x : A) : option nat :=
  match l with
  | [] => None
  | y :: l => if decide (y = x) then Some 0 else S <$> index l x
  end.

Lemma list_find_index {A} `{EqDecision A} (l : list A) (x : A) :
  list_find (fun y => y = x) l = (fun j => (j, x)) <$> index l x.
Proof.
  induction l as [|y l IH]; cbn; [done|]. case_decide as E; [by subst|]. rewrite IH. by destruct (index l x).
Qed.

Lemma index_Some {A} `{EqDecision A} (l : list A) (x : A) (j : nat) : NoDup l -> index l x = Some j <-> l !! j = Some x.
Proof.
  intros Hnd. revert j. induction l as [|y l IH]; intros j; cbn; [done|]. apply NoDup_cons in Hnd as [Hn Hnd].
  specialize (IH Hnd). case_decide as E.
  - subst y. split; [intros [= <-]; done|]. destruct j; [done|]. cbn. intros Hj. destruct Hn. by eapply list_elem_of_lookup_2.
  - destruct j; cbn; [split; [by destruct (index l x)|intros [= ->]; done]|]. rewrite <- IH. destruct (index l x); cbn; [|done].
    split; [intros [= ->]; done|intros [= ->]; done].
Qed.

Lemma index_None {A} `{EqDecision A} (l : list A) (x : A) : index l x = None <-> x ∉ l.
Proof.
  induction l as [|y l IH]; cbn; [split; [intros _; apply not_elem_of_nil|done]|]. rewrite not_elem_of_cons. case_decide as E.
  - subst. split; [done|]. by intros [].
  - rewrite <- IH. destruct (index l x); cbn; [split; [done|by intros []]|]. split; [by split|done].
Qed.

Lemma index_snoc {A} `{EqDecision A} (l : list A) (e x : A) :
  e ∉ l -> index (l ++ [e]) x = if decide (x = e) then Some (length l) else index l x.
Proof.
  induction l as [|y l IH]; cbn; intros He.
  - repeat case_decide; subst; done.
  - apply not_elem_of_cons in He as [Hne He]. rewrite (IH He). repeat case_decide; subst; done.
Qed.

Lemma fold_alter_lookup {A} `{Inhabited A} (g : A -> A) (ids : list nat) : forall (l : list A) (i : nat),
  NoDup ids -> (forall j, j ∈ ids -> j < length l) ->
  fold_left (fun l j => alter g j l) ids l !!! i = if decide (i ∈ ids) then g (l !!! i) else l !!! i.
Proof.
  induction ids as [|j ids IH]; intros l i Hnd Hb; cbn [fold_left]; [done|].
  apply NoDup_cons in Hnd as [Hj Hnd]. rewrite IH; [|done|intros k Hk; rewrite length_alter; apply Hb; by right].
  assert (Hjl : j < length l) by (apply Hb; left).
  destruct (decide (i = j)) as [->|Hne].
  - rewrite decide_False by done. rewrite decide_True by left. by rewrite list_lookup_total_alter_eq.
  - rewrite list_lookup_total_alter_ne by auto. destruct (decide (i ∈ ids)) as [Hi|Hi].
    + by rewrite decide_True by by right.
    + rewrite decide_False; [done|]. intros [|]%elem_of_cons; done.
Qed.

Lemma fold_alter_length {A} (g : A -> A) (ids : list nat) (l : list A) :
  length (fold_left (fun l j => alter g j l) ids l) = length l.
Proof. revert l. induction ids as [|j ids IH]; intros l; cbn; [done|]. by rewrite IH, length_alter. Qed.

Lemma filter_ext_in {A} (P Q : A -> Prop) `{forall x, Decision (P x), forall x, Decision (Q x)} (l : list A) :
  (forall x, x ∈ l -> P x <-> Q x) -> filter P l = filter Q l.
Proof.
  induction l as [|x l IH]; intros Hx; [done|]. rewrite !filter_cons, IH by (intros; apply Hx; by right).
  pose proof (Hx x ltac:(left)). repeat case_decide; tauto.
Qed.

Lemma filter_fmap {A B} (g : A -> B) (P : B -> Prop) `{forall x, Decision (P x)} (l : list A) :
  filter P (g <$> l) = g <$> filter (fun x => P (g x)) l.
Proof. induction l as [|x l IH]; [done|]. rewrite fmap_cons, !filter_cons, IH. by case_decide. Qed.

Lemma filter_true {A} (P : A -> Prop) `{forall x, Decision (P x)} (l : list A) : (forall x, x ∈ l -> P x) -> filter P l = l.
Proof.
  induction l as [|x l IH]; intros Hx; [done|]. rewrite filter_cons, IH by (intros; apply Hx; by right).
  by rewrite decide_True by (apply Hx; left).
Qed.

Lemma bind_ext_in {A B} (F G : A -> list B) (l : list A) : (forall x, x ∈ l -> F x = G x) -> l ≫= F = l ≫= G.
Proof. induction l as [|x l IH]; intros H; cbn; [done|]. rewrite (H x), IH by (intros; try apply H; by constructor). done. Qed.

Lemma sum_list_app (l l' : list nat) : sum_list (l ++ l') = sum_list l + sum_list l'.
Proof. induction l as [|n l IH]; cbn; [done|]. rewrite IH. lia. Qed.

(** ** Functions with phis *)

(** The code of a block. *)
Definition code (f : RegAllocFunction) (b : nat) : list RegAllocInst := inst f <$> block_insts (block f b).

Definition is_tail (i : RegAllocInst) : bool := contains (flags i) 0x08 || contains (flags i) 0x02 || contains (flags i) 0x04.

(** The destinations of the phis of a block. *)
Definition phi_dests (f : RegAllocFunction) (b : nat) : list VReg :=
  code f b ≫= fun i => if is_phi i then vreg_defs i else [].

(** The operands of all phis, a bound on the copies. *)
Definition phi_operands (f : RegAllocFunction) : nat :=
  sum_list ((fun b => length (filter (fun i => is_phi i = true) (code f b)) * length (preds (block f b))) <$> block_order f).

(** What the allocator gets: the recorded edges have no duplicates and are converse;
    a phi defines one register, has a register for every predecessor and is not a
    terminator; the phis of a block define distinct registers; the terminators of
    a block with one successor read and write no virtual register; the counter is
    above all registers and has room for the temporaries. *)
Record phi_wf (f : RegAllocFunction) : Prop := mkPhiWf {
  pw_func : wf_func f;
  pw_succs : forall b, b ∈ block_order f -> NoDup (succs (block f b));
  pw_preds : forall b, b ∈ block_order f -> NoDup (preds (block f b));
  pw_edges : forall p b, b ∈ block_order f -> p ∈ preds (block f b) <-> p ∈ block_order f /\ b ∈ succs (block f p);
  pw_phis : forall b i, b ∈ block_order f -> i ∈ code f b -> is_phi i = true ->
    is_tail i = false /\ (exists d, defs i = [VRegOp d]) /\
    forall k, k < length (preds (block f b)) -> exists s, uses i !! k = Some (VRegOp s);
  pw_dests : forall b, b ∈ block_order f -> NoDup (phi_dests f b);
  pw_vregs : forall b i v, b ∈ block_order f -> i ∈ code f b -> v ∈ vreg_defs i ++ vreg_uses i -> (id v < next_vreg f)%Z;
  pw_tails : forall b i, b ∈ block_order f -> length (succs (block f b)) <= 1 -> i ∈ code f b -> is_tail i = true ->
    vreg_defs i = [] /\ vreg_uses i = [];
  pw_room : (next_vreg f + Z.of_nat (phi_operands f) < 2 ^ 32)%Z }.

Lemma uses_blocks r i : vreg_uses (map_blocks r i) = vreg_uses i.
Proof. unfold vreg_uses. cbn. induction (uses i) as [|[] l IH]; cbn; rewrite ?IH; done. Qed.

(** ** Splitting *)

Section Split.
Context (f : RegAllocFunction) (Hwf : phi_wf f).

Abbreviation nb := (length (blocks f)).
Abbreviation ni := (length (insts f)).

(** A successor or a predecessor after the edges [E] are split. *)
Definition ren_succ (E : list (nat * nat)) (b s : nat) : nat := from_option (Nat.add nb) s (index E (b, s)).
Definition ren_pred (E : list (nat * nat)) (b p : nat) : nat := from_option (Nat.add nb) p (index E (p, b)).

Record split_ok (E : list (nat * nat)) (g : RegAllocFunction) : Prop := mkSplitOk {
  so_blocks : length (blocks g) = nb + length E;
  so_insts : length (insts g) = ni + length E;
  so_old : forall b, b < nb -> block g b = mkRBlock (block_insts (block f b)) (ren_pred E b <$> preds (block f b))
             (ren_succ E b <$> succs (block f b)) (loop_depth (block f b));
  so_new : forall j p d, E !! j = Some (p, d) -> block g (nb + j) = mkRBlock [ni + j] [p] [d] (loop_depth (block f d));
  so_inst : forall b i, b ∈ block_order f -> i ∈ block_insts (block f b) -> inst g i = map_blocks (ren_succ E b) (inst f i);
  so_jump : forall j p d, E !! j = Some (p, d) -> inst g (ni + j) = jump_inst d;
  so_nodup : NoDup (block_order g);
  so_order : forall x, x ∈ block_order g <-> x ∈ block_order f \/ nb <= x < nb + length E;
  so_entry : entry_block g = entry_block f;
  so_vreg : next_vreg g = next_vreg f }.

Lemma map_blocks_id i : map_blocks (fun b => b) i = i.
Proof.
  destruct i. unfold map_blocks. cbn. f_equal. rewrite <- (list_fmap_id uses) at 2. apply list_fmap_ext. intros ? [] _; done.
Qed.

Lemma map_blocks_comp r r' i : map_blocks r' (map_blocks r i) = map_blocks (r' ∘ r) i.
Proof. unfold map_blocks. cbn. f_equal. rewrite <- list_fmap_compose. apply list_fmap_ext. intros ? [] _; done. Qed.

Lemma map_blocks_ext r r' i : (forall b, r b = r' b) -> map_blocks r i = map_blocks r' i.
Proof. intros E. unfold map_blocks. f_equal. apply list_fmap_ext. intros ? [] _; cbn; by rewrite ?E. Qed.

Lemma split_ok_nil : split_ok [] f.
Proof.
  split; cbn; try done; try lia.
  - intros b Hb. destruct (block f b); cbn. f_equal; by rewrite list_fmap_id.
  - intros b i _ _. by rewrite map_blocks_id.
  - apply (order_nodup _ (pw_func _ Hwf)).
  - intros x. split; [by left|]. intros [|]; [done|lia].
Qed.

Lemma ren_succ_snoc E p d b s : (p, d) ∉ E -> d < nb ->
  ren_succ (E ++ [(p, d)]) b s = if decide (b = p) then replace d (nb + length E) (ren_succ E b s) else ren_succ E b s.
Proof.
  intros He Hd. unfold ren_succ. rewrite index_snoc by done. case_decide as E1.
  - injection E1 as -> ->. rewrite decide_True by done. rewrite (proj2 (index_None E (p, d))) by done. cbn. unfold replace.
    by rewrite decide_True.
  - destruct (decide (b = p)) as [->|]; [|done]. unfold replace. rewrite decide_False; [done|].
    destruct (index E (p, s)) as [j|]; cbn; [lia|]. intros ->. done.
Qed.

Lemma ren_pred_snoc E p d b q : (p, d) ∉ E -> p < nb ->
  ren_pred (E ++ [(p, d)]) b q = if decide (b = d) then replace p (nb + length E) (ren_pred E b q) else ren_pred E b q.
Proof.
  intros He Hd. unfold ren_pred. rewrite index_snoc by done. case_decide as E1.
  - injection E1 as -> ->. rewrite decide_True by done. rewrite (proj2 (index_None E (p, d))) by done. cbn. unfold replace.
    by rewrite decide_True.
  - destruct (decide (b = d)) as [->|]; [|done]. unfold replace. rewrite decide_False; [done|].
    destruct (index E (q, d)) as [j|]; cbn; [lia|]. intros ->. done.
Qed.

(** One split, block by block. *)
Lemma split_edge_block g p d b : p < length (blocks g) -> d < length (blocks g) -> b < length (blocks g) ->
  let N := length (blocks g) in
  block (split_edge g (p, d)) b =
    mkRBlock (block_insts (block g b))
      (if decide (b = d) then replace p N <$> preds (block g b) else preds (block g b))
      (if decide (b = p) then replace d N <$> succs (block g b) else succs (block g b)) (loop_depth (block g b)).
Proof.
  intros Hp Hd Hb N. unfold block at 1, split_edge. cbn [blocks].
  set (new := mkRBlock [_] _ _ _). set (bs := alter _ p (blocks g ++ [new])).
  assert (Ebs : bs !!! b = mkRBlock (block_insts (block g b)) (preds (block g b))
    (if decide (b = p) then replace d N <$> succs (block g b) else succs (block g b)) (loop_depth (block g b))).
  { unfold bs. destruct (decide (b = p)) as [->|Hbp].
    - rewrite list_lookup_total_alter_eq by (rewrite length_app; lia). by rewrite lookup_total_app_l.
    - rewrite list_lookup_total_alter_ne by auto. rewrite lookup_total_app_l by done. fold (block g b). by destruct (block g b). }
  destruct (decide (b = d)) as [->|Hbd].
  - rewrite list_lookup_total_alter_eq by (unfold bs; rewrite length_alter, length_app; lia). by rewrite Ebs.
  - by rewrite list_lookup_total_alter_ne by auto.
Qed.

Lemma split_edge_new g p d : p < length (blocks g) -> d < length (blocks g) ->
  block (split_edge g (p, d)) (length (blocks g)) = mkRBlock [length (insts g)] [p] [d] (loop_depth (block g d)).
Proof.
  intros Hp Hd. unfold block at 1, split_edge. cbn [blocks]. rewrite !list_lookup_total_alter_ne by lia.
  rewrite lookup_total_app_r by done. by rewrite Nat.sub_diag.
Qed.

Lemma split_edge_length g p d :
  length (blocks (split_edge g (p, d))) = S (length (blocks g)) /\ length (insts (split_edge g (p, d))) = S (length (insts g)).
Proof. unfold split_edge. cbn. rewrite fold_alter_length, !length_alter, !length_app. cbn. lia. Qed.

Lemma split_edge_inst g p d i : p < length (blocks g) -> NoDup (block_insts (block g p)) ->
  (forall j, j ∈ block_insts (block g p) -> j < length (insts g)) -> i <= length (insts g) ->
  inst (split_edge g (p, d)) i =
    if decide (i = length (insts g)) then jump_inst d
    else if decide (i ∈ block_insts (block g p)) then map_blocks (replace d (length (blocks g))) (inst g i) else inst g i.
Proof.
  intros Hp Hnd Hb Hi. unfold inst at 1, split_edge. cbn [insts].
  rewrite list_lookup_total_alter_eq by (rewrite length_app; cbn; lia). rewrite lookup_total_app_l by done. cbn [block_insts].
  fold (block g p). rewrite fold_alter_lookup; [|done|intros j Hj; rewrite length_app; specialize (Hb j Hj); lia].
  destruct (decide (i = length (insts g))) as [->|Hne].
  - rewrite decide_False by (intros Hin; specialize (Hb _ Hin); lia). rewrite lookup_total_app_r by done. by rewrite Nat.sub_diag.
  - by rewrite lookup_total_app_l by lia.
Qed.

Lemma split_edge_order g p d : NoDup (block_order g) -> length (blocks g) ∉ block_order g ->
  NoDup (block_order (split_edge g (p, d))) /\
  forall x, x ∈ block_order (split_edge g (p, d)) <-> x ∈ block_order g \/ x = length (blocks g).
Proof.
  intros Hnd Hn. assert (Hp : block_order (split_edge g (p, d)) ≡ₚ length (blocks g) :: block_order g).
  { unfold split_edge. cbn. destruct (list_find _ _) as [[pos ?]|].
    - rewrite <- Permutation_middle. by rewrite take_drop.
    - by rewrite Permutation_app_comm. }
  split; [rewrite Hp; by apply NoDup_cons|]. intros x. rewrite Hp, elem_of_cons. tauto.
Qed.

(** Instructions of laid-out blocks are in one block each. *)
Lemma inst_block b b' i :
  b ∈ block_order f -> b' ∈ block_order f -> i ∈ block_insts (block f b) -> i ∈ block_insts (block f b') -> b = b'.
Proof.
  intros Hb Hb' Hi Hi'. pose proof (insts_nodup _ (pw_func _ Hwf)) as Hnd. destruct (decide (b = b')) as [|Hne]; [done|exfalso].
  apply list_elem_of_split in Hb as (l1 & l2 & E). rewrite E in Hnd, Hb'. rewrite bind_app in Hnd. cbn in Hnd.
  apply NoDup_app in Hnd as (_ & H1 & (_ & H2 & _)%NoDup_app).
  apply elem_of_app in Hb' as [Hb'|[->|Hb']%elem_of_cons]; [|done|].
  - apply (H1 i); [apply list_elem_of_bind; by exists b'|]. apply elem_of_app. by left.
  - apply (H2 i); [done|]. apply list_elem_of_bind. by exists b'.
Qed.

Lemma block_insts_nodup b : b ∈ block_order f -> NoDup (block_insts (block f b)).
Proof.
  intros Hb. pose proof (insts_nodup _ (pw_func _ Hwf)) as Hnd. apply list_elem_of_split in Hb as (l1 & l2 & E).
  rewrite E, bind_app in Hnd. cbn in Hnd. by apply NoDup_app in Hnd as (_ & _ & (Hnd & _ & _)%NoDup_app).
Qed.

Lemma split_step E g p d : split_ok E g -> (p, d) ∉ E -> p ∈ block_order f -> d ∈ block_order f ->
  split_ok (E ++ [(p, d)]) (split_edge g (p, d)).
Proof.
  intros [S1 S2 S3 S4 S5 S6 S7 S8 S9 S10] He Hpo Hdo.
  pose proof (order_bound _ (pw_func _ Hwf) p Hpo) as Hp. pose proof (order_bound _ (pw_func _ Hwf) d Hdo) as Hd.
  destruct (split_edge_length g p d) as [L1 L2].
  assert (Hins : block_insts (block g p) = block_insts (block f p)) by by rewrite S3.
  assert (Hinst : forall i, i <= length (insts g) -> inst (split_edge g (p, d)) i = if decide (i = length (insts g)) then jump_inst d
    else if decide (i ∈ block_insts (block f p)) then map_blocks (replace d (length (blocks g))) (inst g i) else inst g i).
  { intros i Hi. rewrite <- Hins. apply split_edge_inst; [lia|rewrite Hins; by apply block_insts_nodup| |done].
    intros j. rewrite Hins, S2. intros Hj. pose proof (insts_bound _ (pw_func _ Hwf) p j Hpo Hj). lia. }
  destruct (split_edge_order g p d S7) as [O1 O2].
  { rewrite S1, S8. intros [Ho|]; [|lia]. apply (order_bound _ (pw_func _ Hwf)) in Ho. lia. }
  split; rewrite ?length_app; cbn [length].
  - lia.
  - lia.
  - intros b Hb. rewrite split_edge_block, S3 by lia. cbn. f_equal.
    + case_decide as Eb.
      * rewrite <- list_fmap_compose. apply list_fmap_ext. intros ? q _. cbn. rewrite ren_pred_snoc by done.
        by rewrite decide_True, S1.
      * apply list_fmap_ext. intros ? q _. rewrite ren_pred_snoc by done. by rewrite decide_False.
    + case_decide as Eb.
      * rewrite <- list_fmap_compose. apply list_fmap_ext. intros ? q _. cbn. rewrite ren_succ_snoc by done.
        by rewrite decide_True, S1.
      * apply list_fmap_ext. intros ? q _. rewrite ren_succ_snoc by done. by rewrite decide_False.
  - intros j q c Hj. apply lookup_app_Some in Hj as [Hj|[Hlj Hj]].
    + pose proof (lookup_lt_Some _ _ _ Hj). rewrite split_edge_block by lia. rewrite (S4 j q c Hj). cbn.
      rewrite !decide_False; [done|..]; lia.
    + apply list_lookup_singleton_Some in Hj as [Hj [= -> ->]]. replace (nb + j) with (length (blocks g)) by lia.
      rewrite split_edge_new, S2 by lia. rewrite S3 by lia. cbn. do 2 f_equal. lia.
  - intros b i Hb Hi. pose proof (insts_bound _ (pw_func _ Hwf) b i Hb Hi). rewrite Hinst by lia.
    rewrite decide_False by lia. rewrite (S5 b i Hb Hi). case_decide as Eip.
    + assert (b = p) as -> by by apply (inst_block b p i). rewrite map_blocks_comp. apply map_blocks_ext. intros t. cbn.
      rewrite ren_succ_snoc by done. by rewrite decide_True, S1.
    + apply map_blocks_ext. intros t. rewrite ren_succ_snoc by done. rewrite decide_False; [done|]. intros ->. done.
  - intros j q c Hj. apply lookup_app_Some in Hj as [Hj|[Hlj Hj]].
    + pose proof (lookup_lt_Some _ _ _ Hj). rewrite Hinst by lia. rewrite decide_False by lia. rewrite decide_False; [by apply (S6 j q)|].
      intros Hin%(insts_bound _ (pw_func _ Hwf) p); [lia|done].
    + apply list_lookup_singleton_Some in Hj as [Hj [= -> ->]]. rewrite Hinst by lia. by rewrite decide_True by lia.
  - done.
  - intros x. rewrite O2, S8, S1. intuition lia.
  - done.
  - done.
Qed.

Lemma split_fold E' : forall E g, split_ok E g -> NoDup (E ++ E') ->
  (forall e, e ∈ E' -> e.1 ∈ block_order f /\ e.2 ∈ block_order f) -> split_ok (E ++ E') (fold_left split_edge E' g).
Proof.
  induction E' as [|[p d] E' IH]; intros E g Hs Hnd Hin; cbn; [by rewrite app_nil_r|].
  rewrite cons_middle, app_assoc in *. apply IH; [|done|intros e He; apply Hin; by right].
  destruct (Hin (p, d) ltac:(left)). apply split_step; [done| |done|done].
  rewrite <- app_assoc in Hnd. apply NoDup_app in Hnd as (_ & Hnd & _). intros Hpd. apply (Hnd _ Hpd). left.
Qed.

Lemma elem_of_critical p d :
  (p, d) ∈ critical_edges f <->
  p ∈ block_order f /\ d ∈ succs (block f p) /\ 1 < length (succs (block f p)) /\ edge_needs_phi_copy f p d = true.
Proof.
  unfold critical_edges. rewrite list_elem_of_bind. split.
  - intros (b & Hin & Hb). cbn zeta in Hin. destruct (Nat.ltb_spec 1 (length (succs (block f b)))); [|by apply elem_of_nil in Hin].
    apply list_elem_of_fmap in Hin as (s & [= -> ->] & [Hn Hs]%list_elem_of_filter). done.
  - intros (Hp & Hd & Hl & Hn). exists p. split; [|done]. cbn zeta. destruct (Nat.ltb_spec 1 (length (succs (block f p)))); [|lia].
    apply list_elem_of_fmap. exists d. split; [done|]. by apply list_elem_of_filter.
Qed.

Lemma critical_nodup : NoDup (critical_edges f).
Proof.
  unfold critical_edges. apply NoDup_bind; [| |apply (order_nodup _ (pw_func _ Hwf))].
  - intros b b' e _ _. cbn zeta. repeat case_match; intros Hx Hy; try (by apply elem_of_nil in Hx); try (by apply elem_of_nil in Hy).
    revert Hx Hy. intros (s & -> & _)%list_elem_of_fmap (s' & [= ->] & _)%list_elem_of_fmap. done.
  - intros b Hb. cbn zeta. case_match; [|apply NoDup_nil_2]. apply NoDup_fmap_2; [intros ? ? [= ->]; done|].
    apply NoDup_filter. by apply (pw_succs _ Hwf).
Qed.

Lemma split_critical_ok : split_ok (critical_edges f) (split_critical_edges f).2.
Proof.
  apply (split_fold (critical_edges f) [] f split_ok_nil critical_nodup).
  intros [p d] (Hp & Hd & _)%elem_of_critical. split; [done|]. by apply (succs_ordered _ (pw_func _ Hwf) p).
Qed.
End Split.

(** ** Collecting the copies *)

(** The copies of one phi for the predecessor [p], and all copies for [p]. *)
Definition phi_contrib (ps : list nat) (p : nat) (i : RegAllocInst) : list (VReg * VReg) :=
  imap pair ps ≫= fun e : nat * nat => if decide (e.2 = p) then option_list (phi_copy i e.1) else [].

Definition block_contrib (g : RegAllocFunction) (p b : nat) : list (VReg * VReg) :=
  code g b ≫= fun i => if is_phi i then phi_contrib (preds (block g b)) p i else [].

Definition pred_copies (g : RegAllocFunction) (p : nat) : list (VReg * VReg) := block_order g ≫= block_contrib g p.

Definition entry_of {A} (l : list A) : option (list A) := match l with [] => None | _ => Some l end.

Section Collect.
Context (g : RegAllocFunction).

Lemma push_copy_fold i p es : forall m l, m !! p = entry_of l ->
  fold_left (push_copy i) es m !! p = entry_of (l ++ (es ≫= fun e : nat * nat => if decide (e.2 = p) then option_list (phi_copy i e.1) else [])).
Proof.
  induction es as [|[k q] es IH]; intros m l Hm; cbn; [by rewrite app_nil_r|]. unfold push_copy at 2. cbn.
  rewrite app_assoc. apply IH. destruct (phi_copy i k) as [c|]; cbn; [|case_decide; by rewrite app_nil_r].
  case_decide as E; [subst q|by rewrite lookup_insert_ne, app_nil_r by done].
  rewrite lookup_insert_eq, Hm. destruct l; [done|]. cbn. done.
Qed.

Lemma phi_contrib_none ps p i : head (defs i) ≫= as_vreg = None -> phi_contrib ps p i = [].
Proof.
  intros H. unfold phi_contrib. assert (Hn : forall k, phi_copy i k = None) by (intros k; unfold phi_copy; by rewrite H).
  generalize (imap pair ps). intros l. induction l as [|e l IH]; cbn; [done|]. rewrite IH, Hn. by case_decide.
Qed.

Lemma collect_block p b ids : forall st l, copies_by_pred st !! p = entry_of l ->
  copies_by_pred (fold_left (collect_inst g b) ids st) !! p =
    entry_of (l ++ ((inst g <$> ids) ≫= fun i => if is_phi i then phi_contrib (preds (block g b)) p i else [])).
Proof.
  induction ids as [|j ids IH]; intros st l Hm; cbn; [by rewrite app_nil_r|]. rewrite app_assoc. apply IH.
  unfold collect_inst. destruct (is_phi (inst g j)); cbn; [|by rewrite app_nil_r].
  destruct (head (defs (inst g j)) ≫= as_vreg) as [d|] eqn:Ed; cbn.
  - by apply push_copy_fold.
  - by rewrite phi_contrib_none, app_nil_r by done.
Qed.

Lemma collect_copies p : copies_by_pred (collect g) !! p = entry_of (pred_copies g p).
Proof.
  unfold collect, pred_copies.
  assert (H : forall order st l, copies_by_pred st !! p = entry_of l ->
    copies_by_pred (fold_left (fun st b => fold_left (collect_inst g b) (block_insts (block g b)) st) order st) !! p =
      entry_of (l ++ (order ≫= block_contrib g p))).
  { induction order as [|b order IH]; intros st l Hm; cbn; [by rewrite app_nil_r|]. rewrite app_assoc.
    apply IH. by apply collect_block. }
  by rewrite (H (block_order g) _ []) by (cbn; apply lookup_empty).
Qed.

Lemma collect_block_phis b ids : forall st x,
  x ∈ phi_insts_to_remove (fold_left (collect_inst g b) ids st) <->
  x ∈ phi_insts_to_remove st \/
  (x.1 = b /\ x.2 ∈ ids /\ is_phi (inst g x.2) = true /\ is_Some (head (defs (inst g x.2)) ≫= as_vreg)).
Proof.
  induction ids as [|j ids IH]; intros st [b' i]; cbn -[inst].
  - split; [by left|]. intros [|(_ & H & _)]; [done|by apply elem_of_nil in H].
  - rewrite IH. cbn -[inst]. unfold collect_inst. rewrite elem_of_cons. destruct (is_phi (inst g j)) eqn:Ep; cbn -[inst].
    + destruct (head (defs (inst g j)) ≫= as_vreg) as [d|] eqn:Ed; cbn -[inst].
      * rewrite elem_of_app, list_elem_of_singleton. split.
        { intros [[|[= -> ->]]|]; [tauto| |tauto]. right. rewrite Ep, Ed. split_and!; eauto. }
        { intros [|(-> & [->|] & ?)]; tauto. }
      * split; [tauto|]. intros [|(-> & [->|] & ? & Hs)]; [tauto| |tauto]. rewrite Ed in Hs. by destruct Hs.
    + split; [tauto|]. intros [|(-> & [->|] & ? & Hs)]; [tauto|congruence|tauto].
Qed.

Lemma collect_phis x : x ∈ phi_insts_to_remove (collect g) <->
  x.1 ∈ block_order g /\ x.2 ∈ block_insts (block g x.1) /\ is_phi (inst g x.2) = true /\ is_Some (head (defs (inst g x.2)) ≫= as_vreg).
Proof.
  unfold collect.
  assert (H : forall order st, x ∈ phi_insts_to_remove (fold_left (fun st b => fold_left (collect_inst g b) (block_insts (block g b)) st) order st) <->
    x ∈ phi_insts_to_remove st \/ (x.1 ∈ order /\ x.2 ∈ block_insts (block g x.1) /\ is_phi (inst g x.2) = true /\ is_Some (head (defs (inst g x.2)) ≫= as_vreg))).
  { induction order as [|b order IH]; intros st; cbn -[inst].
    - split; [by left|]. intros [|[H _]]; [done|by apply elem_of_nil in H].
    - rewrite IH, collect_block_phis, elem_of_cons. split.
      + intros [[|(<- & ?)]|]; tauto.
      + intros [|([<-|] & ?)]; tauto. }
  rewrite H. cbn -[inst]. split; [|tauto]. intros [Hn|]; [by apply elem_of_nil in Hn|done].
Qed.
End Collect.

(** ** Inserting and removing *)

(** The registers of a set of copies. *)
Definition copy_reg (cs : list (VReg * VReg)) (r : VReg) : Prop := exists c, c ∈ cs /\ (r = c.1 \/ r = c.2).

(** [resolved] sequences the copies [cs] with temporaries from [n] to [n']. *)
Definition sequenced (cs : list (VReg * VReg)) (n : Z) (resolved : list (VReg * VReg)) (n' : Z) : Prop :=
  sequentialises id cs n resolved n' /\ exists tau, PhiElimSound.all_known n (copy_reg cs) tau n' resolved.

(** What the elimination needs of its input. *)
Record elim_wf (g : RegAllocFunction) : Prop := mkElimWf {
  ew_nodup : NoDup (block_order g);
  ew_blocks : forall b, b ∈ block_order g -> b < length (blocks g);
  ew_insts : forall b i, b ∈ block_order g -> i ∈ block_insts (block g b) -> i < length (insts g);
  ew_preds : forall b p, b ∈ block_order g -> p ∈ preds (block g b) -> p ∈ block_order g;
  ew_phis : forall b i, b ∈ block_order g -> i ∈ code g b -> is_phi i = true -> is_Some (head (defs i) ≫= as_vreg);
  ew_uniq : NoDup (block_order g ≫= fun b => block_insts (block g b));
  ew_dests : forall p, p ∈ block_order g -> NoDup (pred_copies g p).*1;
  ew_old : forall p, p ∈ block_order g -> Forall (fun c => id c.1 < next_vreg g /\ id c.2 < next_vreg g)%Z (pred_copies g p);
  ew_pos : forall p, p ∈ block_order g -> Forall (fun c => 0 <= id c.1 /\ 0 <= id c.2)%Z (pred_copies g p);
  ew_vreg : (0 <= next_vreg g)%Z;
  ew_room : (next_vreg g + Z.of_nat (sum_list (length ∘ pred_copies g <$> block_order g)) < 2 ^ 32)%Z }.

Section Insert.
Context (g : RegAllocFunction) (Hg : elim_wf g).

Abbreviation pos b := (find_terminator_pos (code g b)).

(** A block with its copies: [ids] are the new instructions. *)
Definition has_copies (h : RegAllocFunction) (b : nat) : Prop :=
  exists ids resolved n n',
    block h b = mkRBlock (take (pos b) (block_insts (block g b)) ++ ids ++ drop (pos b) (block_insts (block g b)))
                  (preds (block g b)) (succs (block g b)) (loop_depth (block g b)) /\
    (forall i, i ∈ ids -> length (insts g) <= i < length (insts h)) /\ inst h <$> ids = copy_inst <$> resolved /\
    (next_vreg g <= n)%Z /\ sequenced (pred_copies g b) n resolved n'.

(** The registers of the copies: old ones, and temporaries below [n] with the
    classes [tau]. *)
Definition new_reg (tau : Z -> RegClass) (n : Z) (r : VReg) : Prop :=
  (exists p, p ∈ block_order g /\ copy_reg (pred_copies g p) r) \/ ((next_vreg g <= id r < n)%Z /\ class r = tau (id r)).

Record inserted (P : list nat) (m : gmap nat (list (VReg * VReg))) (h : RegAllocFunction) : Prop := mkInserted {
  in_map : forall p, m !! p = if decide (p ∈ P) then None else entry_of (pred_copies g p);
  in_insts : insts g `prefix_of` insts h;
  in_order : block_order h = block_order g;
  in_entry : entry_block h = entry_block g;
  in_blocks : length (blocks h) = length (blocks g);
  in_frame : forall b, b ∉ P -> block h b = block g b;
  in_done : forall b, b ∈ P -> has_copies h b;
  in_uniq : NoDup (block_order g ≫= fun b => block_insts (block h b));
  in_bound : forall b i, b ∈ block_order g -> i ∈ block_insts (block h b) -> i < length (insts h);
  in_new : exists tau, forall i, i ∈ insts h -> i ∈ insts g \/ exists c, i = copy_inst c /\ new_reg tau (next_vreg h) c.1 /\ new_reg tau (next_vreg h) c.2;
  in_vreg : (next_vreg g <= next_vreg h <= next_vreg g + Z.of_nat (sum_list (length ∘ pred_copies g <$> P)))%Z }.

Lemma prefix_lookup_total {A} `{Inhabited A} (l l' : list A) (i : nat) : l `prefix_of` l' -> i < length l -> l' !!! i = l !!! i.
Proof. intros [k ->] Hi. by rewrite lookup_total_app_l. Qed.

Lemma has_copies_mono h h' b : has_copies h b -> insts h `prefix_of` insts h' -> block h' b = block h b -> has_copies h' b.
Proof.
  intros (ids & r & n & n' & Hb & Hi & Hc & Hn & Hs) Hp E. exists ids, r, n, n'. rewrite E. split_and!; try done.
  - intros i Hin. specialize (Hi i Hin). apply prefix_length in Hp. lia.
  - rewrite <- Hc. apply list_fmap_ext. intros k i Hk. apply (prefix_lookup_total _ _ i Hp). apply (Hi i). by eapply list_elem_of_lookup_2.
Qed.

Lemma insert_copies_spec h p :
  p < length (blocks g) -> length (blocks h) = length (blocks g) -> block h p = block g p -> insts g `prefix_of` insts h ->
  p ∈ block_order g -> (next_vreg g <= next_vreg h)%Z -> (next_vreg h + Z.of_nat (length (pred_copies g p)) < 2 ^ 32)%Z ->
  exists h', insert_copies h p (pred_copies g p) = Some h' /\ has_copies h' p /\ insts h `prefix_of` insts h' /\
    block_order h' = block_order h /\ entry_block h' = entry_block h /\ length (blocks h') = length (blocks h) /\
    (forall b, b <> p -> block h' b = block h b) /\
    (exists n, block_insts (block h' p) ≡ₚ block_insts (block h p) ++ seq (length (insts h)) n /\ length (insts h') = length (insts h) + n) /\
    (exists tau, forall i, i ∈ insts h' -> i ∈ insts h \/ exists c, i = copy_inst c /\
       PhiElimSound.known (next_vreg h) (copy_reg (pred_copies g p)) tau (next_vreg h') c.1 /\
       PhiElimSound.known (next_vreg h) (copy_reg (pred_copies g p)) tau (next_vreg h') c.2) /\
    (next_vreg h <= next_vreg h' <= next_vreg h + Z.of_nat (length (pred_copies g p)))%Z.
Proof.
  intros Hp Hl Hb Hpre Ho Hv Hroom. unfold insert_copies.
  pose proof (ew_vreg _ Hg) as Hvg.
  destruct (PhiElimSound.resolve_spec (pred_copies g p) (next_vreg h)) as (out & nv & Er & Hs).
  - by apply (ew_dests _ Hg).
  - eapply Forall_impl; [by apply (ew_old _ Hg)|]. cbn. lia.
  - lia.
  - done.
  - destruct (PhiElimSound.resolve_regs (next_vreg h) (copy_reg (pred_copies g p)) (pred_copies g p) out nv) as [tau Htau]; [|lia|done|done|].
    { apply Forall_forall. intros c Hc. split; exists c; tauto. }
    rewrite Er. cbn [mbind option_bind]. eexists. split; [done|]. cbn [insts blocks block_order entry_block next_vreg]. split_and!.
    + assert (Ecode : inst h <$> block_insts (block h p) = code g p).
      { rewrite Hb. apply list_fmap_ext. intros k i Hk. apply (prefix_lookup_total _ _ i Hpre). apply (ew_insts _ Hg p i Ho).
        by eapply list_elem_of_lookup_2. }
      exists (seq (length (insts h)) (length out)), out, (next_vreg h), nv. split_and!; try done; [..|by split; [|exists tau]].
      * unfold block at 1. cbn [blocks]. rewrite list_lookup_total_alter_eq by lia. fold (block h p). by rewrite Ecode, Hb.
      * intros i [Hi1 Hi2]%elem_of_seq. apply prefix_length in Hpre. cbn [insts]. rewrite length_app, length_fmap. lia.
      * apply list_eq. intros k. rewrite !list_lookup_fmap. destruct (decide (k < length out)) as [Hk|Hk].
        { rewrite lookup_seq_lt by done. cbn. destruct (lookup_lt_is_Some_2 out k Hk) as [c Hc]. rewrite Hc. cbn. f_equal.
          unfold inst. cbn. rewrite lookup_total_app_r by lia. apply list_lookup_total_correct.
          rewrite (Nat.add_comm _ k), Nat.add_sub, list_lookup_fmap, Hc. done. }
        { rewrite lookup_seq_ge by lia. by rewrite (lookup_ge_None_2 out) by lia. }
    + by apply prefix_app_r.
    + done.
    + done.
    + by rewrite length_alter.
    + intros b Hne. unfold block. cbn. by rewrite list_lookup_total_alter_ne by auto.
    + exists (length out). rewrite length_app, length_fmap. split; [|done]. unfold block at 1. cbn [blocks].
      rewrite list_lookup_total_alter_eq by lia. cbn [block_insts]. fold (block h p).
      set (k := find_terminator_pos _). rewrite (Permutation_app_comm (seq _ _)), app_assoc. by rewrite take_drop.
    + exists tau. intros i [Hi|(c & -> & Hc)%list_elem_of_fmap]%elem_of_app; [by left|right]. exists c. split; [done|].
      unfold PhiElimSound.all_known in Htau. rewrite Forall_forall in Htau. by apply Htau.
    + apply Hs.
    + apply Hs.
Qed.

(** New instructions keep the instructions of the blocks apart. *)
Lemma uniq_step h h' p n :
  p ∈ block_order g -> (forall b, b <> p -> block h' b = block h b) ->
  block_insts (block h' p) ≡ₚ block_insts (block h p) ++ seq (length (insts h)) n -> length (insts h') = length (insts h) + n ->
  NoDup (block_order g ≫= fun b => block_insts (block h b)) ->
  (forall b i, b ∈ block_order g -> i ∈ block_insts (block h b) -> i < length (insts h)) ->
  NoDup (block_order g ≫= fun b => block_insts (block h' b)) /\
  (forall b i, b ∈ block_order g -> i ∈ block_insts (block h' b) -> i < length (insts h')).
Proof.
  intros Ho Hf Hp Hl Hu Hb. split.
  - pose proof (ew_nodup _ Hg) as Hnd.
    assert (Hperm : (block_order g ≫= fun b => block_insts (block h' b)) ≡ₚ
      (block_order g ≫= fun b => block_insts (block h b)) ++ seq (length (insts h)) n).
    { apply list_elem_of_split in Ho as (l1 & l2 & E). rewrite E in *. apply NoDup_app in Hnd as (_ & H1 & [H2 _]%NoDup_cons).
      rewrite !bind_app, !bind_cons. rewrite Hp.
      rewrite (bind_ext_in (fun b => block_insts (block h' b)) (fun b => block_insts (block h b)) l1), (bind_ext_in (fun b => block_insts (block h' b)) (fun b => block_insts (block h b)) l2).
      - rewrite <- !app_assoc. do 2 f_equiv. apply Permutation_app_comm.
      - intros b Hin. rewrite Hf; [done|]. by intros ->.
      - intros b Hin. rewrite Hf; [done|]. intros ->. apply (H1 p Hin). left. }
    rewrite Hperm. apply NoDup_app. split_and!; [done| |apply NoDup_seq].
    intros i (b & Hi & Hbo)%list_elem_of_bind [Hge _]%elem_of_seq. specialize (Hb b i Hbo Hi). lia.
  - intros b i Hbo Hi. rewrite Hl. destruct (decide (b = p)) as [->|Hne].
    + rewrite Hp in Hi. apply elem_of_app in Hi as [Hi|[_ Hi]%elem_of_seq]; [specialize (Hb p i Hbo Hi)|]; lia.
    + rewrite Hf in Hi by done. specialize (Hb b i Hbo Hi). lia.
Qed.

(** The temporaries of successive calls have different numbers. *)
Lemma new_names h h' p tau' : p ∈ block_order g -> (next_vreg g <= next_vreg h <= next_vreg h')%Z ->
  (exists tau, forall i, i ∈ insts h -> i ∈ insts g \/ exists c, i = copy_inst c /\ new_reg tau (next_vreg h) c.1 /\ new_reg tau (next_vreg h) c.2) ->
  (forall i, i ∈ insts h' -> i ∈ insts h \/ exists c, i = copy_inst c /\
     PhiElimSound.known (next_vreg h) (copy_reg (pred_copies g p)) tau' (next_vreg h') c.1 /\
     PhiElimSound.known (next_vreg h) (copy_reg (pred_copies g p)) tau' (next_vreg h') c.2) ->
  exists tau, forall i, i ∈ insts h' -> i ∈ insts g \/ exists c, i = copy_inst c /\ new_reg tau (next_vreg h') c.1 /\ new_reg tau (next_vreg h') c.2.
Proof.
  intros Ho Hn [tau Hold] Hnew. exists (fun z => if (z <? next_vreg h)%Z then tau z else tau' z).
  assert (H1 : forall r, new_reg tau (next_vreg h) r -> new_reg (fun z => if (z <? next_vreg h)%Z then tau z else tau' z) (next_vreg h') r).
  { intros r [Hr|[Hr Ec]]; [by left|right]. split; [lia|]. by destruct (Z.ltb_spec (id r) (next_vreg h)); [|lia]. }
  assert (H2 : forall r, PhiElimSound.known (next_vreg h) (copy_reg (pred_copies g p)) tau' (next_vreg h') r ->
            new_reg (fun z => if (z <? next_vreg h)%Z then tau z else tau' z) (next_vreg h') r).
  { intros r [Hr|[Hr Ec]]; [left; by exists p|right]. split; [lia|]. by destruct (Z.ltb_spec (id r) (next_vreg h)); [lia|]. }
  intros i [[Hi|(c & -> & Ha & Hb)]%Hold|(c & -> & Ha & Hb)]%Hnew; [by left| |]; right; exists c; auto.
Qed.

Lemma inserted_step P m h p :
  inserted P m h -> p ∉ P -> p ∈ block_order g ->
  (next_vreg g + Z.of_nat (sum_list (length ∘ pred_copies g <$> P)) + Z.of_nat (length (pred_copies g p)) < 2 ^ 32)%Z ->
  exists m' h', insert_step (Some (m, h)) p = Some (m', h') /\ inserted (P ++ [p]) m' h'.
Proof.
  intros [I1 I2 I3 I4 I5 I6 I7 I8 I9 I10 I11] Hp Ho Hroom. unfold insert_step. cbn [mbind option_bind]. rewrite (I1 p), decide_False by done.
  assert (Hin : forall b, b ∈ P ++ [p] <-> b ∈ P \/ b = p) by (intros; by rewrite elem_of_app, list_elem_of_singleton).
  assert (Hsum : sum_list (length ∘ pred_copies g <$> P ++ [p]) = sum_list (length ∘ pred_copies g <$> P) + length (pred_copies g p)).
  { rewrite fmap_app, sum_list_app. cbn. lia. }
  destruct (pred_copies g p) as [|c cs] eqn:Ec; cbn [entry_of].
  - exists m, h. split; [done|]. split; try done.
    + intros q. rewrite I1. destruct (decide (q ∈ P)) as [Hq|Hq], (decide (q ∈ P ++ [p])) as [Hq'|Hq']; try done.
      * destruct Hq'. apply Hin. by left.
      * apply Hin in Hq' as [|Hq']; [done|]. by subst q; rewrite Ec.
    + intros b Hb. apply I6. rewrite Hin in Hb. tauto.
    + intros b [Hb| ->]%Hin; [by apply I7|]. exists [], [], (next_vreg g), (next_vreg g).
      rewrite I6 by done. cbn [app]. rewrite take_drop. split_and!; try done; [by destruct (block g p)|by intros ? ?%elem_of_nil|].
      rewrite Ec. split; [split; [done|cbn; lia]|]. exists (fun _ => Gpr64). constructor.
    + rewrite Hsum. lia.
  - pose proof (ew_blocks _ Hg p Ho) as Hpb. rewrite <- Ec in *.
    destruct (insert_copies_spec h p Hpb I5 (I6 p Hp) I2 Ho ltac:(lia) ltac:(lia)) as (h' & -> & H1 & H2 & H3 & H4 & H5 & H6 & (n & Hn1 & Hn2) & (tau' & Hnew) & H7).
    destruct (uniq_step h h' p n Ho H6 Hn1 Hn2 I8 I9) as [Hu1 Hu2].
    cbn [mbind option_bind]. eexists _, h'. split; [done|]. split.
    + intros q. destruct (decide (q = p)) as [->|Hq].
      * rewrite lookup_delete_eq. rewrite decide_True; [done|]. apply Hin. by right.
      * rewrite lookup_delete_ne by auto. rewrite I1.
        destruct (decide (q ∈ P)) as [Hq1|Hq1], (decide (q ∈ P ++ [p])) as [Hq2|Hq2]; try done; rewrite Hin in Hq2; exfalso; tauto.
    + by etransitivity.
    + congruence.
    + congruence.
    + congruence.
    + intros b Hb. rewrite Hin in Hb. rewrite H6 by tauto. apply I6. tauto.
    + intros b [Hb| ->]%Hin; [|done]. apply (has_copies_mono h); [by apply I7|done|]. apply H6. by intros ->.
    + done.
    + done.
    + apply (new_names h h' p tau'); [done|lia|done|done].
    + rewrite Hsum. lia.
Qed.

Lemma inserted_fold l : forall P m h, inserted P m h -> NoDup (P ++ l) -> (forall p, p ∈ l -> p ∈ block_order g) ->
  (next_vreg g + Z.of_nat (sum_list (length ∘ pred_copies g <$> P ++ l)) < 2 ^ 32)%Z ->
  exists m' h', fold_left insert_step l (Some (m, h)) = Some (m', h') /\ inserted (P ++ l) m' h'.
Proof.
  induction l as [|p l IH]; intros P m h Hi Hnd Hl Hroom; [exists m, h; by rewrite app_nil_r|]. cbn [fold_left].
  assert (Hle : sum_list (length ∘ pred_copies g <$> P) + length (pred_copies g p) <= sum_list (length ∘ pred_copies g <$> P ++ p :: l)).
  { rewrite fmap_app, sum_list_app. cbn. lia. }
  destruct (inserted_step P m h p Hi) as (m1 & h1 & -> & H1).
  - apply NoDup_app in Hnd as (_ & Hnd & _). intros Hp. apply (Hnd p Hp). left.
  - apply Hl. left.
  - lia.
  - rewrite cons_middle, app_assoc in Hnd, Hroom |- *. apply IH; [done|done|intros; apply Hl; by right|done].
Qed.

Lemma inserted_nil : inserted [] (copies_by_pred (collect g)) g.
Proof.
  split; try done.
  - intros p. rewrite decide_False by apply not_elem_of_nil. apply collect_copies.
  - intros b Hb. by apply elem_of_nil in Hb.
  - apply (ew_uniq _ Hg).
  - apply (ew_insts _ Hg).
  - exists (fun _ => Gpr64). intros i Hi. by left.
  - cbn. lia.
Qed.

Lemma pred_copies_laid p : p ∉ block_order g -> pred_copies g p = [].
Proof.
  intros Hp. destruct (pred_copies g p) as [|c l] eqn:E; [done|exfalso]. apply Hp.
  assert (Hc : c ∈ pred_copies g p) by (rewrite E; left). unfold pred_copies, block_contrib, phi_contrib in Hc.
  apply list_elem_of_bind in Hc as (b & (i & Hi & _)%list_elem_of_bind & Hb).
  destruct (is_phi i); [|by apply elem_of_nil in Hi]. apply list_elem_of_bind in Hi as ([k q] & Hq & He). cbn in Hq.
  case_decide; [subst q|by apply elem_of_nil in Hq]. apply elem_of_lookup_imap_1 in He as (j & y & [= -> ->] & Hj).
  apply (ew_preds _ Hg b _ Hb). by eapply list_elem_of_lookup_2.
Qed.

Lemma remove_fold R : forall h b,
  block (fold_left remove_phi R h) b =
    mkRBlock (filter (fun i => (b, i) ∉ R) (block_insts (block h b))) (preds (block h b)) (succs (block h b)) (loop_depth (block h b)) /\
  insts (fold_left remove_phi R h) = insts h /\ block_order (fold_left remove_phi R h) = block_order h /\
  entry_block (fold_left remove_phi R h) = entry_block h /\ next_vreg (fold_left remove_phi R h) = next_vreg h /\
  length (blocks (fold_left remove_phi R h)) = length (blocks h).
Proof.
  induction R as [|[b0 i0] R IH]; intros h b; cbn [fold_left].
  - split_and!; try done. rewrite filter_true by (intros; apply not_elem_of_nil). by destruct (block h b).
  - destruct (IH (remove_phi h (b0, i0)) b) as (-> & -> & -> & -> & -> & ->). split_and!; try done; [|cbn; apply length_alter].
    assert (E : block (remove_phi h (b0, i0)) b = mkRBlock (filter (fun i => (b, i) <> (b0, i0)) (block_insts (block h b)))
      (preds (block h b)) (succs (block h b)) (loop_depth (block h b))).
    { unfold block at 1, remove_phi. cbn. destruct (decide (b0 = b)) as [->|Hne].
      - destruct (decide (b < length (blocks h))) as [Hl|Hl].
        + rewrite list_lookup_total_alter_eq by done. fold (block h b). f_equal. apply list_filter_iff. intros i.
          split; [intros Hi [= ->]; done|intros Hi ->; done].
        + assert (Eb : block h b = mkRBlock [] [] [] 0) by (unfold block; rewrite list_lookup_total_alt, lookup_ge_None_2; [done|lia]).
          rewrite Eb, list_lookup_total_alt, lookup_ge_None_2; [done|]. rewrite length_alter. lia.
      - rewrite list_lookup_total_alter_ne by done. fold (block h b). rewrite filter_true; [by destruct (block h b)|].
        intros i _ [= ? ?]. by subst. }
    rewrite E. cbn. f_equal. rewrite list_filter_filter. apply list_filter_iff. intros i. rewrite not_elem_of_cons. tauto.
Qed.

(** The code of a block after the elimination. *)
Definition lowered (h : RegAllocFunction) (b : nat) : Prop :=
  exists resolved n n',
    code h b = filter (fun i => is_phi i = false) (take (pos b) (code g b)) ++ (copy_inst <$> resolved) ++
               filter (fun i => is_phi i = false) (drop (pos b) (code g b)) /\
    succs (block h b) = succs (block g b) /\
    (next_vreg g <= n)%Z /\ sequenced (pred_copies g b) n resolved n'.

Lemma lowered_block h b R : b ∈ block_order g -> has_copies h b -> insts g `prefix_of` insts h ->
  (forall i, (b, i) ∈ R <-> i ∈ block_insts (block g b) /\ is_phi (inst g i) = true) ->
  lowered (fold_left remove_phi R h) b.
Proof.
  intros Ho (ids & resolved & n & n' & Hb & Hids & Hc & Hn & Hs) Hpre HR.
  destruct (remove_fold R h b) as (Eb & Ei & _). exists resolved, n, n'.
  assert (Ecode : code (fold_left remove_phi R h) b = inst h <$> filter (fun i => (b, i) ∉ R) (block_insts (block h b)))
    by (unfold code, inst; by rewrite Eb, Ei).
  rewrite Ecode, Eb, Hb. cbn [block_insts succs]. split_and!; try done.
  assert (Hold : forall i, i ∈ block_insts (block g b) -> inst h i = inst g i).
  { intros i Hi. apply (prefix_lookup_total _ _ i Hpre). by apply (ew_insts _ Hg b). }
  assert (Hkeep : forall l : list nat, (forall i, i ∈ l -> i ∈ block_insts (block g b)) ->
    inst h <$> filter (fun i => (b, i) ∉ R) l = filter (fun i => is_phi i = false) (inst g <$> l)).
  { intros l Hl. rewrite filter_fmap, (filter_ext_in (fun i => (b, i) ∉ R) (fun i => is_phi (inst g i) = false)).
    - apply list_fmap_ext. intros k i [_ Hi]%list_elem_of_lookup_2%list_elem_of_filter. by apply Hold, Hl.
    - intros i Hi. rewrite HR. destruct (is_phi (inst g i)); split; try done; [intros Hx; destruct Hx; split; [by apply Hl|done]|by intros _ []]. }
  pose proof (take_drop (pos b) (block_insts (block g b))) as Etd.
  rewrite !filter_app, (filter_true _ ids), !fmap_app, Hc, !Hkeep.
  - unfold code. by rewrite fmap_take, fmap_drop.
  - intros i Hi. rewrite <- Etd. apply elem_of_app. by right.
  - intros i Hi. rewrite <- Etd. apply elem_of_app. by left.
  - intros i Hi [Hin _]%HR. apply (ew_insts _ Hg b i Ho) in Hin. specialize (Hids i Hi). lia.
Qed.

(** The elimination succeeds and lowers every block; the arenas stay consistent. *)
Record eliminated (h : RegAllocFunction) : Prop := mkEliminated {
  el_order : block_order h = block_order g;
  el_entry : entry_block h = entry_block g;
  el_blocks : length (blocks h) = length (blocks g);
  el_insts : insts g `prefix_of` insts h;
  el_lowered : forall b, b ∈ block_order g -> lowered h b;
  el_kept : forall b i, b ∈ block_order g -> i ∈ block_insts (block g b) -> inst h i = inst g i;
  el_uniq : NoDup (block_order g ≫= fun b => block_insts (block h b));
  el_bound : forall b i, b ∈ block_order g -> i ∈ block_insts (block h b) -> i < length (insts h);
  el_new : exists tau, forall i, i ∈ insts h -> i ∈ insts g \/ exists c, i = copy_inst c /\ new_reg tau (next_vreg h) c.1 /\ new_reg tau (next_vreg h) c.2;
  el_vreg : (next_vreg g <= next_vreg h)%Z }.

Lemma filter_bind_nodup (F G : nat -> list nat) (l : list nat) :
  (forall b, b ∈ l -> G b `sublist_of` F b) -> NoDup (l ≫= F) -> NoDup (l ≫= G).
Proof.
  intros Hs Hnd. eapply sublist_NoDup; [exact Hnd|]. clear Hnd. induction l as [|b l IH]; cbn; [done|].
  apply sublist_app; [apply Hs; left|]. apply IH. intros x Hx. apply Hs. by right.
Qed.

Lemma eliminate_phis_spec : exists h, eliminate_phis g = Some h /\ eliminated h.
Proof.
  destruct (inserted_fold (block_order g) [] _ _ inserted_nil) as (m & h & E & I).
  - apply (ew_nodup _ Hg).
  - done.
  - apply (ew_room _ Hg).
  - cbn [app] in I. unfold eliminate_phis. rewrite E. cbn [mbind option_bind].
    assert (m = ∅) as ->.
    { apply map_empty. intros p. rewrite (in_map _ _ _ I). case_decide as Hp; [done|]. by rewrite pred_copies_laid. }
    rewrite map_to_list_empty. cbn. eexists. split; [done|]. set (R := phi_insts_to_remove (collect g)).
    pose proof (remove_fold R h) as HR. destruct (HR 0) as (_ & Ei & Eo & Ee & En & El).
    split; rewrite ?Ei, ?Eo, ?Ee, ?En, ?El; try apply I.
    + intros b Hb. apply lowered_block; [done|by apply (in_done _ _ _ I)|apply (in_insts _ _ _ I)|].
      intros i. unfold R. rewrite collect_phis. cbn. split; [tauto|]. intros [Hi Hp]. split_and!; try done.
      apply (ew_phis _ Hg b); [done|by apply (list_elem_of_fmap_2 (inst g))|done].
    + intros b i Hb Hi. unfold inst. rewrite Ei. apply prefix_lookup_total; [apply (in_insts _ _ _ I)|]. by apply (ew_insts _ Hg b).
    + eapply filter_bind_nodup; [|apply (in_uniq _ _ _ I)]. intros b _. destruct (HR b) as (-> & _). cbn. apply sublist_filter.
    + intros b i Hb. destruct (HR b) as (-> & _). cbn. intros [_ Hi]%list_elem_of_filter. by apply (in_bound _ _ _ I b).
Qed.
End Insert.
