(* ===== verification/PhisEdges.v ===== *)
(** * The copies of every edge ([crates/trust-cg-regalloc/src/phi_elim.rs])

    After the critical edges are split, the copies collected for a block are those
    of one edge of the original function: of its only edge, or of the edge it was
    made for. *)

From S2P Require Import Prelude Regs LiveFlow ParCopy Phis PhisSound.
Local Open Scope nat_scope.

(** ** Sums and binds *)

Lemma bind_nil {A B} (F : A -> list B) (l : list A) : (forall x, x ∈ l -> F x = []) -> l ≫= F = [].
Proof. induction l as [|x l IH]; intros H; cbn; [done|]. rewrite (H x), IH by (intros; try apply H; by constructor). done. Qed.

Lemma bind_unique {A B} (F : A -> list B) (l : list A) (k : nat) (d : A) :
  l !! k = Some d -> (forall j y, j <> k -> l !! j = Some y -> F y = []) -> l ≫= F = F d.
Proof.
  revert k. induction l as [|x l IH]; intros [|k] Hk Hu; cbn in *; try done.
  - injection Hk as ->. rewrite bind_nil, app_nil_r; [done|]. intros y [j Hj]%list_elem_of_lookup. by apply (Hu (S j)).
  - rewrite (Hu 0 x) by done. cbn. apply (IH k Hk). intros j y Hj. apply (Hu (S j)). lia.
Qed.

Lemma bind_length {A B} (F : A -> list B) (l : list A) : length (l ≫= F) = sum_list (length ∘ F <$> l).
Proof. induction l as [|x l IH]; cbn; [done|]. by rewrite length_app, IH. Qed.

Lemma sum_le {A} (F G : A -> nat) (l : list A) : (forall x, x ∈ l -> F x <= G x) -> sum_list (F <$> l) <= sum_list (G <$> l).
Proof.
  induction l as [|x l IH]; intros H; cbn; [done|]. pose proof (H x ltac:(left)). specialize (IH ltac:(intros; apply H; by right)).
  cbn in *. lia.
Qed.

Lemma sum_const {A} (n : nat) (l : list A) : sum_list ((fun _ => n) <$> l) = length l * n.
Proof. induction l as [|x l IH]; cbn; [done|]. cbn in IH. lia. Qed.

Lemma sum_plus {A} (F G : A -> nat) (l : list A) : sum_list ((fun x => F x + G x) <$> l) = sum_list (F <$> l) + sum_list (G <$> l).
Proof. induction l as [|x l IH]; cbn; [done|]. cbn in IH. lia. Qed.

Lemma sum_swap {A B} (F : A -> B -> nat) (l : list A) (k : list B) :
  sum_list ((fun x => sum_list (F x <$> k)) <$> l) = sum_list ((fun y => sum_list ((fun x => F x y) <$> l)) <$> k).
Proof.
  induction l as [|x l IH]; cbn; [by rewrite sum_const|]. cbn in IH. rewrite IH.
  rewrite <- (sum_plus (F x)). done.
Qed.

Lemma sum_indicator (l : list nat) (x n : nat) : NoDup l -> sum_list ((fun y => if decide (x = y) then n else 0) <$> l) <= n.
Proof.
  induction l as [|y l IH]; intros Hnd; [cbn; lia|]. apply NoDup_cons in Hnd as [Hy Hnd]. rewrite fmap_cons.
  match goal with |- sum_list (?a :: ?k) <= _ => change (a + sum_list k <= n) end. case_decide as E; [|by apply IH].
  subst y. assert (Hz : sum_list ((fun y => if decide (x = y) then n else 0) <$> l) <= sum_list ((fun _ => 0) <$> l)).
  { apply sum_le. intros z Hz. rewrite decide_False; [done|]. by intros ->. }
  rewrite sum_const in Hz. lia.
Qed.

(** ** The moves of an edge *)

Definition phi_move (k : nat) (i : RegAllocInst) : list (VReg * VReg) :=
  match head (defs i) ≫= as_vreg, uses i !! k ≫= as_vreg with
  | Some d, Some s => [(d, s)]
  | _, _ => []
  end.

(** The phis of [d], on the edge from [p]. *)
Definition edge_moves (f : RegAllocFunction) (p d : nat) : list (VReg * VReg) :=
  match index (preds (block f d)) p with
  | Some k => filter (fun i => is_phi i = true) (code f d) ≫= phi_move k
  | None => []
  end.

Lemma bind_filter {A B} (P : A -> Prop) `{forall x, Decision (P x)} (F : A -> list B) (l : list A) :
  filter P l ≫= F = l ≫= fun x => if decide (P x) then F x else [].
Proof. induction l as [|x l IH]; [done|]. rewrite filter_cons. cbn. case_decide as E; cbn; by rewrite IH. Qed.

Lemma filter_bind {A B} (P : B -> Prop) `{forall x, Decision (P x)} (F : A -> list B) (l : list A) :
  filter P (l ≫= F) = l ≫= fun x => filter P (F x).
Proof. induction l as [|x l IH]; [done|]. cbn. by rewrite filter_app, IH. Qed.

Lemma phi_move_copy k i : filter (fun c : VReg * VReg => c.1 <> c.2) (phi_move k i) = option_list (phi_copy i k).
Proof.
  unfold phi_move, phi_copy. destruct (head (defs i) ≫= as_vreg) as [d|]; [|done]. destruct (uses i !! k ≫= as_vreg) as [s|]; [|done].
  cbn [mbind option_bind]. rewrite filter_cons. cbn [fst snd]. repeat case_decide; subst; done.
Qed.

(** ** After splitting *)

Section Edges.
Context (f : RegAllocFunction) (Hwf : phi_wf f).

Abbreviation nb := (length (blocks f)).
Abbreviation E := (critical_edges f).
Abbreviation g := (split_critical_edges f).2.

Lemma split_facts : split_ok f E g.
Proof. by apply split_critical_ok. Qed.

Lemma order_lt b : b ∈ block_order f -> b < nb.
Proof. apply (order_bound _ (pw_func _ Hwf)). Qed.

Lemma code_old b : b ∈ block_order f -> code g b = map_blocks (ren_succ f E b) <$> code f b.
Proof.
  intros Hb. unfold code. rewrite (so_old _ _ _ split_facts) by by apply order_lt. cbn [block_insts].
  rewrite <- list_fmap_compose. apply list_fmap_ext. intros k i Hk. apply (so_inst _ _ _ split_facts b i Hb).
  by eapply list_elem_of_lookup_2.
Qed.

Lemma code_new j p d : E !! j = Some (p, d) -> code g (nb + j) = [jump_inst d].
Proof.
  intros Hj. unfold code. rewrite (so_new _ _ _ split_facts j p d Hj). cbn [block_insts fmap list_fmap].
  by rewrite (so_jump _ _ _ split_facts j p d Hj).
Qed.

Lemma order_cases x : x ∈ block_order g <-> x ∈ block_order f \/ exists j p d, E !! j = Some (p, d) /\ x = nb + j.
Proof.
  rewrite (so_order _ _ _ split_facts). split; (intros [|H]; [by left|right]).
  - destruct (lookup_lt_is_Some_2 E (x - nb)) as [[p d] Hj]; [lia|]. exists (x - nb), p, d. split; [done|lia].
  - destruct H as (j & p & d & Hj & ->). apply lookup_lt_Some in Hj. lia.
Qed.

Lemma phi_copy_blocks r i k : phi_copy (map_blocks r i) k = phi_copy i k.
Proof.
  unfold phi_copy. cbn [defs map_blocks uses]. rewrite list_lookup_fmap. by destruct (head (defs i) ≫= as_vreg), (uses i !! k) as [[]|].
Qed.

(** The copies that [b] asks from the block [x], when [x] is its predecessor number
    [k] or none. *)
Lemma block_contrib_at b x k : b ∈ block_order f ->
  (forall j q, preds (block f b) !! j = Some q -> ren_pred f E b q = x <-> k = Some j) ->
  (forall j, k = Some j -> is_Some (preds (block f b) !! j)) ->
  block_contrib g x b =
    match k with
    | Some j => filter (fun c : VReg * VReg => c.1 <> c.2) (filter (fun i => is_phi i = true) (code f b) ≫= phi_move j)
    | None => []
    end.
Proof.
  intros Hb Hk Hin. unfold block_contrib. rewrite code_old by done.
  assert (Ep : preds (block g b) = ren_pred f E b <$> preds (block f b)) by by rewrite (so_old _ _ _ split_facts) by by apply order_lt.
  rewrite Ep.
  assert (Hone : forall i, phi_contrib (ren_pred f E b <$> preds (block f b)) x i =
    match k with Some j => option_list (phi_copy i j) | None => [] end).
  { intros i. unfold phi_contrib.
    assert (Hlook : forall j e, imap pair (ren_pred f E b <$> preds (block f b)) !! j = Some e ->
      exists q, preds (block f b) !! j = Some q /\ e = (j, ren_pred f E b q)).
    { intros j e. rewrite list_lookup_imap, list_lookup_fmap. destruct (preds (block f b) !! j) as [q|]; [|done]. intros [= <-]. by exists q. }
    destruct k as [j|].
    - destruct (Hin j eq_refl) as [q Hq]. pose proof (proj2 (Hk j q Hq) eq_refl) as Ex.
      rewrite (bind_unique _ _ j (j, x)).
      + cbn. by rewrite decide_True.
      + rewrite list_lookup_imap, list_lookup_fmap, Hq. cbn. by rewrite Ex.
      + intros j' e Hne (q' & Hq' & ->)%Hlook. cbn. rewrite decide_False; [done|]. intros Hx. apply (Hk j' q' Hq') in Hx. congruence.
    - apply bind_nil. intros e [j Hj]%list_elem_of_lookup. apply Hlook in Hj as (q & Hq & ->). cbn. rewrite decide_False; [done|].
      by intros Hx%(Hk j q Hq). }
  rewrite list_fmap_bind. destruct k as [j|].
  - rewrite filter_bind, bind_filter. apply list_bind_ext; [|done]. intros i. cbn. rewrite Hone, phi_copy_blocks, phi_move_copy.
    change (is_phi (map_blocks (ren_succ f E b) i)) with (is_phi i). by destruct (is_phi i).
  - apply bind_nil. intros i _. cbn. rewrite Hone. by case_match.
Qed.

Abbreviation proper := (filter (fun c : VReg * VReg => c.1 <> c.2)).

Lemma contrib_new j p d x : E !! j = Some (p, d) -> block_contrib g x (nb + j) = [].
Proof. intros Hj. unfold block_contrib. by rewrite (code_new j p d Hj). Qed.

Lemma preds_lt b q : b ∈ block_order f -> q ∈ preds (block f b) -> q < nb.
Proof. intros Hb [Hq _]%(pw_edges _ Hwf); [|done]. by apply order_lt. Qed.

Lemma contrib_old p b : p ∈ block_order f -> b ∈ block_order f ->
  block_contrib g p b = if decide ((p, b) ∈ E) then [] else proper (edge_moves f p b).
Proof.
  intros Hp Hb. rewrite (block_contrib_at b p (if decide ((p, b) ∈ E) then None else index (preds (block f b)) p) Hb).
  - unfold edge_moves. case_decide; [done|]. by destruct (index (preds (block f b)) p).
  - intros j q Hq. unfold ren_pred. case_decide as He.
    + split; [|done]. destruct (index E (q, b)) as [i|] eqn:Ei; cbn; [pose proof (order_lt p Hp); lia|]. intros ->.
      apply index_None in Ei. done.
    + rewrite index_Some by by apply (pw_preds _ Hwf). destruct (index E (q, b)) as [i|] eqn:Ei; cbn.
      * split; [pose proof (order_lt p Hp); lia|]. rewrite Hq. intros [= ->]. apply (index_Some _ _ _ (critical_nodup f Hwf)) in Ei.
        by destruct He; eapply list_elem_of_lookup_2.
      * rewrite Hq. split; [by intros ->|by intros [= ->]].
  - intros j. case_decide; [done|]. rewrite index_Some by by apply (pw_preds _ Hwf). intros ->. done.
Qed.

Lemma contrib_split i p d b : E !! i = Some (p, d) -> b ∈ block_order f ->
  block_contrib g (nb + i) b = if decide (b = d) then proper (edge_moves f p d) else [].
Proof.
  intros Hi Hb. rewrite (block_contrib_at b (nb + i) (if decide (b = d) then index (preds (block f d)) p else None) Hb).
  - unfold edge_moves. case_decide as E1; [subst b|done]. by destruct (index (preds (block f d)) p).
  - intros j q Hq. assert (Hlt : q < nb) by (apply (preds_lt b); [done|by eapply list_elem_of_lookup_2]).
    assert (Hren : ren_pred f E b q = nb + i <-> (q, b) = (p, d)).
    { unfold ren_pred. destruct (index E (q, b)) as [k|] eqn:Ek; cbn.
      - apply (index_Some _ _ _ (critical_nodup f Hwf)) in Ek. split.
        + intros Hk. assert (k = i) as -> by lia. congruence.
        + intros [= -> ->]. f_equal. by eapply NoDup_lookup; [apply (critical_nodup f Hwf)|..].
      - apply index_None in Ek. split; [lia|]. intros [= -> ->]. by destruct Ek; eapply list_elem_of_lookup_2. }
    rewrite Hren. case_decide as E1; [subst b|by split; [intros [= -> ->]|]].
    rewrite index_Some by by apply (pw_preds _ Hwf). rewrite Hq. split; [by intros [= ->]|by intros [= ->]].
  - intros j. case_decide; [subst b|done]. rewrite index_Some by by apply (pw_preds _ Hwf). intros ->. done.
Qed.

Lemma laid_lookup b : b ∈ block_order f -> blocks f !! b = Some (block f b).
Proof. intros Hb. apply list_lookup_lookup_total_lt. by apply order_lt. Qed.

(** An edge that is not split although its source has other successors needs no copy. *)
Lemma unsplit_edge p b : p ∈ block_order f -> b ∈ succs (block f p) -> 1 < length (succs (block f p)) -> (p, b) ∉ E ->
  proper (edge_moves f p b) = [].
Proof.
  intros Hp Hs Hl He. assert (Hb : b ∈ block_order f) by by apply (succs_ordered _ (pw_func _ Hwf) p).
  assert (Hn : edge_needs_phi_copy f p b = false).
  { destruct (edge_needs_phi_copy f p b) eqn:En; [|done]. destruct He. by apply elem_of_critical. }
  unfold edge_needs_phi_copy in Hn. rewrite laid_lookup in Hn by done. rewrite list_find_index in Hn. unfold edge_moves.
  destruct (index (preds (block f b)) p) as [k|]; [|done]. cbn in Hn. rewrite filter_bind. apply bind_nil.
  intros i [Hphi Hi]%list_elem_of_filter. rewrite phi_move_copy. destruct (phi_copy i k) as [c|] eqn:Ec; [exfalso|done].
  apply list_elem_of_fmap in Hi as (id & -> & Hid). rewrite <- not_true_iff_false in Hn. apply Hn, existsb_exists. exists id.
  split; [by apply list_elem_of_In|]. rewrite list_lookup_lookup_total_lt by by apply (insts_bound _ (pw_func _ Hwf) b).
  fold (inst f id). rewrite Hphi, Ec. by rewrite bool_decide_true.
Qed.

(** The copies collected for a block of the split function. *)
Lemma copies_split i p d : E !! i = Some (p, d) -> pred_copies g (nb + i) = proper (edge_moves f p d).
Proof.
  intros Hi. assert (Hd : d ∈ block_order f).
  { apply list_elem_of_lookup_2, elem_of_critical in Hi as (Hp & Hd & _). by apply (succs_ordered _ (pw_func _ Hwf) p). }
  assert (Hg : d ∈ block_order g) by (apply order_cases; by left). apply list_elem_of_lookup in Hg as [k Hk].
  unfold pred_copies. rewrite (bind_unique _ _ k d Hk).
  - by rewrite (contrib_split i p d d Hi Hd), decide_True.
  - intros j b Hj Hb. pose proof (list_elem_of_lookup_2 _ _ _ Hb) as Hb'. apply order_cases in Hb' as [Hb'|(i' & p' & d' & Hi' & ->)].
    + rewrite (contrib_split i p d b Hi Hb'), decide_False; [done|]. intros ->. apply Hj.
      by eapply NoDup_lookup; [apply (so_nodup _ _ _ split_facts)|..].
    + by apply (contrib_new i' p' d').
Qed.

Lemma copies_none p : p ∈ block_order f ->
  (forall b, b ∈ succs (block f p) -> (p, b) ∈ E \/ proper (edge_moves f p b) = []) -> pred_copies g p = [].
Proof.
  intros Hp Hs. unfold pred_copies. apply bind_nil. intros b [Hb|(i & p' & d' & Hi & ->)]%order_cases; [|by apply (contrib_new i p' d')].
  rewrite contrib_old by done. case_decide as He; [done|]. destruct (decide (b ∈ succs (block f p))) as [Hb'|Hb'].
  - by destruct (Hs b Hb').
  - unfold edge_moves. rewrite (proj2 (index_None (preds (block f b)) p)); [done|]. intros Hin. by apply (pw_edges _ Hwf) in Hin as [_ Hin].
Qed.

Lemma single_not_split p d : length (succs (block f p)) <= 1 -> (p, d) ∉ E.
Proof. intros Hl (_ & _ & H & _)%elem_of_critical. lia. Qed.

Lemma copies_single p d : p ∈ block_order f -> succs (block f p) = [d] -> pred_copies g p = proper (edge_moves f p d).
Proof.
  intros Hp Es. assert (Hd : d ∈ block_order f) by (apply (succs_ordered _ (pw_func _ Hwf) p); [done|rewrite Es; left]).
  assert (Hn : forall b, (p, b) ∉ E) by (intros b; apply single_not_split; rewrite Es; cbn; lia).
  assert (Hg : d ∈ block_order g) by (apply order_cases; by left). apply list_elem_of_lookup in Hg as [k Hk].
  unfold pred_copies. rewrite (bind_unique _ _ k d Hk).
  - by rewrite (contrib_old p d Hp Hd), decide_False.
  - intros j b Hj Hb. pose proof (list_elem_of_lookup_2 _ _ _ Hb) as Hb'. apply order_cases in Hb' as [Hb'|(i' & p' & d' & Hi' & ->)].
    + rewrite contrib_old by done. rewrite decide_False by done. unfold edge_moves.
      rewrite (proj2 (index_None (preds (block f b)) p)); [done|]. intros [_ Hin]%(pw_edges _ Hwf); [|done].
      rewrite Es in Hin. apply list_elem_of_singleton in Hin as ->. apply Hj.
      by eapply NoDup_lookup; [apply (so_nodup _ _ _ split_facts)|..].
    + by apply (contrib_new i' p' d').
Qed.

Lemma copies_multi p : p ∈ block_order f -> length (succs (block f p)) <> 1 -> pred_copies g p = [].
Proof.
  intros Hp Hl. apply copies_none; [done|]. intros b Hb. destruct (decide ((p, b) ∈ E)) as [|He]; [by left|right].
  apply unsplit_edge; [done|done| |done]. destruct (succs (block f p)) as [|? [|]]; [by apply elem_of_nil in Hb|done|cbn; lia].
Qed.

(** The registers of the function. *)
Definition func_reg (v : VReg) : Prop := exists b i, b ∈ block_order f /\ i ∈ code f b /\ v ∈ vreg_defs i ++ vreg_uses i.

Lemma func_reg_bounds v : func_reg v -> (0 <= id v < next_vreg f)%Z.
Proof.
  intros (b & i & Hb & Hi & Hv). split; [|by apply (pw_vregs _ Hwf b i)]. apply list_elem_of_fmap in Hi as (j & -> & Hj).
  apply (vreg_ids _ (pw_func _ Hwf) (inst f j)); [|done]. apply list_elem_of_lookup_total_2. by apply (insts_bound _ (pw_func _ Hwf) b).
Qed.

(** The moves of an edge have distinct destinations and are between such registers. *)
Lemma edge_moves_ok p d : p ∈ block_order f -> d ∈ succs (block f p) ->
  NoDup (edge_moves f p d).*1 /\ Forall (fun c => func_reg c.1 /\ func_reg c.2) (edge_moves f p d).
Proof.
  intros Hp Hd. assert (Ho : d ∈ block_order f) by by apply (succs_ordered _ (pw_func _ Hwf) p). unfold edge_moves.
  destruct (index (preds (block f d)) p) as [k|] eqn:Ek; [|split; [apply NoDup_nil_2|constructor]].
  apply (index_Some _ _ _ (pw_preds _ Hwf d Ho)) in Ek. apply lookup_lt_Some in Ek.
  assert (Hshape : forall i, i ∈ filter (fun i => is_phi i = true) (code f d) -> exists x y, vreg_defs i = [x] /\ phi_move k i = [(x, y)] /\ y ∈ vreg_uses i).
  { intros i [Hphi Hi]%list_elem_of_filter. destruct (pw_phis _ Hwf d i Ho Hi Hphi) as (_ & [x Hx] & Hy). destruct (Hy k Ek) as [y Hy'].
    exists x, y. unfold vreg_defs, phi_move. rewrite Hx, Hy'. split_and!; [done|done|]. unfold vreg_uses.
    apply list_elem_of_omap. exists (VRegOp y). split; [by eapply list_elem_of_lookup_2|done]. }
  split.
  - assert (El : (filter (fun i => is_phi i = true) (code f d) ≫= phi_move k).*1 = phi_dests f d); [|rewrite El; by apply (pw_dests _ Hwf)].
    unfold phi_dests. rewrite (bind_ext_in _ (fun i => if decide (is_phi i = true) then vreg_defs i else []) (code f d)).
    + rewrite <- bind_filter. revert Hshape. generalize (filter (fun i => is_phi i = true) (code f d)). intros l.
      induction l as [|i l IH]; intros Hs; cbn; [done|]. destruct (Hs i ltac:(left)) as (x & y & -> & -> & _). cbn. f_equal.
      apply IH. intros i' Hi'. apply Hs. by right.
    + intros i _. by destruct (is_phi i).
  - apply Forall_forall. intros c (i & Hc & Hi)%list_elem_of_bind. destruct (Hshape i Hi) as (x & y & Ex & Em & Hy). rewrite Em in Hc.
    apply list_elem_of_singleton in Hc as ->. apply list_elem_of_filter in Hi as [_ Hi]. cbn.
    split; exists d, i; (split_and!; [done|done|]); apply elem_of_app; [left; rewrite Ex; left|by right].
Qed.

(** ** The room for temporaries *)

Lemma phi_contrib_sum (X : list nat) (ps : list nat) i : NoDup X -> sum_list ((fun x => length (phi_contrib ps x i)) <$> X) <= length ps.
Proof.
  intros HX. unfold phi_contrib. rewrite <- (length_imap pair ps). generalize (imap pair ps). intros l.
  transitivity (sum_list ((fun x => sum_list ((fun e : nat * nat => if decide (e.2 = x) then 1 else 0) <$> l)) <$> X)).
  - apply sum_le. intros x _. rewrite bind_length. apply sum_le. intros e _. cbn. case_decide; [|done]. destruct (phi_copy i e.1); cbn; lia.
  - rewrite sum_swap. transitivity (sum_list ((fun _ : nat * nat => 1) <$> l)); [|rewrite sum_const; lia].
    apply sum_le. intros e _. by apply sum_indicator.
Qed.

Lemma block_contrib_sum (h : RegAllocFunction) (X : list nat) b : NoDup X ->
  sum_list ((fun x => length (block_contrib h x b)) <$> X) <= length (filter (fun i => is_phi i = true) (code h b)) * length (preds (block h b)).
Proof.
  intros HX. unfold block_contrib.
  rewrite (list_fmap_ext _ (fun x => sum_list ((fun i => length (if is_phi i then phi_contrib (preds (block h b)) x i else [])) <$> code h b)) X)
    by (intros; apply bind_length).
  rewrite sum_swap. generalize (code h b). intros l. induction l as [|i l IH]; [done|]. rewrite fmap_cons, filter_cons.
  match goal with |- sum_list (?a :: ?k) <= _ => change (a + sum_list k <= length (if decide (is_phi i = true) then i :: filter (fun i => is_phi i = true) l
    else filter (fun i => is_phi i = true) l) * length (preds (block h b))) end.
  destruct (is_phi i).
  - rewrite decide_True by done. cbn [length]. pose proof (phi_contrib_sum X (preds (block h b)) i HX). lia.
  - rewrite decide_False by done. rewrite sum_const. cbn. lia.
Qed.

Lemma order_perm : exists news, block_order g ≡ₚ block_order f ++ news /\ forall x, x ∈ news -> exists j p d, E !! j = Some (p, d) /\ x = nb + j.
Proof.
  exists (filter (fun x => x ∉ block_order f) (block_order g)). split.
  - apply NoDup_Permutation.
    + apply (so_nodup _ _ _ split_facts).
    + apply NoDup_app. split_and!; [apply (order_nodup _ (pw_func _ Hwf))| |apply NoDup_filter, (so_nodup _ _ _ split_facts)].
      intros x Hx [Hn _]%list_elem_of_filter. done.
    + intros x. rewrite elem_of_app, list_elem_of_filter, order_cases. destruct (decide (x ∈ block_order f)); tauto.
  - intros x [Hn [|]%order_cases]%list_elem_of_filter; [done|]. done.
Qed.

Lemma sum_list_perm (l l' : list nat) : l ≡ₚ l' -> sum_list l = sum_list l'.
Proof. induction 1; cbn in *; lia. Qed.

Lemma copies_room : sum_list (length ∘ pred_copies g <$> block_order g) <= phi_operands f.
Proof.
  pose proof (so_nodup _ _ _ split_facts) as Hnd. unfold pred_copies, compose.
  rewrite (list_fmap_ext _ (fun x => sum_list ((fun b => length (block_contrib g x b)) <$> block_order g)) (block_order g))
    by (intros; apply bind_length).
  rewrite sum_swap. etransitivity; [apply sum_le; intros b _; by apply (block_contrib_sum g)|].
  destruct order_perm as (news & Hp & Hnews).
  rewrite (sum_list_perm _ _ (fmap_Permutation _ _ _ Hp)), fmap_app, sum_list_app. unfold phi_operands.
  assert (Hz : sum_list ((fun b => length (filter (fun i => is_phi i = true) (code g b)) * length (preds (block g b))) <$> news) <= 0).
  { transitivity (sum_list ((fun _ => 0) <$> news)); [|rewrite sum_const; lia]. apply sum_le. intros x (j & p & d & Hj & ->)%Hnews.
    by rewrite (code_new j p d Hj). }
  assert (Ho : sum_list ((fun b => length (filter (fun i => is_phi i = true) (code g b)) * length (preds (block g b))) <$> block_order f)
    <= sum_list ((fun b => length (filter (fun i => is_phi i = true) (code f b)) * length (preds (block f b))) <$> block_order f)); [|lia].
  apply sum_le. intros b Hb. rewrite code_old, filter_fmap, length_fmap by done.
  rewrite (so_old _ _ _ split_facts) by by apply order_lt. cbn [preds]. by rewrite length_fmap.
Qed.

Lemma copies_cases x : x ∈ block_order g ->
  exists p d, p ∈ block_order f /\ d ∈ succs (block f p) /\ pred_copies g x = proper (edge_moves f p d) \/ pred_copies g x = [].
Proof.
  intros [Hx|(j & p & d & Hj & ->)]%order_cases.
  - destruct (decide (length (succs (block f x)) = 1)) as [H1|H1]; [|exists 0, 0; right; by apply copies_multi].
    destruct (succs (block f x)) as [|d [|]] eqn:Es; try done. exists x, d. left. rewrite Es. split_and!; [done|left|]. by apply copies_single.
  - exists p, d. left. pose proof (list_elem_of_lookup_2 _ _ _ Hj) as He. apply elem_of_critical in He as (Hp & Hd & _).
    split_and!; [done|done|by apply (copies_split j)].
Qed.

Lemma copies_regs x : x ∈ block_order g -> Forall (fun c => func_reg c.1 /\ func_reg c.2) (pred_copies g x).
Proof.
  intros Hx. destruct (copies_cases x Hx) as (p & d & [(Hp & Hd & ->)| ->]); [|constructor].
  destruct (edge_moves_ok p d Hp Hd) as [_ Hold]. rewrite Forall_forall in Hold |- *. intros c [_ Hin]%list_elem_of_filter. by apply Hold.
Qed.

Lemma split_elim_wf : elim_wf g.
Proof.
  pose proof split_facts as Sf.
  split.
  - apply (so_nodup _ _ _ Sf).
  - intros b Hb. rewrite (so_blocks _ _ _ Sf). apply (so_order _ _ _ Sf) in Hb as [Hb|]; [apply order_lt in Hb; lia|lia].
  - intros b i [Hb|(j & p & d & Hj & ->)]%order_cases; rewrite (so_insts _ _ _ Sf).
    + rewrite (so_old _ _ _ Sf) by by apply order_lt. cbn. intros Hi. pose proof (insts_bound _ (pw_func _ Hwf) b i Hb Hi). lia.
    + rewrite (so_new _ _ _ Sf j p d Hj). cbn. intros ->%list_elem_of_singleton. apply lookup_lt_Some in Hj. lia.
  - intros b x [Hb|(j & p & d & Hj & ->)]%order_cases.
    + rewrite (so_old _ _ _ Sf) by by apply order_lt. cbn. intros (q & -> & Hq)%list_elem_of_fmap. unfold ren_pred.
      destruct (index E (q, b)) as [j|] eqn:Ej; cbn; apply order_cases.
      * right. exists j, q, b. split; [|done]. by apply (index_Some _ _ _ (critical_nodup f Hwf)).
      * left. by apply (pw_edges _ Hwf) in Hq as [Hq _].
    + rewrite (so_new _ _ _ Sf j p d Hj). cbn. intros ->%list_elem_of_singleton. apply order_cases. left.
      by apply list_elem_of_lookup_2, elem_of_critical in Hj as (Hp & _).
  - intros b i [Hb|(j & p & d & Hj & ->)]%order_cases.
    + rewrite code_old by done. intros (i' & -> & Hi)%list_elem_of_fmap Hphi. destruct (pw_phis _ Hwf b i' Hb Hi Hphi) as (_ & [x Hx] & _).
      cbn [defs map_blocks]. rewrite Hx. done.
    + rewrite (code_new j p d Hj). by intros ->%list_elem_of_singleton.
  - apply NoDup_bind; [| |apply (so_nodup _ _ _ Sf)].
    + assert (Hold : forall b, b ∈ block_order f -> block_insts (block g b) = block_insts (block f b)).
      { intros b Hb. by rewrite (so_old _ _ _ Sf) by by apply order_lt. }
      intros x y i [Hx|(j & p & d & Hj & ->)]%order_cases [Hy|(j' & p' & d' & Hj' & ->)]%order_cases;
        try rewrite (Hold x Hx); try rewrite (Hold y Hy); try rewrite (so_new _ _ _ Sf _ _ _ Hj); try rewrite (so_new _ _ _ Sf _ _ _ Hj'); cbn [block_insts].
      * by apply (inst_block f Hwf).
      * intros Hi%(insts_bound _ (pw_func _ Hwf)) ->%list_elem_of_singleton; [lia|done].
      * intros ->%list_elem_of_singleton Hi%(insts_bound _ (pw_func _ Hwf)); [lia|done].
      * intros ->%list_elem_of_singleton Hi%list_elem_of_singleton. lia.
    + intros x [Hx|(j & p & d & Hj & ->)]%order_cases.
      * rewrite (so_old _ _ _ Sf) by by apply order_lt. by apply (block_insts_nodup f Hwf).
      * rewrite (so_new _ _ _ Sf j p d Hj). apply NoDup_singleton.
  - intros x Hx. destruct (copies_cases x Hx) as (p & d & [(Hp & Hd & ->)| ->]); [|apply NoDup_nil_2].
    eapply sublist_NoDup; [by apply (edge_moves_ok p d)|]. apply fmap_sublist, sublist_filter.
  - intros x Hx. rewrite (so_vreg _ _ _ Sf). eapply Forall_impl; [by apply copies_regs|]. intros c [H1%func_reg_bounds H2%func_reg_bounds]. lia.
  - intros x Hx. eapply Forall_impl; [by apply copies_regs|]. intros c [H1%func_reg_bounds H2%func_reg_bounds]. lia.
  - rewrite (so_vreg _ _ _ Sf). apply (next_vreg_pos _ (pw_func _ Hwf)).
  - rewrite (so_vreg _ _ _ Sf). pose proof copies_room. pose proof (pw_room _ Hwf). lia.
Qed.
End Edges.
