(* ===== verification/PhisExec.v ===== *)
(** * Phi elimination preserves execution ([crates/trust-cg-regalloc/src/phi_elim.rs])

    A machine with arbitrary instructions runs a block and takes one of its
    successors, by its position in the list; on the way the phis of the successor
    assign their operands for that edge, all at once.  The function after edge
    splitting and phi elimination runs like the original one, with the copies and
    the jumps of the new blocks as ordinary instructions.  Control by position in
    the layout, where a block falls through to the next one, is not modelled. *)

From S2P Require Import Prelude Regs LiveFlow ParCopy Phis PhisSound PhisEdges.
Local Open Scope nat_scope.

Section Semantics.
Context {State Val : Type}.

(** [eff i st uses st' defs]: from the state and the values of the virtual uses to
    the next state and the values of the virtual definitions. *)
Context (eff : RegAllocInst -> State -> list Val -> State -> list Val -> Prop).

(** [branch st b k]: at the end of [b] control goes to its successor number [k]. *)
Context (branch : State -> nat -> nat -> Prop).

Inductive exec : list RegAllocInst -> State -> (VReg -> Val) -> State -> (VReg -> Val) -> Prop :=
  | exec_nil st m : exec [] st m st m
  | exec_cons i l st m st1 vals st' m' :
      eff i st (m <$> vreg_uses i) st1 vals -> length vals = length (vreg_defs i) ->
      exec l st1 (assign m (vreg_defs i) vals) st' m' -> exec (i :: l) st m st' m'.

Abbreviation no_phis := (filter (fun i => is_phi i = false)).

(** From the start of a block, after its phis, to the start of the next one. *)
Inductive step (f : RegAllocFunction) : nat * State * (VReg -> Val) -> nat * State * (VReg -> Val) -> Prop :=
  | step_block b s k st st' m m1 m' :
      exec (no_phis (code f b)) st m st' m1 -> branch st' b k -> succs (block f b) !! k = Some s ->
      (forall v, m' v = par_copies (edge_moves f b s) m1 v) -> step f (b, st, m) (s, st', m').

(** What the copies, the jumps and the block operands of the machine mean. *)
Record machine_ok : Prop := mkMachineOk {
  copy_eff : forall c st v st' vals, eff (copy_inst c) st [v] st' vals <-> st' = st /\ vals = [v];
  jump_eff : forall d st st' vals, eff (jump_inst d) st [] st' vals <-> st' = st /\ vals = [];
  blocks_eff : forall r i st us st' vals, eff (map_blocks r i) st us st' vals <-> eff i st us st' vals }.

(** The stores agree on the registers in [Q]. *)
Definition agree (Q : VReg -> Prop) (m m' : VReg -> Val) : Prop := forall v, Q v -> m v = m' v.

Lemma exec_code_app l l' st m st' m' :
  exec (l ++ l') st m st' m' <-> exists st1 m1, exec l st m st1 m1 /\ exec l' st1 m1 st' m'.
Proof.
  revert st m. induction l as [|i l IH]; intros st m; cbn.
  - split; [intros H; exists st, m; split; [constructor|done]|]. intros (st1 & m1 & H & H'). by inversion H; subst.
  - split.
    + intros H. inversion H as [|? ? ? ? st2 vals ? ? He Hl Hr]; subst. apply IH in Hr as (st1 & m1 & H1 & H2).
      exists st1, m1. split; [by econstructor|done].
    + intros (st1 & m1 & H & H'). inversion H as [|? ? ? ? st2 vals ? ? He Hl Hr]; subst. econstructor; [done|done|].
      apply IH. by exists st1, m1.
Qed.

Lemma assign_regs_agree Q (m m' : VReg -> Val) ds vals : agree Q m m' -> agree Q (assign m ds vals) (assign m' ds vals).
Proof.
  unfold assign. revert m m'. generalize (zip ds vals). intros l. induction l as [|e l IH]; intros m m' H; cbn; [done|].
  apply IH. intros v Hv. cbn. case_decide; [done|by apply H].
Qed.

Lemma exec_agree Q l st m st' m1 mt :
  (forall i v, i ∈ l -> v ∈ vreg_uses i -> Q v) -> agree Q m mt -> exec l st m st' m1 ->
  exists mt1, exec l st mt st' mt1 /\ agree Q m1 mt1.
Proof.
  intros Hu Ha He. revert mt Ha. induction He as [|i l st m st1 vals st' m' Hi Hl He IH]; intros mt Ha.
  - exists mt. split; [constructor|done].
  - destruct (IH ltac:(intros; eapply Hu; [by right|done]) (assign mt (vreg_defs i) vals)) as (mt1 & H1 & H2); [by apply assign_regs_agree|].
    exists mt1. split; [|done]. econstructor; [|done|done].
    rewrite (list_fmap_ext mt m (vreg_uses i)); [done|]. intros k v Hk. symmetry. apply Ha, (Hu i); [left|by eapply list_elem_of_lookup_2].
Qed.

Lemma agree_sym Q m m' : agree Q m m' -> agree Q m' m.
Proof. intros H v Hv. symmetry. by apply H. Qed.

Lemma regs_agree_trans Q m m' m'' : agree Q m m' -> agree Q m' m'' -> agree Q m m''.
Proof. intros H H' v Hv. by rewrite H, H'. Qed.

(** Code that mentions no virtual registers. *)
Lemma exec_closed l st m st' m' mt :
  (forall i, i ∈ l -> vreg_defs i = [] /\ vreg_uses i = []) -> exec l st m st' m' -> m' = m /\ exec l st mt st' mt.
Proof.
  intros Hc He. induction He as [|i l st m st1 vals st' m' Hi Hl He IH]; [split; [done|constructor]|].
  destruct (Hc i ltac:(left)) as [Ed Eu]. destruct IH as [-> H]; [intros; apply Hc; by right|]. rewrite Ed, Eu in *.
  split; [done|]. econstructor; [by rewrite Eu|by rewrite Ed|by rewrite Ed].
Qed.

Context (Hmach : machine_ok).

Lemma exec_blocks r l st m st' m' : exec (map_blocks r <$> l) st m st' m' <-> exec l st m st' m'.
Proof.
  assert (Hd : forall i, vreg_defs (map_blocks r i) = vreg_defs i) by done.
  revert st m. induction l as [|i l IH]; intros st m; [done|]. rewrite fmap_cons. split.
  - intros H. inversion H as [|? ? ? ? st2 vals ? ? He Hl Hr]; subst. rewrite uses_blocks in He. apply (blocks_eff Hmach) in He.
    rewrite Hd in Hl, Hr. econstructor; [done|done|by apply IH].
  - intros H. inversion H as [|? ? ? ? st2 vals ? ? He Hl Hr]; subst. econstructor; [by rewrite uses_blocks; apply (blocks_eff Hmach)|by rewrite Hd|].
    rewrite Hd. by apply IH.
Qed.

Lemma exec_copies cs st m st' m' : exec (copy_inst <$> cs) st m st' m' <-> st' = st /\ m' = run_copies cs m.
Proof.
  revert st m. induction cs as [|c cs IH]; intros st m.
  - split; [intros H; by inversion H|intros [-> ->]; constructor].
  - rewrite fmap_cons. split.
    + intros H. inversion H as [|? ? ? ? st2 vals ? ? He Hl Hr]; subst. cbn in He. apply (copy_eff Hmach) in He as [-> ->]. by apply IH in Hr.
    + intros [-> ->]. econstructor; [cbn; by apply (copy_eff Hmach)|done|]. by apply IH.
Qed.

Lemma exec_jump d st m st' m' : exec [jump_inst d] st m st' m' <-> st' = st /\ m' = m.
Proof.
  split.
  - intros H. inversion H as [|? ? ? ? st2 vals ? ? He Hl Hr]; subst. inversion Hr; subst. cbn in He. apply (jump_eff Hmach) in He as [-> ->]. done.
  - intros [-> ->]. econstructor; [cbn; by apply (jump_eff Hmach)|done|constructor].
Qed.
End Semantics.

(** ** Terminators *)

Lemma is_tail_false i :
  is_tail i = false <-> contains (flags i) 0x08 = false /\ contains (flags i) 0x02 = false /\ contains (flags i) 0x04 = false.
Proof. unfold is_tail. rewrite !orb_false_iff. tauto. Qed.

Lemma tail_part l i : i ∈ drop (find_terminator_pos l) l -> is_tail i = true.
Proof.
  unfold find_terminator_pos. rewrite <- not_false_iff_true, is_tail_false. set (P := fun i : RegAllocInst => _ /\ _ /\ _).
  intros Hi Hp. destruct (list_find P (reverse l)) as [[p x]|] eqn:Ef; cbn in Hi.
  - apply list_find_Some in Ef as (Hx & _ & Hb). pose proof (lookup_lt_Some _ _ _ Hx) as Hlt. rewrite length_reverse in Hlt.
    apply list_elem_of_lookup in Hi as [k Hk]. rewrite lookup_drop in Hk. pose proof (lookup_lt_Some _ _ _ Hk) as Hlk.
    apply (Hb (length l - S (length l - p + k)) i); [|lia|done]. rewrite reverse_lookup by lia. rewrite <- Hk. f_equal. lia.
  - rewrite drop_0 in Hi. apply list_find_None in Ef. rewrite Forall_forall in Ef. apply (Ef i); [|done]. by apply elem_of_reverse.
Qed.

Lemma find_terminator_blocks r l : find_terminator_pos (map_blocks r <$> l) = find_terminator_pos l.
Proof.
  unfold find_terminator_pos. rewrite <- fmap_reverse, list_find_fmap, length_fmap. cbn. by destruct (list_find _ (reverse l)) as [[]|].
Qed.

Lemma par_copies_agree {Val} Q cs (m m' : VReg -> Val) :
  Forall (fun c => Q c.2) cs -> agree Q m m' -> agree Q (par_copies cs m) (par_copies cs m').
Proof.
  intros Hs Ha. induction cs as [|c cs IH]; cbn; [done|]. apply Forall_cons in Hs as [Hc Hs]. intros v Hv. cbn.
  case_decide; [by apply Ha|by apply IH].
Qed.

(** ** The simulation *)

Section Simulation.
Context (f : RegAllocFunction) (Hwf : phi_wf f) (h : RegAllocFunction).
Context (Horder : block_order h = block_order (split_critical_edges f).2).
Context (Hlow : forall b, b ∈ block_order (split_critical_edges f).2 -> lowered (split_critical_edges f).2 h b).

Abbreviation nb := (length (blocks f)).
Abbreviation E := (critical_edges f).
Abbreviation g := (split_critical_edges f).2.
Abbreviation n0 := (next_vreg f).
Abbreviation no_phis := (filter (fun i => is_phi i = false)).

(** A set of registers with those of the function, below the temporaries. *)
Context (Q : VReg -> Prop) (HQold : forall v, Q v -> (id v < n0)%Z) (HQreg : forall v, func_reg f v -> Q v).

Lemma laid_split b : b ∈ block_order f -> b ∈ block_order g.
Proof. intros Hb. apply (order_cases f Hwf). by left. Qed.

Lemma lowered_no_phis b : b ∈ block_order g -> no_phis (code h b) = code h b.
Proof.
  intros Hb. destruct (Hlow b Hb) as (rs & n & n' & -> & _). apply filter_true. intros i.
  rewrite !elem_of_app, !list_elem_of_filter, list_elem_of_fmap. by intros [[]|[(c & -> & _)|[]]].
Qed.

Lemma lowered_moves p b : b ∈ block_order g -> edge_moves h p b = [].
Proof.
  intros Hb. unfold edge_moves. destruct (index _ p) as [k|]; [|done]. apply bind_nil. intros i [Hp Hi]%list_elem_of_filter.
  rewrite <- (lowered_no_phis b Hb) in Hi. apply list_elem_of_filter in Hi as [Hn _]. congruence.
Qed.

(** The copies at the end of a block of the split function. *)
Lemma resolved_agree {Val} b resolved n n' (m : VReg -> Val) :
  (n0 <= n)%Z -> sequenced (pred_copies g b) n resolved n' -> agree Q (run_copies resolved m) (par_copies (pred_copies g b) m).
Proof. intros Hn [[Hs _] _] v Hv%HQold. apply Hs. lia. Qed.

Context {State Val : Type} (eff : RegAllocInst -> State -> list Val -> State -> list Val -> Prop).
Context (branch : State -> nat -> nat -> Prop) (Hmach : machine_ok eff).

(** The code of an original block: its instructions without the phis, in two parts
    with the copies between them. *)
Lemma old_block b : b ∈ block_order f ->
  exists A B resolved, no_phis (code f b) = A ++ B /\
    (forall st m st' m', exec eff (code h b) st m st' m' <-> exec eff (A ++ (copy_inst <$> resolved) ++ B) st m st' m') /\
    (forall i, i ∈ B -> i ∈ code f b /\ is_tail i = true) /\
    succs (block h b) = ren_succ f E b <$> succs (block f b) /\
    forall m : VReg -> Val, agree Q (run_copies resolved m) (par_copies (pred_copies g b) m).
Proof.
  intros Hb. destruct (Hlow b (laid_split b Hb)) as (resolved & n & n' & Hc & Hs & Hn & Hseq).
  rewrite (so_vreg _ _ _ (split_facts f Hwf)) in Hn.
  exists (no_phis (take (find_terminator_pos (code f b)) (code f b))), (no_phis (drop (find_terminator_pos (code f b)) (code f b))), resolved.
  rewrite (code_old f Hwf b Hb), find_terminator_blocks, <- fmap_take, <- fmap_drop, !filter_fmap in Hc. split_and!.
  - by rewrite <- filter_app, take_drop.
  - intros st m st' m'. rewrite Hc, !exec_code_app. setoid_rewrite exec_code_app. setoid_rewrite (exec_blocks eff Hmach). done.
  - intros i [_ Hi]%list_elem_of_filter. split; [|by eapply tail_part].
    rewrite <- (take_drop (find_terminator_pos (code f b)) (code f b)). apply elem_of_app. by right.
  - rewrite Hs. by rewrite (so_old _ _ _ (split_facts f Hwf)) by by apply (order_lt f Hwf).
  - intros m. by eapply resolved_agree.
Qed.

Lemma uses_old b i v : b ∈ block_order f -> i ∈ no_phis (code f b) -> v ∈ vreg_uses i -> Q v.
Proof. intros Hb [_ Hi]%list_elem_of_filter Hv. apply HQreg. exists b, i. split_and!; [done|done|]. apply elem_of_app. by right. Qed.

(** A run of a block with one successor includes the moves of its edge. *)
Lemma run_single b d : b ∈ block_order f -> succs (block f b) = [d] -> forall st (m mt : VReg -> Val) st', agree Q m mt ->
  (forall m1, exec eff (no_phis (code f b)) st m st' m1 ->
    exists mt1, exec eff (code h b) st mt st' mt1 /\ agree Q (par_copies (edge_moves f b d) m1) mt1) /\
  (forall mt1, exec eff (code h b) st mt st' mt1 ->
    exists m1, exec eff (no_phis (code f b)) st m st' m1 /\ agree Q (par_copies (edge_moves f b d) m1) mt1).
Proof.
  intros Hb Es st m mt st' Ha. destruct (old_block b Hb) as (A & B & resolved & EAB & Hx & HB & _ & Hr).
  assert (Hd : d ∈ succs (block f b)) by (rewrite Es; left). destruct (edge_moves_ok f Hwf b d Hb Hd) as [Hnd Hold].
  assert (Hclosed : forall i, i ∈ B -> vreg_defs i = [] /\ vreg_uses i = []).
  { intros i Hi. destruct (HB i Hi) as [Hi' Ht]. apply (pw_tails _ Hwf b i Hb); [rewrite Es; cbn; lia|done|done]. }
  assert (HuA : forall i v, i ∈ A -> v ∈ vreg_uses i -> Q v).
  { intros i v Hi. apply (uses_old b). { done. } rewrite EAB. apply elem_of_app. by left. }
  assert (Hmoves : forall ma mta : VReg -> Val, agree Q ma mta -> agree Q (par_copies (edge_moves f b d) ma) (run_copies resolved mta)).
  { intros ma mta Hma. eapply regs_agree_trans; [|apply agree_sym, Hr]. rewrite (copies_single f Hwf b d Hb Es).
    eapply regs_agree_trans; [eapply par_copies_agree; [|exact Hma]; eapply Forall_impl; [exact Hold|]; intros c [_ Hcq]; by apply HQreg|].
    intros v Hv. symmetry. by apply par_copies_filter. }
  rewrite EAB. split.
  - intros m1 (sta & ma & H1 & H2)%exec_code_app. destruct (exec_agree eff Q A st m sta ma mt HuA Ha H1) as (mta & H3 & H4).
    destruct (exec_closed eff B sta ma st' m1 (run_copies resolved mta) Hclosed H2) as [-> H5].
    exists (run_copies resolved mta). split; [|by apply Hmoves]. apply Hx, exec_code_app. exists sta, mta. split; [done|].
    apply exec_code_app. exists sta, (run_copies resolved mta). split; [by apply (exec_copies eff Hmach)|done].
  - intros mt1 (sta & mta & H1 & (stb & mtb & H2 & H3)%exec_code_app)%Hx%exec_code_app.
    apply (exec_copies eff Hmach) in H2 as [-> ->]. destruct (exec_agree eff Q A st mt sta mta m HuA (agree_sym _ _ _ Ha) H1) as (ma & H4 & H5).
    destruct (exec_closed eff B sta (run_copies resolved mta) st' mt1 ma Hclosed H3) as [-> H6].
    exists ma. split; [apply exec_code_app; by exists sta, ma|]. by apply Hmoves, agree_sym.
Qed.

(** A run of any other block makes no moves. *)
Lemma run_multi b : b ∈ block_order f -> length (succs (block f b)) <> 1 -> forall st (m mt : VReg -> Val) st', agree Q m mt ->
  (forall m1, exec eff (no_phis (code f b)) st m st' m1 -> exists mt1, exec eff (code h b) st mt st' mt1 /\ agree Q m1 mt1) /\
  (forall mt1, exec eff (code h b) st mt st' mt1 -> exists m1, exec eff (no_phis (code f b)) st m st' m1 /\ agree Q m1 mt1).
Proof.
  intros Hb Hl st m mt st' Ha. destruct (old_block b Hb) as (A & B & resolved & EAB & Hx & _ & _ & Hr).
  rewrite (copies_multi f Hwf b Hb Hl) in Hr.
  assert (HuA : forall i v, i ∈ A -> v ∈ vreg_uses i -> Q v).
  { intros i v Hi. apply (uses_old b). { done. } rewrite EAB. apply elem_of_app. by left. }
  assert (HuB : forall i v, i ∈ B -> v ∈ vreg_uses i -> Q v).
  { intros i v Hi. apply (uses_old b). { done. } rewrite EAB. apply elem_of_app. by right. }
  rewrite EAB. split.
  - intros m1 (sta & ma & H1 & H2)%exec_code_app. destruct (exec_agree eff Q A st m sta ma mt HuA Ha H1) as (mta & H3 & H4).
    destruct (exec_agree eff Q B sta ma st' m1 (run_copies resolved mta) HuB) as (mt1 & H5 & H6);
      [eapply regs_agree_trans; [exact H4|apply agree_sym, Hr]|done|].
    exists mt1. split; [|done]. apply Hx, exec_code_app. exists sta, mta. split; [done|].
    apply exec_code_app. exists sta, (run_copies resolved mta). split; [by apply (exec_copies eff Hmach)|done].
  - intros mt1 (sta & mta & H1 & (stb & mtb & H2 & H3)%exec_code_app)%Hx%exec_code_app.
    apply (exec_copies eff Hmach) in H2 as [-> ->]. destruct (exec_agree eff Q A st mt sta mta m HuA (agree_sym _ _ _ Ha) H1) as (ma & H4 & H5).
    destruct (exec_agree eff Q B sta (run_copies resolved mta) st' mt1 ma HuB) as (m1 & H6 & H7);
      [eapply regs_agree_trans; [apply Hr|exact H5]|done|].
    exists m1. split; [apply exec_code_app; by exists sta, ma|]. by apply agree_sym.
Qed.

(** A run of a new block makes the moves of the edge it was made for. *)
Lemma run_split j p d : E !! j = Some (p, d) ->
  succs (block h (nb + j)) = [d] /\
  exists resolved, (forall st (m : VReg -> Val) st' m', exec eff (code h (nb + j)) st m st' m' <-> st' = st /\ m' = run_copies resolved m) /\
  forall m mt : VReg -> Val, agree Q m mt -> agree Q (par_copies (edge_moves f p d) m) (run_copies resolved mt).
Proof.
  intros Hj. assert (Hin : nb + j ∈ block_order g) by (apply (order_cases f Hwf); right; by exists j, p, d).
  destruct (Hlow _ Hin) as (resolved & n & n' & Hc & Hs & Hn & Hseq). rewrite (so_vreg _ _ _ (split_facts f Hwf)) in Hn.
  split; [rewrite Hs; by rewrite (so_new _ _ _ (split_facts f Hwf) j p d Hj)|].
  assert (Ec : code h (nb + j) = (copy_inst <$> resolved) ++ [jump_inst d]) by (rewrite Hc, (code_new f Hwf j p d Hj); done).
  pose proof (list_elem_of_lookup_2 _ _ _ Hj) as (Hp & Hd & _)%elem_of_critical.
  destruct (edge_moves_ok f Hwf p d Hp Hd) as [Hnd Hold]. exists resolved. split.
  - intros st m st' m'. rewrite Ec, exec_code_app. setoid_rewrite (exec_copies eff Hmach). setoid_rewrite (exec_jump eff Hmach). split.
    + by intros (st1 & m1 & [-> ->] & [-> ->]).
    + intros [-> ->]. by exists st, (run_copies resolved m).
  - intros m mt Ha. eapply regs_agree_trans; [|apply agree_sym; by eapply resolved_agree]. rewrite (copies_split f Hwf j p d Hj).
    eapply regs_agree_trans; [eapply par_copies_agree; [|exact Ha]; eapply Forall_impl; [exact Hold|]; intros c [_ Hcq]; by apply HQreg|].
    intros v Hv. symmetry. by apply par_copies_filter.
Qed.

(** A step of the lowered function between its blocks. *)
Lemma step_lowered b s st (m : VReg -> Val) st' m' : b ∈ block_order g -> s ∈ block_order g ->
  step eff branch h (b, st, m) (s, st', m') <->
  exists k m1, exec eff (code h b) st m st' m1 /\ branch st' b k /\ succs (block h b) !! k = Some s /\ forall v, m' v = m1 v.
Proof.
  intros Hb Hs. split.
  - intros H. inversion H as [? ? k ? ? ? m1 ? He Hk Hl Hm]; subst. rewrite (lowered_no_phis b Hb) in He. rewrite (lowered_moves b s Hs) in Hm.
    by exists k, m1.
  - intros (k & m1 & He & Hk & Hl & Hm). econstructor; [by rewrite lowered_no_phis|done|done|]. by rewrite lowered_moves.
Qed.

Lemma ren_cases b s : b ∈ block_order f -> s ∈ succs (block f b) ->
  (ren_succ f E b s = s /\ ((b, s) ∉ E) /\ s ∈ block_order f) \/
  exists j, E !! j = Some (b, s) /\ ren_succ f E b s = nb + j /\ length (succs (block f b)) <> 1.
Proof.
  intros Hb Hs. unfold ren_succ. destruct (index E (b, s)) as [j|] eqn:Ej; cbn.
  - right. apply (index_Some _ _ _ (critical_nodup f Hwf)) in Ej. exists j. split_and!; [done|done|].
    apply list_elem_of_lookup_2, elem_of_critical in Ej as (_ & _ & Hl & _). lia.
  - left. apply index_None in Ej. split_and!; [done|done|]. by apply (succs_ordered _ (pw_func _ Hwf) b).
Qed.

Lemma new_not_laid j : nb + j ∉ block_order f.
Proof. intros H%(order_lt f Hwf). lia. Qed.

(** The moves of an edge that was not split, from a block with other successors. *)
Lemma unsplit_moves b s (m : VReg -> Val) v : b ∈ block_order f -> s ∈ succs (block f b) -> length (succs (block f b)) <> 1 -> (b, s) ∉ E ->
  par_copies (edge_moves f b s) m v = m v.
Proof.
  intros Hb Hs Hl He. destruct (edge_moves_ok f Hwf b s Hb Hs) as [Hnd _]. rewrite <- par_copies_filter by done.
  rewrite (unsplit_edge f Hwf b s Hb Hs); [done| |done]. destruct (succs (block f b)) as [|? [|]]; [by apply elem_of_nil in Hs|done|cbn; lia].
Qed.

Context (Hjumps : forall st x, nb <= x -> branch st x 0).

Lemma forward b s st (m mt : VReg -> Val) st' m' : b ∈ block_order f -> agree Q m mt ->
  step eff branch f (b, st, m) (s, st', m') ->
  (exists mt', agree Q m' mt' /\ step eff branch h (b, st, mt) (s, st', mt')) \/
  (exists x mt1, (x ∉ block_order f) /\ x ∈ block_order g /\ step eff branch h (b, st, mt) (x, st', mt1) /\
     forall mt2, agree Q mt1 mt2 -> exists mt', agree Q m' mt' /\ step eff branch h (x, st', mt2) (s, st', mt')).
Proof.
  intros Hb Ha H. inversion H as [? ? k ? ? ? m1 ? He Hk Hl Hm]; subst. pose proof (list_elem_of_lookup_2 _ _ _ Hl) as Hs.
  assert (Hsg : s ∈ block_order g) by (apply laid_split, (succs_ordered _ (pw_func _ Hwf) b); done).
  destruct (old_block b Hb) as (_ & _ & _ & _ & _ & _ & Esucc & _).
  assert (Hl' : succs (block h b) !! k = Some (ren_succ f E b s)) by by rewrite Esucc, list_lookup_fmap, Hl.
  assert (Hm' : forall mt', agree Q (par_copies (edge_moves f b s) m1) mt' -> agree Q m' mt') by (intros mt' Hag v Hv; rewrite Hm; by apply Hag).
  destruct (decide (length (succs (block f b)) = 1)) as [Hone|Hmulti].
  - assert (Es : succs (block f b) = [s]).
    { destruct (succs (block f b)) as [|x [|]]; try done. destruct k; [by injection Hl as ->|done]. }
    destruct (proj1 (run_single b s Hb Es st m mt st' Ha) m1 He) as (mt1 & H1 & H2). left. exists mt1. split; [by apply Hm'|].
    destruct (ren_cases b s Hb Hs) as [(Er & _)|(j & _ & _ & ?)]; [|done]. rewrite Er in Hl'.
    apply step_lowered; [by apply laid_split|done|]. by exists k, mt1.
  - destruct (proj1 (run_multi b Hb Hmulti st m mt st' Ha) m1 He) as (mt1 & H1 & H2).
    destruct (ren_cases b s Hb Hs) as [(Er & He' & _)|(j & Ej & Er & _)]; rewrite Er in Hl'.
    + left. exists mt1. split; [|apply step_lowered; [by apply laid_split|done|by exists k, mt1]].
      apply Hm'. intros v Hv. rewrite unsplit_moves by done. by apply H2.
    + destruct (run_split j b s Ej) as (Es & resolved & Hx & Hr). right.
      assert (Hjg : nb + j ∈ block_order g) by (apply (order_cases f Hwf); right; by exists j, b, s).
      exists (nb + j), mt1. split_and!; [apply new_not_laid|done| |].
      * apply step_lowered; [by apply laid_split|done|]. by exists k, mt1.
      * intros mt2 Ha2. exists (run_copies resolved mt2). split; [apply Hm', Hr; by eapply regs_agree_trans|].
        apply step_lowered; [done|done|]. exists 0, (run_copies resolved mt2). split_and!; [by apply Hx|apply Hjumps; lia|by rewrite Es|done].
Qed.

Lemma backward b x st (m mt : VReg -> Val) st' mt1 : b ∈ block_order f -> agree Q m mt ->
  step eff branch h (b, st, mt) (x, st', mt1) ->
  x ∈ block_order g /\
  ((x ∈ block_order f /\ exists m', step eff branch f (b, st, m) (x, st', m') /\ agree Q m' mt1) \/
   ((x ∉ block_order f) /\ exists s m', step eff branch f (b, st, m) (s, st', m') /\
      forall mt2 y st2 mt3, agree Q mt1 mt2 -> step eff branch h (x, st', mt2) (y, st2, mt3) -> y = s /\ st2 = st' /\ agree Q m' mt3)).
Proof.
  intros Hb Ha H. destruct (old_block b Hb) as (_ & _ & _ & _ & _ & _ & Esucc & _).
  assert (Hl : exists k, succs (block h b) !! k = Some x) by (inversion H; subst; eauto). destruct Hl as [k0 Hl].
  rewrite Esucc, list_lookup_fmap in Hl. destruct (succs (block f b) !! k0) as [s0|] eqn:El0; [|done]. injection Hl as Ex.
  pose proof (list_elem_of_lookup_2 _ _ _ El0) as Hs0.
  assert (Hxg : x ∈ block_order g).
  { destruct (ren_cases b s0 Hb Hs0) as [(Er & _ & Hs)|(j & Ej & Er & _)]; rewrite Er in Ex; subst x; [by apply laid_split|].
    apply (order_cases f Hwf). right. by exists j, b, s0. }
  split; [done|]. apply step_lowered in H as (k & mt0 & He & Hk & Hl & Hm); [|by apply laid_split|done].
  rewrite Esucc, list_lookup_fmap in Hl. destruct (succs (block f b) !! k) as [s|] eqn:El; [|done]. injection Hl as Ers.
  pose proof (list_elem_of_lookup_2 _ _ _ El) as Hs.
  assert (Hsg : s ∈ block_order g) by (apply laid_split, (succs_ordered _ (pw_func _ Hwf) b); done).
  assert (Hm' : forall m', agree Q m' mt0 -> agree Q m' mt1) by (intros m' Hag v Hv; rewrite Hm; by apply Hag).
  assert (Hstep : forall m1, exec eff (no_phis (code f b)) st m st' m1 ->
    step eff branch f (b, st, m) (s, st', par_copies (edge_moves f b s) m1)) by (intros m1 H1; by econstructor).
  destruct (decide (length (succs (block f b)) = 1)) as [Hone|Hmulti].
  - assert (Es : succs (block f b) = [s]).
    { destruct (succs (block f b)) as [|y [|]]; try done. destruct k; [by injection El as ->|done]. }
    destruct (proj2 (run_single b s Hb Es st m mt st' Ha) mt0 He) as (m1 & H1 & H2).
    destruct (ren_cases b s Hb Hs) as [(Er & _ & Hsl)|(j & _ & _ & ?)]; [|done]. rewrite Er in Ers. subst x. left. split; [done|].
    eexists. split; [by apply Hstep|by apply Hm'].
  - destruct (proj2 (run_multi b Hb Hmulti st m mt st' Ha) mt0 He) as (m1 & H1 & H2).
    destruct (ren_cases b s Hb Hs) as [(Er & He' & Hsl)|(j & Ej & Er & _)]; rewrite Er in Ers; subst x.
    + left. split; [done|]. eexists. split; [by apply Hstep|]. apply Hm'. intros v Hv. rewrite unsplit_moves by done. by apply H2.
    + right. split; [apply new_not_laid|]. exists s. eexists. split; [by apply Hstep|]. intros mt2 y st2 mt3 Ha2 H3.
      destruct (run_split j b s Ej) as (Es & resolved & Hx & Hr).
      assert (Ey : y = s). { inversion H3 as [? ? k' ? ? ? ? ? _ _ Hy _]; subst. rewrite Es in Hy. by apply list_lookup_singleton_Some in Hy as [_ ->]. }
      subst y. apply step_lowered in H3 as (k' & m2 & (-> & ->)%Hx & _ & _ & Hm2); [|done|done]. split_and!; [done|done|].
      intros v Hv. rewrite Hm2. apply Hr; [|done]. eapply regs_agree_trans; [by apply Hm'|done].
Qed.
End Simulation.

(** Branch targets are renamed like the successors. *)
Lemma targets_renamed (f : RegAllocFunction) (Hwf : phi_wf f) (h : RegAllocFunction) :
  eliminated (split_critical_edges f).2 h -> forall b, b ∈ block_order f ->
  exists r, succs (block h b) = r <$> succs (block f b) /\
    forall i, i ∈ block_insts (block f b) -> inst h i = map_blocks r (inst f i).
Proof.
  intros Hel b Hb. pose proof (split_facts f Hwf) as Sf. pose proof (laid_split f Hwf b Hb) as Hbg.
  exists (ren_succ f (critical_edges f) b). split.
  - destruct (el_lowered _ _ Hel b Hbg) as (_ & _ & _ & _ & -> & _). by rewrite (so_old _ _ _ Sf) by by apply (order_lt f Hwf).
  - intros i Hi. rewrite (el_kept _ _ Hel b i Hbg); [by apply (so_inst _ _ _ Sf)|]. by rewrite (so_old _ _ _ Sf) by by apply (order_lt f Hwf).
Qed.

(** The registers that exist before the elimination. *)
Definition old_reg (f : RegAllocFunction) (v : VReg) : Prop := (id v < next_vreg f)%Z.

(** C3: Phi elimination preserves execution.  For a well-formed function and every
    machine in which copies copy, jumps jump and block operands only name targets,
    splitting the critical edges and eliminating the phis succeeds and leaves a
    function without phis, in which the targets of the branches of a block are
    renamed like its successors.  From stores that agree on the registers of the
    original function, a step of the original from block to block, with the
    simultaneous assignments of the phis, is one step of the result, or one into a
    new block and one out of it, to stores that agree again; and every step of the
    result from an original block is such a step, or enters a new block that leads
    only to the end of such a step. *)
Theorem phi_elimination_preserves_execution {State Val : Type} (eff : RegAllocInst -> State -> list Val -> State -> list Val -> Prop)
    (branch : State -> nat -> nat -> Prop) (f : RegAllocFunction) :
  phi_wf f -> machine_ok eff -> (forall st x, length (blocks f) <= x -> branch st x 0) ->
  exists h, lower_phis f = Some h /\ entry_block h = entry_block f /\
  (forall b i, b ∈ block_order h -> i ∈ code h b -> is_phi i = false) /\
  (forall b, b ∈ block_order f -> exists r, succs (block h b) = r <$> succs (block f b) /\
     forall i, i ∈ block_insts (block f b) -> inst h i = map_blocks r (inst f i)) /\
  (forall b st (m mt : VReg -> Val), b ∈ block_order f -> agree (old_reg f) m mt ->
     (forall s st' m', step eff branch f (b, st, m) (s, st', m') ->
        exists mt', agree (old_reg f) m' mt' /\
          (step eff branch h (b, st, mt) (s, st', mt') \/
           exists x mt1, (x ∉ block_order f) /\ step eff branch h (b, st, mt) (x, st', mt1) /\ step eff branch h (x, st', mt1) (s, st', mt'))) /\
     (forall x st' mt1, step eff branch h (b, st, mt) (x, st', mt1) ->
        (x ∈ block_order f /\ exists m', step eff branch f (b, st, m) (x, st', m') /\ agree (old_reg f) m' mt1) \/
        ((x ∉ block_order f) /\ exists s m', step eff branch f (b, st, m) (s, st', m') /\
           forall y st2 mt2, step eff branch h (x, st', mt1) (y, st2, mt2) -> y = s /\ st2 = st' /\ agree (old_reg f) m' mt2))).
Proof.
  intros Hwf Hmach Hjumps. destruct (eliminate_phis_spec _ (split_elim_wf f Hwf)) as (h & Eh & Hel).
  pose proof (el_lowered _ _ Hel) as Hlow. pose proof (split_facts f Hwf) as Sf.
  exists h. split; [done|]. split; [by rewrite (el_entry _ _ Hel), (so_entry _ _ _ Sf)|]. split.
  - intros b i Hb Hi. rewrite (el_order _ _ Hel) in Hb. rewrite <- (lowered_no_phis f h Hlow b Hb) in Hi.
    by apply list_elem_of_filter in Hi as [Hi _].
  - split; [by apply (targets_renamed f Hwf h)|]. intros b st m mt Hb Ha.
    assert (HQ : forall v, func_reg f v -> old_reg f v) by (intros v Hv%(func_reg_bounds f Hwf); by apply Hv).
    split; intros s st' m' Hs.
    + destruct (forward f Hwf h Hlow (old_reg f) (fun _ H => H) HQ eff branch Hmach Hjumps b s st m mt st' m' Hb Ha Hs)
        as [(mt' & H1 & H2)|(x & mt1 & Hx & _ & H1 & H2)]; [exists mt'; split; [done|by left]|].
      destruct (H2 mt1 ltac:(done)) as (mt' & H3 & H4). exists mt'. split; [done|right]. by exists x, mt1.
    + destruct (backward f Hwf h Hlow (old_reg f) (fun _ H => H) HQ eff branch Hmach b s st m mt st' m' Hb Ha Hs)
        as [_ [H|(Hx & s' & m1 & H1 & H2)]]; [by left|right]. split; [done|]. exists s', m1. split; [done|].
      intros y st2 mt2 H. by apply (H2 m').
Qed.

Example demo_swap_lowered :
  (fun f => (block_order f, (fun b => (block_insts b, preds b, succs b)) <$> blocks f, uses <$> drop 7 (insts f), defs <$> drop 7 (insts f)))
    <$> lower_phis demo_swap =
  let v n := VRegOp (mkVReg n Gpr64) in
  Some ([0; 3; 1; 2],
    [([0; 1; 8; 9; 2], [], [1]); ([5], [0; 3], [3; 2]); ([6], [1], []); ([10; 11; 12; 7], [1], [1])],
    [[BlockOp 1]; [v 0%Z]; [v 1%Z]; [v 2%Z]; [v 3%Z]; [v 4%Z]],
    [[]; [v 2%Z]; [v 3%Z]; [v 4%Z]; [v 2%Z]; [v 3%Z]]).
Proof. vm_compute. reflexivity. Qed.

Section Three_blocks.
Context (f : RegAllocFunction) (Horder : block_order f = [0; 1; 2]).

(** Well-formedness, checked block by block. *)
Lemma three_blocks_wf :
  wf_func f ->
  Forall (fun b => NoDup (succs (block f b)) /\ NoDup (preds (block f b)) /\ NoDup (phi_dests f b)) [0; 1; 2] ->
  Forall (fun b => Forall (fun p => p < 3) (preds (block f b)) /\
    Forall (fun p => p ∈ preds (block f b) <-> b ∈ succs (block f p)) [0; 1; 2]) [0; 1; 2] ->
  Forall (fun b => Forall (fun i => is_phi i = true -> is_tail i = false /\ length (defs i) = 1 /\
    vreg_defs i <> [] /\ Forall (fun k => is_Some (uses i !! k ≫= as_vreg)) (seq 0 (length (preds (block f b))))) (code f b)) [0; 1; 2] ->
  Forall (fun b => Forall (fun i => Forall (fun v => id v < next_vreg f)%Z (vreg_defs i ++ vreg_uses i) /\
    (length (succs (block f b)) <= 1 -> is_tail i = true -> vreg_defs i = [] /\ vreg_uses i = [])) (code f b)) [0; 1; 2] ->
  (next_vreg f + Z.of_nat (phi_operands f) < 2 ^ 32)%Z -> phi_wf f.
Proof.
  intros Hwf Hnd He Hphi Hi Hroom. rewrite <- Horder in Hnd, He, Hphi, Hi. rewrite Forall_forall in Hnd, He, Hphi, Hi.
  split; [done| | | | | | | |done].
  - intros b Hb. by apply Hnd.
  - intros b Hb. by apply Hnd.
  - intros p b Hb. destruct (He b Hb) as [Hlt Hiff]. rewrite Forall_forall in Hlt, Hiff. split.
    + intros Hp. assert (Ho : p ∈ block_order f) by (apply Hlt in Hp; rewrite Horder, !elem_of_cons; lia). split; [done|by apply Hiff].
    + intros [Ho Hs]. by apply Hiff.
  - intros b i Hb Hin Hp. specialize (Hphi b Hb). rewrite Forall_forall in Hphi. destruct (Hphi i Hin Hp) as (Ht & Hl & Hd & Hu). split; [done|]. split.
    + destruct (defs i) as [|d [|]] eqn:E; try done. unfold vreg_defs in Hd. rewrite E in Hd. destruct d as [d| | | | |]; try done. by exists d.
    + intros k Hk. rewrite Forall_forall in Hu. destruct (Hu k ltac:(apply elem_of_seq; lia)) as [s Hs].
      apply bind_Some in Hs as ([s'| | | | |] & Ek & Es); try done. by exists s'.
  - intros b Hb. by apply Hnd.
  - intros b i v Hb Hin Hv. specialize (Hi b Hb). rewrite Forall_forall in Hi. destruct (Hi i Hin) as [Hlt _]. rewrite Forall_forall in Hlt. by apply Hlt.
  - intros b i Hb Hl Hin. specialize (Hi b Hb). rewrite Forall_forall in Hi. by apply (Hi i Hin).
Qed.
End Three_blocks.

Lemma demo_swap_wf : phi_wf demo_swap.
Proof. apply three_blocks_wf; [done|apply wf_check_sound; by vm_compute|apply (bool_decide_unpack _); by vm_compute..|by vm_compute]. Qed.

(** The swap loop takes its back edge: the two registers are exchanged. *)
Lemma phi_elimination_preserves_execution_witness :
  let eff (i : RegAllocInst) (st : unit) (us : list Z) (st' : unit) (vals : list Z) :=
    st' = st /\ vals = if decide (opcode i = 0xFFE1%Z) then us else [] in
  let branch (_ : unit) (_ _ : nat) := True in
  phi_wf demo_swap /\ machine_ok eff /\ exists h mt',
    lower_phis demo_swap = Some h /\ mt' (mkVReg 2 Gpr64) = 3%Z /\ mt' (mkVReg 3 Gpr64) = 2%Z /\
    (step eff branch h (1, tt, id) (1, tt, mt') \/
     exists x mt1, (x ∉ block_order demo_swap) /\ step eff branch h (1, tt, id) (x, tt, mt1) /\ step eff branch h (x, tt, mt1) (1, tt, mt')).
Proof.
  intros eff branch. assert (Hm : machine_ok eff).
  { split; unfold eff; cbn; intros; try done. }
  split; [exact demo_swap_wf|]. split; [exact Hm|].
  destruct (phi_elimination_preserves_execution eff branch demo_swap demo_swap_wf Hm ltac:(done)) as (h & Eh & _ & _ & _ & Hsim).
  destruct (Hsim 1 tt id id ltac:(cbn; right; left) ltac:(done)) as [Hf _].
  destruct (Hf 1 tt (par_copies (edge_moves demo_swap 1 1) id)) as (mt' & Ha & Hs).
  - apply (step_block eff branch demo_swap 1 1 0 tt tt id id); [|done|done|done].
    vm_compute filter. eapply (exec_cons eff _ [] tt id tt []); [done|done|constructor].
  - exists h, mt'. split; [exact Eh|]. split; [|split; [|exact Hs]].
    + rewrite <- (Ha (mkVReg 2 Gpr64)) by done. by vm_compute.
    + rewrite <- (Ha (mkVReg 3 Gpr64)) by done. by vm_compute.
Defined.
