(* ===== verification/Spill.v ===== *)
(** * Spill code and spill slots ([crates/trust-cg-regalloc/src]: [spill.rs],
      [spill_slot_reuse.rs], phases 6 and 7 of [lib.rs])

    Every spilled register gets a stack slot, a load before each instruction that
    uses it and a store after each instruction that defines it; slots of one class
    are then shared between registers whose intervals do not overlap. *)

From S2P Require Import Frame.
From S2P Require Import Prelude Regs Liveness LinearScan LiveFlow LiveBuild.
Local Open Scope nat_scope.

Abbreviation PSEUDO_SPILL_STORE := 0xFFF0%Z (only parsing).
Abbreviation PSEUDO_SPILL_LOAD := 0xFFF1%Z (only parsing).

(** A function with its stack slots; [RegAllocStackSlot] has the fields of
    [StackSlot]. *)
Record SpillFunction := mkSFunc {
  sfunc : RegAllocFunction;
  next_stack_slot : Z;
  stack_slots : gmap Z StackSlot }.

Record SpillInfo := mkSpill { spill_vreg : VReg; spill_slot : Z }.

Definition alloc_stack_slot (func : SpillFunction) (sz al : Z) : SpillFunction * Z :=
  let id := next_stack_slot func in
  (mkSFunc (sfunc func) (wrap 32 (id + 1)) (<[id := mkSlot sz al Fixed]> (stack_slots func)), id).

(** ** Spill code ([spill.rs]) *)

Definition reg_class_size (c : RegClass) : Z :=
  match c with
  | Gpr32 | Fpr32 => 4
  | Gpr64 | Fpr64 => 8
  | Fpr128 => 16
  | Fpr16 => 2
  | Fpr8 => 1
  | System => 4
  end.

Definition make_spill_load (v : VReg) (slot : Z) : RegAllocInst :=
  mkRInst PSEUDO_SPILL_LOAD [VRegOp v] [StackSlotOp slot] [] [] 0x40.
Definition make_spill_store (v : VReg) (slot : Z) : RegAllocInst :=
  mkRInst PSEUDO_SPILL_STORE [] [VRegOp v; StackSlotOp slot] [] [] 0x80.

(** The slots of the spilled registers. *)
Definition slot_step (st : SpillFunction * gmap VReg Z * list SpillInfo) (v : VReg)
    : SpillFunction * gmap VReg Z * list SpillInfo :=
  let '(func, vreg_to_slot, spill_infos) := st in
  let size := reg_class_size (class v) in
  let '(func, slot) := alloc_stack_slot func size size in
  (func, <[v := slot]> vreg_to_slot, spill_infos ++ [mkSpill v slot]).

Definition spilled_operands (make : VReg -> Z -> RegAllocInst) (vreg_to_slot : gmap VReg Z) (ops : list RegAllocOperand)
    : list RegAllocInst :=
  omap (fun op => v ← as_vreg op; slot ← vreg_to_slot !! v; Some (make v slot)) ops.

(** Phase 1: the loads before and the stores after every instruction. *)
Definition spill_plan (func : RegAllocFunction) (vreg_to_slot : gmap VReg Z) (b : RegAllocBlock)
    : list (nat * list RegAllocInst * list RegAllocInst) :=
  (fun inst_id =>
     let i := inst func inst_id in
     (inst_id, spilled_operands make_spill_load vreg_to_slot (uses i), spilled_operands make_spill_store vreg_to_slot (defs i)))
  <$> block_insts b.

(** Phase 2: the arena and the new list of a block. *)
Definition apply_entry (st : list RegAllocInst * list nat) (e : nat * list RegAllocInst * list RegAllocInst)
    : list RegAllocInst * list nat :=
  let '(ins, new_insts) := st in
  let '(inst_id, loads, stores) := e in
  let load_ids := seq (length ins) (length loads) in
  let ins := ins ++ loads in
  let store_ids := seq (length ins) (length stores) in
  (ins ++ stores, new_insts ++ load_ids ++ inst_id :: store_ids).

Definition apply_plan (func : RegAllocFunction) (p : nat * list (nat * list RegAllocInst * list RegAllocInst)) : RegAllocFunction :=
  let '(block_idx, plan) := p in
  let '(ins, new_insts) := fold_left apply_entry plan (insts func, []) in
  mkRFunc ins (alter (fun k => mkRBlock new_insts (preds k) (succs k) (loop_depth k)) block_idx (blocks func))
    (block_order func) (entry_block func) (next_vreg func).

Definition insert_spill_code (func : SpillFunction) (spilled_vregs : list VReg) : SpillFunction * list SpillInfo :=
  let '(func, vreg_to_slot, spill_infos) := fold_left slot_step spilled_vregs (func, ∅, []) in
  let block_plans := spill_plan (sfunc func) vreg_to_slot <$> blocks (sfunc func) in
  (mkSFunc (fold_left apply_plan (imap pair block_plans) (sfunc func)) (next_stack_slot func) (stack_slots func), spill_infos).

(** ** Sharing slots ([spill_slot_reuse.rs]) *)

(** The [BTreeMap] of intervals as the association list of [compute_live_intervals]. *)
Definition exact_interval_for_vreg (intervals : list (Z * LiveInterval)) (v : VReg) : option LiveInterval :=
  '(_, e) ← list_find (fun e => e.1 = id v) intervals;
  if decide (vreg e.2 = v) then Some e.2 else None.

Record Reuse := mkReuse { slots_eliminated : Z; slot_rewrites : gmap Z Z }.

Definition color_conflicts (intervals : list (Z * LiveInterval)) (vreg_interval : LiveInterval) (color_vregs : list VReg) : bool :=
  existsb (fun existing_vreg =>
    match exact_interval_for_vreg intervals existing_vreg with
    | Some existing_interval => overlaps existing_interval vreg_interval
    | None => true
    end) color_vregs.

(** The first color without a conflict takes the register. *)
Fixpoint find_color (intervals : list (Z * LiveInterval)) (vreg_interval : LiveInterval) (v : VReg) (colors : list (Z * list VReg))
    : option (Z * list (Z * list VReg)) :=
  match colors with
  | [] => None
  | (color_slot, color_vregs) :: rest =>
      if color_conflicts intervals vreg_interval color_vregs
      then '(slot, rest) ← find_color intervals vreg_interval v rest; Some (slot, (color_slot, color_vregs) :: rest)
      else Some (color_slot, (color_slot, color_vregs ++ [v]) :: rest)
  end.

Definition color_step (intervals : list (Z * LiveInterval)) (st : Reuse * list (Z * list VReg)) (s : SpillInfo)
    : Reuse * list (Z * list VReg) :=
  let '(result, colors) := st in
  let v := spill_vreg s in
  let original_slot := spill_slot s in
  match exact_interval_for_vreg intervals v with
  | None => (result, colors ++ [(original_slot, [v])])
  | Some vreg_interval =>
      match find_color intervals vreg_interval v colors with
      | Some (color_slot, colors) =>
          (if decide (original_slot <> color_slot)
           then mkReuse (wrap 32 (slots_eliminated result + 1)) (<[original_slot := color_slot]> (slot_rewrites result))
           else result, colors)
      | None => (result, colors ++ [(original_slot, [v])])
      end
  end.

(** The groups, in the order of the classes. *)
Definition reg_classes : list RegClass := [Gpr64; Gpr32; Fpr128; Fpr64; Fpr32; Fpr16; Fpr8; System].

Definition compute_spill_slot_reuse (spill_infos : list SpillInfo) (intervals : list (Z * LiveInterval)) : Reuse :=
  fold_left (fun result c =>
    (fold_left (color_step intervals) (filter (fun s => class (spill_vreg s) = c) spill_infos) (result, [])).1)
    reg_classes (mkReuse 0 ∅).

Definition rewrite_slot (rewrites : gmap Z Z) (op : RegAllocOperand) : RegAllocOperand :=
  match op with StackSlotOp slot => StackSlotOp (default slot (rewrites !! slot)) | _ => op end.

Definition rewrite_inst (rewrites : gmap Z Z) (i : RegAllocInst) : RegAllocInst :=
  mkRInst (opcode i) (rewrite_slot rewrites <$> defs i) (rewrite_slot rewrites <$> uses i) (implicit_defs i) (implicit_uses i) (flags i).

Definition referenced_stack_slots (func : RegAllocFunction) : gset Z :=
  list_to_set (insts func ≫= fun i => omap (fun op => match op with StackSlotOp slot => Some slot | _ => None end) (defs i ++ uses i)).

Definition prune_rewritten_stack_slots (func : RegAllocFunction) (rewrites : gmap Z Z) (slots : gmap Z StackSlot) : gmap Z StackSlot :=
  filter (fun p => p.1 ∈ dom rewrites -> p.1 ∈ referenced_stack_slots func) slots.

Definition apply_spill_slot_reuse (func : SpillFunction) (rewrites : gmap Z Z) : SpillFunction :=
  if decide (rewrites = ∅) then func
  else
    let f := sfunc func in
    let f := mkRFunc (rewrite_inst rewrites <$> insts f) (blocks f) (block_order f) (entry_block f) (next_vreg f) in
    mkSFunc f (next_stack_slot func) (prune_rewritten_stack_slots f rewrites (stack_slots func)).

(** ** Phases 6 and 7 of [allocate_core] ([lib.rs]) *)

Definition spill_slot_size (c : RegClass) : Z :=
  match c with
  | Gpr32 | Fpr32 => 4
  | Gpr64 | Fpr64 => 8
  | Fpr128 => 16
  | Fpr16 => 2
  | Fpr8 => 1
  | System => 4
  end.

Definition allocate_spill_slots (func : SpillFunction) (spilled : list VReg) : SpillFunction * list SpillInfo :=
  fold_left (fun st v =>
    let size := spill_slot_size (class v) in
    let '(func, slot) := alloc_stack_slot st.1 size (Z.max size 1) in
    (func, st.2 ++ [mkSpill v slot])) spilled (func, []).

(** Without [enable_remat]. *)
Definition spill_phases (enable_spill_code enable_spill_slot_reuse : bool) (func : SpillFunction) (spilled : list VReg)
    (intervals : list (Z * LiveInterval)) : SpillFunction * list SpillInfo :=
  match spilled with
  | [] => (func, [])
  | _ =>
      let '(func, spills) := if negb enable_spill_code then allocate_spill_slots func spilled else insert_spill_code func spilled in
      if enable_spill_slot_reuse && negb (length spills =? 0) then
        let reuse := compute_spill_slot_reuse spills intervals in
        if (0 <? slots_eliminated reuse)%Z
        then (apply_spill_slot_reuse func (slot_rewrites reuse),
              (fun s => mkSpill (spill_vreg s) (default (spill_slot s) (slot_rewrites reuse !! spill_slot s))) <$> spills)
        else (func, spills)
      else (func, spills)
  end.
