(* ===== verification/SpillSound.v ===== *)
(** * What the spill phases produce ([crates/trust-cg-regalloc/src]: [spill.rs],
      [spill_slot_reuse.rs])

    The code of every block after both phases, and which registers share a slot. *)

From S2P Require Import Frame.
From S2P Require Import Prelude Regs Liveness LinearScan LiveFlow LiveBuild Spill PhisSound.
Local Open Scope nat_scope.

(** ** Slots of the spilled registers *)

(** The registers get the slots that follow [n]. *)
Definition infos_from (n : Z) (l : list VReg) : list SpillInfo := imap (fun k v => mkSpill v (n + Z.of_nat k)) l.

Lemma infos_snoc n l v : infos_from n (l ++ [v]) = infos_from n l ++ [mkSpill v (n + Z.of_nat (length l))].
Proof. unfold infos_from. rewrite imap_app. cbn. by rewrite Nat.add_0_r. Qed.

Lemma elem_of_infos n l s : s ∈ infos_from n l <-> exists k, l !! k = Some (spill_vreg s) /\ spill_slot s = (n + Z.of_nat k)%Z.
Proof.
  unfold infos_from. rewrite elem_of_lookup_imap. split.
  - intros (k & v & -> & Hk). by exists k.
  - intros (k & Hk & Es). exists k, (spill_vreg s). destruct s. cbn in *. by subst.
Qed.

Record slots_given (func : SpillFunction) (l : list VReg) (st : SpillFunction * gmap VReg Z * list SpillInfo) : Prop := mkGiven {
  sg_func : sfunc st.1.1 = sfunc func;
  sg_next : next_stack_slot st.1.1 = (next_stack_slot func + Z.of_nat (length l))%Z;
  sg_infos : st.2 = infos_from (next_stack_slot func) l;
  sg_map : forall v slot, st.1.2 !! v = Some slot <-> mkSpill v slot ∈ st.2 }.

Lemma slots_given_all func l : NoDup l -> (0 <= next_stack_slot func)%Z -> (next_stack_slot func + Z.of_nat (length l) < 2 ^ 32)%Z ->
  slots_given func l (fold_left slot_step l (func, ∅, [])).
Proof.
  intros Hnd H0. revert Hnd. induction l as [|v l IH] using rev_ind; intros Hnd Hn.
  - split; cbn; [done|lia|done|]. intros v slot. rewrite lookup_empty, elem_of_nil. done.
  - rewrite length_app in Hn. cbn in Hn. apply NoDup_app in Hnd as (Hl & Hv & _).
    rewrite fold_left_app. cbn [fold_left]. destruct (IH Hl ltac:(lia)) as [H1 H2 H3 H4].
    destruct (fold_left slot_step l (func, ∅, [])) as [[g m] infos]. cbn in *. subst infos. split; cbn.
    + done.
    + rewrite H2, length_app. cbn. rewrite wrap_small; [lia|]. unfold uword. lia.
    + by rewrite infos_snoc, H2.
    + intros u slot. rewrite elem_of_app, list_elem_of_singleton. destruct (decide (u = v)) as [->|Hne].
      * rewrite lookup_insert_eq. split; [intros [= <-]; by right|]. intros [Hin|[= ->]]; [|done].
        apply elem_of_infos in Hin as (k & Hk & _). cbn in Hk. apply list_elem_of_lookup_2 in Hk. destruct (Hv v Hk). left.
      * rewrite lookup_insert_ne by done. rewrite H4. split; [by left|]. intros [|[= ]]; done.
Qed.

(** ** Inserting *)

Lemma fmap_seq {A} `{Inhabited A} (a l b : list A) : (fun i => (a ++ l ++ b) !!! i) <$> seq (length a) (length l) = l.
Proof.
  apply list_eq. intros k. rewrite list_lookup_fmap. destruct (decide (k < length l)) as [Hk|Hk].
  - rewrite lookup_seq_lt by done. cbn. rewrite lookup_total_app_r, lookup_total_app_l by lia.
    rewrite (list_lookup_lookup_total_lt l k Hk). do 2 f_equal. lia.
  - rewrite lookup_seq_ge, lookup_ge_None_2 by lia. done.
Qed.

Lemma apply_entries (plan : list (nat * list RegAllocInst * list RegAllocInst)) : forall ins acc,
  exists news ids, fold_left apply_entry plan (ins, acc) = (ins ++ news, acc ++ ids) /\
    ((forall e, e ∈ plan -> e.1.1 < length ins) ->
     Forall (fun i => i < length (ins ++ news)) ids /\
     (fun i => (ins ++ news) !!! i) <$> ids = plan ≫= fun e => e.1.2 ++ (ins !!! e.1.1) :: e.2).
Proof.
  induction plan as [|[[i loads] stores] plan IH]; intros ins acc; cbn [fold_left].
  - exists [], []. rewrite !app_nil_r. split; [done|]. intros _. split; [constructor|done].
  - unfold apply_entry at 2. destruct (IH ((ins ++ loads) ++ stores)
      (acc ++ seq (length ins) (length loads) ++ i :: seq (length (ins ++ loads)) (length stores))) as (news & ids & -> & H).
    exists (loads ++ stores ++ news), ((seq (length ins) (length loads) ++ i :: seq (length (ins ++ loads)) (length stores)) ++ ids).
    rewrite !app_assoc. split; [done|]. intros Hb. pose proof (Hb (i, loads, stores) ltac:(left)) as Hi. cbn in Hi.
    destruct H as [Hf Hc]. { intros e He. specialize (Hb e ltac:(by right)). rewrite !length_app. lia. }
    split.
    + apply Forall_app. split; [|done]. apply Forall_app. split; [apply Forall_seq; intros j Hj; rewrite !length_app; lia|].
      apply Forall_cons. split; [rewrite !length_app; lia|apply Forall_seq; intros j Hj; rewrite !length_app in *; lia].
    + rewrite fmap_app, Hc, fmap_app, fmap_cons. cbn [mbind list_bind fst snd]. f_equal; [|].
      * rewrite <- !app_assoc, fmap_seq. f_equal. f_equal; [by rewrite lookup_total_app_l by lia|]. rewrite (app_assoc ins). apply fmap_seq.
      * apply bind_ext_in. intros e He. specialize (Hb e ltac:(by right)). do 2 f_equal. rewrite <- app_assoc. by rewrite lookup_total_app_l.
Qed.

(** The code of a block does not change when the arena grows. *)
Lemma code_prefix (f h : RegAllocFunction) b : insts f `prefix_of` insts h -> block h b = block f b ->
  Forall (fun i => i < length (insts f)) (block_insts (block f b)) -> code h b = code f b.
Proof.
  intros Hp Hb Hf. unfold code. rewrite Hb. apply list_fmap_ext. intros k i Hk. apply (prefix_lookup_total _ _ i Hp).
  rewrite Forall_forall in Hf. apply Hf. by eapply list_elem_of_lookup_2.
Qed.

Lemma apply_plan_spec g b plan : let h := apply_plan g (b, plan) in
  insts g `prefix_of` insts h /\ length (blocks h) = length (blocks g) /\ block_order h = block_order g /\
  (forall x, x <> b -> block h x = block g x) /\
  (b < length (blocks g) -> (forall e, e ∈ plan -> e.1.1 < length (insts g)) ->
   Forall (fun i => i < length (insts h)) (block_insts (block h b)) /\ succs (block h b) = succs (block g b) /\
   code h b = plan ≫= fun e => e.1.2 ++ inst g e.1.1 :: e.2).
Proof.
  cbn. destruct (apply_entries plan (insts g) []) as (news & ids & -> & H). cbn. split_and!.
  - by exists news.
  - apply length_alter.
  - done.
  - intros x Hx. unfold block. cbn. by apply list_lookup_total_alter_ne.
  - intros Hb Hin. destruct (H Hin) as [Hf Hc]. unfold code, block, inst. cbn.
    rewrite list_lookup_total_alter_eq by done. cbn. by split_and!.
Qed.

Lemma apply_plans_spec ps : forall g, NoDup ps.*1 -> let h := fold_left apply_plan ps g in
  insts g `prefix_of` insts h /\ length (blocks h) = length (blocks g) /\ block_order h = block_order g /\
  (forall x, x ∉ ps.*1 -> block h x = block g x) /\
  (forall b plan, (b, plan) ∈ ps -> b < length (blocks g) -> (forall e, e ∈ plan -> e.1.1 < length (insts g)) ->
   Forall (fun i => i < length (insts h)) (block_insts (block h b)) /\ succs (block h b) = succs (block g b) /\
   code h b = plan ≫= fun e => e.1.2 ++ inst g e.1.1 :: e.2).
Proof.
  induction ps as [|[b plan] ps IH]; intros g Hnd; cbn [fold_left].
  - split_and!; try done. intros ? ? []%elem_of_nil.
  - cbn in Hnd. apply NoDup_cons in Hnd as [Hn Hnd]. destruct (apply_plan_spec g b plan) as (P1 & L1 & O1 & F1 & C1).
    destruct (IH (apply_plan g (b, plan)) Hnd) as (P2 & L2 & O2 & F2 & C2). split_and!.
    + by etrans.
    + congruence.
    + congruence.
    + intros x Hx. cbn in Hx. apply not_elem_of_cons in Hx as [Hxb Hx]. by rewrite F2, F1.
    + intros x pl Hin Hx Hpl. apply elem_of_cons in Hin as [[= -> ->]|Hin].
      * destruct (C1 Hx Hpl) as (B & S & C). rewrite (F2 b Hn). rewrite (code_prefix _ _ b P2 (F2 b Hn) B). split_and!; [|done|done].
        eapply Forall_impl; [exact B|]. intros i Hi. apply prefix_length in P2. cbn in *. lia.
      * assert (Hne : x <> b) by (intros ->; apply Hn; by apply (list_elem_of_fmap_2 fst _ (b, pl))).
        destruct (C2 x pl Hin) as (B & S & C); [lia| |].
        { intros e He. specialize (Hpl e He). apply prefix_length in P1. lia. }
        split_and!; [done|by rewrite S, F1|]. rewrite C. apply bind_ext_in. intros e He. do 2 f_equal.
        apply (prefix_lookup_total _ _ _ P1). by apply Hpl.
Qed.

(** An instruction with its loads and stores. *)
Definition segment (slots : gmap VReg Z) (i : RegAllocInst) : list RegAllocInst :=
  spilled_operands make_spill_load slots (uses i) ++ i :: spilled_operands make_spill_store slots (defs i).

Lemma bind_fmap {A B C} (F : A -> B) (G : B -> list C) (l : list A) : (F <$> l) ≫= G = l ≫= (G ∘ F).
Proof. induction l as [|x l IH]; cbn; [done|]. by rewrite IH. Qed.

Lemma insert_spill_code_spec func l : wf_func (sfunc func) -> NoDup l -> (0 <= next_stack_slot func)%Z ->
  (next_stack_slot func + Z.of_nat (length l) < 2 ^ 32)%Z ->
  exists g slots, insert_spill_code func l = (g, infos_from (next_stack_slot func) l) /\
    (forall v slot, slots !! v = Some slot <-> mkSpill v slot ∈ infos_from (next_stack_slot func) l) /\
    block_order (sfunc g) = block_order (sfunc func) /\
    (forall b i, b ∈ block_order (sfunc func) -> i ∈ block_insts (block (sfunc g) b) -> i < length (insts (sfunc g))) /\
    forall b, b ∈ block_order (sfunc func) ->
      succs (block (sfunc g) b) = succs (block (sfunc func) b) /\ code (sfunc g) b = code (sfunc func) b ≫= segment slots.
Proof.
  intros Hwf Hnd H0 Hn. pose proof (slots_given_all func l Hnd H0 Hn) as [H1 _ H3 H4]. unfold insert_spill_code.
  destruct (fold_left slot_step l (func, ∅, [])) as [[g slots] infos]. cbn [fst snd] in *. subst infos. rewrite H1.
  set (f := sfunc func) in *. set (ps := imap pair (spill_plan f slots <$> blocks f)).
  assert (Hps : NoDup ps.*1).
  { unfold ps. rewrite fmap_imap. replace (imap _ _) with (seq 0 (length (spill_plan f slots <$> blocks f))); [apply NoDup_ListNoDup, seq_NoDup|].
    apply list_eq. intros k. rewrite list_lookup_imap. destruct (decide (k < length (spill_plan f slots <$> blocks f))) as [Hk|Hk].
    - rewrite lookup_seq_lt by done. destruct (lookup_lt_is_Some_2 _ _ Hk) as [x ->]. done.
    - rewrite lookup_seq_ge, lookup_ge_None_2 by lia. done. }
  destruct (apply_plans_spec ps f Hps) as (_ & _ & Ho & _ & Hc).
  assert (Hb : forall b, b ∈ block_order f ->
    Forall (fun i => i < length (insts (fold_left apply_plan ps f))) (block_insts (block (fold_left apply_plan ps f) b)) /\
    succs (block (fold_left apply_plan ps f) b) = succs (block f b) /\
    code (fold_left apply_plan ps f) b = spill_plan f slots (block f b) ≫= fun e => e.1.2 ++ inst f e.1.1 :: e.2).
  { intros b Hb. apply Hc.
    - apply elem_of_lookup_imap. exists b, (spill_plan f slots (block f b)). split; [done|]. rewrite list_lookup_fmap.
      by rewrite (list_lookup_lookup_total_lt (blocks f) b) by by apply (order_bound _ Hwf).
    - by apply (order_bound _ Hwf).
    - intros e (i & -> & Hi)%list_elem_of_fmap. cbn. by apply (insts_bound _ Hwf b). }
  eexists _, slots. split; [reflexivity|]. cbn [sfunc]. split; [done|]. split; [done|]. split.
  - intros b i Hbo. destruct (Hb b Hbo) as (Hf & _). rewrite Forall_forall in Hf. apply Hf.
  - intros b Hbo. destruct (Hb b Hbo) as (_ & Hs & ->). split; [done|]. unfold spill_plan, code. rewrite !bind_fmap. done.
Qed.

(** ** Renaming *)

Definition renamed (rewrites : gmap Z Z) (slots : gmap VReg Z) : gmap VReg Z := (fun s => default s (rewrites !! s)) <$> slots.

Lemma rewrite_spilled rewrites slots make ops :
  (forall v s, rewrite_inst rewrites (make v s) = make v (default s (rewrites !! s))) ->
  rewrite_inst rewrites <$> spilled_operands make slots ops = spilled_operands make (renamed rewrites slots) ops.
Proof.
  intros Hm. unfold spilled_operands, renamed. induction ops as [|op ops IH]; cbn; [done|].
  destruct (as_vreg op) as [v|]; cbn; [|done]. rewrite lookup_fmap. destruct (slots !! v) as [s|]; cbn; [|done]. by rewrite IH, Hm.
Qed.

Definition slot_operands (i : RegAllocInst) : list Z :=
  omap (fun op => match op with StackSlotOp slot => Some slot | _ => None end) (defs i ++ uses i).

Lemma rewrite_inst_id rewrites i : (forall s, s ∈ slot_operands i -> rewrites !! s = None) -> rewrite_inst rewrites i = i.
Proof.
  intros H. destruct i as [o d u id_ iu fl]. unfold rewrite_inst. cbn.
  assert (E : forall ops : list RegAllocOperand, (forall op, op ∈ ops -> op ∈ d ++ u) -> rewrite_slot rewrites <$> ops = ops).
  { induction ops as [|op ops IH]; intros Hin; cbn; [done|]. rewrite IH by (intros; apply Hin; by right). f_equal.
    destruct op; cbn; try done. rewrite H; [done|]. apply list_elem_of_omap. eexists. split; [apply Hin; left|done]. }
  by rewrite !E by (intros; apply elem_of_app; tauto).
Qed.

Lemma rewrite_segment rewrites slots i : (forall s, s ∈ slot_operands i -> rewrites !! s = None) ->
  rewrite_inst rewrites <$> segment slots i = segment (renamed rewrites slots) i.
Proof.
  intros H. unfold segment. rewrite fmap_app, fmap_cons, !rewrite_spilled by done. by rewrite rewrite_inst_id.
Qed.

Lemma rewrite_code rewrites g f b slots : (forall i, i ∈ block_insts (block g b) -> i < length (insts g)) ->
  code g b = code f b ≫= segment slots ->
  (forall i s, i ∈ code f b -> s ∈ slot_operands i -> rewrites !! s = None) ->
  code (mkRFunc (rewrite_inst rewrites <$> insts g) (blocks g) (block_order g) (entry_block g) (next_vreg g)) b
  = code f b ≫= segment (renamed rewrites slots).
Proof.
  intros Hb Hc Hs. transitivity (rewrite_inst rewrites <$> code g b).
  - unfold code. rewrite <- list_fmap_compose. apply list_fmap_ext. intros k i Hk. unfold inst. cbn.
    apply list_lookup_total_fmap. apply Hb. by eapply list_elem_of_lookup_2.
  - rewrite Hc. clear Hc Hb. revert Hs. induction (code f b) as [|i l IH]; intros Hs; cbn; [done|].
    rewrite fmap_app. f_equal; [apply rewrite_segment; intros s; apply Hs; left|]. apply IH. intros j s Hj. apply Hs. by right.
Qed.

(** ** Colors *)

Section Colors.
Context (ivs : list (Z * LiveInterval)).

(** Both registers have intervals, and the comparison finds no common point. *)
Definition apart (v w : VReg) : Prop :=
  exists iv iw, exact_interval_for_vreg ivs v = Some iv /\ exact_interval_for_vreg ivs w = Some iw /\
    (overlaps iv iw = false \/ overlaps iw iv = false).

Lemma apart_sym v w : apart v w -> apart w v.
Proof. intros (iv & iw & H1 & H2 & H3). exists iw, iv. split_and!; [done|done|tauto]. Qed.

Definition final (r : Reuse) (s : SpillInfo) : Z := default (spill_slot s) (slot_rewrites r !! spill_slot s).

Lemma find_color_spec iv v colors slot colors' : find_color ivs iv v colors = Some (slot, colors') ->
  exists pre vs post, colors = pre ++ (slot, vs) :: post /\ colors' = pre ++ (slot, vs ++ [v]) :: post /\
    color_conflicts ivs iv vs = false.
Proof.
  revert colors'. induction colors as [|[c vs] colors IH]; intros colors'; cbn; [done|].
  destruct (color_conflicts ivs iv vs) eqn:E.
  - destruct (find_color ivs iv v colors) as [[slot0 rest]|]; cbn; [|done]. intros [= -> <-].
    destruct (IH rest eq_refl) as (pre & us & post & -> & -> & Hc). by exists ((c, vs) :: pre), us, post.
  - intros [= -> <-]. by exists [], vs, colors.
Qed.

Lemma no_conflict iv v vs w : exact_interval_for_vreg ivs v = Some iv -> color_conflicts ivs iv vs = false -> w ∈ vs -> apart w v.
Proof.
  intros Hv Hc Hw. unfold color_conflicts in Hc.
  assert (H : existsb (fun u => match exact_interval_for_vreg ivs u with Some x => overlaps x iv | None => true end) vs = false) by exact Hc.
  destruct (exact_interval_for_vreg ivs w) as [iw|] eqn:Ew.
  - exists iw, iv. split_and!; [done|done|left]. destruct (overlaps iw iv) eqn:Eo; [|done]. rewrite <- H. symmetry.
    apply existsb_exists. exists w. rewrite Ew. split; [by apply list_elem_of_In|done].
  - assert (existsb (fun u => match exact_interval_for_vreg ivs u with Some x => overlaps x iv | None => true end) vs = true); [|congruence].
    apply existsb_exists. exists w. rewrite Ew. split; [by apply list_elem_of_In|done].
Qed.

(** The state after the spills [P] of one class, from [r0]. *)
Record colored (r0 : Reuse) (P : list SpillInfo) (st : Reuse * list (Z * list VReg)) : Prop := mkColored {
  co_in : forall s, s ∈ P -> exists vs, (final st.1 s, vs) ∈ st.2 /\ spill_vreg s ∈ vs;
  co_apart : forall c vs v w, (c, vs) ∈ st.2 -> v ∈ vs -> w ∈ vs -> v <> w -> apart v w;
  co_slots : forall c, c ∈ st.2.*1 -> c ∈ spill_slot <$> P;
  co_nodup : NoDup st.2.*1;
  co_frame : forall k, k ∉ spill_slot <$> P -> slot_rewrites st.1 !! k = slot_rewrites r0 !! k;
  co_count : slots_eliminated st.1 = Z.of_nat (size (slot_rewrites st.1));
  co_size : size (slot_rewrites st.1) <= size (slot_rewrites r0) + length P }.

(** A register of its own. *)
Lemma colored_new r0 P st s : colored r0 P st -> spill_slot s ∉ spill_slot <$> P -> slot_rewrites r0 !! spill_slot s = None ->
  colored r0 (P ++ [s]) (st.1, st.2 ++ [(spill_slot s, [spill_vreg s])]).
Proof.
  intros [C1 C2 C3 C4 C5 C6 C7] Hn H0. split; cbn.
  - intros x [Hx| ->%list_elem_of_singleton]%elem_of_app.
    + destruct (C1 x Hx) as (vs & Hin & Hv). exists vs. split; [|done]. apply elem_of_app. by left.
    + exists [spill_vreg s]. split; [|left]. apply elem_of_app. right. unfold final. rewrite C5, H0 by done. left.
  - intros c vs v w [Hin|[= -> ->]%list_elem_of_singleton]%elem_of_app; [by apply (C2 c)|].
    by intros ->%list_elem_of_singleton ->%list_elem_of_singleton.
  - intros c. rewrite !fmap_app, !elem_of_app. cbn. intros [Hc|Hc]; [left; by apply C3|by right].
  - rewrite fmap_app. apply NoDup_app. split_and!; [done| |apply NoDup_singleton].
    intros c Hc ->%list_elem_of_singleton. by apply Hn, C3.
  - intros k Hk. apply C5. rewrite fmap_app in Hk. intros H. apply Hk. apply elem_of_app. by left.
  - done.
  - rewrite length_app. lia.
Qed.

(** A register that joins a color. *)
Lemma colored_join r0 P st s iv slot colors' :
  colored r0 P st -> spill_slot s ∉ spill_slot <$> P -> slot_rewrites r0 !! spill_slot s = None ->
  exact_interval_for_vreg ivs (spill_vreg s) = Some iv -> find_color ivs iv (spill_vreg s) st.2 = Some (slot, colors') ->
  (Z.of_nat (size (slot_rewrites r0) + S (length P)) < 2 ^ 32)%Z ->
  colored r0 (P ++ [s])
    (mkReuse (wrap 32 (slots_eliminated st.1 + 1)) (<[spill_slot s := slot]> (slot_rewrites st.1)), colors').
Proof.
  intros [C1 C2 C3 C4 C5 C6 C7] Hn H0 Hiv (pre & vs & post & E & -> & Hc)%find_color_spec Hlen. rewrite E in *.
  assert (Hnone : slot_rewrites st.1 !! spill_slot s = None) by (by rewrite C5).
  assert (Hin : forall c us, (c, us) ∈ pre ++ (slot, vs ++ [spill_vreg s]) :: post ->
            (c, us) ∈ pre ++ (slot, vs) :: post \/ c = slot /\ us = vs ++ [spill_vreg s]).
  { intros c us. rewrite !elem_of_app, !elem_of_cons. intros [|[[= -> ->]|]]; tauto. }
  assert (Hslots : (pre ++ (slot, vs ++ [spill_vreg s]) :: post).*1 = (pre ++ (slot, vs) :: post).*1) by by rewrite !fmap_app.
  split; cbn.
  - intros x [Hx| ->%list_elem_of_singleton]%elem_of_app.
    + destruct (C1 x Hx) as (us & Hus & Hv). unfold final in *. cbn.
      rewrite lookup_insert_ne by (intros Ex; apply Hn; rewrite Ex; by apply list_elem_of_fmap_2).
      apply elem_of_app in Hus as [Hus|[[= Es ->]|Hus]%elem_of_cons].
      * exists us. split; [|done]. apply elem_of_app. by left.
      * exists (vs ++ [spill_vreg s]). rewrite Es. split; [apply elem_of_app; right; left|apply elem_of_app; by left].
      * exists us. split; [|done]. apply elem_of_app. right. by right.
    + exists (vs ++ [spill_vreg s]). unfold final. cbn. rewrite lookup_insert_eq. cbn. split; [apply elem_of_app; right; left|].
      apply elem_of_app. right. left.
  - intros c us v w [Hus|[-> ->]]%Hin; [by apply (C2 c)|].
    assert (Hvs : (slot, vs) ∈ pre ++ (slot, vs) :: post) by (apply elem_of_app; right; left).
    intros [Hv| ->%list_elem_of_singleton]%elem_of_app [Hw| ->%list_elem_of_singleton]%elem_of_app Hne; [by apply (C2 slot vs)| | |done].
    + by apply (no_conflict iv _ vs).
    + by apply apart_sym, (no_conflict iv _ vs).
  - intros c. rewrite Hslots. intros Hc'%C3. rewrite fmap_app. apply elem_of_app. by left.
  - by rewrite Hslots.
  - intros k Hk. rewrite fmap_app in Hk. apply not_elem_of_app in Hk as [Hk1 Hk2].
    rewrite lookup_insert_ne by (intros E1; apply Hk2; rewrite <- E1; left). by apply C5.
  - rewrite map_size_insert_None, C6 by done. rewrite wrap_small; [lia|]. unfold uword. lia.
  - rewrite map_size_insert_None, length_app by done. cbn. lia.
Qed.

Lemma colored_step r0 P st s : colored r0 P st -> spill_slot s ∉ spill_slot <$> P -> slot_rewrites r0 !! spill_slot s = None ->
  (Z.of_nat (size (slot_rewrites r0) + S (length P)) < 2 ^ 32)%Z -> colored r0 (P ++ [s]) (color_step ivs st s).
Proof.
  intros Hc Hn H0 Hlen. unfold color_step. destruct st as [r colors].
  destruct (exact_interval_for_vreg ivs (spill_vreg s)) as [iv|] eqn:Ei; [|by apply (colored_new r0 P (r, colors))].
  destruct (find_color ivs iv (spill_vreg s) colors) as [[slot colors']|] eqn:Ef; [|by apply (colored_new r0 P (r, colors))].
  rewrite decide_True; [by apply (colored_join r0 P (r, colors) s iv slot colors')|].
  intros E. apply Hn. rewrite E. apply (co_slots _ _ _ Hc).
  destruct (find_color_spec _ _ _ _ _ Ef) as (pre & vs & post & -> & _). cbn [snd]. rewrite fmap_app. apply elem_of_app. right. left.
Qed.

Lemma colored_group r0 l : NoDup (spill_slot <$> l) -> (forall s, s ∈ l -> slot_rewrites r0 !! spill_slot s = None) ->
  slots_eliminated r0 = Z.of_nat (size (slot_rewrites r0)) -> (Z.of_nat (size (slot_rewrites r0) + length l) < 2 ^ 32)%Z ->
  colored r0 l (fold_left (color_step ivs) l (r0, [])).
Proof.
  intros Hnd H0 Hcount. induction l as [|s l IH] using rev_ind; intros Hlen.
  - split; cbn; try done; try (by intros ? []%elem_of_nil); try (by intros ? ? ? ? []%elem_of_nil); try apply NoDup_nil_2; lia.
  - rewrite fmap_app in Hnd. apply NoDup_app in Hnd as (Hnd & Hx & _). rewrite length_app in Hlen. cbn in Hlen.
    rewrite fold_left_app. apply colored_step.
    + apply IH; [done| |lia]. intros x Hxl. apply H0. apply elem_of_app. by left.
    + intros Hin. apply (Hx _ Hin). left.
    + apply H0. apply elem_of_app. right. left.
    + lia.
Qed.

(** After the classes [done_], among the spills [infos]. *)
Record shared (infos : list SpillInfo) (done_ : list RegClass) (r : Reuse) : Prop := mkShared {
  sh_own : forall s, s ∈ infos -> class (spill_vreg s) ∈ done_ ->
    exists s', s' ∈ infos /\ class (spill_vreg s') = class (spill_vreg s) /\ final r s = spill_slot s';
  sh_apart : forall s s', s ∈ infos -> s' ∈ infos -> class (spill_vreg s) ∈ done_ -> class (spill_vreg s') = class (spill_vreg s) ->
    final r s = final r s' -> spill_vreg s <> spill_vreg s' -> apart (spill_vreg s) (spill_vreg s');
  sh_dom : forall s, s ∈ infos -> class (spill_vreg s) ∉ done_ -> slot_rewrites r !! spill_slot s = None;
  sh_frame : forall k, k ∉ spill_slot <$> infos -> slot_rewrites r !! k = None;
  sh_count : slots_eliminated r = Z.of_nat (size (slot_rewrites r));
  sh_size : size (slot_rewrites r) <= length (filter (fun s => class (spill_vreg s) ∈ done_) infos) }.

Abbreviation group infos c := (filter (fun s => class (spill_vreg s) = c) infos).

Lemma slot_inj infos s s' : NoDup (spill_slot <$> infos) -> s ∈ infos -> s' ∈ infos -> spill_slot s = spill_slot s' -> s = s'.
Proof.
  intros Hnd [k Hk]%list_elem_of_lookup [k' Hk']%list_elem_of_lookup E.
  assert (k = k') as ->; [|congruence]. eapply NoDup_lookup; [exact Hnd| |]; rewrite list_lookup_fmap, ?Hk, ?Hk'; cbn; by rewrite ?E.
Qed.

Lemma group_size infos D c : c ∉ D ->
  length (filter (fun s => class (spill_vreg s) ∈ D ++ [c]) infos) =
  length (filter (fun s => class (spill_vreg s) ∈ D) infos) + length (group infos c).
Proof.
  intros Hc. induction infos as [|s l IH]; [done|]. rewrite !filter_cons.
  destruct (decide (class (spill_vreg s) ∈ D ++ [c])) as [H|H], (decide (class (spill_vreg s) ∈ D)) as [H1|H1],
    (decide (class (spill_vreg s) = c)) as [H2|H2]; cbn; rewrite ?IH; try lia; exfalso; subst;
    rewrite elem_of_app, list_elem_of_singleton in H; tauto.
Qed.

Lemma shared_step infos D r c : NoDup (spill_slot <$> infos) -> (Z.of_nat (length infos) < 2 ^ 32)%Z -> shared infos D r -> c ∉ D ->
  shared infos (D ++ [c]) (fold_left (color_step ivs) (group infos c) (r, [])).1.
Proof.
  intros Hnd Hlen [S1 S2 S3 S4 S5 S6] Hc.
  assert (Hin : forall s, s ∈ group infos c <-> s ∈ infos /\ class (spill_vreg s) = c) by (intros s; rewrite list_elem_of_filter; tauto).
  assert (Hgs : forall s, s ∈ infos -> spill_slot s ∈ spill_slot <$> group infos c -> class (spill_vreg s) = c).
  { intros s Hs (s' & E & [Hs' <-]%Hin)%list_elem_of_fmap. by rewrite (slot_inj infos s s'). }
  pose proof (group_size infos D c Hc) as Hsize. pose proof (length_filter (fun s => class (spill_vreg s) ∈ D ++ [c]) infos) as Hle.
  pose proof (colored_group r (group infos c)) as HC. destruct HC as [C1 C2 C3 C4 C5 C6 C7].
  - apply NoDup_fmap_2_strong; [|apply NoDup_filter; by eapply NoDup_fmap_1]. intros x y [Hx _]%Hin [Hy _]%Hin. by apply (slot_inj infos).
  - intros s [Hs <-]%Hin. by apply S3.
  - done.
  - lia.
  - set (st := fold_left (color_step ivs) (group infos c) (r, [])) in *.
    assert (Hold : forall s, s ∈ infos -> class (spill_vreg s) <> c -> final st.1 s = final r s).
    { intros s Hs Hne. unfold final. by rewrite C5 by (intros H; by apply Hne, Hgs). }
    split.
    + intros s Hs [HD| E%list_elem_of_singleton]%elem_of_app.
      * rewrite Hold by (congruence || done). by apply S1.
      * destruct (C1 s) as (vs & Hvs & _); [by apply Hin|]. apply (list_elem_of_fmap_2 fst) in Hvs. apply C3 in Hvs as (s' & Es & [Hs' Ec]%Hin)%list_elem_of_fmap.
        exists s'. cbn in Es. split_and!; [done|congruence|done].
    + intros s s' Hs Hs' [HD| E%list_elem_of_singleton]%elem_of_app Ecl Ef Hne.
      * rewrite !Hold in Ef by (congruence || done). by apply S2.
      * destruct (C1 s) as (vs & Hvs & Hv); [by apply Hin|]. destruct (C1 s') as (vs' & Hvs' & Hv'); [apply Hin; split; [done|congruence]|].
        rewrite <- Ef in Hvs'. assert (vs' = vs) as ->; [|by apply (C2 (final st.1 s) vs)].
        apply list_elem_of_lookup in Hvs as [k Hk]. apply list_elem_of_lookup in Hvs' as [k' Hk'].
        assert (k = k') as ->; [|congruence]. eapply NoDup_lookup; [exact C4| |]; by rewrite list_lookup_fmap, ?Hk, ?Hk'.
    + intros s Hs Hn. rewrite C5; [apply S3; [done|]; intros H; apply Hn, elem_of_app; by left|].
      intros H%Hgs; [|done]. apply Hn, elem_of_app. right. rewrite H. left.
    + intros k Hk. rewrite C5; [by apply S4|]. intros (s & -> & [Hs _]%Hin)%list_elem_of_fmap. apply Hk. by apply list_elem_of_fmap_2.
    + done.
    + lia.
Qed.

Lemma reuse_shared infos : NoDup (spill_slot <$> infos) -> (Z.of_nat (length infos) < 2 ^ 32)%Z ->
  shared infos reg_classes (compute_spill_slot_reuse infos ivs).
Proof.
  intros Hnd Hlen. unfold compute_spill_slot_reuse.
  assert (H : forall l, NoDup l -> shared infos l (fold_left (fun r c => (fold_left (color_step ivs) (group infos c) (r, [])).1) l (mkReuse 0 ∅))).
  { induction l as [|c l IH] using rev_ind; intros Hl.
    - split; try by intros ? ? []%elem_of_nil.
      + by intros ? ? ? ? []%elem_of_nil.
      + done.
      + done.
      + done.
      + cbn. rewrite map_size_empty. lia.
    - apply NoDup_app in Hl as (Hl & Hx & _). rewrite fold_left_app. apply shared_step; [done|done|by apply IH|]. intros Hc. apply (Hx c Hc). left. }
  apply H. apply (bool_decide_unpack _). by vm_compute.
Qed.

(** Registers that end up in one slot have intervals without a common point. *)
Lemma reuse_apart infos s s' : NoDup (spill_slot <$> infos) -> (Z.of_nat (length infos) < 2 ^ 32)%Z -> s ∈ infos -> s' ∈ infos ->
  spill_vreg s <> spill_vreg s' ->
  final (compute_spill_slot_reuse infos ivs) s = final (compute_spill_slot_reuse infos ivs) s' -> apart (spill_vreg s) (spill_vreg s').
Proof.
  intros Hnd Hlen Hs Hs' Hne E. pose proof (reuse_shared infos Hnd Hlen) as Sh.
  assert (Hall : forall c, c ∈ reg_classes) by (intros []; unfold reg_classes; rewrite !elem_of_cons; tauto).
  destruct (sh_own _ _ _ Sh s Hs (Hall _)) as (x & Hx & Ex & Fx), (sh_own _ _ _ Sh s' Hs' (Hall _)) as (y & Hy & Ey & Fy).
  apply (sh_apart _ _ _ Sh); try done. rewrite <- Ey, <- Ex. f_equal. f_equal. symmetry. apply (slot_inj infos); [done|done|done|congruence].
Qed.
End Colors.

(** ** Both phases *)

Record spilled_code (f g : RegAllocFunction) (l : list VReg) (ivs : list (Z * LiveInterval)) (slots : gmap VReg Z) : Prop := mkSpilledCode {
  sp_order : block_order g = block_order f;
  sp_succs : forall b, b ∈ block_order f -> succs (block g b) = succs (block f b);
  sp_code : forall b, b ∈ block_order f -> code g b = code f b ≫= segment slots;
  sp_dom : forall v, is_Some (slots !! v) <-> v ∈ l;
  sp_apart : forall v w s, slots !! v = Some s -> slots !! w = Some s -> v <> w -> apart ivs v w }.

Lemma bind_singleton {A} (l : list A) (F : A -> list A) : (forall x, F x = [x]) -> l ≫= F = l.
Proof. intros H. induction l as [|x l IH]; cbn; [done|]. by rewrite IH, H. Qed.

Lemma no_spills f ivs : spilled_code f f [] ivs ∅.
Proof.
  split; try done.
  - intros b _. symmetry. apply bind_singleton. intros i. unfold segment, spilled_operands.
    assert (E : forall make ops, omap (fun op => v ← as_vreg op; slot ← (∅ : gmap VReg Z) !! v; Some (make v slot : RegAllocInst)) ops = []).
    { intros make. induction ops as [|op ops IH]; cbn; [done|]. destruct (as_vreg op); cbn; [by rewrite lookup_empty|done]. }
    by rewrite !E.
  - intros v. rewrite lookup_empty, elem_of_nil. split; [intros [? [=]]|done].
Qed.

Lemma renamed_empty slots : renamed ∅ slots = slots.
Proof. unfold renamed. rewrite <- (map_fmap_id slots) at 2. apply map_fmap_ext. intros v s _. by rewrite lookup_empty. Qed.

Lemma infos_slots n l : NoDup (spill_slot <$> infos_from n l).
Proof.
  apply NoDup_alt. intros i j x. unfold infos_from. rewrite !list_lookup_fmap, !list_lookup_imap.
  destruct (l !! i), (l !! j); cbn; try done. intros [= <-] [=]. lia.
Qed.

(** Without sharing. *)
Lemma own_slots n l ivs (slots : gmap VReg Z) : (forall v slot, slots !! v = Some slot <-> mkSpill v slot ∈ infos_from n l) ->
  (forall v, is_Some (slots !! v) <-> v ∈ l) /\
  (forall v w s, slots !! v = Some s -> slots !! w = Some s -> v <> w -> apart ivs v w).
Proof.
  intros Hs. split.
  - intros v. split.
    + intros [slot (k & Hk & _)%Hs%elem_of_infos]. by eapply list_elem_of_lookup_2.
    + intros [k Hk]%list_elem_of_lookup. exists (n + Z.of_nat k)%Z. apply Hs, elem_of_infos. by exists k.
  - intros v w s (k & Hk & E)%Hs%elem_of_infos (k' & Hk' & E')%Hs%elem_of_infos Hne. cbn in *. assert (k = k') as -> by lia. congruence.
Qed.

(** The final slots. *)
Lemma renamed_spilled n l ivs (slots : gmap VReg Z) : NoDup l -> (Z.of_nat (length l) < 2 ^ 32)%Z ->
  (forall v slot, slots !! v = Some slot <-> mkSpill v slot ∈ infos_from n l) ->
  let rw := slot_rewrites (compute_spill_slot_reuse (infos_from n l) ivs) in
  (forall v, is_Some (renamed rw slots !! v) <-> v ∈ l) /\
  (forall v w s, renamed rw slots !! v = Some s -> renamed rw slots !! w = Some s -> v <> w -> apart ivs v w).
Proof.
  intros Hnd Hlen Hs rw. unfold renamed. split.
  - intros v. rewrite lookup_fmap, fmap_is_Some. by apply (own_slots n l ivs slots).
  - intros v w s. rewrite !lookup_fmap, !fmap_Some. intros (a & Ha & Ea) (b & Hb & Eb) Hne.
    apply (reuse_apart ivs (infos_from n l) (mkSpill v a) (mkSpill w b)).
    + apply infos_slots.
    + unfold infos_from. by rewrite length_imap.
    + by apply Hs.
    + by apply Hs.
    + done.
    + unfold final. cbn. etrans; [symmetry; exact Ea|exact Eb].
Qed.

Lemma spill_phases_some reuse func l ivs g spills : insert_spill_code func l = (g, spills) -> l <> [] -> spills <> [] ->
  spill_phases true reuse func l ivs =
  if reuse then
    let reuse := compute_spill_slot_reuse spills ivs in
    if (0 <? slots_eliminated reuse)%Z
    then (apply_spill_slot_reuse g (slot_rewrites reuse),
          (fun s => mkSpill (spill_vreg s) (default (spill_slot s) (slot_rewrites reuse !! spill_slot s))) <$> spills)
    else (g, spills)
  else (g, spills).
Proof. intros E Hl Hs. unfold spill_phases. cbn [negb]. rewrite E. by destruct l, spills, reuse. Qed.

Lemma spill_phases_spec reuse func l ivs : wf_func (sfunc func) -> NoDup l -> (0 <= next_stack_slot func)%Z ->
  (next_stack_slot func + Z.of_nat (length l) < 2 ^ 32)%Z ->
  (forall b i s, b ∈ block_order (sfunc func) -> i ∈ code (sfunc func) b -> s ∈ slot_operands i -> (s < next_stack_slot func)%Z) ->
  exists slots, spilled_code (sfunc func) (sfunc (spill_phases true reuse func l ivs).1) l ivs slots.
Proof.
  intros Hwf Hnd H0 Hn Hold. destruct (decide (l = [])) as [->|Hl]; [exists ∅; apply no_spills|].
  destruct (insert_spill_code_spec func l Hwf Hnd H0 Hn) as (g & slots & E & Hm & Ho & Hb & Hc).
  rewrite (spill_phases_some reuse func l ivs g _ E) by (by destruct l).
  destruct reuse; [|exists slots; destruct (own_slots _ l ivs slots Hm); split; [done| | |done|done]; intros b Hbo; apply (Hc b Hbo)].
  set (r := compute_spill_slot_reuse (infos_from (next_stack_slot func) l) ivs).
  destruct (renamed_spilled (next_stack_slot func) l ivs slots Hnd ltac:(lia) Hm) as [Hdom Hap]. fold r in Hdom, Hap.
  assert (Hfresh : forall s, (s < next_stack_slot func)%Z -> slot_rewrites r !! s = None).
  { intros s Hs. apply (sh_frame ivs (infos_from (next_stack_slot func) l) reg_classes).
    - apply reuse_shared; [apply infos_slots|]. unfold infos_from. rewrite length_imap. lia.
    - intros (x & -> & (k & _ & Ex)%elem_of_infos)%list_elem_of_fmap. lia. }
  exists (renamed (slot_rewrites r) slots).
  assert (Hkeep : slot_rewrites r = ∅ -> spilled_code (sfunc func) (sfunc g) l ivs (renamed (slot_rewrites r) slots)).
  { intros Er. split; [done| | |done|done]; intros b Hbo; destruct (Hc b Hbo) as [H1 H2]; [done|]. by rewrite Er, renamed_empty. }
  cbv zeta. destruct (0 <? slots_eliminated r)%Z eqn:Epos; cbn [fst].
  - unfold apply_spill_slot_reuse. case_decide as Er; [by apply Hkeep|]. cbn [sfunc]. split; [done| | |done|done].
    + intros b Hbo. apply (Hc b Hbo).
    + intros b Hbo. apply rewrite_code; [intros i; by apply Hb|apply (Hc b Hbo)|]. intros i s Hi Hs. apply Hfresh. by apply (Hold b i s).
  - apply Hkeep. pose proof (sh_count ivs _ _ _ (reuse_shared ivs (infos_from (next_stack_slot func) l) (infos_slots _ _)
      ltac:(unfold infos_from; rewrite length_imap; lia))) as Hcount. fold r in Hcount. apply map_size_empty_inv. lia.
Qed.
