(* ===== verification/SpillExec.v ===== *)
(** * Spilled code executes like the allocated code
      ([crates/trust-cg-regalloc/src]: [spill.rs], [spill_slot_reuse.rs], [lib.rs])

    The machine of [AllocExec] gives every register without a home a location of its
    own.  After the spill phases the values of these registers are in stack slots,
    which registers share, and the locations only carry them from a load to the
    instruction and from the instruction to a store. *)

From S2P Require Import Frame.
From S2P Require Import Prelude Regs Liveness LiveSets LinearScan LinearScanSound LiveFlow LiveBuild Reserve FixedRegs AllocExec.
From S2P Require Import ParCopy Phis PhisSound PhisEdges Spill SpillSound.
From Stdlib Require Import Floats.SpecFloat.
Local Open Scope nat_scope.

(** ** One name for every register *)

Definition arena_reg (f : RegAllocFunction) (v : VReg) : Prop := exists i, i ∈ insts f /\ v ∈ vreg_defs i ++ vreg_uses i.

(** A number names one register. *)
Definition one_name (f : RegAllocFunction) : Prop := forall v v', arena_reg f v -> arena_reg f v' -> id v = id v' -> v = v'.

Section Names.
Context (f : RegAllocFunction) (Hwf : wf_func f) (Hone : one_name f).

Lemma laid_reg b i v : b ∈ block_order f -> i ∈ block_insts (block f b) -> v ∈ vreg_defs (inst f i) ++ vreg_uses (inst f i) -> arena_reg f v.
Proof. intros Hb Hi Hv. exists (inst f i). split; [|done]. apply list_elem_of_lookup_total_2. by apply (insts_bound _ Hwf b). Qed.

(** The collected classes are those of the registers. *)
Definition right_class (z : Z) (c : RegClass) : Prop := forall v, arena_reg f v -> id v = z -> c = class v.

Lemma right_class_reg v : arena_reg f v -> right_class (id v) (class v).
Proof. intros Hv u Hu E. by rewrite (Hone u v). Qed.

Definition merge_into (m : gmap Z RegClass) (v : VReg) : gmap Z RegClass :=
  <[id v := match m !! id v with Some c => merge_vreg_class c (class v) | None => class v end]> m.

Lemma collect_merge : collect_vreg_classes f = fold_left (fun m i => fold_left merge_into (vreg_defs i ++ vreg_uses i) m) (insts f) ∅.
Proof. done. Qed.

(** A fold that keeps a property at every register keeps it. *)
Lemma fold_merge (P : gmap Z RegClass -> Prop) l m :
  (forall m v, arena_reg f v -> P m -> P (merge_into m v)) -> (forall i, i ∈ l -> i ∈ insts f) -> P m ->
  P (fold_left (fun m i => fold_left merge_into (vreg_defs i ++ vreg_uses i) m) l m).
Proof.
  intros Hs. revert m. induction l as [|i l IH]; intros m Hl Hm; cbn [fold_left]; [done|]. apply IH; [intros; apply Hl; by right|].
  assert (Hr : forall v, v ∈ vreg_defs i ++ vreg_uses i -> arena_reg f v) by (intros v Hv; exists i; split; [apply Hl; left|done]).
  revert m Hm Hr. generalize (vreg_defs i ++ vreg_uses i) as vs. intros vs.
  induction vs as [|v vs IHv]; intros m Hm Hr; cbn [fold_left]; [done|]. apply IHv; [apply Hs; [apply Hr; left|done]|intros; apply Hr; by right].
Qed.

Lemma classes_right z c : collect_vreg_classes f !! z = Some c -> right_class z c.
Proof.
  rewrite collect_merge. revert z c. apply (fold_merge (fun m => forall z c, m !! z = Some c -> right_class z c)); [|done|].
  - intros m v Hv Hm z c. unfold merge_into. intros [[<- <-]|[_ H]]%lookup_insert_Some; [|by apply Hm].
    destruct (m !! id v) as [c0|] eqn:E; [|by apply right_class_reg].
    rewrite (Hm _ _ E v Hv eq_refl). unfold merge_vreg_class. rewrite bool_decide_true by done. by apply right_class_reg.
  - intros ? ? H. by rewrite lookup_empty in H.
Qed.

Lemma classes_domain v : arena_reg f v -> is_Some (collect_vreg_classes f !! id v).
Proof.
  intros (i & Hi & Hv). rewrite collect_merge. apply list_elem_of_split in Hi as (l1 & l2 & E).
  assert (Hin : forall j, j ∈ i :: l2 -> j ∈ insts f) by (intros j Hj; rewrite E; apply elem_of_app; by right).
  rewrite E, fold_left_app. cbn [fold_left].
  assert (Hkeep : forall m u, is_Some (m !! id v) -> is_Some (merge_into m u !! id v)).
  { intros m u H. unfold merge_into. destruct (decide (id u = id v)) as [->|]; [by rewrite lookup_insert_eq|by rewrite lookup_insert_ne]. }
  apply (fold_merge (fun m => is_Some (m !! id v))); [auto|intros; apply Hin; by right|].
  generalize (fold_left (fun m i => fold_left merge_into (vreg_defs i ++ vreg_uses i) m) l1 ∅) as m. clear - Hv Hkeep.
  induction (vreg_defs i ++ vreg_uses i) as [|u l IH]; intros m; [by apply elem_of_nil in Hv|]. cbn [fold_left].
  apply elem_of_cons in Hv as [<-|Hv]; [|by apply IH]. clear IH.
  assert (Hm : is_Some (merge_into m v !! id v)) by (unfold merge_into; by rewrite lookup_insert_eq).
  revert Hm. generalize (merge_into m v) as m'. induction l as [|u l IH]; intros m' Hm'; cbn [fold_left]; [done|]. by apply IH, Hkeep.
Qed.

(** *** The register of an interval *)

Definition named (ivs : list (option LiveInterval)) : Prop :=
  forall k iv, ivs !! k = Some (Some iv) -> right_class (Z.of_nat k) (class (vreg iv)).

Lemma with_interval_named ivs z fresh g : (0 <= z)%Z -> named ivs -> right_class z (class (vreg fresh)) ->
  (forall iv, right_class z (class (vreg iv)) -> right_class z (class (vreg (g iv)))) -> named (with_interval ivs z fresh g).
Proof.
  intros Hz Hn Hf Hg k iv. unfold with_interval. destruct (decide (k = Z.to_nat z)) as [->|Hne].
  - intros H. pose proof (lookup_lt_Some _ _ _ H) as Hlt. rewrite length_insert in Hlt. rewrite list_lookup_insert_eq in H by done.
    injection H as <-. rewrite Z2Nat.id by done. apply Hg. destruct (ivs !!! Z.to_nat z) as [iv0|] eqn:E; cbn; [|done].
    rewrite <- (Z2Nat.id z) by done. apply Hn. by rewrite (list_lookup_lookup_total_lt ivs _ Hlt), E.
  - rewrite list_lookup_insert_ne by done. apply Hn.
Qed.

Lemma fresh_right z : right_class z (class (vreg (fresh_for f z))).
Proof.
  unfold fresh_for. cbn. unfold vreg_class_for_id. destruct (collect_vreg_classes f !! z) as [c|] eqn:E; cbn; [by apply classes_right|].
  intros v Hv <-. destruct (classes_domain v Hv) as [c Hc]. congruence.
Qed.

Lemma range_right z iv a b : right_class z (class (vreg iv)) -> right_class z (class (vreg (add_range iv a b))).
Proof. by rewrite add_range_vreg. Qed.

Lemma fold_named {A} (F : list (option LiveInterval) -> A -> list (option LiveInterval)) (l : list A) ivs :
  (forall ivs x, x ∈ l -> named ivs -> named (F ivs x)) -> named ivs -> named (fold_left F l ivs).
Proof.
  revert ivs. induction l as [|x l IH]; intros ivs HF H; cbn; [done|]. apply IH; [intros; apply HF; [by right|done]|]. apply HF; [left|done].
Qed.

Lemma inst_step_named b i bs ivs r : b ∈ block_order f -> i ∈ block_insts (block f b) -> named ivs -> named (inst_step f bs (ivs, r) i).1.
Proof.
  intros Hb Hi Hn. unfold inst_step. cbn [fst snd]. rewrite def_fold_split. cbn [fst].
  assert (Hv : forall v, v ∈ vreg_defs (inst f i) ++ vreg_uses (inst f i) -> arena_reg f v /\ (0 <= id v)%Z).
  { intros v Hv. pose proof (laid_reg b i v Hb Hi Hv) as Ha. split; [done|]. destruct Ha as (j & Hj & Hv'). by apply (vreg_ids _ Hwf j). }
  apply fold_named; [|apply fold_named; [|done]].
  - intros ivs' v Hd Hn'. destruct (Hv v) as [Ha H0]; [apply elem_of_app; by left|]. unfold def_interval, def_step. cbn [fst].
    apply with_interval_named; [done|done|by apply right_class_reg|]. intros iv _. apply range_right. cbn. by apply right_class_reg.
  - intros ivs' v Hu Hn'. destruct (Hv v) as [Ha H0]; [apply elem_of_app; by right|]. unfold use_step.
    apply with_interval_named; [done|done|by apply right_class_reg|]. intros iv H. by apply range_right.
Qed.

Lemma build_block_named b ivs : b ∈ block_order f -> named ivs -> named (build_block f (dataflow f) ivs b).
Proof.
  intros Hb Hn. unfold build_block. destruct (block_insts (block f b)) as [|first rest] eqn:Eb; [done|].
  destruct (last (first :: rest)) as [last_inst|]; [|done]. rewrite <- Eb.
  assert (Hpos : forall z k, live_before f z b k -> (0 <= z)%Z) by (intros z k Hl; apply (live_before_id f Hwf z b k Hl Hb)).
  match goal with |- named (fold_left ?F ?l (?ivs0, ?r)).1 => assert (H0 : named ivs0); [|revert H0; generalize ivs0, r] end.
  - apply fold_named; [|apply fold_named; [|done]].
    + intros ivs' z Hz Hn'. apply (flow_ids f Hwf b z Hb) in Hz. unfold live_in_step. destruct (set_contains _ z); [done|].
      destruct (_ !! z) as [e|]; [|done]. destruct (_ <? e)%Z; [|done].
      apply with_interval_named; [by eapply Hpos|done|apply fresh_right|]. intros iv H. by apply range_right.
    + intros ivs' z Hz Hn'. apply (flow_ids f Hwf b z Hb) in Hz. unfold live_out_step.
      apply with_interval_named; [by eapply Hpos|done|apply fresh_right|]. intros iv H. destruct (_ !! z); by apply range_right.
  - assert (Hsub : forall i, i ∈ block_insts (block f b) -> i ∈ block_insts (block f b)) by done.
    revert Hsub. generalize (block_insts (block f b)) at 1 3 as l. induction l as [|i l IH]; intros Hl ivs' r Hn'; cbn [fold_left]; [done|].
    match goal with |- context [inst_step f ?bs (ivs', r) i] => destruct (inst_step f bs (ivs', r) i) as [ivs2 r2] eqn:E;
      pose proof (inst_step_named b i bs ivs' r Hb (Hl i ltac:(left)) Hn') as H2; rewrite E in H2 end.
    apply IH; [intros j Hj; apply Hl; by right|done].
Qed.

(** The interval filed under the number of a register is of that register. *)
Lemma interval_reg v iv : arena_reg f v -> (id v, iv) ∈ LiveBuild.intervals (compute_live_intervals f) -> vreg iv = v.
Proof.
  intros Hv Hin. destruct (intervals_ok f (id v) iv Hwf Hin) as (_ & Ei & _). apply elem_of_intervals in Hin as [H0 Hk].
  assert (Hn : named (interval_vec f)).
  { unfold interval_vec. apply fold_named; [intros ivs b Hb; by apply build_block_named|]. intros k x. rewrite lookup_replicate. by intros []. }
  pose proof (Hn _ _ Hk v Hv) as Hc. rewrite Z2Nat.id in Hc by lia. specialize (Hc eq_refl). destruct v, (vreg iv). cbn in *. by subst.
Qed.
End Names.

(** ** Homes and slots *)

Section Facts.
Context (f : RegAllocFunction) (Hwf : wf_func f) (Hone : one_name f).
Context (w : LiveInterval -> spec_float) (target : gmap RegClass (list PReg)) (config_hints : gmap VReg (list PReg)).
Context (s : LinearScan) (Hrun : linear_scan_arm w target config_hints f = inr s).
Context (slots : gmap VReg Z) (Hdom : forall v, is_Some (slots !! v) <-> v ∈ spills s).
Context (Hapart : forall v u z, slots !! v = Some z -> slots !! u = Some z -> v <> u -> apart (LiveBuild.intervals (compute_live_intervals f)) v u).

Lemma spills_once : NoDup (spills s).
Proof.
  destruct (arm_scanned f Hwf w target config_hints) as (s' & Hrun' & ivs & _ & Hs). rewrite Hrun in Hrun'. injection Hrun' as <-.
  apply (sc_once _ _ _ _ _ _ Hs).
Qed.

Lemma spilled_home v iv : arena_reg f v -> (id v, iv) ∈ LiveBuild.intervals (compute_live_intervals f) ->
  is_Some (slots !! v) <-> home f s (id v) = None.
Proof.
  intros Hv Hin. pose proof (interval_reg f Hwf Hone v iv Hv Hin) as Ev. destruct (intervals_ok f (id v) iv Hwf Hin) as (_ & _ & Hfix).
  destruct (arm_scanned f Hwf w target config_hints) as (s' & Hrun' & ivs & Hperm & Hs). rewrite Hrun in Hrun'. injection Hrun' as <-.
  destruct (in_scan f ivs (id v) iv Hperm Hin) as (j & Hj & Hx).
  assert (Eh : home f s (id v) = allocation s !! v).
  { apply elem_of_intervals in Hin as [_ Hk]. unfold home. rewrite Hk. cbn. by rewrite Ev. }
  rewrite Hdom, Eh. split; [intros Hsp; by apply (sc_spills _ _ _ _ _ _ Hs)|]. intros En.
  destruct (sc_total _ _ _ _ _ _ Hs j iv Hj Hx Hfix) as [[p Hp]|Hsp]; rewrite Ev in *; [congruence|done].
Qed.

Lemma exact_found v iv : arena_reg f v -> (id v, iv) ∈ LiveBuild.intervals (compute_live_intervals f) ->
  exact_interval_for_vreg (LiveBuild.intervals (compute_live_intervals f)) v = Some iv.
Proof.
  intros Hv Hin. unfold exact_interval_for_vreg. destruct (list_find _ _) as [[k [z iv']]|] eqn:E; cbn.
  - apply list_find_Some in E as (Hk & Ez & _). cbn in Ez. subst z. apply list_elem_of_lookup_2 in Hk.
    rewrite (intervals_functional f (id v) iv' iv Hk Hin). rewrite decide_True; [done|]. by apply (interval_reg f Hwf Hone).
  - apply list_find_None in E. rewrite Forall_forall in E. by destruct (E _ Hin).
Qed.

(** Registers whose intervals share an instruction have different slots. *)
Lemma slots_distinct v u iv iu i a b : arena_reg f v -> arena_reg f u -> live_at f (id v) iv i -> live_at f (id u) iu i ->
  slots !! v = Some a -> slots !! u = Some b -> v <> u -> a <> b.
Proof.
  intros Hv Hu [Hiv Lv] [Hiu Lu] Ha Hb Hne ->. destruct (Hapart v u b Ha Hb Hne) as (x & y & Ex & Ey & Ho).
  rewrite (exact_found v iv Hv Hiv) in Ex. injection Ex as <-. rewrite (exact_found u iu Hu Hiu) in Ey. injection Ey as <-.
  destruct (intervals_ok f _ iv Hwf Hiv) as (Sv & _), (intervals_ok f _ iu Hwf Hiu) as (Su & _).
  assert (overlaps iv iu = true /\ overlaps iu iv = true) as [H1 H2]; [|destruct Ho; congruence].
  split; apply overlaps_spec; eauto.
Qed.
End Facts.

(** ** The machine with stack slots *)

Section Machine.
Context {State Val : Type} (eff : RegAllocInst -> State * (PReg -> Val) -> list Val -> State * (PReg -> Val) -> list Val -> Prop).

(** Loads and stores move values between registers and slots; other instructions
    do not touch the slots. *)
Definition spill_eff (i : RegAllocInst) (st : State * (Z -> Val) * (PReg -> Val)) (us : list Val)
    (st' : State * (Z -> Val) * (PReg -> Val)) (vals : list Val) : Prop :=
  if decide (opcode i = PSEUDO_SPILL_LOAD) then
    st' = st /\ exists slot, uses i = [StackSlotOp slot] /\ vals = [st.1.2 slot]
  else if decide (opcode i = PSEUDO_SPILL_STORE) then
    vals = [] /\ exists v slot x, uses i = [VRegOp v; StackSlotOp slot] /\ us = [x] /\ st'.1.1 = st.1.1 /\ st'.2 = st.2 /\
      forall z, st'.1.2 z = if decide (z = slot) then x else st.1.2 z
  else st'.1.2 = st.1.2 /\ eff i (st.1.1, st.2) us (st'.1.1, st'.2) vals.

Context (home_ : Z -> option PReg).
Abbreviation pinst e := (AllocExec.pinst e home_).

Inductive pexec {S : Type} (e : RegAllocInst -> S * (PReg -> Val) -> list Val -> S * (PReg -> Val) -> list Val -> Prop) :
    list RegAllocInst -> S -> (Loc -> Val) -> S -> (Loc -> Val) -> Prop :=
  | pexec_nil st m : pexec e [] st m st m
  | pexec_cons i l st m st1 m1 st' m' : pinst e i st m st1 m1 -> pexec e l st1 m1 st' m' -> pexec e (i :: l) st m st' m'.

Lemma pexec_app {S} (e : RegAllocInst -> S * (PReg -> Val) -> list Val -> S * (PReg -> Val) -> list Val -> Prop) l l' st m st' m' :
  pexec e (l ++ l') st m st' m' <-> exists st1 m1, pexec e l st m st1 m1 /\ pexec e l' st1 m1 st' m'.
Proof.
  revert st m. induction l as [|i l IH]; intros st m; cbn.
  - split; [intros H; exists st, m; split; [constructor|done]|]. intros (st1 & m1 & H & H'). by inversion H; subst.
  - split.
    + intros H. inversion H as [|? ? ? ? st2 m2 ? ? Hi Hr]; subst. apply IH in Hr as (st1 & m1 & H1 & H2).
      exists st1, m1. split; [by econstructor|done].
    + intros (st1 & m1 & H & H'). inversion H as [|? ? ? ? st2 m2 ? ? Hi Hr]; subst. econstructor; [done|]. apply IH. by exists st1, m1.
Qed.

Lemma load_inst v slot st m st' m' : home_ (id v) = None ->
  pinst spill_eff (make_spill_load v slot) st m st' m' <->
  st' = st /\ m' (Slot (id v)) = st.2 slot /\ forall l, l <> Slot (id v) -> m' l = m l.
Proof.
  intros Hh. assert (El : loc home_ (id v) = Slot (id v)) by (unfold loc; by rewrite Hh).
  assert (Hcl : forall l, clobbers home_ (make_spill_load v slot) l <-> l = Slot (id v)).
  { intros l. split.
    - intros [(d & Hd & Ht)|(p & Hp & _)]; [|by apply elem_of_nil in Hp]. cbn in Hd. apply list_elem_of_singleton in Hd as ->.
      rewrite El in Ht. destruct l; cbn in Ht; [done|by subst].
    - intros ->. left. exists (id v). split; [left|]. by rewrite El. }
  split.
  - intros (vals & rho & rho' & _ & He & Hl & Hd & _ & Hk). cbn in He. destruct He as [E (slot' & [= <-] & ->)]. injection E as -> ->. split_and!; [done| |].
    + rewrite <- El. by apply (Hd 0).
    + intros l Hne. apply Hk. by rewrite Hcl.
  - intros (-> & Hs & Hk). exists [st.2 slot], (fun p => m (Reg p)), (fun p => m (Reg p)). split_and!; [done| |done| | |].
    + split; [done|]. by exists slot.
    + intros [|j] d val; cbn; [|done]. intros [= <-] [= <-]. by rewrite El.
    + by intros q (p & []%elem_of_nil & _).
    + intros l Hn. apply Hk. intros ->. by apply Hn, Hcl.
Qed.

Lemma store_inst v slot st m st' m' :
  pinst spill_eff (make_spill_store v slot) st m st' m' <->
  (forall l, m' l = m l) /\ st'.1 = st.1 /\ forall z, st'.2 z = if decide (z = slot) then m (loc home_ (id v)) else st.2 z.
Proof.
  assert (Hcl : forall l, ~ clobbers home_ (make_spill_store v slot) l).
  { intros l [(d & Hd & _)|(p & Hp & _)]; [by apply elem_of_nil in Hd|by apply elem_of_nil in Hp]. }
  split.
  - intros (vals & rho & rho' & _ & He & _ & _ & _ & Hk). cbn in He. destruct He as [-> (v' & slot' & x & [= <- <-] & [= <-] & E1 & _ & E2)].
    split_and!; [intros l; by apply Hk|done|done].
  - intros (Hk & E1 & E2). exists [], (fun p => m (Reg p)), (fun p => m (Reg p)). split_and!; [done| |done|done| |by intros l _].
    + split; [done|]. by exists v, slot, (m (loc home_ (id v))).
    + by intros q (p & []%elem_of_nil & _).
Qed.

(** *** All loads of an instruction *)

Section Operands.
Context (slots : gmap VReg Z).

Lemma loads_run ops :
  (forall v slot, VRegOp v ∈ ops -> slots !! v = Some slot -> home_ (id v) = None) ->
  (forall v u, VRegOp v ∈ ops -> VRegOp u ∈ ops -> id v = id u -> v = u) -> forall st m st' m',
  pexec spill_eff (spilled_operands make_spill_load slots ops) st m st' m' ->
  st' = st /\ (forall v slot, VRegOp v ∈ ops -> slots !! v = Some slot -> m' (Slot (id v)) = st.2 slot) /\
  (forall l, (forall v, VRegOp v ∈ ops -> is_Some (slots !! v) -> l <> Slot (id v)) -> m' l = m l).
Proof.
  induction ops as [|op ops IH]; intros Hh Hu st m st' m' He.
  - inversion He; subst. split_and!; [done| |done]. by intros v slot []%elem_of_nil.
  - assert (IH' := IH ltac:(intros; eapply Hh; [by right|done]) ltac:(intros; by apply Hu; [right|right|])). clear IH.
    destruct (as_vreg op ≫= fun v => slots !! v ≫= fun slot => Some (v, slot)) as [[v slot]|] eqn:Eo.
    + destruct op as [v0| | | | |]; try done. cbn in Eo. destruct (slots !! v0) as [slot0|] eqn:Es; [|done]. injection Eo as -> ->.
      unfold spilled_operands in He. cbn in He. rewrite Es in He. cbn in He. inversion He as [|? ? ? ? st1 m1 ? ? Hi Hr]; subst.
      apply load_inst in Hi as (-> & H1 & H2); [|apply (Hh v slot); [left|done]].
      destruct (IH' _ _ _ _ Hr) as (-> & H3 & H4). split_and!; [done| |].
      * intros u z Hin Hz. apply elem_of_cons in Hin as [[= ->]|Hin]; [|by apply H3]. rewrite Es in Hz. injection Hz as <-.
        destruct (decide (VRegOp v ∈ ops)) as [Hin|Hn]; [by apply H3|]. rewrite H4; [done|]. intros u Hu' _ [= E].
        apply Hn. by rewrite (Hu v u) by (done || left || (right; done)).
      * intros l Hl. rewrite H4; [|intros; apply Hl; [by right|done]]. apply H2, Hl; [left|done].
    + assert (Eq : spilled_operands make_spill_load slots (op :: ops) = spilled_operands make_spill_load slots ops).
      { unfold spilled_operands. cbn. destruct op as [v0| | | | |]; try done. cbn in *. by destruct (slots !! v0). }
      rewrite Eq in He. destruct (IH' _ _ _ _ He) as (-> & H3 & H4).
      assert (Hno : forall v slot, VRegOp v ∈ op :: ops -> slots !! v = Some slot -> VRegOp v ∈ ops).
      { intros v slot [<-|]%elem_of_cons Hs; [|done]. cbn in Eo. by rewrite Hs in Eo. }
      split_and!; [done|intros v slot Hin Hs; apply H3; [by eapply Hno|done]|].
      intros l Hl. apply H4. intros v Hin. apply Hl. by right.
Qed.

Lemma loads_exist ops st m : (forall v slot, VRegOp v ∈ ops -> slots !! v = Some slot -> home_ (id v) = None) ->
  exists m', pexec spill_eff (spilled_operands make_spill_load slots ops) st m st m'.
Proof.
  revert m. induction ops as [|op ops IH]; intros m Hh; [exists m; constructor|].
  assert (IH' := fun m => IH m ltac:(intros; eapply Hh; [by right|done])). clear IH.
  unfold spilled_operands. cbn. destruct op as [v| | | | |]; cbn; try apply IH'. destruct (slots !! v) as [slot|] eqn:Es; cbn; [|apply IH'].
  destruct (IH' (fun l => if decide (l = Slot (id v)) then st.2 slot else m l)) as (m' & Hm). exists m'. econstructor; [|exact Hm].
  apply load_inst; [apply (Hh v slot); [left|done]|]. split_and!; [done|by rewrite decide_True|]. intros l Hl. by rewrite decide_False.
Qed.

Lemma stores_run ops :
  (forall v u slot, VRegOp v ∈ ops -> VRegOp u ∈ ops -> slots !! v = Some slot -> slots !! u = Some slot -> v = u) -> forall st m st' m',
  pexec spill_eff (spilled_operands make_spill_store slots ops) st m st' m' ->
  st'.1 = st.1 /\ (forall l, m' l = m l) /\
  (forall v slot, VRegOp v ∈ ops -> slots !! v = Some slot -> st'.2 slot = m (loc home_ (id v))) /\
  (forall z, (forall v, VRegOp v ∈ ops -> slots !! v <> Some z) -> st'.2 z = st.2 z).
Proof.
  induction ops as [|op ops IH]; intros Hu st m st' m' He.
  - inversion He; subst. split_and!; try done. by intros v slot []%elem_of_nil.
  - assert (IH' := IH (fun v u slot H1 H2 => Hu v u slot (list_elem_of_further _ _ _ H1) (list_elem_of_further _ _ _ H2))). clear IH.
    destruct (as_vreg op ≫= fun v => slots !! v ≫= fun slot => Some (v, slot)) as [[v slot]|] eqn:Eo.
    + destruct op as [v0| | | | |]; try done. cbn in Eo. destruct (slots !! v0) as [slot0|] eqn:Es; [|done]. injection Eo as -> ->.
      unfold spilled_operands in He. cbn in He. rewrite Es in He. cbn in He. inversion He as [|? ? ? ? st1 m1 ? ? Hi Hr]; subst.
      apply store_inst in Hi as (H0 & H1 & H2). destruct (IH' _ _ _ _ Hr) as (H3 & H4 & H5 & H6). split_and!.
      * congruence.
      * intros l. by rewrite H4.
      * intros u z Hin Hz. destruct (decide (VRegOp u ∈ ops)) as [Hin'|Hn]; [rewrite <- H0; by apply H5|].
        apply elem_of_cons in Hin as [[= ->]|Hin]; [|done]. rewrite Es in Hz. injection Hz as <-.
        rewrite H6, H2, decide_True; [done|done|]. intros u Hu' Hs. apply Hn. by rewrite (Hu v u slot) by (done || left || (right; done)).
      * intros z Hz. rewrite H6 by (intros; apply Hz; by right). rewrite H2, decide_False; [done|]. intros ->. apply (Hz v); [left|done].
    + assert (Eq : spilled_operands make_spill_store slots (op :: ops) = spilled_operands make_spill_store slots ops).
      { unfold spilled_operands. cbn. destruct op as [v0| | | | |]; try done. cbn in *. by destruct (slots !! v0). }
      rewrite Eq in He. destruct (IH' _ _ _ _ He) as (H3 & H4 & H5 & H6). split_and!; [done|done| |].
      * intros v slot [<-|Hin]%elem_of_cons Hs; [cbn in Eo; by rewrite Hs in Eo|by apply H5].
      * intros z Hz. apply H6. intros v Hin. apply Hz. by right.
Qed.

Lemma stores_exist ops st m : exists st', pexec spill_eff (spilled_operands make_spill_store slots ops) st m st' m.
Proof.
  revert st. induction ops as [|op ops IH]; intros st; [exists st; constructor|].
  unfold spilled_operands. cbn. destruct op as [v| | | | |]; cbn; try apply IH. destruct (slots !! v) as [slot|] eqn:Es; cbn; [|apply IH].
  destruct (IH (st.1, fun z => if decide (z = slot) then m (loc home_ (id v)) else st.2 z)) as (st' & Hm). exists st'. econstructor; [|exact Hm].
  by apply store_inst.
Qed.
End Operands.
End Machine.

(** ** One instruction *)

Section Segments.
Context (f : RegAllocFunction) (Hwf : wf_func f) (Hone : one_name f).
Context (w : LiveInterval -> spec_float) (target : gmap RegClass (list PReg)) (config_hints : gmap VReg (list PReg)).
Context (s : LinearScan) (Hrun : linear_scan_arm w target config_hints f = inr s).
Context (slots : gmap VReg Z) (Hdom : forall v, is_Some (slots !! v) <-> v ∈ spills s).
Context (Hapart : forall v u z, slots !! v = Some z -> slots !! u = Some z -> v <> u -> apart (LiveBuild.intervals (compute_live_intervals f)) v u).
Context {State Val : Type} (eff : RegAllocInst -> State * (PReg -> Val) -> list Val -> State * (PReg -> Val) -> list Val -> Prop).

Abbreviation hm := (home f s).
Abbreviation ploc := (loc (home f s)).

(** At position [k] of block [b], [mem] and [pm'] hold what [pm] does. *)
Definition backed (b k : nat) (pm : Loc -> Val) (mem : Z -> Val) (pm' : Loc -> Val) : Prop :=
  (forall p, pm' (Reg p) = pm (Reg p)) /\
  forall v slot, arena_reg f v -> slots !! v = Some slot -> live_before f (id v) b k -> mem slot = pm (Slot (id v)).

Context (b k j : nat) (Hb : b ∈ block_order f) (Hj : block_insts (block f b) !! k = Some j).
Abbreviation i := (inst f j).
Context (Hplain : opcode i <> PSEUDO_SPILL_LOAD /\ opcode i <> PSEUDO_SPILL_STORE).

Lemma operand_reg v : v ∈ vreg_defs i ++ vreg_uses i -> arena_reg f v.
Proof. apply (laid_reg f Hwf b); [done|]. by eapply list_elem_of_lookup_2. Qed.

Lemma use_vreg v : VRegOp v ∈ uses i -> v ∈ vreg_uses i.
Proof. intros H. apply list_elem_of_omap. by exists (VRegOp v). Qed.
Lemma def_vreg v : VRegOp v ∈ defs i <-> v ∈ vreg_defs i.
Proof. unfold vreg_defs. rewrite list_elem_of_omap. split; [intros H; by exists (VRegOp v)|]. intros ([] & Hin & [= ->]). done. Qed.

Lemma use_home v : v ∈ vreg_uses i -> is_Some (slots !! v) <-> hm (id v) = None.
Proof.
  intros Hv. destruct (intervals_contain f b k j (id v) Hwf Hb Hj) as (iv & Hin & _).
  { left. eapply live_use; [done|]. by apply list_elem_of_fmap_2. }
  apply (spilled_home f Hwf Hone w target config_hints s Hrun slots Hdom v iv); [|done]. apply operand_reg, elem_of_app. by right.
Qed.

Lemma def_home v : v ∈ vreg_defs i -> is_Some (slots !! v) <-> hm (id v) = None.
Proof.
  intros Hv. destruct (intervals_contain f b k j (id v) Hwf Hb Hj) as (iv & Hin & _); [right; by apply list_elem_of_fmap_2|].
  apply (spilled_home f Hwf Hone w target config_hints s Hrun slots Hdom v iv); [|done]. apply operand_reg, elem_of_app. by left.
Qed.

Lemma live_home v : arena_reg f v -> live_before f (id v) b (S k) -> is_Some (slots !! v) <-> hm (id v) = None.
Proof.
  intros Hv Hl. destruct (live_after_contained f b k j (id v) Hwf Hb Hj Hl) as (iv & Hin & _).
  by apply (spilled_home f Hwf Hone w target config_hints s Hrun slots Hdom v iv).
Qed.

Lemma def_slots v u slot : v ∈ vreg_defs i -> arena_reg f u -> u ∈ vreg_defs i \/ live_before f (id u) b (S k) ->
  slots !! v = Some slot -> slots !! u = Some slot -> v = u.
Proof.
  intros Hv Hu Hlu Ev Eu. destruct (decide (v = u)) as [|Hne]; [done|].
  destruct (intervals_contain f b k j (id v) Hwf Hb Hj) as (iv & Hiv); [right; by apply list_elem_of_fmap_2|].
  assert (exists iu, live_at f (id u) iu j) as (iu & Hiu).
  { destruct Hlu as [Hd|Hl]; [|by apply (live_after_contained f b k j (id u) Hwf Hb Hj Hl)].
    apply (intervals_contain f b k j (id u) Hwf Hb Hj). right. by apply list_elem_of_fmap_2. }
  by destruct (slots_distinct f Hwf Hone slots Hapart v u iv iu j slot slot (operand_reg v ltac:(apply elem_of_app; by left)) Hu Hiv Hiu Ev Eu Hne).
Qed.

(** The registers that the instruction reads, after the loads. *)
Lemma uses_loaded pm mem pm1 pm2 : backed b k pm mem pm1 ->
  (forall v slot, VRegOp v ∈ uses i -> slots !! v = Some slot -> pm2 (Slot (id v)) = mem slot) -> (forall p, pm2 (Reg p) = pm1 (Reg p)) ->
  (pm2 ∘ ploc) <$> ids (vreg_uses i) = (pm ∘ ploc) <$> ids (vreg_uses i).
Proof.
  intros [Hr Hs] Hl Hk. unfold ids. rewrite <- !list_fmap_compose. apply list_fmap_ext. intros n v Hv%list_elem_of_lookup_2. cbn.
  unfold loc. destruct (hm (id v)) as [p|] eqn:E; [by rewrite Hk, Hr|]. apply (use_home v Hv) in E as [slot Es].
  assert (Hop : VRegOp v ∈ uses i) by (unfold vreg_uses in Hv; apply list_elem_of_omap in Hv as ([] & Hin & [= ->]); done).
  rewrite (Hl v slot Hop Es). apply Hs; [|done|eapply live_use; [done|by apply list_elem_of_fmap_2]]. apply operand_reg, elem_of_app. by right.
Qed.

(** After the stores. *)
Lemma backed_next pm mem pm1 pm2 pm' mem' : backed b k pm mem pm1 -> (forall p, pm2 (Reg p) = pm' (Reg p)) ->
  (forall z, Slot z ∈ ploc <$> ids (vreg_defs i) -> pm2 (Slot z) = pm' (Slot z)) ->
  (forall z, Slot z ∉ ploc <$> ids (vreg_defs i) -> pm' (Slot z) = pm (Slot z)) ->
  (forall v slot, VRegOp v ∈ defs i -> slots !! v = Some slot -> mem' slot = pm2 (ploc (id v))) ->
  (forall z, (forall v, VRegOp v ∈ defs i -> slots !! v <> Some z) -> mem' z = mem z) -> backed b (S k) pm' mem' pm2.
Proof.
  intros [Hr Hs] H1 H2 H3 H4 H5. split; [done|]. intros v slot Hv Es Hl.
  assert (El : ploc (id v) = Slot (id v)) by (unfold loc; by rewrite (proj1 (live_home v Hv Hl) (mk_is_Some _ _ Es))).
  destruct (decide (id v ∈ ids (vreg_defs i))) as [Hd|Hn].
  - assert (Hd' : v ∈ vreg_defs i).
    { apply list_elem_of_fmap in Hd as (d & Ed & Hd). by rewrite (Hone v d Hv (operand_reg d ltac:(apply elem_of_app; by left)) Ed). }
    rewrite (H4 v slot (proj2 (def_vreg v) Hd') Es), El. apply H2. rewrite <- El. by apply list_elem_of_fmap_2.
  - assert (Hns : Slot (id v) ∉ ploc <$> ids (vreg_defs i)).
    { intros (d & Ed & Hd)%list_elem_of_fmap. unfold loc in Ed. destruct (hm d); [done|]. injection Ed as Ed. subst d. done. }
    rewrite (H3 _ Hns), H5; [apply Hs; [done|done|by eapply live_skip]|]. intros d Hd%def_vreg Ed.
    apply Hn. rewrite <- (def_slots d v slot Hd Hv (or_intror Hl) Ed Es). by apply list_elem_of_fmap_2.
Qed.

Lemma plain_eff st us st' (vals : list Val) : spill_eff eff i st us st' vals <-> st'.1.2 = st.1.2 /\ eff i (st.1.1, st.2) us (st'.1.1, st'.2) vals.
Proof. unfold spill_eff. destruct Hplain. by rewrite !decide_False. Qed.

Lemma load_homes v slot : VRegOp v ∈ uses i -> slots !! v = Some slot -> hm (id v) = None.
Proof. intros Hv Es. apply (use_home v (use_vreg v Hv)). by exists slot. Qed.

Lemma load_names v u : VRegOp v ∈ uses i -> VRegOp u ∈ uses i -> id v = id u -> v = u.
Proof. intros Hv%use_vreg Hu%use_vreg. apply Hone; apply operand_reg, elem_of_app; by right. Qed.

Lemma store_slots v u slot : VRegOp v ∈ defs i -> VRegOp u ∈ defs i -> slots !! v = Some slot -> slots !! u = Some slot -> v = u.
Proof. intros Hv%def_vreg Hu%def_vreg. apply def_slots; [done|apply operand_reg, elem_of_app; by left|by left]. Qed.

Lemma def_clobbered l : l ∈ ploc <$> ids (vreg_defs i) -> clobbers hm i l.
Proof.
  intros (d & -> & Hd)%list_elem_of_fmap. left. exists d. split; [done|]. unfold touches. destruct (ploc d); [|done].
  apply overlap_refl.
Qed.

Lemma slot_clobbered z : clobbers hm i (Slot z) -> Slot z ∈ ploc <$> ids (vreg_defs i).
Proof.
  intros [(d & Hd & Ht)|(p & _ & [])]. unfold touches in Ht. destruct (ploc d) as [|y] eqn:Ed; [done|].
  unfold loc in Ed. destruct (hm d) eqn:Eh; [done|]. injection Ed as ->. subst. apply list_elem_of_fmap. exists z. split; [|done].
  unfold loc. by rewrite Eh.
Qed.

(** The spilled instruction does what the instruction does. *)
Lemma segment_back pm mem pm1 st st' pm' : backed b k pm mem pm1 ->
  pexec hm (spill_eff eff) (segment slots i) (st, mem) pm1 st' pm' ->
  exists pm2, pinst eff hm i st pm st'.1 pm2 /\ backed b (S k) pm2 st'.2 pm'.
Proof.
  intros Hback. unfold segment. rewrite pexec_app. intros (st1 & pml & Hloads & Hr).
  apply (loads_run eff hm slots (uses i) load_homes load_names) in Hloads as (-> & HL & Hkeep). cbn [snd] in HL.
  assert (Hregs : forall p, pml (Reg p) = pm1 (Reg p)) by (intros p; by apply Hkeep).
  inversion Hr as [|? ? ? ? st2 pm2 ? ? (vals & rho & rho' & Hrho & He & Hlen & Hd & Hw & Hk) Hstores]; subst. apply plain_eff in He as [Em He]. cbn [fst snd] in *.
  rewrite (uses_loaded pm mem pm1 pml Hback HL Hregs) in He.
  apply (stores_run eff hm slots (defs i) store_slots) in Hstores as (E1 & E2 & E3 & E4).
  exists (fun l => match l with
                   | Reg p => pm2 (Reg p)
                   | Slot z => if decide (Slot z ∈ ploc <$> ids (vreg_defs i)) then pm2 (Slot z) else pm (Slot z)
                   end). split.
  - exists vals, rho, rho'. rewrite E1. split_and!; [intros p; by rewrite Hrho, Hregs, (proj1 Hback)|done|done| |done|].
    + intros n d val Hn Hv. rewrite <- (Hd n d val Hn Hv). pose proof (list_elem_of_fmap_2 ploc _ _ (list_elem_of_lookup_2 _ _ _ Hn)) as Hin.
      destruct (ploc d) as [p|z]; [done|]. by rewrite decide_True.
    + intros [p|z] Hc; [by rewrite (Hk _ Hc), Hregs, (proj1 Hback)|]. rewrite decide_False; [done|]. intros H. by apply Hc, def_clobbered.
  - apply (backed_next pm mem pm1 pm' _ _ Hback).
    + intros p. by rewrite E2.
    + intros z Hz. by rewrite decide_True, E2.
    + intros z Hz. by rewrite decide_False.
    + intros v slot Hv Es. rewrite E2. by apply E3.
    + intros z Hz. by rewrite E4, Em.
Qed.

Lemma segment_forth pm mem pm1 st st' pm2 : backed b k pm mem pm1 -> pinst eff hm i st pm st' pm2 ->
  exists mem' pm', pexec hm (spill_eff eff) (segment slots i) (st, mem) pm1 (st', mem') pm' /\ backed b (S k) pm2 mem' pm'.
Proof.
  intros Hback (vals & rho & rho' & Hrho & He & Hlen & Hd & Hw & Hk).
  destruct (loads_exist eff hm slots (uses i) (st, mem) pm1 load_homes) as (pml & Hloads).
  destruct (loads_run eff hm slots (uses i) load_homes load_names _ _ _ _ Hloads) as (_ & HL & Hkeep). cbn [snd] in HL.
  assert (Hregs : forall p, pml (Reg p) = pm1 (Reg p)) by (intros p; by apply Hkeep).
  set (pm' := fun l => match l with
                       | Reg p => pm2 (Reg p)
                       | Slot z => if decide (Slot z ∈ ploc <$> ids (vreg_defs i)) then pm2 (Slot z) else pml (Slot z)
                       end).
  destruct (stores_exist eff hm slots (defs i) (st', mem) pm') as ([st2 mem'] & Hstores).
  destruct (stores_run eff hm slots (defs i) store_slots _ _ _ _ Hstores) as (E1 & _ & E3 & E4). cbn [fst snd] in *. subst st2.
  exists mem', pm'. split.
  - unfold segment. apply pexec_app. exists (st, mem), pml. split; [done|]. econstructor; [|exact Hstores].
    exists vals, rho, rho'. rewrite plain_eff. cbn [fst snd]. rewrite (uses_loaded pm mem pm1 pml Hback HL Hregs).
    split_and!; [intros p; by rewrite Hrho, Hregs, (proj1 Hback)|done|done|done| |done|].
    + intros n d val Hn Hv. rewrite <- (Hd n d val Hn Hv). pose proof (list_elem_of_fmap_2 ploc _ _ (list_elem_of_lookup_2 _ _ _ Hn)) as Hin.
      unfold pm'. destruct (ploc d) as [p|z]; [done|]. by rewrite decide_True.
    + intros [p|z] Hc; cbn; [by rewrite (Hk _ Hc), Hregs, (proj1 Hback)|]. rewrite decide_False; [done|]. intros H. by apply Hc, def_clobbered.
  - apply (backed_next pm mem pm1 pm' _ _ Hback); [done| | |done|done].
    + intros z Hz. cbn. by rewrite decide_True.
    + intros z Hz. apply Hk. intros H. by apply Hz, slot_clobbered.
Qed.
End Segments.

(** ** Runs *)

Section Code.
Context {S Val : Type} (home_ : Z -> option PReg) (e : RegAllocInst -> S * (PReg -> Val) -> list Val -> S * (PReg -> Val) -> list Val -> Prop).
Context (goto : S -> nat -> nat -> Prop) (h : RegAllocFunction).

Lemma code_lookup b p i : code h b !! p = Some i <-> exists j, block_insts (block h b) !! p = Some j /\ inst h j = i.
Proof.
  unfold code. rewrite list_lookup_fmap, fmap_Some. split; intros (j & Hj & Ej); exists j; by split.
Qed.

Lemma pstep_code b p i (st : S) (pm : Loc -> Val) c : code h b !! p = Some i ->
  pstep e goto h home_ (b, p, st, pm) c <-> exists st' pm', c = (b, Datatypes.S p, st', pm') /\ pinst e home_ i st pm st' pm'.
Proof.
  intros (j & Hj & <-)%code_lookup. split.
  - intros H. inversion H as [? ? j' ? st' ? pm' Hj' Hp|]; subst.
    + rewrite Hj in Hj'. injection Hj' as <-. by exists st', pm'.
    + apply lookup_lt_Some in Hj. lia.
  - intros (st' & pm' & -> & Hp). by eapply pstep_inst.
Qed.

Lemma nsteps_code n : forall b p (st : S) (pm : Loc -> Val) c, p + n <= length (code h b) ->
  nsteps (pstep e goto h home_) n (b, p, st, pm) c <->
  exists st' pm', c = (b, p + n, st', pm') /\ pexec home_ e (take n (drop p (code h b))) st pm st' pm'.
Proof.
  induction n as [|n IH]; intros b p st pm c Hn.
  - rewrite Nat.add_0_r. split.
    + intros H. inversion H; subst. exists st, pm. split; [done|constructor].
    + intros (st' & pm' & -> & He). inversion He; subst. constructor.
  - destruct (lookup_lt_is_Some_2 (code h b) p ltac:(lia)) as [i Hi].
    rewrite (drop_S _ i p Hi). cbn [take]. rewrite <- Nat.add_succ_comm. split.
    + intros H. inversion H as [|? ? c1 ? H1 H2]; subst. apply (pstep_code b p i st pm c1 Hi) in H1 as (st1 & pm1 & -> & Hp).
      apply IH in H2 as (st' & pm' & -> & He); [|lia]. exists st', pm'. split; [done|by econstructor].
    + intros (st' & pm' & -> & He). inversion He as [|? ? ? ? st1 pm1 ? ? Hp Hr]; subst. eapply nsteps_l.
      * apply (pstep_code b p i _ _ _ Hi). exists st1, pm1. by split.
      * apply IH; [lia|]. by exists st', pm'.
Qed.
End Code.

Section Runs.
Context (f : RegAllocFunction) (Hwf : wf_func f) (Hone : one_name f).
Context (w : LiveInterval -> spec_float) (target : gmap RegClass (list PReg)) (config_hints : gmap VReg (list PReg)).
Context (s : LinearScan) (Hrun : linear_scan_arm w target config_hints f = inr s).
Context (g : RegAllocFunction) (slots : gmap VReg Z).
Context (Hsp : spilled_code f g (spills s) (LiveBuild.intervals (compute_live_intervals f)) slots).
Context (Hplain : forall i, i ∈ insts f -> opcode i <> PSEUDO_SPILL_LOAD /\ opcode i <> PSEUDO_SPILL_STORE).
Context {State Val : Type} (eff : RegAllocInst -> State * (PReg -> Val) -> list Val -> State * (PReg -> Val) -> list Val -> Prop).
Context (goto : State -> nat -> nat -> Prop).

Abbreviation hm := (home f s).
Abbreviation fstep := (pstep eff goto f (home f s)).
Abbreviation gstep := (pstep (spill_eff eff) (fun st => goto st.1) g (home f s)).

(** The position of instruction [k] of a block, loads first. *)
Definition at_ (b k : nat) : nat := length (take k (code f b) ≫= segment slots).

Definition related (c : Config (State := State) (Val := Val) Loc) (pc : Config (State := State * (Z -> Val)) (Val := Val) Loc) : Prop :=
  let '(b, k, st, pm) := c in let '(b', k', st', pm') := pc in
  b' = b /\ k' = at_ b k /\ st'.1 = st /\ b ∈ block_order f /\ k <= length (code f b) /\ backed f slots b k pm st'.2 pm'.

Lemma at_S b k i : code f b !! k = Some i -> at_ b (S k) = at_ b k + length (segment slots i).
Proof. intros Hi. unfold at_. rewrite (take_S_r _ _ _ Hi), bind_app, length_app. cbn. rewrite app_nil_r. done. Qed.

Lemma at_mono b k k' : k <= k' -> at_ b k <= at_ b k'.
Proof.
  intros Hk. unfold at_. rewrite <- (take_drop k (take k' (code f b))), take_take, bind_app, length_app. rewrite Nat.min_l by lia. lia.
Qed.

Lemma segment_pos i : 0 < length (segment slots i).
Proof. unfold segment. rewrite length_app. cbn. lia. Qed.

Lemma at_end b : b ∈ block_order f -> at_ b (length (code f b)) = length (code g b).
Proof. intros Hb. unfold at_. by rewrite firstn_all, (sp_code _ _ _ _ _ Hsp b Hb). Qed.

Lemma at_inj b k k' : k <= length (code f b) -> k' <= length (code f b) -> at_ b k = at_ b k' -> k = k'.
Proof.
  assert (Hlt : forall x y, x < y -> y <= length (code f b) -> at_ b x < at_ b y).
  { intros x y Hxy Hy. destruct (lookup_lt_is_Some_2 (code f b) x ltac:(lia)) as [i Hi]. pose proof (at_S b x i Hi).
    pose proof (at_mono b (S x) y ltac:(lia)). pose proof (segment_pos i). lia. }
  intros Hk Hk' E. destruct (Nat.lt_trichotomy k k') as [H|[|H]]; [specialize (Hlt k k' H Hk')|done|specialize (Hlt k' k H Hk)]; lia.
Qed.

Lemma segment_code b k i : b ∈ block_order f -> code f b !! k = Some i ->
  take (length (segment slots i)) (drop (at_ b k) (code g b)) = segment slots i /\ at_ b k + length (segment slots i) <= length (code g b).
Proof.
  intros Hb Hi. rewrite (sp_code _ _ _ _ _ Hsp b Hb).
  assert (E : code f b ≫= segment slots = (take k (code f b) ≫= segment slots) ++ segment slots i ++ (drop (S k) (code f b) ≫= segment slots)).
  { rewrite <- (take_drop_middle _ _ _ Hi) at 1. by rewrite bind_app. }
  rewrite E. unfold at_. rewrite drop_app_length, take_app_length. split; [done|]. rewrite !length_app. lia.
Qed.

Lemma block_code b k : code f b !! k = None \/ exists j, block_insts (block f b) !! k = Some j /\ code f b !! k = Some (inst f j).
Proof.
  unfold code. rewrite list_lookup_fmap. destruct (block_insts (block f b) !! k) as [j|]; [right; by exists j|by left].
Qed.

Lemma laid_plain b k j : b ∈ block_order f -> block_insts (block f b) !! k = Some j ->
  opcode (inst f j) <> PSEUDO_SPILL_LOAD /\ opcode (inst f j) <> PSEUDO_SPILL_STORE.
Proof.
  intros Hb Hj. apply Hplain, list_elem_of_lookup_total_2, (insts_bound _ Hwf b); [done|]. by eapply list_elem_of_lookup_2.
Qed.

Lemma code_length (h : RegAllocFunction) b : length (block_insts (block h b)) = length (code h b).
Proof. unfold code. by rewrite length_fmap. Qed.

(** At the end of a block. *)
Lemma related_goto b x st pm st' pm' : related (b, length (code f b), st, pm) (b, length (code g b), st', pm') -> x ∈ succs (block f b) ->
  related (x, 0, st, pm) (x, 0, st', pm').
Proof.
  intros (_ & _ & Est & Hb & _ & Hr & Hs) Hx. split_and!; [done|done|done|by apply (succs_ordered _ Hwf b)|lia|]. split; [done|].
  intros v slot Hv Es Hl. apply Hs; [done|done|]. rewrite <- code_length. by eapply live_succ.
Qed.

Lemma spill_forth c c' pc : related c pc -> fstep c c' -> exists pc', rtc gstep pc pc' /\ related c' pc'.
Proof.
  destruct pc as [[[b' k'] [st1 mem]] pm1]. intros Hrel Hstep.
  destruct Hstep as [b k j st st' pm pm2 Hj Hp|b x st pm Hx Hg].
  - destruct Hrel as (-> & -> & Est & Hb & Hle & Hback). cbn in Est, Hback. subst st1.
    assert (Hi : code f b !! k = Some (inst f j)) by (apply code_lookup; by exists j).
    destruct (segment_forth f Hwf Hone w target config_hints s Hrun slots (sp_dom _ _ _ _ _ Hsp) (sp_apart _ _ _ _ _ Hsp) eff
      b k j Hb Hj (laid_plain b k j Hb Hj) pm mem pm1 st st' pm2 Hback Hp)
      as (mem' & pm' & Hx & Hback').
    destruct (segment_code b k _ Hb Hi) as [Et Hlen]. exists (b, at_ b (S k), (st', mem'), pm'). split.
    + eapply rtc_nsteps_2, (nsteps_code hm _ _ g (length (segment slots (inst f j)))); [done|]. exists (st', mem'), pm'.
      rewrite Et. split; [by rewrite (at_S b k _ Hi)|done].
    + split_and!; try done. apply lookup_lt_Some in Hi. lia.
  - pose proof Hrel as (-> & -> & Est & Hb & _). cbn in Est. subst st1. rewrite code_length in *.
    rewrite at_end in * by done. exists (x, 0, (st, mem), pm1). split; [|by eapply related_goto].
    apply rtc_once. rewrite <- code_length. constructor; [by rewrite (sp_succs _ _ _ _ _ Hsp b Hb)|done].
Qed.

Lemma spill_back n : forall c pc b k st pm, related c pc -> nsteps gstep n pc (b, at_ b k, st, pm) -> b ∈ block_order f -> k <= length (code f b) ->
  exists m, rtc fstep c (b, k, st.1, m) /\ related (b, k, st.1, m) (b, at_ b k, st, pm).
Proof.
  induction n as [n IH] using lt_wf_ind. intros [[[b0 k0] st0] pm0] [[[b1 k1] [st1 mem]] pm1] b k st pm Hrel Hn Hb Hk.
  pose proof Hrel as (-> & -> & Est & Hb0 & Hle & Hback). cbn in Est, Hback. subst st1.
  destruct (decide (n = 0)) as [->|Hpos].
  { inversion Hn as [? Ec|]; subst. assert (k0 = k) as ->; [|exists pm0; split; [constructor|done]].
    by apply (at_inj b). }
  destruct (block_code b0 k0) as [Hnone|(j & Hj & Hi)].
  - apply lookup_ge_None in Hnone. assert (k0 = length (code f b0)) as -> by lia. rewrite at_end in * by done.
    destruct n as [|n]; [lia|]. inversion Hn as [|? ? c1 ? H1 H2]; subst.
    inversion H1 as [? ? j' ? ? ? ? Hj'|? x ? ? Hx Hg]; subst; [apply lookup_lt_Some in Hj'; rewrite code_length in Hj'; lia|].
    rewrite (sp_succs _ _ _ _ _ Hsp b0 Hb0) in Hx. cbn in Hg.
    destruct (IH n ltac:(lia) (x, 0, st0, pm0) (x, 0, (st0, mem), pm1) b k st pm) as (m & Hr & Hm); [by eapply related_goto|done|done|done|].
    exists m. split; [|done]. eapply rtc_l; [|exact Hr]. rewrite <- code_length. by constructor.
  - destruct (segment_code b0 k0 _ Hb0 Hi) as [Et Hlen]. pose proof (segment_pos (inst f j)) as Hseg.
    destruct (decide (n < length (segment slots (inst f j)))) as [Hlt|Hge].
    + apply nsteps_code in Hn as (st' & pm' & E & _); [|lia]. injection E as -> E _ _. exfalso.
      destruct (decide (k <= k0)) as [Hkk|Hkk]; [pose proof (at_mono b0 k k0 Hkk); lia|].
      pose proof (at_mono b0 (S k0) k ltac:(lia)). pose proof (at_S b0 k0 _ Hi). lia.
    + replace n with (length (segment slots (inst f j)) + (n - length (segment slots (inst f j)))) in Hn by lia.
      apply nsteps_add_inv in Hn as (c1 & H1 & H2). apply nsteps_code in H1 as (st' & pm' & -> & Hx); [|lia]. rewrite Et in Hx.
      destruct (segment_back f Hwf Hone w target config_hints s Hrun slots (sp_dom _ _ _ _ _ Hsp) (sp_apart _ _ _ _ _ Hsp) eff
        b0 k0 j Hb0 Hj (laid_plain b0 k0 j Hb0 Hj) pm0 mem pm1 st0 st' pm' Hback Hx) as (pm2 & Hp & Hback').
      destruct (IH (n - length (segment slots (inst f j))) ltac:(lia) (b0, S k0, st'.1, pm2) (b0, at_ b0 (S k0), st', pm') b k st pm)
        as (m & Hr & Hm); [| |done|done|].
      * split_and!; try done. apply lookup_lt_Some in Hi. lia.
      * by rewrite (at_S b0 k0 _ Hi).
      * exists m. split; [|done]. eapply rtc_l; [|exact Hr]. apply (pstep_code hm eff goto f b0 k0 (inst f j) _ _ _ Hi). by exists st'.1, pm2.
Qed.

Lemma spill_run c c' pc : related c pc -> rtc fstep c c' -> exists pc', rtc gstep pc pc' /\ related c' pc'.
Proof.
  intros Hrel Hr. revert pc Hrel. induction Hr as [|c c1 c' Hstep _ IH]; intros pc Hrel; [by exists pc; split|].
  destruct (spill_forth c c1 pc Hrel Hstep) as (pc1 & H1 & Hrel1). destruct (IH pc1 Hrel1) as (pc' & H2 & Hrel'). exists pc'. split; [by etrans|done].
Qed.
End Runs.

(** ** Both phases *)

(** No spill instructions yet, and stack slots below [n]. *)
Definition unspilled (n : Z) (f : RegAllocFunction) : Prop :=
  forall i, i ∈ insts f -> (opcode i <> PSEUDO_SPILL_LOAD /\ opcode i <> PSEUDO_SPILL_STORE) /\ forall z, z ∈ slot_operands i -> (z < n)%Z.

Record spill_wf (func : SpillFunction) : Prop := mkSpillWf {
  sw_func : wf_func (sfunc func);
  sw_names : one_name (sfunc func);
  sw_plain : unspilled (next_stack_slot func) (sfunc func);
  sw_next : (0 <= next_stack_slot func)%Z;
  sw_room : (next_stack_slot func + Z.of_nat (length (LiveBuild.intervals (compute_live_intervals (sfunc func)))) < 2 ^ 32)%Z }.

Section Phases.
Context (func : SpillFunction) (Hwf : spill_wf func).
Abbreviation f := (sfunc func).
Context (w : LiveInterval -> spec_float) (target : gmap RegClass (list PReg)) (config_hints : gmap VReg (list PReg)).
Context (s : LinearScan) (Hrun : linear_scan_arm w target config_hints f = inr s) (reuse : bool).

Lemma spills_count : length (spills s) <= length (LiveBuild.intervals (compute_live_intervals f)).
Proof.
  pose proof (spills_once f (sw_func _ Hwf) w target config_hints s Hrun) as Hnd.
  destruct (arm_scanned f (sw_func _ Hwf) w target config_hints) as (s' & Hrun' & ivs & Hperm & Hs). rewrite Hrun in Hrun'. injection Hrun' as <-.
  rewrite <- (length_fmap snd), <- Hperm, <- (length_fmap vreg). apply submseteq_length, NoDup_submseteq; [done|]. intros v Hv.
  destruct (sc_spills _ _ _ _ _ _ Hs v Hv) as (_ & j & x & _ & Hx & <- & _). apply list_elem_of_fmap_2. by eapply list_elem_of_lookup_2.
Qed.

Lemma phases_code : exists slots, spilled_code f (sfunc (spill_phases true reuse func (spills s) (LiveBuild.intervals (compute_live_intervals f))).1)
  (spills s) (LiveBuild.intervals (compute_live_intervals f)) slots.
Proof.
  pose proof spills_count. pose proof (sw_room _ Hwf). apply spill_phases_spec.
  - apply (sw_func _ Hwf).
  - apply (spills_once f (sw_func _ Hwf) w target config_hints s Hrun).
  - apply (sw_next _ Hwf).
  - lia.
  - intros b i z Hb (j & -> & Hj)%list_elem_of_fmap. apply (sw_plain _ Hwf), list_elem_of_lookup_total_2, (insts_bound _ (sw_func _ Hwf) b); done.
Qed.
End Phases.

(** C4: Spilling preserves execution.  After linear scan on a well-formed function in
    which every register number is used with one class only ([half_register_lost]
    shows what happens otherwise),
    the phases that insert spill code and, if enabled, share spill slots give every spilled
    register a slot, and the code they produce runs like the allocated code: from
    configurations at the same instruction, in which the slots hold the spilled
    registers that are live, every run of the allocated code is matched by one of
    the spilled code, and every run of the spilled code that ends before an original
    instruction, ahead of its loads, is matched by one of the allocated code. *)
Theorem spill_code_preserves_execution {State Val : Type}
    (eff : RegAllocInst -> State * (PReg -> Val) -> list Val -> State * (PReg -> Val) -> list Val -> Prop)
    (goto : State -> nat -> nat -> Prop) (func : SpillFunction) (w : LiveInterval -> spec_float)
    (target : gmap RegClass (list PReg)) (config_hints : gmap VReg (list PReg)) (reuse : bool) :
  spill_wf func ->
  exists s slots, linear_scan_arm w target config_hints (sfunc func) = inr s /\ (forall v, is_Some (slots !! v) <-> v ∈ spills s) /\
  let g := sfunc (spill_phases true reuse func (spills s) (LiveBuild.intervals (compute_live_intervals (sfunc func)))).1 in
  let fstep := pstep eff goto (sfunc func) (home (sfunc func) s) in
  let gstep := pstep (spill_eff eff) (fun st => goto st.1) g (home (sfunc func) s) in
  forall (c : Config (State := State) (Val := Val) Loc) pc, related (sfunc func) slots c pc ->
    (forall c', rtc fstep c c' -> exists pc', rtc gstep pc pc' /\ related (sfunc func) slots c' pc') /\
    (forall b k st pm, b ∈ block_order (sfunc func) -> k <= length (code (sfunc func) b) ->
       rtc gstep pc (b, at_ (sfunc func) slots b k, st, pm) ->
       exists m, rtc fstep c (b, k, st.1, m) /\ related (sfunc func) slots (b, k, st.1, m) (b, at_ (sfunc func) slots b k, st, pm)).
Proof.
  intros Hwf. destruct (arm_scanned (sfunc func) (sw_func _ Hwf) w target config_hints) as (s & Hrun & _).
  destruct (phases_code func Hwf w target config_hints s Hrun reuse) as [slots Hsp].
  assert (Hplain : forall i, i ∈ insts (sfunc func) -> opcode i <> PSEUDO_SPILL_LOAD /\ opcode i <> PSEUDO_SPILL_STORE)
    by (intros i Hi; apply (sw_plain _ Hwf i Hi)).
  exists s, slots. split; [done|]. split; [apply (sp_dom _ _ _ _ _ Hsp)|]. intros g fstep gstep c pc Hrel. split.
  - intros c' Hr. by apply (spill_run (sfunc func) (sw_func _ Hwf) (sw_names _ Hwf) w target config_hints s Hrun g slots Hsp Hplain eff goto c).
  - intros b k st pm Hb Hk [n Hn]%rtc_nsteps_1.
    by apply (spill_back (sfunc func) (sw_func _ Hwf) (sw_names _ Hwf) w target config_hints s Hrun g slots Hsp Hplain eff goto n c pc).
Qed.

(** ** An example *)

(** Five values on a machine with one register. *)
Definition demo_spill : SpillFunction :=
  let v n := VRegOp (mkVReg n Gpr64) in
  mkSFunc (mkRFunc
    [ mkRInst 1 [v 0%Z] [] [] [] 0; mkRInst 1 [v 1%Z] [] [] [] 0; mkRInst 2 [v 2%Z] [v 0%Z; v 1%Z] [] [] 0;
      mkRInst 1 [v 3%Z] [] [] [] 0; mkRInst 2 [v 4%Z] [v 2%Z; v 3%Z] [] [] 0; mkRInst 3 [] [v 4%Z] [] [] 0x0C ]
    [mkRBlock [0; 1; 2; 3; 4; 5] [] [] 0] [0] 0 5) 0 ∅.
Definition one_register : gmap RegClass (list PReg) := {[Gpr64 := [mkPReg 0]]}.

(** Four of them are spilled, and the first and the last of these share a slot. *)
Example demo_spill_code :
  match linear_scan_arm demo_weight one_register ∅ (sfunc demo_spill) with
  | inr s =>
      let '(g, infos) := spill_phases true true demo_spill (spills s) (LiveBuild.intervals (compute_live_intervals (sfunc demo_spill))) in
      (fun i => (id (spill_vreg i), spill_slot i)) <$> infos = [(0, 0); (1, 1); (2, 2); (3, 0)]%Z /\
      (fun i => (opcode i, ids (vreg_defs i), ids (vreg_uses i))) <$> code (sfunc g) 0 =
        [(1, [0], []); (0xFFF0, [], [0]); (1, [1], []); (0xFFF0, [], [1]); (0xFFF1, [0], []); (0xFFF1, [1], []); (2, [2], [0; 1]);
         (0xFFF0, [], [2]); (1, [3], []); (0xFFF0, [], [3]); (0xFFF1, [2], []); (0xFFF1, [3], []); (2, [4], [2; 3]); (3, [], [4])]%Z /\
      (fun z => bool_decide (is_Some (stack_slots g !! z))) <$> [0; 1; 2; 3]%Z = [true; true; true; false]
  | inl _ => False
  end.
Proof. vm_compute. split_and!; try reflexivity. Qed.

(** A register that is also read by its low half: its interval is one, for the
    number, but the spill code is for the full register only, and the half has
    neither a home nor a slot. *)
Definition half_func : SpillFunction :=
  let v n := VRegOp (mkVReg n Gpr64) in
  mkSFunc (mkRFunc
    [ mkRInst 1 [v 0%Z] [] [] [] 0; mkRInst 1 [v 1%Z] [] [] [] 0; mkRInst 3 [] [VRegOp (mkVReg 0 Gpr32); v 1%Z] [] [] 0x0C ]
    [mkRBlock [0; 1; 2] [] [] 0] [0] 0 2) 0 ∅.

Example half_register_lost :
  match linear_scan_arm demo_weight one_register ∅ (sfunc half_func) with
  | inr s =>
      let '(g, infos) := spill_phases true true half_func (spills s) (LiveBuild.intervals (compute_live_intervals (sfunc half_func))) in
      infos = [mkSpill (mkVReg 0 Gpr64) 0] /\ allocation s !! mkVReg 0 Gpr32 = None /\
      opcode <$> code (sfunc g) 0 = [1; PSEUDO_SPILL_STORE; 1; 3]%Z
  | inl _ => False
  end.
Proof. vm_compute. split_and!; reflexivity. Qed.

(** Registers that all have one class. *)
Lemma one_class_names (f : RegAllocFunction) c :
  Forall (fun v => class v = c) (insts f ≫= fun i => vreg_defs i ++ vreg_uses i) -> one_name f.
Proof.
  intros H. rewrite Forall_forall in H. assert (Hc : forall v, arena_reg f v -> class v = c).
  { intros v (i & Hi & Hv). apply H, list_elem_of_bind. by exists i. }
  intros [n1 c1] [n2 c2] H1%Hc H2%Hc E. cbn in *. by subst.
Qed.

Lemma demo_spill_wf : spill_wf demo_spill.
Proof.
  split.
  - apply wf_check_sound. by vm_compute.
  - apply (one_class_names _ Gpr64). apply (bool_decide_unpack _). by vm_compute.
  - assert (H : Forall (fun i => (opcode i <> PSEUDO_SPILL_LOAD /\ opcode i <> PSEUDO_SPILL_STORE) /\ slot_operands i = []) (insts (sfunc demo_spill)))
      by (apply (bool_decide_unpack _); by vm_compute).
    rewrite Forall_forall in H. intros i Hi. destruct (H i Hi) as [Ho ->]. split; [done|]. by intros z []%elem_of_nil.
  - done.
  - by vm_compute.
Qed.

(** The first value is stored right after it is defined. *)
Lemma spill_code_preserves_execution_witness :
  exists s (slots : gmap VReg Z), linear_scan_arm demo_weight one_register ∅ (sfunc demo_spill) = inr s /\
    let g := sfunc (spill_phases true true demo_spill (spills s) (LiveBuild.intervals (compute_live_intervals (sfunc demo_spill)))).1 in
    exists slot mem pm, slots !! mkVReg 0 Gpr64 = Some slot /\ mem slot = 1%Z /\
      rtc (pstep (spill_eff sum_machine) (fun _ _ _ => True) g (home (sfunc demo_spill) s))
        (0, 0, (7%Z, fun _ => 0%Z), fun _ => 0%Z) (0, 2, (7%Z, mem), pm).
Proof.
  destruct (spill_code_preserves_execution sum_machine (fun _ _ _ => True) demo_spill demo_weight one_register ∅ true demo_spill_wf)
    as (s & slots & Hrun & Hdom & Hsim).
  exists s, slots. split; [exact Hrun|]. intros g.
  assert (Hs : mkVReg 0 Gpr64 ∈ spills s /\ home (sfunc demo_spill) s 0 = None).
  { assert (H : match linear_scan_arm demo_weight one_register ∅ (sfunc demo_spill) with
                | inr s => mkVReg 0 Gpr64 ∈ spills s /\ home (sfunc demo_spill) s 0 = None
                | inl _ => False end) by (vm_compute; split; [left|reflexivity]).
    by rewrite Hrun in H. }
  destruct Hs as [Hs Hh]. apply Hdom in Hs as [slot Es].
  destruct (Hsim (0, 0, 7%Z, fun _ => 0%Z) (0, 0, (7%Z, fun _ => 0%Z), fun _ => 0%Z)) as [Hforth _].
  { split_and!; [done|done|done|left|lia|]. by split. }
  destruct (Hforth (0, 1, 7%Z, fun l => if decide (l = Slot 0) then 1%Z else 0%Z)) as ([[[b k] [st mem]] pm] & Hr & Hrel).
  { apply rtc_once. eapply (pstep_inst _ _ _ _ 0 0 0); [reflexivity|]. exists [1%Z], (fun _ => 0%Z), (fun _ => 0%Z).
    split_and!; [done| |done| | |].
    - split; [reflexivity|]. split; reflexivity.
    - intros [|j] d val; [|done]. intros [= <-] [= <-]. unfold loc. rewrite Hh. done.
    - by intros q (p & []%elem_of_nil & _).
    - intros l Hl. rewrite decide_False; [done|]. intros ->. apply Hl. left. exists 0%Z. split; [left|]. unfold loc. by rewrite Hh. }
  destruct Hrel as (-> & -> & E & _ & _ & _ & Hback). cbn in E. subst st. exists slot, mem, pm. split; [exact Es|]. split.
  - etrans; [apply (Hback (mkVReg 0 Gpr64) slot); [|done|]|done].
    + exists (inst (sfunc demo_spill) 0). split; [left|left].
    + eapply live_skip; [reflexivity| |].
      * intros H. by apply list_elem_of_singleton in H.
      * eapply live_use; [reflexivity|]. left.
  - assert (Eat : at_ (sfunc demo_spill) slots 0 1 = 2); [|by rewrite Eat in Hr]. unfold at_. cbn. by rewrite Es.
Defined.
