(* ===== verification/PhisAlloc.v ===== *)
(** * From phis to spilled code ([crates/trust-cg-regalloc/src]: [phi_elim.rs], [lib.rs])

    The phases of [allocate_core] around the linear-scan arm, composed: edge
    splitting, phi elimination, liveness, intervals, reservations, hints, linear
    scan, spill code and the sharing of spill slots.  The theorem relates runs of
    the function with phis to runs of the final code. *)

From S2P Require Import Frame.
From S2P Require Import Prelude Regs Liveness LiveSets LinearScan LinearScanSound LiveFlow LiveBuild Reserve FixedRegs AllocExec.
From S2P Require Import ParCopy Phis PhisSound PhisEdges PhisExec Spill SpillSound SpillExec.
From Stdlib Require Import Floats.SpecFloat.
Local Open Scope nat_scope.

(** ** The lowered function is one the allocator accepts *)

(** What holds of all instructions still holds after the splitting, if it does not
    look at block operands and holds of jumps. *)
Lemma split_arena (P : RegAllocInst -> Prop) (f : RegAllocFunction) :
  (forall r i, P i -> P (map_blocks r i)) -> (forall d, P (jump_inst d)) -> Forall P (insts f) ->
  Forall P (insts (split_critical_edges f).2).
Proof.
  intros Hmap Hjump. unfold split_critical_edges. cbn [snd]. generalize (critical_edges f) as E. intros E. revert f.
  induction E as [|[p d] E IH]; intros f Hf; cbn; [done|]. apply IH. cbn.
  assert (H : Forall P (insts f ++ [jump_inst d])) by (apply Forall_app; split; [done|by apply Forall_singleton]).
  revert H. generalize (insts f ++ [jump_inst d]) as l. generalize (replace d (length (blocks f))) as r. intros r.
  match goal with |- forall l, _ -> Forall P (fold_left _ ?js l) => generalize js end.
  intros js. induction js as [|i js IHi]; intros l Hl; cbn; [done|].
  apply IHi. apply Forall_alter; [done|]. intros x _ Hx. by apply Hmap.
Qed.

(** The same over both phases. *)
Lemma lowered_arena (P : RegAllocInst -> Prop) (f h : RegAllocFunction) : phi_wf f ->
  eliminated (split_critical_edges f).2 h ->
  (forall r i, P i -> P (map_blocks r i)) -> (forall d, P (jump_inst d)) ->
  (forall c, (0 <= id c.1 /\ 0 <= id c.2)%Z -> P (copy_inst c)) -> (forall i, i ∈ insts f -> P i) ->
  forall i, i ∈ insts h -> P i.
Proof.
  intros Hwf Hel Hmap Hjump Hcopy Hf i Hi. pose proof (split_elim_wf f Hwf) as Hg. destruct (el_new _ _ Hel) as [tau Hnew].
  destruct (Hnew i Hi) as [Hi'|(c & -> & H1 & H2)].
  - pose proof (split_arena P f Hmap Hjump ltac:(by apply Forall_forall)) as H. rewrite Forall_forall in H. by apply H.
  - pose proof (ew_vreg _ Hg). apply Hcopy.
    assert (Hk : forall r, new_reg (split_critical_edges f).2 tau (next_vreg h) r -> (0 <= id r)%Z); [|split; by apply Hk].
    intros r [(p & Hp & c' & Hc & Hr)|[Hr _]]; [|lia]. pose proof (ew_pos _ Hg p Hp) as Hpos. rewrite Forall_forall in Hpos.
    destruct (Hpos c' Hc), Hr as [-> | ->]; done.
Qed.

(** The registers of the result. *)
Lemma lowered_reg (f h : RegAllocFunction) : phi_wf f -> eliminated (split_critical_edges f).2 h ->
  exists tau, forall v, arena_reg h v -> arena_reg f v \/ ((next_vreg f <= id v)%Z /\ class v = tau (id v)).
Proof.
  intros Hwf Hel. destruct (el_new _ _ Hel) as [tau Hnew]. exists tau. intros v (i & Hi & Hv).
  destruct (Hnew i Hi) as [Hi'|(c & -> & H1 & H2)].
  - left. revert v Hv. pose proof (split_arena (fun i => forall v, v ∈ vreg_defs i ++ vreg_uses i -> arena_reg f v) f) as H.
    rewrite !Forall_forall in H. apply H; [| | |done].
    + intros r i' H' v. rewrite uses_blocks. apply H'.
    + intros d v Hv. by apply elem_of_nil in Hv.
    + intros i' Hi0 v Hv. by exists i'.
  - assert (Hk : forall r, new_reg (split_critical_edges f).2 tau (next_vreg h) r -> arena_reg f r \/ ((next_vreg f <= id r)%Z /\ class r = tau (id r))).
    { intros r [(p & Hp & c' & Hc & Hr)|[Hr Ec]]; [left|right; rewrite (so_vreg _ _ _ (split_facts f Hwf)) in Hr; split; [lia|done]].
      pose proof (copies_regs f Hwf p Hp) as Hf. rewrite Forall_forall in Hf. destruct (Hf c' Hc) as [F1 F2].
      destruct Hr as [-> | ->]; [destruct F1 as (b & j & Hb & Hj & Hr)|destruct F2 as (b & j & Hb & Hj & Hr)];
        apply list_elem_of_fmap in Hj as (j' & -> & Hj'); by apply (laid_reg f (pw_func _ Hwf) b j'). }
    cbn in Hv. apply elem_of_cons in Hv as [->|Hv]; [by apply Hk|]. apply list_elem_of_singleton in Hv as ->. by apply Hk.
Qed.

Lemma lowered_names (f h : RegAllocFunction) : phi_wf f -> eliminated (split_critical_edges f).2 h -> one_name f ->
  (forall v, arena_reg f v -> (id v < next_vreg f)%Z) -> one_name h.
Proof.
  intros Hwf Hel Hone Hbound v v' Hv Hv' E. destruct (lowered_reg f h Hwf Hel) as [tau Hr].
  destruct (Hr v Hv) as [H|[H Ec]], (Hr v' Hv') as [H'|[H' Ec']].
  - by apply Hone.
  - apply Hbound in H. lia.
  - apply Hbound in H'. lia.
  - destruct v, v'. cbn in *. congruence.
Qed.

Definition inst_total (h : RegAllocFunction) : Z := Z.of_nat (length (block_order h ≫= fun b => block_insts (block h b))).

Lemma lowered_wf (f h : RegAllocFunction) :
  phi_wf f -> eliminated (split_critical_edges f).2 h -> (inst_total h < 2 ^ 32)%Z -> wf_func h.
Proof.
  intros Hwf Hel Hroom. pose proof (split_elim_wf f Hwf) as Hg. pose proof (el_order _ _ Hel) as Ho.
  split; rewrite ?Ho.
  - intros b Hb. rewrite (el_blocks _ _ Hel). by apply (ew_blocks _ Hg).
  - apply (ew_nodup _ Hg).
  - intros b s Hb. destruct (el_lowered _ _ Hel b Hb) as (_ & _ & _ & _ & -> & _).
    destruct (proj1 (order_cases f Hwf b) Hb) as [Hf|(j & p & d & Hj & ->)].
    + rewrite (so_old _ _ _ (split_facts f Hwf)) by by apply (order_lt f Hwf). cbn [succs].
      intros (s0 & -> & Hs)%list_elem_of_fmap. apply (order_cases f Hwf).
      destruct (ren_cases f Hwf b s0 Hf Hs) as [(-> & _ & Hs0)|(j & Ej & -> & _)]; [by left|right; by exists j, b, s0].
    + rewrite (so_new _ _ _ (split_facts f Hwf) j p d Hj). cbn [succs]. intros ->%list_elem_of_singleton.
      apply list_elem_of_lookup_2, elem_of_critical in Hj as (Hp & Hd & _). apply (order_cases f Hwf). left.
      by apply (succs_ordered _ (pw_func _ Hwf) p).
  - intros b i. apply (el_bound _ _ Hel).
  - apply (el_uniq _ _ Hel).
  - unfold inst_total in Hroom. by rewrite Ho in Hroom.
  - intros i v Hi. revert v. apply (lowered_arena (fun i => forall v, v ∈ vreg_defs i ++ vreg_uses i -> (0 <= id v)%Z) f h Hwf Hel); [| | | |done].
    + intros r i' H v. rewrite uses_blocks. apply H.
    + intros d v Hv. by apply elem_of_nil in Hv.
    + intros c [H1 H2] v Hv. cbn in Hv. apply elem_of_cons in Hv as [->|Hv]; [done|]. by apply list_elem_of_singleton in Hv as ->.
    + intros i' Hi' v Hv. by apply (vreg_ids _ (pw_func _ Hwf) i').
  - pose proof (el_vreg _ _ Hel). pose proof (ew_vreg _ Hg). lia.
Qed.

Lemma lowered_plain (f h : RegAllocFunction) : phi_wf f -> eliminated (split_critical_edges f).2 h -> plain_copies f -> plain_copies h.
Proof.
  intros Hwf Hel Hf. intros i. by apply (lowered_arena (fun i => is_copy_opcode (opcode i) = true -> length (defs i) = 1 /\ implicit_defs i = []) f h Hwf Hel).
Qed.

Lemma lowered_distinct (f h : RegAllocFunction) : phi_wf f -> eliminated (split_critical_edges f).2 h -> distinct_defs f -> distinct_defs h.
Proof.
  intros Hwf Hel Hf. intros i. apply (lowered_arena (fun i => NoDup (ids (vreg_defs i))) f h Hwf Hel); [done| | |done].
  - intros d. apply NoDup_nil_2.
  - intros c _. apply NoDup_singleton.
Qed.

Lemma slots_blocks r i : slot_operands (map_blocks r i) = slot_operands i.
Proof. unfold slot_operands. cbn. rewrite !omap_app. f_equal. induction (uses i) as [|[] l IH]; cbn; by rewrite ?IH. Qed.

Lemma lowered_unspilled n (f h : RegAllocFunction) : phi_wf f -> eliminated (split_critical_edges f).2 h -> unspilled n f -> unspilled n h.
Proof.
  intros Hwf Hel Hf. intros i.
  apply (lowered_arena (fun i => (opcode i <> PSEUDO_SPILL_LOAD /\ opcode i <> PSEUDO_SPILL_STORE) /\ forall z, z ∈ slot_operands i -> (z < n)%Z) f h Hwf Hel); [| | |done].
  - intros r i' H. rewrite slots_blocks. exact H.
  - intros d. split; [done|]. by intros z []%elem_of_nil.
  - intros c _. split; [done|]. by intros z []%elem_of_nil.
Qed.

(** ** Stores by register and stores by number *)

Section Bridge.
Context {State Val : Type} (eff : RegAllocInst -> State -> list Val -> State -> list Val -> Prop).
Context (goto : State -> nat -> nat -> Prop) (h : RegAllocFunction) (b : nat).
Context (V : VReg -> Prop) (Hinj : forall v v', V v -> V v' -> id v = id v' -> v = v').
Context (Hregs : forall i v, i ∈ code h b -> v ∈ vreg_defs i ++ vreg_uses i -> V v).

Definition mirrors (m : VReg -> Val) (mz : Z -> Val) : Prop := forall v, V v -> m v = mz (id v).

Lemma assign_mirrors m mz ds vals : (forall d, d ∈ ds -> V d) -> mirrors m mz -> mirrors (assign m ds vals) (assign mz (ids ds) vals).
Proof.
  unfold assign. revert m mz vals. induction ds as [|d ds IH]; intros m mz [|x vals] Hd Hm; cbn; try done.
  apply IH; [intros; apply Hd; by right|]. intros v Hv. cbn. repeat case_decide; subst; try done; [|by apply Hm].
  match goal with H : _ <> _ |- _ => destruct H end. symmetry. apply Hinj; [|done|done]. apply Hd. left.
Qed.

Lemma uses_mirrors m mz i : i ∈ code h b -> mirrors m mz -> mz <$> ids (vreg_uses i) = m <$> vreg_uses i.
Proof.
  intros Hi Hm. unfold ids. rewrite <- list_fmap_compose. apply list_fmap_ext. intros k v Hv. symmetry. apply Hm, (Hregs i); [done|].
  apply elem_of_app. right. by eapply list_elem_of_lookup_2.
Qed.

Abbreviation n := (length (block_insts (block h b))).

Lemma code_suffix k l : drop k (block_insts (block h b)) = l -> forall j, j ∈ l -> inst h j ∈ code h b.
Proof. intros <- j Hj. apply list_elem_of_fmap_2. rewrite <- (take_drop k (block_insts (block h b))). apply elem_of_app. by right. Qed.

Lemma defs_known m mz i vals : i ∈ code h b -> mirrors m mz -> mirrors (assign m (vreg_defs i) vals) (assign mz (ids (vreg_defs i)) vals).
Proof. intros Hi. apply assign_mirrors. intros d Hd. apply (Hregs i); [done|]. apply elem_of_app. by left. Qed.

Lemma drop_cons k j l : drop k (block_insts (block h b)) = j :: l ->
  block_insts (block h b) !! k = Some j /\ drop (S k) (block_insts (block h b)) = l.
Proof.
  intros H. split; [by rewrite <- (Nat.add_0_r k), <- lookup_drop, H|]. by rewrite <- Nat.add_1_r, <- drop_drop, H.
Qed.

Lemma insts_forward l : forall k st m mz st' m', drop k (block_insts (block h b)) = l -> k + length l = n -> mirrors m mz ->
  exec eff (inst h <$> l) st m st' m' ->
  exists mz', nsteps (vstep eff goto h) (length l) (b, k, st, mz) (b, n, st', mz') /\ mirrors m' mz'.
Proof.
  induction l as [|j l IH]; intros k st m mz st' m' Hd Hk Hm He; cbn [fmap list_fmap length] in *.
  - inversion He; subst. exists mz. replace k with n by lia. split; [constructor|done].
  - inversion He as [|? ? ? ? st1 vals ? ? Hi Hl Hr]; subst. pose proof (code_suffix k _ Hd j ltac:(left)) as Hj.
    destruct (drop_cons k j l Hd) as [Hkj Hd'].
    destruct (IH (S k) st1 _ _ st' m' Hd' ltac:(lia) (defs_known m mz (inst h j) vals Hj Hm) Hr) as (mz' & Hn & Hm').
    exists mz'. split; [|done]. eapply nsteps_l; [|exact Hn]. eapply vstep_inst; [done| |done]. by rewrite (uses_mirrors m).
Qed.

Lemma insts_backward l : forall k st m mz c, drop k (block_insts (block h b)) = l -> k + length l = n -> mirrors m mz ->
  nsteps (vstep eff goto h) (length l) (b, k, st, mz) c ->
  exists st' mz' m', c = (b, n, st', mz') /\ exec eff (inst h <$> l) st m st' m' /\ mirrors m' mz'.
Proof.
  induction l as [|j l IH]; intros k st m mz c Hd Hk Hm Hs; cbn [fmap list_fmap length] in *.
  - inversion Hs; subst. exists st, mz, m. replace k with n by lia. split_and!; [done|constructor|done].
  - inversion Hs as [|? ? c1 ? H1 Hn]; subst. inversion H1 as [? ? i ? st1 ? vals Hi He Hl|]; subst; [|lia].
    pose proof (code_suffix k _ Hd j ltac:(left)) as Hj. destruct (drop_cons k j l Hd) as [Hkj Hd'].
    rewrite Hkj in Hi. injection Hi as <-. rewrite (uses_mirrors m) in He by done.
    destruct (IH (S k) st1 _ _ c Hd' ltac:(lia) (defs_known m mz (inst h j) vals Hj Hm) Hn) as (st' & mz' & m' & -> & Hx & Hm').
    exists st', mz', m'. split_and!; [done|by econstructor|done].
Qed.

(** A whole block, with the branch at its end. *)
Lemma block_forward s st m mz st' m' : s ∈ succs (block h b) -> goto st' b s -> mirrors m mz -> exec eff (code h b) st m st' m' ->
  exists mz', nsteps (vstep eff goto h) (S n) (b, 0, st, mz) (s, 0, st', mz') /\ mirrors m' mz'.
Proof.
  intros Hs Hg Hm He. destruct (insts_forward (block_insts (block h b)) 0 st m mz st' m' (drop_0 _) ltac:(done) Hm He) as (mz' & Hn & Hm').
  exists mz'. split; [|done]. eapply nsteps_r; [exact Hn|by constructor].
Qed.

Lemma block_backward st m mz c : mirrors m mz -> nsteps (vstep eff goto h) (S n) (b, 0, st, mz) c ->
  exists s st' mz' m', c = (s, 0, st', mz') /\ s ∈ succs (block h b) /\ goto st' b s /\ exec eff (code h b) st m st' m' /\ mirrors m' mz'.
Proof.
  intros Hm (c1 & Hn & H1)%nsteps_inv_r.
  destruct (insts_backward (block_insts (block h b)) 0 st m mz c1 (drop_0 _) ltac:(done) Hm Hn) as (st' & mz' & m' & -> & He & Hm').
  inversion H1 as [? ? i ? ? ? vals Hi|? s ? ? Hs Hg]; subst; [apply lookup_lt_Some in Hi; lia|]. by exists s, st', mz', m'.
Qed.
End Bridge.

(** ** Runs over virtual registers *)

Section Virtual.
Context (f : RegAllocFunction) (Hwf : phi_wf f) (h : RegAllocFunction) (Hel : eliminated (split_critical_edges f).2 h).
Context (Hwfh : wf_func h) (Hname : one_name h).
Context {State Val : Type} (eff : RegAllocInst -> State -> list Val -> State -> list Val -> Prop).
Context (branch : State -> nat -> nat -> Prop).

Abbreviation g := (split_critical_edges f).2.

(** The branches of the block machine, for single instructions. *)
Definition takes (st : State) (b x : nat) : Prop := exists k, branch st b k /\ succs (block h b) !! k = Some x.

Abbreviation vrun := (nsteps (vstep eff takes h)).
Abbreviation len b := (length (block_insts (block h b))).

Lemma func_arena v : func_reg f v -> arena_reg h v.
Proof.
  intros (b & i & Hb & Hi & Hv). apply list_elem_of_fmap in Hi as (j & -> & Hj). pose proof (split_facts f Hwf) as Sf.
  exists (inst h j). pose proof (prefix_length _ _ (el_insts _ _ Hel)) as Hl. rewrite (so_insts _ _ _ Sf) in Hl.
  pose proof (insts_bound _ (pw_func _ Hwf) b j Hb Hj) as Hlt. split; [apply list_elem_of_lookup_total_2; lia|].
  rewrite (el_kept _ _ Hel b j (laid_split f Hwf b Hb)), (so_inst _ _ _ Sf b j Hb Hj), uses_blocks; [done|].
  by rewrite (so_old _ _ _ Sf) by by apply (order_lt f Hwf).
Qed.

Lemma code_arena b i v : b ∈ block_order g -> i ∈ code h b -> v ∈ vreg_defs i ++ vreg_uses i -> arena_reg h v.
Proof. intros Hb (j & -> & Hj)%list_elem_of_fmap. apply (laid_reg h Hwfh b); [by rewrite (el_order _ _ Hel)|done]. Qed.

(** The stores agree on the registers of the function. *)
Definition tracks (m : VReg -> Val) (mz : Z -> Val) : Prop := forall v, func_reg f v -> m v = mz (id v).

Abbreviation by_reg mz := (fun v : VReg => mz (id v)).

Lemma reg_bound v : func_reg f v -> (id v < next_vreg f)%Z.
Proof. intros Hv%(func_reg_bounds f Hwf). lia. Qed.

(** One block of the lowered function. *)
Lemma block_run_forward b st (mz : Z -> Val) x st' mt : b ∈ block_order g -> x ∈ block_order g ->
  step eff branch h (b, st, by_reg mz) (x, st', mt) ->
  exists mz', vrun (S (len b)) (b, 0, st, mz) (x, 0, st', mz') /\ tracks mt mz'.
Proof.
  intros Hb Hx Hs. apply (step_lowered f h (el_lowered _ _ Hel)) in Hs as (k & m1 & He & Hk & Hl & Hm); [|done|done].
  destruct (block_forward eff takes h b (arena_reg h) Hname (fun i v => code_arena b i v Hb) x st (by_reg mz) mz st' m1) as (mz' & Hn & Hmz);
    [by eapply list_elem_of_lookup_2|by exists k|done|done|].
  exists mz'. split; [done|]. intros v Hv. rewrite Hm. by apply Hmz, func_arena.
Qed.

Lemma block_run_backward b st (mz : Z -> Val) c : b ∈ block_order g -> vrun (S (len b)) (b, 0, st, mz) c ->
  exists x st' mz' mt, c = (x, 0, st', mz') /\ x ∈ block_order g /\ step eff branch h (b, st, by_reg mz) (x, st', mt) /\ tracks mt mz'.
Proof.
  intros Hb Hn. destruct (block_backward eff takes h b (arena_reg h) Hname (fun i v => code_arena b i v Hb) st (by_reg mz) mz c ltac:(done) Hn)
    as (x & st' & mz' & m1 & -> & Hx & (k & Hk & Hl) & He & Hmz).
  assert (Hxg : x ∈ block_order g) by (rewrite <- (el_order _ _ Hel) in *; by apply (succs_ordered _ Hwfh b)).
  exists x, st', mz', m1. split_and!; [done|done| |intros v Hv; by apply Hmz, func_arena].
  apply (step_lowered f h (el_lowered _ _ Hel)); [done|done|]. by exists k, m1.
Qed.

(** Inside a block the position counts the steps. *)
Lemma vrun_within b n : forall k (st : State) (mz : Z -> Val) c, k + n <= len b -> vrun n (b, k, st, mz) c ->
  exists st' mz', c = (b, k + n, st', mz').
Proof.
  induction n as [|n IH]; intros k st mz c Hk Hn; inversion Hn as [|? ? c1 ? H1 H2]; subst.
  - exists st, mz. by rewrite Nat.add_0_r.
  - inversion H1 as [? ? i ? st1 ? vals|]; subst; [|lia].
    destruct (IH (S k) st1 _ c ltac:(lia) H2) as (st' & mz' & ->). exists st', mz'. by rewrite Nat.add_succ_r.
Qed.

(** A run from the start of a block to the start of another one begins with all of
    the first. *)
Lemma vrun_block n b (st : State) (mz : Z -> Val) x st' mz' : 0 < n -> vrun n (b, 0, st, mz) (x, 0, st', mz') ->
  exists c n', vrun (S (len b)) (b, 0, st, mz) c /\ vrun n' c (x, 0, st', mz') /\ n' < n.
Proof.
  intros Hn H. destruct (decide (n <= len b)) as [Hle|Hgt].
  - destruct (vrun_within b n 0 st mz _ Hle H) as (? & ? & E). injection E. lia.
  - replace n with (S (len b) + (n - S (len b))) in H by lia. apply nsteps_add_inv in H as (c & H1 & H2).
    exists c, (n - S (len b)). split_and!; [done|done|lia].
Qed.

Context (Hmach : machine_ok eff) (Hjumps : forall st x, length (blocks f) <= x -> branch st x 0).

Lemma step_laid b st (m : VReg -> Val) x st' m' : b ∈ block_order f -> step eff branch f (b, st, m) (x, st', m') -> x ∈ block_order f.
Proof.
  intros Hb H. inversion H as [? ? k ? ? ? m1 ? He Hk Hl Hm]; subst. apply (succs_ordered _ (pw_func _ Hwf) b); [done|].
  by eapply list_elem_of_lookup_2.
Qed.

Lemma tracks_agree m mt mz : agree (func_reg f) m mt -> tracks mt mz -> tracks m mz.
Proof. intros Ha Ht v Hv. rewrite (Ha v Hv). by apply Ht. Qed.

Lemma source_step b st m mz x st' m' : b ∈ block_order f -> tracks m mz -> step eff branch f (b, st, m) (x, st', m') ->
  exists mz', rtc (vstep eff takes h) (b, 0, st, mz) (x, 0, st', mz') /\ tracks m' mz'.
Proof.
  intros Hb Ht Hs. pose proof (step_laid b st m x st' m' Hb Hs) as Hx.
  destruct (forward f Hwf h (el_lowered _ _ Hel) (func_reg f) reg_bound (fun _ H => H) eff branch Hmach Hjumps
    b x st m (by_reg mz) st' m' Hb Ht Hs) as [(mt & Ha & H1)|(y & mt & Hy & Hyg & H1 & H2)].
  - destruct (block_run_forward b st mz x st' mt (laid_split f Hwf b Hb) (laid_split f Hwf x Hx) H1) as (mz' & Hp & Ht').
    exists mz'. split; [by eapply rtc_nsteps_2|by eapply tracks_agree].
  - destruct (block_run_forward b st mz y st' mt (laid_split f Hwf b Hb) Hyg H1) as (mz1 & Hp1 & Ht1).
    destruct (H2 (by_reg mz1) Ht1) as (mt' & Ha & H3).
    destruct (block_run_forward y st' mz1 x st' mt' Hyg (laid_split f Hwf x Hx) H3) as (mz' & Hp & Ht').
    exists mz'. split; [|by eapply tracks_agree]. etrans; [by eapply rtc_nsteps_2|by eapply rtc_nsteps_2].
Qed.

Lemma source_run c c' : rtc (step eff branch f) c c' -> forall mz, c.1.1 ∈ block_order f -> tracks c.2 mz ->
  c'.1.1 ∈ block_order f /\ exists mz', rtc (vstep eff takes h) (c.1.1, 0, c.1.2, mz) (c'.1.1, 0, c'.1.2, mz') /\ tracks c'.2 mz'.
Proof.
  induction 1 as [[[b st] m]|[[b st] m] [[x st1] m1] c' Hs _ IH]; intros mz Hb Ht; cbn [fst snd] in *; [split; [done|]; exists mz; by split; [constructor|]|].
  destruct (source_step b st m mz x st1 m1 Hb Ht Hs) as (mz1 & H1 & Ht1).
  destruct (IH mz1 (step_laid b st m x st1 m1 Hb Hs) Ht1) as (Hx & mz' & H2 & Ht'). split; [done|]. exists mz'. split; [by etrans|done].
Qed.

Lemma virtual_run n : forall b st m mz x st' mz', b ∈ block_order f -> x ∈ block_order f -> tracks m mz ->
  vrun n (b, 0, st, mz) (x, 0, st', mz') ->
  exists m', rtc (step eff branch f) (b, st, m) (x, st', m') /\ tracks m' mz'.
Proof.
  induction n as [n IH] using lt_wf_ind; intros b st m mz x st' mz' Hb Hx Ht Hn.
  destruct (decide (n = 0)) as [->|Hpos]; [inversion Hn; subst; exists m; by split; [constructor|]|].
  destruct (vrun_block n b st mz x st' mz' ltac:(lia) Hn) as (c & n' & H1 & H2 & Hlt).
  destruct (block_run_backward b st mz c (laid_split f Hwf b Hb) H1) as (y & st1 & mz1 & mt & -> & Hy & Hs & Ht1).
  destruct (backward f Hwf h (el_lowered _ _ Hel) (func_reg f) reg_bound (fun _ H => H) eff branch Hmach
    b y st m (by_reg mz) st1 mt Hb Ht Hs) as (_ & [(Hyf & m1 & Hs1 & Ha)|(Hyn & z & m1 & Hs1 & Hnext)]).
  - destruct (IH n' Hlt y st1 m1 mz1 x st' mz' Hyf Hx) as (m' & Hr & Ht'); [by eapply tracks_agree|done|].
    exists m'. split; [by eapply rtc_l|done].
  - destruct (decide (n' = 0)) as [->|Hpos']; [inversion H2; by subst|].
    destruct (vrun_block n' y st1 mz1 x st' mz' ltac:(lia) H2) as (c & n2 & H3 & H4 & Hlt2).
    destruct (block_run_backward y st1 mz1 c Hy H3) as (z' & st2 & mz2 & mt2 & -> & _ & Hs2 & Ht2).
    destruct (Hnext (by_reg mz1) z' st2 mt2 Ht1 Hs2) as (-> & -> & Ha).
    destruct (IH n2 ltac:(lia) z st1 m1 mz2 x st' mz' (step_laid b st m z st1 m1 Hb Hs1) Hx) as (m' & Hr & Ht');
      [by eapply tracks_agree|done|].
    exists m'. split; [by eapply rtc_l|done].
Qed.
End Virtual.

(** ** The composition *)

Lemma live_interval (h : RegAllocFunction) z b k : wf_func h -> live_before h z b k -> b ∈ block_order h ->
  exists iv, (z, iv) ∈ LiveBuild.intervals (compute_live_intervals h).
Proof.
  intros Hwf. induction 1 as [b k i Hi Hu|b k i _ _ _ IH|b x Hx _ IH]; intros Hb.
  - destruct (intervals_contain h b k i z Hwf Hb Hi) as (iv & Hin & _); [left; by eapply live_use|]. by exists iv.
  - by apply IH.
  - apply IH. by apply (succs_ordered _ Hwf b).
Qed.

(** Where the value of a register is. *)
Definition located {Val} (h : RegAllocFunction) (s : LinearScan) (slots : gmap VReg Z) (mem : Z -> Val) (pm : Loc -> Val) (v : VReg) : Val :=
  match slots !! v with Some slot => mem slot | None => pm (loc (home h s) (id v)) end.

(** At the start of [b] the registers of [f] that are live in [h] are in their
    places, and so are the fixed registers that are still to be read. *)
Definition in_place {Val} (f h : RegAllocFunction) (s : LinearScan) (slots : gmap VReg Z) (b : nat) (rho : PReg -> Val) (m : VReg -> Val)
    (mem : Z -> Val) (pm : Loc -> Val) : Prop :=
  (forall v, func_reg f v -> live_before h (id v) b 0 -> located h s slots mem pm v = m v) /\
  forall q, fixed_before h q b 0 -> pm (Reg q) = rho q.

Definition regs_of (f : RegAllocFunction) : list VReg :=
  block_order f ≫= fun b => code f b ≫= fun i => vreg_defs i ++ vreg_uses i.

Lemma elem_of_regs f v : v ∈ regs_of f <-> func_reg f v.
Proof.
  unfold regs_of, func_reg. rewrite list_elem_of_bind. setoid_rewrite list_elem_of_bind. split.
  - intros (b & (i & Hv & Hi) & Hb). by exists b, i.
  - intros (b & i & Hb & Hi & Hv). exists b. split; [by exists i|done].
Qed.

Section Pipeline.
Context (f : RegAllocFunction) (Hwf : phi_wf f) (h : RegAllocFunction) (Hel : eliminated (split_critical_edges f).2 h).
Context (Hwfh : wf_func h) (Hname : one_name h).
Context (w : LiveInterval -> spec_float) (target : gmap RegClass (list PReg)) (config_hints : gmap VReg (list PReg)).
Context (s : LinearScan) (Hrun : linear_scan_arm w target config_hints h = inr s).
Context (slots : gmap VReg Z) (Hdom : forall v, is_Some (slots !! v) <-> v ∈ spills s).
Context {State Val : Type}.

Abbreviation ploc := (loc (home h s)).

Lemma spill_interval u : u ∈ spills s ->
  allocation s !! u = None /\ exists iv, (id u, iv) ∈ LiveBuild.intervals (compute_live_intervals h) /\ vreg iv = u.
Proof.
  intros Hu. destruct (arm_scanned h Hwfh w target config_hints) as (s' & Hrun' & ivs & Hperm & Hs). rewrite Hrun in Hrun'. injection Hrun' as <-.
  destruct (sc_spills _ _ _ _ _ _ Hs u Hu) as (Hn & j & x & _ & Hx & <- & _). split; [done|]. apply list_elem_of_lookup_2 in Hx. rewrite Hperm in Hx.
  apply list_elem_of_fmap in Hx as ([z iv] & -> & Hin). exists iv. split; [|done]. cbn in *. by destruct (intervals_ok h z iv Hwfh Hin) as (_ & <- & _).
Qed.

Lemma spill_names u v : u ∈ spills s -> v ∈ spills s -> id u = id v -> u = v.
Proof.
  intros (_ & iu & Hu & <-)%spill_interval (_ & iv & Hv & <-)%spill_interval E. rewrite E in Hu.
  by rewrite (intervals_functional h _ iu iv Hu Hv).
Qed.

Lemma spill_homeless u : u ∈ spills s -> home h s (id u) = None.
Proof. intros (Hn & iv & [_ Hk]%elem_of_intervals & Ev)%spill_interval. unfold home. rewrite Hk. cbn. by rewrite Ev. Qed.

(** The stores of the two machines in between. *)
Definition number_store (m : VReg -> Val) (mem : Z -> Val) (pm : Loc -> Val) (z : Z) : Val :=
  match list_find (fun v => id v = z) (regs_of f) with
  | Some (_, v) => m v
  | None => match list_find (fun v => id v = z) (spills s) with Some (_, v) => located h s slots mem pm v | None => pm (ploc z) end
  end.

Definition home_store (m : VReg -> Val) (mem : Z -> Val) (pm : Loc -> Val) (l : Loc) : Val :=
  match l with Reg p => pm (Reg p) | Slot z => number_store m mem pm z end.

Lemma number_tracks m mem pm : tracks f m (number_store m mem pm).
Proof.
  intros v Hv. unfold number_store. destruct (list_find _ _) as [[k v']|] eqn:E.
  - apply list_find_Some in E as (Hk & Ev & _). f_equal.
    apply Hname; [by apply (func_arena f Hwf h Hel)|apply (func_arena f Hwf h Hel), elem_of_regs; by eapply list_elem_of_lookup_2|done].
  - apply list_find_None in E. rewrite Forall_forall in E. destruct (E v); [by apply elem_of_regs|done].
Qed.

Lemma live_spilled v b : arena_reg h v -> live_before h (id v) b 0 -> b ∈ block_order h -> is_Some (slots !! v) <-> home h s (id v) = None.
Proof.
  intros Hv Hl Hb. destruct (live_interval h (id v) b 0 Hwfh Hl Hb) as [iv Hin].
  by apply (spilled_home h Hwfh Hname w target config_hints s Hrun slots Hdom v iv).
Qed.

Lemma number_matches b (st : State) rho m mem pm : b ∈ block_order h -> in_place f h s slots b rho m mem pm ->
  matches (State := State) h (home h s) (b, 0, (st, rho), number_store m mem pm) (b, 0, st, home_store m mem pm).
Proof.
  intros Hb [Hp Hf]. split_and!; try done. intros z Hz. unfold home_store, loc at 1. destruct (home h s z) as [p|] eqn:Eh; [|done].
  assert (Eloc : ploc z = Reg p) by (unfold loc; by rewrite Eh). unfold number_store. destruct (list_find _ (regs_of f)) as [[k v]|] eqn:E.
  - apply list_find_Some in E as (Hk & <- & _). assert (Hv : func_reg f v) by (apply elem_of_regs; by eapply list_elem_of_lookup_2).
    rewrite <- (Hp v Hv Hz). unfold located. destruct (slots !! v) as [slot|] eqn:Es; [|by rewrite Eloc].
    rewrite (proj1 (live_spilled v b (func_arena f Hwf h Hel v Hv) Hz Hb)) in Eh by (by exists slot). done.
  - destruct (list_find _ (spills s)) as [[k v]|] eqn:E'; [|by rewrite Eloc].
    apply list_find_Some in E' as (Hk & <- & _). by rewrite (spill_homeless v (list_elem_of_lookup_2 _ _ _ Hk)) in Eh.
Qed.

Lemma number_related b (st : State) rho m mem pm : b ∈ block_order h -> in_place f h s slots b rho m mem pm ->
  related h slots (b, 0, st, home_store m mem pm) (b, 0, (st, mem), pm).
Proof.
  intros Hb [Hp _]. split_and!; [done|done|done|done|lia|]. split; [done|]. intros v slot Hv Es Hl. cbn. unfold number_store.
  destruct (list_find _ (regs_of f)) as [[k v']|] eqn:E.
  - apply list_find_Some in E as (Hk & Ev & _). assert (Hf : func_reg f v') by (apply elem_of_regs; by eapply list_elem_of_lookup_2).
    assert (v' = v) as -> by (apply Hname; [by apply (func_arena f Hwf h Hel)|done|done]).
    rewrite <- (Hp v Hf Hl). unfold located. by rewrite Es.
  - assert (Hsp : v ∈ spills s) by (apply Hdom; by exists slot). destruct (list_find _ (spills s)) as [[k u]|] eqn:E'.
    + apply list_find_Some in E' as (Hk & Eu & _). rewrite (spill_names u v (list_elem_of_lookup_2 _ _ _ Hk) Hsp Eu). unfold located. by rewrite Es.
    + apply list_find_None in E'. rewrite Forall_forall in E'. by destruct (E' v Hsp).
Qed.

Lemma placed_after x (st : State) rho (m : VReg -> Val) (mz : Z -> Val) (pm2 : Loc -> Val) (st' : State) (mem : Z -> Val) (pm : Loc -> Val) :
  tracks f m mz -> matches (State := State) h (home h s) (x, 0, (st, rho), mz) (x, 0, st, pm2) ->
  related h slots (x, 0, st, pm2) (x, 0, (st', mem), pm) -> in_place f h s slots x rho m mem pm.
Proof.
  intros Ht (_ & _ & _ & Hx & Hm & Hf) (_ & _ & _ & _ & _ & Hr & Hs). split; [|intros q Hq; rewrite Hr; by apply Hf].
  intros v Hv Hl. pose proof (func_arena f Hwf h Hel v Hv) as Ha.
  pose proof (live_spilled v x Ha Hl Hx) as Hsp. rewrite (Ht v Hv), <- (Hm _ Hl). unfold located. destruct (slots !! v) as [slot|] eqn:Es.
  - cbn in Hs. rewrite (Hs v slot Ha Es Hl). unfold loc. by rewrite (proj1 Hsp) by by exists slot.
  - unfold loc. destruct (home h s (id v)) as [p|]; [done|]. destruct (proj2 Hsp eq_refl) as [? [=]].
Qed.
End Pipeline.

(** What the phases need of their input. *)
Record pipeline_wf (target : gmap RegClass (list PReg)) (func : SpillFunction) : Prop := mkPipelineWf {
  pl_phis : phi_wf (sfunc func);
  pl_names : one_name (sfunc func);
  pl_bound : forall v, arena_reg (sfunc func) v -> (id v < next_vreg (sfunc func))%Z;
  pl_copies : plain_copies (sfunc func);
  pl_defs : distinct_defs (sfunc func);
  pl_plain : unspilled (next_stack_slot func) (sfunc func);
  pl_next : (0 <= next_stack_slot func)%Z;
  pl_room : forall h, lower_phis (sfunc func) = Some h ->
    (inst_total h < 2 ^ 32 /\ next_stack_slot func + Z.of_nat (length (LiveBuild.intervals (compute_live_intervals h))) < 2 ^ 32)%Z;
  pl_fixed : forall h, lower_phis (sfunc func) = Some h -> fixed_regs_protected h target }.

Lemma pipeline_spill_wf target func h : pipeline_wf target func -> lower_phis (sfunc func) = Some h -> eliminated (split_critical_edges (sfunc func)).2 h ->
  spill_wf (mkSFunc h (next_stack_slot func) (stack_slots func)).
Proof.
  intros Hwf Eh Hel. destruct (pl_room _ _ Hwf h Eh) as [H1 H2]. split; cbn; try done.
  - by apply (lowered_wf (sfunc func)); [apply (pl_phis _ _ Hwf)|..].
  - apply (lowered_names (sfunc func)); [apply (pl_phis _ _ Hwf)|done|apply (pl_names _ _ Hwf)|apply (pl_bound _ _ Hwf)].
  - apply (lowered_unspilled _ (sfunc func)); [apply (pl_phis _ _ Hwf)|done|apply (pl_plain _ _ Hwf)].
  - apply (pl_next _ _ Hwf).
Qed.

(** C1: From phis to spilled code.  For every function with phis that is well-formed,
    uses every register number with one class,
    and whose values in allocatable fixed registers are protected after phi
    elimination, and for every machine in which copies copy, jumps jump, block
    operands only name targets and instructions read and write the fixed registers
    they list, edge splitting, phi elimination, linear scan, spill
    code and slot sharing all succeed, and the final code runs like the original:
    from registers and slots that hold what is live at the start of a block, every
    run of the original over whole blocks, with simultaneous assignments by the
    phis, is matched by a run of the final code to the start of the same block, with
    the same state, and with what is live there in place, in virtual and in fixed
    registers; and every run of the final code that reaches the start of an original
    block ends like a run of the original. *)
Theorem phis_to_spilled_code {State Val : Type}
    (eff : RegAllocInst -> State * (PReg -> Val) -> list Val -> State * (PReg -> Val) -> list Val -> Prop)
    (branch : State -> nat -> nat -> Prop) (func : SpillFunction) (w : LiveInterval -> spec_float)
    (target : gmap RegClass (list PReg)) (config_hints : gmap VReg (list PReg)) (reuse : bool) :
  pipeline_wf target func -> machine_ok eff -> fixed_machine target eff -> (forall st x, length (blocks (sfunc func)) <= x -> branch st x 0) ->
  exists h s slots, lower_phis (sfunc func) = Some h /\ linear_scan_arm w target config_hints h = inr s /\
  (forall v, is_Some (slots !! v) <-> v ∈ spills s) /\
  let live := LiveBuild.intervals (compute_live_intervals h) in
  let g := sfunc (spill_phases true reuse (mkSFunc h (next_stack_slot func) (stack_slots func)) (spills s) live).1 in
  let fstep := step eff (fun st => branch st.1) (sfunc func) in
  let gstep := pstep (spill_eff eff) (fun st => takes h branch st.1) g (home h s) in
  forall b st rho (m : VReg -> Val) mem pm, b ∈ block_order (sfunc func) -> in_place (sfunc func) h s slots b rho m mem pm ->
    (forall x st' rho' m', rtc fstep (b, (st, rho), m) (x, (st', rho'), m') ->
       exists mem' pm', rtc gstep (b, 0, (st, mem), pm) (x, 0, (st', mem'), pm') /\ in_place (sfunc func) h s slots x rho' m' mem' pm') /\
    (forall x st' mem' pm', x ∈ block_order (sfunc func) -> rtc gstep (b, 0, (st, mem), pm) (x, 0, (st', mem'), pm') ->
       exists rho' m', rtc fstep (b, (st, rho), m) (x, (st', rho'), m') /\ in_place (sfunc func) h s slots x rho' m' mem' pm').
Proof.
  intros Hp Hmach Hfm Hjumps. pose proof (pl_phis _ _ Hp) as Hwf. set (f := sfunc func) in *.
  destruct (eliminate_phis_spec _ (split_elim_wf f Hwf)) as (h & Eh & Hel). pose proof (pipeline_spill_wf target func h Hp Eh Hel) as Hsw.
  pose proof (sw_func _ Hsw) as Hwfh. pose proof (sw_names _ Hsw) as Hname. cbn [sfunc] in Hwfh, Hname.
  destruct (arm_scanned h Hwfh w target config_hints) as (s & Hrun & _). destruct (phases_code _ Hsw w target config_hints s Hrun reuse) as [slots Hsp].
  assert (Hplain : forall i, i ∈ insts h -> opcode i <> PSEUDO_SPILL_LOAD /\ opcode i <> PSEUDO_SPILL_STORE) by (intros i Hi; apply (sw_plain _ Hsw i Hi)).
  pose proof (sp_dom _ _ _ _ _ Hsp) as Hdom. pose proof (lowered_plain f h Hwf Hel (pl_copies _ _ Hp)) as Hcp.
  pose proof (pl_fixed _ _ Hp h Eh) as Hfix.
  exists h, s, slots. split; [done|]. split; [done|]. split; [done|]. intros live g fstep gstep b st rho m mem pm Hb Hin.
  assert (Hlaid : forall x, x ∈ block_order f -> x ∈ block_order h) by (intros x Hx; rewrite (el_order _ _ Hel); by apply (laid_split f Hwf)).
  pose proof (number_tracks f Hwf h Hel Hname s slots m mem pm) as Ht.
  pose proof (number_matches f Hwf h Hel Hwfh Hname w target config_hints s Hrun slots Hdom b st rho m mem pm (Hlaid b Hb) Hin) as Hm.
  pose proof (number_related f Hwf h Hel Hwfh Hname w target config_hints s Hrun slots Hdom b st rho m mem pm (Hlaid b Hb) Hin) as Hr. split.
  - intros x st' rho' m' Hs.
    destruct (source_run f Hwf h Hel Hwfh Hname eff (fun st => branch st.1) Hmach (fun st => Hjumps st.1) _ _ Hs _ Hb Ht) as (Hx & mz' & Hv & Ht'). cbn [fst snd] in *.
    destruct (run_forth eff (takes h branch) h Hwfh Hcp w target config_hints Hfm Hfix s Hrun _ _ _ (lowered_distinct f h Hwf Hel (pl_defs _ _ Hp)) Hm Hv)
      as ([[[x' k'] st2] pm2] & Hp2 & Hm'). pose proof Hm' as (-> & -> & -> & _).
    destruct (spill_run h Hwfh Hname w target config_hints s Hrun g slots Hsp Hplain eff (takes h branch) _ _ _ Hr Hp2)
      as ([[[x' k'] [st2 mem']] pm'] & Hg & Hr'). pose proof Hr' as (-> & -> & E & _). cbn in E. subst st2. exists mem', pm'. split; [exact Hg|].
    by eapply (placed_after f Hwf h Hel Hwfh Hname w target config_hints s Hrun slots Hdom x st' rho' m' mz' pm2).
  - intros x st' mem' pm' Hx [n Hn]%rtc_nsteps_1.
    destruct (spill_back h Hwfh Hname w target config_hints s Hrun g slots Hsp Hplain eff (takes h branch) n _ _ x 0 (st', mem') pm' Hr Hn (Hlaid x Hx) ltac:(lia))
      as (pm2 & Hp2 & Hr'). cbn [fst] in Hp2, Hr'.
    destruct (run_back eff (takes h branch) h Hwfh Hcp w target config_hints Hfm Hfix s Hrun _ _ _ Hm Hp2) as ([[[x' k'] [st2 rho']] mz'] & Hv & Hm').
    pose proof Hm' as (<- & <- & <- & _). apply rtc_nsteps_1 in Hv as [n' Hv].
    destruct (virtual_run f Hwf h Hel Hwfh Hname eff (fun st => branch st.1) Hmach n' b (st, rho) m _ x (st', rho') mz' Hb Hx Ht Hv) as (m' & Hs & Ht').
    exists rho', m'. split; [done|].
    by eapply (placed_after f Hwf h Hel Hwfh Hname w target config_hints s Hrun slots Hdom x st' rho' m' mz' pm2).
Qed.

(** A machine with a counter, which the first instructions read. *)
Definition counter_machine (i : RegAllocInst) (st : Z * (PReg -> Z)) (us : list Z) (st' : Z * (PReg -> Z)) (vals : list Z) : Prop :=
  (if decide (opcode i = 1%Z) then st'.1 = (st.1 + 1)%Z /\ vals = [st.1]
   else st'.1 = st.1 /\ vals = if is_copy_opcode (opcode i) then map (fun _ => sum_value i us st.2) (vreg_defs i) else []) /\
  st'.2 = sum_file i us st.2.

Lemma reads_blocks r i : preg_reads (map_blocks r i) = preg_reads i.
Proof. unfold preg_reads, preg_uses. cbn. f_equal. induction (uses i) as [|[] l IH]; cbn; by rewrite ?IH. Qed.

Lemma counter_machine_ok : machine_ok counter_machine.
Proof.
  split.
  - intros c [st rho] v [st' rho'] vals. unfold counter_machine. cbn. naive_solver.
  - intros d [st rho] [st' rho'] vals. unfold counter_machine. cbn. naive_solver.
  - intros r i st us st' vals. unfold counter_machine, sum_file, sum_value. by rewrite reads_blocks.
Qed.

Lemma counter_machine_fixed target : fixed_machine target counter_machine.
Proof.
  split.
  - intros i st rho us st' rho' vals q [_ E] Hn. cbn in E. subst rho'. by rewrite sum_file_at, decide_False.
  - intros i st rho us st' rho' vals rho1 [E1 E2] Heq. cbn in *. subst rho'. exists (sum_file i us rho1).
    pose proof (sum_value_local i us rho rho1 Heq) as Ev. unfold counter_machine. cbn. rewrite Ev. split; [done|].
    intros q Hq. by rewrite !sum_file_at, !decide_True.
  - intros i v p regs st rho x us st' rho' vals Hc Hd Hu _ _ [_ E]. cbn in E. subst rho'. by apply sum_file_copy.
Qed.

(** The swap loop with its first value from the argument in [X0], and one of the two
    returned there. *)
Definition demo_arg : RegAllocFunction :=
  let v n := VRegOp (mkVReg n Gpr64) in
  mkRFunc
    [ mkRInst 276 [v 0%Z] [PRegOp (mkPReg 0)] [] [] 0; mkRInst 1 [v 1%Z] [] [] [] 0; mkRInst 2 [] [BlockOp 1] [] [] 0x0A;
      mkRInst 3 [v 2%Z] [v 0%Z; v 3%Z] [] [] 0x100; mkRInst 3 [v 3%Z] [v 1%Z; v 2%Z] [] [] 0x100;
      mkRInst 4 [] [v 2%Z; BlockOp 1] [] [] 0x0A; mkRInst 276 [PRegOp (mkPReg 0)] [v 2%Z] [] [] 0; mkRInst 5 [] [] [] [mkPReg 0] 0x0C ]
    [ mkRBlock [0; 1; 2] [] [1] 0; mkRBlock [3; 4; 5] [0; 1] [1; 2] 1; mkRBlock [6; 7] [1] [] 0 ]
    [0; 1; 2] 0 4.

Lemma demo_arg_wf : phi_wf demo_arg.
Proof. apply three_blocks_wf; [done|apply wf_check_sound; by vm_compute|apply (bool_decide_unpack _); by vm_compute..|by vm_compute]. Qed.

Definition arg_func : SpillFunction := mkSFunc demo_arg 0 ∅.

(** [X0] holds a value at the entry only. *)
Lemma demo_arg_protected h target : lower_phis demo_arg = Some h -> wf_func h -> fixed_regs_protected h target.
Proof.
  intros Eh Hwf. vm_compute in Eh. injection Eh as <-.
  apply (protected_by_walk _ Hwf (fun b => if decide (b = 0) then [mkPReg 0] else [])).
  - intros b Hb. repeat (apply elem_of_cons in Hb as [->|Hb]; [by vm_compute|]). by apply elem_of_nil in Hb.
  - intros b k i a Hb Hi Hd Ha. exfalso.
    repeat (apply elem_of_cons in Hb as [->|Hb];
      [do 6 (try (destruct k as [|k]; [by (injection Hi as <-; vm_compute in Ha; apply elem_of_nil in Ha) || by (injection Hi as <-; apply Hd)|])); done|]).
    by apply elem_of_nil in Hb.
Qed.

Lemma arg_func_wf target : pipeline_wf target arg_func.
Proof.
  assert (Hregs : Forall (fun v => class v = Gpr64 /\ (id v < 4)%Z) (insts demo_arg ≫= fun i => vreg_defs i ++ vreg_uses i))
    by (apply (bool_decide_unpack _); by vm_compute).
  assert (Hroom : forall h, lower_phis demo_arg = Some h -> (inst_total h < 2 ^ 32 /\ 0 + Z.of_nat (length (LiveBuild.intervals (compute_live_intervals h))) < 2 ^ 32)%Z)
    by (intros h Eh; vm_compute in Eh; injection Eh as <-; by vm_compute).
  split; cbn [sfunc next_stack_slot arg_func].
  - exact demo_arg_wf.
  - apply (one_class_names _ Gpr64). eapply Forall_impl; [exact Hregs|]. by intros v [].
  - intros v (i & Hi & Hv). rewrite Forall_forall in Hregs. apply (Hregs v). apply list_elem_of_bind. by exists i.
  - assert (H : Forall (fun i => is_copy_opcode (opcode i) = true -> length (defs i) = 1 /\ implicit_defs i = []) (insts demo_arg))
      by (apply (bool_decide_unpack _); by vm_compute).
    rewrite Forall_forall in H. exact H.
  - assert (H : Forall (fun i => NoDup (ids (vreg_defs i))) (insts demo_arg)) by (apply (bool_decide_unpack _); by vm_compute).
    rewrite Forall_forall in H. exact H.
  - assert (H : Forall (fun i => (opcode i <> PSEUDO_SPILL_LOAD /\ opcode i <> PSEUDO_SPILL_STORE) /\ slot_operands i = []) (insts demo_arg))
      by (apply (bool_decide_unpack _); by vm_compute).
    rewrite Forall_forall in H. intros i Hi. destruct (H i Hi) as [Ho ->]. split; [done|]. by intros z []%elem_of_nil.
  - done.
  - exact Hroom.
  - intros h Eh. destruct (eliminate_phis_spec _ (split_elim_wf _ demo_arg_wf)) as (h' & Eh' & Hel).
    assert (h' = h) as -> by (unfold lower_phis in Eh; congruence).
    apply (demo_arg_protected h target Eh). by apply (lowered_wf demo_arg h demo_arg_wf Hel), Hroom.
Qed.

(** The source run: twice around the loop. *)
Lemma demo_arg_run (rho : PReg -> Z) (m : VReg -> Z) : exists m',
  rtc (step counter_machine (fun _ _ _ => True) demo_arg) (0, (7%Z, rho), m) (1, (8%Z, rho), m') /\ m' (mkVReg 2 Gpr64) = rho (mkPReg 0).
Proof.
  eexists. split.
  - eapply rtc_l; [|eapply rtc_l; [|eapply rtc_once]].
    + eapply (step_block _ _ _ 0 1 0 _ (8%Z, rho)); [|done|done|intros v; reflexivity].
      eapply (exec_cons _ _ _ _ _ (7%Z, rho)); [by split; [split|]|done|].
      eapply (exec_cons _ _ _ _ _ (8%Z, rho)); [by split; [split|]|done|].
      eapply (exec_cons _ _ _ _ _ (8%Z, rho)); [by split; [split|]|done|]. constructor.
    + eapply (step_block _ _ _ 1 1 0 _ (8%Z, rho)); [|done|done|intros v; reflexivity].
      eapply (exec_cons _ _ _ _ _ (8%Z, rho)); [by split; [split|]|done|]. constructor.
    + eapply (step_block _ _ _ 1 1 0 _ (8%Z, rho)); [|done|done|intros v; reflexivity].
      eapply (exec_cons _ _ _ _ _ (8%Z, rho)); [by split; [split|]|done|]. constructor.
  - vm_compute. reflexivity.
Qed.

(** On a machine with [X0] as its only register: after two rounds the place of the
    first register of the loop holds the argument again. *)
Lemma phis_to_spilled_code_witness :
  exists h s slots, lower_phis demo_arg = Some h /\ linear_scan_arm demo_weight one_register ∅ h = inr s /\
    let live := LiveBuild.intervals (compute_live_intervals h) in
    let g := sfunc (spill_phases true true (mkSFunc h 0 ∅) (spills s) live).1 in
    exists mem pm, located h s slots mem pm (mkVReg 2 Gpr64) = 5%Z /\
      rtc (pstep (spill_eff counter_machine) (fun st => takes h (fun _ _ _ => True) st.1) g (home h s))
        (0, 0, (7%Z, fun _ => 0%Z), demo_args) (1, 0, (8%Z, mem), pm).
Proof.
  destruct (phis_to_spilled_code counter_machine (fun _ _ _ => True) arg_func demo_weight one_register ∅ true (arg_func_wf one_register)
    counter_machine_ok (counter_machine_fixed one_register) ltac:(done)) as (h & s & slots & Eh & Hrun & _ & Hsim).
  exists h, s, slots. split; [exact Eh|]. split; [exact Hrun|]. intros live g.
  destruct (demo_arg_run (fun p => demo_args (Reg p)) (located h s slots (fun _ => 0%Z) demo_args)) as (m' & Hsrc & Hv).
  destruct (Hsim 0 7%Z (fun p => demo_args (Reg p)) (located h s slots (fun _ => 0%Z) demo_args) (fun _ => 0%Z) demo_args ltac:(left)) as [Hforth _].
  { by split. }
  destruct (Hforth 1 8%Z _ m' Hsrc) as (mem & pm & Hr & Hin & _).
  exists mem, pm. split; [|exact Hr]. etrans; [apply (Hin (mkVReg 2 Gpr64))|exact Hv].
  - apply elem_of_regs, (bool_decide_unpack _). by vm_compute.
  - vm_compute in Eh. injection Eh as <-. eapply live_use; [reflexivity|]. left.
Defined.

(** Registers of the swap loop are spilled, to three slots. *)
Example swap_spilled :
  match lower_phis demo_swap with
  | Some h =>
      match linear_scan_arm demo_weight one_register ∅ h with
      | inr s => (fun i => (id (spill_vreg i), spill_slot i)) <$>
          (spill_phases true true (mkSFunc h 0 ∅) (spills s) (LiveBuild.intervals (compute_live_intervals h))).2 = [(0, 0); (1, 1); (2, 2); (3, 0)]%Z
      | inl _ => False
      end
  | None => False
  end.
Proof. vm_compute. reflexivity. Qed.
